(* ===== verification/_CoqProject ===== *)
-Q . S2P
Prelude.v
Rust.v
StackWalk.v
Monad.v
Order.v
Decimal.v
Dag.v
Float.v
Json.v
Contract.v
Value.v
Budget.v
PostOrder.v
Source.v
Wire.v
WireDecode.v
WirePreflight.v
WireGraph.v
WireOrder.v
WireSpec.v
HqlScan.v
HqlSyntax.v
Request.v
HqlLower.v
HqlLowerSpec.v
HqlParse.v
HqlGrammar.v
HqlParseSpec.v
HqlJson.v
HqlPlan.v
Bind.v
BindQuery.v
QueryTyping.v
HqlBind.v
HqlScope.v
HqlSample.v
Eval.v
Answers.v
Kernels.v
Relational.v
PathKernels.v
PathSpec.v
RetrievalKernels.v
Executor.v
ExecSafe.v
PathTyping.v
RetrievalTyping.v
ExecTyping.v
Base64.v
KeyCodec.v
Journal.v
JournalStore.v
JournalSafety.v
JournalRecovery.v
JournalNumbers.v
Effect.v
Ledger.v
Consensus.v
ConsensusLedgers.v
ConsensusSafety.v
ConsensusOpen.v
ConsensusRuns.v
ConsensusSample.v
ConsensusAgreement.v
ConsensusSpec.v
ConsensusReopen.v
GraphEvents.v
GraphMemory.v
GraphInvariant.v
GraphSpec.v
GraphRefine.v
GraphReplication.v
GraphStore.v
GraphJournal.v
GraphSnapshot.v
GraphWrites.v
GraphCalls.v
GraphHistory.v
GraphSafety.v
GraphSample.v
