(* ===== verification/Prelude.v ===== *)
(** * GenesisBlockDB: a verification development (root file)

    GenesisBlockDB is an embedded graph and vector database in one Rust crate, [src/src/]. A
    write becomes an event, is signed, appended to a journal and projected to SQLite, and then
    applied to the graph in memory; peers exchange journalled events; proposals of sealed events
    are committed by a quorum of signed ballots; queries of the language HQL2 are bound against
    a catalogue and executed over rows with a budget. This development models the parts of that
    program that decide something, and proves what they promise. Definitions keep the names of
    the source; each file says which lines it translates.

    ** Vocabulary

    [Prelude], [Rust], [Order], [Monad], [Effect], [Float], [Decimal], [Json]: results with their
    monad, the standard library the engine uses (byte lists, UTF-8 strings as lists of bytes,
    machine integers as [Z] with the wrap or the check written out), comparisons and stable
    sorting, code that threads a state ([Monad]), code over a state that its errors keep and
    that a crash of the machine may stop ([Effect], with its Hoare triples), binary64, the
    decimal text of integers, and JSON values.

    ** The journal ([src/src/lib.rs])

    [Journal] is the wire format: frames, the active file's header, sealed segments. [JournalStore]
    is the writer thread with its batches, folds and seals, over files whose system calls may fail
    or stop the machine, and what the next open repairs and replays. [JournalSafety],
    [JournalNumbers] and [JournalRecovery] show over any number of sessions that what was
    acknowledged is recovered, that numbers increase, and that every message is answered once;
    [JournalNumbers] ends with the runs where an assumption is needed, and the instances the
    theorems are applied to. A crash keeps of each file a prefix of what was written after its last sync; a
    directory entry is durable once its directory was synced. [Base64] is the text of compacted
    signatures.

    ** Consensus ([src/src/lib.rs])

    [Ledger] and [Consensus] model the two append-only ledgers, ballots, receipts, rosters and
    every operation on a proposal up to its commit. What the checks before the commit answer and
    whether the journal's thread acknowledges comes from an environment, any answers at any time;
    a restart runs the same opening on what the crash left. Operations run under the commit lock,
    so they do not interleave. [ConsensusRuns] is the step relation (calls, crashes, restarts,
    folds), [ConsensusSafety] its invariant by rule induction, [ConsensusAgreement] the promises
    between nodes, [ConsensusSpec] an abstract specification with the refinement,
    [ConsensusReopen] that a node opens again, with counterexamples, and [ConsensusSample]
    instances.

    ** The graph and its replication ([src/src/lib.rs])

    [GraphEvents] has clocks, nodes, edges and the journal's events; [GraphMemory] the maps and
    indexes of the live graph, the one function that applies an event, the digest replicas compare,
    and the saving and loading of the maps; [GraphStore] every local write and the deliveries of
    peers: persistence first, memory after. [GraphSpec] is the specification, a last-writer-wins
    map without numbers, indexes or retired edges; [GraphInvariant] and [GraphRefine] show that
    every event keeps the graph in order and follows it. [GraphReplication] shows that what a
    replica holds is the greatest of what it was offered, so that order and repetition do not
    matter. [GraphJournal], [GraphWrites], [GraphCalls] and [GraphHistory] show, call
    by call and then for any history of calls, that the live graph is the one the replay of the
    journal makes. [GraphSnapshot] is the round trip of a snapshot; [GraphSafety] states the
    promises, [GraphSample] applies them, and shows what happens outside their hypotheses.

    The vector collections and the control state (generations, access policy, migration) are an
    interface, [Surroundings]; crates and the case tables of Unicode are [GraphCrates]; the wall
    clock, random identifiers, the journal's acknowledgement and the projection's outcome are
    inputs of the store. Integers are those of a release build, which wraps. Two bounds are
    hypotheses: the identifiers named stay below 2^32 numbers, and the logical clock does not reach
    its end; deliveries are asked not to carry a historical field on an edge, and not to retract an
    identifier that only edges name ([GraphSample] shows why). A [DashMap] is a finite map, and its
    iteration the map's list.

    ** Queries ([src/src/query/hql2/], [src/src/uee_v2.rs])

    A query reaches the executor in two ways, as a tree in JSON or as text; both end in the
    logical language, [Wire]. [Contract] and [Dag] are the validators of the v2 boundary;
    [Value] the types, parameters and results; [KeyCodec] the primary-key codec; [Budget] the
    limits and charges; [Source] the identities of sources and hydrated values.

    The request ([request.rs]): [Request] is the envelope, the mode and the
    snapshot it asks for, and the exact bound on its size.

    The tree: [WirePreflight] and [WireDecode] are the checks on the raw JSON and the decoder of
    expressions, [WireGraph] and [WireOrder] the checks of the operator graph and its
    topological listing; [WireSpec] shows which graphs and trees are accepted and what
    holds of them.

    The text ([syntax.rs], [ast.rs], [lower.rs]): [HqlScan] is the pass over a query's bytes that
    bounds its parser's work, with exactly what it lets through. [HqlParse] is the walk over the
    parse tree that builds the statement; [HqlGrammar] what the grammar of [hql2.pest] lets a tree
    hold, which the generated parser, a parameter, promises; [HqlParseSpec] shows that the walk
    of such a tree never panics and fails only for reasons of the caller's, and how deep its
    expressions are. [StackWalk] is the loop with a stack of tasks and one of results that the
    passes over syntax share, with its equality to recursion; [HqlSyntax] is the syntax tree,
    [HqlLower] the two passes over expressions and constants, [HqlPlan] the lowering of every
    statement and stage to operators. [HqlLowerSpec] gives the expressions accepted as a grammar
    with its three bounds; [HqlJson] shows that constants are measured to the byte and that no
    walk meets an inconsistent stack; [HqlPlan] and [HqlBind] show what the binder makes of a
    lowered graph, and [HqlScope] that the lowering tracks the names the binder gives to every
    operator, so that [RETURN *] projects exactly them; [HqlSample] applies these.

    The binder: [Bind], [PostOrder], [Dag], [BindQuery] and [QueryTyping] are the binder with
    its explicit stacks, shown equal to recursion and to return well-typed queries.

    The executor ([exec.rs], [plan.rs]): [Eval] is the
    evaluator, shown equal to recursion, sound for types, and, with [Answers], independent of
    budgets. [Kernels] and [Relational] are filter, projection,
    distinct, union, sort, join and aggregation with what they compute; [PathKernels] the search
    for paths and the four operators over it, and [PathSpec] that the search finds exactly the
    paths of the graph that follow a pattern; [RetrievalKernels] annotations, vector and lexical
    ranking and context packing; [Executor] the properties read before an operator runs, the
    plan with its explanation, and the loop over its operators. [ExecSafe] is a judgement for code that keeps
    to its types and fails only with errors a caller may see, with its rules and the relational
    operators; [PathTyping] and [RetrievalTyping] apply it to the others, and
    [ExecTyping] composes them with the binder's promise: a bound query answers rows of its
    columns. What reads annotations, properties and vectors from the projection is an argument,
    the graph is the snapshot the caller took, [size_of], clocks, Unicode's case tables, the
    logarithm and the comparisons a sort makes are classes.

    Loops with explicit stacks run on fuel that is the size of their input, or that is a power
    of two above the number of their rounds ([PathKernels.rounds]); theorems show that it never
    ends first.

    ** Not modelled

    The SQLite projection and its queries, the vector arenas and HNSW graphs, and the transport of
    deltas call libraries or the disk for most of what they do; cryptography, compression and
    checksums are parameters. The older grammar of HQL, whose statements [legacy.rs] rewrites as
    HQL2 text to be parsed again, is left out. The composition of a fold's payload and the
    migration of schemas walk the projection. The language bindings,
    the HTTP router and the applications around the crate translate and forward. *)
From Stdlib Require Export ZArith Lia.
From stdpp Require Export base tactics option list strings gmap.

(** Fallible code of the engine returns [Result<A, E>]. *)
Inductive result (E A : Type) : Type :=
| Ok (a : A)
| Err (e : E).
Arguments Ok {E A} _.
Arguments Err {E A} _.

#[global] Instance Ok_inj {E A} : Inj (=) (=) (@Ok E A).
Proof. by intros a b [= ->]. Qed.
#[global] Instance result_ret {E} : MRet (result E) := fun _ a => Ok a.
#[global] Instance result_bind {E} : MBind (result E) :=
  fun _ _ f r => match r with Ok a => f a | Err e => Err e end.
#[global] Instance result_fmap {E} : FMap (result E) :=
  fun _ _ f r => match r with Ok a => Ok (f a) | Err e => Err e end.

(** [Option::ok_or] *)
Definition ok_or {E A} (o : option A) (e : E) : result E A :=
  match o with Some a => Ok a | None => Err e end.

(** [Option::is_some] *)
Definition is_Some_b {A} (o : option A) : bool :=
  match o with Some _ => true | None => false end.

(** [Result::ok] *)
Definition result_ok {E A} (r : result E A) : option A :=
  match r with Ok a => Some a | Err _ => None end.

(** [Result::map_err] *)
Definition map_err {E E' A} (f : E -> E') (r : result E A) : result E' A :=
  match r with Ok a => Ok a | Err e => Err (f e) end.

Definition is_ok {E A} (r : result E A) : bool :=
  match r with Ok _ => true | Err _ => false end.

(** [iter().map(f).collect::<Result<Vec<_>, _>>()]: the first error stops. *)
Fixpoint traverse {E A B} (f : A -> result E B) (l : list A) : result E (list B) :=
  match l with
  | [] => Ok []
  | a :: l' => b ← f a; bs ← traverse f l'; Ok (b :: bs)
  end.

(** A [for] loop whose body may return early with an error. *)
Fixpoint try_for {E A S} (f : S -> A -> result E S) (s : S) (l : list A) : result E S :=
  match l with
  | [] => Ok s
  | a :: l' => s' ← f s a; try_for f s' l'
  end.

Lemma try_for_cons {E A S} (f : S -> A -> result E S) s a l :
  try_for f s (a :: l) = (f s a ≫= fun s' => try_for f s' l).
Proof. reflexivity. Qed.
Lemma try_for_app {E A S} (f : S -> A -> result E S) s l k :
  try_for f s (l ++ k) = (try_for f s l ≫= fun s' => try_for f s' k).
Proof.
  revert s; induction l as [|a l IH]; intros s; [done|].
  cbn [app]. rewrite !try_for_cons. destruct (f s a); cbn; auto.
Qed.
Lemma try_for_errors {E A S} (P : E -> Prop) (f : S -> A -> result E S) s l e :
  (forall s a e, f s a = Err e -> P e) -> try_for f s l = Err e -> P e.
Proof.
  intros Hf. revert s; induction l as [|a l IH]; intros s; cbn [try_for]; [done|].
  destruct (f s a) as [s'|e'] eqn:Ha; cbn; [apply IH|]. intros [= <-]. by eapply Hf.
Qed.

Section Result.
Context {E A B : Type}.
Implicit Types (r : result E A) (f : A -> result E B).

Lemma bind_Ok r f b : (r ≫= f) = Ok b <-> exists a, r = Ok a /\ f a = Ok b.
Proof. destruct r; simpl; naive_solver. Qed.

Lemma bind_Err r f e :
  (r ≫= f) = Err e <-> r = Err e \/ exists a, r = Ok a /\ f a = Err e.
Proof. destruct r; simpl; naive_solver. Qed.

Lemma ok_or_Ok (o : option A) (e : E) a : ok_or o e = Ok a <-> o = Some a.
Proof. destruct o; simpl; naive_solver. Qed.

Lemma ok_or_Err (o : option A) (e e' : E) : ok_or o e = Err e' <-> o = None /\ e' = e.
Proof. destruct o; simpl; naive_solver. Qed.

Lemma traverse_Ok f l bs :
  traverse f l = Ok bs <-> Forall2 (fun a b => f a = Ok b) l bs.
Proof.
  revert bs; induction l as [|a l IH]; intros bs; cbn [traverse].
  - split; [intros [= <-]; constructor | by inversion 1].
  - split.
    + destruct (f a) as [b|] eqn:Hb; [|done]; simpl.
      destruct (traverse f l) as [bs'|] eqn:Ht; [|done]; simpl.
      intros [= <-]. constructor; [done|]. by apply IH.
    + inversion 1 as [|? b ? bs' Hb Hl]; subst.
      apply IH in Hl. by rewrite Hb, Hl.
Qed.

Lemma traverse_Err f l e :
  traverse f l = Err e -> exists a, a ∈ l /\ f a = Err e.
Proof.
  induction l as [|a l IH]; simpl; [done|].
  destruct (f a) as [b|e'] eqn:Hf; simpl.
  - destruct (traverse f l) as [|e'] eqn:Ht; simpl; [done|].
    intros [= ->]. destruct IH as (a' & Ha & He); [done|].
    exists a'; split; [by right|done].
  - intros [= ->]. exists a; split; [by left|done].
Qed.
End Result.

Lemma traverse_length {E A B} (f : A -> result E B) l bs :
  traverse f l = Ok bs -> length bs = length l.
Proof. intros H%traverse_Ok. symmetry. by eapply Forall2_length. Qed.

Lemma traverse_ext {E A B} (f g : A -> result E B) l :
  (forall a, a ∈ l -> f a = g a) -> traverse f l = traverse g l.
Proof.
  intros H. induction l as [|a l IH]; simpl; [done|].
  rewrite (H a) by (by left). destruct (g a); simpl; [|done].
  rewrite IH; [done|]. intros a' Ha'. apply H. by right.
Qed.

Lemma traverse_total {E A B} (f : A -> result E B) (g : A -> B) l :
  (forall a, a ∈ l -> f a = Ok (g a)) -> traverse f l = Ok (g <$> l).
Proof.
  intros H. induction l as [|a l IH]; simpl; [done|].
  rewrite (H a) by (by left). simpl. rewrite IH; [done|].
  intros a' Ha'. apply H. by right.
Qed.

(** The development's tactics. *)

(** Splits every [bind] and [ok_or] among the hypotheses. *)
Ltac inv_result :=
  repeat match goal with
  | H : _ ≫= _ = Ok _ |- _ =>
      apply bind_Ok in H; let a := fresh "a" in let Ha := fresh "H" in
      destruct H as (a & Ha & H)
  | H : ok_or _ _ = Ok _ |- _ => apply ok_or_Ok in H
  | H : Ok _ = Ok _ |- _ => injection H as H
  | H : Ok _ = Err _ |- _ => discriminate H
  | H : Err _ = Ok _ |- _ => discriminate H
  | H : mret _ = Ok _ |- _ => injection H as H
  end.

(** Case analysis on the scrutinee of a match or an if in the goal, or in [H]. *)
Ltac case_goal :=
  match goal with
  | |- context [match ?x with _ => _ end] => destruct x eqn:?
  end.
Ltac case_in H :=
  match type of H with
  | context [match ?x with _ => _ end] => destruct x eqn:?
  end.

Ltac split_and_hyps :=
  repeat match goal with
  | H : _ /\ _ |- _ => destruct H
  | H : (_ && _)%bool = true |- _ => apply andb_true_iff in H
  | H : (_ || _)%bool = false |- _ => apply orb_false_iff in H
  | H : exists _, _ |- _ => destruct H
  end.

(** [lia] with quotients and remainders by constants. *)
Ltac div_lia := zify; Z.to_euclidean_division_equations; lia.

Create HintDb genesis.
#[export] Hint Rewrite @length_app @length_map @length_fmap @length_rev
  @length_take @length_drop @length_replicate : genesis.
#[export] Hint Resolve traverse_length : genesis.

(** Lists. *)

Definition list_max_with {A} (f : A -> nat) (l : list A) : nat :=
  foldr (fun a n => Nat.max (f a) n) 0 l.

Lemma list_max_with_le {A} (f : A -> nat) l a : a ∈ l -> f a <= list_max_with f l.
Proof.
  induction l as [|b l IH]; [by inversion 1|]. intros [->|H]%elem_of_cons; simpl; [lia|].
  specialize (IH H). lia.
Qed.

(** [Iterator::position] *)
Fixpoint position {A} (p : A -> bool) (l : list A) : option nat :=
  match l with
  | [] => None
  | a :: l' => if p a then Some 0 else S <$> position p l'
  end.

Lemma position_Some {A} (p : A -> bool) l i :
  position p l = Some i -> exists a, l !! i = Some a /\ p a = true.
Proof.
  revert i; induction l as [|a l IH]; intros i; simpl; [done|].
  destruct (p a) eqn:Hp.
  - intros [= <-]. eauto.
  - intros (j & Hj & ->)%fmap_Some. by apply IH.
Qed.

Lemma position_None {A} (p : A -> bool) l :
  position p l = None <-> forall a, a ∈ l -> p a = false.
Proof.
  induction l as [|a l IH]; simpl.
  - split; [intros _ a Ha; inversion Ha | done].
  - destruct (p a) eqn:Hp.
    + split; [done|]. intros H. specialize (H a (list_elem_of_here _ _)). congruence.
    + assert (S <$> position p l = None <-> position p l = None) as ->
        by (destruct (position p l); simpl; naive_solver).
      rewrite IH. split.
      * intros H b [->|Hb]%elem_of_cons; auto.
      * intros H b Hb. apply H. by right.
Qed.
Lemma position_app_r {A} (p : A -> bool) l k :
  (forall a, a ∈ l -> p a = false) -> position p (l ++ k) = Nat.add (length l) <$> position p k.
Proof.
  induction l as [|a l IH]; intros Hl; cbn [app position length].
  - by destruct (position p k).
  - rewrite Hl by left. rewrite IH by (intros b Hb; apply Hl; by right). by destruct (position p k).
Qed.

(** [HashSet::insert] as a duplicate test over a sequence. *)
Fixpoint has_dup {A} `{EqDecision A} (l : list A) : bool :=
  match l with
  | [] => false
  | a :: l' => bool_decide (a ∈ l') || has_dup l'
  end.

Lemma has_dup_false {A} `{EqDecision A} (l : list A) : has_dup l = false <-> NoDup l.
Proof.
  induction l as [|a l IH]; simpl; [split; [constructor|done]|].
  rewrite orb_false_iff, bool_decide_eq_false, IH, NoDup_cons. done.
Qed.

Lemma existsb_In_false {A} (p : A -> bool) l a : existsb p l = false -> a ∈ l -> p a = false.
Proof.
  intros Hl Ha. destruct (p a) eqn:Hp; [|done].
  enough (existsb p l = true) by congruence.
  apply existsb_exists. exists a. split; [by apply list_elem_of_In|done].
Qed.
Lemma existsb_false {A} (p : A -> bool) l :
  existsb p l = false <-> forall a, a ∈ l -> p a = false.
Proof.
  split; [intros H a; by apply existsb_In_false|].
  intros H. destruct (existsb p l) eqn:He; [|done].
  apply existsb_exists in He as (a & Ha & Hp). rewrite H in Hp; [done|]. by apply list_elem_of_In.
Qed.
Lemma NoDup_snoc {A} (xs : list A) x : NoDup (xs ++ [x]) <-> NoDup xs /\ x ∉ xs.
Proof.
  rewrite NoDup_app. split.
  - intros (Hx & Hn & _). split; [done|]. intros Hi. apply (Hn x Hi). by left.
  - intros [Hx Hn]. split_and!; [done| |apply NoDup_singleton].
    intros y Hy ->%list_elem_of_singleton. done.
Qed.
