(* ===== verification/Rust.v ===== *)
(** * The Rust standard library used by the engine

    Fixed-width integers with checked and saturating operations, byte strings,
    UTF-8 scalars of a [String], [Ord] orderings, [BTreeMap] as a strictly
    sorted association list, and the stable [slice::sort_by]. *)
From Stdlib Require Import Ascii.
From S2P Require Export Prelude.

(** ** Machine integers: an unsigned or signed [w]-bit integer is a [Z] in range. *)
Section Integers.
Local Open Scope Z_scope.

Definition u8_max : Z := 2 ^ 8 - 1.
Definition u16_max : Z := 2 ^ 16 - 1.
Definition u32_max : Z := 2 ^ 32 - 1.
Definition u64_max : Z := 2 ^ 64 - 1.
Definition i64_min : Z := - 2 ^ 63.
Definition i64_max : Z := 2 ^ 63 - 1.

Definition is_u64 (z : Z) : bool := (0 <=? z) && (z <=? u64_max).
Definition is_i64 (z : Z) : bool := (i64_min <=? z) && (z <=? i64_max).

Definition u64_checked_add (a b : Z) : option Z :=
  if a + b <=? u64_max then Some (a + b) else None.
Definition u64_checked_sub (a b : Z) : option Z :=
  if a <? b then None else Some (a - b).
Definition u64_saturating_add (a b : Z) : Z := Z.min (a + b) u64_max.
Definition u64_saturating_sub (a b : Z) : Z := Z.max 0 (a - b).
Definition u64_saturating_mul (a b : Z) : Z := Z.min (a * b) u64_max.

Definition i64_try (z : Z) : option Z := if is_i64 z then Some z else None.
Definition i64_checked_add (a b : Z) := i64_try (a + b).
Definition i64_checked_sub (a b : Z) := i64_try (a - b).
Definition i64_checked_mul (a b : Z) := i64_try (a * b).
Definition i64_checked_neg (a : Z) := i64_try (- a).
(** Rust's [/] and [%] truncate towards zero; [checked_rem] is [None] exactly
    where [checked_div] is, [i64::MIN % -1] included. *)
Definition i64_checked_div (a b : Z) : option Z :=
  if b =? 0 then None else i64_try (Z.quot a b).
Definition i64_checked_rem (a b : Z) : option Z :=
  if b =? 0 then None
  else if (a =? i64_min) && (b =? -1) then None else Some (Z.rem a b).

Lemma i64_try_Some z v : i64_try z = Some v -> v = z /\ is_i64 v = true.
Proof. unfold i64_try. destruct (is_i64 z) eqn:H; naive_solver. Qed.

Lemma is_i64_bounds z : is_i64 z = true <-> i64_min <= z <= i64_max.
Proof. unfold is_i64. rewrite andb_true_iff, !Z.leb_le. done. Qed.

Lemma is_u64_bounds z : is_u64 z = true <-> 0 <= z <= u64_max.
Proof. unfold is_u64. rewrite andb_true_iff, !Z.leb_le. done. Qed.

Lemma u64_saturating_add_le a b : u64_saturating_add a b <= u64_max.
Proof. unfold u64_saturating_add. lia. Qed.
Lemma u64_saturating_add_nonneg a b : 0 <= a -> 0 <= b -> 0 <= u64_saturating_add a b.
Proof. unfold u64_saturating_add, u64_max. lia. Qed.
Lemma u64_saturating_mul_nonneg a b : 0 <= a -> 0 <= b -> 0 <= u64_saturating_mul a b.
Proof. unfold u64_saturating_mul, u64_max. nia. Qed.
End Integers.

#[export] Hint Resolve u64_saturating_add_nonneg u64_saturating_mul_nonneg : genesis.

(** [len()] as a 64-bit quantity. *)
Section Zlen.
Local Open Scope Z_scope.
Definition zlen {A} (l : list A) : Z := Z.of_nat (length l).

Lemma zlen_app {A} (l k : list A) : zlen (l ++ k) = zlen l + zlen k.
Proof. unfold zlen. rewrite length_app. lia. Qed.
Lemma zlen_nonneg {A} (l : list A) : 0 <= zlen l.
Proof. unfold zlen. lia. Qed.
Lemma zlen_cons {A} (a : A) l : zlen (a :: l) = 1 + zlen l.
Proof. unfold zlen. cbn [length]. lia. Qed.
Definition zsum : list Z -> Z := foldr Z.add 0.
Lemma zsum_app l k : zsum (l ++ k) = zsum l + zsum k.
Proof. induction l; cbn; lia. Qed.
Lemma zsum_perm l k : l ≡ₚ k -> zsum l = zsum k.
Proof. induction 1; cbn in *; lia. Qed.
Lemma zsum_nonneg l : Forall (fun n => 0 <= n) l -> 0 <= zsum l.
Proof. induction 1; cbn; lia. Qed.

(** [Read::take]: at most [n] elements. *)
Fixpoint ztake {A} (n : Z) (l : list A) : list A :=
  match l with
  | [] => []
  | a :: l' => if n <=? 0 then [] else a :: ztake (n - 1) l'
  end.
Lemma ztake_all {A} n (l : list A) : zlen l <= n -> ztake n l = l.
Proof.
  revert n; induction l as [|a l IH]; intros n; [done|]. rewrite zlen_cons.
  pose proof (zlen_nonneg l). intros. cbn [ztake].
  destruct (Z.leb_spec n 0); [lia|]. rewrite IH; [done|lia].
Qed.
Lemma zlen_ztake {A} n (l : list A) : zlen (ztake n l) = Z.min (Z.max 0 n) (zlen l).
Proof.
  revert n; induction l as [|a l IH]; intros n; cbn [ztake].
  { unfold zlen. cbn. lia. }
  destruct (Z.leb_spec n 0).
  - unfold zlen. cbn [length]. lia.
  - rewrite !zlen_cons, IH. pose proof (zlen_nonneg l). lia.
Qed.
End Zlen.

(** ** Bytes *)

Notation byte := Ascii.ascii.

Definition byte_val (b : byte) : Z := Z.of_N (N_of_ascii b).
Definition byte_of (z : Z) : byte := ascii_of_N (Z.to_N (z mod 256)).

Lemma byte_val_bounds b : (0 <= byte_val b < 256)%Z.
Proof. unfold byte_val. pose proof (N_ascii_bounded b). lia. Qed.
Lemma byte_val_of z : byte_val (byte_of z) = (z mod 256)%Z.
Proof.
  unfold byte_val, byte_of. pose proof (Z.mod_pos_bound z 256 eq_refl).
  rewrite N_ascii_embedding by lia. lia.
Qed.
Lemma byte_of_val b : byte_of (byte_val b) = b.
Proof.
  unfold byte_of. rewrite Z.mod_small by apply byte_val_bounds.
  unfold byte_val. rewrite N2Z.id. apply ascii_N_embedding.
Qed.
Lemma byte_of_small z : (0 <= z < 256)%Z -> byte_val (byte_of z) = z.
Proof. intros. by rewrite byte_val_of, Z.mod_small. Qed.
Lemma byte_val_inj b c : byte_val b = byte_val c -> b = c.
Proof. intros H. by rewrite <- (byte_of_val b), H, byte_of_val. Qed.
Lemma byte_of_eq z b : (z mod 256)%Z = byte_val b -> byte_of z = b.
Proof. intros H. apply byte_val_inj. by rewrite byte_val_of. Qed.
#[export] Hint Resolve byte_val_bounds : genesis.

(** [to_le_bytes], [from_le_bytes] and their big-endian counterparts. *)
Fixpoint le_bytes (n : nat) (z : Z) : list byte :=
  match n with
  | 0 => []
  | S n' => byte_of z :: le_bytes n' (z / 256)
  end.
Fixpoint le_val (l : list byte) : Z :=
  match l with
  | [] => 0
  | b :: l' => byte_val b + 256 * le_val l'
  end.
Definition be_bytes (n : nat) (z : Z) : list byte := rev (le_bytes n z).
Definition be_val (l : list byte) : Z := le_val (rev l).

Lemma length_le_bytes n z : length (le_bytes n z) = n.
Proof. revert z; induction n; simpl; auto. Qed.
Lemma length_be_bytes n z : length (be_bytes n z) = n.
Proof. unfold be_bytes. by rewrite length_rev, length_le_bytes. Qed.
#[export] Hint Rewrite length_le_bytes length_be_bytes : genesis.

Section LittleEndian.
Local Open Scope Z_scope.

Lemma le_val_bound l : 0 <= le_val l < 256 ^ Z.of_nat (length l).
Proof.
  induction l as [|b l IH]; [simpl; lia|].
  cbn [le_val length]. rewrite Nat2Z.inj_succ, Z.pow_succ_r by lia.
  pose proof (byte_val_bounds b). lia.
Qed.

Lemma le_val_bytes n z : le_val (le_bytes n z) = z mod 256 ^ Z.of_nat n.
Proof.
  revert z; induction n as [|n IH]; intros z.
  { simpl. by rewrite Z.mod_1_r. }
  cbn [le_bytes le_val]. rewrite IH, byte_val_of.
  rewrite Nat2Z.inj_succ, Z.pow_succ_r by lia.
  rewrite Z.rem_mul_r by lia. lia.
Qed.

Lemma le_val_bytes_small n z :
  0 <= z < 256 ^ Z.of_nat n -> le_val (le_bytes n z) = z.
Proof. intros. by rewrite le_val_bytes, Z.mod_small. Qed.

Lemma le_bytes_val l : le_bytes (length l) (le_val l) = l.
Proof.
  induction l as [|b l IH]; [done|]. cbn [length le_val le_bytes].
  pose proof (byte_val_bounds b). f_equal.
  - rewrite <- (byte_of_val b) at 2. unfold byte_of. f_equal. f_equal.
    rewrite Z.mul_comm, Z.mod_add by lia. done.
  - replace ((byte_val b + 256 * le_val l) / 256) with (le_val l); [done|].
    rewrite Z.mul_comm, Z.div_add by lia. rewrite Z.div_small by lia. lia.
Qed.

Lemma be_val_bytes_small n z :
  0 <= z < 256 ^ Z.of_nat n -> be_val (be_bytes n z) = z.
Proof. intros. unfold be_val, be_bytes. by rewrite rev_involutive, le_val_bytes_small. Qed.

Lemma le_bytes_inj n x y :
  0 <= x < 256 ^ Z.of_nat n -> 0 <= y < 256 ^ Z.of_nat n ->
  le_bytes n x = le_bytes n y -> x = y.
Proof. intros Hx Hy H. by rewrite <- (le_val_bytes_small n x), H, le_val_bytes_small. Qed.

Lemma be_bytes_inj n x y :
  0 <= x < 256 ^ Z.of_nat n -> 0 <= y < 256 ^ Z.of_nat n ->
  be_bytes n x = be_bytes n y -> x = y.
Proof. intros Hx Hy H. by rewrite <- (be_val_bytes_small n x), H, be_val_bytes_small. Qed.
End LittleEndian.

(** ** Strings: a Rust [String] is its UTF-8 bytes. *)

Definition str_bytes (s : string) : list byte := String.list_ascii_of_string s.
Definition str_of_bytes (l : list byte) : string := String.string_of_list_ascii l.
Definition str_len (s : string) : nat := String.length s.

Lemma str_bytes_of l : str_bytes (str_of_bytes l) = l.
Proof. apply String.list_ascii_of_string_of_list_ascii. Qed.
Lemma str_of_bytes_of s : str_of_bytes (str_bytes s) = s.
Proof. apply String.string_of_list_ascii_of_string. Qed.
Lemma str_bytes_inj s t : str_bytes s = str_bytes t -> s = t.
Proof. intros H. by rewrite <- (str_of_bytes_of s), H, str_of_bytes_of. Qed.
Lemma length_str_bytes s : length (str_bytes s) = str_len s.
Proof. unfold str_len. induction s; simpl; auto. Qed.

Lemma str_bytes_app s t : str_bytes (s +:+ t) = str_bytes s ++ str_bytes t.
Proof. induction s as [|a s IH]; simpl; [done|]. f_equal. apply IH. Qed.

(** [to_ascii_lowercase], [to_ascii_uppercase], [eq_ignore_ascii_case] *)
Definition ascii_lower (b : byte) : byte :=
  if ((65 <=? byte_val b) && (byte_val b <=? 90))%Z then byte_of (byte_val b + 32) else b.
Definition ascii_upper (b : byte) : byte :=
  if ((97 <=? byte_val b) && (byte_val b <=? 122))%Z then byte_of (byte_val b - 32) else b.
Definition to_ascii_lowercase (s : string) : string := str_of_bytes (ascii_lower <$> str_bytes s).
Definition to_ascii_uppercase (s : string) : string := str_of_bytes (ascii_upper <$> str_bytes s).
Definition eq_ignore_ascii_case (a b : string) : bool :=
  bool_decide (ascii_lower <$> str_bytes a = ascii_lower <$> str_bytes b).

(** Number of bytes of the scalar whose first byte is [b]. *)
Definition utf8_width (b : byte) : nat :=
  if (byte_val b <? 128)%Z then 1
  else if (byte_val b <? 224)%Z then 2
  else if (byte_val b <? 240)%Z then 3 else 4.

Fixpoint chars_fuel (fuel : nat) (l : list byte) : list (list byte) :=
  match fuel, l with
  | S fuel', b :: _ => take (utf8_width b) l :: chars_fuel fuel' (drop (utf8_width b) l)
  | _, _ => []
  end.
(** [str::chars], each scalar as its bytes. *)
Definition chars (s : string) : list (list byte) :=
  chars_fuel (str_len s) (str_bytes s).

(** The code point of a scalar. *)
Definition scalar_code (c : list byte) : Z :=
  match byte_val <$> c with
  | [a] => a
  | [a; b] => (a mod 32) * 64 + b mod 64
  | [a; b; d] => (a mod 16) * 4096 + (b mod 64) * 64 + d mod 64
  | [a; b; d; e] => (a mod 8) * 262144 + (b mod 64) * 4096 + (d mod 64) * 64 + e mod 64
  | _ => 0
  end%Z.

(** [char::is_whitespace]: the [White_Space] property. *)
Definition is_whitespace (c : list byte) : bool :=
  let p := scalar_code c in
  ((9 <=? p) && (p <=? 13) || (p =? 32) || (p =? 133) || (p =? 160) || (p =? 5760)
   || (8192 <=? p) && (p <=? 8202) || (p =? 8232) || (p =? 8233) || (p =? 8239)
   || (p =? 8287) || (p =? 12288))%Z.

Lemma utf8_width_pos b : 1 <= utf8_width b.
Proof. unfold utf8_width. repeat case_match; lia. Qed.

Lemma chars_fuel_concat fuel l : length l <= fuel -> concat (chars_fuel fuel l) = l.
Proof.
  revert l; induction fuel as [|fuel IH]; intros [|b l] H; simpl in *; try done; try lia.
  pose proof (utf8_width_pos b). destruct (utf8_width b) as [|w]; [lia|].
  simpl. rewrite IH by (rewrite length_drop; lia). by rewrite take_drop.
Qed.
Lemma chars_concat s : concat (chars s) = str_bytes s.
Proof. apply chars_fuel_concat. by rewrite length_str_bytes. Qed.

(** ** Splitting strings *)

(** [str::strip_prefix] and [str::strip_suffix] *)
Fixpoint strip_bytes (p l : list byte) : option (list byte) :=
  match p, l with
  | [], _ => Some l
  | b :: p', c :: l' => if bool_decide (b = c) then strip_bytes p' l' else None
  | _, [] => None
  end.
Definition strip_prefix (p s : string) : option string :=
  str_of_bytes <$> strip_bytes (str_bytes p) (str_bytes s).
Definition strip_suffix (p s : string) : option string :=
  (fun l => str_of_bytes (rev l)) <$> strip_bytes (rev (str_bytes p)) (rev (str_bytes s)).

Lemma strip_bytes_Some p l k : strip_bytes p l = Some k <-> l = p ++ k.
Proof.
  revert l; induction p as [|b p IH]; intros l; cbn [strip_bytes app].
  - split; congruence.
  - destruct l as [|c l]; [done|]. case_bool_decide as E.
    + rewrite IH. subst. split; congruence.
    + split; [done|]. congruence.
Qed.

(** [str::split] at a byte: always at least one part. *)
Fixpoint split_bytes (sep : byte) (l : list byte) : list (list byte) :=
  match l with
  | [] => [[]]
  | b :: l' =>
      if bool_decide (b = sep) then [] :: split_bytes sep l'
      else match split_bytes sep l' with
           | part :: parts => (b :: part) :: parts
           | [] => [[b]]
           end
  end.

Lemma split_bytes_none sep l : sep ∉ l -> split_bytes sep l = [l].
Proof.
  induction l as [|b l IH]; [done|]. rewrite not_elem_of_cons. intros [Hb Hl]. cbn [split_bytes].
  rewrite bool_decide_eq_false_2 by congruence. by rewrite IH.
Qed.
Lemma split_bytes_app sep l k : sep ∉ l -> split_bytes sep (l ++ sep :: k) = l :: split_bytes sep k.
Proof.
  induction l as [|b l IH]; cbn [app split_bytes].
  - by rewrite bool_decide_eq_true_2.
  - rewrite not_elem_of_cons. intros [Hb Hl].
    rewrite bool_decide_eq_false_2 by congruence. by rewrite IH.
Qed.
Lemma split_bytes_parts sep l part : part ∈ split_bytes sep l -> sep ∉ part.
Proof.
  revert part; induction l as [|b l IH]; intros part; cbn [split_bytes].
  - intros ->%list_elem_of_singleton H. inversion H.
  - case_bool_decide as E.
    + intros [->|H]%elem_of_cons; [intros H; inversion H|by apply IH].
    + destruct (split_bytes sep l) as [|p ps]; [intros ->%list_elem_of_singleton|].
      * rewrite not_elem_of_cons. split; [congruence|intros H; inversion H].
      * intros [->|H]%elem_of_cons; [|apply IH; by right].
        rewrite not_elem_of_cons. split; [congruence|]. apply IH. by left.
Qed.
Lemma split_bytes_ne sep l : split_bytes sep l <> [].
Proof.
  destruct l as [|b l]; [done|]. cbn [split_bytes]. case_bool_decide; [done|].
  by destruct (split_bytes sep l).
Qed.
Lemma split_bytes_join sep l : l = match split_bytes sep l with
  | p :: ps => p ++ concat ((fun q => sep :: q) <$> ps) | [] => [] end.
Proof.
  induction l as [|b l IH]; [done|]. cbn [split_bytes].
  pose proof (split_bytes_ne sep l).
  case_bool_decide as E; [subst b|]; destruct (split_bytes sep l) as [|p ps]; try done;
    subst l; done.
Qed.
