(* ===== verification/StackWalk.v ===== *)
(** * Tree walks with a stack of tasks and a stack of results

    Several passes over a tree keep two stacks: tasks still to do, and results still to be
    used. A visit either gives a result at once, or asks for the results of some
    subtrees and then a step that builds one result from them. The loop is modelled once
    and proved equal to the recursive walk, errors and their order included. *)
From S2P Require Export Prelude.

Section StackWalk.
Context {T B V E : Type}.
Inductive walk_task := Visit (t : T) (depth : nat) | Build (b : B).

Variable visit : T -> nat -> result E (V + list T * B).
Variable build : B -> list V -> result E (list V).

Definition walk_step (task : walk_task) (tasks : list walk_task) (results : list V)
  : result E (list walk_task * list V) :=
  match task with
  | Visit t d =>
      r ← visit t d;
      match r with
      | inl v => Ok (tasks, v :: results)
      | inr (cs, b) => Ok (((fun c => Visit c (S d)) <$> cs) ++ Build b :: tasks, results)
      end
  | Build b => results ← build b results; Ok (tasks, results)
  end.

(** [while let Some(task) = tasks.pop()]; the heads are the tops of the stacks, and the
    answer is missing when the fuel runs out. *)
Fixpoint stack_loop (fuel : nat) (tasks : list walk_task) (results : list V)
  : option (result E (list V)) :=
  match fuel with
  | O => None
  | S fuel =>
      match tasks with
      | [] => Some (Ok results)
      | task :: tasks =>
          match walk_step task tasks results with
          | Ok (tasks, results) => stack_loop fuel tasks results
          | Err e => Some (Err e)
          end
      end
  end.

(** The walk of one tree; [shape] is the error of a stack that does not hold one result. *)
Definition stack_walk (fuel : nat) (shape : E) (t : T) (depth : nat) : option (result E V) :=
  r ← stack_loop fuel [Visit t depth] [];
  Some (results ← r; match results with [v] => Ok v | _ => Err shape end).

(** ** The recursive walk *)

Variable size : T -> nat.
Variable build1 : B -> list V -> result E V.
Variable rec : T -> nat -> result E V.
Hypothesis size_lt : forall t d cs b, visit t d = Ok (inr (cs, b)) ->
  list_sum (map size cs) < size t.
Hypothesis rec_eq : forall t d, rec t d =
  match visit t d with
  | Ok (inl v) => Ok v
  | Ok (inr (cs, b)) => vs ← traverse (fun c => rec c (S d)) cs; build1 b vs
  | Err e => Err e
  end.
(** A step uses exactly the results its visit asked for. *)
Hypothesis build_spec : forall t d cs b vs st, visit t d = Ok (inr (cs, b)) ->
  length vs = length cs -> build b (rev vs ++ st) = (fun v => v :: st) <$> build1 b vs.
Hypothesis size_pos : forall t, 0 < size t.

Definition walks_to (tasks : list walk_task) (k : nat) (r : result E (list V)) : Prop :=
  forall n rest st, stack_loop (k + n) (tasks ++ rest) st =
    match r with Ok vs => stack_loop n rest (rev vs ++ st) | Err e => Some (Err e) end.

Definition tree_walks (t : T) : Prop := forall d, exists k, k <= 2 * size t /\
  walks_to [Visit t d] k ((fun v => [v]) <$> rec t d).

Lemma trees_walk cs d : Forall tree_walks cs -> exists k, k <= 2 * list_sum (map size cs) /\
  walks_to ((fun c => Visit c d) <$> cs) k (traverse (fun c => rec c d) cs).
Proof.
  induction 1 as [|c cs Hc _ IH]; [exists 0; split; [cbn; lia|done]|].
  destruct (Hc d) as (k1 & Hk1 & H1), IH as (k2 & Hk2 & H2).
  exists (k1 + k2). split.
  { cbn [map]. change (list_sum (?n :: ?l)) with (n + list_sum l). lia. }
  intros n rest st. rewrite fmap_cons. cbn [app traverse].
  rewrite <- Nat.add_assoc. specialize (H1 (k2 + n) (((fun c => Visit c d) <$> cs) ++ rest) st).
  cbn [app] in H1. rewrite H1. destruct (rec c d) as [v|e]; cbn; [|done].
  rewrite H2. destruct (traverse (fun c => rec c d) cs) as [vs|e]; cbn; [|done].
  by rewrite <- app_assoc.
Qed.

Lemma tree_walks_all t : tree_walks t.
Proof.
  induction t as [t IH] using (Nat.measure_induction _ size). intros d. rewrite rec_eq.
  destruct (visit t d) as [[v|[cs b]]|e] eqn:Hv.
  - exists 1. split; [pose proof (size_pos t); lia|]. intros n rest st. cbn. by rewrite Hv.
  - pose proof (size_lt t d cs b Hv) as Hlt.
    assert (Forall tree_walks cs) as Hcs.
    { apply Forall_forall. intros c Hc. apply IH. clear -Hc Hlt.
      assert (size c <= list_sum (map size cs)); [|lia]. clear Hlt.
      induction Hc; cbn [map]; change (list_sum (?n :: ?l)) with (n + list_sum l); lia. }
    destruct (trees_walk cs (S d) Hcs) as (k & Hk & Hw). exists (S (k + 1)). split; [lia|].
    intros n rest st. cbn [Nat.add app stack_loop walk_step]. rewrite Hv. cbn [mbind result_bind].
    replace (k + 1 + n) with (k + S n) by lia. rewrite Hw.
    destruct (traverse (fun c => rec c (S d)) cs) as [vs|e] eqn:Ht; cbn; [|done].
    rewrite (build_spec t d cs b vs st Hv) by by eapply traverse_length.
    by destruct (build1 b vs).
  - exists 1. split; [pose proof (size_pos t); lia|]. intros n rest st. cbn. by rewrite Hv.
Qed.

Lemma stack_walk_rec fuel shape t d : 2 * size t < fuel ->
  stack_walk fuel shape t d = Some (rec t d).
Proof.
  intros Hf. destruct (tree_walks_all t d) as (k & Hk & Hw). unfold stack_walk.
  replace fuel with (k + S (fuel - k - 1)) by lia.
  specialize (Hw (S (fuel - k - 1)) [] []). cbn [app] in Hw. rewrite Hw.
  by destruct (rec t d).
Qed.
End StackWalk.
Arguments walk_task : clear implicits.

(** ** The recursive walk of a given visit and build

    [size] bounds the recursion, so the walk is defined for every pass at once, and its
    equation is the recursive reading of the pass. *)
Section WalkRec.
Context {T B V E : Type}.
Variable visit : T -> nat -> result E (V + list T * B).
Variable build : B -> list V -> result E (list V).
Variable size : T -> nat.
Variable shape : E.

(** The step on the results it asked for, and nothing else on the stack *)
Definition build_one (b : B) (vs : list V) : result E V :=
  results ← build b (rev vs);
  match results with [v] => Ok v | _ => Err shape end.

Fixpoint walk_fuel_rec (fuel : nat) (t : T) (depth : nat) : result E V :=
  match fuel with
  | O => Err shape
  | S fuel =>
      r ← visit t depth;
      match r with
      | inl v => Ok v
      | inr (cs, b) => vs ← traverse (fun c => walk_fuel_rec fuel c (S depth)) cs; build_one b vs
      end
  end.
Definition walk_rec (t : T) (depth : nat) : result E V := walk_fuel_rec (size t) t depth.

Hypothesis size_lt : forall t d cs b, visit t d = Ok (inr (cs, b)) ->
  list_sum (map size cs) < size t.
Hypothesis size_pos : forall t, 0 < size t.
Hypothesis build_frame : forall t d cs b vs st, visit t d = Ok (inr (cs, b)) ->
  length vs = length cs -> build b (rev vs ++ st) = (fun v => v :: st) <$> build_one b vs.

Lemma child_size c cs : c ∈ cs -> size c <= list_sum (map size cs).
Proof.
  induction 1 as [c cs|c c' cs _ IH]; cbn [map];
    change (list_sum (?n :: ?l)) with (n + list_sum l); lia.
Qed.
Lemma visit_child_lt t d cs b c : visit t d = Ok (inr (cs, b)) -> c ∈ cs -> size c < size t.
Proof. intros Hv Hc. pose proof (size_lt t d cs b Hv). pose proof (child_size c cs Hc). lia. Qed.

Lemma walk_fuel_enough fuel fuel' t d : size t <= fuel -> size t <= fuel' ->
  walk_fuel_rec fuel t d = walk_fuel_rec fuel' t d.
Proof.
  revert fuel' t d; induction fuel as [|fuel IH]; intros fuel' t d H H';
    pose proof (size_pos t); [lia|].
  destruct fuel' as [|fuel']; [lia|]. cbn [walk_fuel_rec].
  destruct (visit t d) as [[v|[cs b]]|e] eqn:Hv; cbn; try done.
  enough (traverse (fun c => walk_fuel_rec fuel c (S d)) cs
    = traverse (fun c => walk_fuel_rec fuel' c (S d)) cs) as -> by done.
  apply traverse_ext. intros c Hc. pose proof (visit_child_lt t d cs b c Hv Hc). apply IH; lia.
Qed.

Lemma walk_rec_eq t d : walk_rec t d =
  match visit t d with
  | Ok (inl v) => Ok v
  | Ok (inr (cs, b)) => vs ← traverse (fun c => walk_rec c (S d)) cs; build_one b vs
  | Err e => Err e
  end.
Proof.
  unfold walk_rec. pose proof (size_pos t).
  destruct (size t) as [|n] eqn:Hn; [lia|]. cbn [walk_fuel_rec].
  destruct (visit t d) as [[v|[cs b]]|e] eqn:Hv; cbn; try done.
  enough (traverse (fun c => walk_fuel_rec n c (S d)) cs
    = traverse (fun c => walk_fuel_rec (size c) c (S d)) cs) as -> by done.
  apply traverse_ext. intros c Hc. pose proof (visit_child_lt t d cs b c Hv Hc).
  apply walk_fuel_enough; lia.
Qed.

Lemma stack_walk_eq fuel t d : 2 * size t < fuel ->
  stack_walk visit build fuel shape t d = Some (walk_rec t d).
Proof. eapply stack_walk_rec; eauto using walk_rec_eq. Qed.

(** What a pass answers, from what it answers on the parts *)
Lemma walk_rec_ind (P : T -> nat -> V -> Prop) :
  (forall t d v, visit t d = Ok (inl v) -> P t d v) ->
  (forall t d cs b vs v, visit t d = Ok (inr (cs, b)) -> Forall2 (fun c => P c (S d)) cs vs ->
     build_one b vs = Ok v -> P t d v) ->
  forall t d v, walk_rec t d = Ok v -> P t d v.
Proof.
  intros Hleaf Hnode t. induction t as [t IH] using (Nat.measure_induction _ size).
  intros d v. rewrite walk_rec_eq.
  destruct (visit t d) as [[w|[cs b]]|e] eqn:Hv; intros H; simplify_eq.
  - by apply Hleaf.
  - apply bind_Ok in H as (vs & Hvs%traverse_Ok & Hb). refine (Hnode t d cs b vs v Hv _ Hb).
    apply Forall2_same_length_lookup. split; [by eapply Forall2_length|].
    intros i c w Hc Hw. apply (IH c); [eauto using visit_child_lt, list_elem_of_lookup_2|].
    by apply (Forall2_lookup_lr _ _ _ _ _ _ Hvs Hc Hw).
Qed.
End WalkRec.

(** Taking the results a step asked for off the top of the stack *)
Definition take_results {V E} (e : E) (count : nat) (st : list V) : result E (list V * list V) :=
  if length st <? count then Err e else Ok (rev (take count st), drop count st).
Definition pop_result {V E} (e : E) (st : list V) : result E (V * list V) :=
  match st with v :: st => Ok (v, st) | [] => Err e end.

Lemma take_results_rev {V E} (e : E) (vs st : list V) n : length vs = n ->
  take_results e n (rev vs ++ st) = Ok (vs, st).
Proof.
  intros <-. unfold take_results. rewrite length_app, length_rev.
  destruct (Nat.ltb_spec (length vs + length st) (length vs)); [lia|].
  rewrite <- (length_rev vs), take_app_length, drop_app_length, rev_involutive. done.
Qed.
