(* ===== verification/Monad.v ===== *)
(** * Stateful fallible code

    The state-and-error monad in which the execution kernel is written ([&mut] budgets
    and registries with [?] on errors), and the Hoare triples its invariants are
    proved with. The state reached before an error is dropped with it: the code
    abandons a query at its first error. *)
From S2P Require Export Rust.

Definition SM (S E A : Type) : Type := S -> result E (A * S).

#[export] Instance sm_ret {S E} : MRet (SM S E) := fun _ a s => Ok (a, s).
#[export] Instance sm_bind {S E} : MBind (SM S E) :=
  fun _ _ f m s => match m s with Ok (a, s') => f a s' | Err e => Err e end.
#[export] Instance sm_fmap {S E} : FMap (SM S E) :=
  fun _ _ f m s => match m s with Ok (a, s') => Ok (f a, s') | Err e => Err e end.

(** A fallible step that leaves the state alone. *)
Definition lift {S E A} (r : result E A) : SM S E A :=
  fun s => match r with Ok a => Ok (a, s) | Err e => Err e end.
Definition fail {S E A} (e : E) : SM S E A := fun _ => Err e.
Definition get {S E} : SM S E S := fun s => Ok (s, s).
Definition put {S E} (s : S) : SM S E unit := fun _ => Ok (tt, s).

Section Loops.
Context {S E A B : Type}.

Section For.
Variable f : B -> A -> SM S E B.
(** [for a in l { b = f(b, a)?; }] *)
Fixpoint mfor (b : B) (l : list A) : SM S E B :=
  match l with
  | [] => mret b
  | a :: l' => b' ← f b a; mfor b' l'
  end.
End For.

Section Traverse.
Variable f : A -> SM S E B.
(** [l.iter().map(f).collect::<Result<Vec<_>, _>>()] *)
Fixpoint mtraverse (l : list A) : SM S E (list B) :=
  match l with
  | [] => mret []
  | a :: l' => b ← f a; bs ← mtraverse l'; mret (b :: bs)
  end.
End Traverse.
End Loops.

Section Laws.
Context {S E : Type}.

Lemma sm_bind_eq {A B} (m : SM S E A) (f : A -> SM S E B) s :
  (m ≫= f) s = match m s with Ok (a, s') => f a s' | Err e => Err e end.
Proof. reflexivity. Qed.
Lemma sm_ret_eq {A} (a : A) (s : S) : (mret a : SM S E A) s = Ok (a, s).
Proof. reflexivity. Qed.
Lemma sm_bind_Ok {A B} (m : SM S E A) (f : A -> SM S E B) s b s' :
  (m ≫= f) s = Ok (b, s') <-> exists a t, m s = Ok (a, t) /\ f a t = Ok (b, s').
Proof. rewrite sm_bind_eq. destruct (m s) as [[a t]|e]; naive_solver. Qed.
Lemma lift_Ok {A} (r : result E A) (s : S) a s' :
  lift r s = Ok (a, s') <-> r = Ok a /\ s' = s.
Proof. unfold lift. destruct r; naive_solver. Qed.
Lemma mfor_cons {A B} (f : B -> A -> SM S E B) b a l s :
  mfor f b (a :: l) s = match f b a s with Ok (b', s') => mfor f b' l s' | Err e => Err e end.
Proof. reflexivity. Qed.
Lemma mfor_app {A B} (f : B -> A -> SM S E B) b l k s :
  mfor f b (l ++ k) s = match mfor f b l s with Ok (b', s') => mfor f b' k s' | Err e => Err e end.
Proof.
  revert b s; induction l as [|a l IH]; intros b s; [done|].
  cbn [app]. rewrite !mfor_cons. destruct (f b a s) as [[b' s']|e]; [apply IH|done].
Qed.
Lemma mtraverse_cons {A B} (f : A -> SM S E B) a l s :
  mtraverse f (a :: l) s =
  match f a s with
  | Ok (b, s') => match mtraverse f l s' with Ok (bs, s'') => Ok (b :: bs, s'') | Err e => Err e end
  | Err e => Err e
  end.
Proof. reflexivity. Qed.
Lemma mtraverse_length {A B} (f : A -> SM S E B) l s bs s' :
  mtraverse f l s = Ok (bs, s') -> length bs = length l.
Proof.
  revert s bs; induction l as [|a l IH]; intros s bs; [by intros [= <- <-]|].
  rewrite mtraverse_cons. destruct (f a s) as [[b t]|]; [|done].
  destruct (mtraverse f l t) as [[bs0 t']|] eqn:Ht; [|done].
  intros [= <- <-]. cbn. by erewrite IH.
Qed.

(** ** Triples: [Q] on success, [X] on failure *)

Definition triple {A} (P : S -> Prop) (m : SM S E A) (Q : A -> S -> Prop) (X : E -> Prop) : Prop :=
  forall s, P s -> match m s with Ok (a, s') => Q a s' | Err e => X e end.

Implicit Types (P I : S -> Prop) (X : E -> Prop).

Lemma triple_ret {A} P (a : A) (Q : A -> S -> Prop) X :
  (forall s, P s -> Q a s) -> triple P (mret a) Q X.
Proof. intros H s Hs. by apply H. Qed.
Lemma triple_fail {A} P e (Q : A -> S -> Prop) X : X e -> triple P (fail e) Q X.
Proof. by intros H s Hs. Qed.
Lemma triple_bind {A B} P (m : SM S E A) (f : A -> SM S E B) R (Q : B -> S -> Prop) X :
  triple P m R X -> (forall a, triple (R a) (f a) Q X) -> triple P (m ≫= f) Q X.
Proof.
  intros Hm Hf s Hs. rewrite sm_bind_eq. specialize (Hm s Hs).
  destruct (m s) as [[a t]|e]; [by apply Hf|done].
Qed.
Lemma triple_conseq {A} P P' (m : SM S E A) (Q Q' : A -> S -> Prop) X X' :
  triple P' m Q' X' -> (forall s, P s -> P' s) -> (forall a s, Q' a s -> Q a s) ->
  (forall e, X' e -> X e) -> triple P m Q X.
Proof.
  intros Hm HP HQ HX s Hs. specialize (Hm s (HP s Hs)). destruct (m s) as [[a t]|e]; auto.
Qed.
Lemma triple_lift {A} P (r : result E A) (Q : A -> S -> Prop) X :
  (forall s, P s -> match r with Ok a => Q a s | Err e => X e end) -> triple P (lift r) Q X.
Proof. intros H s Hs. unfold lift. specialize (H s Hs). by destruct r. Qed.
Lemma triple_mfor {A B} (f : B -> A -> SM S E B) (J : B -> list A -> S -> Prop) X b l :
  (forall b a k, triple (J b (a :: k)) (f b a) (fun b' => J b' k) X) ->
  triple (J b l) (mfor f b l) (fun b' => J b' []) X.
Proof.
  intros Hf. revert b; induction l as [|a l IH]; intros b; cbn [mfor].
  - by apply triple_ret.
  - eapply triple_bind; [apply Hf|]. intros b'. apply IH.
Qed.
Lemma triple_mtraverse {A B} (f : A -> SM S E B) I (R : A -> B -> Prop) X l :
  (forall a, a ∈ l -> triple I (f a) (fun b s => R a b /\ I s) X) ->
  triple I (mtraverse f l) (fun bs s => Forall2 R l bs /\ I s) X.
Proof.
  intros Hf. induction l as [|a l IH]; cbn [mtraverse].
  - apply triple_ret. intros s Hs. by split.
  - eapply triple_bind; [apply Hf; by left|]. intros b s [Hb Hs].
    assert (triple I (mtraverse f l) (fun bs s => Forall2 R l bs /\ I s) X) as Hl
      by (apply IH; intros a' Ha'; apply Hf; by right).
    specialize (Hl s Hs). rewrite sm_bind_eq. destruct (mtraverse f l s) as [[bs s']|e]; [|done].
    destruct Hl. rewrite sm_ret_eq. split; [by constructor|done].
Qed.
Lemma triple_Ok {A} P (m : SM S E A) (Q : A -> S -> Prop) X s a s' :
  triple P m Q X -> P s -> m s = Ok (a, s') -> Q a s'.
Proof. intros Hm Hs Ha. specialize (Hm s Hs). by rewrite Ha in Hm. Qed.
Lemma triple_Err {A} P (m : SM S E A) (Q : A -> S -> Prop) X s e :
  triple P m Q X -> P s -> m s = Err e -> X e.
Proof. intros Hm Hs Ha. specialize (Hm s Hs). by rewrite Ha in Hm. Qed.

(** ** Steps that move the state along a preorder *)

Section Moves.
Context (R : relation S) `{!PreOrder R}.

Definition moves {A} (m : SM S E A) : Prop := forall s a s', m s = Ok (a, s') -> R s s'.

Lemma moves_ret {A} (a : A) : moves (mret a).
Proof. intros s a' s' [= _ <-]. reflexivity. Qed.
Lemma moves_fail {A} e : moves (fail e : SM S E A).
Proof. done. Qed.
Lemma moves_lift {A} (r : result E A) : moves (lift r).
Proof. intros s a s' [_ ->]%lift_Ok. reflexivity. Qed.
Lemma moves_bind {A B} (m : SM S E A) (f : A -> SM S E B) :
  moves m -> (forall a, moves (f a)) -> moves (m ≫= f).
Proof.
  intros Hm Hf s b s' (a & t & Ha & Hb)%sm_bind_Ok. transitivity t; [by eapply Hm|by eapply Hf].
Qed.
Lemma moves_mfor {A B} (f : B -> A -> SM S E B) b l :
  (forall b a, moves (f b a)) -> moves (mfor f b l).
Proof.
  intros Hf. revert b; induction l as [|a l IH]; intros b; [apply moves_ret|].
  apply moves_bind; [apply Hf|auto].
Qed.
Lemma moves_mtraverse {A B} (f : A -> SM S E B) l :
  (forall a, moves (f a)) -> moves (mtraverse f l).
Proof.
  intros Hf. induction l as [|a l IH]; [apply moves_ret|].
  apply moves_bind; [apply Hf|]. intros b. apply moves_bind; [done|]. intros. apply moves_ret.
Qed.
End Moves.
End Laws.

(** Decides [moves] by the shape of the code. *)
Create HintDb moves.
#[export] Hint Resolve moves_ret moves_fail moves_lift : moves.
Ltac moves_step :=
  match goal with
  | |- moves _ (mret _) => apply moves_ret; exact _
  | |- moves _ (fail _) => apply moves_fail
  | |- moves _ (lift _) => apply moves_lift; exact _
  | |- moves _ (mfor _ _ _) => apply moves_mfor; [exact _|intros]
  | |- moves _ (mtraverse _ _) => apply moves_mtraverse; [exact _|intros]
  | |- moves _ (mbind _ _) => apply moves_bind; [exact _| |intros]
  | |- moves _ (match ?x with _ => _ end) => destruct x
  | |- moves _ _ => solve [eauto with moves]
  end.
Ltac moves_auto := repeat moves_step.
