(* ===== verification/Order.v ===== *)
(** * Orderings, sorted maps and stable sorting

    [Ord] comparisons as functions to [comparison] with their laws as classes,
    [BTreeMap] and [BTreeSet] as strictly sorted association lists (iteration
    order is list order) and [slice::sort_by] as a stable insertion sort. *)
From Stdlib Require Import Sorted.
From S2P Require Export Rust.

(** [Ordering::then_with], [Ordering::reverse] *)
Definition then_with (o1 o2 : comparison) : comparison :=
  match o1 with Eq => o2 | _ => o1 end.
Definition reverse (o : comparison) : comparison := CompOpp o.

(** A comparison function that is a total preorder. *)
Class CmpPre {A} (c : A -> A -> comparison) : Prop := {
  cmp_antisym a b : c b a = CompOpp (c a b);
  cmp_trans_le a b d : c a b <> Gt -> c b d <> Gt -> c a d <> Gt;
}.
(** ... and a total order: [Eq] is equality. *)
Class CmpOrd {A} (c : A -> A -> comparison) : Prop := {
  cmp_ord_pre :: CmpPre c;
  cmp_eq a b : c a b = Eq -> a = b;
}.

Section Laws.
Context {A : Type} (c : A -> A -> comparison) `{!CmpPre c}.

Lemma cmp_refl a : c a a = Eq.
Proof. pose proof (cmp_antisym (c:=c) a a). destruct (c a a); simpl in *; congruence. Qed.

Lemma cmp_lt_le a b d : c a b = Lt -> c b d <> Gt -> c a d = Lt.
Proof.
  intros Hab Hbd. destruct (c a d) eqn:Had; [exfalso|done|exfalso].
  - apply (cmp_trans_le (c:=c) b d a); rewrite ?(cmp_antisym (c:=c) a d), ?Had; simpl; try done.
    rewrite (cmp_antisym (c:=c) a b), Hab. done.
  - apply (cmp_trans_le (c:=c) a b d); congruence.
Qed.

Lemma cmp_le_lt a b d : c a b <> Gt -> c b d = Lt -> c a d = Lt.
Proof.
  intros Hab Hbd. destruct (c a d) eqn:Had; [exfalso|done|exfalso].
  - apply (cmp_trans_le (c:=c) d a b); rewrite ?(cmp_antisym (c:=c) a d), ?Had; simpl; try done.
    rewrite (cmp_antisym (c:=c) b d), Hbd. done.
  - apply (cmp_trans_le (c:=c) a b d); congruence.
Qed.

Lemma cmp_lt_trans a b d : c a b = Lt -> c b d = Lt -> c a d = Lt.
Proof. intros H1 H2. apply (cmp_lt_le a b d); congruence. Qed.

Lemma cmp_eq_trans a b d : c a b = Eq -> c b d = Eq -> c a d = Eq.
Proof.
  intros H1 H2. destruct (c a d) eqn:H; [done|exfalso|exfalso].
  - apply (cmp_trans_le (c:=c) d b a).
    + rewrite (cmp_antisym (c:=c) b d), H2. done.
    + rewrite (cmp_antisym (c:=c) a b), H1. done.
    + rewrite (cmp_antisym (c:=c) a d), H. done.
  - apply (cmp_trans_le (c:=c) a b d); congruence.
Qed.

Lemma cmp_gt_lt a b : c a b = Gt <-> c b a = Lt.
Proof. rewrite (cmp_antisym (c:=c) a b). destruct (c a b); naive_solver. Qed.

Lemma cmp_eq_l a b d : c a b = Eq -> c a d = c b d.
Proof.
  intros H. destruct (c b d) eqn:Hb.
  - by apply (cmp_eq_trans a b d).
  - apply (cmp_le_lt a b d); congruence.
  - apply cmp_gt_lt. apply cmp_gt_lt in Hb. apply (cmp_lt_le d b a); [done|].
    rewrite (cmp_antisym (c:=c) a b), H. done.
Qed.
End Laws.

Lemma cmp_eq_iff {A} (c : A -> A -> comparison) `{!CmpOrd c} a b : c a b = Eq <-> a = b.
Proof. split; [apply cmp_eq | intros ->; apply cmp_refl, _]. Qed.

(** ** Instances *)

#[export] Instance Z_cmp_ord : CmpOrd Z.compare.
Proof.
  split; [split|].
  - intros a b. by rewrite Z.compare_antisym.
  - intros a b d. rewrite !Z.compare_gt_iff. lia.
  - intros a b. apply Z.compare_eq.
Qed.
#[export] Instance nat_cmp_ord : CmpOrd Nat.compare.
Proof.
  split; [split|].
  - intros a b. by rewrite Nat.compare_antisym.
  - intros a b d. rewrite !Nat.compare_gt_iff. lia.
  - intros a b. apply Nat.compare_eq.
Qed.

Definition cmp_on {A K} (c : K -> K -> comparison) (f : A -> K) (a b : A) : comparison :=
  c (f a) (f b).
#[export] Instance cmp_on_pre {A K} (c : K -> K -> comparison) `{!CmpPre c} (f : A -> K) :
  CmpPre (cmp_on c f).
Proof. split; intros; unfold cmp_on in *; [apply cmp_antisym | eapply cmp_trans_le; eauto]. Qed.
Lemma cmp_on_ord {A K} (c : K -> K -> comparison) `{!CmpOrd c} (f : A -> K) :
  (forall a b, f a = f b -> a = b) -> CmpOrd (cmp_on c f).
Proof. intros Hf. split; [apply _|]. intros a b H. by apply Hf, (cmp_eq (c := c)). Qed.

Definition cmp_then {A} (c1 c2 : A -> A -> comparison) (a b : A) : comparison :=
  then_with (c1 a b) (c2 a b).
#[export] Instance cmp_then_pre {A} (c1 c2 : A -> A -> comparison)
  `{!CmpPre c1} `{!CmpPre c2} : CmpPre (cmp_then c1 c2).
Proof.
  unfold cmp_then. split.
  - intros a b. rewrite (cmp_antisym (c := c1) a b), (cmp_antisym (c := c2) a b).
    by destruct (c1 a b).
  - intros a b d H1 H2. destruct (c1 a b) eqn:E1, (c1 b d) eqn:E2; simpl in *; try done.
    + rewrite (cmp_eq_trans c1 a b d); [|done..]. simpl. eapply cmp_trans_le; eauto.
    + rewrite (cmp_le_lt c1 a b d); [done|congruence..].
    + rewrite (cmp_lt_le c1 a b d); [done|congruence..].
    + rewrite (cmp_lt_le c1 a b d); [done|congruence..].
Qed.

Definition cmp_pair {A B} (c1 : A -> A -> comparison) (c2 : B -> B -> comparison)
  : A * B -> A * B -> comparison := cmp_then (cmp_on c1 fst) (cmp_on c2 snd).
#[export] Instance cmp_pair_ord {A B} (c1 : A -> A -> comparison) (c2 : B -> B -> comparison)
  `{!CmpOrd c1} `{!CmpOrd c2} : CmpOrd (cmp_pair c1 c2).
Proof.
  split; [apply _|]. intros [a1 b1] [a2 b2]. unfold cmp_pair, cmp_then, cmp_on. simpl.
  destruct (c1 a1 a2) eqn:E; simpl; try done. intros H.
  apply (cmp_eq (c := c1)) in E. apply (cmp_eq (c := c2)) in H. congruence.
Qed.

(** Lexicographic order of slices, and of strings by their bytes. *)
Fixpoint cmp_list {A} (c : A -> A -> comparison) (l k : list A) : comparison :=
  match l, k with
  | [], [] => Eq
  | [], _ => Lt
  | _, [] => Gt
  | a :: l', b :: k' => then_with (c a b) (cmp_list c l' k')
  end.

#[export] Instance cmp_list_pre {A} (c : A -> A -> comparison) `{!CmpPre c} :
  CmpPre (cmp_list c).
Proof.
  split.
  - intros l; induction l as [|a l IH]; intros [|b k]; simpl; try done.
    rewrite (cmp_antisym (c:=c) a b), IH. by destruct (c a b).
  - intros l; induction l as [|a l IH]; intros [|b k] [|d m]; simpl; try done.
    intros H1 H2. destruct (c a b) eqn:E1, (c b d) eqn:E2; simpl in *; try done.
    + rewrite (cmp_eq_trans c a b d); [|done..]. simpl. eauto.
    + rewrite (cmp_le_lt c a b d); [done|congruence..].
    + rewrite (cmp_lt_le c a b d); [done|congruence..].
    + rewrite (cmp_lt_le c a b d); [done|congruence..].
Qed.
#[export] Instance cmp_list_ord {A} (c : A -> A -> comparison) `{!CmpOrd c} :
  CmpOrd (cmp_list c).
Proof.
  split; [apply _|]. intros l; induction l as [|a l IH]; intros [|b k]; simpl; try done.
  destruct (c a b) eqn:E; simpl; try done. intros H. f_equal; [by apply (cmp_eq (c := c))|auto].
Qed.

Definition cmp_byte : byte -> byte -> comparison := cmp_on Z.compare byte_val.
#[export] Instance cmp_byte_ord : CmpOrd cmp_byte.
Proof. apply cmp_on_ord; [apply _|apply byte_val_inj]. Qed.

Definition cmp_str : string -> string -> comparison := cmp_on (cmp_list cmp_byte) str_bytes.
#[export] Instance cmp_str_ord : CmpOrd cmp_str.
Proof. apply cmp_on_ord; [apply _|apply str_bytes_inj]. Qed.

(** ** [BTreeMap] *)
Section BTreeMap.
Context {K V : Type} (c : K -> K -> comparison) `{!CmpOrd c}.
Implicit Types (m : list (K * V)) (k : K) (v : V).

Fixpoint bt_get (k : K) (m : list (K * V)) : option V :=
  match m with
  | [] => None
  | (k', v) :: m' => match c k k' with Eq => Some v | _ => bt_get k m' end
  end.
Fixpoint bt_insert (k : K) (v : V) (m : list (K * V)) : list (K * V) :=
  match m with
  | [] => [(k, v)]
  | (k', v') :: m' =>
      match c k k' with
      | Lt => (k, v) :: m
      | Eq => (k, v) :: m'
      | Gt => (k', v') :: bt_insert k v m'
      end
  end.
Definition bt_contains (k : K) (m : list (K * V)) : bool :=
  match bt_get k m with Some _ => true | None => false end.

Definition bt_sorted (m : list (K * V)) : Prop :=
  StronglySorted (fun p q => c p.1 q.1 = Lt) m.

Lemma bt_get_insert_eq k v m : bt_get k (bt_insert k v m) = Some v.
Proof.
  pose proof (cmp_refl c k) as Hk.
  induction m as [|[k' v'] m IH]; simpl; [by rewrite Hk|].
  destruct (c k k') eqn:E; simpl; rewrite ?Hk, ?E; auto.
Qed.
Lemma bt_get_insert_ne k k' v m : k <> k' -> bt_get k' (bt_insert k v m) = bt_get k' m.
Proof.
  intros Hne. assert (c k' k <> Eq) as Hk by (intros ->%(cmp_eq (c:=c)); done).
  induction m as [|[k1 v1] m IH]; simpl.
  - destruct (c k' k); done.
  - destruct (c k k1) eqn:E; simpl.
    + apply (cmp_eq (c:=c)) in E as ->. destruct (c k' k1); done.
    + destruct (c k' k); done.
    + destruct (c k' k1); auto.
Qed.

Lemma bt_insert_keys k v m p : p ∈ bt_insert k v m -> p = (k, v) \/ p ∈ m.
Proof.
  induction m as [|[k1 v1] m IH]; simpl.
  - rewrite list_elem_of_singleton. auto.
  - destruct (c k k1); rewrite !elem_of_cons; naive_solver.
Qed.

Lemma bt_insert_sorted k v m : bt_sorted m -> bt_sorted (bt_insert k v m).
Proof.
  unfold bt_sorted. induction m as [|[k1 v1] m IH]; simpl; intros H.
  { repeat constructor. }
  apply StronglySorted_inv in H as [Hs Hf].
  rewrite Forall_forall in Hf. destruct (c k k1) eqn:E.
  - apply (cmp_eq (c:=c)) in E as ->. constructor; [done|]. by apply Forall_forall.
  - constructor; [constructor; [done|by apply Forall_forall]|].
    constructor; [done|]. apply Forall_forall. intros p Hp.
    specialize (Hf p Hp). simpl in *. by eapply (cmp_lt_trans c).
  - constructor; [auto|]. apply Forall_forall.
    intros p [->|Hp]%bt_insert_keys; simpl; [|by apply Hf].
    by apply (cmp_gt_lt c).
Qed.

Lemma bt_get_Some_elem k v m : bt_get k m = Some v -> (k, v) ∈ m.
Proof.
  induction m as [|[k1 v1] m IH]; simpl; [done|].
  destruct (c k k1) eqn:E; intros H; try (right; by apply IH).
  apply (cmp_eq (c:=c)) in E as ->. injection H as ->. left.
Qed.

Lemma bt_get_sorted k v m : bt_sorted m -> (k, v) ∈ m -> bt_get k m = Some v.
Proof.
  unfold bt_sorted. induction m as [|[k1 v1] m IH]; intros Hs Hin; [inversion Hin|].
  apply StronglySorted_inv in Hs as [Hs Hf]. rewrite Forall_forall in Hf. simpl.
  apply elem_of_cons in Hin as [[= -> ->]|Hin].
  - by rewrite (cmp_refl c).
  - specialize (Hf _ Hin). simpl in Hf. rewrite (cmp_antisym (c:=c) k1 k), Hf. simpl. auto.
Qed.

Lemma bt_insert_length k v m : length m <= length (bt_insert k v m) <= S (length m).
Proof.
  induction m as [|[k1 v1] m IH]; simpl; [lia|]. destruct (c k k1); simpl; lia.
Qed.
End BTreeMap.

(** ** [slice::sort_by]: stable, so insertion sort computes the same result. *)
Section SortBy.
Context {A : Type} (c : A -> A -> comparison).

Fixpoint insert_by (a : A) (l : list A) : list A :=
  match l with
  | [] => [a]
  | b :: l' => match c a b with Gt => b :: insert_by a l' | _ => a :: l end
  end.
Definition sort_by (l : list A) : list A := foldr insert_by [] l.

Lemma insert_by_Permutation a l : insert_by a l ≡ₚ a :: l.
Proof.
  induction l as [|b l IH]; simpl; [done|]. destruct (c a b); [done..|].
  rewrite IH. apply Permutation_swap.
Qed.
Lemma sort_by_Permutation l : sort_by l ≡ₚ l.
Proof.
  induction l as [|a l IH]; simpl; [done|]. by rewrite insert_by_Permutation, IH.
Qed.
Lemma elem_of_sort_by a l : a ∈ sort_by l <-> a ∈ l.
Proof. by rewrite (sort_by_Permutation l). Qed.
Lemma length_sort_by l : length (sort_by l) = length l.
Proof. by rewrite (sort_by_Permutation l). Qed.

Context `{!CmpPre c}.
Definition cmp_sorted : list A -> Prop := StronglySorted (fun a b => c a b <> Gt).

Lemma insert_by_sorted a l : cmp_sorted l -> cmp_sorted (insert_by a l).
Proof.
  unfold cmp_sorted. induction l as [|b l IH]; simpl; intros H.
  { repeat constructor. }
  apply StronglySorted_inv in H as [Hs Hf]. rewrite Forall_forall in Hf.
  assert (c a b <> Gt -> StronglySorted (fun a b => c a b <> Gt) (a :: b :: l)) as Hle.
  { intros Hab. constructor; [constructor; [done|by apply Forall_forall]|].
    constructor; [done|]. apply Forall_forall. intros d Hd.
    eapply (cmp_trans_le (c:=c)); [done|by apply Hf]. }
  destruct (c a b) eqn:E; [by apply Hle..|]. constructor; [auto|].
  apply Forall_forall. intros d Hd. rewrite insert_by_Permutation in Hd.
  apply elem_of_cons in Hd as [->|Hd]; [|by apply Hf].
  rewrite (cmp_antisym (c:=c) a b), E. done.
Qed.
Lemma sort_by_sorted l : cmp_sorted (sort_by l).
Proof. induction l; simpl; [constructor|]. by apply insert_by_sorted. Qed.

Lemma insert_by_filter_ne (p : A -> bool) a l :
  p a = false -> List.filter p (insert_by a l) = List.filter p l.
Proof.
  intros Ha. induction l as [|b l IH]; simpl; [by rewrite Ha|].
  destruct (c a b); simpl; rewrite ?Ha; try done. by rewrite IH.
Qed.

(** Stability: equal elements keep their order. *)
Lemma insert_by_filter_eq x a l : c x a = Eq ->
  List.filter (fun y => match c x y with Eq => true | _ => false end) (insert_by a l)
  = a :: List.filter (fun y => match c x y with Eq => true | _ => false end) l.
Proof.
  intros Hx. induction l as [|b l IH]; simpl; [by rewrite Hx|].
  destruct (c a b) eqn:E; simpl; rewrite ?Hx; try done.
  rewrite IH. rewrite (cmp_eq_l c x a b Hx), E. done.
Qed.
Lemma sort_by_stable x l :
  List.filter (fun y => match c x y with Eq => true | _ => false end) (sort_by l)
  = List.filter (fun y => match c x y with Eq => true | _ => false end) l.
Proof.
  induction l as [|a l IH]; simpl; [done|]. destruct (c x a) eqn:E.
  - by rewrite insert_by_filter_eq, IH.
  - rewrite insert_by_filter_ne; [done|]. by rewrite E.
  - rewrite insert_by_filter_ne; [done|]. by rewrite E.
Qed.
End SortBy.

#[export] Hint Resolve sort_by_sorted bt_insert_sorted : genesis.
