(* ===== verification/Decimal.v ===== *)
(** * Decimal text of integers

    [to_string] and [str::parse] of Rust's integers: decimal digits without leading
    zeros on the way out, an optional sign and any leading zeros on the way in. *)
From S2P Require Export Order.
Local Open Scope Z_scope.

(** ** ASCII classes of a scalar; a scalar of several bytes is in none of them. *)

Definition char_code (c : list byte) : option Z :=
  match c with [b] => if byte_val b <? 128 then Some (byte_val b) else None | _ => None end.
Definition char_in (lo hi : Z) (c : list byte) : bool :=
  match char_code c with Some v => (lo <=? v) && (v <=? hi) | None => false end.
Definition is_ascii_digit : list byte -> bool := char_in 48 57.
Definition is_ascii_lowercase : list byte -> bool := char_in 97 122.
Definition is_ascii_uppercase : list byte -> bool := char_in 65 90.
Definition is_ascii_alphabetic (c : list byte) : bool :=
  is_ascii_lowercase c || is_ascii_uppercase c.
Definition is_ascii_alphanumeric (c : list byte) : bool :=
  is_ascii_alphabetic c || is_ascii_digit c.
Definition is_ascii_hexdigit (c : list byte) : bool :=
  is_ascii_digit c || char_in 97 102 c || char_in 65 70 c.
(** [c == 'x'] for an ASCII character of code [v]. *)
Definition char_is (v : Z) : list byte -> bool := char_in v v.

(** ** Digits *)

Definition byte_is_digit (b : byte) : bool := (48 <=? byte_val b) && (byte_val b <=? 57).
Definition digit_byte (d : Z) : byte := byte_of (48 + d).
Definition digit_val (b : byte) : Z := byte_val b - 48.

(** The decimal digits of [n], most significant first; each step divides by ten. *)
Fixpoint dec_fuel (fuel : nat) (n : Z) : list byte :=
  match fuel with
  | O => []
  | S fuel' =>
      if n <? 10 then [digit_byte n] else dec_fuel fuel' (n / 10) ++ [digit_byte (n mod 10)]
  end.
Definition dec_bytes (n : Z) : list byte := dec_fuel (S (Z.to_nat (Z.log2 n))) n.

(** [u64::to_string] and [i64::to_string] *)
Definition to_string (z : Z) : string :=
  str_of_bytes (if z <? 0 then byte_of 45 :: dec_bytes (- z) else dec_bytes z).

Definition digits_val (l : list byte) : Z := foldl (fun a b => 10 * a + digit_val b) 0 l.

(** [u64::from_str]: an optional [+], at least one digit, no overflow. *)
Definition parse_digits (l : list byte) : option Z :=
  match l with
  | [] => None
  | _ => if forallb byte_is_digit l then Some (digits_val l) else None
  end.
Definition parse_unsigned (max : Z) (s : string) : option Z :=
  let digits := match str_bytes s with
                | b :: l => if byte_val b =? 43 then l else b :: l
                | [] => []
                end in
  v ← parse_digits digits; if v <=? max then Some v else None.
(** [i64::from_str] *)
Definition parse_i64 (s : string) : option Z :=
  match str_bytes s with
  | b :: l =>
      if byte_val b =? 45 then v ← parse_digits l; i64_try (- v)
      else if byte_val b =? 43 then v ← parse_digits l; i64_try v
      else v ← parse_digits (b :: l); i64_try v
  | [] => None
  end.

(** A canonical numeral: only digits, no leading zero. *)
Definition canonical (l : list byte) : Prop :=
  l <> [] /\ forallb byte_is_digit l = true /\ (head l = Some (digit_byte 0) -> length l = 1%nat).

Lemma digit_byte_is d : 0 <= d < 10 -> byte_is_digit (digit_byte d) = true.
Proof. intros. unfold byte_is_digit, digit_byte. rewrite byte_of_small by lia. lia. Qed.
Lemma digit_val_byte d : 0 <= d < 10 -> digit_val (digit_byte d) = d.
Proof. intros. unfold digit_val, digit_byte. rewrite byte_of_small by lia. lia. Qed.
Lemma digit_byte_val b : byte_is_digit b = true -> digit_byte (digit_val b) = b.
Proof.
  unfold digit_byte, digit_val. intros _. rewrite <- (byte_of_val b) at 2. f_equal. lia.
Qed.
Lemma digit_val_bounds b : byte_is_digit b = true -> 0 <= digit_val b < 10.
Proof. unfold byte_is_digit, digit_val. lia. Qed.

Lemma digits_val_app l b : digits_val (l ++ [b]) = 10 * digits_val l + digit_val b.
Proof. unfold digits_val. by rewrite foldl_app. Qed.
Lemma digits_val_nonneg l : forallb byte_is_digit l = true -> 0 <= digits_val l.
Proof.
  induction l as [|b l IH] using rev_ind; [done|].
  rewrite forallb_app, digits_val_app. intros [Hl Hb]%andb_prop. cbn in Hb.
  rewrite andb_true_r in Hb. pose proof (digit_val_bounds b Hb). specialize (IH Hl). lia.
Qed.

(** Enough fuel: a fuel above the binary length reaches the last digit. *)
Lemma dec_fuel_spec fuel n : 0 <= n < 2 ^ Z.of_nat fuel ->
  let l := dec_fuel fuel n in
  (fuel <> O -> canonical l) /\ (fuel <> O -> digits_val l = n).
Proof.
  revert n; induction fuel as [|fuel IH]; intros n Hn; [split; intros; done|].
  cbn [dec_fuel]. rewrite Nat2Z.inj_succ, Z.pow_succ_r in Hn by lia.
  destruct (Z.ltb_spec n 10) as [Hlt|Hge].
  - split; intros _.
    + split_and!; [done|cbn; by rewrite digit_byte_is by lia|done].
    + cbn. rewrite digit_val_byte; lia.
  - assert (fuel <> O) as Hf by (destruct fuel; [cbn in Hn; lia|done]).
    assert (0 <= n / 10 < 2 ^ Z.of_nat fuel) as Hd by div_lia.
    destruct (IH _ Hd) as [IHc IHv]. specialize (IHc Hf). specialize (IHv Hf).
    pose proof (Z.mod_pos_bound n 10 ltac:(lia)). split; intros _.
    + destruct IHc as (Hne & Hdig & Hz). split; [by destruct (dec_fuel fuel (n / 10))|]. split.
      * rewrite forallb_app, Hdig. cbn. by rewrite digit_byte_is by lia.
      * destruct (dec_fuel fuel (n / 10)) as [|b l] eqn:E; [done|]. cbn [app head]. intros Hb.
        specialize (Hz Hb). destruct l; [|done]. injection Hb as ->.
        unfold digits_val in IHv. cbn in IHv. rewrite digit_val_byte in IHv by lia. div_lia.
    + rewrite digits_val_app, IHv, digit_val_byte by done. div_lia.
Qed.

Lemma dec_bytes_fuel n : 0 <= n -> 0 <= n < 2 ^ Z.of_nat (S (Z.to_nat (Z.log2 n))).
Proof.
  intros. rewrite Nat2Z.inj_succ, Z2Nat.id by apply Z.log2_nonneg.
  destruct (Z.eq_dec n 0) as [->|]; [cbn; lia|]. pose proof (Z.log2_spec n ltac:(lia)). lia.
Qed.
Lemma dec_bytes_canonical n : 0 <= n -> canonical (dec_bytes n).
Proof. intros H. by apply (dec_fuel_spec _ n (dec_bytes_fuel n H)). Qed.
Lemma digits_val_dec n : 0 <= n -> digits_val (dec_bytes n) = n.
Proof. intros H. by apply (dec_fuel_spec _ n (dec_bytes_fuel n H)). Qed.

(** A numeral without leading zeros is determined by its value. *)
Lemma canonical_snoc l b : canonical (l ++ [b]) -> l = [] \/ canonical l.
Proof.
  intros (_ & Hd & Hz). destruct l as [|a l]; [by left|right].
  rewrite forallb_app in Hd. apply andb_prop in Hd as [Hd _].
  split_and!; [done|done|]. intros H. cbn [app head length] in Hz. specialize (Hz H).
  rewrite length_app in Hz. cbn in Hz. lia.
Qed.
Lemma canonical_pos l : canonical l -> l = [digit_byte 0] \/ 0 < digits_val l.
Proof.
  induction l as [|b l IH] using rev_ind; intros Hc; [by destruct Hc|].
  destruct (canonical_snoc l b Hc) as [->|Hl].
  - destruct Hc as (_ & Hd & _). cbn in Hd. rewrite andb_true_r in Hd.
    pose proof (digit_val_bounds b Hd). destruct (Z.eq_dec (digit_val b) 0) as [E|].
    + left. cbn. f_equal. rewrite <- (digit_byte_val b Hd), E. done.
    + right. cbn. lia.
  - right. rewrite digits_val_app. destruct Hc as (_ & Hd & Hz).
    rewrite forallb_app in Hd. apply andb_prop in Hd as [_ Hd]. cbn in Hd.
    rewrite andb_true_r in Hd. pose proof (digit_val_bounds b Hd).
    destruct (IH Hl) as [->|]; [|lia]. cbn in Hz. specialize (Hz eq_refl). done.
Qed.
Lemma canonical_unique l k : canonical l -> canonical k -> digits_val l = digits_val k -> l = k.
Proof.
  revert k; induction l as [|b l IH] using rev_ind; intros k Hl Hk Hv; [by destruct Hl|].
  destruct k as [|c k _] using rev_ind; [by destruct Hk|].
  rewrite !digits_val_app in Hv.
  assert (byte_is_digit b = true /\ byte_is_digit c = true) as [Hb Hc].
  { destruct Hl as (_ & Hl & _), Hk as (_ & Hk & _). rewrite forallb_app in Hl, Hk.
    apply andb_prop in Hl as [_ Hl], Hk as [_ Hk]. cbn in Hl, Hk.
    by rewrite andb_true_r in Hl, Hk. }
  pose proof (digit_val_bounds b Hb). pose proof (digit_val_bounds c Hc).
  assert (digit_val b = digit_val c /\ digits_val l = digits_val k) as [Ebc E] by lia.
  assert (b = c) as -> by (by rewrite <- (digit_byte_val b Hb), Ebc, digit_byte_val).
  f_equal. destruct (canonical_snoc l c Hl) as [->|Hl'], (canonical_snoc k c Hk) as [->|Hk'];
    [done| | |by apply IH].
  - destruct (canonical_pos k Hk') as [->|Hp]; [|cbn in E; lia].
    destruct Hk as (_ & _ & Hz). specialize (Hz eq_refl). done.
  - destruct (canonical_pos l Hl') as [->|Hp]; [|cbn in E; lia].
    destruct Hl as (_ & _ & Hz). specialize (Hz eq_refl). done.
Qed.
Lemma dec_bytes_val l : canonical l -> dec_bytes (digits_val l) = l.
Proof.
  intros Hl. assert (0 <= digits_val l) by (apply digits_val_nonneg, Hl).
  apply canonical_unique; [by apply dec_bytes_canonical|done|by apply digits_val_dec].
Qed.

(** ** Parsing what was printed *)

Lemma canonical_head l b : canonical (b :: l) -> byte_is_digit b = true.
Proof. intros (_ & H & _). cbn in H. by apply andb_prop in H as [H _]. Qed.

Lemma parse_digits_dec n : 0 <= n -> parse_digits (dec_bytes n) = Some n.
Proof.
  intros H. pose proof (dec_bytes_canonical n H) as (Hn & Hd & _). unfold parse_digits.
  rewrite Hd, digits_val_dec by done. by destruct (dec_bytes n).
Qed.

Lemma parse_unsigned_to_string max n : 0 <= n <= max -> parse_unsigned max (to_string n) = Some n.
Proof.
  intros H. unfold parse_unsigned, to_string. destruct (Z.ltb_spec n 0); [lia|].
  rewrite str_bytes_of. pose proof (dec_bytes_canonical n ltac:(lia)) as Hc.
  destruct (dec_bytes n) as [|b l] eqn:E; [by destruct Hc|].
  assert (byte_val b <> 43) as Hb.
  { apply canonical_head in Hc. unfold byte_is_digit in Hc. lia. }
  destruct (Z.eqb_spec (byte_val b) 43); [done|]. rewrite <- E, parse_digits_dec by lia.
  cbn. destruct (Z.leb_spec n max); [done|lia].
Qed.

Lemma parse_i64_to_string n : is_i64 n = true -> parse_i64 (to_string n) = Some n.
Proof.
  intros H. unfold parse_i64, to_string. assert (i64_try n = Some n) as Ht
    by (unfold i64_try; by rewrite H).
  rewrite str_bytes_of. destruct (Z.ltb_spec n 0).
  - rewrite byte_of_small by lia. rewrite Z.eqb_refl, parse_digits_dec by lia. cbn [mbind option_bind].
    by rewrite Z.opp_involutive.
  - pose proof (dec_bytes_canonical n ltac:(lia)) as Hc.
    destruct (dec_bytes n) as [|b l] eqn:E; [by destruct Hc|].
    apply canonical_head in Hc. unfold byte_is_digit in Hc.
    destruct (Z.eqb_spec (byte_val b) 45); [lia|]. destruct (Z.eqb_spec (byte_val b) 43); [lia|].
    rewrite <- E, parse_digits_dec by lia. done.
Qed.

Lemma parse_unsigned_bounds max s n : parse_unsigned max s = Some n -> 0 <= n <= max.
Proof.
  unfold parse_unsigned. intros H. apply bind_Some in H as (v & Hv & H).
  destruct (Z.leb_spec v max); [|done]. injection H as <-. split; [|done].
  unfold parse_digits in Hv. destruct (match str_bytes s with [] => _ | _ => _ end) eqn:E; [done|].
  destruct (forallb _ _) eqn:Ed; [|done]. injection Hv as <-. by apply digits_val_nonneg.
Qed.
Lemma parse_i64_bounds s n : parse_i64 s = Some n -> is_i64 n = true.
Proof.
  unfold parse_i64. destruct (str_bytes s) as [|b l]; [done|].
  destruct (byte_val b =? 45); [|destruct (byte_val b =? 43)];
    intros (v & _ & H)%bind_Some; by apply i64_try_Some in H as [-> H].
Qed.

Lemma to_string_inj a b : to_string a = to_string b -> 0 <= a -> 0 <= b -> a = b.
Proof.
  unfold to_string. intros H Ha Hb. destruct (Z.ltb_spec a 0); [lia|].
  destruct (Z.ltb_spec b 0); [lia|]. apply (f_equal str_bytes) in H.
  rewrite !str_bytes_of in H. by rewrite <- (digits_val_dec a Ha), H, digits_val_dec.
Qed.

Example to_string_min : to_string i64_min = "-9223372036854775808"%string.
Proof. reflexivity. Qed.
