(* ===== verification/Dag.v ===== *)
(** * Graphs of operators: order and reachability

    Kahn's topological sort, and the marking of what a root reaches. Two validators of the engine sort the operators of a query with Kahn's
    algorithm, over different containers. The containers are interfaces here; the
    invariant and what the sort decides are proved once. *)
From stdpp Require Import relations.
From S2P Require Export Order.

(** In-degrees: a counter per node that one step decrements. *)
Class Counter (A M : Type) `{EqDecision A} := {
  cnt_get : M -> A -> nat;
  cnt_dec : A -> M -> M;
  cnt_get_dec m a b : cnt_get (cnt_dec a m) b = if decide (a = b) then pred (cnt_get m b) else cnt_get m b;
}.

(** The nodes that are ready: pushed once, popped in the container's order. *)
Class Worklist (A W : Type) := {
  wl_elems : W -> list A;
  wl_push : A -> W -> W;
  wl_pop : W -> option (A * W);
  wl_elems_push a w : a ∉ wl_elems w -> wl_elems (wl_push a w) ≡ₚ a :: wl_elems w;
  wl_elems_pop w a w' : wl_pop w = Some (a, w') -> wl_elems w ≡ₚ a :: wl_elems w';
  wl_pop_empty w : wl_pop w = None -> wl_elems w = [];
}.

Definition occ {A} `{EqDecision A} (a : A) (l : list A) : nat :=
  length (filter (.= a) l).

Lemma occ_cons {A} `{EqDecision A} (a b : A) l :
  occ a (b :: l) = (if decide (b = a) then 1 else 0) + occ a l.
Proof. unfold occ. rewrite filter_cons. by destruct (decide (b = a)). Qed.
Lemma occ_pos {A} `{EqDecision A} (a : A) l : 0 < occ a l <-> a ∈ l.
Proof.
  induction l as [|b l IH]; [split; [cbn; lia|inversion 1]|].
  rewrite occ_cons, elem_of_cons, <- IH. destruct (decide (b = a)); naive_solver lia.
Qed.

(** The nodes, their inputs, and a rank that orders every input before its user. *)
Definition acyclic {A} (nodes : list A) (inputs : A -> list A) : Prop :=
  exists rank : A -> nat, forall a b, a ∈ nodes -> b ∈ inputs a -> rank b < rank a.

(** Every node once, every input before its users. *)
Definition topological {A} (nodes : list A) (inputs : A -> list A) (order : list A) : Prop :=
  order ≡ₚ nodes /\
  forall l a r, order = l ++ a :: r -> forall b, b ∈ inputs a -> b ∈ l.

Section Kahn.
Context {A M W : Type} `{EqDecision A} `{!Counter A M} `{!Worklist A W}.
Context (nodes : list A) (inputs children : A -> list A).
Context (nodes_nodup : NoDup nodes).
Context (inputs_nodes : forall a b, a ∈ nodes -> b ∈ inputs a -> b ∈ nodes).
Context (children_occ : forall x c,
  occ c (children x) = if decide (c ∈ nodes) then occ x (inputs c) else 0).

(** One child of the node just taken: its in-degree drops, at zero it is ready. *)
Definition relax (s : M * W) (c : A) : M * W :=
  let m := cnt_dec c s.1 in (m, if cnt_get m c =? 0 then wl_push c s.2 else s.2).

(** Inputs of [c] that are not in [done]. *)
Definition missing (done : list A) (c : A) : nat :=
  length (filter (fun b => b ∉ done) (inputs c)).

Record kahn_inv (order : list A) (m : M) (w : W) : Prop := {
  ki_nodup : NoDup (order ++ wl_elems w);
  ki_nodes a : a ∈ order ++ wl_elems w -> a ∈ nodes;
  ki_get a : a ∈ nodes -> cnt_get m a = missing order a;
  ki_ready a : a ∈ nodes -> missing order a = 0 -> a ∈ order ++ wl_elems w;
  ki_closed a : a ∈ wl_elems w -> missing order a = 0;
  ki_topo l a r : order = l ++ a :: r -> forall b, b ∈ inputs a -> b ∈ l;
}.

Lemma missing_0 done c : missing done c = 0 <-> forall b, b ∈ inputs c -> b ∈ done.
Proof.
  unfold missing. split.
  - intros H b Hb. destruct (decide (b ∈ done)) as [|Hn]; [done|].
    assert (b ∈ filter (fun b => b ∉ done) (inputs c)) as Hf by (by apply list_elem_of_filter).
    apply nil_length_inv in H. rewrite H in Hf. inversion Hf.
  - intros H. destruct (filter _ _) as [|b l] eqn:E; [done|].
    assert (b ∈ filter (fun b => b ∉ done) (inputs c)) as Hf by (rewrite E; left).
    apply list_elem_of_filter in Hf as [Hn Hb]. by apply H in Hb.
Qed.

Lemma missing_snoc done x c : x ∉ done -> missing done c = missing (done ++ [x]) c + occ x (inputs c).
Proof.
  intros Hx. unfold missing, occ. induction (inputs c) as [|b l IH]; [done|].
  rewrite !filter_cons.
  destruct (decide (b ∉ done)) as [H1|H1], (decide (b ∉ done ++ [x])) as [H2|H2],
    (decide (b = x)) as [H3|H3]; cbn [length]; rewrite ?IH; try lia; exfalso;
    rewrite elem_of_app, list_elem_of_singleton in H2; subst; tauto.
Qed.

(** Relaxing the children [cs] of [x] one by one. *)
Lemma relax_spec (order cs : list A) m w :
  (forall c, c ∈ cs -> c ∈ nodes /\ c ∉ order /\ c ∉ wl_elems w) ->
  NoDup (wl_elems w) ->
  (forall c, c ∈ cs -> occ c cs <= cnt_get m c) ->
  let '(m', w') := foldl relax (m, w) cs in
  (forall c, cnt_get m' c = cnt_get m c - occ c cs) /\
  NoDup (wl_elems w') /\
  (forall c, c ∈ wl_elems w' <-> c ∈ wl_elems w \/ (c ∈ cs /\ cnt_get m c = occ c cs)).
Proof.
  revert m w; induction cs as [|d cs IH]; intros m w Hin Hnd Hle; cbn [foldl].
  { split_and!; [intros c; change (occ c []) with 0; lia|done|].
    intros c. split; [tauto|]. intros [?|[H _]]; [done|inversion H]. }
  set (m1 := cnt_dec d m). set (w1 := if cnt_get m1 d =? 0 then wl_push d w else w).
  change (relax (m, w) d) with (m1, w1).
  assert (forall c, cnt_get m1 c = if decide (d = c) then pred (cnt_get m c) else cnt_get m c) as Hm1
    by (intros; apply cnt_get_dec).
  destruct (Hin d (list_elem_of_here _ _)) as (Hdn & Hdo & Hdw).
  pose proof (Hle d (list_elem_of_here _ _)) as Hled. rewrite occ_cons, decide_True in Hled by done.
  assert (cnt_get m1 d = 0 <-> cnt_get m d = 1) as Hz
    by (rewrite Hm1, decide_True by done; lia).
  assert (NoDup (wl_elems w1)) as Hnd1.
  { unfold w1. destruct (cnt_get m1 d =? 0); [|done]. rewrite wl_elems_push by done.
    by constructor. }
  assert (forall c, c ∈ wl_elems w1 <-> c ∈ wl_elems w \/ (c = d /\ cnt_get m d = 1)) as Hw1.
  { intros c. unfold w1. destruct (Nat.eqb_spec (cnt_get m1 d) 0) as [E|E].
    - rewrite (wl_elems_push d w Hdw), elem_of_cons. apply Hz in E. naive_solver.
    - assert (cnt_get m d <> 1) by (intros H; by apply Hz in H). naive_solver. }
  specialize (IH m1 w1). destruct (foldl relax (m1, w1) cs) as [m' w'].
  destruct IH as (IHg & IHn & IHw); [|exact Hnd1| |].
  - intros c Hc. destruct (Hin c (list_elem_of_further _ _ _ Hc)) as (H1 & H2 & H3).
    split_and!; [done..|]. rewrite Hw1. intros [?|[-> E]]; [done|].
    apply occ_pos in Hc. lia.
  - intros c Hc. pose proof (Hle c (list_elem_of_further _ _ _ Hc)) as H.
    rewrite occ_cons in H. rewrite Hm1. case_decide; lia.
  - split_and!; [|done|].
    + intros c. rewrite IHg, Hm1, occ_cons. destruct (decide (d = c)) as [->|]; lia.
    + intros c. rewrite IHw, Hw1, Hm1, elem_of_cons, occ_cons.
      destruct (decide (d = c)) as [->|Hne].
      * destruct (decide (c ∈ cs)) as [Hc|Hc].
        -- pose proof (proj2 (occ_pos c cs) Hc). naive_solver lia.
        -- assert (occ c cs = 0) by (destruct (occ_pos c cs); destruct (occ c cs); [done|exfalso; apply Hc, H; lia]).
           naive_solver lia.
      * naive_solver.
Qed.

Lemma topo_elem order m w a b : kahn_inv order m w -> a ∈ order -> b ∈ inputs a -> b ∈ order.
Proof.
  intros I Ha Hb. apply list_elem_of_split in Ha as (l & r & E).
  pose proof (ki_topo _ _ _ I l a r E b Hb). rewrite E. apply elem_of_app. by left.
Qed.

(** What a node's users look like when it is taken from the work list. *)
Lemma kahn_children order m w w1 x c : kahn_inv order m w -> wl_pop w = Some (x, w1) ->
  c ∈ children x -> c ∈ nodes /\ x ∈ inputs c /\ c ∉ order /\ c ∉ wl_elems w1 /\ c <> x.
Proof.
  intros I Hp Hc. pose proof (wl_elems_pop _ _ _ Hp) as Hw.
  pose proof (ki_nodup _ _ _ I) as Hnd. rewrite Hw in Hnd.
  assert (x ∉ order) as Hx.
  { apply NoDup_app in Hnd as (_ & H & _). intros Hin. apply (H x Hin). by left. }
  apply occ_pos in Hc. rewrite children_occ in Hc. case_decide as Hcn; [|lia].
  apply occ_pos in Hc.
  assert (forall d, d ∈ wl_elems w -> x ∉ inputs d) as Hcl.
  { intros d Hd Hxd. pose proof (ki_closed _ _ _ I d Hd) as Hm. rewrite missing_0 in Hm.
    by apply Hx, Hm. }
  split_and!; [done|done| | |].
  - intros Hco. apply Hx. by eapply topo_elem.
  - intros Hcw. apply (Hcl c); [|done]. rewrite Hw. by right.
  - intros ->. apply (Hcl x); [|done]. rewrite Hw. by left.
Qed.

Lemma kahn_step order m w w1 x : kahn_inv order m w -> wl_pop w = Some (x, w1) ->
  let '(m', w') := foldl relax (m, w1) (children x) in kahn_inv (order ++ [x]) m' w'.
Proof.
  intros I Hp. pose proof (kahn_children order m w w1 x) as Hch.
  pose proof (wl_elems_pop _ _ _ Hp) as Hw.
  pose proof (ki_nodup _ _ _ I) as Hnd. rewrite Hw in Hnd.
  apply NoDup_app in Hnd as (Hndo & Hdis & Hndw). apply NoDup_cons in Hndw as [Hxw1 Hndw1].
  assert (x ∉ order) as Hx by (intros Hin; apply (Hdis x Hin); by left).
  assert (forall c, c ∈ nodes -> cnt_get m c = missing (order ++ [x]) c + occ x (inputs c)) as Hget
    by (intros c Hc; rewrite (ki_get _ _ _ I c Hc); by apply missing_snoc).
  pose proof (relax_spec order (children x) m w1) as R.
  destruct (foldl relax (m, w1) (children x)) as [m' w'].
  destruct R as (Rg & Rn & Rw).
  - intros c Hc. destruct (Hch c I Hp Hc) as (? & _ & ? & ? & _). done.
  - done.
  - intros c Hc. destruct (Hch c I Hp Hc) as (Hcn & _). rewrite Hget, children_occ by done.
    rewrite decide_True by done. lia.
  - assert (forall c, c ∈ nodes -> cnt_get m' c = missing (order ++ [x]) c) as Hget'.
    { intros c Hc. rewrite Rg, Hget, children_occ, decide_True by done. lia. }
    assert (forall c, c ∈ wl_elems w' -> c ∈ nodes /\ c ∉ order ++ [x] /\
      missing (order ++ [x]) c = 0) as Hw'.
    { intros c [Hc|[Hc E]]%Rw.
      - assert (c ∈ wl_elems w) as Hcw by (rewrite Hw; by right).
        split_and!.
        + apply (ki_nodes _ _ _ I). apply elem_of_app. by right.
        + rewrite elem_of_app, list_elem_of_singleton. intros [Ho| ->]; [|done].
          apply (Hdis c Ho). by right.
        + pose proof (ki_closed _ _ _ I c Hcw) as Hm. rewrite (missing_snoc _ x) in Hm by done. lia.
      - destruct (Hch c I Hp Hc) as (Hcn & _ & Hco & _ & Hcx). split_and!; [done| |].
        + rewrite elem_of_app, list_elem_of_singleton. tauto.
        + rewrite Hget, children_occ, decide_True in E by done. lia. }
    assert (x ∈ nodes) as Hxn
      by (apply (ki_nodes _ _ _ I); rewrite Hw, elem_of_app; right; by left).
    split.
    + apply NoDup_app. split_and!; [|by intros c Hc Hcw; destruct (Hw' c Hcw) as (_ & ? & _)|done].
      apply NoDup_app. split_and!; [done| |apply NoDup_singleton].
      intros c Hc ->%list_elem_of_singleton. done.
    + intros a [[Ha|Ha]%elem_of_app|Ha]%elem_of_app; [| |by apply Hw'].
      * apply (ki_nodes _ _ _ I). apply elem_of_app. by left.
      * by apply list_elem_of_singleton in Ha as ->.
    + done.
    + intros a Ha H0. destruct (decide (a = x)) as [->|Hax].
      { rewrite !elem_of_app, list_elem_of_singleton. tauto. }
      destruct (decide (x ∈ inputs a)) as [Hxa|Hxa].
      * rewrite elem_of_app. right. apply Rw. right.
        rewrite Hget, H0, children_occ, decide_True by done. split; [|lia].
        apply occ_pos. rewrite children_occ, decide_True by done. by apply occ_pos.
      * assert (missing order a = 0) as Hm.
        { rewrite (missing_snoc _ x), H0 by done. rewrite <- occ_pos in Hxa. lia. }
        pose proof (ki_ready _ _ _ I a Ha Hm) as Hr. rewrite Hw in Hr.
        rewrite !elem_of_app, list_elem_of_singleton, Rw. apply elem_of_app in Hr as [?|Hr]; [tauto|].
        apply elem_of_cons in Hr as [?|?]; tauto.
    + intros a Ha. by apply Hw'.
    + intros l a r E b Hb. destruct r as [|z r _] using rev_ind.
      * apply app_inj_tail in E as [<- ->]. assert (missing order a = 0) as Hm.
        { apply (ki_closed _ _ _ I). rewrite Hw. by left. }
        rewrite missing_0 in Hm. by apply Hm.
      * rewrite app_comm_cons, app_assoc in E. apply app_inj_tail in E as [E _].
        by apply (ki_topo _ _ _ I l a r E).
Qed.

(** The loop: take a ready node, relax its users, until nothing is ready. One turn
    per node, so the number of nodes is enough fuel. *)
Fixpoint kahn_loop (fuel : nat) (m : M) (w : W) (order : list A) : list A :=
  match fuel with
  | O => order
  | S fuel' =>
      match wl_pop w with
      | None => order
      | Some (x, w1) =>
          let '(m', w') := foldl relax (m, w1) (children x) in
          kahn_loop fuel' m' w' (order ++ [x])
      end
  end.

Lemma kahn_inv_length order m w : kahn_inv order m w ->
  length order + length (wl_elems w) <= length nodes.
Proof.
  intros I. rewrite <- length_app. apply NoDup_incl_length.
  - apply NoDup_ListNoDup, (ki_nodup _ _ _ I).
  - intros a Ha. apply list_elem_of_In, (ki_nodes _ _ _ I), list_elem_of_In, Ha.
Qed.

Lemma kahn_loop_spec fuel m w order : kahn_inv order m w -> length nodes - length order < fuel ->
  exists m' w', kahn_inv (kahn_loop fuel m w order) m' w' /\ wl_elems w' = [].
Proof.
  revert m w order; induction fuel as [|fuel IH]; intros m w order I Hf; [lia|].
  cbn [kahn_loop]. destruct (wl_pop w) as [[x w1]|] eqn:Hp.
  - pose proof (kahn_step order m w w1 x I Hp) as Hs.
    pose proof (kahn_inv_length _ _ _ I) as Hl.
    rewrite (Permutation_length (wl_elems_pop _ _ _ Hp)) in Hl. cbn [length] in Hl.
    destruct (foldl relax (m, w1) (children x)) as [m' w'].
    apply IH; [done|]. rewrite length_app. cbn [length]. lia.
  - exists m, w. split; [done|by apply wl_pop_empty].
Qed.

Lemma kahn_init m w : NoDup (wl_elems w) ->
  (forall a, a ∈ wl_elems w <-> a ∈ nodes /\ length (inputs a) = 0) ->
  (forall a, a ∈ nodes -> cnt_get m a = length (inputs a)) -> kahn_inv [] m w.
Proof.
  intros Hn Hw Hm. assert (forall a, missing [] a = length (inputs a)) as Hmiss.
  { intros a. unfold missing. f_equal. induction (inputs a) as [|b l IH]; [done|].
    rewrite filter_cons, decide_True, IH; [done|]. intros H. inversion H. }
  split; cbn [app]; try done.
  - intros a Ha. by apply Hw.
  - intros a Ha. by rewrite Hm, Hmiss.
  - intros a Ha H0. rewrite Hmiss in H0. by apply Hw.
  - intros a Ha. rewrite Hmiss. by apply Hw.
  - intros l a r E. by destruct l.
Qed.

Lemma topological_acyclic order : topological nodes inputs order -> acyclic nodes inputs.
Proof.
  intros [Hp Ht]. exists (fun a => default 0 (position (fun b => bool_decide (b = a)) order)).
  intros a b Ha Hb. rewrite <- Hp in Ha. apply list_elem_of_split in Ha as (l & r & E).
  assert (a ∉ l) as Hal.
  { pose proof nodes_nodup as Hnd. rewrite <- Hp, E in Hnd. apply NoDup_app in Hnd as (_ & H & _).
    intros Hin. apply (H a Hin). by left. }
  pose proof (Ht l a r E b Hb) as Hbl. rewrite E.
  assert (forall k, position (fun b => bool_decide (b = a)) (l ++ a :: k) = Some (length l)) as ->.
  { intros k. clear -Hal. induction l as [|c l IH]; cbn [app position length].
    - by rewrite bool_decide_eq_true_2.
    - rewrite bool_decide_eq_false_2 by (intros ->; apply Hal; by left).
      rewrite IH; [done|]. intros H. apply Hal. by right. }
  assert (exists i, position (fun c => bool_decide (c = b)) (l ++ a :: r) = Some i /\ i < length l)
    as (i & -> & Hi); [|done].
  clear -Hbl. induction l as [|c l IH]; [inversion Hbl|]. cbn [app position length].
  destruct (decide (c = b)) as [->|Hne].
  - rewrite bool_decide_eq_true_2 by done. exists 0. split; [done|lia].
  - rewrite bool_decide_eq_false_2 by done. apply elem_of_cons in Hbl as [->|Hbl]; [done|].
    destruct (IH Hbl) as (i & -> & Hi). exists (S i). split; [done|lia].
Qed.

(** The sort reaches every node exactly when the graph has no cycle, and then the
    order is topological. *)
Lemma kahn_final order m w : kahn_inv order m w -> wl_elems w = [] ->
  (length order = length nodes <-> acyclic nodes inputs) /\
  (length order = length nodes -> topological nodes inputs order).
Proof.
  intros I Hw. pose proof (ki_nodup _ _ _ I) as Hnd. rewrite Hw, app_nil_r in Hnd.
  assert (length order = length nodes -> topological nodes inputs order) as Ht.
  { intros Hl. split; [|apply (ki_topo _ _ _ I)]. apply NoDup_Permutation_bis.
    - by apply NoDup_ListNoDup.
    - lia.
    - intros a Ha. apply list_elem_of_In, (ki_nodes _ _ _ I). rewrite Hw, app_nil_r.
      by apply list_elem_of_In. }
  split; [split|exact Ht]; [intros Hl; by eapply topological_acyclic, Ht|].
  intros [rank Hr]. assert (forall n a, rank a < n -> a ∈ nodes -> a ∈ order) as Hall.
  { intros n; induction n as [|n IH]; intros a Hn Ha; [lia|].
    assert (missing order a = 0) as Hm.
    { apply missing_0. intros b Hb. apply IH; [|by eapply inputs_nodes].
      specialize (Hr a b Ha Hb). lia. }
    pose proof (ki_ready _ _ _ I a Ha Hm) as H. by rewrite Hw, app_nil_r in H. }
  pose proof (kahn_inv_length _ _ _ I). rewrite Hw in *. cbn [length] in *.
  assert (length nodes <= length order); [|lia].
  apply NoDup_incl_length; [by apply NoDup_ListNoDup|].
  intros a Ha. apply list_elem_of_In, (Hall (S (rank a))); [lia|by apply list_elem_of_In].
Qed.
End Kahn.

(** ** Reachability with an explicit stack

    The wire decoder and the binder both mark the operators a query's root uses by a
    stack of node indices. The loop is modelled once, and proved to mark exactly the
    nodes reachable from the root. *)

Section Reach.
Variable inputs : nat -> list nat.

(** [while let Some(i) = stack.pop() { if seen.insert(i) { stack.extend(inputs[i]) } }];
    the head of [stack] is the top. *)
Fixpoint reach (fuel : nat) (stack : list nat) (seen : gset nat) : gset nat :=
  match fuel, stack with
  | S fuel', i :: stack' =>
      if bool_decide (i ∈ seen) then reach fuel' stack' seen
      else reach fuel' (rev (inputs i) ++ stack') ({[i]} ∪ seen)
  | _, _ => seen
  end.

Definition uses (i j : nat) : Prop := j ∈ inputs i.

(** What the nodes outside [seen] may still push *)
Definition weight (nodes : list nat) (seen : gset nat) : nat :=
  list_sum (map (fun i => if bool_decide (i ∈ seen) then 0 else length (inputs i)) nodes).
Lemma weight_outside nodes seen i : i ∉ nodes -> weight nodes ({[i]} ∪ seen) = weight nodes seen.
Proof.
  unfold weight. intros Hi. induction nodes as [|j nodes IH]; [done|].
  apply not_elem_of_cons in Hi as [Hij Hi]. cbn [map]. unfold list_sum in *. cbn. rewrite IH by done.
  f_equal.
  rewrite (bool_decide_ext (j ∈ {[i]} ∪ seen) (j ∈ seen)); [done|set_solver].
Qed.
Lemma weight_insert nodes seen i : NoDup nodes -> i ∈ nodes -> i ∉ seen ->
  weight nodes seen = length (inputs i) + weight nodes ({[i]} ∪ seen).
Proof.
  unfold weight. induction 1 as [|j nodes Hj _ IH]; intros Hi Hs; [by apply elem_of_nil in Hi|].
  cbn [map]. unfold list_sum. cbn. fold (list_sum (map (fun i => if bool_decide (i ∈ seen) then 0 else length (inputs i)) nodes)).
  fold (list_sum (map (fun k => if bool_decide (k ∈ {[i]} ∪ seen) then 0 else length (inputs k)) nodes)).
  apply elem_of_cons in Hi as [->|Hi].
  - rewrite (bool_decide_eq_false_2 (j ∈ seen)) by done.
    rewrite (bool_decide_eq_true_2 (j ∈ {[j]} ∪ seen)) by set_solver.
    pose proof (weight_outside nodes seen j Hj) as Hw. unfold weight in Hw. rewrite Hw. lia.
  - rewrite IH by done. rewrite (bool_decide_ext (j ∈ {[i]} ∪ seen) (j ∈ seen)); [lia|].
    assert (i <> j) by (intros ->; done). set_solver.
Qed.

Lemma reach_inv nodes root fuel stack seen :
  NoDup nodes -> (forall i, i ∈ nodes \/ inputs i = []) ->
  length stack + weight nodes seen <= fuel ->
  (forall i, i ∈ seen \/ i ∈ stack -> rtc uses root i) ->
  root ∈ seen \/ root ∈ stack ->
  (forall i j, i ∈ seen -> uses i j -> j ∈ seen \/ j ∈ stack) ->
  forall i, i ∈ reach fuel stack seen <-> rtc uses root i.
Proof.
  intros Hnd Hn. revert stack seen.
  assert (forall seen : gset nat, (forall i, i ∈ seen \/ i ∈ [] -> rtc uses root i) -> root ∈ seen \/ root ∈ [] ->
    (forall i j, i ∈ seen -> uses i j -> j ∈ seen \/ j ∈ []) -> forall i, i ∈ seen <-> rtc uses root i) as Hdone.
  { intros seen H1 H2 H3 i. split; [intros Hi; apply H1; by left|].
    intros Hr. assert (root ∈ seen) as H0 by (destruct H2 as [|H2]; [done|by apply elem_of_nil in H2]).
    clear H1 H2. induction Hr as [|x y z Hxy _ IH]; [done|]. apply IH.
    destruct (H3 x y H0 Hxy) as [|Hy]; [done|by apply elem_of_nil in Hy]. }
  induction fuel as [|fuel IH]; intros [|k stack] seen Hf H1 H2 H3; cbn [reach].
  - by apply Hdone.
  - cbn in Hf. lia.
  - by apply Hdone.
  - cbn [length] in Hf. case_bool_decide as Hk.
    + apply IH; [lia|set_solver|set_solver|].
      intros i j Hi Hu. destruct (H3 i j Hi Hu) as [|[->|]%elem_of_cons]; auto.
    + apply IH.
      * rewrite length_app, length_rev. destruct (Hn k) as [Hin|Hz].
        -- rewrite (weight_insert nodes seen k) in Hf by done. lia.
        -- rewrite Hz. cbn. destruct (decide (k ∈ nodes)) as [Hin|Hout].
           ++ rewrite (weight_insert nodes seen k), Hz in Hf by done. cbn in Hf. lia.
           ++ rewrite weight_outside by done. lia.
      * intros i Hi. assert (rtc uses root k) as Hrk by (apply H1; right; by left).
        rewrite elem_of_union, elem_of_singleton, elem_of_app in Hi.
        destruct Hi as [[->|Hi]|[Hi|Hi]]; [done|apply H1; by left| |apply H1; right; by right].
        eapply rtc_r; [exact Hrk|]. unfold uses. by apply list_elem_of_In, in_rev, list_elem_of_In.
      * rewrite elem_of_union, elem_of_singleton, elem_of_app.
        destruct H2 as [|[->|]%elem_of_cons]; auto.
      * intros i j Hi Hu. rewrite elem_of_union, elem_of_singleton, elem_of_app.
        apply elem_of_union in Hi as [->%elem_of_singleton|Hi].
        -- right; left. by apply list_elem_of_In, in_rev; rewrite rev_involutive; apply list_elem_of_In.
        -- destruct (H3 i j Hi Hu) as [|[->|]%elem_of_cons]; auto.
Qed.

(** One entry for the root and one for every input is enough fuel. *)
Lemma reach_spec n root fuel : (forall i, n <= i -> inputs i = []) ->
  S (list_sum (map (fun i => length (inputs i)) (seq 0 n))) <= fuel ->
  forall i, i ∈ reach fuel [root] ∅ <-> rtc uses root i.
Proof.
  intros Hn Hf. apply (reach_inv (seq 0 n)).
  - apply NoDup_seq.
  - intros i. destruct (decide (i < n)); [left; apply elem_of_seq; lia|right; apply Hn; lia].
  - unfold weight. cbn [length]. rewrite (map_ext _ (fun i => length (inputs i))); [lia|].
    intros i. by rewrite bool_decide_eq_false_2 by set_solver.
  - intros i [Hi|Hi]; [set_solver|]. apply list_elem_of_singleton in Hi as ->. apply rtc_refl.
  - right. by left.
  - set_solver.
Qed.
End Reach.
