(* ===== verification/Float.v ===== *)
(** * IEEE 754 binary64

    The engine's [f64] is the Standard Library's [spec_float] at precision 53 and
    exponent bound 1024: arithmetic rounds to nearest even as the hardware does.
    [f64_bits] is [f64::to_bits] of a number that is not a NaN. *)
From Stdlib Require Export SpecFloat.
From S2P Require Export Order.
Local Open Scope Z_scope.

Notation f64 := spec_float.

Definition f64_prec : Z := 53.
Definition f64_emax : Z := 1024.

Definition f64_add : f64 -> f64 -> f64 := SFadd f64_prec f64_emax.
Definition f64_sub : f64 -> f64 -> f64 := SFsub f64_prec f64_emax.
Definition f64_mul : f64 -> f64 -> f64 := SFmul f64_prec f64_emax.
Definition f64_div : f64 -> f64 -> f64 := SFdiv f64_prec f64_emax.
Definition f64_neg : f64 -> f64 := SFopp.
Definition f64_sqrt : f64 -> f64 := SFsqrt f64_prec f64_emax.

(** Rust's [%] on floats is C's [fmod]: exact, with the dividend's sign. *)
Definition f64_rem (x y : f64) : f64 :=
  match x, y with
  | S754_nan, _ | _, S754_nan | S754_infinity _, _ | _, S754_zero _ => S754_nan
  | S754_zero _, _ | _, S754_infinity _ => x
  | S754_finite sx mx ex, S754_finite _ my ey =>
      let e := Z.min ex ey in
      let r := (Zpos mx * 2 ^ (ex - e)) mod (Zpos my * 2 ^ (ey - e)) in
      binary_normalize f64_prec f64_emax (if sx then - r else r) e sx
  end.

Definition f64_is_finite (x : f64) : bool :=
  match x with S754_zero _ | S754_finite _ _ _ => true | _ => false end.
Definition f64_is_nan (x : f64) : bool := match x with S754_nan => true | _ => false end.
Definition f64_is_sign_negative (x : f64) : bool :=
  match x with
  | S754_zero s | S754_infinity s | S754_finite s _ _ => s
  | S754_nan => false
  end.

(** [==] and [partial_cmp] *)
Definition f64_eqb : f64 -> f64 -> bool := SFeqb.
Definition f64_partial_cmp : f64 -> f64 -> option comparison := SFcompare.

(** [z as f64] for an integer [z] *)
Definition f64_of_Z (z : Z) : f64 := binary_normalize f64_prec f64_emax z 0 false.

Definition f64_zero : f64 := S754_zero false.

(** Every [f64] value is canonical. *)
Definition f64_valid (x : f64) : bool := valid_binary f64_prec f64_emax x.

#[export] Instance f64_eq_dec : EqDecision f64.
Proof. solve_decision. Defined.

(** [f64::to_bits] (a NaN is given the quiet pattern). *)
Definition f64_bits (x : f64) : Z :=
  let sign (s : bool) : Z := if s then 2 ^ 63 else 0 in
  match x with
  | S754_zero s => sign s
  | S754_infinity s => sign s + 2047 * 2 ^ 52
  | S754_nan => 2047 * 2 ^ 52 + 2 ^ 51
  | S754_finite s m e =>
      sign s + (if Zpos m <? 2 ^ 52 then Zpos m else (e + 1075) * 2 ^ 52 + (Zpos m - 2 ^ 52))
  end.
Definition f64_to_be_bytes (x : f64) : list byte := be_bytes 8 (f64_bits x).

(** [if x == 0.0 { 0.0 } else { x }]: both zeros have one key. *)
Definition f64_canonical (x : f64) : f64 := if f64_eqb x f64_zero then f64_zero else x.

Lemma digits2_pos_bounds m :
  2 ^ (Zpos (digits2_pos m) - 1) <= Zpos m < 2 ^ Zpos (digits2_pos m).
Proof.
  induction m as [m IH|m IH|]; cbn [digits2_pos]; [| |done];
    rewrite Pos2Z.inj_succ;
    replace (Z.succ (Zpos (digits2_pos m)) - 1) with (Z.succ (Zpos (digits2_pos m) - 1)) by lia;
    rewrite !Z.pow_succ_r by lia; lia.
Qed.

Lemma f64_valid_finite s m e : f64_valid (S754_finite s m e) = true ->
  Zpos m < 2 ^ 53 /\ -1074 <= e <= 971 /\ (2 ^ 52 <= Zpos m \/ e = -1074).
Proof.
  unfold f64_valid, valid_binary, bounded, canonical_mantissa, fexp, emin, f64_prec, f64_emax.
  rewrite andb_true_iff, Z.leb_le, Z.eqb_eq. intros [H1 H2].
  pose proof (digits2_pos_bounds m) as [Hl Hu].
  assert (Zpos (digits2_pos m) <= 53) by lia.
  pose proof (Z.pow_le_mono_r 2 (Zpos (digits2_pos m)) 53).
  split; [lia|split; [lia|]].
  destruct (Z.eq_dec (Zpos (digits2_pos m)) 53) as [E|]; [left|right; lia].
  rewrite E in Hl. lia.
Qed.

Lemma f64_bits_bounds x : f64_valid x = true -> 0 <= f64_bits x < 2 ^ 64.
Proof.
  intros Hx. destruct x as [s|s| |s m e]; cbn [f64_bits]; [destruct s; lia..|lia|].
  apply f64_valid_finite in Hx. destruct (Z.ltb_spec (Zpos m) (2 ^ 52)), s; lia.
Qed.

Lemma f64_bits_inj x y :
  f64_valid x = true -> f64_valid y = true -> f64_is_finite x = true ->
  f64_is_finite y = true -> f64_bits x = f64_bits y -> x = y.
Proof.
  intros Hx Hy. destruct x as [s|s| |s m e], y as [s'|s'| |s' m' e']; try done; intros _ _;
    cbn [f64_bits].
  - destruct s, s'; intros; try done; lia.
  - apply f64_valid_finite in Hy. destruct (Z.ltb_spec (Zpos m') (2 ^ 52)), s, s'; lia.
  - apply f64_valid_finite in Hx. destruct (Z.ltb_spec (Zpos m) (2 ^ 52)), s, s'; lia.
  - apply f64_valid_finite in Hx, Hy. intros H.
    assert (s = s' /\ Zpos m = Zpos m' /\ e = e') as (-> & [= ->] & ->); [|done].
    destruct (Z.ltb_spec (Zpos m) (2 ^ 52)), (Z.ltb_spec (Zpos m') (2 ^ 52)), s, s'; lia.
Qed.

Lemma f64_canonical_finite x : f64_is_finite (f64_canonical x) = f64_is_finite x.
Proof. by destruct x as [[]|[]| |[]]. Qed.
Lemma f64_canonical_valid x : f64_valid x = true -> f64_valid (f64_canonical x) = true.
Proof. by destruct x as [[]|[]| |[]]. Qed.

Lemma f64_to_be_bytes_inj x y :
  f64_valid x = true -> f64_valid y = true -> f64_is_finite x = true ->
  f64_is_finite y = true -> f64_to_be_bytes x = f64_to_be_bytes y -> x = y.
Proof.
  intros Hx Hy Fx Fy H. apply f64_bits_inj; [done..|].
  pose proof (f64_bits_bounds x Hx). pose proof (f64_bits_bounds y Hy).
  change (2 ^ 64) with (256 ^ Z.of_nat 8) in *.
  exact (be_bytes_inj 8 (f64_bits x) (f64_bits y) ltac:(assumption) ltac:(assumption) H).
Qed.
