(* ===== verification/Json.v ===== *)
(** * JSON values

    [serde_json::Value] as the crate documents it: a number keeps how it was built
    (unsigned, negative, float), an object iterates in key order. *)
From S2P Require Export Float.

Inductive json_number : Type :=
| PosInt (n : Z)
| NegInt (n : Z)
| NumFloat (x : f64).

Inductive json : Type :=
| JNull
| JBool (b : bool)
| JNumber (n : json_number)
| JString (s : string)
| JArray (l : list json)
| JObject (m : list (string * json)).

#[export] Instance json_number_eq_dec : EqDecision json_number.
Proof. solve_decision. Defined.

(** Induction with the hypothesis for every element and every member. *)
Section JsonInd.
Context (P : json -> Prop).
Context (Hnull : P JNull) (Hbool : forall b, P (JBool b))
        (Hnum : forall n, P (JNumber n)) (Hstr : forall s, P (JString s))
        (Harr : forall l, Forall P l -> P (JArray l))
        (Hobj : forall m, Forall (fun kv => P kv.2) m -> P (JObject m)).
Fixpoint json_ind' (j : json) : P j :=
  match j with
  | JNull => Hnull
  | JBool b => Hbool b
  | JNumber n => Hnum n
  | JString s => Hstr s
  | JArray l => Harr l ((fix go l : Forall P l :=
      match l with
      | [] => Forall_nil_2 P
      | x :: l' => Forall_cons_2 P x l' (json_ind' x) (go l')
      end) l)
  | JObject m => Hobj m ((fix go m : Forall (fun kv => P kv.2) m :=
      match m with
      | [] => Forall_nil_2 _
      | x :: m' => Forall_cons_2 (fun kv : string * json => P kv.2) x m' (json_ind' x.2) (go m')
      end) m)
  end.
End JsonInd.

#[export] Instance json_eq_dec : EqDecision json.
Proof.
  refine (fix go (x y : json) : Decision (x = y) :=
    let _ : EqDecision json := go in
    match x, y with
    | JNull, JNull => left eq_refl
    | JBool b, JBool b' => cast_if (decide (b = b'))
    | JNumber n, JNumber n' => cast_if (decide (n = n'))
    | JString s, JString s' => cast_if (decide (s = s'))
    | JArray l, JArray l' => cast_if (decide (l = l'))
    | JObject m, JObject m' => cast_if (decide (m = m'))
    | _, _ => right _
    end); first [done | congruence].
Defined.

(** [Number::as_i64], [as_u64] and [as_f64] *)
Definition as_i64 (n : json_number) : option Z :=
  match n with
  | PosInt n => if (n <=? i64_max)%Z then Some n else None
  | NegInt n => Some n
  | NumFloat _ => None
  end.
Definition as_u64 (n : json_number) : option Z :=
  match n with PosInt n => Some n | _ => None end.
Definition as_f64 (n : json_number) : option f64 :=
  match n with
  | PosInt n | NegInt n => Some (f64_of_Z n)
  | NumFloat x => Some x
  end.

(** [Number::from(i64)] *)
Definition number_of_i64 (z : Z) : json_number := if (z <? 0)%Z then NegInt z else PosInt z.
(** [Number::from_f64]: a number only for a finite float. *)
Definition number_of_f64 (x : f64) : option json_number :=
  if f64_is_finite x then Some (NumFloat x) else None.

(** [Value::get] on an object. *)
Definition json_get (k : string) (j : json) : option json :=
  match j with JObject m => bt_get cmp_str k m | _ => None end.

(** ** Countability: JSON values have an injective code. *)

#[export] Instance f64_countable : Countable f64.
Proof.
  refine (inj_countable' (fun x : f64 => match x with
      | S754_zero s => inl (inl s)
      | S754_infinity s => inl (inr s)
      | S754_nan => inr None
      | S754_finite s m e => inr (Some (s, m, e)) end)
    (fun c => match c with
      | inl (inl s) => S754_zero s
      | inl (inr s) => S754_infinity s
      | inr None => S754_nan
      | inr (Some (s, m, e)) => S754_finite s m e end) _).
  by intros [].
Defined.

#[export] Instance json_number_countable : Countable json_number.
Proof.
  refine (inj_countable' (fun n => match n with
      | PosInt z => inl z | NegInt z => inr (inl z) | NumFloat x => inr (inr x) end)
    (fun c => match c with
      | inl z => PosInt z | inr (inl z) => NegInt z | inr (inr x) => NumFloat x end) _).
  by intros [].
Defined.

(** Leaves carry scalars and member names; nodes 0 and 1 are arrays and objects. *)
Definition json_leaf : Type := option bool + (json_number + string).

Fixpoint json_tree (j : json) : gen_tree json_leaf :=
  match j with
  | JNull => GenLeaf (inl None)
  | JBool b => GenLeaf (inl (Some b))
  | JNumber n => GenLeaf (inr (inl n))
  | JString s => GenLeaf (inr (inr s))
  | JArray l => GenNode 0 (json_tree <$> l)
  | JObject m => GenNode 1 ((fun kv => GenNode 2 [GenLeaf (inr (inr kv.1)); json_tree kv.2]) <$> m)
  end.

Fixpoint json_untree (t : gen_tree json_leaf) : json :=
  match t with
  | GenLeaf (inl None) => JNull
  | GenLeaf (inl (Some b)) => JBool b
  | GenLeaf (inr (inl n)) => JNumber n
  | GenLeaf (inr (inr s)) => JString s
  | GenNode 0 l => JArray (json_untree <$> l)
  | GenNode _ l =>
      JObject ((fun t => match t with
                         | GenNode _ [GenLeaf (inr (inr k)); v] => (k, json_untree v)
                         | _ => (EmptyString, JNull)
                         end) <$> l)
  end.

#[export] Instance json_countable : Countable json.
Proof.
  refine (inj_countable' json_tree json_untree _).
  intros j; induction j as [| | | |l IH|m IH] using json_ind'; cbn; try done.
  - f_equal. rewrite <- list_fmap_compose. induction IH as [|x l Hx _ IHl]; [done|].
    rewrite fmap_cons. cbn. by rewrite Hx, IHl.
  - f_equal. rewrite <- list_fmap_compose. induction IH as [|[k x] m Hx _ IHm]; [done|].
    rewrite fmap_cons. cbn in *. by rewrite Hx, IHm.
Defined.

(** A concrete injective text, for theorems about code that only needs that the
    serializer prints distinct values differently. *)
Fixpoint positive_bytes (p : positive) : list byte :=
  match p with
  | xH => []
  | xO p => byte_of 48 :: positive_bytes p
  | xI p => byte_of 49 :: positive_bytes p
  end.
Lemma positive_bytes_inj p q : positive_bytes p = positive_bytes q -> p = q.
Proof.
  revert q; induction p as [p IH|p IH|]; intros [q|q|]; cbn; intros H;
    solve [done | injection H as H; f_equal; auto].
Qed.
Definition json_code (j : json) : list byte := positive_bytes (encode j).
Lemma json_code_inj v w : json_code v = json_code w -> v = w.
Proof. intros H%positive_bytes_inj. by apply (inj encode). Qed.
