(* ===== verification/Contract.v ===== *)
(** * The v2 wire contracts

    [src/src/uee_v2.rs]: the structural contracts of queries, transactions, record
    revisions and receipts, and their validators. A decoded value has these types;
    the generated [serde] decoders are not modelled. [DateTime<Utc>] is a number of
    nanoseconds; [Uuid] is a 128-bit number and the [uuid] crate's text functions are
    the parameters of [UuidCrate]. *)
From S2P Require Export Decimal Json Dag.
Local Open Scope Z_scope.

(** ** Errors *)

Record ContractError := { ce_code : string; ce_message : string }.
Notation contract := (result ContractError).

Definition ce_invalid (message : string) {A} : contract A :=
  Err {| ce_code := "UEE_V2_CONTRACT_INVALID"; ce_message := message |}.

Definition API_CONTRACT_V2 : string := "genesis.api.v2".
Definition QUERY_IR_CONTRACT_V2 : string := "query-ir.v2".
Definition TRANSACTION_CONTRACT_V2 : string := "genesis.tx.v2".

Notation DateTime := Z (only parsing).
Notation Uuid := Z (only parsing).

(** [uuid]: parsing, the version number, the RFC 4122 variant, the canonical text. *)
Class UuidCrate := {
  uuid_parse_str : string -> option Uuid;
  uuid_version_num : Uuid -> Z;
  uuid_is_rfc4122 : Uuid -> bool;
  uuid_hyphenated : Uuid -> string;
}.

(** ** Lexical checks *)

Definition is_identifier (value : string) : bool :=
  match chars value with
  | first :: rest =>
      (char_is 95 first || is_ascii_alphabetic first)
      && forallb (fun c => char_is 95 c || is_ascii_alphanumeric c) rest
  | [] => false
  end.

Definition is_namespace (value : string) : bool :=
  let length := Z.of_nat (str_len value) in
  (1 <=? length) && (length <=? 63)
  && match chars value with c :: _ => is_ascii_lowercase c | [] => false end
  && forallb (fun c => is_ascii_lowercase c || is_ascii_digit c || char_is 95 c) (chars value).

Definition is_decimal (value : string) : bool :=
  bool_decide (value = "0"%string)
  || match str_bytes value with
     | b :: rest => byte_is_digit b && negb (byte_val b =? 48) && forallb byte_is_digit rest
     | [] => false
     end.

Definition validate_namespace (namespace : string) : contract unit :=
  if is_namespace namespace then Ok tt
  else ce_invalid ("invalid namespace `" +:+ namespace +:+ "`").
Definition validate_identifier (kind value : string) : contract unit :=
  if is_identifier value then Ok tt
  else ce_invalid ("invalid " +:+ kind +:+ " identifier `" +:+ value +:+ "`").
Definition validate_decimal (kind value : string) : contract unit :=
  if is_decimal value then Ok tt
  else ce_invalid ("invalid decimal " +:+ kind +:+ " `" +:+ value +:+ "`").
Definition validate_nonempty (kind value : string) : contract unit :=
  if bool_decide (value = EmptyString) then ce_invalid (kind +:+ " cannot be empty") else Ok tt.

(** [is_ascii_hexdigit && !is_ascii_uppercase] of a byte. *)
Definition is_lower_hex (b : byte) : bool :=
  byte_is_digit b || ((97 <=? byte_val b) && (byte_val b <=? 102)).
Definition validate_hash (kind value : string) : contract unit :=
  if (Z.of_nat (str_len value) =? 64) && forallb is_lower_hex (str_bytes value) then Ok tt
  else ce_invalid ("invalid " +:+ kind +:+ " hash").

Record ValidityV2 := { va_from : DateTime; va_to : option DateTime }.
Definition validate_interval (valid : option ValidityV2) : contract unit :=
  match valid with
  | Some interval =>
      if match va_to interval with Some t => t <? va_from interval | None => false end
      then ce_invalid "valid interval ends before it starts" else Ok tt
  | None => Ok tt
  end.

(** [HashSet::insert] over the labels already seen. *)
Fixpoint validate_labels_from (unique : list string) (labels : list string) : contract unit :=
  match labels with
  | [] => Ok tt
  | label :: rest =>
      _ ← validate_nonempty "label" label;
      if bool_decide (label ∈ unique) then ce_invalid ("duplicate label `" +:+ label +:+ "`")
      else validate_labels_from (label :: unique) rest
  end.
Definition validate_labels : list string -> contract unit := validate_labels_from [].

(** ** Queries *)

Inductive IndexPolicyV2 := MergeDelta | Wait | Eventual.
Inductive HqlLanguageVersionV2 := HqlV1 | HqlV2.
Inductive ExplainV2 := ExplainNone | ExplainPlan | ExplainAnalyze.
Inductive QueryFormatV2 := FormatJson | FormatStream.
Record QueryTemporalV2 := { qt_tx_as_of : option string; qt_valid_at : option DateTime }.
Record QueryBudgetV2 := {
  qb_max_memory_bytes : option Z;
  qb_max_spill_bytes : option Z;
  qb_max_elapsed_ms : option Z;
  qb_max_expanded_nodes : option Z;
  qb_max_expanded_edges : option Z;
  qb_max_vector_candidates : option Z;
  qb_max_distance_evaluations : option Z;
  qb_max_result_rows : option Z;
  qb_max_result_bytes : option Z;
}.

(** Spilling may be switched off with a zero; every other bound is positive. *)
Definition query_budget_validate (b : QueryBudgetV2) : contract unit :=
  try_for (fun _ '(name, value) =>
      if bool_decide (value = Some 0) then ce_invalid (name +:+ " must be positive") else Ok tt)
    tt
    [ ("max_memory_bytes", qb_max_memory_bytes b); ("max_elapsed_ms", qb_max_elapsed_ms b);
      ("max_expanded_nodes", qb_max_expanded_nodes b);
      ("max_expanded_edges", qb_max_expanded_edges b);
      ("max_vector_candidates", qb_max_vector_candidates b);
      ("max_distance_evaluations", qb_max_distance_evaluations b);
      ("max_result_rows", qb_max_result_rows b); ("max_result_bytes", qb_max_result_bytes b) ]%string.

Inductive QueryOpV2 :=
| OpAnnotationLookup | OpAnnotationScan | OpAggregate | OpChangeScan | OpContextPack | OpDistinct
| OpEdgeScan | OpExpand | OpFilter | OpHistoryScan | OpJoin | OpKnn | OpLexicalMatch | OpMatch
| OpNodeScan | OpOffset | OpProject | OpRerank | OpRowScan | OpSort | OpTake | OpUnionAll
| OpValues.
#[export] Instance query_op_eq_dec : EqDecision QueryOpV2.
Proof. solve_decision. Defined.

(** [BTreeMap<String, T>]: a list of entries in key order. *)
Notation btree T := (list (string * T)) (only parsing).

Record QueryNodeV2 := {
  qn_id : string;
  qn_op : QueryOpV2;
  qn_inputs : list string;
  qn_config : btree json;
}.
Record QueryIrV2 := {
  ir_contract_version : string;
  ir_nodes : list QueryNodeV2;
  ir_root : string;
  ir_parameter_types : btree string;
}.

(** [HashMap<String, usize>] of in-degrees. *)
#[export] Instance gmap_counter : Counter string (gmap string nat).
Proof.
  refine {| cnt_get m a := default 0%nat (m !! a);
            cnt_dec a m := alter pred a m |}.
  intros m a b. destruct (decide (a = b)) as [->|Hne].
  - rewrite lookup_alter_eq. by destruct (m !! b).
  - by rewrite lookup_alter_ne.
Defined.
(** [Vec::push] and [Vec::pop]. *)
#[export] Instance stack_worklist {A} : Worklist A (list A).
Proof.
  refine {| wl_elems w := w; wl_push a w := w ++ [a];
            wl_pop w := a ← last w; Some (a, take (pred (length w)) w) |}.
  - intros a w _. by rewrite Permutation_app_comm.
  - intros w a w' H. destruct w as [|b w _] using rev_ind; [done|].
    rewrite last_snoc in H. cbn [mbind option_bind] in H. injection H as <- <-.
    rewrite length_app, Nat.add_1_r. cbn [pred length].
    rewrite take_app_length. by rewrite Permutation_app_comm.
  - intros w H. destruct w as [|b w _] using rev_ind; [done|]. by rewrite last_snoc in H.
Defined.

(** The first pass over the nodes: identifiers, and no identifier twice. *)
Fixpoint ir_node_ids (seen : list string) (nodes : list QueryNodeV2) : contract (list string) :=
  match nodes with
  | [] => Ok seen
  | node :: rest =>
      _ ← validate_identifier "query node" (qn_id node);
      if bool_decide (qn_id node ∈ seen)
      then ce_invalid ("duplicate query node `" +:+ qn_id node +:+ "`")
      else ir_node_ids (seen ++ [qn_id node]) rest
  end.

(** The second pass: every input names a node; in-degrees and users by input. *)
Definition ir_edge (node_ids : list string) (node : QueryNodeV2)
  (s : gmap string nat * gmap string (list string)) (input : string)
  : contract (gmap string nat * gmap string (list string)) :=
  if negb (bool_decide (input ∈ node_ids))
  then ce_invalid ("query node `" +:+ qn_id node +:+ "` references unknown input `" +:+ input +:+ "`")
  else Ok (alter S (qn_id node) s.1,
           <[input := default [] (s.2 !! input) ++ [qn_id node]]> s.2).
Definition ir_edges (node_ids : list string) (nodes : list QueryNodeV2)
  (s : gmap string nat * gmap string (list string))
  : contract (gmap string nat * gmap string (list string)) :=
  try_for (fun s node => try_for (ir_edge node_ids node) s (qn_inputs node)) s nodes.

Definition query_ir_validate (ir : QueryIrV2) : contract unit :=
  if negb (bool_decide (ir_contract_version ir = QUERY_IR_CONTRACT_V2))
  then ce_invalid ("unsupported query IR contract `" +:+ ir_contract_version ir +:+ "`")
  else if bool_decide (ir_nodes ir = []) || (10000 <? zlen (ir_nodes ir))
  then ce_invalid "query IR node count is outside 1..=10000"
  else
    _ ← validate_identifier "root" (ir_root ir);
    node_ids ← ir_node_ids [] (ir_nodes ir);
    if negb (bool_decide (ir_root ir ∈ node_ids))
    then ce_invalid ("query root `" +:+ ir_root ir +:+ "` does not exist")
    else
      _ ← try_for (fun _ kv => validate_identifier "parameter" kv.1) tt (ir_parameter_types ir);
      if existsb (fun kv => bool_decide (kv.2 = EmptyString)) (ir_parameter_types ir)
      then ce_invalid "query parameter type cannot be empty"
      else
        let indegree0 := list_to_map ((fun node => (qn_id node, 0%nat)) <$> ir_nodes ir) in
        '(indegree, outgoing) ← ir_edges node_ids (ir_nodes ir) (indegree0, ∅);
        let ready := (filter (fun kv => kv.2 = 0%nat) (map_to_list indegree)).*1 in
        let visited :=
          kahn_loop (fun id => default [] (outgoing !! id)) (S (length (ir_nodes ir)))
            indegree ready [] in
        if negb (length visited =? length (ir_nodes ir))%nat
        then ce_invalid "query IR contains a cycle"
        else Ok tt.

Record QueryRequestV2 := {
  qr_contract_version : string;
  qr_request_id : string;
  qr_namespace : string;
  qr_hql : option string;
  qr_ir : option QueryIrV2;
  qr_language_version : option HqlLanguageVersionV2;
  qr_params : btree json;
  qr_temporal : option QueryTemporalV2;
  qr_index_policy : option IndexPolicyV2;
  qr_required_frontier : option string;
  qr_transaction_id : option Uuid;
  qr_budget : option QueryBudgetV2;
  qr_allow_partial : option bool;
  qr_explain : option ExplainV2;
  qr_format : option QueryFormatV2;
}.

Definition opt_validate {A} (f : A -> contract unit) (o : option A) : contract unit :=
  match o with Some a => f a | None => Ok tt end.

(** The match on [(&self.hql, &self.ir, &self.language_version)]. *)
Definition query_source_validate (q : QueryRequestV2) : contract unit :=
  match qr_hql q, qr_ir q, qr_language_version q with
  | Some hql, None, Some _ =>
      if negb (bool_decide (hql = EmptyString)) && (zlen (chars hql) <=? 262144) then Ok tt
      else ce_invalid "hql must be non-empty and <= 262144 characters"
  | None, Some ir, None => query_ir_validate ir
  | Some _, Some _, _ => ce_invalid "query request cannot contain both hql and ir"
  | None, None, _ => ce_invalid "query request requires hql or ir"
  | Some _, None, None => ce_invalid "hql requires language_version"
  | None, Some _, Some _ => ce_invalid "ir cannot contain language_version"
  end.

Definition query_request_validate (q : QueryRequestV2) : contract unit :=
  if negb (bool_decide (qr_contract_version q = API_CONTRACT_V2))
  then ce_invalid ("unsupported API contract `" +:+ qr_contract_version q +:+ "`")
  else if bool_decide (qr_request_id q = EmptyString) || (256 <? zlen (chars (qr_request_id q)))
  then ce_invalid "request_id must contain 1..=256 characters"
  else
    _ ← validate_namespace (qr_namespace q);
    _ ← query_source_validate q;
    _ ← opt_validate (fun t => opt_validate (validate_decimal "tx_as_of") (qt_tx_as_of t))
          (qr_temporal q);
    _ ← opt_validate (validate_decimal "required_frontier") (qr_required_frontier q);
    opt_validate query_budget_validate (qr_budget q).

(** ** Record identities and revisions *)

Inductive RecordKindV2 := Node | Edge | Row | Vector | Annotation | Artifact.
#[export] Instance record_kind_eq_dec : EqDecision RecordKindV2.
Proof. solve_decision. Defined.

Record RecordRefV2 := {
  rr_database_id : string;
  rr_namespace : string;
  rr_kind : RecordKindV2;
  rr_id : string;
  rr_revision : string;
}.
#[export] Instance record_ref_eq_dec : EqDecision RecordRefV2.
Proof. solve_decision. Defined.

Inductive RevisionOperationV1 := Upsert | Retract.
#[export] Instance revision_operation_eq_dec : EqDecision RevisionOperationV1.
Proof. solve_decision. Defined.

Record RecordRevisionMutationV1 := {
  rm_namespace : string;
  rm_kind : RecordKindV2;
  rm_id : string;
  rm_revision_id : string;
  rm_expected_revision_id : option string;
  rm_predecessor_revision_id : option string;
  rm_operation : RevisionOperationV1;
  rm_valid_from : DateTime;
  rm_valid_to : option DateTime;
  rm_schema_ref : option string;
  rm_schema_version : option Z;
  rm_key_codec_version : option Z;
  rm_key_bytes : option (list byte);
  rm_payload : json;
}.

Section Revisions.
Context `{UuidCrate}.

Definition validate_uuid_v4 (kind value : string) : contract unit :=
  match uuid_parse_str value with
  | None => ce_invalid ("invalid " +:+ kind)
  | Some u =>
      if negb (uuid_version_num u =? 4) || negb (uuid_is_rfc4122 u)
         || negb (bool_decide (uuid_hyphenated u = value))
      then ce_invalid (kind +:+ " must be a canonical UUIDv4") else Ok tt
  end.

(** [RecordRefV2::validate] *)
Definition record_ref_validate (r : RecordRefV2) : contract unit :=
  _ ← validate_hash "database ID" (rr_database_id r);
  _ ← validate_namespace (rr_namespace r);
  _ ← validate_nonempty "record id" (rr_id r);
  validate_uuid_v4 "record revision" (rr_revision r).

(** The match on the record's kind at the end of the mutation's validator. *)
Definition revision_kind_validate (m : RecordRevisionMutationV1) : contract unit :=
  match rm_kind m with
  | Row =>
      if is_Some_b (rm_schema_ref m) && is_Some_b (rm_schema_version m)
         && bool_decide (rm_key_codec_version m = Some 1)
         && match rm_key_bytes m with
            | Some bytes => negb (bool_decide (bytes = [])) && (zlen bytes <=? 16 * 1024)
            | None => false
            end
      then Ok tt else ce_invalid "row revision requires schema, codec version and key bytes"
  | Vector =>
      if is_Some_b (rm_schema_ref m) && bool_decide (rm_schema_version m = Some 1)
      then Ok tt else ce_invalid "vector revision requires a collection and schema version 1"
  | _ =>
      if is_Some_b (rm_key_codec_version m) || is_Some_b (rm_key_bytes m)
      then ce_invalid "key codec metadata is only valid for row revisions" else Ok tt
  end.

Definition revision_mutation_validate (m : RecordRevisionMutationV1) : contract unit :=
  _ ← validate_namespace (rm_namespace m);
  _ ← validate_nonempty "record id" (rm_id m);
  _ ← validate_uuid_v4 "revision ID" (rm_revision_id m);
  _ ← opt_validate (validate_uuid_v4 "expected revision ID") (rm_expected_revision_id m);
  _ ← opt_validate (validate_uuid_v4 "predecessor revision ID") (rm_predecessor_revision_id m);
  if negb (bool_decide (rm_expected_revision_id m = rm_predecessor_revision_id m))
  then ce_invalid "predecessor revision must match the expected revision"
  else if bool_decide (rm_expected_revision_id m = Some (rm_revision_id m))
  then ce_invalid "new revision ID must differ from its predecessor"
  else if bool_decide (rm_operation m = Retract) && negb (is_Some_b (rm_expected_revision_id m))
  then ce_invalid "retraction requires an expected revision"
  else if match rm_valid_to m with Some t => t <=? rm_valid_from m | None => false end
  then ce_invalid "valid interval must be non-empty and forward"
  else if bool_decide (rm_schema_ref m = Some EmptyString)
          || bool_decide (rm_schema_version m = Some 0)
  then ce_invalid "schema reference and version must be non-empty"
  else
    _ ← (if bool_decide (rm_kind m = Row) then validate_uuid_v4 "row ID" (rm_id m) else Ok tt);
    revision_kind_validate m.

Record RecordRevisionTransactionV1 := {
  rt_transaction_id : Uuid;
  rt_origin_database_id : string;
  rt_mutations : list RecordRevisionMutationV1;
}.

Fixpoint revision_mutations_validate (revision_ids : list string)
  (mutations : list RecordRevisionMutationV1) : contract unit :=
  match mutations with
  | [] => Ok tt
  | m :: rest =>
      _ ← revision_mutation_validate m;
      if bool_decide (rm_revision_id m ∈ revision_ids)
      then ce_invalid "duplicate revision ID in transaction"
      else revision_mutations_validate (rm_revision_id m :: revision_ids) rest
  end.

Definition revision_transaction_validate (t : RecordRevisionTransactionV1) : contract unit :=
  _ ← validate_hash "origin database ID" (rt_origin_database_id t);
  if bool_decide (rt_mutations t = []) || (10000 <? zlen (rt_mutations t))
  then ce_invalid "revision mutation count is outside 1..=10000"
  else revision_mutations_validate [] (rt_mutations t).
End Revisions.

(** ** Transactions *)

Record NodePutMutationV2 := {
  np_id : string; np_labels : list string; np_props : btree json;
  np_expected_revision : option Uuid; np_valid : option ValidityV2;
}.
Record EdgePutMutationV2 := {
  ep_id : string; ep_source_id : string; ep_target_id : string; ep_relation : string;
  ep_props : btree json; ep_expected_revision : option Uuid; ep_valid : option ValidityV2;
}.
Record RowPutMutationV2 := {
  rp_table : string; rp_key : btree json; rp_values : btree json;
  rp_expected_revision : option Uuid; rp_valid : option ValidityV2;
}.
Record VectorPutMutationV2 := {
  vp_owner_id : string; vp_collection : string; vp_space_id : string; vp_values : list f64;
  vp_expected_revision : option Uuid; vp_valid : option ValidityV2;
}.
Record AnnotationPutMutationV2 := {
  ap_annotation : json; ap_expected_revision : option Uuid; ap_valid : option ValidityV2;
}.
Record RecordRetractMutationV2 := {
  ret_kind : RecordKindV2; ret_id : string;
  ret_expected_revision : option Uuid; ret_valid : option ValidityV2;
}.
Record SchemaPutMutationV2 := {
  sp_name : string; sp_version : Z; sp_previous_version : Z; sp_schema : btree json;
}.
Record ArtifactPutMutationV2 := {
  art_id : string; art_uri : string; art_content_hash : string; art_media_type : string;
  art_blob_ref : option string; art_expected_revision : option Uuid;
  art_valid : option ValidityV2;
}.

Inductive MutationV2 :=
| NodePut (m : NodePutMutationV2)
| EdgePut (m : EdgePutMutationV2)
| RowPut (m : RowPutMutationV2)
| VectorPut (m : VectorPutMutationV2)
| AnnotationPut (m : AnnotationPutMutationV2)
| RecordRetract (m : RecordRetractMutationV2)
| SchemaPut (m : SchemaPutMutationV2)
| ArtifactPut (m : ArtifactPutMutationV2).

Definition is_object (j : json) : bool := match j with JObject _ => true | _ => false end.

(** [MutationV2::validate] *)
Definition mutation_validate (mutation : MutationV2) : contract unit :=
  match mutation with
  | NodePut m =>
      _ ← validate_nonempty "node id" (np_id m);
      _ ← validate_labels (np_labels m);
      validate_interval (np_valid m)
  | EdgePut m =>
      _ ← validate_nonempty "edge id" (ep_id m);
      _ ← validate_nonempty "edge source_id" (ep_source_id m);
      _ ← validate_nonempty "edge target_id" (ep_target_id m);
      _ ← validate_nonempty "edge relation" (ep_relation m);
      validate_interval (ep_valid m)
  | RowPut m =>
      _ ← validate_identifier "table" (rp_table m);
      if bool_decide (rp_key m = []) then ce_invalid "row key cannot be empty"
      else validate_interval (rp_valid m)
  | VectorPut m =>
      _ ← validate_nonempty "vector owner_id" (vp_owner_id m);
      _ ← validate_identifier "vector collection" (vp_collection m);
      _ ← validate_nonempty "vector space_id" (vp_space_id m);
      if bool_decide (vp_values m = []) || (65535 <? zlen (vp_values m))
      then ce_invalid "vector dimension is outside 1..=65535"
      else if existsb (fun value => negb (f64_is_finite value)) (vp_values m)
      then ce_invalid "vector values must be finite"
      else validate_interval (vp_valid m)
  | AnnotationPut m =>
      if negb (is_object (ap_annotation m)) then ce_invalid "annotation must be an object"
      else validate_interval (ap_valid m)
  | RecordRetract m =>
      _ ← validate_nonempty "retracted record id" (ret_id m);
      validate_interval (ret_valid m)
  | SchemaPut m =>
      _ ← validate_identifier "schema" (sp_name m);
      if (sp_version m =? 0) || bool_decide (sp_schema m = [])
      then ce_invalid "schema version and body must be non-empty" else Ok tt
  | ArtifactPut m =>
      _ ← validate_nonempty "artifact id" (art_id m);
      _ ← validate_nonempty "artifact uri" (art_uri m);
      _ ← validate_nonempty "artifact media_type" (art_media_type m);
      _ ← validate_hash "artifact content_hash" (art_content_hash m);
      _ ← opt_validate (validate_hash "artifact blob_ref") (art_blob_ref m);
      validate_interval (art_valid m)
  end.

Inductive DurabilityV2 := DurablePublishedOnly.
Record TransactionV2 := {
  tx_contract_version : string;
  tx_transaction_id : Uuid;
  tx_namespace : string;
  tx_expected_frontier : option string;
  tx_mutations : list MutationV2;
  tx_actor_context : btree json;
  tx_durability : option DurabilityV2;
}.

Definition transaction_validate (t : TransactionV2) : contract unit :=
  if negb (bool_decide (tx_contract_version t = TRANSACTION_CONTRACT_V2))
  then ce_invalid ("unsupported transaction contract `" +:+ tx_contract_version t +:+ "`")
  else
    _ ← validate_namespace (tx_namespace t);
    if (zlen (tx_mutations t) =? 0) || (10000 <? zlen (tx_mutations t))
    then ce_invalid "transaction mutation count is outside 1..=10000"
    else
      _ ← opt_validate (validate_decimal "expected_frontier") (tx_expected_frontier t);
      try_for (fun _ m => mutation_validate m) tt (tx_mutations t).

(** ** Receipts *)

Inductive ReceiptStateV2 := DurablePublished | DurableRecoveryRequired | Rejected | Unknown.
Record CommitReceiptV2 := {
  cr_transaction_id : Uuid;
  cr_namespace : string;
  cr_database_id : Uuid;
  cr_state : ReceiptStateV2;
  cr_durable_frontier : option string;
  cr_published_frontier : option string;
  cr_index_frontiers : btree string;
}.

Definition receipt_validate (r : CommitReceiptV2) : contract unit :=
  _ ← validate_namespace (cr_namespace r);
  _ ← try_for (fun _ '(kind, frontier) => opt_validate (validate_decimal kind) frontier) tt
        [("durable_frontier", cr_durable_frontier r);
         ("published_frontier", cr_published_frontier r)]%string;
  try_for (fun _ kv => validate_decimal "index_frontier" kv.2) tt (cr_index_frontiers r).

(** ** Lemmas *)

Lemma ce_invalid_Ok {A} m (a : A) : ce_invalid m = Ok a <-> False.
Proof. by split. Qed.

Lemma validate_identifier_Ok kind s u : validate_identifier kind s = Ok u <-> is_identifier s = true.
Proof. unfold validate_identifier. destruct u, (is_identifier s); naive_solver. Qed.
Lemma validate_namespace_Ok s u : validate_namespace s = Ok u <-> is_namespace s = true.
Proof. unfold validate_namespace. destruct u, (is_namespace s); naive_solver. Qed.
Lemma validate_decimal_Ok kind s u : validate_decimal kind s = Ok u <-> is_decimal s = true.
Proof. unfold validate_decimal. destruct u, (is_decimal s); naive_solver. Qed.
Lemma validate_nonempty_Ok kind s u : validate_nonempty kind s = Ok u <-> s <> EmptyString.
Proof. unfold validate_nonempty. destruct u. case_bool_decide; naive_solver. Qed.

Lemma try_for_unit {X A} (f : A -> result X unit) l :
  try_for (fun _ a => f a) tt l = Ok tt <-> forall a, a ∈ l -> f a = Ok tt.
Proof.
  induction l as [|a l IH].
  - split; [intros _ a Ha; inversion Ha|done].
  - rewrite try_for_cons. destruct (f a) as [[]|e] eqn:E; cbn [mbind result_bind].
    + rewrite IH. split; [intros H b [->|Hb]%elem_of_cons; auto|intros H b Hb; apply H; by right].
    + split; [done|]. intros H. rewrite <- E. apply H. by left.
Qed.

Lemma canonical_cons b l : canonical (b :: l) <->
  byte_is_digit b = true /\ forallb byte_is_digit l = true /\ (byte_val b = 48 -> l = []).
Proof.
  unfold canonical. cbn [forallb head]. rewrite andb_true_iff. split.
  - intros (_ & [Hb Hl] & Hz). split_and!; [done..|]. intros E.
    destruct l; [done|]. specialize (Hz ltac:(f_equal; apply byte_val_inj; rewrite E; done)). done.
  - intros (Hb & Hl & Hz). split_and!; [done..|]. intros [= ->]. by rewrite (Hz eq_refl).
Qed.

Lemma is_decimal_canonical s : is_decimal s = true <-> canonical (str_bytes s).
Proof.
  unfold is_decimal. rewrite orb_true_iff, bool_decide_eq_true.
  destruct (str_bytes s) as [|b l] eqn:E.
  - split; [intros [->|]; done|by intros [? _]].
  - rewrite canonical_cons, !andb_true_iff, negb_true_iff, Z.eqb_neq. split.
    + intros [->|((Hb & Hn) & Hl)]; [|tauto]. cbn in E. injection E as <- <-. done.
    + intros (Hb & Hl & Hz). destruct (Z.eq_dec (byte_val b) 48) as [Eb|]; [left|tauto].
      apply str_bytes_inj. rewrite E, (Hz Eb).
      change (str_bytes "0") with [byte_of 48]. f_equal. apply byte_val_inj. by rewrite Eb.
Qed.

(** The frontier texts that pass are exactly the printed unsigned integers. *)
Theorem is_decimal_iff s : is_decimal s = true <-> exists n, 0 <= n /\ s = to_string n.
Proof.
  rewrite is_decimal_canonical. split.
  - intros Hc. exists (digits_val (str_bytes s)).
    pose proof (digits_val_nonneg _ (proj1 (proj2 Hc))). split; [done|].
    unfold to_string. destruct (Z.ltb_spec (digits_val (str_bytes s)) 0); [lia|].
    by rewrite dec_bytes_val, str_of_bytes_of.
  - intros (n & Hn & ->). unfold to_string. destruct (Z.ltb_spec n 0); [lia|].
    rewrite str_bytes_of. by apply dec_bytes_canonical.
Qed.

Lemma validate_labels_from_Ok seen labels : validate_labels_from seen labels = Ok tt <->
  NoDup labels /\ forall l, l ∈ labels -> l <> EmptyString /\ l ∉ seen.
Proof.
  revert seen; induction labels as [|l ls IH]; intros seen; cbn [validate_labels_from].
  { split; [intros _; split; [constructor|intros l Hl; inversion Hl]|done]. }
  rewrite NoDup_cons. destruct (validate_nonempty "label" l) as [u|] eqn:E; cbn [mbind result_bind].
  - apply validate_nonempty_Ok in E. case_bool_decide as Hs.
    + rewrite ce_invalid_Ok. split; [done|]. intros [_ H]. by destruct (H l ltac:(left)).
    + rewrite IH. split.
      * intros [Hnd H]. split_and!; [|done|].
        -- intros Hl. destruct (H l Hl) as [_ Hc]. apply Hc. by left.
        -- intros k [->|Hk]%elem_of_cons; [done|]. destruct (H k Hk) as [? Hc].
           split; [done|]. intros Hks. apply Hc. by right.
      * intros [[Hl Hnd] H]. split; [done|]. intros k Hk.
        destruct (H k ltac:(by right)) as [? Hks]. split; [done|].
        intros [->|?]%elem_of_cons; done.
  - split; [done|]. intros [_ H]. destruct (H l ltac:(left)) as [Hne _].
    by rewrite (proj2 (validate_nonempty_Ok "label" l tt) Hne) in E.
Qed.

Lemma ir_node_ids_Ok nodes seen ids : ir_node_ids seen nodes = Ok ids <->
  ids = seen ++ (qn_id <$> nodes) /\ Forall (fun n => is_identifier (qn_id n) = true) nodes /\
  NoDup (qn_id <$> nodes) /\ forall n, n ∈ nodes -> qn_id n ∉ seen.
Proof.
  revert seen; induction nodes as [|n ns IH]; intros seen; cbn [ir_node_ids].
  { rewrite app_nil_r. split.
    - intros [= ->]. split_and!; [done|constructor|constructor|intros n Hn; inversion Hn].
    - by intros [-> _]. }
  rewrite fmap_cons, NoDup_cons, Forall_cons.
  destruct (validate_identifier "query node" (qn_id n)) as [u|] eqn:E; cbn [mbind result_bind].
  - apply validate_identifier_Ok in E. case_bool_decide as Hs.
    + rewrite ce_invalid_Ok. split; [done|]. intros (_ & _ & _ & H). by destruct (H n ltac:(left)).
    + rewrite IH, <- app_assoc. cbn [app]. split.
      * intros (-> & HF & Hnd & H). split_and!; [done..| |done|].
        -- intros (k & Hk & Hin)%list_elem_of_fmap. specialize (H k Hin). rewrite <- Hk in H.
           apply H. apply elem_of_app. right. by left.
        -- intros k [->|Hk]%elem_of_cons; [done|]. specialize (H k Hk).
           intros Hks. apply H. apply elem_of_app. by left.
      * intros (-> & [_ HF] & [Hn Hnd] & H). split_and!; [done..|]. intros k Hk.
        rewrite elem_of_app, list_elem_of_singleton. intros [Hks|Heq].
        -- apply (H k); [by right|done].
        -- apply Hn. rewrite <- Heq. by apply list_elem_of_fmap_2.
  - split; [done|]. intros (_ & [Hi _] & _).
    by rewrite (proj2 (validate_identifier_Ok "query node" (qn_id n) tt) Hi) in E.
Qed.

(** ** The operator graph *)

(** The inputs of the node called [id]. *)
Definition inputs_of (nodes : list QueryNodeV2) (id : string) : list string :=
  match List.find (fun n => bool_decide (qn_id n = id)) nodes with
  | Some n => qn_inputs n
  | None => []
  end.

(** What the second pass accumulates: how many inputs, and which users. *)
Definition degree (nodes : list QueryNodeV2) (id : string) : nat :=
  foldr (fun n k => (if bool_decide (qn_id n = id) then length (qn_inputs n) else 0) + k)%nat 0%nat nodes.
Definition users (nodes : list QueryNodeV2) (x : string) : list string :=
  concat ((fun n => replicate (occ x (qn_inputs n)) (qn_id n)) <$> nodes).

Lemma ir_edge_eq node_ids node s input : ir_edge node_ids node s input =
  if bool_decide (input ∈ node_ids)
  then Ok (alter S (qn_id node) s.1,
           <[input := default [] (s.2 !! input) ++ [qn_id node]]> s.2)
  else ce_invalid ("query node `" +:+ qn_id node +:+ "` references unknown input `" +:+ input +:+ "`").
Proof. unfold ir_edge. by case_bool_decide. Qed.

Lemma ir_edge_inputs node_ids node inputs s s' :
  try_for (ir_edge node_ids node) s inputs = Ok s' ->
  (forall i, i ∈ inputs -> i ∈ node_ids) /\
  (forall id, s'.1 !! id = (fun k => if bool_decide (qn_id node = id)
                                     then (length inputs + k)%nat else k) <$> s.1 !! id) /\
  (forall x, default [] (s'.2 !! x) = default [] (s.2 !! x) ++ replicate (occ x inputs) (qn_id node)).
Proof.
  revert s; induction inputs as [|i inputs IH]; intros [m o].
  { cbn [try_for]. intros [= <-]. split_and!; [intros i Hi; inversion Hi| |].
    - intros id. destruct (m !! id) as [k|] eqn:Ek; cbn [fst]; rewrite Ek; [|done]. cbn.
      by case_bool_decide.
    - intros x. cbn. by rewrite app_nil_r. }
  rewrite try_for_cons, ir_edge_eq. cbn [fst snd].
  case_bool_decide as Hi; cbn [mbind result_bind]; [|done].
  intros (Hin & Hm & Ho)%IH. cbn [fst snd] in *. split_and!.
  - intros j [->|Hj]%elem_of_cons; auto.
  - intros id. rewrite Hm. case_bool_decide as Hid.
    + subst. rewrite lookup_alter_eq, <- option_fmap_compose. apply option_fmap_ext. intros k.
      cbn [compose length]. lia.
    + by rewrite lookup_alter_ne.
  - intros x. rewrite Ho, occ_cons. destruct (decide (i = x)) as [->|Hne].
    + rewrite lookup_insert_eq. cbn. by rewrite <- app_assoc.
    + by rewrite lookup_insert_ne.
Qed.

Lemma ir_edges_Ok node_ids nodes s s' : ir_edges node_ids nodes s = Ok s' ->
  (forall n i, n ∈ nodes -> i ∈ qn_inputs n -> i ∈ node_ids) /\
  (forall id, s'.1 !! id = (fun k => degree nodes id + k)%nat <$> s.1 !! id) /\
  (forall x, default [] (s'.2 !! x) = default [] (s.2 !! x) ++ users nodes x).
Proof.
  unfold ir_edges. revert s; induction nodes as [|n ns IH]; intros s.
  { intros [= <-]. split_and!; [intros n i Hn; inversion Hn| |].
    - intros id. cbn. by rewrite option_fmap_id.
    - intros x. cbn. by rewrite app_nil_r. }
  rewrite try_for_cons. intros (s1 & H1 & H)%bind_Ok.
  apply ir_edge_inputs in H1 as (Hi1 & Hm1 & Ho1). apply IH in H as (Hi & Hm & Ho). split_and!.
  - intros k i [->|Hk]%elem_of_cons; [apply Hi1|by apply Hi].
  - intros id. rewrite Hm, Hm1, <- option_fmap_compose. apply option_fmap_ext. intros k.
    cbn [compose degree foldr]. fold (degree ns id). case_bool_decide; lia.
  - intros x. rewrite Ho, Ho1, <- app_assoc. done.
Qed.

Lemma ir_edges_total node_ids nodes s :
  (forall n i, n ∈ nodes -> i ∈ qn_inputs n -> i ∈ node_ids) ->
  exists s', ir_edges node_ids nodes s = Ok s'.
Proof.
  unfold ir_edges. revert s; induction nodes as [|n ns IH]; intros s H; [by exists s|].
  assert (exists s1, try_for (ir_edge node_ids n) s (qn_inputs n) = Ok s1) as [s1 H1].
  { specialize (H n). assert (forall i, i ∈ qn_inputs n -> i ∈ node_ids) as Hn
      by (intros i; apply H; by left). clear -Hn. revert s.
    induction (qn_inputs n) as [|i l IHl]; intros s; [by exists s|].
    rewrite try_for_cons, ir_edge_eq.
    rewrite bool_decide_eq_true_2 by (apply Hn; by left). cbn [mbind result_bind].
    apply IHl. intros j Hj. apply Hn. by right. }
  rewrite try_for_cons, H1. cbn [mbind result_bind]. apply IH.
  intros k i Hk. apply H. by right.
Qed.

Lemma inputs_of_elem nodes n : NoDup (qn_id <$> nodes) -> n ∈ nodes ->
  inputs_of nodes (qn_id n) = qn_inputs n.
Proof.
  unfold inputs_of. induction nodes as [|k ks IH]; [intros _ H; inversion H|].
  rewrite fmap_cons, NoDup_cons. intros [Hk Hnd] Hn. cbn [List.find].
  apply elem_of_cons in Hn as [->|Hn].
  - by rewrite bool_decide_eq_true_2.
  - rewrite bool_decide_eq_false_2; [by apply IH|]. intros Heq. apply Hk. rewrite Heq.
    by apply list_elem_of_fmap_2.
Qed.

Lemma degree_inputs nodes id : NoDup (qn_id <$> nodes) ->
  degree nodes id = length (inputs_of nodes id).
Proof.
  unfold inputs_of. induction nodes as [|k ks IH]; [done|].
  rewrite fmap_cons, NoDup_cons. intros [Hk Hnd].
  cbn [degree foldr List.find]. fold (degree ks id). rewrite IH by done.
  case_bool_decide as E; [|done]. destruct (List.find _ ks) as [m|] eqn:Ef; [|cbn; lia].
  apply List.find_some in Ef as [Hm Hid]. apply bool_decide_eq_true in Hid.
  destruct Hk. rewrite E, <- Hid. apply list_elem_of_fmap_2. by apply list_elem_of_In.
Qed.

Lemma occ_app {A} `{EqDecision A} (a : A) l k : (occ a (l ++ k) = occ a l + occ a k)%nat.
Proof. unfold occ. by rewrite filter_app, length_app. Qed.
Lemma occ_replicate {A} `{EqDecision A} (a b : A) n :
  occ a (replicate n b) = if decide (b = a) then n else 0%nat.
Proof.
  induction n as [|n IH]; cbn [replicate].
  - by destruct (decide (b = a)).
  - rewrite occ_cons, IH. by destruct (decide (b = a)).
Qed.

Lemma users_occ nodes x c : NoDup (qn_id <$> nodes) ->
  occ c (users nodes x) = if decide (c ∈ qn_id <$> nodes) then occ x (inputs_of nodes c) else 0%nat.
Proof.
  unfold users, inputs_of. induction nodes as [|k ks IH]; [done|].
  rewrite !fmap_cons, NoDup_cons. intros [Hk Hnd]. cbn [concat List.find].
  rewrite occ_app, occ_replicate, IH by done.
  destruct (decide (qn_id k = c)) as [E|E].
  - rewrite bool_decide_eq_true_2, decide_False by (congruence || done).
    rewrite decide_True by (rewrite E; left). lia.
  - rewrite bool_decide_eq_false_2 by done. cbn [Nat.add].
    destruct (decide (c ∈ qn_id <$> ks)) as [Hc|Hc].
    + rewrite decide_True; [done|]. by right.
    + rewrite decide_False; [done|]. intros [->|?]%elem_of_cons; done.
Qed.

(** What a query IR must be: named operators, a root among them, inputs that exist,
    and no cycle, stated by a rank that every edge increases. *)
Record query_ir_ok (ir : QueryIrV2) : Prop := {
  qo_version : ir_contract_version ir = QUERY_IR_CONTRACT_V2;
  qo_count : 1 <= zlen (ir_nodes ir) <= 10000;
  qo_root_name : is_identifier (ir_root ir) = true;
  qo_names : Forall (fun n => is_identifier (qn_id n) = true) (ir_nodes ir);
  qo_distinct : NoDup (qn_id <$> ir_nodes ir);
  qo_root : ir_root ir ∈ qn_id <$> ir_nodes ir;
  qo_params : Forall (fun kv => is_identifier kv.1 = true /\ kv.2 <> EmptyString)
                (ir_parameter_types ir);
  qo_inputs n i : n ∈ ir_nodes ir -> i ∈ qn_inputs n -> i ∈ qn_id <$> ir_nodes ir;
  qo_acyclic : exists rank : string -> nat, forall n i,
    n ∈ ir_nodes ir -> i ∈ qn_inputs n -> (rank i < rank (qn_id n))%nat;
}.

Lemma acyclic_inputs_of nodes : NoDup (qn_id <$> nodes) ->
  acyclic (qn_id <$> nodes) (inputs_of nodes) <->
  exists rank : string -> nat, forall n i,
    n ∈ nodes -> i ∈ qn_inputs n -> (rank i < rank (qn_id n))%nat.
Proof.
  intros Hnd. split; intros [rank Hr]; exists rank.
  - intros n i Hn Hi. apply Hr; [by apply list_elem_of_fmap_2|]. by rewrite inputs_of_elem.
  - intros a b (n & -> & Hn)%list_elem_of_fmap. rewrite inputs_of_elem by done. by apply Hr.
Qed.

(** The in-degree map and the ready list the sort starts from. *)
Lemma ir_sort_decides nodes ind out : NoDup (qn_id <$> nodes) ->
  ir_edges (qn_id <$> nodes) nodes
    (list_to_map ((fun node => (qn_id node, 0%nat)) <$> nodes), ∅) = Ok (ind, out) ->
  length (kahn_loop (fun id => default [] (out !! id)) (S (length nodes)) ind
            (filter (fun kv => kv.2 = 0%nat) (map_to_list ind)).*1 []) = length nodes <->
  acyclic (qn_id <$> nodes) (inputs_of nodes).
Proof.
  intros Hnd He. apply ir_edges_Ok in He as (Hin & Hm & Ho). cbn [fst snd] in *.
  assert (forall id, ind !! id = if decide (id ∈ qn_id <$> nodes)
                                 then Some (length (inputs_of nodes id)) else None) as Hind.
  { intros id. rewrite Hm, degree_inputs by done. case_decide as Hid.
    - apply list_elem_of_fmap in Hid as (n & -> & Hn).
      rewrite (elem_of_list_to_map_1 _ (qn_id n) 0%nat).
      + cbn. by rewrite Nat.add_0_r.
      + rewrite <- list_fmap_compose. exact Hnd.
      + apply list_elem_of_fmap. by exists n.
    - rewrite not_elem_of_list_to_map_1; [done|]. by rewrite <- list_fmap_compose. }
  assert (forall x c, occ c (default [] (out !! x)) =
    if decide (c ∈ qn_id <$> nodes) then occ x (inputs_of nodes c) else 0%nat) as Hocc.
  { intros x c. rewrite Ho, lookup_empty. cbn. by apply users_occ. }
  assert (forall a b, a ∈ qn_id <$> nodes -> b ∈ inputs_of nodes a -> b ∈ qn_id <$> nodes) as Hcl.
  { intros a b (n & -> & Hn)%list_elem_of_fmap. rewrite inputs_of_elem by done. by apply Hin. }
  set (ready := (filter _ _).*1). rewrite <- (length_fmap qn_id nodes).
  assert (kahn_inv (qn_id <$> nodes) (inputs_of nodes) [] ind ready) as I0.
  { apply kahn_init; cbn.
    - unfold ready. eapply sublist_NoDup; [apply (NoDup_fst_map_to_list ind)|].
      apply fmap_sublist, sublist_filter.
    - intros a. unfold ready. rewrite list_elem_of_fmap. split.
      + intros ([k d] & -> & [Hd Hk]%list_elem_of_filter). cbn in *. subst.
        apply elem_of_map_to_list in Hk. rewrite Hind in Hk. case_decide; [|done].
        split; [done|congruence].
      + intros [Ha Hl]. exists (a, 0%nat). split; [done|]. apply list_elem_of_filter.
        split; [done|]. apply elem_of_map_to_list. rewrite Hind, decide_True by done. congruence.
    - intros a Ha. by rewrite Hind, decide_True. }
  destruct (kahn_loop_spec (qn_id <$> nodes) (inputs_of nodes)
    (fun id => default [] (out !! id)) Hocc (S (length (qn_id <$> nodes))) ind ready [] I0)
    as (m' & w' & I & Hw); [cbn [length]; lia|].
  exact (proj1 (kahn_final (qn_id <$> nodes) (inputs_of nodes) Hnd Hcl _ m' w' I Hw)).
Qed.

Lemma params_Ok (ps : list (string * string)) :
  (try_for (fun _ kv => validate_identifier "parameter" kv.1) tt ps = Ok tt /\
   existsb (fun kv => bool_decide (kv.2 = EmptyString)) ps = false) <->
  Forall (fun kv => is_identifier kv.1 = true /\ kv.2 <> EmptyString) ps.
Proof.
  rewrite try_for_unit, Forall_forall. split.
  - intros [Hi He] kv Hkv. split; [by apply (validate_identifier_Ok "parameter" _ tt), Hi|].
    intros E. assert (existsb (fun kv => bool_decide (kv.2 = EmptyString)) ps = true); [|congruence].
    apply existsb_exists. exists kv. split; [by apply list_elem_of_In|by rewrite E].
  - intros H. split.
    + intros kv Hkv. apply validate_identifier_Ok. by apply H.
    + apply not_true_iff_false. intros (kv & Hkv & He)%existsb_exists.
      apply bool_decide_eq_true in He. apply list_elem_of_In in Hkv. by destruct (H kv Hkv).
Qed.

(** The checks after the node pass. *)
Lemma query_ir_tail_Ok ir : NoDup (qn_id <$> ir_nodes ir) ->
  ('(indegree, outgoing) ← ir_edges (qn_id <$> ir_nodes ir) (ir_nodes ir)
      (list_to_map ((fun node => (qn_id node, 0%nat)) <$> ir_nodes ir), ∅);
   if negb (length (kahn_loop (fun id => default [] (outgoing !! id)) (S (length (ir_nodes ir)))
        indegree (filter (fun kv => kv.2 = 0%nat) (map_to_list indegree)).*1 [])
      =? length (ir_nodes ir))%nat
   then ce_invalid "query IR contains a cycle" else Ok tt) = Ok tt <->
  (forall n i, n ∈ ir_nodes ir -> i ∈ qn_inputs n -> i ∈ qn_id <$> ir_nodes ir) /\
  (exists rank : string -> nat, forall n i,
     n ∈ ir_nodes ir -> i ∈ qn_inputs n -> (rank i < rank (qn_id n))%nat).
Proof.
  intros Hnd. rewrite <- acyclic_inputs_of by done. split.
  - intros ([ind out] & He & H)%bind_Ok. pose proof (ir_edges_Ok _ _ _ _ He) as (Hi & _).
    split; [exact Hi|]. apply (ir_sort_decides _ ind out Hnd He).
    destruct (Nat.eqb_spec (length (kahn_loop (fun id => default [] (out !! id))
      (S (length (ir_nodes ir))) ind (filter (fun kv => kv.2 = 0%nat) (map_to_list ind)).*1 []))
      (length (ir_nodes ir))); [done|by cbn in H].
  - intros [Hi Hac]. destruct (ir_edges_total (qn_id <$> ir_nodes ir) (ir_nodes ir)
      (list_to_map ((fun node => (qn_id node, 0%nat)) <$> ir_nodes ir), ∅) Hi) as [[ind out] He].
    rewrite He. cbn [mbind result_bind]. apply (ir_sort_decides _ ind out Hnd He) in Hac.
    rewrite Hac, Nat.eqb_refl. done.
Qed.

Lemma query_ir_accepts ir : query_ir_validate ir = Ok tt <-> query_ir_ok ir.
Proof.
  unfold query_ir_validate.
  case_bool_decide as Hv; cbn [negb]; [|rewrite ce_invalid_Ok; split; [done|by intros []]].
  assert (bool_decide (ir_nodes ir = []) || (10000 <? zlen (ir_nodes ir)) = false <->
    1 <= zlen (ir_nodes ir) <= 10000) as Hcount.
  { rewrite orb_false_iff, bool_decide_eq_false, Z.ltb_ge. destruct (ir_nodes ir) as [|n l].
    - split; [by intros [? _]|]. unfold zlen. cbn. lia.
    - rewrite zlen_cons. pose proof (zlen_nonneg l).
      split; [intros [_ ?]; lia|intros ?; split; [done|lia]]. }
  destruct (_ || _) eqn:Hc.
  { rewrite ce_invalid_Ok. split; [done|]. intros []. apply Hcount in qo_count0. done. }
  pose proof (proj1 Hcount eq_refl) as Hn. clear Hc Hcount. split.
  - intros ([] & Hroot%validate_identifier_Ok & H)%bind_Ok.
    apply bind_Ok in H as (ids & Hids & H).
    apply ir_node_ids_Ok in Hids as (-> & Hnames & Hnd & _). cbn [app] in H.
    case_bool_decide as Hr; cbn [negb] in H; [|done].
    apply bind_Ok in H as ([] & Hp & H). destruct (existsb _ _) eqn:He; [done|].
    pose proof (proj1 (params_Ok _) (conj Hp He)) as Hparams.
    apply query_ir_tail_Ok in H as [Hi Hac]; [|done]. by split.
  - intros []. apply (proj2 (validate_identifier_Ok "root" (ir_root ir) tt)) in qo_root_name0.
    rewrite qo_root_name0. cbn [mbind result_bind].
    assert (ir_node_ids [] (ir_nodes ir) = Ok (qn_id <$> ir_nodes ir)) as ->.
    { apply ir_node_ids_Ok. split_and!; [done..|]. intros n _ H. inversion H. }
    cbn [mbind result_bind]. rewrite bool_decide_eq_true_2 by done. cbn [negb].
    apply params_Ok in qo_params0 as [-> ->]. cbn [mbind result_bind].
    by apply query_ir_tail_Ok.
Qed.

(** The validator of a query IR accepts exactly the well-formed acyclic operator
    graphs; in particular its loop visits every operator unless there is a cycle. *)
Theorem query_ir_validate_Ok ir : query_ir_validate ir = Ok tt <-> query_ir_ok ir.
Proof. apply query_ir_accepts. Qed.

(** Every transaction of record revisions that passes names each revision once, and
    a revision never succeeds itself; a retraction has a predecessor. *)
Lemma revision_mutations_Ok `{UuidCrate} seen ms :
  revision_mutations_validate seen ms = Ok tt <->
  (forall m, m ∈ ms -> revision_mutation_validate m = Ok tt) /\
  NoDup (rm_revision_id <$> ms) /\ (forall m, m ∈ ms -> rm_revision_id m ∉ seen).
Proof.
  revert seen; induction ms as [|m ms IH]; intros seen; cbn [revision_mutations_validate].
  { split; [intros _; split_and!; [intros m Hm; inversion Hm|constructor|intros m Hm; inversion Hm]|done]. }
  rewrite fmap_cons, NoDup_cons.
  destruct (revision_mutation_validate m) as [[]|e] eqn:E; cbn [mbind result_bind].
  - case_bool_decide as Hs.
    + rewrite ce_invalid_Ok. split; [done|]. intros (_ & _ & Hn). by destruct (Hn m ltac:(left)).
    + rewrite IH. split.
      * intros (Hv & Hnd & Hn). split_and!; [|  |done|].
        -- intros k [->|Hk]%elem_of_cons; auto.
        -- intros (k & Hk & Hin)%list_elem_of_fmap. apply (Hn k Hin). rewrite <- Hk. left.
        -- intros k [->|Hk]%elem_of_cons; [done|]. intros Hks. apply (Hn k Hk). by right.
      * intros (Hv & [Hm Hnd] & Hn). split_and!; [|done|].
        -- intros k Hk. apply Hv. by right.
        -- intros k Hk [Heq|Hks]%elem_of_cons; [|by apply (Hn k ltac:(by right))].
           apply Hm. rewrite <- Heq. by apply list_elem_of_fmap_2.
  - split; [done|]. intros (Hv & _). by rewrite (Hv m ltac:(left)) in E.
Qed.

Definition interval_ok (valid : option ValidityV2) : Prop :=
  forall v t, valid = Some v -> va_to v = Some t -> va_from v <= t.
Lemma validate_interval_Ok valid : validate_interval valid = Ok tt <-> interval_ok valid.
Proof.
  unfold validate_interval, interval_ok. destruct valid as [v|]; [|naive_solver].
  destruct (va_to v) as [t|] eqn:E; [|naive_solver].
  destruct (Z.ltb_spec t (va_from v)).
  - rewrite ce_invalid_Ok. split; [done|]. intros H'. specialize (H' v t eq_refl E). lia.
  - split; [|done]. intros _ v' t' [= <-]. rewrite E. intros [= <-]. done.
Qed.

Definition hash_ok (s : string) : Prop :=
  zlen (str_bytes s) = 64 /\ forallb is_lower_hex (str_bytes s) = true.
Lemma validate_hash_Ok kind s : validate_hash kind s = Ok tt <-> hash_ok s.
Proof.
  unfold validate_hash, hash_ok, zlen. rewrite length_str_bytes, <- Z.eqb_eq, <- andb_true_iff.
  by destruct (_ && _).
Qed.

Lemma opt_validate_Ok {A} (f : A -> contract unit) o :
  opt_validate f o = Ok tt <-> forall a, o = Some a -> f a = Ok tt.
Proof. destruct o; cbn; naive_solver. Qed.

Lemma guard_Ok {A} (b : bool) m (r : contract A) a :
  (if b then ce_invalid m else r) = Ok a <-> b = false /\ r = Ok a.
Proof. destruct b; rewrite ?ce_invalid_Ok; naive_solver. Qed.
Lemma bind_unit_Ok {A} (r : contract unit) (k : contract A) a :
  (_ ← r; k) = Ok a <-> r = Ok tt /\ k = Ok a.
Proof. destruct r as [[]|]; cbn; naive_solver. Qed.

Section RevisionSpec.
Context `{UuidCrate}.

Definition uuid_v4_ok (s : string) : Prop :=
  exists u, uuid_parse_str s = Some u /\ uuid_version_num u = 4 /\
    uuid_is_rfc4122 u = true /\ uuid_hyphenated u = s.
Lemma validate_uuid_v4_Ok kind s : validate_uuid_v4 kind s = Ok tt <-> uuid_v4_ok s.
Proof.
  unfold validate_uuid_v4, uuid_v4_ok. destruct (uuid_parse_str s) as [u|].
  2: { rewrite ce_invalid_Ok. split; [done|]. by intros (u & ? & _). }
  rewrite <- !negb_andb.
  destruct ((uuid_version_num u =? 4) && uuid_is_rfc4122 u && bool_decide (uuid_hyphenated u = s))
    eqn:E; cbn [negb]; rewrite ?ce_invalid_Ok.
  - split; [|done]. intros _. rewrite !andb_true_iff, Z.eqb_eq, bool_decide_eq_true in E.
    exists u. tauto.
  - split; [done|]. intros (u' & [= <-] & Hv & Hr & Hh). rewrite Hr, Hv, bool_decide_eq_true_2 in E by done.
    done.
Qed.

(** What one revision must satisfy. *)
Record revision_ok (m : RecordRevisionMutationV1) : Prop := {
  vo_namespace : is_namespace (rm_namespace m) = true;
  vo_id : rm_id m <> EmptyString;
  vo_revision : uuid_v4_ok (rm_revision_id m);
  vo_expected e : rm_expected_revision_id m = Some e -> uuid_v4_ok e /\ e <> rm_revision_id m;
  vo_predecessor : rm_predecessor_revision_id m = rm_expected_revision_id m;
  vo_retract : rm_operation m = Retract -> rm_expected_revision_id m <> None;
  vo_valid t : rm_valid_to m = Some t -> rm_valid_from m < t;
  vo_schema : rm_schema_ref m <> Some EmptyString /\ rm_schema_version m <> Some 0;
  vo_row : rm_kind m = Row -> uuid_v4_ok (rm_id m) /\ rm_schema_ref m <> None /\
    rm_schema_version m <> None /\ rm_key_codec_version m = Some 1 /\
    exists key, rm_key_bytes m = Some key /\ 1 <= zlen key <= 16 * 1024;
  vo_vector : rm_kind m = Vector -> rm_schema_ref m <> None /\ rm_schema_version m = Some 1;
  vo_other : rm_kind m <> Row -> rm_kind m <> Vector ->
    rm_key_codec_version m = None /\ rm_key_bytes m = None;
}.

Lemma is_Some_b_true {A} (o : option A) : is_Some_b o = true <-> o <> None.
Proof. destruct o; cbn; naive_solver. Qed.

Lemma key_bytes_ok (o : option (list byte)) :
  match o with
  | Some bytes => negb (bool_decide (bytes = [])) && (zlen bytes <=? 16 * 1024)
  | None => false
  end = true <-> exists key, o = Some key /\ 1 <= zlen key <= 16 * 1024.
Proof.
  destruct o as [[|b l]|]; [cbn; split; [done|intros (k & [= <-] & Hk)]| |naive_solver].
  - unfold zlen in Hk. cbn in Hk. lia.
  - rewrite bool_decide_eq_false_2 by done. cbn [negb andb]. rewrite Z.leb_le, zlen_cons.
    pose proof (zlen_nonneg l). split.
    + intros Hl. exists (b :: l). rewrite zlen_cons. split; [done|lia].
    + intros (k & [= <-] & Hk). rewrite zlen_cons in Hk. lia.
Qed.

Lemma revision_kind_Ok m : revision_kind_validate m = Ok tt <->
  (rm_kind m = Row -> rm_schema_ref m <> None /\ rm_schema_version m <> None /\
    rm_key_codec_version m = Some 1 /\
    exists key, rm_key_bytes m = Some key /\ 1 <= zlen key <= 16 * 1024) /\
  (rm_kind m = Vector -> rm_schema_ref m <> None /\ rm_schema_version m = Some 1) /\
  (rm_kind m <> Row -> rm_kind m <> Vector ->
    rm_key_codec_version m = None /\ rm_key_bytes m = None).
Proof.
  unfold revision_kind_validate.
  assert (is_Some_b (rm_schema_ref m) && is_Some_b (rm_schema_version m)
    && bool_decide (rm_key_codec_version m = Some 1)
    && match rm_key_bytes m with
       | Some bytes => negb (bool_decide (bytes = [])) && (zlen bytes <=? 16 * 1024)
       | None => false
       end = true <-> rm_schema_ref m <> None /\ rm_schema_version m <> None /\
    rm_key_codec_version m = Some 1 /\
    exists key, rm_key_bytes m = Some key /\ 1 <= zlen key <= 16 * 1024) as HR
    by (rewrite !andb_true_iff, !is_Some_b_true, bool_decide_eq_true, key_bytes_ok; tauto).
  assert (is_Some_b (rm_schema_ref m) && bool_decide (rm_schema_version m = Some 1) = true <->
    rm_schema_ref m <> None /\ rm_schema_version m = Some 1) as HV
    by (rewrite !andb_true_iff, !is_Some_b_true, bool_decide_eq_true; tauto).
  assert (is_Some_b (rm_key_codec_version m) || is_Some_b (rm_key_bytes m) = false <->
    rm_key_codec_version m = None /\ rm_key_bytes m = None) as HO
    by (destruct (rm_key_codec_version m), (rm_key_bytes m); cbn; naive_solver).
  destruct (rm_kind m);
    match goal with |- (if ?b then _ else _) = _ <-> _ => destruct b end; rewrite ?ce_invalid_Ok.
  all: split; [intros; first [done|split_and!; intros; first [done|tauto|naive_solver]]
              |intros (H1 & H2 & H3); first [done|exfalso]].
  - specialize (H3 ltac:(done) ltac:(done)). by apply HO in H3.
  - specialize (H3 ltac:(done) ltac:(done)). by apply HO in H3.
  - specialize (H1 eq_refl). by apply HR in H1.
  - specialize (H2 eq_refl). by apply HV in H2.
  - specialize (H3 ltac:(done) ltac:(done)). by apply HO in H3.
  - specialize (H3 ltac:(done) ltac:(done)). by apply HO in H3.
Qed.

(** The mutation's validator as a conjunction of its checks. *)
Lemma revision_mutation_checks m : revision_mutation_validate m = Ok tt <->
  is_namespace (rm_namespace m) = true /\ rm_id m <> EmptyString /\
  uuid_v4_ok (rm_revision_id m) /\
  (forall e, rm_expected_revision_id m = Some e -> uuid_v4_ok e) /\
  (forall e, rm_predecessor_revision_id m = Some e -> uuid_v4_ok e) /\
  rm_expected_revision_id m = rm_predecessor_revision_id m /\
  rm_expected_revision_id m <> Some (rm_revision_id m) /\
  (rm_operation m = Retract -> rm_expected_revision_id m <> None) /\
  (forall t, rm_valid_to m = Some t -> rm_valid_from m < t) /\
  (rm_schema_ref m <> Some EmptyString /\ rm_schema_version m <> Some 0) /\
  (rm_kind m = Row -> uuid_v4_ok (rm_id m)) /\ revision_kind_validate m = Ok tt.
Proof.
  unfold revision_mutation_validate.
  rewrite !bind_unit_Ok, !guard_Ok, bind_unit_Ok, validate_namespace_Ok, validate_nonempty_Ok,
    validate_uuid_v4_Ok, !opt_validate_Ok.
  setoid_rewrite validate_uuid_v4_Ok.
  rewrite negb_false_iff, bool_decide_eq_true, bool_decide_eq_false, orb_false_iff,
    !bool_decide_eq_false.
  assert (bool_decide (rm_operation m = Retract) && negb (is_Some_b (rm_expected_revision_id m))
    = false <-> (rm_operation m = Retract -> rm_expected_revision_id m <> None)) as ->.
  { rewrite andb_false_iff, bool_decide_eq_false, negb_false_iff, is_Some_b_true.
    destruct (decide (rm_operation m = Retract)); tauto. }
  assert (match rm_valid_to m with Some t => t <=? rm_valid_from m | None => false end = false <->
    forall t, rm_valid_to m = Some t -> rm_valid_from m < t) as ->.
  { destruct (rm_valid_to m) as [t|]; [rewrite Z.leb_gt|]; naive_solver. }
  assert ((if bool_decide (rm_kind m = Row) then validate_uuid_v4 "row ID" (rm_id m) else Ok tt)
    = Ok tt <-> (rm_kind m = Row -> uuid_v4_ok (rm_id m))) as ->.
  { case_bool_decide; [rewrite validate_uuid_v4_Ok|]; tauto. }
  done.
Qed.

Lemma revision_mutation_validate_Ok m : revision_mutation_validate m = Ok tt <-> revision_ok m.
Proof.
  rewrite revision_mutation_checks, revision_kind_Ok. split.
  - intros (H1 & H2 & H3 & H4 & H5 & H6 & H7 & H8 & H9 & H10 & H11 & H12 & H13 & H14).
    split; try done.
    + intros e He. split; [by apply H4|congruence].
    + intros Hr. split; [by apply H11|by apply H12].
  - intros []. split_and!; try done; try tauto.
    + intros e He. by apply vo_expected0.
    + intros e He. apply vo_expected0. congruence.
    + intros He. by apply vo_expected0 in He as [_ ?].
Qed.

(** The revision transactions that pass are those of 1 to 10000 well-formed
    revisions with pairwise distinct revision identifiers. *)
Theorem revision_transaction_validate_Ok t : revision_transaction_validate t = Ok tt <->
  hash_ok (rt_origin_database_id t) /\ 1 <= zlen (rt_mutations t) <= 10000 /\
  Forall revision_ok (rt_mutations t) /\ NoDup (rm_revision_id <$> rt_mutations t).
Proof.
  unfold revision_transaction_validate. rewrite bind_Ok.
  assert (forall ms, revision_mutations_validate [] ms = Ok tt <->
    Forall revision_ok ms /\ NoDup (rm_revision_id <$> ms)) as Hms.
  { intros ms. rewrite revision_mutations_Ok, Forall_forall.
    setoid_rewrite revision_mutation_validate_Ok. split; [tauto|].
    intros [? ?]. split_and!; [done..|]. intros m _ Hm. inversion Hm. }
  set (ms := rt_mutations t).
  assert (bool_decide (ms = []) || (10000 <? zlen ms) = false <-> 1 <= zlen ms <= 10000) as Hc.
  { rewrite orb_false_iff, bool_decide_eq_false, Z.ltb_ge. destruct ms as [|m l].
    - split; [by intros [? _]|]. unfold zlen. cbn. lia.
    - rewrite zlen_cons. pose proof (zlen_nonneg l).
      split; [intros [_ ?]; lia|intros ?; split; [done|lia]]. }
  rewrite <- Hms, <- Hc, <- (validate_hash_Ok "origin database ID"). split.
  - intros ([] & Hh & R). by destruct (_ || _).
  - intros (Hh & -> & Hm). by exists tt.
Qed.
End RevisionSpec.

(** ** Requests and transactions *)

(** The two ways to say what to run. *)
Definition query_source_ok (q : QueryRequestV2) : Prop :=
  (exists hql version, qr_hql q = Some hql /\ qr_ir q = None /\
     qr_language_version q = Some version /\ hql <> EmptyString /\ zlen (chars hql) <= 262144)
  \/ (exists ir, qr_hql q = None /\ qr_ir q = Some ir /\ qr_language_version q = None /\
        query_ir_ok ir).

Lemma query_source_validate_Ok q : query_source_validate q = Ok tt <-> query_source_ok q.
Proof.
  unfold query_source_validate, query_source_ok.
  destruct (qr_hql q) as [hql|], (qr_ir q) as [ir|], (qr_language_version q) as [v|];
    rewrite ?ce_invalid_Ok, ?query_ir_accepts; try naive_solver.
  destruct (negb (bool_decide (hql = EmptyString)) && (zlen (chars hql) <=? 262144)) eqn:E.
  - apply andb_prop in E as [E1 E2]. apply negb_true_iff, bool_decide_eq_false in E1.
    apply Z.leb_le in E2. split; [|done]. intros _. left. by exists hql, v.
  - rewrite ce_invalid_Ok. split; [done|]. intros [(h & w & [= <-] & _ & _ & Hne & Hl)|]; [|naive_solver].
    rewrite bool_decide_eq_false_2 in E by done. cbn in E. by apply Z.leb_gt in E; lia.
Qed.

Lemma query_budget_validate_Ok b : query_budget_validate b = Ok tt <->
  Forall (fun v => v <> Some 0)
    [qb_max_memory_bytes b; qb_max_elapsed_ms b; qb_max_expanded_nodes b;
     qb_max_expanded_edges b; qb_max_vector_candidates b; qb_max_distance_evaluations b;
     qb_max_result_rows b; qb_max_result_bytes b].
Proof.
  unfold query_budget_validate. rewrite !Forall_cons, Forall_nil.
  repeat (rewrite try_for_cons; cbn beta iota; case_bool_decide; cbn [mbind result_bind ce_invalid];
          [split; [done|tauto]|]).
  cbn [try_for]. tauto.
Qed.

(** A request that passes names one contract, carries either HQL text with its
    version or a well-formed operator graph, and bounds nothing by zero. *)
Theorem query_request_validate_Ok q : query_request_validate q = Ok tt <->
  qr_contract_version q = API_CONTRACT_V2 /\
  (qr_request_id q <> EmptyString /\ zlen (chars (qr_request_id q)) <= 256) /\
  is_namespace (qr_namespace q) = true /\ query_source_ok q /\
  (forall t s, qr_temporal q = Some t -> qt_tx_as_of t = Some s -> is_decimal s = true) /\
  (forall s, qr_required_frontier q = Some s -> is_decimal s = true) /\
  (forall b, qr_budget q = Some b -> query_budget_validate b = Ok tt).
Proof.
  unfold query_request_validate.
  rewrite !guard_Ok, !bind_unit_Ok, validate_namespace_Ok, query_source_validate_Ok, !opt_validate_Ok.
  setoid_rewrite opt_validate_Ok. setoid_rewrite validate_decimal_Ok.
  rewrite negb_false_iff, bool_decide_eq_true, orb_false_iff, bool_decide_eq_false, Z.ltb_ge.
  naive_solver.
Qed.

(** The mutations of a transaction that passes: finite vectors of bounded dimension,
    distinct non-empty labels, keys that are not empty, intervals that end after they
    start. *)
Definition mutation_ok (mutation : MutationV2) : Prop :=
  match mutation with
  | NodePut m => np_id m <> EmptyString /\
      (NoDup (np_labels m) /\ EmptyString ∉ np_labels m) /\ interval_ok (np_valid m)
  | EdgePut m => ep_id m <> EmptyString /\ ep_source_id m <> EmptyString /\
      ep_target_id m <> EmptyString /\ ep_relation m <> EmptyString /\ interval_ok (ep_valid m)
  | RowPut m => is_identifier (rp_table m) = true /\ rp_key m <> [] /\ interval_ok (rp_valid m)
  | VectorPut m => vp_owner_id m <> EmptyString /\ is_identifier (vp_collection m) = true /\
      vp_space_id m <> EmptyString /\ 1 <= zlen (vp_values m) <= 65535 /\
      Forall (fun v => f64_is_finite v = true) (vp_values m) /\ interval_ok (vp_valid m)
  | AnnotationPut m => (exists o, ap_annotation m = JObject o) /\ interval_ok (ap_valid m)
  | RecordRetract m => ret_id m <> EmptyString /\ interval_ok (ret_valid m)
  | SchemaPut m => is_identifier (sp_name m) = true /\ sp_version m <> 0 /\ sp_schema m <> []
  | ArtifactPut m => art_id m <> EmptyString /\ art_uri m <> EmptyString /\
      art_media_type m <> EmptyString /\ hash_ok (art_content_hash m) /\
      (forall b, art_blob_ref m = Some b -> hash_ok b) /\ interval_ok (art_valid m)
  end.

Lemma existsb_negb {A} (p : A -> bool) l :
  existsb (fun a => negb (p a)) l = false <-> Forall (fun a => p a = true) l.
Proof.
  rewrite Forall_forall, <- not_true_iff_false, existsb_exists. split.
  - intros H a Ha. destruct (p a) eqn:E; [done|]. exfalso. apply H. exists a.
    rewrite E. split; [by apply list_elem_of_In|done].
  - intros H (a & Ha & E). rewrite H in E; [done|by apply list_elem_of_In].
Qed.

Lemma size_guard {A} (l : list A) n :
  bool_decide (l = []) || (n <? zlen l) = false <-> 1 <= zlen l <= n.
Proof.
  rewrite orb_false_iff, bool_decide_eq_false, Z.ltb_ge. destruct l as [|a l].
  - split; [by intros [? _]|]. unfold zlen. cbn. lia.
  - rewrite zlen_cons. pose proof (zlen_nonneg l).
    split; [intros [_ ?]; lia|intros ?; split; [done|lia]].
Qed.

Lemma mutation_validate_Ok m : mutation_validate m = Ok tt <-> mutation_ok m.
Proof.
  destruct m as [m|m|m|m|m|m|m|m]; cbn [mutation_validate mutation_ok];
    rewrite ?bind_unit_Ok, ?guard_Ok, ?validate_nonempty_Ok, ?validate_identifier_Ok,
      ?validate_hash_Ok, ?opt_validate_Ok, ?validate_interval_Ok, ?size_guard, ?existsb_negb,
      ?bool_decide_eq_false.
  - unfold validate_labels. rewrite validate_labels_from_Ok.
    assert ((forall l, l ∈ np_labels m -> l <> EmptyString /\ l ∉ []) <-> EmptyString ∉ np_labels m) as ->;
      [|done].
    split; [intros H E; by destruct (H _ E)|]. intros H l Hl. split; [by intros ->|intros E; inversion E].
  - done.
  - done.
  - tauto.
  - assert (negb (is_object (ap_annotation m)) = false <-> exists o, ap_annotation m = JObject o) as ->;
      [|done]. destruct (ap_annotation m); cbn; naive_solver.
  - done.
  - rewrite orb_false_iff, Z.eqb_neq, bool_decide_eq_false. naive_solver.
  - setoid_rewrite validate_hash_Ok. done.
Qed.

(** The transactions that pass carry the contract's version, a namespace, a decimal
    frontier if any, and 1 to 10000 mutations, each well formed for its kind. *)
Theorem transaction_validate_Ok t : transaction_validate t = Ok tt <->
  tx_contract_version t = TRANSACTION_CONTRACT_V2 /\ is_namespace (tx_namespace t) = true /\
  1 <= zlen (tx_mutations t) <= 10000 /\
  (forall s, tx_expected_frontier t = Some s -> is_decimal s = true) /\
  Forall mutation_ok (tx_mutations t).
Proof.
  unfold transaction_validate.
  rewrite !guard_Ok, !bind_unit_Ok, guard_Ok, bind_unit_Ok, validate_namespace_Ok, opt_validate_Ok,
    try_for_unit, Forall_forall.
  setoid_rewrite validate_decimal_Ok. setoid_rewrite mutation_validate_Ok.
  rewrite negb_false_iff, bool_decide_eq_true, orb_false_iff, Z.eqb_neq, Z.ltb_ge.
  pose proof (zlen_nonneg (tx_mutations t)).
  assert (zlen (tx_mutations t) <> 0 /\ zlen (tx_mutations t) <= 10000 <->
          1 <= zlen (tx_mutations t) <= 10000) as -> by lia. done.
Qed.

(** ** Examples *)

(** A uuid crate that reads any 36 characters as a version 4 identifier. *)
Definition sample_uuid : UuidCrate := {|
  uuid_parse_str s := if zlen (str_bytes s) =? 36 then Some (le_val (str_bytes s)) else None;
  uuid_version_num _ := 4;
  uuid_is_rfc4122 _ := true;
  uuid_hyphenated z := str_of_bytes (le_bytes 36 z);
|}.

Definition node (id : string) (op : QueryOpV2) (inputs : list string) : QueryNodeV2 :=
  {| qn_id := id; qn_op := op; qn_inputs := inputs; qn_config := [] |}.
Definition sample_ir (inputs_a : list string) : QueryIrV2 := {|
  ir_contract_version := "query-ir.v2";
  ir_nodes := [node "c" OpUnionAll ["a"; "a"]; node "a" OpFilter inputs_a; node "v" OpValues []]%string;
  ir_root := "c";
  ir_parameter_types := [("rows", "List<I64>")]%string;
|}.
Example sample_ir_valid : query_ir_validate (sample_ir ["v"%string]) = Ok tt.
Proof. vm_compute. reflexivity. Qed.
Example sample_ir_cycle :
  query_ir_validate (sample_ir ["c"%string]) = ce_invalid "query IR contains a cycle".
Proof. vm_compute. reflexivity. Qed.
