(* ===== verification/Value.v ===== *)
(** * Types and values of the query kernel

    [src/src/query/hql2/error.rs] and [value.rs]: errors, the type language with its
    text form, values, and the typed decoding of JSON literals and parameters. *)
From S2P Require Export Contract.
Local Open Scope Z_scope.

(** ** Errors *)

Record SourcePositionV2 := { sp_line : Z; sp_column : Z }.
Record QueryErrorV2 := {
  qe_code : string;
  qe_stage : string;
  qe_message : string;
  qe_retryable : bool;
  qe_span : option SourcePositionV2;
  (** [detail]: always [{"reason": reason}] *)
  qe_reason : string;
}.
Notation query := (result QueryErrorV2).

(** [QueryErrorV2::new] *)
Definition query_error (code stage reason : string) : QueryErrorV2 := {|
  qe_code := code;
  qe_stage := stage;
  qe_message := "Query could not be completed";
  qe_retryable := bool_decide (code = "SNAPSHOT_EXPIRED"%string)
                  || bool_decide (code = "INDEX_COVERAGE_TIMEOUT"%string);
  qe_span := None;
  qe_reason := reason;
|}.

(** The loop of [QueryErrorV2::parse] over [char_indices]: [offset] is the byte
    offset of the character; a line ends at [\n], [\r] or [\r\n]. *)
Fixpoint source_position (start offset : Z) (text : list (list byte)) (line column : Z)
  (previous_cr : bool) : SourcePositionV2 :=
  match text with
  | [] => {| sp_line := line; sp_column := column |}
  | c :: text' =>
      if start <=? offset then {| sp_line := line; sp_column := column |}
      else
        let cr := char_is 13 c in
        let '(line, column) :=
          if cr then (line + 1, 1)
          else if char_is 10 c then ((if previous_cr then line else line + 1), 1)
          else (line, column + 1) in
        source_position start (offset + zlen c) text' line column cr
  end.
Definition parse_error (source : string) (start : Z) (reason : string) : QueryErrorV2 := {|
  qe_code := "HQL_PARSE_ERROR";
  qe_stage := "parse";
  qe_message := "Query could not be completed";
  qe_retryable := false;
  qe_span := Some (source_position start 0 (chars source) 1 1 false);
  qe_reason := reason;
|}.

Definition bind_invalid (reason : string) : QueryErrorV2 := query_error "BIND_ERROR" "bind" reason.
Definition unsupported_parameter (reason : string) : QueryErrorV2 :=
  query_error "CAPABILITY_UNSUPPORTED" "bind" reason.

(** ** Types *)

Inductive VectorScalarV2 := F32 | F64.
#[export] Instance vector_scalar_eq_dec : EqDecision VectorScalarV2.
Proof. solve_decision. Defined.

Inductive QueryTypeV2 : Type :=
| TNull | TBool | TI64 | TDecimalU64 | TF64Finite | TUtf8 | TJson | TEntity
| THistoryRevision | TChangeEvent | TPath | TScore | TContext
| TVector (space_id : string) (dimension : Z) (scalar : VectorScalarV2)
| TNullable (t : QueryTypeV2)
| TList (t : QueryTypeV2).
#[export] Instance query_type_eq_dec : EqDecision QueryTypeV2.
Proof. solve_decision. Defined.

Definition scalar_name (s : VectorScalarV2) : string :=
  match s with F32 => "f32" | F64 => "f64" end.

(** [QueryTypeV2::name] *)
Fixpoint type_name (t : QueryTypeV2) : string :=
  match t with
  | TNull => "Null" | TBool => "Bool" | TI64 => "I64" | TDecimalU64 => "DecimalU64"
  | TF64Finite => "F64Finite" | TUtf8 => "Utf8" | TJson => "Json" | TEntity => "Entity"
  | THistoryRevision => "HistoryRevision" | TChangeEvent => "ChangeEvent" | TPath => "Path"
  | TScore => "Score" | TContext => "Context"
  | TVector space_id dimension scalar =>
      "Vector<" +:+ space_id +:+ "," +:+ to_string dimension +:+ "," +:+ scalar_name scalar +:+ ">"
  | TNullable t => "Nullable<" +:+ type_name t +:+ ">"
  | TList t => "List<" +:+ type_name t +:+ ">"
  end.

Definition is_nullable (t : QueryTypeV2) : bool :=
  match t with TNullable _ => true | _ => false end.
Definition type_base (t : QueryTypeV2) : QueryTypeV2 :=
  match t with TNullable inner => inner | _ => t end.
Definition as_nullable (t : QueryTypeV2) : QueryTypeV2 :=
  if is_nullable t then t else TNullable t.

(** The names that are not built from another type. *)
Definition parse_atom (name : string) : option QueryTypeV2 :=
  if bool_decide (name = "Null"%string) then Some TNull
  else if bool_decide (name = "Bool"%string) then Some TBool
  else if bool_decide (name = "I64"%string) then Some TI64
  else if bool_decide (name = "DecimalU64"%string) then Some TDecimalU64
  else if bool_decide (name = "F64Finite"%string) then Some TF64Finite
  else if bool_decide (name = "Utf8"%string) then Some TUtf8
  else if bool_decide (name = "Json"%string) then Some TJson
  else if bool_decide (name = "Entity"%string) then Some TEntity
  else if bool_decide (name = "HistoryRevision"%string) then Some THistoryRevision
  else if bool_decide (name = "ChangeEvent"%string) then Some TChangeEvent
  else if bool_decide (name = "Score"%string) then Some TScore
  else if bool_decide (name = "Context"%string) then Some TContext
  else None.

(** [name.strip_prefix(p).and_then(|s| s.strip_suffix('>'))] *)
Definition strip_type (p name : string) : option string :=
  s ← strip_prefix p name; strip_suffix ">" s.

Definition has_whitespace (s : string) : bool := existsb is_whitespace (chars s).

(** The body of [Vector<space,dimension,scalar>]. *)
Definition parse_vector (inner : string) : query QueryTypeV2 :=
  let parts := str_of_bytes <$> split_bytes (byte_of 44) (str_bytes inner) in
  let space_id := default EmptyString (parts !! 0%nat) in
  let dimension := default EmptyString (parts !! 1%nat) in
  let scalar := default EmptyString (parts !! 2%nat) in
  if is_Some_b (parts !! 3%nat) || bool_decide (space_id = EmptyString)
     || has_whitespace space_id
     || existsb (fun b => (byte_val b =? 60) || (byte_val b =? 62)) (str_bytes space_id)
  then Err (bind_invalid "vector_type")
  else
    dimension ← ok_or (v ← parse_unsigned u16_max dimension; if 0 <? v then Some v else None)
                  (bind_invalid "vector_type");
    if bool_decide (scalar = "f32"%string) then Ok (TVector space_id dimension F32)
    else if bool_decide (scalar = "f64"%string) then Ok (TVector space_id dimension F64)
    else Err (bind_invalid "vector_type").

(** [QueryTypeV2::parse_inner]: the argument counts the nesting levels left,
    [depth + fuel = 129]; a depth above 128 is the code's own error. *)
Fixpoint parse_inner (fuel : nat) (name : string) : query QueryTypeV2 :=
  match fuel with
  | O => Err (bind_invalid "type_depth")
  | S fuel' =>
      if 4096 <? Z.of_nat (str_len name) then Err (bind_invalid "type_depth")
      else
        match parse_atom name with
        | Some t => Ok t
        | None =>
            match strip_type "Nullable<" name with
            | Some inner =>
                inner ← parse_inner fuel' inner;
                if is_nullable inner then Err (bind_invalid "nested_nullable")
                else Ok (TNullable inner)
            | None =>
                match strip_type "List<" name with
                | Some inner => inner ← parse_inner fuel' inner; Ok (TList inner)
                | None =>
                    match strip_type "Vector<" name with
                    | Some inner => parse_vector inner
                    | None => Err (query_error "CAPABILITY_UNSUPPORTED" "bind" "type_unavailable")
                    end
                end
            end
        end
  end.
Definition type_parse (name : string) : query QueryTypeV2 := parse_inner 129 name.
Strategy expand [type_parse].

(** ** Values *)

Record ContextEvidenceV2 := {
  cev_source : RecordRefV2; cev_source_hash : string;
  cev_start_scalar : Z; cev_end_scalar : Z;
}.
Record ContextFragmentV2 := {
  cf_text : string; cf_citation : string; cf_evidence : ContextEvidenceV2;
}.
Record ContextPackageV2 := {
  cp_rendered_context : string; cp_token_count : Z; cp_token_budget : Z;
  cp_tokenizer_fingerprint : string; cp_fragments : list ContextFragmentV2;
  cp_omitted_refs : list ContextEvidenceV2; cp_truncated : bool;
  cp_truncation_reason : option string;
}.
Record HistoryRevisionV2 := {
  hr_subject : RecordRefV2; hr_operation : string; hr_tx_from : Z; hr_tx_to : option Z;
  hr_valid_from : string; hr_valid_to : option string;
}.
Record ChangeEventV2 := { ch_sequence : Z; ch_operation : string; ch_subject : RecordRefV2 }.
Record ScoreValueV2 := {
  sc_value : f64; sc_owner : RecordRefV2; sc_source : string; sc_scope : string;
  sc_metric : string;
}.
Record VectorValueV2 := {
  vv_space_id : string; vv_scalar : VectorScalarV2; vv_values : list f64;
}.
Inductive QueryPathModeV2 := PathTrail | PathSimple | PathWalk.
Record PathValueV2 := {
  pv_vertices : list RecordRefV2; pv_edges : list RecordRefV2; pv_mode : QueryPathModeV2;
}.

#[export] Instance context_evidence_eq_dec : EqDecision ContextEvidenceV2.
Proof. solve_decision. Defined.
#[export] Instance context_fragment_eq_dec : EqDecision ContextFragmentV2.
Proof. solve_decision. Defined.
#[export] Instance context_package_eq_dec : EqDecision ContextPackageV2.
Proof. solve_decision. Defined.
#[export] Instance history_revision_eq_dec : EqDecision HistoryRevisionV2.
Proof. solve_decision. Defined.
#[export] Instance change_event_eq_dec : EqDecision ChangeEventV2.
Proof. solve_decision. Defined.
#[export] Instance path_mode_eq_dec : EqDecision QueryPathModeV2.
Proof. solve_decision. Defined.
#[export] Instance path_value_eq_dec : EqDecision PathValueV2.
Proof. solve_decision. Defined.

Inductive QueryValueV2 : Type :=
| VNull
| VBool (b : bool)
| VI64 (z : Z)
| VDecimalU64 (z : Z)
| VF64 (x : f64)
| VUtf8 (s : string)
| VJson (j : json)
| VEntity (r : RecordRefV2)
| VHistoryRevision (h : HistoryRevisionV2)
| VChangeEvent (c : ChangeEventV2)
| VPath (p : PathValueV2)
| VVector (v : VectorValueV2)
| VScore (s : ScoreValueV2)
| VContext (c : ContextPackageV2)
| VList (l : list QueryValueV2).

(** Equality of floats is IEEE equality: NaN differs from itself, the zeros agree. *)
Fixpoint eqb_list {A} (eqb : A -> A -> bool) (l k : list A) : bool :=
  match l, k with
  | [], [] => true
  | a :: l', b :: k' => eqb a b && eqb_list eqb l' k'
  | _, _ => false
  end.
Definition json_number_eqb (n m : json_number) : bool :=
  match n, m with
  | NumFloat x, NumFloat y => f64_eqb x y
  | _, _ => bool_decide (n = m)
  end.
Fixpoint json_eqb (a b : json) : bool :=
  match a, b with
  | JNull, JNull => true
  | JBool x, JBool y => Bool.eqb x y
  | JNumber n, JNumber m => json_number_eqb n m
  | JString s, JString t => bool_decide (s = t)
  | JArray l, JArray k => eqb_list json_eqb l k
  | JObject m, JObject n =>
      eqb_list (fun p q => bool_decide (p.1 = q.1) && json_eqb p.2 q.2) m n
  | _, _ => false
  end.
Definition vector_eqb (v w : VectorValueV2) : bool :=
  bool_decide (vv_space_id v = vv_space_id w) && bool_decide (vv_scalar v = vv_scalar w)
  && eqb_list f64_eqb (vv_values v) (vv_values w).
Definition score_eqb (s t : ScoreValueV2) : bool :=
  f64_eqb (sc_value s) (sc_value t) && bool_decide (sc_owner s = sc_owner t)
  && bool_decide (sc_source s = sc_source t) && bool_decide (sc_scope s = sc_scope t)
  && bool_decide (sc_metric s = sc_metric t).

(** [PartialEq for QueryValueV2] *)
Fixpoint value_eqb (a b : QueryValueV2) : bool :=
  match a, b with
  | VNull, VNull => true
  | VBool l, VBool r => Bool.eqb l r
  | VI64 l, VI64 r => l =? r
  | VDecimalU64 l, VDecimalU64 r => l =? r
  | VF64 l, VF64 r => f64_eqb l r
  | VUtf8 l, VUtf8 r => bool_decide (l = r)
  | VContext l, VContext r => bool_decide (l = r)
  | VJson l, VJson r => json_eqb l r
  | VEntity l, VEntity r => bool_decide (l = r)
  | VHistoryRevision l, VHistoryRevision r => bool_decide (l = r)
  | VChangeEvent l, VChangeEvent r => bool_decide (l = r)
  | VPath l, VPath r => bool_decide (l = r)
  | VVector l, VVector r => vector_eqb l r
  | VScore l, VScore r => score_eqb l r
  | VList l, VList r => eqb_list value_eqb l r
  | _, _ => false
  end.

(** ** Decoding *)

(** [serde_json::from_value::<RecordRefV2>], generated code: a parameter. *)
Class Serde := { de_record_ref : json -> option RecordRefV2 }.

(** [value as f32]: rounded to binary32; back to [f64] exactly. *)
Definition f32_of_f64 (x : f64) : f64 :=
  match x with
  | S754_finite s m e => binary_round 24 128 s m e
  | _ => x
  end.
Definition f64_of_f32 (x : f64) : f64 :=
  match x with
  | S754_finite s m e =>
      let shift := f64_prec - Zpos (digits2_pos m) in
      S754_finite s (Z.to_pos (Z.shiftl (Zpos m) shift)) (e - shift)
  | _ => x
  end.

Definition finite_number (value : json) : option f64 :=
  match value with
  | JNumber n => x ← as_f64 n; if f64_is_finite x then Some x else None
  | _ => None
  end.

Section Decode.
Context `{UuidCrate} `{Serde}.

(** [RecordRefV2::from_value] *)
Definition record_ref_from_value (value : json) : option RecordRefV2 :=
  r ← de_record_ref value;
  match record_ref_validate r with Ok _ => Some r | Err _ => None end.

(** One component of a vector literal. *)
Definition decode_component (scalar : VectorScalarV2) (value : json) : query f64 :=
  x ← ok_or (finite_number value) (bind_invalid "vector_value");
  match scalar with
  | F32 =>
      let y := f32_of_f64 x in
      if negb (f64_is_finite y) then Err (bind_invalid "vector_value") else Ok (f64_of_f32 y)
  | F64 => Ok x
  end.

(** [QueryTypeV2::decode] *)
Fixpoint type_decode (t : QueryTypeV2) (value : json) : query QueryValueV2 :=
  match t, value with
  | TNull, JNull => Ok VNull
  | TNullable _, JNull => Ok VNull
  | TNullable inner, value => type_decode inner value
  | TBool, JBool v => Ok (VBool v)
  | TI64, JString v =>
      parsed ← ok_or (parse_i64 v) (bind_invalid "integer_literal");
      if negb (bool_decide (to_string parsed = v)) then Err (bind_invalid "integer_literal")
      else Ok (VI64 parsed)
  | TDecimalU64, JString v =>
      parsed ← ok_or (parse_unsigned u64_max v) (bind_invalid "unsigned_integer_literal");
      if negb (bool_decide (to_string parsed = v))
      then Err (bind_invalid "unsigned_integer_literal")
      else Ok (VDecimalU64 parsed)
  | TF64Finite, JNumber v =>
      x ← ok_or (finite_number (JNumber v)) (bind_invalid "nonfinite_literal");
      Ok (VF64 x)
  | TUtf8, JString v => Ok (VUtf8 v)
  | TJson, value => Ok (VJson value)
  | TEntity, value =>
      r ← ok_or (record_ref_from_value value) (bind_invalid "entity_parameter");
      Ok (VEntity r)
  | (THistoryRevision | TChangeEvent), _ =>
      Err (unsupported_parameter "domain_parameter_unavailable")
  | (TScore | TPath | TContext), _ =>
      Err (unsupported_parameter "domain_parameter_unavailable")
  | TList inner, JArray v => vs ← traverse (type_decode inner) v; Ok (VList vs)
  | TVector space_id dimension scalar, JArray values =>
      if negb (zlen values =? dimension)
      then Err (query_error "COLLECTION_SPACE_MISMATCH" "bind" "vector_dimension")
      else
        values ← traverse (decode_component scalar) values;
        Ok (VVector {| vv_space_id := space_id; vv_scalar := scalar; vv_values := values |})
  | _, _ => Err (bind_invalid "literal_type")
  end.
End Decode.

(** ** Well-typed values *)

(** What a value of a type is; [Null] inhabits exactly the nullable types. *)
Fixpoint has_type (t : QueryTypeV2) (v : QueryValueV2) : bool :=
  match t, v with
  | TNullable _, VNull => true
  | TNullable inner, v => has_type inner v
  | TNull, VNull => true
  | TBool, VBool _ => true
  | TI64, VI64 z => is_i64 z
  | TDecimalU64, VDecimalU64 z => is_u64 z
  | TF64Finite, VF64 x => f64_is_finite x
  | TUtf8, VUtf8 _ => true
  | TJson, VJson _ => true
  | TEntity, VEntity _ => true
  | THistoryRevision, VHistoryRevision h =>
      is_u64 (hr_tx_from h) && match hr_tx_to h with Some t => is_u64 t | None => true end
  | TChangeEvent, VChangeEvent c => is_u64 (ch_sequence c)
  | TPath, VPath _ => true
  | TScore, VScore s => f64_is_finite (sc_value s)
  | TContext, VContext _ => true
  | TVector space_id dimension scalar, VVector w =>
      bool_decide (vv_space_id w = space_id) && (zlen (vv_values w) =? dimension)
      && bool_decide (vv_scalar w = scalar) && forallb f64_is_finite (vv_values w)
  | TList inner, VList l => forallb (has_type inner) l
  | _, _ => false
  end.

(** ** The wire form of a value *)

Definition j_entries (m : list (string * json)) : json :=
  JObject (foldl (fun o kv => bt_insert cmp_str kv.1 kv.2 o) [] m).
Definition j_option (o : option json) : json := default JNull o.

Definition kind_name (k : RecordKindV2) : string :=
  match k with
  | Node => "node" | Edge => "edge" | Row => "row" | Vector => "vector"
  | Annotation => "annotation" | Artifact => "artifact"
  end.
Definition j_record_ref (r : RecordRefV2) : json :=
  j_entries [("database_id", JString (rr_database_id r)); ("namespace", JString (rr_namespace r));
             ("kind", JString (kind_name (rr_kind r))); ("id", JString (rr_id r));
             ("revision", JString (rr_revision r))]%string.
Definition j_evidence (e : ContextEvidenceV2) : json :=
  j_entries [("source", j_record_ref (cev_source e)); ("source_hash", JString (cev_source_hash e));
             ("start_scalar", JNumber (PosInt (cev_start_scalar e)));
             ("end_scalar", JNumber (PosInt (cev_end_scalar e)))]%string.
Definition j_fragment (f : ContextFragmentV2) : json :=
  j_entries [("text", JString (cf_text f)); ("citation", JString (cf_citation f));
             ("evidence", j_evidence (cf_evidence f))]%string.
Definition j_context (c : ContextPackageV2) : json :=
  j_entries [("rendered_context", JString (cp_rendered_context c));
             ("token_count", JNumber (PosInt (cp_token_count c)));
             ("token_budget", JNumber (PosInt (cp_token_budget c)));
             ("tokenizer_fingerprint", JString (cp_tokenizer_fingerprint c));
             ("fragments", JArray (j_fragment <$> cp_fragments c));
             ("omitted_refs", JArray (j_evidence <$> cp_omitted_refs c));
             ("truncated", JBool (cp_truncated c));
             ("truncation_reason", j_option (JString <$> cp_truncation_reason c))]%string.
(** [serialize_decimal_u64]: 64-bit counters travel as decimal text. *)
Definition j_history (h : HistoryRevisionV2) : json :=
  j_entries [("subject", j_record_ref (hr_subject h)); ("operation", JString (hr_operation h));
             ("tx_from", JString (to_string (hr_tx_from h)));
             ("tx_to", j_option ((fun t => JString (to_string t)) <$> hr_tx_to h));
             ("valid_from", JString (hr_valid_from h));
             ("valid_to", j_option (JString <$> hr_valid_to h))]%string.
Definition j_change (c : ChangeEventV2) : json :=
  j_entries [("sequence", JString (to_string (ch_sequence c)));
             ("operation", JString (ch_operation c)); ("subject", j_record_ref (ch_subject c))]%string.
(** A float that is not finite is written as [null]. *)
Definition j_float (x : f64) : json := j_option (JNumber <$> number_of_f64 x).
Definition path_mode_name (m : QueryPathModeV2) : string :=
  match m with PathTrail => "trail" | PathSimple => "simple" | PathWalk => "walk" end.
Definition j_path (p : PathValueV2) : json :=
  j_entries [("vertices", JArray (j_record_ref <$> pv_vertices p));
             ("edges", JArray (j_record_ref <$> pv_edges p));
             ("mode", JString (path_mode_name (pv_mode p)))]%string.
Definition j_vector (v : VectorValueV2) : json :=
  j_entries [("space_id", JString (vv_space_id v)); ("scalar", JString (scalar_name (vv_scalar v)));
             ("values", JArray (j_float <$> vv_values v))]%string.
Definition j_score (s : ScoreValueV2) : json :=
  j_entries [("value", j_float (sc_value s)); ("owner", j_record_ref (sc_owner s));
             ("source", JString (sc_source s)); ("scope", JString (sc_scope s));
             ("metric", JString (sc_metric s))]%string.

(** [Serialize for QueryValueV2]: a tag and a value; a float that is not finite is an
    error, also inside a list. *)
Fixpoint serialize_value (v : QueryValueV2) : result string json :=
  let tagged (ty : string) (value : json) : result string json :=
    Ok (j_entries [("type", JString ty); ("value", value)]%string) in
  match v with
  | VNull => tagged "Null" JNull
  | VBool v => tagged "Bool" (JBool v)
  | VI64 v => tagged "I64" (JString (to_string v))
  | VDecimalU64 v => tagged "DecimalU64" (JString (to_string v))
  | VF64 v =>
      if negb (f64_is_finite v) then Err "nonfinite_result"
      else tagged "F64Finite" (JNumber (NumFloat v))
  | VUtf8 v => tagged "Utf8" (JString v)
  | VJson v => tagged "Json" v
  | VEntity v => tagged "Entity" (j_record_ref v)
  | VHistoryRevision v => tagged "HistoryRevision" (j_history v)
  | VChangeEvent v => tagged "ChangeEvent" (j_change v)
  | VPath v => tagged "Path" (j_path v)
  | VVector v =>
      tagged ("Vector<" +:+ vv_space_id v +:+ "," +:+ to_string (zlen (vv_values v)) +:+ ","
              +:+ scalar_name (vv_scalar v) +:+ ">") (j_vector v)
  | VScore v =>
      if negb (f64_is_finite (sc_value v)) then Err "nonfinite_result"
      else tagged "Score" (j_score v)
  | VContext v => tagged "Context" (j_context v)
  | VList l => vs ← traverse serialize_value l; tagged "List" (JArray vs)
  end.

(** ** Decoding yields values of the type *)

Lemma f64_of_f32_finite x : f64_is_finite x = true -> f64_is_finite (f64_of_f32 x) = true.
Proof. by destruct x. Qed.

Lemma finite_number_Some j x : finite_number j = Some x -> f64_is_finite x = true.
Proof.
  unfold finite_number. destruct j; try done. intros (y & _ & Hy)%bind_Some.
  destruct (f64_is_finite y) eqn:E; [|done]. by injection Hy as <-.
Qed.

Lemma decode_component_Ok scalar j x : decode_component scalar j = Ok x -> f64_is_finite x = true.
Proof.
  unfold decode_component. intros (y & Hy%ok_or_Ok%finite_number_Some & Hx)%bind_Ok.
  destruct scalar; [|by injection Hx as <-].
  destruct (f64_is_finite (f32_of_f64 y)) eqn:E; [|done]. injection Hx as <-.
  by apply f64_of_f32_finite.
Qed.

Lemma traverse_forallb {A B} (f : A -> query B) (p : B -> bool) l k :
  (forall a b, a ∈ l -> f a = Ok b -> p b = true) -> traverse f l = Ok k -> forallb p k = true.
Proof.
  intros H Ht%traverse_Ok. apply forallb_forall. intros b Hb%list_elem_of_In.
  apply list_elem_of_lookup in Hb as [i Hi].
  destruct (Forall2_lookup_r _ _ _ _ _ Ht Hi) as (a & Ha & Hf).
  apply (H a); [by eapply list_elem_of_lookup_2|done].
Qed.

(** A decoded literal or parameter is a value of the type it was decoded at:
    integers in range, floats finite, vectors of the declared space and dimension. *)
Lemma type_decode_typed `{UuidCrate} `{Serde} t value v (Hd : type_decode t value = Ok v) :
  has_type t v = true.
Proof.
  revert value v Hd. induction t as [| | | | | | | | | | | | |sp d sc|t IH|t IH]; intros value v Hd.
  14: { destruct value; try done. cbn [type_decode] in Hd.
        destruct (Z.eqb_spec (zlen l) d) as [<-|]; [|done]. cbn [negb] in Hd.
        apply bind_Ok in Hd as (xs & Hxs & [= <-]). cbn.
        rewrite !bool_decide_eq_true_2 by done.
        apply traverse_length in Hxs as Hl. unfold zlen. rewrite Hl, Z.eqb_refl. cbn.
        eapply traverse_forallb; [|exact Hxs]. intros a b _. apply decode_component_Ok. }
  14: { destruct value; cbn [type_decode] in Hd; try (by injection Hd as <-);
        specialize (IH _ _ Hd); by destruct v. }
  14: { destruct value; try done. cbn [type_decode] in Hd.
        apply bind_Ok in Hd as (xs & Hxs & [= <-]). cbn.
        eapply traverse_forallb; [|exact Hxs]. intros a b _. apply IH. }
  all: destruct value; cbn [type_decode] in Hd; try discriminate; inv_result.
  all: try (match goal with H' : _ = ?w |- has_type _ ?w = true => by rewrite <- H' end).
  - destruct (negb _); [done|]. injection Hd as <-. cbn. by eapply parse_i64_bounds.
  - destruct (negb _); [done|]. injection Hd as <-. cbn. apply is_u64_bounds.
    by eapply parse_unsigned_bounds.
  - match goal with H' : _ = ?w |- has_type _ ?w = true => rewrite <- H' end.
    by eapply finite_number_Some.
Qed.

Definition sample_serde : Serde := {| de_record_ref _ := None |}.

(** ** The text of a type *)

(** Types that have a text: everything but paths; a vector space is a non-empty name
    without blanks, brackets or commas; a nullable type is not nested in another. *)
Fixpoint type_wf (t : QueryTypeV2) : bool :=
  match t with
  | TPath => false
  | TVector space_id dimension _ =>
      negb (bool_decide (space_id = EmptyString)) && negb (has_whitespace space_id)
      && forallb (fun b => negb ((byte_val b =? 60) || (byte_val b =? 62) || (byte_val b =? 44)))
           (str_bytes space_id)
      && (1 <=? dimension) && (dimension <=? u16_max)
  | TNullable t => type_wf t && negb (is_nullable t)
  | TList t => type_wf t
  | _ => true
  end.
Fixpoint nesting (t : QueryTypeV2) : nat :=
  match t with TNullable t | TList t => S (nesting t) | _ => 0 end.

Lemma str_bytes_inj_iff s t : str_bytes s = str_bytes t <-> s = t.
Proof. split; [apply str_bytes_inj|congruence]. Qed.

Lemma strip_type_Some p name inner :
  strip_type p name = Some inner <-> str_bytes name = str_bytes p ++ str_bytes inner ++ [byte_of 62].
Proof.
  unfold strip_type, strip_prefix, strip_suffix. rewrite bind_Some. split.
  - intros (s & (l & Hl & ->)%fmap_Some & (k & Hk & ->)%fmap_Some).
    apply strip_bytes_Some in Hl. rewrite str_bytes_of in *. rewrite Hl. f_equal.
    apply strip_bytes_Some in Hk. change (rev (str_bytes ">")) with [byte_of 62] in Hk.
    rewrite <- (rev_involutive l), Hk. cbn [app rev]. done.
  - intros E. apply strip_bytes_Some in E. exists (str_of_bytes (str_bytes inner ++ [byte_of 62])).
    rewrite E, str_bytes_of, rev_app_distr. split; [done|].
    change (rev [byte_of 62]) with (rev (str_bytes ">")).
    rewrite (proj2 (strip_bytes_Some (rev (str_bytes ">")) _ (rev (str_bytes inner))) eq_refl).
    cbn [fmap option_fmap option_map]. by rewrite rev_involutive, str_of_bytes_of.
Qed.

Lemma strip_type_wrap p inner : strip_type p (p +:+ inner +:+ ">") = Some inner.
Proof. apply strip_type_Some. by rewrite !str_bytes_app. Qed.

Lemma dec_bytes_len l : l <> [] -> forallb byte_is_digit l = true ->
  (length (dec_bytes (digits_val l)) <= length l)%nat.
Proof.
  intros Hne Hd. assert (forall k, canonical k -> (length k <= 1)%nat \/ 10 ^ (zlen k - 1) <= digits_val k) as Hlow.
  { intros k. induction k as [|b k IH] using rev_ind; intros Hk; [left; cbn; lia|].
    destruct (canonical_snoc k b Hk) as [->|Hk']; [left; cbn; lia|right].
    rewrite digits_val_app, zlen_app. change (zlen [b]) with 1.
    assert (byte_is_digit b = true) as Hb.
    { destruct Hk as (_ & Hk & _). rewrite forallb_app in Hk. apply andb_prop in Hk as [_ Hk].
      cbn in Hk. by rewrite andb_true_r in Hk. }
    pose proof (digit_val_bounds b Hb). destruct (canonical_pos k Hk') as [->|Hp].
    { destruct Hk as (_ & _ & Hz). specialize (Hz eq_refl). done. }
    destruct k as [|c k]; [by destruct Hk'|]. rewrite !zlen_cons in *.
    destruct (IH Hk') as [Hl|Hl].
    - destruct k; [|cbn in Hl; lia]. change (10 ^ (1 + zlen (@nil byte) + 1 - 1)) with 10. lia.
    - replace (1 + zlen k + 1 - 1) with (Z.succ (1 + zlen k - 1)) by lia.
      rewrite Z.pow_succ_r by (pose proof (zlen_nonneg k); lia). lia. }
  assert (digits_val l < 10 ^ zlen l) as Hup.
  { clear -Hd. induction l as [|b l IH] using rev_ind; [done|].
    rewrite forallb_app in Hd. apply andb_prop in Hd as [Hl Hb]. cbn in Hb.
    rewrite andb_true_r in Hb. pose proof (digit_val_bounds b Hb). specialize (IH Hl).
    rewrite digits_val_app, zlen_app. change (zlen [b]) with 1.
    rewrite Z.pow_add_r by (pose proof (zlen_nonneg l); lia). lia. }
  pose proof (digits_val_nonneg l Hd) as Hn. pose proof (dec_bytes_canonical _ Hn) as Hc.
  destruct (Hlow _ Hc) as [H1|H1].
  - destruct l; [done|]. cbn [length]. lia.
  - rewrite digits_val_dec in H1 by done.
    assert (10 ^ (zlen (dec_bytes (digits_val l)) - 1) < 10 ^ zlen l) as Hlt by lia.
    apply Z.pow_lt_mono_r_iff in Hlt; unfold zlen in *; lia.
Qed.

Lemma digits_no_comma l : forallb byte_is_digit l = true -> byte_of 44 ∉ l.
Proof. intros H Hin. rewrite forallb_forall in H. by apply list_elem_of_In, H in Hin. Qed.

Lemma str_bytes_to_string n : 0 <= n -> str_bytes (to_string n) = dec_bytes n.
Proof. intros. unfold to_string. destruct (Z.ltb_spec n 0); [lia|]. apply str_bytes_of. Qed.

Lemma parse_vector_name sp d sc : type_wf (TVector sp d sc) = true ->
  parse_vector (sp +:+ "," +:+ to_string d +:+ "," +:+ scalar_name sc) = Ok (TVector sp d sc).
Proof.
  cbn [type_wf]. rewrite !andb_true_iff, !negb_true_iff, Z.leb_le, Z.leb_le, bool_decide_eq_false.
  intros ((((Hne & Hws) & Hby) & Hlo) & Hhi). unfold parse_vector.
  rewrite !str_bytes_app, str_bytes_to_string by lia. cbn [str_bytes].
  change (str_bytes ",") with [byte_of 44]. cbn [app].
  assert (byte_of 44 ∉ str_bytes sp) as Hsp.
  { intros Hin. rewrite forallb_forall in Hby. apply list_elem_of_In, Hby in Hin. done. }
  assert (byte_of 44 ∉ str_bytes (scalar_name sc)) as Hsc.
  { apply (bool_decide_unpack _). destruct sc; vm_compute; done. }
  pose proof (dec_bytes_canonical d ltac:(lia)) as (_ & Hdig & _).
  rewrite split_bytes_app, split_bytes_app, split_bytes_none by (done || by apply digits_no_comma).
  rewrite !fmap_cons, fmap_nil. cbn [lookup list_lookup default is_Some_b orb]. unfold id.
  rewrite !str_of_bytes_of, Hws. rewrite bool_decide_eq_false_2 by done. cbn [orb].
  assert (existsb (fun b => (byte_val b =? 60) || (byte_val b =? 62)) (str_bytes sp) = false) as ->.
  { apply not_true_iff_false. intros (b & Hb & He)%existsb_exists.
    rewrite forallb_forall in Hby. specialize (Hby b Hb). by rewrite He in Hby. }
  assert (str_of_bytes (dec_bytes d) = to_string d) as ->
    by (unfold to_string; destruct (Z.ltb_spec d 0); [lia|done]).
  rewrite parse_unsigned_to_string by lia. cbn [mbind option_bind].
  destruct (Z.ltb_spec 0 d); [|lia]. cbn. by destruct sc.
Qed.

Lemma strip_type_none p name : strip_bytes (str_bytes p) (str_bytes name) = None ->
  strip_type p name = None.
Proof. unfold strip_type, strip_prefix. by intros ->. Qed.

Lemma parse_inner_name fuel t : type_wf t = true -> (nesting t < fuel)%nat ->
  Z.of_nat (str_len (type_name t)) <= 4096 -> parse_inner fuel (type_name t) = Ok t.
Proof.
  revert fuel; induction t as [| | | | | | | | | | | | |sp d sc|t IH|t IH]; intros [|fuel] Hwf Hn Hl;
    try lia; cbn [parse_inner]; match goal with |- context [4096 <? ?x] => destruct (Z.ltb_spec 4096 x); [lia|] end;
    try done.
  - cbn [type_name] in *.
    replace (parse_atom _) with (@None QueryTypeV2) by reflexivity.
    rewrite !strip_type_none by reflexivity.
    assert ("Vector<" +:+ sp +:+ "," +:+ to_string d +:+ "," +:+ scalar_name sc +:+ ">" =
      "Vector<" +:+ (sp +:+ "," +:+ to_string d +:+ "," +:+ scalar_name sc) +:+ ">") as ->
      by (apply str_bytes_inj; rewrite !str_bytes_app, <- !app_assoc; done).
    rewrite strip_type_wrap. by apply parse_vector_name.
  - cbn [type_wf type_name] in *. apply andb_prop in Hwf as [Hwf Hnn].
    replace (parse_atom _) with (@None QueryTypeV2) by reflexivity.
    rewrite strip_type_wrap, IH; [|done|cbn in Hn; lia|].
    + cbn. by destruct (is_nullable t).
    + clear -Hl. revert Hl. rewrite <- !length_str_bytes, !str_bytes_app, !length_app. lia.
  - cbn [type_wf type_name] in *.
    replace (parse_atom _) with (@None QueryTypeV2) by reflexivity.
    rewrite (strip_type_none "Nullable<") by reflexivity.
    rewrite strip_type_wrap, IH; [done|done|cbn in Hn; lia|].
    clear -Hl. revert Hl. rewrite <- !length_str_bytes, !str_bytes_app, !length_app. lia.
Qed.

Lemma parse_unsigned_len max s v : parse_unsigned max s = Some v ->
  (length (dec_bytes v) <= str_len s)%nat.
Proof.
  unfold parse_unsigned. intros (w & Hw & Hv)%bind_Some.
  destruct (w <=? max); [|done]. injection Hv as ->. rewrite <- length_str_bytes.
  set (l := match str_bytes s with [] => _ | _ => _ end) in Hw.
  assert (length l <= length (str_bytes s))%nat as Hl.
  { unfold l. destruct (str_bytes s) as [|b k]; [done|]. destruct (_ =? _); cbn [length]; lia. }
  unfold parse_digits in Hw. destruct l as [|b k] eqn:E; [done|].
  destruct (forallb byte_is_digit (b :: k)) eqn:Ed; [|done]. injection Hw as <-.
  pose proof (dec_bytes_len (b :: k) ltac:(done) Ed). lia.
Qed.

Lemma parse_vector_Ok inner t : parse_vector inner = Ok t ->
  exists sp d sc, t = TVector sp d sc /\ type_wf t = true /\
    (length (str_bytes sp) + 1 + length (dec_bytes d) + 4 <= str_len inner)%nat.
Proof.
  unfold parse_vector. rewrite <- length_str_bytes.
  pose proof (split_bytes_join (byte_of 44) (str_bytes inner)) as Hj.
  pose proof (split_bytes_parts (byte_of 44) (str_bytes inner)) as Hparts.
  destruct (split_bytes (byte_of 44) (str_bytes inner)) as [|p0 ps]; [done|].
  rewrite !fmap_cons. cbn [lookup list_lookup default]. unfold id.
  destruct ((str_of_bytes <$> ps) !! 2%nat) eqn:E3; [done|]. cbn [is_Some_b orb].
  destruct (bool_decide _) eqn:Hne; [done|]. cbn [orb].
  destruct (has_whitespace _) eqn:Hws; [done|]. cbn [orb].
  destruct (existsb _ _) eqn:Hex; [done|]. intros (d & Hd & H)%bind_Ok.
  apply ok_or_Ok, bind_Some in Hd as (v & Hv & Hpos).
  destruct (Z.ltb_spec 0 v); [|done]. injection Hpos as ->.
  pose proof (parse_unsigned_bounds _ _ _ Hv) as Hb. pose proof (parse_unsigned_len _ _ _ Hv) as Hlen.
  assert (exists p1 p2, ps = [p1; p2]) as (p1 & p2 & ->).
  { destruct ps as [|p1 [|p2 [|p3 ps]]]; [done| |by exists p1, p2|by destruct ps].
    exfalso. by cbn in H. }
  cbn in Hv, Hlen, H, Hj. rewrite app_nil_r in Hj.
  assert (forall sc, p2 = str_bytes (scalar_name sc) -> t = TVector (str_of_bytes p0) d sc ->
    exists sp d sc, t = TVector sp d sc /\ type_wf t = true /\
      (length (str_bytes sp) + 1 + length (dec_bytes d) + 4 <= length (str_bytes inner))%nat) as Hfin.
  { intros sc Hp2 ->. exists (str_of_bytes p0), d, sc. split; [done|]. cbn [type_wf].
    rewrite Hne, Hws. cbn [negb andb]. rewrite str_bytes_of in *. split.
    - rewrite !andb_true_iff, !Z.leb_le. split_and!; [|lia|lia]. apply forallb_forall.
      intros b Hin. assert (byte_of 44 ∉ p0) as Hc by (apply Hparts; left).
      assert ((byte_val b =? 60) || (byte_val b =? 62) = false) as ->.
      { apply not_true_iff_false. intros He. apply not_true_iff_false in Hex.
        apply Hex, existsb_exists. by exists b. }
      destruct (Z.eqb_spec (byte_val b) 44) as [E|]; [|done]. destruct Hc.
      rewrite <- E, byte_of_val. by apply list_elem_of_In.
    - rewrite Hj, <- length_str_bytes, str_bytes_of in *. rewrite Hp2. destruct sc; cbn;
        rewrite !length_app; cbn; rewrite length_app; cbn; lia. }
  case_bool_decide as E32; [apply (Hfin F32)|case_bool_decide as E64; [apply (Hfin F64)|done]];
    try (by injection H as <-); by rewrite <- (str_bytes_of p2), ?E32, ?E64.
Qed.

Lemma parse_inner_Ok fuel name t : parse_inner fuel name = Ok t ->
  type_wf t = true /\ (nesting t < fuel)%nat /\ (str_len (type_name t) <= str_len name)%nat /\
  Z.of_nat (str_len name) <= 4096.
Proof.
  revert name t; induction fuel as [|fuel IH]; intros name t H; [done|]. cbn [parse_inner] in H.
  destruct (Z.ltb_spec 4096 (Z.of_nat (str_len name))); [done|].
  destruct (parse_atom name) as [t'|] eqn:Ea.
  { injection H as ->. unfold parse_atom in Ea.
    repeat (case_bool_decide; [injection Ea as <-; subst name; split_and!; (done || cbn; lia)|]). done. }
  assert (forall p inner, strip_type p name = Some inner ->
    (str_len name = str_len p + str_len inner + 1)%nat) as Hstrip.
  { intros p inner Hs%strip_type_Some. rewrite <- !length_str_bytes, Hs, !length_app. cbn. lia. }
  destruct (strip_type "Nullable<" name) as [inner|] eqn:En.
  - apply bind_Ok in H as (t1 & Ht1 & H). destruct (is_nullable t1) eqn:Hn1; [done|].
    injection H as <-. apply IH in Ht1 as (Hw & Hn & Hl & _). apply Hstrip in En.
    cbn [type_wf nesting type_name]. rewrite Hw, Hn1. split_and!; [done|lia| |lia].
    rewrite <- !length_str_bytes, !str_bytes_app, !length_app in *. cbn in *. lia.
  - destruct (strip_type "List<" name) as [inner|] eqn:El.
    + apply bind_Ok in H as (t1 & Ht1 & H). injection H as <-.
      apply IH in Ht1 as (Hw & Hn & Hl & _). apply Hstrip in El.
      cbn [type_wf nesting type_name]. split_and!; [done|lia| |lia].
      rewrite <- !length_str_bytes, !str_bytes_app, !length_app in *. cbn in *. lia.
    + destruct (strip_type "Vector<" name) as [inner|] eqn:Ev; [|done].
      apply parse_vector_Ok in H as (sp & d & sc & -> & Hw & Hl). apply Hstrip in Ev.
      split_and!; [done|cbn; lia| |lia]. cbn [type_wf] in Hw. rewrite !andb_true_iff, !Z.leb_le in Hw.
      cbn [type_name]. rewrite <- !length_str_bytes, !str_bytes_app, !length_app,
        str_bytes_to_string in * by lia. cbn in *. destruct sc; cbn; lia.
Qed.

(** A type that has a text is read back from it, up to the parser's two bounds. *)
Theorem type_parse_name t (Hwf : type_wf t = true) (Hn : (nesting t <= 128)%nat)
  (Hl : Z.of_nat (str_len (type_name t)) <= 4096) : type_parse (type_name t) = Ok t.
Proof. unfold type_parse. apply (parse_inner_name 129 t Hwf ltac:(lia) Hl). Qed.

(** Whatever text a type was read from, its name is a text of the same type: results
    and explanations that print the name can be parsed again. *)
Theorem type_parse_stable name t (H : type_parse name = Ok t) :
  type_wf t = true /\ type_parse (type_name t) = Ok t.
Proof.
  unfold type_parse in *. destruct (parse_inner_Ok 129 name t H) as (Hw & Hn & Hl & Hm).
  split; [exact Hw|]. apply (parse_inner_name 129 t Hw Hn). lia.
Qed.

Lemma type_parse_name_witness :
  type_parse "Nullable<List<Vector<space-a,384,f32>>>"
  = Ok (TNullable (TList (TVector "space-a" 384 F32))).
Proof.
  apply (type_parse_name (TNullable (TList (TVector "space-a" 384 F32)))).
  - vm_compute. reflexivity.
  - cbn. lia.
  - vm_compute. discriminate.
Defined.

(** A dimension with a sign and leading zeros is another text of the same type. *)
Lemma signed_dimension : type_parse "Vector<s,+007,f64>" = Ok (TVector "s" 7 F64).
Proof. vm_compute. reflexivity. Qed.
Lemma type_parse_stable_witness :
  type_wf (TVector "s" 7 F64) = true /\
  type_parse (type_name (TVector "s" 7 F64)) = Ok (TVector "s" 7 F64).
Proof. exact (type_parse_stable _ _ signed_dimension). Defined.

(** ** Values on the wire *)

(** The scalar types; a nullable JSON value is not one, its null is read as [Null]. *)
Definition wire_scalar (t : QueryTypeV2) : bool :=
  match t with
  | TNull | TBool | TI64 | TDecimalU64 | TF64Finite | TUtf8 | TJson => true
  | TNullable (TBool | TI64 | TDecimalU64 | TF64Finite | TUtf8) => true
  | _ => false
  end.

(** C40: What a scalar result is printed as is read back as the same value at its type;
    64-bit integers travel as text and lose nothing. *)
Theorem serialize_value_roundtrip `{UuidCrate} `{Serde} t v (Hs : wire_scalar t = true)
  (Ht : has_type t v = true) :
  exists wire x, serialize_value v = Ok wire /\ json_get "value" wire = Some x /\
    type_decode t x = Ok v.
Proof.
  assert (forall z, is_i64 z = true -> type_decode TI64 (JString (to_string z)) = Ok (VI64 z)) as Hi.
  { intros z Hz. cbn [type_decode]. rewrite parse_i64_to_string by done. cbn.
    by rewrite bool_decide_eq_true_2. }
  assert (forall z, is_u64 z = true ->
    type_decode TDecimalU64 (JString (to_string z)) = Ok (VDecimalU64 z)) as Hu.
  { intros z Hz%is_u64_bounds. cbn [type_decode]. rewrite parse_unsigned_to_string by done. cbn.
    by rewrite bool_decide_eq_true_2. }
  assert (forall x, f64_is_finite x = true ->
    type_decode TF64Finite (JNumber (NumFloat x)) = Ok (VF64 x)) as Hf.
  { intros x Hx. cbn. by rewrite Hx. }
  assert (forall u s, type_decode (TNullable u) (JString s) = type_decode u (JString s)) as Hn
    by done.
  destruct v; cbn [serialize_value]; try (do 2 eexists; split; [reflexivity|]; split; [reflexivity|]).
  all: destruct t as [| | | | | | | | | | | | |sp d sc|t|t]; try done;
    try (destruct t; done); cbn [has_type snd] in *; auto.
  all: try (destruct t; try done; cbn [has_type] in Ht;
            rewrite ?Hn; by auto).
  - rewrite Ht. do 2 eexists. split; [reflexivity|]. split; [reflexivity|]. by apply Hf.
  - destruct t; try done. cbn [has_type] in Ht. rewrite Ht.
    do 2 eexists. split; [reflexivity|]. split; [reflexivity|]. by apply Hf.
Qed.

Lemma serialize_value_roundtrip_witness : exists wire x,
  serialize_value (VDecimalU64 18446744073709551615) = Ok wire /\
  json_get "value" wire = Some x /\
  type_decode (H := sample_uuid) (H0 := sample_serde) (TNullable TDecimalU64) x
  = Ok (VDecimalU64 18446744073709551615).
Proof.
  apply (serialize_value_roundtrip (H := sample_uuid) (H0 := sample_serde)
    (TNullable TDecimalU64)).
  - reflexivity.
  - vm_compute. reflexivity.
Defined.

(* From here on the parser of types is unfolded last by the conversion test. *)
Strategy 1000 [type_parse].
