(* ===== verification/Budget.v ===== *)
(** * The execution budget

    [src/src/query/hql2/exec.rs], lines 40 to 339: the per-query limits with their
    checked counters and deadline, and the allocation charges of values and rows. *)
From S2P Require Export Monad Value.
Local Open Scope Z_scope.

(** [std::time::Instant::now]: the [n]-th reading of the clock, in nanoseconds. *)
Class Clock := { instant : nat -> Z }.
(** Readings never go back. *)
Class ClockLaws `{Clock} : Prop := { instant_mono i j : (i <= j)%nat -> instant i <= instant j }.

(** [size_of] of the types whose allocations are charged, fixed by the compiler. *)
Class Layout := {
  size_of_value : Z;
  size_of_row : Z;
  size_of_ref : Z;
  size_of_field : Z;
  size_of_group : Z;
  size_of_score : Z;
  size_of_record_key : Z;
  size_of_bounds : 0 < size_of_value <= u64_max /\ 0 < size_of_row <= u64_max
                   /\ 0 < size_of_ref <= u64_max;
  size_of_others : 0 <= size_of_field /\ 0 <= size_of_group /\ 0 <= size_of_score
                   /\ 0 <= size_of_record_key;
}.
(** Pointers and [usize] on the 64-bit targets. *)
Definition size_of_pointer : Z := 8.
Definition size_of_usize : Z := 8.

Definition failure (reason : string) : QueryErrorV2 := query_error "BIND_ERROR" "execute" reason.
Definition quota : QueryErrorV2 := query_error "QUERY_BUDGET_EXCEEDED" "execute" "query_limit".

Definition record_kind_name (kind : RecordKindV2) : string :=
  match kind with
  | Node => "node" | Edge => "edge" | Row => "row" | Vector => "vector"
  | Annotation => "annotation" | Artifact => "artifact"
  end.

(** [eb_reads] counts the clock readings made so far. *)
Record ExecutionBudgetV2 := {
  eb_reads : nat;
  eb_started : Z;
  eb_elapsed : Z;
  eb_memory : Z;
  eb_accounted : Z;
  eb_rows : Z;
  eb_bytes : Z;
  eb_expanded_nodes : Z;
  eb_expanded_nodes_used : Z;
  eb_expanded_edges : Z;
  eb_expanded_edges_used : Z;
  eb_vector_candidates : Z;
  eb_vector_candidates_used : Z;
  eb_distance_evaluations : Z;
  eb_distance_evaluations_used : Z;
}.
Notation exec := (SM ExecutionBudgetV2 QueryErrorV2).

Definition set_reads (n : nat) (b : ExecutionBudgetV2) : ExecutionBudgetV2 :=
  let '(Build_ExecutionBudgetV2 _ st el m a r by_ en enu ee eeu vc vcu de deu) := b in
  Build_ExecutionBudgetV2 n st el m a r by_ en enu ee eeu vc vcu de deu.
Definition set_started (t : Z) (b : ExecutionBudgetV2) : ExecutionBudgetV2 :=
  let '(Build_ExecutionBudgetV2 n _ el m a r by_ en enu ee eeu vc vcu de deu) := b in
  Build_ExecutionBudgetV2 n t el m a r by_ en enu ee eeu vc vcu de deu.
Definition set_accounted (x : Z) (b : ExecutionBudgetV2) : ExecutionBudgetV2 :=
  let '(Build_ExecutionBudgetV2 n st el m _ r by_ en enu ee eeu vc vcu de deu) := b in
  Build_ExecutionBudgetV2 n st el m x r by_ en enu ee eeu vc vcu de deu.
Definition set_nodes_used (x : Z) (b : ExecutionBudgetV2) : ExecutionBudgetV2 :=
  let '(Build_ExecutionBudgetV2 n st el m a r by_ en _ ee eeu vc vcu de deu) := b in
  Build_ExecutionBudgetV2 n st el m a r by_ en x ee eeu vc vcu de deu.
Definition set_edges_used (x : Z) (b : ExecutionBudgetV2) : ExecutionBudgetV2 :=
  let '(Build_ExecutionBudgetV2 n st el m a r by_ en enu ee _ vc vcu de deu) := b in
  Build_ExecutionBudgetV2 n st el m a r by_ en enu ee x vc vcu de deu.
Definition set_candidates_used (x : Z) (b : ExecutionBudgetV2) : ExecutionBudgetV2 :=
  let '(Build_ExecutionBudgetV2 n st el m a r by_ en enu ee eeu vc _ de deu) := b in
  Build_ExecutionBudgetV2 n st el m a r by_ en enu ee eeu vc x de deu.
Definition set_distances_used (x : Z) (b : ExecutionBudgetV2) : ExecutionBudgetV2 :=
  let '(Build_ExecutionBudgetV2 n st el m a r by_ en enu ee eeu vc vcu de _) := b in
  Build_ExecutionBudgetV2 n st el m a r by_ en enu ee eeu vc vcu de x.

Definition ms (n : Z) : Z := n * 1000000.

(** [limit]: the helper of [new]; a request lowers a bound, never raises it. *)
Definition budget_limit (value : option Z) (default : Z) : query Z :=
  match value with
  | None => Ok default
  | Some v => if (0 <? v) && (v <=? default) then Ok v
              else Err (query_error "BIND_ERROR" "bind" "budget_limit")
  end.

(** The limits of a query without a budget of its own, started at [started]. *)
Definition default_budget (n : nat) (started : Z) : ExecutionBudgetV2 := {|
  eb_reads := n;
  eb_started := started;
  eb_elapsed := ms 5000;
  eb_memory := 64 * 1024 * 1024;
  eb_accounted := 0;
  eb_rows := 10000;
  eb_bytes := 32 * 1024 * 1024;
  eb_expanded_nodes := 100000;
  eb_expanded_nodes_used := 0;
  eb_expanded_edges := 200000;
  eb_expanded_edges_used := 0;
  eb_vector_candidates := 100000;
  eb_vector_candidates_used := 0;
  eb_distance_evaluations := 1000000;
  eb_distance_evaluations_used := 0;
|}.

Section Budget.
Context `{Clock}.

(** [ExecutionBudgetV2::new], after [n] readings of the clock *)
Definition budget_new (n : nat) (options : option QueryBudgetV2) : query ExecutionBudgetV2 :=
  let budget := default_budget (S n) (instant n) in
  match options with
  | None => Ok budget
  | Some o =>
      if negb (default 0 (qb_max_spill_bytes o) =? 0) then
        Err (query_error "CAPABILITY_UNSUPPORTED" "bind" "spill_unavailable")
      else
        elapsed ← budget_limit (qb_max_elapsed_ms o) 5000;
        memory ← budget_limit (qb_max_memory_bytes o) (64 * 1024 * 1024);
        rows ← budget_limit (qb_max_result_rows o) 10000;
        bytes ← budget_limit (qb_max_result_bytes o) (32 * 1024 * 1024);
        expanded_nodes ← budget_limit (qb_max_expanded_nodes o) 100000;
        expanded_edges ← budget_limit (qb_max_expanded_edges o) 200000;
        vector_candidates ← budget_limit (qb_max_vector_candidates o) 100000;
        distance_evaluations ← budget_limit (qb_max_distance_evaluations o) 1000000;
        Ok {| eb_reads := S n;
              eb_started := instant n;
              eb_elapsed := ms elapsed;
              eb_memory := memory;
              eb_accounted := 0;
              eb_rows := rows;
              eb_bytes := bytes;
              eb_expanded_nodes := expanded_nodes;
              eb_expanded_nodes_used := 0;
              eb_expanded_edges := expanded_edges;
              eb_expanded_edges_used := 0;
              eb_vector_candidates := vector_candidates;
              eb_vector_candidates_used := 0;
              eb_distance_evaluations := distance_evaluations;
              eb_distance_evaluations_used := 0 |}
  end.

Definition account_elapsed_since (start : Z) : exec unit :=
  fun b => Ok (tt, set_started (Z.min (eb_started b) start) b).

(** [check]: one reading; [elapsed] saturates at zero. *)
Definition check : exec unit := fun b =>
  let now := instant (eb_reads b) in
  let b := set_reads (S (eb_reads b)) b in
  if eb_elapsed b <? Z.max 0 (now - eb_started b) then Err quota else Ok (tt, b).

(** The body the five reservations share: check, checked addition, bound, store. *)
Definition reserve_in (used limit : ExecutionBudgetV2 -> Z)
  (store : Z -> ExecutionBudgetV2 -> ExecutionBudgetV2) (count : Z) : exec unit :=
  check ;;
  b ← get;
  next ← lift (ok_or (u64_checked_add (used b) count) quota);
  if limit b <? next then fail quota else put (store next b).
Definition reserve : Z -> exec unit := reserve_in eb_accounted eb_memory set_accounted.
Definition reserve_expanded_nodes : Z -> exec unit :=
  reserve_in eb_expanded_nodes_used eb_expanded_nodes set_nodes_used.
Definition reserve_expanded_edges : Z -> exec unit :=
  reserve_in eb_expanded_edges_used eb_expanded_edges set_edges_used.
Definition reserve_vector_candidates : Z -> exec unit :=
  reserve_in eb_vector_candidates_used eb_vector_candidates set_candidates_used.
Definition reserve_distance_evaluations : Z -> exec unit :=
  reserve_in eb_distance_evaluations_used eb_distance_evaluations set_distances_used.

Definition check_output (rows bytes : Z) : exec unit :=
  check ;;
  b ← get;
  if (eb_rows b <? rows) || (eb_bytes b <? bytes) then fail quota else mret tt.
End Budget.

(** ** Allocation charges *)

Notation "a +sat b" := (u64_saturating_add a b) (at level 50, left associativity) : Z_scope.
(** [type Row = Vec<V>] *)
Notation vrow := (list QueryValueV2) (only parsing).

Definition zstr (s : string) : Z := Z.of_nat (str_len s).
Definition sum_sat : Z -> list Z -> Z := foldl u64_saturating_add.

(** [database_id.len() + namespace.len() + id.len() + revision.len()] *)
Definition ref_len (r : RecordRefV2) : Z :=
  zstr (rr_database_id r) + zstr (rr_namespace r) + zstr (rr_id r) + zstr (rr_revision r).

(** The work list of [json_value_bytes]: a stack that visits every value once. *)
Fixpoint json_nodes (j : json) : nat :=
  S match j with
    | JArray l => list_sum (map json_nodes l)
    | JObject m => list_sum (map (fun kv => json_nodes kv.2) m)
    | _ => 0
    end.
Fixpoint json_bytes_loop (fuel : nat) (pending : list json) (total : Z) : Z :=
  match fuel with
  | O => total
  | S fuel =>
      match pending with
      | [] => total
      | value :: pending =>
          let total := total +sat 32 in
          match value with
          | JString s => json_bytes_loop fuel pending (total +sat zstr s)
          | JArray values => json_bytes_loop fuel (rev values ++ pending) total
          | JObject values =>
              json_bytes_loop fuel (rev (map snd values) ++ pending)
                (sum_sat total (map (fun kv => zstr kv.1) values))
          | _ => json_bytes_loop fuel pending total
          end
      end
  end.
Definition json_value_bytes (value : json) : Z := json_bytes_loop (json_nodes value) [value] 0.

Section Charges.
Context `{Layout}.

Definition evidence_len (e : ContextEvidenceV2) : Z :=
  zstr (rr_id (cev_source e)) + zstr (rr_revision (cev_source e)) + zstr (cev_source_hash e).

(** [bytes] *)
Fixpoint value_bytes (v : QueryValueV2) : Z :=
  let heap :=
    match v with
    | VUtf8 s => zstr s
    | VJson value => json_value_bytes value
    | VEntity record => ref_len record
    | VHistoryRevision revision =>
        ref_len (hr_subject revision) + zstr (hr_operation revision)
        + zstr (hr_valid_from revision)
        + match hr_valid_to revision with Some t => zstr t | None => 0 end
    | VChangeEvent event => ref_len (ch_subject event) + zstr (ch_operation event)
    | VScore score =>
        ref_len (sc_owner score) + zstr (sc_source score) + zstr (sc_scope score)
        + zstr (sc_metric score)
    | VContext context =>
        zstr (cp_rendered_context context) + zstr (cp_tokenizer_fingerprint context)
        + zsum (map (fun f => zstr (cf_text f) + zstr (cf_citation f)
                              + evidence_len (cf_evidence f)) (cp_fragments context))
        + zsum (map evidence_len (cp_omitted_refs context))
    | VPath path =>
        zsum (map (fun record => ref_len record + size_of_ref)
                (pv_vertices path ++ pv_edges path))
    | VList l => sum_sat 0 (map value_bytes l)
    | _ => 0
    end in
  size_of_value +sat heap.
Definition entity_value_bytes (record : RecordRefV2) : Z := size_of_value +sat ref_len record.
Definition row_bytes (row : vrow) : Z := size_of_row +sat sum_sat 0 (map value_bytes row).

Context `{Clock}.

Definition clone_value (v : QueryValueV2) : exec QueryValueV2 :=
  reserve (value_bytes v) ;; mret v.
(** [out] is returned with the row appended. *)
Definition push_clone (out : list vrow) (row : vrow) : exec (list vrow) :=
  reserve (row_bytes row +sat size_of_row) ;; mret (out ++ [row]).
Definition push_with_value (out : list vrow) (row : vrow) (value : QueryValueV2) : exec (list vrow) :=
  reserve (row_bytes row +sat value_bytes value +sat size_of_row) ;;
  mret (out ++ [row ++ [value]]).
End Charges.

(** ** The limits of a query *)

(** Every counter stays within its limit. *)
Record budget_ok (b : ExecutionBudgetV2) : Prop := {
  bo_memory : 0 <= eb_accounted b <= eb_memory b;
  bo_nodes : 0 <= eb_expanded_nodes_used b <= eb_expanded_nodes b;
  bo_edges : 0 <= eb_expanded_edges_used b <= eb_expanded_edges b;
  bo_candidates : 0 <= eb_vector_candidates_used b <= eb_vector_candidates b;
  bo_distances : 0 <= eb_distance_evaluations_used b <= eb_distance_evaluations b;
}.

(** What running code does to a budget: the limits stay, the counters grow. *)
Record budget_le (b c : ExecutionBudgetV2) : Prop := {
  bl_reads : (eb_reads b <= eb_reads c)%nat;
  bl_limits : (eb_started c, eb_elapsed c, eb_memory c, eb_rows c, eb_bytes c,
               eb_expanded_nodes c, eb_expanded_edges c, eb_vector_candidates c,
               eb_distance_evaluations c)
              = (eb_started b, eb_elapsed b, eb_memory b, eb_rows b, eb_bytes b,
                 eb_expanded_nodes b, eb_expanded_edges b, eb_vector_candidates b,
                 eb_distance_evaluations b);
  bl_memory : eb_accounted b <= eb_accounted c;
  bl_nodes : eb_expanded_nodes_used b <= eb_expanded_nodes_used c;
  bl_edges : eb_expanded_edges_used b <= eb_expanded_edges_used c;
  bl_candidates : eb_vector_candidates_used b <= eb_vector_candidates_used c;
  bl_distances : eb_distance_evaluations_used b <= eb_distance_evaluations_used c;
  bl_ok : budget_ok b -> budget_ok c;
}.

#[export] Instance budget_le_pre : PreOrder budget_le.
Proof.
  split.
  - intros b. split; try done; lia.
  - intros b c d [] []. split; try lia; [congruence|auto].
Qed.

(** What a checked reservation does on every branch. *)
Section ReserveSpec.
Context `{Clock}.

Definition expired (b : ExecutionBudgetV2) : bool :=
  eb_elapsed b <? Z.max 0 (instant (eb_reads b) - eb_started b).
Definition tick (b : ExecutionBudgetV2) : ExecutionBudgetV2 := set_reads (S (eb_reads b)) b.

Lemma check_eq b : check b = if expired b then Err quota else Ok (tt, tick b).
Proof. destruct b. reflexivity. Qed.
Lemma tick_fields b :
  eb_reads (tick b) = S (eb_reads b) /\ eb_accounted (tick b) = eb_accounted b /\
  eb_memory (tick b) = eb_memory b /\ eb_rows (tick b) = eb_rows b /\
  eb_bytes (tick b) = eb_bytes b.
Proof. by destruct b. Qed.
Lemma tick_le b : budget_le b (tick b).
Proof. destruct b. split; cbn; try lia; [done|]. intros []. by split. Qed.
Lemma moves_check : moves budget_le check.
Proof. intros b [] c. rewrite check_eq. destruct (expired b); [done|]. intros [= <-]. apply tick_le. Qed.

Lemma reserve_in_eq used limit store count b :
  reserve_in used limit store count b =
  if expired b then Err quota
  else if (used (tick b) + count <=? u64_max) && (used (tick b) + count <=? limit (tick b))
       then Ok (tt, store (used (tick b) + count) (tick b))
       else Err quota.
Proof.
  unfold reserve_in. rewrite sm_bind_eq, check_eq. destruct (expired b); [done|].
  cbv [get lift put fail u64_checked_add mbind sm_bind ok_or].
  rewrite (Z.leb_antisym (limit _)). destruct (_ <=? u64_max); [|done].
  by destruct (limit (tick b) <? used (tick b) + count).
Qed.

Lemma reserve_eq bytes b :
  reserve bytes b =
  if expired b then Err quota
  else if (eb_accounted b + bytes <=? u64_max) && (eb_accounted b + bytes <=? eb_memory b)
       then Ok (tt, set_accounted (eb_accounted b + bytes) (tick b))
       else Err quota.
Proof.
  unfold reserve. rewrite reserve_in_eq. by destruct (tick_fields b) as (_ & -> & -> & _).
Qed.

(** [reserve] charges exactly the bytes asked for, or fails with the query limit;
    it fails only past the deadline or past the memory limit. *)
Theorem reserve_spec bytes b :
  reserve bytes b =
  if expired b then Err quota
  else if (eb_accounted b + bytes <=? u64_max) && (eb_accounted b + bytes <=? eb_memory b)
       then Ok (tt, set_accounted (eb_accounted b + bytes) (tick b))
       else Err quota.
Proof. apply reserve_eq. Qed.

Lemma reserve_in_le used limit store count :
  0 <= count ->
  (forall b n, used b <= n <= limit b -> budget_le b (store n b)) ->
  moves budget_le (reserve_in used limit store count).
Proof.
  intros Hc Hs b [] c. rewrite reserve_in_eq. destruct (expired b); [done|].
  destruct (_ <=? u64_max); [|done]. cbn [andb]. destruct (_ <=? limit _) eqn:Hl; [|done].
  intros [= <-]. apply Z.leb_le in Hl.
  transitivity (tick b); [apply tick_le|]. apply Hs; lia.
Qed.
Ltac reserve_le :=
  intros Hc; apply reserve_in_le; [exact Hc|]; intros [] ? ?; split; cbn in *; try lia;
  [done|intros []; split; cbn in *; lia].
Lemma moves_reserve n : 0 <= n -> moves budget_le (reserve n).
Proof. reserve_le. Qed.
Lemma moves_reserve_nodes n : 0 <= n -> moves budget_le (reserve_expanded_nodes n).
Proof. reserve_le. Qed.
Lemma moves_reserve_edges n : 0 <= n -> moves budget_le (reserve_expanded_edges n).
Proof. reserve_le. Qed.
Lemma moves_reserve_candidates n : 0 <= n -> moves budget_le (reserve_vector_candidates n).
Proof. reserve_le. Qed.
Lemma moves_reserve_distances n : 0 <= n -> moves budget_le (reserve_distance_evaluations n).
Proof. reserve_le. Qed.
Lemma moves_get : moves budget_le (get : exec ExecutionBudgetV2).
Proof. intros b a c [= _ <-]. reflexivity. Qed.
Lemma moves_check_output rows bytes : moves budget_le (check_output rows bytes).
Proof.
  unfold check_output. repeat first [apply moves_check | apply moves_get | moves_step].
Qed.

Lemma check_Ok b u c : check b = Ok (u, c) -> c = tick b.
Proof. rewrite check_eq. destruct (expired b); congruence. Qed.
Lemma reserve_Ok n b u c : reserve n b = Ok (u, c) ->
  eb_accounted c = eb_accounted b + n /\ eb_accounted c <= eb_memory c /\ eb_memory c = eb_memory b.
Proof.
  rewrite reserve_eq. destruct (expired b); [done|].
  destruct (_ <=? u64_max); [|done]. cbn [andb]. destruct (_ <=? eb_memory b) eqn:Hl; [|done].
  intros [= _ <-]. apply Z.leb_le in Hl. destruct b; cbn in *; lia.
Qed.

(** Running out of a budget is reported with one and the same error. *)
Lemma reserve_in_Err used limit store count b e :
  reserve_in used limit store count b = Err e -> e = quota.
Proof.
  rewrite reserve_in_eq. destruct (expired b); [congruence|]. destruct (_ && _); congruence.
Qed.
Lemma check_Err b e : check b = Err e -> e = quota.
Proof. rewrite check_eq. destruct (expired b); congruence. Qed.
End ReserveSpec.
#[export] Hint Resolve moves_check moves_check_output moves_get : moves.
#[export] Hint Resolve moves_reserve moves_reserve_nodes moves_reserve_edges
  moves_reserve_candidates moves_reserve_distances : moves.

(** Past its deadline a query makes no further step: every later check fails. *)
Lemma expired_later `{ClockLaws} b c : budget_le b c -> expired b = true -> expired c = true.
Proof.
  intros [Hr Hl _ _ _ _ _ _]. unfold expired. rewrite !Z.ltb_lt.
  assert (eb_started c = eb_started b /\ eb_elapsed c = eb_elapsed b) as [-> ->] by (split; congruence).
  pose proof (instant_mono _ _ Hr). lia.
Qed.

(** The options a budget may have. *)
Definition limit_ok (value : option Z) (default : Z) : Prop :=
  match value with None => True | Some v => 1 <= v <= default end.
Definition options_ok (o : QueryBudgetV2) : Prop :=
  default 0 (qb_max_spill_bytes o) = 0 /\
  limit_ok (qb_max_elapsed_ms o) 5000 /\ limit_ok (qb_max_memory_bytes o) 67108864 /\
  limit_ok (qb_max_result_rows o) 10000 /\ limit_ok (qb_max_result_bytes o) 33554432 /\
  limit_ok (qb_max_expanded_nodes o) 100000 /\ limit_ok (qb_max_expanded_edges o) 200000 /\
  limit_ok (qb_max_vector_candidates o) 100000 /\
  limit_ok (qb_max_distance_evaluations o) 1000000.

Lemma budget_limit_Ok value d x :
  budget_limit value d = Ok x <-> limit_ok value d /\ x = default d value.
Proof.
  unfold budget_limit, limit_ok. destruct value as [v|]; cbn; [|naive_solver].
  destruct (0 <? v) eqn:H1, (v <=? d) eqn:H2; cbn;
    rewrite ?Z.ltb_lt, ?Z.ltb_ge, ?Z.leb_le, ?Z.leb_gt in *; split; try done; try lia;
    [intros [= ->]; split; [lia|done] | intros [_ ->]; done].
Qed.

Lemma budget_limit_ok value d : limit_ok value d -> budget_limit value d = Ok (default d value).
Proof. intros H. by apply budget_limit_Ok. Qed.
(** A request's budget lowers the limits of a query and never raises one: [new] accepts
    exactly the options whose values are positive and at most the default, and that do
    not spill. *)
Theorem budget_new_Ok `{Clock} n o :
  (exists b, budget_new n (Some o) = Ok b) <-> options_ok o.
Proof.
  unfold budget_new, options_ok. destruct (_ =? _) eqn:Hs; cbn [negb].
  2: { apply Z.eqb_neq in Hs. split; [by intros [b Hb]|by intros [? _]]. }
  apply Z.eqb_eq in Hs. split.
  - intros [b Hb]. inv_result.
    repeat match goal with Hl : budget_limit _ _ = Ok _ |- _ => apply budget_limit_Ok in Hl as [Hl _] end.
    by split_and!.
  - intros (_ & H1 & H2 & H3 & H4 & H5 & H6 & H7 & H8).
    rewrite !budget_limit_ok by done. cbn. eauto.
Qed.

(** A new budget is within its limits, and its limits are within the defaults. *)
Theorem budget_new_ok `{Clock} n options b (Hn : budget_new n options = Ok b) :
  budget_ok b /\ eb_accounted b = 0 /\ 0 < eb_memory b <= 67108864 /\ 0 < eb_rows b <= 10000 /\
  0 < eb_bytes b <= 33554432 /\ 0 < eb_elapsed b <= ms 5000 /\ eb_started b = instant n.
Proof.
  assert (forall value d x, 0 < d -> budget_limit value d = Ok x -> 0 < x <= d) as Hl.
  { intros value d x Hd [Hv ->]%budget_limit_Ok. destruct value; cbn in *; lia. }
  destruct options as [o|]; cbn [budget_new] in Hn.
  2: { injection Hn as <-. unfold ms. split; [split; cbn; lia|]. cbn. split_and!; try done; lia. }
  destruct (negb _); [done|]. inv_result. subst b.
  repeat match goal with
  | Hb : budget_limit _ _ = Ok _ |- _ => apply Hl in Hb; [|lia] end.
  unfold ms. split; [split; cbn; lia|]. cbn. split_and!; try done; lia.
Qed.

(** ** Byte counts *)

Lemma zstr_nonneg s : 0 <= zstr s.
Proof. unfold zstr. lia. Qed.
Lemma ref_len_nonneg r : 0 <= ref_len r.
Proof. unfold ref_len. pose proof zstr_nonneg. repeat apply Z.add_nonneg_nonneg; auto. Qed.
Lemma sum_sat_nonneg l acc : 0 <= acc -> Forall (fun n => 0 <= n) l -> 0 <= sum_sat acc l.
Proof.
  intros Ha Hl. revert acc Ha. induction Hl as [|n l Hn _ IH]; intros acc Ha; cbn; [done|].
  apply IH. by apply u64_saturating_add_nonneg.
Qed.
Lemma sum_sat_le l acc : acc <= u64_max -> sum_sat acc l <= u64_max.
Proof.
  revert acc; induction l as [|n l IH]; intros acc Ha; cbn; [done|].
  apply IH, u64_saturating_add_le.
Qed.
Lemma zsum_rev l : zsum (rev l) = zsum l.
Proof. induction l; cbn; [done|]. rewrite zsum_app. cbn. lia. Qed.
(** Saturating a sum term by term is saturating the sum. *)
Lemma sat_min a b : 0 <= b -> Z.min a u64_max +sat b = Z.min (a + b) u64_max.
Proof. unfold u64_saturating_add. lia. Qed.
Lemma sum_sat_eq l a : Forall (fun n => 0 <= n) l ->
  sum_sat (Z.min a u64_max) l = Z.min (a + zsum l) u64_max.
Proof.
  intros Hl. revert a. induction Hl as [|n l Hn _ IH]; intros a; cbn.
  - f_equal. lia.
  - rewrite sat_min by done. rewrite IH. f_equal. lia.
Qed.

(** What a JSON value is charged: 32 bytes a value, and the text of its strings and keys. *)
Fixpoint json_weight (j : json) : Z :=
  32 + match j with
       | JString s => zstr s
       | JArray l => zsum (map json_weight l)
       | JObject m => zsum (map (fun kv => zstr kv.1 + json_weight kv.2) m)
       | _ => 0
       end.
Lemma json_weight_nonneg j : 0 <= json_weight j.
Proof.
  induction j as [| | |s|l IH|m IH] using json_ind'; cbn [json_weight]; try lia.
  - pose proof (zstr_nonneg s). lia.
  - assert (0 <= zsum (map json_weight l)); [|lia]. apply zsum_nonneg, Forall_map.
    eapply Forall_impl; [exact IH|]. done.
  - assert (0 <= zsum (map (fun kv => zstr kv.1 + json_weight kv.2) m)); [|lia].
    apply zsum_nonneg, Forall_map. eapply Forall_impl; [exact IH|].
    intros [k v] Hv. cbn in *. pose proof (zstr_nonneg k). lia.
Qed.
Lemma json_weights_nonneg l : Forall (fun n => 0 <= n) (map json_weight l).
Proof. apply Forall_map, Forall_true. intros j. apply json_weight_nonneg. Qed.
Lemma list_sum_rev (l : list nat) : list_sum (rev l) = list_sum l.
Proof.
  induction l as [|n l IH]; [done|]. cbn [rev]. rewrite list_sum_app, IH. unfold list_sum. cbn. lia.
Qed.

(** The loop over the stack [pending] adds up the weights of everything on it. *)
Definition pending_nodes (l : list json) : nat := list_sum (map json_nodes l).
Lemma json_bytes_loop_spec fuel pending a :
  (pending_nodes pending <= fuel)%nat -> 0 <= a ->
  json_bytes_loop fuel pending (Z.min a u64_max)
  = Z.min (a + zsum (map json_weight pending)) u64_max.
Proof.
  revert pending a. induction fuel as [|fuel IH]; intros pending a Hf Ha;
    destruct pending as [|v l]; cbn [json_bytes_loop map zsum foldr]; try (by rewrite Z.add_0_r).
  { unfold pending_nodes in Hf. destruct v; cbn in Hf; lia. }
  rewrite sat_min by lia.
  assert (forall k b, 0 <= b -> (pending_nodes (rev k ++ l) <= fuel)%nat ->
    json_bytes_loop fuel (rev k ++ l) (Z.min (a + 32 + b) u64_max)
    = Z.min (a + (32 + (b + zsum (map json_weight k)) + zsum (map json_weight l))) u64_max) as Hk.
  { intros k b Hb Hn. rewrite IH by (done || lia).
    rewrite map_app, map_rev, zsum_app, zsum_rev. f_equal. lia. }
  unfold pending_nodes in *. cbn [map] in Hf. unfold list_sum in Hf. cbn [foldr] in Hf.
  fold (list_sum (map json_nodes l)) in Hf.
  destruct v as [| | |s|k|m]; cbn [json_weight json_nodes] in *.
  1-3: replace (a + 32) with (a + 32 + 0) by lia; etransitivity;
    [apply (Hk [] 0); cbn [rev app]; lia | f_equal; cbn [map zsum foldr]; lia].
  - rewrite sat_min by apply zstr_nonneg. pose proof (zstr_nonneg s).
    etransitivity; [apply (Hk [] (zstr s)); cbn [rev app]; lia | f_equal; cbn [map zsum foldr]; lia].
  - replace (a + 32) with (a + 32 + 0) by lia. rewrite Hk; [f_equal; lia|lia|].
    rewrite map_app, list_sum_app, map_rev, list_sum_rev. lia.
  - rewrite sum_sat_eq by (apply Forall_map, Forall_true; intros [? ?]; apply zstr_nonneg).
    rewrite Hk.
    + rewrite map_map. do 4 f_equal. clear.
      induction m as [|kv m IHm]; cbn; [done|]. rewrite <- IHm. cbn. lia.
    + apply zsum_nonneg, Forall_map, Forall_true. intros [? ?]. apply zstr_nonneg.
    + rewrite map_app, list_sum_app, map_rev, list_sum_rev, map_map. lia.
Qed.

Lemma json_value_bytes_min value : json_value_bytes value = Z.min (json_weight value) u64_max.
Proof.
  unfold json_value_bytes. pose proof (json_bytes_loop_spec (json_nodes value) [value] 0) as H.
  cbn [map zsum foldr] in H. rewrite Z.add_0_r in H. apply H; [|lia].
  unfold pending_nodes, list_sum. cbn. lia.
Qed.

(** The charge of a JSON value does not depend on the order in which the stack visits
    it, and saturates instead of wrapping around. *)
Theorem json_value_bytes_eq value : json_value_bytes value = Z.min (json_weight value) u64_max.
Proof. apply json_value_bytes_min. Qed.

Lemma json_value_bytes_nonneg j : 0 <= json_value_bytes j.
Proof. rewrite json_value_bytes_min. pose proof (json_weight_nonneg j). unfold u64_max. lia. Qed.

Section Nonneg.
Context `{Layout}.

Lemma zsum_map_nonneg {A} (f : A -> Z) l : (forall a, 0 <= f a) -> 0 <= zsum (map f l).
Proof. intros Hf. by apply zsum_nonneg, Forall_map, Forall_true. Qed.
Lemma evidence_len_nonneg e : 0 <= evidence_len e.
Proof. unfold evidence_len. pose proof zstr_nonneg. repeat apply Z.add_nonneg_nonneg; auto. Qed.

(** Every value is charged at least its own size, and the charge fits a [u64]. *)
Fixpoint value_bytes_bounds v : 0 < value_bytes v <= u64_max.
Proof.
  pose proof size_of_bounds as (Hs & _ & Hr).
  assert (forall h, 0 <= h -> 0 < u64_saturating_add size_of_value h <= u64_max) as Hsat
    by (unfold u64_saturating_add; lia).
  pose proof zstr_nonneg. pose proof ref_len_nonneg.
  destruct v as [| | | | |s|j|r|h|c|p|w|s|c|l]; cbn [value_bytes]; apply Hsat; auto;
    repeat apply Z.add_nonneg_nonneg; auto; try reflexivity.
  - apply json_value_bytes_nonneg.
  - destruct (hr_valid_to h); auto. done.
  - apply zsum_map_nonneg. intros r. specialize (H1 r). lia.
  - apply zsum_map_nonneg. intros f. pose proof (evidence_len_nonneg (cf_evidence f)).
    repeat apply Z.add_nonneg_nonneg; auto.
  - apply zsum_map_nonneg, evidence_len_nonneg.
  - apply sum_sat_nonneg; [done|]. induction l as [|v l IH]; constructor; [|exact IH].
    pose proof (value_bytes_bounds v). lia.
Qed.
Lemma value_bytes_nonneg v : 0 <= value_bytes v.
Proof. pose proof (value_bytes_bounds v). lia. Qed.
Lemma row_bytes_nonneg row : 0 <= row_bytes row.
Proof.
  unfold row_bytes. pose proof size_of_bounds. apply u64_saturating_add_nonneg; [lia|].
  apply sum_sat_nonneg; [done|]. apply Forall_map, Forall_true, value_bytes_nonneg.
Qed.
Lemma entity_value_bytes_eq r : entity_value_bytes r = value_bytes (VEntity r).
Proof. reflexivity. Qed.
Lemma size_of_row_nonneg : 0 <= size_of_row.
Proof. pose proof size_of_bounds. lia. Qed.

Context `{Clock}.
Lemma moves_clone_value v : moves budget_le (clone_value v).
Proof. unfold clone_value. pose proof (value_bytes_nonneg v). moves_auto. Qed.
Lemma moves_push_clone out row : moves budget_le (push_clone out row).
Proof.
  unfold push_clone. pose proof (row_bytes_nonneg row). pose proof size_of_row_nonneg.
  assert (0 <= row_bytes row +sat size_of_row) by auto with genesis. moves_auto.
Qed.
Lemma moves_push_with_value out row v : moves budget_le (push_with_value out row v).
Proof.
  unfold push_with_value. pose proof (row_bytes_nonneg row). pose proof size_of_row_nonneg.
  pose proof (value_bytes_nonneg v).
  assert (0 <= row_bytes row +sat value_bytes v +sat size_of_row) by auto with genesis.
  moves_auto.
Qed.
End Nonneg.
#[export] Hint Resolve moves_clone_value moves_push_clone moves_push_with_value : moves.
#[export] Hint Resolve value_bytes_nonneg row_bytes_nonneg zstr_nonneg ref_len_nonneg
  size_of_row_nonneg json_value_bytes_nonneg : genesis.

(** Proves that a charge is not negative. *)
Ltac nonneg :=
  repeat first
    [ assumption | apply u64_saturating_add_nonneg | apply u64_saturating_mul_nonneg
    | apply zstr_nonneg | apply ref_len_nonneg | apply value_bytes_nonneg
    | apply row_bytes_nonneg | apply size_of_row_nonneg | apply json_value_bytes_nonneg
    | apply zlen_nonneg
    | match goal with H : Layout |- _ => pose proof size_of_bounds; pose proof size_of_others end; lia
    | lia ].

Definition lowered_options : QueryBudgetV2 := {|
  qb_max_memory_bytes := Some 4096; qb_max_spill_bytes := Some 0; qb_max_elapsed_ms := Some 10;
  qb_max_expanded_nodes := None; qb_max_expanded_edges := None; qb_max_vector_candidates := None;
  qb_max_distance_evaluations := None; qb_max_result_rows := Some 5; qb_max_result_bytes := None |}.
Definition zero_clock : Clock := {| instant _ := 0 |}.
Definition lowered_budget : ExecutionBudgetV2 :=
  default (default_budget 0 0) (result_ok (@budget_new zero_clock 3 (Some lowered_options))).
Lemma budget_new_ok_witness : budget_ok lowered_budget /\ eb_accounted lowered_budget = 0.
Proof.
  destruct (@budget_new_ok zero_clock 3 (Some lowered_options) lowered_budget) as (Hok & Ha & _);
    [reflexivity|]. split; [exact Hok|exact Ha].
Defined.
