(* ===== verification/PostOrder.v ===== *)
(** * Expression walks with an explicit stack

    The binder ([bind_expr]) and the evaluator ([eval]) walk an expression tree without
    recursion: a stack of (node, depth, visited) entries and a map [ready] from a
    node's address to its result. The walk is modelled once, with the node's position
    in the tree standing for its address, and proved equal to the recursive evaluation
    of the tree from the leaves to the root, left to right. *)
From S2P Require Export Monad.

Notation path := (list nat).

Section Machine.
Context {T V S E : Type}.
(** The operands of a node in the order in which they are evaluated. *)
Variable children : T -> list T.
(** The error of a missing result. *)
Variable missing : E.
(** What is done for every entry popped, and when a node is first met. *)
Variable tick : nat -> SM S E unit.
Variable pre : T -> SM S E unit.

Notation ready := (gmap path V).
Notation entry := (path * T * nat * bool)%type.

(** [ready.remove(&address).ok_or(..)] *)
Definition take_ready (p : path) : SM (S * ready) E V := fun '(s, r) =>
  match r !! p with Some v => Ok (v, (s, delete p r)) | None => Err missing end.
Definition on_state {A} (m : SM S E A) : SM (S * ready) E A := fun '(s, r) =>
  match m s with Ok (a, s') => Ok (a, (s', r)) | Err e => Err e end.

(** [ready.insert(address, value)] *)
Definition store (p : path) (v : V) : SM (S * ready) E unit := fun '(s, r) =>
  Ok (tt, (s, <[p := v]> r)).

Variable node : path -> T -> SM (S * ready) E V.

Fixpoint entries (p : path) (d i : nat) (ts : list T) : list entry :=
  match ts with
  | [] => []
  | t :: ts' => (p ++ [i], t, Datatypes.S d, false) :: entries p d (Datatypes.S i) ts'
  end.

(** [while let Some((current, depth, visited)) = stack.pop()] *)
Fixpoint walk (fuel : nat) (stack : list entry) : SM (S * ready) E unit :=
  match fuel with
  | O => mret tt
  | Datatypes.S fuel =>
      match stack with
      | [] => mret tt
      | (p, t, d, visited) :: stack' =>
          on_state (tick d) ;;
          if visited : bool then
            v ← node p t;
            store p v ;;
            walk fuel stack'
          else
            on_state (pre t) ;;
            walk fuel (entries p d 0 (children t) ++ (p, t, d, true) :: stack')
      end
  end.

Definition post_order (fuel : nat) (t : T) (d : nat) : SM S E V := fun s =>
  match walk fuel [([], t, d, false)] (s, ∅) with
  | Ok (_, (s', r)) => match r !! [] with Some v => Ok (v, s') | None => Err missing end
  | Err e => Err e
  end.

(** ** The recursive evaluation *)

Variable size : T -> nat.
Hypothesis size_eq : forall t, size t = Datatypes.S (list_sum (map size (children t))).
Variable rec_node : T -> list V -> SM S E V.
Variable rec : nat -> T -> SM S E V.
Hypothesis rec_eq : forall d t s,
  rec d t s =
  (tick d ;; pre t ;; vs ← mtraverse (rec (Datatypes.S d)) (children t); tick d ;; rec_node t vs) s.

Fixpoint insert_children (p : path) (i : nat) (vs : list V) (r : ready) : ready :=
  match vs with
  | [] => r
  | v :: vs' => insert_children p (Datatypes.S i) vs' (<[p ++ [i] := v]> r)
  end.

(** A node's step takes the results of exactly its operands. *)
Hypothesis node_spec : forall p t vs r s,
  length vs = length (children t) -> (forall q, p `prefix_of` q -> r !! q = None) ->
  node p t (s, insert_children p 0 vs r) =
  match rec_node t vs s with Ok (v, s') => Ok (v, (s', r)) | Err e => Err e end.

Definition fresh (p : path) (r : ready) : Prop := forall q, p `prefix_of` q -> r !! q = None.

Lemma fresh_child p i r : fresh p r -> fresh (p ++ [i]) r.
Proof. intros H q Hq. apply H. etransitivity; [|exact Hq]. by exists [i]. Qed.
Lemma fresh_insert_sibling p i j v r : i <> j -> fresh (p ++ [j]) r ->
  fresh (p ++ [j]) (<[p ++ [i] := v]> r).
Proof.
  intros Hij H q [k ->]. rewrite lookup_insert_ne; [apply H; by exists k|].
  rewrite <- (assoc app). intros Heq%app_inv_head. cbn in Heq. congruence.
Qed.

Definition walks (t : T) : Prop := forall p d n stk r s, fresh p r ->
  walk (2 * size t + n) ((p, t, d, false) :: stk) (s, r) =
  match rec d t s with
  | Ok (v, s') => walk n stk (s', <[p := v]> r)
  | Err e => Err e
  end.

Lemma walk_entries ts : Forall walks ts -> forall p d i n stk r s,
  (forall j, i <= j -> fresh (p ++ [j]) r) ->
  walk (2 * list_sum (map size ts) + n) (entries p d i ts ++ stk) (s, r) =
  match mtraverse (rec (Datatypes.S d)) ts s with
  | Ok (vs, s') => walk n stk (s', insert_children p i vs r)
  | Err e => Err e
  end.
Proof.
  induction 1 as [|t ts Ht _ IH]; intros p d i n stk r s Hr; [done|].
  cbn [map entries app]. change (list_sum (size t :: map size ts)) with (size t + list_sum (map size ts)).
  replace (2 * (size t + list_sum (map size ts)) + n)
    with (2 * size t + (2 * list_sum (map size ts) + n)) by lia.
  rewrite Ht by (apply Hr; lia). rewrite mtraverse_cons.
  destruct (rec (Datatypes.S d) t s) as [[v s']|e]; [|done].
  rewrite IH.
  - by destruct (mtraverse (rec (Datatypes.S d)) ts s') as [[vs s'']|e].
  - intros j Hj. apply fresh_insert_sibling; [lia|]. apply Hr. lia.
Qed.

Lemma walk_visited p t d n stk s r :
  walk (Datatypes.S n) ((p, t, d, true) :: stk) (s, r) =
  match tick d s with
  | Ok (_, s') =>
      match node p t (s', r) with
      | Ok (v, (s'', r')) => walk n stk (s'', <[p := v]> r')
      | Err e => Err e
      end
  | Err e => Err e
  end.
Proof.
  cbn [walk]. rewrite sm_bind_eq. cbn [on_state]. destruct (tick d s) as [[[] s']|e]; [|done].
  rewrite sm_bind_eq. destruct (node p t (s', r)) as [[v [s'' r']]|e]; done.
Qed.
Lemma walk_fresh p t d n stk s r :
  walk (Datatypes.S n) ((p, t, d, false) :: stk) (s, r) =
  match tick d s with
  | Ok (_, s') =>
      match pre t s' with
      | Ok (_, s'') => walk n (entries p d 0 (children t) ++ (p, t, d, true) :: stk) (s'', r)
      | Err e => Err e
      end
  | Err e => Err e
  end.
Proof.
  cbn [walk]. rewrite sm_bind_eq. cbn [on_state]. destruct (tick d s) as [[[] s']|e]; [|done].
  rewrite sm_bind_eq. cbn [on_state]. destruct (pre t s') as [[[] s'']|e]; done.
Qed.

Lemma walks_all t : walks t.
Proof.
  induction t as [t IH] using (Nat.measure_induction _ size).
  assert (Forall walks (children t)) as Hc.
  { apply Forall_forall. intros c Hin. apply IH. rewrite (size_eq t).
    apply list_elem_of_In in Hin. clear IH. revert Hin. generalize (children t).
    induction l as [|a l IHl]; [done|]. unfold list_sum in *. cbn. intros [->|H]; [lia|].
    specialize (IHl H). lia. }
  intros p d n stk r s Hr. rewrite (size_eq t).
  replace (2 * Datatypes.S (list_sum (map size (children t))) + n)
    with (Datatypes.S (2 * list_sum (map size (children t)) + Datatypes.S n)) by lia.
  rewrite walk_fresh, rec_eq, sm_bind_eq. destruct (tick d s) as [[[] s1]|e]; [|done].
  rewrite sm_bind_eq. destruct (pre t s1) as [[[] s2]|e]; [|done].
  rewrite (walk_entries _ Hc) by (intros j _; by apply fresh_child).
  rewrite sm_bind_eq.
  destruct (mtraverse (rec (Datatypes.S d)) (children t) s2) as [[vs s3]|e] eqn:Hm; [|done].
  rewrite walk_visited, sm_bind_eq. destruct (tick d s3) as [[[] s4]|e]; [|done].
  rewrite node_spec; [|by eapply mtraverse_length|exact Hr].
  by destruct (rec_node t vs s4) as [[v s5]|e].
Qed.

(** Enough fuel for two visits of every node, and the walk is the recursive evaluation. *)
Lemma post_order_rec fuel t d s : 2 * size t <= fuel -> post_order fuel t d s = rec d t s.
Proof.
  intros Hf. unfold post_order. replace fuel with (2 * size t + (fuel - 2 * size t)) by lia.
  rewrite walks_all by (intros q _; apply lookup_empty).
  destruct (rec d t s) as [[v s']|e]; [|done].
  assert (forall n, walk n [] (s', <[[] := v]> ∅) = Ok (tt, (s', <[[] := v]> ∅))) as -> by (by intros []).
  by rewrite lookup_insert_eq.
Qed.

(** ** Taking the operands *)

Lemma insert_children_None p i vs r q :
  (forall j, i <= j -> q <> p ++ [j]) -> insert_children p i vs r !! q = r !! q.
Proof.
  revert i r; induction vs as [|v vs IH]; intros i r Hq; [done|]. cbn [insert_children].
  rewrite IH by (intros j Hj; apply Hq; lia). apply lookup_insert_ne. intros Heq.
  by apply (Hq i).
Qed.
Lemma delete_insert_children p j i vs r :
  j < i -> delete (p ++ [j]) (insert_children p i vs r)
  = insert_children p i vs (delete (p ++ [j]) r).
Proof.
  revert i r; induction vs as [|v vs IH]; intros i r Hj; [done|]. cbn [insert_children].
  rewrite IH by lia. f_equal. apply delete_insert_ne. intros Heq%app_inv_head. injection Heq. lia.
Qed.

(** The operand at hand is taken, and the rest of the operands stay. *)
Lemma take_child p i v vs r s : fresh p r ->
  take_ready (p ++ [i]) (s, insert_children p i (v :: vs) r)
  = Ok (v, (s, insert_children p (Datatypes.S i) vs r)).
Proof.
  intros Hr. unfold take_ready. cbn [insert_children].
  rewrite insert_children_None.
  - rewrite lookup_insert_eq, delete_insert_children by lia.
    rewrite delete_insert_id; [done|]. apply Hr. by exists [i].
  - intros j Hj Heq%app_inv_head. injection Heq. lia.
Qed.
(** [values.iter().map(take).collect()] *)
Lemma take_children p i vs r s : fresh p r ->
  mtraverse (fun j => take_ready (p ++ [j])) (seq i (length vs)) (s, insert_children p i vs r)
  = Ok (vs, (s, r)).
Proof.
  revert i; induction vs as [|v vs IH]; intros i Hr; [done|].
  cbn [length seq]. by rewrite mtraverse_cons, take_child, IH.
Qed.
Lemma on_state_eq {A} (m : SM S E A) s r :
  on_state m (s, r) = match m s with Ok (a, s') => Ok (a, (s', r)) | Err e => Err e end.
Proof. reflexivity. Qed.
End Machine.
