(* ===== verification/Source.v ===== *)
(** * Source identities, hydrated properties and the graph snapshot

    [src/src/query/hql2/source.rs]: cursors bound to their lease, the typed property
    batches a source returns with their validation, the store of hydrated values the
    evaluator reads, and the graph the expansion kernels walk. *)
From S2P Require Export Budget.
Local Open Scope Z_scope.

Inductive BoundSourceV2 :=
| SrcNode (label : option string)
| SrcEdge (relation : option string)
| SrcRow (table : string)
| SrcAnnotation
| SrcHistory (kind : RecordKindV2) (id : string)
| SrcChanges (after_seq : Z).
#[export] Instance bound_source_eq_dec : EqDecision BoundSourceV2.
Proof. solve_decision. Defined.

Definition source_kind_name (s : BoundSourceV2) : string :=
  match s with
  | SrcNode _ => "node" | SrcEdge _ => "edge" | SrcRow _ => "row"
  | SrcAnnotation => "annotation" | SrcHistory _ _ => "history" | SrcChanges _ => "change"
  end.
Definition source_record_kind (s : BoundSourceV2) : option RecordKindV2 :=
  match s with
  | SrcNode _ => Some Node | SrcEdge _ => Some Edge | SrcRow _ => Some Row
  | SrcAnnotation => Some Annotation | SrcHistory kind _ => Some kind | SrcChanges _ => None
  end.

Record SourceKeyV2 := {
  sk_source : BoundSourceV2;
  sk_owner_token : string;
  sk_generation_id : Z;
  sk_wal_frontier : Z;
  sk_acl_revision : Z;
  sk_fencing_epoch : Z;
  sk_valid_at : string;
  sk_principal : string;
  sk_namespace : string;
  sk_record : RecordRefV2;
}.

Definition source_key_validate (k : SourceKeyV2) (source : BoundSourceV2) (owner_token : string)
  (generation_id wal_frontier acl_revision fencing_epoch : Z)
  (valid_at principal namespace database_id : string) : option RecordRefV2 :=
  if bool_decide (sk_source k = source)
     && bool_decide (sk_owner_token k = owner_token)
     && (sk_generation_id k =? generation_id)
     && (sk_wal_frontier k =? wal_frontier)
     && (sk_acl_revision k =? acl_revision)
     && (sk_fencing_epoch k =? fencing_epoch)
     && bool_decide (sk_valid_at k = valid_at)
     && bool_decide (sk_principal k = principal)
     && bool_decide (sk_namespace k = namespace)
     && bool_decide (rr_database_id (sk_record k) = database_id)
     && bool_decide (rr_namespace (sk_record k) = namespace)
     && bool_decide (source_record_kind source = Some (rr_kind (sk_record k)))
  then Some (sk_record k) else None.

Record SourceBatchV2 := {
  sb_records : list RecordRefV2;
  sb_next : option SourceKeyV2;
  sb_examined : Z;
}.
Record VectorBatchV2 := { vb_entries : list (option VectorValueV2) }.
Record GraphEdgeV2 := {
  ge_edge : RecordRefV2;
  ge_source : RecordRefV2;
  ge_target : RecordRefV2;
  ge_relation : string;
}.
Record GraphSnapshotV2 := {
  gs_nodes : list (string * RecordRefV2);
  gs_node_labels : list (string * list string);
  gs_edges : list GraphEdgeV2;
}.

(** ** Property slots *)

Record FieldIdV2 := {
  fi_index : Z;
  fi_name : option string;
  fi_has_property : bool;
}.
#[export] Instance field_id_eq_dec : EqDecision FieldIdV2.
Proof. solve_decision. Defined.
Definition field_new (index : Z) (has_property : bool) : FieldIdV2 :=
  {| fi_index := index; fi_name := None; fi_has_property := has_property |}.
Definition with_name (f : FieldIdV2) (name : string) : FieldIdV2 :=
  {| fi_index := fi_index f; fi_name := Some name; fi_has_property := fi_has_property f |}.

Record ColumnV2 := { cl_name : string; cl_data_type : string; cl_nullable : bool }.
#[export] Instance column_v2_eq_dec : EqDecision ColumnV2.
Proof. solve_decision. Defined.
Definition field_column (f : FieldIdV2) : ColumnV2 := {|
  cl_name := "__hql2_field_" +:+ to_string (fi_index f);
  cl_data_type := if fi_has_property f then "Bool" else "Nullable<Json>";
  cl_nullable := negb (fi_has_property f);
|}.
Definition field_accepts (f : FieldIdV2) (value : QueryValueV2) : bool :=
  if fi_has_property f then match value with VBool _ => true | _ => false end
  else match value with VNull | VJson _ => true | _ => false end.

(** ** Hydration batches *)

Inductive StableRowKeyV2 := RowKeyRecord (r : RecordRefV2).
#[export] Instance stable_row_key_eq_dec : EqDecision StableRowKeyV2.
Proof. solve_decision. Defined.
Record ExecBatchV2 := {
  ba_columns : list ColumnV2;
  ba_rows : list (list QueryValueV2);
  ba_row_keys : list StableRowKeyV2;
}.

Definition corruption : QueryErrorV2 :=
  query_error "DATA_CORRUPTION" "execute" "hydration_alignment".

(** The check of the columns: [ids] are the indices of the fields already seen. *)
Fixpoint fields_misaligned (columns : list ColumnV2) (ids : list Z) (fields : list FieldIdV2)
  : bool :=
  match fields with
  | [] => false
  | field :: fields' =>
      negb (is_Some_b (fi_name field))
      || bool_decide (fi_index field ∈ ids)
      || negb (bool_decide (columns !! length ids = Some (field_column field)))
      || fields_misaligned columns (fi_index field :: ids) fields'
  end.
Fixpoint zip3 {A B C} (l : list A) (k : list B) (m : list C) : list (A * B * C) :=
  match l, k, m with
  | a :: l', b :: k', c :: m' => (a, b, c) :: zip3 l' k' m'
  | _, _, _ => []
  end.
Definition row_misaligned (fields : list FieldIdV2)
  (rkr : list QueryValueV2 * StableRowKeyV2 * RecordRefV2) : bool :=
  let '(row, key, record) := rkr in
  negb (zlen row =? zlen fields)
  || negb (bool_decide (key = RowKeyRecord record))
  || existsb (fun vf => negb (field_accepts vf.2 vf.1)) (zip row fields).

Definition batch_validate (b : ExecBatchV2) (records : list RecordRefV2)
  (fields : list FieldIdV2) : query unit :=
  if negb (zlen (ba_columns b) =? zlen fields)
     || negb (zlen (ba_rows b) =? zlen records)
     || negb (zlen (ba_row_keys b) =? zlen records)
     || fields_misaligned (ba_columns b) [] fields
  then Err corruption
  else if existsb (row_misaligned fields) (zip3 (ba_rows b) (ba_row_keys b) records)
       then Err corruption else Ok tt.

(** [RecordKeyV2]: database, namespace, kind, id, revision *)
Definition RecordKeyV2 : Type := string * string * string * string * string.
Definition record_key (record : RecordRefV2) : RecordKeyV2 :=
  (rr_database_id record, rr_namespace record, record_kind_name (rr_kind record),
   rr_id record, rr_revision record).

Notation hydrated_key := (RecordKeyV2 * Z * string)%type (only parsing).
Definition HydratedValuesV2 : Type := gmap hydrated_key QueryValueV2.

Definition hydrated_get (h : HydratedValuesV2) (record : RecordRefV2) (field : FieldIdV2)
  (name : string) : option QueryValueV2 := h !! (record_key record, fi_index field, name).

(** One cell of the batch; a second value for a cell is corruption. *)
Definition add_cell (record : RecordRefV2) (h : HydratedValuesV2)
  (cell : QueryValueV2 * FieldIdV2) : query HydratedValuesV2 :=
  let '(value, field) := cell in
  name ← ok_or (fi_name field) corruption;
  let key := (record_key record, fi_index field, name) in
  match h !! key with
  | Some _ => Err corruption
  | None => Ok (<[key := value]> h)
  end.
Definition add_row (fields : list FieldIdV2) (h : HydratedValuesV2)
  (rkr : list QueryValueV2 * StableRowKeyV2 * RecordRefV2) : query HydratedValuesV2 :=
  let '(row, RowKeyRecord key_record, record) := rkr in
  if negb (bool_decide (key_record = record)) then Err corruption
  else try_for (add_cell record) h (zip row fields).
Definition add_batch (h : HydratedValuesV2) (records : list RecordRefV2)
  (fields : list FieldIdV2) (batch : ExecBatchV2) : query HydratedValuesV2 :=
  batch_validate batch records fields ;;
  try_for (add_row fields) h (zip3 (ba_rows batch) (ba_row_keys batch) records).

(** ** Identities *)

Lemma record_kind_name_inj : Inj (=) (=) record_kind_name.
Proof. by intros [] []. Qed.
Lemma record_key_inj r s : record_key r = record_key s -> r = s.
Proof.
  unfold record_key. destruct r, s; cbn. intros [= -> -> Hk -> ->].
  by apply record_kind_name_inj in Hk as ->.
Qed.

(** A cursor is good for one lease and one source only: a key that validates twice
    was presented twice with the same source, lease, access list, time, principal
    and namespace; and the record it resumes after is one of that source. *)
Theorem source_key_validate_unique k src tok gen wal acl ep at_ pr ns db
  src' tok' gen' wal' acl' ep' at' pr' ns' db' r r'
  (H : source_key_validate k src tok gen wal acl ep at_ pr ns db = Some r)
  (H' : source_key_validate k src' tok' gen' wal' acl' ep' at' pr' ns' db' = Some r') :
  (src', tok', gen', wal', acl', ep', at', pr', ns', db', r')
  = (src, tok, gen, wal, acl, ep, at_, pr, ns, db, r) /\
  rr_database_id r = db /\ rr_namespace r = ns /\ source_record_kind src = Some (rr_kind r).
Proof.
  unfold source_key_validate in *.
  destruct (_ && _) eqn:Hk in H; [|done]. destruct (_ && _) eqn:Hk' in H'; [|done].
  rewrite !andb_true_iff, !bool_decide_eq_true, !Z.eqb_eq in *.
  injection H as <-. injection H' as <-. split_and_hyps. split_and!; congruence.
Qed.

Definition sample_node (id : string) : RecordRefV2 := {|
  rr_database_id := "d"; rr_namespace := "default"; rr_kind := Node; rr_id := id;
  rr_revision := "r1" |}.
Definition sample_key : SourceKeyV2 := {|
  sk_source := SrcNode None; sk_owner_token := "t"; sk_generation_id := 1;
  sk_wal_frontier := 2; sk_acl_revision := 3; sk_fencing_epoch := 4; sk_valid_at := "now";
  sk_principal := "p"; sk_namespace := "default"; sk_record := sample_node "a" |}.
Lemma source_key_validate_unique_witness :
  let validate := source_key_validate sample_key (SrcNode None) "t" 1 2 3 4 "now" "p" "default" "d" in
  validate = Some (sample_node "a") /\ rr_namespace (sample_node "a") = "default"%string.
Proof.
  split; [reflexivity|].
  refine (proj1 (proj2 (proj2 (source_key_validate_unique sample_key
    (SrcNode None) "t" 1 2 3 4 "now" "p" "default" "d"
    (SrcNode None) "t" 1 2 3 4 "now" "p" "default" "d"
    (sample_node "a") (sample_node "a") _ _)))); reflexivity.
Defined.

(** ** What a batch adds *)

(** The cell of a value, and the cells of a row and of a batch. *)
Definition cell_key (record : RecordRefV2) (field : FieldIdV2) (name : string)
  : hydrated_key := (record_key record, fi_index field, name).
Definition holds (h : HydratedValuesV2) (record : RecordRefV2) (vf : QueryValueV2 * FieldIdV2)
  : Prop := exists name, fi_name vf.2 = Some name /\ h !! cell_key record vf.2 name = Some vf.1.

Lemma add_cells_spec record cells h h' :
  try_for (add_cell record) h cells = Ok h' ->
  h ⊆ h' /\ Forall (holds h' record) cells /\
  (forall k v, h' !! k = Some v -> h !! k = Some v \/
     exists vf name, vf ∈ cells /\ fi_name vf.2 = Some name /\ k = cell_key record vf.2 name
                     /\ v = vf.1).
Proof.
  revert h; induction cells as [|[v f] cells IH]; intros h.
  - intros [= <-]. split; [done|]. split; [constructor|by left].
  - rewrite try_for_cons. intros (h1 & Hc & Hr)%bind_Ok.
    unfold add_cell in Hc. apply bind_Ok in Hc as (name & Hname%ok_or_Ok & Hc).
    destruct (h !! _) eqn:Hk in Hc; [done|]. apply (inj Ok) in Hc. subst h1.
    apply IH in Hr as (Hsub & Hall & Hex).
    split; [|split].
    + etransitivity; [|exact Hsub]. by apply insert_subseteq.
    + constructor; [|done]. exists name. split; [done|].
      eapply lookup_weaken; [|exact Hsub]. apply lookup_insert_eq.
    + intros k w Hw. apply Hex in Hw as [Hw|(vf & n & Hin & Hn & -> & ->)].
      * apply lookup_insert_Some in Hw as [[<- <-]|[_ Hw]]; [|by left].
        right. exists (v, f), name. split_and!; try done. by left.
      * right. exists vf, n. split_and!; try done. by right.
Qed.

Lemma row_aligned fields row key record :
  row_misaligned fields (row, key, record) = false ->
  length row = length fields /\ key = RowKeyRecord record /\
  Forall (fun vf => field_accepts vf.2 vf.1 = true) (zip row fields).
Proof.
  unfold row_misaligned. intros ((Hl & Hk)%orb_false_iff & He)%orb_false_iff.
  apply negb_false_iff, Z.eqb_eq in Hl. unfold zlen in Hl. apply negb_false_iff, bool_decide_eq_true in Hk.
  split; [lia|]. split; [done|]. apply Forall_forall. intros vf Hin.
  by apply negb_false_iff, (existsb_In_false _ _ _ He).
Qed.

Lemma batch_validate_Ok b records fields :
  batch_validate b records fields = Ok tt <->
  length (ba_columns b) = length fields /\ length (ba_rows b) = length records /\
  length (ba_row_keys b) = length records /\
  fields_misaligned (ba_columns b) [] fields = false /\
  existsb (row_misaligned fields) (zip3 (ba_rows b) (ba_row_keys b) records) = false.
Proof.
  unfold batch_validate, zlen.
  destruct (_ || _) eqn:H; rewrite ?orb_true_iff, ?orb_false_iff, ?negb_true_iff, ?negb_false_iff,
    ?Z.eqb_eq, ?Z.eqb_neq in H.
  - split; [done|]. intros (? & ? & ? & ? & ?). destruct H as [[[H|H]|H]|H]; try lia. congruence.
  - destruct H as [[[H1 H2] H3] H4]. destruct (existsb _ _) eqn:He.
    + split; [done|]. by intros (_ & _ & _ & _ & ?).
    + split; [intros _; split_and!; try done; lia|done].
Qed.

(** The columns are those of the named fields, one slot each. *)
Lemma fields_aligned columns ids fields :
  fields_misaligned columns ids fields = false ->
  Forall (fun f => is_Some (fi_name f)) fields /\ NoDup (map fi_index fields) /\
  (forall i, i ∈ map fi_index fields -> i ∉ ids) /\
  (forall j f, fields !! j = Some f -> columns !! (length ids + j)%nat = Some (field_column f)).
Proof.
  revert ids; induction fields as [|f fields IH]; intros ids; cbn [fields_misaligned map].
  - intros _. split_and!; [constructor|constructor|by intros i Hi%elem_of_nil|done].
  - rewrite !orb_false_iff, negb_false_iff, bool_decide_eq_false, negb_false_iff,
      bool_decide_eq_true. intros (((Hn & Hi) & Hc) & Hr).
    apply IH in Hr as (Ha & Hd & Hf & Hcol). split_and!.
    + constructor; [|done]. destruct (fi_name f); [by eexists|done].
    + constructor; [|done]. intros Hin. apply (Hf _ Hin). by left.
    + intros i [->|Hin]%elem_of_cons; [done|]. intros Hids. apply (Hf _ Hin). by right.
    + intros [|j] g Hg; cbn in Hg.
      * injection Hg as <-. by rewrite Nat.add_0_r.
      * specialize (Hcol j g Hg). cbn in Hcol. by rewrite Nat.add_succ_r.
Qed.

Lemma add_rows_spec fields cells h h' :
  existsb (row_misaligned fields) cells = false ->
  try_for (add_row fields) h cells = Ok h' ->
  h ⊆ h' /\
  Forall (fun rkr => Forall (holds h' rkr.2) (zip rkr.1.1 fields)) cells /\
  (forall k v, h' !! k = Some v -> h !! k = Some v \/
     exists rkr vf name, rkr ∈ cells /\ vf ∈ zip rkr.1.1 fields /\ fi_name vf.2 = Some name /\
       k = cell_key rkr.2 vf.2 name /\ v = vf.1).
Proof.
  revert h; induction cells as [|[[row [key]] record] cells IH]; intros h.
  - intros _ [= <-]. split; [done|]. split; [constructor|by left].
  - cbn [existsb]. intros (Hm & Hms)%orb_false_iff. apply row_aligned in Hm as (_ & [= ->] & _).
    rewrite try_for_cons. intros (h1 & Hc & Hr)%bind_Ok. unfold add_row in Hc.
    rewrite bool_decide_eq_true_2 in Hc by done. cbn in Hc.
    apply add_cells_spec in Hc as (Hs1 & Ha1 & He1). apply IH in Hr as (Hs2 & Ha2 & He2); [|done].
    split; [by etransitivity|]. split.
    + constructor; [|done]. eapply Forall_impl; [exact Ha1|].
      intros vf (n & Hn & Hv). exists n. split; [done|]. by eapply lookup_weaken.
    + intros k v Hv. apply He2 in Hv as [Hv|(rkr & vf & n & ? & ? & ? & ? & ?)].
      * apply He1 in Hv as [Hv|(vf & n & ? & ? & ? & ?)]; [by left|].
        right. exists (row, RowKeyRecord record, record), vf, n. split_and!; try done. by left.
      * right. exists rkr, vf, n. split_and!; try done. by right.
Qed.

Lemma aligned_rows fields rows keys records rkr :
  existsb (row_misaligned fields) (zip3 rows keys records) = false -> rkr ∈ zip3 rows keys records ->
  Forall (fun vf => field_accepts vf.2 vf.1 = true) (zip rkr.1.1 fields) /\ rkr.2 ∈ records.
Proof.
  intros Hm Hr. destruct rkr as [[row key] record]. cbn. split.
  - eapply row_aligned. eapply existsb_In_false; [exact Hm|exact Hr].
  - clear -Hr. revert rows keys Hr. induction records as [|r rs IH]; intros [|w rows] [|k keys]; cbn;
      try by intros ?%elem_of_nil.
    intros [[= -> -> ->]|Hr]%elem_of_cons; [by left|right; by eapply IH].
Qed.
(** Every value stored was there before, or belongs to a requested record and field, of whose
    type it is. *)
Lemma add_batch_origin h records fields batch h' : add_batch h records fields batch = Ok h' ->
  forall key v, h' !! key = Some v -> h !! key = Some v \/
    exists record f name, record ∈ records /\ f ∈ fields /\ fi_name f = Some name /\
      key = cell_key record f name /\ field_accepts f v = true.
Proof.
  unfold add_batch. intros ([] & Hv & H)%bind_Ok key v Hk.
  apply batch_validate_Ok in Hv as (_ & _ & _ & _ & Hm).
  apply add_rows_spec in H as (_ & _ & Hex); [|done].
  apply Hex in Hk as [Hk|(rkr & vf & n & Hz & Hvf & Hn & -> & ->)]; [by left|right].
  destruct (aligned_rows _ _ _ _ _ Hm Hz) as [Ha Hrec]. exists rkr.2, vf.2, n.
  split_and!; try done; [destruct vf as [w f]; by eapply elem_of_zip_r|].
  by eapply Forall_forall in Ha.
Qed.

(** What hydration promises the evaluator: after a batch is added, the value of every
    requested record and field is the batch's, and it is of the field's type; every
    value stored before is still there, and nothing else was stored. *)
Theorem add_batch_spec h records fields batch h'
  (H : add_batch h records fields batch = Ok h') :
  (forall i j record field row v, records !! i = Some record -> fields !! j = Some field ->
     ba_rows batch !! i = Some row -> row !! j = Some v ->
     exists name, fi_name field = Some name /\ hydrated_get h' record field name = Some v /\
       field_accepts field v = true) /\
  h ⊆ h' /\
  (forall record field name v, hydrated_get h' record field name = Some v ->
     hydrated_get h record field name = Some v \/
     record ∈ records /\ exists f, f ∈ fields /\ fi_index f = fi_index field /\
       fi_name f = Some name /\ field_accepts f v = true).
Proof.
  pose proof (add_batch_origin _ _ _ _ _ H) as Horigin.
  unfold add_batch in H. apply bind_Ok in H as ([] & Hv & H).
  apply batch_validate_Ok in Hv as (_ & Hl1 & Hl2 & _ & Hm).
  assert (forall i record row, records !! i = Some record -> ba_rows batch !! i = Some row ->
    (row, RowKeyRecord record, record) ∈ zip3 (ba_rows batch) (ba_row_keys batch) records) as Hin.
  { clear H Horigin. revert Hm Hl1 Hl2. generalize (ba_rows batch), (ba_row_keys batch).
    induction records as [|r rs IH]; intros rows keys; destruct rows as [|w rows]; try done;
      destruct keys as [|k keys]; try done.
    cbn [zip3 existsb]. intros (Hm & Hms)%orb_false_iff Hl1 Hl2 [|i] record row; cbn.
    - intros [= ->] [= ->]. apply row_aligned in Hm as (_ & -> & _). by left.
    - intros ? ?. right. eapply IH; eauto. }
  apply add_rows_spec in H as (Hsub & Hall & _); [|done]. split_and!; [|done|].
  - intros i j record field row v Hr Hf Hrow Hv.
    pose proof (Hin _ _ _ Hr Hrow) as Hz. rewrite Forall_forall in Hall.
    specialize (Hall _ Hz). destruct (aligned_rows _ _ _ _ _ Hm Hz) as [Ha _]. cbn in Hall, Ha.
    assert ((v, field) ∈ zip row fields) as Hzip
      by (apply list_elem_of_lookup; exists j; by rewrite lookup_zip_Some).
    rewrite Forall_forall in Hall, Ha. destruct (Hall _ Hzip) as (name & Hn & Hk).
    exists name. split_and!; [done|done|by apply (Ha _ Hzip)].
  - intros record field name v Hv.
    apply Horigin in Hv as [Hv|(r & f & n & Hr & Hf & Hn & Hk & Ha)]; [by left|right].
    unfold cell_key in Hk. injection Hk as Hk1 Hk2 Hk3 Hk4 Hk5 Hk6 ->.
    assert (record = r) as -> by (apply record_key_inj; unfold record_key; congruence).
    split; [done|]. by exists f.
Qed.

Definition sample_title : FieldIdV2 := with_name (field_new 0 false) "title".
Definition sample_batch (v : QueryValueV2) : ExecBatchV2 := {|
  ba_columns := [field_column sample_title]; ba_rows := [[v]];
  ba_row_keys := [RowKeyRecord (sample_node "a")] |}.
Definition sample_hydrated : HydratedValuesV2 :=
  {[ cell_key (sample_node "a") sample_title "title" := VJson (JString "t") ]}.
Lemma add_batch_sample :
  add_batch ∅ [sample_node "a"] [sample_title] (sample_batch (VJson (JString "t")))
  = Ok sample_hydrated.
Proof. reflexivity. Qed.
Lemma add_batch_spec_witness :
  ∅ ⊆ sample_hydrated /\
  exists name, fi_name sample_title = Some name /\
    hydrated_get sample_hydrated (sample_node "a") sample_title name = Some (VJson (JString "t")).
Proof.
  destruct (add_batch_spec _ _ _ _ _ add_batch_sample) as (Hcells & Hsub & _).
  split; [exact Hsub|].
  destruct (Hcells 0%nat 0%nat (sample_node "a") sample_title [VJson (JString "t")]
    (VJson (JString "t")) eq_refl eq_refl eq_refl eq_refl) as (name & Hn & Hv & _).
  by exists name.
Defined.
(** A value of another type, or a second value for a cell, is refused. *)
Example add_batch_wrong_type :
  add_batch ∅ [sample_node "a"] [sample_title] (sample_batch (VBool true)) = Err corruption.
Proof. reflexivity. Qed.
Example add_batch_twice :
  add_batch sample_hydrated [sample_node "a"] [sample_title] (sample_batch (VJson (JString "t")))
  = Err corruption.
Proof. reflexivity. Qed.
