(* ===== verification/Wire.v ===== *)
(** * The logical wire language

    [src/src/query/hql2/wire.rs]: expressions, patterns and operator configurations,
    the decoding of expressions with an explicit stack, the checks of a configuration
    and the validation of the operator graph. *)
From S2P Require Export Budget PostOrder Dag.
Local Open Scope Z_scope.

Definition MAX_NODES : Z := 10000.
Definition MAX_DEPTH : Z := 128.

Inductive EntityKind := EkNode | EkEdge | EkRow | EkVector | EkAnnotation | EkArtifact.
Inductive Direction := DirOut | DirIn | DirBoth.
Inductive PathMode := ModeTrail | ModeSimple | ModeWalk.
Inductive KnnMode := KnnExact | KnnApprox.
Inductive Fidelity := FidelityOriginal.
Inductive JoinKind := JoinInner | JoinLeft | JoinSemi | JoinAnti.
Inductive SortDirection := SortAsc | SortDesc.
Inductive NullOrder := NullsFirst | NullsLast.
Inductive SequenceForm := FormSequence.
Inductive BinaryOp :=
| OEq | ONe | OLt | OLe | OGt | OGe | OAnd | OOr | OAdd | OSub | OMul | ODiv | ORem
| OContains | OStartswith.
Inductive UnaryOp := ONot | ONeg | OIsNull | OIsNotNull.
#[export] Instance direction_eq_dec : EqDecision Direction.
Proof. solve_decision. Defined.
#[export] Instance wire_path_mode_eq_dec : EqDecision PathMode.
Proof. solve_decision. Defined.
#[export] Instance join_kind_eq_dec : EqDecision JoinKind.
Proof. solve_decision. Defined.
#[export] Instance sort_direction_eq_dec : EqDecision SortDirection.
Proof. solve_decision. Defined.
#[export] Instance null_order_eq_dec : EqDecision NullOrder.
Proof. solve_decision. Defined.
#[export] Instance binary_op_eq_dec : EqDecision BinaryOp.
Proof. solve_decision. Defined.
#[export] Instance unary_op_eq_dec : EqDecision UnaryOp.
Proof. solve_decision. Defined.

Record FieldRef := { fr_alias : string; fr_path : list string }.

Inductive Expr :=
| ELiteral (literal : json) (ty : string)
| EParam (param : string)
| EField (field : FieldRef)
| EBinary (binary : BinaryOp) (lhs rhs : Expr)
| EUnary (unary : UnaryOp) (arg : Expr)
| ECall (call : string) (args : list Expr)
| EIn (expression : Expr) (values : list Expr) (negated : bool).

Record NamedExpr := { ne_expression : Expr; ne_alias : string }.
Record SortKey := {
  so_expression : Expr; so_direction : SortDirection; so_nulls : NullOrder }.
Record CompactPattern := {
  cpa_start_alias : string;
  cpa_end_alias : string;
  cpa_edge_alias : option string;
  cpa_relations : list string;
  cpa_direction : Direction;
  cpa_min_hops : Z;
  cpa_max_hops : Z;
  cpa_mode : PathMode;
  cpa_path_alias : option string;
}.
Record PatternNode := {
  pn_alias : string;
  pn_id : option Expr;
  pn_labels : list string;
  pn_properties : btree Expr;
}.
Record PatternEdge := {
  pe_alias : option string;
  pe_relations : list string;
  pe_direction : Direction;
  pe_min_hops : Z;
  pe_max_hops : Z;
  pe_properties : btree Expr;
}.
Record PatternStep := { ps_edge : PatternEdge; ps_node : PatternNode }.
Record SequencePattern := {
  spa_form : SequenceForm;
  spa_start : PatternNode;
  spa_steps : list PatternStep;
  spa_mode : PathMode;
  spa_path_alias : option string;
}.
Inductive Pattern := PCompact (p : CompactPattern) | PSequence (p : SequencePattern).

Inductive Config :=
| CNodeScan (alias : string) (label : option string)
| CEdgeScan (alias : string) (relation : option string)
| CRowScan (table alias : string)
| CAnnotationScan (alias : string)
| CValues (param alias : string)
| CHistoryScan (kind : EntityKind) (id : Expr) (alias : string)
| CChangeScan (after_seq : Z) (alias : string)
| CMatch (pattern : Pattern) (anchors : btree Expr) (shortest : bool)
| CFilter (predicate : Expr)
| CProject (fields : list NamedExpr)
| CDistinct
| CKnn (entity collection : string) (query : Expr) (k : Z) (mode : KnnMode) (alias : string)
| CRerank (entity collection : string) (query : Expr) (k : Z) (fidelity : Fidelity)
    (alias : string)
| CExpand (pattern : Pattern) (optional : bool)
| CAnnotationLookup (target alias : string) (optional : bool)
| CLexicalMatch (entity field index : string) (query : Expr) (k : Z) (alias : string)
| CJoin (kind : JoinKind) (condition : Expr)
| CAggregate (group_by aggregates : list NamedExpr)
| CSort (keys : list SortKey)
| CTake (count : Z)
| COffset (count : Z)
| CUnionAll
| CContextPack (text evidence : Expr) (tokens : Z) (tokenizer alias : string).

Record LogicalNodeV2 := {
  ln_id : string; ln_op : QueryOpV2; ln_inputs : list string; ln_config : Config }.
Record LogicalRequestV2 := {
  lr_nodes : list LogicalNodeV2;
  lr_root : string;
  lr_parameter_types : btree string;
  lr_from_hql : bool;
}.

(** The operands of an expression, left to right. *)
Definition expr_children (e : Expr) : list Expr :=
  match e with
  | EBinary _ lhs rhs => [lhs; rhs]
  | EUnary _ arg => [arg]
  | ECall _ args => args
  | EIn expression values _ => expression :: values
  | ELiteral _ _ | EParam _ | EField _ => []
  end.
Fixpoint expr_size (e : Expr) : nat :=
  S match e with
    | EBinary _ lhs rhs => expr_size lhs + expr_size rhs
    | EUnary _ arg => expr_size arg
    | ECall _ args => list_sum (map expr_size args)
    | EIn expression values _ => expr_size expression + list_sum (map expr_size values)
    | ELiteral _ _ | EParam _ | EField _ => 0
    end.
Lemma expr_size_eq e : expr_size e = S (list_sum (map expr_size (expr_children e))).
Proof. destruct e; cbn; unfold list_sum; cbn; lia. Qed.

(** Induction on the operands. *)
Lemma expr_ind' (P : Expr -> Prop) :
  (forall e, Forall P (expr_children e) -> P e) -> forall e, P e.
Proof.
  intros H. fix IH 1. intros e. apply H.
  assert (forall l : list Expr, Forall P l) as Hl
    by (induction l as [|a l IHl]; [constructor|constructor; [apply IH|exact IHl]]).
  destruct e; cbn [expr_children]; apply Hl.
Qed.
