(* ===== verification/WireDecode.v ===== *)
(** * Decoding wire expressions

    [src/src/query/hql2/wire.rs]: the lexical checks of a wire field and the decoder of
    expressions, which keeps its own stacks of tasks and of finished operands. The
    decoder accepts exactly the closed grammar [decodes]: one object per node, with the
    members of its form and no others. [serde_json]'s decoders of strings, booleans and
    arrays are written out; the decoders [serde] derives for the engine's own types are
    the operations of [Derived]. *)
From Stdlib Require Import Sorted.
From S2P Require Export Wire.
Local Open Scope Z_scope.

(** ** Lexical checks *)

Definition byte_is_alphabetic (b : byte) : bool :=
  let v := byte_val b in ((65 <=? v) && (v <=? 90)) || ((97 <=? v) && (v <=? 122)).
Definition byte_is_alphanumeric (b : byte) : bool := byte_is_alphabetic b || byte_is_digit b.
Definition byte_is_underscore (b : byte) : bool := byte_val b =? 95.
Definition byte_is_hyphen (b : byte) : bool := byte_val b =? 45.

Definition is_symbol (s : string) : bool :=
  match str_bytes s with
  | c :: rest =>
      (byte_is_alphabetic c || byte_is_underscore c)
      && forallb (fun c => byte_is_alphanumeric c || byte_is_underscore c) rest
  | [] => false
  end.

(** [String::deserialize], [bool::deserialize] and [Vec::<Value>::deserialize] of a
    [Value] *)
Definition json_string (v : json) : option string :=
  match v with JString s => Some s | _ => None end.
Definition json_bool (v : json) : option bool :=
  match v with JBool b => Some b | _ => None end.
Definition json_array (v : json) : option (list json) :=
  match v with JArray l => Some l | _ => None end.

Definition symbol (v : json) : option string :=
  s ← json_string v; if is_symbol s then Some s else None.
Definition is_name (s : string) : bool := (1 <=? zlen (chars s)) && (zlen (chars s) <=? 256).
Definition name (v : json) : option string :=
  s ← json_string v; if is_name s then Some s else None.
Definition profile_name (v : json) : option string :=
  value ← json_string v;
  if (1 <=? Z.of_nat (str_len value)) && (Z.of_nat (str_len value) <=? 128)
     && match str_bytes value with
        | c :: rest =>
            (byte_is_alphabetic c || byte_is_underscore c)
            && forallb (fun c => byte_is_alphanumeric c || byte_is_underscore c
                                 || byte_is_hyphen c) rest
        | [] => false
        end
  then Some value else None.
Definition names (v : json) : option (list string) :=
  l ← json_array v; items ← mapM json_string l;
  if forallb is_name items then Some items else None.
Definition symbols (v : json) : option (list string) :=
  l ← json_array v; items ← mapM json_string l;
  if forallb is_symbol items then Some items else None.
(** A change frontier travels as text: the shortest decimal of a [u64]. *)
Definition decimal_u64 (v : json) : option Z :=
  s ← json_string v; n ← parse_unsigned u64_max s;
  if bool_decide (to_string n = s) then Some n else None.

Lemma decimal_u64_spec v n :
  decimal_u64 v = Some n <-> v = JString (to_string n) /\ 0 <= n <= u64_max.
Proof.
  unfold decimal_u64. split.
  - intros (s & Hv & (k & Hk & Hs)%bind_Some)%bind_Some.
    case_bool_decide as E; [|done]. injection Hs as ->. destruct v; try done.
    injection Hv as ->. rewrite E. split; [done|]. by eapply parse_unsigned_bounds.
  - intros [-> Hn]. cbn [json_string mbind option_bind].
    rewrite parse_unsigned_to_string by done. cbn [mbind option_bind].
    by rewrite bool_decide_eq_true_2.
Qed.

(** ** Removing members of an object *)

Fixpoint bt_remove {V} (k : string) (m : btree V) : btree V :=
  match m with
  | [] => []
  | (k', v) :: m' => match cmp_str k k' with Eq => m' | _ => (k', v) :: bt_remove k m' end
  end.

Lemma bt_remove_perm {V} k (m : btree V) v :
  bt_get cmp_str k m = Some v -> m ≡ₚ (k, v) :: bt_remove k m.
Proof.
  induction m as [|[k' v'] m IH]; cbn [bt_get bt_remove]; [done|].
  destruct (cmp_str k k') eqn:E.
  - intros [= ->]. by apply (cmp_eq (c:=cmp_str)) in E as ->.
  - intros H. rewrite (IH H) at 1. apply Permutation_swap.
  - intros H. rewrite (IH H) at 1. apply Permutation_swap.
Qed.
Lemma bt_remove_sublist {V} k (m : btree V) : bt_remove k m `sublist_of` m.
Proof.
  induction m as [|[k' v'] m IH]; cbn [bt_remove]; [done|].
  destruct (cmp_str k k'); by constructor.
Qed.
Lemma bt_get_remove_ne {V} k k' (m : btree V) : k <> k' ->
  bt_get cmp_str k' (bt_remove k m) = bt_get cmp_str k' m.
Proof.
  intros Hne. induction m as [|[j v] m IH]; cbn [bt_get bt_remove]; [done|].
  destruct (cmp_str k j) eqn:E; cbn [bt_get]; [|by rewrite IH..].
  apply (cmp_eq (c:=cmp_str)) in E as <-. destruct (cmp_str k' k) eqn:E'; [|done..].
  by apply (cmp_eq (c:=cmp_str)) in E' as ->.
Qed.
(** Two maps with the same entries are the same. *)
Lemma bt_sorted_perm {V} (m k : btree V) :
  bt_sorted cmp_str m -> bt_sorted cmp_str k -> m ≡ₚ k -> m = k.
Proof.
  unfold bt_sorted. revert k; induction m as [|p m IH]; intros k Hm Hk Hp.
  { by apply Permutation_nil_l in Hp. }
  destruct k as [|q k]; [by apply Permutation_nil_r in Hp|].
  apply StronglySorted_inv in Hm as [Hm Hpm], Hk as [Hk Hqk].
  rewrite Forall_forall in Hpm, Hqk.
  assert (p = q) as ->.
  { assert (p ∈ q :: k) as Hin by (rewrite <- Hp; left).
    assert (q ∈ p :: m) as Hin' by (rewrite Hp; left).
    apply elem_of_cons in Hin as [->|Hin]; [done|].
    apply elem_of_cons in Hin' as [->|Hin']; [done|].
    specialize (Hpm q Hin'). specialize (Hqk p Hin).
    pose proof (cmp_lt_trans cmp_str _ _ _ Hpm Hqk) as H. by rewrite (cmp_refl cmp_str) in H. }
  f_equal. apply IH; [done..|]. by apply Permutation_cons_inv in Hp.
Qed.

(** ** The decoder *)

(** What [serde] derives for the types an expression mentions. *)
Class Derived := {
  derived_binary : json -> option BinaryOp;
  derived_unary : json -> option UnaryOp;
  derived_field : json -> option FieldRef;
}.

Definition invalid_nested_shape : string := "invalid_nested_shape".
Definition missing_expression_field : string := "missing_expression_field".
Definition expression_shape : string := "expression_shape".

(** [take] and [decode] *)
Definition take_key (key : string) (m : btree json) : result string (json * btree json) :=
  v ← ok_or (bt_get cmp_str key m) missing_expression_field; Ok (v, bt_remove key m).
Definition decode {A} (from : json -> option A) (v : json) : result string A :=
  ok_or (from v) invalid_nested_shape.
Definition take_symbol (key : string) (m : btree json) : result string (string * btree json) :=
  '(v, m) ← take_key key m;
  s ← decode json_string v;
  if is_symbol s then Ok (s, m) else Err "invalid_symbol".

Inductive Task :=
| TVisit (v : json)
| TBinary (binary : BinaryOp)
| TUnary (unary : UnaryOp)
| TCall (call : string) (count : nat)
| TIn (negated : bool) (count : nat).

Section Decoder.
Context `{Derived}.

(** One object: the tasks and the operand it pushes (the head is the top of the stack),
    and the members it has not used. *)
Definition visit (m : btree json) : result string (list Task * list Expr * btree json) :=
  if bt_contains cmp_str "literal" m then
    '(literal, m) ← take_key "literal" m;
    '(t, m) ← take_key "type" m;
    ty ← decode json_string t;
    if bool_decide (ty = EmptyString) then Err "empty_literal_type"
    else Ok ([], [ELiteral literal ty], m)
  else if bt_contains cmp_str "param" m then
    '(param, m) ← take_symbol "param" m;
    Ok ([], [EParam param], m)
  else if bt_contains cmp_str "field" m then
    '(v, m) ← take_key "field" m;
    field ← decode derived_field v;
    Ok ([], [EField field], m)
  else if bt_contains cmp_str "binary" m then
    '(v, m) ← take_key "binary" m;
    op ← decode derived_binary v;
    '(lhs, m) ← take_key "left" m;
    '(rhs, m) ← take_key "right" m;
    Ok ([TVisit lhs; TVisit rhs; TBinary op], [], m)
  else if bt_contains cmp_str "unary" m then
    '(v, m) ← take_key "unary" m;
    op ← decode derived_unary v;
    '(arg, m) ← take_key "arg" m;
    Ok ([TVisit arg; TUnary op], [], m)
  else if bt_contains cmp_str "call" m then
    '(call, m) ← take_symbol "call" m;
    '(v, m) ← take_key "args" m;
    args ← decode json_array v;
    Ok ((TVisit <$> args) ++ [TCall call (length args)], [], m)
  else if bt_contains cmp_str "in" m then
    '(expression, m) ← take_key "in" m;
    '(v, m) ← take_key "values" m;
    args ← decode json_array v;
    '(n, m) ← take_key "negated" m;
    negated ← decode json_bool n;
    Ok (TVisit expression :: (TVisit <$> args) ++ [TIn negated (length args)], [], m)
  else Err "unknown_expression".

(** [values.split_off(values.len() - count)], for a stack whose head is its top *)
Definition split_off (count : nat) (values : list Expr) : result string (list Expr * list Expr) :=
  if (length values <? count)%nat then Err expression_shape
  else Ok (rev (take count values), drop count values).
Definition pop (values : list Expr) : result string (Expr * list Expr) :=
  match values with e :: values => Ok (e, values) | [] => Err expression_shape end.

(** One turn of the loop on the task just popped. *)
Definition decode_step (task : Task) (tasks : list Task) (values : list Expr)
  : result string (list Task * list Expr) :=
  match task with
  | TVisit (JObject m) =>
      '(ts, es, rest) ← visit m;
      match rest with
      | [] => Ok (ts ++ tasks, es ++ values)
      | _ :: _ => Err "unknown_expression_field"
      end
  | TVisit _ => Err "expression_not_object"
  | TBinary binary =>
      '(rhs, values) ← pop values;
      '(lhs, values) ← pop values;
      Ok (tasks, EBinary binary lhs rhs :: values)
  | TUnary unary =>
      '(arg, values) ← pop values;
      Ok (tasks, EUnary unary arg :: values)
  | TCall call count =>
      '(args, values) ← split_off count values;
      Ok (tasks, ECall call args :: values)
  | TIn negated count =>
      '(args, values) ← split_off count values;
      '(expression, values) ← pop values;
      Ok (tasks, EIn expression args negated :: values)
  end.

(** [while let Some(task) = tasks.pop()]; [None] when the fuel runs out. *)
Fixpoint decode_loop (fuel : nat) (tasks : list Task) (values : list Expr)
  : option (result string (list Expr)) :=
  match fuel with
  | O => None
  | S fuel =>
      match tasks with
      | [] => Some (Ok values)
      | task :: tasks =>
          match decode_step task tasks values with
          | Ok (tasks, values) => decode_loop fuel tasks values
          | Err e => Some (Err e)
          end
      end
  end.

Fixpoint json_size (v : json) : nat :=
  match v with
  | JArray l => S (list_sum (map json_size l))
  | JObject m => S (list_sum (map (fun kv => json_size kv.2) m))
  | _ => 1
  end.

(** A value is visited at most once, and pushes at most one more task. *)
Definition decode_fuel (v : json) : nat := S (2 * json_size v).

Definition decode_expression (v : json) : option (result string Expr) :=
  r ← decode_loop (decode_fuel v) [TVisit v] [];
  Some (values ← r; match values with [e] => Ok e | _ => Err expression_shape end).

(** ** The grammar *)

Inductive decodes : json -> Expr -> Prop :=
| dec_literal literal ty : ty <> EmptyString ->
    decodes (JObject [("literal", literal); ("type", JString ty)]) (ELiteral literal ty)
| dec_param param : is_symbol param = true ->
    decodes (JObject [("param", JString param)]) (EParam param)
| dec_field v field : derived_field v = Some field ->
    decodes (JObject [("field", v)]) (EField field)
| dec_binary v op l r x y : derived_binary v = Some op -> decodes l x -> decodes r y ->
    decodes (JObject [("binary", v); ("left", l); ("right", r)]) (EBinary op x y)
| dec_unary v op a x : derived_unary v = Some op -> decodes a x ->
    decodes (JObject [("arg", a); ("unary", v)]) (EUnary op x)
| dec_call call args xs : is_symbol call = true -> Forall2 decodes args xs ->
    decodes (JObject [("args", JArray args); ("call", JString call)]) (ECall call xs)
| dec_in e args negated x xs : decodes e x -> Forall2 decodes args xs ->
    decodes (JObject [("in", e); ("negated", JBool negated); ("values", JArray args)])
      (EIn x xs negated).
End Decoder.

(** ** Canonical values: every object's members are in key order, once. *)

Fixpoint json_ok (v : json) : Prop :=
  match v with
  | JArray l => foldr (fun v P => json_ok v /\ P) True l
  | JObject m => bt_sorted cmp_str m /\ foldr (fun kv P => json_ok kv.2 /\ P) True m
  | _ => True
  end.
Lemma json_ok_array l : json_ok (JArray l) <-> Forall json_ok l.
Proof.
  cbn [json_ok]. induction l as [|v l IH]; cbn [foldr]; [split; [constructor|done]|].
  by rewrite IH, Forall_cons.
Qed.
Lemma json_ok_object m :
  json_ok (JObject m) <-> bt_sorted cmp_str m /\ Forall (fun kv => json_ok kv.2) m.
Proof.
  cbn [json_ok]. assert (foldr (fun kv P => json_ok kv.2 /\ P) True m <->
    Forall (fun kv => json_ok kv.2) m) as ->; [|done].
  induction m as [|v m IH]; cbn [foldr]; [split; [constructor|done]|].
  by rewrite IH, Forall_cons.
Qed.

(** ** One object *)

(** Computes the comparisons of constant keys. *)
Ltac keys :=
  unfold bt_contains; cbn [bt_get bt_remove];
  repeat match goal with
  | |- context [cmp_str ?a ?b] =>
      let c := eval vm_compute in (cmp_str a b) in change (cmp_str a b) with c
  end; cbn match.

(** The members in order are sorted. *)
Ltac sorted_keys := repeat (constructor; [|]); repeat constructor; vm_compute; reflexivity.

Section Forms.
Context `{Derived}.

Inductive form : btree json -> list Task -> list Expr -> Prop :=
| form_literal literal ty : ty <> EmptyString ->
    form [("literal", literal); ("type", JString ty)] [] [ELiteral literal ty]
| form_param param : is_symbol param = true ->
    form [("param", JString param)] [] [EParam param]
| form_field v field : derived_field v = Some field ->
    form [("field", v)] [] [EField field]
| form_binary v op l r : derived_binary v = Some op ->
    form [("binary", v); ("left", l); ("right", r)] [TVisit l; TVisit r; TBinary op] []
| form_unary v op a : derived_unary v = Some op ->
    form [("arg", a); ("unary", v)] [TVisit a; TUnary op] []
| form_call call args : is_symbol call = true ->
    form [("args", JArray args); ("call", JString call)]
      ((TVisit <$> args) ++ [TCall call (length args)]) []
| form_in e args negated :
    form [("in", e); ("negated", JBool negated); ("values", JArray args)]
      (TVisit e :: (TVisit <$> args) ++ [TIn negated (length args)]) [].

Lemma take_key_Ok k m v m' : take_key k m = Ok (v, m') -> m ≡ₚ (k, v) :: m'.
Proof.
  unfold take_key. intros (v' & Hv%ok_or_Ok & [= <- <-])%bind_Ok. by apply bt_remove_perm.
Qed.
Lemma decode_Ok {A} (from : json -> option A) v a : decode from v = Ok a -> from v = Some a.
Proof. apply ok_or_Ok. Qed.
Lemma json_string_Some v s : json_string v = Some s -> v = JString s.
Proof. destruct v; try done. by intros [= ->]. Qed.
Lemma json_bool_Some v b : json_bool v = Some b -> v = JBool b.
Proof. destruct v; try done. by intros [= ->]. Qed.
Lemma json_array_Some v l : json_array v = Some l -> v = JArray l.
Proof. destruct v; try done. by intros [= ->]. Qed.
Lemma take_symbol_Ok k m s m' : take_symbol k m = Ok (s, m') ->
  m ≡ₚ (k, JString s) :: m' /\ is_symbol s = true.
Proof.
  unfold take_symbol. intros ([v m1] & Hk%take_key_Ok & H1)%bind_Ok.
  apply bind_Ok in H1 as (t & Ht%decode_Ok%json_string_Some & H1). subst v.
  destruct (is_symbol t) eqn:Hs; [|done]. by injection H1 as <- <-.
Qed.

(** Reads off the members an accepted object used, in the order they were taken. *)
Ltac taken :=
  repeat match goal with
  | H : (take_key _ _ ≫= _) = Ok _ |- _ =>
      let v := fresh "v" in let m := fresh "m" in let Hm := fresh "Hm" in
      apply bind_Ok in H as ([v m] & Hm%take_key_Ok & H)
  | H : (take_symbol _ _ ≫= _) = Ok _ |- _ =>
      let s := fresh "s" in let m := fresh "m" in let Hm := fresh "Hm" in
      apply bind_Ok in H as ([s m] & [Hm ?]%take_symbol_Ok & H)
  | H : (decode _ _ ≫= _) = Ok _ |- _ =>
      let a := fresh "a" in let Ha := fresh "Ha" in
      apply bind_Ok in H as (a & Ha%decode_Ok & H)
  end;
  repeat match goal with
  | H : json_string _ = Some _ |- _ => apply json_string_Some in H
  | H : json_bool _ = Some _ |- _ => apply json_bool_Some in H
  | H : json_array _ = Some _ |- _ => apply json_array_Some in H
  end.

(** The object is its members in key order. *)
Lemma members (m l : btree json) : bt_sorted cmp_str m -> bt_sorted cmp_str l -> m ≡ₚ l -> m = l.
Proof. apply bt_sorted_perm. Qed.

Lemma visit_sound m ts es : bt_sorted cmp_str m -> visit m = Ok (ts, es, []) -> form m ts es.
Proof.
  intros Hs. unfold visit.
  assert (forall l, bt_sorted cmp_str l -> m ≡ₚ l -> form l ts es -> form m ts es) as Hform
    by (intros l Hl Hp Hf; by rewrite (members m l)).
  repeat match goal with
  | |- (if bt_contains _ ?k m then _ else _) = _ -> _ =>
      destruct (bt_contains cmp_str k m); [intros Hv; taken|]
  end; [..|done].
  - case_bool_decide; [done|]. injection Hv as <- <- ->. subst.
    eapply Hform; [|rewrite Hm; by rewrite Hm0|by constructor]. sorted_keys.
  - injection Hv as <- <- ->. eapply Hform; [|exact Hm|by constructor]. sorted_keys.
  - injection Hv as <- <- ->. eapply Hform; [|exact Hm|by constructor]. sorted_keys.
  - injection Hv as <- <- ->.
    eapply Hform; [|rewrite Hm; rewrite Hm0; by rewrite Hm1|by constructor]. sorted_keys.
  - injection Hv as <- <- ->.
    eapply Hform; [|rewrite Hm, Hm0; apply Permutation_swap|by constructor]. sorted_keys.
  - injection Hv as <- <- ->. subst.
    eapply Hform; [|rewrite Hm, Hm0; apply Permutation_swap|by constructor]. sorted_keys.
  - injection Hv as <- <- ->. subst.
    eapply Hform; [|rewrite Hm, Hm0, Hm1; apply perm_skip, Permutation_swap|by constructor].
    sorted_keys.
Qed.

Lemma visit_complete m ts es : form m ts es -> visit m = Ok (ts, es, []).
Proof.
  destruct 1; unfold visit, take_symbol, take_key, decode; keys;
    cbn [json_string json_bool json_array ok_or mbind result_bind]; keys;
    repeat match goal with
    | H : _ = _ |- _ => rewrite H; clear H
    | H : ?t <> EmptyString |- _ => rewrite (bool_decide_eq_false_2 (t = EmptyString)) by done
    | _ => progress cbn [json_string json_bool json_array ok_or mbind result_bind]
    | _ => progress keys
    end; done.
Qed.
End Forms.

(** ** The loop *)

Section Loop.
Context `{Derived}.

Lemma json_size_pos v : (1 <= json_size v)%nat.
Proof. destruct v; cbn; lia. Qed.
Lemma json_size_array l : json_size (JArray l) = S (list_sum (map json_size l)).
Proof. reflexivity. Qed.
Lemma json_size_object m :
  json_size (JObject m) = S (list_sum (map (fun kv => json_size kv.2) m)).
Proof. reflexivity. Qed.
Lemma list_sum_cons n l : list_sum (n :: l) = (n + list_sum l)%nat.
Proof. reflexivity. Qed.
Lemma list_sum_nil : list_sum [] = 0%nat.
Proof. reflexivity. Qed.
Hint Rewrite json_size_array json_size_object list_sum_cons list_sum_nil : sizes.
(** Sizes of the members written out. *)
Ltac sizes := repeat (autorewrite with sizes in *; cbn [snd map] in * ).

(** The tasks [ts] replace what is on top of [values] by [es], within [k] turns. *)
Definition works (k : nat) (ts : list Task) (before after : list Expr) : Prop :=
  forall n tasks values,
    decode_loop (k + n) (ts ++ tasks) (before ++ values) = decode_loop n tasks (after ++ values).
Definition breaks (k : nat) (ts : list Task) : Prop :=
  exists e, forall n tasks values, decode_loop (k + n) (ts ++ tasks) values = Some (Err e).

Lemma works_nil : works 0 [] [] [].
Proof. done. Qed.
Lemma works_app k1 k2 ts1 ts2 a b c : works k1 ts1 a b -> works k2 ts2 b c ->
  works (k1 + k2) (ts1 ++ ts2) a c.
Proof. intros H1 H2 n tasks values. by rewrite <- !app_assoc, <- Nat.add_assoc, H1, H2. Qed.
Lemma works_frame k ts a b l : works k ts a b -> works k ts (a ++ l) (b ++ l).
Proof. intros H1 n tasks values. by rewrite <- !app_assoc, H1. Qed.
Lemma step_works t ts k a b c :
  (forall tasks values, decode_step t tasks (a ++ values) = Ok (ts ++ tasks, b ++ values)) ->
  works k ts b c -> works (S k) [t] a c.
Proof.
  intros Ht Hts n tasks values. cbn [Nat.add app decode_loop]. rewrite Ht. apply Hts.
Qed.
Lemma step_breaks t ts k :
  (forall tasks values, decode_step t tasks values = Ok (ts ++ tasks, values)) ->
  breaks k ts -> breaks (S k) [t].
Proof.
  intros Ht [e He]. exists e. intros n tasks values. cbn [Nat.add app decode_loop].
  rewrite Ht. apply He.
Qed.
Lemma breaks_l k ts1 ts2 : breaks k ts1 -> breaks k (ts1 ++ ts2).
Proof. intros [e He]. exists e. intros n tasks values. by rewrite <- app_assoc, He. Qed.
Lemma breaks_r k1 k2 ts1 ts2 b : works k1 ts1 [] b -> breaks k2 ts2 -> breaks (k1 + k2) (ts1 ++ ts2).
Proof.
  intros H1 [e He]. exists e. intros n tasks values. rewrite <- app_assoc, <- Nat.add_assoc.
  pose proof (H1 (k2 + n)%nat (ts2 ++ tasks) values) as E. cbn [app] in E. by rewrite E, He.
Qed.

(** A value that is in the grammar is replaced by its expression. *)
Definition accepted (e : Expr) (v : json) : Prop :=
  exists k, (k <= 2 * json_size v)%nat /\ works k [TVisit v] [] [e].

Lemma accepted_all vs es : Forall2 accepted es vs ->
  exists k, (k <= 2 * list_sum (map json_size vs))%nat /\ works k (TVisit <$> vs) [] (rev es).
Proof.
  induction 1 as [|e v es vs (k1 & Hk1 & H1) _ (k2 & Hk2 & H2)].
  { exists 0%nat. split; [lia|apply works_nil]. }
  exists (k1 + k2)%nat. split; [cbn [map]; rewrite list_sum_cons; lia|].
  rewrite fmap_cons. change (TVisit v :: (TVisit <$> vs)) with ([TVisit v] ++ (TVisit <$> vs)).
  cbn [rev]. eapply works_app; [exact H1|]. apply (works_frame _ _ [] _ [e]). exact H2.
Qed.

(** The last task of a node takes exactly the operands pushed for it. *)
Lemma split_off_all es values : split_off (length es) (rev es ++ values) = Ok (es, values).
Proof.
  unfold split_off. rewrite length_app, length_rev.
  destruct (Nat.ltb_spec (length es + length values) (length es)); [lia|].
  rewrite <- (length_rev es), take_app_length, drop_app_length, rev_involutive. done.
Qed.

Lemma node_accepted m ts t es e : form m (ts ++ [t]) [] ->
  (exists k, (k + 2 <= 2 * json_size (JObject m))%nat /\ works k ts [] (rev es)) ->
  (forall tasks values, decode_step t tasks (rev es ++ values) = Ok (tasks, e :: values)) ->
  accepted e (JObject m).
Proof.
  intros Hf (k & Hk & Hts) Ht. exists (S (k + 1))%nat. split; [lia|].
  apply (step_works _ (ts ++ [t]) _ _ []).
  - intros tasks values. cbn [decode_step]. by rewrite (visit_complete _ _ _ Hf).
  - eapply works_app; [exact Hts|]. apply (step_works _ [] 0 _ [e]); [exact Ht|done].
Qed.
Lemma leaf_accepted m e : form m [] [e] -> accepted e (JObject m).
Proof.
  intros Hf. exists 1%nat. split; [pose proof (json_size_pos (JObject m)); lia|].
  apply (step_works _ [] 0 _ [e]); [|done].
  intros tasks values. cbn [decode_step]. by rewrite (visit_complete _ _ _ Hf).
Qed.

Lemma Forall2_accepted args xs : Forall (fun x => forall v, decodes v x -> accepted x v) xs ->
  Forall2 decodes args xs -> Forall2 accepted xs args.
Proof.
  intros Hf H2. induction H2 as [|v x args xs Hx _ IH]; [constructor|].
  apply Forall_cons in Hf as [Hfx Hf]. constructor; auto.
Qed.

Lemma decodes_accepted e v : decodes v e -> accepted e v.
Proof.
  revert v; induction e as [e IH] using expr_ind'. intros v Hd. rewrite Forall_forall in IH.
  destruct Hd as [| | |v op l r x y Hop Hl Hr|v op a x Hop Ha|call args xs Hs Hargs
    |v args negated x xs Hv Hargs]; cbn [expr_children] in IH.
  1-3: apply leaf_accepted; by constructor.
  - assert (accepted x l) as (k1 & Hk1 & H1) by (apply IH; [left|done]).
    assert (accepted y r) as (k2 & Hk2 & H2) by (apply IH; [right; left|done]).
    apply (node_accepted _ [TVisit l; TVisit r] (TBinary op) [x; y]); [by constructor| |done].
    exists (k1 + k2)%nat. split; [sizes; lia|].
    apply (works_app _ _ [_] [_] _ [x]); [done|]. by apply (works_frame _ _ [] [y] [x]).
  - assert (accepted x a) as (k1 & Hk1 & H1) by (apply IH; [left|done]).
    apply (node_accepted _ [TVisit a] (TUnary op) [x]); [by constructor| |done].
    exists k1. split; [sizes; lia|done].
  - apply Forall2_accepted in Hargs as Hacc; [|by apply Forall_forall].
    destruct (accepted_all _ _ Hacc) as (k & Hk & Hw).
    apply (node_accepted _ (TVisit <$> args) (TCall call (length args)) xs);
      [by apply form_call|exists k; split; [sizes; lia|done]|].
    intros tasks values. cbn [decode_step].
    rewrite (Forall2_length _ _ _ Hargs), split_off_all. done.
  - apply Forall2_accepted in Hargs as Hacc;
      [|apply Forall_forall; intros y Hy; apply IH; by right].
    destruct (accepted_all _ _ Hacc) as (k & Hk & Hw).
    assert (accepted x v) as (k1 & Hk1 & H1) by (apply IH; [left|done]).
    apply (node_accepted _ (TVisit v :: (TVisit <$> args)) (TIn negated (length args)) (x :: xs));
      [by apply form_in| |].
    + exists (k1 + k)%nat. split; [sizes; lia|]. cbn [rev].
      apply (works_app _ _ [TVisit v] _ _ [x]); [done|]. by apply (works_frame _ _ [] _ [x]).
    + intros tasks values. cbn [decode_step rev].
      rewrite (Forall2_length _ _ _ Hargs), <- app_assoc, split_off_all. done.
Qed.

(** A value that is not in the grammar breaks the loop. *)
Definition refused (v : json) : Prop :=
  exists k, (k <= 2 * json_size v)%nat /\ breaks k [TVisit v].

Lemma refused_all vs : Forall (fun v => (exists e, decodes v e) \/ refused v) vs ->
  (exists es, Forall2 decodes vs es) \/
  (exists k, (k <= 2 * list_sum (map json_size vs))%nat /\ breaks k (TVisit <$> vs)).
Proof.
  induction 1 as [|v vs [[e He]|(k & Hk & Hb)] _ IH]; [left; by exists []| |].
  - destruct IH as [[es Hes]|(k & Hk & Hb)]; [left; exists (e :: es); by constructor|right].
    destruct (decodes_accepted e v He) as (k1 & Hk1 & H1). exists (k1 + k)%nat.
    split; [cbn [map]; rewrite list_sum_cons; lia|]. rewrite fmap_cons.
    by apply (breaks_r _ _ [TVisit v] _ [e]).
  - right. exists k. split; [cbn [map]; rewrite list_sum_cons; lia|].
    rewrite fmap_cons. by apply (breaks_l _ [TVisit v]).
Qed.

Lemma refused_now v e : (forall tasks values, decode_step (TVisit v) tasks values = Err e) -> refused v.
Proof.
  intros Hv. exists 1%nat. split; [pose proof (json_size_pos v); lia|].
  exists e. intros n tasks values. cbn [Nat.add app decode_loop]. by rewrite Hv.
Qed.
Lemma refused_under m k ts rest : form m (ts ++ rest) [] -> (S k <= 2 * json_size (JObject m))%nat ->
  breaks k ts -> refused (JObject m).
Proof.
  intros Hf Hk Hts. exists (S k). split; [done|]. apply (step_breaks _ (ts ++ rest)).
  - intros tasks values. cbn [decode_step]. by rewrite (visit_complete _ _ _ Hf).
  - by apply breaks_l.
Qed.

Lemma list_sum_elem {A} (f : A -> nat) l a : a ∈ l -> (f a <= list_sum (map f l))%nat.
Proof. induction 1; cbn [map]; rewrite list_sum_cons; lia. Qed.
Lemma json_size_element l x : x ∈ l -> (json_size x < json_size (JArray l))%nat.
Proof. intros Hx%(list_sum_elem json_size). sizes. lia. Qed.
Lemma json_size_member m k x : (k, x) ∈ m -> (json_size x < json_size (JObject m))%nat.
Proof. intros Hx%(list_sum_elem (fun kv => json_size kv.2)). sizes. lia. Qed.

Lemma decodes_or_refused v : json_ok v -> (exists e, decodes v e) \/ refused v.
Proof.
  induction v as [v IH] using (Nat.measure_induction _ json_size). intros Hok.
  destruct v as [| | | | |m]; try (right; by eapply refused_now).
  destruct (visit m) as [[[ts es] [|p rest]]|e] eqn:Hv.
  2, 3: right; eapply refused_now; intros tasks values; cbn [decode_step]; by rewrite Hv.
  apply json_ok_object in Hok as [Hs Hm]. rewrite Forall_forall in Hm.
  assert (forall k x, (k, x) ∈ m -> (exists e, decodes x e) \/ refused x) as IHm.
  { intros k x Hx. apply IH; [by eapply json_size_member|exact (Hm _ Hx)]. }
  assert (forall k l, (k, JArray l) ∈ m -> Forall (fun x => (exists e, decodes x e) \/ refused x) l) as IHl.
  { intros k l Hl. apply Forall_forall. intros x Hx. apply IH.
    - pose proof (json_size_member _ _ _ Hl). pose proof (json_size_element _ _ Hx). lia.
    - specialize (Hm _ Hl). cbn [snd] in Hm. rewrite json_ok_array, Forall_forall in Hm. auto. }
  pose proof (visit_sound m ts es Hs Hv) as Hf. clear Hv Hs Hm IH.
  destruct Hf as [| | |x op l r Hop|x op a Hop|call args Hc|e args negated].
  - left. eexists. by constructor.
  - left. eexists. by constructor.
  - left. eexists. by constructor.
  - pose proof (refused_all [l; r]) as [(es & Hes)|(k & Hk & Hb)].
    + constructor; [eapply IHm; right; left|constructor; [eapply IHm; right; right; left|constructor]].
    + left. inversion Hes as [|? y ? ? H1 H2]; subst. inversion H2 as [|? z ? ? H3 H4]; subst.
      exists (EBinary op y z). by constructor.
    + right. apply (refused_under _ k [TVisit l; TVisit r] [TBinary op]);
        [by constructor|sizes; lia|done].
  - pose proof (refused_all [a]) as [(es & Hes)|(k & Hk & Hb)].
    + constructor; [eapply IHm; left|constructor].
    + left. inversion Hes as [|? y ? ? H1 H2]; subst. exists (EUnary op y). by constructor.
    + right. apply (refused_under _ k [TVisit a] [TUnary op]); [by constructor|sizes; lia|done].
  - pose proof (refused_all args) as [(es & Hes)|(k & Hk & Hb)].
    + eapply IHl. left.
    + left. exists (ECall call es). by constructor.
    + right. apply (refused_under _ k (TVisit <$> args) [TCall call (length args)]);
        [by apply form_call|sizes; lia|done].
  - pose proof (refused_all (e :: args)) as [(es & Hes)|(k & Hk & Hb)].
    + constructor; [eapply IHm; left|eapply IHl; right; right; left].
    + left. inversion Hes as [|? y ? ys H1 H2]; subst. exists (EIn y ys negated). by constructor.
    + right. apply (refused_under _ k (TVisit <$> (e :: args)) [TIn negated (length args)]);
        [by apply form_in|cbn [map] in *; sizes; lia|done].
Qed.

Lemma decode_accepts v e : decodes v e -> decode_expression v = Some (Ok e).
Proof.
  intros (k & Hk & Hw)%decodes_accepted. unfold decode_expression, decode_fuel.
  replace (S (2 * json_size v)) with (k + S (2 * json_size v - k))%nat by lia.
  pose proof (Hw (S (2 * json_size v - k)) [] []) as E. cbn [app] in E. by rewrite E.
Qed.
Lemma decode_refuses v : refused v -> exists e, decode_expression v = Some (Err e).
Proof.
  intros (k & Hk & e & Hb). exists e. unfold decode_expression, decode_fuel.
  replace (S (2 * json_size v)) with (k + S (2 * json_size v - k))%nat by lia.
  pose proof (Hb (S (2 * json_size v - k)) [] []) as E. cbn [app] in E. by rewrite E.
Qed.

Lemma decode_expression_total v : json_ok v ->
  exists r, decode_expression v = Some r /\ forall e, r = Ok e <-> decodes v e.
Proof.
  intros [(e0 & H0)|H0]%decodes_or_refused.
  - exists (Ok e0). split; [by apply decode_accepts|]. intros e. split; [by intros [= <-]|].
    intros He%decode_accepts. apply decode_accepts in H0. congruence.
  - destruct (decode_refuses v H0) as [err Herr]. exists (Err err). split; [done|].
    intros e. split; [done|]. intros He%decode_accepts. congruence.
Qed.

(** C34: The decoder of expressions always ends with an answer, and accepts exactly the
    values of the closed grammar, each as the one expression it denotes. *)
Theorem decode_expression_grammar v : json_ok v ->
  exists r, decode_expression v = Some r /\ forall e, r = Ok e <-> decodes v e.
Proof. apply decode_expression_total. Qed.
End Loop.
