(* ===== verification/WirePreflight.v ===== *)
(** * The checks of an operator's configuration

    [src/src/query/hql2/wire.rs]: the depth checks made on a configuration before
    [serde] sees it, and the bounds checked on the decoded one. The two depth checks
    are one loop over two ways of descending; it is proved to measure the longest
    descent, and the measure of a wire expression to bound the depth of the expression
    decoded from it. *)
From S2P Require Export WireDecode.
Local Open Scope Z_scope.

(** ** Nesting *)

Section Nest.
Variable children : json -> list json.
Variable limit : Z.

(** [while let Some((value, depth)) = stack.pop()]; the head of the stack is its top. *)
Fixpoint nest_loop (fuel : nat) (stack : list (json * Z)) : bool :=
  match fuel, stack with
  | S fuel, (value, depth) :: stack =>
      if limit <? depth then false
      else nest_loop fuel (rev ((fun child => (child, depth + 1)) <$> children value) ++ stack)
  | _, _ => true
  end.

(** A descent of [n] values from [v]. *)
Inductive descent : nat -> json -> Prop :=
| descent_1 v : descent 1 v
| descent_S n v c : c ∈ children v -> descent n c -> descent (S n) v.

Hypothesis children_size : forall v, (list_sum (map json_size (children v)) < json_size v)%nat.

Lemma list_sum_perm l k : l ≡ₚ k -> list_sum l = list_sum k.
Proof. induction 1; rewrite ?list_sum_cons; lia. Qed.

Lemma at_depth_size d l :
  map (fun vd : json * Z => json_size vd.1) ((fun child => (child, d)) <$> l) = map json_size l.
Proof. induction l as [|c l IH]; [done|]. rewrite fmap_cons. cbn [map fst]. by rewrite IH. Qed.

Lemma nest_loop_spec fuel stack :
  (list_sum (map (fun vd => json_size vd.1) stack) <= fuel)%nat ->
  nest_loop fuel stack = true <->
  forall v d n, (v, d) ∈ stack -> descent n v -> d + Z.of_nat n - 1 <= limit.
Proof.
  revert stack; induction fuel as [|fuel IH]; intros [|[v d] stack] Hf; cbn [nest_loop].
  - split; [|done]. intros _ v d n Hin. by apply elem_of_nil in Hin.
  - cbn [map fst] in Hf. rewrite list_sum_cons in Hf. pose proof (json_size_pos v). lia.
  - split; [|done]. intros _ v d n Hin. by apply elem_of_nil in Hin.
  - cbn [map fst] in Hf. rewrite list_sum_cons in Hf. destruct (Z.ltb_spec limit d) as [Hd|Hd].
    + split; [done|]. intros H. specialize (H v d 1%nat ltac:(left) (descent_1 v)). lia.
    + rewrite IH.
      * split; intros H w e n.
        -- intros [[= -> ->]|Hin]%elem_of_cons Hn; [|apply (H w e n); [|done]; by apply elem_of_app; right].
           destruct Hn as [|n v c Hc Hn]; [lia|].
           specialize (H c (d + 1) n). rewrite elem_of_app in H.
           enough (d + 1 + Z.of_nat n - 1 <= limit) by lia. apply H; [left|done].
           apply list_elem_of_In, in_rev. rewrite rev_involutive. apply list_elem_of_In.
           apply list_elem_of_fmap. by exists c.
        -- intros [Hin|Hin]%elem_of_app Hn; [|apply (H w e n); [by right|done]].
           apply list_elem_of_In, in_rev, list_elem_of_In, list_elem_of_fmap in Hin
             as (c & [= -> ->] & Hc).
           specialize (H v d (S n) ltac:(left) (descent_S n v c Hc Hn)). lia.
      * pose proof (children_size v) as Hc. rewrite map_app.
        rewrite (list_sum_perm _ (map (fun vd => json_size vd.1)
          ((fun child => (child, d + 1)) <$> children v) ++ map (fun vd => json_size vd.1) stack)).
        -- rewrite list_sum_app.
           rewrite at_depth_size. lia.
        -- f_equiv. rewrite map_rev. symmetry. apply Permutation_rev.
Qed.

(** The check of several roots, each at depth one. *)
Definition nested (roots : list json) : bool :=
  nest_loop (list_sum (map json_size roots)) (rev ((fun v => (v, 1)) <$> roots)).

Lemma nested_spec roots :
  nested roots = true <-> forall v n, v ∈ roots -> descent n v -> Z.of_nat n <= limit.
Proof.
  unfold nested. rewrite nest_loop_spec.
  - split; intros H v.
    + intros n Hv Hn. specialize (H v 1 n). enough (1 + Z.of_nat n - 1 <= limit) by lia.
      apply H; [|done]. apply list_elem_of_In, in_rev. rewrite rev_involutive.
      apply list_elem_of_In, list_elem_of_fmap. by exists v.
    + intros d n Hv Hn. apply list_elem_of_In, in_rev, list_elem_of_In, list_elem_of_fmap in Hv
        as (w & [= -> ->] & Hw). specialize (H w n Hw Hn). lia.
  - rewrite map_rev, <- (list_sum_perm _ _ (Permutation_rev _)), at_depth_size. done.
Qed.
End Nest.

(** ** What a value contains *)

Definition json_children (v : json) : list json :=
  match v with JObject m => m.*2 | JArray l => l | _ => [] end.

(** [map.get(key)] as no more than one value, and as the items of an array *)
Definition member (m : btree json) (key : string) : list json :=
  option_list (bt_get cmp_str key m).
Definition items (m : btree json) (key : string) : list json :=
  match bt_get cmp_str key m with Some (JArray l) => l | _ => [] end.

(** The values that are expressions of an expression, whichever form it has. *)
Definition operand_values (v : json) : list json :=
  match v with
  | JObject m =>
      concat (member m <$> ["left"; "right"; "arg"; "in"]%string)
      ++ concat (items m <$> ["args"; "values"]%string)
  | _ => []
  end.

(** The members of an object under [Value::get] *)
Definition object_member (v : json) (key : string) : list json := option_list (json_get key v).

Definition expression_fields (op : QueryOpV2) : list string :=
  match op with
  | OpHistoryScan => ["id"]
  | OpFilter => ["predicate"]
  | OpKnn | OpRerank | OpLexicalMatch => ["query"]
  | OpJoin => ["condition"]
  | OpContextPack => ["text"; "evidence"]
  | _ => []
  end%string.

Definition object_values (o : option json) : list json :=
  match o with Some (JObject m) => m.*2 | _ => [] end.

Definition pattern_parts (pattern : json) : list json :=
  object_member pattern "start"
  ++ match json_get "steps" pattern with
     | Some (JArray steps) =>
         concat ((fun step => object_member step "node" ++ object_member step "edge") <$> steps)
     | _ => []
     end.
Definition pattern_roots (pattern : json) : list json :=
  concat ((fun part => object_member part "id" ++ object_values (json_get "properties" part))
            <$> pattern_parts pattern).

(** Where a configuration may hold an expression. *)
Definition expression_roots (op : QueryOpV2) (config : btree json) : list json :=
  concat (member config <$> expression_fields op)
  ++ concat ((fun key => concat ((fun v => object_member v "expression") <$> items config key))
               <$> ["fields"; "group_by"; "aggregates"; "keys"]%string)
  ++ object_values (bt_get cmp_str "anchors" config)
  ++ match bt_get cmp_str "pattern" config with Some pattern => pattern_roots pattern | None => [] end.

Definition preflight_config (op : QueryOpV2) (config : btree json) : query unit :=
  if negb (nested json_children (MAX_DEPTH * 4) config.*2) then Err (bind_invalid "json_depth")
  else if negb (nested operand_values MAX_DEPTH (expression_roots op config))
  then Err (bind_invalid "expression_depth")
  else Ok tt.

(** ** Bounds of a decoded configuration *)

Definition valid_hops (min max : Z) : bool := (min <=? max) && (max <=? 32).
Definition pattern_validate (p : Pattern) : query unit :=
  match p with
  | PCompact p =>
      if negb (valid_hops (cpa_min_hops p) (cpa_max_hops p))
      then Err (bind_invalid "hop_bounds") else Ok tt
  | PSequence p =>
      if negb ((1 <=? zlen (spa_steps p)) && (zlen (spa_steps p) <=? 32))
         || existsb (fun s => negb (valid_hops (pe_min_hops (ps_edge s)) (pe_max_hops (ps_edge s))))
              (spa_steps p)
      then Err (bind_invalid "pattern_bounds") else Ok tt
  end.

Definition config_validate (c : Config) : query unit :=
  _ ← match c with
      | CProject [] => Err (bind_invalid "empty_projection")
      | CAggregate _ [] => Err (bind_invalid "empty_aggregates")
      | CSort [] => Err (bind_invalid "empty_sort")
      | CKnn _ _ _ k _ _ | CRerank _ _ _ k _ _ | CLexicalMatch _ _ _ _ k _ =>
          if 10000 <? k then Err (bind_invalid "ranking_bound") else Ok tt
      | CContextPack _ _ tokens _ _ =>
          if 1000000 <? tokens then Err (bind_invalid "token_bound") else Ok tt
      | CMatch _ anchors _ =>
          if existsb (fun s => negb (is_symbol s)) anchors.*1
          then Err (bind_invalid "invalid_anchor") else Ok tt
      | _ => Ok tt
      end;
  match c with
  | CMatch pattern _ _ | CExpand pattern _ => pattern_validate pattern
  | _ => Ok tt
  end.

(** What the bounds say. *)
Definition hops_ok (min max : Z) : Prop := min <= max <= 32.
Definition pattern_ok (p : Pattern) : Prop :=
  match p with
  | PCompact p => hops_ok (cpa_min_hops p) (cpa_max_hops p)
  | PSequence p =>
      1 <= zlen (spa_steps p) <= 32 /\
      forall s, s ∈ spa_steps p -> hops_ok (pe_min_hops (ps_edge s)) (pe_max_hops (ps_edge s))
  end.
Definition config_ok (c : Config) : Prop :=
  match c with
  | CProject fields => fields <> []
  | CAggregate _ aggregates => aggregates <> []
  | CSort keys => keys <> []
  | CKnn _ _ _ k _ _ | CRerank _ _ _ k _ _ | CLexicalMatch _ _ _ _ k _ => k <= 10000
  | CContextPack _ _ tokens _ _ => tokens <= 1000000
  | CMatch pattern anchors _ =>
      (forall s, s ∈ anchors.*1 -> is_symbol s = true) /\ pattern_ok pattern
  | CExpand pattern _ => pattern_ok pattern
  | _ => True
  end.

Lemma valid_hops_true min max : valid_hops min max = true <-> hops_ok min max.
Proof. unfold valid_hops, hops_ok. rewrite andb_true_iff, !Z.leb_le. lia. Qed.
(** A check that is its condition. *)
Lemma refuse_Ok (b : bool) (e : QueryErrorV2) : (if b then Err e else Ok tt) = Ok tt <-> b = false.
Proof. by destruct b. Qed.

Lemma pattern_validate_Ok p : pattern_validate p = Ok tt <-> pattern_ok p.
Proof.
  destruct p as [p|p]; cbn [pattern_validate pattern_ok]; rewrite refuse_Ok.
  - by rewrite negb_false_iff, valid_hops_true.
  - rewrite orb_false_iff, negb_false_iff, andb_true_iff, !Z.leb_le, existsb_negb, Forall_forall.
    f_equiv. split; intros H s Hs; apply valid_hops_true, H, Hs.
Qed.
Lemma config_validate_Ok c : config_validate c = Ok tt <-> config_ok c.
Proof.
  unfold config_validate. destruct c as [ | | | | | | |pattern anchors| |[]| | | | | | | |? []|[]| | | | ];
    cbn [config_ok]; try done;
    try (case_match eqn:E; cbn [mbind result_bind]; [split; [done|lia]|split; [lia|done]]);
    try (by apply pattern_validate_Ok).
  rewrite <- pattern_validate_Ok, <- Forall_forall, <- existsb_negb.
  destruct (existsb _ _); cbn [mbind result_bind]; naive_solver.
Qed.

(** ** What the preflight measures *)

Lemma list_sum_concat (l : list (list nat)) : list_sum (concat l) = list_sum (map list_sum l).
Proof. induction l as [|a l IH]; [done|]. cbn [concat map]. by rewrite list_sum_app, list_sum_cons, IH. Qed.

Lemma json_children_size v : (list_sum (map json_size (json_children v)) < json_size v)%nat.
Proof.
  destruct v as [| | | |l|m]; cbn [json_children]; try (cbn; lia).
  rewrite json_size_object. change (m.*2) with (map snd m). rewrite map_map. lia.
Qed.

(** Values picked under different keys do not overlap. *)
Lemma picked_size (pick : string -> json -> list json) keys m : NoDup keys ->
  (forall k v, list_sum (map json_size (pick k v)) <= json_size v)%nat ->
  (list_sum (map json_size (concat ((fun k => match bt_get cmp_str k m with
     Some v => pick k v | None => [] end) <$> keys)))
   <= list_sum (map (fun kv => json_size kv.2) m))%nat.
Proof.
  intros Hnd Hp. revert m; induction Hnd as [|k keys Hk _ IH]; intros m; [cbn; lia|].
  rewrite fmap_cons. cbn [concat]. rewrite map_app, list_sum_app.
  destruct (bt_get cmp_str k m) as [v|] eqn:E; [|apply IH].
  rewrite (list_sum_perm _ _ (Permutation_map (fun kv => json_size kv.2) (bt_remove_perm k m v E))).
  cbn [map snd]. rewrite list_sum_cons. specialize (Hp k v). specialize (IH (bt_remove k m)).
  assert (forall k', k' ∈ keys -> bt_get cmp_str k' (bt_remove k m) = bt_get cmp_str k' m) as Hne.
  { intros k' Hk'. apply bt_get_remove_ne. by intros ->. }
  enough (((fun k => match bt_get cmp_str k m with Some v => pick k v | None => [] end) <$> keys)
    = ((fun k' => match bt_get cmp_str k' (bt_remove k m) with Some v => pick k' v | None => [] end) <$> keys))
    as -> by lia.
  apply list_fmap_ext. intros i k' Hi. by rewrite Hne by (by eapply list_elem_of_lookup_2).
Qed.

Definition operand_pick (key : string) (v : json) : list json :=
  if bool_decide (key ∈ ["args"; "values"]%string) then match v with JArray l => l | _ => [] end
  else [v].
Lemma operand_values_picked m : operand_values (JObject m) =
  concat ((fun k => match bt_get cmp_str k m with Some v => operand_pick k v | None => [] end)
            <$> ["left"; "right"; "arg"; "in"; "args"; "values"]%string).
Proof.
  cbn [operand_values fmap list_fmap concat]. rewrite !app_nil_r, <- !app_assoc.
  unfold member, items.
  repeat match goal with |- context [operand_pick ?k] =>
    let p := eval vm_compute in (bool_decide (k ∈ ["args"; "values"]%string)) in
    change (operand_pick k) with (fun v => if p then match v with JArray l => l | _ => [] end else [v])
  end.
  cbn match.
  reflexivity.
Qed.

Lemma operand_values_size v : (list_sum (map json_size (operand_values v)) < json_size v)%nat.
Proof.
  destruct v as [| | | | |m]; try (cbn; lia). rewrite operand_values_picked, json_size_object.
  apply Nat.lt_succ_r, picked_size; [apply (bool_decide_unpack _); vm_compute; done|].
  intros k v. unfold operand_pick. case_bool_decide; [|cbn; lia].
  destruct v; cbn; lia.
Qed.

(** A configuration passes exactly when no descent in it is too long. *)
Lemma preflight_config_Ok op config : preflight_config op config = Ok tt <->
  (forall v n, v ∈ config.*2 -> descent json_children n v -> Z.of_nat n <= MAX_DEPTH * 4) /\
  (forall v n, v ∈ expression_roots op config -> descent operand_values n v ->
     Z.of_nat n <= MAX_DEPTH).
Proof.
  rewrite <- (nested_spec _ _ json_children_size), <- (nested_spec _ _ operand_values_size).
  unfold preflight_config. destruct (nested json_children _ _), (nested operand_values _ _);
    cbn [negb]; naive_solver.
Qed.

(** ** Depth of an expression *)

Fixpoint expr_depth (e : Expr) : nat :=
  S match e with
    | EBinary _ lhs rhs => Nat.max (expr_depth lhs) (expr_depth rhs)
    | EUnary _ arg => expr_depth arg
    | ECall _ args => list_max_with expr_depth args
    | EIn expression values _ => Nat.max (expr_depth expression) (list_max_with expr_depth values)
    | ELiteral _ _ | EParam _ | EField _ => 0
    end.
Lemma expr_depth_eq e : expr_depth e = S (list_max_with expr_depth (expr_children e)).
Proof. destruct e; cbn [expr_depth expr_children list_max_with foldr]; rewrite ?Nat.max_0_r; done. Qed.
Lemma list_max_with_elem {A} (f : A -> nat) l :
  l = [] \/ exists a, a ∈ l /\ list_max_with f l = f a.
Proof.
  induction l as [|a l [->|(b & Hb & E)]]; [by left| |]; right.
  - exists a. cbn. split; [left|lia].
  - cbn [list_max_with foldr]. fold (list_max_with f l). rewrite E.
    destruct (Nat.max_spec (f a) (f b)) as [[_ ->]|[_ ->]]; [exists b|exists a]; split;
      try done; [by right|by left].
Qed.

Section Depth.
Context `{Derived}.

Lemma decodes_operand v e c : decodes v e -> c ∈ expr_children e ->
  exists w, w ∈ operand_values v /\ decodes w c.
Proof.
  assert (forall args (xs : list Expr), Forall2 decodes args xs -> c ∈ xs ->
    exists w, w ∈ args /\ decodes w c) as Hall.
  { intros args xs H2 (i & Hi)%list_elem_of_lookup_1.
    destruct (Forall2_lookup_r _ _ _ _ _ H2 Hi) as (w & Hw & Hd).
    exists w. split; [by eapply list_elem_of_lookup_2|done]. }
  destruct 1 as [| | |v op l r x y _ Hl Hr|v op a x _ Ha|call args xs _ Hargs
    |v args negated x xs Hv Hargs]; cbn [expr_children]; intros Hc.
  1-3: by apply elem_of_nil in Hc.
  - apply elem_of_cons in Hc as [->|Hc]; [exists l|].
    + split; [vm_compute; left|done].
    + apply list_elem_of_singleton in Hc as ->. exists r. split; [vm_compute; right; left|done].
  - apply list_elem_of_singleton in Hc as ->. exists a. split; [vm_compute; left|done].
  - destruct (Hall _ _ Hargs Hc) as (w & Hw & Hd). exists w. split; [|done].
    change (w ∈ args ++ []). by rewrite app_nil_r.
  - apply elem_of_cons in Hc as [->|Hc].
    + exists v. split; [left|done].
    + destruct (Hall _ _ Hargs Hc) as (w & Hw & Hd). exists w. split; [|done].
      change (w ∈ v :: (args ++ [])). rewrite app_nil_r. by right.
Qed.

(** A value that decodes descends as deep as its expression. *)
Lemma decodes_descent e v : decodes v e -> descent operand_values (expr_depth e) v.
Proof.
  revert v; induction e as [e IH] using expr_ind'. intros v Hd. rewrite expr_depth_eq.
  destruct (list_max_with_elem expr_depth (expr_children e)) as [->|(c & Hc & ->)];
    [constructor|].
  destruct (decodes_operand v e c Hd Hc) as (w & Hw & Hwc).
  apply (descent_S _ _ _ w); [done|]. rewrite Forall_forall in IH. by apply IH.
Qed.
End Depth.

Lemma member_child m k v : v ∈ member m k -> v ∈ json_children (JObject m).
Proof.
  unfold member. destruct (bt_get cmp_str k m) as [w|] eqn:E; cbn [option_list];
    [intros ->%list_elem_of_singleton|intros Hv; by apply elem_of_nil in Hv].
  apply bt_get_Some_elem in E; [|apply _]. apply list_elem_of_fmap. by exists (k, w).
Qed.

Lemma items_grandchild m k v : v ∈ items m k ->
  exists l, JArray l ∈ json_children (JObject m) /\ v ∈ json_children (JArray l).
Proof.
  unfold items. destruct (bt_get cmp_str k m) as [[| | | |l|]|] eqn:E;
    try (intros Hv; by apply elem_of_nil in Hv).
  intros Hv. exists l. split; [|done].
  apply bt_get_Some_elem in E; [|apply _]. apply list_elem_of_fmap. by exists (k, JArray l).
Qed.
Lemma elem_of_concat_fmap {A B} (f : A -> list B) l b :
  b ∈ concat (f <$> l) <-> exists a, a ∈ l /\ b ∈ f a.
Proof.
  induction l as [|a l IH]; [split; [intros H; by apply elem_of_nil in H|]|].
  - intros (a & Ha & _). by apply elem_of_nil in Ha.
  - rewrite fmap_cons. cbn [concat]. rewrite elem_of_app, IH. set_solver.
Qed.

(** Descending through operands descends through the JSON value. *)
Lemma operand_descent n v : descent operand_values n v ->
  exists k, (n <= k)%nat /\ descent json_children k v.
Proof.
  induction 1 as [v|n v c Hc _ (k & Hk & Hd)]; [exists 1%nat; split; [lia|constructor]|].
  destruct v as [| | | | |m]; try by apply elem_of_nil in Hc. cbn [operand_values] in Hc.
  rewrite elem_of_app, !elem_of_concat_fmap in Hc.
  destruct Hc as [(key & _ & Hc%member_child)|(key & _ & (l & Hl & Hc)%items_grandchild)].
  - exists (S k). split; [lia|]. by apply (descent_S _ _ _ c).
  - exists (S (S k)). split; [lia|]. apply (descent_S _ _ _ (JArray l)); [done|].
    by apply (descent_S _ _ _ c).
Qed.
