(* ===== verification/WireGraph.v ===== *)
(** * The operator graph of a wire query

    [src/src/query/hql2/wire.rs]: the validation of the graph, which also orders the
    operators, and the decoding of a whole query. Kahn's algorithm is run over a
    [BTreeSet] of ready names, so that the order it finds depends on the names and the
    edges only, not on how the operators are listed. *)
From Stdlib Require Import Sorted.
From stdpp Require Import relations.
From S2P Require Export WirePreflight Dag.
Local Open Scope Z_scope.

Definition arity (op : QueryOpV2) : nat :=
  match op with
  | OpNodeScan | OpEdgeScan | OpRowScan | OpAnnotationScan | OpValues | OpHistoryScan
  | OpChangeScan | OpMatch => 0
  | OpJoin | OpUnionAll => 2
  | _ => 1
  end.

(** ** [BTreeSet<&str>] *)

Fixpoint bs_insert (s : string) (l : list string) : list string :=
  match l with
  | [] => [s]
  | t :: l' =>
      match cmp_str s t with
      | Lt => s :: l
      | Eq => l
      | Gt => t :: bs_insert s l'
      end
  end.

(** ** The passes of [validate_dag] *)

(** [ids.insert(id, index)] over the nodes in order. *)
Fixpoint dag_ids (index : nat) (ids : btree nat) (nodes : list QueryNodeV2) : query (btree nat) :=
  match nodes with
  | [] => Ok ids
  | node :: rest =>
      if negb (is_symbol (qn_id node)) || is_Some_b (bt_get cmp_str (qn_id node) ids)
      then Err (bind_invalid "duplicate_or_invalid_node")
      else if negb (length (qn_inputs node) =? arity (qn_op node))%nat
      then Err (bind_invalid "input_arity")
      else dag_ids (S index) (bt_insert cmp_str (qn_id node) index ids) rest
  end.

(** The in-degree of every node, and its users in the order of their inputs. *)
Definition dag_input (ids : btree nat) (index : nat) (outgoing : list (list nat)) (input : string)
  : query (list (list nat)) :=
  parent ← ok_or (bt_get cmp_str input ids) (bind_invalid "missing_input");
  Ok (alter (fun l => l ++ [index]) parent outgoing).
Fixpoint dag_edges (ids : btree nat) (index : nat) (nodes : list QueryNodeV2)
  (indegree : list nat) (outgoing : list (list nat)) : query (list nat * list (list nat)) :=
  match nodes with
  | [] => Ok (indegree, outgoing)
  | node :: rest =>
      outgoing ← try_for (dag_input ids index) outgoing (qn_inputs node);
      dag_edges ids (S index) rest (<[index := length (qn_inputs node)]> indegree) outgoing
  end.

(** [ids[id]] *)
Definition index_of (ids : btree nat) (id : string) : nat :=
  default 0%nat (bt_get cmp_str id ids).
Definition input_indices (ids : btree nat) (nodes : list QueryNodeV2) (index : nat) : list nat :=
  match nodes !! index with
  | Some node => index_of ids <$> qn_inputs node
  | None => []
  end.
(** The nodes the root uses: one entry on the stack for the root and one per input. *)
Definition dag_reachable (ids : btree nat) (nodes : list QueryNodeV2) (root : nat) : gset nat :=
  reach (input_indices ids nodes)
    (S (list_sum (map (fun i => length (input_indices ids nodes i)) (seq 0 (length nodes)))))
    [root] ∅.

(** One user of the node just taken. *)
Definition dag_child (nodes : list QueryNodeV2) (index : nat)
  (s : list nat * list Z * list string) (child : nat) : list nat * list Z * list string :=
  let '(indegree, depths, ready) := s in
  let depths := alter (fun d => Z.max d (default 1 (depths !! index) + 1)) child depths in
  let indegree := alter pred child indegree in
  (indegree, depths,
   if (default 1%nat (indegree !! child) =? 0)%nat
   then match nodes !! child with Some node => bs_insert (qn_id node) ready | None => ready end
   else ready).

(** [while let Some(id) = ready.pop_first()]: one turn per node. *)
Fixpoint dag_loop (ids : btree nat) (nodes : list QueryNodeV2) (outgoing : list (list nat))
  (fuel : nat) (indegree : list nat) (depths : list Z) (ready : list string) (order : list nat)
  : query (list nat) :=
  match fuel, ready with
  | S fuel, id :: ready =>
      let index := index_of ids id in
      if MAX_DEPTH <? default 1 (depths !! index) then Err (bind_invalid "dag_depth")
      else
        let '(indegree, depths, ready) :=
          foldl (dag_child nodes index) (indegree, depths, ready) (default [] (outgoing !! index)) in
        dag_loop ids nodes outgoing fuel indegree depths ready (order ++ [index])
  | _, _ => Ok order
  end.

(** A parameter's name is a symbol and its type is not empty. *)
Definition invalid_declaration (kv : string * string) : bool :=
  negb (is_symbol kv.1) || bool_decide (kv.2 = EmptyString).

Definition validate_dag (ir : QueryIrV2) : query (list nat) :=
  let nodes := ir_nodes ir in
  if negb (bool_decide (ir_contract_version ir = "query-ir.v2"%string))
  then Err (query_error "VERSION_UNSUPPORTED" "contract" "query_ir_version")
  else if bool_decide (nodes = []) || (MAX_NODES <? zlen nodes)
  then Err (bind_invalid "node_count")
  else if negb (is_symbol (ir_root ir))
          || existsb invalid_declaration (ir_parameter_types ir)
  then Err (bind_invalid "invalid_declaration")
  else
    ids ← dag_ids 0 [] nodes;
    root ← ok_or (bt_get cmp_str (ir_root ir) ids) (bind_invalid "missing_root");
    '(indegree, outgoing) ←
      dag_edges ids 0 nodes (replicate (length nodes) 0%nat) (replicate (length nodes) []);
    if existsb (fun i => bool_decide (i ∉ dag_reachable ids nodes root)) (seq 0 (length nodes))
    then Err (bind_invalid "orphan_node")
    else
      let ready :=
        (filter (fun kv : string * nat => default 1%nat (indegree !! kv.2) = 0%nat) ids).*1 in
      order ← dag_loop ids nodes outgoing (length nodes) indegree
                (replicate (length nodes) 1) ready [];
      if negb (length order =? length nodes)%nat then Err (bind_invalid "cycle") else Ok order.

(** ** Decoding *)

(** The codec of operators that [serde] derives: [to_value] of an operator's name, and
    [from_value] of an operator with its configuration. *)
Class ConfigCodec := {
  operator_value : QueryOpV2 -> option json;
  tagged_config : json -> option Config;
}.

Section Decode.
Context `{ConfigCodec}.

Definition tagged (op : json) (config : btree json) : json :=
  JObject (bt_insert cmp_str "config" (JObject config) (bt_insert cmp_str "op" op [])).
Definition decode_node (node : QueryNodeV2) : query LogicalNodeV2 :=
  op ← ok_or (operator_value (qn_op node)) (bind_invalid "operator");
  config ← ok_or (tagged_config (tagged op (qn_config node))) (bind_invalid "closed_config");
  _ ← config_validate config;
  Ok {| ln_id := qn_id node; ln_op := qn_op node; ln_inputs := qn_inputs node;
        ln_config := config |}.

(** [nodes[index].take()] *)
Definition take_node (s : list (option QueryNodeV2) * list LogicalNodeV2) (index : nat)
  : query (list (option QueryNodeV2) * list LogicalNodeV2) :=
  node ← ok_or (mjoin (s.1 !! index)) (bind_invalid "node_order");
  typed ← decode_node node;
  Ok (<[index := None]> s.1, s.2 ++ [typed]).

Definition decode_ir_v2 (ir : QueryIrV2) : query LogicalRequestV2 :=
  order ← validate_dag ir;
  _ ← try_for (fun _ node => preflight_config (qn_op node) (qn_config node)) tt (ir_nodes ir);
  '(_, typed) ← try_for take_node (Some <$> ir_nodes ir, []) order;
  Ok {| lr_nodes := typed; lr_root := ir_root ir;
        lr_parameter_types := ir_parameter_types ir; lr_from_hql := false |}.
End Decode.
