(* ===== verification/WireOrder.v ===== *)
(** * The order of the operators

    What [validate_dag] decides: [dag_ok] says when an operator graph is accepted, and
    the order returned is the topological one that always takes the least ready name. *)
From Stdlib Require Import Sorted.
From stdpp Require Import relations.
From S2P Require Export WireGraph.

(** ** Sets of ready names *)

Lemma bs_insert_perm s l : s ∉ l -> bs_insert s l ≡ₚ s :: l.
Proof.
  induction l as [|t l IH]; [done|]. rewrite not_elem_of_cons. intros [Hst Hl]. cbn [bs_insert].
  destruct (cmp_str s t) eqn:E; [by apply (cmp_eq (c:=cmp_str)) in E|done|].
  rewrite IH by done. apply Permutation_swap.
Qed.
Lemma elem_of_bs_insert s l t : t ∈ bs_insert s l -> t = s \/ t ∈ l.
Proof.
  induction l as [|u l IH]; cbn [bs_insert]; [rewrite list_elem_of_singleton; auto|].
  destruct (cmp_str s u); rewrite ?elem_of_cons; naive_solver.
Qed.
Definition bs_sorted : list string -> Prop := StronglySorted (fun s t => cmp_str s t = Lt).
Lemma bs_insert_sorted s l : bs_sorted l -> bs_sorted (bs_insert s l).
Proof.
  unfold bs_sorted. induction l as [|t l IH]; cbn [bs_insert]; [by repeat constructor|].
  intros Hs. pose proof (StronglySorted_inv Hs) as [Hl Ht]. rewrite Forall_forall in Ht.
  destruct (cmp_str s t) eqn:E; [done| |].
  - constructor; [done|]. constructor; [done|]. apply Forall_forall. intros u Hu.
    by eapply (cmp_lt_trans cmp_str), Ht.
  - constructor; [by apply IH|]. apply Forall_forall. intros u [->|Hu]%elem_of_bs_insert; [|by apply Ht].
    by apply (cmp_gt_lt cmp_str).
Qed.

#[local] Instance bs_worklist : Worklist string (list string).
Proof.
  refine {| wl_elems w := w; wl_push := bs_insert;
            wl_pop w := match w with s :: w => Some (s, w) | [] => None end |}.
  - intros s w. apply bs_insert_perm.
  - intros [|s w] t w' [= -> ->]. done.
  - by intros [|s w].
Defined.
#[local] Instance fun_counter : Counter string (string -> nat).
Proof.
  refine {| cnt_get m a := m a;
            cnt_dec a m := fun b => if decide (a = b) then pred (m b) else m b |}.
  done.
Defined.

(** The least ready name first, at every point of an order. *)
Definition least_first (nodes : list string) (inputs : string -> list string) (order : list string) : Prop :=
  forall l a r, order = l ++ a :: r -> forall b, b ∈ nodes -> b ∉ l ->
    (forall i, i ∈ inputs b -> i ∈ l) -> cmp_str a b <> Gt.

Lemma prefix_next (order l r : list string) a nodes inputs :
  topological nodes inputs order -> NoDup nodes -> order = l ++ a :: r ->
  a ∈ nodes /\ a ∉ l /\ forall i, i ∈ inputs a -> i ∈ l.
Proof.
  intros [Hp Ht] Hnd E. split_and!; [| |by apply (Ht l a r)].
  - rewrite <- Hp, E. apply elem_of_app. right. left.
  - rewrite <- Hp, E in Hnd. apply NoDup_app in Hnd as (_ & Hd & _). intros Hl. apply (Hd a Hl). left.
Qed.

(** There is only one such order. *)
Lemma least_first_unique nodes nodes' inputs o o' : NoDup nodes -> nodes ≡ₚ nodes' ->
  topological nodes inputs o -> topological nodes' inputs o' ->
  least_first nodes inputs o -> least_first nodes' inputs o' -> o = o'.
Proof.
  intros Hnd Hp Ht Ht' Hl Hl'.
  assert (NoDup nodes') as Hnd' by by rewrite <- Hp.
  assert (length o = length o') as Hlen by (by rewrite (proj1 Ht), (proj1 Ht'), Hp).
  enough (forall l r r', o = l ++ r -> o' = l ++ r' -> r = r') as Hall by by apply (Hall []).
  intros l r; revert l; induction r as [|a r IH]; intros l [|a' r'] E E'; try done.
  1,2: rewrite E, E', !length_app in Hlen; cbn in Hlen; lia.
  destruct (prefix_next _ _ _ _ _ _ Ht Hnd E) as (Ha & Hal & Hai).
  destruct (prefix_next _ _ _ _ _ _ Ht' Hnd' E') as (Ha' & Hal' & Hai').
  assert (a = a') as ->.
  { pose proof (Hl l a r E a' ltac:(by rewrite Hp) Hal' Hai') as H1.
    pose proof (Hl' l a' r' E' a ltac:(by rewrite <- Hp) Hal Hai) as H2.
    destruct (cmp_str a a') eqn:Ec; [by apply (cmp_eq (c:=cmp_str)) in Ec| |done].
    by apply (cmp_gt_lt cmp_str) in Ec. }
  f_equal. apply (IH (l ++ [a'])); by rewrite <- app_assoc.
Qed.

(** ** Names and indices *)

Definition node_pos (nodes : list QueryNodeV2) (id : string) : option nat :=
  position (fun n => bool_decide (qn_id n = id)) nodes.
Definition name_at (nodes : list QueryNodeV2) (i : nat) : string :=
  match nodes !! i with Some n => qn_id n | None => EmptyString end.

Lemma node_pos_Some nodes id i : node_pos nodes id = Some i ->
  exists n, nodes !! i = Some n /\ qn_id n = id.
Proof. intros (n & Hn & E%bool_decide_eq_true)%position_Some. by exists n. Qed.
Lemma node_pos_None nodes id : node_pos nodes id = None <-> id ∉ qn_id <$> nodes.
Proof.
  unfold node_pos. rewrite position_None, list_elem_of_fmap. split.
  - intros H (n & -> & Hn). apply H in Hn. by apply bool_decide_eq_false in Hn.
  - intros H n Hn. apply bool_decide_eq_false. intros <-. apply H. by exists n.
Qed.
Lemma node_pos_lookup nodes i n : NoDup (qn_id <$> nodes) -> nodes !! i = Some n ->
  node_pos nodes (qn_id n) = Some i.
Proof.
  intros Hnd Hi. destruct (node_pos nodes (qn_id n)) as [j|] eqn:E.
  - apply node_pos_Some in E as (m & Hj & Em). f_equal.
    apply (NoDup_lookup (qn_id <$> nodes) j i (qn_id n)); [done| |]; rewrite list_lookup_fmap.
    + by rewrite Hj, <- Em.
    + by rewrite Hi.
  - apply node_pos_None in E. destruct E. apply list_elem_of_fmap_2.
    by eapply list_elem_of_lookup_2.
Qed.

(** ** The passes *)

Lemma dag_ids_Ok k ids nodes ids' : bt_sorted cmp_str ids -> dag_ids k ids nodes = Ok ids' ->
  (forall n, n ∈ nodes -> is_symbol (qn_id n) = true /\ length (qn_inputs n) = arity (qn_op n)) /\
  NoDup (qn_id <$> nodes) /\
  (forall n, n ∈ nodes -> bt_get cmp_str (qn_id n) ids = None) /\
  bt_sorted cmp_str ids' /\
  forall id, bt_get cmp_str id ids' =
    match node_pos nodes id with Some j => Some (k + j) | None => bt_get cmp_str id ids end.
Proof.
  revert k ids; induction nodes as [|n nodes IH]; intros k ids Hs; cbn [dag_ids].
  { intros [= <-]. split_and!; [|constructor| |done|done]; intros n Hn; by apply elem_of_nil in Hn. }
  destruct (is_symbol (qn_id n)) eqn:Hsym; [|done]. cbn [negb orb].
  destruct (bt_get cmp_str (qn_id n) ids) eqn:Hget; [done|]. cbn [is_Some_b].
  destruct (Nat.eqb_spec (length (qn_inputs n)) (arity (qn_op n))) as [Ha|]; [|done]. cbn [negb].
  intros (H1 & Hnd & Hfresh & Hs' & Hg)%IH; [|by apply bt_insert_sorted; [apply _|]].
  assert (qn_id n ∉ qn_id <$> nodes) as Hn.
  { intros (m & Em & Hm)%list_elem_of_fmap. specialize (Hfresh m Hm).
    by rewrite <- Em, bt_get_insert_eq in Hfresh by apply _. }
  split_and!; [|rewrite fmap_cons; by constructor| |done|].
  - intros m [->|Hm]%elem_of_cons; auto.
  - intros m [->|Hm]%elem_of_cons; [done|]. rewrite <- (Hfresh m Hm).
    rewrite bt_get_insert_ne; [done|apply _|]. intros E. apply Hn. rewrite E.
    by apply list_elem_of_fmap_2.
  - intros id. rewrite Hg. unfold node_pos at 2. cbn [position].
    fold (node_pos nodes id). case_bool_decide as E.
    + subst id. rewrite (proj2 (node_pos_None nodes (qn_id n)) Hn), bt_get_insert_eq by apply _.
      by rewrite Nat.add_0_r.
    + destruct (node_pos nodes id); cbn [fmap option_fmap option_map]; [f_equal; lia|].
      by rewrite bt_get_insert_ne by (apply _ || done).
Qed.

Lemma dag_ids_total k ids nodes : NoDup (qn_id <$> nodes) ->
  (forall n, n ∈ nodes -> is_symbol (qn_id n) = true /\ length (qn_inputs n) = arity (qn_op n)) ->
  (forall n, n ∈ nodes -> bt_get cmp_str (qn_id n) ids = None) ->
  exists ids', dag_ids k ids nodes = Ok ids'.
Proof.
  revert k ids; induction nodes as [|n nodes IH]; intros k ids Hnd Hok Hfresh; [by eexists|].
  apply NoDup_cons in Hnd as [Hn Hnd]. cbn [dag_ids].
  destruct (Hok n ltac:(left)) as [-> ->]. rewrite (Hfresh n ltac:(left)), Nat.eqb_refl.
  cbn [negb orb is_Some_b]. apply IH; [done| |].
  - intros m Hm. apply Hok. by right.
  - intros m Hm. rewrite bt_get_insert_ne; [apply Hfresh; by right|apply _|].
    intros E. apply Hn. rewrite E. by apply list_elem_of_fmap_2.
Qed.

(** The users of [id] by index, once per input. *)
Fixpoint users_from (k : nat) (nodes : list QueryNodeV2) (id : string) : list nat :=
  match nodes with
  | [] => []
  | n :: nodes => replicate (occ id (qn_inputs n)) k ++ users_from (S k) nodes id
  end.

Section Edges.
Variable ids : btree nat.

Lemma dag_input_eq k out i : dag_input ids k out i =
  match bt_get cmp_str i ids with
  | Some p => Ok (alter (fun l => l ++ [k]) p out)
  | None => Err (bind_invalid "missing_input")
  end.
Proof. unfold dag_input. by destruct (bt_get cmp_str i ids). Qed.

Lemma dag_inputs_Ok k inputs out out' : try_for (dag_input ids k) out inputs = Ok out' ->
  (forall i, i ∈ inputs -> is_Some (bt_get cmp_str i ids)) /\ length out' = length out /\
  forall id p, bt_get cmp_str id ids = Some p ->
    (forall id', bt_get cmp_str id' ids = Some p -> id' = id) ->
    out' !! p = (fun l => l ++ replicate (occ id inputs) k) <$> out !! p.
Proof.
  revert out; induction inputs as [|i inputs IH]; intros out.
  { intros [= <-]. split_and!; [intros i Hi; by apply elem_of_nil in Hi|done|].
    intros id p _ _. destruct (out !! p) as [l|]; [|done]. cbn. by rewrite app_nil_r. }
  rewrite try_for_cons, dag_input_eq.
  destruct (bt_get cmp_str i ids) as [q|] eqn:Hq; cbn [mbind result_bind]; [|done].
  intros (Hin & Hlen & Hout)%IH. rewrite length_alter in Hlen. split_and!; [|done|].
  - intros j [->|Hj]%elem_of_cons; [by eexists|auto].
  - intros id p Hp Hinj. rewrite (Hout id p Hp Hinj), occ_cons. destruct (decide (i = id)) as [->|Hne].
    + rewrite Hp in Hq. injection Hq as ->. rewrite list_lookup_alter_eq.
      destruct (out !! q); [|done]. cbn. by rewrite <- app_assoc.
    + rewrite list_lookup_alter_ne; [done|]. intros <-. by apply Hne, Hinj.
Qed.

Lemma dag_edges_Ok k nodes ind out ind' out' : dag_edges ids k nodes ind out = Ok (ind', out') ->
  (forall n i, n ∈ nodes -> i ∈ qn_inputs n -> is_Some (bt_get cmp_str i ids)) /\
  length ind' = length ind /\ length out' = length out /\
  (forall i, i < k -> ind' !! i = ind !! i) /\
  (forall j n, nodes !! j = Some n -> k + j < length ind -> ind' !! (k + j) = Some (length (qn_inputs n))) /\
  forall id p, bt_get cmp_str id ids = Some p ->
    (forall id', bt_get cmp_str id' ids = Some p -> id' = id) ->
    out' !! p = (fun l => l ++ users_from k nodes id) <$> out !! p.
Proof.
  revert k ind out; induction nodes as [|n nodes IH]; intros k ind out; cbn [dag_edges].
  { intros [= <- <-]. split_and!; try done; [intros n i Hn; by apply elem_of_nil in Hn|].
    intros id p _ _. cbn [users_from]. destruct (out !! p) as [l|]; [|done]. cbn. by rewrite app_nil_r. }
  intros (out1 & (Hin1 & Hl1 & Ho1)%dag_inputs_Ok & H)%bind_Ok.
  apply IH in H as (Hin & Hl & Hlo & Hlt & Hind & Ho). rewrite length_insert in *.
  split_and!; [|done|congruence| | |].
  - intros m i [->|Hm]%elem_of_cons; [apply Hin1|by apply Hin].
  - intros i Hi. rewrite Hlt by lia. by rewrite list_lookup_insert_ne by lia.
  - intros [|j] m Hm Hj; cbn [lookup list_lookup] in Hm.
    + injection Hm as <-. rewrite Nat.add_0_r in *. rewrite Hlt by lia.
      by rewrite list_lookup_insert_eq by lia.
    + rewrite <- Nat.add_succ_comm in *. by apply Hind.
  - intros id p Hp Hinj. rewrite (Ho id p Hp Hinj), (Ho1 id p Hp Hinj).
    destruct (out !! p); [|done]. cbn. by rewrite <- app_assoc.
Qed.

Lemma dag_edges_total k nodes ind out :
  (forall n i, n ∈ nodes -> i ∈ qn_inputs n -> is_Some (bt_get cmp_str i ids)) ->
  exists r, dag_edges ids k nodes ind out = Ok r.
Proof.
  revert k ind out; induction nodes as [|n nodes IH]; intros k ind out H; [by eexists|].
  cbn [dag_edges]. assert (exists o, try_for (dag_input ids k) out (qn_inputs n) = Ok o) as [o ->].
  { assert (forall i, i ∈ qn_inputs n -> is_Some (bt_get cmp_str i ids)) as Hn
      by (intros i; apply H; left). clear -Hn. revert out.
    induction (qn_inputs n) as [|i l IHl]; intros out; [by eexists|].
    rewrite try_for_cons, dag_input_eq. destruct (Hn i ltac:(left)) as [p ->].
    cbn [mbind result_bind]. apply IHl. intros j Hj. apply Hn. by right. }
  cbn [mbind result_bind]. apply IH. intros m i Hm. apply H. by right.
Qed.
End Edges.

(** ** The loop *)

Section Loop.
Variable nodes : list QueryNodeV2.
Variable ids : btree nat.
Notation names := (qn_id <$> nodes).
Notation inputs := (inputs_of nodes).
Notation name_at := (name_at nodes).
Hypothesis names_nodup : NoDup names.
Hypothesis ids_pos : forall id, bt_get cmp_str id ids = node_pos nodes id.
Hypothesis inputs_named : forall n i, n ∈ nodes -> i ∈ qn_inputs n -> i ∈ names.

Lemma name_at_lookup i n : nodes !! i = Some n -> name_at i = qn_id n.
Proof. unfold WireOrder.name_at. by intros ->. Qed.
Lemma name_at_names i : i < length nodes -> name_at i ∈ names.
Proof.
  intros [n Hn]%lookup_lt_is_Some_2. rewrite (name_at_lookup i n Hn). apply list_elem_of_fmap_2.
  by eapply list_elem_of_lookup_2.
Qed.
Lemma index_of_pos i n : nodes !! i = Some n -> index_of ids (qn_id n) = i.
Proof. intros Hn. unfold index_of. by rewrite ids_pos, (node_pos_lookup _ i n). Qed.
Lemma index_name i : i < length nodes -> index_of ids (name_at i) = i.
Proof. intros [n Hn]%lookup_lt_is_Some_2. rewrite (name_at_lookup i n Hn). by apply index_of_pos. Qed.
Lemma name_index id : id ∈ names -> index_of ids id < length nodes /\ name_at (index_of ids id) = id.
Proof.
  intros (n & -> & [i Hi]%list_elem_of_lookup_1)%list_elem_of_fmap.
  rewrite (index_of_pos i n Hi). split; [by eapply lookup_lt_Some|by apply name_at_lookup].
Qed.
Lemma inputs_closed a b : a ∈ names -> b ∈ inputs a -> b ∈ names.
Proof. intros (n & -> & Hn)%list_elem_of_fmap. rewrite inputs_of_elem by done. by apply inputs_named. Qed.

Lemma users_from_names k l r id : nodes = l ++ r -> length l = k ->
  name_at <$> users_from k r id = users r id.
Proof.
  revert k l; induction r as [|n r IH]; intros k l E Hl; [done|].
  cbn [users_from]. unfold users. rewrite fmap_app, fmap_cons. cbn [concat]. f_equal.
  - rewrite fmap_replicate, (name_at_lookup k n); [done|].
    by rewrite E, lookup_app_r, Hl, Nat.sub_diag by lia.
  - apply (IH (S k) (l ++ [n])); [by rewrite <- app_assoc|rewrite length_app; cbn; lia].
Qed.
Lemma users_from_lt k r id c : c ∈ users_from k r id -> c < k + length r.
Proof.
  revert k; induction r as [|n r IH]; intros k; cbn [users_from length].
  - intros Hc. by apply elem_of_nil in Hc.
  - intros [[-> _]%elem_of_replicate|Hc%IH]%elem_of_app; lia.
Qed.

(** The counters and the depths by name. *)
Definition deg (indegree : list nat) (id : string) : nat :=
  default 0 (indegree !! index_of ids id).
Definition depth_at (depths : list Z) (id : string) : Z :=
  default 1%Z (depths !! index_of ids id).

Lemma dag_child_deg index ind dep ready c :
  length ind = length nodes -> c < length nodes ->
  let s := dag_child nodes index (ind, dep, ready) c in
  s.1.1 = alter pred c ind /\
  (forall a, a ∈ names -> deg (alter pred c ind) a
     = if decide (name_at c = a) then pred (deg ind a) else deg ind a) /\
  s.2 = if deg (alter pred c ind) (name_at c) =? 0 then bs_insert (name_at c) ready else ready.
Proof.
  intros Hl Hc. cbn [dag_child fst snd]. split_and!; [done| |].
  - intros a Ha. destruct (name_index a Ha) as [Hi Ea]. unfold deg.
    case_decide as E.
    + subst a. rewrite index_name by done. rewrite list_lookup_alter_eq.
      by destruct (ind !! c).
    + rewrite list_lookup_alter_ne; [done|]. intros ->. congruence.
  - unfold deg. rewrite index_name by done.
    destruct (lookup_lt_is_Some_2 nodes c Hc) as [n Hn]. rewrite Hn, (name_at_lookup c n Hn).
    destruct (lookup_lt_is_Some_2 (alter pred c ind) c) as [k ->]; [rewrite length_alter; lia|done].
Qed.

(** Relaxing by index is relaxing by name. *)
Lemma dag_children_kahn index cs ind dep ready m :
  length ind = length nodes -> (forall c, c ∈ cs -> c < length nodes) ->
  (forall a, a ∈ names -> m a = deg ind a) ->
  let s := foldl (dag_child nodes index) (ind, dep, ready) cs in
  let r := foldl relax (m, ready) (name_at <$> cs) in
  s.2 = r.2 /\ length s.1.1 = length nodes /\ forall a, a ∈ names -> r.1 a = deg s.1.1 a.
Proof.
  revert ind dep ready m; induction cs as [|c cs IH]; intros ind dep ready m Hl Hcs Hm; [done|].
  cbv zeta. rewrite fmap_cons. cbn [foldl].
  assert (c < length nodes) as Hc by (apply Hcs; left).
  destruct (dag_child_deg index ind dep ready c Hl Hc) as (E1 & E2 & E3).
  destruct (dag_child nodes index (ind, dep, ready) c) as [[ind1 dep1] ready1].
  cbn [fst snd] in *. subst ind1.
  assert (forall a, a ∈ names -> (relax (m, ready) (name_at c)).1 a = deg (alter pred c ind) a) as Hm1.
  { intros a Ha. cbn. rewrite (E2 a Ha), (Hm a Ha). done. }
  assert (ready1 = (relax (m, ready) (name_at c)).2) as ->.
  { rewrite E3. cbn [relax fst snd]. change (cnt_get ?f ?a) with (f a).
    specialize (Hm1 (name_at c) (name_at_names c Hc)). cbn [relax fst] in Hm1. by rewrite Hm1. }
  destruct (relax (m, ready) (name_at c)) as [m1 w1]. cbn [fst snd] in *.
  apply IH; [by rewrite length_alter|intros d Hd; apply Hcs; by right|done].
Qed.

(** The depths of the users of the node just taken. *)
Lemma dag_children_depths index cs ind dep ready : index ∉ cs ->
  let s := foldl (dag_child nodes index) (ind, dep, ready) cs in
  forall i, s.1.2 !! i =
    (fun d => if decide (i ∈ cs) then Z.max d (default 1%Z (dep !! index) + 1) else d) <$> dep !! i.
Proof.
  cbv zeta. revert ind dep ready; induction cs as [|c cs IH]; intros ind dep ready Hi i; cbn [foldl].
  - cbn [fst snd]. destruct (dep !! i); [|done].
    cbn [fmap option_fmap option_map]. by rewrite decide_False by apply not_elem_of_nil.
  - apply not_elem_of_cons in Hi as [Hic Hi]. cbn [dag_child]. rewrite IH by done.
    rewrite (list_lookup_alter_ne _ _ c index) by done.
    destruct (decide (i = c)) as [->|Hne].
    + rewrite list_lookup_alter_eq. destruct (dep !! c) as [d|]; [|done]. cbn [fmap option_fmap option_map].
      rewrite (decide_True (P := c ∈ c :: cs)) by left. f_equal. case_decide; lia.
    + rewrite list_lookup_alter_ne by done. destruct (dep !! i) as [d|]; [|done].
      cbn [fmap option_fmap option_map]. f_equal.
      destruct (decide (i ∈ cs)), (decide (i ∈ c :: cs)) as [H|H]; try done.
      * destruct H. by right.
      * apply elem_of_cons in H as [?|?]; done.
Qed.

Lemma dag_children_sorted index cs ind dep ready : bs_sorted ready ->
  bs_sorted (foldl (dag_child nodes index) (ind, dep, ready) cs).2.
Proof.
  revert ind dep ready; induction cs as [|c cs IH]; intros ind dep ready Hs; [done|].
  cbn [foldl dag_child]. apply IH. repeat case_match; try done. by apply bs_insert_sorted.
Qed.

Lemma dag_children_length index cs ind dep ready :
  length (foldl (dag_child nodes index) (ind, dep, ready) cs).1.2 = length dep.
Proof.
  revert ind dep ready; induction cs as [|c cs IH]; intros ind dep ready; [done|].
  cbn [foldl dag_child]. by rewrite IH, length_alter.
Qed.

Lemma users_elem id a : a ∈ names -> a ∈ users nodes id <-> id ∈ inputs a.
Proof.
  intros Ha. rewrite <- !occ_pos, (users_occ nodes id a names_nodup), decide_True by done. done.
Qed.
Lemma users_index id a : a ∈ names ->
  index_of ids a ∈ users_from 0 nodes id <-> id ∈ inputs a.
Proof.
  intros Ha. rewrite <- (users_elem id a Ha), <- (users_from_names 0 [] nodes id eq_refl eq_refl).
  destruct (name_index a Ha) as [Hi Ea]. rewrite list_elem_of_fmap. split.
  - intros Hc. by exists (index_of ids a).
  - intros (c & Ec & Hc). pose proof (users_from_lt 0 nodes id c Hc) as Hlt. cbn in Hlt.
    by rewrite Ec, index_name.
Qed.

(** A numbering from one that every edge increases. *)
Definition ranking (rank : string -> Z) : Prop :=
  forall a, a ∈ names -> (1 <= rank a)%Z /\ forall b, b ∈ inputs a -> (rank b < rank a)%Z.

Record sorting (ind : list nat) (dep : list Z) (ready : list string) (order : list nat) : Prop := {
  so_bound i : i ∈ order -> i < length nodes;
  so_kahn : kahn_inv names inputs (name_at <$> order) (deg ind) ready;
  so_ind : length ind = length nodes;
  so_dep : length dep = length nodes;
  so_ready : bs_sorted ready;
  so_least : least_first names inputs (name_at <$> order);
  so_pos a : a ∈ names -> (1 <= depth_at dep a)%Z;
  so_edge x c : x ∈ name_at <$> order -> c ∈ names -> x ∈ inputs c ->
    (depth_at dep x + 1 <= depth_at dep c)%Z;
  so_done x : x ∈ name_at <$> order -> (depth_at dep x <= MAX_DEPTH)%Z;
  so_rank rank a : ranking rank -> a ∈ names -> (depth_at dep a <= rank a)%Z;
}.

Lemma kahn_inv_ext order (m m' : string -> nat) w : (forall a, a ∈ names -> m a = m' a) ->
  kahn_inv names inputs order m w -> kahn_inv names inputs order m' w.
Proof.
  intros Hm []. split; try done. intros a Ha. rewrite <- ki_get by done. symmetry. by apply Hm.
Qed.

Lemma depth_after ind dep ready id a :
  a ∈ names -> id ∈ names -> length dep = length nodes -> id ∉ inputs id ->
  depth_at (foldl (dag_child nodes (index_of ids id)) (ind, dep, ready) (users_from 0 nodes id)).1.2 a
  = if decide (id ∈ inputs a) then Z.max (depth_at dep a) (depth_at dep id + 1) else depth_at dep a.
Proof.
  intros Ha Hid Hl Hn. unfold depth_at.
  rewrite (dag_children_depths (index_of ids id)) by by rewrite users_index.
  destruct (name_index a Ha) as [Hi _].
  destruct (lookup_lt_is_Some_2 dep (index_of ids a)) as [d Hd]; [lia|]. rewrite Hd.
  cbn [fmap option_fmap option_map default]. pose proof (users_index id a Ha) as Hu.
  destruct (decide (index_of ids a ∈ users_from 0 nodes id)), (decide (id ∈ inputs a)); tauto.
Qed.

Lemma least_next ind dep ready id order :
  sorting ind dep (id :: ready) order ->
  least_first names inputs ((name_at <$> order) ++ [id]).
Proof.
  intros S l a r E b Hb Hbl Hbi. destruct r as [|z r _] using rev_ind.
  - apply app_inj_tail in E as [<- <-].
    assert (b ∈ (name_at <$> order) ++ id :: ready) as Hin.
    { apply (ki_ready _ _ _ _ _ (so_kahn _ _ _ _ S)); [done|]. by apply missing_0. }
    apply elem_of_app in Hin as [Hin|[->|Hin]%elem_of_cons]; [done|by rewrite (cmp_refl cmp_str)|].
    pose proof (StronglySorted_inv (so_ready _ _ _ _ S)) as [_ Hs]. rewrite Forall_forall in Hs.
    by rewrite (Hs b Hin).
  - rewrite app_comm_cons, app_assoc in E. apply app_inj_tail in E as [E _].
    by apply (so_least _ _ _ _ S l a r).
Qed.

Lemma sorting_step ind dep ready id order :
  sorting ind dep (id :: ready) order -> (depth_at dep id <= MAX_DEPTH)%Z ->
  let s := foldl (dag_child nodes (index_of ids id)) (ind, dep, ready) (users_from 0 nodes id) in
  sorting s.1.1 s.1.2 s.2 (order ++ [index_of ids id]).
Proof.
  intros S Hd. cbv zeta.
  assert (id ∈ names) as Hid.
  { apply (ki_nodes _ _ _ _ _ (so_kahn _ _ _ _ S)). apply elem_of_app. right. left. }
  destruct (name_index id Hid) as [Hi Eid].
  assert (forall x c, occ c (users nodes x) = if decide (c ∈ names) then occ x (inputs c) else 0) as Hocc
    by (intros x c; by apply users_occ).
  pose proof (kahn_step names inputs (users nodes) Hocc _ _ (id :: ready) ready id
    (so_kahn _ _ _ _ S) eq_refl) as Hk.
  pose proof (fun c => kahn_children names inputs (users nodes) Hocc _ _ (id :: ready) ready id c
    (so_kahn _ _ _ _ S) eq_refl) as Hch.
  assert (id ∉ inputs id) as Hself by (intros H; apply (users_elem id id Hid), Hch in H; tauto).
  pose proof (dag_children_kahn (index_of ids id) (users_from 0 nodes id) ind dep ready (deg ind)
    (so_ind _ _ _ _ S) (users_from_lt 0 nodes id) (fun a _ => eq_refl)) as (E1 & E2 & E3).
  rewrite (users_from_names 0 [] nodes id eq_refl eq_refl) in E1, E3.
  pose proof (fun a Ha => depth_after ind dep ready id a Ha Hid (so_dep _ _ _ _ S) Hself) as Hdep.
  pose proof (dag_children_sorted (index_of ids id) (users_from 0 nodes id) ind dep ready
    (proj1 (StronglySorted_inv (so_ready _ _ _ _ S)))) as Hsort.
  pose proof (dag_children_length (index_of ids id) (users_from 0 nodes id) ind dep ready) as Hlen.
  destruct (foldl (dag_child nodes (index_of ids id)) (ind, dep, ready) (users_from 0 nodes id))
    as [[ind' dep'] ready']. destruct (foldl relax (deg ind, ready) (users nodes id)) as [m' w'].
  cbn [fst snd] in *. subst w'.
  assert (name_at <$> (order ++ [index_of ids id]) = (name_at <$> order) ++ [id]) as En
    by (rewrite fmap_app; cbn; by rewrite Eid).
  split; rewrite ?En; try done.
  - intros i [Hin| ->%list_elem_of_singleton]%elem_of_app; [by apply (so_bound _ _ _ _ S)|done].
  - by eapply kahn_inv_ext.
  - rewrite Hlen. apply (so_dep _ _ _ _ S).
  - by eapply least_next.
  - intros a Ha. rewrite (Hdep a Ha). pose proof (so_pos _ _ _ _ S a Ha). case_decide; lia.
  - intros x c [Hx| ->%list_elem_of_singleton]%elem_of_app Hc Hxc.
    + assert (x ∈ names) as Hxn
        by (apply (ki_nodes _ _ _ _ _ (so_kahn _ _ _ _ S)), elem_of_app; by left).
      rewrite (Hdep x Hxn), (Hdep c Hc), decide_False.
      * pose proof (so_edge _ _ _ _ S x c Hx Hc Hxc). case_decide; lia.
      * intros H. apply (users_elem id x Hxn), Hch in H. tauto.
    + rewrite (Hdep id Hid), (Hdep c Hc), decide_False, decide_True by done. lia.
  - intros x [Hx| ->%list_elem_of_singleton]%elem_of_app.
    + assert (x ∈ names) as Hxn
        by (apply (ki_nodes _ _ _ _ _ (so_kahn _ _ _ _ S)), elem_of_app; by left).
      rewrite (Hdep x Hxn), decide_False; [by apply (so_done _ _ _ _ S)|].
      intros H. apply (users_elem id x Hxn), Hch in H. tauto.
    + by rewrite (Hdep id Hid), decide_False.
  - intros rank a Hr Ha. rewrite (Hdep a Ha). pose proof (so_rank _ _ _ _ S rank a Hr Ha).
    case_decide as Hia; [|lia]. pose proof (so_rank _ _ _ _ S rank id Hr Hid).
    destruct (Hr a Ha) as [_ H1]. specialize (H1 id Hia). lia.
Qed.

(** The loop either orders every node it can, or meets a node that is too deep. *)
Lemma dag_loop_spec outgoing fuel ind dep ready order :
  (forall id, id ∈ names -> default [] (outgoing !! index_of ids id) = users_from 0 nodes id) ->
  sorting ind dep ready order -> length nodes <= fuel + length order ->
  (exists ind' dep' order', dag_loop ids nodes outgoing fuel ind dep ready order = Ok order' /\
     sorting ind' dep' [] order') \/
  (dag_loop ids nodes outgoing fuel ind dep ready order = Err (bind_invalid "dag_depth") /\
   forall rank, ranking rank -> exists a, a ∈ names /\ (MAX_DEPTH < rank a)%Z).
Proof.
  intros Hout. revert ind dep ready order; induction fuel as [|fuel IH]; intros ind dep ready order S Hf.
  - left. exists ind, dep, order. split; [done|].
    pose proof (kahn_inv_length _ _ _ _ _ (so_kahn _ _ _ _ S)) as Hl.
    rewrite !length_fmap in Hl. destruct ready; [done|]. cbn in Hl. lia.
  - destruct ready as [|id ready]; cbn [dag_loop]; [left; by exists ind, dep, order|].
    assert (id ∈ names) as Hid.
    { apply (ki_nodes _ _ _ _ _ (so_kahn _ _ _ _ S)). apply elem_of_app. right. left. }
    fold (depth_at dep id). destruct (Z.ltb_spec MAX_DEPTH (depth_at dep id)) as [Hd|Hd].
    + right. split; [done|]. intros rank Hr. exists id. split; [done|].
      pose proof (so_rank _ _ _ _ S rank id Hr Hid). lia.
    + rewrite (Hout id Hid). pose proof (sorting_step ind dep ready id order S Hd) as Hs.
      cbv zeta in Hs. destruct (foldl _ _ _) as [[ind' dep'] ready']. cbn [fst snd] in Hs.
      apply IH; [done|]. rewrite length_app. cbn [length]. lia.
Qed.

(** ** Where the loop starts *)

Definition ready_names (ind : list nat) : list string :=
  (filter (fun kv : string * nat => default 1 (ind !! kv.2) = 0) ids).*1.

Lemma inputs_at i n : nodes !! i = Some n -> inputs (qn_id n) = qn_inputs n.
Proof. intros Hi. apply inputs_of_elem; [done|by eapply list_elem_of_lookup_2]. Qed.

Lemma sorting_start ind : bt_sorted cmp_str ids -> length ind = length nodes ->
  (forall j n, nodes !! j = Some n -> ind !! j = Some (length (qn_inputs n))) ->
  sorting ind (replicate (length nodes) 1%Z) (ready_names ind) [].
Proof.
  intros Hs Hl Hind.
  assert (forall a, a ∈ names -> ind !! index_of ids a = Some (length (inputs a))) as Hdeg.
  { intros a (n & -> & [i Hi]%list_elem_of_lookup_1)%list_elem_of_fmap.
    rewrite (index_of_pos i n Hi), (inputs_at i n Hi). by apply Hind. }
  assert (forall a, depth_at (replicate (length nodes) 1%Z) a = 1%Z) as Hdep.
  { intros a. unfold depth_at. destruct (_ !! _) as [d|] eqn:E; [|done].
    by apply lookup_replicate in E as [-> _]. }
  assert (bs_sorted (ready_names ind)) as Hready.
  { unfold ready_names. clear -Hs. unfold bt_sorted in Hs. induction Hs as [|[k v] l Hl IH Hf]; [constructor|].
    rewrite filter_cons. case_decide; [|done]. rewrite fmap_cons. constructor; [done|].
    apply Forall_forall. intros s ([k' v'] & -> & [_ Hin]%list_elem_of_filter)%list_elem_of_fmap.
    rewrite Forall_forall in Hf. by apply Hf in Hin. }
  split; try done.
  - intros i Hi. by apply elem_of_nil in Hi.
  - apply kahn_init.
    + cbn. clear -Hready. induction Hready as [|s l Hl IH Hf]; constructor; [|done].
      intros Hin. rewrite Forall_forall in Hf. specialize (Hf s Hin). by rewrite (cmp_refl cmp_str) in Hf.
    + cbn. intros a. unfold ready_names. rewrite list_elem_of_fmap. split.
      * intros ([k i] & -> & [H0 Hk]%list_elem_of_filter). cbn [fst snd] in *.
        apply (bt_get_sorted cmp_str) in Hk; [|done]. rewrite ids_pos in Hk.
        destruct (node_pos_Some _ _ _ Hk) as (n & Hn & <-).
        rewrite (Hind i n Hn) in H0. rewrite (inputs_at i n Hn).
        split; [apply list_elem_of_fmap_2; by eapply list_elem_of_lookup_2|done].
      * intros [Ha H0]. pose proof (Hdeg a Ha) as Hd.
        destruct (node_pos nodes a) as [i|] eqn:Ei; [|by apply node_pos_None in Ei].
        exists (a, i). split; [done|]. apply list_elem_of_filter. cbn [snd].
        unfold index_of in Hd. rewrite ids_pos, Ei in Hd. cbn in Hd. rewrite Hd. split; [done|].
        apply (bt_get_Some_elem cmp_str). by rewrite ids_pos.
    + intros a Ha. cbn. unfold deg. by rewrite (Hdeg a Ha).
  - by rewrite length_replicate.
  - intros l a r E. by destruct l.
  - intros a _. rewrite Hdep. lia.
  - intros x c Hx. by apply elem_of_nil in Hx.
  - intros x Hx. by apply elem_of_nil in Hx.
  - intros rank a Hr Ha. rewrite Hdep. by apply Hr.
Qed.

(** The depths of a complete order number the nodes. *)
Lemma depths_rank ind dep order : sorting ind dep [] order -> length order = length nodes ->
  ranking (depth_at dep) /\ forall a, a ∈ names -> (depth_at dep a <= MAX_DEPTH)%Z.
Proof.
  intros S Hl.
  assert (topological names inputs (name_at <$> order)) as [Hp _].
  { apply (proj2 (kahn_final names inputs names_nodup inputs_closed _ _ [] (so_kahn _ _ _ _ S) eq_refl)).
    by rewrite !length_fmap. }
  assert (forall a, a ∈ names -> a ∈ name_at <$> order) as Hin by (intros a Ha; by rewrite Hp).
  split.
  - intros a Ha. split; [by apply (so_pos _ _ _ _ S)|]. intros b Hb.
    pose proof (so_edge _ _ _ _ S b a (Hin b (inputs_closed a b Ha Hb)) Ha Hb). lia.
  - intros a Ha. by apply (so_done _ _ _ _ S), Hin.
Qed.

(** ** Reachability *)

Definition reaches (a b : string) : Prop := b ∈ inputs a.

Lemma input_indices_uses i j : i < length nodes ->
  uses (input_indices ids nodes) i j <-> j < length nodes /\ reaches (name_at i) (name_at j).
Proof.
  intros [n Hn]%lookup_lt_is_Some_2. unfold uses, input_indices, reaches.
  rewrite Hn, (name_at_lookup i n Hn), (inputs_at i n Hn), list_elem_of_fmap. split.
  - intros (x & -> & Hx). destruct (name_index x) as [Hi Ex].
    + eapply inputs_named; [by eapply list_elem_of_lookup_2|done].
    + by rewrite Ex.
  - intros [Hj Hx]. exists (name_at j). by rewrite index_name.
Qed.
Lemma reach_names i j : i < length nodes ->
  rtc (uses (input_indices ids nodes)) i j <-> j < length nodes /\ rtc reaches (name_at i) (name_at j).
Proof.
  intros Hi. split.
  - induction 1 as [i|i k j Hik _ IH]; [by split; [|constructor]|].
    apply input_indices_uses in Hik as [Hk Hik]; [|done]. destruct (IH Hk) as [Hj Hr].
    split; [done|]. by econstructor.
  - intros [Hj Hr]. remember (name_at i) as a eqn:Ea. revert i Hi Ea.
    remember (name_at j) as b eqn:Eb. induction Hr as [a|a c b Hac _ IH]; intros i Hi Ea.
    + assert (i = j) as ->; [|constructor].
      rewrite <- (index_name i Hi), <- (index_name j Hj). congruence.
    + assert (c ∈ names) as Hc by (apply (inputs_closed a); [subst a; by apply name_at_names|done]).
      destruct (name_index c Hc) as [Hci Ec].
      apply rtc_l with (index_of ids c); [|by apply IH].
      apply input_indices_uses; [done|]. rewrite Ec, <- Ea. done.
Qed.

Lemma dag_reachable_spec root : root < length nodes ->
  existsb (fun i => bool_decide (i ∉ dag_reachable ids nodes root)) (seq 0 (length nodes)) = false <->
  forall a, a ∈ names -> rtc reaches (name_at root) a.
Proof.
  intros Hroot. rewrite existsb_false.
  assert (forall i, i ∈ dag_reachable ids nodes root <-> rtc (uses (input_indices ids nodes)) root i) as Hs.
  { apply (reach_spec _ (length nodes)); [|done]. intros i Hi. unfold input_indices.
    by rewrite lookup_ge_None_2. }
  split.
  - intros H a Ha. destruct (name_index a Ha) as [Hi Ea].
    specialize (H (index_of ids a)). rewrite bool_decide_eq_false in H.
    assert (index_of ids a ∈ dag_reachable ids nodes root) as Hin.
    { apply dec_stable, H. apply elem_of_seq. lia. }
    apply Hs, reach_names in Hin as [_ Hin]; [|done]. by rewrite Ea in Hin.
  - intros H i Hi%elem_of_seq. apply bool_decide_eq_false. intros Hn. apply Hn, Hs, reach_names; [done|].
    split; [lia|]. apply H, name_at_names. lia.
Qed.
End Loop.

(** ** The whole validation *)

(** What an operator graph must be: named operators of the right arity, each used by
    the root, numbered from 1 to 128 so that every operator comes after its inputs. *)
Record dag_ok (ir : QueryIrV2) : Prop := {
  do_version : ir_contract_version ir = "query-ir.v2"%string;
  do_count : (1 <= zlen (ir_nodes ir) <= MAX_NODES)%Z;
  do_root_symbol : is_symbol (ir_root ir) = true;
  do_params key ty : (key, ty) ∈ ir_parameter_types ir -> is_symbol key = true /\ ty <> EmptyString;
  do_nodes n : n ∈ ir_nodes ir ->
    is_symbol (qn_id n) = true /\ length (qn_inputs n) = arity (qn_op n);
  do_distinct : NoDup (qn_id <$> ir_nodes ir);
  do_root : ir_root ir ∈ qn_id <$> ir_nodes ir;
  do_inputs n i : n ∈ ir_nodes ir -> i ∈ qn_inputs n -> i ∈ qn_id <$> ir_nodes ir;
  do_used a : a ∈ qn_id <$> ir_nodes ir -> rtc (reaches (ir_nodes ir)) (ir_root ir) a;
  do_depth : exists rank, ranking (ir_nodes ir) rank /\
    forall a, a ∈ qn_id <$> ir_nodes ir -> (rank a <= MAX_DEPTH)%Z;
}.

(** The order of a valid graph: every operator once, after its inputs, and the least
    ready name first. *)
Record dag_order (nodes : list QueryNodeV2) (order : list nat) : Prop := {
  or_bound i : i ∈ order -> i < length nodes;
  or_topological : topological (qn_id <$> nodes) (inputs_of nodes) (name_at nodes <$> order);
  or_least : least_first (qn_id <$> nodes) (inputs_of nodes) (name_at nodes <$> order);
}.

Lemma declarations_ok (params : list (string * string)) :
  existsb invalid_declaration params = false <->
  forall key ty, (key, ty) ∈ params -> is_symbol key = true /\ ty <> EmptyString.
Proof.
  rewrite existsb_false. unfold invalid_declaration. split.
  - intros H key ty Hin. specialize (H _ Hin).
    by rewrite orb_false_iff, negb_false_iff, bool_decide_eq_false in H.
  - intros H [key ty] Hin. specialize (H _ _ Hin).
    by rewrite orb_false_iff, negb_false_iff, bool_decide_eq_false.
Qed.

Section Validate.
Variable ir : QueryIrV2.
Variables (ids : btree nat) (root : nat) (ind : list nat) (out : list (list nat)).
Notation nodes := (ir_nodes ir).
Hypothesis Hids : dag_ids 0 [] nodes = Ok ids.
Hypothesis Hroot : bt_get cmp_str (ir_root ir) ids = Some root.
Hypothesis Hedges : dag_edges ids 0 nodes (replicate (length nodes) 0) (replicate (length nodes) [])
  = Ok (ind, out).

(** The part of the validation after the passes over the nodes. *)
Definition dag_rest : query (list nat) :=
  if existsb (fun i => bool_decide (i ∉ dag_reachable ids nodes root)) (seq 0 (length nodes))
  then Err (bind_invalid "orphan_node")
  else
    order ← dag_loop ids nodes out (length nodes) ind (replicate (length nodes) 1%Z)
              (ready_names ids ind) [];
    if negb (length order =? length nodes) then Err (bind_invalid "cycle") else Ok order.

Lemma ids_facts :
  NoDup (qn_id <$> nodes) /\ bt_sorted cmp_str ids /\
  (forall id, bt_get cmp_str id ids = node_pos nodes id) /\
  (forall n i, n ∈ nodes -> i ∈ qn_inputs n -> i ∈ qn_id <$> nodes).
Proof.
  destruct (dag_ids_Ok 0 [] nodes ids (SSorted_nil _) Hids) as (_ & Hnd & _ & Hs & Hg).
  assert (forall id, bt_get cmp_str id ids = node_pos nodes id) as Hpos
    by (intros id; rewrite Hg; by destruct (node_pos nodes id)).
  split_and!; [done..|]. intros n i Hn Hi.
  destruct (dag_edges_Ok ids 0 nodes _ _ _ _ Hedges) as (Hin & _).
  destruct (Hin n i Hn Hi) as [p Hp]. rewrite Hpos in Hp.
  destruct (decide (i ∈ qn_id <$> nodes)) as [|Hni]; [done|]. apply node_pos_None in Hni. congruence.
Qed.

Lemma root_facts : root < length nodes /\ name_at nodes root = ir_root ir.
Proof.
  destruct ids_facts as (_ & _ & Hpos & _). rewrite Hpos in Hroot.
  destruct (node_pos_Some _ _ _ Hroot) as (n & Hn & E).
  split; [by eapply lookup_lt_Some|]. unfold name_at. by rewrite Hn.
Qed.

Lemma sorting_first : sorting nodes ids ind (replicate (length nodes) 1%Z) (ready_names ids ind) [] /\
  forall id, id ∈ qn_id <$> nodes -> default [] (out !! index_of ids id) = users_from 0 nodes id.
Proof.
  destruct ids_facts as (Hnd & Hs & Hpos & Hin).
  destruct (dag_edges_Ok ids 0 nodes _ _ _ _ Hedges) as (_ & Hl & Hlo & _ & Hind & Hout).
  rewrite !length_replicate in *. split.
  - apply sorting_start; [done..|]. intros j n Hj. apply Hind; [done|].
    cbn. by eapply lookup_lt_Some.
  - intros id Hid. destruct (name_index nodes ids Hnd Hpos id Hid) as [Hi Ei].
    destruct (node_pos nodes id) as [p|] eqn:Ep; [|by apply node_pos_None in Ep].
    assert (index_of ids id = p) as E by (unfold index_of; by rewrite Hpos, Ep). rewrite E in *.
    rewrite (Hout id p); [|by rewrite Hpos|].
    + by rewrite lookup_replicate_2.
    + intros id'. rewrite Hpos. intros Hp'.
      destruct (node_pos_Some _ _ _ Hp') as (n & Hn & <-), (node_pos_Some _ _ _ Ep) as (m & Hm & <-).
      congruence.
Qed.

Lemma dag_rest_Ok order : dag_rest = Ok order ->
  (forall a, a ∈ qn_id <$> nodes -> rtc (reaches nodes) (ir_root ir) a) /\
  (exists rank, ranking nodes rank /\ forall a, a ∈ qn_id <$> nodes -> (rank a <= MAX_DEPTH)%Z) /\
  dag_order nodes order.
Proof.
  destruct ids_facts as (Hnd & Hs & Hpos & Hin), root_facts as [Hr Er], sorting_first as [S0 Hout].
  unfold dag_rest. destruct (existsb _ _) eqn:Hreach; [done|].
  rewrite dag_reachable_spec, Er in Hreach by done.
  destruct (dag_loop_spec nodes ids Hnd Hpos out (length nodes) ind _ _ [] Hout S0)
    as [(ind' & dep' & order' & -> & S')|[-> _]]; [cbn; lia| |done].
  cbn [mbind result_bind]. destruct (Nat.eqb_spec (length order') (length nodes)) as [Hl|]; [|done].
  cbn [negb]. intros [= <-].
  destruct (depths_rank nodes ids Hnd Hin ind' dep' order' S' Hl) as [Hrank Hmax].
  split_and!; [done|by exists (depth_at ids dep')|].
  split; [apply (so_bound _ _ _ _ _ _ S')| |apply (so_least _ _ _ _ _ _ S')].
  apply (proj2 (kahn_final _ _ Hnd (inputs_closed nodes Hnd Hin) _ _ [] (so_kahn _ _ _ _ _ _ S') eq_refl)).
  by rewrite !length_fmap.
Qed.

Lemma dag_rest_total rank :
  (forall a, a ∈ qn_id <$> nodes -> rtc (reaches nodes) (ir_root ir) a) ->
  ranking nodes rank -> (forall a, a ∈ qn_id <$> nodes -> (rank a <= MAX_DEPTH)%Z) ->
  exists order, dag_rest = Ok order.
Proof.
  intros Hused Hrank Hmax.
  destruct ids_facts as (Hnd & Hs & Hpos & Hin), root_facts as [Hr Er], sorting_first as [S0 Hout].
  unfold dag_rest. rewrite <- Er in Hused. rewrite <- dag_reachable_spec in Hused by done.
  rewrite Hused.
  destruct (dag_loop_spec nodes ids Hnd Hpos out (length nodes) ind _ _ [] Hout S0)
    as [(ind' & dep' & order' & -> & S')|[_ H]]; [cbn; lia| |].
  - exists order'. cbn [mbind result_bind].
    assert (length (name_at nodes <$> order') = length (qn_id <$> nodes)) as Hl.
    { apply (proj1 (kahn_final _ _ Hnd (inputs_closed nodes Hnd Hin) _ _ [] (so_kahn _ _ _ _ _ _ S') eq_refl)).
      exists (fun a => Z.to_nat (rank a)). intros a b Ha Hb. destruct (Hrank a Ha) as [H1 H2].
      specialize (H2 b Hb). assert (b ∈ qn_id <$> nodes) as Hbn by by eapply (inputs_closed nodes).
      destruct (Hrank b Hbn). lia. }
    rewrite !length_fmap in Hl. by rewrite Hl, Nat.eqb_refl.
  - destruct (H rank Hrank) as (a & Ha & Hgt). specialize (Hmax a Ha). lia.
Qed.
End Validate.

Lemma validate_dag_accepts ir order :
  validate_dag ir = Ok order -> dag_ok ir /\ dag_order (ir_nodes ir) order.
Proof.
  unfold validate_dag. case_bool_decide as Hv; cbn [negb]; [|done].
  destruct (bool_decide (ir_nodes ir = []) || _) eqn:Hc; [done|].
  apply orb_false_iff in Hc as [Hne%bool_decide_eq_false Hmax%Z.ltb_ge].
  destruct (negb (is_symbol (ir_root ir)) || _) eqn:Hd; [done|].
  apply orb_false_iff in Hd as [Hsym%negb_false_iff Hparams].
  pose proof (proj1 (declarations_ok _) Hparams) as Hdecl.
  intros (ids & Hids & H)%bind_Ok. apply bind_Ok in H as (root & Hroot%ok_or_Ok & H).
  apply bind_Ok in H as ([ind out] & Hedges & H).
  destruct (dag_ids_Ok 0 [] (ir_nodes ir) ids (SSorted_nil _) Hids) as (Hnodes & Hnd & _).
  destruct (ids_facts ir ids ind out Hids Hedges) as (_ & _ & Hpos & Hin).
  destruct (dag_rest_Ok ir ids root ind out Hids Hroot Hedges order H) as (Hused & Hrank & Ho).
  split; [|done]. split; try done.
  - split; [|done]. destruct (ir_nodes ir) as [|n l]; [done|]. rewrite zlen_cons.
    pose proof (zlen_nonneg l). lia.
  - rewrite Hpos in Hroot. destruct (node_pos_Some _ _ _ Hroot) as (n & Hn & <-).
    apply list_elem_of_fmap_2. by eapply list_elem_of_lookup_2.
Qed.

Lemma validate_dag_total ir : dag_ok ir -> exists order, validate_dag ir = Ok order.
Proof.
  intros D. unfold validate_dag. rewrite (bool_decide_eq_true_2 _ (do_version _ D)). cbn [negb].
  assert (bool_decide (ir_nodes ir = []) || (MAX_NODES <? zlen (ir_nodes ir))%Z = false) as ->.
  { pose proof (do_count _ D) as Hc. apply orb_false_iff. split; [|apply Z.ltb_ge; lia].
    apply bool_decide_eq_false. intros E. rewrite E in Hc. unfold zlen in Hc. cbn in Hc. lia. }
  rewrite (do_root_symbol _ D). cbn [negb orb].
  rewrite (proj2 (declarations_ok _) (do_params _ D)).
  destruct (dag_ids_total 0 [] (ir_nodes ir) (do_distinct _ D) (do_nodes _ D)) as [ids Hids]; [done|].
  destruct (dag_ids_Ok 0 [] (ir_nodes ir) ids (SSorted_nil _) Hids) as (_ & _ & _ & _ & Hg).
  assert (forall a, a ∈ qn_id <$> ir_nodes ir -> is_Some (bt_get cmp_str a ids)) as Hget.
  { intros a Ha. rewrite Hg. destruct (node_pos (ir_nodes ir) a) eqn:E; [by eexists|].
    by apply node_pos_None in E. }
  rewrite Hids. cbn [mbind result_bind]. destruct (Hget _ (do_root _ D)) as [root Hroot].
  rewrite Hroot. cbn [ok_or mbind result_bind].
  destruct (dag_edges_total ids 0 (ir_nodes ir) (replicate (length (ir_nodes ir)) 0)
    (replicate (length (ir_nodes ir)) [])) as [[ind out] Hedges].
  { intros n i Hn Hi. by apply Hget, (do_inputs _ D n). }
  rewrite Hedges. cbn [mbind result_bind]. destruct (do_depth _ D) as (rank & Hr & Hmax).
  apply (dag_rest_total ir ids root ind out Hids Hroot Hedges rank (do_used _ D) Hr Hmax).
Qed.

(** The order depends on the operators only, not on how they are listed. *)
Lemma inputs_of_perm nodes nodes' a : NoDup (qn_id <$> nodes) -> nodes ≡ₚ nodes' ->
  inputs_of nodes a = inputs_of nodes' a.
Proof.
  intros Hnd Hp. assert (NoDup (qn_id <$> nodes')) as Hnd' by by rewrite <- Hp.
  destruct (decide (a ∈ qn_id <$> nodes)) as [(n & -> & Hn)%list_elem_of_fmap|Hn].
  - rewrite !inputs_of_elem; [done..|by rewrite <- Hp|done|done].
  - assert (forall l, a ∉ qn_id <$> l -> inputs_of l a = []) as Hnil.
    { intros l Hl. unfold inputs_of. destruct (List.find _ l) as [m|] eqn:E; [|done].
      apply List.find_some in E as [Hm E%bool_decide_eq_true]. destruct Hl. rewrite <- E.
      by apply list_elem_of_fmap_2, list_elem_of_In. }
    rewrite !Hnil; [done|by rewrite <- Hp|done].
Qed.
Lemma dag_order_names nodes nodes' o o' : NoDup (qn_id <$> nodes) -> nodes ≡ₚ nodes' ->
  dag_order nodes o -> dag_order nodes' o' -> name_at nodes <$> o = name_at nodes' <$> o'.
Proof.
  intros Hnd Hp [_ Ht Hl] [_ Ht' Hl'].
  apply (least_first_unique (qn_id <$> nodes) (qn_id <$> nodes') (inputs_of nodes));
    try done; [by rewrite Hp| |].
  - split; [apply Ht'|]. intros l a r E b. rewrite (inputs_of_perm nodes nodes') by done.
    by apply (proj2 Ht' l a r E).
  - intros l a r E b Hb Hbl Hbi. apply (Hl' l a r E b Hb Hbl).
    intros i Hi. apply Hbi. by rewrite (inputs_of_perm nodes nodes').
Qed.
(** The operators in order. *)
Definition nodes_at (nodes : list QueryNodeV2) (order : list nat) : list QueryNodeV2 :=
  omap (fun i => nodes !! i) order.

Lemma nodes_at_names nodes order : (forall i, i ∈ order -> i < length nodes) ->
  qn_id <$> nodes_at nodes order = name_at nodes <$> order.
Proof.
  intros Hb. unfold nodes_at. induction order as [|i order IH]; [done|].
  destruct (lookup_lt_is_Some_2 nodes i (Hb i ltac:(left))) as [n Hn].
  cbn [omap list_omap]. rewrite Hn, !fmap_cons. unfold name_at at 1. rewrite Hn. f_equal.
  apply IH. intros j Hj. apply Hb. by right.
Qed.
Lemma nodes_at_elem nodes order n : n ∈ nodes_at nodes order -> n ∈ nodes.
Proof. intros (i & _ & Hi)%list_elem_of_omap. by eapply list_elem_of_lookup_2. Qed.
Lemma fmap_inj_on {A B} (f : A -> B) (l k : list A) :
  (forall a b, a ∈ l -> b ∈ k -> f a = f b -> a = b) -> f <$> l = f <$> k -> l = k.
Proof.
  revert k; induction l as [|a l IH]; intros [|b k] Hf E; try done.
  rewrite !fmap_cons in E. injection E as Ea E. f_equal.
  - apply Hf; [left|left|done].
  - apply IH; [|done]. intros x y Hx Hy. apply Hf; by right.
Qed.
Lemma dag_order_nodes nodes nodes' o o' : NoDup (qn_id <$> nodes) -> nodes ≡ₚ nodes' ->
  dag_order nodes o -> dag_order nodes' o' -> nodes_at nodes o = nodes_at nodes' o'.
Proof.
  intros Hnd Hp D D'. apply (fmap_inj_on qn_id).
  - intros a b Ha%nodes_at_elem Hb%nodes_at_elem E. rewrite <- Hp in Hb.
    apply list_elem_of_lookup_1 in Ha as [i Hi], Hb as [j Hj].
    assert (i = j) as ->; [|congruence].
    apply (NoDup_lookup (qn_id <$> nodes) i j (qn_id a)); [done| |]; rewrite list_lookup_fmap.
    + by rewrite Hi.
    + by rewrite Hj, E.
  - rewrite !nodes_at_names; [by apply dag_order_names|apply D'|apply D].
Qed.
Lemma dag_order_unique nodes o o' : NoDup (qn_id <$> nodes) ->
  dag_order nodes o -> dag_order nodes o' -> o = o'.
Proof.
  intros Hnd D D'. apply (fmap_inj_on (name_at nodes)).
  - intros i j Hi Hj E. apply D in Hi. apply D' in Hj.
    apply lookup_lt_is_Some_2 in Hi as [n Hn], Hj as [m Hm].
    unfold name_at in E. rewrite Hn, Hm in E.
    apply (NoDup_lookup (qn_id <$> nodes) i j (qn_id n)); [done| |]; rewrite list_lookup_fmap.
    + by rewrite Hn.
    + by rewrite Hm, E.
  - by apply dag_order_names.
Qed.

(** What the validation of the operator graph decides, and the order it gives. *)
Lemma validate_dag_iff ir order :
  validate_dag ir = Ok order <-> dag_ok ir /\ dag_order (ir_nodes ir) order.
Proof.
  split; [apply validate_dag_accepts|]. intros [D O].
  destruct (validate_dag_total ir D) as [order' E]. rewrite E. f_equal.
  destruct (validate_dag_accepts ir order' E) as [_ O'].
  apply (dag_order_unique (ir_nodes ir)); [apply D|done..].
Qed.
