(* ===== verification/WireSpec.v ===== *)
(** * What decoding a wire query guarantees

    The properties of [validate_dag] and [decode_ir_v2]: which graphs are accepted, that
    the decoded query does not depend on how its operators are listed, that the wire
    validator accepts only what the contract's validator accepts, and how deep the
    expressions of a decoded query can be; a wire query shows them at work. *)
From stdpp Require Import relations.
From Stdlib Require Import Sorted.
From S2P Require Export WireOrder.
(** ** Symbols are identifiers *)

Lemma chars_fuel_forallb (P : list byte -> bool) (p : byte -> bool) fuel l : length l <= fuel ->
  (forall b, (byte_val b < 128)%Z -> P [b] = p b) ->
  (forall b c, (128 <= byte_val b)%Z -> P (b :: c) = false /\ p b = false) ->
  forallb P (chars_fuel fuel l) = forallb p l.
Proof.
  intros Hl H1 H2. revert l Hl; induction fuel as [|fuel IH]; intros [|b l] Hl; try done.
  { cbn in Hl. lia. }
  cbn [chars_fuel forallb length] in *. destruct (Z.ltb_spec (byte_val b) 128) as [Hb|Hb].
  - assert (utf8_width b = 1) as -> by (unfold utf8_width; by apply Z.ltb_lt in Hb as ->).
    cbn [take drop]. rewrite drop_0, H1 by done. rewrite IH by lia. done.
  - pose proof (utf8_width_pos b). destruct (utf8_width b) as [|w]; [lia|]. cbn [take].
    destruct (H2 b (take w l) Hb) as [-> ->]. done.
Qed.

Lemma symbol_identifier s : is_symbol s = is_identifier s.
Proof.
  unfold is_symbol, is_identifier, chars. pose proof (length_str_bytes s) as Hl.
  destruct (str_bytes s) as [|b l]; [cbn in Hl; by rewrite <- Hl|].
  destruct (str_len s) as [|n]; [done|]. cbn [chars_fuel length] in *. injection Hl as Hl.
  set (first := fun c => char_is 95 c || is_ascii_alphabetic c).
  set (later := fun c => char_is 95 c || is_ascii_alphanumeric c).
  assert (forall b : byte, (byte_val b < 128)%Z ->
    first [b] = byte_is_alphabetic b || byte_is_underscore b /\
    later [b] = byte_is_alphanumeric b || byte_is_underscore b) as Hascii.
  { clear. intros b Hb%Z.ltb_lt. unfold first, later, char_is, is_ascii_alphanumeric,
      is_ascii_alphabetic, is_ascii_lowercase, is_ascii_uppercase, is_ascii_digit, char_in, char_code,
      byte_is_alphanumeric, byte_is_alphabetic, byte_is_digit, byte_is_underscore. rewrite Hb.
    set (v := byte_val b). split; apply Bool.eq_iff_eq_true;
      rewrite ?orb_true_iff, ?andb_true_iff, ?Z.leb_le, ?Z.eqb_eq; lia. }
  assert (forall (b : byte) c, (128 <= byte_val b)%Z -> first (b :: c) = false /\ later (b :: c) = false
    /\ byte_is_alphabetic b || byte_is_underscore b = false
    /\ byte_is_alphanumeric b || byte_is_underscore b = false) as Hwide.
  { clear. intros b c Hb. assert (byte_val b <? 128 = false)%Z as E by by apply Z.ltb_ge.
    assert (char_code (b :: c) = None) as Hn by (destruct c; cbn; by rewrite ?E).
    unfold first, later, char_is, is_ascii_alphanumeric, is_ascii_alphabetic, is_ascii_lowercase,
      is_ascii_uppercase, is_ascii_digit, char_in, byte_is_alphanumeric, byte_is_alphabetic,
      byte_is_digit, byte_is_underscore. rewrite Hn.
    set (v := byte_val b) in *. split_and!; [done..| |]; apply not_true_iff_false;
      rewrite ?orb_true_iff, ?andb_true_iff, ?Z.leb_le, ?Z.eqb_eq; lia. }
  destruct (Z.ltb_spec (byte_val b) 128) as [Hb|Hb].
  - assert (utf8_width b = 1) as -> by (unfold utf8_width; by apply Z.ltb_lt in Hb as ->).
    cbn [take drop]. rewrite drop_0, firstn_O. change (char_is 95 [b] || is_ascii_alphabetic [b]) with (first [b]).
    rewrite (proj1 (Hascii b Hb)). f_equal. symmetry.
    rewrite (chars_fuel_forallb later (fun c => byte_is_alphanumeric c || byte_is_underscore c));
      [done|lia|by intros; apply Hascii|intros c k Hc; by destruct (Hwide c k Hc) as (_ & ? & _ & ?)].
  - pose proof (utf8_width_pos b). destruct (utf8_width b) as [|w]; [lia|]. cbn [take].
    change (char_is 95 ?c || is_ascii_alphabetic ?c) with (first c).
    destruct (Hwide b (take w l) Hb) as (-> & _ & -> & _). done.
Qed.

(** ** The graph *)

Lemma dag_ok_contract ir : dag_ok ir -> query_ir_ok ir.
Proof.
  intros D. destruct (do_depth _ D) as (rank & Hr & _). split.
  - apply (do_version _ D).
  - apply (do_count _ D).
  - rewrite <- symbol_identifier. apply (do_root_symbol _ D).
  - apply Forall_forall. intros n Hn. rewrite <- symbol_identifier. by apply (do_nodes _ D).
  - apply (do_distinct _ D).
  - apply (do_root _ D).
  - apply Forall_forall. intros [key ty] Hin. rewrite <- symbol_identifier. by apply (do_params _ D).
  - apply (do_inputs _ D).
  - exists (fun a => Z.to_nat (rank a)). intros n i Hn Hi.
    assert (qn_id n ∈ qn_id <$> ir_nodes ir) as Hin by by apply list_elem_of_fmap_2.
    destruct (Hr _ Hin) as [H1 H2]. rewrite inputs_of_elem in H2 by (done || apply (do_distinct _ D)).
    specialize (H2 i Hi). destruct (Hr i (do_inputs _ D n i Hn Hi)). lia.
Qed.

(** C32: The wire validator accepts an operator graph exactly when every operator is named,
    distinct, of its arity, used by the root and numbered from 1 to 128 after its
    inputs; the order it returns is the topological order that always takes the least
    ready name. *)
Theorem validate_dag_Ok ir order :
  validate_dag ir = Ok order <-> dag_ok ir /\ dag_order (ir_nodes ir) order.
Proof. apply validate_dag_iff. Qed.

(** Every graph the wire validator accepts, the contract's validator accepts. *)
Theorem validate_dag_contract ir order :
  validate_dag ir = Ok order -> query_ir_validate ir = Ok tt.
Proof. intros [D _]%validate_dag_iff. by apply query_ir_accepts, dag_ok_contract. Qed.

(** ** Decoding in order *)

Section Decode.
Context `{ConfigCodec}.

Lemma take_node_eq slots typed i n : mjoin (slots !! i) = Some n ->
  take_node (slots, typed) i =
  match decode_node n with
  | Ok t => Ok (<[i := None]> slots, typed ++ [t])
  | Err e => Err e
  end.
Proof. unfold take_node. cbn [fst snd]. by intros ->. Qed.

Lemma take_nodes nodes order slots typed : NoDup order ->
  (forall i, i ∈ order -> i < length nodes) ->
  (forall i, i ∈ order -> mjoin (slots !! i) = nodes !! i) ->
  snd <$> try_for take_node (slots, typed) order
  = app typed <$> traverse decode_node (nodes_at nodes order).
Proof.
  revert slots typed; induction order as [|i order IH]; intros slots typed Hnd Hb Hs.
  { cbn. by rewrite app_nil_r. }
  apply NoDup_cons in Hnd as [Hi Hnd].
  destruct (lookup_lt_is_Some_2 nodes i (Hb i ltac:(left))) as [n Hn].
  rewrite try_for_cons, (take_node_eq slots typed i n) by (rewrite Hs by left; done).
  unfold nodes_at. cbn [omap list_omap]. rewrite Hn. fold (nodes_at nodes order). cbn [traverse].
  destruct (decode_node n) as [t|e]; [|done]. cbn [mbind result_bind].
  rewrite IH; [|done|intros j Hj; apply Hb; by right|].
  - destruct (traverse decode_node (nodes_at nodes order)); [|done]. cbn. by rewrite <- app_assoc.
  - intros j Hj. rewrite list_lookup_insert_ne by (by intros ->). apply Hs. by right.
Qed.

Lemma dag_order_nodup nodes order : NoDup (qn_id <$> nodes) -> dag_order nodes order -> NoDup order.
Proof.
  intros Hnd [_ [Hp _] _]. apply (NoDup_fmap_1 (name_at nodes)). by rewrite Hp.
Qed.

(** Decoding a valid graph checks every configuration, then decodes the operators in
    order. *)
Definition decode_in_order (ir : QueryIrV2) (sorted : list QueryNodeV2) : query LogicalRequestV2 :=
  _ ← try_for (fun _ node => preflight_config (qn_op node) (qn_config node)) tt (ir_nodes ir);
  typed ← traverse decode_node sorted;
  Ok {| lr_nodes := typed; lr_root := ir_root ir;
        lr_parameter_types := ir_parameter_types ir; lr_from_hql := false |}.

Lemma decode_ir_eq ir order : validate_dag ir = Ok order ->
  decode_ir_v2 ir = decode_in_order ir (nodes_at (ir_nodes ir) order).
Proof.
  intros Ho. unfold decode_ir_v2, decode_in_order. rewrite Ho. cbn [mbind result_bind].
  apply validate_dag_iff in Ho as [D O].
  destruct (try_for (fun _ node => preflight_config _ _) tt (ir_nodes ir)); [|done].
  cbn [mbind result_bind].
  pose proof (take_nodes (ir_nodes ir) order (Some <$> ir_nodes ir) []
    (dag_order_nodup _ _ (do_distinct _ D) O) (or_bound _ _ O)) as Ht.
  assert (forall i, i ∈ order -> mjoin ((Some <$> ir_nodes ir) !! i) = ir_nodes ir !! i) as Hs.
  { intros i _. rewrite list_lookup_fmap. by destruct (ir_nodes ir !! i). }
  specialize (Ht Hs). destruct (try_for take_node _ _) as [[s t]|e];
    destruct (traverse decode_node _) as [t'|e']; cbn in Ht |- *; try done;
    by injection Ht as ->.
Qed.

Lemma decode_ir_validates ir req : decode_ir_v2 ir = Ok req -> exists order, validate_dag ir = Ok order.
Proof. unfold decode_ir_v2. intros (order & H1 & _)%bind_Ok. by exists order. Qed.

(** What a decoded query is: its operators are the wire operators, inputs first, each
    with a configuration that decodes from its own and is within the bounds. *)
Record decoded (ir : QueryIrV2) (req : LogicalRequestV2) : Prop := {
  dc_graph : dag_ok ir;
  dc_preflight n : n ∈ ir_nodes ir -> preflight_config (qn_op n) (qn_config n) = Ok tt;
  dc_nodes : exists order, dag_order (ir_nodes ir) order /\
    Forall2 (fun n ln => decode_node n = Ok ln) (nodes_at (ir_nodes ir) order) (lr_nodes req);
  dc_root : lr_root req = ir_root ir;
  dc_params : lr_parameter_types req = ir_parameter_types ir;
  dc_hql : lr_from_hql req = false;
}.

Lemma decode_ir_decoded ir req : decode_ir_v2 ir = Ok req <-> decoded ir req.
Proof.
  split.
  - intros H1. destruct (decode_ir_validates ir req H1) as [order Ho].
    rewrite (decode_ir_eq ir order Ho) in H1. apply validate_dag_iff in Ho as [D O].
    unfold decode_in_order in H1. apply bind_Ok in H1 as ([] & Hp & H1).
    apply bind_Ok in H1 as (typed & Ht & [= <-]). split; try done.
    + intros n Hn. by apply (proj1 (try_for_unit _ _) Hp).
    + exists order. split; [done|]. by apply traverse_Ok.
  - intros [D Hp (order & O & Hn) Hr Hps Hh].
    rewrite (decode_ir_eq ir order) by by apply validate_dag_iff.
    unfold decode_in_order. apply try_for_unit in Hp. rewrite Hp. cbn [mbind result_bind].
    apply traverse_Ok in Hn. rewrite Hn. cbn [mbind result_bind]. destruct req. cbn in *. by subst.
Qed.

(** How a query lists its operators does not matter. *)
Record same_query (ir ir' : QueryIrV2) : Prop := {
  sq_version : ir_contract_version ir = ir_contract_version ir';
  sq_nodes : ir_nodes ir ≡ₚ ir_nodes ir';
  sq_root : ir_root ir = ir_root ir';
  sq_params : ir_parameter_types ir = ir_parameter_types ir';
}.

Lemma ranking_perm nodes nodes' rank : NoDup (qn_id <$> nodes) -> nodes ≡ₚ nodes' ->
  ranking nodes rank -> ranking nodes' rank.
Proof.
  intros Hnd Hp Hr a Ha. rewrite <- Hp in Ha. destruct (Hr a Ha) as [H1 H2]. split; [done|].
  intros b Hb. apply H2. by rewrite (inputs_of_perm nodes nodes').
Qed.
Lemma reaches_perm nodes nodes' a b : NoDup (qn_id <$> nodes) -> nodes ≡ₚ nodes' ->
  rtc (reaches nodes) a b -> rtc (reaches nodes') a b.
Proof.
  intros Hnd Hp. apply rtc_subrel. intros x y. unfold reaches.
  by rewrite (inputs_of_perm nodes nodes').
Qed.

Lemma dag_ok_same ir ir' : same_query ir ir' -> dag_ok ir -> dag_ok ir'.
Proof.
  intros [Hv Hp Hr Hps] D. pose proof (do_distinct _ D) as Hnd. split.
  - rewrite <- Hv. apply D.
  - pose proof (do_count _ D) as Hc. unfold zlen in *. by rewrite <- Hp.
  - rewrite <- Hr. apply D.
  - rewrite <- Hps. apply D.
  - intros n Hn. rewrite <- Hp in Hn. by apply D.
  - by rewrite <- Hp.
  - rewrite <- Hr, <- Hp. apply D.
  - intros n i Hn Hi. rewrite <- Hp in Hn. rewrite <- Hp. by apply (do_inputs _ D n).
  - intros a Ha. rewrite <- Hp in Ha. rewrite <- Hr. by eapply reaches_perm, D.
  - destruct (do_depth _ D) as (rank & H1 & H2). exists rank.
    split; [by eapply ranking_perm|]. intros a Ha. rewrite <- Hp in Ha. by apply H2.
Qed.

Lemma decoded_same ir ir' req : same_query ir ir' -> decoded ir req -> decoded ir' req.
Proof.
  intros S D. pose proof (dag_ok_same ir ir' S (dc_graph _ _ D)) as D'.
  destruct S as [Hv Hp Hr Hps], D as [Dg Hpre (order & O & Hn) Hroot Hparams Hh].
  split; [done| | |congruence|congruence|done].
  - intros n Hin. rewrite <- Hp in Hin. by apply Hpre.
  - destruct (validate_dag_total ir' D') as [order' Ho].
    apply validate_dag_iff in Ho as [_ O']. exists order'. split; [done|].
    by rewrite <- (dag_order_nodes (ir_nodes ir) (ir_nodes ir') order order' (do_distinct _ Dg) Hp O O').
Qed.

(** C33: Decoding is determined by the operators, not by the order they are listed in: two
    listings of one query decode to the same request. *)
Theorem decode_ir_listing ir ir' req : same_query ir ir' ->
  decode_ir_v2 ir = Ok req <-> decode_ir_v2 ir' = Ok req.
Proof.
  intros S. rewrite !decode_ir_decoded. split; apply decoded_same; [done|].
  destruct S. by split.
Qed.
End Decode.

(** ** How deep a decoded query can be

    The preflight of a configuration bounds the expressions decoded from it: to 128 for
    an expression that is a member of the configuration itself, and to 512, the bound on
    the nesting of the JSON value, for every other. *)

Local Open Scope Z_scope.

Definition config_op (c : Config) : QueryOpV2 :=
  match c with
  | CNodeScan _ _ => OpNodeScan | CEdgeScan _ _ => OpEdgeScan | CRowScan _ _ => OpRowScan
  | CAnnotationScan _ => OpAnnotationScan | CValues _ _ => OpValues
  | CHistoryScan _ _ _ => OpHistoryScan | CChangeScan _ _ => OpChangeScan
  | CMatch _ _ _ => OpMatch | CFilter _ => OpFilter | CProject _ => OpProject
  | CDistinct => OpDistinct | CKnn _ _ _ _ _ _ => OpKnn | CRerank _ _ _ _ _ _ => OpRerank
  | CExpand _ _ => OpExpand | CAnnotationLookup _ _ _ => OpAnnotationLookup
  | CLexicalMatch _ _ _ _ _ _ => OpLexicalMatch | CJoin _ _ => OpJoin
  | CAggregate _ _ => OpAggregate | CSort _ => OpSort | CTake _ => OpTake | COffset _ => OpOffset
  | CUnionAll => OpUnionAll | CContextPack _ _ _ _ _ => OpContextPack
  end.

(** The expressions that are members of the configuration, with their keys. *)
Definition member_expressions (c : Config) : list (string * Expr) :=
  match c with
  | CHistoryScan _ id _ => [("id", id)]
  | CFilter predicate => [("predicate", predicate)]
  | CKnn _ _ query _ _ _ | CRerank _ _ query _ _ _ | CLexicalMatch _ _ _ query _ _ =>
      [("query", query)]
  | CJoin _ condition => [("condition", condition)]
  | CContextPack text evidence _ _ _ => [("text", text); ("evidence", evidence)]
  | _ => []
  end%string.

Definition pattern_node_expressions (n : PatternNode) : list Expr :=
  option_list (pn_id n) ++ (pn_properties n).*2.
Definition pattern_expressions (p : Pattern) : list Expr :=
  match p with
  | PCompact _ => []
  | PSequence p =>
      pattern_node_expressions (spa_start p)
      ++ concat ((fun s => pattern_node_expressions (ps_node s) ++ (pe_properties (ps_edge s)).*2)
                   <$> spa_steps p)
  end.
(** Every expression of a configuration. *)
Definition config_expressions (c : Config) : list Expr :=
  (member_expressions c).*2
  ++ match c with
     | CProject fields => ne_expression <$> fields
     | CAggregate group_by aggregates => (ne_expression <$> group_by) ++ (ne_expression <$> aggregates)
     | CSort keys => so_expression <$> keys
     | CMatch pattern anchors _ => pattern_expressions pattern ++ anchors.*2
     | CExpand pattern _ => pattern_expressions pattern
     | _ => []
     end.

(** [w] is [v] or inside it. *)
Definition within (v w : json) : Prop := rtc (fun a b => b ∈ json_children a) v w.

(** What the derived decoder of a configuration does with expressions: the operator's
    own members are read under their keys, and every expression is decoded from a value
    inside the configuration. *)
Class ConfigLaws `{Derived, ConfigCodec} : Prop := {
  tagged_operator op j m c :
    operator_value op = Some j -> tagged_config (tagged j m) = Some c -> config_op c = op;
  tagged_member op j m c key e :
    operator_value op = Some j -> tagged_config (tagged j m) = Some c ->
    (key, e) ∈ member_expressions c ->
    exists v, bt_get cmp_str key m = Some v /\ decode_expression v = Some (Ok e);
  tagged_inside op j m c e :
    operator_value op = Some j -> tagged_config (tagged j m) = Some c ->
    e ∈ config_expressions c ->
    exists v w, v ∈ m.*2 /\ within v w /\ decode_expression w = Some (Ok e);
}.

(** Every value of every configuration has its members in key order, once. *)
Definition canonical_ir (ir : QueryIrV2) : Prop :=
  forall n v, n ∈ ir_nodes ir -> v ∈ (qn_config n).*2 -> json_ok v.

Lemma member_key c key e : (key, e) ∈ member_expressions c ->
  key ∈ expression_fields (config_op c).
Proof.
  destruct c; cbn [member_expressions config_op expression_fields]; rewrite ?elem_of_cons, ?elem_of_nil;
    naive_solver.
Qed.

Lemma within_descent v w n : within v w -> descent json_children n w ->
  exists k, (n <= k)%nat /\ descent json_children k v.
Proof.
  induction 1 as [v|v u w Hu _ IH]; intros Hn; [by exists n|].
  destruct (IH Hn) as (k & Hk & Hd). exists (S k). split; [lia|]. by apply (descent_S _ _ _ u).
Qed.
Lemma json_ok_child v w : json_ok v -> w ∈ json_children v -> json_ok w.
Proof.
  destruct v as [| | | |l|m]; cbn [json_children]; try (intros _ Hw; by apply elem_of_nil in Hw).
  - rewrite json_ok_array, Forall_forall. auto.
  - rewrite json_ok_object, Forall_forall. intros [_ Hm] ([k x] & -> & Hx)%list_elem_of_fmap.
    by apply (Hm _ Hx).
Qed.
Lemma within_ok v w : within v w -> json_ok v -> json_ok w.
Proof. induction 1 as [|v u w Hu _ IH]; [done|]. intros Hv. by eapply IH, json_ok_child. Qed.

Section Depth.
Context `{Derived, ConfigCodec} `{!ConfigLaws}.

Lemma decode_Some_decodes v e : json_ok v -> decode_expression v = Some (Ok e) -> decodes v e.
Proof.
  intros Hv He. destruct (decode_expression_total v Hv) as (r & Hr & Hd). apply Hd. congruence.
Qed.

Lemma decode_node_config n ln : decode_node n = Ok ln -> exists j,
  operator_value (qn_op n) = Some j /\ tagged_config (tagged j (qn_config n)) = Some (ln_config ln) /\
  ln_op ln = qn_op n /\ config_ok (ln_config ln).
Proof.
  unfold decode_node. intros (j & Hj%ok_or_Ok & Hd)%bind_Ok. apply bind_Ok in Hd as (c & Hc%ok_or_Ok & Hd).
  apply bind_Ok in Hd as ([] & Hv%config_validate_Ok & [= <-]). by exists j.
Qed.

(** C35: In a decoded query, every configuration is its operator's and within its bounds; an
    expression that is a member of it nests at most 128 deep, any other at most 512. *)
Theorem decoded_bounds ir req ln : canonical_ir ir -> decode_ir_v2 ir = Ok req -> ln ∈ lr_nodes req ->
  config_op (ln_config ln) = ln_op ln /\ config_ok (ln_config ln) /\
  (forall e, e ∈ (member_expressions (ln_config ln)).*2 -> Z.of_nat (expr_depth e) <= 128) /\
  (forall e, e ∈ config_expressions (ln_config ln) -> Z.of_nat (expr_depth e) <= 512).
Proof.
  intros Hcan D%decode_ir_decoded Hln. destruct (dc_nodes _ _ D) as (order & _ & Hall).
  apply list_elem_of_lookup_1 in Hln as [i Hi].
  destruct (Forall2_lookup_r _ _ _ _ _ Hall Hi) as (n & Hn%list_elem_of_lookup_2%nodes_at_elem & Hd).
  destruct (decode_node_config n ln Hd) as (j & Hj & Hc & Hop & Hok).
  pose proof (tagged_operator _ _ _ _ Hj Hc) as Hcop.
  destruct (proj1 (preflight_config_Ok _ _) (dc_preflight _ _ D n Hn)) as [Hjson Hexpr].
  split_and!; [congruence|done| |].
  - intros e ([key e'] & -> & Hin)%list_elem_of_fmap. cbn [snd].
    destruct (tagged_member _ _ _ _ _ _ Hj Hc Hin) as (v & Hv & He).
    assert (v ∈ (qn_config n).*2) as Hvn.
    { apply (bt_get_Some_elem cmp_str) in Hv. apply list_elem_of_fmap. by exists (key, v). }
    apply (Hexpr v); [|by apply decodes_descent, decode_Some_decodes; [eapply Hcan|]].
    unfold expression_roots. apply elem_of_app. left. apply elem_of_concat_fmap.
    exists key. split; [rewrite <- Hcop; by eapply member_key|].
    unfold member. rewrite Hv. cbn. left.
  - intros e He. destruct (tagged_inside _ _ _ _ _ Hj Hc He) as (v & w & Hv & Hvw & Hw).
    assert (decodes w e) as Hde%decodes_descent.
    { apply decode_Some_decodes; [|done]. eapply within_ok; [done|by eapply Hcan]. }
    destruct (operand_descent _ _ Hde) as (k1 & Hk1 & Hd1).
    destruct (within_descent v w k1 Hvw Hd1) as (k2 & Hk2 & Hd2).
    specialize (Hjson v k2 Hv Hd2). unfold MAX_DEPTH in Hjson. lia.
Qed.
End Depth.

(** ** A wire query

    A filter over a scan, decoded through concrete codecs of operators and expressions;
    and an expression the preflight does not see. *)

Definition text_of {A} (table : list (string * A)) (v : json) : option A :=
  s ← json_string v; bt_get cmp_str s table.

#[local] Instance sample_derived : Derived := {|
  derived_binary := text_of [("eq", OEq); ("and", OAnd); ("lt", OLt)]%string;
  derived_unary := text_of [("not", ONot)]%string;
  derived_field v :=
    a ← json_get "alias" v ≫= symbol;
    p ← json_get "path" v ≫= symbols;
    Some {| fr_alias := a; fr_path := p |};
|}.

Definition sample_config (op : string) (m : btree json) : option Config :=
  if bool_decide (op = "NodeScan"%string) then
    alias ← bt_get cmp_str "as" m ≫= symbol; Some (CNodeScan alias None)
  else if bool_decide (op = "Filter"%string) then
    v ← bt_get cmp_str "predicate" m;
    match decode_expression v with Some (Ok e) => Some (CFilter e) | _ => None end
  else None.
#[local] Instance sample_codec : ConfigCodec := {|
  operator_value op :=
    match op with
    | OpNodeScan => Some (JString "NodeScan")
    | OpFilter => Some (JString "Filter")
    | _ => None
    end;
  tagged_config v :=
    op ← json_get "op" v ≫= json_string;
    match json_get "config" v with Some (JObject m) => sample_config op m | _ => None end;
|}.

Lemma sample_tagged op m : tagged_config (tagged (JString op) m) = sample_config op m.
Proof. reflexivity. Qed.
Lemma sample_config_cases op m c : sample_config op m = Some c ->
  (op = "NodeScan"%string /\ exists alias, c = CNodeScan alias None) \/
  (op = "Filter"%string /\ exists v e, bt_get cmp_str "predicate" m = Some v /\
     decode_expression v = Some (Ok e) /\ c = CFilter e).
Proof.
  unfold sample_config. case_bool_decide; [|case_bool_decide; [|done]].
  - intros (alias & _ & [= <-])%bind_Some. left. eauto.
  - intros (v & Hv & Hc)%bind_Some. right. split; [done|].
    destruct (decode_expression v) as [[e|]|] eqn:E; try done. injection Hc as <-. eauto.
Qed.

#[local] Instance sample_laws : ConfigLaws.
Proof.
  split.
  - intros op j m c Hj Hc. destruct op; try done; injection Hj as <-; rewrite sample_tagged in Hc;
      apply sample_config_cases in Hc as [(E & a & ->)|(E & v & e & _ & _ & ->)]; done.
  - intros op j m c key e Hj Hc. destruct op; try done; injection Hj as <-;
      rewrite sample_tagged in Hc;
      apply sample_config_cases in Hc as [(E & a & ->)|(E & v & e' & Hv & He & ->)]; try done;
      cbn [member_expressions]; rewrite ?elem_of_nil, ?list_elem_of_singleton; try done.
    intros [= -> ->]. by exists v.
  - intros op j m c e Hj Hc. destruct op; try done; injection Hj as <-;
      rewrite sample_tagged in Hc;
      apply sample_config_cases in Hc as [(E & a & ->)|(E & v & e' & Hv & He & ->)]; try done;
      cbn; rewrite ?elem_of_nil, ?list_elem_of_singleton; try done.
    intros ->. exists v, v. split_and!; [|constructor|done].
    apply (bt_get_Some_elem cmp_str) in Hv. apply list_elem_of_fmap. by exists ("predicate"%string, v).
Qed.

Definition sample_predicate : json :=
  JObject [("binary", JString "lt");
           ("left", JObject [("field", JObject [("alias", JString "n"); ("path", JArray [JString "age"])])]);
           ("right", JObject [("literal", JNumber (PosInt 40)); ("type", JString "int")])]%string.
Definition sample_scan : QueryNodeV2 := {|
  qn_id := "scan"; qn_op := OpNodeScan; qn_inputs := []; qn_config := [("as", JString "n")]%string |}.
Definition sample_filter : QueryNodeV2 := {|
  qn_id := "old"; qn_op := OpFilter; qn_inputs := ["scan"];
  qn_config := [("predicate", sample_predicate)] |}%string.
Definition sample_ir (nodes : list QueryNodeV2) : QueryIrV2 := {|
  ir_contract_version := "query-ir.v2"; ir_nodes := nodes; ir_root := "old";
  ir_parameter_types := [] |}%string.
Definition sample_expr : Expr :=
  EBinary OLt (EField {| fr_alias := "n"; fr_path := ["age"] |}) (ELiteral (JNumber (PosInt 40)) "int")%string.
Definition sample_request : LogicalRequestV2 := {|
  lr_nodes := [ {| ln_id := "scan"; ln_op := OpNodeScan; ln_inputs := []; ln_config := CNodeScan "n" None |};
                {| ln_id := "old"; ln_op := OpFilter; ln_inputs := ["scan"];
                   ln_config := CFilter sample_expr |} ];
  lr_root := "old"; lr_parameter_types := []; lr_from_hql := false |}%string.

Example sample_decodes : decode_ir_v2 (sample_ir [sample_filter; sample_scan]) = Ok sample_request.
Proof. vm_compute. reflexivity. Qed.
Example sample_cycle : validate_dag (sample_ir
  [ {| qn_id := "old"; qn_op := OpFilter; qn_inputs := ["old"]; qn_config := [] |} ]%string)
  = Err (bind_invalid "cycle").
Proof. vm_compute. reflexivity. Qed.

Lemma sample_ok : json_ok sample_predicate.
Proof.
  cbn. split_and!; try done; repeat (apply SSorted_cons; [|repeat constructor]); constructor.
Qed.

Lemma decode_expression_grammar_witness :
  exists r, decode_expression sample_predicate = Some r /\ forall e, r = Ok e <-> decodes sample_predicate e.
Proof. apply (decode_expression_grammar sample_predicate sample_ok). Defined.

Lemma decode_ir_listing_witness :
  decode_ir_v2 (sample_ir [sample_scan; sample_filter]) = Ok sample_request.
Proof.
  apply (decode_ir_listing (sample_ir [sample_scan; sample_filter]) (sample_ir [sample_filter; sample_scan])).
  - split; [done|apply perm_swap|done|done].
  - vm_compute. reflexivity.
Defined.

Lemma validate_dag_contract_witness : query_ir_validate (sample_ir [sample_filter; sample_scan]) = Ok tt.
Proof. apply (validate_dag_contract _ [1; 0]%nat). vm_compute. reflexivity. Defined.

Lemma sample_canonical : canonical_ir (sample_ir [sample_filter; sample_scan]).
Proof.
  intros n v [->|[->|Hn]%elem_of_cons]%elem_of_cons Hv; [| |by apply elem_of_nil in Hn];
    apply list_elem_of_singleton in Hv as ->; [apply sample_ok|done].
Qed.
Lemma decoded_bounds_witness : Z.of_nat (expr_depth sample_expr) <= 128.
Proof.
  destruct (decoded_bounds (sample_ir [sample_filter; sample_scan]) sample_request
    {| ln_id := "old"; ln_op := OpFilter; ln_inputs := ["scan"]; ln_config := CFilter sample_expr |}%string
    sample_canonical) as (_ & _ & H & _).
  - vm_compute. reflexivity.
  - right. left.
  - apply H. left.
Defined.

(** *** An expression out of sight *)

Fixpoint negations (n : nat) : json :=
  match n with
  | O => JObject [("literal", JBool true); ("type", JString "bool")]
  | S n => JObject [("arg", negations n); ("unary", JString "not")]
  end%string.

(** The preflight looks for the expression of a projected field in an object. A field
    given as a sequence of its members, which the decoders [serde] derives for structs
    accept too, is not descended into: an expression nested 201 deep passes. *)
Theorem sequence_field_unchecked :
  preflight_config OpProject [("fields", JArray [JArray [negations 200; JString "deep"]])]%string = Ok tt /\
  preflight_config OpProject
    [("fields", JArray [JObject [("as", JString "deep"); ("expression", negations 200)]])]%string
  = Err (bind_invalid "expression_depth") /\
  exists e, decode_expression (negations 200) = Some (Ok e) /\ expr_depth e = 201%nat.
Proof.
  split_and!; [vm_compute; reflexivity..|].
  destruct (decode_expression (negations 200)) as [[e|]|] eqn:E; [|vm_compute in E; discriminate..].
  exists e. split; [done|]. vm_compute in E. injection E as <-. vm_compute. reflexivity.
Qed.
