(* ===== verification/HqlScan.v ===== *)
(** * Scanning a query before it is parsed

    [preflight] of [src/src/query/hql2/syntax.rs]: one pass over the bytes of a query bounds
    the work of the recursive parser, its heap and its stack, before it runs. *)
From S2P Require Export Value.
Local Open Scope Z_scope.

Definition MAX_DEPTH : Z := 128.
Definition MAX_NODES : Z := 10000.
Definition MAX_SOURCE_SCALARS : Z := 262144.
Definition MAX_LEXICAL_UNITS : Z := 2048.
Definition PARSER_PROFILE_BYTES : Z := 64 * 1024 * 1024.
Definition PARSER_STACK_BYTES : Z := 32 * 1024 * 1024.

Record ParserResources := { heap : Z; stack : Z }.

(** ** Classes of bytes *)

Definition is_byte (v : Z) (b : byte) : bool := byte_val b =? v.
Definition byte_in (lo hi : Z) (b : byte) : bool := (lo <=? byte_val b) && (byte_val b <=? hi).
Definition byte_is_whitespace (b : byte) : bool :=
  is_byte 9 b || is_byte 10 b || is_byte 12 b || is_byte 13 b || is_byte 32 b.
Definition byte_is_alphabetic (b : byte) : bool := byte_in 97 122 b || byte_in 65 90 b.
Definition word_head (b : byte) : bool := byte_is_alphabetic b || is_byte 95 b.
Definition word_byte (b : byte) : bool := byte_is_alphabetic b || byte_is_digit b || is_byte 95 b.
Definition newline (b : byte) : bool := is_byte 13 b || is_byte 10 b.
Definition opening (b : byte) : bool := is_byte 40 b || is_byte 91 b || is_byte 123 b.
Definition closing (b : byte) : bool := is_byte 41 b || is_byte 93 b || is_byte 125 b.
(** The delimiter a closing one answers *)
Definition expected (b : byte) : byte :=
  if is_byte 41 b then byte_of 40 else if is_byte 93 b then byte_of 91 else byte_of 123.

(** ** The loops inside the loop, as the number of bytes they pass *)

(** [while index < bytes.len() && p(bytes[index]) { index += 1 }] *)
Fixpoint run_length (p : byte -> bool) (l : list byte) : nat :=
  match l with b :: l => if p b then S (run_length p l) else O | [] => O end.
(** The rest of a quoted token, its closing quote included *)
Fixpoint quoted_length (quote : byte) (l : list byte) : nat :=
  match l with
  | [] => O
  | b :: l =>
      if bool_decide (b = quote) then 1%nat
      else if is_byte 34 quote && is_byte 92 b then
        match l with [] => 1%nat | _ :: l => S (S (quoted_length quote l)) end
      else S (quoted_length quote l)
  end.

(** ** The loop *)

(** [delimiters] up to [depth], the innermost first *)
Record scan := {
  sc_index : nat; sc_open : list byte; sc_deepest : Z; sc_nots : Z; sc_units : Z }.
Definition scan_depth (s : scan) : Z := zlen (sc_open s).

Section Preflight.
Variable source : string.
Let bytes := str_bytes source.

Definition length_error : QueryErrorV2 := parse_error source 0 "source_length".
Definition work_error : QueryErrorV2 := query_error "QUERY_BUDGET_EXCEEDED" "parse" "parser_work_limit".

Definition at_comment (index : nat) : bool :=
  match bytes !! index, bytes !! S index with
  | Some b, Some c => is_byte 47 b && is_byte 47 c
  | _, _ => false
  end.

Definition count_unit (s : scan) (b : byte) : query Z :=
  if negb (byte_is_whitespace b) && negb (at_comment (sc_index s)) then
    let units := sc_units s + 1 in
    if MAX_LEXICAL_UNITS <? units then Err work_error else Ok units
  else Ok (sc_units s).

Definition scan_step (s : scan) (b : byte) : query scan :=
  let start := sc_index s in
  units ← count_unit s b;
  if at_comment start then
    Ok {| sc_index := start + 2 + run_length (fun b => negb (newline b)) (drop (start + 2) bytes);
          sc_open := sc_open s; sc_deepest := sc_deepest s; sc_nots := sc_nots s; sc_units := units |}
  else if is_byte 34 b || is_byte 96 b then
    Ok {| sc_index := S start + quoted_length b (drop (S start) bytes);
          sc_open := sc_open s; sc_deepest := sc_deepest s; sc_nots := 0; sc_units := units |}
  else if opening b then
    if scan_depth s =? MAX_DEPTH then Err (parse_error source (Z.of_nat start) "syntax_depth_exceeded")
    else
      Ok {| sc_index := S start; sc_open := b :: sc_open s;
            sc_deepest := Z.max (sc_deepest s) (scan_depth s + 1); sc_nots := 0; sc_units := units |}
  else if closing b then
    match sc_open s with
    | o :: rest =>
        if bool_decide (o = expected b) then
          Ok {| sc_index := S start; sc_open := rest; sc_deepest := sc_deepest s; sc_nots := 0;
                sc_units := units |}
        else Err (parse_error source (Z.of_nat start) "unbalanced_delimiter")
    | [] => Err (parse_error source (Z.of_nat start) "unbalanced_delimiter")
    end
  else if word_head b then
    let n := S (run_length word_byte (drop (S start) bytes)) in
    let word := str_of_bytes (take n (drop start bytes)) in
    if eq_ignore_ascii_case word "NOT" then
      let nots := sc_nots s + 1 in
      if MAX_DEPTH <? nots then Err (parse_error source (Z.of_nat start) "expression_depth_exceeded")
      else
        Ok {| sc_index := start + n; sc_open := sc_open s; sc_deepest := Z.max (sc_deepest s) nots;
              sc_nots := nots; sc_units := units |}
    else
      Ok {| sc_index := start + n; sc_open := sc_open s; sc_deepest := sc_deepest s; sc_nots := 0;
            sc_units := units |}
  else if byte_is_digit b then
    Ok {| sc_index := S start + run_length byte_is_digit (drop (S start) bytes);
          sc_open := sc_open s; sc_deepest := sc_deepest s; sc_nots := 0; sc_units := units |}
  else if byte_is_whitespace b then
    Ok {| sc_index := S start; sc_open := sc_open s; sc_deepest := sc_deepest s;
          sc_nots := sc_nots s; sc_units := units |}
  else
    Ok {| sc_index := S start; sc_open := sc_open s; sc_deepest := sc_deepest s; sc_nots := 0;
          sc_units := units |}.

(** [while index < bytes.len()]; the answer is missing when the fuel runs out. *)
Fixpoint scan_loop (fuel : nat) (s : scan) : option (query scan) :=
  match fuel with
  | O => None
  | S fuel =>
      match bytes !! sc_index s with
      | None => Some (Ok s)
      | Some b =>
          match scan_step s b with
          | Ok s => scan_loop fuel s
          | Err e => Some (Err e)
          end
      end
  end.
Definition scan_start : scan :=
  {| sc_index := 0; sc_open := []; sc_deepest := 0; sc_nots := 0; sc_units := 0 |}.

Definition scan_resources (s : scan) : query ParserResources :=
  match sc_open s with
  | _ :: _ => Err (parse_error source (Z.of_nat (str_len source)) "unbalanced_delimiter")
  | [] =>
      let heap := 4 * 1024 * 1024 + (sc_units s + 1) * 32768 + Z.of_nat (str_len source) * 16 in
      let stack := if 8 <? sc_deepest s then PARSER_STACK_BYTES else 0 in
      if PARSER_PROFILE_BYTES <? heap + stack then
        Err (query_error "QUERY_BUDGET_EXCEEDED" "parse" "parser_memory_profile")
      else Ok {| heap := heap; stack := stack |}
  end.

Definition source_too_long : bool :=
  bool_decide (source = "") || (MAX_SOURCE_SCALARS * 4 <? Z.of_nat (str_len source))
  || (MAX_SOURCE_SCALARS <? zlen (take (Z.to_nat (MAX_SOURCE_SCALARS + 1)) (chars source))).

(** [None] if the loop did not end. *)
Definition preflight_run : option (query ParserResources) :=
  if source_too_long then Some (Err length_error)
  else
    r ← scan_loop (S (str_len source)) scan_start;
    Some (s ← r; scan_resources s).
Definition preflight : query ParserResources :=
  default (Err length_error) preflight_run.

Definition required_heap_bytes : query Z := r ← preflight; Ok (heap r).
Definition required_stack_bytes : query Z := r ← preflight; Ok (stack r).
End Preflight.

(** ** The units of a text *)

(** A delimiter, [NOT], or anything else that is not blank *)
Inductive lexeme := LxOpen (b : byte) | LxClose (b : byte) | LxNot | LxPlain.

(** The rest of a quoted token, with the quote that closes it *)
Inductive closes (quote : byte) : list byte -> Prop :=
| closes_quote : closes quote [quote]
| closes_plain b l : b <> quote -> is_byte 34 quote && is_byte 92 b = false -> closes quote l ->
    closes quote (b :: l)
| closes_escape e c l : e <> quote -> is_byte 34 quote && is_byte 92 e = true -> closes quote l ->
    closes quote (e :: c :: l).
(** A run of bytes ends where the text does, or before a byte of another class. *)
Definition stops (p : byte -> bool) (l : list byte) : Prop :=
  match l with b :: _ => p b = false | [] => True end.
Definition all (p : byte -> bool) (l : list byte) : Prop := Forall (fun b => p b = true) l.
Definition quote_byte (b : byte) : bool := is_byte 34 b || is_byte 96 b.
Definition is_not (l : list byte) : bool := eq_ignore_ascii_case (str_of_bytes l) "NOT".
Definition other_byte (b : byte) : bool :=
  negb (byte_is_whitespace b || quote_byte b || opening b || closing b || word_head b || byte_is_digit b).
Definition slash : byte := byte_of 47.

(** How a text reads as units: the longest run at each place, blanks and comments left out *)
Inductive lexes : list byte -> list lexeme -> Prop :=
| lexes_end : lexes [] []
| lexes_blank b l ts : byte_is_whitespace b = true -> lexes l ts -> lexes (b :: l) ts
| lexes_comment c l ts : all (fun b => negb (newline b)) c -> stops (fun b => negb (newline b)) l ->
    lexes l ts -> lexes (slash :: slash :: c ++ l) ts
| lexes_quoted q body l ts : quote_byte q = true -> closes q body -> lexes l ts ->
    lexes (q :: body ++ l) (LxPlain :: ts)
| lexes_unclosed q body : quote_byte q = true -> (forall pre post, body = pre ++ post -> ~ closes q pre) ->
    lexes (q :: body) [LxPlain]
| lexes_open b l ts : opening b = true -> lexes l ts -> lexes (b :: l) (LxOpen b :: ts)
| lexes_close b l ts : closing b = true -> lexes l ts -> lexes (b :: l) (LxClose b :: ts)
| lexes_word b w l ts : word_head b = true -> all word_byte w -> stops word_byte l -> lexes l ts ->
    lexes (b :: w ++ l) ((if is_not (b :: w) then LxNot else LxPlain) :: ts)
| lexes_digits b w l ts : byte_is_digit b = true -> all byte_is_digit w -> stops byte_is_digit l ->
    lexes l ts -> lexes (b :: w ++ l) (LxPlain :: ts)
| lexes_other b l ts : other_byte b = true -> (b = slash -> stops (is_byte 47) l) -> lexes l ts ->
    lexes (b :: l) (LxPlain :: ts).

(** Delimiters that match, at most [d] deep *)
Inductive nested : nat -> list lexeme -> Prop :=
| nested_end d : nested d []
| nested_not d ts : nested d ts -> nested d (LxNot :: ts)
| nested_plain d ts : nested d ts -> nested d (LxPlain :: ts)
| nested_pair d b c inner ts : expected c = b -> nested d inner -> nested (S d) ts ->
    nested (S d) (LxOpen b :: inner ++ LxClose c :: ts).
(** The most [NOT]s in a row *)
Fixpoint longest_run (n : nat) (ts : list lexeme) : nat :=
  match ts with
  | [] => n
  | LxNot :: ts => longest_run (S n) ts
  | _ :: ts => Nat.max n (longest_run 0 ts)
  end.

(** ** The classes of bytes are apart *)

Lemma is_byte_slash b : is_byte 47 b = true <-> b = slash.
Proof.
  unfold is_byte, slash. rewrite Z.eqb_eq. split; [|intros ->; by rewrite byte_of_small by lia].
  intros H. apply byte_val_inj. by rewrite byte_of_small by lia.
Qed.
Ltac classes :=
  repeat match goal with
  | H : ?p ?b = _ |- _ =>
      lazymatch p with
      | byte_is_whitespace => idtac | quote_byte => idtac | opening => idtac | closing => idtac
      | word_head => idtac | byte_is_digit => idtac | word_byte => idtac | other_byte => idtac
      | newline => idtac | byte_is_alphabetic => idtac
      end;
      unfold other_byte, byte_is_whitespace, quote_byte, opening, closing, word_head, byte_is_digit,
        word_byte, newline, byte_is_alphabetic, byte_in, is_byte in H
  end.
Ltac apart :=
  classes; unfold other_byte, byte_is_whitespace, quote_byte, opening, closing, word_head, byte_is_digit,
    word_byte, newline, byte_is_alphabetic, byte_in, is_byte; lia.

Lemma class_blank b : byte_is_whitespace b = true ->
  is_byte 47 b = false /\ quote_byte b = false /\ opening b = false /\ closing b = false /\
  word_head b = false /\ byte_is_digit b = false.
Proof. intros H. repeat split; apart. Qed.

(** ** One round of the loop *)

Definition not_newline (b : byte) : bool := negb (newline b).
(** How many bytes the round at [b] passes, and the unit it reads *)
Definition next (b : byte) (l : list byte) : nat * option lexeme :=
  if is_byte 47 b && match l with c :: _ => is_byte 47 c | [] => false end then
    (S (S (run_length not_newline (drop 1 l))), None)
  else if quote_byte b then (S (quoted_length b l), Some LxPlain)
  else if opening b then (1%nat, Some (LxOpen b))
  else if closing b then (1%nat, Some (LxClose b))
  else if word_head b then
    let n := run_length word_byte l in
    (S n, Some (if is_not (b :: take n l) then LxNot else LxPlain))
  else if byte_is_digit b then (S (run_length byte_is_digit l), Some LxPlain)
  else if byte_is_whitespace b then (1%nat, None)
  else (1%nat, Some LxPlain).

Definition move (n : nat) (s : scan) : scan :=
  {| sc_index := sc_index s + n; sc_open := sc_open s; sc_deepest := sc_deepest s;
     sc_nots := sc_nots s; sc_units := sc_units s |}.
(** What a unit does to the state, or that it is refused *)
Definition check (s : scan) (x : lexeme) : option scan :=
  let with_ open deepest nots :=
    {| sc_index := sc_index s; sc_open := open; sc_deepest := deepest; sc_nots := nots;
       sc_units := sc_units s + 1 |} in
  if MAX_LEXICAL_UNITS <? sc_units s + 1 then None
  else
    match x with
    | LxOpen b =>
        if scan_depth s =? MAX_DEPTH then None
        else Some (with_ (b :: sc_open s) (Z.max (sc_deepest s) (scan_depth s + 1)) 0)
    | LxClose b =>
        match sc_open s with
        | o :: rest => if bool_decide (o = expected b) then Some (with_ rest (sc_deepest s) 0) else None
        | [] => None
        end
    | LxNot =>
        if MAX_DEPTH <? sc_nots s + 1 then None
        else Some (with_ (sc_open s) (Z.max (sc_deepest s) (sc_nots s + 1)) (sc_nots s + 1))
    | LxPlain => Some (with_ (sc_open s) (sc_deepest s) 0)
    end.

Lemma at_comment_next source pre b l : str_bytes source = pre ++ b :: l ->
  at_comment source (length pre) = is_byte 47 b && match l with c :: _ => is_byte 47 c | [] => false end.
Proof.
  intros Hs. unfold at_comment. rewrite Hs, list_lookup_middle by done.
  rewrite (lookup_app_r _ _ (S (length pre))) by lia.
  replace (S (length pre) - length pre)%nat with 1%nat by lia. destruct l; cbn; [by rewrite andb_false_r|done].
Qed.

Lemma drop_suffix (pre l : list byte) k : drop (length pre + k) (pre ++ l) = drop k l.
Proof. by rewrite drop_app_add. Qed.

(** A round either passes a unit that is in order, or refuses it. *)
Definition round_ok (r : query scan) (n : nat) (o : option scan) : Prop :=
  match o with Some s => r = Ok (move n s) | None => exists e, r = Err e end.

Lemma scan_at i j o d n u : i = j ->
  Ok (E := QueryErrorV2) {| sc_index := i; sc_open := o; sc_deepest := d; sc_nots := n; sc_units := u |} =
  Ok {| sc_index := j; sc_open := o; sc_deepest := d; sc_nots := n; sc_units := u |}.
Proof. by intros ->. Qed.
Lemma scan_step_next source pre b l s : str_bytes source = pre ++ b :: l -> sc_index s = length pre ->
  round_ok (scan_step source s b) (next b l).1
    (match (next b l).2 with None => Some s | Some x => check s x end).
Proof.
  intros Hs Hi. unfold scan_step, count_unit, next. rewrite Hi, (at_comment_next _ _ _ _ Hs).
  assert (drop (S (length pre)) (str_bytes source) = l) as Hd1.
  { rewrite Hs. replace (S (length pre)) with (length pre + 1)%nat by lia. by rewrite drop_suffix. }
  assert (drop (length pre + 2) (str_bytes source) = drop 1 l) as Hd2 by (rewrite Hs; by rewrite drop_suffix).
  assert (drop (length pre) (str_bytes source) = b :: l) as Hd0 by (rewrite Hs; by rewrite drop_app_length).
  rewrite Hd0, Hd1, Hd2. change (fun b => negb (newline b)) with not_newline.
  change (is_byte 34 b || is_byte 96 b) with (quote_byte b).
  set (comment := is_byte 47 b && _). destruct comment.
  { rewrite andb_false_r. cbn [mbind result_bind fst snd round_ok]. apply scan_at. lia. }
  rewrite andb_true_r. destruct (byte_is_whitespace b) eqn:Hw.
  { destruct (class_blank _ Hw) as (_ & -> & -> & -> & -> & ->). cbn. unfold move. rewrite Hi.
    apply scan_at. lia. }
  cbn [negb]. unfold check, is_not.
  destruct (quote_byte b), (opening b), (closing b), (word_head b), (byte_is_digit b);
    cbn [fst snd mbind result_bind]; destruct (MAX_LEXICAL_UNITS <? sc_units s + 1);
    cbn [mbind result_bind round_ok take]; repeat case_match; simplify_eq; cbn [round_ok]; eauto;
    unfold move; cbn [sc_index]; rewrite ?Hi; apply scan_at; lia.
Qed.

(** ** The rounds read the units *)

Lemma run_length_all p w l : all p w -> stops p l -> run_length p (w ++ l) = length w.
Proof.
  intros Hw Hl. induction Hw as [|b w Hb Hw IH]; cbn.
  - destruct l as [|b l]; cbn in *; [done|]. by rewrite Hl.
  - by rewrite Hb, IH.
Qed.
Lemma run_length_split p l : all p (take (run_length p l) l) /\ stops p (drop (run_length p l) l).
Proof.
  induction l as [|b l [IH1 IH2]]; cbn; [split; [constructor|done]|].
  destruct (p b) eqn:Hb; cbn; [split; [by constructor|done]|]. split; [constructor|done].
Qed.
Lemma closes_length q body l : closes q body -> quoted_length q (body ++ l) = length body.
Proof.
  induction 1 as [|b k Hb Hp _ IH|e c k He Hp _ IH]; cbn.
  - by rewrite bool_decide_eq_true_2.
  - by rewrite bool_decide_eq_false_2, Hp, IH by done.
  - by rewrite bool_decide_eq_false_2, Hp, IH by done.
Qed.
Lemma quoted_split q l : closes q (take (quoted_length q l) l) \/
  (quoted_length q l = length l /\ forall pre post, l = pre ++ post -> ~ closes q pre).
Proof.
  induction l as [l IH] using (Nat.measure_induction _ length).
  destruct l as [|b l]; [right; split; [done|]; by intros [|? ?] post; [inversion 2|]|].
  cbn [quoted_length]. case_bool_decide as Hb; [left; subst; cbn; rewrite take_0; constructor|].
  destruct (is_byte 34 q && is_byte 92 b) eqn:He.
  - destruct l as [|c l].
    + right. split; [done|]. intros pre post Hl Hc. 
      inversion Hc; subst; simplify_eq/=; congruence.
    + destruct (IH l) as [Hc|[Hn Hu]]; [cbn; lia|by left; cbn; apply closes_escape|].
      right. split; [cbn; by rewrite Hn|]. intros pre post Hl Hc. inversion Hc; subst; simplify_eq/=; try congruence.
      by eapply Hu.
  - destruct (IH l) as [Hc|[Hn Hu]]; [cbn; lia|by left; cbn; apply closes_plain|].
    right. split; [cbn; by rewrite Hn|]. intros pre post Hl Hc. inversion Hc; subst; simplify_eq/=; try congruence.
    by eapply Hu.
Qed.

Lemma lexes_next b l ts : lexes (b :: l) ts ->
  exists ts', lexes (drop (next b l).1 (b :: l)) ts' /\ ts = option_list (next b l).2 ++ ts'.
Proof.
  intros H. inversion H as [|? ? ? Hb Hl|c ? ? Hc Hst Hl|q body ? ? Hq Hcl Hl|q body Hq Hu|? ? ? Hb Hl|? ? ? Hb Hl
    |? w ? ? Hb Hw Hst Hl|? w ? ? Hb Hw Hst Hl|? ? ? Hb Hs Hl]; subst; unfold next.
  - destruct (class_blank _ Hb) as (-> & -> & -> & -> & -> & ->). rewrite Hb. cbn. eauto.
  - change (is_byte 47 slash) with true. cbn [andb]. cbn [drop fst snd option_list]. rewrite drop_0.
    rewrite (run_length_all not_newline c l0), drop_app_length by done. eauto.
  - rewrite Hq. replace (is_byte 47 b) with false by (symmetry; apart). cbn [andb fst snd drop].
    rewrite closes_length by done. rewrite drop_app_length. cbn. eauto.
  - rewrite Hq. replace (is_byte 47 b) with false by (symmetry; apart). cbn [andb fst snd drop].
    destruct (quoted_split b l) as [Hc|[-> _]]; [|rewrite drop_all; exists []; split; [constructor|done]].
    exfalso. by apply (Hu (take (quoted_length b l) l) (drop (quoted_length b l) l)); [rewrite take_drop|].
  - replace (is_byte 47 b) with false by (symmetry; apart).
    replace (quote_byte b) with false by (symmetry; apart). rewrite Hb. cbn. eauto.
  - replace (is_byte 47 b) with false by (symmetry; apart).
    replace (quote_byte b) with false by (symmetry; apart).
    replace (opening b) with false by (symmetry; apart). rewrite Hb. cbn. eauto.
  - replace (is_byte 47 b) with false by (symmetry; apart).
    replace (quote_byte b) with false by (symmetry; apart).
    replace (opening b) with false by (symmetry; apart).
    replace (closing b) with false by (symmetry; apart). rewrite Hb. cbn [andb fst snd drop].
    rewrite run_length_all by done. rewrite drop_app_length, take_app_length. cbn. eauto.
  - replace (is_byte 47 b) with false by (symmetry; apart).
    replace (quote_byte b) with false by (symmetry; apart).
    replace (opening b) with false by (symmetry; apart).
    replace (closing b) with false by (symmetry; apart).
    replace (word_head b) with false by (symmetry; apart). rewrite Hb. cbn [andb fst snd drop].
    rewrite run_length_all by done. rewrite drop_app_length. cbn. eauto.
  - assert (is_byte 47 b && match l with c :: _ => is_byte 47 c | [] => false end = false) as ->.
    { destruct (is_byte 47 b) eqn:Hsl; [|done]. apply is_byte_slash in Hsl. specialize (Hs Hsl).
      destruct l; [done|exact Hs]. }
    replace (quote_byte b) with false by (symmetry; apart).
    replace (opening b) with false by (symmetry; apart).
    replace (closing b) with false by (symmetry; apart).
    replace (word_head b) with false by (symmetry; apart).
    replace (byte_is_digit b) with false by (symmetry; apart).
    replace (byte_is_whitespace b) with false by (symmetry; apart). cbn. eauto.
Qed.

Lemma next_lexes b l ts : lexes (drop (next b l).1 (b :: l)) ts -> lexes (b :: l) (option_list (next b l).2 ++ ts).
Proof.
  unfold next. destruct (is_byte 47 b && _) eqn:Hcm.
  { destruct l as [|c l]; [by rewrite andb_false_r in Hcm|]. apply andb_prop in Hcm as [->%is_byte_slash ->%is_byte_slash].
    cbn. rewrite drop_0. intros Hl. rewrite <- (take_drop (run_length not_newline l) l).
    destruct (run_length_split not_newline l) as [H1 H2]. by apply lexes_comment. }
  destruct (quote_byte b) eqn:Hq.
  { cbn. intros Hl. destruct (quoted_split b l) as [Hc|[Hn Hu]].
    - rewrite <- (take_drop (quoted_length b l) l). by apply lexes_quoted.
    - rewrite Hn, drop_all in Hl. inversion Hl; subst. by apply lexes_unclosed. }
  destruct (opening b) eqn:Ho; [cbn; rewrite drop_0; by apply lexes_open|].
  destruct (closing b) eqn:Hc; [cbn; rewrite drop_0; by apply lexes_close|].
  destruct (word_head b) eqn:Hw.
  { cbn. intros Hl. destruct (run_length_split word_byte l) as [H1 H2].
    rewrite <- (take_drop (run_length word_byte l) l) at 1. by apply lexes_word. }
  destruct (byte_is_digit b) eqn:Hd.
  { cbn. intros Hl. destruct (run_length_split byte_is_digit l) as [H1 H2].
    rewrite <- (take_drop (run_length byte_is_digit l) l) at 1. by apply lexes_digits. }
  destruct (byte_is_whitespace b) eqn:Hb; cbn; rewrite drop_0; intros Hl; [by apply lexes_blank|].
  apply lexes_other; [unfold other_byte; by rewrite Hb, Hq, Ho, Hc, Hw, Hd| |done].
  intros ->. change (is_byte 47 slash) with true in Hcm. by destruct l.
Qed.
Lemma next_pos b l : (0 < (next b l).1)%nat.
Proof. unfold next. repeat case_match; cbn; lia. Qed.

(** Every text reads as units. *)
Lemma lexes_total l : exists ts, lexes l ts.
Proof.
  induction l as [l IH] using (Nat.measure_induction _ length).
  destruct l as [|b l]; [exists []; constructor|].
  destruct (IH (drop (next b l).1 (b :: l))) as [ts Hts].
  { rewrite length_drop. pose proof (next_pos b l). cbn [length]. lia. }
  eexists. by apply next_lexes.
Qed.

(** ** The loop checks the units in order *)

Lemma run_length_le p l : (run_length p l <= length l)%nat.
Proof. induction l as [|b l IH]; cbn; [lia|]. destruct (p b); lia. Qed.
Lemma quoted_length_le q l : (quoted_length q l <= length l)%nat.
Proof.
  destruct (quoted_split q l) as [_|[-> _]]; [|lia].
  induction l as [l IH] using (Nat.measure_induction _ length). destruct l as [|b l]; cbn; [lia|].
  repeat case_match; cbn; try lia.
  - match goal with |- context [quoted_length q ?k] => specialize (IH k) end. cbn in *. lia.
  - specialize (IH l). cbn in *. lia.
Qed.
Lemma next_le b l : ((next b l).1 <= S (length l))%nat.
Proof.
  unfold next. destruct l as [|c l]; [rewrite andb_false_r; repeat case_match; cbn; lia|].
  pose proof (run_length_le not_newline l). pose proof (quoted_length_le b (c :: l)).
  pose proof (run_length_le word_byte (c :: l)). pose proof (run_length_le byte_is_digit (c :: l)).
  repeat case_match; cbn [fst length] in *; cbn [drop]; rewrite ?drop_0; lia.
Qed.

Fixpoint checks (s : scan) (ts : list lexeme) : option scan :=
  match ts with
  | [] => Some s
  | x :: ts => s ← check s x; checks s ts
  end.

Lemma check_move n s x : check (move n s) x = move n <$> check s x.
Proof. unfold check, scan_depth. cbn [move sc_open sc_nots sc_units sc_deepest sc_index]. repeat case_match; done. Qed.
Lemma move_move m n s : move m (move n s) = move (n + m) s.
Proof. unfold move. cbn. by rewrite Nat.add_assoc. Qed.
Lemma checks_move n s ts : checks (move n s) ts = move n <$> checks s ts.
Proof.
  revert s; induction ts as [|x ts IH]; intros s; cbn [checks]; [done|].
  rewrite check_move. destruct (check s x) as [s'|]; cbn; [apply IH|done].
Qed.

Definition loop_ok (r : option (query scan)) (o : option scan) : Prop :=
  match o with
  | Some s => exists n, r = Some (Ok (move n s))
  | None => exists e, r = Some (Err e)
  end.
Lemma loop_ok_move r n o : loop_ok r (move n <$> o) -> loop_ok r o.
Proof. destruct o as [s|]; cbn; [|done]. intros [m ->]. rewrite move_move. eauto. Qed.

Lemma scan_loop_checks source fuel pre l ts s : str_bytes source = pre ++ l -> sc_index s = length pre ->
  lexes l ts -> (length l < fuel)%nat -> loop_ok (scan_loop source fuel s) (checks s ts).
Proof.
  revert pre l ts s. induction fuel as [|fuel IH]; intros pre l ts s Hs Hi Hl Hf; [lia|]. cbn [scan_loop].
  destruct l as [|b l].
  { rewrite Hs, Hi, lookup_app_r, Nat.sub_diag by lia. inversion Hl; subst. cbn. exists 0%nat.
    unfold move. rewrite Nat.add_0_r. by destruct s. }
  rewrite Hs, Hi, list_lookup_middle by done.
  apply lexes_next in Hl as (ts' & Hl & ->). pose proof (scan_step_next source pre b l s Hs Hi) as Hr.
  pose proof (next_le b l) as Hle. pose proof (next_pos b l) as Hpos. destruct (next b l) as [n o]. cbn [fst snd] in *.
  assert (forall s', sc_index s' = length pre ->
    loop_ok (scan_loop source fuel (move n s')) (checks s' ts')) as Hnext.
  { intros s' Hi'. apply (loop_ok_move _ n). rewrite <- checks_move.
    apply (IH (pre ++ take n (b :: l)) (drop n (b :: l))); [|..].
    - by rewrite <- app_assoc, take_drop.
    - rewrite length_app, length_take. cbn [move sc_index length]. lia.
    - done.
    - rewrite length_drop. cbn [length] in *. lia. }
  destruct o as [x|].
  - change (checks s (option_list (Some x) ++ ts')) with (s ← check s x; checks s ts').
    destruct (check s x) as [s'|] eqn:Hc; cbn in Hr.
    + rewrite Hr. cbn [mbind option_bind]. apply Hnext. rewrite <- Hi. revert Hc. unfold check. repeat case_match; intros; by simplify_eq.
    + destruct Hr as [e ->]. cbn. eauto.
  - cbn in Hr. rewrite Hr. by apply Hnext.
Qed.

(** ** What the checks accept *)

(** The rest of a text closes the open delimiters, never more than [k] deep. *)
Fixpoint balanced (k : nat) (open : list byte) (ts : list lexeme) : bool :=
  match ts with
  | [] => match open with [] => true | _ :: _ => false end
  | LxOpen b :: ts => (length open <? k)%nat && balanced k (b :: open) ts
  | LxClose b :: ts =>
      match open with o :: open => bool_decide (o = expected b) && balanced k open ts | [] => false end
  | _ :: ts => balanced k open ts
  end.

Lemma longest_run_ge n ts : (n <= longest_run n ts)%nat.
Proof. revert n; induction ts as [|[] ts IH]; intros n; cbn; try lia. specialize (IH (S n)). lia. Qed.

Definition run_of (s : scan) (ts : list lexeme) : Z := Z.of_nat (longest_run (Z.to_nat (sc_nots s)) ts).
Definition tame (k : Z) (s : scan) : Prop := 0 <= sc_nots s <= k /\ scan_depth s <= k.

Lemma checks_cons s x ts : checks s (x :: ts) = (s ← check s x; checks s ts).
Proof. done. Qed.
Lemma zlen_le_cons {A} (x : A) l n : n + zlen (x :: l) = n + 1 + zlen l.
Proof. rewrite zlen_cons. lia. Qed.
Lemma run_of_cons s x ts :
  run_of s (x :: ts) = match x with
                       | LxNot => Z.of_nat (longest_run (S (Z.to_nat (sc_nots s))) ts)
                       | _ => Z.max (Z.of_nat (Z.to_nat (sc_nots s))) (Z.of_nat (longest_run 0 ts))
                       end.
Proof. unfold run_of. destruct x; cbn [longest_run]; lia. Qed.
Lemma run_of_ge s ts : 0 <= sc_nots s -> sc_nots s <= run_of s ts.
Proof. intros. unfold run_of. pose proof (longest_run_ge (Z.to_nat (sc_nots s)) ts). lia. Qed.

Lemma check_tame s x s' : check s x = Some s' -> tame 128 s ->
  tame 128 s' /\ sc_units s' = sc_units s + 1 /\ sc_units s' <= 2048 /\ sc_deepest s <= sc_deepest s'.
Proof.
  unfold check, tame, MAX_LEXICAL_UNITS, MAX_DEPTH, scan_depth.
  repeat case_match; intros; simplify_eq/=; rewrite ?zlen_cons in *; lia.
Qed.
Lemma checks_deepest_le ts s s' : checks s ts = Some s' -> tame 128 s -> sc_deepest s <= sc_deepest s'.
Proof.
  revert s; induction ts as [|x ts IH]; intros s; cbn [checks]; [intros [= ->] _; lia|].
  destruct (check s x) as [s1|] eqn:Hc; cbn [mbind option_bind]; [|done]. intros Hs Ht.
  apply check_tame in Hc as (Ht1 & _ & _ & Hd); [|done]. specialize (IH s1 Hs Ht1). lia.
Qed.

(** The texts that pass the checks *)
Lemma checks_accept ts s : tame 128 s -> sc_units s <= 2048 ->
  (exists s', checks s ts = Some s' /\ sc_open s' = []) <->
  sc_units s + zlen ts <= 2048 /\ balanced 128 (sc_open s) ts = true /\ run_of s ts <= 128.
Proof.
  revert s; induction ts as [|x ts IH]; intros s Ht Hu.
  { unfold run_of. destruct Ht as [Hn Hd]. cbn. split.
    - intros (s' & [= <-] & ->). change (zlen []) with 0. lia.
    - intros (_ & Hb & _). exists s. split; [done|]. by destruct (sc_open s). }
  rewrite checks_cons, zlen_le_cons, run_of_cons. destruct (check s x) as [s1|] eqn:Hc; cbn [mbind option_bind].
  - destruct (check_tame _ _ _ Hc Ht) as (Ht1 & Hu1 & Hu2 & _). rewrite (IH s1 Ht1 Hu2), <- Hu1.
    destruct Ht as [Hn Hd]. revert Hc. unfold check, run_of, MAX_DEPTH, scan_depth in *. unfold zlen in Hd.
    destruct x as [b|b| |]; cbn [balanced]; repeat case_match; intros; simplify_eq/=;
      rewrite ?bool_decide_eq_true in *; rewrite ?andb_true_iff, ?Nat.ltb_lt, ?bool_decide_eq_true; try done;
      rewrite ?Z2Nat.inj_0; try replace (Z.to_nat (sc_nots s + 1)) with (S (Z.to_nat (sc_nots s))) by lia;
      unfold zlen in *; (intuition lia).
  - split; [by intros (? & ? & _)|]. intros (H1 & H2 & H3). exfalso. destruct Ht as [Hn Hd].
    pose proof (zlen_nonneg ts). revert Hc H2. unfold check, MAX_LEXICAL_UNITS, MAX_DEPTH, scan_depth, zlen in *.
    destruct x as [b|b| |]; cbn [balanced]; repeat case_match; intros Hc' Hb'; try discriminate; try lia.
    + apply andb_prop in Hb' as [?%Nat.ltb_lt _]. lia.
    + pose proof (longest_run_ge (S (Z.to_nat (sc_nots s))) ts). lia.
Qed.

(** How deep an accepted text goes *)
Lemma checks_deepest k ts s s' : (k <= 128)%nat -> tame (Z.of_nat k) s -> checks s ts = Some s' -> sc_open s' = [] ->
  sc_deepest s' <= Z.of_nat k <->
  sc_deepest s <= Z.of_nat k /\ balanced k (sc_open s) ts = true /\ run_of s ts <= Z.of_nat k.
Proof.
  intros Hk. revert s; induction ts as [|x ts IH]; intros s Ht Hs Ho.
  { injection Hs as ->. rewrite Ho. unfold run_of. destruct Ht as [Hn _]. cbn. lia. }
  rewrite checks_cons in Hs. rewrite run_of_cons. destruct (check s x) as [s1|] eqn:Hc; [|done]. cbn in Hs.
  assert (tame 128 s) as Ht' by (destruct Ht; split; lia).
  destruct (check_tame _ _ _ Hc Ht') as (Ht1 & _ & _ & _). pose proof (checks_deepest_le _ _ _ Hs Ht1) as Hle.
  assert (tame (Z.of_nat k) s1 -> sc_deepest s' <= Z.of_nat k <->
    sc_deepest s1 <= Z.of_nat k /\ balanced k (sc_open s1) ts = true /\ run_of s1 ts <= Z.of_nat k) as IH'
    by (intros; by apply IH). clear IH Hs.
  destruct Ht as [Hn Hd]. revert Hc. unfold check, tame, run_of, scan_depth in *. unfold zlen in *.
  destruct x as [b|b| |]; cbn [balanced]; repeat case_match; intros; simplify_eq/=;
    change (Z.to_nat 0) with 0%nat in *.
  - destruct (Nat.ltb_spec (length (sc_open s)) k); cbn [andb]; [rewrite IH' by lia|]; intuition (discriminate || lia).
  - rewrite IH' by lia. intuition lia.
  - replace (Z.to_nat (sc_nots s + 1)) with (S (Z.to_nat (sc_nots s))) in IH' by lia.
    pose proof (longest_run_ge (S (Z.to_nat (sc_nots s))) ts).
    destruct (Z.le_gt_cases (sc_nots s + 1) (Z.of_nat k)); [rewrite IH' by lia|]; intuition lia.
  - rewrite IH' by lia. intuition lia.
Qed.

Lemma nested_balanced d ts k open rest : nested d ts -> (length open + d <= k)%nat ->
  balanced k open (ts ++ rest) = balanced k open rest.
Proof.
  intros H. revert k open rest. induction H as [d|d ts _ IH|d ts _ IH|d b c inner ts <- _ IHi _ IHt];
    intros k open rest Hk; cbn [app balanced]; [done|by apply IH..|].
  rewrite (proj2 (Nat.ltb_lt _ _)) by lia. rewrite <- app_assoc, IHi by (cbn; lia). cbn.
  rewrite bool_decide_eq_true_2 by done. by apply IHt.
Qed.
Lemma balanced_nested k n ts open : (length ts <= n)%nat -> balanced k open ts = true ->
  match open with
  | [] => nested k ts
  | o :: rest => exists inner c tl, ts = inner ++ LxClose c :: tl /\ expected c = o /\
      nested (k - length open) inner /\ balanced k rest tl = true
  end.
Proof.
  revert ts open; induction n as [|n IH]; intros [|x ts] open Hn Hb; try (cbn in Hn; lia);
    try (destruct open; [constructor|done]). cbn [length] in Hn. destruct x as [b|c| |]; cbn in Hb.
  - apply andb_prop in Hb as [Hk%Nat.ltb_lt Hb].
    destruct (IH ts (b :: open) ltac:(lia) Hb) as (inner & c & tl & -> & Hc & Hi & Htl).
    rewrite length_app in Hn. cbn [length] in *. specialize (IH tl open ltac:(lia) Htl).
    replace (k - length open)%nat with (S (k - S (length open))) in * by lia.
    destruct open as [|o rest].
    + destruct k as [|k]; [lia|]. replace (S k - S (length []))%nat with k in Hi by (cbn; lia).
      by apply nested_pair.
    + destruct IH as (inner2 & c2 & tl2 & -> & Hc2 & Hi2 & Htl2).
      exists (LxOpen b :: inner ++ LxClose c :: inner2), c2, tl2. rewrite <- app_comm_cons, <- app_assoc.
      split; [done|]. split; [done|]. split; [|done]. by apply nested_pair.
  - destruct open as [|o rest]; [done|]. apply andb_prop in Hb as [Ho%bool_decide_eq_true Hb].
    exists [], c, ts. split; [done|]. split; [done|]. split; [constructor|done].
  - specialize (IH ts open ltac:(lia) Hb). destruct open as [|o rest]; [by constructor|].
    destruct IH as (inner & c & tl & -> & Hc & Hi & Htl). exists (LxNot :: inner), c, tl.
    split; [done|]. split; [done|]. split; [by constructor|done].
  - specialize (IH ts open ltac:(lia) Hb). destruct open as [|o rest]; [by constructor|].
    destruct IH as (inner & c & tl & -> & Hc & Hi & Htl). exists (LxPlain :: inner), c, tl.
    split; [done|]. split; [done|]. split; [by constructor|done].
Qed.
Lemma balanced_iff k ts : balanced k [] ts = true <-> nested k ts.
Proof.
  split; [intros Hb; by apply (balanced_nested k (length ts) ts [])|].
  intros H. pose proof (nested_balanced k ts k [] [] H) as He. rewrite app_nil_r in He. by apply He.
Qed.

(** ** The scan *)

Lemma scan_loop_start source ts : lexes (str_bytes source) ts ->
  loop_ok (scan_loop source (S (str_len source)) scan_start) (checks scan_start ts).
Proof. intros H. apply (scan_loop_checks source _ [] (str_bytes source)); [done..|]. rewrite length_str_bytes. lia. Qed.

(** The pass always ends. *)
Lemma preflight_ends source : preflight_run source <> None.
Proof.
  unfold preflight_run. destruct (source_too_long source); [done|].
  destruct (lexes_total (str_bytes source)) as [ts Hts]. pose proof (scan_loop_start source ts Hts) as H.
  destruct (checks scan_start ts) as [s|]; [destruct H as [n ->]|destruct H as [e ->]]; done.
Qed.

Definition source_fits (source : string) : Prop :=
  source <> ""%string /\ Z.of_nat (str_len source) <= 4 * 262144 /\ zlen (chars source) <= 262144.
Lemma source_too_long_false source : source_too_long source = false <-> source_fits source.
Proof.
  unfold source_too_long, source_fits, MAX_SOURCE_SCALARS.
  rewrite !orb_false_iff, bool_decide_eq_false, !Z.ltb_ge.
  unfold zlen. rewrite length_take. intuition lia.
Qed.

(** Heap and stack of a text of the given units *)
Definition resources (source : string) (ts : list lexeme) (shallow : Prop) (r : ParserResources) : Prop :=
  heap r = 4 * 1024 * 1024 + (zlen ts + 1) * 32768 + 16 * Z.of_nat (str_len source) /\
  (shallow /\ stack r = 0 \/ ~ shallow /\ stack r = 32 * 1024 * 1024).

Definition accepted (source : string) (ts : list lexeme) (r : ParserResources) : Prop :=
  zlen ts <= 2048 /\ nested 128 ts /\ (longest_run 0 ts <= 128)%nat /\
  resources source ts (nested 8 ts /\ (longest_run 0 ts <= 8)%nat) r /\ heap r + stack r <= 64 * 1024 * 1024.

Lemma checks_units ts s s' : checks s ts = Some s' -> tame 128 s -> sc_units s' = sc_units s + zlen ts.
Proof.
  revert s; induction ts as [|x ts IH]; intros s; [intros [= ->] _; unfold zlen; cbn; lia|].
  rewrite checks_cons, zlen_le_cons. destruct (check s x) as [s1|] eqn:Hc; [|done]. cbn. intros Hs Ht.
  destruct (check_tame _ _ _ Hc Ht) as (Ht1 & Hu & _). rewrite (IH s1 Hs Ht1). lia.
Qed.
Lemma tame_start k : tame (Z.of_nat k) scan_start.
Proof. unfold tame, scan_depth, zlen. cbn. lia. Qed.
Lemma run_of_start ts : run_of scan_start ts = Z.of_nat (longest_run 0 ts).
Proof. done. Qed.

Lemma scan_resources_Ok source ts s n r : checks scan_start ts = Some s -> sc_open s = [] ->
  scan_resources source (move n s) = Ok r <->
  resources source ts (nested 8 ts /\ (longest_run 0 ts <= 8)%nat) r /\ heap r + stack r <= 64 * 1024 * 1024.
Proof.
  intros Hs Ho. pose proof (checks_deepest 8 ts scan_start s ltac:(lia) (tame_start 8) Hs Ho) as Hd.
  pose proof (checks_units _ _ _ Hs (tame_start 128)) as Hu. cbn [sc_units scan_start] in Hu.
  rewrite run_of_start, balanced_iff in Hd. cbn [sc_deepest scan_start] in Hd.
  assert (nested 8 ts /\ (longest_run 0 ts <= 8)%nat <-> sc_deepest s <= 8) as Hp.
  { change (Z.of_nat 8) with 8 in Hd. rewrite Hd. split; [intros []; repeat split; (done || lia)|intros (? & ? & ?); split; [done|lia]]. }
  unfold scan_resources, resources, PARSER_PROFILE_BYTES, PARSER_STACK_BYTES. cbn [move sc_open sc_units sc_deepest].
  rewrite Ho, Hu, Hp. destruct r as [h k]. cbn [heap stack].
  destruct (Z.ltb_spec 8 (sc_deepest s)); case_match; rewrite ?Z.ltb_lt, ?Z.ltb_ge in *;
    (split; [intros ?; simplify_eq; lia|intros [[-> Hk] Hb]]); try lia; do 2 f_equal; lia.
Qed.

Lemma preflight_units source ts r : lexes (str_bytes source) ts -> source_fits source ->
  preflight source = Ok r <-> accepted source ts r.
Proof.
  intros Hts Hf. unfold preflight, preflight_run, accepted. rewrite (proj2 (source_too_long_false source) Hf).
  pose proof (scan_loop_start source ts Hts) as H.
  pose proof (checks_accept ts scan_start (tame_start 128) ltac:(done)) as Ha.
  rewrite run_of_start, balanced_iff in Ha. cbn [sc_units scan_start] in Ha.
  destruct (checks scan_start ts) as [s|] eqn:Hs; cbn [loop_ok] in H.
  - destruct H as [n ->]. cbn [mbind option_bind default result_bind].
    destruct (sc_open s) as [|o rest] eqn:Ho.
    + destruct Ha as [Ha _]. destruct Ha as (? & ? & ?); [by exists s|].
      rewrite (scan_resources_Ok source ts s n r Hs Ho). intuition lia.
    + unfold scan_resources. cbn [move sc_open]. rewrite Ho. split; [done|]. intros (H1 & H2 & H3 & _).
      destruct Ha as [_ Ha]. destruct Ha as (s' & [= <-] & Ho'); [repeat split; (done || lia)|]. congruence.
  - destruct H as [e ->]. cbn [mbind option_bind default result_bind]. split; [done|].
    intros (H1 & H2 & H3 & _). destruct Ha as [_ Ha]. destruct Ha as (s' & Hs' & _); [repeat split; (done || lia)|done].
Qed.

(** C14: What is let through to the parser. [preflight] accepts exactly the texts of at most
    262144 scalars and 2048 units whose delimiters match, nest at most 128 deep, with at most
    128 [NOT]s in a row, and whose parse is within 64 MiB: so the recursive parser never
    meets a deeper text. A heap is reserved for every unit and byte, and a stack of 32 MiB
    exactly when delimiters or [NOT]s go deeper than 8. *)
Theorem preflight_spec source r : preflight source = Ok r <->
  source_fits source /\ exists ts, lexes (str_bytes source) ts /\ zlen ts <= 2048 /\
    nested 128 ts /\ (longest_run 0 ts <= 128)%nat /\
    resources source ts (nested 8 ts /\ (longest_run 0 ts <= 8)%nat) r /\ heap r + stack r <= 64 * 1024 * 1024.
Proof.
  assert (preflight source = Ok r -> source_fits source) as Hf.
  { rewrite <- source_too_long_false. unfold preflight, preflight_run. by destruct (source_too_long source). }
  destruct (lexes_total (str_bytes source)) as [ts Hts]. split.
  - intros H. split; [by apply Hf|]. exists ts. split; [done|]. apply preflight_units; auto.
  - intros (Hfit & ts' & Hts' & H). by apply (preflight_units source ts').
Qed.

(** ** Scans at work *)

Example scanned : preflight "FROM NODES AS n |> RETURN n // all)" =
  Ok {| heap := 4 * 1024 * 1024 + 9 * 32768 + 16 * 35; stack := 0 |}.
Proof. vm_compute. reflexivity. Qed.
Example scan_quoted : preflight "f(`)`)" = Ok {| heap := 4 * 1024 * 1024 + 5 * 32768 + 16 * 6; stack := 0 |}.
Proof. vm_compute. reflexivity. Qed.
Example scan_deep : stack <$> preflight "NOT NOT NOT NOT NOT NOT NOT NOT (a)" = Ok 0 /\
  stack <$> preflight "NOT NOT NOT NOT NOT NOT NOT NOT NOT (a)" = Ok (32 * 1024 * 1024).
Proof. vm_compute. split; reflexivity. Qed.
Example scan_unbalanced : is_ok (preflight "f([a)]") = false.
Proof. vm_compute. reflexivity. Qed.
