(* ===== verification/HqlSyntax.v ===== *)
(** * The syntax of HQL2

    [src/src/query/hql2/ast.rs]: statements as the parser builds them. Every piece of
    syntax carries where it stood in the source; the tree of a construct that is parsed
    and not supported is kept with the kinds of the generated grammar, [SyntaxKind]. *)
From S2P Require Export Wire.
Local Open Scope Z_scope.

Record Span := { start_byte : Z; end_byte : Z }.
Record Spanned (T : Type) := At { sp_span : Span; sp_value : T }.
Arguments At {T} _ _.
Arguments sp_span {T} _.
Arguments sp_value {T} _.

Notation Name := (Spanned string).

Inductive StatementKind := StRead | StExplain | StAnalyzeRead | StMutation | StDdl | StAdmin.

Inductive HqlBinaryOp :=
| HOr | HAnd | HEqual | HNotEqual | HLess | HLessEqual | HGreater | HGreaterEqual
| HContains | HStartsWith | HAdd | HSubtract | HMultiply | HDivide | HRemainder.

Inductive UnsignedKind := ULiteral (v : Z) | UParameter (name : string).
Notation Unsigned := (Spanned UnsignedKind).

Record ObjectFieldOf (E : Type) := { of_span : Span; of_key : Name; of_expression : E }.
Arguments of_span {E} _.
Arguments of_key {E} _.
Arguments of_expression {E} _.

Inductive ExprKind :=
| HNull
| HBool (b : bool)
| HI64 (z : Z)
| HF64 (x : f64)
| HUtf8 (s : string)
| HParameter (param : string)
| HField (parts : list Name)
| HList (l : list (Spanned ExprKind))
| HObject (fields : list (ObjectFieldOf (Spanned ExprKind)))
| HCall (call : Name) (arguments : list (Spanned ExprKind)) (star : option Span)
| HGroup (e : Spanned ExprKind)
| HNot (e : Spanned ExprKind)
| HBinary (op : HqlBinaryOp) (lhs rhs : Spanned ExprKind)
| HIsNull (expression : Spanned ExprKind) (negated : bool)
| HIn (expression values : Spanned ExprKind) (negated : bool)
| HBetween (expression low high : Spanned ExprKind).
Notation HqlExpr := (Spanned ExprKind).
Notation ObjectField := (ObjectFieldOf HqlExpr).

Inductive SelectKind := SelStar | SelExpression (expression : HqlExpr) (alias : option Name).
Notation SelectItem := (Spanned SelectKind).

Inductive HqlJoinKind := HInner | HLeft | HSemi | HAnti.
Inductive VectorSearchMode := HExact | HApprox.
Inductive GraphDirection := HOut | HIn_ | HBoth.
Inductive GraphPathMode := HTrail | HSimple | HWalk.
Inductive HqlSortDirection := HAsc | HDesc.
Inductive HqlNullOrder := HFirst | HLast.

Record GraphSequenceStep := {
  gs_end_alias : Name;
  gs_node_id : option HqlExpr;
  gs_node_labels : list Name;
  gs_node_properties : btree HqlExpr;
  gs_edge_alias : option Name;
  gs_edge_properties : btree HqlExpr;
  gs_relations : list Name;
  gs_direction : GraphDirection;
  gs_min_hops : Z;
  gs_max_hops : Z;
}.
Record OrderItem := {
  oi_span : Span;
  oi_expression : HqlExpr;
  oi_direction : option (Spanned HqlSortDirection);
  oi_nulls : option (Spanned HqlNullOrder);
}.
Record Scope := {
  sc_span : Span;
  sc_namespace : Name;
  sc_tx : option Unsigned;
  sc_valid_at : option (Spanned string);
}.

(** The kinds of the productions are the generated enumeration's. *)
Class Grammar := { SyntaxKind : Type }.

Section Statements.
Context `{Grammar}.

Inductive SyntaxNode := {
  sn_kind : SyntaxKind;
  sn_span : Span;
  sn_text : option string;
  sn_children : list SyntaxNode;
}.

Inductive StageKind :=
| StFilter (predicate : HqlExpr)
| StProject (items : list SelectItem)
| StDistinct
| StJoin (table alias : Name) (kind : HqlJoinKind) (condition : HqlExpr)
| StAnnotationLookup (target alias : Name) (optional : bool)
| StKnn (entity collection : Name) (query : HqlExpr) (k : Unsigned) (mode : VectorSearchMode)
    (alias : Name)
| StRerank (entity collection : Name) (query : HqlExpr) (k : Unsigned) (alias : Name)
| StLexicalMatch (entity field : Name) (query : HqlExpr) (index : Name) (k : Unsigned) (alias : Name)
| StContextPack (text evidence : HqlExpr) (tokens : Unsigned) (tokenizer : Spanned string)
    (alias : Name)
| StExpand (start_alias end_alias : Name) (edge_alias : option Name) (relations : list Name)
    (direction : GraphDirection) (min_hops max_hops : Z) (mode : GraphPathMode)
    (path_alias : option Name) (optional : bool)
| StExpandSequence (start_alias : Name) (start_id : option HqlExpr) (start_labels : list Name)
    (start_properties : btree HqlExpr) (steps : list GraphSequenceStep) (mode : GraphPathMode)
    (path_alias : option Name) (optional : bool)
| StAggregate (group_by aggregates : list SelectItem)
| StOrder (items : list OrderItem)
| StTake (count : Unsigned)
| StSkip (count : Unsigned)
| StUnsupported (node : SyntaxNode).

Record QueryOf (S : Type) := {
  q_span : Span;
  q_scope : option Scope;
  q_source : Spanned S;
  q_stages : list (Spanned StageKind);
  q_returning : list SelectItem;
}.
Arguments q_span {S} _.
Arguments q_scope {S} _.
Arguments q_source {S} _.
Arguments q_stages {S} _.
Arguments q_returning {S} _.

Inductive SourceKind :=
| SoValues (parameter alias : Name)
| SoNodes (label : option Name) (alias : Name)
| SoEdges (relation : option Name) (alias : Name)
| SoHistory (kind : Spanned string) (id : HqlExpr) (alias : Name)
| SoChanges (after_seq : Unsigned) (alias : Name)
| SoRows (table alias : Name)
| SoAnnotations (alias : Name)
| SoMatch (start_alias : Name) (start_id : option HqlExpr) (start_labels : list Name)
    (start_properties : btree HqlExpr) (steps : list GraphSequenceStep) (mode : GraphPathMode)
    (path_alias : option Name) (shortest : bool)
| SoUnionAll (lhs rhs : QueryOf SourceKind)
| SoUnsupported (node : SyntaxNode).
Definition HqlQuery : Type := QueryOf SourceKind.

Record Hql2Statement := {
  st_source : string;
  st_span : Span;
  st_kind : StatementKind;
  st_query : option HqlQuery;
  st_syntax : SyntaxNode;
}.
End Statements.
Arguments q_span {_ _} _.
Arguments q_scope {_ _} _.
Arguments q_source {_ _} _.
Arguments q_stages {_ _} _.
Arguments q_returning {_ _} _.

(** ** Induction on the parts of an expression *)

(** The operands of an expression, as they stand in the source. *)
Definition hql_operands (k : ExprKind) : list ExprKind :=
  match k with
  | HList l => sp_value <$> l
  | HObject fields => (fun f => sp_value (of_expression f)) <$> fields
  | HCall _ arguments _ => sp_value <$> arguments
  | HGroup e | HNot e | HIsNull e _ => [sp_value e]
  | HBinary _ lhs rhs => [sp_value lhs; sp_value rhs]
  | HIn e values _ => [sp_value e; sp_value values]
  | HBetween e low high => [sp_value e; sp_value low; sp_value high]
  | _ => []
  end.

Lemma hql_ind (P : ExprKind -> Prop) :
  (forall k, Forall P (hql_operands k) -> P k) -> forall k, P k.
Proof.
  intros H. fix IH 1. intros k. apply H.
  assert (forall e : HqlExpr, P (sp_value e)) as He by (intros [s v]; exact (IH v)).
  assert (forall l : list HqlExpr, Forall P (sp_value <$> l)) as Hl
    by (induction l as [|e l IHl]; constructor; [apply He|exact IHl]).
  assert (forall l : list ObjectField, Forall P ((fun f => sp_value (of_expression f)) <$> l)) as Hf
    by (induction l as [|[s n [s' v]] l IHl]; constructor; [exact (IH v)|exact IHl]).
  destruct k; cbn [hql_operands]; try exact (List.Forall_nil P); try apply Hl; try apply Hf;
    repeat (constructor; [apply He|]); constructor.
Qed.
