(* ===== verification/Request.v ===== *)
(** * Requests

    [src/src/query/hql2/request.rs]: the envelope of a query before anything is bound. Its
    checks, the mode and the snapshot it asks for, and the bounds on its size and on what
    planning it may take; then which requests are read, and how. *)
From S2P Require Export HqlSyntax Budget.
Local Open Scope Z_scope.

(** [DateTime::parse_from_rfc3339] *)
Class Rfc3339 := { parse_from_rfc3339 : string -> option DateTime }.

#[export] Instance explain_eq_dec : EqDecision ExplainV2.
Proof. solve_decision. Defined.

Record ReadOptionsV2 := {
  ro_mode : ExplainV2;
  ro_valid_at : DateTime;
  ro_tx : option Z;
}.
Definition bind_error (reason : string) : QueryErrorV2 := query_error "BIND_ERROR" "bind" reason.
Definition unsupported (reason : string) : QueryErrorV2 := query_error "CAPABILITY_UNSUPPORTED" "bind" reason.

(** ** The envelope *)

Definition wrong_version (request : QueryRequestV2) : bool :=
  negb (bool_decide (qr_contract_version request = "genesis.api.v2"%string))
  || match qr_ir request with
     | Some ir => negb (bool_decide (ir_contract_version ir = "query-ir.v2"%string))
     | None => false
     end.
Definition version_error : QueryErrorV2 := query_error "VERSION_UNSUPPORTED" "contract" "contract_version".
Definition is_lower (b : byte) : bool := (97 <=? byte_val b) && (byte_val b <=? 122).
Definition namespace_ok (namespace : string) : bool :=
  let bytes := str_bytes namespace in
  (1 <=? zlen bytes) && (zlen bytes <=? 63)
  && match bytes with b :: _ => is_lower b | [] => false end
  && forallb (fun b => is_lower b || byte_is_digit b || (byte_val b =? 95)) bytes.
Definition source_shape (request : QueryRequestV2) : bool :=
  match qr_hql request, qr_ir request, qr_language_version request with
  | Some hql, None, Some _ => (1 <=? zlen (chars hql)) && (zlen (chars hql) <=? 262144)
  | None, Some _, None => true
  | _, _, _ => false
  end.
Definition validate_envelope (request : QueryRequestV2) : query unit :=
  if wrong_version request then Err version_error
  else if negb ((1 <=? zlen (chars (qr_request_id request))) && (zlen (chars (qr_request_id request)) <=? 256))
  then Err (bind_error "request_id")
  else if negb (namespace_ok (qr_namespace request)) then Err (bind_error "namespace")
  else if source_shape request then Ok tt else Err (bind_error "source_shape").

(** [value.parse::<u64>()], which must be the number's own text *)
Definition decimal (value : string) : query Z :=
  number ← ok_or (parse_unsigned u64_max value) (bind_error "frontier_range");
  if bool_decide (to_string number = value) then Ok number else Err (bind_error "frontier_encoding").

(** ** What a request asks for *)

Section Normalize.
Context `{Grammar, Rfc3339}.

(** The mode a statement is written in, if it says one *)
Definition textual_mode (statement : option Hql2Statement) : query (option ExplainV2) :=
  match statement with
  | None => Ok None
  | Some s =>
      match st_kind s with
      | StRead => Ok None
      | StExplain => Ok (Some ExplainPlan)
      | StAnalyzeRead => Ok (Some ExplainAnalyze)
      | _ => Err (unsupported "statement_execution")
      end
  end.
Definition required_frontier (request : QueryRequestV2) (frontier : Z) : query unit :=
  match qr_required_frontier request with
  | None => Ok tt
  | Some required =>
      n ← decimal required;
      if frontier <? n then Err (query_error "INDEX_COVERAGE_TIMEOUT" "bind" "required_frontier") else Ok tt
  end.
(** A value given twice must be the same. *)
Definition agreed {A} `{EqDecision A} (given : option A) (selected : A) : query (option A) :=
  match given with
  | Some g => if bool_decide (g = selected) then Ok (Some selected) else Err (bind_error "temporal_conflict")
  | None => Ok (Some selected)
  end.
Definition scope_tx (tx : option Z) (selected : option Unsigned) : query (option Z) :=
  match selected with
  | None => Ok tx
  | Some selected =>
      match sp_value selected with
      | ULiteral selected => agreed tx selected
      | UParameter _ => Err (unsupported "temporal_parameter")
      end
  end.
Definition scope_valid_at (valid_at : option DateTime) (selected : option (Spanned string))
  : query (option DateTime) :=
  match selected with
  | None => Ok valid_at
  | Some selected =>
      selected ← ok_or (parse_from_rfc3339 (sp_value selected)) (bind_error "valid_time");
      agreed valid_at selected
  end.
Definition statement_scope (statement : option Hql2Statement) : option Scope :=
  s ← statement; q ← st_query s; q_scope q.
Definition apply_scope (request : QueryRequestV2) (statement : option Hql2Statement)
  (tx : option Z) (valid_at : option DateTime) : query (option Z * option DateTime) :=
  match statement_scope statement with
  | None => Ok (tx, valid_at)
  | Some scope =>
      if negb (bool_decide (sp_value (sc_namespace scope) = qr_namespace request))
      then Err (bind_error "namespace_conflict")
      else
        tx ← scope_tx tx (sc_tx scope);
        valid_at ← scope_valid_at valid_at (sc_valid_at scope);
        Ok (tx, valid_at)
  end.
(** The snapshot is between the retention horizon and the frontier. *)
Definition window (tx : option Z) (frontier horizon : Z) : query unit :=
  match tx with
  | None => Ok tt
  | Some tx =>
      if tx <? horizon then Err (query_error "BEYOND_HORIZON" "bind" "retention_horizon")
      else if frontier <? tx then Err (bind_error "future_snapshot") else Ok tt
  end.
Definition unsupported_option (request : QueryRequestV2) : query unit :=
  match qr_language_version request with
  | Some HqlV1 => Err (unsupported "legacy_lowering")
  | _ =>
      match qr_allow_partial request, qr_format request, qr_index_policy request, qr_transaction_id request with
      | Some true, _, _, _ => Err (unsupported "partial_results")
      | _, Some FormatStream, _, _ => Err (unsupported "stream_format")
      | _, _, Some (Wait | Eventual), _ => Err (unsupported "index_policy")
      | _, _, _, Some _ => Err (bind_error "read_transaction_id")
      | _, _, _, None => Ok tt
      end
  end.
Definition explain_conflict (a b : option ExplainV2) : bool :=
  match a, b with Some a, Some b => negb (bool_decide (a = b)) | _, _ => false end.

Definition normalize (request : QueryRequestV2) (statement : option Hql2Statement)
  (frontier horizon : Z) (now : DateTime) : query ReadOptionsV2 :=
  if wrong_version request then Err version_error
  else
    validate_envelope request ;;
    unsupported_option request ;;
    required_frontier request frontier ;;
    textual ← textual_mode statement;
    if explain_conflict (qr_explain request) textual then Err (bind_error "explain_mode_conflict")
    else
      tx ← match qr_temporal request ≫= qt_tx_as_of with
           | Some tx => n ← decimal tx; Ok (Some n)
           | None => Ok None
           end;
      '(tx, valid_at) ← apply_scope request statement tx (qr_temporal request ≫= qt_valid_at);
      window tx frontier horizon ;;
      Ok {| ro_mode := default ExplainNone (from_option Some textual (qr_explain request));
            ro_valid_at := default now valid_at; ro_tx := tx |}.
End Normalize.

(** ** The size of a request *)

Definition memory_limit (request : QueryRequestV2) : Z :=
  Z.min (default (64 * 1024 * 1024) (qr_budget request ≫= qb_max_memory_bytes)) (64 * 1024 * 1024).
Section InputBytes.
Variable limit : Z.

(** The closure [add] *)
Definition add_bytes (bytes n : Z) : query Z :=
  bytes ← ok_or (u64_checked_add bytes n) (bind_error "input_size");
  if limit <? bytes then Err (query_error "QUERY_BUDGET_EXCEEDED" "execute" "input_memory") else Ok bytes.
Definition add_option (bytes : Z) (text : option string) (weight : Z) : query Z :=
  match text with Some text => add_bytes bytes (u64_saturating_mul (zstr text) weight) | None => Ok bytes end.
(** A member of an object, pushed one deeper *)
Definition add_member (depth : nat) (acc : Z * list (json * nat)) (kv : string * json)
  : query (Z * list (json * nat)) :=
  bytes ← add_bytes acc.1 (u64_saturating_mul (zstr kv.1) 4);
  Ok (bytes, (kv.2, depth) :: acc.2).
(** [while let Some((value, depth)) = stack.pop()]; the top is the head. *)
Fixpoint input_loop (fuel : nat) (stack : list (json * nat)) (bytes : Z) : query Z :=
  match stack with
  | [] => Ok bytes
  | (value, depth) :: stack =>
      match fuel with
      | O => Err (bind_error "fuel")
      | S fuel =>
          if (512 <? depth)%nat then Err (bind_error "value_depth")
          else
            bytes ← add_bytes bytes 128;
            match value with
            | JString s =>
                bytes ← add_bytes bytes (u64_saturating_mul (zstr s) 4); input_loop fuel stack bytes
            | JArray v =>
                bytes ← add_bytes bytes (u64_saturating_mul (zlen v) 128);
                input_loop fuel (rev (map (fun v => (v, S depth)) v) ++ stack) bytes
            | JObject v =>
                bytes ← add_bytes bytes (u64_saturating_mul (zlen v) 128);
                '(bytes, stack) ← try_for (add_member (S depth)) (bytes, stack) v;
                input_loop fuel stack bytes
            | _ => input_loop fuel stack bytes
            end
      end
  end.
Definition add_param (acc : Z * list (json * nat)) (kv : string * json) : query (Z * list (json * nat)) :=
  bytes ← add_bytes acc.1 (zstr kv.1);
  Ok (bytes, (kv.2, 0%nat) :: acc.2).
Definition add_config (acc : Z * list (json * nat)) (kv : string * json) : query (Z * list (json * nat)) :=
  bytes ← add_bytes acc.1 (zstr kv.1 + 32);
  Ok (bytes, (kv.2, 0%nat) :: acc.2).
Definition add_node (acc : Z * list (json * nat)) (node : QueryNodeV2) : query (Z * list (json * nat)) :=
  bytes ← add_bytes acc.1 (u64_saturating_mul (zstr (qn_id node)) 16 +sat 256);
  bytes ← try_for (fun bytes input => add_bytes bytes (u64_saturating_mul (zstr input) 16 +sat 32))
            bytes (qn_inputs node);
  try_for add_config (bytes, acc.2) (qn_config node).
Definition add_ir (acc : Z * list (json * nat)) (ir : QueryIrV2) : query (Z * list (json * nat)) :=
  if 10000 <? zlen (ir_nodes ir) then Err (bind_error "plan_nodes")
  else
    bytes ← try_for (fun bytes (nt : string * string) => add_bytes bytes (zstr nt.1 + zstr nt.2 + 128))
              acc.1 (ir_parameter_types ir);
    try_for add_node (bytes, acc.2) (ir_nodes ir).
End InputBytes.

Definition request_values (request : QueryRequestV2) : list json :=
  map snd (qr_params request) ++
  match qr_ir request with
  | Some ir => concat (map (fun n => map snd (qn_config n)) (ir_nodes ir))
  | None => []
  end.
Definition input_bytes (request : QueryRequestV2) : query Z :=
  let limit := memory_limit request in
  let add := add_bytes limit in
  bytes ← add 4096 (u64_saturating_mul (zlen (qr_params request)) 128);
  bytes ← add bytes (zstr (qr_request_id request));
  bytes ← add bytes (zstr (qr_namespace request));
  bytes ← add_option limit bytes (qr_required_frontier request) 1;
  bytes ← add_option limit bytes (qr_temporal request ≫= qt_tx_as_of) 1;
  bytes ← add_option limit bytes (qr_hql request) 16;
  acc ← try_for (add_param limit) (bytes, []) (qr_params request);
  '(bytes, stack) ← match qr_ir request with Some ir => add_ir limit acc ir | None => Ok acc end;
  input_loop limit (list_sum (map json_nodes (request_values request))) stack bytes.

(** ** What planning may take *)

(** [iter().map(len).max().unwrap_or(16)] *)
Definition longest (l : list string) : Z :=
  match l with [] => 16 | _ => foldl Z.max 0 (map zstr l) end.
Definition param_types (params : btree json) : list string :=
  omap (fun kv => match kv.2 with
                  | JObject m => match bt_get cmp_str "type" m with Some (JString s) => Some s | _ => None end
                  | _ => None
                  end) params.
(** The counters of the loop over the operators, and the expressions left to visit *)
Record planning := {
  pl_aliases : Z; pl_alias_bytes : Z; pl_wrappers : Z; pl_expressions : list Expr }.
Definition planning_init : planning :=
  {| pl_aliases := 0; pl_alias_bytes := 0; pl_wrappers := 0; pl_expressions := [] |}.
Definition plan_alias (p : planning) (name : string) : planning :=
  {| pl_aliases := pl_aliases p +sat 1; pl_alias_bytes := pl_alias_bytes p +sat zstr name;
     pl_wrappers := pl_wrappers p; pl_expressions := pl_expressions p |}.
Definition plan_wrappers (p : planning) (n : Z) : planning :=
  {| pl_aliases := pl_aliases p; pl_alias_bytes := pl_alias_bytes p;
     pl_wrappers := pl_wrappers p +sat n; pl_expressions := pl_expressions p |}.
Definition plan_expressions (p : planning) (l : list Expr) : planning :=
  {| pl_aliases := pl_aliases p; pl_alias_bytes := pl_alias_bytes p; pl_wrappers := pl_wrappers p;
     pl_expressions := pl_expressions p ++ l |}.
Definition plan_field (p : planning) (field : NamedExpr) : planning :=
  plan_expressions (plan_alias p (ne_alias field)) [ne_expression field].
Definition plan_node (p : planning) (node : LogicalNodeV2) : planning :=
  match ln_config node with
  | CValues _ name => plan_alias p name
  | CProject fields => foldl plan_field p fields
  | CAggregate group_by aggregates => plan_wrappers (foldl plan_field p (group_by ++ aggregates)) 16
  | CFilter predicate => plan_expressions p [predicate]
  | CSort keys => plan_expressions p (map so_expression keys)
  | CJoin _ condition => plan_wrappers (plan_expressions p [condition]) 10
  | _ => p
  end.
(** [while let Some(expression) = expressions.pop()]; the top is the head. *)
Fixpoint planning_loop (fuel : nat) (stack : list Expr) (count type_len : Z) : Z * Z :=
  match fuel, stack with
  | S fuel, e :: stack =>
      planning_loop fuel (rev (expr_children e) ++ stack) (count +sat 1)
        match e with ELiteral _ ty => Z.max type_len (zstr ty) | _ => type_len end
  | _, _ => (count, type_len)
  end.
Definition planning_bytes (logical : LogicalRequestV2) (request : QueryRequestV2) : Z :=
  let type_len := Z.max (longest (map snd (lr_parameter_types logical)))
                    (longest (param_types (qr_params request))) in
  let p := foldl plan_node planning_init (lr_nodes logical) in
  let '(expression_count, type_len) :=
    planning_loop (list_sum (map expr_size (pl_expressions p))) (rev (pl_expressions p)) 0 type_len in
  let nodes := zlen (lr_nodes logical) in
  let type_storage := u64_saturating_mul (type_len +sat pl_wrappers p) 8 +sat 512 in
  u64_saturating_mul (u64_saturating_mul
      (pl_alias_bytes p +sat u64_saturating_mul (pl_aliases p) type_storage) nodes) 6
  +sat u64_saturating_mul nodes 2048
  +sat u64_saturating_mul (u64_saturating_mul expression_count type_storage) 3.

(** ** Which requests are read, and how

    What [normalize] makes of an envelope and a statement, the exact bound on the size of a
    request, and what the bound on planning counts. *)

(** *** Decimal numbers *)

Lemma decimal_Ok v n : decimal v = Ok n <-> 0 <= n <= u64_max /\ v = to_string n.
Proof.
  unfold decimal. split.
  - intros (m & Hm%ok_or_Ok & Hn)%bind_Ok. case_bool_decide as E; [|done]. injection Hn as <-.
    split; [by eapply parse_unsigned_bounds|done].
  - intros [Hn ->]. rewrite parse_unsigned_to_string by done. cbn. by rewrite bool_decide_eq_true_2.
Qed.

(** *** Normal requests *)

(** The one value of two that agree where both are there *)
Definition merged {A} (a b r : option A) : Prop :=
  match a, b with
  | Some x, Some y => x = y /\ r = Some y
  | Some x, None | None, Some x => r = Some x
  | None, None => r = None
  end.
Lemma merged_unique {A} (a b r r' : option A) : merged a b r -> merged a b r' -> r = r'.
Proof. destruct a, b; cbn; intuition congruence. Qed.

Section Normalize.
Context `{Grammar, Rfc3339}.

(** The number a text of the request says, a statement's number, and a statement's instant *)
Definition says_number (text : option string) (n : option Z) : Prop :=
  match text with
  | None => n = None
  | Some v => exists m, n = Some m /\ 0 <= m <= u64_max /\ v = to_string m
  end.
Definition says_tx (selected : option Unsigned) (n : option Z) : Prop :=
  match selected with
  | None => n = None
  | Some u => exists m, sp_value u = ULiteral m /\ n = Some m
  end.
Definition says_instant (selected : option (Spanned string)) (t : option DateTime) : Prop :=
  match selected with
  | None => t = None
  | Some s => is_Some t /\ parse_from_rfc3339 (sp_value s) = t
  end.

Record normalized (request : QueryRequestV2) (statement : option Hql2Statement) (frontier horizon : Z)
  (now : DateTime) (o : ReadOptionsV2) : Prop := {
  nz_envelope : validate_envelope request = Ok tt;
  nz_language : qr_language_version request <> Some HqlV1;
  nz_partial : qr_allow_partial request <> Some true;
  nz_format : qr_format request <> Some FormatStream;
  nz_policy : qr_index_policy request = None \/ qr_index_policy request = Some MergeDelta;
  nz_transaction : qr_transaction_id request = None;
  nz_frontier : exists required, says_number (qr_required_frontier request) required /\
    forall n, required = Some n -> n <= frontier;
  nz_mode : exists textual mode, textual_mode statement = Ok textual /\
    merged (qr_explain request) textual mode /\ ro_mode o = default ExplainNone mode;
  nz_namespace : forall scope, statement_scope statement = Some scope ->
    sp_value (sc_namespace scope) = qr_namespace request;
  nz_tx : exists given selected, says_number (qr_temporal request ≫= qt_tx_as_of) given /\
    says_tx (statement_scope statement ≫= sc_tx) selected /\ merged given selected (ro_tx o);
  nz_valid_at : exists selected valid_at,
    says_instant (statement_scope statement ≫= sc_valid_at) selected /\
    merged (qr_temporal request ≫= qt_valid_at) selected valid_at /\
    ro_valid_at o = default now valid_at;
  nz_window : forall tx, ro_tx o = Some tx -> horizon <= tx <= frontier;
}.

Lemma unsupported_option_Ok request : unsupported_option request = Ok tt <->
  qr_language_version request <> Some HqlV1 /\ qr_allow_partial request <> Some true /\
  qr_format request <> Some FormatStream /\
  (qr_index_policy request = None \/ qr_index_policy request = Some MergeDelta) /\
  qr_transaction_id request = None.
Proof.
  unfold unsupported_option.
  destruct (qr_language_version request) as [[]|], (qr_allow_partial request) as [[]|],
    (qr_format request) as [[]|], (qr_index_policy request) as [[]|], (qr_transaction_id request);
    intuition congruence.
Qed.
Lemma required_frontier_Ok request frontier : required_frontier request frontier = Ok tt <->
  exists required, says_number (qr_required_frontier request) required /\
    forall n, required = Some n -> n <= frontier.
Proof.
  unfold required_frontier, says_number. destruct (qr_required_frontier request) as [v|].
  - split.
    + intros (n & Hn%decimal_Ok & Hf)%bind_Ok. exists (Some n). split; [by exists n; destruct Hn|].
      intros m [= <-]. destruct (Z.ltb_spec frontier n); [done|lia].
    + intros (required & (m & -> & Hm & Hv) & Hf). specialize (Hf m eq_refl).
      rewrite (proj2 (decimal_Ok v m)) by done. cbn. by rewrite (proj2 (Z.ltb_ge _ _)).
  - split; [|done]. intros _. by exists None.
Qed.
Lemma agreed_Ok {A} `{EqDecision A} (g : option A) s r : agreed g s = Ok r <-> merged g (Some s) r.
Proof.
  unfold agreed. destruct g as [x|]; cbn; [|intuition congruence].
  case_bool_decide; intuition congruence.
Qed.
Lemma scope_tx_Ok tx selected r : scope_tx tx selected = Ok r <->
  exists n, says_tx selected n /\ merged tx n r.
Proof.
  unfold scope_tx, says_tx. destruct selected as [u|].
  - destruct (sp_value u) as [m|name].
    + rewrite agreed_Ok. split; [intros; exists (Some m); eauto|]. by intros (n & (m' & [= <-] & ->) & Hm).
    + split; [done|]. by intros (n & (m & [=] & _) & _).
  - split; [intros [= <-]; exists None; split; [done|by destruct tx]|].
    intros (n & -> & Hm). by destruct tx; cbn in Hm; subst.
Qed.
Lemma scope_valid_at_Ok valid_at selected r : scope_valid_at valid_at selected = Ok r <->
  exists t, says_instant selected t /\ merged valid_at t r.
Proof.
  unfold scope_valid_at, says_instant. destruct selected as [s|].
  - destruct (parse_from_rfc3339 (sp_value s)) as [t|]; cbn.
    + rewrite agreed_Ok. split; [intros; exists (Some t); eauto|]. by intros (t' & (_ & <-) & Hm).
    + split; [done|]. by intros (t' & ([? ->] & [=]) & _).
  - split; [intros [= <-]; exists None; split; [done|by destruct valid_at]|].
    intros (n & -> & Hm). by destruct valid_at; cbn in Hm; subst.
Qed.
Lemma apply_scope_Ok request statement tx valid_at tx' valid_at' :
  apply_scope request statement tx valid_at = Ok (tx', valid_at') <->
  (forall scope, statement_scope statement = Some scope -> sp_value (sc_namespace scope) = qr_namespace request) /\
  (exists n, says_tx (statement_scope statement ≫= sc_tx) n /\ merged tx n tx') /\
  (exists t, says_instant (statement_scope statement ≫= sc_valid_at) t /\ merged valid_at t valid_at').
Proof.
  unfold apply_scope. destruct (statement_scope statement) as [scope|]; cbn [mbind option_bind].
  - case_bool_decide as E; cbn [negb].
    + rewrite <- scope_tx_Ok, <- scope_valid_at_Ok. split.
      * intros (n & Hn & (t & Ht & [= <- <-])%bind_Ok)%bind_Ok. split_and!; try done. by intros ? [= <-].
      * intros (_ & -> & ->). done.
    + split; [done|]. intros (Hs & _). by destruct E, (Hs scope eq_refl).
  - split.
    + intros [= <- <-]. split_and!; [done|exists None; split; [done|by destruct tx]|].
      exists None. split; [done|by destruct valid_at].
    + intros (_ & (n & -> & Hn) & (t & -> & Ht)). by destruct tx, valid_at; cbn in *; subst.
Qed.
Lemma window_Ok tx frontier horizon : window tx frontier horizon = Ok tt <->
  forall t, tx = Some t -> horizon <= t <= frontier.
Proof.
  unfold window. destruct tx as [t|]; [|done].
  destruct (Z.ltb_spec t horizon), (Z.ltb_spec frontier t); split; try done; try lia;
    try (intros Ht; specialize (Ht t eq_refl); lia). by intros _ ? [= <-].
Qed.
Lemma explain_conflict_false a b :
  explain_conflict a b = false <-> merged a b (from_option Some b a).
Proof.
  destruct a as [x|], b as [y|]; cbn; try done. case_bool_decide; cbn; intuition congruence.
Qed.
Lemma given_tx_Ok text n :
  match text with Some v => m ← decimal v; Ok (Some m) | None => Ok None end = Ok n <-> says_number text n.
Proof.
  destruct text as [v|]; cbn; [|split; congruence]. split.
  - intros (m & Hm%decimal_Ok & [= <-])%bind_Ok. exists m. by destruct Hm.
  - intros (m & -> & Hm). by rewrite (proj2 (decimal_Ok v m)).
Qed.

End Normalize.

(** *** The size of a request *)

(** What a value counts for, and how deep it is nested *)
Fixpoint json_footprint (v : json) : Z :=
  128 + match v with
        | JString s => zstr s * 4
        | JArray l => zlen l * 128 + zsum (map json_footprint l)
        | JObject m => zlen m * 128 + zsum (map (fun kv => zstr kv.1 * 4 + json_footprint kv.2) m)
        | _ => 0
        end.
Fixpoint json_height (v : json) : nat :=
  match v with
  | JArray l => list_max (map (fun v => S (json_height v)) l)
  | JObject m => list_max (map (fun kv => S (json_height kv.2)) m)
  | _ => 0
  end.
Definition node_footprint (n : QueryNodeV2) : Z :=
  zstr (qn_id n) * 16 + 256 + zsum (map (fun input => zstr input * 16 + 32) (qn_inputs n))
  + zsum (map (fun kv => zstr kv.1 + 32) (qn_config n)).
Definition ir_footprint (ir : QueryIrV2) : Z :=
  zsum (map (fun nt => zstr nt.1 + zstr nt.2 + 128) (ir_parameter_types ir))
  + zsum (map node_footprint (ir_nodes ir)).
Definition text_size (text : option string) : Z := from_option zstr 0 text.
Definition request_footprint (request : QueryRequestV2) : Z :=
  4096 + zlen (qr_params request) * 128 + zstr (qr_request_id request) + zstr (qr_namespace request)
  + text_size (qr_required_frontier request) + text_size (qr_temporal request ≫= qt_tx_as_of)
  + text_size (qr_hql request) * 16 + zsum (map (fun kv => zstr kv.1) (qr_params request))
  + from_option ir_footprint 0 (qr_ir request)
  + zsum (map json_footprint (request_values request)).

Lemma json_footprint_nonneg v : 0 <= json_footprint v.
Proof.
  induction v as [| | |s|l IH|m IH] using json_ind'; cbn [json_footprint]; try lia.
  - pose proof (zstr_nonneg s). lia.
  - assert (0 <= zsum (map json_footprint l)); [|pose proof (zlen_nonneg l); lia].
    apply zsum_nonneg, Forall_map. exact IH.
  - assert (0 <= zsum (map (fun kv => zstr kv.1 * 4 + json_footprint kv.2) m)); [|pose proof (zlen_nonneg m); lia].
    apply zsum_nonneg, Forall_map. eapply Forall_impl; [exact IH|].
    intros [k v] Hv. cbn in *. pose proof (zstr_nonneg k). lia.
Qed.

Lemma sat_mul_add a k c : 0 <= c -> u64_saturating_mul a k +sat c = Z.min (a * k + c) u64_max.
Proof. apply sat_min. Qed.
Lemma concat_singles {A B} (g : A -> B) l : concat (map (fun a => [g a]) l) = map g l.
Proof. induction l as [|a l IH]; [done|]. cbn. by rewrite IH. Qed.
Lemma zsum_map_add {A} (f g : A -> Z) l : zsum (map (fun a => f a + g a) l) = zsum (map f l) + zsum (map g l).
Proof. induction l as [|a l IH]; cbn; [done|]. unfold zsum in *. rewrite IH. lia. Qed.

Section Loop.
Variable limit : Z.
Hypothesis Hlimit : limit < u64_max.

Lemma add_bytes_Ok b n c : 0 <= b -> 0 <= n -> add_bytes limit b n = Ok c <-> c = b + n /\ b + n <= limit.
Proof.
  intros Hb Hn. unfold add_bytes, u64_checked_add.
  destruct (Z.leb_spec (b + n) u64_max); cbn.
  - destruct (Z.ltb_spec limit (b + n)); split; try done; try (intros [= <-]; lia); [lia|].
    by intros [-> _].
  - split; [done|lia].
Qed.
Lemma add_min_Ok b n c : 0 <= b -> 0 <= n -> add_bytes limit b (Z.min n u64_max) = Ok c <-> c = b + n /\ b + n <= limit.
Proof.
  intros Hb Hn. rewrite add_bytes_Ok by (unfold u64_max in *; lia). lia.
Qed.
(** A loop of additions *)
Lemma try_add_Ok {A} (f : Z -> A -> query Z) (g : A -> Z) l b c :
  (forall a, 0 <= g a) -> (forall b a c, 0 <= b -> f b a = Ok c <-> c = b + g a /\ b + g a <= limit) ->
  0 <= b <= limit -> try_for f b l = Ok c <-> c = b + zsum (map g l) /\ c <= limit.
Proof.
  intros Hg Hf. revert b; induction l as [|a l IH]; intros b Hb.
  - cbn. split; [intros [= <-]; lia|]. intros [-> _]. by rewrite Z.add_0_r.
  - rewrite try_for_cons. cbn [map zsum foldr]. fold (zsum (map g l)). pose proof (Hg a) as Ha.
    assert (0 <= zsum (map g l)) by (apply zsum_nonneg, Forall_map, Forall_true; apply Hg). split.
    + intros (b' & [-> Hle]%Hf & Hr)%bind_Ok; [|lia]. apply IH in Hr as [-> Hc]; [|lia]. lia.
    + intros [-> Hc]. rewrite (proj2 (Hf b a (b + g a) ltac:(lia))) by lia. cbn. apply IH; lia.
Qed.
(** A loop of additions that pushes values *)
Definition pushes {A} (f : Z * list (json * nat) -> A -> query (Z * list (json * nat))) (g : A -> Z)
  (h : A -> list (json * nat)) : Prop :=
  forall b st a c st', 0 <= b <= limit -> f (b, st) a = Ok (c, st') <->
    c = b + g a /\ c <= limit /\ st' = rev (h a) ++ st.
Lemma try_push_Ok {A} f (g : A -> Z) h l b st c st' : (forall a, 0 <= g a) -> pushes f g h -> 0 <= b <= limit ->
  try_for f (b, st) l = Ok (c, st') <->
  c = b + zsum (map g l) /\ c <= limit /\ st' = rev (concat (map h l)) ++ st.
Proof.
  intros Hg Hf. revert b st; induction l as [|a l IH]; intros b st Hb.
  - cbn. split; [intros [= <- <-]; split_and!; [lia|lia|done]|]. intros (-> & _ & ->). by rewrite Z.add_0_r.
  - rewrite try_for_cons. cbn [map zsum foldr concat]. fold (zsum (map g l)). pose proof (Hg a) as Ha.
    assert (0 <= zsum (map g l)) by (apply zsum_nonneg, Forall_map, Forall_true; apply Hg). split.
    + intros ([b' st1] & (-> & Hle & ->)%Hf & Hr)%bind_Ok; [|lia]. apply IH in Hr as (-> & Hc & ->); [|lia].
      rewrite rev_app_distr, <- (assoc app). split_and!; [lia|lia|done].
    + intros (-> & Hc & ->). rewrite (proj2 (Hf b st a (b + g a) (rev (h a) ++ st) ltac:(lia))) by (split_and!; [done|lia|done]).
      cbn. apply IH; [lia|]. rewrite rev_app_distr, <- (assoc app). split_and!; [lia|lia|done].
Qed.
Lemma pushes_one {A} (f : Z * list (json * nat) -> A -> query (Z * list (json * nat))) g (h : A -> json * nat) :
  (forall b a c, 0 <= b -> add_bytes limit b (g a) = Ok c <-> c = b + g a /\ b + g a <= limit) ->
  (forall acc a, f acc a = (c ← add_bytes limit acc.1 (g a); Ok (c, h a :: acc.2))) ->
  pushes f g (fun a => [h a]).
Proof.
  intros Hadd Hf b st a c st' Hb. rewrite Hf. cbn [fst snd]. split.
  - intros (c' & [-> Hle]%Hadd & [= <- <-])%bind_Ok; [|lia]. done.
  - intros (-> & Hle & ->). rewrite (proj2 (Hadd b a (b + g a) ltac:(lia))) by done. done.
Qed.

(** The loop over the stack adds up what everything on it counts for. *)
Lemma add_then_Ok {A} b n (f : Z -> query A) r : 0 <= b -> 0 <= n ->
  (c ← add_bytes limit b n; f c) = Ok r <-> b + n <= limit /\ f (b + n) = Ok r.
Proof.
  intros Hb Hn. split.
  - by intros (c & [-> Hle]%add_bytes_Ok & Hf)%bind_Ok.
  - intros [Hle Hf]. by rewrite (proj2 (add_bytes_Ok b n (b + n) Hb Hn)).
Qed.
Lemma add_min_then_Ok {A} b n (f : Z -> query A) r : 0 <= b -> 0 <= n ->
  (c ← add_bytes limit b (Z.min n u64_max); f c) = Ok r <-> b + n <= limit /\ f (b + n) = Ok r.
Proof.
  intros Hb Hn. split.
  - by intros (c & [-> Hle]%add_min_Ok & Hf)%bind_Ok.
  - intros [Hle Hf]. by rewrite (proj2 (add_min_Ok b n (b + n) Hb Hn)).
Qed.
Definition entry_ok (vd : json * nat) : Prop := (vd.2 + json_height vd.1 <= 512)%nat.
Definition entries_nodes (l : list (json * nat)) : nat := list_sum (map (fun vd => json_nodes vd.1) l).
Definition entries_footprint (l : list (json * nat)) : Z := zsum (map (fun vd => json_footprint vd.1) l).
Lemma entries_nonneg l : 0 <= entries_footprint l.
Proof. apply zsum_nonneg, Forall_map, Forall_true. intros. apply json_footprint_nonneg. Qed.
Lemma entries_footprint_app l k : entries_footprint (l ++ k) = entries_footprint l + entries_footprint k.
Proof. unfold entries_footprint. by rewrite map_app, zsum_app. Qed.
Lemma entries_nodes_app l k : entries_nodes (l ++ k) = (entries_nodes l + entries_nodes k)%nat.
Proof. unfold entries_nodes. by rewrite map_app, list_sum_app. Qed.
(** The members of a value, one deeper *)
Definition deeper (d : nat) (l : list json) : list (json * nat) := rev (map (fun v => (v, S d)) l).
Lemma deeper_footprint d l : entries_footprint (deeper d l) = zsum (map json_footprint l).
Proof. unfold entries_footprint, deeper. by rewrite map_rev, zsum_rev, map_map. Qed.
Lemma deeper_nodes d l : entries_nodes (deeper d l) = list_sum (map json_nodes l).
Proof. unfold entries_nodes, deeper. by rewrite map_rev, list_sum_rev, map_map. Qed.
Lemma deeper_ok d l : (d <= 512)%nat ->
  Forall entry_ok (deeper d l) <-> (d + list_max (map (fun v => S (json_height v)) l) <= 512)%nat.
Proof.
  intros Hd. unfold deeper. rewrite <- Permutation_rev, Forall_map.
  transitivity (list_max (map (fun v => S (json_height v)) l) <= 512 - d)%nat; [|lia].
  rewrite list_max_le, Forall_map. apply Forall_iff. intros v. unfold entry_ok. cbn. lia.
Qed.
Lemma saturated_pushes {A} (f : Z * list (json * nat) -> A -> query (Z * list (json * nat))) g m (h : A -> json * nat) :
  (forall a, 0 <= g a) -> (forall a, m a = Z.min (g a) u64_max) ->
  (forall acc a, f acc a = (c ← add_bytes limit acc.1 (m a); Ok (c, h a :: acc.2))) ->
  pushes f g (fun a => [h a]).
Proof.
  intros Hg Hm Hf b st a c st' Hb. rewrite Hf, Hm. cbn [fst snd].
  rewrite (add_min_then_Ok b (g a)) by (apply Hg || lia). split.
  - by intros [Hle [= <- <-]].
  - intros (-> & Hle & ->). done.
Qed.
Lemma add_member_pushes d : pushes (add_member limit d) (fun kv => zstr kv.1 * 4) (fun kv => [(kv.2, d)]).
Proof.
  apply (saturated_pushes _ _ (fun kv => u64_saturating_mul (zstr kv.1) 4)); [|done..].
  intros kv. pose proof (zstr_nonneg kv.1). lia.
Qed.
Lemma members_Ok d m b st c st' : 0 <= b <= limit ->
  try_for (add_member limit d) (b, st) m = Ok (c, st') <->
  c = b + zsum (map (fun kv => zstr kv.1 * 4) m) /\ c <= limit /\
  st' = rev (concat (map (fun kv => [(kv.2, d)]) m)) ++ st.
Proof.
  intros Hb. apply try_push_Ok; [|apply add_member_pushes|done]. intros kv. pose proof (zstr_nonneg kv.1). lia.
Qed.
Lemma input_loop_Ok fuel stack b n : (entries_nodes stack <= fuel)%nat -> 0 <= b <= limit ->
  input_loop limit fuel stack b = Ok n <->
  n = b + entries_footprint stack /\ n <= limit /\ Forall entry_ok stack.
Proof.
  revert stack b; induction fuel as [|fuel IH]; intros stack b Hf Hb; destruct stack as [|[v d] stack].
  1,3: cbn; split; [intros [= <-]; split_and!; [lia|lia|constructor]|]; intros (-> & _); by rewrite Z.add_0_r.
  { exfalso. unfold entries_nodes in Hf. destruct v; cbn in Hf; lia. }
  assert (forall l own b', 0 <= b' <= limit -> 0 <= own -> (d <= 512)%nat ->
    json_footprint v = 128 + own + zsum (map json_footprint l) -> b' = b + 128 + own ->
    json_height v = list_max (map (fun v => S (json_height v)) l) ->
    json_nodes v = S (list_sum (map json_nodes l)) ->
    input_loop limit fuel (deeper d l ++ stack) b' = Ok n <->
    n = b + entries_footprint ((v, d) :: stack) /\ n <= limit /\ Forall entry_ok ((v, d) :: stack)) as Hgo.
  { intros l own b' Hb' Hown Hd Hfoot -> Hheight Hnodes. rewrite IH; [|..|lia].
    - rewrite entries_footprint_app, deeper_footprint, Forall_app, Forall_cons, deeper_ok by done.
      unfold entries_footprint at 2. cbn [map zsum foldr fst]. fold zsum. fold (entries_footprint stack).
      unfold entry_ok. cbn [fst snd]. rewrite Hfoot, Hheight. split; intros (? & ? & ?); split_and!; try tauto; lia.
    - rewrite entries_nodes_app, deeper_nodes. unfold entries_nodes in *. cbn in Hf. rewrite Hnodes in Hf. cbn in Hf.
      unfold list_sum in *. cbn in *. lia. }
  assert (forall l own, 0 <= own -> json_footprint v = 128 + own + zsum (map json_footprint l) ->
    json_height v = list_max (map (fun v => S (json_height v)) l) ->
    json_nodes v = S (list_sum (map json_nodes l)) -> (d <= 512)%nat ->
    (b + 128 <= limit /\ b + 128 + own <= limit /\
     input_loop limit fuel (deeper d l ++ stack) (b + 128 + own) = Ok n) <->
    n = b + entries_footprint ((v, d) :: stack) /\ n <= limit /\ Forall entry_ok ((v, d) :: stack)) as Hfin.
  { intros l own Hown Hfoot Hheight Hnodes Hd. split.
    - intros (_ & Hle & Hr). by apply (Hgo l own) in Hr; [|lia..].
    - intros (Hn & Hle & Hall). pose proof (entries_nonneg stack). pose proof (entries_nonneg (deeper d l)) as Hl.
      rewrite deeper_footprint in Hl. assert (b + 128 + own <= limit).
      { rewrite Hn in Hle. unfold entries_footprint in Hle at 1. cbn in Hle. rewrite Hfoot in Hle.
        unfold entries_footprint in *. unfold zsum in *. lia. }
      split_and!; [lia|lia|]. by apply (Hgo l own); [lia..|]. }
  clear Hgo IH. cbn [input_loop]. destruct (Nat.ltb_spec 512 d) as [Hd|Hd].
  { split; [done|]. intros (_ & _ & He%Forall_inv). unfold entry_ok in He. cbn in He. lia. }
  rewrite add_then_Ok by lia. destruct v as [|bo|z|s|l|m].
  1-3: rewrite <- (Hfin [] 0) by (done || lia); rewrite Z.add_0_r; tauto.
  - pose proof (zstr_nonneg s). rewrite <- (Hfin [] (zstr s * 4)) by (done || cbn; lia).
    unfold u64_saturating_mul. by rewrite add_min_then_Ok by lia.
  - pose proof (zlen_nonneg l). rewrite <- (Hfin l (zlen l * 128)) by (done || cbn; lia).
    unfold u64_saturating_mul. by rewrite add_min_then_Ok by lia.
  - pose proof (zlen_nonneg m). set (keys := zsum (map (fun kv : string * json => zstr kv.1 * 4) m)).
    assert (0 <= keys) by (apply zsum_nonneg, Forall_map, Forall_true; intros kv; pose proof (zstr_nonneg kv.1); lia).
    rewrite <- (Hfin (map snd m) (zlen m * 128 + keys)); [|lia| | | |done].
    + unfold u64_saturating_mul. rewrite add_min_then_Ok by lia. unfold deeper. rewrite map_map.
      rewrite <- (concat_singles (fun kv : string * json => (kv.2, S d))). fold (zlen m). split.
      * intros (H1 & H2 & ([c st] & Hp & Hr)%bind_Ok). apply members_Ok in Hp as (-> & Hc & ->); [|lia].
        fold keys in Hr, Hc. replace (b + 128 + (zlen m * 128 + keys)) with (b + 128 + zlen m * 128 + keys) by lia.
        split_and!; [done|lia|exact Hr].
      * intros (H1 & H2 & Hr). split_and!; [done|lia|]. apply bind_Ok. eexists (_, _).
        split; [apply members_Ok; [lia|split_and!; [reflexivity| |reflexivity]; fold keys; lia]|].
        fold keys. by replace (b + 128 + zlen m * 128 + keys) with (b + 128 + (zlen m * 128 + keys)) by lia.
    + cbn [json_footprint]. rewrite zsum_map_add, map_map. fold keys. lia.
    + cbn [json_height]. by rewrite map_map.
    + cbn [json_nodes]. by rewrite map_map.
Qed.

(** *** The fields of a request *)

Lemma param_pushes : pushes (add_param limit) (fun kv => zstr kv.1) (fun kv => [(kv.2, 0%nat)]).
Proof.
  apply (pushes_one _ (fun kv => zstr kv.1) (fun kv => (kv.2, 0%nat))); [|done].
  intros b kv c Hb. apply add_bytes_Ok; [done|apply zstr_nonneg].
Qed.
Lemma config_pushes : pushes (add_config limit) (fun kv => zstr kv.1 + 32) (fun kv => [(kv.2, 0%nat)]).
Proof.
  apply (pushes_one _ (fun kv => zstr kv.1 + 32) (fun kv => (kv.2, 0%nat))); [|done].
  intros b kv c Hb. apply add_bytes_Ok; [done|]. pose proof (zstr_nonneg kv.1). lia.
Qed.
Lemma node_footprint_nonneg n : 0 <= node_footprint n.
Proof.
  unfold node_footprint. pose proof (zstr_nonneg (qn_id n)).
  assert (0 <= zsum (map (fun input => zstr input * 16 + 32) (qn_inputs n)))
    by (apply zsum_map_nonneg; intros i; pose proof (zstr_nonneg i); lia).
  assert (0 <= zsum (map (fun kv => zstr kv.1 + 32) (qn_config n)))
    by (apply zsum_map_nonneg; intros kv; pose proof (zstr_nonneg kv.1); lia). lia.
Qed.
Lemma ir_footprint_nonneg ir : 0 <= ir_footprint ir.
Proof.
  unfold ir_footprint. assert (0 <= zsum (map node_footprint (ir_nodes ir))) by (apply zsum_map_nonneg, node_footprint_nonneg).
  assert (0 <= zsum (map (fun nt : string * string => zstr nt.1 + zstr nt.2 + 128) (ir_parameter_types ir))); [|lia].
  apply zsum_map_nonneg. intros nt. pose proof (zstr_nonneg nt.1). pose proof (zstr_nonneg nt.2). lia.
Qed.
Definition values_at_0 (l : list json) : list (json * nat) := map (fun v => (v, 0%nat)) l.
Lemma add_input_Ok b (input : string) c : 0 <= b ->
  add_bytes limit b (u64_saturating_mul (zstr input) 16 +sat 32) = Ok c <->
  c = b + (zstr input * 16 + 32) /\ b + (zstr input * 16 + 32) <= limit.
Proof.
  intros Hb. pose proof (zstr_nonneg input). rewrite sat_mul_add by lia.
  apply add_min_Ok; lia.
Qed.
Lemma node_pushes : pushes (add_node limit) node_footprint (fun n => values_at_0 (map snd (qn_config n))).
Proof.
  intros b st n c st' Hb. unfold add_node, node_footprint. cbn [fst snd].
  pose proof (zstr_nonneg (qn_id n)). rewrite sat_mul_add, add_min_then_Ok by lia.
  set (inputs := zsum (map (fun input => zstr input * 16 + 32) (qn_inputs n))).
  set (config := zsum (map (fun kv : string * json => zstr kv.1 + 32) (qn_config n))).
  assert (0 <= inputs) by (apply zsum_map_nonneg; intros i; pose proof (zstr_nonneg i); lia).
  assert (0 <= config) by (apply zsum_map_nonneg; intros kv; pose proof (zstr_nonneg kv.1); lia).
  assert (forall b c, 0 <= b <= limit ->
    try_for (fun b input => add_bytes limit b (u64_saturating_mul (zstr input) 16 +sat 32)) b (qn_inputs n) = Ok c <->
    c = b + inputs /\ c <= limit) as Hin.
  { intros b0 c0 Hb0. apply try_add_Ok; [|intros; by apply add_input_Ok|done].
    intros i. pose proof (zstr_nonneg i). lia. }
  assert (forall b c, 0 <= b <= limit -> try_for (add_config limit) (b, st) (qn_config n) = Ok (c, st') <->
    c = b + config /\ c <= limit /\ st' = rev (values_at_0 (map snd (qn_config n))) ++ st) as Hcfg.
  { intros b0 c0 Hb0. unfold values_at_0. rewrite map_map, <- (concat_singles (fun kv : string * json => (kv.2, 0%nat))).
    apply try_push_Ok; [|apply config_pushes|done]. intros kv. pose proof (zstr_nonneg kv.1). lia. }
  split.
  - intros (Hle & (b1 & [-> Hb1]%Hin & (-> & Hc & ->)%Hcfg)%bind_Ok); [|lia..]. split_and!; [lia|lia|done].
  - intros (-> & Hc & ->). split; [lia|]. apply bind_Ok. eexists. split; [apply Hin; [lia|split; [reflexivity|lia]]|].
    apply Hcfg; [lia|]. split_and!; [lia|lia|done].
Qed.
Definition ir_values (ir : QueryIrV2) : list json := concat (map (fun n => map snd (qn_config n)) (ir_nodes ir)).
Lemma concat_values (l : list QueryNodeV2) :
  concat (map (fun n => values_at_0 (map snd (qn_config n))) l) = values_at_0 (concat (map (fun n => map snd (qn_config n)) l)).
Proof. unfold values_at_0. by rewrite concat_map, map_map. Qed.
Lemma add_ir_Ok ir b st c st' : 0 <= b <= limit -> add_ir limit (b, st) ir = Ok (c, st') <->
  c = b + ir_footprint ir /\ c <= limit /\ zlen (ir_nodes ir) <= 10000 /\ st' = rev (values_at_0 (ir_values ir)) ++ st.
Proof.
  intros Hb. unfold add_ir, ir_footprint. destruct (Z.ltb_spec 10000 (zlen (ir_nodes ir))) as [|Hl]; [split; [done|lia]|].
  cbn [fst snd]. set (types := zsum (map (fun nt : string * string => zstr nt.1 + zstr nt.2 + 128) (ir_parameter_types ir))).
  set (nodes := zsum (map node_footprint (ir_nodes ir))).
  assert (0 <= types) by (apply zsum_map_nonneg; intros nt; pose proof (zstr_nonneg nt.1); pose proof (zstr_nonneg nt.2); lia).
  assert (0 <= nodes) by (apply zsum_map_nonneg, node_footprint_nonneg).
  assert (forall b c, 0 <= b <= limit -> try_for (fun bytes (nt : string * string) =>
      add_bytes limit bytes (zstr nt.1 + zstr nt.2 + 128)) b (ir_parameter_types ir) = Ok c <-> c = b + types /\ c <= limit) as Ht.
  { intros b0 c0 Hb0. apply try_add_Ok; [| |done]; intros.
    - pose proof (zstr_nonneg a.1). pose proof (zstr_nonneg a.2). lia.
    - apply add_bytes_Ok; [done|]. pose proof (zstr_nonneg a.1). pose proof (zstr_nonneg a.2). lia. }
  assert (forall b c, 0 <= b <= limit -> try_for (add_node limit) (b, st) (ir_nodes ir) = Ok (c, st') <->
    c = b + nodes /\ c <= limit /\ st' = rev (values_at_0 (ir_values ir)) ++ st) as Hn.
  { intros b0 c0 Hb0. unfold ir_values. rewrite <- concat_values.
    apply try_push_Ok; [apply node_footprint_nonneg|apply node_pushes|done]. }
  split.
  - intros (b1 & [-> Hb1]%Ht & (-> & Hc & ->)%Hn)%bind_Ok; [|lia..]. split_and!; [lia|lia|done|done].
  - intros (-> & Hc & _ & ->). apply bind_Ok. eexists. split; [apply Ht; [lia|split; [reflexivity|lia]]|].
    apply Hn; [lia|]. split_and!; [lia|lia|done].
Qed.
End Loop.

Lemma memory_limit_bound request : memory_limit request < u64_max.
Proof. unfold memory_limit, u64_max. lia. Qed.
Lemma entries_values l : entries_footprint (rev (values_at_0 l)) = zsum (map json_footprint l) /\
  entries_nodes (rev (values_at_0 l)) = list_sum (map json_nodes l) /\
  (Forall entry_ok (rev (values_at_0 l)) <-> Forall (fun v => json_height v <= 512)%nat l).
Proof.
  unfold entries_footprint, entries_nodes, values_at_0. split_and!.
  - by rewrite map_rev, zsum_rev, map_map.
  - by rewrite map_rev, list_sum_rev, map_map.
  - rewrite <- Permutation_rev, Forall_map. apply Forall_iff. done.
Qed.
Lemma param_values (params : btree json) :
  concat (map (fun kv => [(kv.2, 0%nat)]) params) = values_at_0 (map snd params).
Proof. unfold values_at_0. rewrite map_map. apply (concat_singles (fun kv : string * json => (kv.2, 0%nat))). Qed.
Lemma add_option_then_Ok {A} limit b text weight (f : Z -> query A) r : limit < u64_max -> 0 <= b <= limit ->
  0 <= weight ->
  (c ← add_option limit b text weight; f c) = Ok r <->
  b + text_size text * weight <= limit /\ f (b + text_size text * weight) = Ok r.
Proof.
  intros Hlimit Hb Hw. unfold add_option, text_size. destruct text as [t|]; cbn.
  - pose proof (zstr_nonneg t). unfold u64_saturating_mul. apply add_min_then_Ok; lia.
  - rewrite Z.add_0_r. split; [intros Hr; split; [lia|done]|by intros [_ Hr]].
Qed.
Lemma text_size_nonneg text : 0 <= text_size text.
Proof. destruct text; [apply zstr_nonneg|done]. Qed.

Section InputBytes.
Variable request : QueryRequestV2.
Notation limit := (memory_limit request).

(** The texts, then the parameters' names, then the graph, then all values *)
Definition texts_footprint : Z :=
  4096 + zlen (qr_params request) * 128 + zstr (qr_request_id request) + zstr (qr_namespace request)
  + text_size (qr_required_frontier request) + text_size (qr_temporal request ≫= qt_tx_as_of)
  + text_size (qr_hql request) * 16.
Lemma texts_Ok {A} (f : Z -> query A) r :
  (bytes ← add_bytes limit 4096 (u64_saturating_mul (zlen (qr_params request)) 128);
   bytes ← add_bytes limit bytes (zstr (qr_request_id request));
   bytes ← add_bytes limit bytes (zstr (qr_namespace request));
   bytes ← add_option limit bytes (qr_required_frontier request) 1;
   bytes ← add_option limit bytes (qr_temporal request ≫= qt_tx_as_of) 1;
   bytes ← add_option limit bytes (qr_hql request) 16; f bytes) = Ok r <->
  texts_footprint <= limit /\ f texts_footprint = Ok r.
Proof.
  pose proof (memory_limit_bound request) as Hlimit. pose proof (zlen_nonneg (qr_params request)).
  pose proof (zstr_nonneg (qr_request_id request)). pose proof (zstr_nonneg (qr_namespace request)).
  pose proof (text_size_nonneg (qr_required_frontier request)).
  pose proof (text_size_nonneg (qr_temporal request ≫= qt_tx_as_of)). pose proof (text_size_nonneg (qr_hql request)).
  unfold texts_footprint, u64_saturating_mul. rewrite add_min_then_Ok, add_then_Ok, add_then_Ok by lia.
  split.
  - intros (Hs1 & Hs2 & Hs3 & Hr).
    apply add_option_then_Ok in Hr as [Hs4 Hr]; [|lia..]. apply add_option_then_Ok in Hr as [Hs5 Hr]; [|lia..].
    apply add_option_then_Ok in Hr as [Hs6 Hr]; [|lia..]. rewrite !Z.mul_1_r in *. done.
  - intros [Hle Hr]. split_and!; [lia..|]. apply add_option_then_Ok; [lia..|]. split; [lia|].
    apply add_option_then_Ok; [lia..|]. split; [lia|]. apply add_option_then_Ok; [lia..|].
    rewrite !Z.mul_1_r. by split.
Qed.
Lemma texts_nonneg : 0 <= texts_footprint.
Proof.
  unfold texts_footprint. pose proof (zlen_nonneg (qr_params request)).
  pose proof (zstr_nonneg (qr_request_id request)). pose proof (zstr_nonneg (qr_namespace request)).
  pose proof (text_size_nonneg (qr_required_frontier request)).
  pose proof (text_size_nonneg (qr_temporal request ≫= qt_tx_as_of)). pose proof (text_size_nonneg (qr_hql request)). lia.
Qed.
(** Every part of the footprint is below it. *)
Lemma footprint_parts : 0 <= zsum (map (fun kv => zstr kv.1) (qr_params request)) /\
  texts_footprint + zsum (map (fun kv => zstr kv.1) (qr_params request)) <= request_footprint request.
Proof.
  unfold request_footprint. fold texts_footprint.
  assert (0 <= zsum (map json_footprint (request_values request))) by (apply zsum_map_nonneg, json_footprint_nonneg).
  assert (0 <= zsum (map (fun kv : string * json => zstr kv.1) (qr_params request)))
    by (apply zsum_map_nonneg; intros kv; apply zstr_nonneg).
  assert (0 <= from_option ir_footprint 0 (qr_ir request)) by (destruct (qr_ir request); [apply ir_footprint_nonneg|done]).
  lia.
Qed.
Lemma values_Ok n b (acc : Z * list (json * nat)) ir : texts_footprint <= limit ->
  b = texts_footprint + zsum (map (fun kv => zstr kv.1) (qr_params request)) -> b <= limit ->
  acc = (b, rev (values_at_0 (map snd (qr_params request)))) -> qr_ir request = ir ->
  ('(bytes, stack) ← match ir with Some ir => add_ir limit acc ir | None => Ok acc end;
   input_loop limit (list_sum (map json_nodes (request_values request))) stack bytes) = Ok n <->
  n = request_footprint request /\ n <= limit /\
  Forall (fun v => json_height v <= 512)%nat (request_values request) /\
  (forall ir, qr_ir request = Some ir -> zlen (ir_nodes ir) <= 10000).
Proof.
  intros Ht -> Hb -> Hir. pose proof (memory_limit_bound request) as Hlimit.
  set (names := zsum (map (fun kv : string * json => zstr kv.1) (qr_params request))) in *.
  assert (0 <= names) by (apply zsum_map_nonneg; intros kv; apply zstr_nonneg).
  pose proof texts_nonneg.
  assert (forall b' st', 0 <= b' <= limit -> st' = rev (values_at_0 (request_values request)) ->
    input_loop limit (list_sum (map json_nodes (request_values request))) st' b' = Ok n <->
    n = b' + zsum (map json_footprint (request_values request)) /\ n <= limit /\
    Forall (fun v => json_height v <= 512)%nat (request_values request)) as Hloop.
  { intros b' st' Hb' ->. destruct (entries_values (request_values request)) as (Hf & Hn & Ho).
    rewrite input_loop_Ok by (done || lia). by rewrite Hf, Ho. }
  unfold request_footprint. fold texts_footprint names. rewrite Hir.
  destruct ir as [ir|]; cbn [from_option mbind result_bind].
  - assert (request_values request = map snd (qr_params request) ++ ir_values ir) as Hv
      by (unfold request_values; by rewrite Hir).
    split.
    + intros ([b' st'] & (-> & Hle & Hl & ->)%add_ir_Ok & Hr)%bind_Ok; [|lia..].
      rewrite Hloop in Hr; [|pose proof (ir_footprint_nonneg ir); lia|].
      * destruct Hr as (-> & ? & ?). split_and!; [done..|]. by intros ? [= <-].
      * rewrite Hv. unfold values_at_0. by rewrite map_app, rev_app_distr.
    + intros (-> & Hle & Hall & Hl). apply bind_Ok. pose proof (ir_footprint_nonneg ir).
      assert (0 <= zsum (map json_footprint (request_values request)))
        by (apply zsum_map_nonneg, json_footprint_nonneg).
      eexists (_, _). split; [apply add_ir_Ok; [lia..|]; split_and!; [reflexivity|lia|by apply Hl|reflexivity]|].
      apply Hloop; [lia| |by split_and!].
      rewrite Hv. unfold values_at_0. by rewrite map_app, rev_app_distr.
  - assert (request_values request = map snd (qr_params request)) as Hv
      by (unfold request_values; rewrite Hir; by rewrite app_nil_r).
    rewrite Hloop; [|lia|by rewrite Hv]. rewrite Z.add_0_r. intuition done.
Qed.
End InputBytes.


(** *** The bound on planning *)

(** The loop visits every expression once. *)
Lemma planning_loop_count fuel stack count type_len : (list_sum (map expr_size stack) <= fuel)%nat -> 0 <= count ->
  (planning_loop fuel stack (Z.min count u64_max) type_len).1 =
  Z.min (count + Z.of_nat (list_sum (map expr_size stack))) u64_max.
Proof.
  revert stack count type_len; induction fuel as [|fuel IH]; intros stack count type_len Hf Hc;
    destruct stack as [|e stack]; cbn [planning_loop fst].
  1,3: f_equal; cbn; lia.
  { exfalso. unfold list_sum in Hf. cbn in Hf. pose proof (expr_size_eq e). lia. }
  rewrite sat_min by lia.
  assert (list_sum (map expr_size (e :: stack)) = S (list_sum (map expr_size (rev (expr_children e) ++ stack)))) as Hs.
  { cbn [map]. change (list_sum (?a :: ?l)) with (a + list_sum l)%nat.
    rewrite map_app, list_sum_app, map_rev, list_sum_rev, (expr_size_eq e). lia. }
  rewrite Hs in Hf |- *. rewrite IH by lia. f_equal. lia.
Qed.

(** A plan that reads one source under an alias *)
Definition scan_plan (alias : string) : LogicalRequestV2 := {|
  lr_nodes := [{| ln_id := "n0"; ln_op := OpNodeScan; ln_inputs := []; ln_config := CNodeScan alias None |}];
  lr_root := "n0"; lr_parameter_types := []; lr_from_hql := false |}.
(** The bound is meant to count every alias the graph declares, but those of sources, patterns,
    expansions and rankings are not: however long the alias of a source is, the bound is that of
    an empty one. *)
Lemma planning_misses_sources alias request : planning_bytes (scan_plan alias) request = 2048.
Proof. reflexivity. Qed.

(** *** A sample request *)

Definition sample_request_envelope : QueryRequestV2 := {|
  qr_contract_version := "genesis.api.v2"; qr_request_id := "r1"; qr_namespace := "ns";
  qr_hql := Some "match"%string; qr_ir := None; qr_language_version := Some HqlV2;
  qr_params := [("p", JArray [JString "ab"; JNull])]%string;
  qr_temporal := Some {| qt_tx_as_of := Some "5"%string; qt_valid_at := None |};
  qr_index_policy := None; qr_required_frontier := Some "7"%string; qr_transaction_id := None;
  qr_budget := None; qr_allow_partial := None; qr_explain := None; qr_format := None |}.
Example sample_normalized : forall (G : Grammar) (R : Rfc3339),
  normalize sample_request_envelope None 9 3 100 =
  Ok {| ro_mode := ExplainNone; ro_valid_at := 100; ro_tx := Some 5 |}.
Proof. reflexivity. Qed.
Example sample_beyond_horizon : forall (G : Grammar) (R : Rfc3339),
  normalize sample_request_envelope None 9 6 100 = Err (query_error "BEYOND_HORIZON" "bind" "retention_horizon").
Proof. reflexivity. Qed.
Example sample_size : input_bytes sample_request_envelope = Ok 4959.
Proof. vm_compute. reflexivity. Qed.
