(* ===== verification/HqlLower.v ===== *)
(** * Lowering HQL2 expressions

    [src/src/query/hql2/lower.rs]: the pass that measures an expression before it is
    lowered, the lowering of expressions and of constant JSON literals. Each walks the
    syntax with a stack of tasks and a stack of results. *)
From S2P Require Export WireDecode HqlSyntax StackWalk.
Local Open Scope Z_scope.

Definition lower_unsupported (reason : string) : QueryErrorV2 :=
  query_error "CAPABILITY_UNSUPPORTED" "bind" reason.

Definition lower_name (value : Name) : query string :=
  if is_symbol (sp_value value) then Ok (sp_value value)
  else Err (lower_unsupported "quoted_symbol_execution").

Definition expression_stack : QueryErrorV2 := bind_invalid "expression_stack".
(** What a walk answers when its fuel is enough. *)
Definition from_walk {A} (o : option (query A)) : query A :=
  match o with Some r => r | None => Err expression_stack end.

(** The number of visits a walk may need: the operand of a [BETWEEN] is lowered twice. *)
Fixpoint walk_size (k : ExprKind) : nat :=
  S match k with
    | HList l => list_sum (map (fun e => walk_size (sp_value e)) l)
    | HObject fields => list_sum (map (fun f => walk_size (sp_value (of_expression f))) fields)
    | HCall _ arguments _ => list_sum (map (fun e => walk_size (sp_value e)) arguments)
    | HGroup e | HNot e | HIsNull e _ => walk_size (sp_value e)
    | HBinary _ lhs rhs => walk_size (sp_value lhs) + walk_size (sp_value rhs)
    | HIn e values _ => walk_size (sp_value e) + walk_size (sp_value values)
    | HBetween e low high =>
        2 * walk_size (sp_value e) + walk_size (sp_value low) + walk_size (sp_value high)
    | _ => 0
    end.
Definition walk_fuel (k : ExprKind) : nat := S (2 * walk_size k).

(** ** Measuring *)

Notation shape := (Z * Z)%type.

Definition shape_add (a b : Z) : query Z :=
  match u64_checked_add a b with
  | Some v => if v <=? 10000 then Ok v else Err (bind_invalid "expanded_expression_nodes")
  | None => Err (bind_invalid "expanded_expression_nodes")
  end.
Definition shape_twice (a : Z) : query Z :=
  if a * 2 <=? u64_max then Ok (a * 2) else Err (bind_invalid "expanded_expression_nodes").

Definition too_deep (depth : nat) : bool := 128 <? Z.of_nat depth.

Definition measure_visit (k : ExprKind) (depth : nat)
  : query (shape + list ExprKind * (ExprKind * nat)) :=
  if too_deep depth then Err (bind_invalid "expression_depth")
  else
    match k with
    | HGroup e | HNot e | HIsNull e _ => Ok (inr ([sp_value e], (k, depth)))
    | HBinary _ lhs rhs => Ok (inr ([sp_value lhs; sp_value rhs], (k, depth)))
    | HCall _ arguments _ => Ok (inr (sp_value <$> arguments, (k, depth)))
    | HIn e values _ =>
        match sp_value values with
        | HList l => Ok (inr (sp_value e :: (sp_value <$> l), (k, depth)))
        | _ => Err (bind_invalid "in_values")
        end
    | HBetween e low high => Ok (inr ([sp_value e; sp_value low; sp_value high], (k, depth)))
    | _ => Ok (inr ([], (k, depth)))
    end.

Notation pop_shape := (pop_result expression_stack).
(** [for _ in arguments { .. }] over the shapes on the stack *)
Fixpoint measure_operands (count : nat) (n d : Z) (st : list shape) : query (shape * list shape) :=
  match count with
  | O => Ok ((n, d), st)
  | S count =>
      '((c, cd), st) ← pop_shape st;
      n ← shape_add n c;
      measure_operands count n (Z.max d (cd + 1)) st
  end.

Definition measure_node (k : ExprKind) (st : list shape) : query (shape * list shape) :=
  match k with
  | HGroup _ => pop_shape st
  | HNot _ | HIsNull _ _ =>
      '((n, d), st) ← pop_shape st;
      n ← shape_add n 1;
      Ok ((n, d + 1), st)
  | HBinary _ _ _ =>
      '((r, rd), st) ← pop_shape st;
      '((l, ld), st) ← pop_shape st;
      n ← shape_add l r;
      n ← shape_add n 1;
      Ok ((n, Z.max ld rd + 1), st)
  | HBetween _ _ _ =>
      '((h, hd), st) ← pop_shape st;
      '((l, ld), st) ← pop_shape st;
      '((e, ed), st) ← pop_shape st;
      twice ← shape_twice e;
      n ← shape_add twice l;
      n ← shape_add n h;
      n ← shape_add n 3;
      Ok ((n, Z.max (Z.max ed ld) hd + 2), st)
  | HCall _ arguments _ => measure_operands (length arguments) 1 1 st
  | HIn _ values _ =>
      match sp_value values with
      | HList l => measure_operands (S (length l)) 1 1 st
      | _ => Err (bind_invalid "in_values")
      end
  | _ => Ok ((1, 1), st)
  end.
Definition measure_build (b : ExprKind * nat) (st : list shape) : query (list shape) :=
  if too_deep b.2 then Err (bind_invalid "expression_depth")
  else
    '(s, st) ← measure_node b.1 st;
    if 128 <? s.2 then Err (bind_invalid "expanded_expression_depth") else Ok (s :: st).

(** The shape of the expression: how many nodes it lowers to, and how deep they nest. *)
Definition measure_expr (k : ExprKind) : query shape :=
  from_walk (stack_walk measure_visit measure_build (walk_fuel k) expression_stack k 1).
Definition preflight_expr (k : ExprKind) : query unit := _ ← measure_expr k; Ok tt.

(** ** Constant JSON *)

Definition JSON_LITERAL_LIMIT_BYTES : Z := 1024 * 1024.
Definition json_literal_too_large : QueryErrorV2 := bind_invalid "json_literal_size".
Definition json_literal_shape : QueryErrorV2 := bind_invalid "json_literal_shape".

(** [Number::to_string]: the decimal text of an integer, the shortest text of a float. *)
Class NumberText := { float_text : f64 -> string }.
Definition number_text `{NumberText} (n : json_number) : string :=
  match n with PosInt n | NegInt n => to_string n | NumFloat x => float_text x end.

Definition charge_json_literal_size (total bytes : Z) : query Z :=
  match u64_checked_add total bytes with
  | Some total => if JSON_LITERAL_LIMIT_BYTES <? total then Err json_literal_too_large else Ok total
  | None => Err json_literal_too_large
  end.
Definition ensure_json_literal_minimum (total minimum : Z) : query unit :=
  match u64_checked_add total minimum with
  | Some size => if JSON_LITERAL_LIMIT_BYTES <? size then Err json_literal_too_large else Ok tt
  | None => Err json_literal_too_large
  end.

(** The bytes of a character in a JSON string *)
Definition json_char_size (c : list byte) : Z :=
  let p := scalar_code c in
  if existsb (fun q => p =? q) [34; 92; 8; 9; 10; 12; 13] then 2
  else if p <=? 31 then 6 else zlen c.
Definition charge_json_string_size (total : Z) (value : string) : query Z :=
  total ← charge_json_literal_size total 2;
  try_for (fun total c => charge_json_literal_size total (json_char_size c)) total (chars value).

(** Brackets and commas of [n] items *)
Definition json_frame_size (n : nat) : query Z :=
  ok_or (u64_checked_add 2 (u64_saturating_sub (Z.of_nat n) 1)) json_literal_too_large.

Section Literals.
Context `{NumberText}.

Definition json_field_size (s : list string * Z) (field : ObjectField) : query (list string * Z) :=
  let key := sp_value (of_key field) in
  if bool_decide (key ∈ s.1) then Err (bind_invalid "duplicate_json_key")
  else
    total ← charge_json_string_size s.2 key;
    total ← charge_json_literal_size total 1;
    Ok (key :: s.1, total).

(** One constant: what it adds to the size, and the parts still to visit. *)
Definition json_size_step (k : ExprKind) (total : Z) : query (Z * list ExprKind) :=
  match k with
  | HNull => t ← charge_json_literal_size total 4; Ok (t, [])
  | HBool true => t ← charge_json_literal_size total 4; Ok (t, [])
  | HBool false => t ← charge_json_literal_size total 5; Ok (t, [])
  | HI64 z => t ← charge_json_literal_size total (Z.of_nat (str_len (to_string z))); Ok (t, [])
  | HF64 x =>
      number ← ok_or (number_of_f64 x) (bind_invalid "json_literal_number");
      t ← charge_json_literal_size total (Z.of_nat (str_len (number_text number)));
      Ok (t, [])
  | HUtf8 s => t ← charge_json_string_size total s; Ok (t, [])
  | HList items =>
      frame ← json_frame_size (length items);
      t ← charge_json_literal_size total frame;
      _ ← ensure_json_literal_minimum t (zlen items);
      Ok (t, sp_value <$> items)
  | HObject fields =>
      frame ← json_frame_size (length fields);
      t ← charge_json_literal_size total frame;
      '(_, t) ← try_for json_field_size ([], t) fields;
      _ ← ensure_json_literal_minimum t (zlen fields);
      Ok (t, (fun f => sp_value (of_expression f)) <$> fields)
  | _ => Err (lower_unsupported "json_literal_constant")
  end.
Fixpoint json_size_loop (fuel : nat) (tasks : list (ExprKind * nat)) (total : Z) : option (query Z) :=
  match fuel with
  | O => None
  | S fuel =>
      match tasks with
      | [] => Some (Ok total)
      | (k, depth) :: tasks =>
          if too_deep depth then Some (Err (bind_invalid "json_literal_depth"))
          else
            match json_size_step k total with
            | Ok (total, parts) =>
                json_size_loop fuel (((fun p => (p, S depth)) <$> parts) ++ tasks) total
            | Err e => Some (Err e)
            end
      end
  end.
Definition json_literal_size (k : ExprKind) : query Z :=
  from_walk (json_size_loop (walk_fuel k) [(k, 1%nat)] 0).

Inductive JsonTask := JtArray (count : nat) | JtObject (keys : list string).

Definition json_visit (k : ExprKind) (depth : nat) : query (json + list ExprKind * JsonTask) :=
  if too_deep depth then Err (bind_invalid "json_literal_depth")
  else
    match k with
    | HNull => Ok (inl JNull)
    | HBool b => Ok (inl (JBool b))
    | HI64 z => Ok (inl (JNumber (number_of_i64 z)))
    | HF64 x => n ← ok_or (number_of_f64 x) (bind_invalid "json_literal_number"); Ok (inl (JNumber n))
    | HUtf8 s => Ok (inl (JString s))
    | HList items => Ok (inr (sp_value <$> items, JtArray (length items)))
    | HObject fields =>
        let keys := (fun f => sp_value (of_key f)) <$> fields in
        if has_dup keys then Err (bind_invalid "duplicate_json_key")
        else Ok (inr ((fun f => sp_value (of_expression f)) <$> fields, JtObject keys))
    | _ => Err (lower_unsupported "json_literal_constant")
    end.
(** [object.insert(key, value)] for every key with its value *)
Definition json_object (keys : list string) (values : list json) : btree json :=
  foldl (fun m kv => bt_insert cmp_str kv.1 kv.2 m) [] (zip keys values).
Definition json_build (b : JsonTask) (st : list json) : query (list json) :=
  match b with
  | JtArray count =>
      '(items, st) ← take_results json_literal_shape count st;
      Ok (JArray items :: st)
  | JtObject keys =>
      '(items, st) ← take_results json_literal_shape (length keys) st;
      Ok (JObject (json_object keys items) :: st)
  end.
Definition json_literal (k : ExprKind) : query json :=
  _ ← json_literal_size k;
  from_walk (stack_walk json_visit json_build (walk_fuel k) json_literal_shape k 1).

(** ** Lowering *)

Definition lower_call (call : Name) (star : option Span) : query string :=
  call ← lower_name call;
  let call := to_ascii_lowercase call in
  if is_Some_b star && negb (bool_decide (call = "count"%string))
  then Err (bind_invalid "function_star") else Ok call.

Definition lower_visit (k : ExprKind) (depth : nat)
  : query (Expr + list ExprKind * (ExprKind * nat)) :=
  if too_deep depth then Err (bind_invalid "expression_depth")
  else
    match k with
    | HGroup e | HNot e | HIsNull e _ => Ok (inr ([sp_value e], (k, depth)))
    | HBinary _ lhs rhs => Ok (inr ([sp_value lhs; sp_value rhs], (k, depth)))
    | HCall call arguments star =>
        _ ← lower_call call star; Ok (inr (sp_value <$> arguments, (k, depth)))
    | HIn e values _ =>
        match sp_value values with
        | HList l => Ok (inr (sp_value e :: (sp_value <$> l), (k, depth)))
        | _ => Err (bind_invalid "in_values")
        end
    | HBetween e low high =>
        Ok (inr ([sp_value e; sp_value low; sp_value e; sp_value high], (k, depth)))
    | _ => Ok (inr ([], (k, depth)))
    end.

Definition lower_op (op : HqlBinaryOp) : BinaryOp :=
  match op with
  | HOr => OOr | HAnd => OAnd | HEqual => OEq | HNotEqual => ONe | HLess => OLt | HLessEqual => OLe
  | HGreater => OGt | HGreaterEqual => OGe | HContains => OContains | HStartsWith => OStartswith
  | HAdd => OAdd | HSubtract => OSub | HMultiply => OMul | HDivide => ODiv | HRemainder => ORem
  end.
Definition json_of_f64 (x : f64) : json :=
  match number_of_f64 x with Some n => JNumber n | None => JNull end.

(** The forms without operands *)
Definition lower_leaf (k : ExprKind) : query Expr :=
  match k with
  | HBool b => Ok (ELiteral (JBool b) "Bool")
  | HI64 z => Ok (ELiteral (JString (to_string z)) "I64")
  | HF64 x => Ok (ELiteral (json_of_f64 x) "F64Finite")
  | HUtf8 s => Ok (ELiteral (JString s) "Utf8")
  | HNull => Ok (ELiteral JNull "Null")
  | HParameter param => Ok (EParam param)
  | HField parts =>
      match parts with
      | [] => Err (bind_invalid "empty_field")
      | first :: rest =>
          alias ← lower_name first;
          path ← traverse lower_name rest;
          Ok (EField {| fr_alias := alias; fr_path := path |})
      end
  | HObject _ => literal ← json_literal k; Ok (ELiteral literal "Json")
  | _ => Err (lower_unsupported "list_literal_context")
  end.

Notation pop_expr := (pop_result expression_stack).
Definition lower_node (k : ExprKind) (st : list Expr) : query (Expr * list Expr) :=
  match k with
  | HGroup _ => pop_expr st
  | HNot _ => '(arg, st) ← pop_expr st; Ok (EUnary ONot arg, st)
  | HIsNull _ negated =>
      '(arg, st) ← pop_expr st; Ok (EUnary (if negated : bool then OIsNotNull else OIsNull) arg, st)
  | HBinary op _ _ =>
      '(rhs, st) ← pop_expr st;
      '(lhs, st) ← pop_expr st;
      Ok (EBinary (lower_op op) lhs rhs, st)
  | HCall call arguments star =>
      call ← lower_call call star;
      '(args, st) ← take_results expression_stack (length arguments) st;
      Ok (ECall (if is_Some_b star then "count_all" else call) args, st)
  | HIn _ values negated =>
      match sp_value values with
      | HList l =>
          '(vs, st) ← take_results expression_stack (length l) st;
          '(e, st) ← pop_expr st;
          Ok (EIn e vs negated, st)
      | _ => Err (bind_invalid "in_values")
      end
  | HBetween _ _ _ =>
      '(high, st) ← pop_expr st;
      '(rhs, st) ← pop_expr st;
      '(low, st) ← pop_expr st;
      '(lhs, st) ← pop_expr st;
      Ok (EBinary OAnd (EBinary OGe lhs low) (EBinary OLe rhs high), st)
  | _ => e ← lower_leaf k; Ok (e, st)
  end.
Definition lower_build (b : ExprKind * nat) (st : list Expr) : query (list Expr) :=
  if too_deep b.2 then Err (bind_invalid "expression_depth")
  else '(e, st) ← lower_node b.1 st; Ok (e :: st).

Definition lower_expr (e : HqlExpr) : query Expr :=
  let k := sp_value e in
  _ ← preflight_expr k;
  from_walk (stack_walk lower_visit lower_build (walk_fuel k) expression_stack k 1).
Definition json_expr (e : HqlExpr) : query Expr :=
  literal ← json_literal (sp_value e); Ok (ELiteral literal "Json").
End Literals.
