(* ===== verification/HqlLowerSpec.v ===== *)
(** * What lowering an HQL2 expression means

    The grammar of the translation, [lowers], and the theorem that the two passes of
    [src/src/query/hql2/lower.rs] accept exactly the expressions it translates within the
    bounds on the source and on the result. *)
From S2P Require Export WirePreflight HqlLower.
Local Open Scope Z_scope.

(** The nesting of the source, as the two passes count it. *)
Fixpoint syntax_depth (k : ExprKind) : nat :=
  S match k with
    | HCall _ arguments _ => list_max_with (fun e => syntax_depth (sp_value e)) arguments
    | HGroup e | HNot e | HIsNull e _ => syntax_depth (sp_value e)
    | HBinary _ lhs rhs => Nat.max (syntax_depth (sp_value lhs)) (syntax_depth (sp_value rhs))
    | HIn e values _ =>
        Nat.max (syntax_depth (sp_value e))
          match sp_value values with
          | HList l => list_max_with (fun e => syntax_depth (sp_value e)) l
          | _ => 0%nat
          end
    | HBetween e low high =>
        Nat.max (syntax_depth (sp_value e))
          (Nat.max (syntax_depth (sp_value low)) (syntax_depth (sp_value high)))
    | _ => 0%nat
    end.
Definition is_leaf (k : ExprKind) : bool :=
  match k with
  | HCall _ _ _ | HGroup _ | HNot _ | HBinary _ _ _ | HIsNull _ _ | HIn _ _ _ | HBetween _ _ _ =>
      false
  | _ => true
  end.

Section Lowering.
Context `{NumberText}.

Inductive lowers : ExprKind -> Expr -> Prop :=
| lowers_leaf k w : is_leaf k = true -> lower_leaf k = Ok w -> lowers k w
| lowers_group e w : lowers (sp_value e) w -> lowers (HGroup e) w
| lowers_not e w : lowers (sp_value e) w -> lowers (HNot e) (EUnary ONot w)
| lowers_is_null e negated w : lowers (sp_value e) w ->
    lowers (HIsNull e negated) (EUnary (if negated then OIsNotNull else OIsNull) w)
| lowers_binary op lhs rhs l r : lowers (sp_value lhs) l -> lowers (sp_value rhs) r ->
    lowers (HBinary op lhs rhs) (EBinary (lower_op op) l r)
| lowers_call call arguments star callee args : lower_call call star = Ok callee ->
    Forall2 (fun e w => lowers (sp_value e) w) arguments args ->
    lowers (HCall call arguments star) (ECall (if is_Some_b star then "count_all"%string else callee) args)
| lowers_in e s l negated w ws : lowers (sp_value e) w ->
    Forall2 (fun e w => lowers (sp_value e) w) l ws -> lowers (HIn e (At s (HList l)) negated) (EIn w ws negated)
| lowers_between e low high w l h : lowers (sp_value e) w -> lowers (sp_value low) l ->
    lowers (sp_value high) h ->
    lowers (HBetween e low high) (EBinary OAnd (EBinary OGe w l) (EBinary OLe w h)).

Definition fits (w : Expr) : Prop :=
  Z.of_nat (expr_size w) <= 10000 /\ Z.of_nat (expr_depth w) <= 128.
Definition shape_of (w : Expr) : shape := (Z.of_nat (expr_size w), Z.of_nat (expr_depth w)).

(** ** The passes as recursive functions *)

Lemma sum_parts (l : list HqlExpr) :
  list_sum (map walk_size (sp_value <$> l)) = list_sum (map (fun e => walk_size (sp_value e)) l).
Proof. change (map walk_size (sp_value <$> l)) with (walk_size <$> (sp_value <$> l)). by rewrite <- list_fmap_compose. Qed.
Lemma walk_size_pos k : (0 < walk_size k)%nat.
Proof. destruct k; cbn; lia. Qed.

Definition measure_parts (k : ExprKind) : query (list ExprKind) :=
  match k with
  | HGroup e | HNot e | HIsNull e _ => Ok [sp_value e]
  | HBinary _ lhs rhs => Ok [sp_value lhs; sp_value rhs]
  | HCall _ arguments _ => Ok (sp_value <$> arguments)
  | HIn e values _ =>
      match sp_value values with
      | HList l => Ok (sp_value e :: (sp_value <$> l))
      | _ => Err (bind_invalid "in_values")
      end
  | HBetween e low high => Ok [sp_value e; sp_value low; sp_value high]
  | _ => Ok []
  end.
Definition lower_parts (k : ExprKind) : query (list ExprKind) :=
  match k with
  | HCall call arguments star => _ ← lower_call call star; Ok (sp_value <$> arguments)
  | HBetween e low high => Ok [sp_value e; sp_value low; sp_value e; sp_value high]
  | _ => measure_parts k
  end.

Lemma measure_visit_eq k d : measure_visit k d =
  if too_deep d then Err (bind_invalid "expression_depth")
  else cs ← measure_parts k; Ok (inr (cs, (k, d))).
Proof.
  unfold measure_visit. destruct (too_deep d); [done|].
  destruct k; try done. cbn. by destruct (sp_value values).
Qed.
Lemma lower_visit_eq k d : lower_visit k d =
  if too_deep d then Err (bind_invalid "expression_depth")
  else cs ← lower_parts k; Ok (inr (cs, (k, d))).
Proof.
  unfold lower_visit. destruct (too_deep d); [done|].
  destruct k; try done; cbn.
  - by destruct (lower_call call star).
  - by destruct (sp_value values).
Qed.

Lemma measure_parts_size k cs : measure_parts k = Ok cs -> (list_sum (map walk_size cs) < walk_size k)%nat.
Proof.
  destruct k; cbn [measure_parts]; try (destruct (sp_value values) eqn:Hv; try done);
    intros [= <-]; cbn [map walk_size]; rewrite ?list_sum_cons, ?sum_parts, ?Hv, ?list_sum_nil;
    cbn [walk_size]; lia.
Qed.
Lemma lower_parts_size k cs : lower_parts k = Ok cs -> (list_sum (map walk_size cs) < walk_size k)%nat.
Proof.
  destruct k; try apply measure_parts_size; cbn [lower_parts]; intros Hc.
  - destruct (lower_call call star); [|done]. injection Hc as <-. rewrite sum_parts. cbn. lia.
  - injection Hc as <-. cbn. rewrite ?list_sum_cons, ?list_sum_nil. lia.
Qed.

(** ** What the last step of an expression makes of the results of its parts *)

Definition lower_combine (k : ExprKind) (ws : list Expr) : query Expr :=
  match k, ws with
  | HGroup _, [w] => Ok w
  | HNot _, [w] => Ok (EUnary ONot w)
  | HIsNull _ negated, [w] => Ok (EUnary (if negated : bool then OIsNotNull else OIsNull) w)
  | HBinary op _ _, [l; r] => Ok (EBinary (lower_op op) l r)
  | HCall call _ star, _ =>
      callee ← lower_call call star;
      Ok (ECall (if is_Some_b star then "count_all"%string else callee) ws)
  | HIn _ _ negated, w :: ws => Ok (EIn w ws negated)
  | HBetween _ _ _, [w; l; w'; h] => Ok (EBinary OAnd (EBinary OGe w l) (EBinary OLe w' h))
  | _, _ => lower_leaf k
  end.
Definition measure_sum (k : ExprKind) (ss : list shape) : query shape :=
  match k, ss with
  | HGroup _, [s] => Ok s
  | HNot _, [(n, d)] | HIsNull _ _, [(n, d)] => n ← shape_add n 1; Ok (n, d + 1)
  | HBinary _ _ _, [(l, ld); (r, rd)] =>
      n ← shape_add l r; n ← shape_add n 1; Ok (n, Z.max ld rd + 1)
  | HCall _ _ _, _ | HIn _ _ _, _ =>
      try_for (fun nd c => n ← shape_add nd.1 c.1; Ok (n, Z.max nd.2 (c.2 + 1))) (1, 1) (rev ss)
  | HBetween _ _ _, [(e, ed); (l, ld); (h, hd)] =>
      n ← shape_twice e; n ← shape_add n l; n ← shape_add n h; n ← shape_add n 3;
      Ok (n, Z.max (Z.max ed ld) hd + 2)
  | _, _ => Ok (1, 1)
  end.
Definition measure_combine (k : ExprKind) (ss : list shape) : query shape :=
  s ← measure_sum k ss;
  if 128 <? s.2 then Err (bind_invalid "expanded_expression_depth") else Ok s.

Lemma lower_frame k d cs ws st : lower_parts k = Ok cs -> too_deep d = false ->
  length ws = length cs ->
  lower_build (k, d) (rev ws ++ st) = (fun w => w :: st) <$> lower_combine k ws.
Proof.
  intros Hp Hd Hl. unfold lower_build. cbn [fst snd]. rewrite Hd.
  destruct k; cbn [lower_parts measure_parts] in Hp;
    try (injection Hp as <-; cbn [length] in Hl;
         repeat (destruct ws as [|? ws]; try discriminate Hl); try done;
         cbn [lower_node lower_combine]; by destruct (lower_leaf _)).
  - destruct (lower_call call star) as [callee|] eqn:Hc; [|done]. injection Hp as <-.
    rewrite length_fmap in Hl. cbn [lower_node lower_combine]. rewrite Hc. cbn.
    by rewrite (take_results_rev _ ws st) by done.
  - destruct (sp_value values) eqn:Hv; try done. injection Hp as <-.
    destruct ws as [|w ws]; [done|]. cbn [length] in Hl. rewrite length_fmap in Hl.
    cbn [lower_node lower_combine rev]. rewrite Hv, <- app_assoc. cbn [app].
    by rewrite (take_results_rev _ ws (w :: st)) by lia.
Qed.

Lemma measure_operands_rev ss st n d :
  measure_operands (length ss) n d (ss ++ st) =
  (fun s => (s, st)) <$> try_for (fun nd c => n ← shape_add nd.1 c.1; Ok (n, Z.max nd.2 (c.2 + 1))) (n, d) ss.
Proof.
  revert n d; induction ss as [|[c cd] ss IH]; intros n d; [done|].
  cbn [length app measure_operands pop_result mbind result_bind]. rewrite try_for_cons. cbn.
  destruct (shape_add n c); cbn; [apply IH|done].
Qed.
Lemma measure_operands_frame ss st n : length ss = n ->
  measure_operands n 1 1 (rev ss ++ st) = (fun s => (s, st)) <$>
    try_for (fun nd c => n ← shape_add nd.1 c.1; Ok (n, Z.max nd.2 (c.2 + 1))) (1, 1) (rev ss).
Proof. intros <-. rewrite <- (length_rev ss) at 1. apply measure_operands_rev. Qed.

(** Splits a list whose length is written out. *)
Ltac split_list l H :=
  cbn [length] in H;
  lazymatch type of H with
  | length l = S _ => destruct l as [|? l]; [discriminate H|injection H as H; split_list l H]
  | length l = 0%nat => apply nil_length_inv in H; subst l
  end.
Lemma measure_node_frame k cs ss st : measure_parts k = Ok cs -> length ss = length cs ->
  measure_node k (rev ss ++ st) = (fun s => (s, st)) <$> measure_sum k ss.
Proof.
  intros Hp Hl. destruct k; cbn [measure_parts] in Hp; try (destruct (sp_value values) eqn:Hv; try done);
    injection Hp as <-; cbn [length] in Hl; try rewrite length_fmap in Hl;
    try split_list ss Hl; try done; cbn [measure_node measure_sum]; rewrite ?Hv;
    try (by apply measure_operands_frame);
    repeat match goal with s : shape |- _ => destruct s end; cbn;
    repeat (first [destruct (shape_add _ _) | destruct (shape_twice _)]; cbn; try done).
Qed.
Lemma measure_frame k d cs ss st : measure_parts k = Ok cs -> too_deep d = false ->
  length ss = length cs ->
  measure_build (k, d) (rev ss ++ st) = (fun s => s :: st) <$> measure_combine k ss.
Proof.
  intros Hp Hd Hl. unfold measure_build, measure_combine. cbn [fst snd].
  rewrite Hd, (measure_node_frame k cs) by done.
  destruct (measure_sum k ss) as [s|e]; cbn; [|done]. by destruct (128 <? s.2).
Qed.

(** ** The passes as recursive functions of the parts *)

Definition syntax_too_deep : QueryErrorV2 := bind_invalid "expression_depth".
Section Pass.
Context {V : Type}.
Variable visit : ExprKind -> nat -> query (V + list ExprKind * (ExprKind * nat)).
Variable build : ExprKind * nat -> list V -> query (list V).
Variable parts : ExprKind -> query (list ExprKind).
Variable combine : ExprKind -> list V -> query V.
Hypothesis visit_eq : forall k d, visit k d =
  if too_deep d then Err syntax_too_deep else cs ← parts k; Ok (inr (cs, (k, d))).
Hypothesis parts_size : forall k cs, parts k = Ok cs -> (list_sum (map walk_size cs) < walk_size k)%nat.
Hypothesis frame : forall k d cs vs st, parts k = Ok cs -> too_deep d = false -> length vs = length cs ->
  build (k, d) (rev vs ++ st) = (fun v => v :: st) <$> combine k vs.
Definition pass : ExprKind -> nat -> query V := walk_rec visit build walk_size expression_stack.

Lemma visit_Ok k d cs b : visit k d = Ok (inr (cs, b)) ->
  too_deep d = false /\ parts k = Ok cs /\ b = (k, d).
Proof.
  rewrite visit_eq. destruct (too_deep d); [done|]. destruct (parts k); cbn; naive_solver.
Qed.
Lemma pass_size k d cs b : visit k d = Ok (inr (cs, b)) ->
  (list_sum (map walk_size cs) < walk_size k)%nat.
Proof. intros (_ & Hp & _)%visit_Ok. eauto. Qed.
Lemma pass_one k d cs vs : parts k = Ok cs -> too_deep d = false -> length vs = length cs ->
  build_one build expression_stack (k, d) vs = combine k vs.
Proof.
  intros Hp Hd Hl. unfold build_one. rewrite <- (app_nil_r (rev vs)), (frame k d cs) by done.
  by destruct (combine k vs).
Qed.
Lemma pass_eq k d : pass k d =
  if too_deep d then Err syntax_too_deep
  else cs ← parts k; vs ← traverse (fun c => pass c (S d)) cs; combine k vs.
Proof.
  unfold pass. rewrite walk_rec_eq, visit_eq by eauto using pass_size, walk_size_pos.
  destruct (too_deep d) eqn:Hd; [done|]. destruct (parts k) as [cs|e] eqn:Hp; cbn; [|done].
  destruct (traverse _ cs) as [vs|e] eqn:Hv; cbn; [|done].
  apply traverse_length in Hv. by apply (pass_one k d cs).
Qed.
Lemma stack_walk_pass k : stack_walk visit build (walk_fuel k) expression_stack k 1 = Some (pass k 1).
Proof.
  apply (stack_walk_eq visit build walk_size); [apply pass_size|apply walk_size_pos| |unfold walk_fuel; lia].
  intros t d cs b vs st Hv Hl. apply visit_Ok in Hv as (Hd & Hp & ->).
  by rewrite (frame t d cs), (pass_one t d cs).
Qed.
End Pass.

Definition measure_pass := pass measure_visit measure_build.
Definition lower_pass := pass lower_visit lower_build.
Lemma measure_pass_eq k d : measure_pass k d =
  if too_deep d then Err syntax_too_deep
  else cs ← measure_parts k; ss ← traverse (fun c => measure_pass c (S d)) cs; measure_combine k ss.
Proof. apply pass_eq; eauto using measure_visit_eq, measure_parts_size, measure_frame. Qed.
Lemma lower_pass_eq k d : lower_pass k d =
  if too_deep d then Err syntax_too_deep
  else cs ← lower_parts k; ws ← traverse (fun c => lower_pass c (S d)) cs; lower_combine k ws.
Proof. apply pass_eq; eauto using lower_visit_eq, lower_parts_size, lower_frame. Qed.
Lemma lower_expr_passes e : lower_expr e =
  (_ ← measure_pass (sp_value e) 1; lower_pass (sp_value e) 1).
Proof.
  unfold lower_expr, preflight_expr, measure_expr.
  rewrite (stack_walk_pass _ _ _ _ measure_visit_eq measure_parts_size measure_frame),
    (stack_walk_pass _ _ _ _ lower_visit_eq lower_parts_size lower_frame).
  cbn [from_walk]. unfold measure_pass, lower_pass. by destruct (pass measure_visit _ _ _).
Qed.

(** ** The grammar, one level at a time *)

Lemma Forall2_parts (l : list HqlExpr) ws :
  Forall2 (fun e w => lowers (sp_value e) w) l ws <-> Forall2 lowers (sp_value <$> l) ws.
Proof. by rewrite Forall2_fmap_l. Qed.

Lemma lowers_parts k w : lowers k w -> exists cs ws,
  lower_parts k = Ok cs /\ Forall2 lowers cs ws /\ lower_combine k ws = Ok w.
Proof.
  destruct 1 as [k w Hk Hw|e w|e w|e negated w|op lhs rhs l r|call arguments star callee args Hc Ha
    |e s l negated w ws Hw Hs|e low high w l h Hw Hl Hh]; cbn [lower_parts measure_parts sp_value].
  - exists [], []. split; [by destruct k|]. split; [constructor|by destruct k].
  - exists [sp_value e], [w]. eauto using Forall2_cons, Forall2_nil.
  - exists [sp_value e], [w]. eauto using Forall2_cons, Forall2_nil.
  - exists [sp_value e], [w]. eauto using Forall2_cons, Forall2_nil.
  - exists [sp_value lhs; sp_value rhs], [l; r]. eauto using Forall2_cons, Forall2_nil.
  - exists (sp_value <$> arguments), args. cbn [lower_combine]. rewrite Hc.
    split; [done|]. split; [by apply Forall2_parts|done].
  - exists (sp_value e :: (sp_value <$> l)), (w :: ws).
    split; [done|]. split; [|done]. constructor; [done|]. by apply Forall2_parts.
  - exists [sp_value e; sp_value low; sp_value e; sp_value high], [w; l; w; h].
    split; [done|]. split; [|done]. eauto using Forall2_cons, Forall2_nil.
Qed.

Lemma lowers_functional k w w' : lowers k w -> lowers k w' -> w = w'.
Proof.
  revert w w'. induction k as [k IH] using (Nat.measure_induction _ walk_size).
  intros w w' (cs & ws & Hp & Hf & Hw)%lowers_parts (cs' & ws' & Hp' & Hf' & Hw')%lowers_parts.
  rewrite Hp in Hp'. injection Hp' as <-. enough (ws = ws') by congruence.
  pose proof (lower_parts_size k cs Hp) as Hs. clear Hp Hw Hw'.
  revert Hs ws' Hf'. induction Hf as [|c v cs vs Hc _ IHf]; intros Hs ws' Hf'.
  { by apply Forall2_nil_inv_l in Hf'. }
  apply Forall2_cons_inv_l in Hf' as (v' & vs' & Hc' & Hf' & ->).
  cbn [map] in Hs. rewrite list_sum_cons in Hs. f_equal; [|apply IHf; [lia|done]].
  apply (IH c); [lia|done|done].
Qed.

Lemma lowers_step k cs ws w : lower_parts k = Ok cs -> Forall2 lowers cs ws ->
  lower_combine k ws = Ok w -> lowers k w.
Proof.
  intros Hp Hf Hw. destruct (is_leaf k) eqn:Hk.
  { apply lowers_leaf; [done|]. destruct k; try discriminate Hk; injection Hp as <-;
      apply Forall2_nil_inv_l in Hf as ->; exact Hw. }
  destruct k; try discriminate Hk; cbn [lower_parts measure_parts] in Hp.
  - destruct (lower_call call star) as [callee|] eqn:Hc; [|done]. injection Hp as <-.
    cbn [lower_combine] in Hw. rewrite Hc in Hw. injection Hw as <-.
    constructor; [done|]. by apply Forall2_parts.
  - injection Hp as <-. inversion Hf as [|? ? ? ? Ha Hf']; subst. inversion Hf'; subst.
    injection Hw as <-. by constructor.
  - injection Hp as <-. inversion Hf as [|? ? ? ? Ha Hf']; subst. inversion Hf'; subst.
    injection Hw as <-. by constructor.
  - injection Hp as <-. apply Forall2_cons_inv_l in Hf as (l & ws1 & Hl & Hf & ->).
    apply Forall2_cons_inv_l in Hf as (r & ws2 & Hr & Hf & ->). apply Forall2_nil_inv_l in Hf as ->.
    injection Hw as <-. by constructor.
  - injection Hp as <-. inversion Hf as [|? ? ? ? Ha Hf']; subst. inversion Hf'; subst.
    injection Hw as <-. by constructor.
  - destruct values as [s v]. cbn in Hp. destruct v; try discriminate Hp. injection Hp as <-.
    apply Forall2_cons_inv_l in Hf as (e & ws1 & He & Hf & ->). injection Hw as <-.
    constructor; [done|]. by apply Forall2_parts.
  - injection Hp as <-. apply Forall2_cons_inv_l in Hf as (e & ws1 & He & Hf & ->).
    apply Forall2_cons_inv_l in Hf as (l & ws2 & Hl & Hf & ->).
    apply Forall2_cons_inv_l in Hf as (e' & ws3 & He' & Hf & ->).
    apply Forall2_cons_inv_l in Hf as (h & ws4 & Hh & Hf & ->). apply Forall2_nil_inv_l in Hf as ->.
    injection Hw as <-. rewrite (lowers_functional _ _ _ He' He). by constructor.
Qed.

Lemma list_max_with_cons {A} (f : A -> nat) a l :
  list_max_with f (a :: l) = Nat.max (f a) (list_max_with f l).
Proof. reflexivity. Qed.
Lemma parts_depth k cs : lower_parts k = Ok cs -> syntax_depth k = S (list_max_with syntax_depth cs).
Proof.
  assert (forall l : list HqlExpr, list_max_with (fun e => syntax_depth (sp_value e)) l =
      list_max_with syntax_depth (sp_value <$> l)) as Hl
    by (intros l; unfold list_max_with; induction l as [|e l IH]; cbn; [done|by rewrite IH]).
  destruct k; cbn [lower_parts measure_parts syntax_depth];
    try (destruct (lower_call call star); [|done]); try (destruct (sp_value values) eqn:Hv; try done);
    intros [= <-]; rewrite ?Hl; try done; cbn [list_max_with foldr map]; cbn; try lia.
Qed.

Lemma too_deep_spec d : too_deep d = false <-> (d <= 128)%nat.
Proof. unfold too_deep. rewrite Z.ltb_ge. lia. Qed.

Lemma lower_pass_Ok k d w : lower_pass k d = Ok w <-> lowers k w /\ (d + syntax_depth k <= 129)%nat.
Proof.
  revert d w. induction k as [k IH] using (Nat.measure_induction _ walk_size). intros d w.
  rewrite lower_pass_eq. destruct (too_deep d) eqn:Hd.
  { split; [done|]. intros [_ Hk]. assert (~ (d <= 128)%nat) by (rewrite <- too_deep_spec; congruence).
    assert (0 < syntax_depth k)%nat by (destruct k; cbn; lia). lia. }
  apply too_deep_spec in Hd. destruct (lower_parts k) as [cs|e] eqn:Hp; cbn.
  2: { split; [done|]. intros [(? & ? & Hp' & _)%lowers_parts _]. congruence. }
  assert (forall ws, traverse (fun c => lower_pass c (S d)) cs = Ok ws <->
      Forall2 lowers cs ws /\ (S d + list_max_with syntax_depth cs <= 129)%nat) as Ht.
  { pose proof (lower_parts_size k cs Hp) as Hs. clear Hp. induction cs as [|c cs IHc]; intros ws.
    - rewrite traverse_Ok. split; [|intros [->%Forall2_nil_inv_l _]; constructor].
      intros ->%Forall2_nil_inv_l. split; [constructor|cbn; lia].
    - cbn [map] in Hs. rewrite list_sum_cons in Hs. cbn [traverse].
      rewrite bind_Ok. setoid_rewrite bind_Ok. setoid_rewrite IHc; [|lia].
      setoid_rewrite IH; [|lia]. split.
      + intros (v & [Hv Hv'] & vs & [Hvs Hvs'] & [= <-]). split; [by constructor|].
        rewrite list_max_with_cons. lia.
      + rewrite list_max_with_cons. intros [(v & vs & Hv & Hvs & ->)%Forall2_cons_inv_l Hm]. exists v.
        split; [split; [done|lia]|]. exists vs. split; [split; [done|lia]|done]. }
  rewrite bind_Ok. setoid_rewrite Ht. rewrite (parts_depth k cs Hp). split.
  - intros (ws & [Hf Hm] & Hw). split; [by eapply lowers_step|lia].
  - intros [(cs' & ws & Hp' & Hf & Hw)%lowers_parts Hm].
    rewrite Hp in Hp'. injection Hp' as <-. exists ws. split; [split; [done|lia]|done].
Qed.

(** ** Measuring counts the nodes and the depth of the result *)

Lemma shape_add_Ok a b n : shape_add a b = Ok n <-> n = a + b /\ a + b <= 10000.
Proof.
  unfold shape_add, u64_checked_add, u64_max.
  destruct (Z.leb_spec (a + b) (2 ^ 64 - 1)); [|split; [done|lia]].
  destruct (Z.leb_spec (a + b) 10000); [|split; [done|lia]].
  split; [by intros [= <-]|by intros [-> _]].
Qed.
Lemma shape_twice_Ok a n : a <= 10000 -> shape_twice a = Ok n <-> n = a * 2.
Proof.
  intros Ha. unfold shape_twice, u64_max. destruct (Z.leb_spec (a * 2) (2 ^ 64 - 1)); [|lia].
  split; [by intros [= <-]|by intros ->].
Qed.
Lemma list_max_with_perm {A} (f : A -> nat) l k : l ≡ₚ k -> list_max_with f l = list_max_with f k.
Proof. induction 1; rewrite ?list_max_with_cons; lia. Qed.

Definition sizes (ws : list Expr) : Z := Z.of_nat (list_sum (map expr_size ws)).
Definition depths (ws : list Expr) : Z := Z.of_nat (list_max_with expr_depth ws).
Lemma shapes_sum ws : forall n d s, n <= 10000 -> 1 <= d ->
  try_for (fun nd c => n ← shape_add nd.1 c.1; Ok (n, Z.max nd.2 (c.2 + 1))) (n, d) (shape_of <$> ws) = Ok s <->
  n + sizes ws <= 10000 /\ s = (n + sizes ws, Z.max d (1 + depths ws)).
Proof.
  unfold sizes, depths. induction ws as [|w ws IH]; intros n d s Hn Hd.
  - cbn. rewrite Z.add_0_r, Z.max_l by lia. naive_solver.
  - rewrite fmap_cons, try_for_cons, bind_Ok. cbn [shape_of fst snd map].
    rewrite list_sum_cons, list_max_with_cons. setoid_rewrite bind_Ok. setoid_rewrite shape_add_Ok. split.
    + intros (a & (m & (-> & Hm) & [= <-]) & Ha). apply IH in Ha as [Hs ->]; [|lia|lia].
      split; [lia|]. f_equal; lia.
    + intros [Hs ->]. exists (n + Z.of_nat (expr_size w), Z.max d (Z.of_nat (expr_depth w) + 1)).
      split; [eexists; split; [split; [done|lia]|done]|]. apply IH; [lia|lia|].
      split; [lia|]. f_equal; lia.
Qed.
Lemma shapes_sum_rev ws s :
  try_for (fun nd c => n ← shape_add nd.1 c.1; Ok (n, Z.max nd.2 (c.2 + 1))) (1, 1) (rev (shape_of <$> ws)) = Ok s <->
  1 + sizes ws <= 10000 /\ s = (1 + sizes ws, 1 + depths ws).
Proof.
  replace (rev (shape_of <$> ws)) with (shape_of <$> rev ws) by apply map_rev.
  rewrite shapes_sum by lia. unfold sizes, depths.
  rewrite (list_max_with_perm expr_depth (rev ws) ws) by (symmetry; apply Permutation_rev).
  rewrite (list_sum_perm (map expr_size (rev ws)) (map expr_size ws))
    by (apply Permutation_map; symmetry; apply Permutation_rev).
  by rewrite Z.max_r by lia.
Qed.

Lemma lower_leaf_shape k w : lower_leaf k = Ok w -> shape_of w = (1, 1).
Proof.
  destruct k; cbn; intros Hw; inv_result; simplify_eq; try done.
  destruct parts; inv_result; by simplify_eq.
Qed.
Lemma shape_of_node w : shape_of w = (1 + sizes (expr_children w), 1 + depths (expr_children w)).
Proof. unfold shape_of, sizes, depths. rewrite expr_size_eq, expr_depth_eq. f_equal; lia. Qed.

(** The results that are measured: the operand of a [BETWEEN] once. *)
Definition measured_parts (k : ExprKind) (ws : list Expr) : list Expr :=
  match k, ws with HBetween _ _ _, [w; l; _; h] => [w; l; h] | _, _ => ws end.
(** A [BETWEEN] lowers its operand to the same result twice. *)
Definition repeated (k : ExprKind) (ws : list Expr) : Prop :=
  match k, ws with HBetween _ _ _, [w; _; w'; _] => w = w' | _, _ => True end.

Lemma measure_parts_lowered (R : ExprKind -> Expr -> Prop) k cs ws : lower_parts k = Ok cs ->
  Forall2 R cs ws -> exists cs', measure_parts k = Ok cs' /\ Forall2 R cs' (measured_parts k ws) /\
  cs' ⊆ cs.
Proof.
  destruct k; cbn [lower_parts measured_parts]; intros Hp Hf; try (by exists cs).
  - destruct (lower_call call star); [|done]. by exists cs.
  - injection Hp as <-. apply Forall2_cons_inv_l in Hf as (e & ws1 & He & Hf & ->).
    apply Forall2_cons_inv_l in Hf as (l & ws2 & Hl & Hf & ->).
    apply Forall2_cons_inv_l in Hf as (e' & ws3 & He' & Hf & ->).
    apply Forall2_cons_inv_l in Hf as (h & ws4 & Hh & Hf & ->). apply Forall2_nil_inv_l in Hf as ->.
    eexists. split; [done|]. split; [repeat constructor; done|set_solver].
Qed.

Ltac measure_node_tac :=
  cbn [measure_sum measured_parts fmap list_fmap]; unfold shape_of;
  repeat setoid_rewrite bind_Ok; repeat setoid_rewrite shape_add_Ok; cbn [expr_size expr_depth fst];
  split;
  [intros; split_and_hyps; simplify_eq; split; [lia|f_equal; lia]
  |intros [? ->]; repeat (eexists; split; [first [done|split; [done|lia]]|]); f_equal; f_equal; lia].
(** The sum of a node is the shape of what the node lowers to; the sums on the way stay
    within bounds exactly when the result does. *)
Lemma measure_sum_Ok k cs ws w s : lower_parts k = Ok cs -> length ws = length cs ->
  lower_combine k ws = Ok w -> repeated k ws -> Forall fits (measured_parts k ws) ->
  measure_sum k (shape_of <$> measured_parts k ws) = Ok s <->
  Z.of_nat (expr_size w) <= 10000 /\ s = shape_of w.
Proof.
  intros Hp Hl Hw Hr Hf. assert (Z.of_nat (expr_size w) = (shape_of w).1) as -> by done.
  destruct (is_leaf k) eqn:Hk.
  { assert (ws = []) as -> by (destruct k; try discriminate Hk; injection Hp as <-; by apply nil_length_inv).
    rewrite (lower_leaf_shape k w) by (by destruct k). destruct k; try discriminate Hk; cbn;
      (split; [by intros [= <-]|by intros [_ ->]]). }
  destruct k; try discriminate Hk; cbn [lower_parts measure_parts] in Hp.
  - destruct (lower_call call star) as [callee|] eqn:Hc; [|done].
    cbn [lower_combine] in Hw. rewrite Hc in Hw. injection Hw as <-.
    cbn [measure_sum measured_parts]. rewrite shapes_sum_rev, shape_of_node. done.
  - injection Hp as <-. split_list ws Hl. injection Hw as <-. apply Forall_singleton in Hf as [Hs _].
    cbn [measure_sum measured_parts fmap list_fmap].
    split; [by intros [= <-]|by intros [_ ->]].
  - injection Hp as <-. split_list ws Hl. injection Hw as <-. measure_node_tac.
  - injection Hp as <-. split_list ws Hl. injection Hw as <-. measure_node_tac.
  - injection Hp as <-. split_list ws Hl. injection Hw as <-. measure_node_tac.
  - destruct values as [sp v]. cbn [sp_value] in Hp. destruct v; try discriminate Hp.
    injection Hp as <-. destruct ws as [|x ws]; [discriminate Hl|]. injection Hw as <-.
    cbn [measure_sum measured_parts]. rewrite shapes_sum_rev, shape_of_node. done.
  - injection Hp as <-. split_list ws Hl. injection Hw as <-. cbn [repeated] in Hr. subst.
    apply Forall_cons_1 in Hf as [[Hs _] _].
    cbn [measure_sum measured_parts fmap list_fmap]. unfold shape_of.
    cbn [measure_sum fmap list_fmap]. unfold shape_of. rewrite bind_Ok. setoid_rewrite shape_twice_Ok; [|lia].
    measure_node_tac.
Qed.

Lemma expr_child_fits w c : c ∈ expr_children w -> fits w -> fits c.
Proof.
  intros Hc [Hs Hd]. pose proof (list_sum_elem expr_size _ _ Hc).
  pose proof (list_max_with_le expr_depth _ _ Hc).
  rewrite expr_size_eq in Hs. rewrite expr_depth_eq in Hd. split; lia.
Qed.
Lemma combine_fits k cs ws w : lower_parts k = Ok cs -> length ws = length cs ->
  lower_combine k ws = Ok w -> repeated k ws -> fits w -> Forall fits (measured_parts k ws).
Proof.
  intros Hp Hl Hw Hr Hf. assert (forall c, c ∈ expr_children w -> fits c) as Hc
    by eauto using expr_child_fits.
  rewrite <- Forall_forall in Hc.
  destruct (is_leaf k) eqn:Hk.
  { assert (ws = []) as -> by (destruct k; try discriminate Hk; injection Hp as <-; by apply nil_length_inv).
    destruct k; try discriminate Hk; constructor. }
  destruct k; try discriminate Hk; cbn [lower_parts measure_parts] in Hp.
  - destruct (lower_call call star) as [callee|] eqn:Hcall; [|done].
    cbn [lower_combine] in Hw. rewrite Hcall in Hw. by injection Hw as <-.
  - injection Hp as <-. split_list ws Hl. injection Hw as <-. by apply Forall_singleton.
  - injection Hp as <-. split_list ws Hl. by injection Hw as <-.
  - injection Hp as <-. split_list ws Hl. by injection Hw as <-.
  - injection Hp as <-. split_list ws Hl. by injection Hw as <-.
  - destruct values as [sp v]. cbn [sp_value] in Hp. destruct v; try discriminate Hp.
    injection Hp as <-. destruct ws as [|x ws]; [discriminate Hl|]. by injection Hw as <-.
  - injection Hp as <-. split_list ws Hl. injection Hw as <-. cbn [repeated] in Hr. subst.
    cbn [measured_parts expr_children] in *. rewrite !Forall_cons in *. destruct Hc as (Hge & Hle & _).
    assert (forall o a b, fits (EBinary o a b) -> fits a /\ fits b) as H2
      by (intros o a b Hab; split; apply (expr_child_fits _ _) with (2 := Hab); cbn; set_solver).
    apply H2 in Hge, Hle. naive_solver.
Qed.

Lemma measure_pass_Ok k w : lowers k w -> forall d s, (d + syntax_depth k <= 129)%nat ->
  measure_pass k d = Ok s <-> fits w /\ s = shape_of w.
Proof.
  revert w. induction k as [k IH] using (Nat.measure_induction _ walk_size). intros w Hl d s Hd.
  apply lowers_parts in Hl as (cs & ws & Hp & Hf & Hw).
  pose proof (parts_depth k cs Hp) as Hk. rewrite Hk in Hd.
  rewrite measure_pass_eq. assert (too_deep d = false) as -> by (apply too_deep_spec; lia).
  assert (repeated k ws) as Hr.
  { destruct k; try done. cbn in Hp. injection Hp as <-.
    apply Forall2_cons_inv_l in Hf as (e & ws1 & He & Hf & ->).
    apply Forall2_cons_inv_l in Hf as (l & ws2 & Hl & Hf & ->).
    apply Forall2_cons_inv_l in Hf as (e' & ws3 & He' & Hf & ->).
    apply Forall2_cons_inv_l in Hf as (h & ws4 & Hh & Hf & ->). cbn.
    destruct ws4; [|done]. by eapply lowers_functional. }
  destruct (measure_parts_lowered lowers k cs ws Hp Hf) as (cs' & Hp' & Hf' & Hsub).
  rewrite Hp'. cbn.
  assert (forall ss, traverse (fun c => measure_pass c (S d)) cs' = Ok ss <->
    Forall fits (measured_parts k ws) /\ ss = shape_of <$> measured_parts k ws) as Ht.
  { assert (Forall (fun c => (walk_size c < walk_size k)%nat /\ (S d + syntax_depth c <= 129)%nat) cs') as Hc.
    { apply Forall_forall. intros c Hc%Hsub. pose proof (list_max_with_le syntax_depth _ _ Hc).
      pose proof (lower_parts_size k cs Hp). pose proof (child_size walk_size _ _ Hc). lia. }
    clear -IH Hf' Hc. induction Hf' as [|c v cs' vs Hv _ IHf].
    - intros ss. cbn. split; [intros [= <-]; by split; [constructor|]|by intros [_ ->]].
    - apply Forall_cons_1 in Hc as [[Hc1 Hc2] Hc]. specialize (IHf Hc). intros ss.
      cbn [traverse]. rewrite bind_Ok. setoid_rewrite (IH c Hc1 v Hv (S d) _ Hc2).
      setoid_rewrite bind_Ok. setoid_rewrite IHf. rewrite Forall_cons, fmap_cons. split.
      + intros (a & [? ->] & b & [? ->] & [= <-]). done.
      + intros ((? & ?) & ->). eauto 10. }
  rewrite bind_Ok. setoid_rewrite Ht. unfold measure_combine. setoid_rewrite bind_Ok. split.
  - intros (ss & [Hfits ->] & a & Ha & Hs).
    apply (measure_sum_Ok k cs ws w a) in Ha as [Hn ->]; [|done|by eapply eq_sym, Forall2_length|done..].
    destruct (128 <? (shape_of w).2) eqn:Hb; [done|]. injection Hs as <-.
    apply Z.ltb_ge in Hb. split; [split; [done|exact Hb]|done].
  - intros [Hfits ->]. eexists. split; [split; [|done]|].
    { apply (combine_fits k cs ws w); try done. by eapply eq_sym, Forall2_length. }
    exists (shape_of w). split.
    + apply (measure_sum_Ok k cs ws w); try done.
      * by eapply eq_sym, Forall2_length.
      * apply (combine_fits k cs ws w); try done. by eapply eq_sym, Forall2_length.
      * by destruct Hfits.
    + destruct (Z.ltb_spec 128 (shape_of w).2) as [Hb|]; [|done].
      destruct Hfits as [_ Hd']. cbn in Hb. lia.
Qed.

(** The expressions that lower, and what they lower to: the translation by the grammar, of
    a source at most 128 deep, to a result of at most 10000 nodes and at most 128 deep. *)
Lemma lower_expr_Ok e w : lower_expr e = Ok w <->
  lowers (sp_value e) w /\ (syntax_depth (sp_value e) <= 128)%nat /\ fits w.
Proof.
  rewrite lower_expr_passes, bind_Ok. split.
  - intros (s & Hs & [Hl Hd]%lower_pass_Ok). apply (measure_pass_Ok _ w Hl 1 s Hd) in Hs as [Hf _].
    split; [done|]. split; [lia|done].
  - intros (Hl & Hd & Hf). exists (shape_of w). split.
    + apply (measure_pass_Ok _ w Hl); [lia|done].
    + apply lower_pass_Ok. split; [done|lia].
Qed.

End Lowering.
