(* ===== verification/HqlParse.v ===== *)
(** * Parsing HQL2

    [src/src/query/hql2/syntax.rs]: the walk over the parse tree of a query that builds its
    statement. The parser generated from the grammar [hql2.pest] is a parameter; its trees are
    pairs of a rule and a span of the source. *)
From S2P Require Export HqlScan HqlSyntax StackWalk.
Local Open Scope Z_scope.

(** The rules of the grammar that make a pair; a keyword [k_x] is [Rk "x"]. *)
Inductive Rule :=
| Rstart | Rexplain | Rquery | Rscope | Rtx_selector | Rvalid_selector | Rquery_body
| Rnode_source | Redge_source | Rrow_source | Rann_source | Rmatch_source | Rhistory_source
| Rchanges_source | Rvalues_source | Runion_source | Rfilter_stage | Rknn_stage | Rmode
| Rlexical_stage | Rexpand_stage | Rann_stage | Rjoin_stage | Rjoin_kind | Rproject_stage
| Rdistinct_stage | Rgroup_stage | Raggregate_stage | Rorder_stage | Rorder_item
| Rsort_direction | Rnull_order | Rtake_stage | Rskip_stage | Rpack_stage | Rrerank_stage
| Rreturn_stage | Rselect_list | Rselect_item | Rstar | Rpattern | Rnode_pattern | Redge_pattern
| Redge_detail | Rrelation_list | Rhop_range | Rpath_mode | Rcreate_type | Rcreate_table
| Rcreate_collection | Rmetric | Rquant | Rcreate_index | Rindex_target | Rindex_method
| Rdrop_index | Rupsert_node | Rupsert_edge | Rupsert_row | Rupsert_vector | Rannotate
| Rretract | Rvalid_window | Rkind | Rhistory_kind | Rtransaction | Rapply_batch | Radmin
| Rshow_kind | Rexpr | Ror_expr | Ror_op | Rand_expr | Rand_op | Rnot_expr | Rnot_op
| Rcomparison | Ris_null | Rin_array | Rbetween | Rcomp_op | Rsum_expr | Rsum_op | Rterm
| Rmul_op | Rgroup | Rfunction | Rfunction_args | Rfield_ref | Rboolean | Rnull | Rarray
| Robject | Rpair | Rid_value | Runsigned | Rparameter | Rname | Rcname | Rquoted_name | Rstring
| Ruint | Rnumber
| REOI | Rk (keyword : string).

#[export] Instance rule_eq_dec : EqDecision Rule.
Proof. solve_decision. Defined.
#[export] Instance hql2_grammar : Grammar := {| SyntaxKind := Rule |}.

(** [pest::iterators::Pair]: a rule, the span it matched, and the pairs inside *)
Inductive Pair := MkPair { p_rule : Rule; p_start : Z; p_end : Z; p_inner : list Pair }.

(** The generated parser: the pairs of a text, or the offset of the error *)
Class Pest := { pest_parse : string -> result Z (list Pair) }.
(** [serde_json::from_str::<String>] *)
Class JsonText := { json_string_decode : string -> option string }.

(** ** Decimal fractions: [f64::from_str] *)

(** The number [digits * 10 ^ exponent], rounded once to the nearest *)
Definition decimal_f64 (negative : bool) (digits exponent : Z) : f64 :=
  if digits =? 0 then S754_zero negative
  else if 0 <=? exponent then
    binary_normalize f64_prec f64_emax
      ((if negative then -1 else 1) * digits * 10 ^ exponent) 0 negative
  else
    SFdiv f64_prec f64_emax (S754_finite negative (Z.to_pos digits) 0)
      (S754_finite false (Z.to_pos (10 ^ (- exponent))) 0).

Definition parse_sign (l : list byte) : bool * list byte :=
  match l with
  | b :: k => if is_byte 45 b then (true, k) else if is_byte 43 b then (false, k) else (false, l)
  | [] => (false, l)
  end.
Definition split_digits (l : list byte) : list byte * list byte :=
  let n := run_length byte_is_digit l in (take n l, drop n l).
(** The exponent after [e]; nothing may follow it. *)
Definition parse_exponent (l : list byte) : option Z :=
  match l with
  | [] => Some 0
  | b :: l =>
      if is_byte 101 b || is_byte 69 b then
        let '(negative, l) := parse_sign l in
        let '(digits, rest) := split_digits l in
        match digits, rest with
        | _ :: _, [] => Some (if negative then - digits_val digits else digits_val digits)
        | _, _ => None
        end
      else None
  end.
Definition parse_f64 (s : string) : option f64 :=
  let '(negative, l) := parse_sign (str_bytes s) in
  let text := str_of_bytes l in
  if eq_ignore_ascii_case text "inf" || eq_ignore_ascii_case text "infinity" then Some (S754_infinity negative)
  else if eq_ignore_ascii_case text "nan" then Some S754_nan
  else
    let '(whole, rest) := split_digits l in
    let '(fraction, rest) :=
      match rest with b :: k => if is_byte 46 b then split_digits k else ([], rest) | [] => ([], rest) end in
    match whole ++ fraction with
    | [] => None
    | digits =>
        exponent ← parse_exponent rest;
        Some (decimal_f64 negative (digits_val digits) (exponent - zlen fraction))
    end.

(** ** Failures *)

(** An error for the caller, or a panic of the thread *)
Inductive fault := Refused (e : QueryErrorV2) | Panicked.
Notation parse := (result fault).

Section Parse.
Context `{JsonText}.
Variable source : string.

Definition as_str (p : Pair) : string :=
  str_of_bytes (take (Z.to_nat (p_end p - p_start p)) (drop (Z.to_nat (p_start p)) (str_bytes source))).
Definition span (p : Pair) : Span := {| start_byte := p_start p; end_byte := p_end p |}.
Definition at_ {T} (p : Pair) (value : T) : Spanned T := At (span p) value.
Definition invalid {A} (p : Pair) (reason : string) : parse A :=
  Err (Refused (parse_error source (p_start p) reason)).
Definition is_rule (r : Rule) (p : Pair) : bool := bool_decide (p_rule p = r).
Definition or_invalid {A} (o : option A) (p : Pair) (reason : string) : parse A :=
  match o with Some a => Ok a | None => invalid p reason end.

Definition child (p : Pair) (r : Rule) : parse Pair :=
  or_invalid (List.find (is_rule r) (p_inner p)) p "invalid_syntax_tree".
(** [Vec::remove(0)] *)
Definition remove_first {A} (l : list A) : parse (A * list A) :=
  match l with a :: l => Ok (a, l) | [] => Err Panicked end.
(** [pair.as_str()[1..]] *)
Definition str_tail (p : Pair) : parse string :=
  match str_bytes (as_str p) with
  | _ :: l =>
      match l with
      | b :: _ => if byte_in 128 191 b then Err Panicked else Ok (str_of_bytes l)
      | [] => Ok ""%string
      end
  | [] => Err Panicked
  end.

Definition decode_string (p : Pair) : parse string :=
  or_invalid (json_string_decode (as_str p)) p "invalid_string_literal".
Definition name (p : Pair) : Name :=
  let text := as_str p in
  at_ p (default text (s ← Rust.strip_prefix "`" text; Rust.strip_suffix "`" s)).
Definition names_of (p : Pair) : list Name := name <$> filter (fun c => p_rule c = Rname) (p_inner p).

Definition number (p : Pair) : parse ExprKind :=
  if existsb (fun b => is_byte 46 b || is_byte 101 b || is_byte 69 b) (str_bytes (as_str p)) then
    value ← or_invalid (parse_f64 (as_str p)) p "invalid_number";
    if f64_is_finite value then Ok (HF64 value) else invalid p "nonfinite_literal"
  else z ← or_invalid (parse_i64 (as_str p)) p "integer_literal_overflow"; Ok (HI64 z).

Definition unsigned (p : Pair) : parse Unsigned :=
  part ← or_invalid (head (p_inner p)) p "invalid_unsigned";
  value ← (if is_rule Rparameter part then s ← str_tail part; Ok (UParameter s)
           else z ← or_invalid (parse_unsigned u64_max (as_str part)) part "unsigned_literal_overflow";
                Ok (ULiteral z));
  Ok (at_ p value).

(** ** The production tree *)

(** [syntax_tree]: a visit asks for the children, a finish takes them off the results. *)
Definition tree_visit (p : Pair) (_ : nat) : parse (SyntaxNode + list Pair * (SyntaxNode * nat)) :=
  let node :=
    {| sn_kind := p_rule p : @SyntaxKind hql2_grammar; sn_span := span p;
       sn_text := match p_inner p with [] => Some (as_str p) | _ :: _ => None end; sn_children := [] |} in
  Ok (inr (p_inner p, (node, length (p_inner p)))).
Definition tree_finish (b : SyntaxNode * nat) (built : list SyntaxNode) : parse (list SyntaxNode) :=
  '(children, built) ← take_results Panicked b.2 built;
  Ok ({| sn_kind := sn_kind b.1; sn_span := sn_span b.1; sn_text := sn_text b.1;
         sn_children := children |} :: built).

Fixpoint pair_size (p : Pair) : nat := S (list_sum (map pair_size (p_inner p))).
Definition syntax_tree (p : Pair) : parse SyntaxNode :=
  default (Err Panicked) (stack_walk tree_visit tree_finish (2 * pair_size p + 1) Panicked p 0).

(** ** Expressions *)

Definition checked (p : Pair) (value : ExprKind) (depth : Z) : parse (HqlExpr * Z) :=
  if MAX_DEPTH <? depth then invalid p "expression_depth_exceeded" else Ok (at_ p value, depth).

Definition binary_operators : list (string * HqlBinaryOp) :=
  [("OR", HOr); ("AND", HAnd); ("=", HEqual); ("!=", HNotEqual); ("<>", HNotEqual); ("<", HLess);
   ("<=", HLessEqual); (">", HGreater); (">=", HGreaterEqual); ("CONTAINS", HContains);
   ("STARTSWITH", HStartsWith); ("+", HAdd); ("-", HSubtract); ("*", HMultiply); ("/", HDivide);
   ("%", HRemainder)]%string.
Definition binary_operator (p : Pair) : option HqlBinaryOp :=
  snd <$> List.find (fun kv => bool_decide (kv.1 = to_ascii_uppercase (as_str p))) binary_operators.

Section Expression.
(** The recursive calls of [expression] *)
Variable expression : Pair -> parse (HqlExpr * Z).

(** The operators and operands after the first *)
Fixpoint operand_chain (p : Pair) (parts : list Pair) (lhs : HqlExpr) (depth : Z) : parse (HqlExpr * Z) :=
  match parts with
  | [] => Ok (lhs, depth)
  | [_] => invalid p "missing_operand"
  | op :: right_ :: parts =>
      '(rhs, right_depth) ← expression right_;
      let depth := Z.max depth right_depth + 1 in
      if MAX_DEPTH <? depth then invalid op "expression_depth_exceeded"
      else
        let node_span := {| start_byte := start_byte (sp_span lhs); end_byte := end_byte (sp_span rhs) |} in
        o ← or_invalid (binary_operator op) op "invalid_operator";
        operand_chain p parts (At node_span (HBinary o lhs rhs)) depth
  end.
(** The [NOT]s before a comparison, the innermost first *)
Fixpoint not_chain (ops : list Pair) (value : HqlExpr) (depth : Z) : parse (HqlExpr * Z) :=
  match ops with
  | [] => Ok (value, depth)
  | op :: ops =>
      let depth := depth + 1 in
      if MAX_DEPTH <? depth then invalid op "expression_depth_exceeded"
      else
        not_chain ops (At {| start_byte := p_start op; end_byte := end_byte (sp_span value) |} (HNot value)) depth
  end.

Definition compare_with (p operator : Pair) (parts : list Pair) (lhs : HqlExpr) (left_depth : Z)
  : parse (ExprKind * Z) :=
  match p_rule operator with
  | Ris_null => Ok (HIsNull lhs (existsb (is_rule (Rk "not")) (p_inner operator)), left_depth + 1)
  | Rin_array =>
      let negated := existsb (is_rule (Rk "not")) (p_inner operator) in
      array ← child operator Rarray;
      '(values, depth) ← expression array;
      Ok (HIn lhs values negated, Z.max left_depth depth + 1)
  | Rbetween =>
      let bounds := filter (fun c => p_rule c = Rsum_expr) (p_inner operator) in
      low ← or_invalid (head bounds) p "missing_operand";
      high ← or_invalid (head (tail bounds)) p "missing_operand";
      '(low, ld) ← expression low;
      '(high, hd) ← expression high;
      Ok (HBetween lhs low high, Z.max (Z.max left_depth ld) hd + 1)
  | _ =>
      right_ ← or_invalid (head parts) p "missing_operand";
      '(rhs, depth) ← expression right_;
      op ← or_invalid (binary_operator operator) operator "invalid_operator";
      Ok (HBinary op lhs rhs, Z.max left_depth depth + 1)
  end.

Definition argument (s : list HqlExpr * Z * option Span) (arg : Pair) : parse (list HqlExpr * Z * option Span) :=
  let '(arguments, depth, star) := s in
  if is_rule Rstar arg then Ok (arguments, depth, Some (span arg))
  else '(value, d) ← expression arg; Ok (arguments ++ [value], Z.max depth (d + 1), star).
Definition element (s : list HqlExpr * Z) (e : Pair) : parse (list HqlExpr * Z) :=
  '(value, d) ← expression e; Ok (s.1 ++ [value], Z.max s.2 (d + 1)).
Definition member (s : list ObjectField * Z) (field : Pair) : parse (list ObjectField * Z) :=
  key ← or_invalid (head (p_inner field)) field "missing_object_key";
  key ← (if is_rule Rstring key then k ← decode_string key; Ok (at_ key k) else Ok (name key));
  e ← child field Rexpr;
  '(value, d) ← expression e;
  Ok (s.1 ++ [{| of_span := span field; of_key := key; of_expression := value |}], Z.max s.2 (d + 1)).

Definition expression_node (p : Pair) : parse (HqlExpr * Z) :=
  match p_rule p with
  | Rexpr => inner ← or_invalid (head (p_inner p)) p "missing_expression"; expression inner
  | Ror_expr | Rand_expr | Rsum_expr | Rterm =>
      first ← or_invalid (head (p_inner p)) p "missing_expression";
      '(lhs, depth) ← expression first;
      operand_chain p (tail (p_inner p)) lhs depth
  | Rnot_expr =>
      comparison ← or_invalid (last (p_inner p)) p "missing_expression";
      '(value, depth) ← expression comparison;
      not_chain (tail (rev (p_inner p))) value depth
  | Rcomparison =>
      first ← or_invalid (head (p_inner p)) p "missing_expression";
      '(lhs, left_depth) ← expression first;
      match tail (p_inner p) with
      | [] => Ok (lhs, left_depth)
      | operator :: parts =>
          '(value, depth) ← compare_with p operator parts lhs left_depth;
          checked p value depth
      end
  | Rgroup =>
      inner ← child p Rexpr;
      '(inner, depth) ← expression inner;
      checked p (HGroup inner) (depth + 1)
  | Rfunction =>
      function_name ← child p Rname;
      let args := match List.find (is_rule Rfunction_args) (p_inner p) with Some a => p_inner a | None => [] end in
      '(arguments, depth, star) ← try_for argument ([], 1, None) args;
      checked p (HCall (name function_name) arguments star) depth
  | Rarray =>
      '(values, depth) ← try_for element ([], 1) (p_inner p);
      checked p (HList values) depth
  | Robject =>
      '(values, depth) ← try_for member ([], 1) (p_inner p);
      checked p (HObject values) depth
  | Rfield_ref => checked p (HField (name <$> p_inner p)) 1
  | Rparameter => s ← str_tail p; checked p (HParameter s) 1
  | Rstring => s ← decode_string p; checked p (HUtf8 s) 1
  | Rnumber => n ← number p; checked p n 1
  | Rboolean => checked p (HBool (existsb (is_rule (Rk "true")) (p_inner p))) 1
  | Rnull => checked p HNull 1
  | _ => invalid p "invalid_expression_tree"
  end.
End Expression.

(** The nesting of pairs bounds the recursion. *)
Fixpoint expression_fuel (fuel : nat) (p : Pair) : parse (HqlExpr * Z) :=
  match fuel with
  | O => Err Panicked
  | S fuel => expression_node (expression_fuel fuel) p
  end.
Definition expression (p : Pair) : parse (HqlExpr * Z) := expression_fuel (pair_size p) p.
Definition expression_of (p : Pair) : parse HqlExpr := fst <$> expression p.

(** ** The checks on every pair *)

Definition validate_node (p : Pair) (within_expression : bool) : parse unit :=
  match p_rule p with
  | Rnumber => _ ← number p; Ok tt
  | Ruint => _ ← or_invalid (parse_unsigned u64_max (as_str p)) p "unsigned_literal_overflow"; Ok tt
  | Rstring => _ ← decode_string p; Ok tt
  | Rexpr => if within_expression then Ok tt else _ ← expression p; Ok tt
  | _ => Ok tt
  end.
(** [while let Some(..) = pending.pop()]; the head is the top. *)
Fixpoint validate_loop (fuel : nat) (pending : list (Pair * bool)) (count : Z) : parse unit :=
  match fuel with
  | O => Err Panicked
  | S fuel =>
      match pending with
      | [] => Ok tt
      | (node, within_expression) :: pending =>
          let count := count + 1 in
          if MAX_NODES <? count then invalid node "syntax_nodes_exceeded"
          else
            _ ← validate_node node within_expression;
            let within_expression := within_expression || is_rule Rexpr node in
            validate_loop fuel (rev ((fun p => (p, within_expression)) <$> p_inner node) ++ pending) count
      end
  end.
Definition validate_tree (root : Pair) : parse unit := validate_loop (Z.to_nat (MAX_NODES + 2)) [(root, false)] 0.

(** ** Text around a pair *)

Fixpoint drop_blank (l : list (list byte)) : list (list byte) :=
  match l with c :: k => if is_whitespace c then drop_blank k else l | [] => [] end.
Definition text_before (p : Pair) : string := str_of_bytes (take (Z.to_nat (p_start p)) (str_bytes source)).
(** [source[..part.as_span().start()].trim_end().ends_with(':')] *)
Definition after_colon (p : Pair) : bool :=
  match drop_blank (rev (chars (text_before p))) with c :: _ => char_is 58 c | [] => false end.
Definition trim_start (s : string) : string := str_of_bytes (concat (drop_blank (chars s))).
Definition starts_with (prefix s : string) : bool := is_Some_b (Rust.strip_prefix prefix s).
Definition ends_with (suffix s : string) : bool := is_Some_b (Rust.strip_suffix suffix s).

(** ** Patterns *)

Record ParsedPatternNode := {
  pn_alias : Name; pn_id : option HqlExpr; pn_labels : list Name; pn_properties : btree HqlExpr }.

(** A field of the object of a pattern: its key as it is written, and its value *)
Definition pattern_field (field : Pair) : parse (string * HqlExpr) :=
  key ← or_invalid (head (p_inner field)) field "missing_object_key";
  key ← (if is_rule Rstring key then decode_string key else Ok (as_str key));
  e ← child field Rexpr;
  value ← expression_of e;
  Ok (key, value).
Definition node_field (s : option HqlExpr * btree HqlExpr) (field : Pair)
  : parse (option HqlExpr * btree HqlExpr) :=
  if negb (is_rule Rpair field) then Ok s
  else
    '(key, value) ← pattern_field field;
    let '(id, properties) := s in
    if bool_decide (key = "id"%string) then
      match id with Some _ => invalid field "duplicate_pattern_id" | None => Ok (Some value, properties) end
    else
      match bt_get cmp_str key properties with
      | Some _ => invalid field "duplicate_pattern_property"
      | None => Ok (id, bt_insert cmp_str key value properties)
      end.

Record node_parts := {
  np_alias : option Name; np_label : option Name; np_id : option HqlExpr; np_properties : btree HqlExpr }.
Definition node_part (s : node_parts) (part : Pair) : parse node_parts :=
  match p_rule part with
  | Rname =>
      if after_colon part then
        match np_label s with
        | Some _ => invalid part "duplicate_pattern_label"
        | None => Ok {| np_alias := np_alias s; np_label := Some (name part); np_id := np_id s;
                        np_properties := np_properties s |}
        end
      else
        match np_alias s with
        | None => Ok {| np_alias := Some (name part); np_label := np_label s; np_id := np_id s;
                        np_properties := np_properties s |}
        | Some _ => invalid part "pattern_node_shape"
        end
  | Robject =>
      '(id, properties) ← try_for node_field (np_id s, np_properties s) (p_inner part);
      Ok {| np_alias := np_alias s; np_label := np_label s; np_id := id; np_properties := properties |}
  | _ => Ok s
  end.
Definition pattern_node (p : Pair) : parse (option ParsedPatternNode) :=
  s ← try_for node_part {| np_alias := None; np_label := None; np_id := None; np_properties := [] |} (p_inner p);
  Ok (alias ← np_alias s;
      Some {| pn_alias := alias; pn_id := np_id s; pn_labels := option_list (np_label s);
              pn_properties := np_properties s |}).

Record ExpandedEdgeV2 := {
  ee_alias : option Name; ee_relations : list Name; ee_properties : btree HqlExpr;
  ee_direction : GraphDirection; ee_min_hops : Z; ee_max_hops : Z }.

Definition edge_field (properties : btree HqlExpr) (field : Pair) : parse (btree HqlExpr) :=
  if negb (is_rule Rpair field) then Ok properties
  else
    '(key, value) ← pattern_field field;
    match bt_get cmp_str key properties with
    | Some _ => invalid field "duplicate_pattern_property"
    | None => Ok (bt_insert cmp_str key value properties)
    end.
Definition edge_part (pattern : Pair) (s : ExpandedEdgeV2) (item : Pair) : parse ExpandedEdgeV2 :=
  match p_rule item with
  | Rname =>
      match ee_alias s with
      | None => Ok {| ee_alias := Some (name item); ee_relations := ee_relations s;
                      ee_properties := ee_properties s; ee_direction := ee_direction s;
                      ee_min_hops := ee_min_hops s; ee_max_hops := ee_max_hops s |}
      | Some _ => Ok s
      end
  | Rrelation_list =>
      Ok {| ee_alias := ee_alias s; ee_relations := ee_relations s ++ names_of item;
            ee_properties := ee_properties s; ee_direction := ee_direction s;
            ee_min_hops := ee_min_hops s; ee_max_hops := ee_max_hops s |}
  | Robject =>
      properties ← try_for edge_field (ee_properties s) (p_inner item);
      Ok {| ee_alias := ee_alias s; ee_relations := ee_relations s; ee_properties := properties;
            ee_direction := ee_direction s; ee_min_hops := ee_min_hops s; ee_max_hops := ee_max_hops s |}
  | Rhop_range =>
      bounds ← traverse (fun part => or_invalid (parse_unsigned u32_max (as_str part)) part "hop_range_overflow")
                 (p_inner item);
      match bounds with
      | [lo; hi] =>
          Ok {| ee_alias := ee_alias s; ee_relations := ee_relations s; ee_properties := ee_properties s;
                ee_direction := ee_direction s; ee_min_hops := lo; ee_max_hops := hi |}
      | _ => invalid pattern "hop_range_shape"
      end
  | _ => Ok s
  end.
Definition edge_direction (p : Pair) : GraphDirection :=
  let raw_edge := trim_start (as_str p) in
  if starts_with "<-" raw_edge then HIn_ else if ends_with "->" raw_edge then HOut else HBoth.
Definition expand_edge (pattern p : Pair) : parse ExpandedEdgeV2 :=
  let start :=
    {| ee_alias := None; ee_relations := []; ee_properties := []; ee_direction := edge_direction p;
       ee_min_hops := 1; ee_max_hops := 1 |} in
  s ← match List.find (is_rule Redge_detail) (p_inner p) with
      | Some detail => try_for (edge_part pattern) start (p_inner detail)
      | None => Ok start
      end;
  if (ee_max_hops s <? ee_min_hops s) || (32 <? ee_max_hops s) then invalid pattern "hop_bounds" else Ok s.

(** The parts of a pattern, if they are a supported path *)
Fixpoint alternates (node : bool) (parts : list Pair) : bool :=
  match parts with
  | [] => true
  | part :: parts => is_rule (if node then Rnode_pattern else Redge_pattern) part && alternates (negb node) parts
  end.
Definition path_parts (pattern : Pair) : option (list Pair) :=
  let parts := p_inner pattern in
  let n := length parts in
  if (n <? 3)%nat || Nat.even n || (65 <? n)%nat then None
  else if alternates true parts then Some parts else None.

(** The steps of a path, from the edges and nodes after its first node; none if a node has no name *)
Fixpoint path_steps (pattern : Pair) (parts : list Pair) : parse (option (list GraphSequenceStep)) :=
  match parts with
  | edge :: node :: parts =>
      end_node ← pattern_node node;
      match end_node with
      | None => Ok None
      | Some end_node =>
          edge ← expand_edge pattern edge;
          let step :=
            {| gs_end_alias := pn_alias end_node; gs_node_id := pn_id end_node;
               gs_node_labels := pn_labels end_node; gs_node_properties := pn_properties end_node;
               gs_edge_alias := ee_alias edge; gs_edge_properties := ee_properties edge;
               gs_relations := ee_relations edge; gs_direction := ee_direction edge;
               gs_min_hops := ee_min_hops edge; gs_max_hops := ee_max_hops edge |} in
          steps ← path_steps pattern parts;
          Ok (option_map (cons step) steps)
      end
  | _ => Ok (Some [])
  end.

Definition path_mode (p : Pair) : GraphPathMode :=
  let mode := to_ascii_lowercase (as_str p) in
  if bool_decide (mode = "simple"%string) then HSimple
  else if bool_decide (mode = "walk"%string) then HWalk else HTrail.
(** The name, the mode and [SHORTEST] of a pattern: the last of each *)
Definition path_option (s : option Name * GraphPathMode * bool) (item : Pair) : option Name * GraphPathMode * bool :=
  let '(alias, mode, shortest) := s in
  match p_rule item with
  | Rname => (Some (name item), mode, shortest)
  | Rpath_mode => (alias, path_mode item, shortest)
  | Rk keyword => (alias, mode, shortest || bool_decide (keyword = "shortest"%string))
  | _ => s
  end.
Definition path_options (p : Pair) : option Name * GraphPathMode * bool :=
  foldl path_option (None, HTrail, false) (p_inner p).
Definition step_constrained (s : GraphSequenceStep) : bool :=
  is_Some_b (gs_node_id s) || match gs_node_labels s with [] => false | _ :: _ => true end
  || match gs_node_properties s with [] => false | _ :: _ => true end
  || match gs_edge_properties s with [] => false | _ :: _ => true end.
Definition node_constrained (n : ParsedPatternNode) : bool :=
  is_Some_b (pn_id n) || match pn_labels n with [] => false | _ :: _ => true end
  || match pn_properties n with [] => false | _ :: _ => true end.

Definition expand_stage (p : Pair) : parse (option StageKind) :=
  pattern ← child p Rpattern;
  match path_parts pattern with
  | Some (start :: parts) =>
      start ← pattern_node start;
      match start with
      | None => Ok None
      | Some start =>
          let '(path_alias, mode, _) := path_options p in
          let optional := existsb (is_rule (Rk "optional")) (p_inner p) in
          steps ← path_steps pattern parts;
          match steps with
          | None => Ok None
          | Some steps =>
              let constrained := node_constrained start || existsb step_constrained steps in
              if (1 <? length steps)%nat || constrained then
                Ok (Some (StExpandSequence (pn_alias start) (pn_id start) (pn_labels start)
                            (pn_properties start) steps mode path_alias optional))
              else
                step ← or_invalid (last steps) pattern "empty_pattern";
                Ok (Some (StExpand (pn_alias start) (gs_end_alias step) (gs_edge_alias step) (gs_relations step)
                            (gs_direction step) (gs_min_hops step) (gs_max_hops step) mode path_alias optional))
          end
      end
  | _ => Ok None
  end.
Definition match_source (p : Pair) : parse (option SourceKind) :=
  pattern ← child p Rpattern;
  match path_parts pattern with
  | Some (start :: parts) =>
      start ← pattern_node start;
      match start with
      | None => Ok None
      | Some start =>
          steps ← path_steps pattern parts;
          match steps with
          | None => Ok None
          | Some steps =>
              let '(path_alias, mode, shortest) := path_options p in
              Ok (Some (SoMatch (pn_alias start) (pn_id start) (pn_labels start) (pn_properties start)
                          steps mode path_alias shortest))
          end
      end
  | _ => Ok None
  end.

(** ** Sources, stages and queries *)

Definition select_item (item : Pair) : parse SelectItem :=
  if existsb (is_rule Rstar) (p_inner item) then Ok (at_ item SelStar)
  else
    e ← child item Rexpr;
    expression ← expression_of e;
    Ok (at_ item (SelExpression expression (name <$> List.find (is_rule Rname) (p_inner item)))).
Definition select_list (p : Pair) : parse (list SelectItem) := traverse select_item (p_inner p).

Definition unsupported_source (p : Pair) : parse SourceKind := node ← syntax_tree p; Ok (SoUnsupported node).
Definition unsupported_stage (p : Pair) : parse StageKind := node ← syntax_tree p; Ok (StUnsupported node).

Section Sources.
(** The recursive call of [query] *)
Variable query : Pair -> parse HqlQuery.

Definition history_source (p : Pair) (names : list Name) : parse SourceKind :=
  kind_pair ← child p Rhistory_kind;
  kind ← or_invalid (head (p_inner kind_pair)) kind_pair "missing_history_kind";
  id_pair ← child p Rid_value;
  id_atom ← or_invalid (head (p_inner id_pair)) id_pair "missing_history_id";
  id ← match p_rule id_atom with
       | Rstring => s ← decode_string id_atom; Ok (at_ id_atom (HUtf8 s))
       | Rparameter => s ← str_tail id_atom; Ok (at_ id_atom (HParameter s))
       | _ => invalid id_atom "invalid_history_id"
       end;
  '(alias, _) ← remove_first names;
  Ok (SoHistory (at_ kind_pair (to_ascii_lowercase (as_str kind))) id alias).
Definition union_source (p : Pair) : parse SourceKind :=
  let bodies := filter (fun c => p_rule c = Rquery_body) (p_inner p) in
  lhs ← or_invalid (head bodies) p "missing_union_input";
  rhs ← or_invalid (head (tail bodies)) p "missing_union_input";
  lhs ← query lhs;
  rhs ← query rhs;
  Ok (SoUnionAll lhs rhs).

Definition source_kind (p : Pair) : parse SourceKind :=
  let names := names_of p in
  match p_rule p with
  | Rvalues_source =>
      param ← child p Rparameter;
      text ← str_tail param;
      '(alias, _) ← remove_first names;
      Ok (SoValues (at_ param text) alias)
  | Rnode_source =>
      alias ← or_invalid (last names) p "missing_alias";
      Ok (SoNodes (last (removelast names)) alias)
  | Redge_source =>
      alias ← or_invalid (last names) p "missing_alias";
      Ok (SoEdges (last (removelast names)) alias)
  | Rrow_source =>
      '(table, names) ← remove_first names;
      '(alias, _) ← remove_first names;
      Ok (SoRows table alias)
  | Rann_source => '(alias, _) ← remove_first names; Ok (SoAnnotations alias)
  | Rhistory_source => history_source p names
  | Rchanges_source =>
      u ← child p Runsigned;
      after_seq ← unsigned u;
      '(alias, _) ← remove_first names;
      Ok (SoChanges after_seq alias)
  | Rmatch_source =>
      m ← match_source p;
      match m with Some s => Ok s | None => unsupported_source p end
  | Runion_source => union_source p
  | _ => unsupported_source p
  end.
Definition source_node (p : Pair) : parse (Spanned SourceKind) := value ← source_kind p; Ok (at_ p value).
End Sources.

Definition child_unsigned (p : Pair) : parse Unsigned := u ← child p Runsigned; unsigned u.
Definition child_expression (p : Pair) : parse HqlExpr := e ← child p Rexpr; expression_of e.
(** [names.next().ok_or_else(..)?], three times *)
Definition three_names (p : Pair) (one two three : string) : parse (Name * Name * Name) :=
  let names := names_of p in
  a ← or_invalid (names !! 0%nat) p one;
  b ← or_invalid (names !! 1%nat) p two;
  c ← or_invalid (names !! 2%nat) p three;
  Ok (a, b, c).

Definition join_stage (p : Pair) : parse StageKind :=
  let names := names_of p in
  table ← or_invalid (names !! 0%nat) p "missing_join_table";
  alias ← or_invalid (names !! 1%nat) p "missing_join_alias";
  kind ← match (k ← List.find (is_rule Rjoin_kind) (p_inner p); p_rule <$> head (p_inner k)) with
         | None => Ok HInner
         | Some (Rk kind) =>
             if bool_decide (kind = "inner"%string) then Ok HInner
             else if bool_decide (kind = "left"%string) then Ok HLeft
             else if bool_decide (kind = "semi"%string) then Ok HSemi
             else if bool_decide (kind = "anti"%string) then Ok HAnti
             else invalid p "invalid_join_kind"
         | Some _ => invalid p "invalid_join_kind"
         end;
  condition ← child_expression p;
  Ok (StJoin table alias kind condition).
Definition ann_stage (p : Pair) : parse StageKind :=
  let names := names_of p in
  target ← or_invalid (names !! 0%nat) p "missing_annotation_target";
  alias ← or_invalid (names !! 1%nat) p "missing_annotation_alias";
  Ok (StAnnotationLookup target alias (existsb (is_rule (Rk "optional")) (p_inner p))).
Definition knn_stage (p : Pair) : parse StageKind :=
  '(entity, collection, alias) ← three_names p "missing_knn_entity" "missing_knn_collection" "missing_knn_alias";
  mode ← child p Rmode;
  mode ← or_invalid (head (p_inner mode)) p "missing_knn_mode";
  query ← child_expression p;
  k ← child_unsigned p;
  Ok (StKnn entity collection query k (if is_rule (Rk "exact") mode then HExact else HApprox) alias).
Definition rerank_stage (p : Pair) : parse StageKind :=
  '(entity, collection, alias) ←
    three_names p "missing_rerank_entity" "missing_rerank_collection" "missing_rerank_alias";
  query ← child_expression p;
  k ← child_unsigned p;
  Ok (StRerank entity collection query k alias).
Definition lexical_stage (p : Pair) : parse StageKind :=
  match names_of p with
  | [entity; field; index; alias] =>
      query ← child_expression p;
      k ← child_unsigned p;
      Ok (StLexicalMatch entity field query index k alias)
  | _ => invalid p "lexical_stage_shape"
  end.
Definition pack_stage (p : Pair) : parse StageKind :=
  tokenizer_pair ← child p Rstring;
  text ← child_expression p;
  e ← or_invalid (filter (fun c => p_rule c = Rexpr) (p_inner p) !! 1%nat) p "context_evidence";
  evidence ← expression_of e;
  tokens ← child_unsigned p;
  tokenizer ← decode_string tokenizer_pair;
  alias ← child p Rname;
  Ok (StContextPack text evidence tokens (at_ tokenizer_pair tokenizer) (name alias)).
Definition aggregate_stage (p : Pair) : parse StageKind :=
  let lists := filter (fun c => p_rule c = Rselect_list) (p_inner p) in
  first ← or_invalid (head lists) p "missing_select_list";
  if is_rule Rgroup_stage p then
    second ← or_invalid (head (tail lists)) p "missing_select_list";
    group_by ← select_list first;
    aggregates ← select_list second;
    Ok (StAggregate group_by aggregates)
  else aggregates ← select_list first; Ok (StAggregate [] aggregates).

Definition order_modifier (s : option (Spanned HqlSortDirection) * option (Spanned HqlNullOrder)) (modifier : Pair) :=
  match p_rule modifier with
  | Rsort_direction =>
      (Some (at_ modifier (if existsb (is_rule (Rk "desc")) (p_inner modifier) then HDesc else HAsc)), s.2)
  | Rnull_order =>
      (s.1, Some (at_ modifier (if existsb (is_rule (Rk "first")) (p_inner modifier) then HFirst else HLast)))
  | _ => s
  end.
Definition order_item (item : Pair) : parse OrderItem :=
  expression ← child_expression item;
  let '(direction, nulls) := foldl order_modifier (None, None) (p_inner item) in
  Ok {| oi_span := span item; oi_expression := expression; oi_direction := direction; oi_nulls := nulls |}.

Definition stage_kind (p : Pair) : parse StageKind :=
  match p_rule p with
  | Rfilter_stage => e ← child_expression p; Ok (StFilter e)
  | Rproject_stage => l ← child p Rselect_list; items ← select_list l; Ok (StProject items)
  | Rdistinct_stage => Ok StDistinct
  | Rjoin_stage => join_stage p
  | Rann_stage => ann_stage p
  | Rknn_stage => knn_stage p
  | Rrerank_stage => rerank_stage p
  | Rlexical_stage => lexical_stage p
  | Rpack_stage => pack_stage p
  | Rexpand_stage =>
      s ← expand_stage p;
      match s with Some s => Ok s | None => unsupported_stage p end
  | Rgroup_stage | Raggregate_stage => aggregate_stage p
  | Rorder_stage =>
      items ← traverse order_item (filter (fun c => p_rule c = Rorder_item) (p_inner p));
      Ok (StOrder items)
  | Rtake_stage => n ← child_unsigned p; Ok (StTake n)
  | Rskip_stage => n ← child_unsigned p; Ok (StSkip n)
  | _ => unsupported_stage p
  end.
Definition stage (p : Pair) : parse (Spanned StageKind) := value ← stage_kind p; Ok (at_ p value).

Definition scope_selector (s : option Unsigned * option (Spanned string)) (selector : Pair)
  : parse (option Unsigned * option (Spanned string)) :=
  match p_rule selector with
  | Rtx_selector => u ← child_unsigned selector; Ok (Some u, s.2)
  | Rvalid_selector => text ← child selector Rstring; t ← decode_string text; Ok (s.1, Some (at_ text t))
  | _ => Ok s
  end.
Definition scope_of (item : Pair) : parse Scope :=
  namespace ← child item Rname;
  '(tx, valid_at) ← try_for scope_selector (None, None) (p_inner item);
  Ok {| sc_span := span item; sc_namespace := name namespace; sc_tx := tx; sc_valid_at := valid_at |}.

(** The stages after the source; the last [RETURN] counts. *)
Definition query_part (s : list (Spanned StageKind) * list SelectItem) (part : Pair)
  : parse (list (Spanned StageKind) * list SelectItem) :=
  if is_rule Rreturn_stage part then
    l ← child part Rselect_list;
    items ← select_list l;
    Ok (s.1, items)
  else st ← stage part; Ok (s.1 ++ [st], s.2).

Definition query_node (query : Pair -> parse HqlQuery) (p : Pair) : parse HqlQuery :=
  '(scope, body) ←
    (if is_rule Rquery p then
       scope ← match List.find (is_rule Rscope) (p_inner p) with
               | Some item => s ← scope_of item; Ok (Some s)
               | None => Ok None
               end;
       body ← child p Rquery_body;
       Ok (scope, body)
     else Ok (None, p));
  first ← or_invalid (head (p_inner body)) body "missing_source";
  source_node ← source_node query first;
  '(stages, returning) ← try_for query_part ([], []) (tail (p_inner body));
  Ok {| q_span := span p; q_scope := scope; q_source := source_node; q_stages := stages; q_returning := returning |}.
Fixpoint query_fuel (fuel : nat) (p : Pair) : parse HqlQuery :=
  match fuel with
  | O => Err Panicked
  | S fuel => query_node (query_fuel fuel) p
  end.
Definition query (p : Pair) : parse HqlQuery := query_fuel (pair_size p) p.

(** ** Statements *)

Definition statement_kind (statement : Pair) : StatementKind :=
  match p_rule statement with
  | Rquery => StRead
  | Rexplain => if existsb (is_rule (Rk "analyze")) (p_inner statement) then StAnalyzeRead else StExplain
  | Rcreate_type | Rcreate_table | Rcreate_collection | Rcreate_index | Rdrop_index => StDdl
  | Radmin => StAdmin
  | _ => StMutation
  end.
Definition statement_of (root : Pair) : parse Hql2Statement :=
  _ ← validate_tree root;
  statement ← match List.find (fun p => negb (is_rule REOI p)) (p_inner root) with
              | Some statement => Ok statement
              | None => Err (Refused (parse_error source 0 "missing_statement"))
              end;
  let kind := statement_kind statement in
  q ← match kind with
      | StRead => q ← query statement; Ok (Some q)
      | StExplain | StAnalyzeRead => c ← child statement Rquery; q ← query c; Ok (Some q)
      | _ => Ok None
      end;
  syntax ← syntax_tree root;
  Ok {| st_source := source; st_span := span statement; st_kind := kind; st_query := q; st_syntax := syntax |}.
Definition parse_checked `{Pest} : parse Hql2Statement :=
  match pest_parse source with
  | Err offset => Err (Refused (parse_error source offset "invalid_syntax"))
  | Ok (root :: _) => statement_of root
  | Ok [] => Err (Refused (parse_error source 0 "missing_statement"))
  end.

(** [parse_hql2]: whether the thread with the larger stack could start is the platform's answer;
    a panic of that thread is an error of the call. *)
Definition parse_hql2 `{Pest} (spawned : bool) : parse Hql2Statement :=
  resources ← map_err Refused (preflight source);
  if negb (stack resources =? 0) then
    if spawned then
      match parse_checked with
      | Err Panicked => Err (Refused (parse_error source 0 "parser_failed"))
      | r => r
      end
    else Err (Refused (query_error "QUERY_BUDGET_EXCEEDED" "parse" "parser_stack_unavailable"))
  else parse_checked.
End Parse.
