(* ===== verification/HqlGrammar.v ===== *)
(** * The grammar of HQL2

    [src/src/query/hql2/hql2.pest]: which pairs a parse tree may hold, as the parser generated
    from the grammar promises it. *)
From S2P Require Export HqlParse.
Local Open Scope Z_scope.

(** ** The grammar

    What a pair of each rule holds, in order: [hql2.pest] without its punctuation, its
    silent rules put where they are used. *)

Inductive content :=
| Sh (r : Rule) | Nothing | Seq (a b : content) | Alt (a b : content) | Opt (a : content) | Star (a : content).
Fixpoint holds (s : content) (l : list Rule) : Prop :=
  match s with
  | Sh r => l = [r]
  | Nothing => l = []
  | Seq a b => exists k m, l = k ++ m /\ holds a k /\ holds b m
  | Alt a b => holds a l \/ holds b l
  | Opt a => l = [] \/ holds a l
  | Star a => exists ls, l = concat ls /\ Forall (holds a) ls
  end.
Definition seq (l : list content) : content := foldr Seq Nothing l.
Fixpoint alt (a : content) (l : list content) : content :=
  match l with [] => a | b :: l => Alt a (alt b l) end.
Definition rules (r : Rule) (l : list Rule) : content := alt (Sh r) (Sh <$> l).
Definition K (keyword : string) : content := Sh (Rk keyword).
Definition keywords (k : string) (l : list string) : content := alt (K k) (K <$> l).
Definition many (a : content) : content := Seq a (Star a).

Definition mutate : content := rules Rupsert_node [Rupsert_edge; Rupsert_row; Rupsert_vector; Rannotate; Rretract].
Definition statement : content :=
  alt (rules Rexplain [Rquery]) [rules Rcreate_type [Rcreate_table; Rcreate_collection; Rcreate_index; Rdrop_index];
    mutate; rules Rtransaction [Rapply_batch; Radmin]].
Definition source_rules : list Rule :=
  [Rnode_source; Redge_source; Rrow_source; Rann_source; Rmatch_source; Rhistory_source; Rchanges_source;
   Rvalues_source; Runion_source].
Definition stage_rules : list Rule :=
  [Rfilter_stage; Rknn_stage; Rlexical_stage; Rexpand_stage; Rann_stage; Rjoin_stage; Rproject_stage;
   Rdistinct_stage; Rgroup_stage; Raggregate_stage; Rorder_stage; Rtake_stage; Rskip_stage; Rpack_stage;
   Rrerank_stage].
Definition value_rules : list Rule := [Rparameter; Rstring; Rnumber; Rboolean; Rnull; Rarray; Robject].
Definition value : content := rules Rparameter (tail value_rules).
Definition atom_rules : list Rule := [Rfunction; Rfield_ref] ++ value_rules ++ [Rgroup].
Definition atom : content := rules Rfunction (tail atom_rules).

Definition grammar (r : Rule) : content :=
  (match r with
  | Rstart => seq [statement; Sh REOI]
  | Rexplain => seq [K "explain"; Opt (K "analyze"); Sh Rquery]
  | Rquery => seq [Opt (Sh Rscope); Sh Rquery_body]
  | Rscope => seq [K "use"; Sh Rname; Opt (Sh Rtx_selector); Opt (Sh Rvalid_selector)]
  | Rtx_selector => seq [K "at"; K "tx"; Sh Runsigned]
  | Rvalid_selector => seq [K "at"; K "valid"; Sh Rstring]
  | Rquery_body =>
      seq [rules Rnode_source (tail source_rules); Star (rules Rfilter_stage (tail stage_rules)); Sh Rreturn_stage]
  | Rnode_source => seq [K "from"; K "nodes"; Opt (Sh Rname); K "as"; Sh Rname]
  | Redge_source => seq [K "from"; K "edges"; Opt (Sh Rname); K "as"; Sh Rname]
  | Rrow_source => seq [K "from"; K "table"; Sh Rname; K "as"; Sh Rname]
  | Rann_source => seq [K "from"; K "annotations"; K "as"; Sh Rname]
  | Rmatch_source =>
      seq [K "match"; Opt (K "shortest"); Sh Rpattern; Opt (seq [K "as"; Sh Rname]); Opt (Sh Rpath_mode)]
  | Rhistory_source => seq [K "history"; Sh Rhistory_kind; Sh Rid_value; K "as"; Sh Rname]
  | Rchanges_source => seq [K "changes"; K "since"; Sh Runsigned; K "as"; Sh Rname]
  | Rvalues_source => seq [K "values"; Sh Rparameter; K "as"; Sh Rname]
  | Runion_source => seq [K "union"; K "all"; Sh Rquery_body; Sh Rquery_body]
  | Rfilter_stage => seq [K "filter"; Sh Rexpr]
  | Rknn_stage =>
      seq [K "knn"; Sh Rname; K "in"; Sh Rname; K "using"; Sh Rexpr; K "top"; Sh Runsigned; Sh Rmode; K "as"; Sh Rname]
  | Rmode => keywords "exact" ["approx"]
  | Rlexical_stage =>
      seq [K "lexical"; Sh Rname; K "field"; Sh Rname; K "query"; Sh Rexpr; K "using"; K "index"; Sh Rname;
           K "top"; Sh Runsigned; K "as"; Sh Rname]
  | Rexpand_stage =>
      seq [Opt (K "optional"); K "expand"; Sh Rpattern; Opt (seq [K "as"; Sh Rname]); Opt (Sh Rpath_mode)]
  | Rann_stage => seq [Opt (K "optional"); K "annotations"; K "of"; Sh Rname; K "as"; Sh Rname]
  | Rjoin_stage => seq [Opt (Sh Rjoin_kind); K "join"; K "table"; Sh Rname; K "as"; Sh Rname; K "on"; Sh Rexpr]
  | Rjoin_kind => keywords "inner" ["left"; "semi"; "anti"]
  | Rproject_stage => seq [K "project"; Sh Rselect_list]
  | Rdistinct_stage => K "distinct"
  | Rgroup_stage => seq [K "group"; K "by"; Sh Rselect_list; K "agg"; Sh Rselect_list]
  | Raggregate_stage => seq [K "agg"; Sh Rselect_list]
  | Rorder_stage => seq [K "order"; K "by"; many (Sh Rorder_item)]
  | Rorder_item => seq [Sh Rexpr; Opt (Sh Rsort_direction); Opt (Sh Rnull_order)]
  | Rsort_direction => keywords "asc" ["desc"]
  | Rnull_order => seq [K "nulls"; keywords "first" ["last"]]
  | Rtake_stage => seq [K "take"; Sh Runsigned]
  | Rskip_stage => seq [K "skip"; Sh Runsigned]
  | Rpack_stage =>
      seq [K "pack"; K "context"; K "text"; Sh Rexpr; K "evidence"; Sh Rexpr; K "tokens"; Sh Runsigned;
           K "tokenizer"; Sh Rstring; K "as"; Sh Rname]
  | Rrerank_stage =>
      seq [K "rerank"; Sh Rname; K "in"; Sh Rname; K "using"; Sh Rexpr; K "top"; Sh Runsigned; K "exact"; K "as"; Sh Rname]
  | Rreturn_stage => seq [K "return"; Sh Rselect_list]
  | Rselect_list => many (Sh Rselect_item)
  | Rselect_item => Alt (Sh Rstar) (seq [Sh Rexpr; Opt (seq [K "as"; Sh Rname])])
  | Rpattern => seq [Sh Rnode_pattern; Star (seq [Sh Redge_pattern; Sh Rnode_pattern])]
  | Rnode_pattern => seq [Opt (Sh Rname); Opt (Sh Rname); Opt (Sh Robject)]
  | Redge_pattern => Opt (Sh Redge_detail)
  | Redge_detail => seq [Opt (Sh Rname); Opt (Sh Rrelation_list); Opt (Sh Robject); Opt (Sh Rhop_range)]
  | Rrelation_list => many (Sh Rname)
  | Rhop_range => seq [Sh Ruint; Sh Ruint]
  | Rpath_mode => keywords "trail" ["simple"; "walk"]
  | Rcreate_type =>
      seq [K "create"; keywords "node" ["edge"; "annotation"]; K "type"; Sh Rname; K "schema"; Sh Rparameter]
  | Rcreate_table => seq [K "create"; K "table"; Sh Rname; K "schema"; Sh Rparameter]
  | Rcreate_collection =>
      seq [K "create"; K "collection"; Sh Rname; K "dim"; Sh Ruint; K "metric"; Sh Rmetric; K "model"; Sh Rstring;
           K "quant"; Sh Rquant]
  | Rmetric => keywords "cosine" ["l2_squared"; "neg_dot"]
  | Rquant => keywords "f32" ["f16"; "sq8"; "bq"]
  | Rcreate_index =>
      seq [K "create"; Opt (K "unique"); K "index"; Sh Rname; K "on"; Sh Rindex_target; Opt (many (Sh Rname));
           K "using"; Sh Rindex_method; Opt (seq [K "include"; many (Sh Rname)]); Opt (seq [K "where"; Sh Rexpr]);
           Opt (seq [K "with"; Sh Rparameter])]
  | Rindex_target =>
      alt (seq [K "node"; Sh Rname]) [seq [K "edge"; Sh Rname]; seq [K "table"; Sh Rname]; K "annotation";
        seq [K "collection"; Sh Rname]]
  | Rindex_method => keywords "btree" ["hnsw"; "inverted"]
  | Rdrop_index => seq [K "drop"; K "index"; Sh Rname]
  | Rupsert_node =>
      seq [K "upsert"; K "node"; Sh Rid_value; K "labels"; Sh Rarray; K "props"; value; Opt (Sh Rvalid_window)]
  | Rupsert_edge =>
      seq [K "upsert"; K "edge"; Sh Rid_value; K "from"; Sh Rid_value; K "to"; Sh Rid_value; K "type"; Sh Rstring;
           K "props"; value; Opt (Sh Rvalid_window)]
  | Rupsert_row =>
      seq [K "upsert"; K "row"; Sh Rname; K "key"; value; K "values"; value; Opt (Sh Rvalid_window)]
  | Rupsert_vector =>
      seq [K "upsert"; K "vector"; K "on"; K "node"; Sh Rid_value; K "in"; Sh Rname; K "using"; value;
           Opt (Sh Rvalid_window)]
  | Rannotate => seq [K "annotate"; Sh Rkind; Sh Rid_value; K "with"; Sh Rparameter]
  | Rretract => seq [K "retract"; Sh Rkind; Sh Rid_value; Opt (seq [K "expect"; K "revision"; Sh Rid_value])]
  | Rvalid_window => seq [K "valid"; K "from"; value; K "to"; value]
  | Rkind => keywords "node" ["edge"; "row"; "annotation"; "artifact"]
  | Rhistory_kind => keywords "node" ["edge"; "row"; "vector"; "annotation"; "artifact"]
  | Rtransaction => seq [K "transaction"; K "id"; Sh Rid_value; many mutate]
  | Rapply_batch => seq [K "apply"; Sh Rparameter]
  | Radmin =>
      alt (seq [K "show"; Sh Rshow_kind]) [seq [K "rebuild"; K "index"; Sh Rname]; seq [K "analyze"; K "index"; Sh Rname];
        seq [K "check"; K "database"]; K "checkpoint"; K "compact"]
  | Rshow_kind => keywords "capabilities" ["indexes"; "collections"; "schemas"]
  | Rexpr => Sh Ror_expr
  | Ror_expr => seq [Sh Rand_expr; Star (seq [Sh Ror_op; Sh Rand_expr])]
  | Ror_op => K "or"
  | Rand_expr => seq [Sh Rnot_expr; Star (seq [Sh Rand_op; Sh Rnot_expr])]
  | Rand_op => K "and"
  | Rnot_expr => seq [Star (Sh Rnot_op); Sh Rcomparison]
  | Rnot_op => K "not"
  | Rcomparison =>
      seq [Sh Rsum_expr; Opt (alt (seq [Sh Rcomp_op; Sh Rsum_expr]) [Sh Ris_null; Sh Rin_array; Sh Rbetween])]
  | Ris_null => seq [K "is"; Opt (K "not"); K "null"]
  | Rin_array => seq [Opt (K "not"); K "in"; Sh Rarray]
  | Rbetween => seq [K "between"; Sh Rsum_expr; K "and"; Sh Rsum_expr]
  | Rcomp_op => Opt (keywords "contains" ["startswith"])
  | Rsum_expr => seq [Sh Rterm; Star (seq [Sh Rsum_op; Sh Rterm])]
  | Rterm => seq [atom; Star (seq [Sh Rmul_op; atom])]
  | Rgroup => Sh Rexpr
  | Rfunction => seq [Sh Rname; Opt (Sh Rfunction_args)]
  | Rfunction_args => Alt (Sh Rstar) (many (Sh Rexpr))
  | Rfield_ref => many (Sh Rname)
  | Rboolean => keywords "true" ["false"]
  | Rnull => K "null"
  | Rarray => Star (Sh Rexpr)
  | Robject => Star (Sh Rpair)
  | Rpair => seq [rules Rname [Rstring]; Sh Rexpr]
  | Rid_value => rules Rstring [Rparameter]
  | Runsigned => rules Ruint [Rparameter]
  | Rstar | Rsum_op | Rmul_op | Rparameter | Rname | Rcname | Rquoted_name | Rstring | Ruint | Rnumber
  | REOI | Rk _ => Nothing
  end)%string.

(** What the text of a leaf looks like, where the walk relies on it *)
Definition all_digits (l : list byte) : Prop := all byte_is_digit l.
Definition sign_text (l : list byte) : Prop := l = [] \/ exists b, l = [b] /\ (is_byte 43 b || is_byte 45 b) = true.
Definition exponent_text (l : list byte) : Prop :=
  l = [] \/ exists e sign digits, l = e :: sign ++ digits /\ (is_byte 101 e || is_byte 69 e) = true /\
    sign_text sign /\ all_digits digits /\ digits <> [].
(** Digits with an optional point, at least one digit *)
Definition number_text (l : list byte) : Prop :=
  exists sign whole point fraction exponent, l = sign ++ whole ++ point ++ fraction ++ exponent /\
    sign_text sign /\ all_digits whole /\ all_digits fraction /\ whole ++ fraction <> [] /\
    (point = [] /\ fraction = [] \/ point = [byte_of 46]) /\ exponent_text exponent.
Definition one_of (l : list string) (s : string) : Prop := to_ascii_uppercase s ∈ l.
Definition leaf_text (r : Rule) (s : string) : Prop :=
  match r with
  | Rparameter => exists c l, str_bytes s = byte_of 36 :: c :: l /\ word_head c = true
  | Rnumber => number_text (str_bytes s)
  | Ror_op => one_of ["OR"] s
  | Rand_op => one_of ["AND"] s
  | Rcomp_op => one_of ["!="; "<>"; "<="; ">="; "="; "<"; ">"; "CONTAINS"; "STARTSWITH"] s
  | Rsum_op => one_of ["+"; "-"] s
  | Rmul_op => one_of ["*"; "/"; "%"] s
  | _ => True
  end%string.

(** A tree of the grammar over a source *)
Inductive conforms (source : string) (p : Pair) : Prop :=
| conforms_pair : holds (grammar (p_rule p)) (p_rule <$> p_inner p) -> leaf_text (p_rule p) (as_str source p) ->
    (forall c, c ∈ p_inner p -> conforms source c) -> conforms source p.

(** ** What a production must and may hold *)

Fixpoint least (r : Rule) (s : content) : nat :=
  match s with
  | Sh r' => if decide (r = r') then 1 else 0
  | Seq a b => least r a + least r b
  | Alt a b => Nat.min (least r a) (least r b)
  | Nothing | Opt _ | Star _ => 0
  end%nat.
Fixpoint least_length (s : content) : nat :=
  match s with
  | Sh r' => 1
  | Seq a b => least_length a + least_length b
  | Alt a b => Nat.min (least_length a) (least_length b)
  | Nothing | Opt _ | Star _ => 0
  end%nat.
Fixpoint may (s : content) : list Rule :=
  match s with
  | Sh r => [r]
  | Nothing => []
  | Seq a b | Alt a b => may a ++ may b
  | Opt a | Star a => may a
  end.
Definition count (r : Rule) (l : list Rule) : nat := length (filter (eq r) l).

Lemma holds_least r s l : holds s l -> (least r s <= count r l)%nat.
Proof.
  unfold count. revert l; induction s as [r'| |a IHa b IHb|a IHa b IHb|a IHa|a IHa]; intros l; cbn [holds least]; try lia.
  - intros ->. rewrite filter_cons. case_decide; cbn; lia.
  - intros (k & m & -> & Hk & Hm). rewrite filter_app, length_app. specialize (IHa k Hk). specialize (IHb m Hm). lia.
  - intros [H|H]; [specialize (IHa l H)|specialize (IHb l H)]; lia.
Qed.
Lemma holds_length s l : holds s l -> (least_length s <= length l)%nat.
Proof.
  revert l; induction s as [r'| |a IHa b IHb|a IHa b IHb|a IHa|a IHa]; intros l; cbn [holds least_length]; try lia.
  - by intros ->.
  - intros (k & m & -> & Hk & Hm). rewrite length_app. specialize (IHa k Hk). specialize (IHb m Hm). lia.
  - intros [H|H]; [specialize (IHa l H)|specialize (IHb l H)]; lia.
Qed.
Lemma holds_may s l : holds s l -> Forall (fun r => r ∈ may s) l.
Proof.
  revert l; induction s as [r'| |a IHa b IHb|a IHa b IHb|a IHa|a IHa]; intros l; cbn [holds may].
  - intros ->. repeat constructor.
  - intros ->. constructor.
  - intros (k & m & -> & Hk & Hm). apply Forall_app. split; [eapply Forall_impl; [by apply IHa|]|eapply Forall_impl; [by apply IHb|]];
      intros; rewrite elem_of_app; auto.
  - intros [H|H]; [eapply Forall_impl; [by apply IHa|]|eapply Forall_impl; [by apply IHb|]];
      intros; rewrite elem_of_app; auto.
  - intros [->|H]; [constructor|auto].
  - intros (ls & -> & H). induction H; cbn; [constructor|]. apply Forall_app. auto.
Qed.

(** ** Checking a tree *)

(** What is left of a list after the production, for every way to match its start *)
Fixpoint remains (s : content) (l : list Rule) : list (list Rule) :=
  match s with
  | Sh r => match l with r' :: l => if decide (r = r') then [l] else [] | [] => [] end
  | Nothing => [l]
  | Seq a b => concat (map (remains b) (remains a l))
  | Alt a b => remains a l ++ remains b l
  | Opt a => l :: remains a l
  | Star a =>
      (fix go (n : nat) (l : list Rule) : list (list Rule) :=
         match n with O => [l] | S n => l :: concat (map (go n) (remains a l)) end) (length l) l
  end.
Lemma elem_of_concat_map {A B} (f : A -> list B) l b : b ∈ concat (map f l) -> exists a, a ∈ l /\ b ∈ f a.
Proof.
  induction l as [|a l IH]; cbn; [by intros ?%elem_of_nil|]. intros [Hb|Hb]%elem_of_app.
  - exists a. split; [apply list_elem_of_here|done].
  - destruct (IH Hb) as (c & Hc & Hbc). exists c. split; [by apply list_elem_of_further|done].
Qed.
Lemma remains_holds s l m : m ∈ remains s l -> exists k, l = k ++ m /\ holds s k.
Proof.
  revert l m; induction s as [r| |a IHa b IHb|a IHa b IHb|a IHa|a IHa]; intros l m; cbn [remains holds].
  - destruct l as [|r' l]; [by intros ?%elem_of_nil|]. case_decide as Hr; [|by intros ?%elem_of_nil].
    intros ->%list_elem_of_singleton. exists [r']. by subst.
  - intros ->%list_elem_of_singleton. by exists [].
  - intros (k & Hk & Hm)%elem_of_concat_map. apply IHa in Hk as (k1 & -> & H1). apply IHb in Hm as (k2 & -> & H2).
    exists (k1 ++ k2). split; [by rewrite app_assoc|]. eauto 6.
  - intros [Hm|Hm]%elem_of_app; [apply IHa in Hm|apply IHb in Hm]; naive_solver.
  - intros [->|Hm]%elem_of_cons; [by exists []; auto|]. apply IHa in Hm. naive_solver.
  - generalize (length l). intros n. revert l m; induction n as [|n IH]; intros l m.
    + intros ->%list_elem_of_singleton. exists []. split; [done|]. by exists [].
    + intros [->|(k & Hk & Hm)%elem_of_concat_map]%elem_of_cons; [exists []; split; [done|]; by exists []|].
      apply IHa in Hk as (k1 & -> & H1). apply IH in Hm as (k2 & -> & (ls & -> & Hls)).
      exists (k1 ++ concat ls). split; [by rewrite app_assoc|]. exists (k1 :: ls). split; [done|]. by constructor.
Qed.

(** Leaves whose text the grammar leaves open *)
Definition free_leaf (r : Rule) : bool :=
  match r with
  | Rparameter | Rnumber | Ror_op | Rand_op | Rcomp_op | Rsum_op | Rmul_op => false
  | _ => true
  end.
Fixpoint well_formed (p : Pair) : bool :=
  existsb (fun m => match m with [] => true | _ :: _ => false end) (remains (grammar (p_rule p)) (p_rule <$> p_inner p))
  && free_leaf (p_rule p) && forallb well_formed (p_inner p).
Lemma well_formed_conforms source n p : (pair_size p <= n)%nat -> well_formed p = true -> conforms source p.
Proof.
  revert p; induction n as [|n IH]; intros [r a b l] Hs; cbn [pair_size p_inner] in Hs; [lia|].
  cbn [well_formed p_rule p_inner]. intros [[Hr Hf]%andb_prop Hl]%andb_prop. constructor; cbn [p_rule p_inner].
  - apply existsb_exists in Hr as ([|] & Hin & He); [|done]. apply list_elem_of_In, remains_holds in Hin as (k & Hk & Hh).
    rewrite app_nil_r in Hk. cbn in Hk. by subst.
  - by destruct r.
  - intros c Hc. rewrite forallb_forall in Hl. apply IH; [|by apply Hl, list_elem_of_In].
    enough (pair_size c <= list_sum (map pair_size l))%nat by lia.
    clear -Hc. induction Hc as [c l|c d l _ IHc]; cbn [map]; change (list_sum (?m :: ?k)) with (m + list_sum k)%nat; lia.
Qed.
