(* ===== verification/HqlParseSpec.v ===== *)
(** * What parsing HQL2 guarantees

    The depth the walk computes is the nesting of the expression it builds; a tree of the
    grammar is refused only for reasons a caller can see, and never makes the walk panic. *)
From S2P Require Export HqlLowerSpec HqlGrammar.
Local Open Scope Z_scope.

(** ** Nesting *)

Fixpoint nesting (k : ExprKind) : nat :=
  S match k with
    | HList l => list_max_with (fun e => nesting (sp_value e)) l
    | HObject fields => list_max_with (fun f => nesting (sp_value (of_expression f))) fields
    | HCall _ arguments _ => list_max_with (fun e => nesting (sp_value e)) arguments
    | HGroup e | HNot e | HIsNull e _ => nesting (sp_value e)
    | HBinary _ lhs rhs => Nat.max (nesting (sp_value lhs)) (nesting (sp_value rhs))
    | HIn e values _ => Nat.max (nesting (sp_value e)) (nesting (sp_value values))
    | HBetween e low high =>
        Nat.max (nesting (sp_value e)) (Nat.max (nesting (sp_value low)) (nesting (sp_value high)))
    | _ => 0%nat
    end.

Lemma list_max_with_mono {A} (f g : A -> nat) l : (forall a, a ∈ l -> (f a <= g a)%nat) ->
  (list_max_with f l <= list_max_with g l)%nat.
Proof.
  induction l as [|a l IH]; intros H; cbn; [lia|].
  pose proof (H a (list_elem_of_here _ _)). specialize (IH (fun b Hb => H b (list_elem_of_further _ _ _ Hb))).
  unfold list_max_with in *. lia.
Qed.
Lemma list_max_with_snoc {A} (f : A -> nat) l a :
  list_max_with f (l ++ [a]) = Nat.max (list_max_with f l) (f a).
Proof. induction l as [|b l IH]; cbn; [lia|]. unfold list_max_with in *. cbn in *. lia. Qed.
Lemma syntax_depth_nesting n k : (nesting k <= n)%nat -> (syntax_depth k <= nesting k)%nat.
Proof.
  revert k; induction n as [|n IH]; intros k Hk; [destruct k; cbn in Hk; lia|].
  assert (forall l : list HqlExpr, (list_max_with (fun e => nesting (sp_value e)) l <= n)%nat ->
    (list_max_with (fun e => syntax_depth (sp_value e)) l <= list_max_with (fun e => nesting (sp_value e)) l)%nat) as Hl.
  { intros l Hl. apply list_max_with_mono. intros e He. apply IH.
    pose proof (list_max_with_le (fun e => nesting (sp_value e)) l e He). cbn in *. lia. }
  destruct k; cbn [syntax_depth nesting] in *; try lia;
    try (apply le_n_S; first [apply Hl; lia|apply IH; lia]).
  - pose proof (IH (sp_value lhs)). pose proof (IH (sp_value rhs)). lia.
  - pose proof (IH (sp_value expression)). destruct (sp_value values) as [| | | | | | |l| | | | | | | |]; try lia.
    cbn [nesting] in *. specialize (Hl l). lia.
  - pose proof (IH (sp_value expression)). pose proof (IH (sp_value low)). pose proof (IH (sp_value high)). lia.
Qed.

(** ** The depth of what is built *)

Definition exact (r : HqlExpr * Z) : Prop := r.2 = Z.of_nat (nesting (sp_value r.1)) /\ r.2 <= 128.

Ltac oks :=
  repeat match goal with
  | H : (_ ≫= _) = Ok _ |- _ => apply bind_Ok in H as (? & ? & H)
  | x : (_ * _)%type |- _ => destruct x
  | H : Ok _ = Ok _ |- _ => injection H as H
  | H : or_invalid _ ?o _ _ = Ok _ |- _ => destruct o eqn:?; [injection H as H|discriminate H]
  end; simplify_eq/=.

Section Depth.
Context `{JsonText}.
Variable source : string.
Implicit Types (p : Pair) (rec : Pair -> result fault (HqlExpr * Z)).

Lemma checked_exact p value depth r : checked source p value depth = Ok r ->
  depth = Z.of_nat (nesting value) -> exact r.
Proof.
  unfold checked, exact, MAX_DEPTH. destruct (Z.ltb_spec 128 depth); [done|]. intros [= <-] ->. cbn in *. lia.
Qed.

Section Calls.
Variable rec : Pair -> result fault (HqlExpr * Z).
Hypothesis rec_exact : forall p r, rec p = Ok r -> exact r.

Lemma operand_chain_exact p parts lhs depth r : operand_chain source rec p parts lhs depth = Ok r ->
  exact (lhs, depth) -> exact r.
Proof.
  revert lhs depth; induction parts as [parts IH] using (Nat.measure_induction _ length).
  destruct parts as [|op [|right_ parts]]; intros lhs depth Hr Hd; cbn [operand_chain] in Hr; oks; [done..|].
  match goal with H : rec right_ = Ok _ |- _ => apply rec_exact in H as [H1 H2] end.
  unfold exact, MAX_DEPTH in *. cbn [fst snd] in *. case_match eqn:Hlt; [done|]. oks. apply Z.ltb_ge in Hlt.
  refine (IH parts _ _ _ Hr _); [cbn; lia|]. cbn. lia.
Qed.
Lemma not_chain_exact ops value depth r : not_chain source ops value depth = Ok r ->
  exact (value, depth) -> exact r.
Proof.
  revert value depth; induction ops as [|op ops IH]; intros value depth Hr Hd; cbn [not_chain] in Hr; [by oks|].
  unfold exact, MAX_DEPTH in *. cbn [fst snd] in *. case_match eqn:Hlt; [done|]. apply Z.ltb_ge in Hlt.
  apply (IH _ _ Hr). cbn. lia.
Qed.
Lemma compare_with_nesting p op parts lhs d value depth : compare_with source rec p op parts lhs d = Ok (value, depth) ->
  exact (lhs, d) -> depth = Z.of_nat (nesting value).
Proof.
  intros Hr [Hd _]. cbn [fst snd] in Hd. unfold compare_with in Hr.
  destruct (p_rule op); oks; repeat match goal with H : rec _ = Ok _ |- _ => apply rec_exact in H as [H _] end;
    cbn [fst snd nesting] in *; lia.
Qed.

Lemma try_for_inv {E A S} (P : S -> Prop) (f : S -> A -> result E S) s l s' :
  (forall s a s', f s a = Ok s' -> P s -> P s') -> try_for f s l = Ok s' -> P s -> P s'.
Proof.
  intros Hf. revert s; induction l as [|a l IH]; intros s; cbn [try_for]; [by intros [= ->]|].
  intros (s1 & H1 & H2)%bind_Ok Hs. eauto.
Qed.
Lemma element_exact s e s' : element rec s e = Ok s' ->
  s.2 = Z.of_nat (nesting (HList s.1)) -> s'.2 = Z.of_nat (nesting (HList s'.1)).
Proof.
  unfold element. intros Hr Hs. oks. match goal with H : rec _ = Ok _ |- _ => apply rec_exact in H as [H _] end.
  cbn [fst snd nesting] in *. rewrite list_max_with_snoc. lia.
Qed.
Lemma member_exact s e s' : member source rec s e = Ok s' ->
  s.2 = Z.of_nat (nesting (HObject s.1)) -> s'.2 = Z.of_nat (nesting (HObject s'.1)).
Proof.
  unfold member. intros Hr Hs. oks. match goal with H : rec _ = Ok _ |- _ => apply rec_exact in H as [H _] end.
  cbn [fst snd nesting] in *. rewrite list_max_with_snoc. cbn. lia.
Qed.
Lemma argument_exact n star0 s e s' : argument rec s e = Ok s' ->
  s.1.2 = Z.of_nat (nesting (HCall n s.1.1 star0)) -> s'.1.2 = Z.of_nat (nesting (HCall n s'.1.1 star0)).
Proof.
  unfold argument. intros Hr Hs. oks. case_match; oks; [done|].
  match goal with H : rec _ = Ok _ |- _ => apply rec_exact in H as [H _] end.
  cbn [fst snd nesting] in *. rewrite list_max_with_snoc. lia.
Qed.

Lemma expression_node_exact p r : expression_node source rec p = Ok r -> exact r.
Proof.
  unfold expression_node. intros Hr. destruct (p_rule p) eqn:Hp; try discriminate Hr; oks;
    try (match goal with H : rec _ = Ok _ |- _ => by apply rec_exact in H end);
    try (by eapply checked_exact);
    repeat match goal with H : rec _ = Ok _ |- _ => apply rec_exact in H end;
    eauto using operand_chain_exact, not_chain_exact.
  - destruct (tail (p_inner p)) as [|operator parts]; oks; [done|].
    by eapply checked_exact, compare_with_nesting.
  - eapply checked_exact; [done|]. match goal with H : exact _ |- _ => destruct H as [H _] end. cbn in *. lia.
  - eapply checked_exact; [done|].
    match goal with H : try_for _ _ _ = Ok _ |- _ =>
      apply (try_for_inv (fun s => s.1.2 = Z.of_nat (nesting (HCall (name source x) s.1.1 o)))) in H end;
      [done| |done]. intros s1 a s2. apply argument_exact.
  - eapply checked_exact; [done|].
    match goal with H : try_for _ _ _ = Ok _ |- _ =>
      apply (try_for_inv (fun s => s.2 = Z.of_nat (nesting (HList s.1)))) in H end; [done| |done].
    apply element_exact.
  - eapply checked_exact; [done|].
    match goal with H : try_for _ _ _ = Ok _ |- _ =>
      apply (try_for_inv (fun s => s.2 = Z.of_nat (nesting (HObject s.1)))) in H end; [done| |done].
    apply member_exact.
  - eapply checked_exact; [done|]. unfold number in *. case_match; oks; [case_match|]; by simplify_eq.
Qed.
End Calls.

Lemma expression_fuel_exact fuel p r : expression_fuel source fuel p = Ok r -> exact r.
Proof. revert p r; induction fuel as [|fuel IH]; intros p r; cbn; [done|]. by apply expression_node_exact. Qed.
End Depth.

(** C16: The depth of a parsed expression. The depth [expression] computes on its way is the
    nesting of the expression it builds, and is at most 128; so what it builds is always
    within the nesting that lowering accepts. *)
Theorem parsed_depth `{JsonText} source p e depth : expression source p = Ok (e, depth) ->
  depth = Z.of_nat (nesting (sp_value e)) /\ depth <= 128 /\ (syntax_depth (sp_value e) <= 128)%nat.
Proof.
  intros [H1 H2]%expression_fuel_exact. cbn in H1, H2. pose proof (syntax_depth_nesting _ _ (Nat.le_refl (nesting (sp_value e)))).
  lia.
Qed.

(** ** Answers a caller may see *)

Definition caller_reasons : list string :=
  ["integer_literal_overflow"; "nonfinite_literal"; "unsigned_literal_overflow"; "invalid_string_literal";
   "expression_depth_exceeded"; "syntax_nodes_exceeded"; "duplicate_pattern_id"; "duplicate_pattern_property";
   "duplicate_pattern_label"; "pattern_node_shape"; "hop_range_overflow"; "hop_bounds"]%string.
Definition answers {A} (m : result fault A) (Q : A -> Prop) : Prop :=
  match m with
  | Ok a => Q a
  | Err (Refused e) => qe_code e = "HQL_PARSE_ERROR"%string /\ qe_reason e ∈ caller_reasons
  | Err Panicked => False
  end.

Lemma answers_then {A B} (m : result fault A) (f : A -> result fault B) P Q :
  answers m P -> (forall a, P a -> answers (f a) Q) -> answers (m ≫= f) Q.
Proof. destruct m as [a|[]]; cbn; auto. Qed.
Lemma answers_weaken {A} (m : result fault A) (P Q : A -> Prop) :
  answers m P -> (forall a, P a -> Q a) -> answers m Q.
Proof. destruct m as [a|[]]; cbn; auto. Qed.
Lemma answers_try_for {A S} (f : S -> A -> result fault S) (J : S -> Prop) l s :
  J s -> (forall s a, a ∈ l -> J s -> answers (f s a) J) -> answers (try_for f s l) J.
Proof.
  revert s; induction l as [|a l IH]; intros s Hs Hf; [done|]. rewrite try_for_cons.
  eapply answers_then; [apply Hf; [apply list_elem_of_here|done]|]. intros s' Hs'. apply IH; [done|].
  intros s'' b Hb. apply Hf. by apply list_elem_of_further.
Qed.
Lemma answers_traverse {A B} (f : A -> result fault B) l :
  (forall a, a ∈ l -> answers (f a) (fun _ => True)) -> answers (traverse f l) (fun bs => length bs = length l).
Proof.
  induction l as [|a l IH]; intros Hf; [done|]. cbn [traverse].
  eapply answers_then; [apply Hf, list_elem_of_here|]. intros b _.
  eapply answers_then; [apply IH; intros c Hc; apply Hf; by apply list_elem_of_further|]. intros bs Hbs. cbn. by f_equal.
Qed.
Lemma answers_invalid {A} source p reason (Q : A -> Prop) : reason ∈ caller_reasons -> answers (invalid source p reason) Q.
Proof. intros H. by split. Qed.
Lemma answers_or_invalid {A} source (o : option A) p reason Q :
  match o with Some a => Q a | None => reason ∈ caller_reasons end -> answers (or_invalid source o p reason) Q.
Proof. destruct o; [done|]. apply answers_invalid. Qed.
Lemma answers_or_some {A} source (o : option A) p reason (Q : A -> Prop) :
  (exists a, o = Some a /\ Q a) -> answers (or_invalid source o p reason) Q.
Proof. by intros (a & -> & H). Qed.

Ltac reason := apply (bool_decide_unpack _); vm_compute; exact I.

(** ** Parts of a tree of the grammar *)

Section Grammar.
Context `{JsonText}.
Variable source : string.
Implicit Types (p c : Pair).
Notation conforms := (conforms source).

(** A pair inside another *)
Definition inside p c : Prop :=
  conforms c /\ (pair_size c < pair_size p)%nat /\ p_rule c ∈ may (grammar (p_rule p)).

Lemma inner_size p c : c ∈ p_inner p -> (pair_size c < pair_size p)%nat.
Proof.
  destruct p as [r a b l]. cbn [p_inner pair_size]. intros Hc.
  enough (pair_size c <= list_sum (map pair_size l))%nat by lia.
  induction Hc as [c l|c d l _ IH]; cbn [map]; change (list_sum (?n :: ?k)) with (n + list_sum k)%nat; lia.
Qed.
Lemma inner_inside p c : conforms p -> c ∈ p_inner p -> inside p c.
Proof.
  intros [Hh _ Hc] Hin. split; [auto|]. split; [by apply inner_size|].
  pose proof (holds_may _ _ Hh) as Hm. rewrite Forall_fmap, Forall_forall in Hm. by apply Hm.
Qed.

Lemma find_rule r p : conforms p -> (0 < least r (grammar (p_rule p)))%nat ->
  exists c, List.find (is_rule r) (p_inner p) = Some c /\ p_rule c = r /\ inside p c.
Proof.
  intros Hp Hl. pose proof (holds_least r _ _ (match Hp with conforms_pair _ _ H _ _ => H end)) as Hle.
  assert (exists c, c ∈ p_inner p /\ p_rule c = r) as (c & Hc & Hr).
  { unfold count in Hle. clear Hp. set (k := p_inner p) in *. clearbody k.
    induction k as [|c k IH]; [cbn in Hle; lia|]. rewrite fmap_cons, filter_cons in Hle. case_decide as Hd.
    - exists c. split; [apply list_elem_of_here|done].
    - destruct (IH Hle) as (c' & Hc' & Hr'). exists c'. split; [by apply list_elem_of_further|done]. }
  destruct (List.find (is_rule r) (p_inner p)) as [d|] eqn:Hf.
  - apply find_some in Hf as [Hd Hr']. apply bool_decide_eq_true in Hr'. exists d.
    split; [done|]. split; [done|]. apply inner_inside; [done|]. by apply list_elem_of_In.
  - exfalso. apply list_elem_of_In in Hc. pose proof (find_none _ _ Hf _ Hc) as Hn. unfold is_rule in Hn.
    by rewrite bool_decide_eq_true_2 in Hn.
Qed.
Lemma child_answers r p : conforms p -> (0 < least r (grammar (p_rule p)))%nat ->
  answers (child source p r) (fun c => p_rule c = r /\ inside p c).
Proof. intros Hp Hl. apply answers_or_some. destruct (find_rule r p Hp Hl) as (c & -> & Hc). eauto. Qed.
Lemma head_answers p q reason : conforms p -> (0 < least_length (grammar (p_rule p)))%nat ->
  answers (or_invalid source (head (p_inner p)) q reason) (inside p).
Proof.
  intros Hp Hl. pose proof (holds_length _ _ (match Hp with conforms_pair _ _ H _ _ => H end)) as Hle.
  rewrite length_fmap in Hle. apply answers_or_some. destruct (p_inner p) as [|c l] eqn:Hin; [cbn in Hle; lia|].
  exists c. split; [done|]. apply inner_inside; [done|]. rewrite Hin. apply list_elem_of_here.
Qed.
Lemma filter_count r p : conforms p ->
  (least r (grammar (p_rule p)) <= length (filter (fun c => p_rule c = r) (p_inner p)))%nat.
Proof.
  intros Hp. pose proof (holds_least r _ _ (match Hp with conforms_pair _ _ H _ _ => H end)) as Hle.
  etrans; [apply Hle|]. unfold count. clear. induction (p_inner p) as [|c l IH]; [done|].
  rewrite fmap_cons, !filter_cons. repeat case_decide; cbn; try lia; congruence.
Qed.
Lemma names_count p : conforms p -> (least Rname (grammar (p_rule p)) <= length (names_of source p))%nat.
Proof. intros Hp. unfold names_of. rewrite length_fmap. by apply filter_count. Qed.
Lemma filter_inside r p c : conforms p -> c ∈ filter (fun c => p_rule c = r) (p_inner p) ->
  p_rule c = r /\ inside p c.
Proof. intros Hp [Hr Hc]%list_elem_of_filter. split; [done|]. by apply inner_inside. Qed.
End Grammar.

(** ** Leaves *)

Lemma split_digits_app w l : all_digits w -> stops byte_is_digit l -> split_digits (w ++ l) = (w, l).
Proof. intros Hw Hl. unfold split_digits. by rewrite run_length_all, take_app_length, drop_app_length. Qed.
Lemma digit_not b v : byte_is_digit b = true -> v < 48 -> is_byte v b = false.
Proof. unfold is_byte. intros. apart. Qed.
Lemma parse_sign_text sign l : sign_text sign -> l <> [] -> stops (fun b => is_byte 43 b || is_byte 45 b) l ->
  exists negative, parse_sign (sign ++ l) = (negative, l).
Proof.
  intros [->|(b & -> & Hb)] Hl Hst; cbn [app parse_sign].
  - destruct l as [|c l]; [done|]. cbn [parse_sign]. apply orb_false_iff in Hst as [-> ->]. eauto.
  - destruct (is_byte 45 b) eqn:H45; [eauto|]. rewrite orb_false_r in Hb. rewrite Hb. eauto.
Qed.
Lemma digits_stop w l : all_digits w -> w <> [] -> stops (fun b => is_byte 43 b || is_byte 45 b) (w ++ l).
Proof. intros Hw Hne. destruct Hw as [|b w Hb _]; [done|]. cbn. by rewrite !digit_not. Qed.
Lemma exponent_parses l : exponent_text l -> is_Some (parse_exponent l).
Proof.
  intros [->|(e & sign & digits & -> & He & Hs & Hd & Hne)]; [eauto|]. cbn [parse_exponent]. rewrite He.
  destruct (parse_sign_text sign digits Hs Hne) as [negative ->].
  { rewrite <- (app_nil_r digits). by apply digits_stop. }
  rewrite <- (app_nil_r digits), split_digits_app by done. destruct digits; [done|]. eauto.
Qed.
Lemma exponent_stops l : exponent_text l -> stops byte_is_digit l /\ stops (is_byte 46) l.
Proof.
  intros [->|(e & sign & digits & -> & He & _)]; [done|]. cbn. unfold is_byte in *. split; [apart|lia].
Qed.
Lemma number_parses s : number_text (str_bytes s) -> is_Some (parse_f64 s).
Proof.
  intros (sign & whole & point & fraction & exponent & Hs & Hsign & Hw & Hf & Hne & Hp & He).
  unfold parse_f64. rewrite Hs. destruct (exponent_stops _ He) as [Hd Hpt].
  assert (stops byte_is_digit (point ++ fraction ++ exponent)) as Hstop by (by destruct Hp as [[-> ->]| ->]).
  destruct (parse_sign_text sign (whole ++ point ++ fraction ++ exponent) Hsign) as [negative ->].
  { destruct whole as [|b whole]; [|done]. by destruct Hp as [[-> ->]| ->]. }
  { destruct whole as [|b whole]; [|by apply digits_stop]. by destruct Hp as [[-> ->]| ->]. }
  repeat (case_match; [by eauto|]). rewrite split_digits_app by done.
  destruct Hp as [[-> ->]| ->]; cbn [app].
  - rewrite app_nil_r in Hne. destruct exponent as [|b exponent]; [destruct whole; [done|]; cbn; eauto|].
    cbn in Hpt. rewrite Hpt. rewrite app_nil_r. destruct whole as [|c whole]; [done|].
    destruct (exponent_parses _ He) as [z ->]. cbn. eauto.
  - change (is_byte 46 (byte_of 46)) with true. cbn iota. rewrite split_digits_app by done.
    destruct (whole ++ fraction) as [|c l]; [done|]. destruct (exponent_parses _ He) as [z ->]. cbn. eauto.
Qed.

Section Leaves.
Context `{JsonText}.
Variable source : string.
Implicit Types (p c : Pair).

Lemma str_tail_answers p : conforms source p -> p_rule p = Rparameter -> answers (str_tail source p) (fun _ => True).
Proof.
  intros [_ Ht _] Hr. rewrite Hr in Ht. destruct Ht as (c & l & Hs & Hc). unfold str_tail. rewrite Hs.
  replace (byte_in 128 191 c) with false by (symmetry; apart). done.
Qed.
Lemma number_answers p : conforms source p -> p_rule p = Rnumber -> answers (number source p) (fun _ => True).
Proof.
  intros [_ Ht _] Hr. rewrite Hr in Ht. unfold number. destruct (existsb _ _).
  - destruct (number_parses _ Ht) as [x ->]. cbn. case_match; [done|]. apply answers_invalid. reason.
  - apply (answers_then _ _ (fun _ => True)); [apply answers_or_invalid|done]. case_match; [done|reason].
Qed.
Lemma decode_answers p : answers (decode_string source p) (fun _ => True).
Proof. apply answers_or_invalid. case_match; [done|reason]. Qed.
Lemma uint_answers max p : answers (or_invalid source (parse_unsigned max (as_str source p)) p "unsigned_literal_overflow")
  (fun _ => True).
Proof. apply answers_or_invalid. case_match; [done|reason]. Qed.
Lemma unsigned_answers p : conforms source p -> p_rule p = Runsigned -> answers (unsigned source p) (fun _ => True).
Proof.
  intros Hp Hr. unfold unsigned. eapply answers_then; [apply head_answers; [done|rewrite Hr; cbn; lia]|].
  intros c (Hc & _ & Hm). eapply (answers_then _ _ (fun _ => True)); [|done].
  destruct (is_rule Rparameter c) eqn:Hpar.
  - apply bool_decide_eq_true in Hpar. eapply answers_then; [by apply str_tail_answers|done].
  - eapply answers_then; [apply uint_answers|done].
Qed.
Definition operator_rules : list Rule := [Ror_op; Rand_op; Rcomp_op; Rsum_op; Rmul_op].
Lemma operator_known p : conforms source p -> p_rule p ∈ operator_rules -> is_Some (binary_operator source p).
Proof.
  intros [_ Ht _] Hr. unfold binary_operator.
  assert (to_ascii_uppercase (as_str source p) ∈ binary_operators.*1) as Hin.
  { unfold operator_rules in Hr. rewrite !elem_of_cons, elem_of_nil in Hr.
    destruct Hr as [Hr|[Hr|[Hr|[Hr|[Hr|[]]]]]]; rewrite Hr in Ht; cbn in Ht; unfold one_of in Ht;
      revert Ht; generalize (to_ascii_uppercase (as_str source p)); intros s; cbn; set_solver. }
  revert Hin. generalize (to_ascii_uppercase (as_str source p)); intros s. clear.
  induction binary_operators as [|[k o] l IH]; [by intros ?%elem_of_nil|]. cbn. case_bool_decide; [eauto|].
  intros [->|Hin]%elem_of_cons; [done|]. by apply IH.
Qed.
End Leaves.

(** ** Expressions *)

Definition sub (a b : list Rule) : bool := forallb (fun r => bool_decide (r ∈ b)) a.
Lemma sub_elem a b r : r ∈ a -> sub a b = true -> r ∈ b.
Proof.
  intros Hr Hs. unfold sub in Hs. rewrite forallb_forall in Hs. apply list_elem_of_In in Hr.
  by specialize (Hs r Hr); apply bool_decide_eq_true in Hs.
Qed.
Ltac least := match goal with Hr : p_rule ?p = _ |- context [grammar (p_rule ?p)] => rewrite Hr; vm_compute; lia end.
Ltac among :=
  match goal with
  | Hr : p_rule ?p = _, H : p_rule _ ∈ may (grammar (p_rule ?p)) |- p_rule _ ∈ _ =>
      rewrite Hr in H; apply (sub_elem _ _ _ H); vm_compute; reflexivity
  end.

Definition expr_rules : list Rule :=
  [Rexpr; Ror_expr; Rand_expr; Rsum_expr; Rterm; Rnot_expr; Rcomparison] ++ atom_rules.

(** Operators and operands in turn *)
Fixpoint chain (operator : Rule) (operands : list Rule) (parts : list Pair) : Prop :=
  match parts with
  | [] => True
  | op :: right_ :: parts => p_rule op = operator /\ p_rule right_ ∈ operands /\ chain operator operands parts
  | [_] => False
  end.
Lemma star_chain operator operands a parts ls :
  (forall l, holds a l -> exists r, l = [r] /\ r ∈ operands) ->
  p_rule <$> parts = concat ls -> Forall (holds (seq [Sh operator; a])) ls -> chain operator operands parts.
Proof.
  intros Ha. revert parts; induction ls as [|l ls IH]; intros parts Hp Hls.
  - apply fmap_nil_inv in Hp. by subst.
  - apply Forall_cons in Hls as [(k & m & -> & Hk & (m1 & m2 & -> & Hm & Hn)) Hls]. cbn in Hk, Hn. subst k m2.
    apply Ha in Hm as (r & -> & Hr). cbn in Hp. destruct parts as [|op [|right_ parts]]; try done.
    injection Hp as Ho Hx Hp. cbn. split; [done|]. split; [by rewrite Hx|]. by apply IH.
Qed.
Lemma holds_rule r (operands : list Rule) l : r ∈ operands -> holds (Sh r) l -> exists r', l = [r'] /\ r' ∈ operands.
Proof. intros Hr ->. eauto. Qed.
Lemma holds_alt r rs (operands : list Rule) l : sub (r :: rs) operands = true -> holds (rules r rs) l ->
  exists r', l = [r'] /\ r' ∈ operands.
Proof.
  unfold rules. revert r; induction rs as [|r' rs IH]; intros r Hs Hl; cbn [fmap list_fmap alt holds] in Hl.
  - subst. exists r. split; [done|]. apply (sub_elem [r]); [apply list_elem_of_here|done].
  - destruct Hl as [->|Hl].
    + exists r. split; [done|]. apply (sub_elem (r :: r' :: rs)); [apply list_elem_of_here|done].
    + apply (IH r'); [|done]. cbn in Hs. apply andb_prop in Hs as [_ Hs]. exact Hs.
Qed.

Section Expressions.
Context `{JsonText}.
Variable source : string.
Variable n : nat.
Variable rec : Pair -> result fault (HqlExpr * Z).
Notation fine m := (answers m (fun _ => True)).
Hypothesis rec_fine : forall c, conforms source c -> p_rule c ∈ expr_rules -> (pair_size c <= n)%nat -> fine (rec c).
Implicit Types (p c : Pair).

Lemma rec_inside p c : (pair_size p <= S n)%nat -> inside source p c -> p_rule c ∈ expr_rules -> fine (rec c).
Proof. intros Hs (Hc & Hsz & _) Hr. apply rec_fine; [done..|lia]. Qed.
Lemma checked_fine p value depth : fine (checked source p value depth).
Proof. unfold checked. case_match; [apply answers_invalid; reason|done]. Qed.
Lemma operand_chain_fine p operator operands parts lhs depth :
  operator ∈ operator_rules -> sub operands expr_rules = true -> chain operator operands parts ->
  (forall c, c ∈ parts -> inside source p c) -> (pair_size p <= S n)%nat ->
  fine (operand_chain source rec p parts lhs depth).
Proof.
  intros Ho Hsub. revert lhs depth; induction parts as [parts IH] using (Nat.measure_induction _ length).
  destruct parts as [|op [|right_ parts]]; intros lhs depth Hc Hin Hs; cbn [operand_chain]; [done..|].
  destruct Hc as (Hop & Hx & Hc). assert (inside source p op) as [Hcop _] by (apply Hin, list_elem_of_here).
  eapply answers_then; [apply (rec_inside p); [done|apply Hin; set_solver|by eapply sub_elem]|].
  intros [rhs d] _. case_match; [apply answers_invalid; reason|].
  apply (answers_then _ _ (fun _ => True)); [apply answers_or_some|].
  { destruct (operator_known source op Hcop) as [o Hk]; [by rewrite Hop|]. rewrite Hk. by exists o. }
  intros o _. apply IH; [cbn; lia|done| |done]. intros c Hcc. apply Hin. set_solver.
Qed.
Lemma not_chain_fine ops value depth : fine (not_chain source ops value depth).
Proof.
  revert value depth; induction ops as [|op ops IH]; intros; cbn [not_chain]; [done|].
  case_match; [apply answers_invalid; reason|apply IH].
Qed.

(** The shapes the walk takes apart *)
Lemma chain_parts p operator operands a : conforms source p ->
  grammar (p_rule p) = seq [a; Star (seq [Sh operator; a])] ->
  (forall l, holds a l -> exists r, l = [r] /\ r ∈ operands) ->
  exists first rest, p_inner p = first :: rest /\ p_rule first ∈ operands /\ chain operator operands rest.
Proof.
  intros [Hh _ _] Hg Ha. rewrite Hg in Hh. destruct Hh as (k & m & Hp & Hk & (m1 & m2 & -> & (ls & -> & Hls) & Hm)).
  cbn in Hm. subst m2. apply Ha in Hk as (r & -> & Hr). rewrite app_nil_r in Hp.
  destruct (p_inner p) as [|first rest]; [done|]. injection Hp as Hf Hrest. exists first, rest.
  split; [done|]. split; [by rewrite Hf|]. by apply (star_chain operator operands a rest ls).
Qed.
Lemma chain_fine p operator operands a : conforms source p -> (pair_size p <= S n)%nat ->
  grammar (p_rule p) = seq [a; Star (seq [Sh operator; a])] ->
  (forall l, holds a l -> exists r, l = [r] /\ r ∈ operands) ->
  operator ∈ operator_rules -> sub operands expr_rules = true ->
  fine (first ← or_invalid source (head (p_inner p)) p "missing_expression";
        '(lhs, depth) ← rec first;
        operand_chain source rec p (tail (p_inner p)) lhs depth).
Proof.
  intros Hp Hs Hg Ha Ho Hsub. destruct (chain_parts p operator operands a Hp Hg Ha) as (first & rest & Hin & Hf & Hc).
  assert (forall c, c ∈ first :: rest -> inside source p c) as Hi by (intros c; rewrite <- Hin; by apply inner_inside).
  rewrite Hin. cbn [head tail or_invalid mbind result_bind].
  eapply answers_then; [apply (rec_inside p); [done|apply Hi, list_elem_of_here|by eapply sub_elem]|].
  intros [lhs depth] _. apply (operand_chain_fine p operator operands); [exact Ho|exact Hsub|exact Hc| |exact Hs].
  intros c Hcr. apply Hi. by apply list_elem_of_further.
Qed.

Lemma comparison_parts p : conforms source p -> p_rule p = Rcomparison ->
  exists first rest, p_inner p = first :: rest /\ p_rule first = Rsum_expr /\
    (rest = [] \/ (exists op x, rest = [op; x] /\ p_rule op = Rcomp_op /\ p_rule x = Rsum_expr) \/
     exists op, rest = [op] /\ p_rule op ∈ [Ris_null; Rin_array; Rbetween]).
Proof.
  intros [Hh _ _] Hr. rewrite Hr in Hh. destruct Hh as (k & m & Hp & Hk & (m1 & m2 & -> & Hm1 & Hm)).
  cbn in Hk, Hm. subst k m2. rewrite app_nil_r in Hp. destruct (p_inner p) as [|first rest]; [done|].
  injection Hp as Hf Hrest. exists first, rest. split; [done|]. split; [done|].
  destruct Hm1 as [->|[(a & b & -> & Ha & (c & d & -> & Hc & Hd))|[->|[->| ->]]]].
  - left. by apply fmap_nil_inv in Hrest.
  - right; left. cbn in Ha, Hc, Hd. subst. destruct rest as [|op [|x [|? ?]]]; try done.
    injection Hrest as Ho Hx. eauto 6.
  - right; right. destruct rest as [|op [|? ?]]; try done. injection Hrest as Ho. exists op. rewrite Ho. set_solver.
  - right; right. destruct rest as [|op [|? ?]]; try done. injection Hrest as Ho. exists op. rewrite Ho. set_solver.
  - right; right. destruct rest as [|op [|? ?]]; try done. injection Hrest as Ho. exists op. rewrite Ho. set_solver.
Qed.
Lemma inside_trans p c d : inside source p c -> inside source c d -> (pair_size p <= S n)%nat ->
  p_rule d ∈ expr_rules -> fine (rec d).
Proof. intros (_ & H1 & _) (Hd & H2 & _) Hs Hr. apply rec_fine; [done..|lia]. Qed.
Lemma compare_with_fine p op rest lhs depth : (pair_size p <= S n)%nat -> inside source p op ->
  (exists x, rest = [x] /\ p_rule op = Rcomp_op /\ p_rule x = Rsum_expr /\ inside source p x) \/
  p_rule op ∈ [Ris_null; Rin_array; Rbetween] ->
  fine (compare_with source rec p op rest lhs depth).
Proof.
  intros Hs Hop Hcase. unfold compare_with. destruct Hcase as [(x & -> & Hr & Hx & Hix)|Hcase].
  { rewrite Hr. cbn [head or_invalid mbind result_bind].
    eapply answers_then; [apply (rec_inside p); [done..|by rewrite Hx; reason]|]. intros [rhs d] _.
    apply (answers_then _ _ (fun _ => True)); [apply answers_or_some|done]. destruct Hop as [Hc _].
    destruct (operator_known source op Hc) as [o Ho]; [by rewrite Hr; reason|]. rewrite Ho. by exists o. }
  rewrite !elem_of_cons, elem_of_nil in Hcase. destruct Hcase as [Hr|[Hr|[Hr|[]]]]; rewrite Hr; [done| |].
  - eapply answers_then; [apply child_answers; [by destruct Hop|least]|]. intros array [Ha Hi].
    eapply answers_then; [by apply (inside_trans p op); [..|rewrite Ha; reason]|]. by intros [values d] _.
  - pose proof (filter_count source Rsum_expr op (proj1 Hop)) as Hcount. rewrite Hr in Hcount.
    assert (forall c, c ∈ filter (fun c => p_rule c = Rsum_expr) (p_inner op) -> fine (rec c)) as Hrec.
    { intros c [Hc Hi]%(filter_inside source _ _ _ (proj1 Hop)). apply (inside_trans p op); [done..|rewrite Hc; reason]. }
    destruct (filter _ (p_inner op)) as [|low [|high l]]; [vm_compute in Hcount; lia..|].
    cbn [head tail or_invalid mbind result_bind].
    eapply answers_then; [apply Hrec; set_solver|]. intros [? ?] _.
    eapply answers_then; [apply Hrec; set_solver|]. by intros [? ?] _.
Qed.

Lemma elements_fine {S} p (f : S -> Pair -> result fault S) s : conforms source p ->
  (forall s c, c ∈ p_inner p -> fine (f s c)) -> fine (try_for f s (p_inner p)).
Proof. intros Hp Hf. apply answers_try_for; [done|]. intros s' c Hc _. by apply Hf. Qed.
Lemma member_fine p s c : (pair_size p <= S n)%nat -> inside source p c -> p_rule c = Rpair -> fine (member source rec s c).
Proof.
  intros Hs Hi Hr. assert (conforms source c) as Hc by (by destruct Hi). unfold member.
  eapply answers_then; [apply head_answers; [done|least]|]. intros key _.
  apply (answers_then _ _ (fun _ => True)).
  { case_match; [|done]. eapply answers_then; [apply decode_answers|done]. }
  intros k _. eapply answers_then; [apply child_answers; [done|least]|]. intros e [He Hie].
  eapply answers_then; [by apply (inside_trans p c); [..|rewrite He; reason]|]. by intros [value d] _.
Qed.

Lemma not_expr_last p : conforms source p -> p_rule p = Rnot_expr ->
  exists c, last (p_inner p) = Some c /\ p_rule c = Rcomparison /\ inside source p c.
Proof.
  intros Hp Hr. assert (exists k c, p_inner p = k ++ [c] /\ p_rule c = Rcomparison) as (k & c & Hin & Hc).
  { destruct Hp as [Hh _ _]. rewrite Hr in Hh. destruct Hh as (k & m & Hl & _ & (m1 & m2 & -> & Hm1 & Hm2)).
    cbn in Hm1, Hm2. subst. cbn in Hl. apply fmap_app_inv in Hl as (k1 & k2 & _ & Hk2 & Hin).
    destruct k2 as [|c [|? ?]]; try done. injection Hk2 as Hc. eauto. }
  exists c. rewrite Hin, last_snoc. split; [done|]. split; [done|]. apply inner_inside; [done|]. rewrite Hin. set_solver.
Qed.

Lemma function_args_fine p s : conforms source p -> p_rule p = Rfunction -> (pair_size p <= S n)%nat ->
  fine (try_for (argument rec) s
    match List.find (is_rule Rfunction_args) (p_inner p) with Some a => p_inner a | None => [] end).
Proof.
  intros Hp Hr Hs. destruct (List.find _ _) as [a|] eqn:Hf; [|done]. apply find_some in Hf as [Ha Har].
  apply bool_decide_eq_true in Har. apply list_elem_of_In in Ha. pose proof (inner_inside _ _ _ Hp Ha) as Hia.
  apply elements_fine; [by destruct Hia|]. intros s' c Hc.
  assert (inside source a c) as Hic by (apply inner_inside; [by destruct Hia|done]).
  unfold argument. destruct s' as [[arguments d] star]. destruct (is_rule Rstar c) eqn:Hst; [done|].
  apply bool_decide_eq_false in Hst. eapply answers_then; [apply (inside_trans p a); [done..|]|by intros [value depth] _].
  destruct Hic as (_ & _ & Hm). rewrite Har in Hm. apply (sub_elem _ (Rstar :: expr_rules)) in Hm; [|by vm_compute].
  by apply elem_of_cons in Hm as [|].
Qed.

Lemma expression_node_fine p : conforms source p -> p_rule p ∈ expr_rules -> (pair_size p <= S n)%nat ->
  fine (expression_node source rec p).
Proof.
  intros Hp Hr Hs. unfold expression_node. apply (bool_decide_eq_true_2 (p_rule p ∈ expr_rules)) in Hr.
  destruct (p_rule p) eqn:Hrule; try (exfalso; vm_compute in Hr; discriminate Hr); clear Hr.
  - eapply answers_then; [apply head_answers; [done|least]|]. intros c Hc. apply (rec_inside p); [done..|].
    destruct Hc as (_ & _ & Hm). among.
  - apply (chain_fine p Ror_op [Rand_expr] (Sh Rand_expr)); [done..|by rewrite Hrule|intros l; apply holds_rule; reason|reason|done].
  - apply (chain_fine p Rand_op [Rnot_expr] (Sh Rnot_expr)); [done..|by rewrite Hrule|intros l; apply holds_rule; reason|reason|done].
  - destruct (not_expr_last p Hp Hrule) as (c & -> & Hc & Hi). cbn [or_invalid mbind result_bind].
    eapply answers_then; [apply (rec_inside p); [done..|rewrite Hc; reason]|]. intros [value d] _. apply not_chain_fine.
  - destruct (comparison_parts p Hp Hrule) as (first & rest & Hin & Hf & Hrest).
    assert (forall c, c ∈ first :: rest -> inside source p c) as Hi by (intros c; rewrite <- Hin; by apply inner_inside).
    rewrite Hin. cbn [head tail or_invalid mbind result_bind].
    eapply answers_then; [apply (rec_inside p); [done|apply Hi; set_solver|rewrite Hf; reason]|]. intros [lhs d] _.
    destruct rest as [|op parts]; [done|].
    eapply answers_then; [apply (compare_with_fine p); [done|apply Hi; set_solver|]|intros [v d'] _; apply checked_fine].
    destruct Hrest as [?|[(op' & x & [= -> ->] & Ho & Hx)|(op' & [= -> ->] & Ho)]]; [done| |by right].
    left. exists x. split; [done|]. split; [done|]. split; [done|]. apply Hi. set_solver.
  - apply (chain_fine p Rsum_op [Rterm] (Sh Rterm)); [done..|by rewrite Hrule|intros l; apply holds_rule; reason|reason|done].
  - apply (chain_fine p Rmul_op atom_rules atom); [done..|by rewrite Hrule| |reason|done].
    intros l. apply holds_alt. done.
  - eapply answers_then; [apply child_answers; [done|least]|]. intros c [Hc Hi].
    eapply answers_then; [apply (rec_inside p); [done..|rewrite Hc; reason]|]. intros [e d] _. apply checked_fine.
  - eapply answers_then; [apply child_answers; [done|least]|]. intros c _.
    eapply answers_then; [by apply function_args_fine|]. intros [[arguments d] star] _. apply checked_fine.
  - apply checked_fine.
  - apply checked_fine.
  - apply checked_fine.
  - eapply answers_then; [apply elements_fine; [done|]|intros [values d] _; apply checked_fine].
    intros s c Hc. apply (inner_inside source) in Hc; [|done]. unfold element.
    eapply answers_then; [apply (rec_inside p); [done..|]|by intros [value d] _].
    destruct Hc as (_ & _ & Hm). among.
  - eapply answers_then; [apply elements_fine; [done|]|intros [values d] _; apply checked_fine].
    intros s c Hc. apply (inner_inside source) in Hc; [|done]. apply (member_fine p); [done..|].
    destruct Hc as (_ & _ & Hm). apply list_elem_of_singleton. among.
  - eapply answers_then; [by apply str_tail_answers|]. intros s _. apply checked_fine.
  - eapply answers_then; [apply decode_answers|]. intros s _. apply checked_fine.
  - eapply answers_then; [by apply number_answers|]. intros k _. apply checked_fine.
Qed.
End Expressions.

Lemma expression_fuel_fine `{JsonText} source fuel p : conforms source p -> p_rule p ∈ expr_rules ->
  (pair_size p <= fuel)%nat -> answers (expression_fuel source fuel p) (fun _ => True).
Proof.
  revert p; induction fuel as [|fuel IH]; intros p Hp Hr Hs; [destruct p; cbn in Hs; lia|].
  cbn [expression_fuel]. by apply (expression_node_fine source fuel); [intros c ???; apply IH| | |].
Qed.
Lemma expression_fine `{JsonText} source p : conforms source p -> p_rule p ∈ expr_rules ->
  answers (expression source p) (fun _ => True).
Proof. intros. by apply expression_fuel_fine. Qed.

(** ** The production tree is the parse tree *)

Fixpoint production (source : string) (p : Pair) : SyntaxNode :=
  {| sn_kind := p_rule p : @SyntaxKind hql2_grammar; sn_span := span p;
     sn_text := match p_inner p with [] => Some (as_str source p) | _ :: _ => None end;
     sn_children := map (production source) (p_inner p) |}.

Lemma traverse_production {E} source (f : Pair -> result E SyntaxNode) l :
  (forall c, c ∈ l -> f c = Ok (production source c)) -> traverse f l = Ok (map (production source) l).
Proof.
  induction l as [|c l IH]; intros Hf; [done|]. cbn [traverse map]. rewrite Hf by apply list_elem_of_here.
  cbn. rewrite IH; [done|]. intros d Hd. apply Hf. by apply list_elem_of_further.
Qed.
Lemma pair_size_pos p : (0 < pair_size p)%nat.
Proof. destruct p; cbn; lia. Qed.
Lemma tree_visit_lt source p d cs b : tree_visit source p d = Ok (inr (cs, b)) ->
  (list_sum (map pair_size cs) < pair_size p)%nat.
Proof. intros [= <- <-]. destruct p; cbn. lia. Qed.
Lemma tree_finish_frame source p d cs b vs st : tree_visit source p d = Ok (inr (cs, b)) -> length vs = length cs ->
  tree_finish b (rev vs ++ st) = (fun v => v :: st) <$> build_one tree_finish Panicked b vs.
Proof.
  intros [= <- <-] Hl. unfold build_one, tree_finish. cbn [fst snd]. rewrite take_results_rev by done.
  rewrite <- (app_nil_r (rev vs)), take_results_rev by done. done.
Qed.
Lemma tree_walk source p d : walk_rec (tree_visit source) tree_finish pair_size Panicked p d = Ok (production source p).
Proof.
  revert d; induction p as [p IH] using (Nat.measure_induction _ pair_size). intros d.
  rewrite walk_rec_eq by eauto using tree_visit_lt, pair_size_pos. cbn [tree_visit].
  rewrite (traverse_production source) by (intros c Hc; apply IH; by apply inner_size).
  cbn [mbind result_bind]. unfold build_one, tree_finish. cbn [fst snd].
  rewrite <- (app_nil_r (rev _)), take_results_rev by (by rewrite length_map). by destruct p.
Qed.
Lemma syntax_tree_exact source p : syntax_tree source p = Ok (production source p).
Proof.
  unfold syntax_tree. rewrite (stack_walk_eq _ _ pair_size Panicked).
  - cbn. by rewrite tree_walk.
  - apply tree_visit_lt.
  - apply pair_size_pos.
  - apply tree_finish_frame.
  - lia.
Qed.

(** ** Patterns, sources and stages *)

Section Queries.
Context `{JsonText}.
Variable source : string.
Notation fine m := (answers m (fun _ => True)).
Implicit Types (p c : Pair).

Lemma rule_true r p : is_rule r p = true <-> p_rule p = r.
Proof. apply bool_decide_eq_true. Qed.
Lemma expression_of_fine p : conforms source p -> p_rule p ∈ expr_rules -> fine (expression_of source p).
Proof. intros Hp Hr. pose proof (expression_fine source p Hp Hr) as He. unfold expression_of. by destruct (expression source p). Qed.
Lemma expr_fine p : conforms source p -> p_rule p = Rexpr -> fine (expression_of source p).
Proof. intros Hp Hr. apply expression_of_fine; [done|]. rewrite Hr. reason. Qed.

Lemma child_expression_fine p : conforms source p -> (0 < least Rexpr (grammar (p_rule p)))%nat -> fine (child_expression source p).
Proof.
  intros Hp Hl. eapply answers_then; [by apply child_answers|]. intros e [He [Hc _]]. by apply expr_fine.
Qed.
Lemma child_unsigned_fine p : conforms source p -> (0 < least Runsigned (grammar (p_rule p)))%nat -> fine (child_unsigned source p).
Proof.
  intros Hp Hl. eapply answers_then; [by apply child_answers|]. intros u [Hu [Hc _]]. by apply unsigned_answers.
Qed.

Lemma pattern_field_fine p : conforms source p -> p_rule p = Rpair -> fine (pattern_field source p).
Proof.
  intros Hp Hr. eapply answers_then; [apply head_answers; [done|least]|]. intros key _.
  apply (answers_then _ _ (fun _ => True)); [case_match; [apply decode_answers|done]|]. intros k _.
  eapply answers_then; [apply child_answers; [done|least]|]. intros e [He [Hc _]].
  eapply answers_then; [by apply expr_fine|done].
Qed.
Lemma node_field_fine s p : conforms source p -> fine (node_field source s p).
Proof.
  intros Hp. unfold node_field. destruct (is_rule Rpair p) eqn:Hr; [|done]. apply rule_true in Hr. cbn [negb].
  eapply answers_then; [by apply pattern_field_fine|]. intros [key value] _. destruct s as [id properties].
  repeat case_match; try done; apply answers_invalid; reason.
Qed.
Lemma edge_field_fine s p : conforms source p -> fine (edge_field source s p).
Proof.
  intros Hp. unfold edge_field. destruct (is_rule Rpair p) eqn:Hr; [|done]. apply rule_true in Hr. cbn [negb].
  eapply answers_then; [by apply pattern_field_fine|]. intros [key value] _.
  case_match; [apply answers_invalid; reason|done].
Qed.
Lemma inner_fine {S} p (f : S -> Pair -> result fault S) s : conforms source p ->
  (forall s c, inside source p c -> fine (f s c)) -> fine (try_for f s (p_inner p)).
Proof. intros Hp Hf. apply answers_try_for; [done|]. intros s' c Hc _. apply Hf. by apply inner_inside. Qed.
Lemma node_part_fine s p : conforms source p -> fine (node_part source s p).
Proof.
  intros Hp. unfold node_part. destruct (p_rule p) eqn:Hr; try done.
  - eapply answers_then; [apply inner_fine; [done|]|by intros [id properties] _].
    intros s' c [Hc _]. by apply node_field_fine.
  - repeat case_match; try done; apply answers_invalid; reason.
Qed.
Lemma pattern_node_fine p : conforms source p -> fine (pattern_node source p).
Proof.
  intros Hp. eapply answers_then; [apply inner_fine; [done|]|done]. intros s c [Hc _]. by apply node_part_fine.
Qed.
Lemma edge_part_fine pattern s p : conforms source p -> fine (edge_part source pattern s p).
Proof.
  intros Hp. unfold edge_part. destruct (p_rule p) eqn:Hr; try done; [| |by case_match].
  - apply (answers_then _ _ (fun bs => length bs = length (p_inner p))).
    + apply answers_traverse. intros c _. apply answers_or_invalid. case_match; [done|reason].
    + intros bs Hbs. destruct Hp as [Hh _ _]. rewrite Hr in Hh. destruct Hh as (k & m & Hl & -> & (k2 & m2 & -> & -> & ->)).
      apply (f_equal length) in Hl. rewrite length_fmap in Hl. rewrite <- Hbs in Hl.
      by destruct bs as [|? [|? [|? ?]]].
  - eapply answers_then; [apply inner_fine; [done|]|done]. intros s' c [Hc _]. by apply edge_field_fine.
Qed.
Lemma expand_edge_fine pattern p : conforms source p -> fine (expand_edge source pattern p).
Proof.
  intros Hp. apply (answers_then _ _ (fun _ => True)).
  - destruct (List.find _ _) as [detail|] eqn:Hf; [|done]. apply find_some in Hf as [Hd _].
    apply list_elem_of_In in Hd. apply (inner_inside source) in Hd as [Hd _]; [|done].
    apply inner_fine; [done|]. intros s c [Hc _]. by apply edge_part_fine.
  - intros s _. case_match; [apply answers_invalid; reason|done].
Qed.
Definition steps_made (parts : list Pair) (steps : option (list GraphSequenceStep)) : Prop :=
  (2 <= length parts)%nat -> steps <> Some [].
Lemma path_steps_fine pattern parts : (forall c, c ∈ parts -> conforms source c) ->
  answers (path_steps source pattern parts) (steps_made parts).
Proof.
  induction parts as [parts IH] using (Nat.measure_induction _ length).
  destruct parts as [|edge [|node parts]]; intros Hin; cbn [path_steps]; [by intros ?; cbn in *; lia..|].
  eapply answers_then; [apply pattern_node_fine, Hin; set_solver|]. intros [end_node|] _; [|done].
  eapply answers_then; [apply expand_edge_fine, Hin; set_solver|]. intros e _.
  eapply answers_then; [apply IH; [cbn; lia|intros c Hc; apply Hin; set_solver]|]. by intros [steps|] _.
Qed.
Lemma path_parts_inner pattern parts : path_parts pattern = Some parts -> parts = p_inner pattern /\ (3 <= length parts)%nat.
Proof. unfold path_parts. repeat case_match; intros; simplify_eq. split; [done|]. apply orb_false_iff in H0 as [[H0 _]%orb_false_iff _]. apply Nat.ltb_ge in H0. lia. Qed.

Lemma path_start pattern start parts : conforms source pattern -> path_parts pattern = Some (start :: parts) ->
  conforms source start /\ (forall c, c ∈ parts -> conforms source c) /\ (2 <= length parts)%nat.
Proof.
  intros Hp [Hin Hl]%path_parts_inner. cbn [length] in Hl.
  assert (forall c, c ∈ start :: parts -> conforms source c) as Hc.
  { intros c Hc. rewrite Hin in Hc. by apply (inner_inside source) in Hc as [Hc _]. }
  split; [apply Hc, list_elem_of_here|]. split; [|lia]. intros c Hcp. apply Hc. by apply list_elem_of_further.
Qed.
Lemma expand_stage_fine p : conforms source p -> p_rule p = Rexpand_stage -> fine (expand_stage source p).
Proof.
  intros Hp Hr. eapply answers_then; [apply child_answers; [done|least]|]. intros pattern [_ [Hc _]].
  destruct (path_parts pattern) as [[|start parts]|] eqn:Hpp; [done| |done].
  destruct (path_start _ _ _ Hc Hpp) as (Hs & Hps & Hl).
  eapply answers_then; [by apply pattern_node_fine|]. intros [st|] _; [|done].
  destruct (path_options source p) as [[path_alias mode] ?].
  eapply answers_then; [by apply path_steps_fine|]. intros [steps|] Hst; [|done]. cbv zeta. case_match; [done|].
  specialize (Hst Hl). apply (answers_then _ _ (fun _ => True)); [|done]. apply answers_or_some.
  destruct (last steps) as [step|] eqn:Hlast; [eauto|]. by apply last_None in Hlast as ->.
Qed.
Lemma match_source_fine p : conforms source p -> p_rule p = Rmatch_source -> fine (match_source source p).
Proof.
  intros Hp Hr. eapply answers_then; [apply child_answers; [done|least]|]. intros pattern [_ [Hc _]].
  destruct (path_parts pattern) as [[|start parts]|] eqn:Hpp; [done| |done].
  destruct (path_start _ _ _ Hc Hpp) as (Hs & Hps & Hl).
  eapply answers_then; [by apply pattern_node_fine|]. intros [st|] _; [|done].
  eapply answers_then; [by apply path_steps_fine|]. intros [steps|] _; [|done].
  by destruct (path_options source p) as [[path_alias mode] ?].
Qed.

Lemma select_list_fine p : conforms source p -> p_rule p = Rselect_list -> fine (select_list source p).
Proof.
  intros Hp Hr. eapply answers_weaken; [apply answers_traverse|done]. intros item Hi.
  apply (inner_inside source) in Hi as (Hi & _ & Hm); [|done]. unfold select_item.
  assert (p_rule item = Rselect_item) as Hri by (apply list_elem_of_singleton; among).
  destruct (existsb _ _) eqn:Hex; [done|].
  assert (exists e, List.find (is_rule Rexpr) (p_inner item) = Some e /\ p_rule e = Rexpr /\ conforms source e) as (e & He & Hre & Hce).
  { destruct Hi as [Hh _ Hc]. rewrite Hri in Hh. destruct Hh as [Hstar|(k & m & Hl & Hk & _)].
    - destruct (p_inner item) as [|c [|? ?]]; try done. injection Hstar as Hstar. cbn in Hex.
      rewrite orb_false_r in Hex. apply bool_decide_eq_false in Hex. done.
    - cbn in Hk. subst k. destruct (p_inner item) as [|c l]; [done|]. injection Hl as Hl _. exists c. cbn.
      unfold is_rule. rewrite bool_decide_eq_true_2 by done. split; [done|]. split; [done|]. apply Hc. set_solver. }
  unfold child. rewrite He. cbn. eapply answers_then; [by apply expr_fine|done].
Qed.

Lemma names_answers p k (Q : Name -> Prop) reason : conforms source p -> (k < least Rname (grammar (p_rule p)))%nat ->
  (forall a, Q a) -> answers (or_invalid source (names_of source p !! k) p reason) Q.
Proof.
  intros Hp Hk HQ. pose proof (names_count source p Hp). apply answers_or_some.
  destruct (lookup_lt_is_Some_2 (names_of source p) k ltac:(lia)) as [a ->]. eauto.
Qed.
Lemma three_names_fine p one two three : conforms source p -> (3 <= least Rname (grammar (p_rule p)))%nat ->
  fine (three_names source p one two three).
Proof.
  intros Hp Hl. unfold three_names.
  do 3 (apply (answers_then _ _ (fun _ => True)); [apply names_answers; [done|lia|done]|intros ? _]). done.
Qed.
Ltac names := apply (answers_then _ _ (fun _ => True)); [apply names_answers; [done|least|done]|intros ? _].
Lemma join_stage_fine p : conforms source p -> p_rule p = Rjoin_stage -> fine (join_stage source p).
Proof.
  intros Hp Hr. unfold join_stage. names. names. apply (answers_then _ _ (fun _ => True)).
  - destruct (List.find _ _) as [k|] eqn:Hf; [|done]. cbn. apply find_some in Hf as [Hk Hkr].
    apply rule_true in Hkr. apply list_elem_of_In in Hk. apply (inner_inside source) in Hk as [Hk _]; [|done].
    destruct (p_inner k) as [|m l] eqn:Hin; [done|]. cbn.
    assert (inside source k m) as (_ & _ & Hm) by (apply inner_inside; [done|rewrite Hin; set_solver]).
    rewrite Hkr in Hm. cbn in Hm. rewrite !elem_of_cons, elem_of_nil in Hm.
    destruct Hm as [->|[->|[->|[->|[]]]]]; done.
  - intros kind _. eapply answers_then; [apply child_expression_fine; [done|least]|done].
Qed.
Lemma ann_stage_fine p : conforms source p -> p_rule p = Rann_stage -> fine (ann_stage source p).
Proof. intros Hp Hr. unfold ann_stage. names. names. done. Qed.
Lemma knn_stage_fine p : conforms source p -> p_rule p = Rknn_stage -> fine (knn_stage source p).
Proof.
  intros Hp Hr. eapply answers_then; [apply three_names_fine; [done|least]|]. intros [[entity collection] alias] _.
  eapply answers_then; [apply child_answers; [done|least]|]. intros mode [Hm [Hc _]].
  eapply answers_then; [apply head_answers; [done|least]|]. intros m _.
  eapply answers_then; [apply child_expression_fine; [done|least]|]. intros q _.
  eapply answers_then; [apply child_unsigned_fine; [done|least]|done].
Qed.
Lemma rerank_stage_fine p : conforms source p -> p_rule p = Rrerank_stage -> fine (rerank_stage source p).
Proof.
  intros Hp Hr. eapply answers_then; [apply three_names_fine; [done|least]|]. intros [[entity collection] alias] _.
  eapply answers_then; [apply child_expression_fine; [done|least]|]. intros q _.
  eapply answers_then; [apply child_unsigned_fine; [done|least]|done].
Qed.
Lemma pack_stage_fine p : conforms source p -> p_rule p = Rpack_stage -> fine (pack_stage source p).
Proof.
  intros Hp Hr. eapply answers_then; [apply child_answers; [done|least]|]. intros t _.
  eapply answers_then; [apply child_expression_fine; [done|least]|]. intros text _.
  pose proof (filter_count source Rexpr p Hp) as Hcount. rewrite Hr in Hcount. vm_compute least in Hcount.
  apply (answers_then _ _ (fun e => e ∈ filter (fun c => p_rule c = Rexpr) (p_inner p))).
  { apply answers_or_some. destruct (lookup_lt_is_Some_2 _ 1%nat Hcount) as [e He]. rewrite He. exists e.
    split; [done|]. by eapply list_elem_of_lookup_2. }
  intros e [He [Hc _]]%(filter_inside source _ _ _ Hp).
  eapply answers_then; [by apply expr_fine|]. intros evidence _.
  eapply answers_then; [apply child_unsigned_fine; [done|least]|]. intros tokens _.
  eapply answers_then; [apply decode_answers|]. intros tokenizer _.
  eapply answers_then; [apply child_answers; [done|least]|done].
Qed.

(** A production without a choice *)
Fixpoint fixed (s : content) : option (list Rule) :=
  match s with
  | Sh r => Some [r]
  | Nothing => Some []
  | Seq a b => k ← fixed a; m ← fixed b; Some (k ++ m)
  | _ => None
  end.
Lemma holds_fixed s l l' : holds s l -> fixed s = Some l' -> l = l'.
Proof.
  revert l l'; induction s as [r'| |a IHa b IHb|a IHa b IHb|a IHa|a IHa]; intros l l'; cbn [holds fixed]; try done;
    [congruence..|]. intros (k & m & -> & Hk & Hm).
  destruct (fixed a) as [k'|]; [|done]. destruct (fixed b) as [m'|]; [|done]. cbn. intros [= <-].
  by rewrite (IHa k k'), (IHb m m').
Qed.
Lemma names_length p : length (names_of source p) = count Rname (p_rule <$> p_inner p).
Proof.
  unfold names_of, count. rewrite length_fmap. induction (p_inner p) as [|c l IH]; [done|].
  rewrite fmap_cons, !filter_cons. repeat case_decide; cbn; congruence.
Qed.
Lemma lexical_stage_fine p : conforms source p -> p_rule p = Rlexical_stage -> fine (lexical_stage source p).
Proof.
  intros Hp Hr. unfold lexical_stage. assert (length (names_of source p) = 4%nat) as Hl.
  { rewrite names_length. destruct Hp as [Hh _ _]. rewrite Hr in Hh. erewrite (holds_fixed _ _ _ Hh) by done. done. }
  destruct (names_of source p) as [|entity [|field [|index [|alias [|? ?]]]]]; try done.
  eapply answers_then; [apply child_expression_fine; [done|least]|]. intros q _.
  eapply answers_then; [apply child_unsigned_fine; [done|least]|done].
Qed.
Lemma aggregate_stage_fine p : conforms source p -> p_rule p = Rgroup_stage \/ p_rule p = Raggregate_stage ->
  fine (aggregate_stage source p).
Proof.
  intros Hp Hr. unfold aggregate_stage. pose proof (filter_count source Rselect_list p Hp) as Hcount.
  assert (forall c, c ∈ filter (fun c => p_rule c = Rselect_list) (p_inner p) -> fine (select_list source c)) as Hlist.
  { intros c [Hc [Hcc _]]%(filter_inside source _ _ _ Hp). by apply select_list_fine. }
  destruct Hr as [Hr|Hr]; rewrite Hr in Hcount; vm_compute least in Hcount; unfold is_rule; rewrite Hr.
  - rewrite bool_decide_eq_true_2 by done.
    destruct (filter _ (p_inner p)) as [|a [|b l]]; [cbn in Hcount; lia..|]. cbn [head tail or_invalid mbind result_bind].
    eapply answers_then; [apply Hlist; set_solver|]. intros g _. eapply answers_then; [apply Hlist; set_solver|done].
  - rewrite bool_decide_eq_false_2 by done.
    destruct (filter _ (p_inner p)) as [|a l]; [cbn in Hcount; lia|]. cbn [head or_invalid mbind result_bind].
    eapply answers_then; [apply Hlist; set_solver|done].
Qed.
Lemma order_item_fine p : conforms source p -> p_rule p = Rorder_item -> fine (order_item source p).
Proof.
  intros Hp Hr. eapply answers_then; [apply child_expression_fine; [done|least]|]. intros e _.
  by destruct (foldl _ _ _).
Qed.
Lemma unsupported_stage_fine p : fine (unsupported_stage source p).
Proof. unfold unsupported_stage. by rewrite syntax_tree_exact. Qed.
Lemma unsupported_source_fine p : fine (unsupported_source source p).
Proof. unfold unsupported_source. by rewrite syntax_tree_exact. Qed.

Lemma stage_fine p : conforms source p -> fine (stage source p).
Proof.
  intros Hp. apply (answers_then _ _ (fun _ => True)); [|done]. unfold stage_kind.
  destruct (p_rule p) eqn:Hr; try apply unsupported_stage_fine; try done;
    try (eapply answers_then; [first [apply child_expression_fine|apply child_unsigned_fine]; [done|least]|done]).
  - by apply knn_stage_fine.
  - by apply lexical_stage_fine.
  - eapply answers_then; [by apply expand_stage_fine|]. intros [s|] _; [done|apply unsupported_stage_fine].
  - by apply ann_stage_fine.
  - by apply join_stage_fine.
  - eapply answers_then; [apply child_answers; [done|least]|]. intros l [Hl [Hc _]].
    eapply answers_then; [by apply select_list_fine|done].
  - apply aggregate_stage_fine; auto.
  - apply aggregate_stage_fine; auto.
  - apply (answers_then _ _ (fun _ => True)); [|done]. eapply answers_weaken; [apply answers_traverse|done].
    intros c [Hc [Hcc _]]%(filter_inside source _ _ _ Hp). by apply order_item_fine.
  - by apply pack_stage_fine.
  - by apply rerank_stage_fine.
Qed.

Lemma remove_first_fine p k : conforms source p -> (k < least Rname (grammar (p_rule p)))%nat ->
  fine (remove_first (drop k (names_of source p))).
Proof.
  intros Hp Hl. pose proof (names_count source p Hp).
  destruct (drop k (names_of source p)) as [|a l] eqn:Hd; [|done].
  apply (f_equal length) in Hd. rewrite length_drop in Hd. cbn in Hd. lia.
Qed.
Lemma last_name_fine p q reason : conforms source p -> (0 < least Rname (grammar (p_rule p)))%nat ->
  fine (or_invalid source (last (names_of source p)) q reason).
Proof.
  intros Hp Hl. pose proof (names_count source p Hp). apply answers_or_some.
  destruct (last (names_of source p)) eqn:Hlast; [eauto|]. apply last_None in Hlast. rewrite Hlast in *. cbn in *. lia.
Qed.
Lemma history_source_fine p : conforms source p -> p_rule p = Rhistory_source ->
  fine (history_source source p (names_of source p)).
Proof.
  intros Hp Hr. eapply answers_then; [apply child_answers; [done|least]|]. intros k [Hk [Hkc _]].
  eapply answers_then; [apply head_answers; [done|least]|]. intros kind _.
  eapply answers_then; [apply child_answers; [done|least]|]. intros i [Hi [Hic _]].
  eapply answers_then; [apply head_answers; [done|least]|]. intros atom_ (Hac & _ & Hm).
  apply (answers_then _ _ (fun _ => True)).
  - rewrite Hi in Hm. cbn in Hm. rewrite !elem_of_cons, elem_of_nil in Hm. destruct Hm as [Hm|[Hm|[]]]; rewrite Hm.
    + eapply answers_then; [apply decode_answers|done].
    + eapply answers_then; [by apply str_tail_answers|done].
  - intros id _. eapply answers_then; [apply (remove_first_fine p 0); [done|least]|]. by intros [alias ?] _.
Qed.
End Queries.

(** ** Queries and statements *)

Section Statements.
Context `{JsonText}.
Variable source : string.
Notation fine m := (answers m (fun _ => True)).
Implicit Types (p c : Pair).

Section Calls.
Variable n : nat.
Variable query : Pair -> result fault HqlQuery.
Hypothesis query_fine : forall c, conforms source c -> p_rule c = Rquery_body -> (pair_size c <= n)%nat -> fine (query c).

Lemma union_source_fine p : conforms source p -> p_rule p = Runion_source -> (pair_size p <= S n)%nat ->
  fine (union_source source query p).
Proof.
  intros Hp Hr Hs. unfold union_source. pose proof (filter_count source Rquery_body p Hp) as Hcount.
  rewrite Hr in Hcount. vm_compute least in Hcount.
  assert (forall c, c ∈ filter (fun c => p_rule c = Rquery_body) (p_inner p) -> fine (query c)) as Hq.
  { intros c [Hc (Hcc & Hcs & _)]%(filter_inside source _ _ _ Hp). apply query_fine; [done..|lia]. }
  destruct (filter _ (p_inner p)) as [|lhs [|rhs l]]; [cbn in Hcount; lia..|].
  cbn [head tail or_invalid mbind result_bind].
  eapply answers_then; [apply Hq; set_solver|]. intros l1 _.
  eapply answers_then; [apply Hq; set_solver|done].
Qed.
Lemma source_node_fine p : conforms source p -> (pair_size p <= S n)%nat -> fine (source_node source query p).
Proof.
  intros Hp Hs. apply (answers_then _ _ (fun _ => True)); [|done]. unfold source_kind.
  destruct (p_rule p) eqn:Hr; try apply unsupported_source_fine.
  - eapply answers_then; [apply last_name_fine; [done|least]|done].
  - eapply answers_then; [apply last_name_fine; [done|least]|done].
  - pose proof (names_count source p Hp) as Hn. rewrite Hr in Hn. vm_compute least in Hn.
    destruct (names_of source p) as [|a [|b l]]; [cbn in Hn; lia..|done].
  - eapply answers_then; [apply (remove_first_fine source p 0); [done|least]|]. by intros [alias ?] _.
  - eapply answers_then; [by apply match_source_fine|]. intros [m|] _; [done|apply unsupported_source_fine].
  - by apply history_source_fine.
  - eapply answers_then; [apply child_answers; [done|least]|]. intros u [Hu [Huc _]].
    eapply answers_then; [by apply unsigned_answers|]. intros after_seq _.
    eapply answers_then; [apply (remove_first_fine source p 0); [done|least]|]. by intros [alias ?] _.
  - eapply answers_then; [apply child_answers; [done|least]|]. intros param [Hu [Huc _]].
    eapply answers_then; [by apply str_tail_answers|]. intros text _.
    eapply answers_then; [apply (remove_first_fine source p 0); [done|least]|]. by intros [alias ?] _.
  - by apply union_source_fine.
Qed.

Lemma scope_of_fine p : conforms source p -> p_rule p = Rscope -> fine (scope_of source p).
Proof.
  intros Hp Hr. eapply answers_then; [apply child_answers; [done|least]|]. intros name_ _.
  eapply answers_then; [apply (inner_fine source); [done|]|by intros [tx valid_at] _].
  intros s c (Hc & _ & _). unfold scope_selector. destruct (p_rule c) eqn:Hrc; try done.
  - eapply answers_then; [apply child_unsigned_fine; [done|least]|done].
  - eapply answers_then; [apply child_answers; [done|least]|]. intros text _.
    eapply answers_then; [apply decode_answers|done].
Qed.
Lemma query_part_fine s p : conforms source p -> fine (query_part source s p).
Proof.
  intros Hp. unfold query_part. destruct (is_rule Rreturn_stage p) eqn:Hr.
  - apply rule_true in Hr. eapply answers_then; [apply child_answers; [done|least]|]. intros l [Hl [Hc _]].
    eapply answers_then; [by apply select_list_fine|done].
  - eapply answers_then; [by apply stage_fine|done].
Qed.
Lemma query_node_fine p : conforms source p -> p_rule p = Rquery \/ p_rule p = Rquery_body ->
  (pair_size p <= S n)%nat -> fine (query_node source query p).
Proof.
  intros Hp Hr Hs.
  apply (answers_then _ _ (fun sb => conforms source sb.2 /\ p_rule sb.2 = Rquery_body /\ (pair_size sb.2 <= S n)%nat)).
  - destruct (is_rule Rquery p) eqn:Hq.
    + apply rule_true in Hq. apply (answers_then _ _ (fun _ => True)).
      * destruct (List.find _ _) as [item|] eqn:Hf; [|done]. apply find_some in Hf as [Hi Hir].
        apply rule_true in Hir. apply list_elem_of_In in Hi. apply (inner_inside source) in Hi as [Hi _]; [|done].
        eapply answers_then; [by apply scope_of_fine|done].
      * intros scope _. eapply answers_then; [apply child_answers; [done|least]|].
        intros body (Hb & Hbc & Hbs & _). cbn. split; [done|]. split; [done|lia].
    + apply bool_decide_eq_false in Hq. destruct Hr as [Hr|Hr]; [done|]. by cbn.
  - intros [scope body] (Hb & Hbr & Hbs). cbn [snd] in *.
    eapply answers_then; [apply head_answers; [done|least]|]. intros first (Hfc & Hfs & _).
    eapply answers_then; [apply source_node_fine; [done|lia]|]. intros s _.
    eapply (answers_then _ _ (fun _ => True)); [|by intros [stages returning] _].
    apply answers_try_for; [done|]. intros s' c Hc _. apply query_part_fine.
    assert (c ∈ p_inner body) as Hci.
    { destruct (p_inner body) as [|d l]; [done|]. by apply list_elem_of_further. }
    by apply (inner_inside source) in Hci as [Hci _].
Qed.
End Calls.

Lemma query_fuel_fine fuel p : conforms source p -> p_rule p = Rquery \/ p_rule p = Rquery_body ->
  (pair_size p <= fuel)%nat -> fine (query_fuel source fuel p).
Proof.
  revert p; induction fuel as [|fuel IH]; intros p Hp Hr Hs; [pose proof (pair_size_pos p); lia|].
  cbn [query_fuel]. apply (query_node_fine fuel); [|done..]. intros c Hc Hcr Hcs. apply IH; auto.
Qed.
Lemma query_fine p : conforms source p -> p_rule p = Rquery -> fine (query source p).
Proof. intros. apply query_fuel_fine; auto. Qed.

Lemma validate_node_fine p within : conforms source p -> fine (validate_node source p within).
Proof.
  intros Hp. unfold validate_node. destruct (p_rule p) eqn:Hr; try done.
  - destruct within; [done|]. eapply answers_then; [apply expression_fine; [done|rewrite Hr; reason]|done].
  - eapply answers_then; [apply decode_answers|done].
  - eapply answers_then; [apply uint_answers|done].
  - eapply answers_then; [by apply number_answers|done].
Qed.
Lemma validate_loop_fine fuel pending count : (forall c b, (c, b) ∈ pending -> conforms source c) ->
  0 <= count <= 10000 -> 10000 - count < Z.of_nat fuel -> fine (validate_loop source fuel pending count).
Proof.
  revert pending count; induction fuel as [|fuel IH]; intros pending count Hp Hc Hf; [lia|]. cbn [validate_loop].
  destruct pending as [|[node within] pending]; [done|]. unfold MAX_NODES.
  destruct (Z.ltb_spec 10000 (count + 1)); [apply answers_invalid; reason|].
  assert (conforms source node) as Hn by (eapply Hp, list_elem_of_here).
  eapply answers_then; [by apply validate_node_fine|]. intros _ _. apply IH; [|lia..].
  intros c b [Hcb|Hcb]%elem_of_app; [|by eapply Hp, list_elem_of_further].
  apply list_elem_of_In, in_rev, list_elem_of_In in Hcb. apply list_elem_of_fmap in Hcb as (d & [= -> ->] & Hd).
  by apply (inner_inside source) in Hd as [Hd _].
Qed.
Lemma validate_tree_fine p : conforms source p -> fine (validate_tree source p).
Proof.
  intros Hp. unfold validate_tree. apply validate_loop_fine; [|lia|].
  - intros c b Hcb. apply list_elem_of_singleton in Hcb. by injection Hcb as -> ->.
  - unfold MAX_NODES. lia.
Qed.
End Statements.

(** ** Every error of the call *)

Definition budget_reasons : list string :=
  ["parser_work_limit"; "parser_memory_profile"; "parser_stack_unavailable"]%string.
Definition visible (e : QueryErrorV2) : Prop :=
  qe_code e = "HQL_PARSE_ERROR"%string /\
    qe_reason e ∈ caller_reasons ++ ["source_length"; "syntax_depth_exceeded"; "unbalanced_delimiter"; "invalid_syntax"]%string
  \/ qe_code e = "QUERY_BUDGET_EXCEEDED"%string /\ qe_reason e ∈ budget_reasons.

Lemma visible_parse source offset reason :
  reason ∈ caller_reasons ++ ["source_length"; "syntax_depth_exceeded"; "unbalanced_delimiter"; "invalid_syntax"]%string ->
  visible (parse_error source offset reason).
Proof. intros. by left. Qed.
Lemma scan_step_visible source s b e : scan_step source s b = Err e -> visible e.
Proof.
  unfold scan_step, count_unit, work_error. repeat case_match; cbn [mbind result_bind]; intros; simplify_eq;
    try (apply visible_parse; reason); right; (split; [done|reason]).
Qed.
Lemma preflight_visible source e : preflight source = Err e -> visible e.
Proof.
  unfold preflight, preflight_run. destruct (source_too_long source).
  { intros [= <-]. apply visible_parse. reason. }
  generalize (S (str_len source)) scan_start. intros fuel s.
  destruct (scan_loop source fuel s) as [[s'|e']|] eqn:Hl; cbn [mbind option_bind default result_bind].
  - unfold id, scan_resources. repeat case_match; intros; simplify_eq;
      first [apply visible_parse; reason|right; split; [done|reason]].
  - intros [= ->]. revert s Hl; induction fuel as [|fuel IH]; intros s; cbn [scan_loop]; [done|].
    destruct (_ !! _) as [b|]; [|done]. destruct (scan_step source s b) as [s1|e1] eqn:Hs; [apply IH|].
    intros [= ->]. by eapply scan_step_visible.
  - intros [= <-]. apply visible_parse. reason.
Qed.

Section Whole.
Context `{JsonText, Pest}.
(** What pest promises of the parser it generates: the trees are those of the grammar. *)
Hypothesis pest_conforms : forall source pairs, pest_parse source = Ok pairs ->
  exists root rest, pairs = root :: rest /\ p_rule root = Rstart /\ conforms source root.

Lemma start_statement source root : conforms source root -> p_rule root = Rstart ->
  exists c, List.find (fun p => negb (is_rule REOI p)) (p_inner root) = Some c /\ conforms source c.
Proof.
  intros Hp Hr. destruct Hp as [Hh _ Hc]. rewrite Hr in Hh. destruct Hh as (k & m & Hl & Hk & _).
  pose proof (holds_length _ _ Hk) as Hlen. pose proof (holds_may _ _ Hk) as Hmay.
  destruct k as [|r k]; [vm_compute in Hlen; lia|]. apply Forall_cons in Hmay as [Hmay _].
  destruct (p_inner root) as [|c l]; [done|]. injection Hl as Hcr _. exists c. cbn [List.find].
  assert (is_rule REOI c = false) as ->; [|split; [done|apply Hc, list_elem_of_here]].
  apply bool_decide_eq_false. rewrite Hcr. intros ->. apply (bool_decide_eq_true_2 _) in Hmay.
  vm_compute in Hmay. discriminate.
Qed.
Definition parsed (source : string) (root : Pair) (st : Hql2Statement) : Prop :=
  st_source st = source /\ st_syntax st = production source root.
Lemma statement_of_answers source root : conforms source root -> p_rule root = Rstart ->
  answers (statement_of source root) (parsed source root).
Proof.
  intros Hp Hr. eapply answers_then; [by apply validate_tree_fine|]. intros _ _.
  destruct (start_statement source root Hp Hr) as (c & -> & Hc). cbn [mbind result_bind].
  apply (answers_then _ _ (fun _ => True)).
  - unfold statement_kind. destruct (p_rule c) eqn:Hcr; try done.
    + destruct (existsb _ _); (eapply answers_then; [apply child_answers; [done|least]|]; intros q [Hq [Hqc _]];
        eapply answers_then; [by apply query_fine|done]).
    + eapply answers_then; [by apply query_fine|done].
  - intros q _. rewrite syntax_tree_exact. cbn. done.
Qed.

(** C15: How parsing ends. A call of [parse_hql2] answers a statement that carries its source
    and the whole parse tree, or an error a caller may see: bad syntax, a literal out of range,
    a limit, or a duplicate in a pattern. The walk never meets a tree of another shape than it
    expects, and never panics. *)
Theorem parse_ends source spawned :
  match parse_hql2 source spawned with
  | Ok st => exists root rest, pest_parse source = Ok (root :: rest) /\ parsed source root st
  | Err (Refused e) => visible e
  | Err Panicked => False
  end.
Proof.
  unfold parse_hql2. destruct (preflight source) as [r|e] eqn:Hpre; [|by apply preflight_visible in Hpre].
  cbn [map_err mbind result_bind].
  assert (match parse_checked source with
          | Ok st => exists root rest, pest_parse source = Ok (root :: rest) /\ parsed source root st
          | Err (Refused e) => visible e
          | Err Panicked => False
          end) as Hchecked.
  { unfold parse_checked. destruct (pest_parse source) as [pairs|offset] eqn:Hpest; [|apply visible_parse; reason].
    destruct (pest_conforms _ _ Hpest) as (root & rest & -> & Hr & Hc).
    pose proof (statement_of_answers source root Hc Hr) as Ha. unfold answers in Ha.
    destruct (statement_of source root) as [st|[e|]]; [eauto| |done].
    left. destruct Ha as [Hcode Hreason]. split; [done|]. apply elem_of_app. by left. }
  destruct (negb (stack r =? 0)); [|done]. destruct spawned; [|right; split; [done|reason]].
  by destruct (parse_checked source) as [st|[e|]].
Qed.
End Whole.

(** ** Parsing at work *)

#[local] Instance sample_json : JsonText := {| json_string_decode s := Some s |}.

(** Pairs with the given span *)
Definition pr (r : Rule) (a b : Z) (l : list Pair) : Pair := MkPair r a b l.
Definition keyword (k : string) (a b : Z) : Pair := pr (Rk k) a b [].
(** The expression that is one atom *)
Definition atom_expr (a b : Z) (p : Pair) : Pair :=
  foldr (fun r p => pr r a b [p]) p
    [Rexpr; Ror_expr; Rand_expr; Rnot_expr; Rcomparison; Rsum_expr; Rterm].

(** [FROM NODES AS n |> RETURN n] *)
Definition sample_text : string := "FROM NODES AS n |> RETURN n".
Definition sample_tree : Pair :=
  pr Rstart 0 27 [
    pr Rquery 0 27 [
      pr Rquery_body 0 27 [
        pr Rnode_source 0 15 [keyword "from" 0 4; keyword "nodes" 5 10; keyword "as" 11 13; pr Rname 14 15 []];
        pr Rreturn_stage 19 27 [
          keyword "return" 19 25;
          pr Rselect_list 26 27 [
            pr Rselect_item 26 27 [atom_expr 26 27 (pr Rfield_ref 26 27 [pr Rname 26 27 []])]]]]];
    pr REOI 27 27 []].
#[local] Instance sample_pest : Pest :=
  {| pest_parse s := if bool_decide (s = sample_text) then Ok [sample_tree] else Err 0 |}.

Lemma sample_conforms source pairs : pest_parse source = Ok pairs ->
  exists root rest, pairs = root :: rest /\ p_rule root = Rstart /\ conforms source root.
Proof.
  cbn. case_bool_decide; [|done]. intros [= <-]. exists sample_tree, []. split; [done|]. split; [done|].
  apply (well_formed_conforms _ (pair_size sample_tree)); [done|]. by vm_compute.
Qed.

Lemma parse_ends_witness :
  is_ok (parse_hql2 sample_text true) = true /\
  match parse_hql2 sample_text true with
  | Ok st => exists root rest, pest_parse sample_text = Ok (root :: rest) /\ parsed sample_text root st
  | Err (Refused e) => visible e
  | Err Panicked => False
  end.
Proof. split; [vm_compute; reflexivity|]. apply (parse_ends sample_conforms sample_text true). Defined.

(** [NOT x] is two deep, the name included. *)
Definition not_text : string := "NOT x".
Definition not_tree : Pair :=
  pr Rexpr 0 5 [pr Ror_expr 0 5 [pr Rand_expr 0 5 [pr Rnot_expr 0 5 [
    pr Rnot_op 0 3 [keyword "not" 0 3];
    pr Rcomparison 4 5 [pr Rsum_expr 4 5 [pr Rterm 4 5 [pr Rfield_ref 4 5 [pr Rname 4 5 []]]]]]]]].
Lemma parsed_depth_witness : exists e,
  expression not_text not_tree = Ok (e, 2) /\
  2 = Z.of_nat (nesting (sp_value e)) /\ 2 <= 128 /\ (syntax_depth (sp_value e) <= 128)%nat.
Proof.
  eexists. split; [vm_compute; reflexivity|].
  apply (parsed_depth not_text not_tree). vm_compute. reflexivity.
Defined.

(** ** Comments before a name

    Whether a name in a node pattern is a label is read off the text before it, of which only
    white space is cut: a comment between the colon and the label hides the colon, and a
    comment that ends in a colon makes a label of an alias. *)
Definition line_feed : string := String (byte_of 10) "".
Definition labelled (text : string) (name_at : Z) : result fault (option (list string)) :=
  option_map (fun n => map sp_value (pn_alias n :: pn_labels n)) <$>
    pattern_node text (pr Rnode_pattern 0 (Z.of_nat (str_len text)) [pr Rname name_at (name_at + 1) []]).

(** [(:T)] has no alias; with a comment before the label, the label is taken for the alias. *)
Lemma comment_hides_label :
  labelled "(:T)" 2 = Ok None /\
  labelled ("(:// x" +:+ line_feed +:+ "T)") 7 = Ok (Some ["T"%string]).
Proof. split; vm_compute; reflexivity. Qed.
(** [(a)] is a node named [a]; after a comment that ends in a colon it has no name. *)
Lemma comment_makes_label :
  labelled "(a)" 1 = Ok (Some ["a"%string]) /\
  labelled ("(// x:" +:+ line_feed +:+ "a)") 7 = Ok None.
Proof. split; vm_compute; reflexivity. Qed.
(** [(a: // x .. T)], a node with a name and a label, is refused. *)
Lemma comment_refuses_node :
  let text := ("(a:// x" +:+ line_feed +:+ "T)")%string in
  let node := pr Rnode_pattern 0 10 [pr Rname 1 2 []; pr Rname 8 9 []] in
  conforms text node /\ pattern_node text node = Err (Refused (parse_error text 8 "pattern_node_shape")).
Proof.
  split; [|vm_compute; reflexivity].
  apply (well_formed_conforms _ 3); [vm_compute; lia|]. vm_compute. reflexivity.
Qed.

(** A quoted key of an object loses its quotes, and that of a pattern keeps them. *)
Lemma pattern_key_quoted :
  let text := "`k`: null"%string in
  let field := pr Rpair 0 9 [pr Rname 0 3 []; atom_expr 5 9 (pr Rnull 5 9 [keyword "null" 5 9])] in
  (fst <$> pattern_field text field = Ok "`k`"%string) /\
  ((fun s => map (fun f => sp_value (of_key f)) s.1) <$> member text (expression text) ([], 1) field = Ok ["k"%string]).
Proof. split; vm_compute; reflexivity. Qed.
