(* ===== verification/HqlJson.v ===== *)
(** * Constant JSON of HQL2 and its size

    The reference reading of a constant, [json_value], its compact text, and the theorem
    that the two passes over constants of [src/src/query/hql2/lower.rs] accept exactly the
    constants whose text fits the limit, measuring the text without writing it. *)
From S2P Require Export HqlLowerSpec.
Local Open Scope Z_scope.

(** ** Compact text: [serde_json::to_string] *)

Definition hex_digit (d : Z) : byte := byte_of (if d <? 10 then 48 + d else 87 + d).
Definition backslashed (c : Z) : list byte := [byte_of 92; byte_of c].
Definition json_escape (c : list byte) : list byte :=
  let p := scalar_code c in
  if (p =? 34) || (p =? 92) then backslashed p
  else if p =? 8 then backslashed 98
  else if p =? 9 then backslashed 116
  else if p =? 10 then backslashed 110
  else if p =? 12 then backslashed 102
  else if p =? 13 then backslashed 114
  else if p <=? 31 then backslashed 117 ++ [byte_of 48; byte_of 48; hex_digit (p / 16); hex_digit (p mod 16)]
  else c.
Definition json_string_text (s : string) : list byte :=
  byte_of 34 :: concat (json_escape <$> chars s) ++ [byte_of 34].
Fixpoint commas (parts : list (list byte)) : list byte :=
  match parts with
  | [] => []
  | [part] => part
  | part :: parts => part ++ byte_of 44 :: commas parts
  end.

Section Constants.
Context `{NumberText}.

Fixpoint json_text (j : json) : list byte :=
  match j with
  | JNull => str_bytes "null"
  | JBool true => str_bytes "true"
  | JBool false => str_bytes "false"
  | JNumber n => str_bytes (number_text n)
  | JString s => json_string_text s
  | JArray l => byte_of 91 :: commas (map json_text l) ++ [byte_of 93]
  | JObject m =>
      byte_of 123 :: commas (map (fun kv => json_string_text kv.1 ++ byte_of 58 :: json_text kv.2) m)
        ++ [byte_of 125]
  end.

(** ** The value of a constant, and its nesting *)

Definition field_keys (fields : list ObjectField) : list string := (fun f => sp_value (of_key f)) <$> fields.
Fixpoint json_value (k : ExprKind) : option json :=
  match k with
  | HNull => Some JNull
  | HBool b => Some (JBool b)
  | HI64 z => Some (JNumber (number_of_i64 z))
  | HF64 x => JNumber <$> number_of_f64 x
  | HUtf8 s => Some (JString s)
  | HList items => JArray <$> mapM (fun e => json_value (sp_value e)) items
  | HObject fields =>
      if has_dup (field_keys fields) then None
      else
        values ← mapM (fun f => json_value (sp_value (of_expression f))) fields;
        Some (JObject (json_object (field_keys fields) values))
  | _ => None
  end.
Fixpoint json_depth (k : ExprKind) : nat :=
  S match k with
    | HList items => list_max_with (fun e => json_depth (sp_value e)) items
    | HObject fields => list_max_with (fun f => json_depth (sp_value (of_expression f))) fields
    | _ => 0%nat
    end.

(** The same, one level at a time *)
Definition json_parts (k : ExprKind) : list ExprKind :=
  match k with
  | HList items => sp_value <$> items
  | HObject fields => (fun f => sp_value (of_expression f)) <$> fields
  | _ => []
  end.
Definition json_node (k : ExprKind) (js : list json) : option json :=
  match k with
  | HNull => Some JNull
  | HBool b => Some (JBool b)
  | HI64 z => Some (JNumber (number_of_i64 z))
  | HF64 x => JNumber <$> number_of_f64 x
  | HUtf8 s => Some (JString s)
  | HList items => Some (JArray js)
  | HObject fields =>
      if has_dup (field_keys fields) then None else Some (JObject (json_object (field_keys fields) js))
  | _ => None
  end.
Lemma json_value_eq k : json_value k = (js ← mapM json_value (json_parts k); json_node k js).
Proof.
  assert (forall {A} (f : A -> ExprKind) l, mapM (fun a => json_value (f a)) l = mapM json_value (f <$> l)) as Hm.
  { intros A f l. induction l as [|a l IH]; [done|]. cbn. destruct (json_value (f a)); cbn; [|done].
    by rewrite IH. }
  destruct k; try done; cbn [json_value json_parts json_node].
  - rewrite Hm. by destruct (mapM _ _).
  - rewrite (Hm _ (fun f => sp_value (of_expression f))). destruct (has_dup _); by destruct (mapM _ _).
Qed.
Lemma json_depth_eq k : json_depth k = S (list_max_with json_depth (json_parts k)).
Proof.
  destruct k; try done; cbn [json_depth json_parts]; f_equal; unfold list_max_with;
    [induction l as [|a l IH]|induction fields as [|a l IH]]; cbn; congruence.
Qed.
Lemma json_parts_size k : (list_sum (map walk_size (json_parts k)) < walk_size k)%nat.
Proof.
  destruct k; cbn [json_parts map walk_size]; rewrite ?sum_parts, ?list_sum_nil; try lia.
  change (map walk_size ((fun f => sp_value (of_expression f)) <$> fields)) with
    (walk_size <$> ((fun f : ObjectField => sp_value (of_expression f)) <$> fields)).
  rewrite <- list_fmap_compose. unfold compose. change (list_sum (?f <$> fields)) with (list_sum (map f fields)). lia.
Qed.
Lemma json_value_Some k j : json_value k = Some j <-> exists js,
  Forall2 (fun c j => json_value c = Some j) (json_parts k) js /\ json_node k js = Some j.
Proof.
  rewrite json_value_eq. setoid_rewrite <- mapM_Some. destruct (mapM _ _) eqn:?; cbn; naive_solver.
Qed.

(** ** Bytes of a level *)

Definition json_own (k : ExprKind) : Z :=
  match k with
  | HNull | HBool true => 4
  | HBool false => 5
  | HI64 z => Z.of_nat (str_len (to_string z))
  | HF64 x => Z.of_nat (str_len (float_text x))
  | HUtf8 s => zlen (json_string_text s)
  | HList items => 2 + Z.max 0 (zlen items - 1)
  | HObject fields =>
      2 + Z.max 0 (zlen fields - 1) + zsum (map (fun key => zlen (json_string_text key) + 1) (field_keys fields))
  | _ => 0
  end.
Definition json_lens (js : list json) : Z := zsum (map (fun j => zlen (json_text j)) js).

Lemma zlen_commas l : zlen (commas l) = zsum (map zlen l) + Z.max 0 (zlen l - 1).
Proof.
  induction l as [|p [|q l] IH]; [done|cbn [map commas]; unfold zsum; cbn [foldr]; rewrite zlen_cons;
    change (@zlen (list byte) []) with 0; lia|].
  change (commas (p :: q :: l)) with (p ++ byte_of 44 :: commas (q :: l)).
  rewrite zlen_app, zlen_cons, IH. cbn [map]. unfold zsum. cbn [foldr]. rewrite !zlen_cons.
  pose proof (zlen_nonneg l). lia.
Qed.
Lemma bt_insert_fresh {V} k (v : V) m : k ∉ m.*1 -> bt_insert cmp_str k v m ≡ₚ (k, v) :: m.
Proof.
  induction m as [|[k' v'] m IH]; cbn; [done|]. rewrite not_elem_of_cons. intros [Hne Hk].
  destruct (cmp_str k k') eqn:Hc; [by apply cmp_eq in Hc; try apply _|done|].
  rewrite IH by done. constructor.
Qed.
Lemma json_object_perm keys values : NoDup keys -> length keys = length values ->
  json_object keys values ≡ₚ zip keys values.
Proof.
  unfold json_object. intros Hnd Hl.
  enough (forall l (m : btree json), NoDup (l.*1 ++ m.*1) ->
    foldl (fun m kv => bt_insert cmp_str kv.1 kv.2 m) m l ≡ₚ l ++ m) as He.
  { rewrite (He _ []), app_nil_r; [done|]. rewrite fst_zip by lia. by rewrite app_nil_r. }
  induction l as [|[k v] l IH]; intros m Hm; [done|]. cbn [foldl fst snd].
  cbn [fmap list_fmap app fst] in Hm. apply NoDup_cons in Hm as [Hk Hm].
  rewrite not_elem_of_app in Hk. destruct Hk as [Hkl Hkm].
  rewrite IH.
  - rewrite bt_insert_fresh by done. by rewrite <- Permutation_middle.
  - rewrite bt_insert_fresh by done. cbn. rewrite <- Permutation_middle. constructor; [|done].
    by rewrite not_elem_of_app.
Qed.
Definition member_text (kv : string * json) : list byte :=
  json_string_text kv.1 ++ byte_of 58 :: json_text kv.2.
Lemma members_len keys js : length keys = length js ->
  zsum (map (fun kv => zlen (member_text kv)) (zip keys js)) =
  zsum (map (fun key => zlen (json_string_text key) + 1) keys) + json_lens js.
Proof.
  unfold json_lens, zsum. revert js; induction keys as [|key keys IH]; intros [|j js]; try done.
  cbn [length zip zip_with map foldr]. intros [= Hl]. change (zip_with pair keys js) with (zip keys js).
  rewrite (IH js Hl). unfold member_text. cbn [fst snd]. rewrite zlen_app, zlen_cons. lia.
Qed.
Lemma zlen_bracketed a l b : zlen (a :: commas l ++ [b]) = 2 + zsum (map zlen l) + Z.max 0 (zlen l - 1).
Proof. rewrite zlen_cons, zlen_app, zlen_commas. change (zlen [b]) with 1. lia. Qed.
Lemma zlen_str_bytes s : zlen (str_bytes s) = Z.of_nat (str_len s).
Proof. unfold zlen. by rewrite length_str_bytes. Qed.
Lemma zlen_map {A B} (f : A -> B) l : zlen (map f l) = zlen l.
Proof. unfold zlen. by rewrite length_map. Qed.

Lemma zlen_json_node k js j : length js = length (json_parts k) -> json_node k js = Some j ->
  zlen (json_text j) = json_own k + json_lens js.
Proof.
  intros Hl Hj. destruct k as [|b|z|x|s| | |items|fields| | | | | | |]; try discriminate Hj;
    cbn [json_parts length] in Hl; try (apply nil_length_inv in Hl; subst js).
  - by injection Hj as <-.
  - injection Hj as <-. by destruct b.
  - injection Hj as <-. cbn [json_text json_own]. rewrite zlen_str_bytes.
    unfold number_of_i64, json_lens. destruct (z <? 0); cbn [number_text map zsum foldr]; lia.
  - cbn in Hj. unfold number_of_f64 in Hj. destruct (f64_is_finite x); [|done]. injection Hj as <-.
    cbn [json_text json_own number_text]. rewrite zlen_str_bytes. unfold json_lens. cbn [map zsum foldr]. lia.
  - injection Hj as <-. cbn [json_text json_own]. unfold json_lens. cbn [map zsum foldr]. lia.
  - injection Hj as <-. cbn [json_text json_own]. rewrite zlen_bracketed, zlen_map.
    unfold json_lens. rewrite map_map. unfold zlen at 2 3. rewrite Hl, length_fmap. lia.
  - cbn [json_node] in Hj. destruct (has_dup (field_keys fields)) eqn:Hd; [done|]. injection Hj as <-.
    apply has_dup_false in Hd. rewrite length_fmap in Hl.
    assert (length (field_keys fields) = length js) as Hk by (unfold field_keys; by rewrite length_fmap).
    pose proof (json_object_perm _ js Hd Hk) as Hp. cbn [json_text json_own].
    change (map _ (json_object (field_keys fields) js)) with (map member_text (json_object (field_keys fields) js)).
    rewrite zlen_bracketed, zlen_map, map_map.
    rewrite (zsum_perm _ _ (Permutation_map (fun kv => zlen (member_text kv)) Hp)), members_len by done.
    assert (zlen (json_object (field_keys fields) js) = zlen fields) as ->; [|lia].
    unfold zlen. rewrite (Permutation_length Hp), length_zip_with, Hk, Hl. lia.
Qed.

(** ** Charging *)

Lemma charge_Ok total n t : charge_json_literal_size total n = Ok t <->
  t = total + n /\ total + n <= JSON_LITERAL_LIMIT_BYTES.
Proof.
  unfold charge_json_literal_size, u64_checked_add, JSON_LITERAL_LIMIT_BYTES, u64_max.
  destruct (Z.leb_spec (total + n) (2 ^ 64 - 1)); [|split; [done|lia]].
  destruct (Z.ltb_spec (1024 * 1024) (total + n)); [split; [done|lia]|].
  split; [by intros [= <-]|by intros [-> _]].
Qed.
Lemma minimum_Ok total n : ensure_json_literal_minimum total n = Ok tt <->
  total + n <= JSON_LITERAL_LIMIT_BYTES.
Proof.
  unfold ensure_json_literal_minimum, u64_checked_add, JSON_LITERAL_LIMIT_BYTES, u64_max.
  destruct (Z.leb_spec (total + n) (2 ^ 64 - 1)); [|split; [done|lia]].
  destruct (Z.ltb_spec (1024 * 1024) (total + n)); [split; [done|lia]|done].
Qed.
Lemma charges_Ok {A} (cost : A -> Z) l total t : Forall (fun a => 0 <= cost a) l ->
  total <= JSON_LITERAL_LIMIT_BYTES ->
  try_for (fun total a => charge_json_literal_size total (cost a)) total l = Ok t <->
  t = total + zsum (map cost l) /\ t <= JSON_LITERAL_LIMIT_BYTES.
Proof.
  intros Hl. revert total; induction Hl as [|a l Ha Hl IH]; intros total Ht.
  - cbn. rewrite Z.add_0_r. split; [by intros [= <-]|by intros [-> _]].
  - rewrite try_for_cons, bind_Ok. setoid_rewrite charge_Ok. cbn [map]. unfold zsum. cbn [foldr].
    change (foldr Z.add 0 (map cost l)) with (zsum (map cost l)).
    assert (0 <= zsum (map cost l)) by (apply zsum_nonneg; by rewrite Forall_map).
    split.
    + intros (m & [-> Hm] & Hr). apply (IH _ Hm) in Hr as [-> Hr]. lia.
    + intros [-> Hr]. exists (total + cost a). split; [lia|]. apply IH; lia.
Qed.

(** The measured size of a character is the length of its escape. *)
Lemma json_char_size_escape c : json_char_size c = zlen (json_escape c).
Proof.
  unfold json_char_size, json_escape. set (p := scalar_code c). cbn [existsb].
  repeat match goal with |- context [p =? ?n] => destruct (p =? n) end; try done.
  by destruct (p <=? 31).
Qed.
Lemma string_charge_Ok total s t : charge_json_string_size total s = Ok t <->
  t = total + zlen (json_string_text s) /\ t <= JSON_LITERAL_LIMIT_BYTES.
Proof.
  assert (zlen (json_string_text s) = 2 + zsum (map json_char_size (chars s))) as ->.
  { unfold json_string_text. rewrite zlen_cons, zlen_app. change (zlen [byte_of 34]) with 1.
    enough (forall l, zlen (concat (json_escape <$> l)) = zsum (map json_char_size l)) as -> by lia.
    induction l as [|c l IH]; [done|]. cbn [fmap list_fmap concat map]. unfold zsum. cbn [foldr].
    by rewrite zlen_app, IH, json_char_size_escape. }
  assert (Forall (fun c => 0 <= json_char_size c) (chars s)) as Hc
    by (apply Forall_forall; intros c _; rewrite json_char_size_escape; apply zlen_nonneg).
  pose proof (zsum_nonneg (map json_char_size (chars s)) ltac:(by rewrite Forall_map)).
  unfold charge_json_string_size. rewrite bind_Ok. setoid_rewrite charge_Ok. split.
  - intros (m & [-> Hm] & Hr). apply charges_Ok in Hr as [-> Hr]; [lia|done|done].
  - intros [-> Hr]. exists (total + 2). split; [lia|]. apply charges_Ok; [done|lia|lia].
Qed.

Lemma field_charge_Ok seen total f r : json_field_size (seen, total) f = Ok r <->
  sp_value (of_key f) ∉ seen /\
  r = (sp_value (of_key f) :: seen, total + (zlen (json_string_text (sp_value (of_key f))) + 1)) /\
  r.2 <= JSON_LITERAL_LIMIT_BYTES.
Proof.
  unfold json_field_size. cbn [fst snd].
  destruct (bool_decide_reflect (sp_value (of_key f) ∈ seen)) as [Hin|Hin]; [split; [done|by intros [? _]]|].
  rewrite bind_Ok. split.
  - intros (t & [-> Ht]%string_charge_Ok & (t' & [-> Ht']%charge_Ok & [= <-])%bind_Ok).
    split; [done|]. split; [f_equal; lia|cbn; lia].
  - intros (_ & -> & Hr). cbn in Hr. eexists. split; [apply string_charge_Ok; split; [done|lia]|].
    apply bind_Ok. eexists. split; [apply charge_Ok; split; [reflexivity|lia]|]. by rewrite Z.add_assoc.
Qed.
Lemma fields_charge_Ok fields : forall seen total r, total <= JSON_LITERAL_LIMIT_BYTES ->
  try_for json_field_size (seen, total) fields = Ok r <->
  NoDup (field_keys fields) /\ Forall (fun key => key ∉ seen) (field_keys fields) /\
  r = (rev (field_keys fields) ++ seen,
       total + zsum (map (fun key => zlen (json_string_text key) + 1) (field_keys fields))) /\
  r.2 <= JSON_LITERAL_LIMIT_BYTES.
Proof.
  induction fields as [|f fields IH]; intros seen total r Ht.
  - cbn. rewrite Z.add_0_r. split; [intros [= <-]; split_and!; try done; constructor|by intros (_ & _ & -> & _)].
  - set (key := sp_value (of_key f)). change (field_keys (f :: fields)) with (key :: field_keys fields).
    assert (0 <= zsum (map (fun key => zlen (json_string_text key) + 1) (field_keys fields))) as Hnn.
    { apply zsum_nonneg. rewrite Forall_map. apply Forall_forall. intros s _.
      pose proof (zlen_nonneg (json_string_text s)). lia. }
    rewrite try_for_cons, bind_Ok. setoid_rewrite field_charge_Ok. fold key.
    cbn [map rev]. unfold zsum. cbn [foldr].
    change (foldr Z.add 0 (map (fun key => zlen (json_string_text key) + 1) (field_keys fields)))
      with (zsum (map (fun key => zlen (json_string_text key) + 1) (field_keys fields))).
    rewrite NoDup_cons, Forall_cons. split.
    + intros (s & (Hin & -> & Ht') & Hr). apply IH in Hr as (Hnd & Hf & -> & Hr); [|done].
      rewrite Forall_forall in Hf. split_and!; try done.
      * intros Hk. apply (Hf key Hk). by left.
      * apply Forall_forall. intros s Hs Hs'. apply (Hf s Hs). by right.
      * f_equal; [by rewrite <- app_assoc|lia].
    + intros ((Hk & Hnd) & (Hin & Hf) & -> & Hr). cbn [snd] in Hr.
      eexists. split; [split; [done|split; [done|cbn [snd]; lia]]|].
      apply IH; [lia|]. split_and!; [done| | |cbn [snd]; lia].
      * rewrite Forall_forall in *. intros s Hs. rewrite not_elem_of_cons. split; [|by apply Hf].
        intros ->. done.
      * f_equal; [by rewrite <- app_assoc|lia].
Qed.

(** ** Measuring *)

Lemma frame_Ok n f : json_frame_size n = Ok f <->
  f = 2 + Z.max 0 (Z.of_nat n - 1) /\ f <= u64_max.
Proof.
  unfold json_frame_size, u64_checked_add, u64_saturating_sub. rewrite ok_or_Ok.
  destruct (Z.leb_spec (2 + Z.max 0 (Z.of_nat n - 1)) u64_max).
  - split; [by intros [= <-]|by intros [-> _]].
  - split; [done|lia].
Qed.
Lemma json_node_some k js js' : is_Some (json_node k js) -> is_Some (json_node k js').
Proof. destruct k; cbn; try done. by destruct (has_dup _). Qed.
Lemma limit_u64 : JSON_LITERAL_LIMIT_BYTES <= u64_max.
Proof. done. Qed.

Lemma size_step_Ok k total t parts : 0 <= total <= JSON_LITERAL_LIMIT_BYTES ->
  json_size_step k total = Ok (t, parts) <->
  is_Some (json_node k []) /\ t = total + json_own k /\ parts = json_parts k /\
  t + zlen parts <= JSON_LITERAL_LIMIT_BYTES.
Proof.
  intros Htot.
  assert (forall (c : query Z) (own : Z), (forall u, c = Ok u <-> u = total + own /\ u <= JSON_LITERAL_LIMIT_BYTES) ->
    (t0 ← c; Ok (t0, [])) = Ok (t, parts) <->
    t = total + own /\ parts = [] /\ t + zlen parts <= JSON_LITERAL_LIMIT_BYTES) as Hleaf.
  { intros c own Hc. rewrite bind_Ok. setoid_rewrite Hc. split.
    - intros (u & [-> Hu] & [= <- <-]). change (@zlen ExprKind []) with 0. split_and!; [done..|lia].
    - intros (-> & -> & Hz). change (@zlen ExprKind []) with 0 in Hz. eexists. split; [split; [done|lia]|done]. }
  assert (forall own u, charge_json_literal_size total own = Ok u <->
    u = total + own /\ u <= JSON_LITERAL_LIMIT_BYTES) as Hch by (intros; rewrite charge_Ok; naive_solver).
  destruct k as [|b|z|x|str| | |items|fields| | | | | | |]; cbn [json_size_step json_node json_own json_parts];
    try (split; [done|by intros [[? ?] _]]).
  - rewrite (Hleaf _ 4) by done. naive_solver.
  - destruct b; [rewrite (Hleaf _ 4) by done|rewrite (Hleaf _ 5) by done]; naive_solver.
  - rewrite (Hleaf _ _ (Hch _)). naive_solver.
  - unfold number_of_f64. destruct (f64_is_finite x); cbn [ok_or mbind result_bind fmap option_fmap option_map number_text].
    + rewrite (Hleaf _ _ (Hch _)). naive_solver.
    + split; [done|]. by intros [[? ?] _].
  - rewrite (Hleaf _ _ (string_charge_Ok _ _)). naive_solver.
  - rewrite bind_Ok. setoid_rewrite frame_Ok. pose proof limit_u64. pose proof (zlen_nonneg items). split.
    + intros (f & [-> Hf] & (t' & [-> Ht']%charge_Ok & ([] & Hm%minimum_Ok & [= <- <-])%bind_Ok)%bind_Ok).
      split_and!; [done|unfold zlen; lia|done|]. unfold zlen in *. rewrite length_fmap. lia.
    + intros (_ & -> & -> & Hz). unfold zlen in *. rewrite length_fmap in Hz. eexists. split; [split; [reflexivity|lia]|].
      apply bind_Ok. eexists. split; [apply charge_Ok; split; [reflexivity|lia]|].
      apply bind_Ok. exists tt. split; [apply minimum_Ok; unfold zlen; lia|done].
  - rewrite bind_Ok. setoid_rewrite frame_Ok. pose proof limit_u64. pose proof (zlen_nonneg fields).
    assert (0 <= zsum (map (fun key => zlen (json_string_text key) + 1) (field_keys fields))) as Hnn.
    { apply zsum_nonneg. rewrite Forall_map. apply Forall_forall. intros s _.
      pose proof (zlen_nonneg (json_string_text s)). lia. }
    split.
    + intros (f & [-> Hf] & (t' & [-> Ht']%charge_Ok & ([seen t''] & Hc & Hm)%bind_Ok)%bind_Ok).
      apply fields_charge_Ok in Hc as (Hnd & _ & [= -> ->] & Hle); [|done]. cbn [snd] in Hle.
      apply bind_Ok in Hm as ([] & Hm%minimum_Ok & [= <- <-]).
      apply has_dup_false in Hnd as ->. split_and!; [done|unfold zlen; lia|done|].
      unfold zlen in *. rewrite length_fmap. lia.
    + destruct (has_dup (field_keys fields)) eqn:Hd; [by intros [[? ?] _]|].
      apply has_dup_false in Hd. intros (_ & -> & -> & Hz). unfold zlen in *.
      rewrite length_fmap in Hz. eexists. split; [split; [reflexivity|lia]|].
      apply bind_Ok. eexists. split; [apply charge_Ok; split; [reflexivity|lia]|].
      apply bind_Ok. eexists (_, _). split.
      { apply fields_charge_Ok; [lia|]. split_and!; [done| |reflexivity|cbn [snd]; unfold zlen; lia].
        apply Forall_forall. intros s _. apply not_elem_of_nil. }
      cbn [snd]. apply bind_Ok. exists tt. split; [apply minimum_Ok; unfold zlen; lia|].
      do 2 f_equal. unfold zlen. lia.
Qed.

(** The text of a finite float is not empty. *)
Context (float_text_nonempty : forall x, f64_is_finite x = true -> 1 <= Z.of_nat (str_len (float_text x))).

Lemma to_string_nonempty z : 1 <= Z.of_nat (str_len (to_string z)).
Proof.
  rewrite <- length_str_bytes. unfold to_string. rewrite str_bytes_of.
  destruct (Z.ltb_spec z 0); [cbn; lia|].
  destruct (dec_bytes_canonical z) as [Hn _]; [lia|]. destruct (dec_bytes z); [done|cbn; lia].
Qed.
Lemma json_own_pos k js : is_Some (json_node k js) -> 1 <= json_own k.
Proof.
  intros [j Hj]. destruct k as [|b|z|x|str| | |items|fields| | | | | | |]; try discriminate Hj; cbn [json_own]; try lia.
  - destruct b; lia.
  - pose proof (to_string_nonempty z). lia.
  - cbn in Hj. unfold number_of_f64 in Hj. destruct (f64_is_finite x) eqn:Hx; [|done].
    pose proof (float_text_nonempty x Hx). lia.
  - unfold json_string_text. rewrite zlen_cons. pose proof (zlen_nonneg (concat (json_escape <$> chars str) ++ [byte_of 34])). lia.
  - assert (0 <= zsum (map (fun key => zlen (json_string_text key) + 1) (field_keys fields))); [|lia].
    apply zsum_nonneg. rewrite Forall_map. apply Forall_forall. intros s _.
    pose proof (zlen_nonneg (json_string_text s)). lia.
Qed.
Lemma json_lens_nonneg js : 0 <= json_lens js.
Proof. apply zsum_nonneg. rewrite Forall_map. apply Forall_forall. intros x _. apply zlen_nonneg. Qed.
Lemma json_lens_cons j js : json_lens (j :: js) = zlen (json_text j) + json_lens js.
Proof. reflexivity. Qed.
Lemma json_lens_app js js' : json_lens (js ++ js') = json_lens js + json_lens js'.
Proof. unfold json_lens. by rewrite map_app, zsum_app. Qed.
Lemma json_text_nonempty k j : json_value k = Some j -> 1 <= zlen (json_text j).
Proof.
  intros (js & Hf & Hj)%json_value_Some. apply Forall2_length in Hf.
  rewrite (zlen_json_node k js j) by done.
  pose proof (json_own_pos k js ltac:(by eexists)). pose proof (json_lens_nonneg js). lia.
Qed.

Definition task_value (t : ExprKind * nat) (j : json) : Prop :=
  json_value t.1 = Some j /\ (t.2 + json_depth t.1 <= 129)%nat.
Lemma task_value_step k d j : task_value (k, d) j <-> (d <= 128)%nat /\ exists js,
  Forall2 task_value ((fun p => (p, S d)) <$> json_parts k) js /\ json_node k js = Some j.
Proof.
  unfold task_value. cbn [fst snd]. rewrite json_value_Some, json_depth_eq. split.
  - intros [(js & Hf & Hj) Hd]. split; [lia|]. exists js. split; [|done]. rewrite Forall2_fmap_l.
    apply Forall2_same_length_lookup. split; [by eapply Forall2_length|].
    intros i c v Hc Hv. split; [by apply (Forall2_lookup_lr _ _ _ _ _ _ Hf Hc Hv)|].
    cbn [fst snd]. pose proof (list_max_with_le json_depth _ c (list_elem_of_lookup_2 _ _ _ Hc)). lia.
  - intros (Hd & js & Hf & Hj). rewrite Forall2_fmap_l in Hf. split.
    + exists js. split; [|done]. eapply Forall2_impl; [exact Hf|]. by intros c v [Hv _].
    + destruct (list_max_with_elem json_depth (json_parts k)) as [->|(c & Hc & ->)]; [cbn; lia|].
      apply list_elem_of_lookup_1 in Hc as [i Hc]. apply (Forall2_lookup_l _ _ _ _ _ Hf) in Hc as (v & _ & _ & Hv).
      cbn [fst snd compose] in Hv. lia.
Qed.

Lemma task_values_size cs js d : Forall2 task_value ((fun p => (p, S d)) <$> cs) js -> zlen cs <= json_lens js.
Proof.
  intros Hjs. rewrite Forall2_fmap_l in Hjs. induction Hjs as [|c v cs vs [Hv _] _ IHjs]; [done|].
  apply json_text_nonempty in Hv. rewrite json_lens_cons, zlen_cons. lia.
Qed.
Lemma size_loop_Ok fuel tasks total n : (list_sum (map (fun t => walk_size t.1) tasks) < fuel)%nat ->
  0 <= total <= JSON_LITERAL_LIMIT_BYTES ->
  json_size_loop fuel tasks total <> None /\
  (json_size_loop fuel tasks total = Some (Ok n) <-> exists js,
   Forall2 task_value tasks js /\ n = total + json_lens js /\ n <= JSON_LITERAL_LIMIT_BYTES).
Proof.
  revert tasks total; induction fuel as [|fuel IH]; intros tasks total Hf Ht; [lia|].
  destruct tasks as [|[k d] tasks]; cbn [json_size_loop].
  { split; [done|]. split.
    - intros [= <-]. exists []. split_and!; [constructor|cbn; lia|lia].
    - intros (js & ->%Forall2_nil_inv_l & -> & _). cbn. by rewrite Z.add_0_r. }
  cbn [map fst] in Hf. rewrite list_sum_cons in Hf. destruct (too_deep d) eqn:Hd.
  { split; [done|]. split; [done|]. intros (js & (j & js' & Hj & _)%Forall2_cons_inv_l & _).
    apply task_value_step in Hj as [Hd' _]. apply too_deep_spec in Hd'. congruence. }
  apply too_deep_spec in Hd. pose proof (json_parts_size k) as Hps.
  destruct (json_size_step k total) as [[t parts]|e] eqn:Hstep.
  - apply size_step_Ok in Hstep as (Hnode & -> & -> & Hmin); [|done].
    pose proof (json_own_pos k [] Hnode). pose proof (zlen_nonneg (json_parts k)).
    destruct (IH (((fun p => (p, S d)) <$> json_parts k) ++ tasks) (total + json_own k)) as [Hsome Hiff].
    + rewrite map_app, list_sum_app. change (map (fun t => walk_size t.1) ((fun p => (p, S d)) <$> json_parts k))
        with ((fun t : ExprKind * nat => walk_size t.1) <$> ((fun p => (p, S d)) <$> json_parts k)).
      rewrite <- list_fmap_compose. change (list_sum (_ <$> json_parts k)) with (list_sum (map walk_size (json_parts k))). lia.
    + lia.
    + split; [done|]. rewrite Hiff. split.
      * intros (js & (js1 & js2 & Hjs1 & Hjs2 & ->)%Forall2_app_inv_l & -> & Hn).
        destruct (json_node_some k [] js1 Hnode) as [j Hj]. exists (j :: js2). split_and!; [|..|done].
        -- constructor; [|done]. apply task_value_step. eauto.
        -- apply Forall2_length in Hjs1. rewrite length_fmap in Hjs1.
           rewrite json_lens_app, json_lens_cons, (zlen_json_node k js1 j) by done. lia.
      * intros (js & (j & js2 & Hj & Hjs & ->)%Forall2_cons_inv_l & -> & Hn).
        apply task_value_step in Hj as (_ & js1 & Hjs1 & Hj). exists (js1 ++ js2). split; [by apply Forall2_app|].
        rewrite json_lens_app. rewrite json_lens_cons, (zlen_json_node k js1 j) in *
          by (done || (apply Forall2_length in Hjs1; by rewrite length_fmap in Hjs1)). lia.
  - split; [done|]. split; [done|]. intros (js & (j & js' & Hj & Hjs & ->)%Forall2_cons_inv_l & -> & Hn).
    apply task_value_step in Hj as (_ & cs & Hcs & Hj). pose proof (task_values_size _ _ _ Hcs).
    pose proof (json_lens_nonneg js').
    rewrite json_lens_cons, (zlen_json_node k cs j) in Hn
      by (done || (apply Forall2_length in Hcs; by rewrite length_fmap in Hcs)).
    assert (json_size_step k total = Ok (total + json_own k, json_parts k)); [|congruence].
    apply size_step_Ok; [done|]. split_and!; [eapply json_node_some; by eexists|done..|lia].
Qed.

Lemma json_literal_size_Ok k n : json_literal_size k = Ok n <-> exists j,
  json_value k = Some j /\ (json_depth k <= 128)%nat /\ n = zlen (json_text j) /\ n <= 1048576.
Proof.
  unfold json_literal_size. destruct (size_loop_Ok (walk_fuel k) [(k, 1%nat)] 0 n) as [Hsome Hiff].
  { cbn. unfold walk_fuel. lia. }
  { done. }
  destruct (json_size_loop _ _ _) as [r|]; [|done]. cbn [from_walk].
  transitivity (Some r = Some (Ok n)); [split; [by intros ->|by intros [= ->]]|]. rewrite Hiff. split.
  - intros (js & (j & js' & [Hj Hd] & ->%Forall2_nil_inv_l & ->)%Forall2_cons_inv_l & -> & Hn).
    cbn [fst snd] in Hj, Hd. exists j. rewrite json_lens_cons in *. change (json_lens []) with 0 in *.
    split_and!; [done|lia|lia|done].
  - intros (j & Hj & Hd & -> & Hn). exists [j]. rewrite json_lens_cons. change (json_lens []) with 0.
    split_and!; [|lia|done]. constructor; [|constructor]. split; [done|cbn; lia].
Qed.

(** ** Building *)

Lemma json_visit_spec k d : too_deep d = false ->
  match json_visit k d with
  | Ok (inl v) => json_parts k = [] /\ json_node k [] = Some v
  | Ok (inr (cs, b)) => cs = json_parts k /\ forall vs st, length vs = length cs ->
      exists v, json_node k vs = Some v /\ json_build b (rev vs ++ st) = Ok (v :: st)
  | Err _ => forall js, json_node k js = None
  end.
Proof.
  intros Hd. unfold json_visit. rewrite Hd.
  destruct k as [|b|z|x|str| | |items|fields| | | | | | |]; try done.
  - cbn. unfold number_of_f64. by destruct (f64_is_finite x).
  - split; [done|]. intros vs st Hl. rewrite length_fmap in Hl. eexists. split; [done|].
    cbn [json_build]. by rewrite take_results_rev.
  - cbn [json_node]. change ((fun f => sp_value (of_key f)) <$> fields) with (field_keys fields).
    destruct (has_dup (field_keys fields)); [done|]. split; [done|]. intros vs st Hl.
    rewrite length_fmap in Hl. eexists. split; [done|]. cbn [json_build].
    rewrite take_results_rev by (unfold field_keys; by rewrite length_fmap). done.
Qed.
Definition json_pass := walk_rec json_visit json_build walk_size json_literal_shape.
Lemma json_visit_inr k d cs b : json_visit k d = Ok (inr (cs, b)) ->
  too_deep d = false /\ cs = json_parts k /\ forall vs st, length vs = length cs ->
      exists v, json_node k vs = Some v /\ json_build b (rev vs ++ st) = Ok (v :: st).
Proof.
  intros Hv. destruct (too_deep d) eqn:Hd; [unfold json_visit in Hv; by rewrite Hd in Hv|].
  split; [done|]. pose proof (json_visit_spec k d Hd) as Hs. by rewrite Hv in Hs.
Qed.
Lemma json_visit_size k d cs b : json_visit k d = Ok (inr (cs, b)) ->
  (list_sum (map walk_size cs) < walk_size k)%nat.
Proof. intros (_ & -> & _)%json_visit_inr. apply json_parts_size. Qed.
Lemma json_frame k d cs b vs st : json_visit k d = Ok (inr (cs, b)) -> length vs = length cs ->
  json_build b (rev vs ++ st) = (fun v => v :: st) <$> build_one json_build json_literal_shape b vs.
Proof.
  intros (_ & _ & Hb)%json_visit_inr Hl. unfold build_one. rewrite <- (app_nil_r (rev vs)) at 2.
  destruct (Hb vs st Hl) as (v & Hv & ->), (Hb vs [] Hl) as (v' & Hv' & ->). cbn. congruence.
Qed.

Lemma json_pass_Ok k d j : json_pass k d = Ok j <-> task_value (k, d) j.
Proof.
  revert d j. induction k as [k IH] using (Nat.measure_induction _ walk_size). intros d j.
  rewrite task_value_step. unfold json_pass.
  rewrite walk_rec_eq by eauto using json_visit_size, walk_size_pos. fold json_pass.
  destruct (too_deep d) eqn:Hd.
  { unfold json_visit. rewrite Hd. split; [done|]. intros [Hd' _]. apply too_deep_spec in Hd'. congruence. }
  pose proof (json_visit_spec k d Hd) as Hs. apply too_deep_spec in Hd.
  pose proof (json_parts_size k) as Hsize.
  destruct (json_visit k d) as [[v|[cs b]]|e].
  - destruct Hs as [Hp Hn]. rewrite Hp. split.
    + intros [= <-]. split; [done|]. exists []. split; [constructor|done].
    + intros (_ & js & ->%Forall2_nil_inv_l & Hj). congruence.
  - destruct Hs as [-> Hb]. rewrite bind_Ok.
    assert (forall js, Forall2 (fun c j => json_pass c (S d) = Ok j) (json_parts k) js <->
      Forall2 task_value ((fun p => (p, S d)) <$> json_parts k) js) as Hf.
    { intros js. rewrite Forall2_fmap_l. clear Hb. revert js. induction (json_parts k) as [|c cs IHc]; intros js.
      - split; intros ->%Forall2_nil_inv_l; constructor.
      - cbn [map] in Hsize. rewrite list_sum_cons in Hsize. split;
          intros (v & vs & Hv & Hvs & ->)%Forall2_cons_inv_l; (constructor; [apply IH; [lia|done]|apply IHc; [lia|done]]). }
    split.
    + intros (js & Hjs%traverse_Ok%Hf & Hone). split; [done|]. exists js. split; [done|].
      destruct (Hb js []) as (v & Hv & Hbuild).
      { apply Forall2_length in Hjs. by rewrite length_fmap in Hjs. }
      unfold build_one in Hone. rewrite app_nil_r in Hbuild. rewrite Hbuild in Hone. cbn in Hone. congruence.
    + intros (_ & js & Hjs & Hj). exists js. split; [by apply traverse_Ok, Hf|].
      destruct (Hb js []) as (v & Hv & Hbuild).
      { apply Forall2_length in Hjs. by rewrite length_fmap in Hjs. }
      unfold build_one. rewrite app_nil_r in Hbuild. rewrite Hbuild. cbn. congruence.
  - split; [done|]. intros (_ & js & _ & Hj). by rewrite Hs in Hj.
Qed.

Lemma stack_walk_json k :
  stack_walk json_visit json_build (walk_fuel k) json_literal_shape k 1 = Some (json_pass k 1).
Proof.
  apply (stack_walk_eq json_visit json_build walk_size);
    [apply json_visit_size|apply walk_size_pos|apply json_frame|unfold walk_fuel; lia].
Qed.
(** A constant lowers to its value exactly when it nests at most 128 deep and its text is at
    most a mebibyte. *)
Lemma json_literal_Ok k j : json_literal k = Ok j <->
  json_value k = Some j /\ (json_depth k <= 128)%nat /\ zlen (json_text j) <= 1048576.
Proof.
  unfold json_literal. rewrite stack_walk_json, bind_Ok. cbn [from_walk]. split.
  - intros (n & (j' & Hj' & Hd & -> & Hn)%json_literal_size_Ok & [Hj _]%json_pass_Ok).
    cbn [fst] in Hj. simplify_eq. done.
  - intros (Hj & Hd & Hn). eexists. split; [apply json_literal_size_Ok; eauto|].
    apply json_pass_Ok. split; [done|cbn; lia].
Qed.

(** C31: Constant JSON. A constant lowers to its JSON value exactly when every object's keys
    are distinct, every float is finite, it nests at most 128 deep and the compact text of the
    value is at most 1048576 bytes long; and the size computed beforehand, without building
    the value or its text, is the length of that text. *)
Theorem json_literal_exact k : (forall j, json_literal k = Ok j <->
    json_value k = Some j /\ (json_depth k <= 128)%nat /\ zlen (json_text j) <= 1048576) /\
  (forall n, json_literal_size k = Ok n <-> exists j, json_literal k = Ok j /\ n = zlen (json_text j)).
Proof.
  split; [intros j; apply json_literal_Ok|]. intros n. setoid_rewrite json_literal_Ok.
  rewrite json_literal_size_Ok. split.
  - intros (j & Hj & Hd & -> & Hn). eauto 10.
  - intros (j & (Hj & Hd & Hn) & ->). eauto 10.
Qed.
End Constants.

(** ** The stacks of the lowering passes never disagree

    The passes over expressions and constants check that a result is there when a step
    takes one, and that one result is left at the end. The checks never fail: every walk
    ends within its fuel, with exactly the results its steps ask for. *)

(** The errors of a stack that does not hold what a step takes, and of a spent fuel *)
Definition stack_error (e : QueryErrorV2) : Prop := e = expression_stack \/ e = json_literal_shape.
Definition sound {A} (r : query A) : Prop := forall e, r = Err e -> ~ stack_error e.

Lemma sound_Ok {A} (a : A) : sound (Ok a).
Proof. done. Qed.
Lemma sound_err {A} e : ~ stack_error e -> sound (Err e : query A).
Proof. by intros He e' [= <-]. Qed.
Lemma sound_bind {A B} (r : query A) (f : A -> query B) :
  sound r -> (forall a, r = Ok a -> sound (f a)) -> sound (r ≫= f).
Proof. intros Hr Hf e [He|(a & Ha & He)]%bind_Err; [by apply (Hr e)|by apply (Hf a Ha e)]. Qed.
Lemma sound_traverse {A B} (f : A -> query B) l : (forall a, a ∈ l -> sound (f a)) -> sound (traverse f l).
Proof. intros Hf e (a & Ha & He)%traverse_Err. by apply (Hf a Ha e). Qed.
Lemma sound_try_for {A S} (f : S -> A -> query S) s l : (forall s a, sound (f s a)) -> sound (try_for f s l).
Proof.
  intros Hf. revert s; induction l as [|a l IH]; intros s; [done|]. rewrite try_for_cons.
  apply sound_bind; [apply Hf|intros; apply IH].
Qed.
Lemma reason_sound code stage reason :
  reason <> "expression_stack"%string -> reason <> "json_literal_shape"%string ->
  ~ stack_error (query_error code stage reason).
Proof. by intros H1 H2 [[= ? ? ?]|[= ? ? ?]]. Qed.

Create HintDb sound.
#[export] Hint Resolve sound_Ok : sound.
#[export] Hint Extern 1 (sound (Err _)) => (apply sound_err, reason_sound; discriminate) : sound.
#[export] Hint Extern 2 (sound (_ ≫= _)) => (apply sound_bind; [|intros ? _]) : sound.
#[export] Hint Extern 2 (sound (traverse _ _)) => (apply sound_traverse; intros ? _) : sound.
#[export] Hint Extern 2 (sound (try_for _ _ _)) => (apply sound_try_for; intros ? ?) : sound.
#[export] Hint Extern 3 (sound (match ?x with _ => _ end)) => (destruct x eqn:?) : sound.

Section Stack.
Context `{NumberText}.

Lemma lower_name_sound n : sound (lower_name n).
Proof. unfold lower_name, lower_unsupported. auto with sound. Qed.
Hint Resolve lower_name_sound : sound.
Lemma charge_sound total n : sound (charge_json_literal_size total n).
Proof. unfold charge_json_literal_size, json_literal_too_large, bind_invalid. auto with sound. Qed.
Hint Resolve charge_sound : sound.
Lemma string_sound total s : sound (charge_json_string_size total s).
Proof. unfold charge_json_string_size. auto with sound. Qed.
Hint Resolve string_sound : sound.
Lemma minimum_sound total n : sound (ensure_json_literal_minimum total n).
Proof. unfold ensure_json_literal_minimum, json_literal_too_large, bind_invalid. auto with sound. Qed.
Hint Resolve minimum_sound : sound.
Lemma frame_sound n : sound (json_frame_size n).
Proof. unfold json_frame_size, ok_or, json_literal_too_large, bind_invalid. auto with sound. Qed.
Hint Resolve frame_sound : sound.
Lemma field_sound s f : sound (json_field_size s f).
Proof. unfold json_field_size, bind_invalid. auto 10 with sound. Qed.
Hint Resolve field_sound : sound.
Lemma size_step_sound k total : sound (json_size_step k total).
Proof. unfold json_size_step, lower_unsupported, ok_or, bind_invalid. auto 20 with sound. Qed.
Hint Resolve size_step_sound : sound.

Lemma size_step_parts k total t parts : json_size_step k total = Ok (t, parts) -> parts = json_parts k.
Proof.
  destruct k; cbn [json_size_step json_parts]; intros Hs; try discriminate Hs;
    try destruct b; inv_result; repeat match goal with p : _ * _ |- _ => destruct p end; inv_result; by simplify_eq.
Qed.
Lemma size_loop_sound fuel tasks total : (list_sum (map (fun t => walk_size t.1) tasks) < fuel)%nat ->
  exists r, json_size_loop fuel tasks total = Some r /\ sound r.
Proof.
  revert tasks total; induction fuel as [|fuel IH]; intros tasks total Hf; [lia|].
  destruct tasks as [|[k d] tasks]; cbn [json_size_loop]; [eauto with sound|].
  destruct (too_deep d); [unfold bind_invalid; eauto with sound|].
  pose proof (size_step_sound k total) as Hs. destruct (json_size_step k total) as [[t parts]|e] eqn:Hk.
  - apply size_step_parts in Hk as ->. apply IH. cbn [map fst] in Hf. rewrite list_sum_cons in Hf.
    rewrite map_app, list_sum_app.
    change (map (fun t => walk_size t.1) ((fun p => (p, S d)) <$> json_parts k))
        with ((fun t : ExprKind * nat => walk_size t.1) <$> ((fun p => (p, S d)) <$> json_parts k)).
    rewrite <- list_fmap_compose. change (list_sum (_ <$> json_parts k)) with (list_sum (map walk_size (json_parts k))).
    pose proof (json_parts_size k). lia.
  - eexists. split; [done|]. apply sound_err. by apply Hs.
Qed.

Lemma json_pass_sound k d : sound (json_pass k d).
Proof.
  revert d. induction k as [k IH] using (Nat.measure_induction _ walk_size). intros d. unfold json_pass.
  rewrite walk_rec_eq by eauto using json_visit_size, walk_size_pos. fold json_pass.
  destruct (json_visit k d) as [[v|[cs b]]|e] eqn:Hv; [auto with sound| |].
  - pose proof (json_visit_size _ _ _ _ Hv) as Hsize. apply json_visit_inr in Hv as (_ & -> & Hb).
    apply sound_bind.
    + apply sound_traverse. intros c Hc. apply IH. pose proof (child_size walk_size _ _ Hc). lia.
    + intros vs Hvs%traverse_length. destruct (Hb vs [] Hvs) as (v & _ & Hbuild).
      unfold build_one. rewrite app_nil_r in Hbuild. rewrite Hbuild. apply sound_Ok.
  - assert (sound (json_visit k d)) as Hs; [|by apply sound_err, Hs].
    unfold json_visit, ok_or, lower_unsupported, bind_invalid. auto 10 with sound.
Qed.
Lemma json_literal_sound k : sound (json_literal k).
Proof.
  unfold json_literal, json_literal_size.
  destruct (size_loop_sound (walk_fuel k) [(k, 1%nat)] 0) as (r & -> & Hr).
  { cbn. unfold walk_fuel. lia. }
  apply sound_bind; [exact Hr|]. intros _ _. rewrite stack_walk_json. apply json_pass_sound.
Qed.
Hint Resolve json_literal_sound : sound.

(** A pass is sound when its steps are. *)
Lemma lower_call_sound call star : sound (lower_call call star).
Proof. unfold lower_call, bind_invalid. auto with sound. Qed.
Hint Resolve lower_call_sound : sound.
Lemma measure_parts_sound k : sound (measure_parts k).
Proof. unfold measure_parts, bind_invalid. auto with sound. Qed.
Hint Resolve measure_parts_sound : sound.
Lemma lower_parts_sound k : sound (lower_parts k).
Proof. unfold lower_parts. destruct k; auto with sound. Qed.
Lemma shape_add_sound a b : sound (shape_add a b).
Proof. unfold shape_add, bind_invalid. auto with sound. Qed.
Lemma shape_twice_sound a : sound (shape_twice a).
Proof. unfold shape_twice, bind_invalid. auto with sound. Qed.
Hint Resolve lower_parts_sound shape_add_sound shape_twice_sound : sound.
Lemma measure_combine_sound k ss : sound (measure_combine k ss).
Proof.
  unfold measure_combine, bind_invalid. apply sound_bind; [|auto with sound].
  unfold measure_sum. destruct k; auto 20 with sound.
Qed.
Lemma lower_leaf_sound k : sound (lower_leaf k).
Proof. unfold lower_leaf, lower_unsupported, bind_invalid. destruct k; auto with sound. Qed.
Hint Resolve lower_leaf_sound : sound.
Lemma lower_combine_sound k ws : sound (lower_combine k ws).
Proof. unfold lower_combine. destruct k; auto 20 with sound. Qed.

Lemma pass_sound {V} (run : ExprKind -> nat -> query V) parts combine :
  (forall k d, run k d = if too_deep d then Err syntax_too_deep
    else cs ← parts k; vs ← traverse (fun c => run c (S d)) cs; combine k vs) ->
  (forall k cs, parts k = Ok cs -> (list_sum (map walk_size cs) < walk_size k)%nat) ->
  (forall k, sound (parts k)) -> (forall k vs, sound (combine k vs)) -> forall k d, sound (run k d).
Proof.
  intros Heq Hsize Hp Hc k. induction k as [k IH] using (Nat.measure_induction _ walk_size). intros d.
  rewrite Heq. destruct (too_deep d); [unfold syntax_too_deep, bind_invalid; auto with sound|].
  apply sound_bind; [done|]. intros cs Hcs. apply sound_bind; [|auto].
  apply sound_traverse. intros c Hin. apply IH. pose proof (child_size walk_size _ _ Hin).
  specialize (Hsize k cs Hcs). lia.
Qed.

Lemma lower_expr_sound e : sound (lower_expr e).
Proof.
  rewrite lower_expr_passes. apply sound_bind; [|intros _ _].
  - apply (pass_sound measure_pass measure_parts measure_combine); auto using measure_pass_eq, measure_parts_sound, measure_combine_sound.
    intros k cs Hk. by apply (measure_parts_size k).
  - apply (pass_sound lower_pass lower_parts lower_combine); auto using lower_pass_eq, lower_parts_sound, lower_combine_sound.
    intros k cs Hk. by apply (lower_parts_size k).
Qed.

(** C36: The explicit stacks. Measuring, lowering and reading constants end within the fuel
    their input's size gives, and never find the stack of results other than as it should be:
    the errors [expression_stack] and [json_literal_shape] are never returned. *)
Theorem lower_expr_stack e : lower_expr e <> Err expression_stack /\ lower_expr e <> Err json_literal_shape /\
  stack_walk measure_visit measure_build (walk_fuel (sp_value e)) expression_stack (sp_value e) 1 <> None /\
  stack_walk lower_visit lower_build (walk_fuel (sp_value e)) expression_stack (sp_value e) 1 <> None /\
  json_size_loop (walk_fuel (sp_value e)) [(sp_value e, 1%nat)] 0 <> None /\
  stack_walk json_visit json_build (walk_fuel (sp_value e)) json_literal_shape (sp_value e) 1 <> None.
Proof.
  pose proof (lower_expr_sound e) as Hs. split; [intros He; eapply Hs; [exact He|by left]|].
  split; [intros He; eapply Hs; [exact He|by right]|].
  rewrite (stack_walk_pass _ _ _ _ measure_visit_eq measure_parts_size measure_frame),
    (stack_walk_pass _ _ _ _ lower_visit_eq lower_parts_size lower_frame).
  do 2 (split; [done|]). split.
  - destruct (size_loop_sound (walk_fuel (sp_value e)) [(sp_value e, 1%nat)] 0) as (r & -> & _); [|done].
    cbn. unfold walk_fuel. lia.
  - by rewrite stack_walk_json.
Qed.
End Stack.
