(* ===== verification/HqlPlan.v ===== *)
(** * Lowering HQL2 statements to the logical plan

    [Lower] of [src/src/query/hql2/lower.rs]: sources, stages and the returned columns of
    a query become the nodes of the operator graph, in the order the statement names
    them. The nodes so far are the state; the columns in scope are threaded along. The plan
    they make is a tree. *)
From S2P Require Export Monad WireSpec HqlJson.
Local Open Scope Z_scope.

Section Plan.
Context `{NumberText, Grammar}.
(** The caller's values of unsigned parameters *)
Variable resolve_parameter : string -> query Z.

Notation lower := (SM (list LogicalNodeV2) QueryErrorV2).

Definition lower_unsigned (value : Unsigned) : query Z :=
  match sp_value value with ULiteral v => Ok v | UParameter name => resolve_parameter name end.
(** [u32::try_from] of an unsigned argument *)
Definition lower_u32 (value : Unsigned) (reason : string) : query Z :=
  v ← lower_unsigned value;
  if v <=? u32_max then Ok v else Err (bind_invalid reason).

(** [option.map(f).transpose()] *)
Definition transpose_map {A B} (f : A -> query B) (o : option A) : query (option B) :=
  match o with Some a => b ← f a; Ok (Some b) | None => Ok None end.

(** The keys keep their order, so the map is collected as it is read. *)
Definition lower_properties (properties : btree HqlExpr) : query (btree Expr) :=
  traverse (fun kv => v ← json_expr kv.2; Ok (kv.1, v)) properties.
Definition pattern_node (alias : Name) (id : option HqlExpr) (labels : list Name)
    (properties : btree HqlExpr) : query PatternNode :=
  alias ← lower_name alias;
  id ← transpose_map lower_expr id;
  labels ← traverse lower_name labels;
  properties ← lower_properties properties;
  Ok {| pn_alias := alias; pn_id := id; pn_labels := labels; pn_properties := properties |}.

Definition column (alias : string) : NamedExpr :=
  {| ne_expression := EField {| fr_alias := alias; fr_path := [] |}; ne_alias := alias |}.
Definition selected_alias (expression : HqlExpr) (alias : option Name) : query string :=
  match alias with
  | Some alias => lower_name alias
  | None =>
      match sp_value expression with
      | HField parts => part ← ok_or (last parts) (bind_invalid "field_alias"); lower_name part
      | _ => Err (bind_invalid "expression_alias_required")
      end
  end.
Definition selected_item (scope : list string) (fields : list NamedExpr) (item : SelectItem)
  : query (list NamedExpr) :=
  match sp_value item with
  | SelStar => Ok (fields ++ map column scope)
  | SelExpression expression alias =>
      alias ← selected_alias expression alias;
      e ← lower_expr expression;
      Ok (fields ++ [{| ne_expression := e; ne_alias := alias |}])
  end.
Definition selected (items : list SelectItem) (scope : list string) : query (list NamedExpr) :=
  try_for (selected_item scope) [] items.

(** ** Patterns *)

Definition lower_direction (d : GraphDirection) : Direction :=
  match d with HOut => DirOut | HIn_ => DirIn | HBoth => DirBoth end.
Definition lower_mode (m : GraphPathMode) : PathMode :=
  match m with HTrail => ModeTrail | HSimple => ModeSimple | HWalk => ModeWalk end.
(** [if !scope.contains(&alias) { scope.push(alias) }] *)
Definition extend (scope : list string) (alias : string) : list string :=
  if bool_decide (alias ∈ scope) then scope else scope ++ [alias].
Definition push_alias (scope : list string) (alias : option string) : list string :=
  scope ++ option_list alias.

(** One step of a sequence, in a source or in a stage *)
Definition lower_step (acc : list string * list PatternStep) (step : GraphSequenceStep)
  : query (list string * list PatternStep) :=
  end_alias ← lower_name (gs_end_alias step);
  let scope := extend acc.1 end_alias in
  edge_alias ← transpose_map lower_name (gs_edge_alias step);
  let scope := push_alias scope edge_alias in
  relations ← traverse lower_name (gs_relations step);
  edge_properties ← lower_properties (gs_edge_properties step);
  node ← pattern_node (gs_end_alias step) (gs_node_id step) (gs_node_labels step) (gs_node_properties step);
  Ok (scope, acc.2 ++ [{|
    ps_edge := {| pe_alias := edge_alias; pe_relations := relations;
                  pe_direction := lower_direction (gs_direction step);
                  pe_min_hops := gs_min_hops step; pe_max_hops := gs_max_hops step;
                  pe_properties := edge_properties |};
    ps_node := node |}]).
(** The sequence after its start: the scope it leaves, and the pattern *)
Definition lower_sequence (start : PatternNode) (scope : list string) (steps : list GraphSequenceStep)
    (mode : GraphPathMode) (path_alias : option Name) : query (list string * Pattern) :=
  '(scope, wire_steps) ← try_for lower_step (scope, []) steps;
  path_alias ← transpose_map lower_name path_alias;
  Ok (push_alias scope path_alias,
      PSequence {| spa_form := FormSequence; spa_start := start; spa_steps := wire_steps;
                   spa_mode := lower_mode mode; spa_path_alias := path_alias |}).

(** ** Nodes *)

Definition add (op : QueryOpV2) (inputs : list string) (config : Config) : lower string :=
  nodes ← get;
  if 10000 <=? zlen nodes then fail (bind_invalid "node_count")
  else
    let id := "h"%string +:+ to_string (zlen nodes) in
    _ ← put (nodes ++ [{| ln_id := id; ln_op := op; ln_inputs := inputs; ln_config := config |}]);
    mret id.

Definition history_entity (kind : string) : query EntityKind :=
  if bool_decide (kind = "node"%string) then Ok EkNode
  else if bool_decide (kind = "edge"%string) then Ok EkEdge
  else if bool_decide (kind = "row"%string) then Ok EkRow
  else if bool_decide (kind = "vector"%string) then Ok EkVector
  else if bool_decide (kind = "annotation"%string) then Ok EkAnnotation
  else if bool_decide (kind = "artifact"%string) then Ok EkArtifact
  else Err (bind_invalid "history_kind").

Definition lower_history (kind : Spanned string) (id : HqlExpr) (alias : Name)
  : query (QueryOpV2 * Config * list string) :=
  alias ← lower_name alias;
  kind ← history_entity (sp_value kind);
  id ← lower_expr id;
  Ok (OpHistoryScan, CHistoryScan kind id alias, [alias]).
Definition lower_match (start_alias : Name) (start_id : option HqlExpr) (start_labels : list Name)
    (start_properties : btree HqlExpr) (steps : list GraphSequenceStep) (mode : GraphPathMode)
    (path_alias : option Name) (shortest : bool) : query (QueryOpV2 * Config * list string) :=
  start ← pattern_node start_alias start_id start_labels start_properties;
  start_alias ← lower_name start_alias;
  '(scope, pattern) ← lower_sequence start [start_alias] steps mode path_alias;
  Ok (OpMatch, CMatch pattern [] shortest, scope).
(** A source other than a union: its operator, its configuration and its columns *)
Definition leaf_source (k : SourceKind) : query (QueryOpV2 * Config * list string) :=
  match k with
  | SoValues parameter alias =>
      alias ← lower_name alias;
      param ← lower_name parameter;
      Ok (OpValues, CValues param alias, [alias])
  | SoNodes label alias =>
      alias ← lower_name alias;
      Ok (OpNodeScan, CNodeScan alias (sp_value <$> label), [alias])
  | SoEdges relation alias =>
      alias ← lower_name alias;
      Ok (OpEdgeScan, CEdgeScan alias (sp_value <$> relation), [alias])
  | SoHistory kind id alias => lower_history kind id alias
  | SoChanges after_seq alias =>
      alias ← lower_name alias;
      after_seq ← lower_unsigned after_seq;
      Ok (OpChangeScan, CChangeScan after_seq alias, [alias])
  | SoRows table alias =>
      alias ← lower_name alias;
      table ← lower_name table;
      Ok (OpRowScan, CRowScan table alias, [alias])
  | SoAnnotations alias =>
      alias ← lower_name alias;
      Ok (OpAnnotationScan, CAnnotationScan alias, [alias])
  | SoMatch start_alias start_id start_labels start_properties steps mode path_alias shortest =>
      lower_match start_alias start_id start_labels start_properties steps mode path_alias shortest
  | _ => Err (lower_unsupported "source_lowering")
  end.

Definition lower_join_kind (kind : HqlJoinKind) : JoinKind :=
  match kind with HInner => JoinInner | HLeft => JoinLeft | HSemi => JoinSemi | HAnti => JoinAnti end.
Definition lower_search_mode (mode : VectorSearchMode) : KnnMode :=
  match mode with HExact => KnnExact | HApprox => KnnApprox end.
Definition lower_sort_key (item : OrderItem) : query SortKey :=
  e ← lower_expr (oi_expression item);
  Ok {| so_expression := e;
        so_direction := match sp_value <$> oi_direction item with
                        | None | Some HAsc => SortAsc
                        | Some HDesc => SortDesc
                        end;
        so_nulls := match sp_value <$> oi_nulls item with
                    | Some HFirst => NullsFirst
                    | Some HLast | None => NullsLast
                    end |}.

(** The operator of a stage, its configuration and the columns after it *)
Notation staged := (query (QueryOpV2 * Config * list string)).
Definition lower_knn (scope : list string) (entity collection : Name) (query : HqlExpr) (k : Unsigned)
    (mode : VectorSearchMode) (alias : Name) : staged :=
  alias ← lower_name alias;
  entity ← lower_name entity;
  collection ← lower_name collection;
  query ← lower_expr query;
  k ← lower_u32 k "ranking_bound";
  Ok (OpKnn, CKnn entity collection query k (lower_search_mode mode) alias, scope ++ [alias]).
Definition lower_rerank (scope : list string) (entity collection : Name) (query : HqlExpr) (k : Unsigned)
    (alias : Name) : staged :=
  alias ← lower_name alias;
  entity ← lower_name entity;
  collection ← lower_name collection;
  query ← lower_expr query;
  k ← lower_u32 k "ranking_bound";
  Ok (OpRerank, CRerank entity collection query k FidelityOriginal alias, scope ++ [alias]).
Definition lower_lexical_match (scope : list string) (entity field : Name) (query : HqlExpr) (index : Name)
    (k : Unsigned) (alias : Name) : staged :=
  alias ← lower_name alias;
  entity ← lower_name entity;
  field ← lower_name field;
  query ← lower_expr query;
  k ← lower_u32 k "ranking_bound";
  Ok (OpLexicalMatch, CLexicalMatch entity field (sp_value index) query k alias, scope ++ [alias]).
Definition lower_context_pack (text evidence : HqlExpr) (tokens : Unsigned) (tokenizer : Spanned string)
    (alias : Name) : staged :=
  alias ← lower_name alias;
  text ← lower_expr text;
  evidence ← lower_expr evidence;
  tokens ← lower_u32 tokens "context_token_bound";
  Ok (OpContextPack, CContextPack text evidence tokens (sp_value tokenizer) alias, [alias]).
Definition lower_expand (scope : list string) (start_alias end_alias : Name) (edge_alias : option Name)
    (relations : list Name) (direction : GraphDirection) (min_hops max_hops : Z) (mode : GraphPathMode)
    (path_alias : option Name) (optional : bool) : staged :=
  end_alias ← lower_name end_alias;
  edge_alias ← transpose_map lower_name edge_alias;
  path_alias ← transpose_map lower_name path_alias;
  start_alias ← lower_name start_alias;
  relations ← traverse lower_name relations;
  Ok (OpExpand,
      CExpand (PCompact {|
        cpa_start_alias := start_alias; cpa_end_alias := end_alias; cpa_edge_alias := edge_alias;
        cpa_relations := relations; cpa_direction := lower_direction direction;
        cpa_min_hops := min_hops; cpa_max_hops := max_hops; cpa_mode := lower_mode mode;
        cpa_path_alias := path_alias |}) optional,
      push_alias (push_alias (extend scope end_alias) edge_alias) path_alias).
Definition lower_expand_sequence (scope : list string) (start_alias : Name) (start_id : option HqlExpr)
    (start_labels : list Name) (start_properties : btree HqlExpr) (steps : list GraphSequenceStep)
    (mode : GraphPathMode) (path_alias : option Name) (optional : bool) : staged :=
  start ← pattern_node start_alias start_id start_labels start_properties;
  '(scope, pattern) ← lower_sequence start scope steps mode path_alias;
  Ok (OpExpand, CExpand pattern optional, scope).
Definition lower_aggregate (scope : list string) (group_by aggregates : list SelectItem) : staged :=
  group_by ← selected group_by scope;
  aggregates ← selected aggregates scope;
  Ok (OpAggregate, CAggregate group_by aggregates, ne_alias <$> (group_by ++ aggregates)).
Definition lower_order (scope : list string) (items : list OrderItem) : staged :=
  keys ← traverse lower_sort_key items; Ok (OpSort, CSort keys, scope).

(** A stage other than a join *)
Definition plain_stage (scope : list string) (stage : StageKind) : staged :=
  match stage with
  | StFilter predicate => e ← lower_expr predicate; Ok (OpFilter, CFilter e, scope)
  | StProject items =>
      fields ← selected items scope;
      Ok (OpProject, CProject fields, ne_alias <$> fields)
  | StDistinct => Ok (OpDistinct, CDistinct, scope)
  | StAnnotationLookup target alias optional =>
      alias ← lower_name alias;
      target ← lower_name target;
      Ok (OpAnnotationLookup, CAnnotationLookup target alias optional, scope ++ [alias])
  | StKnn entity collection query k mode alias => lower_knn scope entity collection query k mode alias
  | StRerank entity collection query k alias => lower_rerank scope entity collection query k alias
  | StLexicalMatch entity field query index k alias =>
      lower_lexical_match scope entity field query index k alias
  | StContextPack text evidence tokens tokenizer alias => lower_context_pack text evidence tokens tokenizer alias
  | StExpand start_alias end_alias edge_alias relations direction min_hops max_hops mode path_alias optional =>
      lower_expand scope start_alias end_alias edge_alias relations direction min_hops max_hops mode
        path_alias optional
  | StExpandSequence start_alias start_id start_labels start_properties steps mode path_alias optional =>
      lower_expand_sequence scope start_alias start_id start_labels start_properties steps mode path_alias optional
  | StAggregate group_by aggregates => lower_aggregate scope group_by aggregates
  | StOrder items => lower_order scope items
  | StTake count => count ← lower_unsigned count; Ok (OpTake, CTake count, scope)
  | StSkip count => count ← lower_unsigned count; Ok (OpOffset, COffset count, scope)
  | _ => Err (lower_unsupported "stage_lowering")
  end.

Notation placed := (string * list string)%type.
(** One stage after the nodes so far, from the root and the columns before it *)
Definition lower_stage (acc : placed) (stage : Spanned StageKind) : lower placed :=
  match sp_value stage with
  | StJoin table alias kind condition =>
      alias ← lift (lower_name alias);
      table ← lift (lower_name table);
      right_ ← add OpRowScan [] (CRowScan table alias);
      let kind := lower_join_kind kind in
      let scope := match kind with JoinSemi | JoinAnti => acc.2 | _ => acc.2 ++ [alias] end in
      condition ← lift (lower_expr condition);
      root ← add OpJoin [acc.1; right_] (CJoin kind condition);
      mret (root, scope)
  | stage =>
      '(op, config, scope) ← lift (plain_stage acc.2 stage);
      root ← add op [acc.1] config;
      mret (root, scope)
  end.

(** [Lower::query] over the lowering of its source *)
Definition lower_query_of {S} (source : nat -> lower placed) (q : QueryOf S) (depth : nat) : lower placed :=
  if too_deep depth then fail (bind_invalid "query_depth")
  else
    acc ← source depth;
    '(root, scope) ← mfor lower_stage acc (q_stages q);
    fields ← lift (selected (q_returning q) scope);
    root ← add OpProject [root] (CProject fields);
    mret (root, ne_alias <$> fields).
Fixpoint lower_source (k : SourceKind) (depth : nat) : lower placed :=
  match k with
  | SoUnionAll lhs rhs =>
      '(left_, scope) ← lower_query_of (lower_source (sp_value (q_source lhs))) lhs (S depth);
      '(right_, _) ← lower_query_of (lower_source (sp_value (q_source rhs))) rhs (S depth);
      root ← add OpUnionAll [left_; right_] CUnionAll;
      mret (root, scope)
  | k =>
      '(op, config, scope) ← lift (leaf_source k);
      root ← add op [] config;
      mret (root, scope)
  end.
Definition lower_query (q : HqlQuery) (depth : nat) : lower placed :=
  lower_query_of (lower_source (sp_value (q_source q))) q depth.

Definition lower_hql2_with_unsigned_resolver (statement : Hql2Statement) : query LogicalRequestV2 :=
  match st_kind statement with
  | StRead | StExplain | StAnalyzeRead =>
      q ← ok_or (st_query statement) (bind_invalid "read_query");
      '((root, _), nodes) ← lower_query q 1 [];
      Ok {| lr_nodes := nodes; lr_root := root; lr_parameter_types := []; lr_from_hql := true |}
  | _ => Err (lower_unsupported "statement_execution")
  end.
End Plan.

Definition lower_hql2 `{NumberText, Grammar} : Hql2Statement -> query LogicalRequestV2 :=
  lower_hql2_with_unsigned_resolver (fun _ => Err (bind_invalid "undeclared_parameter")).

(** ** The plan of an HQL2 statement is a tree

    A lowered request numbers its nodes in post-order: a node follows the plans of its
    inputs, which it alone uses, and the last node is the root. The operators agree with
    their configurations and their arities, and the expressions are within bounds. *)

Definition node_name (i : nat) : string := "h"%string +:+ to_string (Z.of_nat i).

(** A node of the given number with the given inputs *)
Record is_node (i : nat) (inputs : list nat) (n : LogicalNodeV2) : Prop := {
  in_id : ln_id n = node_name i;
  in_inputs : ln_inputs n = node_name <$> inputs;
  in_op : ln_op n = config_op (ln_config n);
  in_arity : length inputs = arity (ln_op n);
  in_fits : Forall fits (config_expressions (ln_config n));
}.
(** The plan of a query, its nodes numbered from [b] *)
Inductive plan : nat -> list LogicalNodeV2 -> Prop :=
| plan_leaf b n : is_node b [] n -> plan b [n]
| plan_one b l n : plan b l -> is_node (b + length l) [(b + length l - 1)%nat] n -> plan b (l ++ [n])
| plan_two b l r n : plan b l -> plan (b + length l) r ->
    is_node (b + length l + length r) [(b + length l - 1)%nat; (b + length l + length r - 1)%nat] n ->
    plan b (l ++ r ++ [n]).

Lemma plan_nonempty b l : plan b l -> (0 < length l)%nat.
Proof. destruct 1; rewrite ?length_app; cbn; lia. Qed.

(** [nodes] are the nodes [before] and then a plan whose root is [root]. *)
Definition placed_at (before : list LogicalNodeV2) (root : string) (nodes : list LogicalNodeV2) : Prop :=
  exists l, nodes = before ++ l /\ plan (length before) l /\
  root = node_name (length nodes - 1) /\ zlen nodes <= 10000.

Definition config_good (op : QueryOpV2) (inputs : nat) (config : Config) : Prop :=
  op = config_op config /\ inputs = arity op /\ Forall fits (config_expressions config).

Lemma add_Ok op inputs config nodes id nodes' : add op inputs config nodes = Ok (id, nodes') <->
  zlen nodes < 10000 /\ id = node_name (length nodes) /\
  nodes' = nodes ++ [{| ln_id := id; ln_op := op; ln_inputs := inputs; ln_config := config |}].
Proof.
  unfold add, node_name. rewrite sm_bind_eq. cbn [get]. destruct (Z.leb_spec 10000 (zlen nodes)).
  - split; [done|lia].
  - split; [intros [= <- <-]; by split|by intros (_ & -> & ->)].
Qed.
Lemma add_leaf op config nodes id nodes' : config_good op 0 config ->
  add op [] config nodes = Ok (id, nodes') -> placed_at nodes id nodes'.
Proof.
  intros (Hop & Ha & Hf) (Hn & -> & ->)%add_Ok. eexists. split; [done|]. split.
  - by apply plan_leaf.
  - rewrite length_app, zlen_app. cbn. rewrite Nat.add_sub. split; [done|]. unfold zlen in *. cbn. lia.
Qed.
Lemma add_one before root op config nodes id nodes' : placed_at before root nodes ->
  config_good op 1 config -> add op [root] config nodes = Ok (id, nodes') -> placed_at before id nodes'.
Proof.
  intros (l & -> & Hl & -> & _) (Hop & Ha & Hf) (Hn & -> & ->)%add_Ok.
  exists (l ++ [{| ln_id := node_name (length (before ++ l)); ln_op := op;
    ln_inputs := [node_name (length (before ++ l) - 1)]; ln_config := config |}]).
  split; [by rewrite app_assoc|]. split.
  - apply plan_one; [done|]. rewrite <- length_app. by split.
  - rewrite (length_app (before ++ l)), zlen_app. cbn [length]. rewrite Nat.add_sub. split; [done|].
    unfold zlen in *. cbn [length]. lia.
Qed.
Lemma add_two before lhs rhs op config nodes1 nodes id nodes' : placed_at before lhs nodes1 ->
  placed_at nodes1 rhs nodes -> config_good op 2 config ->
  add op [lhs; rhs] config nodes = Ok (id, nodes') -> placed_at before id nodes'.
Proof.
  intros (l & -> & Hl & -> & _) (r & -> & Hr & -> & _) (Hop & Ha & Hf) (Hn & -> & ->)%add_Ok.
  exists (l ++ r ++ [{| ln_id := node_name (length ((before ++ l) ++ r)); ln_op := op;
    ln_inputs := [node_name (length (before ++ l) - 1); node_name (length ((before ++ l) ++ r) - 1)];
    ln_config := config |}]).
  split; [by rewrite !app_assoc|]. split.
  - rewrite length_app in Hr. apply plan_two; [done|done|].
    split; cbn [ln_id ln_op ln_inputs ln_config]; rewrite ?length_app; try done.
  - rewrite (length_app ((before ++ l) ++ r)), zlen_app. cbn [length]. rewrite Nat.add_sub. split; [done|].
    unfold zlen in *. cbn [length]. lia.
Qed.

(** *** Expressions of configurations *)

Section Plans.
Context `{NumberText, Grammar}.

Lemma lower_expr_fits e w : lower_expr e = Ok w -> fits w.
Proof. by intros (_ & _ & Hf)%lower_expr_Ok. Qed.
Lemma literal_fits j ty : fits (ELiteral j ty).
Proof. split; cbn; lia. Qed.
Lemma lower_properties_fits properties ps : lower_properties properties = Ok ps -> Forall fits ps.*2.
Proof.
  intros Hp%traverse_Ok. induction Hp as [|kv p l ps Hkv _ IH]; [constructor|].
  apply bind_Ok in Hkv as (v & (j & _ & [= <-])%bind_Ok & [= <-]). constructor; [apply literal_fits|done].
Qed.
Lemma pattern_node_fits alias id labels properties n : pattern_node alias id labels properties = Ok n ->
  Forall fits (pattern_node_expressions n).
Proof.
  intros (a & _ & (i & Hi & (ls & _ & (ps & Hps & [= <-])%bind_Ok)%bind_Ok)%bind_Ok)%bind_Ok.
  apply Forall_app. split; [|by eapply lower_properties_fits]. cbn [pn_id].
  destruct id as [e|]; cbn in Hi; [|injection Hi as <-; constructor].
  apply bind_Ok in Hi as (w & Hw & [= <-]). constructor; [by eapply lower_expr_fits|constructor].
Qed.
Lemma selected_fits items scope fields : selected items scope = Ok fields -> Forall fits (ne_expression <$> fields).
Proof.
  unfold selected. assert (Forall fits (ne_expression <$> ([] : list NamedExpr))) as Hnil by constructor.
  revert Hnil. generalize (@nil NamedExpr). induction items as [|item items IH]; intros acc Hacc; [by intros [= <-]|].
  rewrite try_for_cons. intros (acc' & Hacc' & Hr)%bind_Ok. apply (IH acc'); [|done].
  unfold selected_item in Hacc'. destruct (sp_value item) as [|e alias].
  - injection Hacc' as <-. rewrite fmap_app. apply Forall_app. split; [done|]. apply Forall_forall.
    intros w (f & -> & (a & -> & _)%list_elem_of_fmap)%list_elem_of_fmap. split; cbn; lia.
  - apply bind_Ok in Hacc' as (a & _ & (w & Hw & [= <-])%bind_Ok). rewrite fmap_app. apply Forall_app.
    split; [done|]. constructor; [by eapply lower_expr_fits|constructor].
Qed.
Lemma lower_sequence_fits start scope steps mode path_alias scope' p :
  Forall fits (pattern_node_expressions start) ->
  lower_sequence start scope steps mode path_alias = Ok (scope', p) -> Forall fits (pattern_expressions p).
Proof.
  intros Hs ([scope1 ws] & Hw & (pa & _ & [= _ <-])%bind_Ok)%bind_Ok.
  cbn [pattern_expressions spa_start spa_steps]. apply Forall_app. split; [done|].
  enough (forall steps acc r, Forall (fun s => Forall fits (pattern_node_expressions (ps_node s) ++ (pe_properties (ps_edge s)).*2)) acc.2 ->
    try_for lower_step acc steps = Ok r ->
    Forall (fun s => Forall fits (pattern_node_expressions (ps_node s) ++ (pe_properties (ps_edge s)).*2)) r.2) as He.
  { apply (He steps (scope, []) (scope1, ws)) in Hw; [|constructor]. cbn in Hw. apply Forall_concat.
    by rewrite Forall_fmap. }
  clear. induction steps as [|step steps IH]; intros acc r Hacc; [by intros [= <-]|].
  rewrite try_for_cons. intros (acc' & Hacc' & Hr)%bind_Ok. apply (IH acc'); [|done].
  apply bind_Ok in Hacc' as (e & _ & (a & _ & (rs & _ & (ps & Hps & (n & Hn & [= <-])%bind_Ok)%bind_Ok)%bind_Ok)%bind_Ok).
  cbn [snd]. apply Forall_app. split; [done|]. constructor; [|constructor]. apply Forall_app.
  split; [by eapply pattern_node_fits|by eapply lower_properties_fits].
Qed.

(** *** Sources, stages and queries *)

Variable resolve_parameter : string -> query Z.

Ltac fits_tac :=
  split; [reflexivity|split; [reflexivity|]]; unfold config_expressions; cbn [member_expressions fmap list_fmap snd app];
  solve [eapply selected_fits; eassumption
        |repeat constructor; eapply lower_expr_fits; eassumption].

Lemma leaf_source_good k op config scope : leaf_source resolve_parameter k = Ok (op, config, scope) ->
  config_good op 0 config.
Proof.
  destruct k; cbv [leaf_source lower_history lower_match]; intros Hk; try done; inv_result; simplify_eq; try fits_tac.
  destruct a1 as [scope' p]. inv_result. simplify_eq. split; [done|]. split; [done|].
  cbn [config_expressions member_expressions fmap list_fmap app]. rewrite app_nil_r.
  eapply lower_sequence_fits; [|eassumption]. by eapply pattern_node_fits.
Qed.
Lemma plain_stage_good scope stage op config scope' :
  plain_stage resolve_parameter scope stage = Ok (op, config, scope') -> config_good op 1 config.
Proof.
  destruct stage; cbv [plain_stage lower_knn lower_rerank lower_lexical_match lower_context_pack lower_expand lower_expand_sequence lower_aggregate lower_order]; intros Hk; try done; inv_result; simplify_eq; try fits_tac.
  - destruct a0 as [scope1 p]. inv_result. simplify_eq. split; [done|]. split; [done|].
    cbn [config_expressions member_expressions fmap list_fmap app].
    eapply lower_sequence_fits; [|eassumption]. by eapply pattern_node_fits.
  - split; [done|]. split; [done|]. cbn [config_expressions member_expressions fmap list_fmap app].
    apply Forall_app. eauto using selected_fits.
  - split; [done|]. split; [done|]. cbn [config_expressions member_expressions fmap list_fmap app].
    apply traverse_Ok in H1. induction H1 as [|o k l ks Ho _ IH]; [constructor|].
    apply bind_Ok in Ho as (e & He & [= <-]). constructor; [by eapply lower_expr_fits|done].
Qed.

Notation placed := (string * list string)%type.
Lemma placed_small before root nodes : placed_at before root nodes -> zlen nodes <= 10000.
Proof. by intros (l & _ & _ & _ & Hn). Qed.

Lemma lower_stage_placed before acc stage nodes acc' nodes' : placed_at before acc.1 nodes ->
  lower_stage resolve_parameter acc stage nodes = Ok (acc', nodes') -> placed_at before acc'.1 nodes'.
Proof.
  intros Hacc. unfold lower_stage.
  assert (forall stage, ('(op, config, scope) ← lift (plain_stage resolve_parameter acc.2 stage);
      root ← add op [acc.1] config; mret (root, scope)) nodes = Ok (acc', nodes') -> placed_at before acc'.1 nodes') as Hplain.
  { intros st ([[op config] scope] & ? & [Hst ->]%lift_Ok & (root & ? & Hadd & [= <- <-])%sm_bind_Ok)%sm_bind_Ok.
    eapply add_one; [done|by eapply plain_stage_good|done]. }
  destruct (sp_value stage); try apply Hplain.
  intros (a & ? & [_ ->]%lift_Ok & (t & ? & [_ ->]%lift_Ok & (r & nodes1 & Hr & Hj)%sm_bind_Ok)%sm_bind_Ok)%sm_bind_Ok.
  apply sm_bind_Ok in Hj as (c & ? & [Hc ->]%lift_Ok & (root & ? & Hadd & [= <- <-])%sm_bind_Ok).
  eapply (add_two _ _ _ _ _ nodes nodes1); [exact Hacc|eapply add_leaf; [|exact Hr]| |exact Hadd].
  - by repeat split; constructor.
  - split; [done|]. split; [done|]. by repeat constructor; eapply lower_expr_fits.
Qed.

Lemma lower_stages_placed before stages : forall acc nodes acc' nodes', placed_at before acc.1 nodes ->
  mfor (lower_stage resolve_parameter) acc stages nodes = Ok (acc', nodes') -> placed_at before acc'.1 nodes'.
Proof.
  induction stages as [|stage stages IH]; intros acc nodes acc' nodes' Hacc; [by intros [= <- <-]|].
  cbn [mfor]. intros (acc1 & nodes1 & H1 & H2)%sm_bind_Ok. eapply IH; [|exact H2].
  by eapply lower_stage_placed.
Qed.
Lemma lower_query_of_placed {S} (source : nat -> SM (list LogicalNodeV2) QueryErrorV2 placed) (q : QueryOf S)
    depth before acc nodes' :
  (forall depth acc nodes', source depth before = Ok (acc, nodes') -> placed_at before acc.1 nodes') ->
  lower_query_of resolve_parameter source q depth before = Ok (acc, nodes') -> placed_at before acc.1 nodes'.
Proof.
  intros Hs. unfold lower_query_of. destruct (too_deep depth); [done|].
  intros (acc1 & nodes1 & H1%Hs & ([root scope] & nodes2 & H2 & H3)%sm_bind_Ok)%sm_bind_Ok.
  apply (lower_stages_placed before) in H2; [|done]. cbn [fst] in H2.
  apply sm_bind_Ok in H3 as (fields & ? & [Hf ->]%lift_Ok & (r & ? & Hadd & [= <- <-])%sm_bind_Ok).
  eapply add_one; [done| |exact Hadd]. split; [done|]. split; [done|]. by eapply selected_fits.
Qed.
Lemma lower_source_placed : forall k depth before acc nodes',
  lower_source resolve_parameter k depth before = Ok (acc, nodes') -> placed_at before acc.1 nodes'.
Proof.
  fix IH 1. intros k depth before acc nodes'.
  assert (forall k, ('(op, config, scope) ← lift (leaf_source resolve_parameter k);
      root ← add op [] config; mret (root, scope)) before = Ok (acc, nodes') -> placed_at before acc.1 nodes') as Hleaf.
  { intros k0 ([[op config] scope] & ? & [Hst ->]%lift_Ok & (root & ? & Hadd & [= <- <-])%sm_bind_Ok)%sm_bind_Ok.
    eapply add_leaf; [by eapply leaf_source_good|done]. }
  destruct k as [| | | | | | | |[? ? [? lhs] ? ?] [? ? [? rhs] ? ?]|]; try apply Hleaf.
  cbn [lower_source sp_value q_source]. clear Hleaf.
  intros ([left_ scope] & nodes1 & H1 & ([right_ scope2] & nodes2 & H2 & (r & ? & Hadd & [= <- <-])%sm_bind_Ok)%sm_bind_Ok)%sm_bind_Ok.
  apply lower_query_of_placed in H1; [|intros; by eapply IH].
  apply lower_query_of_placed in H2; [|intros; by eapply IH].
  eapply add_two; [exact H1|exact H2| |exact Hadd]. by repeat split; constructor.
Qed.

(** A lowered request is a plan: [h0], [h1], ..., its root the last. *)
Lemma lowered_plan statement r :
  lower_hql2_with_unsigned_resolver resolve_parameter statement = Ok r ->
  plan 0 (lr_nodes r) /\ lr_root r = node_name (length (lr_nodes r) - 1) /\
  zlen (lr_nodes r) <= 10000 /\ lr_parameter_types r = [] /\ lr_from_hql r = true.
Proof.
  unfold lower_hql2_with_unsigned_resolver. intros Hr.
  destruct (st_kind statement); try done;
    apply bind_Ok in Hr as (q & _ & ([[root scope] nodes] & Hq & [= <-])%bind_Ok);
    apply lower_query_of_placed in Hq as (l & -> & Hl & Hroot & Hn); try (intros; by eapply lower_source_placed);
    cbn [app] in *; cbn; done.
Qed.
End Plans.
