(* ===== verification/Bind.v ===== *)
(** * Binding of scalar expressions

    [src/src/query/hql2/bind.rs], lines 25 to 713: parameters, bound expressions and
    kernels, the typing rules of operators and functions, and the binder of
    expressions with its explicit stack. *)
From S2P Require Export Wire Source.
Local Open Scope Z_scope.

Definition bind_unsupported : QueryErrorV2 :=
  query_error "CAPABILITY_UNSUPPORTED" "bind" "operator_unavailable".
Definition capability (reason : string) : QueryErrorV2 :=
  query_error "CAPABILITY_UNSUPPORTED" "bind" reason.

(** ** Parameters *)

Fixpoint contains_entity_type (ty : QueryTypeV2) : bool :=
  match ty with
  | TEntity => true
  | TNullable inner | TList inner => contains_entity_type inner
  | _ => false
  end.
Fixpoint contains_json (ty : QueryTypeV2) : bool :=
  match ty with
  | TJson => true
  | TNullable inner | TList inner => contains_json inner
  | _ => false
  end.

Definition json_as_str (j : json) : option string :=
  match j with JString s => Some s | _ => None end.
Definition json_as_array (j : json) : option (list json) :=
  match j with JArray l => Some l | _ => None end.

Definition BoundParametersV2 : Type := btree (QueryTypeV2 * QueryValueV2).

Section Parameters.
Context `{UuidCrate, Serde}.

(** A parameter of type "vector": [type], [space_id] and [values]. *)
Definition vector_type (object : btree json) (name : string)
  (parameter_types : option (btree string)) : query QueryTypeV2 :=
  match parameter_types ≫= bt_get cmp_str name with
  | Some declared => type_parse declared
  | None =>
      match parameter_types with
      | Some _ => Err (bind_invalid "vector_type_unresolved")
      | None =>
          space_id ← ok_or (s ← bt_get cmp_str "space_id" object ≫= json_as_str;
                            if bool_decide (s = ""%string) then None else Some s)
                           (bind_invalid "vector_type_unresolved");
          dimension ← ok_or (l ← bt_get cmp_str "values" object ≫= json_as_array;
                             if (0 <? zlen l) && (zlen l <=? u16_max) then Some (zlen l) else None)
                            (bind_invalid "vector_type_unresolved");
          Ok (TVector space_id dimension F64)
      end
  end.
Definition decode_vector_parameter (object : btree json) (name : string)
  (parameter_types : option (btree string)) : query (QueryTypeV2 * QueryValueV2) :=
  if negb (zlen object =? 3) then Err (bind_invalid "typed_parameter")
  else
    ty ← vector_type object name parameter_types;
    match ty with
    | TVector space_id _ _ =>
        if negb (bool_decide ((bt_get cmp_str "space_id" object ≫= json_as_str) = Some space_id))
        then Err (query_error "COLLECTION_SPACE_MISMATCH" "bind" "vector_space")
        else
          vector ← ok_or (bt_get cmp_str "values" object) (bind_invalid "typed_parameter");
          value ← type_decode ty vector;
          Ok (ty, value)
    | _ => Err (bind_invalid "parameter_type_mismatch")
    end.
Definition decode_scalar_parameter (object : btree json) : query (QueryTypeV2 * QueryValueV2) :=
  match bt_get cmp_str "value" object with
  | Some payload =>
      if negb (zlen object =? 2) then Err (bind_invalid "typed_parameter")
      else
        declared ← ok_or (bt_get cmp_str "type" object ≫= json_as_str)
                         (bind_invalid "typed_parameter");
        ty ← type_parse declared;
        if bool_decide (ty = TNull) || contains_json ty
        then Err (capability "json_parameter_unavailable")
        else if negb (bool_decide (ty = TEntity)) && contains_entity_type ty
        then Err (capability "entity_parameter_scope")
        else
          value ← type_decode ty payload;
          Ok (ty, value)
  | None => Err (bind_invalid "typed_parameter")
  end.
Definition decode_parameter (parameter_types : option (btree string)) (name : string)
  (value : json) : query (QueryTypeV2 * QueryValueV2) :=
  match value with
  | JObject object =>
      if bool_decide ((bt_get cmp_str "type" object ≫= json_as_str) = Some "vector"%string)
      then decode_vector_parameter object name parameter_types
      else decode_scalar_parameter object
  | _ => Err (bind_invalid "typed_parameter")
  end.
(** [BoundParametersV2::decode] *)
Definition parameters_decode (params : btree json) (parameter_types : option (btree string))
  : query BoundParametersV2 :=
  try_for (fun values '(name, value) =>
      tv ← decode_parameter parameter_types name value;
      Ok (bt_insert cmp_str name tv values)) [] params.
Definition params_get (params : BoundParametersV2) (name : string)
  : query (QueryTypeV2 * QueryValueV2) :=
  ok_or (bt_get cmp_str name params) (bind_invalid "undeclared_parameter").
Definition params_decimal_u64 (params : BoundParametersV2) (name : string) : query Z :=
  '(ty, value) ← params_get params name;
  if negb (bool_decide (ty = TDecimalU64)) then Err (bind_invalid "parameter_type_mismatch")
  else match value with
       | VDecimalU64 value => Ok value
       | _ => Err (bind_invalid "parameter_type_mismatch")
       end.
End Parameters.

(** ** Bound expressions *)

Record Column := { co_name : string; co_ty : QueryTypeV2 }.
#[export] Instance column_eq_dec : EqDecision Column.
Proof. solve_decision. Defined.

(** [ExprKind], over the type of the operands *)
Inductive ExprKindF (X : Type) : Type :=
| KLiteral (v : QueryValueV2)
| KField (i : nat)
| KEntityRefField (i : nat) (field : string)
| KScoreField (i : nat) (field : string)
| KHistoryField (i : nat) (field : string)
| KChangeField (i : nat) (field : string)
| KProperty (entity name : X) (has_property : bool) (field : FieldIdV2)
| KBinary (op : BinaryOp) (lhs rhs : X)
| KUnary (op : UnaryOp) (arg : X)
| KLower (arg : X)
| KLength (arg : X)
| KIn (needle : X) (values : list X) (negated : bool).
Arguments KLiteral {X}. Arguments KField {X}. Arguments KEntityRefField {X}.
Arguments KScoreField {X}. Arguments KHistoryField {X}. Arguments KChangeField {X}.
Arguments KProperty {X}. Arguments KBinary {X}. Arguments KUnary {X}. Arguments KLower {X}.
Arguments KLength {X}. Arguments KIn {X}.
Inductive BoundExpr : Type := Bound (be_ty : QueryTypeV2) (be_kind : ExprKindF BoundExpr).
Notation ExprKind := (ExprKindF BoundExpr).
Definition be_ty (e : BoundExpr) : QueryTypeV2 := let 'Bound ty _ := e in ty.
Definition be_kind (e : BoundExpr) : ExprKind := let 'Bound _ kind := e in kind.

Definition kind_children {X} (k : ExprKindF X) : list X :=
  match k with
  | KProperty entity name _ _ => [entity; name]
  | KBinary _ lhs rhs => [lhs; rhs]
  | KUnary _ arg | KLower arg | KLength arg => [arg]
  | KIn needle values _ => needle :: values
  | _ => []
  end.
Definition be_children (e : BoundExpr) : list BoundExpr := kind_children (be_kind e).
Fixpoint be_size (e : BoundExpr) : nat :=
  S (let 'Bound _ kind := e in
     match kind with
     | KProperty entity name _ _ => be_size entity + be_size name
     | KBinary _ lhs rhs => be_size lhs + be_size rhs
     | KUnary _ arg | KLower arg | KLength arg => be_size arg
     | KIn needle values _ => be_size needle + list_sum (map be_size values)
     | _ => 0
     end).
Lemma be_size_eq e : be_size e = S (list_sum (map be_size (be_children e))).
Proof. destruct e as [ty []]; cbn; unfold list_sum; cbn; lia. Qed.
Lemma bound_expr_ind' (P : BoundExpr -> Prop) :
  (forall e, Forall P (be_children e) -> P e) -> forall e, P e.
Proof.
  intros H e. induction e as [e IH] using (Nat.measure_induction _ be_size).
  apply H, Forall_forall. intros c Hc. apply IH. rewrite (be_size_eq e).
  clear -Hc. induction (be_children e) as [|a l IHl]; [by inversion Hc|].
  unfold list_sum in *. cbn. apply elem_of_cons in Hc as [->|Hc]; [lia|].
  specialize (IHl Hc). lia.
Qed.

(** ** Kernels *)

Inductive AggregateKind := ACountAll | ACount | ASum | AAvg | AMin | AMax | ACollect.
Record Aggregate := { ag_kind : AggregateKind; ag_arg : option BoundExpr }.
Inductive VectorRankKind := RankKnn | RankRerank.
Record CollectionSpaceV2 := {
  cs_name : string; cs_space_id : string; cs_dimension : Z; cs_metric : string }.
Record BoundPatternProperty := {
  bp_expected : BoundExpr; bp_value_field : FieldIdV2; bp_has_property_field : FieldIdV2 }.
Record BoundSequenceNode := {
  bn_id : option BoundExpr; bn_labels : list string;
  bn_properties : btree BoundPatternProperty }.
Record BoundSequenceStep := {
  bs_end_index : nat; bs_edge_index : option nat; bs_pattern : CompactPattern;
  bs_node : BoundSequenceNode; bs_edge_properties : btree BoundPatternProperty }.
Record BoundMatchAnchor := { ma_column_index : nat; ma_record : RecordRefV2 }.

Inductive Kernel :=
| KnValues (v : QueryValueV2)
| KnSourceScan (source : BoundSourceV2)
| KnMatchCompact (pattern : CompactPattern) (shortest : bool) (anchors : list BoundMatchAnchor)
| KnMatchSequence (start : BoundSequenceNode) (steps : list BoundSequenceStep) (mode : PathMode)
    (path_index : option nat) (shortest : bool) (anchors : list BoundMatchAnchor)
| KnAnnotationLookup (target_index : nat) (optional : bool)
| KnVectorRank (entity_index : nat) (query : BoundExpr) (collection : CollectionSpaceV2) (k : Z)
    (kind : VectorRankKind)
| KnLexicalMatch (entity_index : nat) (field has_property : FieldIdV2) (query : string) (k : Z)
    (alias_index : nat)
| KnContextPack (text evidence text_entity : BoundExpr) (tokens : Z)
    (tokenizer_fingerprint : string)
| KnExpand (start_index : nat) (end_index : option nat) (pattern : CompactPattern)
    (optional : bool)
| KnExpandSequence (start_index : nat) (start : BoundSequenceNode)
    (steps : list BoundSequenceStep) (mode : PathMode) (path_index : option nat)
    (optional : bool)
| KnFilter (predicate : BoundExpr)
| KnProject (exprs : list BoundExpr)
| KnDistinct
| KnSort (keys : list (BoundExpr * SortDirection * NullOrder))
| KnTake (count : Z)
| KnOffset (count : Z)
| KnUnionAll
| KnAggregate (groups : list BoundExpr) (aggregates : list Aggregate)
| KnJoin (kind : JoinKind) (condition : BoundExpr) (right_width : nat).

Record BoundNode := {
  bd_id : string; bd_op : QueryOpV2; bd_inputs : list nat; bd_columns : list Column;
  bd_kernel : Kernel }.
Record BoundQueryV2 := { bq_nodes : list BoundNode; bq_root : nat }.

(** ** Typing rules *)

Definition ordered (ty : QueryTypeV2) : bool :=
  match type_base ty with TBool | TI64 | TDecimalU64 | TF64Finite | TUtf8 => true | _ => false end.
Definition equality_comparable (ty : QueryTypeV2) : bool :=
  ordered ty || bool_decide (type_base ty = TJson).
Definition numeric (ty : QueryTypeV2) : bool :=
  match type_base ty with TI64 | TF64Finite => true | _ => false end.
Definition boolean (ty : QueryTypeV2) : query unit :=
  if bool_decide (type_base ty = TBool) then Ok tt else Err (bind_invalid "boolean_type").
Definition nullable (ty : QueryTypeV2) (yes : bool) : QueryTypeV2 :=
  if yes then as_nullable ty else ty.

Definition contextual_null (null : BoundExpr) (context : QueryTypeV2) : query BoundExpr :=
  if negb (bool_decide (be_ty null = TNull)) || bool_decide (type_base context = TNull)
  then Err (bind_invalid "ambiguous_null_literal")
  else Ok (Bound (as_nullable context) (be_kind null)).

(** [FieldIdRegistryV2]: the next free slot, a [u32]. *)
Notation registry := (SM Z QueryErrorV2).
Definition issue (has_property : bool) (bound_name : option string) : registry FieldIdV2 :=
  fun next =>
    if next + 1 <=? u32_max then
      let field := field_new next has_property in
      Ok (match bound_name with Some name => with_name field name | None => field end, next + 1)
    else Err (bind_invalid "field_count").

Definition entity_fields : list string := ["database_id"; "namespace"; "kind"; "id"; "revision"]%string.
Definition score_field_type (field : string) : option QueryTypeV2 :=
  if bool_decide (field ∈ ["value"; "distance"]%string) then Some TF64Finite
  else if bool_decide (field = "owner"%string) then Some TEntity
  else if bool_decide (field ∈ ["source"; "scope"; "metric"]%string) then Some TUtf8
  else None.
Definition history_field_type (field : string) : option QueryTypeV2 :=
  if bool_decide (field = "subject"%string) then Some TEntity
  else if bool_decide (field ∈ ["operation"; "valid_from"]%string) then Some TUtf8
  else if bool_decide (field = "tx_from"%string) then Some TDecimalU64
  else if bool_decide (field = "tx_to"%string) then Some (as_nullable TDecimalU64)
  else if bool_decide (field = "valid_to"%string) then Some (as_nullable TUtf8)
  else if bool_decide (field ∈ ["id"; "kind"; "revision_id"]%string) then Some TUtf8
  else None.
Definition change_field_type (field : string) : option QueryTypeV2 :=
  if bool_decide (field = "sequence"%string) then Some TDecimalU64
  else if bool_decide (field = "operation"%string) then Some TUtf8
  else if bool_decide (field = "subject"%string) then Some TEntity
  else None.

(** The arms of [bind_expr_node]; operands are bound already. *)
Definition bind_literal `{UuidCrate, Serde} (literal : json) (name : string) : query BoundExpr :=
  ty ← type_parse name;
  if bool_decide (ty = TNull) then
    if negb (bool_decide (literal = JNull)) then Err (bind_invalid "null_literal")
    else Ok (Bound ty (KLiteral VNull))
  else if bool_decide (ty = TEntity) then Err (capability "entity_literal_scope")
  else v ← type_decode ty literal; Ok (Bound ty (KLiteral v)).
Definition bind_param (params : BoundParametersV2) (param : string) : query BoundExpr :=
  '(ty, value) ← params_get params param;
  if bool_decide (ty = TEntity) then Err (capability "entity_parameter_scope")
  else Ok (Bound ty (KLiteral value)).
Definition bind_field (scope : list Column) (field : FieldRef) : query BoundExpr :=
  index ← ok_or (position (fun c => bool_decide (co_name c = fr_alias field)) scope)
                (bind_invalid "unknown_field");
  column ← ok_or (scope !! index) (bind_invalid "unknown_field");
  let base := type_base (co_ty column) in
  match fr_path field with
  | [] => Ok (Bound (co_ty column) (KField index))
  | [name] =>
      if bool_decide (base = TEntity) && bool_decide (name ∈ entity_fields) then
        Ok (Bound (nullable TUtf8 (is_nullable (co_ty column))) (KEntityRefField index name))
      else if bool_decide (base = TScore) then
        ty ← ok_or (score_field_type name) (bind_invalid "score_field");
        Ok (Bound ty (KScoreField index name))
      else if bool_decide (base = THistoryRevision) then
        ty ← ok_or (history_field_type name) (bind_invalid "history_field");
        Ok (Bound ty (KHistoryField index name))
      else if bool_decide (base = TChangeEvent) then
        ty ← ok_or (change_field_type name) (bind_invalid "change_field");
        Ok (Bound ty (KChangeField index name))
      else Err (bind_invalid "scalar_field_path")
  | _ => Err (bind_invalid "scalar_field_path")
  end.

(** The type of a binary operator over the types of its operands *)
Definition binary_type (op : BinaryOp) (l r : QueryTypeV2) : query QueryTypeV2 :=
  let null := is_nullable l || is_nullable r in
  match op with
  | OAnd | OOr => boolean l ;; boolean r ;; Ok (nullable TBool null)
  | OAdd | OSub | OMul | ODiv | ORem =>
      if negb (numeric l) || negb (bool_decide (type_base l = type_base r))
      then Err (bind_invalid "numeric_type")
      else Ok (nullable (type_base l) null)
  | OEq | ONe =>
      if bool_decide (l = TNull) || bool_decide (r = TNull)
      then Err (bind_invalid "ambiguous_null_literal")
      else if negb (bool_decide (type_base l = type_base r))
      then Err (bind_invalid "comparison_type")
      else if negb (equality_comparable l) then Err (capability "equality_unavailable")
      else Ok (nullable TBool null)
  | OLt | OLe | OGt | OGe =>
      if negb (ordered l) || negb (bool_decide (type_base l = type_base r))
      then Err (bind_invalid "comparator_unavailable")
      else Ok (nullable TBool null)
  | OContains | OStartswith =>
      if negb (bool_decide (type_base l = TUtf8)) || negb (bool_decide (type_base r = TUtf8))
      then Err (bind_invalid "string_type")
      else Ok (nullable TBool null)
  end.
Definition bind_binary (op : BinaryOp) (l r : BoundExpr) : query BoundExpr :=
  '(l, r) ←
    (if bool_decide (be_ty l = TNull) && negb (bool_decide (be_ty r = TNull)) then
       l ← contextual_null l (be_ty r); Ok (l, r)
     else if bool_decide (be_ty r = TNull) && negb (bool_decide (be_ty l = TNull)) then
       r ← contextual_null r (be_ty l); Ok (l, r)
     else Ok (l, r) : query (BoundExpr * BoundExpr));
  ty ← binary_type op (be_ty l) (be_ty r);
  Ok (Bound ty (KBinary op l r)).
Definition bind_unary (op : UnaryOp) (arg : BoundExpr) : query BoundExpr :=
  let null_test := match op with OIsNull | OIsNotNull => true | _ => false end in
  if null_test && bool_decide (be_ty arg = TNull)
  then Err (bind_invalid "ambiguous_null_literal")
  else
    ty ← match op with
         | ONot => boolean (be_ty arg) ;; Ok (be_ty arg)
         | ONeg => if numeric (be_ty arg) then Ok (be_ty arg)
                   else Err (bind_invalid "numeric_type")
         | OIsNull | OIsNotNull => Ok TBool
         end;
    Ok (Bound ty (KUnary op arg)).
Definition literal_name (name : BoundExpr) : option string :=
  match be_kind name with KLiteral (VUtf8 value) => Some value | _ => None end.
Definition bind_property (has_property : bool) (entity name : BoundExpr) : registry BoundExpr :=
  if negb (bool_decide (type_base (be_ty entity) = TEntity))
     || negb (bool_decide (type_base (be_ty name) = TUtf8))
  then fail (bind_invalid "property_type")
  else
    field ← issue has_property (literal_name name);
    mret (Bound (if has_property then TBool else TNullable TJson)
                (KProperty entity name has_property field)).
Definition bind_text_function (lower : bool) (arg : BoundExpr) : query BoundExpr :=
  if negb (bool_decide (type_base (be_ty arg) = TUtf8)) then Err (bind_invalid "function_type")
  else
    let ty := nullable (if lower then TUtf8 else TI64) (is_nullable (be_ty arg)) in
    Ok (Bound ty (if lower then KLower arg else KLength arg)).
Definition bind_in (needle : BoundExpr) (values : list BoundExpr) (negated : bool)
  : query BoundExpr :=
  if bool_decide (be_ty needle = TNull) then Err (bind_invalid "ambiguous_null_literal")
  else
    values ← traverse (fun value =>
               if bool_decide (be_ty value = TNull) then contextual_null value (be_ty needle)
               else Ok value) values;
    if negb (equality_comparable (be_ty needle)) then Err (capability "equality_unavailable")
    else if existsb (fun v => negb (bool_decide (type_base (be_ty v) = type_base (be_ty needle))))
              values
    then Err (bind_invalid "comparison_type")
    else
      let null := is_nullable (be_ty needle) || existsb (fun v => is_nullable (be_ty v)) values in
      Ok (Bound (nullable TBool null) (KIn needle values negated)).

(** ** The binder *)

Section Binder.
Context `{UuidCrate, Serde}.
Variable scope : list Column.
Variable params : BoundParametersV2.

Definition bound_missing : QueryErrorV2 := bind_invalid "bound_expression".
Definition depth_check (depth : nat) : registry unit :=
  if 128 <=? Z.of_nat depth then fail (bind_invalid "expression_depth") else mret tt.

Definition property_call (call : string) : option bool :=
  if bool_decide (call = "prop"%string) then Some false
  else if bool_decide (call = "has_prop"%string) then Some true else None.
Definition text_call (call : string) : option bool :=
  if bool_decide (call = "lower"%string) then Some true
  else if bool_decide (call = "length"%string) then Some false else None.

(** [bind_expr_node]: the operands are taken from [ready], in order. *)
Definition bind_expr_node (p : path) (expr : Expr)
  : SM (Z * gmap path BoundExpr) QueryErrorV2 BoundExpr :=
  let next i := take_ready bound_missing (p ++ [i]) in
  match expr with
  | ELiteral literal ty => lift (bind_literal literal ty)
  | EParam param => lift (bind_param params param)
  | EField field => lift (bind_field scope field)
  | EBinary binary _ _ => l ← next 0%nat; r ← next 1%nat; lift (bind_binary binary l r)
  | EUnary unary _ => arg ← next 0%nat; lift (bind_unary unary arg)
  | ECall call args =>
      match property_call call with
      | Some has_property =>
          if negb (Nat.eqb (length args) 2) then fail (bind_invalid "function_arity")
          else
            entity ← next 0%nat; name ← next 1%nat;
            on_state (bind_property has_property entity name)
      | None =>
          match text_call call with
          | Some lower =>
              if negb (Nat.eqb (length args) 1) then fail (bind_invalid "function_arity")
              else arg ← next 0%nat; lift (bind_text_function lower arg)
          | None => fail (bind_invalid "unknown_function")
          end
      end
  | EIn _ values negated =>
      needle ← next 0%nat;
      values ← mtraverse next (seq 1 (length values));
      lift (bind_in needle values negated)
  end.

(** [bind_expr]; two visits of every node are enough for the loop. *)
Definition bind_expr (expr : Expr) (depth : nat) : registry BoundExpr :=
  post_order expr_children bound_missing depth_check (fun _ => mret tt) bind_expr_node
    (2 * expr_size expr) expr depth.

(** ** The recursive binder *)

Definition bind_rec_node (expr : Expr) (bound : list BoundExpr) : registry BoundExpr :=
  match expr, bound with
  | ELiteral literal ty, _ => lift (bind_literal literal ty)
  | EParam param, _ => lift (bind_param params param)
  | EField field, _ => lift (bind_field scope field)
  | EBinary binary _ _, [l; r] => lift (bind_binary binary l r)
  | EUnary unary _, [arg] => lift (bind_unary unary arg)
  | ECall call _, args =>
      match property_call call, text_call call with
      | Some has_property, _ =>
          match args with
          | [entity; name] => bind_property has_property entity name
          | _ => fail (bind_invalid "function_arity")
          end
      | None, Some lower =>
          match args with
          | [arg] => lift (bind_text_function lower arg)
          | _ => fail (bind_invalid "function_arity")
          end
      | None, None => fail (bind_invalid "unknown_function")
      end
  | EIn _ _ negated, needle :: values => lift (bind_in needle values negated)
  | _, _ => fail bound_missing
  end.
Fixpoint bind_rec (depth : nat) (expr : Expr) : registry BoundExpr :=
  depth_check depth ;;
  bound ← match expr with
          | EBinary _ lhs rhs =>
              l ← bind_rec (S depth) lhs; r ← bind_rec (S depth) rhs; mret [l; r]
          | EUnary _ arg => a ← bind_rec (S depth) arg; mret [a]
          | ECall _ args => mtraverse (bind_rec (S depth)) args
          | EIn needle values _ =>
              n ← bind_rec (S depth) needle;
              vs ← mtraverse (bind_rec (S depth)) values; mret (n :: vs)
          | _ => mret []
          end;
  bind_rec_node expr bound.

Lemma depth_check_eq d s :
  depth_check d s = if 128 <=? Z.of_nat d then Err (bind_invalid "expression_depth") else Ok (tt, s).
Proof. unfold depth_check. by destruct (_ <=? _). Qed.

Lemma bind_rec_eq d t s :
  bind_rec d t s =
  (depth_check d ;; (fun _ => mret tt : registry unit) t ;;
   vs ← mtraverse (bind_rec (S d)) (expr_children t); depth_check d ;; bind_rec_node t vs) s.
Proof.
  assert (forall (m : registry (list BoundExpr)) s0,
    (128 <=? Z.of_nat d) = false ->
    (m ≫= fun vs => depth_check d ;; bind_rec_node t vs) s0
    = (m ≫= fun vs => bind_rec_node t vs) s0) as Hskip.
  { intros m s0 Hd. rewrite !sm_bind_eq. destruct (m s0) as [[vs s1]|e]; [|done].
    rewrite sm_bind_eq, depth_check_eq, Hd. done. }
  transitivity (match depth_check d s with
    | Ok (_, s') => (mtraverse (bind_rec (S d)) (expr_children t) ≫= bind_rec_node t) s'
    | Err e => Err e end).
  2: { symmetry. rewrite sm_bind_eq, depth_check_eq. destruct (_ <=? _) eqn:Hd; [done|].
       exact (Hskip (mtraverse (bind_rec (S d)) (expr_children t)) s eq_refl). }
  destruct t as [| | |op lhs rhs|op arg|call args|needle values negated]; cbn [bind_rec]; rewrite (sm_bind_eq (depth_check d));
    destruct (depth_check d s) as [[[] s0]|e]; try done;
    cbn [expr_children mtraverse]; rewrite !sm_bind_eq; try done.
  destruct (bind_rec (S d) lhs s0) as [[v s1]|e]; [|done]. rewrite !sm_bind_eq.
  by destruct (bind_rec (S d) rhs s1) as [[v' s2]|e].
Qed.

Lemma bind_node_spec p t vs r s :
  length vs = length (expr_children t) -> (forall q, p `prefix_of` q -> r !! q = None) ->
  bind_expr_node p t (s, insert_children p 0 vs r) =
  match bind_rec_node t vs s with Ok (v, s') => Ok (v, (s', r)) | Err e => Err e end.
Proof.
  intros Hl Hr.
  destruct t as [literal ty|param|field|op lhs rhs|op arg|call args|needle values negated]; cbn [expr_children] in Hl.
  1-3: destruct vs; [|done]; cbn [bind_expr_node bind_rec_node insert_children]; unfold lift.
  1: by destruct (bind_literal literal ty).
  1: by destruct (bind_param params param).
  1: by destruct (bind_field scope field).
  all: cbn [bind_expr_node bind_rec_node].
  - destruct vs as [|a [|b [|]]]; try done. rewrite !sm_bind_eq, take_child, sm_bind_eq, take_child by done.
    unfold lift. by destruct (bind_binary op a b).
  - destruct vs as [|a [|]]; try done. rewrite !sm_bind_eq, take_child by done.
    unfold lift. by destruct (bind_unary op a).
  - destruct (property_call call) as [hp|].
    + destruct vs as [|a [|b [|]]]; destruct args as [|? [|? [|]]]; try done. cbn [length Nat.eqb negb].
      rewrite !sm_bind_eq, take_child, sm_bind_eq, take_child by done.
      rewrite on_state_eq. done.
    + destruct (text_call call) as [lo|]; [|done].
      destruct vs as [|a [|]]; destruct args as [|? [|]]; try done. cbn [length Nat.eqb negb].
      rewrite !sm_bind_eq, take_child by done. unfold lift. by destruct (bind_text_function lo a).
  - destruct vs as [|n vs]; [done|]. cbn in Hl. injection Hl as Hl.
    rewrite !sm_bind_eq, take_child, sm_bind_eq by done. rewrite <- Hl, take_children by done.
    unfold lift. by destruct (bind_in n vs negated).
Qed.

Lemma bind_expr_loop expr depth s : bind_expr expr depth s = bind_rec depth expr s.
Proof.
  unfold bind_expr.
  apply post_order_rec with (size := expr_size) (rec_node := bind_rec_node); [..|done].
  - apply expr_size_eq.
  - apply bind_rec_eq.
  - apply bind_node_spec.
Qed.
End Binder.

(** The binder's loop is the recursive binder: it always ends with a bound expression
    or an error of the typing rules, never with a missing operand. *)
Theorem bind_expr_rec `{UuidCrate, Serde} scope params expr depth s :
  bind_expr scope params expr depth s = bind_rec scope params depth expr s.
Proof. apply bind_expr_loop. Qed.

(** ** Well-typed expressions *)

(** The typing relation of bound expressions over the types of the input columns. *)
Definition column_is (scope : list QueryTypeV2) (i : nat) (base : QueryTypeV2)
  (ty : option QueryTypeV2) (result : QueryTypeV2) : bool :=
  match scope !! i with
  | Some c => bool_decide (type_base c = base) && bool_decide (ty = Some result)
  | None => false
  end.
(** A column read at its own type; or a column of nulls, read where another type is
    expected ([contextual_null]). *)
Definition field_typed (scope : list QueryTypeV2) (i : nat) (ty : QueryTypeV2) : bool :=
  match scope !! i with
  | Some c => bool_decide (c = ty) || (bool_decide (c = TNull) && is_nullable ty)
  | None => false
  end.
Definition unary_type (op : UnaryOp) (arg : QueryTypeV2) : option QueryTypeV2 :=
  match op with
  | ONot => if bool_decide (type_base arg = TBool) then Some arg else None
  | ONeg => if numeric arg then Some arg else None
  | OIsNull | OIsNotNull => if bool_decide (arg = TNull) then None else Some TBool
  end.
Fixpoint well_typed (scope : list QueryTypeV2) (e : BoundExpr) : bool :=
  let 'Bound ty kind := e in
  match kind with
  | KLiteral v => has_type ty v
  | KField i => field_typed scope i ty
  | KEntityRefField i f =>
      bool_decide (f ∈ entity_fields) &&
      column_is scope i TEntity
        (nullable TUtf8 <$> (is_nullable <$> scope !! i)) ty
  | KScoreField i f => column_is scope i TScore (score_field_type f) ty
  | KHistoryField i f => column_is scope i THistoryRevision (history_field_type f) ty
  | KChangeField i f => column_is scope i TChangeEvent (change_field_type f) ty
  | KProperty entity name has_property field =>
      well_typed scope entity && well_typed scope name
      && bool_decide (type_base (be_ty entity) = TEntity)
      && bool_decide (type_base (be_ty name) = TUtf8)
      && Bool.eqb (fi_has_property field) has_property
      && bool_decide (ty = if has_property then TBool else TNullable TJson)
  | KBinary op l r =>
      well_typed scope l && well_typed scope r
      && bool_decide (result_ok (binary_type op (be_ty l) (be_ty r)) = Some ty)
  | KUnary op a => well_typed scope a && bool_decide (unary_type op (be_ty a) = Some ty)
  | KLower a =>
      well_typed scope a && bool_decide (type_base (be_ty a) = TUtf8)
      && bool_decide (ty = nullable TUtf8 (is_nullable (be_ty a)))
  | KLength a =>
      well_typed scope a && bool_decide (type_base (be_ty a) = TUtf8)
      && bool_decide (ty = nullable TI64 (is_nullable (be_ty a)))
  | KIn needle values _ =>
      well_typed scope needle && forallb (well_typed scope) values
      && equality_comparable (be_ty needle)
      && forallb (fun v => bool_decide (type_base (be_ty v) = type_base (be_ty needle))) values
      && bool_decide (ty = nullable TBool (is_nullable (be_ty needle)
                           || existsb (fun v => is_nullable (be_ty v)) values))
  end.

(** The property slots of an expression. *)
Fixpoint be_fields (e : BoundExpr) : list FieldIdV2 :=
  let 'Bound _ kind := e in
  match kind with
  | KProperty entity name _ field => (be_fields entity ++ be_fields name) ++ [field]
  | KBinary _ l r => be_fields l ++ be_fields r
  | KUnary _ a | KLower a | KLength a => be_fields a
  | KIn needle values _ => be_fields needle ++ concat (map be_fields values)
  | _ => []
  end.

Definition params_ok (params : BoundParametersV2) : Prop :=
  Forall (fun p => has_type p.2.1 p.2.2 = true) params.

(** Decoded parameters are values of their types, whatever the request holds. *)
Theorem parameters_decode_typed `{UuidCrate, Serde} params types values
  (Hd : parameters_decode params types = Ok values) : params_ok values.
Proof.
  unfold parameters_decode in Hd.
  assert (forall acc, params_ok acc -> try_for (fun values '(name, value) =>
      tv ← decode_parameter types name value; Ok (bt_insert cmp_str name tv values)) acc params
    = Ok values -> params_ok values) as Hloop; [|by eapply (Hloop []); [constructor|]].
  clear Hd. induction params as [|[name value] params IH]; intros acc Hacc.
  - by intros [= <-].
  - rewrite try_for_cons. intros (acc' & Ha & Hr)%bind_Ok. apply IH in Hr; [done|].
    apply bind_Ok in Ha as ([ty v] & Hv & Ha). apply (inj Ok) in Ha as <-.
    assert (has_type ty v = true) as Htv.
    { unfold decode_parameter in Hv. destruct value as [| | | | |object]; try done.
      destruct (bool_decide _).
      - unfold decode_vector_parameter in Hv. destruct (negb _); [done|].
        apply bind_Ok in Hv as (t & _ & Hv). destruct t; try done.
        destruct (negb _); [done|]. inv_result. subst. by eapply type_decode_typed.
      - unfold decode_scalar_parameter in Hv. destruct (bt_get _ _ _); [|done].
        destruct (negb _); [done|]. apply bind_Ok in Hv as (nm & _ & Hv).
        apply bind_Ok in Hv as (t & _ & Hv). destruct (_ || _); [done|].
        destruct (_ && _); [done|]. inv_result. subst. by eapply type_decode_typed. }
    apply Forall_forall. intros p Hp. apply bt_insert_keys in Hp as [->|Hp]; [done|].
    by eapply Forall_forall in Hacc.
Qed.

(** ** What the binder establishes *)

(** A list of bound operands: well typed, with slots of their own from [n] on. *)
Definition slots (bs : list BoundExpr) : list Z := map fi_index (concat (map be_fields bs)).
Record bound_ok (scope : list Column) (n n' : Z) (bs : list BoundExpr) : Prop := {
  bk_typed : forallb (well_typed (map co_ty scope)) bs = true;
  bk_next : n <= n';
  bk_slots : Forall (fun i => n <= i < n') (slots bs);
  bk_distinct : NoDup (slots bs);
}.

Lemma bound_ok_nil scope n : bound_ok scope n n [].
Proof. split; [done|lia|constructor|constructor]. Qed.
Lemma slots_app bs cs : slots (bs ++ cs) = slots bs ++ slots cs.
Proof. unfold slots. by rewrite map_app, concat_app, map_app. Qed.
Lemma bound_ok_app scope n m n' bs cs :
  bound_ok scope n m bs -> bound_ok scope m n' cs -> bound_ok scope n n' (bs ++ cs).
Proof.
  intros [Ht Hn Hs Hd] [Ht' Hn' Hs' Hd']. split.
  - by rewrite forallb_app, Ht, Ht'.
  - lia.
  - rewrite slots_app. apply Forall_app. split.
    + eapply Forall_impl; [exact Hs|]. intros i Hi. cbn in Hi. lia.
    + eapply Forall_impl; [exact Hs'|]. intros i Hi. cbn in Hi. lia.
  - rewrite slots_app. apply NoDup_app. split_and!; try done.
    intros i Hi Hi'. pose proof (proj1 (Forall_forall _ _) Hs i Hi).
    pose proof (proj1 (Forall_forall _ _) Hs' i Hi'). cbn in *. lia.
Qed.
(** A node over its operands adds no slots of its own. *)
Lemma bound_ok_node scope n n' bs b :
  bound_ok scope n n' bs -> be_fields b = concat (map be_fields bs) ->
  well_typed (map co_ty scope) b = true -> bound_ok scope n n' [b].
Proof.
  intros [Ht Hn Hs Hd] Hb Hw.
  assert (slots [b] = slots bs) as Hsl by (unfold slots; cbn; by rewrite app_nil_r, Hb).
  split; [by cbn; rewrite Hw|done|by rewrite Hsl|by rewrite Hsl].
Qed.

Lemma type_base_nullable t yes : type_base t <> TNull -> type_base (nullable t yes) = type_base t.
Proof. destruct yes, t; done. Qed.
Lemma nullable_not_null t yes : t <> TNull -> nullable t yes <> TNull.
Proof. destruct yes, t; done. Qed.
Lemma binary_type_not_null op l r t : binary_type op l r = Ok t -> t <> TNull.
Proof.
  assert (numeric l = true -> type_base l <> TNull) as Hl.
  { unfold numeric. intros Hn E0. by rewrite E0 in Hn. }
  unfold binary_type, boolean.
  destruct op; repeat (case_goal; cbn [mbind result_bind]; try done); intros [= <-];
    apply nullable_not_null; try done;
    match goal with Hn : negb (numeric l) || _ = false |- _ =>
      apply orb_false_iff in Hn as [Hn%negb_false_iff _]; auto end.
Qed.

Section BinderTyping.
Context `{UuidCrate, Serde}.
Variable scope : list Column.
Variable params : BoundParametersV2.
Hypothesis Hparams : params_ok params.
Notation wt := (well_typed (map co_ty scope)).

(** Only the literal null and columns of nulls have the type [Null]. *)
Lemma null_typed e : wt e = true -> be_ty e = TNull ->
  be_kind e = KLiteral VNull \/ exists i, be_kind e = KField i /\ map co_ty scope !! i = Some TNull.
Proof.
  destruct e as [ty kind]. cbn [be_ty be_kind]. intros Hw ->.
  assert (forall i base t, column_is (map co_ty scope) i base t TNull = true ->
            t = Some TNull) as Hcol.
  { unfold column_is. intros i base t Hc. destruct (map co_ty scope !! i); [|done].
    apply andb_true_iff in Hc as [_ Hc]. by apply bool_decide_eq_true in Hc. }
  destruct kind; cbn [well_typed] in Hw; rewrite ?andb_true_iff, ?bool_decide_eq_true in Hw.
  - left. by destruct v.
  - right. exists i. split; [done|]. unfold field_typed in Hw.
    destruct (map co_ty scope !! i) as [c|]; [|done]. rewrite andb_false_r, orb_false_r in Hw.
    by apply bool_decide_eq_true in Hw as ->.
  - destruct Hw as [_ Hw]. apply Hcol in Hw. destruct (map co_ty scope !! i); [|done].
    cbn in Hw. by destruct (is_nullable q).
  - apply Hcol in Hw. unfold score_field_type in Hw. by repeat case_in Hw.
  - apply Hcol in Hw. unfold history_field_type in Hw. by repeat case_in Hw.
  - apply Hcol in Hw. unfold change_field_type in Hw. by repeat case_in Hw.
  - destruct Hw as [_ Hw]. by destruct has_property.
  - destruct Hw as [_ Hw]. destruct (binary_type op (be_ty lhs) (be_ty rhs)) eqn:Hb; [|done].
    cbn in Hw. injection Hw as ->. by apply binary_type_not_null in Hb.
  - destruct Hw as [_ Hw]. unfold unary_type, numeric in Hw.
    destruct op; repeat case_in Hw; try done; injection Hw as Hw; rewrite Hw in *; done.
  - destruct Hw as [_ Hw]. by destruct (is_nullable (be_ty arg)).
  - destruct Hw as [_ Hw]. by destruct (is_nullable (be_ty arg)).
  - destruct Hw as [_ Hw]. by destruct (_ || _) in Hw.
Qed.
Lemma contextual_null_Ok e context e' : wt e = true -> contextual_null e context = Ok e' ->
  wt e' = true /\ be_fields e' = be_fields e /\ be_ty e' = as_nullable context /\
  type_base context <> TNull /\ be_ty e = TNull.
Proof.
  unfold contextual_null. intros Hw. destruct (bool_decide _) eqn:Hn; [|done].
  apply bool_decide_eq_true in Hn. destruct (bool_decide (type_base context = TNull)) eqn:Hc; [done|].
  apply bool_decide_eq_false in Hc. intros [= <-]. pose proof (null_typed e Hw Hn) as Hk.
  assert (is_nullable (as_nullable context) = true) as Hnull by (unfold as_nullable; by destruct context).
  destruct e as [ty kind]. cbn in Hk, Hn. destruct Hk as [->|(i & -> & Hi)]; subst; cbn.
  - split_and!; try done. unfold as_nullable. by destruct context.
  - unfold field_typed. rewrite Hi, Hnull, (bool_decide_eq_true_2 (TNull = TNull)) by done.
    by rewrite orb_true_r.
Qed.
Lemma type_base_as_nullable t : type_base (as_nullable t) = type_base t.
Proof. unfold as_nullable. destruct t; done. Qed.

Lemma bind_literal_Ok literal name b :
  bind_literal literal name = Ok b -> wt b = true /\ be_fields b = [].
Proof.
  unfold bind_literal. intros (ty & _ & Hb)%bind_Ok.
  destruct (bool_decide (ty = TNull)) eqn:Hn.
  - apply bool_decide_eq_true in Hn as ->. destruct (negb _); [done|]. by injection Hb as <-.
  - case_in Hb; [done|]. apply bind_Ok in Hb as (v & Hv & Hb).
    injection Hb as <-. cbn. split; [by eapply type_decode_typed|done].
Qed.
Lemma bind_param_Ok param b : bind_param params param = Ok b -> wt b = true /\ be_fields b = [].
Proof.
  unfold bind_param, params_get. intros ([ty v] & Hp & Hb)%bind_Ok.
  apply ok_or_Ok in Hp. apply bt_get_Some_elem in Hp; [|exact _].
  case_in Hb; [done|]. injection Hb as <-. cbn. split; [|done].
  eapply Forall_forall in Hparams; [|exact Hp]. done.
Qed.
Lemma bind_field_Ok field b : bind_field scope field = Ok b -> wt b = true /\ be_fields b = [].
Proof.
  unfold bind_field. intros (i & _ & Hb)%bind_Ok. apply bind_Ok in Hb as (c & Hc%ok_or_Ok & Hb).
  assert (map co_ty scope !! i = Some (co_ty c)) as Hi by (by rewrite list_lookup_fmap, Hc).
  assert (forall base t t', type_base (co_ty c) = base -> t = Some t' ->
            column_is (map co_ty scope) i base t t' = true) as Hcol.
  { intros base t t' <- ->. unfold column_is. by rewrite Hi, !bool_decide_eq_true_2. }
  destruct (fr_path field) as [|name [|]]; [| |done].
  - injection Hb as <-. cbn. unfold field_typed. by rewrite Hi, bool_decide_eq_true_2.
  - destruct (bool_decide (_ = TEntity) && _) eqn:He.
    + apply andb_true_iff in He as [He Hf]. apply bool_decide_eq_true in He.
      injection Hb as <-. cbn. rewrite Hf, Hi. split; [|done]. cbn. by apply Hcol.
    + repeat (destruct (bool_decide (type_base (co_ty c) = _)) eqn:Hbase in Hb;
        [apply bool_decide_eq_true in Hbase; inv_result; subst b; split;
           [by eapply Hcol|reflexivity] | clear Hbase]). done.
Qed.
Lemma bind_binary_Ok op l r b : wt l = true -> wt r = true -> bind_binary op l r = Ok b ->
  wt b = true /\ be_fields b = be_fields l ++ be_fields r.
Proof.
  unfold bind_binary. intros Hl Hr ([l' r'] & Hlr & Hb)%bind_Ok.
  apply bind_Ok in Hb as (ty & Hty & Hb). injection Hb as <-.
  assert (wt l' = true /\ wt r' = true /\ be_fields l' = be_fields l /\ be_fields r' = be_fields r)
    as (Hwl & Hwr & Hfl & Hfr).
  { destruct (_ && _); [|destruct (_ && _)]; inv_result; simplify_eq; try done.
    - by apply contextual_null_Ok in H1 as (? & ? & _).
    - by apply contextual_null_Ok in H1 as (? & ? & _). }
  cbn. rewrite Hwl, Hwr, Hty, Hfl, Hfr. cbn. by rewrite bool_decide_eq_true_2.
Qed.
Lemma bind_unary_Ok op a b : wt a = true -> bind_unary op a = Ok b ->
  wt b = true /\ be_fields b = be_fields a.
Proof.
  unfold bind_unary. intros Ha. destruct (_ && _) eqn:Hn; [done|].
  intros (ty & Hty & Hb)%bind_Ok. injection Hb as <-. cbn. rewrite Ha. cbn. split; [|done].
  apply bool_decide_eq_true. unfold boolean in Hty.
  destruct op; cbn in *; rewrite ?Hn; repeat case_in Hty; cbn in *; try done; congruence.
Qed.
Lemma bind_text_Ok lower a b : wt a = true -> bind_text_function lower a = Ok b ->
  wt b = true /\ be_fields b = be_fields a.
Proof.
  unfold bind_text_function. intros Ha. destruct (bool_decide _) eqn:Hb; [|done]. cbn [negb].
  intros [= <-]. destruct lower; cbn; rewrite Ha, Hb; cbn; by rewrite bool_decide_eq_true_2.
Qed.
Lemma bind_in_Ok needle values negated b :
  wt needle = true -> forallb wt values = true -> bind_in needle values negated = Ok b ->
  wt b = true /\ be_fields b = be_fields needle ++ concat (map be_fields values).
Proof.
  unfold bind_in. intros Hn Hv. destruct (bool_decide _); [done|].
  intros (vs & Hvs & Hb)%bind_Ok. destruct (equality_comparable _) eqn:He; [|done]. cbn [negb] in Hb.
  destruct (existsb _ vs) eqn:Hex; [done|]. injection Hb as <-.
  assert (forallb wt vs = true /\ map be_fields vs = map be_fields values) as [Hw Hf].
  { clear He Hex. apply traverse_Ok in Hvs. induction Hvs as [|v v' l l' Hvv _ IH]; [done|].
    cbn in Hv. apply andb_true_iff in Hv as [Hv1 Hv2]. destruct (IH Hv2) as [IH1 IH2].
    cbn. rewrite IH1, IH2. destruct (bool_decide _); [|by injection Hvv as <-; rewrite Hv1].
    apply contextual_null_Ok in Hvv as (-> & -> & _); done. }
  cbn. rewrite Hn, Hw, He, Hf, (bool_decide_eq_true_2 _ eq_refl), andb_true_r. cbn. split; [|done].
  apply forallb_forall. intros v Hin%list_elem_of_In.
  apply negb_false_iff. exact (existsb_In_false _ _ _ Hex Hin).
Qed.

Lemma bind_property_Ok hp entity name m b n' :
  wt entity = true -> wt name = true -> bind_property hp entity name m = Ok (b, n') ->
  exists field, n' = m + 1 /\ fi_index field = m /\ wt b = true /\
    be_fields b = (be_fields entity ++ be_fields name) ++ [field].
Proof.
  unfold bind_property. intros He Hn. destruct (_ || _) eqn:Hb; [done|].
  apply orb_false_iff in Hb as [H1%negb_false_iff H2%negb_false_iff].
  unfold issue. rewrite sm_bind_eq. destruct (_ <=? _); [|done]. intros [= <- <-].
  eexists. split; [done|]. split; [|split; [|reflexivity]].
  - by destruct (literal_name name).
  - cbn. rewrite He, Hn, H1, H2. cbn. rewrite (bool_decide_eq_true_2 _ eq_refl), andb_true_r.
    destruct (literal_name name), hp; done.
Qed.

Lemma bind_rec_node_ok t bs n m b n' :
  length bs = length (expr_children t) ->
  bound_ok scope n m bs -> bind_rec_node scope params t bs m = Ok (b, n') ->
  bound_ok scope n n' [b].
Proof.
  intros Hlen Hbs Hb. pose proof (bk_typed _ _ _ _ Hbs) as Hw.
  assert (forall r : query BoundExpr, lift r m = Ok (b, n') ->
    (r = Ok b -> wt b = true /\ be_fields b = concat (map be_fields bs)) ->
    bound_ok scope n n' [b]) as Hlift.
  { intros r [Hr ->]%lift_Ok Hok. destruct (Hok Hr). by eapply bound_ok_node. }
  destruct t as [literal ty|param|field|op l r|op a|call args|needle values negated];
    cbn [bind_rec_node] in Hb; cbn [expr_children] in Hlen.
  - destruct bs; [|discriminate Hlen]. eapply Hlift; [exact Hb|]. intros Hr. cbn [map concat].
    exact (bind_literal_Ok _ _ _ Hr).
  - destruct bs; [|discriminate Hlen]. eapply Hlift; [exact Hb|]. intros Hr. cbn [map concat].
    exact (bind_param_Ok _ _ Hr).
  - destruct bs; [|discriminate Hlen]. eapply Hlift; [exact Hb|]. intros Hr. cbn [map concat].
    exact (bind_field_Ok _ _ Hr).
  - destruct bs as [|x [|y [|]]]; try done. cbn in Hw.
    rewrite !andb_true_iff in Hw. destruct Hw as (Hx & Hy & _).
    eapply Hlift; [exact Hb|]. intros Hr. cbn. rewrite app_nil_r.
    by eapply bind_binary_Ok.
  - destruct bs as [|x [|]]; try done. cbn in Hw.
    rewrite !andb_true_iff in Hw. destruct Hw as [Hx _].
    eapply Hlift; [exact Hb|]. intros Hr. cbn. rewrite app_nil_r. by eapply bind_unary_Ok.
  - destruct (property_call call) as [hp|].
    + destruct bs as [|x [|y [|]]]; try done. cbn in Hw. rewrite !andb_true_iff in Hw.
      apply bind_property_Ok in Hb as (f & -> & Hf & Hwb & Hbf); [|tauto|tauto].
      destruct Hbs as [_ Hn Hs Hd].
      assert (slots [b] = slots [x; y] ++ [m]) as Hsl.
      { unfold slots. cbn. rewrite !app_nil_r, Hbf, !map_app. cbn. by rewrite Hf. }
      split; [by cbn; rewrite Hwb|lia| |]; rewrite Hsl.
      * apply Forall_app. split; [|constructor; [lia|constructor]].
        eapply Forall_impl; [exact Hs|]. cbn. intros. lia.
      * apply NoDup_app. split_and!; [done| |apply NoDup_singleton].
        intros i Hi ->%list_elem_of_singleton.
        pose proof (proj1 (Forall_forall _ _) Hs m Hi). cbn in *. lia.
    + destruct (text_call call) as [lo|]; [|done].
      destruct bs as [|x [|]]; try done. cbn in Hw.
    rewrite !andb_true_iff in Hw. destruct Hw as [Hx _].
      eapply Hlift; [exact Hb|]. intros Hr. cbn. rewrite app_nil_r. by eapply bind_text_Ok.
  - destruct bs as [|x bs]; [done|]. cbn in Hw. apply andb_true_iff in Hw as [Hx Hw].
    eapply Hlift; [exact Hb|]. intros Hr. by eapply bind_in_Ok.
Qed.

Lemma bind_rec_ok expr : forall d n b n',
  bind_rec scope params d expr n = Ok (b, n') -> bound_ok scope n n' [b].
Proof.
  induction expr as [expr IH] using expr_ind'. intros d n b n'.
  rewrite bind_rec_eq, sm_bind_eq, depth_check_eq. destruct (_ <=? _) eqn:Hd; [done|].
  rewrite !sm_bind_eq, sm_ret_eq.
  rewrite sm_bind_eq. destruct (mtraverse _ _ n) as [[bs m]|e] eqn:Hm; [|done].
  rewrite sm_bind_eq, depth_check_eq, Hd. intros Hb.
  eapply bind_rec_node_ok; [by eapply mtraverse_length| |exact Hb].
  clear Hb. revert n bs Hm. induction IH as [|t ts Ht _ IHts]; intros n bs.
  - intros [= <- <-]. apply bound_ok_nil.
  - rewrite mtraverse_cons. destruct (bind_rec _ _ _ t n) as [[x k]|] eqn:Hx; [|done].
    destruct (mtraverse _ ts k) as [[xs k']|] eqn:Hxs; [|done]. intros [= <- <-].
    apply (bound_ok_app _ _ k _ [x] xs); [by eapply Ht|by eapply IHts].
Qed.
End BinderTyping.

(** Binding is sound for the typing relation: what the binder returns over any columns and
    parameters of sound types is a well-typed expression, whose property slots are
    distinct and were issued by this call. *)
Theorem bind_expr_typed `{UuidCrate, Serde} scope params expr depth n b n'
  (Hparams : params_ok params)
  (Hb : bind_expr scope params expr depth n = Ok (b, n')) : bound_ok scope n n' [b].
Proof. rewrite bind_expr_loop in Hb. by eapply bind_rec_ok. Qed.
