(* ===== verification/BindQuery.v ===== *)
(** * Binding of whole queries

    [src/src/query/hql2/bind.rs], lines 684 to 1698, with the catalogue it reads
    ([catalog.rs]): the binding of every operator of a logical query over the columns of
    its inputs, and the checks of the operator graph. *)
From S2P Require Export Bind Dag.
Local Open Scope Z_scope.

(** ** The catalogue *)

(** [hex::encode(Sha256::digest(..))] *)
Class HexSha256 := { hex_sha256 : string -> string }.

Definition LEXICAL_PROFILE_ID : string := "unicode-whitespace-bm25-v1".
Definition CONTEXT_TOKENIZER_ID : string := "unicode-scalar-v1".
Definition is_registered_analyzer (id : string) : bool := bool_decide (id = LEXICAL_PROFILE_ID).
Definition is_registered_tokenizer (id : string) : bool := bool_decide (id = CONTEXT_TOKENIZER_ID).
Definition text_profile_fingerprints `{HexSha256} : list (string * string) := [
  ("analyzer:unicode-whitespace-bm25-v1",
   hex_sha256 "genesis.hql2.analyzer.v1:unicode-whitespace:preserve-bytes:no-normalize:no-casefold:no-segmentation:bm25-v1");
  ("tokenizer:unicode-scalar-v1", hex_sha256 "genesis.hql2.tokenizer.v1:unicode-scalars-v1")
]%string.

(** [AuthorizedCatalogV2], without the stamp, which binding does not read *)
Record AuthorizedCatalogV2 := {
  ac_tables : list string; ac_collections : btree CollectionSpaceV2 }.
Definition has_table (catalog : AuthorizedCatalogV2) (table : string) : bool :=
  bool_decide (table ∈ ac_tables catalog).
Definition catalog_collection (catalog : AuthorizedCatalogV2) (name : string)
  : option CollectionSpaceV2 := bt_get cmp_str name (ac_collections catalog).

(** ** Columns *)

Definition unique (columns : list Column) : query unit :=
  if has_dup (map co_name columns) then Err (bind_invalid "duplicate_alias") else Ok tt.
Definition find_column (scope : list Column) (name : string) (reason : string) : query nat :=
  ok_or (position (fun c => bool_decide (co_name c = name)) scope) (bind_invalid reason).
Definition column_ty (columns : list Column) (i : nat) : QueryTypeV2 :=
  default TNull (co_ty <$> columns !! i).
(** The index of a column that must hold entities *)
Definition entity_column (scope : list Column) (name missing wrong_type : string) : query nat :=
  i ← find_column scope name missing;
  if bool_decide (type_base (column_ty scope i) = TEntity) then Ok i
  else Err (bind_invalid wrong_type).
(** The type of an edge's column: one entity for exactly one hop, else a list *)
Definition edge_ty (min_hops max_hops : Z) : QueryTypeV2 :=
  if (min_hops =? 1) && (max_hops =? 1) then TEntity else TList TEntity.
Definition opt_column (alias : option string) (ty : QueryTypeV2) : list Column :=
  match alias with Some name => [{| co_name := name; co_ty := ty |}] | None => [] end.

(** [iter().cloned().collect::<BTreeSet<_>>().into_iter().collect()] *)
Definition btree_set (l : list string) : list string :=
  map fst (foldl (fun s a => bt_insert cmp_str a tt s) [] l).

Section BindQuery.
Context `{UuidCrate, Serde, HexSha256}.
Variable params : BoundParametersV2.

Notation bind scope e := (bind_expr scope params e 0).

Definition bind_named_field (scope : list Column) (acc : list Column * list BoundExpr)
  (f : NamedExpr) : registry (list Column * list BoundExpr) :=
  e ← bind scope (ne_expression f);
  if bool_decide (be_ty e = TNull) then fail (bind_invalid "ambiguous_null_literal")
  else mret (acc.1 ++ [{| co_name := ne_alias f; co_ty := be_ty e |}], acc.2 ++ [e]).
Definition bind_named (fields : list NamedExpr) (scope : list Column)
  : registry (list Column * list BoundExpr) :=
  r ← mfor (bind_named_field scope) ([], []) fields;
  lift (unique r.1) ;; mret r.

(** ** Patterns *)

Definition id_expression_ok (allow_input_field : bool) (expression : Expr) : bool :=
  match expression with
  | ELiteral _ _ | EParam _ => true
  | EField _ => allow_input_field
  | _ => false
  end.
Definition bind_pattern_id (scope : list Column) (allow_input_field : bool) (id : option Expr)
  : registry (option BoundExpr) :=
  match id with
  | None => mret None
  | Some expression =>
      if negb (id_expression_ok allow_input_field expression)
      then fail (bind_invalid "pattern_id_expression")
      else
        bound ← bind scope expression;
        if bool_decide (be_ty bound = TUtf8) then mret (Some bound)
        else fail (bind_invalid "pattern_id_type")
  end.
Definition bind_pattern_property (scope : list Column) (p : string * Expr)
  : registry (string * BoundPatternProperty) :=
  expected ← bind scope p.2;
  if negb (bool_decide (be_ty expected = TJson)) then fail (bind_invalid "pattern_property_type")
  else
    value_field ← issue false (Some p.1);
    has_property_field ← issue true (Some p.1);
    mret (p.1, {| bp_expected := expected; bp_value_field := value_field;
                  bp_has_property_field := has_property_field |}).
Definition bind_pattern_properties (properties : btree Expr) (scope : list Column)
  : registry (btree BoundPatternProperty) := mtraverse (bind_pattern_property scope) properties.
Definition bind_sequence_node (node : PatternNode) (scope : list Column) (allow_input_field : bool)
  : registry BoundSequenceNode :=
  id ← bind_pattern_id scope allow_input_field (pn_id node);
  properties ← bind_pattern_properties (pn_properties node) scope;
  mret {| bn_id := id; bn_labels := btree_set (pn_labels node); bn_properties := properties |}.

(** The loop over the steps: the columns, their indices by alias, the steps, the alias
    of the node reached. *)
Record sequence_state := {
  ss_columns : list Column; ss_aliases : btree nat; ss_steps : list BoundSequenceStep;
  ss_previous : string }.
(** The end node's column: an earlier one with this alias, or a new one *)
Definition bind_end (optional : bool) (alias : string) (columns : list Column) (aliases : btree nat)
  : query (nat * list Column * btree nat) :=
  match bt_get cmp_str alias aliases with
  | Some index =>
      if bool_decide (type_base (column_ty columns index) = TEntity) then Ok (index, columns, aliases)
      else Err (bind_invalid "expand_end_type")
  | None =>
      let index := length columns in
      Ok (index, columns ++ [{| co_name := alias; co_ty := nullable TEntity optional |}],
          bt_insert cmp_str alias index aliases)
  end.
(** A new column, for an edge or the path *)
Definition bind_alias (alias : option string) (ty : QueryTypeV2) (columns : list Column)
  (aliases : btree nat) : query (option nat * list Column * btree nat) :=
  match alias with
  | None => Ok (None, columns, aliases)
  | Some alias =>
      if bt_contains cmp_str alias aliases then Err (bind_invalid "duplicate_alias")
      else
        let index := length columns in
        Ok (Some index, columns ++ [{| co_name := alias; co_ty := ty |}],
            bt_insert cmp_str alias index aliases)
  end.
Definition bind_step (optional : bool) (scope : list Column) (st : sequence_state) (step : PatternStep)
  : registry sequence_state :=
  let edge := ps_edge step in
  node ← bind_sequence_node (ps_node step) scope true;
  '(end_index, columns, aliases) ←
    lift (bind_end optional (pn_alias (ps_node step)) (ss_columns st) (ss_aliases st));
  '(edge_index, columns, aliases) ←
    lift (bind_alias (pe_alias edge)
            (nullable (edge_ty (pe_min_hops edge) (pe_max_hops edge)) optional) columns aliases);
  edge_properties ← bind_pattern_properties (pe_properties edge) scope;
  mret {| ss_columns := columns; ss_aliases := aliases;
          ss_steps := ss_steps st ++ [{|
            bs_end_index := end_index; bs_edge_index := edge_index;
            bs_pattern := {|
              cpa_start_alias := ss_previous st; cpa_end_alias := pn_alias (ps_node step);
              cpa_edge_alias := pe_alias edge; cpa_relations := pe_relations edge;
              cpa_direction := pe_direction edge; cpa_min_hops := pe_min_hops edge;
              cpa_max_hops := pe_max_hops edge; cpa_mode := ModeWalk; cpa_path_alias := None |};
            bs_node := node; bs_edge_properties := edge_properties |}];
          ss_previous := pn_alias (ps_node step) |}.
Definition column_aliases (columns : list Column) : btree nat :=
  foldl (fun m '(i, c) => bt_insert cmp_str (co_name c) i m) [] (imap pair columns).

Record sequence := {
  sq_columns : list Column; sq_start_index : nat; sq_start : BoundSequenceNode;
  sq_steps : list BoundSequenceStep; sq_mode : PathMode; sq_path_index : option nat }.
Definition bind_sequence (pattern : SequencePattern) (columns : list Column) (optional : bool)
  (constraint_scope : list Column) : registry sequence :=
  start ← bind_sequence_node (spa_start pattern) constraint_scope true;
  start_index ← lift (entity_column columns (pn_alias (spa_start pattern))
                        "expand_start" "expand_start_type");
  st ← mfor (bind_step optional constraint_scope)
         {| ss_columns := columns; ss_aliases := column_aliases columns; ss_steps := [];
            ss_previous := pn_alias (spa_start pattern) |} (spa_steps pattern);
  '(path_index, columns, _) ←
    lift (bind_alias (spa_path_alias pattern) (nullable TPath optional) (ss_columns st) (ss_aliases st));
  lift (unique columns) ;;
  mret {| sq_columns := columns; sq_start_index := start_index; sq_start := start;
          sq_steps := ss_steps st; sq_mode := spa_mode pattern; sq_path_index := path_index |}.

(** ** Match *)

(** The columns of a compact pattern *)
Definition compact_columns (pattern : CompactPattern) : list Column :=
  {| co_name := cpa_start_alias pattern; co_ty := TEntity |} ::
  (if bool_decide (cpa_end_alias pattern = cpa_start_alias pattern) then []
   else [{| co_name := cpa_end_alias pattern; co_ty := TEntity |}]) ++
  opt_column (cpa_edge_alias pattern) (edge_ty (cpa_min_hops pattern) (cpa_max_hops pattern)) ++
  opt_column (cpa_path_alias pattern) TPath.
(** The record an anchor names: an entity literal or an entity parameter *)
Definition anchor_record (expression : Expr) : query RecordRefV2 :=
  match expression with
  | ELiteral literal name =>
      ty ← type_parse name;
      if negb (bool_decide (ty = TEntity)) then Err (bind_invalid "match_anchor_type")
      else
        value ← type_decode TEntity literal;
        match value with VEntity record => Ok record | _ => Err (bind_invalid "match_anchor_type") end
  | EParam param =>
      '(ty, value) ← params_get params param;
      if negb (bool_decide (ty = TEntity)) then Err (bind_invalid "match_anchor_type")
      else match value with VEntity record => Ok record | _ => Err (bind_invalid "match_anchor_type") end
  | _ => Err (bind_invalid "match_anchor_expression")
  end.
Definition bind_anchor (node_aliases : list string) (columns : list Column) (anchor : string * Expr)
  : query BoundMatchAnchor :=
  if negb (bool_decide (anchor.1 ∈ node_aliases)) then Err (bind_invalid "match_anchor_alias")
  else
    record ← anchor_record anchor.2;
    column_index ← find_column columns anchor.1 "match_anchor_alias";
    Ok {| ma_column_index := column_index; ma_record := record |}.
(** [bind_match]: the anchors are the only part of the kernel bound last. *)
Definition bind_match (pattern : Pattern) (anchors : btree Expr) (shortest : bool)
  : registry (list Column * Kernel) :=
  match pattern with
  | PCompact pattern =>
      let columns := compact_columns pattern in
      lift (unique columns) ;;
      bound ← lift (traverse (bind_anchor [cpa_start_alias pattern; cpa_end_alias pattern] columns) anchors);
      mret (columns, KnMatchCompact pattern shortest bound)
  | PSequence pattern =>
      let start_alias := pn_alias (spa_start pattern) in
      sq ← bind_sequence pattern [{| co_name := start_alias; co_ty := TEntity |}] false [];
      bound ← lift (traverse (bind_anchor
                (start_alias :: map (fun step => pn_alias (ps_node step)) (spa_steps pattern))
                (sq_columns sq)) anchors);
      mret (sq_columns sq,
            KnMatchSequence (sq_start sq) (sq_steps sq) (sq_mode sq) (sq_path_index sq) shortest bound)
  end.

(** ** The operators *)

Variable catalog : AuthorizedCatalogV2.
Notation bound_op := (list Column * Kernel * QueryOpV2)%type.

Definition zero_vector (kind : ExprKind) : bool :=
  match kind with
  | KLiteral (VVector v) => forallb (fun x => f64_eqb x f64_zero) (vv_values v)
  | _ => false
  end.
(** [bind_vector_rank] past the check of the mode *)
Definition bind_exact_rank (scope : list Column) (entity collection_name : string) (query_expr : Expr)
  (k : Z) (alias : string) (kind : VectorRankKind) : registry bound_op :=
  collection ← lift (ok_or (catalog_collection catalog collection_name)
                           (bind_invalid "unknown_collection"));
  query ← bind scope query_expr;
  match type_base (be_ty query) with
  | TVector space_id dimension _ =>
      if negb (bool_decide (space_id = cs_space_id collection))
         || negb (dimension =? cs_dimension collection)
      then fail (query_error "COLLECTION_SPACE_MISMATCH" "bind" "vector_space")
      else if bool_decide (cs_metric collection = "Cosine"%string) && zero_vector (be_kind query)
      then fail (query_error "COLLECTION_SPACE_MISMATCH" "bind" "zero_cosine_norm")
      else
        entity_index ← lift (entity_column scope entity "vector_entity" "vector_entity_type");
        let columns := scope ++ [{| co_name := alias; co_ty := TScore |}] in
        lift (unique columns) ;;
        mret (columns, KnVectorRank entity_index query collection k kind,
              match kind with RankKnn => OpKnn | RankRerank => OpRerank end)
  | _ => fail (bind_invalid "vector_query_type")
  end.
Definition bind_vector_rank (scope : list Column) (entity collection_name : string) (query_expr : Expr)
  (k : Z) (alias : string) (mode : option KnnMode) (kind : VectorRankKind) : registry bound_op :=
  match mode with
  | Some KnnApprox => fail (capability "knn_approx_unavailable")
  | _ => bind_exact_rank scope entity collection_name query_expr k alias kind
  end.

Definition history_kind (kind : EntityKind) : option RecordKindV2 :=
  match kind with
  | EkNode => Some Node | EkEdge => Some Edge | EkRow => Some Row | EkVector => Some Vector
  | EkAnnotation => Some Annotation | EkArtifact => None
  end.
Definition bind_history_scan (scope : list Column) (kind : EntityKind) (id : Expr) (alias : string)
  : registry bound_op :=
  kind ← lift (ok_or (history_kind kind) (capability "history_source_unavailable"));
  id ← bind scope id;
  match be_kind id with
  | KLiteral (VUtf8 id) =>
      if bool_decide (id = ""%string) || (1024 <? zstr id) || bool_decide (byte_of 0 ∈ str_bytes id)
      then fail (bind_invalid "history_id")
      else mret ([{| co_name := alias; co_ty := THistoryRevision |}],
                 KnSourceScan (SrcHistory kind id), OpHistoryScan)
  | KLiteral _ => fail (bind_invalid "history_id_type")
  | _ => fail (bind_invalid "history_id_constant")
  end.
Definition bind_values (param alias : string) : query bound_op :=
  '(ty, value) ← params_get params param;
  match ty, value with
  | TList inner, VList _ => Ok ([{| co_name := alias; co_ty := inner |}], KnValues value, OpValues)
  | _, _ => Err (bind_invalid "values_list_parameter")
  end.
Definition bind_annotation_lookup (scope : list Column) (target alias : string) (optional : bool)
  : query bound_op :=
  target_index ← entity_column scope target "annotation_target" "annotation_target_type";
  let columns := scope ++ [{| co_name := alias; co_ty := nullable TEntity optional |}] in
  unique columns ;;
  Ok (columns, KnAnnotationLookup target_index optional, OpAnnotationLookup).
Definition bind_lexical_match (scope : list Column) (entity field index : string) (query : Expr)
  (k : Z) (alias : string) : registry bound_op :=
  if negb (is_registered_analyzer index) then fail (capability "unknown_analyzer")
  else
    entity_index ← lift (entity_column scope entity "lexical_entity" "lexical_entity_type");
    query ← bind scope query;
    match be_kind query with
    | KLiteral (VUtf8 query) =>
        field ← issue false (Some field);
        has_property ← issue true (Some (default ""%string (fi_name field)));
        let columns := scope ++ [{| co_name := alias; co_ty := TScore |}] in
        lift (unique columns) ;;
        mret (columns, KnLexicalMatch entity_index field has_property query k (length scope),
              OpLexicalMatch)
    | KLiteral _ => fail (bind_invalid "lexical_query_type")
    | _ => fail (bind_invalid "lexical_query_constant")
    end.
(** The entity whose named property the text is *)
Definition text_source (text : BoundExpr) : option BoundExpr :=
  match be_kind text with
  | KProperty entity name _ field =>
      match fi_name field, be_kind name with
      | Some _, KLiteral (VUtf8 _) => Some entity
      | _, _ => None
      end
  | _ => None
  end.
Definition same_column (a b : BoundExpr) : bool :=
  match be_kind a, be_kind b with KField i, KField j => bool_decide (i = j) | _, _ => false end.
Definition bind_context_pack (scope : list Column) (text evidence : Expr) (tokens : Z)
  (tokenizer alias : string) : registry bound_op :=
  if negb (is_registered_tokenizer tokenizer) then fail (capability "unknown_tokenizer")
  else
    text ← bind scope text;
    evidence ← bind scope evidence;
    if negb (bool_decide (type_base (be_ty text) = TJson)) || negb (bool_decide (be_ty evidence = TEntity))
    then fail (bind_invalid "context_source_type")
    else
      text_entity ← lift (ok_or (text_source text) (bind_invalid "context_text_source"));
      if negb (same_column text_entity evidence) then fail (bind_invalid "context_evidence_source")
      else
        fingerprint ← lift (ok_or
          (snd <$> List.find (fun p => bool_decide (p.1 = "tokenizer:unicode-scalar-v1"%string))
                     text_profile_fingerprints) bind_unsupported);
        mret ([{| co_name := alias; co_ty := TContext |}],
              KnContextPack text evidence text_entity tokens fingerprint, OpContextPack).

Definition bind_expand_compact (scope : list Column) (pattern : CompactPattern) (optional : bool)
  : query bound_op :=
  start_index ← entity_column scope (cpa_start_alias pattern) "expand_start" "expand_start_type";
  let end_index := position (fun c => bool_decide (co_name c = cpa_end_alias pattern)) scope in
  if match end_index with
     | Some index => negb (bool_decide (type_base (column_ty scope index) = TEntity))
     | None => false
     end
  then Err (bind_invalid "expand_end_type")
  else
    let columns :=
      scope ++
      match end_index with
      | Some _ => []
      | None => [{| co_name := cpa_end_alias pattern; co_ty := nullable TEntity optional |}]
      end ++
      opt_column (cpa_edge_alias pattern)
        (nullable (edge_ty (cpa_min_hops pattern) (cpa_max_hops pattern)) optional) ++
      opt_column (cpa_path_alias pattern) (nullable TPath optional) in
    unique columns ;;
    Ok (columns, KnExpand start_index end_index pattern optional, OpExpand).
Definition bind_expand (scope : list Column) (pattern : Pattern) (optional : bool) : registry bound_op :=
  match pattern with
  | PCompact pattern => lift (bind_expand_compact scope pattern optional)
  | PSequence pattern =>
      sq ← bind_sequence pattern scope optional scope;
      mret (sq_columns sq,
            KnExpandSequence (sq_start_index sq) (sq_start sq) (sq_steps sq) (sq_mode sq)
              (sq_path_index sq) optional, OpExpand)
  end.

Definition bind_sort_key (scope : list Column) (key : SortKey)
  : registry (BoundExpr * SortDirection * NullOrder) :=
  e ← bind scope (so_expression key);
  if negb (ordered (be_ty e)) then fail (bind_invalid "comparator_unavailable")
  else mret (e, so_direction key, so_nulls key).
Definition join_columns (kind : JoinKind) (scope right_ : list Column) : list Column :=
  match kind with
  | JoinSemi | JoinAnti => scope
  | JoinInner => scope ++ right_
  | JoinLeft =>
      scope ++ map (fun c => {| co_name := co_name c; co_ty := as_nullable (co_ty c) |}) right_
  end.
Definition bind_join (scope right_ : list Column) (kind : JoinKind) (condition : Expr)
  : registry bound_op :=
  let combined := scope ++ right_ in
  lift (unique combined) ;;
  condition ← bind combined condition;
  lift (boolean (be_ty condition)) ;;
  mret (join_columns kind scope right_, KnJoin kind condition (length right_), OpJoin).

Definition aggregate_kind (call : string) : option AggregateKind :=
  bt_get cmp_str call [("avg", AAvg); ("collect", ACollect); ("count", ACount);
    ("count_all", ACountAll); ("max", AMax); ("min", AMin); ("sum", ASum)]%string.
(** The type of an aggregate over the type of its argument *)
Definition aggregate_ty (kind : AggregateKind) (arg : QueryTypeV2) : query QueryTypeV2 :=
  match kind with
  | ACountAll | ACount => Ok TI64
  | ASum | AAvg =>
      if negb (numeric arg) then Err (bind_invalid "aggregate_numeric")
      else match kind with AAvg => Ok (as_nullable TF64Finite) | _ => Ok (as_nullable arg) end
  | AMin | AMax =>
      if negb (ordered arg) then Err (bind_invalid "comparator_unavailable")
      else Ok (as_nullable arg)
  | ACollect => Ok (TList arg)
  end.
Definition bind_aggregate_call (scope : list Column) (acc : list Column * list Aggregate)
  (named : NamedExpr) : registry (list Column * list Aggregate) :=
  match ne_expression named with
  | ECall call args =>
      kind ← lift (ok_or (aggregate_kind call) (bind_invalid "aggregate_function"));
      if negb (Nat.eqb (length args) (match kind with ACountAll => 0 | _ => 1 end))
      then fail (bind_invalid "aggregate_arity")
      else
        arg ← match args with [] => mret None | e :: _ => e ← bind scope e; mret (Some e) end;
        ty ← lift (aggregate_ty kind (default TNull (be_ty <$> arg)));
        mret (acc.1 ++ [{| co_name := ne_alias named; co_ty := ty |}],
              acc.2 ++ [{| ag_kind := kind; ag_arg := arg |}])
  | _ => fail (bind_invalid "aggregate_call")
  end.
Definition bind_aggregate (scope : list Column) (group_by aggregates : list NamedExpr)
  : registry bound_op :=
  '(columns, groups) ← bind_named group_by scope;
  '(columns, bound) ← mfor (bind_aggregate_call scope) (columns, []) aggregates;
  if bool_decide (columns = []) then fail (bind_invalid "aggregate_empty")
  else
    lift (unique columns) ;;
    mret (columns, KnAggregate groups bound, OpAggregate).

(** The arms of [bind_v2], over the columns of the first and the second input *)
Definition bind_config (scope right_ : list Column) (config : Config) : registry bound_op :=
  let source alias ty s op : bound_op := ([{| co_name := alias; co_ty := ty |}], KnSourceScan s, op) in
  match config with
  | CValues param alias => lift (bind_values param alias)
  | CAnnotationScan alias => mret (source alias TEntity SrcAnnotation OpAnnotationScan)
  | CHistoryScan kind id alias => bind_history_scan scope kind id alias
  | CChangeScan after_seq alias => mret (source alias TChangeEvent (SrcChanges after_seq) OpChangeScan)
  | CAnnotationLookup target alias optional => lift (bind_annotation_lookup scope target alias optional)
  | CKnn entity collection query k mode alias =>
      bind_vector_rank scope entity collection query k alias (Some mode) RankKnn
  | CRerank entity collection query k _ alias =>
      bind_vector_rank scope entity collection query k alias None RankRerank
  | CLexicalMatch entity field index query k alias =>
      bind_lexical_match scope entity field index query k alias
  | CContextPack text evidence tokens tokenizer alias =>
      bind_context_pack scope text evidence tokens tokenizer alias
  | CMatch pattern anchors shortest =>
      '(columns, kernel) ← bind_match pattern anchors shortest; mret (columns, kernel, OpMatch)
  | CExpand pattern optional => bind_expand scope pattern optional
  | CNodeScan alias label => mret (source alias TEntity (SrcNode label) OpNodeScan)
  | CEdgeScan alias relation => mret (source alias TEntity (SrcEdge relation) OpEdgeScan)
  | CRowScan table alias =>
      if negb (has_table catalog table) then fail (bind_invalid "unknown_table")
      else mret (source alias TEntity (SrcRow table) OpRowScan)
  | CFilter predicate =>
      e ← bind scope predicate;
      lift (boolean (be_ty e)) ;;
      mret (scope, KnFilter e, OpFilter)
  | CProject fields =>
      if bool_decide (length fields = 0%nat) then fail (bind_invalid "project_empty")
      else '(c, e) ← bind_named fields scope; mret (c, KnProject e, OpProject)
  | CDistinct => mret (scope, KnDistinct, OpDistinct)
  | CSort keys =>
      if bool_decide (length keys = 0%nat) then fail (bind_invalid "sort_empty")
      else bound ← mtraverse (bind_sort_key scope) keys; mret (scope, KnSort bound, OpSort)
  | CTake count => mret (scope, KnTake count, OpTake)
  | COffset count => mret (scope, KnOffset count, OpOffset)
  | CUnionAll =>
      if negb (bool_decide (scope = right_)) then fail (bind_invalid "union_schema")
      else mret (scope, KnUnionAll, OpUnionAll)
  | CJoin kind condition => bind_join scope right_ kind condition
  | CAggregate group_by aggregates => bind_aggregate scope group_by aggregates
  end.

(** ** The query *)

Definition config_arity (config : Config) : nat :=
  match config with
  | CValues _ _ | CNodeScan _ _ | CEdgeScan _ _ | CRowScan _ _ | CAnnotationScan _
  | CHistoryScan _ _ _ | CChangeScan _ _ | CMatch _ _ _ => 0
  | CJoin _ _ | CUnionAll => 2
  | _ => 1
  end.
(** The nodes bound so far, their indices by name and their depths *)
Record bind_state := { bv_nodes : list BoundNode; bv_index : btree nat; bv_depths : list nat }.
Definition input_columns (nodes : list BoundNode) (inputs : list nat) (i : nat) : list Column :=
  default [] (j ← inputs !! i; bd_columns <$> nodes !! j).
Definition input_depth (depths : list nat) (inputs : list nat) : nat :=
  S (list_max_with (fun i => default 0%nat (depths !! i)) inputs).
Definition bind_node (st : bind_state) (node : LogicalNodeV2) : registry bind_state :=
  if bt_contains cmp_str (ln_id node) (bv_index st) then fail (bind_invalid "duplicate_node")
  else
    inputs ← lift (traverse (fun s => ok_or (bt_get cmp_str s (bv_index st)) (bind_invalid "dag_order"))
                            (ln_inputs node));
    let depth := input_depth (bv_depths st) inputs in
    if (128 <? depth)%nat then fail (bind_invalid "dag_depth")
    else if negb (Nat.eqb (length inputs) (config_arity (ln_config node)))
    then fail (bind_invalid "input_arity")
    else
      '(columns, kernel, op) ←
        bind_config (input_columns (bv_nodes st) inputs 0) (input_columns (bv_nodes st) inputs 1)
          (ln_config node);
      if negb (bool_decide (op = ln_op node)) then fail (bind_invalid "operator_config_mismatch")
      else mret {|
        bv_nodes := bv_nodes st ++ [{| bd_id := ln_id node; bd_op := op; bd_inputs := inputs;
                                       bd_columns := columns; bd_kernel := kernel |}];
        bv_index := bt_insert cmp_str (ln_id node) (length (bv_nodes st)) (bv_index st);
        bv_depths := bv_depths st ++ [depth] |}.
Definition check_parameter (declared : string * string) : query unit :=
  ty ← type_parse declared.2;
  p ← params_get params declared.1;
  if bool_decide (ty = p.1) then Ok tt else Err (bind_invalid "parameter_type_mismatch").

Definition node_inputs (nodes : list BoundNode) (i : nat) : list nat :=
  default [] (bd_inputs <$> nodes !! i).
(** Fuel for the root and every input *)
Definition reachable_nodes (nodes : list BoundNode) (root : nat) : gset nat :=
  reach (node_inputs nodes)
    (S (list_sum (map (fun i => length (node_inputs nodes i)) (seq 0 (length nodes))))) [root] ∅.
Definition bind_v2 (request : LogicalRequestV2) : query BoundQueryV2 :=
  if bool_decide (length (lr_nodes request) = 0%nat) || (10000 <? zlen (lr_nodes request))
  then Err (bind_invalid "dag_size")
  else if negb (lr_from_hql request)
          && negb (Nat.eqb (length (lr_parameter_types request)) (length params))
  then Err (bind_invalid "parameter_declarations")
  else
    try_for (fun _ declared => check_parameter declared) tt (lr_parameter_types request) ;;
    match mfor bind_node {| bv_nodes := []; bv_index := []; bv_depths := [] |} (lr_nodes request) 0 with
    | Err e => Err e
    | Ok (st, _) =>
        root ← ok_or (bt_get cmp_str (lr_root request) (bv_index st)) (bind_invalid "root_missing");
        if negb (bool_decide (size (reachable_nodes (bv_nodes st) root) = length (bv_nodes st)))
        then Err (bind_invalid "orphan_node")
        else Ok {| bq_nodes := bv_nodes st; bq_root := root |}
    end.
End BindQuery.
