(* ===== verification/QueryTyping.v ===== *)
(** * Bound queries are well typed

    What [bind_v2] promises the executor: every operator's kernel is typed over the
    columns of its inputs and yields its own columns, names of columns and property
    slots are distinct, and the operators form a graph the executor can run in order. *)
From S2P Require Export BindQuery.
Local Open Scope Z_scope.

(** ** Binding, with the slots it issues *)

(** Distinct slots issued from [n] up to [n'] *)
Record issued (n n' : Z) (l : list Z) : Prop := {
  is_next : n <= n';
  is_range : Forall (fun i => n <= i < n') l;
  is_distinct : NoDup l;
}.
Lemma issued_nil n : issued n n [].
Proof. split; [lia|constructor|constructor]. Qed.
Lemma issued_app n m n' l k : issued n m l -> issued m n' k -> issued n n' (l ++ k).
Proof.
  intros [Hn Hs Hd] [Hn' Hs' Hd']. split; [lia| |].
  - apply Forall_app. split; (eapply Forall_impl; [done|]); cbn; lia.
  - apply NoDup_app. split_and!; try done. rewrite Forall_forall in Hs, Hs'.
    intros i Hi%Hs Hi'%Hs'. lia.
Qed.

(** Whenever [m] succeeds, its result and the slots it issued satisfy [Q]. *)
Definition binds {A} (m : registry A) (Q : A -> list Z -> Prop) : Prop :=
  forall n a n', m n = Ok (a, n') -> exists l, issued n n' l /\ Q a l.
Lemma binds_ret {A} (a : A) (Q : A -> list Z -> Prop) : Q a [] -> binds (mret a) Q.
Proof. intros HQ n b n' [= <- <-]. exists []. split; [apply issued_nil|done]. Qed.
Lemma binds_fail {A} e (Q : A -> list Z -> Prop) : binds (fail e) Q.
Proof. done. Qed.
Lemma binds_lift {A} (r : query A) (Q : A -> list Z -> Prop) :
  (forall a, r = Ok a -> Q a []) -> binds (lift r) Q.
Proof. intros HQ n a n' [Hr ->]%lift_Ok. exists []. split; [apply issued_nil|auto]. Qed.
Lemma binds_bind {A B} (m : registry A) (f : A -> registry B) R (Q : B -> list Z -> Prop) :
  binds m R -> (forall a l, R a l -> binds (f a) (fun b k => Q b (l ++ k))) -> binds (m ≫= f) Q.
Proof.
  intros Hm Hf n b n' (a & t & Ha & Hb)%sm_bind_Ok. destruct (Hm _ _ _ Ha) as (l & Hl & Hr).
  destruct (Hf a l Hr _ _ _ Hb) as (k & Hk & HQ). exists (l ++ k). split; [by eapply issued_app|done].
Qed.
Lemma binds_conseq {A} (m : registry A) (Q Q' : A -> list Z -> Prop) :
  binds m Q -> (forall a l, Q a l -> Q' a l) -> binds m Q'.
Proof. intros Hm HQ n a n' Ha. destruct (Hm _ _ _ Ha) as (l & Hl & Hq). exists l. auto. Qed.
Lemma binds_also {A} (m : registry A) (Q : A -> list Z -> Prop) (P : A -> Prop) :
  binds m Q -> (forall n a n', m n = Ok (a, n') -> P a) -> binds m (fun a l => P a /\ Q a l).
Proof. intros Hm HP n a n' Ha. destruct (Hm _ _ _ Ha) as (l & Hl & Hq). exists l. eauto. Qed.
(** A loop, with an invariant of its state and the slots issued so far *)
Lemma binds_mfor {A S} (f : S -> A -> registry S) (J : S -> list Z -> Prop) s k (l : list A) :
  J s k -> (forall s k a, a ∈ l -> J s k -> binds (f s a) (fun s' k' => J s' (k ++ k'))) ->
  binds (mfor f s l) (fun s' k' => J s' (k ++ k')).
Proof.
  revert s k; induction l as [|a l IH]; intros s k Hs Hf.
  - apply binds_ret. by rewrite app_nil_r.
  - cbn [mfor]. eapply binds_bind; [apply (Hf s k a); [by left|done]|].
    intros s' k' Hs'. eapply binds_conseq; [apply (IH s' (k ++ k') Hs'); intros; apply Hf; [by right|done]|].
    cbn. intros s'' k''. by rewrite <- (assoc app).
Qed.
(** A traversal whose results account for the slots *)
Lemma binds_mtraverse {A B} (f : A -> registry B) (R : B -> Prop) (S : B -> list Z) l :
  (forall a, binds (f a) (fun b k => R b /\ k = S b)) ->
  binds (mtraverse f l) (fun bs k => Forall R bs /\ k = concat (map S bs)).
Proof.
  intros Hf. induction l as [|a l IH]; cbn [mtraverse].
  - apply binds_ret. by split.
  - eapply binds_bind; [apply Hf|]. intros b k [Hb ->].
    eapply binds_bind; [apply IH|]. intros bs k' [Hbs ->].
    apply binds_ret. rewrite app_nil_r. by split; [constructor|].
Qed.

(** ** Typing of kernels *)

Definition be_slots (e : BoundExpr) : list Z := map fi_index (be_fields e).
Definition expr_typed (scope : list Column) (e : BoundExpr) : Prop :=
  well_typed (map co_ty scope) e = true.
(** A column that holds entities, or nulls where it may *)
Definition entity_at (columns : list Column) (i : nat) : Prop :=
  exists c, columns !! i = Some c /\ type_base (co_ty c) = TEntity.
Definition named_at (columns : list Column) (i : nat) (name : string) : Prop :=
  co_name <$> columns !! i = Some name.

Definition property_typed (scope : list Column) (p : string * BoundPatternProperty) : Prop :=
  expr_typed scope (bp_expected p.2) /\ be_ty (bp_expected p.2) = TJson /\
  fi_name (bp_value_field p.2) = Some p.1 /\ fi_has_property (bp_value_field p.2) = false /\
  fi_name (bp_has_property_field p.2) = Some p.1 /\ fi_has_property (bp_has_property_field p.2) = true.
Definition pattern_node_typed (scope : list Column) (n : BoundSequenceNode) : Prop :=
  match bn_id n with Some e => expr_typed scope e /\ be_ty e = TUtf8 | None => True end /\
  Forall (property_typed scope) (bn_properties n).
Record step_typed (scope columns : list Column) (optional : bool) (step : BoundSequenceStep) : Prop := {
  st_node : pattern_node_typed scope (bs_node step);
  st_edge_properties : Forall (property_typed scope) (bs_edge_properties step);
  st_end : entity_at columns (bs_end_index step);
  st_end_name : named_at columns (bs_end_index step) (cpa_end_alias (bs_pattern step));
  st_edge : forall i, bs_edge_index step = Some i -> co_ty <$> columns !! i =
    Some (nullable (edge_ty (cpa_min_hops (bs_pattern step)) (cpa_max_hops (bs_pattern step))) optional);
}.
(** Columns are filled in order: the next one, if any, is at the end of the row. *)
Definition fill (n : nat) (i : option nat) : option nat :=
  match i with None => Some n | Some i => if (i =? n)%nat then Some (S n) else None end.
Definition step_fill (n : nat) (s : BoundSequenceStep) : option nat :=
  m ← (if (bs_end_index s <? n)%nat then Some n else fill n (Some (bs_end_index s)));
  fill m (bs_edge_index s).
Definition steps_fill (n : nat) (steps : list BoundSequenceStep) : option nat :=
  foldl (fun o s => n ← o; step_fill n s) (Some n) steps.
(** [base] are the columns of the input, over which the constraints are typed or not. *)
Record sequence_typed (base scope columns : list Column) (optional : bool) (start_index : nat)
  (start : BoundSequenceNode) (steps : list BoundSequenceStep) (path_index : option nat) : Prop := {
  sq_base : base `prefix_of` columns;
  sq_entity : entity_at columns start_index;
  sq_node : pattern_node_typed scope start;
  sq_all : Forall (step_typed scope columns optional) steps;
  sq_path : forall i, path_index = Some i -> co_ty <$> columns !! i = Some (nullable TPath optional);
  sq_filled : (steps_fill (length base) steps ≫= fun n => fill n path_index) = Some (length columns);
  sq_null : optional = true -> forall i c, (length base <= i)%nat -> columns !! i = Some c ->
    is_nullable (co_ty c) = true;
}.
Definition anchors_typed (columns : list Column) (anchors : list BoundMatchAnchor) : Prop :=
  Forall (fun a => entity_at columns (ma_column_index a)) anchors.
(** The columns of a pattern's two ends *)
Definition end_column (pattern : CompactPattern) (i : nat) : Prop :=
  i = 0%nat \/ i = 1%nat /\ cpa_start_alias pattern <> cpa_end_alias pattern.

Definition source_ty (s : BoundSourceV2) : QueryTypeV2 :=
  match s with SrcHistory _ _ => THistoryRevision | SrcChanges _ => TChangeEvent | _ => TEntity end.
Definition aggregate_typed (scope : list Column) (a : Aggregate) (ty : QueryTypeV2) : Prop :=
  match ag_arg a with
  | None => ag_kind a = ACountAll
  | Some e => ag_kind a <> ACountAll /\ expr_typed scope e
  end /\ aggregate_ty (ag_kind a) (default TNull (be_ty <$> ag_arg a)) = Ok ty.

(** The columns of joined rows: a left join may find no row on the right. *)
Definition joined (kind : JoinKind) (left_ right_ columns : list Column) : Prop :=
  match kind with
  | JoinSemi | JoinAnti => columns = left_
  | JoinInner => columns = left_ ++ right_
  | JoinLeft => exists optional, columns = left_ ++ optional /\
      Forall2 (fun c d => co_name d = co_name c /\ is_nullable (co_ty d) = true /\
                          type_base (co_ty d) = type_base (co_ty c)) right_ optional
  end.
(** A kernel over the columns of its inputs, and the columns of its rows *)
Definition kernel_typed (inputs : list (list Column)) (kernel : Kernel) (columns : list Column) : Prop :=
  match kernel, inputs with
  | KnValues v, [] =>
      exists name ty, columns = [{| co_name := name; co_ty := ty |}] /\ has_type (TList ty) v = true
  | KnSourceScan s, [] => exists name, columns = [{| co_name := name; co_ty := source_ty s |}]
  | KnMatchCompact pattern _ anchors, [] =>
      columns = compact_columns pattern /\ Forall (fun a => end_column pattern (ma_column_index a)) anchors
  | KnMatchSequence start steps _ path_index _ anchors, [] =>
      (exists name, sequence_typed [{| co_name := name; co_ty := TEntity |}] [] columns false 0
                      start steps path_index) /\ anchors_typed columns anchors
  | KnAnnotationLookup target optional, [scope] =>
      entity_at scope target /\
      exists name, columns = scope ++ [{| co_name := name; co_ty := nullable TEntity optional |}]
  | KnVectorRank entity query collection _ _, [scope] =>
      entity_at scope entity /\ expr_typed scope query /\
      (exists scalar, type_base (be_ty query) =
         TVector (cs_space_id collection) (cs_dimension collection) scalar) /\
      exists name, columns = scope ++ [{| co_name := name; co_ty := TScore |}]
  | KnLexicalMatch entity field has_property _ _ alias_index, [scope] =>
      entity_at scope entity /\ fi_has_property field = false /\ fi_has_property has_property = true /\
      alias_index = length scope /\ exists name, columns = scope ++ [{| co_name := name; co_ty := TScore |}]
  | KnContextPack text evidence text_entity _ _, [scope] =>
      expr_typed scope text /\ expr_typed scope evidence /\ text_source text = Some text_entity /\
      same_column text_entity evidence = true /\ type_base (be_ty text) = TJson /\
      be_ty evidence = TEntity /\ exists name, columns = [{| co_name := name; co_ty := TContext |}]
  | KnExpand start end_index pattern optional, [scope] =>
      entity_at scope start /\
      match end_index with Some i => entity_at scope i | None => True end /\
      columns = scope ++
        match end_index with
        | Some _ => [] | None => [{| co_name := cpa_end_alias pattern; co_ty := nullable TEntity optional |}]
        end ++
        opt_column (cpa_edge_alias pattern)
          (nullable (edge_ty (cpa_min_hops pattern) (cpa_max_hops pattern)) optional) ++
        opt_column (cpa_path_alias pattern) (nullable TPath optional)
  | KnExpandSequence start_index start steps _ path_index optional, [scope] =>
      sequence_typed scope scope columns optional start_index start steps path_index
  | KnFilter predicate, [scope] =>
      expr_typed scope predicate /\ type_base (be_ty predicate) = TBool /\ columns = scope
  | KnProject exprs, [scope] =>
      Forall (expr_typed scope) exprs /\ map co_ty columns = map be_ty exprs
  | KnDistinct, [scope] | KnTake _, [scope] | KnOffset _, [scope] => columns = scope
  | KnSort keys, [scope] =>
      Forall (fun k => expr_typed scope k.1.1 /\ ordered (be_ty k.1.1) = true) keys /\ columns = scope
  | KnUnionAll, [scope; right_] => columns = scope /\ right_ = scope
  | KnAggregate groups aggregates, [scope] =>
      Forall (expr_typed scope) groups /\
      exists types, map co_ty columns = map be_ty groups ++ types /\
        Forall2 (aggregate_typed scope) aggregates types
  | KnJoin kind condition right_width, [scope; right_] =>
      expr_typed (scope ++ right_) condition /\ type_base (be_ty condition) = TBool /\
      right_width = length right_ /\ joined kind scope right_ columns
  | _, _ => False
  end.

(** The slots of a kernel, in the order in which they were issued *)
Definition property_slots (ps : btree BoundPatternProperty) : list Z :=
  concat (map (fun p => be_slots (bp_expected p.2) ++
    [fi_index (bp_value_field p.2); fi_index (bp_has_property_field p.2)]) ps).
Definition pattern_node_slots (n : BoundSequenceNode) : list Z :=
  match bn_id n with Some e => be_slots e | None => [] end ++ property_slots (bn_properties n).
Definition step_slots (s : BoundSequenceStep) : list Z :=
  pattern_node_slots (bs_node s) ++ property_slots (bs_edge_properties s).
Definition kernel_slots (kernel : Kernel) : list Z :=
  match kernel with
  | KnMatchSequence start steps _ _ _ _ | KnExpandSequence _ start steps _ _ _ =>
      pattern_node_slots start ++ concat (map step_slots steps)
  | KnVectorRank _ query _ _ _ => be_slots query
  | KnLexicalMatch _ field has_property _ _ _ => [fi_index field; fi_index has_property]
  | KnContextPack text evidence _ _ _ => be_slots text ++ be_slots evidence
  | KnFilter e | KnJoin _ e _ => be_slots e
  | KnProject exprs => concat (map be_slots exprs)
  | KnSort keys => concat (map (fun k => be_slots k.1.1) keys)
  | KnAggregate groups aggregates =>
      concat (map be_slots groups) ++
      concat (map (fun a => match ag_arg a with Some e => be_slots e | None => [] end) aggregates)
  | _ => []
  end.

(** ** Expressions, fields and patterns *)

Section Typing.
Context `{UuidCrate, Serde, HexSha256}.
Variable params : BoundParametersV2.
Hypothesis Hparams : params_ok params.
Notation bind scope e := (bind_expr scope params e 0).

Lemma bind_binds scope e :
  binds (bind scope e) (fun b l => expr_typed scope b /\ l = be_slots b).
Proof.
  intros n b n' Hb. rewrite bind_expr_loop in Hb. apply bind_rec_ok in Hb as [Ht Hn Hs Hd]; [|done].
  assert (slots [b] = be_slots b) as E by (unfold slots, be_slots; cbn; by rewrite app_nil_r).
  rewrite E in Hs, Hd. exists (be_slots b). split; [by split|]. split; [|done].
  cbn in Ht. by rewrite andb_true_r in Ht.
Qed.
Lemma issue_binds has_property name :
  binds (issue has_property name) (fun f l => l = [fi_index f] /\
    fi_has_property f = has_property /\ fi_name f = name).
Proof.
  intros n f n' Hf. unfold issue in Hf. destruct (_ <=? _); [|done]. injection Hf as <- <-.
  exists [n]. destruct name; (split; [split; [lia|repeat constructor; lia|apply NoDup_singleton]|done]).
Qed.
Lemma unique_Ok columns u : unique columns = Ok u -> NoDup (map co_name columns).
Proof. unfold unique. destruct (has_dup _) eqn:E; [done|]. intros _. by apply has_dup_false. Qed.
Lemma find_column_Ok scope name reason i : find_column scope name reason = Ok i ->
  named_at scope i name.
Proof.
  unfold find_column, named_at. intros (c & Hc & Hn)%ok_or_Ok%position_Some.
  apply bool_decide_eq_true in Hn. by rewrite Hc, <- Hn.
Qed.
Lemma entity_at_ty columns i : (i < length columns)%nat ->
  type_base (column_ty columns i) = TEntity -> entity_at columns i.
Proof.
  intros [c Hc]%lookup_lt_is_Some Ht. exists c. unfold column_ty in Ht. by rewrite Hc in Ht.
Qed.
Lemma entity_column_Ok scope name missing wrong i : entity_column scope name missing wrong = Ok i ->
  entity_at scope i /\ named_at scope i name.
Proof.
  unfold entity_column. intros (j & Hj%find_column_Ok & Hi)%bind_Ok.
  destruct (bool_decide _) eqn:E; [|done]. injection Hi as <-. apply bool_decide_eq_true in E.
  split; [|done]. unfold named_at in Hj. apply fmap_Some in Hj as (c & Hc & _).
  apply entity_at_ty; [by eapply lookup_lt_Some|done].
Qed.
Lemma boolean_Ok ty u : boolean ty = Ok u -> type_base ty = TBool.
Proof. unfold boolean. destruct (bool_decide _) eqn:E; [|done]. by apply bool_decide_eq_true in E. Qed.
Lemma lift_keeps {A} (r : query A) (Q : A -> Prop) : (forall a, r = Ok a -> Q a) ->
  binds (lift r) (fun a l => Q a /\ l = []).
Proof. intros HQ. apply binds_lift. auto. Qed.

Lemma unique_binds columns :
  binds (lift (unique columns)) (fun _ l => NoDup (map co_name columns) /\ l = []).
Proof. apply (lift_keeps _ (fun _ => NoDup (map co_name columns))). apply unique_Ok. Qed.
Lemma entity_column_binds scope name missing wrong :
  binds (lift (entity_column scope name missing wrong)) (fun i l =>
    (entity_at scope i /\ named_at scope i name) /\ l = []).
Proof.
  apply (lift_keeps _ (fun i => entity_at scope i /\ named_at scope i name)).
  intros i. apply entity_column_Ok.
Qed.
Lemma boolean_binds ty : binds (lift (boolean ty)) (fun _ l => type_base ty = TBool /\ l = []).
Proof. apply (lift_keeps _ (fun _ => type_base ty = TBool)). apply boolean_Ok. Qed.

Lemma bind_named_binds fields scope :
  binds (bind_named params fields scope) (fun r l =>
    Forall (expr_typed scope) r.2 /\ map co_ty r.1 = map be_ty r.2 /\ NoDup (map co_name r.1) /\
    l = concat (map be_slots r.2)).
Proof.
  set (J := fun (r : list Column * list BoundExpr) l => Forall (expr_typed scope) r.2 /\
    map co_ty r.1 = map be_ty r.2 /\ l = concat (map be_slots r.2)).
  unfold bind_named. eapply binds_bind.
  - apply (binds_mfor _ J ([], []) []); [done|]. intros [columns exprs] k f _ (Hw & Hty & ->).
    eapply binds_bind; [apply bind_binds|]. intros e l [He ->].
    destruct (bool_decide _); [apply binds_fail|]. apply binds_ret. unfold J. cbn [fst snd] in *.
    rewrite !map_app, concat_app, Hty. cbn. rewrite !app_nil_r.
    split; [|done]. apply Forall_app. split; [done|]. by constructor.
  - intros r l (Hw & Hty & Hl). cbn in Hl. eapply binds_bind; [apply unique_binds|].
    intros _ k [Hu ->]. apply binds_ret. by rewrite !app_nil_r.
Qed.

(** *** Patterns *)

Lemma pattern_id_binds scope allow id :
  binds (bind_pattern_id params scope allow id) (fun r l =>
    match r with Some e => expr_typed scope e /\ be_ty e = TUtf8 | None => True end /\
    l = match r with Some e => be_slots e | None => [] end).
Proof.
  destruct id as [e|]; cbn [bind_pattern_id]; [|by apply binds_ret].
  destruct (negb _); [apply binds_fail|]. eapply binds_bind; [apply bind_binds|].
  intros b l [Hb ->]. destruct (bool_decide _) eqn:E; [|apply binds_fail].
  apply bool_decide_eq_true in E. apply binds_ret. by rewrite app_nil_r.
Qed.
Lemma pattern_properties_binds properties scope :
  binds (bind_pattern_properties params properties scope) (fun ps l =>
    Forall (property_typed scope) ps /\ l = property_slots ps).
Proof.
  apply (binds_mtraverse _ (property_typed scope)). intros p. unfold bind_pattern_property.
  eapply binds_bind; [apply bind_binds|]. intros e l [He ->].
  destruct (bool_decide _) eqn:E; [|apply binds_fail]. apply bool_decide_eq_true in E.
  eapply binds_bind; [apply issue_binds|]. intros f ? (-> & Hf & Hfn).
  eapply binds_bind; [apply issue_binds|]. intros g ? (-> & Hg & Hgn).
  apply binds_ret. split; [|done]. by split_and!.
Qed.
Lemma pattern_node_binds node scope allow :
  binds (bind_sequence_node params node scope allow) (fun n l =>
    pattern_node_typed scope n /\ l = pattern_node_slots n).
Proof.
  eapply binds_bind; [apply pattern_id_binds|]. intros id l [Hid ->].
  eapply binds_bind; [apply pattern_properties_binds|]. intros ps l [Hps ->].
  apply binds_ret. rewrite app_nil_r. by split.
Qed.

Lemma entity_at_app columns new i : entity_at columns i -> entity_at (columns ++ new) i.
Proof. intros (c & Hc & Ht). exists c. split; [by apply lookup_app_l_Some|done]. Qed.
Lemma named_at_app columns new i name : named_at columns i name -> named_at (columns ++ new) i name.
Proof.
  unfold named_at. intros (c & Hc & ->)%fmap_Some. by rewrite (lookup_app_l_Some _ _ _ _ Hc).
Qed.
Lemma step_typed_app scope columns new optional step :
  step_typed scope columns optional step -> step_typed scope (columns ++ new) optional step.
Proof.
  intros [E1 E2 E3 E4 E5]. split; [done|done|by apply entity_at_app|by apply named_at_app|].
  intros i (c & Hc & Ht)%E5%fmap_Some. by rewrite (lookup_app_l_Some _ _ _ _ Hc), Ht.
Qed.
(** The aliases are names of columns. *)
Definition aliases_ok (columns : list Column) (aliases : btree nat) : Prop :=
  forall name i, bt_get cmp_str name aliases = Some i -> named_at columns i name.
Lemma aliases_app columns new aliases : aliases_ok columns aliases -> aliases_ok (columns ++ new) aliases.
Proof. intros Ha name i Hi. by apply named_at_app, Ha. Qed.
Lemma aliases_insert columns aliases name i : aliases_ok columns aliases -> named_at columns i name ->
  aliases_ok columns (bt_insert cmp_str name i aliases).
Proof.
  intros Ha Hi k j. destruct (decide (name = k)) as [<-|Hk].
  - rewrite bt_get_insert_eq by exact _. by intros [= <-].
  - rewrite bt_get_insert_ne by (done || exact _). apply Ha.
Qed.
Lemma named_at_snoc columns name ty : named_at (columns ++ [{| co_name := name; co_ty := ty |}]) (length columns) name.
Proof. unfold named_at. by rewrite list_lookup_middle. Qed.
Lemma column_aliases_ok columns : aliases_ok columns (column_aliases columns).
Proof.
  unfold column_aliases. assert (forall l m, aliases_ok columns m ->
    (forall i c, (i, c) ∈ l -> columns !! i = Some c) ->
    aliases_ok columns (foldl (fun m '(i, c) => bt_insert cmp_str (co_name c) i m) m l)) as Hl.
  { intros l; induction l as [|[i c] l IH]; intros m Hm Hl; [done|]. cbn [foldl]. apply IH.
    - apply aliases_insert; [done|]. unfold named_at. by rewrite (Hl i c) by left.
    - intros j d Hj. apply Hl. by right. }
  apply Hl; [done|]. intros i c (j & Hj)%list_elem_of_lookup.
  rewrite list_lookup_imap in Hj. destruct (columns !! j) eqn:E; [|done]. by injection Hj as <- <-.
Qed.

Lemma bind_end_Ok optional alias columns aliases i columns' aliases' :
  bind_end optional alias columns aliases = Ok (i, columns', aliases') -> aliases_ok columns aliases ->
  exists new, columns' = columns ++ new /\ aliases_ok columns' aliases' /\ entity_at columns' i /\
    named_at columns' i alias /\
    (if (i <? length columns)%nat then Some (length columns) else fill (length columns) (Some i))
      = Some (length columns') /\
    (optional = true -> Forall (fun c => is_nullable (co_ty c) = true) new).
Proof.
  unfold bind_end. intros Hb Ha. destruct (bt_get cmp_str alias aliases) as [k|] eqn:Hk.
  - destruct (bool_decide _) eqn:E; [|done]. injection Hb as <- <- <-.
    apply bool_decide_eq_true in E. apply Ha in Hk. exists []. rewrite app_nil_r.
    assert (k < length columns)%nat as Hlt.
    { apply fmap_Some in Hk as (c & Hc & _). by eapply lookup_lt_Some. }
    split_and!; [done|done|by apply entity_at_ty|done| |by constructor].
    by rewrite (proj2 (Nat.ltb_lt _ _) Hlt).
  - injection Hb as <- <- <-. eexists. split; [reflexivity|].
    assert (named_at (columns ++ [{| co_name := alias; co_ty := nullable TEntity optional |}])
              (length columns) alias) as Hn by apply named_at_snoc.
    split_and!; [by apply aliases_insert; [apply aliases_app|]| |done| |].
    + eexists. rewrite list_lookup_middle by done. split; [done|]. by destruct optional.
    + rewrite Nat.ltb_irrefl. cbn [fill]. rewrite Nat.eqb_refl, length_app. cbn. f_equal. lia.
    + intros ->. by repeat constructor.
Qed.
Lemma bind_alias_Ok alias ty columns aliases i columns' aliases' :
  bind_alias alias ty columns aliases = Ok (i, columns', aliases') -> aliases_ok columns aliases ->
  exists new, columns' = columns ++ new /\ aliases_ok columns' aliases' /\
    (forall k, i = Some k -> co_ty <$> columns' !! k = Some ty) /\
    fill (length columns) i = Some (length columns') /\
    (is_nullable ty = true -> Forall (fun c => is_nullable (co_ty c) = true) new).
Proof.
  unfold bind_alias. intros Hb Ha. destruct alias as [alias|].
  - destruct (bt_contains _ _ _); [done|]. injection Hb as <- <- <-. eexists. split; [reflexivity|].
    split_and!.
    + apply aliases_insert; [by apply aliases_app|apply named_at_snoc].
    + intros k [= <-]. by rewrite list_lookup_middle.
    + cbn [fill]. rewrite Nat.eqb_refl, length_app. cbn. f_equal. lia.
    + intros Hn. by repeat constructor.
  - injection Hb as <- <- <-. exists []. rewrite app_nil_r. split_and!; [done..|by constructor].
Qed.

(** The state of the loop over the steps *)
Record steps_ok (base scope : list Column) (optional : bool) (st : sequence_state) (l : list Z) : Prop := {
  so_base : base `prefix_of` ss_columns st;
  so_aliases : aliases_ok (ss_columns st) (ss_aliases st);
  so_steps : Forall (step_typed scope (ss_columns st) optional) (ss_steps st);
  so_filled : steps_fill (length base) (ss_steps st) = Some (length (ss_columns st));
  so_null : optional = true -> forall i c, (length base <= i)%nat -> ss_columns st !! i = Some c ->
    is_nullable (co_ty c) = true;
  so_slots : l = concat (map step_slots (ss_steps st));
}.
Lemma steps_fill_snoc n steps s :
  steps_fill n (steps ++ [s]) = steps_fill n steps ≫= fun m => step_fill m s.
Proof. unfold steps_fill. by rewrite foldl_app. Qed.
(** New columns, nullable where they have to be *)
Lemma null_app (columns new : list Column) (n : nat) :
  (forall i c, (n <= i)%nat -> columns !! i = Some c -> is_nullable (co_ty c) = true) ->
  Forall (fun c => is_nullable (co_ty c) = true) new ->
  forall i c, (n <= i)%nat -> (columns ++ new) !! i = Some c -> is_nullable (co_ty c) = true.
Proof.
  intros Hc Hn i c Hi [Hl|[_ Hl]]%lookup_app_Some; [by eapply Hc|]. by eapply (Forall_lookup_1 _ _ _ _ Hn).
Qed.
Lemma nullable_optional ty : is_nullable (nullable ty true) = true.
Proof. cbn. unfold as_nullable. by destruct ty. Qed.
Lemma bind_step_binds base scope optional st l step : steps_ok base scope optional st l ->
  binds (bind_step params optional scope st step) (fun st' k => steps_ok base scope optional st' (l ++ k)).
Proof.
  intros [Hb Ha Hs Hf Hn ->]. unfold bind_step.
  eapply binds_bind; [apply pattern_node_binds|]. intros node l [Hnode ->].
  eapply binds_bind; [apply (lift_keeps _ (fun r => aliases_ok (ss_columns st) (ss_aliases st) ->
    exists new, r.1.2 = ss_columns st ++ new /\ aliases_ok r.1.2 r.2 /\ entity_at r.1.2 r.1.1 /\
      named_at r.1.2 r.1.1 (pn_alias (ps_node step)) /\
      (if (r.1.1 <? length (ss_columns st))%nat then Some (length (ss_columns st))
       else fill (length (ss_columns st)) (Some r.1.1)) = Some (length r.1.2) /\
      (optional = true -> Forall (fun c => is_nullable (co_ty c) = true) new)))|].
  { intros [[i c] a]. apply bind_end_Ok. }
  intros [[end_index columns1] aliases1] ? [He ->]. cbn [fst snd] in He.
  destruct (He Ha) as (new1 & Hc1 & Ha1 & Hent & Hname & Hf1 & Hn1). clear He.
  eapply binds_bind; [apply (lift_keeps _ (fun r => aliases_ok columns1 aliases1 ->
    exists new, r.1.2 = columns1 ++ new /\ aliases_ok r.1.2 r.2 /\
    (forall k, r.1.1 = Some k -> co_ty <$> r.1.2 !! k = Some (nullable
      (edge_ty (pe_min_hops (ps_edge step)) (pe_max_hops (ps_edge step))) optional)) /\
    fill (length columns1) r.1.1 = Some (length r.1.2) /\
    (is_nullable (nullable (edge_ty (pe_min_hops (ps_edge step)) (pe_max_hops (ps_edge step))) optional) = true ->
     Forall (fun c => is_nullable (co_ty c) = true) new)))|].
  { intros [[i c] a]. apply bind_alias_Ok. }
  intros [[edge_index columns2] aliases2] ? [He ->]. cbn [fst snd] in He.
  destruct (He Ha1) as (new2 & Hc2 & Ha2 & Hty & Hf2 & Hn2). clear He.
  eapply binds_bind; [apply pattern_properties_binds|]. intros ps l [Hps ->].
  apply binds_ret. rewrite app_nil_r. cbn [app].
  assert (columns2 = ss_columns st ++ new1 ++ new2) as Hc by (by rewrite Hc2, Hc1, (assoc app)).
  split; cbn [ss_columns ss_aliases ss_steps].
  - etrans; [exact Hb|]. rewrite Hc. by apply prefix_app_r.
  - done.
  - apply Forall_app. split.
    + rewrite Hc. eapply Forall_impl; [exact Hs|]. intros s. apply step_typed_app.
    + constructor; [|constructor]. split; cbn; [done|done| | |done].
      * rewrite Hc2. by apply entity_at_app.
      * rewrite Hc2. by apply named_at_app.
  - rewrite steps_fill_snoc, Hf. cbn [mbind option_bind]. unfold step_fill. cbn [bs_end_index bs_edge_index].
    rewrite Hf1. exact Hf2.
  - intros Ho. rewrite Hc. apply null_app; [by apply Hn|]. subst optional. apply Forall_app.
    split; [by apply Hn1|apply Hn2, nullable_optional].
  - by rewrite map_app, concat_app; cbn [map concat]; rewrite app_nil_r.
Qed.
Definition end_alias (s : BoundSequenceStep) : string := cpa_end_alias (bs_pattern s).
Definition node_alias (s : PatternStep) : string := pn_alias (ps_node s).
Lemma bind_step_alias optional scope st step n st' n' :
  bind_step params optional scope st step n = Ok (st', n') ->
  map end_alias (ss_steps st') = map end_alias (ss_steps st) ++ [node_alias step].
Proof.
  unfold bind_step. intros (node & n1 & _ & Hb)%sm_bind_Ok.
  apply sm_bind_Ok in Hb as ([[i c] a] & n2 & _ & Hb). apply sm_bind_Ok in Hb as ([[j d] b] & n3 & _ & Hb).
  apply sm_bind_Ok in Hb as (ps & n4 & _ & [= <- _]). cbn. by rewrite map_app.
Qed.
Lemma bind_steps_aliases optional scope steps st n st' n' :
  mfor (bind_step params optional scope) st steps n = Ok (st', n') ->
  map end_alias (ss_steps st') = map end_alias (ss_steps st) ++ map node_alias steps.
Proof.
  revert st n; induction steps as [|step steps IH]; intros st n.
  - intros [= <- _]. by rewrite app_nil_r.
  - rewrite mfor_cons. destruct (bind_step _ _ _ st step n) as [[st1 n1]|] eqn:E; [|done].
    intros Hf. apply IH in Hf. apply bind_step_alias in E. by rewrite Hf, E, <- (assoc app).
Qed.
Lemma bind_sequence_binds pattern columns optional scope :
  binds (bind_sequence params pattern columns optional scope) (fun sq l =>
    sequence_typed columns scope (sq_columns sq) optional (sq_start_index sq) (sq_start sq)
      (sq_steps sq) (sq_path_index sq) /\
    named_at (sq_columns sq) (sq_start_index sq) (pn_alias (spa_start pattern)) /\
    NoDup (map co_name (sq_columns sq)) /\
    map end_alias (sq_steps sq) = map node_alias (spa_steps pattern) /\
    l = pattern_node_slots (sq_start sq) ++ concat (map step_slots (sq_steps sq))).
Proof.
  unfold bind_sequence. eapply binds_bind; [apply pattern_node_binds|]. intros start l [Hstart ->].
  eapply binds_bind; [apply entity_column_binds|]. intros start_index ? [[Hent Hname] ->].
  eapply binds_bind.
  { eapply (binds_also _ _ (fun st => map end_alias (ss_steps st) = map node_alias (spa_steps pattern))).
    2: { intros n st n' Hst. by apply bind_steps_aliases in Hst. }
    apply (binds_mfor _ (steps_ok columns scope optional) _ []).
    - split; cbn; [done|apply column_aliases_ok|constructor|done| |done].
      intros _ i c Hi Hc%lookup_lt_Some. lia.
    - intros st k step _ Hst. by apply bind_step_binds. }
  intros st l (Hal & [Hb Ha Hs Hf Hn Hl]). cbn in Hl. subst l.
  eapply binds_bind; [apply (lift_keeps _ (fun r => aliases_ok (ss_columns st) (ss_aliases st) ->
    exists new, r.1.2 = ss_columns st ++ new /\ aliases_ok r.1.2 r.2 /\
    (forall k, r.1.1 = Some k -> co_ty <$> r.1.2 !! k = Some (nullable TPath optional)) /\
    fill (length (ss_columns st)) r.1.1 = Some (length r.1.2) /\
    (is_nullable (nullable TPath optional) = true -> Forall (fun c => is_nullable (co_ty c) = true) new)))|].
  { intros [[i c] a]. apply bind_alias_Ok. }
  intros [[path_index columns'] aliases'] ? [He ->]. cbn [fst snd] in He.
  destruct (He Ha) as (new & Hc & _ & Hty & Hf2 & Hn2). clear He.
  eapply binds_bind; [apply unique_binds|]. intros _ ? [Hu ->].
  apply binds_ret. cbn. rewrite !app_nil_r.
  assert (exists more, columns' = columns ++ more) as [more Hm].
  { destruct Hb as [k Hk]. exists (k ++ new). by rewrite (assoc app), <- Hk. }
  split_and!; [|rewrite Hm; by apply named_at_app|done..].
  split; [by exists more|rewrite Hm; by apply entity_at_app|done| |done| |].
  - rewrite Hc. eapply Forall_impl; [exact Hs|]. intros s. apply step_typed_app.
  - rewrite Hf. exact Hf2.
  - intros Ho. rewrite Hc. apply null_app; [by apply Hn|]. subst optional. apply Hn2, nullable_optional.
Qed.

(** *** Match *)

Lemma named_unique columns i j name : NoDup (map co_name columns) ->
  named_at columns i name -> named_at columns j name -> i = j.
Proof.
  unfold named_at. intros Hd Hi Hj. eapply NoDup_lookup; [exact Hd| |]; by rewrite list_lookup_fmap.
Qed.
Lemma anchors_ok node_aliases columns anchors bound (P : nat -> Prop) : NoDup (map co_name columns) ->
  (forall name, name ∈ node_aliases -> exists i, named_at columns i name /\ P i) ->
  traverse (bind_anchor params node_aliases columns) anchors = Ok bound ->
  Forall (fun a => P (ma_column_index a)) bound.
Proof.
  intros Hd Hn Hb%traverse_Ok. apply Forall_forall. intros a (j & Hj)%list_elem_of_lookup.
  destruct (Forall2_lookup_r _ _ _ _ _ Hb Hj) as (anchor & _ & Ha).
  unfold bind_anchor in Ha. destruct (bool_decide _) eqn:E; [|done]. apply bool_decide_eq_true in E.
  apply bind_Ok in Ha as (record & _ & Ha). apply bind_Ok in Ha as (i & Hi%find_column_Ok & [= <-]).
  destruct (Hn _ E) as (k & Hk & He). by rewrite (named_unique _ _ _ _ Hd Hi Hk).
Qed.
Lemma bind_match_binds pattern anchors shortest :
  binds (bind_match params pattern anchors shortest) (fun r l =>
    kernel_typed [] r.2 r.1 /\ NoDup (map co_name r.1) /\ l = kernel_slots r.2).
Proof.
  destruct pattern as [p|p]; cbn [bind_match].
  - eapply binds_bind; [apply unique_binds|]. intros _ ? [Hu ->].
    eapply binds_bind; [apply (lift_keeps _ (Forall (fun a => end_column p (ma_column_index a))))|].
    + intros bound. apply anchors_ok; [done|]. intros name. unfold named_at, compact_columns.
      rewrite !elem_of_cons, elem_of_nil. intros [->|[->|[]]].
      * exists 0%nat. by split; [|left].
      * destruct (bool_decide (cpa_end_alias p = cpa_start_alias p)) eqn:E.
        -- apply bool_decide_eq_true in E as ->. exists 0%nat. by split; [|left].
        -- apply bool_decide_eq_false in E. exists 1%nat. split; [done|right]. split; [done|congruence].
    + intros bound ? [Hb ->]. apply binds_ret. by split_and!.
  - eapply binds_bind; [apply bind_sequence_binds|]. intros sq ? (Hty & Hname & Hu & Hal & ->).
    eapply binds_bind; [apply (lift_keeps _ (anchors_typed (sq_columns sq)))|].
    + intros bound. apply anchors_ok; [done|]. intros name [->|Hin]%elem_of_cons.
      * exists (sq_start_index sq). split; [done|]. apply (sq_entity _ _ _ _ _ _ _ _ Hty).
      * change (name ∈ map node_alias (spa_steps p)) in Hin. rewrite <- Hal in Hin.
        apply list_elem_of_fmap in Hin as (s & -> & Hs). exists (bs_end_index s).
        pose proof (sq_all _ _ _ _ _ _ _ _ Hty) as Hall. rewrite Forall_forall in Hall.
        specialize (Hall s Hs). split; apply Hall.
    + intros bound ? [Hb ->]. apply binds_ret. rewrite !app_nil_r.
      assert (sq_start_index sq = 0%nat) as H0'.
      { destruct Hty as [[k Hk] _ _ _ _ _]. eapply named_unique; [exact Hu|exact Hname|].
        unfold named_at. by rewrite Hk. }
      split_and!; [|done|done]. split; [|done]. eexists. by rewrite <- H0'.
Qed.

(** *** The operators *)

Variable catalog : AuthorizedCatalogV2.
(** An operator bound over [inputs] *)
Definition op_binds (inputs : list (list Column)) (r : list Column * Kernel * QueryOpV2) (l : list Z) : Prop :=
  kernel_typed inputs r.1.2 r.1.1 /\ NoDup (map co_name r.1.1) /\ l = kernel_slots r.1.2.

Lemma op_lift inputs r : (forall op, r = Ok op -> op_binds inputs op []) -> binds (lift r) (op_binds inputs).
Proof. apply binds_lift. Qed.
Lemma single_unique name ty : NoDup (map co_name [{| co_name := name; co_ty := ty |}]).
Proof. apply NoDup_singleton. Qed.

Lemma values_binds param alias : binds (lift (bind_values params param alias)) (op_binds []).
Proof.
  apply op_lift. intros op. unfold bind_values, params_get.
  intros ([ty v] & Hp & Hv)%bind_Ok. apply ok_or_Ok in Hp. apply bt_get_Some_elem in Hp; [|exact _].
  pose proof (proj1 (Forall_forall _ _) Hparams _ Hp) as Ht. cbn in Ht.
  destruct ty; try done; destruct v; try done; injection Hv as <-;
    (split; [by eexists _, _|split; [apply single_unique|done]]).
Qed.
Lemma vector_rank_binds scope entity collection query k alias mode kind :
  binds (bind_vector_rank params catalog scope entity collection query k alias mode kind)
    (op_binds [scope]).
Proof.
  assert (binds (bind_exact_rank params catalog scope entity collection query k alias kind) (op_binds [scope]))
    as Hrank; [|by destruct mode as [[]|]; cbn [bind_vector_rank]; [|apply binds_fail|]].
  eapply binds_bind; [apply (lift_keeps _ (fun _ => True)); done|]. intros coll ? [_ ->].
  eapply binds_bind; [apply bind_binds|]. intros q ? [Hq ->].
  destruct (type_base (be_ty q)) eqn:Hty; try apply binds_fail.
  destruct (_ || _) eqn:E; [apply binds_fail|]. apply orb_false_iff in E as [E1 E2].
  apply negb_false_iff in E1, E2. apply bool_decide_eq_true in E1 as ->. apply Z.eqb_eq in E2 as ->.
  destruct (_ && _); [apply binds_fail|].
  eapply binds_bind; [apply entity_column_binds|]. intros i ? [[Hi _] ->].
  eapply binds_bind; [apply unique_binds|]. intros _ ? [Hu ->].
  apply binds_ret. rewrite !app_nil_r. split; [|done]. split_and!; [done|done|by exists scalar|by eexists].
Qed.
Lemma history_binds scope kind id alias :
  binds (bind_history_scan params scope kind id alias) (op_binds []).
Proof.
  eapply binds_bind; [apply (lift_keeps _ (fun _ => True)); done|]. intros kd ? [_ ->].
  eapply binds_bind.
  { eapply (binds_also _ _ (fun e => forall v, be_kind e = KLiteral v -> be_fields e = [])); [apply bind_binds|].
    intros n e n' _ v Hv. destruct e as [ty k]. cbn in Hv. by subst. }
  intros e l (Hl & _ & ->). unfold be_slots.
  destruct (be_kind e) as [v| | | | | | | | | | |] eqn:Hk; try apply binds_fail.
  rewrite (Hl v eq_refl). destruct v; try apply binds_fail.
  destruct (_ || _); [apply binds_fail|]. apply binds_ret.
  split; [by eexists|split; [apply single_unique|done]].
Qed.
Lemma annotation_binds scope target alias optional :
  binds (lift (bind_annotation_lookup scope target alias optional)) (op_binds [scope]).
Proof.
  apply op_lift. intros op. unfold bind_annotation_lookup.
  intros (i & [Hi _]%entity_column_Ok & Hu)%bind_Ok. apply bind_Ok in Hu as (u & Hu%unique_Ok & [= <-]).
  split; [split; [done|by eexists]|done].
Qed.
Lemma lexical_binds scope entity field index query k alias :
  binds (bind_lexical_match params scope entity field index query k alias) (op_binds [scope]).
Proof.
  unfold bind_lexical_match. destruct (negb _); [apply binds_fail|].
  eapply binds_bind; [apply entity_column_binds|]. intros i ? [[Hi _] ->].
  eapply binds_bind; [apply bind_binds|]. intros q ? [_ ->].
  unfold be_slots. destruct q as [ty kind]. cbn [be_kind].
  destruct kind as [v| | | | | | | | | | |]; try apply binds_fail. destruct v; try apply binds_fail.
  eapply binds_bind; [apply issue_binds|]. intros f ? (-> & Hf & _).
  eapply binds_bind; [apply issue_binds|]. intros g ? (-> & Hg & _).
  eapply binds_bind; [apply unique_binds|]. intros _ ? [Hu ->].
  apply binds_ret. split; [|done]. by split_and!; [..|eexists].
Qed.
Lemma context_binds scope text evidence tokens tokenizer alias :
  binds (bind_context_pack params scope text evidence tokens tokenizer alias) (op_binds [scope]).
Proof.
  unfold bind_context_pack. destruct (negb _); [apply binds_fail|].
  eapply binds_bind; [apply bind_binds|]. intros t ? [Ht ->].
  eapply binds_bind; [apply bind_binds|]. intros e ? [He ->].
  destruct (_ || _) eqn:E; [apply binds_fail|]. apply orb_false_iff in E as [E1 E2].
  apply negb_false_iff, bool_decide_eq_true in E1, E2.
  eapply binds_bind; [apply (lift_keeps _ (fun te => text_source t = Some te)); intros te; apply ok_or_Ok|].
  intros te ? [Hte ->]. destruct (same_column te e) eqn:Hsame; [|apply binds_fail].
  eapply binds_bind; [apply (lift_keeps _ (fun _ => True)); done|]. intros fp ? [_ ->].
  apply binds_ret. rewrite !app_nil_r. split; [|split; [apply single_unique|done]].
  by split_and!; [..|eexists].
Qed.
Lemma expand_binds scope pattern optional :
  binds (bind_expand params scope pattern optional) (op_binds [scope]).
Proof.
  destruct pattern as [p|p]; cbn [bind_expand].
  - apply op_lift. intros op. unfold bind_expand_compact.
    intros (i & [Hi _]%entity_column_Ok & He)%bind_Ok.
    destruct (position _ scope) as [j|] eqn:Hj.
    + destruct (bool_decide _) eqn:E; [|done]. apply bool_decide_eq_true in E. cbn [negb] in He.
      apply bind_Ok in He as (u & Hu%unique_Ok & [= <-]). split; [|done]. split_and!; [done| |done].
      apply position_Some in Hj as (c & Hc & _). apply entity_at_ty; [by eapply lookup_lt_Some|done].
    + apply bind_Ok in He as (u & Hu%unique_Ok & [= <-]). by split.
  - eapply binds_bind; [apply bind_sequence_binds|]. intros sq ? (Hty & _ & Hu & _ & ->).
    apply binds_ret. rewrite app_nil_r. by split.
Qed.
Lemma sort_binds scope keys : binds (mtraverse (bind_sort_key params scope) keys) (fun bound l =>
  Forall (fun k => expr_typed scope k.1.1 /\ ordered (be_ty k.1.1) = true) bound /\
  l = concat (map (fun k => be_slots k.1.1) bound)).
Proof.
  apply (binds_mtraverse _ (fun k => expr_typed scope k.1.1 /\ ordered (be_ty k.1.1) = true)).
  intros key. eapply binds_bind; [apply bind_binds|]. intros e l [He ->].
  destruct (ordered (be_ty e)) eqn:E; [|apply binds_fail]. apply binds_ret. by rewrite app_nil_r.
Qed.
Lemma join_columns_unique kind scope right_ : NoDup (map co_name (scope ++ right_)) ->
  NoDup (map co_name (join_columns kind scope right_)).
Proof.
  intros Hu. assert (NoDup (map co_name scope)) as Hs by (rewrite map_app in Hu; apply NoDup_app in Hu; tauto).
  destruct kind; cbn [join_columns]; try done.
  rewrite map_app in *. by rewrite map_map.
Qed.
Lemma join_columns_joined kind scope right_ : joined kind scope right_ (join_columns kind scope right_).
Proof.
  destruct kind; cbn; try done. eexists. split; [done|].
  apply Forall2_fmap_r, Forall_Forall2_diag, Forall_true. intros c. cbn.
  split; [done|]. by destruct (co_ty c).
Qed.
Lemma join_binds scope right_ kind condition :
  binds (bind_join params scope right_ kind condition) (op_binds [scope; right_]).
Proof.
  unfold bind_join. eapply binds_bind; [apply unique_binds|]. intros _ ? [Hu ->].
  eapply binds_bind; [apply bind_binds|]. intros e ? [He ->].
  eapply binds_bind; [apply boolean_binds|]. intros _ ? [Hb ->].
  apply binds_ret. rewrite !app_nil_r. split; [split_and!; try done; by apply join_columns_joined|].
  split; [by apply join_columns_unique|done].
Qed.

Definition aggregate_slots (a : Aggregate) : list Z :=
  match ag_arg a with Some e => be_slots e | None => [] end.
(** The state of the loop over the aggregates, after the groups *)
Definition aggregates_ok (scope : list Column) (groups : list BoundExpr) (base : list Z)
  (r : list Column * list Aggregate) (l : list Z) : Prop :=
  (exists types, map co_ty r.1 = map be_ty groups ++ types /\ Forall2 (aggregate_typed scope) r.2 types) /\
  l = base ++ concat (map aggregate_slots r.2).
Lemma aggregate_call_binds scope groups base r l named : aggregates_ok scope groups base r l ->
  binds (bind_aggregate_call params scope r named) (fun r' k => aggregates_ok scope groups base r' (l ++ k)).
Proof.
  intros [(types & Hty & Hall) ->]. unfold bind_aggregate_call.
  destruct (ne_expression named) as [| | | | |call args|]; try apply binds_fail.
  eapply binds_bind; [apply (lift_keeps _ (fun _ => True)); done|]. intros kind ? [_ ->].
  destruct (Nat.eqb_spec (length args) (match kind with ACountAll => 0 | _ => 1 end)) as [Hn|]; [|apply binds_fail].
  cbn [negb]. eapply (binds_bind _ _ (fun arg k =>
    match arg with Some e => kind <> ACountAll /\ expr_typed scope e | None => kind = ACountAll end /\
    k = match arg with Some e => be_slots e | None => [] end)).
  - destruct args as [|e args].
    + apply binds_ret. split; [|done]. by destruct kind.
    + eapply binds_bind; [apply bind_binds|]. intros b ? [Hb ->]. apply binds_ret.
      rewrite app_nil_r. split; [|done]. split; [|done]. intros ->. done.
  - intros arg k [Harg ->].
    eapply binds_bind; [apply (lift_keeps _ (fun ty => aggregate_ty kind (default TNull (be_ty <$> arg)) = Ok ty)); done|].
    intros ty ? [Ht ->]. apply binds_ret. split.
    + exists (types ++ [ty]). cbn [fst snd]. rewrite map_app, Hty, <- (assoc app). split; [done|].
      apply Forall2_app; [done|]. constructor; [|constructor]. by split; destruct arg.
    + cbn [fst snd]. rewrite map_app, concat_app. cbn. unfold aggregate_slots at 3. cbn.
      by rewrite !app_nil_r, (assoc app).
Qed.
Lemma aggregate_binds scope group_by aggregates :
  binds (bind_aggregate params scope group_by aggregates) (op_binds [scope]).
Proof.
  unfold bind_aggregate. eapply binds_bind; [apply bind_named_binds|].
  intros [columns groups] ? (Hg & Hty & _ & ->). cbn [fst snd] in *.
  eapply binds_bind.
  { eapply binds_conseq.
    - apply (binds_mfor _ (aggregates_ok scope groups (concat (map be_slots groups))) (columns, [])
        (concat (map be_slots groups))).
      + split; [|cbn; by rewrite app_nil_r]. exists []. cbn. by rewrite app_nil_r.
      + intros r k named _ Hr. by apply aggregate_call_binds.
    - intros r l Hr. exact Hr. }
  intros [columns' bound] l [(types & Hty' & Hall) Hl]. cbn [fst snd] in *. apply app_inv_head in Hl as ->.
  destruct (bool_decide _); [apply binds_fail|].
  eapply binds_bind; [apply unique_binds|]. intros _ ? [Hu ->].
  apply binds_ret. rewrite !app_nil_r. split; [|by split]. split; [done|]. by exists types.
Qed.

(** The inputs a configuration takes *)
Definition config_inputs (config : Config) (scope right_ : list Column) : list (list Column) :=
  take (config_arity config) [scope; right_].
Lemma config_binds scope right_ config : NoDup (map co_name scope) ->
  binds (bind_config params catalog scope right_ config) (op_binds (config_inputs config scope right_)).
Proof.
  intros Hs. assert (forall name ty s op, source_ty s = ty -> binds
    (mret ([{| co_name := name; co_ty := ty |}], KnSourceScan s, op)) (op_binds [])) as Hsource.
  { intros name ty s op <-. apply binds_ret. split; [by eexists|split; [apply single_unique|done]]. }
  assert (forall kernel op, kernel_typed [scope] kernel scope -> kernel_slots kernel = [] ->
    binds (mret (scope, kernel, op)) (op_binds [scope])) as Hsame.
  { intros kernel op Hk Hl. apply binds_ret. by split_and!. }
  destruct config; cbn [bind_config config_inputs config_arity take];
    try (by apply Hsource); try (by apply Hsame).
  - destruct (negb _); [apply binds_fail|by apply Hsource].
  - apply values_binds.
  - apply history_binds.
  - eapply binds_bind; [apply bind_match_binds|]. intros [columns kernel] l (Hk & Hu & ->).
    apply binds_ret. by rewrite app_nil_r.
  - eapply binds_bind; [apply bind_binds|]. intros e ? [He ->].
    eapply binds_bind; [apply boolean_binds|]. intros _ ? [Hb ->]. apply binds_ret.
    rewrite !app_nil_r. by split_and!.
  - destruct (bool_decide _); [apply binds_fail|].
    eapply binds_bind; [apply bind_named_binds|]. intros [columns exprs] ? (He & Hty & Hu & ->).
    apply binds_ret. rewrite app_nil_r. by split_and!.
  - apply vector_rank_binds.
  - apply vector_rank_binds.
  - apply expand_binds.
  - apply annotation_binds.
  - apply lexical_binds.
  - apply join_binds.
  - apply aggregate_binds.
  - destruct (bool_decide _); [apply binds_fail|].
    eapply binds_bind; [apply sort_binds|]. intros bound ? [Hk ->]. apply binds_ret.
    rewrite app_nil_r. by split_and!.
  - destruct (bool_decide (scope = right_)) eqn:E; [|apply binds_fail].
    apply bool_decide_eq_true in E as <-. apply binds_ret. by split_and!.
  - apply context_binds.
Qed.

(** *** The query *)

Definition columns_of (nodes : list BoundNode) (j : nat) : list Column :=
  default [] (bd_columns <$> nodes !! j).
(** The node at [i]: its inputs come before it, and its kernel is typed over them. *)
Record node_typed (nodes : list BoundNode) (i : nat) (n : BoundNode) : Prop := {
  nt_inputs : Forall (fun j => j < i)%nat (bd_inputs n);
  nt_kernel : kernel_typed (map (columns_of nodes) (bd_inputs n)) (bd_kernel n) (bd_columns n);
  nt_names : NoDup (map co_name (bd_columns n));
}.
Definition nodes_typed (nodes : list BoundNode) : Prop :=
  forall i n, nodes !! i = Some n -> node_typed nodes i n.
Definition node_slots (nodes : list BoundNode) : list Z :=
  concat (map (fun n => kernel_slots (bd_kernel n)) nodes).
(** Depths below 129 that grow from an input to its user *)
Definition depths_ok (nodes : list BoundNode) (depths : list nat) : Prop :=
  length depths = length nodes /\ Forall (fun d => d <= 128)%nat depths /\
  forall i n j d, nodes !! i = Some n -> j ∈ bd_inputs n -> depths !! i = Some d ->
    exists e, depths !! j = Some e /\ (e < d)%nat.

Record state_ok (st : bind_state) (l : list Z) : Prop := {
  bo_nodes : nodes_typed (bv_nodes st);
  bo_index : forall name j, bt_get cmp_str name (bv_index st) = Some j ->
    bd_id <$> bv_nodes st !! j = Some name;
  bo_indexed : Forall (fun n => bt_contains cmp_str (bd_id n) (bv_index st) = true) (bv_nodes st);
  bo_ids : NoDup (map bd_id (bv_nodes st));
  bo_depths : depths_ok (bv_nodes st) (bv_depths st);
  bo_slots : l = node_slots (bv_nodes st);
}.

Lemma columns_of_app nodes more j : (j < length nodes)%nat -> columns_of (nodes ++ more) j = columns_of nodes j.
Proof. intros Hj. unfold columns_of. by rewrite lookup_app_l. Qed.
Lemma node_typed_app nodes more i n : (i <= length nodes)%nat -> node_typed nodes i n ->
  node_typed (nodes ++ more) i n.
Proof.
  intros Hi [E1 E2 E3]. split; [done| |done].
  assert (map (columns_of (nodes ++ more)) (bd_inputs n) = map (columns_of nodes) (bd_inputs n)) as ->; [|done].
  apply map_ext_in. intros j Hj%list_elem_of_In. rewrite Forall_forall in E1. apply E1 in Hj.
  apply columns_of_app. lia.
Qed.
Lemma input_columns_of nodes inputs i j : inputs !! i = Some j ->
  input_columns nodes inputs i = columns_of nodes j.
Proof. unfold input_columns, columns_of. by intros ->. Qed.
(** A configuration's inputs are the columns of the node's inputs. *)
Lemma config_inputs_of nodes inputs config : length inputs = config_arity config ->
  config_inputs config (input_columns nodes inputs 0) (input_columns nodes inputs 1) =
  map (columns_of nodes) inputs.
Proof.
  intros Hl. unfold config_inputs. rewrite <- Hl.
  assert (length inputs <= 2)%nat as Hle by (rewrite Hl; destruct config; cbn; lia).
  destruct inputs as [|a [|b [|c inputs]]]; cbn [length take map] in *; [done| | |lia].
  - by rewrite (input_columns_of nodes [a] 0 a).
  - by rewrite (input_columns_of nodes [a; b] 0 a), (input_columns_of nodes [a; b] 1 b).
Qed.
Lemma input_columns_unique nodes inputs i : nodes_typed nodes ->
  NoDup (map co_name (input_columns nodes inputs i)).
Proof.
  intros Hn. unfold input_columns. destruct (inputs !! i) as [j|]; [|constructor]. cbn.
  destruct (nodes !! j) as [n|] eqn:Hj; [|constructor]. apply (nt_names _ _ _ (Hn j n Hj)).
Qed.
(** A bound operator is the one the request asks for, over the inputs it names. *)
Record node_of (nodes : list BoundNode) (node : LogicalNodeV2) (n : BoundNode) : Prop := {
  no_id : bd_id n = ln_id node;
  no_op : bd_op n = ln_op node;
  no_inputs : Forall2 (fun name j => bd_id <$> nodes !! j = Some name) (ln_inputs node) (bd_inputs n);
  no_arity : length (bd_inputs n) = config_arity (ln_config node);
}.
Lemma node_of_app nodes more node n : node_of nodes node n -> node_of (nodes ++ more) node n.
Proof.
  intros [E1 E2 E3 E4]. split; try done. eapply Forall2_impl; [exact E3|].
  cbn. intros name j (m & Hm & ->)%fmap_Some. by rewrite (lookup_app_l_Some _ _ _ _ Hm).
Qed.
Lemma bind_node_binds st l node : state_ok st l ->
  binds (bind_node params catalog st node) (fun st' k => state_ok st' (l ++ k) /\
    exists n, bv_nodes st' = bv_nodes st ++ [n] /\ node_of (bv_nodes st) node n).
Proof.
  intros [Hn Hi Hx Hid Hd ->]. unfold bind_node.
  destruct (bt_contains _ _ _) eqn:Hnew; [apply binds_fail|].
  eapply binds_bind; [apply (lift_keeps _ (Forall2 (fun name j => bd_id <$> bv_nodes st !! j = Some name)
    (ln_inputs node)))|].
  { intros inputs Hin%traverse_Ok. eapply Forall2_impl; [exact Hin|]. cbn. intros name j Hs%ok_or_Ok. by apply Hi. }
  intros inputs ? [Hof ->].
  assert (Forall (fun j => j < length (bv_nodes st))%nat inputs) as Hin.
  { apply Forall_forall. intros j (i & Hj)%list_elem_of_lookup.
    destruct (Forall2_lookup_r _ _ _ _ _ Hof Hj) as (s & _ & (n & Hs & _)%fmap_Some). by eapply lookup_lt_Some. } destruct (Nat.ltb_spec 128 (input_depth (bv_depths st) inputs)) as [|Hdepth];
    [apply binds_fail|].
  destruct (Nat.eqb_spec (length inputs) (config_arity (ln_config node))) as [Har|]; [|apply binds_fail].
  cbn [negb]. eapply binds_bind; [by apply config_binds, input_columns_unique|].
  intros [[columns kernel] op] k (Hk & Hu & ->). cbn [fst snd] in *.
  destruct (bool_decide (op = ln_op node)) eqn:Hop; [|apply binds_fail]. apply binds_ret.
  rewrite config_inputs_of in Hk by done. rewrite app_nil_r. cbn [app].
  set (n := {| bd_id := ln_id node; bd_op := op; bd_inputs := inputs; bd_columns := columns; bd_kernel := kernel |}).
  assert (bt_get cmp_str (ln_id node) (bv_index st) = None) as Hnone
    by (unfold bt_contains in Hnew; by destruct (bt_get _ _ _)).
  split; [|exists n; split; [done|by apply Build_node_of; [|apply bool_decide_eq_true in Hop| |]]].
  split; cbn [bv_nodes bv_index bv_depths].
  - intros i m [Hm|[Hle Hm]]%lookup_app_Some.
    + apply node_typed_app; [apply lookup_lt_Some in Hm; lia|by apply Hn].
    + destruct (i - length (bv_nodes st))%nat eqn:E; [|done]. injection Hm as <-.
      replace i with (length (bv_nodes st)) by lia. apply node_typed_app; [done|by split].
  - intros name j. destruct (decide (ln_id node = name)) as [<-|Hne].
    + rewrite bt_get_insert_eq by exact _. intros [= <-]. by rewrite list_lookup_middle.
    + rewrite bt_get_insert_ne by (done || exact _). intros Hj%Hi.
      apply fmap_Some in Hj as (m & Hm & ->). by rewrite (lookup_app_l_Some _ _ _ _ Hm).
  - assert (forall id, id = ln_id node \/ bt_contains cmp_str id (bv_index st) = true ->
      bt_contains cmp_str id (bt_insert cmp_str (ln_id node) (length (bv_nodes st)) (bv_index st)) = true) as Hc.
    { intros id Hc. unfold bt_contains in *. destruct (decide (ln_id node = id)) as [<-|Hne].
      - by rewrite bt_get_insert_eq by exact _.
      - rewrite bt_get_insert_ne by (done || exact _). by destruct Hc as [->|]. }
    apply Forall_app. split; [|constructor; [by apply Hc; left|constructor]].
    eapply Forall_impl; [exact Hx|]. intros m Hm. apply Hc. by right.
  - rewrite map_app. apply NoDup_app. split_and!; [done| |apply NoDup_singleton].
    intros id (m & -> & Hm)%list_elem_of_fmap Heq%list_elem_of_singleton.
    rewrite Forall_forall in Hx. apply Hx in Hm. cbn in Heq, Hm. congruence.
  - destruct Hd as (Hl & Hall & Hlt). split_and!.
    + rewrite !length_app. cbn. lia.
    + apply Forall_app. split; [done|]. by constructor.
    + intros i m j d [Hm|[Hle Hm]]%lookup_app_Some Hj Hdi.
      * pose proof (lookup_lt_Some _ _ _ Hm). rewrite lookup_app_l in Hdi by lia.
        destruct (Hlt i m j d Hm Hj Hdi) as (e & He & Hlt'). exists e. split; [|done].
        by apply lookup_app_l_Some.
      * destruct (i - length (bv_nodes st))%nat eqn:E; [|done]. injection Hm as <-. cbn in Hj.
        rewrite lookup_app_r in Hdi by lia. replace (i - length (bv_depths st))%nat with 0%nat in Hdi by lia.
        injection Hdi as <-. rewrite Forall_forall in Hin. pose proof (Hin j Hj) as Hjl. cbn in Hjl.
        destruct (lookup_lt_is_Some_2 (bv_depths st) j) as [e He]; [lia|]. exists e.
        split; [by apply lookup_app_l_Some|]. unfold input_depth.
        pose proof (list_max_with_le (fun i => default 0%nat (bv_depths st !! i)) inputs j Hj) as Hle'.
        cbn in Hle'. rewrite He in Hle'. cbn in Hle'. lia.
  - unfold node_slots. rewrite map_app, concat_app. cbn. by rewrite app_nil_r.
Qed.
Lemma bind_nodes_binds nodes st l done_ : state_ok st l ->
  Forall2 (node_of (bv_nodes st)) done_ (bv_nodes st) ->
  binds (mfor (bind_node params catalog) st nodes) (fun st' k => state_ok st' (l ++ k) /\
    Forall2 (node_of (bv_nodes st')) (done_ ++ nodes) (bv_nodes st')).
Proof.
  revert st l done_; induction nodes as [|node nodes IH]; intros st l done_ Hst Hall; cbn [mfor].
  - apply binds_ret. by rewrite !app_nil_r.
  - eapply binds_bind; [by apply bind_node_binds|].
    intros st' k (Hst' & n & Heq & Hn). eapply binds_conseq.
    + apply (IH st' (l ++ k) (done_ ++ [node]) Hst'). rewrite Heq. apply Forall2_app.
      * eapply Forall2_impl; [exact Hall|]. intros. by apply node_of_app.
      * constructor; [by apply node_of_app|constructor].
    + cbn. intros st'' k'. by rewrite <- !(assoc app).
Qed.

(** What the executor relies on. *)
Record query_typed (request : LogicalRequestV2) (q : BoundQueryV2) : Prop := {
  qt_nodes : nodes_typed (bq_nodes q);
  qt_of : Forall2 (node_of (bq_nodes q)) (lr_nodes request) (bq_nodes q);
  qt_ids : NoDup (map bd_id (bq_nodes q));
  qt_root : bd_id <$> bq_nodes q !! bq_root q = Some (lr_root request);
  qt_used : forall i n, bq_nodes q !! i = Some n ->
    rtc (uses (node_inputs (bq_nodes q))) (bq_root q) i;
  qt_depths : exists depths, depths_ok (bq_nodes q) depths;
  qt_slots : NoDup (node_slots (bq_nodes q));
}.
Lemma reachable_below nodes root i : nodes_typed nodes -> (root < length nodes)%nat ->
  rtc (uses (node_inputs nodes)) root i -> (i < length nodes)%nat.
Proof.
  intros Hn Hr Hreach. induction Hreach as [|x y z Hxy _ IH]; [done|]. apply IH.
  unfold uses, node_inputs in Hxy. destruct (nodes !! x) as [n|] eqn:Hx; [|by apply elem_of_nil in Hxy].
  pose proof (nt_inputs _ _ _ (Hn x n Hx)) as Hall. rewrite Forall_forall in Hall.
  apply Hall in Hxy. lia.
Qed.
(** A reachable set as large as the query holds every operator. *)
Lemma reachable_all nodes root i : nodes_typed nodes -> (root < length nodes)%nat ->
  size (reachable_nodes nodes root) = length nodes -> (i < length nodes)%nat ->
  rtc (uses (node_inputs nodes)) root i.
Proof.
  intros Hn Hr Hsize Hi. unfold reachable_nodes in Hsize.
  set (fuel := S (list_sum _)) in Hsize.
  assert (forall i, i ∈ reach (node_inputs nodes) fuel [root] ∅ <-> rtc (uses (node_inputs nodes)) root i) as Hspec.
  { apply (reach_spec _ (length nodes)); [|done]. intros j Hj. unfold node_inputs. by rewrite lookup_ge_None_2. }
  apply Hspec. assert (reach (node_inputs nodes) fuel [root] ∅ ≡ set_seq (C:=gset nat) 0 (length nodes)) as ->.
  - apply set_subseteq_size_equiv.
    + intros j Hj%Hspec. apply elem_of_set_seq. pose proof (reachable_below _ _ _ Hn Hr Hj). lia.
    + rewrite Hsize, size_set_seq. lia.
  - apply elem_of_set_seq. lia.
Qed.
Lemma bind_v2_query_typed request q : bind_v2 params catalog request = Ok q -> query_typed request q.
Proof.
  unfold bind_v2. destruct (_ || _); [done|]. destruct (_ && _); [done|].
  intros (u & _ & Hq)%bind_Ok.
  destruct (mfor _ _ _ _) as [[st n]|e] eqn:Hm; [|done].
  apply bind_Ok in Hq as (root & Hroot%ok_or_Ok & Hq).
  destruct (bool_decide (size _ = _)) eqn:Hsize; [|done]. apply bool_decide_eq_true in Hsize.
  injection Hq as <-.
  apply (bind_nodes_binds _ _ [] []) in Hm as (l & Hl & [Hn Hi Hx Hid Hd Hs] & Hof); [|split; cbn|constructor].
  - cbn in Hs, Hof. subst l. pose proof (Hi _ _ Hroot) as Hr. assert (root < length (bv_nodes st))%nat as Hlt.
    { apply fmap_Some in Hr as (m & Hm & _). by eapply lookup_lt_Some. }
    split; cbn [bq_nodes bq_root]; try done.
    + intros i k Hk%lookup_lt_Some. by apply reachable_all.
    + by eexists.
    + apply Hl.
  - by intros i m Hm'.
  - done.
  - constructor.
  - constructor.
  - split_and!; [done|constructor|]. by intros i m j d Hm'.
  - done.
Qed.

(** C22: a bound query is what the executor relies on. Every operator is the requested one
    over the inputs it names, which come before it at a depth of at most 128; its kernel is
    typed over the columns of those inputs, its own columns have distinct names; no two
    field slots of the query coincide; the root is the named operator, and every operator
    is used by it. *)
Theorem bind_v2_typed request q : bind_v2 params catalog request = Ok q -> query_typed request q.
Proof. apply bind_v2_query_typed. Qed.
End Typing.

(** ** A sample query *)

Definition sample_hex : HexSha256 := {| hex_sha256 s := s |}.
#[local] Existing Instances sample_uuid sample_serde sample_hex.
Definition sample_catalog : AuthorizedCatalogV2 := {| ac_tables := ["t"%string]; ac_collections := [] |}.
Definition field_of (alias : string) (path : list string) : Expr :=
  EField {| fr_alias := alias; fr_path := path |}.
Definition node_of_config (id : string) (op : QueryOpV2) (inputs : list string) (config : Config)
  : LogicalNodeV2 := {| ln_id := id; ln_op := op; ln_inputs := inputs; ln_config := config |}.
(** [match (a) left join row t as r on a.id = r.id where r.k = "x" take 5], with the names
    of properties read at run time *)
Definition sample_request : LogicalRequestV2 := {|
  lr_nodes := [
    node_of_config "n0" OpNodeScan [] (CNodeScan "a" None);
    node_of_config "n1" OpRowScan [] (CRowScan "t" "r");
    node_of_config "n2" OpJoin ["n0"; "n1"]
      (CJoin JoinLeft (EBinary OEq (field_of "a" ["id"]) (field_of "r" ["id"])));
    node_of_config "n3" OpFilter ["n2"]
      (CFilter (EUnary OIsNull (ECall "prop" [field_of "r" []; ELiteral (JString "k") "Utf8"])));
    node_of_config "n4" OpTake ["n3"] (CTake 5) ]%string;
  lr_root := "n4"; lr_parameter_types := []; lr_from_hql := true |}.
Definition sample_query : BoundQueryV2 :=
  match bind_v2 [] sample_catalog sample_request with
  | Ok q => q
  | Err _ => {| bq_nodes := []; bq_root := 0 |}
  end.
Example sample_columns : map (fun n => map co_ty (bd_columns n)) (bq_nodes sample_query) =
  [[TEntity]; [TEntity]; [TEntity; TNullable TEntity]; [TEntity; TNullable TEntity]; [TEntity; TNullable TEntity]].
Proof. vm_compute. reflexivity. Qed.
Lemma bind_v2_typed_witness : query_typed sample_request sample_query.
Proof.
  apply (bind_v2_typed [] (Forall_nil_2 _) sample_catalog sample_request sample_query).
  vm_compute. reflexivity.
Defined.
