(* ===== verification/HqlBind.v ===== *)
(** * Binding a lowered statement

    The binder of [src/src/query/hql2/bind.rs] names the columns of every operator; the
    lowering of HQL2 keeps the columns in scope on its own, to expand [*]. They are the
    same names in the same order. And a lowered plan is never refused for its graph: the
    binder's only errors are an operator's own and the depth of the plan. *)
From stdpp Require Import relations.
From S2P Require Export QueryTyping HqlPlan.
Local Open Scope Z_scope.

(** ** The names of an operator's columns *)

Definition step_names (scope : list string) (step : PatternStep) : list string :=
  push_alias (extend scope (pn_alias (ps_node step))) (pe_alias (ps_edge step)).
Definition sequence_names (scope : list string) (p : SequencePattern) : list string :=
  push_alias (foldl step_names scope (spa_steps p)) (spa_path_alias p).
(** From the names of the columns of the first and the second input *)
Definition config_names (scope right_ : list string) (config : Config) : list string :=
  match config with
  | CNodeScan alias _ | CEdgeScan alias _ | CRowScan _ alias | CAnnotationScan alias
  | CValues _ alias | CHistoryScan _ _ alias | CChangeScan _ alias
  | CContextPack _ _ _ _ alias => [alias]
  | CMatch (PSequence p) _ _ => sequence_names [pn_alias (spa_start p)] p
  | CMatch (PCompact p) _ _ => map co_name (compact_columns p)
  | CProject fields => ne_alias <$> fields
  | CAggregate group_by aggregates => ne_alias <$> (group_by ++ aggregates)
  | CFilter _ | CDistinct | CSort _ | CTake _ | COffset _ | CUnionAll => scope
  | CKnn _ _ _ _ _ alias | CRerank _ _ _ _ _ alias | CAnnotationLookup _ alias _
  | CLexicalMatch _ _ _ _ _ alias => scope ++ [alias]
  | CExpand (PSequence p) _ => sequence_names scope p
  | CExpand (PCompact p) _ =>
      push_alias (push_alias (extend scope (cpa_end_alias p)) (cpa_edge_alias p)) (cpa_path_alias p)
  | CJoin (JoinSemi | JoinAnti) _ => scope
  | CJoin _ _ => scope ++ right_
  end.

(** *** The lowering keeps these names. *)

Section LowerNames.
Context `{NumberText, Grammar}.
Variable resolve_parameter : string -> query Z.

Lemma pattern_node_alias alias id labels properties n : pattern_node alias id labels properties = Ok n ->
  lower_name alias = Ok (pn_alias n).
Proof. intros Hn. unfold pattern_node in Hn. inv_result. by simplify_eq. Qed.

Lemma lower_step_names acc step acc' : lower_step acc step = Ok acc' ->
  exists s, acc' = (step_names acc.1 s, acc.2 ++ [s]).
Proof.
  intros Hs. unfold lower_step in Hs. inv_result. simplify_eq. eexists. f_equal. unfold step_names.
  match goal with Hn : pattern_node _ _ _ _ = Ok _ |- _ => apply pattern_node_alias in Hn end.
  cbn [ps_node ps_edge pe_alias]. congruence.
Qed.
Lemma lower_sequence_names start scope steps mode path_alias scope' p :
  lower_sequence start scope steps mode path_alias = Ok (scope', p) ->
  exists q, p = PSequence q /\ spa_start q = start /\ scope' = sequence_names scope q.
Proof.
  intros ([scope1 ws] & Hw & (pa & _ & [= <- <-])%bind_Ok)%bind_Ok. eexists. split; [done|]. split; [done|].
  unfold sequence_names. cbn [spa_steps spa_path_alias]. f_equal.
  enough (forall steps acc r, try_for lower_step acc steps = Ok r ->
    exists l, r = (foldl step_names acc.1 l, acc.2 ++ l)) as He.
  { apply He in Hw as (l & [= -> ->]). done. }
  clear. induction steps as [|step steps IH]; intros acc r; rewrite ?try_for_cons.
  - intros [= <-]. exists []. rewrite app_nil_r. by destruct acc.
  - intros (acc' & (s & ->)%lower_step_names & (l & ->)%IH)%bind_Ok. exists (s :: l).
    cbn [fst snd foldl]. by rewrite <- app_assoc.
Qed.

Lemma leaf_source_names k op config scope right_ scope0 :
  leaf_source resolve_parameter k = Ok (op, config, scope) -> scope = config_names scope0 right_ config.
Proof.
  intros Hk. destruct k; cbv [leaf_source lower_history lower_match] in Hk; try done; inv_result; simplify_eq; try done.
  destruct a1 as [scope' p]. inv_result. simplify_eq.
  match goal with Hq : lower_sequence _ _ _ _ _ = Ok _ |- _ =>
    apply lower_sequence_names in Hq as (q & -> & <- & ->) end.
  match goal with Hn : pattern_node _ _ _ _ = Ok _ |- _ => apply pattern_node_alias in Hn end.
  cbn. congruence.
Qed.
Lemma plain_stage_names scope stage op config scope' right_ :
  plain_stage resolve_parameter scope stage = Ok (op, config, scope') ->
  scope' = config_names scope right_ config.
Proof.
  intros Hk. destruct stage; cbv [plain_stage lower_knn lower_rerank lower_lexical_match lower_context_pack lower_expand lower_expand_sequence lower_aggregate lower_order] in Hk; try done; inv_result; simplify_eq; try done.
  destruct a0 as [scope1 p]. inv_result. simplify_eq.
  match goal with Hq : lower_sequence _ _ _ _ _ = Ok _ |- _ =>
    by apply lower_sequence_names in Hq as (q & -> & _ & ->) end.
Qed.
End LowerNames.

(** *** The binder gives these names. *)

(** What a fallible step gives when it gives a result *)
Definition yields {S E A} (m : SM S E A) (Q : A -> Prop) : Prop := forall s a s', m s = Ok (a, s') -> Q a.
Section Yields.
Context {S E : Type}.
Lemma yields_ret {A} (a : A) (Q : A -> Prop) : Q a -> yields (mret a : SM S E A) Q.
Proof. by intros HQ s b s' [= <- _]. Qed.
Lemma yields_fail {A} e (Q : A -> Prop) : yields (fail e : SM S E A) Q.
Proof. done. Qed.
Lemma yields_lift {A} (r : result E A) (Q : A -> Prop) : (forall a, r = Ok a -> Q a) -> yields (lift r : SM S E A) Q.
Proof. intros HQ s a s' [Ha _]%lift_Ok. auto. Qed.
Lemma yields_bind {A B} (m : SM S E A) (f : A -> SM S E B) R Q :
  yields m R -> (forall a, R a -> yields (f a) Q) -> yields (m ≫= f) Q.
Proof. intros Hm Hf s b s' (a & t & Ha & Hb)%sm_bind_Ok. eapply Hf; [by eapply Hm|done]. Qed.
Lemma yields_conseq {A} (m : SM S E A) (Q Q' : A -> Prop) : yields m Q -> (forall a, Q a -> Q' a) -> yields m Q'.
Proof. intros Hm HQ s a s' Ha. by eapply HQ, Hm. Qed.
Lemma yields_any {A} (m : SM S E A) : yields m (fun _ => True).
Proof. done. Qed.
Lemma yields_mfor {A B} (f : B -> A -> SM S E B) (J : B -> list A -> Prop) b l :
  J b l -> (forall b a l, J b (a :: l) -> yields (f b a) (fun b' => J b' l)) -> yields (mfor f b l) (fun b' => J b' []).
Proof.
  intros Hb Hf. revert b Hb; induction l as [|a l IH]; intros b Hb; cbn [mfor]; [by apply yields_ret|].
  eapply yields_bind; [by apply Hf|]. intros b' Hb'. by apply IH.
Qed.
End Yields.
Ltac yields_tac :=
  repeat first
    [ apply yields_fail
    | apply yields_ret
    | eapply yields_bind; [apply yields_any|intros ? _]
    | match goal with |- yields (match ?x with _ => _ end) _ => destruct x eqn:? end ].

Section BindNames.
Context `{UuidCrate, Serde, HexSha256}.
Variable params : BoundParametersV2.
Variable catalog : AuthorizedCatalogV2.
Notation names := (map co_name).

Lemma bind_named_names fields scope :
  yields (bind_named params fields scope) (fun r => names r.1 = ne_alias <$> fields).
Proof.
  unfold bind_named. eapply (yields_bind _ _ (fun r => names r.1 = ne_alias <$> fields)).
  - eapply yields_conseq.
    { eapply (yields_mfor _ (fun (r : list Column * list BoundExpr) l => names r.1 ++ (ne_alias <$> l) = ne_alias <$> fields) ([], [])); [done|].
      intros r f l Hr. unfold bind_named_field.
      eapply yields_bind; [apply yields_any|]. intros e _. destruct (bool_decide _); [apply yields_fail|].
      apply yields_ret. cbn [fst]. by rewrite map_app, <- app_assoc. }
    intros r Hr. cbn in Hr. by rewrite app_nil_r in Hr.
  - intros r Hr. eapply yields_bind; [apply yields_any|]. intros _ _. by apply yields_ret.
Qed.

Lemma bt_contains_get {V} name (m : btree V) : bt_contains cmp_str name m = is_Some_b (bt_get cmp_str name m).
Proof. unfold bt_contains. by destruct (bt_get _ _ _). Qed.
(** The index of the columns by name knows exactly the columns' names. *)
Definition indexed (columns : list Column) (aliases : btree nat) : Prop :=
  forall name, is_Some (bt_get cmp_str name aliases) <-> name ∈ names columns.
Lemma indexed_insert columns aliases name ty i : indexed columns aliases ->
  indexed (columns ++ [{| co_name := name; co_ty := ty |}]) (bt_insert cmp_str name i aliases).
Proof.
  intros Hi s. rewrite map_app. cbn [map co_name]. rewrite elem_of_app, list_elem_of_singleton.
  destruct (decide (name = s)) as [->|Hne].
  - rewrite bt_get_insert_eq by exact _. split; [by right|by eexists].
  - rewrite bt_get_insert_ne by (done || exact _). rewrite (Hi s). naive_solver.
Qed.
Lemma indexed_columns columns : indexed columns (column_aliases columns).
Proof.
  unfold column_aliases.
  enough (forall (l : list (nat * Column)) m done_, indexed done_ m ->
    indexed (done_ ++ l.*2) (foldl (fun m '(i, c) => bt_insert cmp_str (co_name c) i m) m l)) as He.
  { specialize (He (imap pair columns) [] []). rewrite fmap_imap in He. cbn in He.
    assert (imap (fun n => snd ∘ pair n) columns = columns) as Hc
      by (clear; induction columns as [|c cs IH]; [done|]; cbn; f_equal; exact IH).
    rewrite Hc in He. apply He. intros s. cbn. split; [by intros []|by intros ?%elem_of_nil]. }
  induction l as [|[i c] l IH]; intros m done_ Hd; cbn [fmap list_fmap foldl snd]; [by rewrite app_nil_r|].
  replace (done_ ++ c :: l.*2) with ((done_ ++ [c]) ++ l.*2) by (by rewrite <- app_assoc).
  apply IH. destruct c as [name ty]. by apply indexed_insert.
Qed.

Lemma bind_end_names optional alias columns aliases index columns' aliases' : indexed columns aliases ->
  bind_end optional alias columns aliases = Ok (index, columns', aliases') ->
  indexed columns' aliases' /\ names columns' = extend (names columns) alias.
Proof.
  intros Hi. unfold bind_end, extend. specialize (Hi alias) as Ha.
  destruct (bt_get cmp_str alias aliases) as [i|].
  - destruct (bool_decide (type_base _ = _)); [|done]. intros [= _ <- <-]. split; [done|].
    by rewrite bool_decide_eq_true_2 by (apply Ha; by eexists).
  - intros [= _ <- <-]. split; [by apply indexed_insert|]. rewrite bool_decide_eq_false_2.
    + by rewrite map_app.
    + by intros [? ?]%Ha.
Qed.
Lemma bind_alias_names alias ty columns aliases index columns' aliases' : indexed columns aliases ->
  bind_alias alias ty columns aliases = Ok (index, columns', aliases') ->
  indexed columns' aliases' /\ names columns' = push_alias (names columns) alias.
Proof.
  intros Hi. unfold bind_alias, push_alias. destruct alias as [alias|].
  - destruct (bt_contains _ _ _); [done|]. intros [= _ <- <-]. split; [by apply indexed_insert|].
    by rewrite map_app.
  - intros [= _ <- <-]. by rewrite app_nil_r.
Qed.
Lemma bind_sequence_names pattern columns optional scope :
  yields (bind_sequence params pattern columns optional scope)
    (fun sq => names (sq_columns sq) = sequence_names (names columns) pattern).
Proof.
  unfold bind_sequence, sequence_names. eapply yields_bind; [apply yields_any|]. intros start _.
  eapply yields_bind; [apply yields_any|]. intros start_index _.
  eapply yields_bind.
  - eapply (yields_mfor _ (fun st l => indexed (ss_columns st) (ss_aliases st) /\
      foldl step_names (names (ss_columns st)) l = foldl step_names (names columns) (spa_steps pattern)));
      [split; [apply indexed_columns|done]|].
    intros st step l [Hi Hn]. unfold bind_step. eapply yields_bind; [apply yields_any|]. intros node _.
    eapply (yields_bind _ _ (fun '(_, cs, al) => indexed cs al /\
      names cs = extend (names (ss_columns st)) (pn_alias (ps_node step)))).
    { apply yields_lift. intros [[ei cs] al]. by apply bind_end_names. }
    intros [[ei cs] al] [Hi1 Hn1]. eapply (yields_bind _ _ (fun '(_, cs', al) => indexed cs' al /\
      names cs' = push_alias (names cs) (pe_alias (ps_edge step)))).
    { apply yields_lift. intros [[ai cs'] al']. by apply bind_alias_names. }
    intros [[ai cs'] al'] [Hi2 Hn2]. eapply yields_bind; [apply yields_any|]. intros eps _.
    apply yields_ret. cbn [ss_columns ss_aliases]. split; [done|]. rewrite <- Hn. cbn [foldl].
    unfold step_names at 3. by rewrite Hn2, Hn1.
  - intros st [Hi Hn]. cbn [foldl] in Hn. eapply (yields_bind _ _ (fun '(_, cs, al) => indexed cs al /\
      names cs = push_alias (names (ss_columns st)) (spa_path_alias pattern))).
    { apply yields_lift. intros [[ai cs] al]. by apply bind_alias_names. }
    intros [[ai cs] al] [_ Hc]. eapply yields_bind; [apply yields_any|]. intros _ _.
    apply yields_ret. cbn [sq_columns]. congruence.
Qed.

Lemma join_columns_names kind scope right_ :
  names (join_columns kind scope right_) = config_names (names scope) (names right_) (CJoin kind (EParam "")).
Proof.
  destruct kind; cbn [join_columns config_names]; rewrite ?map_app; try done. by rewrite map_map.
Qed.
Lemma opt_column_names alias ty : names (opt_column alias ty) = option_list alias.
Proof. by destruct alias. Qed.

Lemma extend_position columns alias ty :
  names (columns ++ match position (fun c => bool_decide (co_name c = alias)) columns with
                    | Some _ => []
                    | None => [{| co_name := alias; co_ty := ty |}]
                    end) = extend (names columns) alias.
Proof.
  unfold extend. destruct (position _ columns) as [i|] eqn:Hp.
  - rewrite app_nil_r, bool_decide_eq_true_2; [done|].
    apply position_Some in Hp as (c & Hc & Ha%bool_decide_eq_true). rewrite <- Ha.
    apply list_elem_of_fmap_2. by eapply list_elem_of_lookup_2.
  - rewrite bool_decide_eq_false_2; [by rewrite map_app|]. intros (c & Hc & Hin)%list_elem_of_fmap.
    rewrite position_None in Hp. specialize (Hp c Hin). cbn in Hp. by apply bool_decide_eq_false in Hp.
Qed.

(** The operator of a bound configuration, and the names of its columns *)
Definition named_as (scope right_ : list Column) (config : Config) (bound : list Column * Kernel * QueryOpV2) : Prop :=
  names bound.1.1 = config_names (names scope) (names right_) config /\ bound.2 = config_op config.
Lemma bind_config_names scope right_ config :
  yields (bind_config params catalog scope right_ config) (named_as scope right_ config).
Proof.
  unfold named_as. destruct config; cbn [bind_config config_names config_op]; try (by apply yields_ret).
  - destruct (negb _); [done|]. by apply yields_ret.
  - unfold bind_values. apply yields_lift. intros [[cs k] op] Hv. inv_result.
    destruct a as [ty value]. destruct ty; try done. destruct value; try done. by injection Hv as <- <- <-.
  - unfold bind_history_scan. yields_tac; done.
  - unfold bind_match. eapply (yields_bind _ _ (fun r => names r.1 = config_names (names scope) (names right_) (CMatch pattern anchors shortest))).
    + destruct pattern as [p|p].
      * do 2 (eapply yields_bind; [apply yields_any|intros ? _]). by apply yields_ret.
      * eapply yields_bind; [apply bind_sequence_names|]. intros sq Hsq.
        eapply yields_bind; [apply yields_any|intros bound _]. apply yields_ret. exact Hsq.
    + intros [cs k] Hr. by apply yields_ret.
  - yields_tac; done.
  - destruct (bool_decide _); [done|]. eapply yields_bind; [apply bind_named_names|].
    intros [cs es] Hr. by apply yields_ret.
  - unfold bind_vector_rank, bind_exact_rank. yields_tac; (split; [cbn; by rewrite map_app|done]).
  - unfold bind_vector_rank, bind_exact_rank. yields_tac; (split; [cbn; by rewrite map_app|done]).
  - unfold bind_expand. destruct pattern as [p|p].
    + apply yields_lift. intros [[cs k] op] Hp. unfold bind_expand_compact in Hp. inv_result.
      match goal with Hb : (if ?b then _ else _) = Ok _ |- _ => destruct b; [done|] end. inv_result. simplify_eq.
      split; [|done]. cbn [fst]. rewrite !app_assoc, !map_app, !opt_column_names.
      rewrite <- map_app, extend_position. done.
    + eapply yields_bind; [apply bind_sequence_names|]. intros sq Hsq. by apply yields_ret.
  - apply yields_lift. intros [[cs k] op] Hp. unfold bind_annotation_lookup in Hp. inv_result. simplify_eq.
    split; [|done]. cbn. by rewrite map_app.
  - unfold bind_lexical_match. yields_tac; (split; [cbn; by rewrite map_app|done]).
  - unfold bind_join. yields_tac. split; [|done]. cbn [fst]. rewrite join_columns_names. by destruct kind.
  - unfold bind_aggregate. eapply yields_bind; [apply bind_named_names|]. intros [cs gs] Hg.
    eapply (yields_bind _ _ (fun r => names r.1 = ne_alias <$> (group_by ++ aggregates))).
    + eapply yields_conseq.
      { eapply (yields_mfor _ (fun (r : list Column * list Aggregate) l => names r.1 ++ (ne_alias <$> l) = ne_alias <$> (group_by ++ aggregates))).
        - cbn [fst] in *. by rewrite Hg, fmap_app.
        - intros r n l Hr. unfold bind_aggregate_call. yields_tac. cbn [fst]. by rewrite map_app, <- app_assoc. }
      intros r Hr. cbn in Hr. by rewrite app_nil_r in Hr.
    + intros [cs' bs] Hr. yields_tac. done.
  - destruct (bool_decide _); [done|]. yields_tac. done.
  - destruct (negb _); [done|]. by apply yields_ret.
  - unfold bind_context_pack. yields_tac; done.
Qed.
End BindNames.

(** ** A lowered plan passes the binder's checks of the graph

    The binder walks the nodes of a plan in order. Over a lowered plan its index maps the
    names [h0], [h1], ... to their numbers, so every check of names, order, arity, root
    and reachability succeeds. *)

Lemma node_name_inj i j : node_name i = node_name j -> i = j.
Proof. unfold node_name. intros H%(inj (String.append "h")). apply to_string_inj in H; lia. Qed.

(** *** Plans by the number of their nodes *)

Definition numbered (nodes : list LogicalNodeV2) : Prop := forall i n, nodes !! i = Some n ->
  exists inputs, is_node i inputs n /\ Forall (fun j => j < i)%nat inputs.
Lemma plan_numbered b l : plan b l -> forall i n, l !! i = Some n ->
  exists inputs, is_node (b + i) inputs n /\ Forall (fun j => b <= j < b + i)%nat inputs.
Proof.
  induction 1 as [b n Hn|b l n Hl IH Hn|b l r n Hl IHl Hr IHr Hn]; intros i m Hi.
  - apply list_lookup_singleton_Some in Hi as [-> <-]. exists []. rewrite Nat.add_0_r. split; [done|constructor].
  - pose proof (plan_nonempty _ _ Hl).
    apply lookup_app_Some in Hi as [Hi|[Hle Hi%list_lookup_singleton_Some]]; [by apply IH|].
    destruct Hi as [Hz <-]. assert (i = length l) as -> by lia. eexists. split; [exact Hn|].
    constructor; [lia|constructor].
  - pose proof (plan_nonempty _ _ Hl). pose proof (plan_nonempty _ _ Hr).
    apply lookup_app_Some in Hi as [Hi|[Hle Hi]]; [by apply IHl|].
    apply lookup_app_Some in Hi as [Hi|[Hle' Hi%list_lookup_singleton_Some]].
    + destruct (IHr _ _ Hi) as (inputs & Hin & Hf).
      replace (b + length l + (i - length l))%nat with (b + i)%nat in * by lia.
      exists inputs. split; [done|]. eapply Forall_impl; [exact Hf|]. cbn. lia.
    + destruct Hi as [Hz <-]. assert (i = length l + length r)%nat as -> by lia.
      eexists. rewrite Nat.add_assoc. split; [exact Hn|]. repeat constructor; lia.
Qed.
Lemma plan_is_numbered l : plan 0 l -> numbered l.
Proof.
  intros Hl i n Hi. destruct (plan_numbered 0 l Hl i n Hi) as (inputs & Hn & Hf). exists inputs.
  split; [done|]. eapply Forall_impl; [exact Hf|]. cbn. lia.
Qed.

(** The root of a plan uses every node of it. *)
Definition input_numbers (nodes : nat -> list nat) (b : nat) (l : list LogicalNodeV2) : Prop :=
  forall i n inputs, l !! i = Some n -> is_node (b + i) inputs n -> nodes (b + i)%nat = inputs.
Lemma plan_reached nodes b l : plan b l -> input_numbers nodes b l -> forall i, (i < length l)%nat ->
  rtc (uses nodes) (b + length l - 1)%nat (b + i)%nat.
Proof.
  induction 1 as [b n Hn|b l n Hl IH Hn|b l r n Hl IHl Hr IHr Hn]; intros Hin i Hi.
  - cbn in Hi. replace (b + i)%nat with (b + length [n] - 1)%nat by (cbn; lia). apply rtc_refl.
  - pose proof (plan_nonempty _ _ Hl). rewrite length_app in *. cbn [length] in *.
    destruct (decide (i = length l)) as [->|Hne].
    { replace (b + (length l + 1) - 1)%nat with (b + length l)%nat by lia. apply rtc_refl. }
    apply rtc_l with (b + length l - 1)%nat.
    + unfold uses. replace (b + (length l + 1) - 1)%nat with (b + length l)%nat by lia.
      rewrite (Hin (length l) n _ (list_lookup_middle _ _ _ _ eq_refl) Hn). by left.
    + apply IH; [|lia]. intros j m inputs Hj. apply Hin. by apply lookup_app_l_Some.
  - pose proof (plan_nonempty _ _ Hl). pose proof (plan_nonempty _ _ Hr).
    rewrite !length_app in *. cbn [length] in *.
    assert (nodes (b + length l + length r)%nat = [(b + length l - 1)%nat; (b + length l + length r - 1)%nat]) as Hroot.
    { rewrite <- Nat.add_assoc. apply (Hin (length l + length r)%nat n).
      - rewrite lookup_app_r by lia. rewrite lookup_app_r by lia. by replace (length l + length r - length l - length r)%nat with 0%nat by lia.
      - by rewrite Nat.add_assoc. }
    destruct (decide (i = length l + length r)%nat) as [->|Hne].
    { replace (b + (length l + (length r + 1)) - 1)%nat with (b + (length l + length r))%nat by lia. apply rtc_refl. }
    replace (b + (length l + (length r + 1)) - 1)%nat with (b + length l + length r)%nat by lia.
    destruct (decide (i < length l)%nat).
    + apply rtc_l with (b + length l - 1)%nat; [unfold uses; rewrite Hroot; by left|].
      apply IHl; [|done]. intros j m inputs Hj. apply Hin. by apply lookup_app_l_Some.
    + apply rtc_l with (b + length l + length r - 1)%nat; [unfold uses; rewrite Hroot; right; by left|].
      replace (b + i)%nat with (b + length l + (i - length l))%nat by lia.
      apply IHr; [|lia]. intros j m inputs Hj Hm. rewrite <- Nat.add_assoc in *.
      apply (Hin (length l + j)%nat m); [|done].
      rewrite lookup_app_r by lia. apply lookup_app_l_Some. by replace (length l + j - length l)%nat with j by lia.
Qed.

Lemma is_node_inputs i j inputs inputs' n : is_node i inputs n -> is_node j inputs' n -> inputs = inputs'.
Proof.
  intros H1 H2. apply (list_fmap_eq_inj node_name); [exact node_name_inj|].
  by rewrite <- (in_inputs _ _ _ H1), (in_inputs _ _ _ H2).
Qed.

Section BindPlan.
Context `{UuidCrate, Serde, HexSha256}.
Variable params : BoundParametersV2.
Variable catalog : AuthorizedCatalogV2.
Notation names := (map co_name).

(** The binder's state after a prefix of the plan *)
Record bound_prefix (nodes : list LogicalNodeV2) (st : bind_state) : Prop := {
  bp_length : length (bv_nodes st) = length nodes;
  bp_index : forall name i, bt_get cmp_str name (bv_index st) = Some i <->
    name = node_name i /\ (i < length nodes)%nat;
  bp_node : forall i n b, nodes !! i = Some n -> bv_nodes st !! i = Some b ->
    is_node i (bd_inputs b) n /\
    names (bd_columns b) = config_names
      (names (input_columns (bv_nodes st) (bd_inputs b) 0))
      (names (input_columns (bv_nodes st) (bd_inputs b) 1)) (ln_config n);
}.
Lemma bound_prefix_nil : bound_prefix [] {| bv_nodes := []; bv_index := []; bv_depths := [] |}.
Proof. split; cbn; [done|intros; split; [done|lia]|done]. Qed.

Lemma input_columns_app nodes k inputs i : Forall (fun j => j < length nodes)%nat inputs ->
  input_columns (nodes ++ k) inputs i = input_columns nodes inputs i.
Proof.
  intros Hf. unfold input_columns. destruct (inputs !! i) as [j|] eqn:Hj; [|done]. cbn.
  rewrite lookup_app_l; [done|]. rewrite Forall_forall in Hf. apply Hf. by eapply list_elem_of_lookup_2.
Qed.

Lemma config_arity_op c : config_arity c = arity (config_op c).
Proof. by destruct c. Qed.

(** Over a plan, binding a node is binding its configuration, but for the depth. *)
Lemma bind_node_plan nodes st n inputs s : bound_prefix nodes st -> is_node (length nodes) inputs n ->
  Forall (fun j => j < length nodes)%nat inputs ->
  bind_node params catalog st n s =
    if (128 <? input_depth (bv_depths st) inputs)%nat then Err (bind_invalid "dag_depth")
    else
      '((columns, kernel, op), s) ← bind_config params catalog (input_columns (bv_nodes st) inputs 0)
                                 (input_columns (bv_nodes st) inputs 1) (ln_config n) s;
      Ok ({| bv_nodes := bv_nodes st ++ [{| bd_id := node_name (length nodes); bd_op := op; bd_inputs := inputs;
                                            bd_columns := columns; bd_kernel := kernel |}];
             bv_index := bt_insert cmp_str (node_name (length nodes)) (length nodes) (bv_index st);
             bv_depths := bv_depths st ++ [input_depth (bv_depths st) inputs] |}, s).
Proof.
  intros [Hlen Hidx Hnode] [Hid Hins Hop Har _] Hlt. unfold bind_node. rewrite Hid, Hins.
  assert (bt_contains cmp_str (node_name (length nodes)) (bv_index st) = false) as ->.
  { unfold bt_contains. destruct (bt_get _ _ _) as [i|] eqn:Hi; [|done].
    apply Hidx in Hi as [->%node_name_inj Hi]. lia. }
  assert (traverse (fun s => ok_or (bt_get cmp_str s (bv_index st)) (bind_invalid "dag_order"))
            (node_name <$> inputs) = Ok inputs) as Ht.
  { apply traverse_Ok. rewrite Forall2_fmap_l. apply Forall2_same_length_lookup. split; [done|].
    intros k j j' Hj Hj'. simplify_eq. cbn. apply ok_or_Ok, Hidx. split; [done|].
    rewrite Forall_forall in Hlt. apply Hlt. by eapply list_elem_of_lookup_2. }
  rewrite sm_bind_eq. unfold lift at 1. rewrite Ht. cbn zeta.
  destruct (128 <? input_depth (bv_depths st) inputs)%nat; [done|].
  rewrite Har, Hop, <- config_arity_op, Nat.eqb_refl. cbn [negb]. rewrite sm_bind_eq, Hlen.
  destruct (bind_config _ _ _ _ _ s) as [[[[columns kernel] op] s']|e] eqn:Hc; [|done].
  apply bind_config_names in Hc as [_ Hc]. cbn [snd] in Hc. subst op. by rewrite bool_decide_eq_true_2 by done.
Qed.

Lemma bind_node_prefix nodes st n s st' s' : bound_prefix nodes st -> numbered (nodes ++ [n]) ->
  bind_node params catalog st n s = Ok (st', s') -> bound_prefix (nodes ++ [n]) st' /\
  exists b, bv_nodes st' = bv_nodes st ++ [b].
Proof.
  intros Hst Hnum Hb. destruct (Hnum (length nodes) n (list_lookup_middle _ _ _ _ eq_refl)) as (inputs & Hn & Hlt).
  rewrite (bind_node_plan nodes st n inputs s Hst Hn Hlt) in Hb. destruct Hst as [Hlen Hidx Hnode].
  destruct (128 <? _)%nat; [done|].
  apply bind_Ok in Hb as ([[[columns kernel] op] s1] & Hc & [= <- <-]).
  apply bind_config_names in Hc as [Hnames Hop]. cbn [fst snd] in *. split; [|by eexists].
  assert (Forall (fun j => j < length (bv_nodes st))%nat inputs) as Hlt' by by rewrite Hlen.
  split; cbn [bv_nodes bv_index].
  - rewrite !length_app. cbn. lia.
  - intros name i. rewrite length_app. cbn [length]. destruct (decide (node_name (length nodes) = name)) as [<-|Hne].
    + rewrite bt_get_insert_eq by exact _. split; [intros [= <-]; split; [done|lia]|].
      by intros [->%node_name_inj _].
    + rewrite bt_get_insert_ne by (done || exact _). rewrite Hidx. split; [intros [-> ?]; split; [done|lia]|].
      intros [-> Hi]. split; [done|]. destruct (decide (i = length nodes)) as [->|]; [done|lia].
  - intros i m b Hm Hbn. destruct (decide (i < length nodes)%nat) as [Hi|Hi].
    + rewrite lookup_app_l in Hm by lia. rewrite lookup_app_l in Hbn by lia.
      destruct (Hnode i m b Hm Hbn) as [Hin Hcol]. split; [done|].
      assert (Forall (fun j => j < length (bv_nodes st))%nat (bd_inputs b)).
      { destruct (Hnum i m) as (inputs' & Hn' & Hlt'').
        { by apply lookup_app_l_Some. }
        rewrite (is_node_inputs _ _ _ _ _ Hn' Hin) in Hlt''. eapply Forall_impl; [exact Hlt''|]. cbn. lia. }
      by rewrite !input_columns_app.
    + apply lookup_lt_Some in Hm as Hm'. rewrite length_app in Hm'. cbn in Hm'.
      assert (i = length nodes) as -> by lia. rewrite list_lookup_middle in Hm by done. injection Hm as <-.
      rewrite list_lookup_middle in Hbn by done. injection Hbn as <-. cbn [bd_inputs bd_columns].
      split; [done|]. by rewrite !input_columns_app.
Qed.

Lemma bind_nodes_prefix k nodes st s st' s' : bound_prefix nodes st -> numbered (nodes ++ k) ->
  mfor (bind_node params catalog) st k s = Ok (st', s') ->
  bound_prefix (nodes ++ k) st' /\ exists bs, bv_nodes st' = bv_nodes st ++ bs.
Proof.
  revert nodes st s; induction k as [|n k IH]; intros nodes st s Hst Hnum.
  - intros [= <- <-]. rewrite app_nil_r. split; [done|]. exists []. by rewrite app_nil_r.
  - cbn [mfor]. intros (st1 & s1 & H1' & H2')%sm_bind_Ok.
    apply (bind_node_prefix nodes) in H1' as [Hst1 [b Hb]]; [|done|].
    + rewrite (app_assoc nodes [n] k : nodes ++ n :: k = _) in *.
      destruct (IH (nodes ++ [n]) st1 s1 Hst1 Hnum H2') as [Hst' [bs Hbs]]. split; [done|].
      exists (b :: bs). by rewrite Hbs, Hb, <- app_assoc.
    + intros i m Hi. apply Hnum. rewrite (app_assoc nodes [n] k : nodes ++ n :: k = _). by apply lookup_app_l_Some.
Qed.

(** *** The binder's errors on a plan *)

Notation first_state := {| bv_nodes := []; bv_index := []; bv_depths := [] |}.
(** The operator's own error, or the depth of the plan *)
Definition plan_error (nodes : list LogicalNodeV2) (e : QueryErrorV2) : Prop :=
  e = bind_invalid "dag_depth" \/
  exists n scope right_ s, n ∈ nodes /\ bind_config params catalog scope right_ (ln_config n) s = Err e.

Lemma bind_nodes_error k nodes st s e : bound_prefix nodes st -> numbered (nodes ++ k) ->
  mfor (bind_node params catalog) st k s = Err e -> plan_error k e.
Proof.
  revert nodes st s; induction k as [|n k IH]; intros nodes st s Hst Hnum; [done|].
  cbn [mfor]. rewrite sm_bind_eq. destruct (Hnum (length nodes) n) as (inputs & Hn & Hlt).
  { by apply list_lookup_middle. }
  assert (numbered ((nodes ++ [n]) ++ k)) as Hnum' by by rewrite <- app_assoc.
  destruct (bind_node params catalog st n s) as [[st1 s1]|e1] eqn:Hb.
  - apply (bind_node_prefix nodes) in Hb as [Hst1 _]; [|done|].
    + intros He. destruct (IH _ _ _ Hst1 Hnum' He) as [Hd|(m & sc & r & t & Hm & Hc)]; [by left|].
      right. exists m, sc, r, t. split; [by right|done].
    + intros i m Hi. apply Hnum'. by apply lookup_app_l_Some.
  - intros [= ->]. rewrite (bind_node_plan nodes st n inputs s Hst Hn Hlt) in Hb.
    destruct (128 <? _)%nat; [left; congruence|]. right.
    apply bind_Err in Hb as [Hb|([[[cs kr] op] s1] & _ & Hb)]; [|done].
    exists n, (input_columns (bv_nodes st) inputs 0), (input_columns (bv_nodes st) inputs 1), s.
    split; [by left|done].
Qed.

Lemma reachable_plan l st : plan 0 l -> bound_prefix l st ->
  size (reachable_nodes (bv_nodes st) (length l - 1)) = length (bv_nodes st).
Proof.
  intros Hl [Hlen _ Hnode]. pose proof (plan_nonempty _ _ Hl).
  assert (input_numbers (node_inputs (bv_nodes st)) 0 l) as Hin.
  { intros i n inputs Hn Hin. cbn in *. unfold node_inputs.
    destruct (lookup_lt_is_Some_2 (bv_nodes st) i) as [b Hb]; [rewrite Hlen; by eapply lookup_lt_Some|].
    rewrite Hb. cbn. destruct (Hnode i n b Hn Hb) as [Hb' _]. by eapply is_node_inputs. }
  assert (forall i j, uses (node_inputs (bv_nodes st)) i j -> (i < length l)%nat -> (j < length l)%nat) as Hbelow.
  { intros i j Hu Hi. destruct (lookup_lt_is_Some_2 l i Hi) as [n Hn].
    destruct (plan_is_numbered l Hl i n Hn) as (inputs & Hn' & Hf). unfold uses in Hu.
    pose proof (Hin i n inputs Hn Hn') as Hi'. cbn [Nat.add] in Hi'. rewrite Hi' in Hu. rewrite Forall_forall in Hf. specialize (Hf j Hu). cbn in Hf. lia. }
  unfold reachable_nodes. set (fuel := S (list_sum _)).
  assert (forall i, i ∈ reach (node_inputs (bv_nodes st)) fuel [(length l - 1)%nat] ∅ <->
    rtc (uses (node_inputs (bv_nodes st))) (length l - 1)%nat i) as Hspec.
  { apply (reach_spec _ (length (bv_nodes st))); [|done]. intros j Hj. unfold node_inputs. by rewrite lookup_ge_None_2. }
  assert (reach (node_inputs (bv_nodes st)) fuel [(length l - 1)%nat] ∅ ≡ set_seq (C:=gset nat) 0 (length l)) as Heq.
  { intros i. rewrite Hspec, elem_of_set_seq. split.
    - intros Hr. split; [lia|]. cbn. assert (length l - 1 < length l)%nat as Hlt by lia. revert Hlt.
      clear -Hr Hbelow. generalize dependent (length l - 1)%nat. intros r Hr Hlt.
      induction Hr as [|x y z Hxy _ IH]; [done|]. eauto.
    - intros [_ Hi]. by apply (plan_reached _ 0 l Hl Hin i Hi). }
  rewrite Heq, size_set_seq. lia.
Qed.

(** What binding a plan comes to *)
Lemma bind_v2_plan request : plan 0 (lr_nodes request) ->
  lr_root request = node_name (length (lr_nodes request) - 1) -> zlen (lr_nodes request) <= 10000 ->
  lr_parameter_types request = [] -> lr_from_hql request = true ->
  bind_v2 params catalog request =
    '(st, _) ← mfor (bind_node params catalog) first_state (lr_nodes request) 0;
    Ok {| bq_nodes := bv_nodes st; bq_root := length (lr_nodes request) - 1 |}.
Proof.
  intros Hl Hroot Hsize Hty Hhql. pose proof (plan_nonempty _ _ Hl). unfold bind_v2.
  rewrite bool_decide_eq_false_2 by lia. destruct (Z.ltb_spec 10000 (zlen (lr_nodes request))); [lia|].
  rewrite Hhql, Hty. cbn [orb negb andb try_for mbind result_bind].
  destruct (mfor _ _ _ _) as [[st s]|e] eqn:Hm; [|done].
  apply (bind_nodes_prefix _ []) in Hm as [Hst _]; [|apply bound_prefix_nil|by apply plan_is_numbered].
  cbn [app] in Hst. rewrite Hroot.
  assert (bt_get cmp_str (node_name (length (lr_nodes request) - 1)) (bv_index st) =
    Some (length (lr_nodes request) - 1)%nat) as -> by (apply (bp_index _ _ Hst); split; [done|lia]).
  cbn [ok_or mbind result_bind]. by rewrite reachable_plan, bool_decide_eq_true_2 by done.
Qed.
End BindPlan.
