(* ===== verification/HqlScope.v ===== *)
(** * The columns in scope are the columns bound

    The lowering expands [*] from the scope it threads along; whatever the source and the
    stages, that scope names exactly the columns the binder gives the plan's root. So
    [RETURN *] returns the columns of the query before it, each as it is. *)
From S2P Require Export HqlBind.
Local Open Scope Z_scope.

Lemma numbered_prefix nodes nodes' : nodes `prefix_of` nodes' -> numbered nodes' -> numbered nodes.
Proof. intros [k ->] Hn i n Hi. apply Hn. by apply lookup_app_l_Some. Qed.

Section Scope.
Context `{UuidCrate, Serde, HexSha256, NumberText, Grammar}.
Variable params : BoundParametersV2.
Variable catalog : AuthorizedCatalogV2.
Variable resolve_parameter : string -> query Z.
Notation names := (map co_name).
Notation first_state := {| bv_nodes := []; bv_index := []; bv_depths := [] |}.
Notation binding nodes := (mfor (bind_node params catalog) first_state nodes 0).

(** Once the nodes are bound, the node called [root] has the columns [scope]. *)
Definition scoped (nodes : list LogicalNodeV2) (root : string) (scope : list string) : Prop :=
  forall st s, binding nodes = Ok (st, s) -> exists i b,
  root = node_name i /\ bv_nodes st !! i = Some b /\ names (bd_columns b) = scope.

Lemma scoped_prefix nodes nodes' root scope : nodes `prefix_of` nodes' -> numbered nodes' ->
  scoped nodes root scope -> scoped nodes' root scope.
Proof.
  intros [k ->] Hn Hs st s. rewrite mfor_app. destruct (binding nodes) as [[st1 s1]|] eqn:H1'; [|done].
  intros H2'. destruct (Hs _ _ H1') as (i & b & -> & Hb & Hc).
  apply (bind_nodes_prefix _ _ _ []) in H1' as [Hst1 _]; [|apply bound_prefix_nil|].
  - apply (bind_nodes_prefix _ _ _ nodes) in H2' as [_ [bs Hbs]]; [|done|done].
    exists i, b. rewrite Hbs. split; [done|]. split; [by apply lookup_app_l_Some|done].
  - eapply numbered_prefix; [|exact Hn]. by exists k.
Qed.
(** A new node's columns, from those of the nodes it names *)
Lemma scoped_node nodes n roots scopes : numbered (nodes ++ [n]) -> ln_inputs n = roots ->
  Forall2 (scoped nodes) roots scopes -> scoped (nodes ++ [n]) (ln_id n)
    (config_names (default [] (scopes !! 0%nat)) (default [] (scopes !! 1%nat)) (ln_config n)).
Proof.
  intros Hnum Hin Hf st s. rewrite mfor_app.
  destruct (binding nodes) as [[st1 s1]|] eqn:H1'; [|done]. cbn [mfor].
  intros (st2 & s2 & H2' & [= <- <-])%sm_bind_Ok.
  assert (Forall2 (fun root scope => exists i b, root = node_name i /\ bv_nodes st1 !! i = Some b /\
    names (bd_columns b) = scope) roots scopes) as Hb by (eapply Forall2_impl; [exact Hf|]; intros; eauto).
  apply (bind_nodes_prefix _ _ _ []) in H1' as [Hst1 _]; [|apply bound_prefix_nil|].
  2: { eapply numbered_prefix; [|exact Hnum]. by exists [n]. }
  cbn [app] in Hst1. apply (bind_node_prefix _ _ nodes) in H2' as [Hst2 [b Hnew]]; [|done|done].
  pose proof (bp_length _ _ Hst1) as Hlen.
  assert (bv_nodes st2 !! length nodes = Some b) as Hlook by (rewrite Hnew; by apply list_lookup_middle).
  destruct (bp_node _ _ Hst2 (length nodes) n b) as [Hn Hc]; [by apply list_lookup_middle|done|].
  exists (length nodes), b. split; [apply Hn|]. split; [done|]. rewrite Hc.
  pose proof (in_inputs _ _ _ Hn) as Hins. rewrite Hin in Hins.
  enough (forall k, names (input_columns (bv_nodes st2) (bd_inputs b) k) = default [] (scopes !! k)) as He
    by by rewrite !He.
  intros k. unfold input_columns. subst roots. rewrite Hins in Hb. rewrite Forall2_fmap_l in Hb.
  destruct (bd_inputs b !! k) as [j|] eqn:Hj; cbn.
  - destruct (Forall2_lookup_l _ _ _ _ _ Hb Hj) as (scope & -> & (i & c & ->%node_name_inj & Hc' & Hs)).
    rewrite Hnew, (lookup_app_l_Some _ _ _ _ Hc'). done.
  - apply lookup_ge_None_1 in Hj. rewrite (Forall2_length _ _ _ Hb) in Hj. by rewrite lookup_ge_None_2.
Qed.

Lemma add_scoped op roots config nodes id nodes' scopes : add op roots config nodes = Ok (id, nodes') ->
  numbered nodes' -> Forall2 (scoped nodes) roots scopes ->
  scoped nodes' id (config_names (default [] (scopes !! 0%nat)) (default [] (scopes !! 1%nat)) config).
Proof. intros (_ & -> & ->)%add_Ok Hn Hf. by eapply (scoped_node _ _ roots scopes Hn). Qed.

(** *** Lowering only adds nodes. *)

Notation lower := (SM (list LogicalNodeV2) QueryErrorV2).
Notation placed := (string * list string)%type.
Lemma add_grows op inputs config : moves prefix (add op inputs config).
Proof. intros nodes id nodes' (_ & _ & ->)%add_Ok. by eexists. Qed.
Lemma lower_stage_grows acc stage : moves prefix (lower_stage resolve_parameter acc stage).
Proof.
  unfold lower_stage. destruct (sp_value stage);
    repeat first [apply moves_lift; apply _|apply moves_ret; apply _|apply add_grows|apply moves_bind; [apply _| |intros ?]
                 |match goal with |- moves _ (match ?x with _ => _ end) => destruct x end].
Qed.
Lemma lower_query_of_grows {S} (source : nat -> lower placed) (q : QueryOf S) depth :
  (forall depth, moves prefix (source depth)) -> moves prefix (lower_query_of resolve_parameter source q depth).
Proof.
  intros Hs. unfold lower_query_of. destruct (too_deep depth); [apply moves_fail|].
  apply moves_bind; [apply _|apply Hs|]. intros acc. apply moves_bind; [apply _| |].
  - apply moves_mfor; [apply _|]. intros. apply lower_stage_grows.
  - intros [root scope]. apply moves_bind; [apply _|apply moves_lift; apply _|]. intros fields.
    apply moves_bind; [apply _|apply add_grows|]. intros. apply moves_ret; apply _.
Qed.
Lemma lower_source_grows : forall k depth, moves prefix (lower_source resolve_parameter k depth).
Proof.
  fix IH 1. intros k depth.
  assert (forall k, moves prefix ('(op, config, scope) ← lift (leaf_source resolve_parameter k);
      root ← add op [] config; mret (root, scope) : lower placed)) as Hleaf.
  { intros k0. apply moves_bind; [apply _|apply moves_lift; apply _|]. intros [[op config] scope].
    apply moves_bind; [apply _|apply add_grows|]. intros. apply moves_ret; apply _. }
  destruct k as [| | | | | | | |[? ? [? lhs] ? ?] [? ? [? rhs] ? ?]|]; try apply Hleaf.
  cbn [lower_source sp_value q_source]. clear Hleaf.
  apply moves_bind; [apply _|apply lower_query_of_grows; intros; apply IH|]. intros [l sc].
  apply moves_bind; [apply _|apply lower_query_of_grows; intros; apply IH|]. intros [r sc'].
  apply moves_bind; [apply _|apply add_grows|]. intros. apply moves_ret; apply _.
Qed.

(** *** Every step keeps the scope. *)

Lemma lower_stage_scoped acc stage nodes acc' nodes' : scoped nodes acc.1 acc.2 ->
  lower_stage resolve_parameter acc stage nodes = Ok (acc', nodes') -> numbered nodes' ->
  scoped nodes' acc'.1 acc'.2.
Proof.
  intros Hacc. unfold lower_stage.
  assert (forall stage, ('(op, config, scope) ← lift (plain_stage resolve_parameter acc.2 stage);
      root ← add op [acc.1] config; mret (root, scope)) nodes = Ok (acc', nodes') -> numbered nodes' ->
      scoped nodes' acc'.1 acc'.2) as Hplain.
  { intros st ([[op config] scope] & ? & [Hst ->]%lift_Ok & (root & ? & Hadd & [= <- <-])%sm_bind_Ok)%sm_bind_Ok Hn.
    apply (plain_stage_names _ _ _ _ _ _ []) in Hst as ->. cbn [fst snd].
    apply (add_scoped _ _ _ _ _ _ [acc.2] Hadd Hn). by constructor. }
  destruct (sp_value stage); try apply Hplain.
  intros (a & ? & [_ ->]%lift_Ok & (t & ? & [_ ->]%lift_Ok & (r & nodes1 & Hr & Hj)%sm_bind_Ok)%sm_bind_Ok)%sm_bind_Ok.
  apply sm_bind_Ok in Hj as (c & ? & [Hc ->]%lift_Ok & (root & ? & Hadd & [= <- <-])%sm_bind_Ok). intros Hn.
  assert (numbered nodes1) as Hn1 by (eapply numbered_prefix; [by eapply add_grows|done]).
  cbn [fst snd].
  assert (match lower_join_kind kind with JoinSemi | JoinAnti => acc.2 | _ => acc.2 ++ [a] end =
    config_names acc.2 [a] (CJoin (lower_join_kind kind) c)) as -> by by destruct kind.
  apply (add_scoped _ _ _ _ _ _ [acc.2; [a]] Hadd Hn). constructor; [|constructor; [|constructor]].
  - eapply scoped_prefix; [by eapply add_grows|done|done].
  - apply (add_scoped _ _ _ _ _ _ [] Hr Hn1). constructor.
Qed.
Lemma lower_stages_scoped stages : forall acc nodes acc' nodes', scoped nodes acc.1 acc.2 ->
  mfor (lower_stage resolve_parameter) acc stages nodes = Ok (acc', nodes') -> numbered nodes' ->
  scoped nodes' acc'.1 acc'.2.
Proof.
  induction stages as [|stage stages IH]; intros acc nodes acc' nodes' Hacc; [by intros [= <- <-]|].
  cbn [mfor]. intros (acc1 & nodes1 & H1' & H2')%sm_bind_Ok Hn. eapply IH; [|exact H2'|done].
  eapply lower_stage_scoped; [done|done|]. eapply numbered_prefix; [|exact Hn].
  eapply moves_mfor; [apply _|intros; apply lower_stage_grows|exact H2'].
Qed.
Lemma lower_query_of_scoped {S} (source : nat -> lower placed) (q : QueryOf S) depth nodes acc nodes' :
  (forall depth, moves prefix (source depth)) ->
  (forall depth acc nodes1, source depth nodes = Ok (acc, nodes1) -> numbered nodes1 -> scoped nodes1 acc.1 acc.2) ->
  lower_query_of resolve_parameter source q depth nodes = Ok (acc, nodes') -> numbered nodes' ->
  scoped nodes' acc.1 acc.2.
Proof.
  intros Hg Hs. unfold lower_query_of. destruct (too_deep depth); [done|].
  intros (acc1 & nodes1 & H1' & ([root scope] & nodes2 & H2' & H3')%sm_bind_Ok)%sm_bind_Ok Hn.
  apply sm_bind_Ok in H3' as (fields & ? & [Hf ->]%lift_Ok & (r & ? & Hadd & [= <- <-])%sm_bind_Ok).
  assert (numbered nodes2) as Hn2 by (eapply numbered_prefix; [by eapply add_grows|done]).
  assert (numbered nodes1) as Hn1.
  { eapply numbered_prefix; [|exact Hn2]. eapply moves_mfor; [apply _|intros; apply lower_stage_grows|exact H2']. }
  apply lower_stages_scoped in H2'; [|by eapply Hs|done]. cbn [fst snd] in *.
  apply (add_scoped _ _ _ _ _ _ [scope] Hadd Hn). by constructor.
Qed.
Lemma lower_source_scoped : forall k depth nodes acc nodes',
  lower_source resolve_parameter k depth nodes = Ok (acc, nodes') -> numbered nodes' -> scoped nodes' acc.1 acc.2.
Proof.
  fix IH 1. intros k depth nodes acc nodes'.
  assert (forall k, ('(op, config, scope) ← lift (leaf_source resolve_parameter k);
      root ← add op [] config; mret (root, scope)) nodes = Ok (acc, nodes') -> numbered nodes' ->
      scoped nodes' acc.1 acc.2) as Hleaf.
  { intros k0 ([[op config] scope] & ? & [Hst ->]%lift_Ok & (root & ? & Hadd & [= <- <-])%sm_bind_Ok)%sm_bind_Ok Hn.
    apply (leaf_source_names _ _ _ _ _ [] []) in Hst as ->.
    apply (add_scoped _ _ _ _ _ _ [] Hadd Hn). constructor. }
  destruct k as [| | | | | | | |[? ? [? lhs] ? ?] [? ? [? rhs] ? ?]|]; try apply Hleaf.
  cbn [lower_source sp_value q_source]. clear Hleaf.
  intros ([left_ scope] & nodes1 & H1' & ([right_ scope2] & nodes2 & H2' & (r & ? & Hadd & [= <- <-])%sm_bind_Ok)%sm_bind_Ok)%sm_bind_Ok Hn.
  assert (numbered nodes2) as Hn2 by (eapply numbered_prefix; [by eapply add_grows|done]).
  assert (nodes1 `prefix_of` nodes2) as Hp.
  { eapply lower_query_of_grows; [|exact H2']. intros. apply lower_source_grows. }
  assert (numbered nodes1) as Hn1 by by eapply numbered_prefix.
  apply lower_query_of_scoped in H1'; [|intros; apply lower_source_grows|intros; by eapply IH|done].
  apply lower_query_of_scoped in H2'; [|intros; apply lower_source_grows|intros; by eapply IH|done].
  cbn [fst snd] in *. apply (add_scoped _ _ _ _ _ _ [scope; scope2] Hadd Hn).
  constructor; [by eapply scoped_prefix|]. by constructor; [|constructor].
Qed.

(** ** [RETURN *] *)

Lemma bind_column scope c i n n' e : NoDup (names scope) -> scope !! i = Some c ->
  bind_expr scope params (ne_expression (column (co_name c))) 0 n = Ok (e, n') -> be_ty e = co_ty c.
Proof.
  intros Hnd Hi. rewrite bind_expr_loop. cbn [column ne_expression bind_rec bind_rec_node].
  rewrite sm_bind_eq, depth_check_eq. cbn [Z.of_nat Z.leb Z.compare].
  intros [Hf _]%lift_Ok. unfold bind_field in Hf. cbn [fr_alias fr_path] in Hf.
  apply bind_Ok in Hf as (j & Hj%ok_or_Ok & (c' & Hc'%ok_or_Ok & [= <-])%bind_Ok).
  apply position_Some in Hj as (c1 & Hc1 & Hname%bool_decide_eq_true). simplify_eq.
  cbn [be_ty]. enough (i = j) by congruence.
  apply (NoDup_lookup (names scope) i j (co_name c)); [done| |].
  - change (names scope) with (co_name <$> scope). by rewrite list_lookup_fmap, Hi.
  - change (names scope) with (co_name <$> scope). by rewrite list_lookup_fmap, Hc1, <- Hname.
Qed.
Lemma bind_columns scope : NoDup (names scope) ->
  yields (mfor (bind_named_field params scope) ([], []) (map column (names scope)) : SM Z QueryErrorV2 _)
    (fun r => r.1 = scope).
Proof.
  intros Hnd.
  enough (forall rest done_ es, scope = done_ ++ rest ->
    yields (mfor (bind_named_field params scope) (done_, es) (map column (names rest)) : SM Z QueryErrorV2 _)
      (fun r => r.1 = scope)) as He by by apply (He scope []).
  induction rest as [|c rest IH]; intros done_ es Hs; cbn [map mfor].
  { apply yields_ret. by rewrite app_nil_r in Hs. }
  intros n r n' ([done1 es1] & t & Hc & Hr)%sm_bind_Ok. unfold bind_named_field in Hc.
  apply sm_bind_Ok in Hc as (e & t1 & He & Hc). cbn [fst snd] in Hc.
  apply (bind_column scope c (length done_)) in He; [|done|by rewrite Hs; apply list_lookup_middle].
  destruct (bool_decide (be_ty e = TNull)); [done|]. injection Hc as <- <- <-.
  eapply (IH (done_ ++ [c]) (es ++ [e])); [by rewrite <- app_assoc|].
  rewrite He in Hr. destruct c as [name ty]. exact Hr.
Qed.

(** Projecting every column by its name leaves the columns as they are. *)
Lemma project_columns scope right_ s columns kernel op s' :
  bind_config params catalog scope right_ (CProject (map column (names scope))) s = Ok ((columns, kernel, op), s') ->
  columns = scope.
Proof.
  cbn [bind_config]. destruct (bool_decide _); [done|].
  intros ([c e] & t & Hb & [= <- _ _ _])%sm_bind_Ok. pose proof (bind_named_names _ _ _ _ _ _ Hb) as Hc.
  cbn [fst] in Hc. unfold bind_named in Hb. apply sm_bind_Ok in Hb as (r & t1 & Hm & Hb).
  apply sm_bind_Ok in Hb as ([] & t2 & [Hu ->]%lift_Ok & [= -> _]). cbn [fst] in Hu.
  unfold unique in Hu. destruct (has_dup (names c)) eqn:Hd; [done|]. apply has_dup_false in Hd.
  rewrite Hc in Hd. assert (ne_alias <$> map column (names scope) = names scope) as Hn.
  { change (map column (names scope)) with (column <$> names scope). rewrite <- list_fmap_compose. apply list_fmap_id. }
  rewrite Hn in Hd. by apply (bind_columns scope Hd) in Hm.
Qed.

Lemma selected_star sp scope : selected [At sp SelStar] scope = Ok (map column scope).
Proof. reflexivity. Qed.

Lemma return_star_columns statement q sp r bound :
  st_query statement = Some q -> q_returning q = [At sp SelStar] ->
  lower_hql2_with_unsigned_resolver resolve_parameter statement = Ok r ->
  bind_v2 params catalog r = Ok bound ->
  exists n j m, bq_nodes bound !! bq_root bound = Some n /\ bd_op n = OpProject /\ bd_inputs n = [j] /\
  bq_nodes bound !! j = Some m /\ bd_columns n = bd_columns m.
Proof.
  intros Hq Hret Hlow Hbind.
  destruct (lowered_plan resolve_parameter statement r Hlow) as (Hplan & Hroot & Hsize & Hty & Hhql).
  rewrite (bind_v2_plan _ _ r Hplan Hroot Hsize Hty Hhql) in Hbind.
  apply bind_Ok in Hbind as ([st s] & Hm & [= <-]). cbn [bq_nodes bq_root].
  assert (exists scope, exists root depth nodes, scoped nodes root scope /\
    lr_nodes r = nodes ++ [{| ln_id := depth; ln_op := OpProject; ln_inputs := [root];
                             ln_config := CProject (map column scope) |}]) as (scope & root & id & nodes & Hsc & Hnodes).
  { unfold lower_hql2_with_unsigned_resolver in Hlow. rewrite Hq in Hlow.
    assert (('((root, _), nodes) ← lower_query resolve_parameter q 1 [];
      Ok {| lr_nodes := nodes; lr_root := root; lr_parameter_types := []; lr_from_hql := true |}) = Ok r) as Hl
      by by destruct (st_kind statement).
    clear Hlow. apply bind_Ok in Hl as ([[root scope] nodes'] & Hl & [= <-]).
    cbn [lr_nodes] in *. apply plan_is_numbered in Hplan. unfold lower_query, lower_query_of in Hl.
    destruct (too_deep 1); [done|].
    apply sm_bind_Ok in Hl as (acc1 & nodes1 & H1' & ([root2 scope2] & nodes2 & H2' & H3')%sm_bind_Ok).
    apply sm_bind_Ok in H3' as (fields & ? & [Hf ->]%lift_Ok & (rt & ? & Hadd & [= <- <- <-])%sm_bind_Ok).
    rewrite Hret, selected_star in Hf. injection Hf as <-.
    assert (numbered nodes2) as Hn2 by (eapply numbered_prefix; [by eapply add_grows|done]).
    assert (numbered nodes1) as Hn1.
    { eapply numbered_prefix; [|exact Hn2]. eapply moves_mfor; [apply _|intros; apply lower_stage_grows|exact H2']. }
    apply lower_stages_scoped in H2'; [|by eapply lower_source_scoped|done].
    apply add_Ok in Hadd as (_ & _ & ->). by exists scope2, root2, rt, nodes2. }
  rewrite Hnodes in Hm |- *. rewrite length_app. cbn [length]. rewrite Nat.add_sub.
  rewrite Hnodes in Hplan. pose proof (plan_is_numbered _ Hplan) as Hnum.
  rewrite mfor_app in Hm. destruct (binding nodes) as [[st1 s1]|] eqn:H1'; [|done].
  destruct (Hsc _ _ H1') as (j & m & -> & Hj & Hnames).
  apply (bind_nodes_prefix _ _ _ []) in H1' as [Hst1 _]; [|apply bound_prefix_nil|].
  2: { eapply numbered_prefix; [|exact Hnum]. by eexists. }
  cbn [app] in Hst1. cbn [mfor] in Hm. apply sm_bind_Ok in Hm as (st2 & s2 & Hb & [= -> ->]).
  destruct (Hnum (length nodes) _ (list_lookup_middle _ _ _ _ eq_refl)) as (inputs & Hn & Hlt).
  assert (inputs = [j]) as ->.
  { apply (list_fmap_eq_inj node_name); [exact node_name_inj|]. by rewrite <- (in_inputs _ _ _ Hn). }
  rewrite (bind_node_plan _ _ nodes st1 _ _ s1 Hst1 Hn Hlt) in Hb.
  destruct (128 <? _)%nat; [done|]. apply bind_Ok in Hb as ([[[columns kernel] op] s3] & Hc & [= <- <-]).
  cbn [bv_nodes ln_config] in *. pose proof (bind_config_names _ _ _ _ _ _ _ _ Hc) as [_ Hop].
  cbn [snd config_op] in Hop. assert (input_columns (bv_nodes st1) [j] 0 = bd_columns m) as Hcols
    by (unfold input_columns; cbn; by rewrite Hj).
  rewrite Hcols, <- Hnames in Hc. apply project_columns in Hc as ->.
  eexists _, j, m. split; [apply list_lookup_middle; by rewrite (bp_length _ _ Hst1)|].
  split; [done|]. split; [done|]. split; [by apply lookup_app_l_Some|done].
Qed.

(** C29: The operator graph of a lowered statement. It is the plan of a query: 1 to 10000
    nodes [h0], [h1], ..., each after the plans of its inputs, used by one node, of its
    operator's arity and with its operator's configuration, the root last. Binding it is
    binding its nodes in order: the binder's checks of the graph (its size, distinct
    names, order, arity, operators, root, reachability) never fail, and every error is an
    operator's own or the bound of 128 on the depth of the plan. *)
Theorem lowered_graph statement r :
  lower_hql2_with_unsigned_resolver resolve_parameter statement = Ok r ->
  plan 0 (lr_nodes r) /\ zlen (lr_nodes r) <= 10000 /\
  bind_v2 params catalog r =
    ('(st, _) ← binding (lr_nodes r);
     Ok {| bq_nodes := bv_nodes st; bq_root := length (lr_nodes r) - 1 |}) /\
  (forall e, bind_v2 params catalog r = Err e -> plan_error params catalog (lr_nodes r) e).
Proof.
  intros Hlow. destruct (lowered_plan resolve_parameter statement r Hlow) as (Hplan & Hroot & Hsize & Hty & Hhql).
  pose proof (bind_v2_plan params catalog r Hplan Hroot Hsize Hty Hhql) as Heq.
  split_and!; [done..|]. intros e He. rewrite Heq in He.
  apply bind_Err in He as [He|([st s] & _ & He)]; [|done].
  apply (bind_nodes_error params catalog (lr_nodes r) []) in He; [done|apply bound_prefix_nil|by apply plan_is_numbered].
Qed.

(** C28: [RETURN *]. In whatever context it stands, after any source and any stages, a
    statement that returns [*] returns the columns of the node before, by name, type and
    order: the scope the lowering keeps is the scope the binder sees. *)
Theorem return_star statement q sp r bound :
  st_query statement = Some q -> q_returning q = [At sp SelStar] ->
  lower_hql2_with_unsigned_resolver resolve_parameter statement = Ok r ->
  bind_v2 params catalog r = Ok bound ->
  exists n j m, bq_nodes bound !! bq_root bound = Some n /\ bd_op n = OpProject /\ bd_inputs n = [j] /\
  bq_nodes bound !! j = Some m /\ bd_columns n = bd_columns m.
Proof. apply return_star_columns. Qed.
End Scope.
