(* ===== verification/HqlSample.v ===== *)
(** * Sample statements

    Concrete statements for the theorems about HQL2, and what the lowering does not
    check. *)
From S2P Require Export HqlScope HqlJson.
Local Open Scope Z_scope.

#[local] Existing Instances sample_uuid sample_serde sample_hex.
(** Texts that are not empty *)
Definition sample_text : NumberText := {| float_text _ := "0.5"%string |}.
Definition sample_grammar : Grammar := {| SyntaxKind := unit |}.
#[local] Existing Instances sample_text sample_grammar.

Definition at_ {T} (v : T) : Spanned T := At {| start_byte := 0; end_byte := 0 |} v.
Definition field_ (parts : list string) : HqlExpr := at_ (HField (map at_ parts)).
Definition tree_ : SyntaxNode :=
  {| sn_kind := tt; sn_span := {| start_byte := 0; end_byte := 0 |}; sn_text := None; sn_children := [] |}.
Definition query_ (source : SourceKind) (stages : list StageKind) (items : list SelectKind) : HqlQuery :=
  {| q_span := {| start_byte := 0; end_byte := 0 |}; q_scope := None; q_source := at_ source;
     q_stages := map at_ stages; q_returning := map at_ items |}.
Definition read_ (q : HqlQuery) : Hql2Statement :=
  {| st_source := ""; st_span := {| start_byte := 0; end_byte := 0 |}; st_kind := StRead; st_query := Some q;
     st_syntax := tree_ |}.

(** [match (a)-[e]->(b)-[]->(a) ... left join t as r on a.id = r.id, annotations of b as n,
    return *] *)
Definition star_query : HqlQuery :=
  query_
    (SoMatch (at_ "a") None [] []
       [ {| gs_end_alias := at_ "b"; gs_node_id := None; gs_node_labels := []; gs_node_properties := [];
            gs_edge_alias := Some (at_ "e"); gs_edge_properties := []; gs_relations := [];
            gs_direction := HOut; gs_min_hops := 1; gs_max_hops := 1 |};
         {| gs_end_alias := at_ "a"; gs_node_id := None; gs_node_labels := []; gs_node_properties := [];
            gs_edge_alias := None; gs_edge_properties := []; gs_relations := [];
            gs_direction := HOut; gs_min_hops := 1; gs_max_hops := 1 |} ]
       HTrail (Some (at_ "p")) false)
    [ StJoin (at_ "t") (at_ "r") HLeft (at_ (HBinary HEqual (field_ ["a"; "id"]) (field_ ["r"; "id"])));
      StAnnotationLookup (at_ "b") (at_ "n") true;
      StJoin (at_ "t") (at_ "s") HSemi
        (at_ (HBetween (field_ ["a"; "id"]) (field_ ["s"; "id"]) (at_ (HUtf8 "z"))));
      StTake (at_ (ULiteral 5)) ]
    [SelStar]%string.
Definition no_parameters : string -> query Z := fun _ => Err (bind_invalid "undeclared_parameter").
Definition star_request : LogicalRequestV2 :=
  match lower_hql2 (read_ star_query) with
  | Ok r => r
  | Err _ => {| lr_nodes := []; lr_root := ""; lr_parameter_types := []; lr_from_hql := true |}
  end.
Definition star_bound : BoundQueryV2 :=
  match bind_v2 [] sample_catalog star_request with Ok q => q | Err _ => {| bq_nodes := []; bq_root := 0 |} end.
Example star_columns : map (fun n => map co_name (bd_columns n)) (bq_nodes star_bound) =
  [["a"; "b"; "e"; "p"]; ["r"]; ["a"; "b"; "e"; "p"; "r"]; ["a"; "b"; "e"; "p"; "r"; "n"]; ["s"];
   ["a"; "b"; "e"; "p"; "r"; "n"]; ["a"; "b"; "e"; "p"; "r"; "n"]; ["a"; "b"; "e"; "p"; "r"; "n"]]%string.
Proof. vm_compute. reflexivity. Qed.

Lemma lowered_graph_witness : plan 0 (lr_nodes star_request) /\ zlen (lr_nodes star_request) <= 10000.
Proof.
  destruct (lowered_graph [] sample_catalog no_parameters (read_ star_query) star_request) as (Hp & Hn & _);
    [vm_compute; reflexivity|]. exact (conj Hp Hn).
Defined.
Lemma return_star_witness : exists n j m,
  bq_nodes star_bound !! bq_root star_bound = Some n /\ bd_op n = OpProject /\ bd_inputs n = [j] /\
  bq_nodes star_bound !! j = Some m /\ bd_columns n = bd_columns m.
Proof.
  apply (return_star [] sample_catalog no_parameters (read_ star_query) star_query
    {| start_byte := 0; end_byte := 0 |} star_request star_bound); vm_compute; reflexivity.
Defined.

(** [{a: 0.5, "\n": [null, -7]}]: its text is 24 bytes long. *)
Definition member_ (key : string) (k : ExprKind) : ObjectField :=
  {| of_span := {| start_byte := 0; end_byte := 0 |}; of_key := at_ key; of_expression := at_ k |}.
Definition sample_constant : ExprKind :=
  HObject [member_ "a" (HF64 (f64_of_Z 1)); member_ (String (byte_of 10) "") (HList [at_ HNull; at_ (HI64 (-7))])].
Lemma sample_text_nonempty x : f64_is_finite x = true -> 1 <= Z.of_nat (str_len (float_text x)).
Proof. done. Qed.
Lemma json_literal_exact_witness : json_literal_size sample_constant = Ok 24 <->
  exists j, json_literal sample_constant = Ok j /\ 24 = zlen (json_text j).
Proof. exact (proj2 (json_literal_exact sample_text_nonempty sample_constant) 24). Defined.
Example sample_constant_size : json_literal_size sample_constant = Ok 24.
Proof. vm_compute. reflexivity. Qed.

(** ** What only one front end checks *)

Definition ranked_catalog : AuthorizedCatalogV2 := {|
  ac_tables := [];
  ac_collections := [("c"%string, {| cs_name := "c"; cs_space_id := "s"; cs_dimension := 1; cs_metric := "L2" |})] |}.
Definition ranked_parameters : BoundParametersV2 :=
  [("q"%string, (TVector "s" 1 F64,
      VVector {| vv_space_id := "s"; vv_scalar := F64; vv_values := [f64_of_Z 1] |}))].
(** [nodes as a, knn a.c by $q take 4294967295 as d, return a] *)
Definition ranked_query : HqlQuery :=
  query_ (SoNodes None (at_ "a"))
    [StKnn (at_ "a") (at_ "c") (at_ (HParameter "q")) (at_ (ULiteral u32_max)) HExact (at_ "d")]
    [SelExpression (field_ ["a"]) None]%string.
Definition ranked_node : LogicalNodeV2 := {|
  ln_id := "h1"; ln_op := OpKnn; ln_inputs := ["h0"%string];
  ln_config := CKnn "a" "c" (EParam "q") u32_max KnnExact "d" |}.
Definition ranked_request : LogicalRequestV2 := {|
  lr_nodes := [
    {| ln_id := "h0"; ln_op := OpNodeScan; ln_inputs := []; ln_config := CNodeScan "a" None |};
    ranked_node;
    {| ln_id := "h2"; ln_op := OpProject; ln_inputs := ["h1"%string];
       ln_config := CProject [{| ne_expression := EField {| fr_alias := "a"; fr_path := [] |}; ne_alias := "a" |}] |}];
  lr_root := "h2"; lr_parameter_types := []; lr_from_hql := true |}.
(** An HQL statement may ask for 4294967295 neighbours: it lowers and binds, to an operator
    whose configuration the wire language refuses in a typed plan. *)
Theorem ranking_unbounded : lower_hql2 (read_ ranked_query) = Ok ranked_request /\
  is_ok (bind_v2 ranked_parameters ranked_catalog ranked_request) = true /\
  ranked_node ∈ lr_nodes ranked_request /\
  config_validate (ln_config ranked_node) = Err (bind_invalid "ranking_bound").
Proof.
  split; [vm_compute; reflexivity|]. split; [vm_compute; reflexivity|]. split.
  - right. left.
  - vm_compute. reflexivity.
Qed.
