(* ===== verification/Eval.v ===== *)
(** * Scalar evaluation

    [src/src/query/hql2/exec.rs], lines 340 to 827: comparisons, exact vector distances,
    the evaluator of bound expressions with its explicit stack, three-valued logic and
    checked arithmetic. *)
From S2P Require Export Bind.
Local Open Scope Z_scope.

(** [str::to_lowercase], the Unicode tables of the standard library. *)
Class Unicode := { to_lowercase : string -> string }.

(** [str::contains] and [str::starts_with] on bytes *)
Definition starts_with (l p : list byte) : bool := is_Some_b (strip_bytes p l).
Fixpoint contains (l p : list byte) : bool :=
  starts_with l p || match l with [] => false | _ :: l' => contains l' p end.

Definition finite (v : f64) : query QueryValueV2 :=
  if f64_is_finite v then Ok (VF64 v) else Err (failure "nonfinite_result").

Definition bool_cmp (a b : bool) : comparison :=
  match a, b with
  | false, true => Lt
  | true, false => Gt
  | _, _ => Eq
  end.
(** [compare] *)
Definition value_compare (a b : QueryValueV2) : query comparison :=
  match a, b with
  | VBool a, VBool b => Ok (bool_cmp a b)
  | VI64 a, VI64 b => Ok (Z.compare a b)
  | VDecimalU64 a, VDecimalU64 b => Ok (Z.compare a b)
  | VF64 a, VF64 b => ok_or (f64_partial_cmp a b) (failure "nonfinite_result")
  | VUtf8 a, VUtf8 b => Ok (cmp_str a b)
  | _, _ => Err (failure "comparator_unavailable")
  end.

(** ** Exact vector distances *)

Definition f64_one : f64 := f64_of_Z 1.
Definition f64_abs (x : f64) : f64 := SFabs x.
(** [f64::max]: a NaN is ignored; the operands here are finite. *)
Definition f64_max (x y : f64) : f64 :=
  if f64_is_nan x then y else if f64_is_nan y then x
  else match f64_partial_cmp x y with Some Lt => y | _ => x end.
(** [f64::clamp(-1.0, 1.0)] *)
Definition f64_clamp_unit (x : f64) : f64 :=
  let x := match f64_partial_cmp x (f64_neg f64_one) with Some Lt => f64_neg f64_one | _ => x end in
  match f64_partial_cmp x f64_one with Some Gt => f64_one | _ => x end.

Definition space_mismatch (reason : string) : QueryErrorV2 :=
  query_error "COLLECTION_SPACE_MISMATCH" "execute" reason.
(** The sum starts from [-0.0], as [Iterator::sum] does. *)
Definition f64_sum (l : list f64) : f64 := foldl f64_add (S754_zero true) l.
Definition scale_of (v : VectorValueV2) : f64 :=
  foldl (fun scale value => f64_max scale (f64_abs value)) f64_zero (vv_values v).
Definition l2_distance (query candidate : VectorValueV2) : f64 :=
  f64_sum (zip_with (fun left_ right_ => let delta := f64_sub left_ right_ in f64_mul delta delta)
             (vv_values query) (vv_values candidate)).
(** One step of the cosine loop over [(dot, query_norm, candidate_norm)] *)
Definition cosine_step (query_scale candidate_scale : f64) (acc : f64 * f64 * f64)
  (p : f64 * f64) : f64 * f64 * f64 :=
  let '(dot, query_norm, candidate_norm) := acc in
  let l := f64_div p.1 query_scale in
  let r := f64_div p.2 candidate_scale in
  (f64_add dot (f64_mul l r), f64_add query_norm (f64_mul l l), f64_add candidate_norm (f64_mul r r)).
Definition exact_vector_distance (query candidate : VectorValueV2) (metric : string)
  : result QueryErrorV2 f64 :=
  if negb (bool_decide (vv_space_id query = vv_space_id candidate))
     || negb (zlen (vv_values query) =? zlen (vv_values candidate))
     || existsb (fun v => negb (f64_is_finite v)) (vv_values query ++ vv_values candidate)
  then Err (space_mismatch "vector_space")
  else if bool_decide (metric = "L2"%string) then
    let distance := l2_distance query candidate in
    if f64_is_finite distance then Ok distance else Err (failure "nonfinite_result")
  else if bool_decide (metric = "Cosine"%string) then
    let query_scale := scale_of query in
    let candidate_scale := scale_of candidate in
    if f64_eqb query_scale f64_zero || f64_eqb candidate_scale f64_zero
    then Err (space_mismatch "zero_cosine_norm")
    else
      let '(dot, query_norm, candidate_norm) :=
        foldl (cosine_step query_scale candidate_scale) (f64_zero, f64_zero, f64_zero)
          (zip (vv_values query) (vv_values candidate)) in
      let similarity := f64_div dot (f64_mul (f64_sqrt query_norm) (f64_sqrt candidate_norm)) in
      if f64_is_finite similarity then Ok (f64_sub f64_one (f64_clamp_unit similarity))
      else Err (failure "nonfinite_result")
  else Err (query_error "CAPABILITY_UNSUPPORTED" "execute" "vector_metric_unavailable").

(** ** Anchors *)

Fixpoint matches_match_anchors (row : vrow) (anchors : list BoundMatchAnchor) : query bool :=
  match anchors with
  | [] => Ok true
  | anchor :: anchors' =>
      value ← ok_or (row !! ma_column_index anchor) (failure "match_anchor_binding");
      match value with
      | VEntity record => if bool_decide (record = ma_record anchor)
                          then matches_match_anchors row anchors' else Ok false
      | _ => Ok false
      end
  end.
Fixpoint matches_compact_match_anchors (start endpoint : RecordRefV2) (single_node_alias : bool)
  (anchors : list BoundMatchAnchor) : query bool :=
  match anchors with
  | [] => Ok true
  | anchor :: anchors' =>
      record ← match ma_column_index anchor with
               | 0%nat => Ok start
               | 1%nat => if single_node_alias then Err (failure "match_anchor_binding")
                          else Ok endpoint
               | _ => Err (failure "match_anchor_binding")
               end;
      if bool_decide (record = ma_record anchor)
      then matches_compact_match_anchors start endpoint single_node_alias anchors'
      else Ok false
  end.

(** ** Operators *)

Definition truth (v : QueryValueV2) : option bool :=
  match v with VBool b => Some b | _ => None end.
Definition and3 (x y : option bool) : QueryValueV2 :=
  if bool_decide (x = Some false) || bool_decide (y = Some false) then VBool false
  else if bool_decide (x = Some true) && bool_decide (y = Some true) then VBool true
  else VNull.
Definition or3 (x y : option bool) : QueryValueV2 :=
  if bool_decide (x = Some true) || bool_decide (y = Some true) then VBool true
  else if bool_decide (x = Some false) && bool_decide (y = Some false) then VBool false
  else VNull.

Definition arith_i64 (op : BinaryOp) (a b : Z) : query QueryValueV2 :=
  if bool_decide (op ∈ [ODiv; ORem]) && (b =? 0) then Err (failure "division_by_zero")
  else
    v ← match op with
        | OAdd => Ok (i64_checked_add a b)
        | OSub => Ok (i64_checked_sub a b)
        | OMul => Ok (i64_checked_mul a b)
        | ODiv => Ok (i64_checked_div a b)
        | ORem => Ok (i64_checked_rem a b)
        | _ => Err (failure "bound_operator")
        end;
    z ← ok_or v (failure "integer_overflow");
    Ok (VI64 z).
Definition arith_f64 (op : BinaryOp) (a b : f64) : query QueryValueV2 :=
  if bool_decide (op ∈ [ODiv; ORem]) && f64_eqb b f64_zero then Err (failure "division_by_zero")
  else
    v ← match op with
        | OAdd => Ok (f64_add a b)
        | OSub => Ok (f64_sub a b)
        | OMul => Ok (f64_mul a b)
        | ODiv => Ok (f64_div a b)
        | ORem => Ok (f64_rem a b)
        | _ => Err (failure "bound_operator")
        end;
    finite v.
Definition order_test (op : BinaryOp) (c : comparison) : bool :=
  match op, c with
  | OLt, Lt | OLe, (Lt | Eq) | OGt, Gt | OGe, (Gt | Eq) => true
  | _, _ => false
  end.

(** [binary]: the truth operators accept an unknown operand, every other operator
    returns null for one. *)
Definition binary (op : BinaryOp) (a b : QueryValueV2) : query QueryValueV2 :=
  match op with
  | OAnd => Ok (and3 (truth a) (truth b))
  | OOr => Ok (or3 (truth a) (truth b))
  | _ =>
      if value_eqb a VNull || value_eqb b VNull then Ok VNull
      else
        match op with
        | OEq => Ok (VBool (value_eqb a b))
        | ONe => Ok (VBool (negb (value_eqb a b)))
        | OLt | OLe | OGt | OGe => order ← value_compare a b; Ok (VBool (order_test op order))
        | OContains | OStartswith =>
            match a, b with
            | VUtf8 a, VUtf8 b =>
                Ok (VBool (if bool_decide (op = OContains)
                           then contains (str_bytes a) (str_bytes b)
                           else starts_with (str_bytes a) (str_bytes b)))
            | _, _ => Err (failure "bound_type")
            end
        | OAdd | OSub | OMul | ODiv | ORem =>
            match a, b with
            | VI64 a, VI64 b => arith_i64 op a b
            | VF64 a, VF64 b => arith_f64 op a b
            | _, _ => Err (failure "bound_type")
            end
        | _ => Err (failure "bound_operator")
        end
  end.
Definition unary (op : UnaryOp) (v : QueryValueV2) : query QueryValueV2 :=
  match op, v with
  | OIsNull, v => Ok (VBool (value_eqb v VNull))
  | OIsNotNull, v => Ok (VBool (negb (value_eqb v VNull)))
  | _, VNull => Ok VNull
  | ONot, VBool v => Ok (VBool (negb v))
  | ONeg, VI64 v => z ← ok_or (i64_checked_neg v) (failure "integer_overflow"); Ok (VI64 z)
  | ONeg, VF64 v => finite (f64_neg v)
  | _, _ => Err (failure "bound_type")
  end.
Definition in_list (needle : QueryValueV2) (values : list QueryValueV2) (negated : bool)
  : QueryValueV2 :=
  let '(found, null) :=
    foldl (fun '(found, null) v =>
        if value_eqb needle VNull || value_eqb v VNull then (found, true)
        else if value_eqb needle v then (true, null) else (found, null))
      (false, false) values in
  if found : bool then VBool (negb negated) else if null : bool then VNull else VBool negated.
Definition length_of (v : QueryValueV2) : query QueryValueV2 :=
  match v with
  | VNull => Ok VNull
  | VUtf8 s => z ← ok_or (i64_try (zlen (chars s))) (failure "integer_overflow"); Ok (VI64 z)
  | _ => Err (failure "bound_type")
  end.

(** ** The evaluator *)

Section Evaluator.
Context `{Clock, Layout, Unicode}.
Variable row : vrow.
Variable hydrated : HydratedValuesV2.

Definition eval_missing : QueryErrorV2 := failure "bound_expression".
Definition column_at (i : nat) : query QueryValueV2 := ok_or (row !! i) (failure "bound_field").

Definition entity_field (record : RecordRefV2) (field : string) : query string :=
  if bool_decide (field = "database_id"%string) then Ok (rr_database_id record)
  else if bool_decide (field = "namespace"%string) then Ok (rr_namespace record)
  else if bool_decide (field = "kind"%string) then Ok (record_kind_name (rr_kind record))
  else if bool_decide (field = "id"%string) then Ok (rr_id record)
  else if bool_decide (field = "revision"%string) then Ok (rr_revision record)
  else Err (failure "bound_field").
Definition score_field (score : ScoreValueV2) (field : string) : query QueryValueV2 :=
  if bool_decide (field ∈ ["value"; "distance"]%string) then Ok (VF64 (sc_value score))
  else if bool_decide (field = "owner"%string) then Ok (VEntity (sc_owner score))
  else if bool_decide (field = "source"%string) then Ok (VUtf8 (sc_source score))
  else if bool_decide (field = "scope"%string) then Ok (VUtf8 (sc_scope score))
  else if bool_decide (field = "metric"%string) then Ok (VUtf8 (sc_metric score))
  else Err (failure "bound_field").
(** An absent end of an interval is null, and null is not charged. *)
Definition history_field (h : HistoryRevisionV2) (field : string)
  : query (option QueryValueV2) :=
  if bool_decide (field = "subject"%string) then Ok (Some (VEntity (hr_subject h)))
  else if bool_decide (field = "operation"%string) then Ok (Some (VUtf8 (hr_operation h)))
  else if bool_decide (field = "tx_from"%string) then Ok (Some (VDecimalU64 (hr_tx_from h)))
  else if bool_decide (field = "tx_to"%string) then Ok (VDecimalU64 <$> hr_tx_to h)
  else if bool_decide (field = "valid_from"%string) then Ok (Some (VUtf8 (hr_valid_from h)))
  else if bool_decide (field = "valid_to"%string) then Ok (VUtf8 <$> hr_valid_to h)
  else if bool_decide (field = "id"%string) then Ok (Some (VUtf8 (rr_id (hr_subject h))))
  else if bool_decide (field = "kind"%string)
  then Ok (Some (VUtf8 (record_kind_name (rr_kind (hr_subject h)))))
  else if bool_decide (field = "revision_id"%string)
  then Ok (Some (VUtf8 (rr_revision (hr_subject h))))
  else Err (failure "bound_field").
Definition change_field (c : ChangeEventV2) (field : string) : query QueryValueV2 :=
  if bool_decide (field = "sequence"%string) then Ok (VDecimalU64 (ch_sequence c))
  else if bool_decide (field = "operation"%string) then Ok (VUtf8 (ch_operation c))
  else if bool_decide (field = "subject"%string) then Ok (VEntity (ch_subject c))
  else Err (failure "bound_field").

Definition eval_entity_ref_field (i : nat) (field : string) : exec QueryValueV2 :=
  entity ← lift (column_at i);
  if value_eqb entity VNull then mret VNull
  else
    match entity with
    | VEntity record => text ← lift (entity_field record field); clone_value (VUtf8 text)
    | _ => fail (failure "bound_type")
    end.
Definition eval_score_field (i : nat) (field : string) : exec QueryValueV2 :=
  score ← lift (column_at i);
  match score with
  | VScore score => v ← lift (score_field score field); clone_value v
  | _ => fail (failure "bound_type")
  end.
Definition eval_history_field (i : nat) (field : string) : exec QueryValueV2 :=
  value ← lift (column_at i);
  match value with
  | VHistoryRevision revision =>
      v ← lift (history_field revision field);
      match v with Some v => clone_value v | None => mret VNull end
  | _ => fail (failure "bound_type")
  end.
Definition eval_change_field (i : nat) (field : string) : exec QueryValueV2 :=
  value ← lift (column_at i);
  match value with
  | VChangeEvent event => v ← lift (change_field event field); clone_value v
  | _ => fail (failure "bound_type")
  end.
Definition eval_property (has_property : bool) (field : FieldIdV2) (entity name : QueryValueV2)
  : exec QueryValueV2 :=
  match name with
  | VUtf8 name =>
      match entity with
      | VNull => mret (if has_property then VBool false else VNull)
      | VEntity record =>
          let identity_bytes :=
            zstr (rr_database_id record) +sat zstr (rr_namespace record)
            +sat zstr (rr_id record) +sat zstr (rr_revision record) in
          reserve (identity_bytes +sat zstr name +sat 128) ;;
          value ← lift (ok_or (hydrated_get hydrated record field name)
                              (failure "source_hydration_missing"));
          reserve (value_bytes value) ;;
          mret value
      | _ => fail (failure "bound_type")
      end
  | _ => fail (failure "bound_type")
  end.
Definition eval_lower (v : QueryValueV2) : exec QueryValueV2 :=
  match v with
  | VNull => mret VNull
  | VUtf8 s => reserve (u64_saturating_mul (zstr s) 3) ;; mret (VUtf8 (to_lowercase s))
  | _ => fail (failure "bound_type")
  end.

(** [eval_node]: the operands are taken from [ready], in order. *)
Definition eval_node (p : path) (e : BoundExpr)
  : SM (ExecutionBudgetV2 * gmap path QueryValueV2) QueryErrorV2 QueryValueV2 :=
  let operand i := take_ready eval_missing (p ++ [i]) in
  match be_kind e with
  | KLiteral v => on_state (clone_value v)
  | KField i => on_state (v ← lift (column_at i); clone_value v)
  | KEntityRefField i field => on_state (eval_entity_ref_field i field)
  | KScoreField i field => on_state (eval_score_field i field)
  | KHistoryField i field => on_state (eval_history_field i field)
  | KChangeField i field => on_state (eval_change_field i field)
  | KProperty _ _ has_property field =>
      entity ← operand 0%nat; name ← operand 1%nat;
      on_state (eval_property has_property field entity name)
  | KLower _ => v ← operand 0%nat; on_state (eval_lower v)
  | KLength _ => v ← operand 0%nat; lift (length_of v)
  | KUnary op _ => v ← operand 0%nat; lift (unary op v)
  | KBinary op _ _ => a ← operand 0%nat; b ← operand 1%nat; lift (binary op a b)
  | KIn _ values negated =>
      needle ← operand 0%nat;
      values ← mtraverse operand (seq 1 (length values));
      mret (in_list needle values negated)
  end.

(** The charges of a first visit. *)
Definition eval_visit (e : BoundExpr) : exec unit :=
  reserve 192 ;;
  match be_kind e with
  | KBinary _ _ _ | KProperty _ _ _ _ => reserve 64
  | KUnary _ _ | KLower _ | KLength _ => reserve 32
  | KIn _ values _ => reserve (u64_saturating_mul (zlen values + 1) 32)
  | _ => mret tt
  end.

Definition eval (e : BoundExpr) : exec QueryValueV2 :=
  check ;;
  reserve 64 ;;
  post_order be_children eval_missing (fun _ => check) eval_visit eval_node (2 * be_size e) e 0.

(** ** The recursive evaluator *)

Definition eval_rec_node (e : BoundExpr) (vs : list QueryValueV2) : exec QueryValueV2 :=
  match be_kind e, vs with
  | KLiteral v, _ => clone_value v
  | KField i, _ => v ← lift (column_at i); clone_value v
  | KEntityRefField i field, _ => eval_entity_ref_field i field
  | KScoreField i field, _ => eval_score_field i field
  | KHistoryField i field, _ => eval_history_field i field
  | KChangeField i field, _ => eval_change_field i field
  | KProperty _ _ has_property field, [entity; name] =>
      eval_property has_property field entity name
  | KLower _, [v] => eval_lower v
  | KLength _, [v] => lift (length_of v)
  | KUnary op _, [v] => lift (unary op v)
  | KBinary op _ _, [a; b] => lift (binary op a b)
  | KIn _ _ negated, needle :: values => mret (in_list needle values negated)
  | _, _ => fail eval_missing
  end.
(** The value of an expression: that of its operands, then of its operator. *)
Fixpoint eval_rec (e : BoundExpr) : exec QueryValueV2 :=
  check ;;
  eval_visit e ;;
  vs ← (let 'Bound _ kind := e in
        match kind with
        | KProperty entity name _ _ => a ← eval_rec entity; b ← eval_rec name; mret [a; b]
        | KBinary _ lhs rhs => a ← eval_rec lhs; b ← eval_rec rhs; mret [a; b]
        | KUnary _ arg | KLower arg | KLength arg => a ← eval_rec arg; mret [a]
        | KIn needle values _ =>
            a ← eval_rec needle; bs ← mtraverse eval_rec values; mret (a :: bs)
        | _ => mret []
        end);
  check ;;
  eval_rec_node e vs.

Lemma eval_rec_eq e s :
  eval_rec e s =
  (check ;; eval_visit e ;; vs ← mtraverse eval_rec (be_children e); check ;; eval_rec_node e vs) s.
Proof.
  destruct e as [ty kind]. destruct kind; cbn [eval_rec be_children be_kind kind_children];
    rewrite (sm_bind_eq check); symmetry; rewrite (sm_bind_eq check);
    destruct (check s) as [[[] s0]|e]; try done; rewrite !(sm_bind_eq (eval_visit _));
    destruct (eval_visit _ s0) as [[[] s1]|e]; try done; cbn [mtraverse]; rewrite !sm_bind_eq;
    try done.
  all: repeat match goal with
  | |- context [eval_rec ?a ?s] => destruct (eval_rec a s) as [[? ?]|]; [|done];
      rewrite !sm_bind_eq; try done
  | |- context [mtraverse eval_rec ?l ?s] =>
      destruct (mtraverse eval_rec l s) as [[? ?]|]; [|done]; rewrite !sm_bind_eq; try done
  end.
Qed.

Lemma on_state_ready {A} (m : exec A) (s : ExecutionBudgetV2) (r : gmap path QueryValueV2) :
  on_state m (s, r) = match m s with Ok (v, s') => Ok (v, (s', r)) | Err e => Err e end.
Proof. reflexivity. Qed.
Lemma eval_node_spec p e vs r s :
  length vs = length (be_children e) -> (forall q, p `prefix_of` q -> r !! q = None) ->
  eval_node p e (s, insert_children p 0 vs r) =
  match eval_rec_node e vs s with Ok (v, s') => Ok (v, (s', r)) | Err e => Err e end.
Proof.
  intros Hl Hr. destruct e as [ty kind].
  unfold eval_node, eval_rec_node, be_children in *. cbn [be_kind] in *.
  destruct kind; cbn [kind_children] in Hl.
  1-6: destruct vs; [|done]; exact (on_state_ready _ _ _).
  1,2: destruct vs as [|a [|b [|]]]; try done;
    rewrite !sm_bind_eq, take_child, sm_bind_eq, take_child by done; cbn [insert_children].
  1: exact (on_state_ready _ _ _).
  1: unfold lift; by destruct (binary op a b).
  1-3: destruct vs as [|a [|]]; try done; rewrite !sm_bind_eq, take_child by done;
    cbn [insert_children].
  - unfold lift. by destruct (unary op a).
  - exact (on_state_ready _ _ _).
  - unfold lift. by destruct (length_of a).
  - destruct vs as [|n vs]; [done|]. cbn in Hl. injection Hl as Hl.
    rewrite !sm_bind_eq, take_child, sm_bind_eq by done. by rewrite <- Hl, take_children.
Qed.

Lemma eval_loop e s : eval e s = (check ;; reserve 64 ;; eval_rec e) s.
Proof.
  unfold eval. rewrite !sm_bind_eq. destruct (check s) as [[[] s0]|]; [|done].
  rewrite !sm_bind_eq. destruct (reserve 64 s0) as [[[] s1]|]; [|done].
  apply post_order_rec with (size := be_size) (rec_node := eval_rec_node)
    (rec := fun _ => eval_rec); [..|done].
  - apply be_size_eq.
  - intros _ t s2. apply eval_rec_eq.
  - apply eval_node_spec.
Qed.
End Evaluator.

(** C26: The evaluator's loop is the recursive evaluator: every operand's value is ready
    when its operator needs it, and no iteration bound is reached. *)
Theorem eval_eq_rec `{Clock, Layout, Unicode} row hydrated e s :
  eval row hydrated e s = (check ;; reserve 64 ;; eval_rec row hydrated e) s.
Proof. apply eval_loop. Qed.


(** ** Soundness of the operators *)

(** The errors a well-typed expression can end in. *)
Definition eval_failure (e : QueryErrorV2) : Prop :=
  e = quota \/ e ∈ map failure ["division_by_zero"; "integer_overflow"; "nonfinite_result";
                                "source_hydration_missing"]%string.
Lemma eval_failure_of (reason : string) :
  reason ∈ ["division_by_zero"; "integer_overflow"; "nonfinite_result";
            "source_hydration_missing"]%string -> eval_failure (failure reason).
Proof. intros H. right. rewrite !elem_of_cons, elem_of_nil in H. cbn.
  rewrite !elem_of_cons. naive_solver. Qed.
Ltac eval_fails := apply eval_failure_of; rewrite !elem_of_cons; auto 10.

Definition sound (t : QueryTypeV2) (r : query QueryValueV2) : Prop :=
  match r with Ok v => has_type t v = true | Err e => eval_failure e end.

Lemma has_type_base t v : has_type t v = true ->
  (v = VNull /\ is_nullable t = true) \/ has_type (type_base t) v = true.
Proof. destruct t; try (by right). destruct v; cbn; auto. Qed.
Lemma has_type_nullable t yes v : has_type t v = true -> has_type (nullable t yes) v = true.
Proof. destruct yes; [|done]. cbn. unfold as_nullable. destruct t; cbn; auto; by destruct v. Qed.
Lemma has_type_nullable_null t yes : yes = true -> has_type (nullable t yes) VNull = true.
Proof. intros ->. cbn. unfold as_nullable. by destruct t. Qed.
Lemma has_type_at t base v : has_type t v = true -> type_base t = base ->
  (v = VNull /\ is_nullable t = true) \/ has_type base v = true.
Proof. intros Hv <-. by apply has_type_base. Qed.

Definition arithmetic (op : BinaryOp) : bool :=
  match op with OAdd | OSub | OMul | ODiv | ORem => true | _ => false end.
Lemma is_i64_rem a b : is_i64 a = true -> is_i64 b = true -> b <> 0 -> is_i64 (Z.rem a b) = true.
Proof.
  rewrite !is_i64_bounds. unfold i64_min, i64_max. intros Ha Hb Hn.
  pose proof (Z.rem_bound_abs a b Hn). lia.
Qed.
Lemma arith_i64_sound op a b : is_i64 a = true -> is_i64 b = true ->
  arithmetic op = true -> sound TI64 (arith_i64 op a b).
Proof.
  intros Ha Hb Hop. unfold arith_i64. destruct (_ && _); [eval_fails|].
  assert (forall o, (forall z, o = Some z -> is_i64 z = true) ->
    sound TI64 (z ← ok_or o (failure "integer_overflow"); Ok (VI64 z))) as Ho.
  { intros [z|] Hz; cbn; [by apply Hz|eval_fails]. }
  destruct op; try done; cbn [mbind result_bind]; apply Ho; intros z Hz.
  1-3: by apply i64_try_Some in Hz as [-> Hz].
  - unfold i64_checked_div in Hz. destruct (_ =? _); [done|]. by apply i64_try_Some in Hz as [-> Hz].
  - unfold i64_checked_rem in Hz. destruct (b =? 0) eqn:E; [done|]. destruct (_ && _); [done|].
    injection Hz as <-. apply is_i64_rem; [done|done|by apply Z.eqb_neq].
Qed.
Lemma finite_sound x : sound TF64Finite (finite x).
Proof. unfold finite. destruct (f64_is_finite x) eqn:E; [done|eval_fails]. Qed.
Lemma arith_f64_sound op a b : arithmetic op = true ->
  sound TF64Finite (arith_f64 op a b).
Proof.
  intros Hop. unfold arith_f64. destruct (_ && _); [eval_fails|].
  destruct op; try done; cbn [mbind result_bind]; apply finite_sound.
Qed.
Lemma value_compare_sound t a b : has_type t a = true -> has_type t b = true ->
  ordered t = true -> is_nullable t = false ->
  match value_compare a b with Ok _ => True | Err e => eval_failure e end.
Proof.
  intros Ha Hb Ho Hn. destruct t; try done; destruct a, b; try done; cbn.
  destruct (f64_partial_cmp _ _); [done|eval_fails].
Qed.
Lemma truth_unknown t v : has_type t v = true -> type_base t = TBool -> truth v = None ->
  is_nullable t = true.
Proof. intros Hv Ht Hn. destruct (has_type_at _ _ _ Hv Ht) as [[_ ?]|H]; [done|]. by destruct v. Qed.

Lemma equal_base_ordered l r : ordered l = true -> type_base l = type_base r -> ordered r = true.
Proof. unfold ordered. by intros H <-. Qed.

Lemma logic_sound l r a b (f : option bool -> option bool -> QueryValueV2) t :
  (forall x y, f (Some x) (Some y) <> VNull) ->
  (forall x y, (exists z, f x y = VBool z) \/ f x y = VNull) ->
  has_type l a = true -> has_type r b = true ->
  (boolean l ;; boolean r ;; Ok (nullable TBool (is_nullable l || is_nullable r))) = Ok t ->
  has_type t (f (truth a) (truth b)) = true.
Proof.
  intros Hf1 Hf2 Ha Hb ([] & Hl & Ht)%bind_Ok. apply bind_Ok in Ht as ([] & Hr & Ht).
  unfold boolean in Hl, Hr. case_in Hl; [|done]. case_in Hr; [|done].
  rewrite !bool_decide_eq_true in *. injection Ht as <-.
  destruct (Hf2 (truth a) (truth b)) as [[z Hz]|Hz]; rewrite Hz; [by apply has_type_nullable|].
  apply has_type_nullable_null. apply orb_true_iff.
  destruct (truth a) as [x|] eqn:Hxa; [|left; by eapply truth_unknown].
  destruct (truth b) as [y|] eqn:Hyb; [|right; by eapply truth_unknown].
  by apply Hf1 in Hz.
Qed.

Lemma and3_cases x y : (exists z, and3 x y = VBool z) \/ and3 x y = VNull.
Proof. unfold and3. repeat case_goal; eauto. Qed.
Lemma or3_cases x y : (exists z, or3 x y = VBool z) \/ or3 x y = VNull.
Proof. unfold or3. repeat case_goal; eauto. Qed.
Lemma and3_known x y : and3 (Some x) (Some y) <> VNull.
Proof. destruct x, y; vm_compute; discriminate. Qed.
Lemma or3_known x y : or3 (Some x) (Some y) <> VNull.
Proof. destruct x, y; vm_compute; discriminate. Qed.

(** A null operand is of a nullable type, so its result may be null. *)
Lemma null_operand l r a b t : has_type l a = true -> has_type r b = true ->
  type_base l <> TNull -> type_base r <> TNull ->
  value_eqb a VNull || value_eqb b VNull = true ->
  has_type (nullable t (is_nullable l || is_nullable r)) VNull = true.
Proof.
  intros Ha Hb Hl Hr Hn. apply has_type_nullable_null, orb_true_iff.
  apply orb_true_iff in Hn as [Hn|Hn]; [left|right].
  - destruct a; try done. by destruct l.
  - destruct b; try done. by destruct r.
Qed.
Lemma present_operand l a : has_type l a = true -> value_eqb a VNull = false ->
  has_type (type_base l) a = true.
Proof. intros Ha Hn. by destruct (has_type_base _ _ Ha) as [[-> _]|?]. Qed.
Lemma sound_nullable t yes r : sound t r -> sound (nullable t yes) r.
Proof. destruct r; cbn; [apply has_type_nullable|done]. Qed.

Lemma arith_sound op t a b : arithmetic op = true -> has_type t a = true -> has_type t b = true ->
  t = TI64 \/ t = TF64Finite ->
  sound t (match a, b with
           | VI64 a, VI64 b => arith_i64 op a b
           | VF64 a, VF64 b => arith_f64 op a b
           | _, _ => Err (failure "bound_type")
           end).
Proof.
  intros Hop Ha Hb [-> | ->]; destruct a, b; try done; [by apply arith_i64_sound|by apply arith_f64_sound].
Qed.

Lemma ordered_not_null t : ordered t = true -> type_base t <> TNull.
Proof. unfold ordered. intros H E0. by rewrite E0 in H. Qed.
Lemma numeric_not_null t : numeric t = true -> type_base t <> TNull.
Proof. unfold numeric. intros H E0. by rewrite E0 in H. Qed.
Lemma equality_not_null t : equality_comparable t = true -> type_base t <> TNull.
Proof. unfold equality_comparable, ordered. intros H E0. by rewrite E0 in H. Qed.
Lemma numeric_base t : numeric t = true -> type_base t = TI64 \/ type_base t = TF64Finite.
Proof. unfold numeric. destruct (type_base t); auto; done. Qed.
Lemma ordered_base t : ordered t = true ->
  ordered (type_base t) = true /\ is_nullable (type_base t) = false.
Proof. unfold ordered. by destruct (type_base t). Qed.
Lemma compare_sound op l a b : ordered l = true ->
  has_type (type_base l) a = true -> has_type (type_base l) b = true ->
  sound TBool (order ← value_compare a b; Ok (VBool (order_test op order))).
Proof.
  intros Ho Ha Hb. destruct (ordered_base _ Ho) as [Ho' Hn].
  pose proof (value_compare_sound _ _ _ Ha Hb Ho' Hn) as Hc. by destruct (value_compare a b).
Qed.

Lemma binary_sound op l r a b t : has_type l a = true -> has_type r b = true ->
  binary_type op l r = Ok t -> sound t (binary op a b).
Proof.
  intros Ha Hb Ht.
  destruct (decide (op = OAnd)) as [->|Hand].
  { exact (logic_sound _ _ _ _ and3 _ and3_known and3_cases Ha Hb Ht). }
  destruct (decide (op = OOr)) as [->|Hor].
  { exact (logic_sound _ _ _ _ or3 _ or3_known or3_cases Ha Hb Ht). }
  assert (exists t0, t = nullable t0 (is_nullable l || is_nullable r) /\
    type_base l <> TNull /\ type_base r <> TNull /\
    (value_eqb a VNull || value_eqb b VNull = false -> sound t0 (binary op a b))) as (t0 & -> & Hl & Hr & Hs).
  2: { destruct (value_eqb a VNull || value_eqb b VNull) eqn:Hn; [|by apply sound_nullable, Hs].
       assert (binary op a b = Ok VNull) as -> by (destruct op; cbn; rewrite ?Hn; done).
       by apply (null_operand l r a b). }
  assert (value_eqb a VNull || value_eqb b VNull = false ->
    has_type (type_base l) a = true /\ has_type (type_base r) b = true) as Hp.
  { intros [Hx Hy]%orb_false_iff. split; by apply present_operand. }
  unfold binary_type in Ht.
  destruct op; try done; repeat case_in Ht; try done; apply (inj Ok) in Ht as <-;
    repeat match goal with
    | Hc : (_ || _) = false |- _ => apply orb_false_iff in Hc as [? ?]
    | Hc : negb _ = false |- _ => apply negb_false_iff in Hc
    | Hc : bool_decide _ = true |- _ => apply bool_decide_eq_true in Hc
    end;
    assert (type_base l <> TNull) as Hl
      by (auto using ordered_not_null, numeric_not_null, equality_not_null || congruence);
    eexists; (split; [reflexivity|]); (split; [exact Hl|]); (split; [congruence|]);
    intros Hn; destruct (Hp Hn) as [Hx Hy]; cbn [binary]; rewrite Hn; try done.
  1-4: eapply compare_sound; [|exact Hx|]; [done|congruence].
  1-5: apply arith_sound; [done|done|congruence|by apply numeric_base].
  all: rewrite H in Hx; rewrite H0 in Hy; destruct a, b; done.
Qed.

Lemma unary_sound op t u a : has_type t a = true -> unary_type op t = Some u -> sound u (unary op a).
Proof.
  intros Ha Hu. unfold unary_type in Hu. destruct op; case_in Hu; try done; injection Hu as <-; try done.
  - rewrite bool_decide_eq_true in *.
    destruct (has_type_at _ _ _ Ha Heqb) as [[-> _]|H]; [done|]. destruct a; try done.
    cbn. destruct t; try done; by destruct t.
  - apply numeric_base in Heqb as [Hb|Hb];
      (destruct (has_type_at _ _ _ Ha Hb) as [[-> _]|H]; [done|]); destruct a; try done; cbn [unary].
    + destruct (i64_checked_neg z) eqn:Hz; [|eval_fails]. apply i64_try_Some in Hz as [-> Hz].
      cbn. destruct t; try done; by destruct t.
    + pose proof (finite_sound (f64_neg x)) as Hf. unfold finite in *.
      destruct (f64_is_finite (f64_neg x)); [|done]. cbn in *. destruct t; try done; by destruct t.
Qed.

Lemma length_sound t a : has_type t a = true -> type_base t = TUtf8 ->
  sound (nullable TI64 (is_nullable t)) (length_of a).
Proof.
  intros Ha Ht. destruct (has_type_at _ _ _ Ha Ht) as [[-> Hn]|H]; [by apply has_type_nullable_null|].
  destruct a; try done. cbn [length_of]. destruct (i64_try _) eqn:Hz; [|eval_fails].
  apply i64_try_Some in Hz as [-> Hz]. by apply has_type_nullable.
Qed.

Lemma in_list_cases needle values negated : needle <> VNull -> VNull ∉ values ->
  exists b, in_list needle values negated = VBool b.
Proof.
  intros Hn Hv. unfold in_list.
  assert (forall (l : list QueryValueV2) found, VNull ∉ l -> exists f, foldl (fun '(found, null) v =>
      if value_eqb needle VNull || value_eqb v VNull then (found, true)
      else if value_eqb needle v then (true, null) else (found, null)) (found, false) l = (f, false)) as Hl.
  { induction l as [|v l IH]; intros found Hnot; [by eexists|].
    apply not_elem_of_cons in Hnot as [Hnv Hl]. cbn [foldl].
    assert (value_eqb needle VNull || value_eqb v VNull = false) as ->
      by (apply orb_false_iff; split; [by destruct needle|by destruct v]).
    destruct (value_eqb needle v); by apply IH. }
  destruct (Hl values false Hv) as [f ->]. destruct f; eauto.
Qed.
Lemma in_list_bool needle values negated :
  (exists b, in_list needle values negated = VBool b) \/ in_list needle values negated = VNull.
Proof. unfold in_list. destruct (foldl _ _ _) as [[] []]; eauto. Qed.
Lemma in_list_sound needle nt values vts negated :
  has_type nt needle = true -> Forall2 (fun t v => has_type t v = true) vts values ->
  nt <> TNull -> Forall (fun t => t <> TNull) vts ->
  has_type (nullable TBool (is_nullable nt || existsb is_nullable vts))
    (in_list needle values negated) = true.
Proof.
  intros Hn Hvs Hnt Hvt.
  destruct (is_nullable nt || existsb is_nullable vts) eqn:He.
  - destruct (in_list_bool needle values negated) as [[b ->]| ->]; done.
  - apply orb_false_iff in He as [He1 He2].
    destruct (in_list_cases needle values negated) as [b ->]; [| |done].
    + intros ->. destruct nt; done.
    + intros Hin. apply list_elem_of_lookup in Hin as [i Hi].
      destruct (Forall2_lookup_r _ _ _ _ _ Hvs Hi) as (t & Ht & Htv).
      pose proof (Forall_lookup_1 _ _ _ _ Hvt Ht) as Hnn. cbn in Hnn.
      pose proof (existsb_In_false _ _ t He2 (list_elem_of_lookup_2 _ _ _ Ht)).
      destruct t; done.
Qed.

(** ** Soundness of the evaluator *)

Definition row_ok (scope : list QueryTypeV2) (row : vrow) : Prop :=
  Forall2 (fun t v => has_type t v = true) scope row.
(** Hydrated values are of the type of the slot they are read through. *)
Definition hydrated_ok (h : HydratedValuesV2) (fields : list FieldIdV2) : Prop :=
  forall field record name v, field ∈ fields -> hydrated_get h record field name = Some v ->
  field_accepts field v = true.
(** Component accesses of scores, history and changes are to columns without nulls, and
    the names of properties are not null. *)
Fixpoint null_safe (scope : list QueryTypeV2) (e : BoundExpr) : bool :=
  let 'Bound _ kind := e in
  match kind with
  | KScoreField i _ | KHistoryField i _ | KChangeField i _ =>
      match scope !! i with Some c => negb (is_nullable c) | None => false end
  | KProperty entity name _ _ =>
      null_safe scope entity && null_safe scope name && negb (is_nullable (be_ty name))
  | KBinary _ l r => null_safe scope l && null_safe scope r
  | KUnary _ a | KLower a | KLength a => null_safe scope a
  | KIn needle values _ => null_safe scope needle && forallb (null_safe scope) values
  | _ => true
  end.

Section Soundness.
Context `{Clock, Layout, Unicode}.
Variable scope : list QueryTypeV2.
Variable row : vrow.
Variable hydrated : HydratedValuesV2.
Hypothesis Hrow : row_ok scope row.

(** Evaluation from any budget: a value of type [t], or a failure; [strict] expressions
    fail only with the errors of [eval_failure]. *)
Definition may_fail (strict : bool) (e : QueryErrorV2) : Prop :=
  eval_failure e \/ strict = false /\ e = failure "bound_type".
Definition yields (strict : bool) (t : QueryTypeV2) (m : exec QueryValueV2) : Prop :=
  triple (fun _ => True) m (fun v _ => has_type t v = true) (may_fail strict).

Lemma may_fail_weaken s s' e : (s' = true -> s = true) -> may_fail s e -> may_fail s' e.
Proof. intros Hs [He|[-> He]]; [by left|]. destruct s'; [by specialize (Hs eq_refl)|by right]. Qed.
Lemma sound_yields strict t r : sound t r -> yields strict t (lift r).
Proof. intros Hr s _. unfold lift. destruct r; [done|by left]. Qed.
Lemma reserve_yields strict t n m : yields strict t m -> yields strict t (reserve n ;; m).
Proof.
  intros Hm. apply (triple_bind _ _ _ (fun _ _ => True)); [|intros []; exact Hm]. intros b _.
  destruct (reserve n b) as [[[] b']|e] eqn:Hr; [done|].
  left. left. by eapply reserve_in_Err.
Qed.
Lemma clone_yields strict t v : has_type t v = true -> yields strict t (clone_value v).
Proof. intros Hv. apply reserve_yields. by apply triple_ret. Qed.
Lemma column_typed i c : scope !! i = Some c ->
  exists v, column_at row i = Ok v /\ has_type c v = true.
Proof.
  intros Hc. destruct (Forall2_lookup_l _ _ _ _ _ Hrow Hc) as (v & Hv & Ht).
  exists v. unfold column_at. by rewrite Hv.
Qed.
Lemma at_column strict t i c (f : QueryValueV2 -> exec QueryValueV2) : scope !! i = Some c ->
  (forall v, has_type c v = true -> yields strict t (f v)) ->
  yields strict t (v ← lift (column_at row i); f v).
Proof.
  intros Hc Hf. destruct (column_typed _ _ Hc) as (v & Hv & Ht). intros s _.
  rewrite sm_bind_eq. unfold lift. rewrite Hv. by apply Hf.
Qed.
Lemma column_is_inv i base o t : column_is scope i base o t = true ->
  exists c, scope !! i = Some c /\ type_base c = base /\ o = Some t.
Proof.
  unfold column_is. destruct (scope !! i) as [c|]; [|done].
  rewrite andb_true_iff, !bool_decide_eq_true. eauto.
Qed.

Ltac member H := rewrite bool_decide_eq_true, ?elem_of_cons in H.

Lemma entity_ref_yields strict i f c t : scope !! i = Some c -> type_base c = TEntity ->
  f ∈ entity_fields -> t = nullable TUtf8 (is_nullable c) ->
  yields strict t (eval_entity_ref_field row i f).
Proof.
  intros Hc Hb Hf ->. eapply at_column; [exact Hc|]. intros v Hv.
  destruct (has_type_at _ _ _ Hv Hb) as [[-> Hn]|Ht].
  - apply triple_ret. intros _ _. by apply has_type_nullable_null.
  - destruct v; try done. cbn [value_eqb].
    assert (exists s, entity_field r f = Ok s) as [s Hs].
    { unfold entity_field. unfold entity_fields in Hf. rewrite !elem_of_cons, elem_of_nil in Hf.
      repeat (case_bool_decide; [by eexists|]). tauto. }
    intros b _. rewrite sm_bind_eq, Hs. cbn [lift].
    apply (clone_yields strict); [by apply has_type_nullable|done].
Qed.
Lemma score_yields i f c t : scope !! i = Some c -> type_base c = TScore ->
  score_field_type f = Some t ->
  yields (negb (is_nullable c)) t (eval_score_field row i f).
Proof.
  intros Hc Hb Hf. eapply at_column; [exact Hc|]. intros v Hv.
  destruct (has_type_at _ _ _ Hv Hb) as [[-> Hn]|Ht].
  - intros b _. rewrite Hn. by right.
  - destruct v; try done. intros b _. rewrite sm_bind_eq. unfold score_field_type, score_field in *.
    repeat (case_bool_decide; [injection Hf as <-; by apply (clone_yields _ _ _)|]).
    case_bool_decide as Hm; [|done]. injection Hf as <-. rewrite !elem_of_cons in Hm.
    repeat (case_bool_decide; [by apply (clone_yields _ _ _)|]). exfalso.
    destruct Hm as [?|[?|[?|Hm]]]; try done. by apply elem_of_nil in Hm.
Qed.
Lemma change_yields i f c t : scope !! i = Some c -> type_base c = TChangeEvent ->
  change_field_type f = Some t ->
  yields (negb (is_nullable c)) t (eval_change_field row i f).
Proof.
  intros Hc Hb Hf. eapply at_column; [exact Hc|]. intros v Hv.
  destruct (has_type_at _ _ _ Hv Hb) as [[-> Hn]|Ht].
  - intros b _. rewrite Hn. by right.
  - destruct v; try done. intros b _. rewrite sm_bind_eq. unfold change_field_type, change_field in *.
    repeat (case_bool_decide; [injection Hf as <-; by apply (clone_yields _ _ _)|]). done.
Qed.
Lemma history_yields i f c t : scope !! i = Some c -> type_base c = THistoryRevision ->
  history_field_type f = Some t ->
  yields (negb (is_nullable c)) t (eval_history_field row i f).
Proof.
  intros Hc Hb Hf. eapply at_column; [exact Hc|]. intros v Hv.
  destruct (has_type_at _ _ _ Hv Hb) as [[-> Hn]|Ht].
  - intros b _. rewrite Hn. by right.
  - destruct v as [| | | | | | | |h| | | | | |]; try done. cbn in Ht. apply andb_true_iff in Ht as [Ht1 Ht2].
    assert (exists o, history_field h f = Ok o /\
      match o with Some v => has_type t v = true | None => is_nullable t = true end) as (o & Ho & Hto).
    { assert (f ∈ ["subject"; "operation"; "valid_from"; "tx_from"; "tx_to"; "valid_to"; "id"; "kind";
                   "revision_id"]%string) as Hin.
      { unfold history_field_type in Hf. rewrite !elem_of_cons.
        repeat case_bool_decide; subst; rewrite ?elem_of_cons, ?elem_of_nil in *; try done; tauto. }
      rewrite !elem_of_cons, elem_of_nil in Hin.
      destruct Hin as [->|[->|[->|[->|[->|[->|[->|[->|[->|[]]]]]]]]]]; injection Hf as <-;
        (eexists; split; [reflexivity|]); try done; [by destruct (hr_tx_to h)|by destruct (hr_valid_to h)]. }
    intros b _. rewrite sm_bind_eq, Ho. cbn [lift].
    destruct o as [v|]; [by apply (clone_yields _ _ _)|]. rewrite sm_ret_eq. by destruct t.
Qed.
Lemma property_yields hp field a b at_ bt : has_type at_ a = true -> has_type bt b = true ->
  type_base at_ = TEntity -> type_base bt = TUtf8 ->
  fi_has_property field = hp -> hydrated_ok hydrated [field] ->
  yields (negb (is_nullable bt)) (if hp then TBool else TNullable TJson)
    (eval_property hydrated hp field a b).
Proof.
  intros Ha Hb Hta Htb Hfp Hh. unfold eval_property.
  destruct (has_type_at _ _ _ Hb Htb) as [[-> Hn]|Hbt]; [intros s _; rewrite Hn; by right|].
  destruct b as [| | | | |name| | | | | | | | |]; try done.
  destruct (has_type_at _ _ _ Ha Hta) as [[-> _]|Hat]; [apply triple_ret; by destruct hp|].
  destruct a as [| | | | | | |record| | | | | | |]; try done. apply reserve_yields. intros s _. rewrite sm_bind_eq.
  destruct (hydrated_get hydrated record field name) as [v|] eqn:Hv; cbn [ok_or lift].
  - pose proof (Hh field record name v ltac:(by left) Hv) as Hacc. unfold field_accepts in Hacc.
    rewrite Hfp in Hacc.
    assert (yields (negb (is_nullable bt)) (if hp then TBool else TNullable TJson)
              (reserve (value_bytes v) ;; mret v)) as Hy; [|exact (Hy s I)].
    apply reserve_yields, triple_ret. intros _ _. destruct hp; by destruct v.
  - left. eval_fails.
Qed.
Lemma lower_yields strict t a : has_type t a = true -> type_base t = TUtf8 ->
  yields strict (nullable TUtf8 (is_nullable t)) (eval_lower a).
Proof.
  intros Ha Ht. destruct (has_type_at _ _ _ Ha Ht) as [[-> Hn]|H2].
  - apply triple_ret. intros _ _. by apply has_type_nullable_null.
  - destruct a; try done. apply reserve_yields, triple_ret. intros _ _. by apply has_type_nullable.
Qed.

Notation well_typed := (well_typed scope).
Notation null_safe := (null_safe scope).

Lemma null_safe_children e c : c ∈ be_children e -> null_safe e = true -> null_safe c = true.
Proof.
  destruct e as [ty kind]. destruct kind; cbn [be_children be_kind kind_children];
    rewrite ?elem_of_cons, ?elem_of_nil; try tauto; cbn [Eval.null_safe]; rewrite ?andb_true_iff;
    try (intros [->|[->|[]]]; tauto); try (intros [->|[]]; tauto).
  intros [->|Hc] [Hn Hv]; [done|]. eapply forallb_forall in Hv; [exact Hv|]. by apply list_elem_of_In.
Qed.
Lemma well_typed_children e : well_typed e = true -> Forall (fun c => well_typed c = true) (be_children e).
Proof.
  destruct e as [ty kind]. destruct kind; cbn [be_children be_kind kind_children Bind.well_typed];
    rewrite ?andb_true_iff; intros Hw; repeat constructor; try tauto.
  destruct Hw as ((((Hn & Hv) & _) & _) & _).
  apply Forall_forall. intros c Hc. eapply forallb_forall in Hv; [exact Hv|]. by apply list_elem_of_In.
Qed.
Lemma fields_children e c f : c ∈ be_children e -> f ∈ be_fields c -> f ∈ be_fields e.
Proof.
  destruct e as [ty kind]. destruct kind; cbn [be_children be_kind kind_children be_fields];
    rewrite ?elem_of_cons, ?elem_of_nil, ?elem_of_app; try tauto;
    try (intros [->|[->|[]]]; tauto); try (intros [->|[]]; tauto).
  intros [->|Hc] Hf; [by left|right]. apply list_elem_of_In, in_concat.
  exists (be_fields c). split; [apply in_map|]; by apply list_elem_of_In.
Qed.

(** A node over operands of their types yields a value of its own. *)
Lemma eval_node_yields e vs : well_typed e = true -> hydrated_ok hydrated (be_fields e) ->
  Forall2 (fun c v => has_type (be_ty c) v = true) (be_children e) vs ->
  yields (null_safe e) (be_ty e) (eval_rec_node row hydrated e vs).
Proof.
  intros Hw Hh Hvs. destruct e as [ty kind]. unfold eval_rec_node, be_children in *.
  cbn [be_kind be_ty] in *.
  destruct kind; cbn [kind_children Bind.well_typed Eval.null_safe be_fields] in *;
    rewrite ?andb_true_iff, ?bool_decide_eq_true in Hw.
  - by apply clone_yields.
  - unfold field_typed in Hw. destruct (scope !! i) as [c|] eqn:Hi; [|done].
    eapply at_column; [exact Hi|]. intros v Hv. apply clone_yields.
    rewrite orb_true_iff, andb_true_iff, !bool_decide_eq_true in Hw.
    destruct Hw as [->|[-> Hn]]; [exact Hv|]. by destruct v, ty.
  - destruct Hw as [Hf Hc]. destruct (column_is_inv _ _ _ _ Hc) as (c & Hi & Hb & Ht).
    rewrite Hi in Ht. injection Ht as <-. by eapply entity_ref_yields.
  - destruct (column_is_inv _ _ _ _ Hw) as (c & Hi & Hb & Ht). rewrite Hi. by eapply score_yields.
  - destruct (column_is_inv _ _ _ _ Hw) as (c & Hi & Hb & Ht). rewrite Hi. by eapply history_yields.
  - destruct (column_is_inv _ _ _ _ Hw) as (c & Hi & Hb & Ht). rewrite Hi. by eapply change_yields.
  - destruct Hw as (((((_ & _) & He) & Hn) & Hp) & ->). apply eqb_prop in Hp.
    inversion Hvs as [|? a ? ? Ha Hvs']; subst. inversion Hvs' as [|? b ? ? Hb Hvs'']; subst.
    inversion Hvs''; subst.
    pose proof (property_yields _ field a b _ _ Ha Hb He Hn eq_refl) as Hy.
    eapply triple_conseq; [apply Hy|done|done|].
    + intros f record nm v ->%list_elem_of_singleton. apply Hh.
      apply elem_of_app. right. by left.
    + intros err. apply may_fail_weaken. rewrite !andb_true_iff. tauto.
  - destruct Hw as ((_ & _) & Ht). destruct (binary_type _ _ _) eqn:Hb; [|done]. injection Ht as ->.
    inversion Hvs as [|? a ? ? Ha Hvs']; subst. inversion Hvs' as [|? b ? ? Hb' Hvs'']; subst.
    inversion Hvs''; subst. apply sound_yields. by eapply binary_sound.
  - destruct Hw as [_ Ht]. inversion Hvs as [|? a ? ? Ha Hvs']; subst. inversion Hvs'; subst.
    apply sound_yields. by eapply unary_sound.
  - destruct Hw as ((_ & Hb) & ->). inversion Hvs as [|? a ? ? Ha Hvs']; subst. inversion Hvs'; subst.
    by apply lower_yields.
  - destruct Hw as ((_ & Hb) & ->). inversion Hvs as [|? a ? ? Ha Hvs']; subst. inversion Hvs'; subst.
    by apply sound_yields, length_sound.
  - destruct Hw as ((((_ & _) & He) & Hbs) & ->).
    inversion Hvs as [|? a ? bs Ha Hvs']; subst. apply triple_ret. intros _ _.
    pose proof (equality_not_null _ He) as Hnn.
    assert (existsb (fun v => is_nullable (be_ty v)) values = existsb is_nullable (map be_ty values))
      as -> by (clear; induction values; cbn; congruence).
    apply in_list_sound; [done| | |].
    + clear -Hvs'. induction Hvs'; cbn; by constructor.
    + intros E0. by rewrite E0 in Hnn.
    + apply Forall_map, Forall_forall. intros v Hv. cbn. intros E0.
      eapply forallb_forall in Hbs; [|by apply list_elem_of_In].
      apply bool_decide_eq_true in Hbs. by rewrite E0 in Hbs.
Qed.

Lemma check_triple X : X quota -> triple (fun _ => True) check (fun _ _ => True) X.
Proof. intros HX b _. rewrite check_eq. by destruct (expired b). Qed.
Lemma reserve_triple n (X : QueryErrorV2 -> Prop) : X quota ->
  triple (fun _ => True) (reserve n) (fun _ _ => True) X.
Proof.
  intros HX b _. destruct (reserve n b) as [[[] ?]|e] eqn:Hr; [done|]. by apply reserve_in_Err in Hr as ->.
Qed.
Lemma visit_triple e (X : QueryErrorV2 -> Prop) : X quota ->
  triple (fun _ => True) (eval_visit e) (fun _ _ => True) X.
Proof.
  intros HX. unfold eval_visit. apply (triple_bind _ _ _ (fun _ _ => True)); [by apply reserve_triple|].
  intros _. destruct (be_kind e); try (by apply reserve_triple); by apply triple_ret.
Qed.
Lemma quota_may_fail strict : may_fail strict quota.
Proof. by left; left. Qed.

Lemma eval_rec_yields e : well_typed e = true -> hydrated_ok hydrated (be_fields e) ->
  yields (null_safe e) (be_ty e) (eval_rec row hydrated e).
Proof.
  induction e as [e IH] using bound_expr_ind'. intros Hw Hh s _. rewrite eval_rec_eq.
  enough (yields (null_safe e) (be_ty e) (check ;; eval_visit e ;;
    vs ← mtraverse (eval_rec row hydrated) (be_children e); check ;; eval_rec_node row hydrated e vs))
    as Hy by exact (Hy s I).
  apply (triple_bind _ _ _ (fun _ _ => True)); [apply check_triple, quota_may_fail|]. intros _.
  apply (triple_bind _ _ _ (fun _ _ => True)); [apply visit_triple, quota_may_fail|]. intros _.
  eapply triple_bind.
  - apply (triple_mtraverse _ (fun _ => True) (fun c v => has_type (be_ty c) v = true)).
    intros c Hc. eapply triple_conseq.
    + eapply Forall_forall in IH; [|exact Hc]. apply IH.
      * exact (proj1 (Forall_forall _ _) (well_typed_children e Hw) c Hc).
      * intros f record nm v Hf. apply Hh. by eapply fields_children.
    + done.
    + done.
    + intros err. apply may_fail_weaken. by apply null_safe_children.
  - intros vs. apply (triple_bind _ _ _ (fun _ _ => Forall2 (fun c v => has_type (be_ty c) v = true) (be_children e) vs)).
    + intros s0 [Hvs _]. rewrite check_eq. destruct (expired s0); [apply quota_may_fail|exact Hvs].
    + intros _ s0 Hvs. by apply eval_node_yields.
Qed.

Lemma eval_yields e : well_typed e = true -> hydrated_ok hydrated (be_fields e) ->
  yields (null_safe e) (be_ty e) (eval row hydrated e).
Proof.
  intros Hw Hh s _. rewrite eval_loop.
  enough (yields (null_safe e) (be_ty e) (check ;; reserve 64 ;; eval_rec row hydrated e))
    as Hy by exact (Hy s I).
  apply (triple_bind _ _ _ (fun _ _ => True)); [apply check_triple, quota_may_fail|]. intros _.
  apply reserve_yields. by apply eval_rec_yields.
Qed.
End Soundness.

(** C19: Evaluation is sound for the binder's types: on a row of the columns' types, with
    hydrated values of their slots' types, a well-typed expression evaluates to a value
    of its type, or it stops with an exhausted budget, a division by zero, an overflow,
    a result that is not finite or a property that was not hydrated. The one other
    error, [bound_type], needs an access to a component of a null score, history or
    change, or a null property name. *)
Theorem eval_sound `{Clock, Layout, Unicode} scope row hydrated e s
  (Hrow : row_ok scope row) (Hw : well_typed scope e = true)
  (Hh : hydrated_ok hydrated (be_fields e)) :
  match eval row hydrated e s with
  | Ok (v, _) => has_type (be_ty e) v = true
  | Err err => eval_failure err \/ null_safe scope e = false /\ err = failure "bound_type"
  end.
Proof. exact (eval_yields scope row hydrated Hrow e Hw Hh s I). Qed.

(** ** Evaluation and the budget *)

Section EvalBudget.
Context `{Clock, Layout, Unicode}.
Variable row : vrow.
Variable hydrated : HydratedValuesV2.

Lemma sat_nonneg a b : 0 <= a -> 0 <= b -> 0 <= u64_saturating_add a b.
Proof. apply u64_saturating_add_nonneg. Qed.
Lemma moves_bind_le {A B} (m : exec A) (f : A -> exec B) :
  moves budget_le m -> (forall a, moves budget_le (f a)) -> moves budget_le (m ≫= f).
Proof. apply moves_bind. exact _. Qed.

Lemma moves_eval_visit e : moves budget_le (eval_visit e).
Proof.
  unfold eval_visit. apply moves_bind_le; [by apply moves_reserve|]. intros _.
  destruct (be_kind e); try (by apply moves_reserve); try exact (moves_ret _ _).
  apply moves_reserve, u64_saturating_mul_nonneg; [|done]. pose proof (zlen_nonneg values). lia.
Qed.
Lemma moves_eval_property hp field a b : moves budget_le (eval_property hydrated hp field a b).
Proof.
  unfold eval_property. destruct b; try exact (moves_fail _ _). destruct a; try exact (moves_fail _ _).
  - exact (moves_ret _ _).
  - apply moves_bind_le; [apply moves_reserve; nonneg|]. intros _.
    apply moves_bind_le; [exact (moves_lift _ _)|]. intros v.
    apply moves_bind_le; [apply moves_reserve; nonneg|]. intros _. exact (moves_ret _ _).
Qed.
Lemma moves_eval_rec_node e vs : moves budget_le (eval_rec_node row hydrated e vs).
Proof.
  unfold eval_rec_node.
  destruct (be_kind e); try (destruct vs as [|v1 [|v2 [|]]]; try exact (moves_fail _ _));
    try exact (moves_lift _ _); try apply moves_clone_value; try apply moves_eval_property.
  all: unfold eval_entity_ref_field, eval_score_field, eval_history_field, eval_change_field, eval_lower.
  all: try (apply moves_bind_le; [exact (moves_lift _ _)|]; intros v).
  all: repeat match goal with
    | |- moves _ (match ?x with _ => _ end) => destruct x
    end.
  all: try exact (moves_fail _ _); try exact (moves_ret _ _); try apply moves_clone_value.
  all: apply moves_bind_le; [first [exact (moves_lift _ _) | apply moves_reserve; nonneg]|];
    intros v; repeat match goal with
    | |- moves _ (match ?x with _ => _ end) => destruct x
    end; try apply moves_clone_value; exact (moves_ret _ _).
Qed.
Lemma moves_eval_rec e : moves budget_le (eval_rec row hydrated e).
Proof.
  induction e as [e IH] using bound_expr_ind'. intros s v s'. rewrite eval_rec_eq. revert s v s'.
  change (moves budget_le (check ;; eval_visit e ;;
    vs ← mtraverse (eval_rec row hydrated) (be_children e); check ;; eval_rec_node row hydrated e vs)).
  apply moves_bind_le; [apply moves_check|]. intros _.
  apply moves_bind_le; [apply moves_eval_visit|]. intros _. apply moves_bind_le.
  - induction IH as [|c l Hc _ IHl]; [exact (moves_ret _ _)|]. cbn [mtraverse].
    apply moves_bind_le; [exact Hc|]. intros b. apply moves_bind_le; [exact IHl|].
    intros bs. exact (moves_ret _ _).
  - intros vs. apply moves_bind_le; [apply moves_check|]. intros _. apply moves_eval_rec_node.
Qed.
(** Evaluating an expression only spends. *)
Lemma moves_eval e : moves budget_le (eval row hydrated e).
Proof.
  intros s v s'. rewrite eval_loop. revert s v s'.
  change (moves budget_le (check ;; reserve 64 ;; eval_rec row hydrated e)).
  apply moves_bind_le; [apply moves_check|]. intros _.
  apply moves_bind_le; [by apply moves_reserve|]. intros _. apply moves_eval_rec.
Qed.

(** [matches_pattern_properties]: a property matches when it is there and is the JSON
    value expected. *)
Fixpoint matches_pattern_properties (properties : btree BoundPatternProperty)
  (record : RecordRefV2) : exec bool :=
  match properties with
  | [] => mret true
  | (name, property) :: properties' =>
      check ;;
      present ← lift (ok_or (hydrated_get hydrated record (bp_has_property_field property) name)
                            (failure "pattern_property_hydration"));
      if negb (value_eqb present (VBool true)) then mret false
      else
        actual ← lift (ok_or (hydrated_get hydrated record (bp_value_field property) name)
                             (failure "pattern_property_hydration"));
        expected ← eval row hydrated (bp_expected property);
        match actual with
        | VJson _ => if value_eqb actual expected
                     then matches_pattern_properties properties' record else mret false
        | _ => mret false
        end
  end.
Lemma moves_matches_pattern_properties properties record :
  moves budget_le (matches_pattern_properties properties record).
Proof.
  induction properties as [|[name p] ps IH]; cbn [matches_pattern_properties];
    [exact (moves_ret _ _)|].
  apply moves_bind_le; [apply moves_check|]. intros _.
  apply moves_bind_le; [exact (moves_lift _ _)|]. intros present.
  destruct (negb _); [exact (moves_ret _ _)|].
  apply moves_bind_le; [exact (moves_lift _ _)|]. intros actual.
  apply moves_bind_le; [apply moves_eval|]. intros expected.
  destruct actual; try exact (moves_ret _ _). destruct (value_eqb _ _); [exact IH|].
  exact (moves_ret _ _).
Qed.
End EvalBudget.
#[export] Hint Resolve moves_eval moves_matches_pattern_properties : moves.

(** ** Examples *)

Definition sample_clock : Clock := {| instant n := Z.of_nat n |}.
Program Definition sample_layout : Layout := {|
  size_of_value := 96; size_of_row := 24; size_of_ref := 104; size_of_field := 40;
  size_of_group := 48; size_of_score := 184; size_of_record_key := 120 |}.
Next Obligation. unfold u64_max. lia. Qed.
Next Obligation. lia. Qed.
Definition sample_unicode : Unicode := {| to_lowercase s := s |}.
#[local] Existing Instances sample_clock sample_layout sample_unicode sample_uuid sample_serde.

Definition sample_budget : ExecutionBudgetV2 := default_budget 1 0.
Definition value_of {A} (r : query (A * ExecutionBudgetV2)) : query A :=
  match r with Ok (v, _) => Ok v | Err e => Err e end.
Definition sample_scope : list Column := [
  {| co_name := "n"; co_ty := TNullable TEntity |}; {| co_name := "x"; co_ty := TNullable TI64 |} ].
Definition column_ref (alias : string) (p : list string) : Expr :=
  EField {| fr_alias := alias; fr_path := p |}.
Definition i64_literal (s : string) : Expr := ELiteral (JString s) "I64".
(** [x / 2 in (4, null) or n.id = "a"] *)
Definition sample_expr : Expr :=
  EBinary OOr
    (EIn (EBinary ODiv (column_ref "x" []) (i64_literal "2"))
       [i64_literal "4"; ELiteral JNull "Null"] false)
    (EBinary OEq (column_ref "n" ["id"%string]) (ELiteral (JString "a") "Utf8")).
Definition sample_bound : BoundExpr :=
  match bind_expr sample_scope [] sample_expr 0 0 with
  | Ok (b, _) => b
  | Err _ => Bound TNull (KLiteral VNull)
  end.

Example eval_true :
  value_of (eval [VEntity (sample_node "b"); VI64 9] ∅ sample_bound sample_budget) = Ok (VBool true).
Proof. vm_compute. reflexivity. Qed.
Example eval_unknown :
  value_of (eval [VEntity (sample_node "b"); VI64 3] ∅ sample_bound sample_budget) = Ok VNull.
Proof. vm_compute. reflexivity. Qed.
Example eval_null_row :
  value_of (eval [VNull; VNull] ∅ sample_bound sample_budget) = Ok VNull.
Proof. vm_compute. reflexivity. Qed.

Lemma parameters_decode_typed_witness :
  params_ok [("p"%string, (TList (TNullable TI64), VList [VI64 (-7); VNull]))].
Proof.
  apply (parameters_decode_typed
    [("p"%string, JObject [("type"%string, JString "List<Nullable<I64>>");
                    ("value"%string, JArray [JString "-7"; JNull])])] None).
  vm_compute. reflexivity.
Defined.
Lemma bind_expr_typed_witness : bound_ok sample_scope 0 0 [sample_bound].
Proof.
  apply (bind_expr_typed sample_scope [] sample_expr 0 0 sample_bound 0).
  - constructor.
  - vm_compute. reflexivity.
Defined.
Lemma eval_sound_witness :
  match eval [VEntity (sample_node "b"); VI64 9] ∅ sample_bound sample_budget with
  | Ok (v, _) => has_type (be_ty sample_bound) v = true
  | Err err => eval_failure err \/ null_safe (map co_ty sample_scope) sample_bound = false /\
                 err = failure "bound_type"
  end.
Proof.
  apply eval_sound.
  - repeat constructor.
  - vm_compute. reflexivity.
  - intros f r n v Hf. vm_compute in Hf. by apply elem_of_nil in Hf.
Defined.

(** [s.value is null], with [s] a score column of the right side of a left join *)
Definition null_test_scope : list Column := [{| co_name := "s"; co_ty := TNullable TScore |}].
Definition null_test : Expr := EUnary OIsNull (column_ref "s" ["value"%string]).
Definition null_test_bound : BoundExpr :=
  Bound TBool (KUnary OIsNull (Bound TF64Finite (KScoreField 0 "value"))).

(** Code that returns no value *)
Definition never {A} (X : QueryErrorV2 -> Prop) (m : exec A) : Prop :=
  triple (fun _ => True) m (fun _ _ => False) X.
Section Never.
Context `{Clock, Layout, Unicode}.
Variables (row : vrow) (hydrated : HydratedValuesV2) (X : QueryErrorV2 -> Prop).
Hypothesis HX : X quota.
Lemma never_after {A B} (m : exec A) (m' : exec B) :
  triple (fun _ => True) m (fun _ _ => True) X -> never X m' -> never X (m ;; m').
Proof. intros Hm Hm'. by apply (triple_bind _ _ _ (fun _ _ => True)). Qed.
Lemma never_after_check {B} (m' : exec B) : never X m' -> never X (check ;; m').
Proof. apply never_after. by apply check_triple. Qed.
(** A node has no value when its operator has none, or an operand. *)
Lemma never_node e :
  triple (fun _ => True) (mtraverse (eval_rec row hydrated) (be_children e))
    (fun vs _ => never X (eval_rec_node row hydrated e vs)) X ->
  never X (eval_rec row hydrated e).
Proof.
  intros He s0 _. rewrite eval_rec_eq.
  enough (never X (check ;; eval_visit e ;;
    vs ← mtraverse (eval_rec row hydrated) (be_children e); check ;;
    eval_rec_node row hydrated e vs)) as Hy by exact (Hy s0 I).
  apply never_after_check, never_after; [by apply visit_triple|].
  eapply triple_bind; [exact He|]. intros vs s1 Hs1.
  exact (never_after_check _ Hs1 s1 I).
Qed.
End Never.

(** The binder types a component of a nullable score as never null, and the evaluator
    has no value for it on a null: a test whether the component is null never answers,
    where the same test of an entity's component answers [true]. *)
Theorem null_score_component `{Clock, Layout, Unicode, UuidCrate, Serde} hydrated s :
  bind_expr null_test_scope [] null_test 0 0 = Ok (null_test_bound, 0) /\
  match eval [VNull] hydrated null_test_bound s with
  | Ok _ => False
  | Err err => err = quota \/ err = failure "bound_type"
  end.
Proof.
  split; [reflexivity|].
  set (X := fun err => err = quota \/ err = failure "bound_type").
  assert (X quota) as HX by by left.
  rewrite eval_loop.
  enough (never X (check ;; reserve 64 ;; eval_rec [VNull] hydrated null_test_bound)) as Hn.
  { specialize (Hn s I). cbn beta in Hn. by match type of Hn with match ?r with _ => _ end => destruct r as [[v s']|err] end. }
  apply never_after_check; [done|]. apply never_after; [by apply reserve_triple|].
  apply never_node; [done|].
  cbn [be_children be_kind null_test_bound kind_children mtraverse].
  apply (triple_bind _ _ _ (fun _ _ => False)); [|by intros ? ? []]. apply never_node; [done|].
  apply triple_ret. intros _ _ s1 _. by right.
Qed.
Example null_entity_component :
  let expr := EUnary OIsNull (column_ref "n" ["id"%string]) in
  match bind_expr sample_scope [] expr 0 0 with
  | Ok (b, _) => value_of (eval [VNull; VNull] ∅ b sample_budget) = Ok (VBool true)
  | Err _ => False
  end.
Proof. vm_compute. reflexivity. Qed.
