(* ===== verification/Answers.v ===== *)
(** * Answers without budgets

    What a piece of budgeted code answers when its budget suffices: the relation
    [answers m r] between stateful code and a pure computation, its rules, and the
    answer of an expression. The specifications of the kernels are stated with it: a
    budget decides whether a query completes, never what it answers. *)
From S2P Require Export Eval.
Local Open Scope Z_scope.

Definition answers {A} (m : exec A) (r : query A) : Prop :=
  forall s, match m s with Ok (a, _) => r = Ok a | Err e => e = quota \/ r = Err e end.
(** Code that only spends *)
Definition pays (m : exec unit) : Prop :=
  triple (fun _ => True) m (fun _ _ => True) (fun e => e = quota).

Section Rules.
Lemma answers_ret {A} (a : A) : answers (mret a) (Ok a).
Proof. done. Qed.
Lemma answers_fail {A} e : answers (fail e : exec A) (Err e).
Proof. intros s. by right. Qed.
Lemma answers_lift {A} (r : query A) : answers (lift r) r.
Proof. intros s. unfold lift. destruct r; [done|by right]. Qed.
Lemma answers_bind {A B} (m : exec A) r (f : A -> exec B) g :
  answers m r -> (forall a, r = Ok a -> answers (f a) (g a)) -> answers (m ≫= f) (r ≫= g).
Proof.
  intros Hm Hf s. rewrite sm_bind_eq. specialize (Hm s). destruct (m s) as [[a s']|e].
  - subst r. cbn. by apply Hf.
  - destruct Hm as [->| ->]; [by left|by right].
Qed.
Lemma answers_pay {A} (m : exec unit) (m' : exec A) r : pays m -> answers m' r -> answers (m ;; m') r.
Proof.
  intros Hp Hm s. rewrite sm_bind_eq. specialize (Hp s I). destruct (m s) as [[[] s']|e]; [apply Hm|].
  by left.
Qed.
Lemma answers_map {A B} (m : exec A) r (f : A -> B) :
  answers m r -> answers (a ← m; mret (f a)) (a ← r; Ok (f a)).
Proof. intros Hm. apply answers_bind; [done|]. intros a _. apply answers_ret. Qed.
Lemma answers_mfor {A B} (f : B -> A -> exec B) g b l :
  (forall b a, a ∈ l -> answers (f b a) (g b a)) -> answers (mfor f b l) (try_for g b l).
Proof.
  intros Hf. revert b; induction l as [|a l IH]; intros b; [apply answers_ret|].
  cbn [mfor]. rewrite try_for_cons. apply answers_bind; [apply Hf; by left|].
  intros b' _. apply IH. intros b0 a' Ha'. apply Hf. by right.
Qed.
Lemma answers_mtraverse {A B} (f : A -> exec B) g l :
  (forall a, a ∈ l -> answers (f a) (g a)) -> answers (mtraverse f l) (traverse g l).
Proof.
  intros Hf. induction l as [|a l IH]; [apply answers_ret|]. cbn [mtraverse traverse].
  apply answers_bind; [apply Hf; by left|]. intros b _.
  apply answers_map, IH. intros a' Ha'. apply Hf. by right.
Qed.
Lemma answers_Ok {A} (m : exec A) r s a s' : answers m r -> m s = Ok (a, s') -> r = Ok a.
Proof. intros Hm Ha. specialize (Hm s). by rewrite Ha in Hm. Qed.
Lemma answers_ext {A} (m : exec A) r r' : answers m r -> r = r' -> answers m r'.
Proof. by intros H <-. Qed.
(** Two runs that complete answer the same. *)
Lemma answers_agree {A} (m : exec A) r s a s' t b t' : answers m r ->
  m s = Ok (a, s') -> m t = Ok (b, t') -> a = b.
Proof. intros Hm Ha Hb. apply (answers_Ok _ _ _ _ _ Hm) in Ha, Hb. congruence. Qed.
End Rules.

Section Pays.
Context `{Clock}.
Lemma pays_check : pays check.
Proof. by apply check_triple. Qed.
Lemma pays_reserve n : pays (reserve n).
Proof. by apply reserve_triple. Qed.
Lemma pays_reserve_in used limit store n : pays (reserve_in used limit store n).
Proof.
  intros b _. destruct (reserve_in used limit store n b) as [[[] ?]|e] eqn:Hr; [done|].
  by apply reserve_in_Err in Hr.
Qed.
End Pays.

(** ** The answer of an expression *)

Section Answer.
Context `{Unicode}.
Variable row : vrow.
Variable hydrated : HydratedValuesV2.

Definition answer_entity_ref (i : nat) (field : string) : query QueryValueV2 :=
  entity ← column_at row i;
  if value_eqb entity VNull then Ok VNull
  else match entity with
       | VEntity record => text ← entity_field record field; Ok (VUtf8 text)
       | _ => Err (failure "bound_type")
       end.
Definition answer_score (i : nat) (field : string) : query QueryValueV2 :=
  score ← column_at row i;
  match score with VScore score => score_field score field | _ => Err (failure "bound_type") end.
Definition answer_history (i : nat) (field : string) : query QueryValueV2 :=
  value ← column_at row i;
  match value with
  | VHistoryRevision revision => v ← history_field revision field; Ok (default VNull v)
  | _ => Err (failure "bound_type")
  end.
Definition answer_change (i : nat) (field : string) : query QueryValueV2 :=
  value ← column_at row i;
  match value with VChangeEvent event => change_field event field | _ => Err (failure "bound_type") end.
Definition answer_property (has_property : bool) (field : FieldIdV2) (entity name : QueryValueV2)
  : query QueryValueV2 :=
  match name, entity with
  | VUtf8 _, VNull => Ok (if has_property then VBool false else VNull)
  | VUtf8 name, VEntity record =>
      ok_or (hydrated_get hydrated record field name) (failure "source_hydration_missing")
  | _, _ => Err (failure "bound_type")
  end.
Definition answer_lower (v : QueryValueV2) : query QueryValueV2 :=
  match v with
  | VNull => Ok VNull
  | VUtf8 s => Ok (VUtf8 (to_lowercase s))
  | _ => Err (failure "bound_type")
  end.
Definition answer_node (e : BoundExpr) (vs : list QueryValueV2) : query QueryValueV2 :=
  match be_kind e, vs with
  | KLiteral v, _ => Ok v
  | KField i, _ => column_at row i
  | KEntityRefField i field, _ => answer_entity_ref i field
  | KScoreField i field, _ => answer_score i field
  | KHistoryField i field, _ => answer_history i field
  | KChangeField i field, _ => answer_change i field
  | KProperty _ _ has_property field, [entity; name] =>
      answer_property has_property field entity name
  | KLower _, [v] => answer_lower v
  | KLength _, [v] => length_of v
  | KUnary op _, [v] => unary op v
  | KBinary op _ _, [a; b] => binary op a b
  | KIn _ _ negated, needle :: values => Ok (in_list needle values negated)
  | _, _ => Err eval_missing
  end.
Fixpoint answer (e : BoundExpr) : query QueryValueV2 :=
  vs ← (let 'Bound _ kind := e in
        match kind with
        | KProperty entity name _ _ => a ← answer entity; b ← answer name; Ok [a; b]
        | KBinary _ lhs rhs => a ← answer lhs; b ← answer rhs; Ok [a; b]
        | KUnary _ arg | KLower arg | KLength arg => a ← answer arg; Ok [a]
        | KIn needle values _ => a ← answer needle; bs ← traverse answer values; Ok (a :: bs)
        | _ => Ok []
        end);
  answer_node e vs.
Lemma answer_eq e : answer e = (traverse answer (be_children e) ≫= answer_node e).
Proof.
  destruct e as [ty kind]; destruct kind; cbn [answer be_children be_kind kind_children traverse];
    try done.
  all: repeat match goal with
    | |- context [answer ?a] => destruct (answer a); cbn [mbind result_bind]; try done
    end.

Qed.

Context `{Clock, Layout}.

Lemma clone_answers v : answers (clone_value v) (Ok v).
Proof. apply answers_pay; [apply pays_reserve|apply answers_ret]. Qed.
Lemma answers_then_clone (r : query QueryValueV2) : answers (v ← lift r; clone_value v) r.
Proof.
  apply (answers_ext _ (v ← r; Ok v)); [|by destruct r].
  apply answers_bind; [apply answers_lift|]. intros v _. apply clone_answers.
Qed.
Lemma property_answers hp field a b :
  answers (eval_property hydrated hp field a b) (answer_property hp field a b).
Proof.
  unfold eval_property, answer_property. destruct b; try apply answers_fail.
  destruct a; try apply answers_fail; [apply answers_ret|].
  apply answers_pay; [apply pays_reserve|].
  apply (answers_ext _ (v ← ok_or (hydrated_get hydrated r field s) (failure "source_hydration_missing"); Ok v)).
  - apply answers_bind; [apply answers_lift|]. intros v _. apply answers_pay; [apply pays_reserve|].
    apply answers_ret.
  - by destruct (hydrated_get _ _ _ _).
Qed.
Lemma node_answers e vs : answers (eval_rec_node row hydrated e vs) (answer_node e vs).
Proof.
  unfold eval_rec_node, answer_node.
  destruct (be_kind e); try (destruct vs as [|v1 [|v2 [|]]]);
    try apply answers_fail; try apply clone_answers; try apply answers_then_clone;
    try apply property_answers; try exact (answers_lift _); try apply answers_ret.
  all: unfold eval_entity_ref_field, eval_score_field, eval_history_field, eval_change_field,
    eval_lower, answer_entity_ref, answer_score, answer_history, answer_change, answer_lower.
  all: try (apply answers_bind; [apply answers_lift|]; intros v _).
  all: repeat match goal with
    | |- answers (if ?b then _ else _) _ => destruct b; [apply answers_ret|]
    | |- answers (match ?v with _ => _ end) _ => destruct v; try apply answers_fail
    end; try apply answers_ret; try apply answers_then_clone.
  all: try (apply answers_pay; [apply pays_reserve|apply answers_ret]).
  all: apply answers_bind; [apply answers_lift|]; intros w _; try apply clone_answers.
  all: destruct w; [apply clone_answers|apply answers_ret].
Qed.
Lemma pays_visit e : pays (eval_visit e).
Proof. by apply visit_triple. Qed.
Lemma eval_rec_answers e : answers (eval_rec row hydrated e) (answer e).
Proof.
  induction e as [e IH] using bound_expr_ind'. intros s. rewrite eval_rec_eq, answer_eq. revert s.
  change (answers (check ;; eval_visit e ;; vs ← mtraverse (eval_rec row hydrated) (be_children e);
    check ;; eval_rec_node row hydrated e vs) (traverse answer (be_children e) ≫= answer_node e)).
  apply answers_pay; [apply pays_check|]. apply answers_pay; [apply pays_visit|].
  apply answers_bind.
  - apply answers_mtraverse. intros c Hc. by eapply Forall_forall in IH.
  - intros vs _. apply answers_pay; [apply pays_check|]. apply node_answers.
Qed.
Lemma eval_answers e : answers (eval row hydrated e) (answer e).
Proof.
  intros s. rewrite eval_loop. revert s.
  change (answers (check ;; reserve 64 ;; eval_rec row hydrated e) (answer e)).
  apply answers_pay; [apply pays_check|]. apply answers_pay; [apply pays_reserve|].
  apply eval_rec_answers.
Qed.
End Answer.

(** C38: The budget decides whether an evaluation completes, and nothing else: a value it
    returns is the expression's answer, and an error other than the exhausted budget is
    the answer's error. *)
Theorem eval_budget_independent `{Clock, Layout, Unicode} row hydrated e s :
  match eval row hydrated e s with
  | Ok (v, _) => answer row hydrated e = Ok v
  | Err err => err = quota \/ answer row hydrated e = Err err
  end.
Proof. apply eval_answers. Qed.
