(* ===== verification/Kernels.v ===== *)
(** * Relational kernels

    [src/src/query/hql2/exec.rs], lines 1175 to 1251 and 2466 to 2668: filter, project,
    distinct, take, offset, union, sort, join and aggregation, with the answers they
    compute. *)
From S2P Require Export Answers.
Local Open Scope Z_scope.

(** [Vec<V> == Vec<V>] *)
Definition row_eqb (a b : vrow) : bool := eqb_list value_eqb a b.

(** [iter().skip(n)] *)
Fixpoint zskip {A} (n : Z) (l : list A) : list A :=
  match l with
  | [] => []
  | a :: l' => if n <=? 0 then l else zskip (n - 1) l'
  end.

(** [sort_by] calls its comparator an unspecified number of times: the pairs of
    positions the library compares for a list. *)
Class StdSort := { comparisons : nat -> list (nat * nat) }.

Section Kernels.
Context `{Clock, Layout, Unicode, StdSort}.
Variable hydrated : HydratedValuesV2.
Notation eval row e := (eval row hydrated e).

Definition is_true (v : QueryValueV2) : bool := value_eqb v (VBool true).

Definition filter_rows (predicate : BoundExpr) (input : list vrow) : exec (list vrow) :=
  mfor (fun out row =>
      v ← eval row predicate;
      if is_true v then push_clone out row else mret out) [] input.

Definition project_rows (expressions : list BoundExpr) (input : list vrow) : exec (list vrow) :=
  mfor (fun out row =>
      reserve (size_of_row * 2 + size_of_value * zlen expressions) ;;
      projected ← mtraverse (fun e => eval row e) expressions;
      mret (out ++ [projected])) [] input.

(** The scan of the rows kept so far, with a check for every one. *)
Fixpoint row_exists (out : list vrow) (row : vrow) : exec bool :=
  match out with
  | [] => mret false
  | old :: out' => check ;; if row_eqb old row then mret true else row_exists out' row
  end.
Definition distinct_rows (input : list vrow) : exec (list vrow) :=
  mfor (fun out row =>
      check ;;
      exists_ ← row_exists out row;
      if exists_ : bool then mret out else push_clone out row) [] input.

Definition copy_rows (out input : list vrow) : exec (list vrow) := mfor push_clone out input.
Definition take_rows (count : Z) (input : list vrow) : exec (list vrow) :=
  copy_rows [] (ztake count input).
Definition offset_rows (count : Z) (input : list vrow) : exec (list vrow) :=
  copy_rows [] (zskip count input).
Definition union_all_rows (inputs : list (list vrow)) : exec (list vrow) :=
  mfor copy_rows [] inputs.

(** ** Sort *)

Notation sort_key := (BoundExpr * SortDirection * NullOrder)%type.

(** The order of two values of one key, or the comparator's error *)
Definition key_compare (direction : SortDirection) (nulls : NullOrder) (x y : QueryValueV2)
  : query comparison :=
  match value_eqb x VNull, value_eqb y VNull with
  | true, true => Ok Eq
  | true, false => Ok (match nulls with NullsFirst => Lt | NullsLast => Gt end)
  | false, true => Ok (match nulls with NullsFirst => Gt | NullsLast => Lt end)
  | false, false =>
      o ← value_compare x y;
      Ok (match direction with SortDesc => reverse o | SortAsc => o end)
  end.
(** The loop over the keys: an error makes the pair equal. *)
Fixpoint keys_compare (keys : list (SortDirection * NullOrder)) (a b : list QueryValueV2)
  : query comparison :=
  match keys, a, b with
  | (direction, nulls) :: keys', x :: a', y :: b' =>
      o ← key_compare direction nulls x y;
      match o with Eq => keys_compare keys' a' b' | _ => Ok o end
  | _, _, _ => Ok Eq
  end.
Notation decorated := (nat * list QueryValueV2)%type.
Definition row_compare (keys : list (SortDirection * NullOrder)) (a b : decorated) : comparison :=
  match keys_compare keys a.2 b.2 with
  | Ok Eq => Nat.compare a.1 b.1
  | Ok o => o
  | Err _ => Eq
  end.
(** One call of the comparator: a check of the deadline that does not stop the sort, and
    the comparison; the last error is kept. *)
Definition sort_call (keys : list (SortDirection * NullOrder)) (l : list decorated)
  (error : option QueryErrorV2) (pair : nat * nat) : exec (option QueryErrorV2) := fun b =>
  let '(error, b) :=
    match check b with Ok (_, b') => (error, b') | Err e => (Some e, tick b) end in
  let error :=
    match l !! pair.1, l !! pair.2 with
    | Some x, Some y =>
        match keys_compare keys x.2 y.2 with Err e => Some e | Ok _ => error end
    | _, _ => error
    end in
  Ok (error, b).
Definition decorate (keys : list sort_key) (irow : nat * vrow) : exec decorated :=
  reserve ((size_of_usize + size_of_row) * 2 + zlen keys * size_of_value) ;;
  values ← mtraverse (fun k => eval irow.2 k.1.1) keys;
  mret (irow.1, values).
Definition key_orders (keys : list sort_key) : list (SortDirection * NullOrder) :=
  map (fun k => (k.1.2, k.2)) keys.
Definition sort_rows (keys : list sort_key) (input : list vrow) : exec (list vrow) :=
  l ← mtraverse (decorate keys) (imap pair input);
  error ← mfor (sort_call (key_orders keys) l) None (comparisons (length l));
  match error with
  | Some e => fail e
  | None =>
      mfor (fun out (d : decorated) =>
          row ← lift (ok_or (input !! d.1) (failure "bound_field"));
          push_clone out row) [] (sort_by (row_compare (key_orders keys)) l)
  end.

(** ** Join *)

Definition join_pair (kind : JoinKind) (condition : BoundExpr) (left_ : vrow)
  (acc : bool * list vrow) (r : vrow) : exec (bool * list vrow) :=
  let '(matched, out) := acc in
  reserve (row_bytes left_ +sat row_bytes r) ;;
  let combined := left_ ++ r in
  v ← eval combined condition;
  if is_true v then
    match kind with
    | JoinInner | JoinLeft => reserve (size_of_row * 2) ;; mret (true, out ++ [combined])
    | JoinSemi | JoinAnti => mret (true, out)
    end
  else mret (matched, out).
Definition join_left (kind : JoinKind) (condition : BoundExpr) (right_width : nat)
  (right_ : list vrow) (out : list vrow) (left_ : vrow) : exec (list vrow) :=
  '(matched, out) ← mfor (join_pair kind condition left_) (false, out) right_;
  match kind, matched with
  | JoinSemi, true | JoinAnti, false => push_clone out left_
  | JoinLeft, false =>
      reserve (row_bytes left_ +sat (Z.of_nat right_width * size_of_value + size_of_row)) ;;
      mret (out ++ [left_ ++ replicate right_width VNull])
  | _, _ => mret out
  end.
Definition join_rows (kind : JoinKind) (condition : BoundExpr) (right_width : nat)
  (input right_ : list vrow) : exec (list vrow) :=
  mfor (join_left kind condition right_width right_) [] input.

(** ** Aggregation *)

Record agg_state := {
  as_count : Z; as_sum : option QueryValueV2; as_extremum : option QueryValueV2;
  as_collected : list QueryValueV2 }.
Definition agg_init : agg_state :=
  {| as_count := 0; as_sum := None; as_extremum := None; as_collected := [] |}.

(** One row of the loop of [aggregate] *)
Definition agg_fold (kind : AggregateKind) (st : agg_state) (value : QueryValueV2)
  : query agg_state :=
  if value_eqb value VNull then Ok st
  else
    count ← ok_or (i64_checked_add (as_count st) 1) (failure "integer_overflow");
    match kind with
    | ASum | AAvg =>
        sum ← match as_sum st with Some old => binary OAdd old value | None => Ok value end;
        Ok {| as_count := count; as_sum := Some sum; as_extremum := as_extremum st;
              as_collected := as_collected st |}
    | AMin | AMax =>
        replace ← match as_extremum st with
                  | Some old =>
                      c ← value_compare value old;
                      Ok (match kind, c with AMin, Lt | AMax, Gt => true | _, _ => false end)
                  | None => Ok true
                  end;
        Ok {| as_count := count; as_sum := as_sum st;
              as_extremum := if replace : bool then Some value else as_extremum st;
              as_collected := as_collected st |}
    | _ => Ok {| as_count := count; as_sum := as_sum st; as_extremum := as_extremum st;
                 as_collected := as_collected st |}
    end.
Definition agg_row (kind : AggregateKind) (arg : BoundExpr) (st : agg_state) (row : vrow)
  : exec agg_state :=
  check ;;
  value ← eval row arg;
  match kind with
  | ACollect =>
      b ← get;
      if eb_rows b <=? zlen (as_collected st) then fail quota
      else
        reserve (size_of_value * 2) ;;
        mret {| as_count := as_count st; as_sum := as_sum st; as_extremum := as_extremum st;
                as_collected := as_collected st ++ [value] |}
  | _ => lift (agg_fold kind st value)
  end.
Definition agg_result (kind : AggregateKind) (st : agg_state) : query QueryValueV2 :=
  match kind with
  | ACount => Ok (VI64 (as_count st))
  | ASum => Ok (default VNull (as_sum st))
  | AAvg =>
      match as_sum st with
      | None => Ok VNull
      | Some (VI64 v) => finite (f64_div (f64_of_Z v) (f64_of_Z (as_count st)))
      | Some (VF64 v) => finite (f64_div v (f64_of_Z (as_count st)))
      | _ => Err (failure "bound_type")
      end
  | AMin | AMax => Ok (default VNull (as_extremum st))
  | ACollect => Ok (VList (as_collected st))
  | ACountAll => Err (failure "unreachable")
  end.
Definition aggregate (call : Aggregate) (rows : list vrow) : exec QueryValueV2 :=
  match ag_kind call with
  | ACountAll => lift (z ← ok_or (i64_try (zlen rows)) (failure "integer_overflow"); Ok (VI64 z))
  | kind =>
      arg ← lift (ok_or (ag_arg call) (failure "bound_aggregate"));
      st ← mfor (agg_row kind arg) agg_init rows;
      lift (agg_result kind st)
  end.

(** A bucket: the values of the group's keys and its rows *)
Notation bucket := (vrow * list vrow)%type.
Fixpoint find_bucket (i : nat) (key : vrow) (buckets : list bucket) : exec (option nat) :=
  match buckets with
  | [] => mret None
  | (old, _) :: buckets' =>
      check ;; if row_eqb old key then mret (Some i) else find_bucket (S i) key buckets'
  end.
Definition add_to_bucket (groups : list BoundExpr) (buckets : list bucket) (row : vrow)
  : exec (list bucket) :=
  reserve (zlen groups * size_of_value + size_of_row) ;;
  key ← mtraverse (fun e => eval row e) groups;
  found ← find_bucket 0 key buckets;
  '(i, buckets) ←
    match found with
    | Some i => mret (i, buckets)
    | None => reserve 128 ;; mret (length buckets, buckets ++ [(key, [])])
    end;
  reserve (size_of_pointer * 2) ;;
  mret (alter (fun b => (b.1, b.2 ++ [row])) i buckets).
Definition finish_bucket (aggregates : list Aggregate) (out : list vrow) (b : bucket)
  : exec (list vrow) :=
  reserve (zlen aggregates * size_of_value + 2 * size_of_row) ;;
  values ← mtraverse (fun call => aggregate call b.2) aggregates;
  mret (out ++ [b.1 ++ values]).
Definition aggregate_rows (groups : list BoundExpr) (aggregates : list Aggregate)
  (input : list vrow) : exec (list vrow) :=
  buckets ← match groups with
            | [] => reserve 128 ;; mret [([], [])]
            | _ => mret []
            end;
  buckets ← mfor (add_to_bucket groups) buckets input;
  mfor (finish_bucket aggregates) [] buckets.
End Kernels.

(** ** What the kernels answer *)

Section KernelAnswers.
Context `{Clock, Layout, Unicode, StdSort}.
Variable hydrated : HydratedValuesV2.
Notation answer row e := (answer row hydrated e).
Notation answer_row exprs row := (traverse (fun e => answer row e) exprs).

Lemma push_clone_answers out row : answers (push_clone out row) (Ok (out ++ [row])).
Proof. apply answers_pay; [apply pays_reserve|apply answers_ret]. Qed.

(** A loop that appends what each row gives *)
Lemma try_for_concat {A B} (g : A -> query (list B)) l out :
  try_for (fun out a => bs ← g a; Ok (out ++ bs)) out l = (bss ← traverse g l; Ok (out ++ concat bss)).
Proof.
  revert out; induction l as [|a l IH]; intros out; cbn [traverse mbind result_bind concat].
  - by rewrite app_nil_r.
  - rewrite try_for_cons. destruct (g a) as [bs|e]; [|done]. cbn [mbind result_bind].
    rewrite IH. destruct (traverse g l); cbn; [|done]. by rewrite (assoc app).
Qed.
Lemma answers_append {A B} (f : list B -> A -> exec (list B)) (g : A -> query (list B)) l :
  (forall out a, a ∈ l -> answers (f out a) (bs ← g a; Ok (out ++ bs))) ->
  answers (mfor f [] l) (bss ← traverse g l; Ok (concat bss)).
Proof.
  intros Hf. eapply answers_ext; [by apply (answers_mfor _ (fun out a => bs ← g a; Ok (out ++ bs)))|].
  by rewrite try_for_concat.
Qed.

(** The rows the predicate is true on, in order *)
Definition filter_answer (predicate : BoundExpr) (input : list vrow) : query (list vrow) :=
  kept ← traverse (fun row => v ← answer row predicate; Ok (if is_true v then [row] else [])) input;
  Ok (concat kept).
Lemma filter_rows_answers predicate input :
  answers (filter_rows hydrated predicate input) (filter_answer predicate input).
Proof.
  apply answers_append. intros out row _.
  apply (answers_ext _ (v ← answer row predicate; Ok (out ++ if is_true v then [row] else []))).
  - apply answers_bind; [apply eval_answers|]. intros v _. destruct (is_true v).
    + apply push_clone_answers.
    + rewrite app_nil_r. apply answers_ret.
  - by destruct (answer row predicate).
Qed.

Definition project_answer (expressions : list BoundExpr) (input : list vrow) : query (list vrow) :=
  traverse (fun row => answer_row expressions row) input.
Lemma concat_singletons {A B} (g : A -> query B) l :
  (bss ← traverse (fun a => b ← g a; Ok [b]) l; Ok (concat bss)) = traverse g l.
Proof.
  induction l as [|a l IH]; [done|]. cbn [traverse]. rewrite <- IH. destruct (g a); [|done].
  cbn [mbind result_bind]. by destruct (traverse _ l).
Qed.
Lemma project_rows_answers expressions input :
  answers (project_rows hydrated expressions input) (project_answer expressions input).
Proof.
  eapply answers_ext; [|apply concat_singletons]. apply answers_append. intros out row _.
  apply answers_pay; [apply pays_reserve|].
  eapply answers_ext; [apply (answers_map _ (answer_row expressions row) (fun p => out ++ [p]))|].
  - apply answers_mtraverse. intros e _. apply eval_answers.
  - by destruct (answer_row expressions row).
Qed.

(** Distinct rows: a row stays when no equal row stayed before it. *)
Definition distinct_answer (input : list vrow) : list vrow :=
  foldl (fun out row => if existsb (fun old => row_eqb old row) out then out else out ++ [row])
    [] input.
Lemma row_exists_answers out row : answers (row_exists out row) (Ok (existsb (fun old => row_eqb old row) out)).
Proof.
  induction out as [|old out IH]; [apply answers_ret|]. cbn [row_exists existsb].
  apply answers_pay; [apply pays_check|]. destruct (row_eqb old row); [apply answers_ret|exact IH].
Qed.
Lemma try_for_foldl {A B} (g : B -> A -> B) b l : try_for (fun b a => Ok (g b a) : query B) b l = Ok (foldl g b l).
Proof. revert b; induction l as [|a l IH]; intros b; [done|]. rewrite try_for_cons. apply IH. Qed.
Lemma distinct_rows_answers input : answers (distinct_rows input) (Ok (distinct_answer input)).
Proof.
  eapply answers_ext; [|apply try_for_foldl]. apply answers_mfor. intros out row _.
  apply answers_pay; [apply pays_check|].
  apply (answers_ext _ (b ← Ok (existsb (fun old => row_eqb old row) out);
                        Ok (if b : bool then out else out ++ [row]))); [|done].
  apply answers_bind; [apply row_exists_answers|]. intros b _.
  destruct b; [apply answers_ret|apply push_clone_answers].
Qed.

Lemma copy_rows_answers out input : answers (copy_rows out input) (Ok (out ++ input)).
Proof.
  eapply answers_ext; [apply (answers_mfor _ (fun out row => Ok (out ++ [row])))|].
  - intros out' row _. apply push_clone_answers.
  - revert out; induction input as [|row input IH]; intros out; [by cbn; rewrite app_nil_r|].
    rewrite try_for_cons. cbn [mbind result_bind]. by rewrite IH, <- (assoc app).
Qed.
Lemma union_rows_answers inputs : answers (union_all_rows inputs) (Ok (concat inputs)).
Proof.
  unfold union_all_rows. change (concat inputs) with ([] ++ concat inputs).
  generalize (@nil vrow). induction inputs as [|i inputs IH]; intros out; cbn [mfor concat].
  - rewrite app_nil_r. apply answers_ret.
  - apply (answers_ext _ (o ← Ok (out ++ i); Ok (o ++ concat inputs))).
    + apply answers_bind; [apply copy_rows_answers|]. intros o _. apply IH.
    + cbn. by rewrite (assoc app).
Qed.
Lemma ztake_zskip {A} n (l : list A) : ztake n l ++ zskip n l = l.
Proof.
  revert n; induction l as [|a l IH]; intros n; cbn [ztake zskip]; [done|].
  destruct (n <=? 0); [done|]. cbn. by rewrite IH.
Qed.

(** A page and what it leaves out are the input: whatever two budgets allow,
    [take n] followed by [offset n] loses no row and repeats none. *)
Theorem take_offset_partition n input s t page s' rest t'
  (Hp : take_rows n input s = Ok (page, s')) (Hr : offset_rows n input t = Ok (rest, t')) :
  page ++ rest = input /\ zlen page = Z.min (Z.max 0 n) (zlen input).
Proof.
  apply (answers_Ok _ _ _ _ _ (copy_rows_answers [] _)) in Hp, Hr.
  injection Hp as <-. injection Hr as <-. split; [apply ztake_zskip|apply zlen_ztake].
Qed.

(** ** Joins *)

(** The matches of a row on the left, in the order of the right input *)
Definition join_matches (condition : BoundExpr) (left_ : vrow) (right_ : list vrow)
  : query (list vrow) := filter_answer condition (map (app left_) right_).
Definition join_emit (kind : JoinKind) (right_width : nat) (left_ : vrow) (matches : list vrow)
  : list vrow :=
  match kind, matches with
  | JoinInner, _ => matches
  | JoinLeft, [] => [left_ ++ replicate right_width VNull]
  | JoinLeft, _ => matches
  | JoinSemi, [] => []
  | JoinSemi, _ => [left_]
  | JoinAnti, [] => [left_]
  | JoinAnti, _ => []
  end.
Definition join_answer (kind : JoinKind) (condition : BoundExpr) (right_width : nat)
  (input right_ : list vrow) : query (list vrow) :=
  outs ← traverse (fun left_ =>
           m ← join_matches condition left_ right_; Ok (join_emit kind right_width left_ m)) input;
  Ok (concat outs).

Definition join_keep (kind : JoinKind) (rows : list vrow) : list vrow :=
  match kind with JoinInner | JoinLeft => rows | _ => [] end.
Lemma join_pairs_answers kind condition left_ right_ out :
  answers (mfor (join_pair hydrated kind condition left_) (false, out) right_)
    (m ← join_matches condition left_ right_;
     Ok (match m with [] => false | _ => true end, out ++ join_keep kind m)).
Proof.
  assert (forall b out, answers (mfor (join_pair hydrated kind condition left_) (b, out) right_)
    (m ← join_matches condition left_ right_;
     Ok (b || match m with [] => false | _ => true end, out ++ join_keep kind m))) as H3;
    [|apply (H3 false out)].
  unfold join_matches, filter_answer. clear out.
  induction right_ as [|r right_ IH]; intros b out; cbn [mfor map traverse].
  - cbn. rewrite orb_false_r. unfold join_keep. destruct kind; rewrite app_nil_r; apply answers_ret.
  - eapply answers_ext.
    + apply (answers_bind _ (v ← answer (left_ ++ r) condition;
        Ok (if is_true v then (true, out ++ join_keep kind [left_ ++ r]) else (b, out)))
        _ (fun bo => m ← join_matches condition left_ right_;
             Ok (bo.1 || match m with [] => false | _ => true end, bo.2 ++ join_keep kind m))).
      * unfold join_pair. apply answers_pay; [apply pays_reserve|].
        apply answers_bind; [apply eval_answers|]. intros v _. destruct (is_true v); [|apply answers_ret].
        destruct kind; cbn [join_keep]; rewrite ?app_nil_r;
          try (apply answers_pay; [apply pays_reserve|]); apply answers_ret.
      * intros [b' out'] _. apply IH.
    + unfold join_matches, filter_answer.
      destruct (answer (left_ ++ r) condition) as [v|e]; [|done]. cbn [mbind result_bind].
      destruct (is_true v); cbn [mbind result_bind];
        destruct (traverse _ (map _ right_)) as [ms|e]; cbn [mbind result_bind concat app]; try done.
      rewrite orb_true_r. cbn. destruct kind; cbn [join_keep]; by rewrite ?app_nil_r, <- ?(assoc app).
Qed.

(** Each kind of join emits for a row of the left input exactly what its definition
    says of the row's matches: all of them, all or a row of nulls, the row itself if
    there is one, or if there is none. *)
Lemma join_rows_answers kind condition right_width input right_ :
  answers (join_rows hydrated kind condition right_width input right_)
    (join_answer kind condition right_width input right_).
Proof.
  apply answers_append. intros out left_ _. unfold join_left.
  eapply answers_ext; [apply (answers_bind _ (m ← join_matches condition left_ right_;
    Ok (match m with [] => false | _ => true end, out ++ join_keep kind m)) _ (fun mo =>
    Ok (match kind, mo.1 with
        | JoinSemi, true | JoinAnti, false => mo.2 ++ [left_]
        | JoinLeft, false => mo.2 ++ [left_ ++ replicate right_width VNull]
        | _, _ => mo.2
        end))); [apply join_pairs_answers|]|].
  - intros [matched out'] _. cbn [fst snd].
    destruct kind, matched; try apply answers_ret; try apply push_clone_answers.
    apply answers_pay; [apply pays_reserve|apply answers_ret].
  - destruct (join_matches condition left_ right_) as [m|e]; [|done]. cbn [mbind result_bind fst snd].
    f_equal. destruct kind, m; cbn [join_keep join_emit]; by rewrite ?app_nil_r.
Qed.
End KernelAnswers.
