(* ===== verification/Relational.v ===== *)
(** * What the relational kernels compute

    The kernels of [Kernels.v] against the relational operators they implement:
    selection, joins, the order of a sort and the groups of an aggregation. *)
From Stdlib Require Import Sorted.
From S2P Require Export Kernels.
Local Open Scope Z_scope.

Section Selection.
Context `{Clock, Layout, Unicode, StdSort}.
Variable hydrated : HydratedValuesV2.

(** The condition is true on the row: neither false nor unknown. *)
Definition holds (condition : BoundExpr) (row : vrow) : bool :=
  match answer row hydrated condition with Ok v => is_true v | Err _ => false end.

Lemma filter_answer_Ok condition input out : filter_answer hydrated condition input = Ok out ->
  out = List.filter (holds condition) input.
Proof.
  unfold filter_answer, holds. intros (kept & Hk & [= <-])%bind_Ok. revert kept Hk.
  induction input as [|row input IH]; intros kept; cbn [traverse List.filter]; [by intros [= <-]|].
  destruct (answer row hydrated condition) as [v|e]; [|done]. cbn [mbind result_bind].
  destruct (traverse _ input) as [ks|e] eqn:Ht; [|done]. intros [= <-]. cbn [concat].
  rewrite (IH ks eq_refl). by destruct (is_true v).
Qed.

(** A filter returns the rows its condition is true on, all of them and in order. *)
Theorem filter_rows_spec condition input s out s'
  (Hf : filter_rows hydrated condition input s = Ok (out, s')) :
  out = List.filter (holds condition) input.
Proof.
  apply filter_answer_Ok. exact (answers_Ok _ _ _ _ _ (filter_rows_answers _ _ _) Hf).
Qed.

(** C37: A join is the concatenation, over the rows of the left input, of what its kind
    emits for the pairs its condition is true on. *)
Theorem join_rows_spec kind condition width input right_ s out s'
  (Hj : join_rows hydrated kind condition width input right_ s = Ok (out, s')) :
  out = concat (map (fun l => join_emit kind width l
          (List.filter (holds condition) (map (app l) right_))) input).
Proof.
  apply (answers_Ok _ _ _ _ _ (join_rows_answers _ _ _ _ _ _)) in Hj.
  unfold join_answer in Hj. apply bind_Ok in Hj as (outs & Ho & [= <-]). f_equal.
  apply traverse_Ok in Ho. induction Ho as [|l o ls os Hl _ IH]; [done|]. cbn [map].
  f_equal; [|exact IH]. apply bind_Ok in Hl as (m & Hm & [= <-]).
  by apply filter_answer_Ok in Hm as ->.
Qed.

(** One row of every class of equal rows *)
Definition representatives (input out : list vrow) : Prop :=
  sublist out input /\
  (forall i j a b, (i < j)%nat -> out !! i = Some a -> out !! j = Some b -> row_eqb a b = false) /\
  (forall row, row ∈ input -> row ∈ out \/ exists old, old ∈ out /\ row_eqb old row = true).
Lemma distinct_answer_app input row :
  distinct_answer (input ++ [row]) =
  if existsb (fun old => row_eqb old row) (distinct_answer input) then distinct_answer input
  else distinct_answer input ++ [row].
Proof. unfold distinct_answer. by rewrite foldl_app. Qed.
(** Distinct keeps one row of every class of equal rows: no row kept has an equal row
    before it, and every row of the input is kept or equals a row that is. *)
Theorem distinct_rows_spec input s out s' (Hd : distinct_rows input s = Ok (out, s')) :
  representatives input out.
Proof.
  apply (answers_Ok _ _ _ _ _ (distinct_rows_answers _)) in Hd. injection Hd as <-.
  induction input as [|row input IH] using rev_ind.
  { split_and!; [constructor|done|by intros row Hr%elem_of_nil]. }
  rewrite distinct_answer_app. destruct IH as (Hs & Hu & Hc).
  destruct (existsb _ _) eqn:He.
  - split_and!; [by apply sublist_inserts_r|done|].
    intros r [Hr| ->%list_elem_of_singleton]%elem_of_app; [by apply Hc|right].
    apply existsb_exists in He as (old & Hin & Heq). exists old. split; [by apply list_elem_of_In|done].
  - split_and!; [by apply sublist_app| |].
    + intros i j a b Hij Ha Hb. apply lookup_snoc_Some in Hb as [[Hj Hb]|[-> <-]].
      * rewrite lookup_app_l in Ha by lia. exact (Hu i j a b Hij Ha Hb).
      * rewrite lookup_app_l in Ha by lia.
        exact (existsb_In_false _ _ _ He (list_elem_of_lookup_2 _ _ _ Ha)).
    + intros r [Hr| ->%list_elem_of_singleton]%elem_of_app.
      * destruct (Hc r Hr) as [Hin|(old & Hin & Heq)]; [left; apply elem_of_app; by left|].
        right. exists old. split; [apply elem_of_app; by left|done].
      * left. apply elem_of_app. right. by left.
Qed.
End Selection.

(** ** Sorting *)

(** A total preorder on values that agrees with [compare] wherever that answers: by
    kind, then by value; floats by sign, exponent and mantissa. *)
Definition float_key (x : f64) : list Z :=
  match x with
  | S754_zero _ => [0]
  | S754_finite false m e => [1; e; Zpos m]
  | S754_finite true m e => [-1; - e; - Zpos m]
  | S754_infinity false => [2]
  | S754_infinity true => [-2]
  | S754_nan => [3]
  end.
Definition value_key (v : QueryValueV2) : list Z * string :=
  match v with
  | VBool b => ([0; if b then 1 else 0], EmptyString)
  | VI64 z => ([1; z], EmptyString)
  | VDecimalU64 z => ([2; z], EmptyString)
  | VF64 x => (3 :: float_key x, EmptyString)
  | VUtf8 s => ([4], s)
  | _ => ([5], EmptyString)
  end.
Definition value_order : QueryValueV2 -> QueryValueV2 -> comparison :=
  cmp_on (cmp_pair (cmp_list Z.compare) cmp_str) value_key.
#[export] Instance value_order_pre : CmpPre value_order.
Proof. apply cmp_on_pre, cmp_ord_pre. Qed.

Lemma str_refl s : cmp_str s s = Eq.
Proof. apply (cmp_refl cmp_str). Qed.
Lemma then_with_Eq c : then_with c Eq = c.
Proof. by destruct c. Qed.
Lemma float_key_order x y c : f64_partial_cmp x y = Some c ->
  cmp_list Z.compare (float_key x) (float_key y) = c.
Proof.
  unfold f64_partial_cmp. destruct x as [s|s| |s m e], y as [t|t| |t n k]; cbn; try done;
    try (destruct s; cbn; congruence); try (destruct t; cbn; congruence);
    try (destruct s, t; cbn; congruence).
  destruct s, t; cbn; try congruence; intros [= <-].
  - rewrite Z.compare_opp, (Z.compare_antisym e k).
    destruct (e ?= k); cbn; rewrite ?then_with_Eq; done.
  - destruct (e ?= k); cbn; rewrite ?then_with_Eq; done.
Qed.
Lemma value_compare_order a b c : value_compare a b = Ok c -> value_order a b = c.
Proof.
  unfold value_order, cmp_on, cmp_pair, cmp_then.
  destruct a, b; cbn [value_compare]; try done; cbn [value_key fst snd cmp_on].
  - intros [= <-]. by destruct b0, b.
  - intros [= <-]. cbn. by rewrite !then_with_Eq.
  - intros [= <-]. cbn. by rewrite !then_with_Eq.
  - intros Hc%ok_or_Ok%float_key_order. unfold cmp_on. cbn [fst snd cmp_list]. cbn. rewrite Hc.
    by rewrite then_with_Eq.
  - intros [= <-]. cbn. done.
Qed.

Definition null_rank (nulls : NullOrder) (v : QueryValueV2) : Z :=
  if value_eqb v VNull then match nulls with NullsFirst => -1 | NullsLast => 1 end else 0.
Definition directed (direction : SortDirection) (c : QueryValueV2 -> QueryValueV2 -> comparison)
  (a b : QueryValueV2) : comparison :=
  match direction with SortAsc => c a b | SortDesc => reverse (c a b) end.
#[export] Instance directed_pre direction c `{!CmpPre c} : CmpPre (directed direction c).
Proof.
  destruct direction; split; unfold directed, reverse.
  - intros a b. apply (cmp_antisym (c := c)).
  - intros a b d. apply (cmp_trans_le (c := c)).
  - intros a b. by rewrite (cmp_antisym (c := c) a b).
  - intros a b d. rewrite <- !(cmp_antisym (c := c)). intros H1 H2. exact (cmp_trans_le (c := c) d b a H2 H1).
Qed.
Definition key_order (direction : SortDirection) (nulls : NullOrder)
  : QueryValueV2 -> QueryValueV2 -> comparison :=
  cmp_then (cmp_on Z.compare (null_rank nulls)) (directed direction value_order).
Lemma key_compare_order direction nulls x y c :
  key_compare direction nulls x y = Ok c -> key_order direction nulls x y = c.
Proof.
  unfold key_compare, key_order, cmp_then, cmp_on, null_rank.
  destruct (value_eqb x VNull) eqn:Hx, (value_eqb y VNull) eqn:Hy.
  - intros [= <-]. destruct x, y; try done. cbn. by destruct nulls, direction.
  - intros [= <-]. by destruct nulls.
  - intros [= <-]. by destruct nulls.
  - intros (o & Ho%value_compare_order & [= <-])%bind_Ok. cbn. unfold directed. rewrite Ho.
    by destruct direction.
Qed.
Fixpoint keys_order (keys : list (SortDirection * NullOrder)) (a b : list QueryValueV2) : comparison :=
  match keys with
  | [] => Eq
  | (direction, nulls) :: keys' =>
      then_with (key_order direction nulls (hd VNull a) (hd VNull b)) (keys_order keys' (tl a) (tl b))
  end.
#[export] Instance keys_order_pre keys : CmpPre (keys_order keys).
Proof.
  induction keys as [|[d n] keys IH]; [by split|].
  apply (cmp_then_pre (cmp_on (key_order d n) (hd VNull)) (cmp_on (keys_order keys) tl)).
Qed.
Lemma keys_compare_order keys a b c : length a = length keys -> length b = length keys ->
  keys_compare keys a b = Ok c -> keys_order keys a b = c.
Proof.
  revert a b. induction keys as [|[d n] keys IH]; intros [|x a] [|y b]; cbn; try done; try congruence.
  intros [= Ha] [= Hb] (o & Ho%key_compare_order & H)%bind_Ok. rewrite Ho.
  destruct o; cbn; [by apply IH|congruence|congruence].
Qed.

(** ** Sorted lists *)

Lemma StronglySorted_impl {A B} (R : A -> A -> Prop) (R' : B -> B -> Prop) (f : A -> B) l :
  (forall a b, a ∈ l -> b ∈ l -> R a b -> R' (f a) (f b)) ->
  StronglySorted R l -> StronglySorted R' (map f l).
Proof.
  intros HR Hs. induction Hs as [|a l Hl IH Hf]; [constructor|]. cbn [map]. constructor.
  - apply IH. intros a' b' Ha Hb. apply HR; by right.
  - rewrite Forall_forall in Hf. apply Forall_forall. intros b (b' & -> & Hb)%list_elem_of_fmap.
    apply HR; [by left|by right|by apply Hf].
Qed.
Lemma StronglySorted_strict {A} (c : A -> A -> comparison) l :
  StronglySorted (fun a b => c a b <> Gt) l -> NoDup l ->
  (forall a b, a ∈ l -> b ∈ l -> c a b = Eq -> a = b) -> StronglySorted (fun a b => c a b = Lt) l.
Proof.
  intros Hs Hn He. induction Hs as [|a l Hl IH Hf]; [constructor|]. apply NoDup_cons in Hn as [Ha Hn].
  constructor; [apply IH; [done|]; intros x y Hx Hy; apply He; by right|].
  rewrite Forall_forall in Hf. apply Forall_forall. intros b Hb. specialize (Hf b Hb).
  destruct (c a b) eqn:E; [|done..].
  apply He in E as ->; [done|by left|by right].
Qed.
Lemma insert_by_ext {A} (c c' : A -> A -> comparison) a l :
  (forall b, b ∈ l -> c a b = c' a b) -> insert_by c a l = insert_by c' a l.
Proof.
  induction l as [|b l IH]; intros Hc; [done|]. cbn. rewrite Hc by left.
  rewrite IH; [done|]. intros b' Hb. apply Hc. by right.
Qed.
Lemma sort_by_ext {A} (c c' : A -> A -> comparison) l :
  (forall a b, a ∈ l -> b ∈ l -> c a b = c' a b) -> sort_by c l = sort_by c' l.
Proof.
  induction l as [|a l IH]; intros Hc; [done|].
  change (insert_by c a (sort_by c l) = insert_by c' a (sort_by c' l)). rewrite IH.
  - apply insert_by_ext. intros b Hb%elem_of_sort_by. apply Hc; [by left|by right].
  - intros x y Hx Hy. apply Hc; by right.
Qed.

Section Sorting.
Context `{Clock, Layout, Unicode, StdSort}.
Variable hydrated : HydratedValuesV2.
Variable scope : list QueryTypeV2.
Notation sort_key := (BoundExpr * SortDirection * NullOrder)%type.
Notation decorated := (nat * list QueryValueV2)%type.

(** What the binder guarantees of a sort key: a well-typed expression of an ordered
    type, its properties hydrated with values of their slots. *)
Definition sort_key_ok (k : sort_key) : Prop :=
  well_typed scope k.1.1 = true /\ ordered (be_ty k.1.1) = true /\
  hydrated_ok hydrated (be_fields k.1.1).
Definition sort_failure (keys : list sort_key) (e : QueryErrorV2) : Prop :=
  eval_failure e \/
  exists k, k ∈ keys /\ null_safe scope k.1.1 = false /\ e = failure "bound_type".

(** The values of the keys on a row *)
Definition key_values (keys : list sort_key) (row : vrow) : query (list QueryValueV2) :=
  traverse (fun k => answer row hydrated k.1.1) keys.
(** Row [i] comes before row [j]: the keys order them so, or they tie and [i] was first. *)
Definition precedes (keys : list sort_key) (input : list vrow) (i j : nat) : Prop :=
  exists r r' xs ys, input !! i = Some r /\ input !! j = Some r' /\
    key_values keys r = Ok xs /\ key_values keys r' = Ok ys /\
    (keys_compare (key_orders keys) xs ys = Ok Lt \/
     keys_compare (key_orders keys) xs ys = Ok Eq /\ (i < j)%nat).

Definition keys_typed (keys : list sort_key) (xs : list QueryValueV2) : Prop :=
  Forall2 (fun k x => has_type (be_ty k.1.1) x = true) keys xs.

Lemma float_compared x y : f64_is_finite x = true -> f64_is_finite y = true ->
  exists c, f64_partial_cmp x y = Some c.
Proof. destruct x, y; try done; intros _ _; eexists; reflexivity. Qed.
Lemma value_compared t a b : ordered t = true -> has_type (type_base t) a = true ->
  has_type (type_base t) b = true -> exists c, value_compare a b = Ok c.
Proof.
  unfold ordered. destruct (type_base t); try done; destruct a, b; try done; cbn; eauto.
  intros _ Hx Hy. destruct (float_compared _ _ Hx Hy) as [c ->]. by eexists.
Qed.
Lemma key_compared t d n a b : ordered t = true -> has_type t a = true -> has_type t b = true ->
  exists c, key_compare d n a b = Ok c.
Proof.
  intros Ho [[-> _]|Ha]%has_type_base [[-> _]|Hb]%has_type_base; unfold key_compare.
  - eauto.
  - cbn [value_eqb]. destruct (value_eqb b VNull); eauto.
  - destruct (value_eqb a VNull); cbn; eauto.
  - destruct (value_eqb a VNull), (value_eqb b VNull); eauto.
    destruct (value_compared t a b Ho Ha Hb) as [c ->]. cbn. eauto.
Qed.
Lemma keys_compared keys xs ys : Forall sort_key_ok keys -> keys_typed keys xs ->
  keys_typed keys ys -> exists c, keys_compare (key_orders keys) xs ys = Ok c.
Proof.
  intros Hk Hx. revert ys. induction Hx as [|[[e d] n] x keys xs Hx _ IH]; intros ys Hy.
  - inversion Hy. by eexists.
  - apply Forall_cons in Hk as [(_ & Ho & _) Hk]. apply Forall2_cons_inv_l in Hy as (y & ys' & Hy & Hys & ->).
    cbn. destruct (key_compared _ d n x y Ho Hx Hy) as [c ->]. cbn.
    destruct c; [by apply IH|eauto..].
Qed.

(** ** The sort's steps *)

Variable input : list vrow.
Hypothesis Hinput : Forall (row_ok scope) input.

Lemma eval_key_triple keys k row : Forall sort_key_ok keys -> k ∈ keys -> row_ok scope row ->
  triple (fun _ => True) (eval row hydrated k.1.1)
    (fun v _ => (has_type (be_ty k.1.1) v = true /\ answer row hydrated k.1.1 = Ok v) /\ True)
    (sort_failure keys).
Proof.
  intros Hks Hk Hrow s _. rewrite Forall_forall in Hks. destruct (Hks k Hk) as (Hw & _ & Hh).
  pose proof (eval_yields scope row hydrated Hrow _ Hw Hh s I) as Hy.
  pose proof (eval_answers row hydrated k.1.1 s) as Ha.
  destruct (eval row hydrated k.1.1 s) as [[v s']|e]; [done|].
  destruct Hy as [He|[He ->]]; [by left|right; by exists k].
Qed.

(** A decorated row: its position and the values of the keys on it *)
Definition decorated_ok (keys : list sort_key) (d : decorated) : Prop :=
  exists r, input !! d.1 = Some r /\ key_values keys r = Ok d.2 /\ keys_typed keys d.2.
Definition decorates (keys : list sort_key) (irow : nat * vrow) (d : decorated) : Prop :=
  d.1 = irow.1 /\ decorated_ok keys d.

Lemma decorate_triple keys irow : Forall sort_key_ok keys -> input !! irow.1 = Some irow.2 ->
  triple (fun _ => True) (decorate hydrated keys irow)
    (fun d _ => decorates keys irow d /\ True) (sort_failure keys).
Proof.
  intros Hks Hi. unfold decorate.
  apply (triple_bind _ _ _ (fun _ _ => True)); [apply reserve_triple; left; by left|]. intros _.
  assert (row_ok scope irow.2) as Hrow by (by eapply Forall_lookup_1).
  eapply triple_bind.
  - apply (triple_mtraverse _ (fun _ => True)
      (fun k v => has_type (be_ty k.1.1) v = true /\ answer irow.2 hydrated k.1.1 = Ok v)).
    intros k Hk. by apply eval_key_triple.
  - intros vs. apply triple_ret. intros s [Hvs _]. split; [|done]. split; [done|].
    exists irow.2. split_and!; [done| |].
    + apply traverse_Ok. eapply Forall2_impl; [exact Hvs|]. by intros ? ? [_ ?].
    + eapply Forall2_impl; [exact Hvs|]. by intros ? ? [? _].
Qed.

Lemma sort_call_triple keys l : Forall sort_key_ok keys -> Forall (decorated_ok keys) l ->
  triple (fun _ => True)
    (mfor (sort_call (key_orders keys) l) None (comparisons (length l)))
    (fun error _ => error = None \/ error = Some quota) (sort_failure keys).
Proof.
  intros Hks Hl. eapply triple_conseq.
  - apply (triple_mfor _ (fun error _ _ => error = None \/ error = Some quota) (sort_failure keys)).
    intros error [i j] k s He. unfold sort_call. cbn [fst snd].
    rewrite check_eq.
    destruct (l !! i) as [x|] eqn:Hx; [destruct (l !! j) as [y|] eqn:Hy|].
    + destruct (Forall_lookup_1 _ _ _ _ Hl Hx) as (_ & _ & _ & Htx).
      destruct (Forall_lookup_1 _ _ _ _ Hl Hy) as (_ & _ & _ & Hty).
      destruct (keys_compared keys x.2 y.2 Hks Htx Hty) as [c Hc].
      destruct (expired s); cbn; rewrite Hc; [by right|exact He].
    + destruct (expired s); [by right|exact He].
    + destruct (expired s); [by right|exact He].
  - intros s _. by left.
  - done.
  - done.
Qed.

Lemma emit_triple keys l : Forall (decorated_ok keys) l ->
  triple (fun _ => True)
    (mfor (fun out (d : decorated) =>
        row ← lift (ok_or (input !! d.1) (failure "bound_field"));
        push_clone out row) [] l)
    (fun out _ => Forall2 (fun d row => input !! d.1 = Some row) l out) (sort_failure keys).
Proof.
  intros Hl. eapply triple_conseq.
  - apply (triple_mfor _ (fun out rest _ => exists seen, l = seen ++ rest /\
      Forall2 (fun d row => input !! d.1 = Some row) seen out) (sort_failure keys)).
    intros out d rest s (seen & Heq & Hout).
    destruct (Forall_lookup_1 _ l (length seen) d Hl) as (r & Hr & _ & _).
    { rewrite Heq. by apply list_lookup_middle. }
    rewrite Hr.
    enough (triple (fun _ => True) (push_clone out r) (fun out _ => exists seen, l = seen ++ rest /\
      Forall2 (fun d row => input !! d.1 = Some row) seen out) (sort_failure keys)) as Ht
      by exact (Ht s I).
    apply (triple_bind _ _ _ (fun _ _ => True)); [apply reserve_triple; left; by left|]. intros _.
    apply triple_ret. intros s0 _. exists (seen ++ [d]). rewrite <- (assoc app). split; [done|].
    apply Forall2_app; [done|]. by constructor.
  - intros s _. by exists [].
  - intros out s (seen & Heq & Hout). rewrite app_nil_r in Heq. by subst.
  - done.
Qed.

(** The order of the sort as a total preorder, on the rows decorated *)
Definition row_order (keys : list sort_key) : decorated -> decorated -> comparison :=
  cmp_then (cmp_on (keys_order (key_orders keys)) snd) (cmp_on Nat.compare fst).
#[local] Instance row_order_pre keys : CmpPre (row_order keys).
Proof. apply cmp_then_pre; apply cmp_on_pre; [apply keys_order_pre|apply cmp_ord_pre]. Qed.

Lemma keys_typed_length keys xs : keys_typed keys xs -> length xs = length (key_orders keys).
Proof. intros Hx. unfold key_orders. rewrite length_map. by rewrite (Forall2_length _ _ _ Hx). Qed.
Lemma keys_compare_typed keys xs ys : Forall sort_key_ok keys -> keys_typed keys xs ->
  keys_typed keys ys ->
  keys_compare (key_orders keys) xs ys = Ok (keys_order (key_orders keys) xs ys).
Proof.
  intros Hk Hx Hy. destruct (keys_compared keys xs ys Hk Hx Hy) as [c Hc]. rewrite Hc. f_equal.
  symmetry. apply (keys_compare_order (key_orders keys)); [by apply keys_typed_length..|done].
Qed.
Lemma row_compare_order keys a b : Forall sort_key_ok keys -> decorated_ok keys a ->
  decorated_ok keys b -> row_compare (key_orders keys) a b = row_order keys a b.
Proof.
  intros Hk (_ & _ & _ & Ha) (_ & _ & _ & Hb). unfold row_compare.
  rewrite (keys_compare_typed keys a.2 b.2 Hk Ha Hb). unfold row_order, cmp_then, cmp_on.
  by destruct (keys_order _ _ _).
Qed.
Lemma row_order_precedes keys a b : Forall sort_key_ok keys -> decorated_ok keys a ->
  decorated_ok keys b -> row_order keys a b = Lt -> precedes keys input a.1 b.1.
Proof.
  intros Hk (r & Hr & Hra & Ha) (r' & Hr' & Hrb & Hb) Ho. exists r, r', a.2, b.2. split_and!; [done..|].
  rewrite (keys_compare_typed keys a.2 b.2 Hk Ha Hb). revert Ho.
  unfold row_order, cmp_then, cmp_on. destruct (keys_order _ _ _); cbn; [|by left|done].
  intros Hlt%Nat.compare_lt_iff. by right.
Qed.
Lemma row_order_Eq keys a b : row_order keys a b = Eq -> a.1 = b.1.
Proof.
  unfold row_order, cmp_then, cmp_on. destruct (keys_order _ _ _); cbn; [|done..].
  apply Nat.compare_eq.
Qed.

Lemma decorated_positions keys l : Forall2 (decorates keys) (imap pair input) l ->
  map fst l = seq 0 (length input).
Proof.
  intros Hl. transitivity (map fst (imap pair input)).
  - clear Hinput. induction Hl as [|ir d irs ds [Hd _] _ IH]; [done|]. cbn [map]. by rewrite Hd, IH.
  - apply list_eq. intros i. rewrite list_lookup_fmap, list_lookup_imap.
    destruct (decide (i < length input)%nat) as [Hi|Hi].
    + destruct (lookup_lt_is_Some_2 input i Hi) as [r Hr]. rewrite Hr. cbn.
      symmetry. by apply lookup_seq_lt.
    + rewrite lookup_ge_None_2 by lia. cbn. symmetry. apply lookup_ge_None_2. rewrite length_seq. lia.
Qed.
Lemma decorated_all_ok keys l : Forall2 (decorates keys) (imap pair input) l ->
  Forall (decorated_ok keys) l.
Proof. intros Hl. eapply Forall2_Forall_r; [exact Hl|]. by apply Forall_true; intros ? ? [_ ?]. Qed.

(** The sorted positions *)
Lemma sorted_positions keys l : Forall sort_key_ok keys ->
  Forall2 (decorates keys) (imap pair input) l ->
  map fst (sort_by (row_compare (key_orders keys)) l) ≡ₚ seq 0 (length input) /\
  StronglySorted (precedes keys input) (map fst (sort_by (row_compare (key_orders keys)) l)).
Proof.
  intros Hk Hl. pose proof (decorated_all_ok _ _ Hl) as Hok. rewrite Forall_forall in Hok.
  rewrite (sort_by_ext _ (row_order keys)) by (intros; apply row_compare_order; auto).
  pose proof (sort_by_Permutation (row_order keys) l) as Hp. split.
  - rewrite <- (decorated_positions _ _ Hl). by apply fmap_Permutation.
  - assert (NoDup (map fst (sort_by (row_order keys) l))) as Hnd.
    { rewrite (Permutation_map fst Hp), (decorated_positions _ _ Hl). apply NoDup_seq. }
    apply (StronglySorted_impl (fun a b => row_order keys a b = Lt)).
    + intros a b Ha%elem_of_sort_by Hb%elem_of_sort_by. apply row_order_precedes; auto.
    + apply StronglySorted_strict; [apply sort_by_sorted, _|by apply NoDup_fmap_1 in Hnd|].
      intros a b Ha Hb He%row_order_Eq.
      apply list_elem_of_lookup in Ha as [i Hi], Hb as [j Hj].
      assert (i = j) as <-; [|congruence].
      eapply (NoDup_lookup _ _ _ a.1 Hnd); rewrite list_lookup_fmap; [by rewrite Hi|].
      by rewrite Hj, He.
Qed.
End Sorting.

Lemma sort_rows_triple `{Clock, Layout, Unicode, StdSort} hydrated scope keys input
  (Hinput : Forall (row_ok scope) input) (Hkeys : Forall (sort_key_ok hydrated scope) keys) :
  triple (fun _ => True) (sort_rows hydrated keys input) (fun out _ => exists order,
    order ≡ₚ seq 0 (length input) /\ StronglySorted (precedes hydrated keys input) order /\
    Forall2 (fun i row => input !! i = Some row) order out) (sort_failure scope keys).
Proof.
  eapply triple_bind.
  { apply (triple_mtraverse _ (fun _ => True) (decorates hydrated input keys)).
    intros [i row] Hi. apply decorate_triple; [done..|].
    apply list_elem_of_lookup in Hi as [j Hj]. rewrite list_lookup_imap in Hj.
    destruct (input !! j) as [r|] eqn:Hr; [|done]. by injection Hj as <- <-. }
  intros l s [Hl _]. pose proof (decorated_all_ok _ _ _ _ Hl) as Hok.
  rewrite sm_bind_eq. pose proof (sort_call_triple _ _ _ keys l Hkeys Hok s I) as Hc.
  destruct (mfor (sort_call _ _) _ _ s) as [[error s1]|e]; [|exact Hc].
  destruct Hc as [->| ->]; [|left; by left].
  assert (Forall (decorated_ok hydrated input keys) (sort_by (row_compare (key_orders keys)) l)) as Hso
    by (rewrite Forall_forall in Hok |- *; intros d Hd%elem_of_sort_by; auto).
  pose proof (emit_triple _ scope _ keys _ Hso s1 I) as He.
  destruct (mfor _ [] _ s1) as [[out s2]|e]; [|exact He].
  destruct (sorted_positions _ _ _ keys l Hkeys Hl) as [Hp Hs].
  eexists. split_and!; [exact Hp|exact Hs|]. by apply Forall2_fmap_l.
Qed.


(** ** Aggregation *)

Section Aggregation.
Context `{Clock, Layout, Unicode, StdSort}.
Variable hydrated : HydratedValuesV2.
Notation bucket := (vrow * list vrow)%type.

(** The aggregate of a group's rows *)
Definition agg_row_answer (kind : AggregateKind) (arg : BoundExpr) (st : agg_state) (row : vrow)
  : query agg_state :=
  value ← answer row hydrated arg;
  match kind with
  | ACollect => Ok {| as_count := as_count st; as_sum := as_sum st; as_extremum := as_extremum st;
                      as_collected := as_collected st ++ [value] |}
  | _ => agg_fold kind st value
  end.
Definition aggregate_answer (call : Aggregate) (rows : list vrow) : query QueryValueV2 :=
  match ag_kind call with
  | ACountAll => z ← ok_or (i64_try (zlen rows)) (failure "integer_overflow"); Ok (VI64 z)
  | kind =>
      arg ← ok_or (ag_arg call) (failure "bound_aggregate");
      st ← try_for (agg_row_answer kind arg) agg_init rows;
      agg_result kind st
  end.
Lemma agg_row_answers kind arg st row :
  answers (agg_row hydrated kind arg st row) (agg_row_answer kind arg st row).
Proof.
  apply answers_pay; [apply pays_check|]. apply answers_bind; [apply eval_answers|]. intros v _.
  destruct kind; try exact (answers_lift _).
  intros s. rewrite sm_bind_eq. cbn [get]. destruct (_ <=? _); [by left|]. revert s.
  apply answers_pay; [apply pays_reserve|apply answers_ret].
Qed.
Lemma aggregate_answers call rows : answers (aggregate hydrated call rows) (aggregate_answer call rows).
Proof.
  unfold aggregate, aggregate_answer. destruct (ag_kind call); try exact (answers_lift _).
  all: apply answers_bind; [apply answers_lift|]; intros arg _.
  all: apply answers_bind; [apply answers_mfor; intros; apply agg_row_answers|].
  all: intros st _; apply answers_lift.
Qed.

(** The group of a row: the first bucket with an equal key, or a new one *)
Definition group_key (groups : list BoundExpr) (row : vrow) : query vrow :=
  traverse (fun e => answer row hydrated e) groups.
Fixpoint bucket_index (i : nat) (key : vrow) (buckets : list bucket) : option nat :=
  match buckets with
  | [] => None
  | b :: buckets' => if row_eqb b.1 key then Some i else bucket_index (S i) key buckets'
  end.
Definition add_row (buckets : list bucket) (key row : vrow) : list bucket :=
  match bucket_index 0 key buckets with
  | Some i => alter (fun b => (b.1, b.2 ++ [row])) i buckets
  | None => buckets ++ [(key, [row])]
  end.
Lemma find_bucket_answers i key buckets :
  answers (find_bucket i key buckets) (Ok (bucket_index i key buckets)).
Proof.
  revert i; induction buckets as [|[old rows] buckets IH]; intros i; [apply answers_ret|].
  cbn [find_bucket bucket_index fst]. apply answers_pay; [apply pays_check|].
  destruct (row_eqb old key); [apply answers_ret|apply IH].
Qed.
Lemma add_to_bucket_answers groups buckets row :
  answers (add_to_bucket hydrated groups buckets row)
    (key ← group_key groups row; Ok (add_row buckets key row)).
Proof.
  apply answers_pay; [apply pays_reserve|].
  apply answers_bind; [apply answers_mtraverse; intros; apply eval_answers|]. intros key _.
  apply (answers_ext _ (found ← Ok (bucket_index 0 key buckets); Ok (add_row buckets key row))); [|done].
  apply answers_bind; [apply find_bucket_answers|]. intros found [= <-]. unfold add_row.
  destruct (bucket_index 0 key buckets) as [i|].
  - apply (answers_pay _ _ _ (pays_reserve _)), answers_ret.
  - intros s. rewrite sm_bind_eq. 
    pose proof (pays_reserve 128 s I) as Hp. rewrite sm_bind_eq.
    destruct (reserve 128 s) as [[[] s']|e]; [|by left]. rewrite sm_ret_eq.
    apply (answers_pay _ _ (Ok (buckets ++ [(key, [row])])) (pays_reserve _)).
    eapply answers_ext; [apply answers_ret|]. f_equal.
    rewrite alter_app_r_alt by lia. by rewrite Nat.sub_diag.
Qed.

(** A group: its key is that of its first row, and the keys of the others equal it. *)
Definition group_ok (groups : list BoundExpr) (b : bucket) : Prop :=
  exists row rows, b.2 = row :: rows /\ group_key groups row = Ok b.1 /\
    Forall (fun r => exists key, group_key groups r = Ok key /\ row_eqb b.1 key = true) rows.
Definition grouping (groups : list BoundExpr) (input : list vrow) (buckets : list bucket) : Prop :=
  concat (map snd buckets) ≡ₚ input /\ Forall (fun b => sublist b.2 input) buckets /\
  Forall (group_ok groups) buckets /\
  forall i j a b, (i < j)%nat -> buckets !! i = Some a -> buckets !! j = Some b ->
    row_eqb a.1 b.1 = false.

Lemma bucket_index_Some i key buckets j : bucket_index i key buckets = Some j ->
  exists b, buckets !! (j - i)%nat = Some b /\ (i <= j)%nat /\ row_eqb b.1 key = true.
Proof.
  revert i; induction buckets as [|b buckets IH]; intros i; [done|]. cbn [bucket_index].
  destruct (row_eqb b.1 key) eqn:E.
  - intros [= ->]. exists b. rewrite Nat.sub_diag. split_and!; [done|lia|done].
  - intros (b' & Hb & Hi & He)%IH. exists b'. replace (j - i)%nat with (S (j - S i)) by lia.
    split_and!; [done|lia|done].
Qed.
Lemma bucket_index_None i key buckets : bucket_index i key buckets = None ->
  Forall (fun b => row_eqb b.1 key = false) buckets.
Proof.
  revert i; induction buckets as [|b buckets IH]; intros i; [constructor|]. cbn [bucket_index].
  destruct (row_eqb b.1 key) eqn:E; [done|]. intros Hn%IH. by constructor.
Qed.

Lemma concat_alter_snoc (buckets : list bucket) i b row : buckets !! i = Some b ->
  concat (map snd (alter (fun b => (b.1, b.2 ++ [row])) i buckets)) ≡ₚ concat (map snd buckets) ++ [row].
Proof.
  revert i; induction buckets as [|b0 buckets IH]; intros [|i] Hb; [done..| |].
  - cbn. rewrite <- !(assoc app). f_equiv. apply Permutation_app_comm.
  - cbn in Hb |- *. by rewrite (IH i Hb), (assoc app).
Qed.
Lemma add_row_grouping groups input buckets key row : group_key groups row = Ok key ->
  grouping groups input buckets -> grouping groups (input ++ [row]) (add_row buckets key row).
Proof.
  intros Hkey (Hp & Hs & Hg & Hd). unfold add_row.
  assert (Forall (fun b : bucket => sublist b.2 (input ++ [row])) buckets) as Hs'
    by (eapply Forall_impl; [exact Hs|]; intros b Hb; by apply sublist_inserts_r).
  destruct (bucket_index 0 key buckets) as [i|] eqn:Hi.
  - apply bucket_index_Some in Hi as (b & Hb & _ & He). rewrite Nat.sub_0_r in Hb.
    pose proof (Forall_lookup_1 _ _ _ _ Hs Hb) as Hsb. pose proof (Forall_lookup_1 _ _ _ _ Hg Hb) as Hgb.
    split_and!.
    + by rewrite (concat_alter_snoc _ _ _ _ Hb), Hp.
    + apply Forall_alter; [done|]. intros b' Hb' _. simplify_eq. cbn. by apply sublist_app.
    + apply Forall_alter; [done|]. intros b' Hb' _. simplify_eq.
      destruct Hgb as (r & rs & Hr & Hk & Hrs). exists r, (rs ++ [row]). cbn [fst snd]. rewrite Hr.
      split_and!; [done..|]. apply Forall_app. split; [done|]. constructor; [by exists key|constructor].
    + intros m n a c Hmn Ha Hc.
      assert (forall k x, alter (fun b : bucket => (b.1, b.2 ++ [row])) i buckets !! k = Some x ->
        exists y, buckets !! k = Some y /\ x.1 = y.1) as Hfst.
      { intros k x. rewrite list_lookup_alter. case_decide as Hk; [subst k|by eauto].
        intros (y & Hy & ->)%fmap_Some. eauto. }
      destruct (Hfst _ _ Ha) as (a' & Ha' & ->), (Hfst _ _ Hc) as (c' & Hc' & ->). eauto.
  - apply bucket_index_None in Hi. split_and!.
    + rewrite map_app, concat_app, Hp. done.
    + apply Forall_app. split; [done|]. constructor; [|constructor]. cbn.
      by apply sublist_inserts_l.
    + apply Forall_app. split; [done|]. constructor; [|constructor]. exists row, [].
      split_and!; [done|done|constructor].
    + intros m n a c Hmn Ha Hc. apply lookup_snoc_Some in Hc as [[Hn Hc]|[-> <-]].
      * rewrite lookup_app_l in Ha by lia. eauto.
      * rewrite lookup_app_l in Ha by lia. exact (Forall_lookup_1 _ _ _ _ Hi Ha).
Qed.

Lemma fold_grouping groups seen input buckets buckets' :
  try_for (fun buckets row => key ← group_key groups row; Ok (add_row buckets key row)) buckets input
    = Ok buckets' ->
  grouping groups seen buckets -> grouping groups (seen ++ input) buckets'.
Proof.
  revert seen buckets; induction input as [|row input IH]; intros seen buckets.
  - intros [= <-]. by rewrite app_nil_r.
  - rewrite try_for_cons. destruct (group_key groups row) as [key|] eqn:Hk; [|done].
    cbn [mbind result_bind]. intros Hf Hg. rewrite cons_middle, (assoc app).
    by eapply IH, add_row_grouping.
Qed.
Lemma grouping_nil groups : grouping groups [] [].
Proof. split_and!; [done|constructor|constructor|done]. Qed.
Lemma fold_ungrouped rows input buckets :
  try_for (fun buckets row => key ← group_key [] row; Ok (add_row buckets key row)) [([], rows)] input
    = Ok buckets -> buckets = [([], rows ++ input)].
Proof.
  revert rows; induction input as [|row input IH]; intros rows.
  - intros [= <-]. by rewrite app_nil_r.
  - rewrite try_for_cons. cbn [group_key traverse mbind result_bind add_row bucket_index fst].
    intros Hf%IH. by rewrite Hf, <- (assoc app).
Qed.

(** The row of a group: its key and the aggregates of its rows *)
Definition group_row (aggregates : list Aggregate) (b : bucket) : query vrow :=
  values ← traverse (fun call => aggregate_answer call b.2) aggregates;
  Ok (b.1 ++ values).
Lemma finish_answers aggregates buckets :
  answers (mfor (finish_bucket hydrated aggregates) [] buckets) (traverse (group_row aggregates) buckets).
Proof.
  eapply answers_ext; [|apply concat_singletons]. apply answers_append. intros out b _.
  apply answers_pay; [apply pays_reserve|].
  eapply answers_ext; [apply (answers_map _ (traverse (fun call => aggregate_answer call b.2) aggregates)
    (fun values => out ++ [b.1 ++ values]))|].
  - apply answers_mtraverse. intros call _. apply aggregate_answers.
  - unfold group_row. by destruct (traverse _ aggregates).
Qed.
Lemma aggregate_rows_answers groups aggregates input :
  answers (aggregate_rows hydrated groups aggregates input)
    (buckets ← try_for (fun buckets row => key ← group_key groups row; Ok (add_row buckets key row))
       (match groups with [] => [([], [])] | _ => [] end) input;
     traverse (group_row aggregates) buckets).
Proof.
  apply (answers_ext _ (buckets0 ← Ok (match groups with [] => [([], [])] | _ => [] end);
    buckets ← try_for (fun buckets row => key ← group_key groups row; Ok (add_row buckets key row))
       buckets0 input;
    traverse (group_row aggregates) buckets)); [|done].
  apply answers_bind.
  - destruct groups; [apply answers_pay; [apply pays_reserve|]|]; apply answers_ret.
  - intros buckets0 _. apply answers_bind.
    + apply answers_mfor. intros. apply add_to_bucket_answers.
    + intros buckets _. apply finish_answers.
Qed.

(** C25: An aggregation answers one row for every group: the groups partition the input,
    every group's rows stay in the input's order and share its key, no two groups have
    equal keys, and a row is the group's key followed by the aggregates of exactly its
    rows. Without grouping expressions there is one group, of all the rows, even when
    there are none. *)
Theorem aggregate_rows_spec groups aggregates input s out s'
  (Ha : aggregate_rows hydrated groups aggregates input s = Ok (out, s')) :
  exists buckets, Forall2 (fun b row => group_row aggregates b = Ok row) buckets out /\
    (groups = [] -> buckets = [([], input)]) /\
    (groups <> [] -> grouping groups input buckets).
Proof.
  apply (answers_Ok _ _ _ _ _ (aggregate_rows_answers _ _ _)) in Ha.
  apply bind_Ok in Ha as (buckets & Hb & Ho%traverse_Ok). exists buckets.
  split; [done|]. destruct groups as [|e groups].
  - split; [|done]. intros _. by apply fold_ungrouped in Hb.
  - split; [done|]. intros _. exact (fold_grouping _ [] _ _ _ Hb (grouping_nil _)).
Qed.
End Aggregation.

(** ** Examples *)

(** Every pair of positions *)
Definition sample_sort : StdSort :=
  {| comparisons n := list_prod (seq 0 n) (seq 0 n) |}.
#[local] Existing Instances sample_clock sample_layout sample_unicode sample_sort.
Definition sample_condition : BoundExpr :=
  Bound TBool (KBinary OLt (Bound TI64 (KField 0)) (Bound TI64 (KField 1))).
Definition sample_rows : list vrow :=
  [[VI64 1; VI64 5]; [VI64 7; VI64 2]; [VI64 1; VI64 0]; [VI64 1; VI64 5]; [VI64 0; VI64 0]].
Definition sample_keys : list (BoundExpr * SortDirection * NullOrder) :=
  [(Bound TI64 (KField 0), SortDesc, NullsFirst)].
Definition sample_aggregates : list Aggregate :=
  [{| ag_kind := ASum; ag_arg := Some (Bound TI64 (KField 1)) |}; {| ag_kind := ACountAll; ag_arg := None |}].

Example sorted_rows :
  value_of (sort_rows ∅ sample_keys sample_rows sample_budget) =
  Ok [[VI64 7; VI64 2]; [VI64 1; VI64 5]; [VI64 1; VI64 0]; [VI64 1; VI64 5]; [VI64 0; VI64 0]].
Proof. vm_compute. reflexivity. Qed.
Example aggregated_rows :
  value_of (aggregate_rows ∅ [Bound TI64 (KField 0)] sample_aggregates sample_rows sample_budget) =
  Ok [[VI64 1; VI64 10; VI64 3]; [VI64 7; VI64 2; VI64 1]; [VI64 0; VI64 0; VI64 1]].
Proof. vm_compute. reflexivity. Qed.
Example left_joined_rows :
  value_of (join_rows ∅ JoinLeft sample_condition 1 [[VI64 1]; [VI64 9]] [[VI64 5]; [VI64 3]]
    sample_budget) =
  Ok [[VI64 1; VI64 5]; [VI64 1; VI64 3]; [VI64 9; VNull]].
Proof. vm_compute. reflexivity. Qed.

(** The rows of a run that completes *)
Definition run_of {A} (m : exec A) : option (A * ExecutionBudgetV2) :=
  match m sample_budget with Ok r => Some r | Err _ => None end.
Lemma run_of_Ok {A} (m : exec A) r : run_of m = Some r -> m sample_budget = Ok r.
Proof. unfold run_of. by destruct (m sample_budget) as [?|?]; intros [= ->]. Qed.

Lemma filter_rows_spec_witness :
  [[VI64 1; VI64 5]; [VI64 1; VI64 5]] =
  List.filter (holds ∅ sample_condition) sample_rows.
Proof.
  destruct (run_of (filter_rows ∅ sample_condition sample_rows)) as [[out s']|] eqn:Hr;
    [|vm_compute in Hr; discriminate].
  transitivity out; [by vm_compute in Hr; injection Hr as <- _|].
  exact (filter_rows_spec _ _ _ _ _ _ (run_of_Ok _ _ Hr)).
Defined.
Lemma join_rows_spec_witness :
  [[VI64 9; VNull]] =
  concat (map (fun l => join_emit JoinLeft 1 l (List.filter (holds ∅ sample_condition)
    (map (app l) [[VI64 5]; [VI64 3]]))) [[VI64 9]]).
Proof.
  destruct (run_of (join_rows ∅ JoinLeft sample_condition 1 [[VI64 9]] [[VI64 5]; [VI64 3]]))
    as [[out s']|] eqn:Hr; [|vm_compute in Hr; discriminate].
  transitivity out; [by vm_compute in Hr; injection Hr as <- _|].
  exact (join_rows_spec _ _ _ _ _ _ _ _ _ (run_of_Ok _ _ Hr)).
Defined.
Lemma distinct_rows_spec_witness : exists out, length out = 4%nat /\ sublist out sample_rows.
Proof.
  destruct (run_of (distinct_rows sample_rows)) as [[out s']|] eqn:Hr;
    [|vm_compute in Hr; discriminate].
  exists out. split; [by vm_compute in Hr; injection Hr as <- _|].
  exact (proj1 (distinct_rows_spec _ _ _ _ (run_of_Ok _ _ Hr))).
Defined.
Lemma take_offset_partition_witness : exists page rest,
  length page = 2%nat /\ page ++ rest = sample_rows.
Proof.
  destruct (run_of (take_rows 2 sample_rows)) as [[page s']|] eqn:Hp; [|vm_compute in Hp; discriminate].
  destruct (run_of (offset_rows 2 sample_rows)) as [[rest t']|] eqn:Hr; [|vm_compute in Hr; discriminate].
  exists page, rest. split; [by vm_compute in Hp; injection Hp as <- _|].
  exact (proj1 (take_offset_partition 2 _ _ _ _ _ _ _ (run_of_Ok _ _ Hp) (run_of_Ok _ _ Hr))).
Defined.
Lemma aggregate_rows_spec_witness : exists buckets,
  grouping ∅ [Bound TI64 (KField 0)] sample_rows buckets /\
  Forall2 (fun b row => group_row ∅ sample_aggregates b = Ok row) buckets
    [[VI64 1; VI64 10; VI64 3]; [VI64 7; VI64 2; VI64 1]; [VI64 0; VI64 0; VI64 1]].
Proof.
  destruct (run_of (aggregate_rows ∅ [Bound TI64 (KField 0)] sample_aggregates sample_rows))
    as [[out s']|] eqn:Hr; [|vm_compute in Hr; discriminate].
  destruct (aggregate_rows_spec _ _ _ _ _ _ _ (run_of_Ok _ _ Hr)) as (buckets & Ho & _ & Hg).
  exists buckets. split; [by apply Hg|]. vm_compute in Hr. by injection Hr as <- _.
Defined.
