(* ===== verification/PathKernels.v ===== *)
(** * Path kernels

    [src/src/query/hql2/exec.rs], lines 1276 to 1607, 1951 to 2092 and 2358 to 2465: the
    search for bounded paths in a graph snapshot, one pattern or a sequence of them, and the
    four operators that turn paths into rows. *)
From S2P Require Export Kernels.
Local Open Scope Z_scope.

(** ** Loops without a bound of their own *)

(** [while let Some(..) = pending.pop()]: at most [2 ^ k] rounds of a loop. *)
Fixpoint rounds {S R : Type} (step : S -> exec (S + R)) (k : nat) (s : S) : exec (S + R) :=
  match k with
  | O => step s
  | Datatypes.S k =>
      r ← rounds step k s;
      match r with inl s' => rounds step k s' | inr a => mret (inr a) end
  end.

(** [size_of::<SequencePathV2>()] *)
Class PathLayout := { size_of_sequence_path : Z; size_of_sequence_path_pos : 0 <= size_of_sequence_path }.

(** ** Orders *)

Fixpoint compare_zip (left_ right_ : list RecordRefV2) : comparison :=
  match left_, right_ with
  | l :: left_, r :: right_ =>
      then_with
        (then_with (cmp_str (rr_database_id l) (rr_database_id r))
          (then_with (cmp_str (rr_namespace l) (rr_namespace r))
            (then_with (cmp_str (rr_id l) (rr_id r)) (cmp_str (rr_revision l) (rr_revision r)))))
        (compare_zip left_ right_)
  | _, _ => Eq
  end.
Definition compare_record_refs (left_ right_ : list RecordRefV2) : comparison :=
  then_with (compare_zip left_ right_) (Nat.compare (length left_) (length right_)).

(** Vertices and edges of a path *)
Notation CompactPathV2 := (list RecordRefV2 * list RecordRefV2)%type.
Definition path_compare (left_ right_ : CompactPathV2) : comparison :=
  then_with (Nat.compare (length left_.2) (length right_.2))
    (then_with (compare_record_refs left_.2 right_.2) (compare_record_refs left_.1 right_.1)).

(** ** One pattern *)

(** The vertex an edge leads to, in the direction of the pattern *)
Definition next_vertex (direction : Direction) (current : RecordRefV2) (edge : GraphEdgeV2)
  : option RecordRefV2 :=
  match direction with
  | DirOut => if bool_decide (ge_source edge = current) then Some (ge_target edge) else None
  | DirIn => if bool_decide (ge_target edge = current) then Some (ge_source edge) else None
  | DirBoth => if bool_decide (ge_source edge = current) then Some (ge_target edge)
               else if bool_decide (ge_target edge = current) then Some (ge_source edge) else None
  end.
(** [iter().any(|used| used.id == record.id)] *)
Definition id_used (record : RecordRefV2) (used : list RecordRefV2) : bool :=
  existsb (fun u => bool_decide (rr_id u = rr_id record)) used.
Definition relation_allowed (pattern : CompactPattern) (edge : GraphEdgeV2) : bool :=
  bool_decide (cpa_relations pattern = []) || bool_decide (ge_relation edge ∈ cpa_relations pattern).

Section Paths.
Context `{Clock, Layout}.
Variable graph : GraphSnapshotV2.

(** [size_of::<RecordRefV2>()] for every vertex and every edge *)
Definition path_charge (vertices edges : Z) : Z :=
  u64_saturating_mul vertices size_of_ref +sat u64_saturating_mul edges size_of_ref.

(** The start of the paths of a row, [None] where there are none *)
Definition path_start (row : vrow) (start_index : nat) : query (option RecordRefV2) :=
  match row !! start_index with
  | Some (VEntity record) =>
      Ok (if bool_decide (bt_get cmp_str (rr_id record) (gs_nodes graph) = Some record)
          then Some record else None)
  | Some VNull => Ok None
  | _ => Err (failure "bound_type")
  end.

Section Pattern.
Variable pattern : CompactPattern.

(** The body of [for edge in &graph.edges]; the stack's top is the head of [pending]. *)
Definition expand_edge (vertices edges : list RecordRefV2) (current : RecordRefV2)
  (pending : list CompactPathV2) (edge : GraphEdgeV2) : exec (list CompactPathV2) :=
  reserve_expanded_edges 1 ;;
  if negb (relation_allowed pattern edge) then mret pending
  else match next_vertex (cpa_direction pattern) current edge with
       | None => mret pending
       | Some next =>
           if bool_decide (cpa_mode pattern = ModeTrail) && id_used (ge_edge edge) edges
           then mret pending
           else if bool_decide (cpa_mode pattern = ModeSimple) && id_used next vertices
           then mret pending
           else
             reserve (path_charge (zlen vertices + 1) (zlen edges + 1)) ;;
             mret ((vertices ++ [next], edges ++ [ge_edge edge]) :: pending)
       end.

Variable row : vrow.
Variable end_index : option nat.

Definition endpoint_matches (current : RecordRefV2) : bool :=
  match end_index with
  | Some index => match row !! index with
                  | Some v => value_eqb v (VEntity current)
                  | None => false
                  end
  | None => true
  end.
(** One round of [while let Some((vertices, edges)) = pending.pop()] *)
Definition expand_round (st : list CompactPathV2 * list CompactPathV2)
  : exec ((list CompactPathV2 * list CompactPathV2) + list CompactPathV2) :=
  let '(pending, matches) := st in
  match pending with
  | [] => mret (inr matches)
  | (vertices, edges) :: pending =>
      reserve_expanded_nodes 1 ;;
      current ← lift (ok_or (last vertices) (failure "expand_path"));
      matches ←
        if (cpa_min_hops pattern <=? zlen edges) && endpoint_matches current then
          reserve (path_charge (zlen vertices) (zlen edges)) ;;
          mret (matches ++ [(vertices, edges)])
        else mret matches;
      if cpa_max_hops pattern <=? zlen edges then mret (inl (pending, matches))
      else
        pending ← mfor (expand_edge vertices edges current) pending (gs_edges graph);
        mret (inl (pending, matches))
  end.
(** [2] to this power is more than the paths of at most [max_hops] edges and one round. *)
Definition expand_fuel : nat :=
  S (Z.to_nat (cpa_max_hops pattern) * Nat.log2_up (S (length (gs_edges graph)))).
Definition compact_expand_paths (start_index : nat) : exec (list CompactPathV2) :=
  start ← lift (path_start row start_index);
  match start with
  | None => mret []
  | Some start =>
      r ← rounds expand_round expand_fuel ([([start], [])], []);
      match r with
      | inl _ => fail (failure "fuel")
      | inr matches => mret (sort_by path_compare matches)
      end
  end.
End Pattern.

Context `{Unicode, PathLayout}.
Variable hydrated : HydratedValuesV2.

(** ** A sequence of patterns *)

Fixpoint has_labels (labels : list string) (wanted : list string) : exec bool :=
  match wanted with
  | [] => mret true
  | label :: wanted =>
      reserve (zstr label +sat 16) ;;
      if negb (bool_decide (label ∈ labels)) then mret false else has_labels labels wanted
  end.
(** The identifier, the labels and the properties of a constraint, the first failure stops. *)
Definition matches_sequence_node (constraint_ : BoundSequenceNode) (record : RecordRefV2)
  (input_row : vrow) : exec bool :=
  if negb (is_Some_b (bn_id constraint_)) && bool_decide (bn_labels constraint_ = [])
     && match bn_properties constraint_ with [] => true | _ => false end
  then mret true
  else
    reserve_expanded_nodes 1 ;;
    id_ok ←
      match bn_id constraint_ with
      | None => mret true
      | Some expression =>
          value ← eval input_row hydrated expression;
          match value with
          | VUtf8 id =>
              reserve (zstr (rr_id record) +sat zstr id) ;; mret (bool_decide (id = rr_id record))
          | VNull => mret false
          | _ => fail (failure "pattern_id_type")
          end
      end;
    if negb (id_ok : bool) then mret false
    else
      labels_ok ←
        match bn_labels constraint_ with
        | [] => mret true
        | wanted =>
            labels ← lift (ok_or (bt_get cmp_str (rr_id record) (gs_node_labels graph))
                             (failure "graph_node_labels"));
            has_labels labels wanted
        end;
      if negb (labels_ok : bool) then mret false
      else matches_pattern_properties input_row hydrated (bn_properties constraint_) record.

Record SequencePathV2 := {
  sp_row : vrow;
  sp_vertices : list RecordRefV2;
  sp_edges : list RecordRefV2;
  sp_step_lengths : list nat;
}.
Definition sequence_compare (left_ right_ : SequencePathV2) : comparison :=
  then_with (Nat.compare (length (sp_edges left_)) (length (sp_edges right_)))
    (then_with (compare_record_refs (sp_edges left_) (sp_edges right_))
      (then_with (compare_record_refs (sp_vertices left_) (sp_vertices right_))
        (cmp_list Nat.compare (sp_step_lengths left_) (sp_step_lengths right_)))).

(** [iter().enumerate().any(..)]: a record used before, in [used] or among the records *)
Fixpoint repeats (used : list RecordRefV2) (records : list RecordRefV2) : bool :=
  match records with
  | [] => false
  | r :: records => id_used r used || repeats (used ++ [r]) records
  end.
Fixpoint edges_match (properties : btree BoundPatternProperty) (edges : list RecordRefV2)
  (input_row : vrow) : exec bool :=
  match edges with
  | [] => mret true
  | edge :: edges =>
      b ← matches_pattern_properties input_row hydrated properties edge;
      if b : bool then edges_match properties edges input_row else mret false
  end.
(** Whether a pattern is a single edge, which is then bound as itself and not as a list *)
Definition single_hop (pattern : CompactPattern) : bool :=
  (cpa_min_hops pattern =? 1) && (cpa_max_hops pattern =? 1).
Definition edge_charge (step : BoundSequenceStep) (edges : list RecordRefV2) : Z :=
  match bs_edge_index step with
  | None => 0
  | Some _ =>
      if single_hop (bs_pattern step)
      then match head edges with Some e => entity_value_bytes e | None => 0 end
      else size_of_value + size_of_row + sum_sat 0 (map entity_value_bytes edges)
  end.
(** The value of a pattern's edge alias *)
Definition edge_value (pattern : CompactPattern) (edges : list RecordRefV2) (missing : string)
  : query QueryValueV2 :=
  if single_hop pattern
  then e ← ok_or (head edges) (failure missing); Ok (VEntity e)
  else Ok (VList (map VEntity edges)).

(** Whether a column beyond the path's row, or another vertex in it, ends the segment *)
Definition end_bound_elsewhere (step : BoundSequenceStep) (row : vrow) (endpoint : RecordRefV2) : bool :=
  (bs_end_index step <? length row)%nat &&
  negb match row !! bs_end_index step with
       | Some (VEntity bound) => bool_decide (bound = endpoint)
       | _ => false
       end.
(** The columns of a step appended to a path's row *)
Definition extend_row (step : BoundSequenceStep) (row : vrow) (endpoint : RecordRefV2)
  (segment_edges : list RecordRefV2) : query vrow :=
  let expanded := if (bs_end_index step =? length row)%nat then row ++ [VEntity endpoint] else row in
  match bs_edge_index step with
  | None => Ok expanded
  | Some edge_index =>
      if negb (edge_index =? length expanded)%nat then Err (failure "expand_sequence_binding")
      else v ← edge_value (bs_pattern step) segment_edges "expand_edge"; Ok (expanded ++ [v])
  end.

Section Sequence.
Variable row : vrow.
Variable mode : PathMode.

(** The body of [for (segment_vertices, segment_edges) in segments] *)
Definition extend_sequence (step : BoundSequenceStep) (path : SequencePathV2)
  (next_paths : list SequencePathV2) (segment : CompactPathV2) : exec (list SequencePathV2) :=
  let '(segment_vertices, segment_edges) := segment in
  edge_matches ← edges_match (bs_edge_properties step) segment_edges row;
  if negb (edge_matches : bool) then mret next_paths
  else
    endpoint ← lift (ok_or (last segment_vertices) (failure "expand_path"));
    if bool_decide (mode = ModeTrail) && repeats (sp_edges path) segment_edges then mret next_paths
    else if bool_decide (mode = ModeSimple) && repeats (sp_vertices path) (tail segment_vertices)
    then mret next_paths
    else if end_bound_elsewhere step (sp_row path) endpoint then mret next_paths
    else if (length (sp_row path) <? bs_end_index step)%nat
    then fail (failure "expand_sequence_binding")
    else
      node_matches ← matches_sequence_node (bs_node step) endpoint row;
      if negb (node_matches : bool) then mret next_paths
      else
        let row_bytes_needed :=
          row_bytes (sp_row path)
          +sat (if (bs_end_index step =? length (sp_row path))%nat then entity_value_bytes endpoint
                else 0)
          +sat edge_charge step segment_edges in
        reserve (row_bytes_needed
                 +sat u64_saturating_mul (zlen (sp_vertices path) + zlen segment_vertices - 1) size_of_ref
                 +sat u64_saturating_mul (zlen (sp_edges path) + zlen segment_edges) size_of_ref
                 +sat u64_saturating_mul (zlen (sp_step_lengths path) + 1) size_of_usize
                 +sat size_of_sequence_path) ;;
        expanded ← lift (extend_row step (sp_row path) endpoint segment_edges);
        mret (next_paths ++ [{|
          sp_row := expanded;
          sp_vertices := sp_vertices path ++ tail segment_vertices;
          sp_edges := sp_edges path ++ segment_edges;
          sp_step_lengths := sp_step_lengths path ++ [length segment_edges] |}]).
(** The body of [for path in paths] *)
Definition extend_path (step : BoundSequenceStep) (next_paths : list SequencePathV2)
  (path : SequencePathV2) : exec (list SequencePathV2) :=
  check ;;
  current ← lift (ok_or (last (sp_vertices path)) (failure "expand_path"));
  reserve (size_of_row +sat entity_value_bytes current) ;;
  segments ← compact_expand_paths (bs_pattern step) [VEntity current] None 0;
  mfor (extend_sequence step path) next_paths segments.
Fixpoint extend_steps (steps : list BoundSequenceStep) (paths : list SequencePathV2)
  : exec (list SequencePathV2) :=
  match steps with
  | [] => mret paths
  | step :: steps =>
      paths ← mfor (extend_path step) [] paths;
      match paths with [] => mret [] | _ => extend_steps steps paths end
  end.
Definition sequence_expand_paths (start_index : nat) (start_constraint : BoundSequenceNode)
  (steps : list BoundSequenceStep) : exec (list SequencePathV2) :=
  start ← lift (path_start row start_index);
  match start with
  | None => mret []
  | Some start =>
      ok ← matches_sequence_node start_constraint start row;
      if negb (ok : bool) then mret []
      else
        reserve (row_bytes row +sat size_of_sequence_path +sat size_of_ref
                 +sat u64_saturating_mul (zlen steps) size_of_usize) ;;
        paths ← extend_steps steps
          [{| sp_row := row; sp_vertices := [start]; sp_edges := []; sp_step_lengths := [] |}];
        mret (sort_by sequence_compare paths)
  end.
End Sequence.

(** ** Operators *)

Definition value_mode (mode : PathMode) : QueryPathModeV2 :=
  match mode with ModeTrail => PathTrail | ModeSimple => PathSimple | ModeWalk => PathWalk end.
Definition path_value (mode : PathMode) (vertices edges : list RecordRefV2) : QueryValueV2 :=
  VPath {| pv_vertices := vertices; pv_edges := edges; pv_mode := value_mode mode |}.
(** A path pushed at the index it was bound at *)
Definition push_path (path_index : option nat) (reason : string) (mode : PathMode)
  (vertices edges : list RecordRefV2) (row : vrow) : query vrow :=
  match path_index with
  | None => Ok row
  | Some index =>
      if negb (index =? length row)%nat then Err (failure reason)
      else Ok (row ++ [path_value mode vertices edges])
  end.
(** [SHORTEST]: the first path between two endpoints; the endpoints are a [BTreeSet]. *)
Notation endpoint_pair := (RecordKeyV2 * RecordKeyV2)%type.

(** The body of [for (vertices, edges) in paths] of [MatchCompact] *)
Definition match_compact_path (pattern : CompactPattern) (shortest : bool)
  (anchors : list BoundMatchAnchor) (width : nat) (start : RecordRefV2)
  (acc : gset endpoint_pair * list vrow) (path : CompactPathV2)
  : exec (gset endpoint_pair * list vrow) :=
  let '(endpoints, out) := acc in
  let '(vertices, edges) := path in
  let single := bool_decide (cpa_start_alias pattern = cpa_end_alias pattern) in
  endpoint ← lift (ok_or (last vertices) (failure "match_path"));
  anchored ← lift (matches_compact_match_anchors start endpoint single anchors);
  if negb (anchored : bool) then mret acc
  else
    edge ← lift (match cpa_edge_alias pattern with
                 | None => Ok []
                 | Some _ => v ← edge_value pattern edges "match_edge"; Ok [v]
                 end);
    let matched :=
      [VEntity start] ++ (if single then [] else [VEntity endpoint]) ++ edge
      ++ match cpa_path_alias pattern with
         | None => [] | Some _ => [path_value (cpa_mode pattern) vertices edges]
         end in
    if negb (length matched =? width)%nat then fail (failure "match_binding")
    else
      let pair := (record_key start, record_key endpoint) in
      if shortest && bool_decide (pair ∈ endpoints) then mret acc
      else
        reserve (row_bytes matched) ;;
        mret (if shortest then {[pair]} ∪ endpoints else endpoints, out ++ [matched]).
Definition match_compact_rows (pattern : CompactPattern) (shortest : bool)
  (anchors : list BoundMatchAnchor) (width : nat) : exec (list vrow) :=
  '(_, out) ← mfor (fun acc (start : RecordRefV2) =>
      reserve (entity_value_bytes start) ;;
      let end_index :=
        if bool_decide (cpa_start_alias pattern = cpa_end_alias pattern) then Some 0%nat else None in
      paths ← compact_expand_paths pattern [VEntity start] end_index 0;
      mfor (match_compact_path pattern shortest anchors width start) acc paths)
    (∅, []) (map snd (gs_nodes graph));
  mret out.

(** The body of [for path in sequence_expand_paths(..)] of [MatchSequence] *)
Definition match_sequence_path (mode : PathMode) (path_index : option nat) (shortest : bool)
  (anchors : list BoundMatchAnchor) (width : nat)
  (acc : gset endpoint_pair * list vrow) (path : SequencePathV2)
  : exec (gset endpoint_pair * list vrow) :=
  let '(endpoints, out) := acc in
  anchored ← lift (matches_match_anchors (sp_row path) anchors);
  if negb (anchored : bool) then mret acc
  else
    first ← lift (ok_or (head (sp_vertices path)) (failure "match_path"));
    last_ ← lift (ok_or (last (sp_vertices path)) (failure "match_path"));
    matched ← lift (push_path path_index "match_binding" mode (sp_vertices path) (sp_edges path)
                      (sp_row path));
    if negb (length matched =? width)%nat then fail (failure "match_binding")
    else
      let pair := (record_key first, record_key last_) in
      if shortest && bool_decide (pair ∈ endpoints) then mret acc
      else
        reserve (row_bytes matched) ;;
        mret (if shortest then {[pair]} ∪ endpoints else endpoints, out ++ [matched]).
Definition match_sequence_rows (start : BoundSequenceNode) (steps : list BoundSequenceStep)
  (mode : PathMode) (path_index : option nat) (shortest : bool)
  (anchors : list BoundMatchAnchor) (width : nat) : exec (list vrow) :=
  '(_, out) ← mfor (fun acc (start_record : RecordRefV2) =>
      reserve (entity_value_bytes start_record) ;;
      paths ← sequence_expand_paths [VEntity start_record] mode 0 start steps;
      mfor (match_sequence_path mode path_index shortest anchors width) acc paths)
    (∅, []) (map snd (gs_nodes graph));
  mret out.

(** The body of [for row in input] of [Expand] *)
Definition expand_row (start_index : nat) (end_index : option nat) (pattern : CompactPattern)
  (optional : bool) (out : list vrow) (row : vrow) : exec (list vrow) :=
  check ;;
  paths ← compact_expand_paths pattern row end_index start_index;
  match paths with
  | [] =>
      if optional : bool then
        let expanded := row ++ match end_index with None => [VNull] | Some _ => [] end
                            ++ match cpa_edge_alias pattern with Some _ => [VNull] | None => [] end
                            ++ match cpa_path_alias pattern with Some _ => [VNull] | None => [] end in
        reserve (row_bytes expanded) ;; mret (out ++ [expanded])
      else mret out
  | _ =>
      mfor (fun out (path : CompactPathV2) =>
          let '(vertices, edges) := path in
          endpoint ← lift (ok_or (last vertices) (failure "expand_path"));
          edge ← lift (match cpa_edge_alias pattern with
                       | None => Ok []
                       | Some _ => v ← edge_value pattern edges "expand_edge"; Ok [v]
                       end);
          let expanded :=
            row ++ match end_index with None => [VEntity endpoint] | Some _ => [] end ++ edge
            ++ match cpa_path_alias pattern with
               | None => [] | Some _ => [path_value (cpa_mode pattern) vertices edges]
               end in
          reserve (row_bytes expanded) ;; mret (out ++ [expanded])) out paths
  end.
Definition expand_rows (start_index : nat) (end_index : option nat) (pattern : CompactPattern)
  (optional : bool) (input : list vrow) : exec (list vrow) :=
  mfor (expand_row start_index end_index pattern optional) [] input.

(** [Vec::resize] *)
Definition resize_row (n : nat) (row : vrow) : vrow := take n row ++ replicate (n - length row) VNull.
(** The body of [for row in input] of [ExpandSequence] *)
Definition expand_sequence_row (start_index : nat) (start : BoundSequenceNode)
  (steps : list BoundSequenceStep) (mode : PathMode) (path_index : option nat) (optional : bool)
  (width : nat) (out : list vrow) (row : vrow) : exec (list vrow) :=
  check ;;
  paths ← sequence_expand_paths row mode start_index start steps;
  match paths with
  | [] =>
      if optional : bool then
        let expanded := resize_row width row in
        reserve (row_bytes expanded) ;; mret (out ++ [expanded])
      else mret out
  | _ =>
      mfor (fun out (path : SequencePathV2) =>
          expanded ← lift (push_path path_index "expand_sequence_binding" mode
                             (sp_vertices path) (sp_edges path) (sp_row path));
          if negb (length expanded =? width)%nat then fail (failure "expand_sequence_binding")
          else reserve (row_bytes expanded) ;; mret (out ++ [expanded])) out paths
  end.
Definition expand_sequence_rows (start_index : nat) (start : BoundSequenceNode)
  (steps : list BoundSequenceStep) (mode : PathMode) (path_index : option nat) (optional : bool)
  (width : nat) (input : list vrow) : exec (list vrow) :=
  mfor (expand_sequence_row start_index start steps mode path_index optional width) [] input.
End Paths.
