(* ===== verification/PathSpec.v ===== *)
(** * The paths a pattern finds

    The search of [compact_expand_paths] against its meaning: exactly the paths of the graph
    that follow the pattern, each once where edges are distinct, in a fixed order. *)
From S2P Require Export PathKernels.
Local Open Scope Z_scope.

(** ** Rounds of a loop *)

Section Rounds.
Context {S R : Type} (step : S -> exec (S + R)).

Fixpoint repeat_round (n : nat) (s : S) : exec (S + R) :=
  match n with
  | O => mret (inl s)
  | Datatypes.S n =>
      r ← step s;
      match r with inl s' => repeat_round n s' | inr a => mret (inr a) end
  end.
Lemma repeat_round_add n m s b :
  repeat_round (n + m) s b =
  (r ← repeat_round n s; match r with inl s' => repeat_round m s' | inr a => mret (inr a) end) b.
Proof.
  revert s b; induction n as [|n IH]; intros s b; [done|].
  cbn [repeat_round Nat.add]. rewrite !sm_bind_eq. by destruct (step s b) as [[[s'|a] b']|e].
Qed.
Lemma rounds_repeat k s b : rounds step k s b = repeat_round (2 ^ k) s b.
Proof.
  revert s b; induction k as [|k IH]; intros s b; cbn [rounds].
  - change (2 ^ 0)%nat with 1%nat. cbn [repeat_round]. rewrite sm_bind_eq. by destruct (step s b) as [[[s'|a] b']|e].
  - replace (2 ^ Datatypes.S k)%nat with (2 ^ k + 2 ^ k)%nat by (cbn; lia).
    rewrite repeat_round_add, !sm_bind_eq, IH.
    by destruct (repeat_round (2 ^ k) s b) as [[[s'|a] b']|e].
Qed.
End Rounds.

(** ** Orders *)

Definition cmp_ref : RecordRefV2 -> RecordRefV2 -> comparison :=
  cmp_then (cmp_on cmp_str rr_database_id)
    (cmp_then (cmp_on cmp_str rr_namespace)
      (cmp_then (cmp_on cmp_str rr_id) (cmp_on cmp_str rr_revision))).
(** The loop over pairs and then the lengths are the lexicographic order. *)
Lemma compare_record_refs_list l k : compare_record_refs l k = cmp_list cmp_ref l k.
Proof.
  unfold compare_record_refs. revert k; induction l as [|a l IH]; intros [|b k]; try done.
  cbn [compare_zip cmp_list length Nat.compare]. rewrite <- IH.
  change (then_with (cmp_str (rr_database_id a) _) _) with (cmp_ref a b). by destruct (cmp_ref a b).
Qed.
Lemma CmpPre_ext {A} (c d : A -> A -> comparison) : CmpPre d -> (forall a b, c a b = d a b) -> CmpPre c.
Proof.
  intros Hd Hc. split; intros *; rewrite !Hc; [apply cmp_antisym|apply cmp_trans_le].
Qed.
#[export] Instance path_compare_pre : CmpPre path_compare.
Proof.
  eapply (CmpPre_ext _ (cmp_then (cmp_on Nat.compare (fun p => length p.2))
    (cmp_then (cmp_on (cmp_list cmp_ref) snd) (cmp_on (cmp_list cmp_ref) fst)))); [apply _|].
  intros a b. unfold path_compare. by rewrite !compare_record_refs_list.
Qed.

Section Spec.
Variable graph : GraphSnapshotV2.
Variable pattern : CompactPattern.

(** ** What a path is *)

(** An edge of the graph the pattern may take from a vertex to the next *)
Definition leads (v : RecordRefV2) (e : GraphEdgeV2) (w : RecordRefV2) : Prop :=
  e ∈ gs_edges graph /\ relation_allowed pattern e = true /\
  next_vertex (cpa_direction pattern) v e = Some w.
(** A path from [start]: every edge joins its vertices, and no edge, or no vertex, comes
    twice where the mode says so. *)
Record compact_path (start : RecordRefV2) (vertices edges : list RecordRefV2) : Prop := {
  cp_start : head vertices = Some start;
  cp_length : length vertices = S (length edges);
  cp_edges : forall i v w r, vertices !! i = Some v -> vertices !! S i = Some w ->
    edges !! i = Some r -> exists e, ge_edge e = r /\ leads v e w;
  cp_mode : match cpa_mode pattern with
            | ModeTrail => NoDup (map rr_id edges)
            | ModeSimple => NoDup (map rr_id vertices)
            | ModeWalk => True
            end;
}.

(** ** The search as an enumeration *)

Definition extension (p : CompactPathV2) (v : RecordRefV2) (e : GraphEdgeV2) : option CompactPathV2 :=
  if negb (relation_allowed pattern e) then None
  else match next_vertex (cpa_direction pattern) v e with
       | None => None
       | Some w =>
           if bool_decide (cpa_mode pattern = ModeTrail) && id_used (ge_edge e) p.2 then None
           else if bool_decide (cpa_mode pattern = ModeSimple) && id_used w p.1 then None
           else Some (p.1 ++ [w], p.2 ++ [ge_edge e])
       end.
Definition extensions (p : CompactPathV2) : list CompactPathV2 :=
  match last p.1 with Some v => rev (omap (extension p v) (gs_edges graph)) | None => [] end.

Lemma id_used_true r used : id_used r used = true <-> rr_id r ∈ map rr_id used.
Proof.
  unfold id_used. rewrite existsb_exists. rewrite list_elem_of_fmap. split.
  - intros (u & Hu & E%bool_decide_eq_true). exists u. split; [done|by apply list_elem_of_In].
  - intros (u & E & Hu). exists u. split; [by apply list_elem_of_In|by apply bool_decide_eq_true].
Qed.
Lemma extensions_spec p q : q ∈ extensions p <->
  exists v e w, last p.1 = Some v /\ leads v e w /\ q = (p.1 ++ [w], p.2 ++ [ge_edge e]) /\
    match cpa_mode pattern with
    | ModeTrail => rr_id (ge_edge e) ∉ map rr_id p.2
    | ModeSimple => rr_id w ∉ map rr_id p.1
    | ModeWalk => True
    end.
Proof.
  unfold extensions. destruct (last p.1) as [v|] eqn:Hv.
  2:{ split; [intros H; by apply elem_of_nil in H|by intros (? & ? & ? & ? & _)]. }
  rewrite list_elem_of_In, <- in_rev, <- list_elem_of_In, list_elem_of_omap. unfold extension, leads. split.
  - intros (e & He & Hx). destruct (relation_allowed pattern e) eqn:Hr; [|done]. cbn [negb] in Hx.
    destruct (next_vertex _ v e) as [w|] eqn:Hw; [|done].
    destruct (bool_decide (cpa_mode pattern = ModeTrail) && id_used (ge_edge e) p.2) eqn:Ht; [done|].
    destruct (bool_decide (cpa_mode pattern = ModeSimple) && id_used w p.1) eqn:Hs; [done|].
    injection Hx as <-. exists v, e, w. split_and!; try done.
    destruct (cpa_mode pattern); try done; intros Hu%id_used_true.
    + by rewrite bool_decide_eq_true_2, Hu in Ht.
    + by rewrite bool_decide_eq_true_2, Hu in Hs.
  - intros (v' & e & w & [= <-] & (He & Hr & Hw) & -> & Hm). exists e. split; [done|].
    rewrite Hr, Hw. cbn [negb].
    destruct (cpa_mode pattern); rewrite ?(bool_decide_eq_false_2 (_ = _)) by done;
      rewrite ?(bool_decide_eq_true_2 (_ = _)) by done; cbn [andb]; try done;
      destruct (id_used _ _) eqn:Hu; try done; by apply id_used_true in Hu.
Qed.

(** Paths reached from [p] in exactly [n] edges *)
Notation grows := (nsteps (fun p q => q ∈ extensions p)).

Lemma compact_path_snoc start vs es w r : compact_path start (vs ++ [w]) (es ++ [r]) <->
  compact_path start vs es /\
  exists v e, last vs = Some v /\ leads v e w /\ r = ge_edge e /\
    match cpa_mode pattern with
    | ModeTrail => rr_id r ∉ map rr_id es
    | ModeSimple => rr_id w ∉ map rr_id vs
    | ModeWalk => True
    end.
Proof.
  split.
  - intros [Hs Hl He Hm]. rewrite !length_app in Hl. cbn [length] in Hl.
    assert (length vs = S (length es)) as Hlen by lia.
    destruct vs as [|v0 vs]; [done|]. destruct (last (v0 :: vs)) as [v|] eqn:Hv.
    2:{ by apply last_None in Hv. }
    rewrite last_lookup in Hv. cbn [length pred] in Hv, Hlen. injection Hlen as Hlen.
    destruct (He (length es) v w r) as (e & <- & Hlead).
    { rewrite <- Hlen. by apply lookup_app_l_Some. }
    { apply list_lookup_middle. cbn [length]. lia. }
    { by apply list_lookup_middle. }
    split.
    + split; [done|by cbn; rewrite Hlen| |].
      * intros i v' w' r Hv' Hw' Hr. apply (He i); by apply lookup_app_l_Some.
      * rewrite !map_app in Hm.
        destruct (cpa_mode pattern); [by apply NoDup_app in Hm as (? & _)..|done].
    + exists v, e. split_and!; [done|done|done|].
      rewrite !map_app in Hm. cbn [map] in Hm.
      destruct (cpa_mode pattern); [..|done]; apply NoDup_snoc in Hm; apply Hm.
  - intros [[Hs Hl He Hm] (v & e & Hv & Hlead & -> & Hnew)]. split.
    + by destruct vs.
    + rewrite !length_app, Hl. cbn. lia.
    + rewrite last_lookup, Hl in Hv. cbn [pred] in Hv.
      intros i v' w' r Hv' Hw' Hr. destruct (decide (i = length es)) as [->|Hi].
      * rewrite lookup_app_l in Hv' by lia. rewrite lookup_app_r, Hl, Nat.sub_diag in Hw' by lia.
        rewrite lookup_app_r, Nat.sub_diag in Hr by lia. exists e. naive_solver.
      * assert (i < length es)%nat as Hlt.
        { apply lookup_lt_Some in Hr. rewrite length_app in Hr. cbn in Hr. lia. }
        rewrite lookup_app_l in Hv', Hw', Hr by lia. by apply (He i).
    + rewrite !map_app. cbn [map].
      destruct (cpa_mode pattern); [..|done]; by apply NoDup_snoc.
Qed.
Lemma grows_spec start n vs es :
  grows n ([start], []) (vs, es) <-> compact_path start vs es /\ length es = n.
Proof.
  revert vs es; induction n as [|n IH]; intros vs es.
  - split.
    + intros Hg. inversion Hg; subst. split; [|done]. split; try done.
      destruct (cpa_mode pattern); repeat constructor; apply not_elem_of_nil.
    + intros [[Hs Hl _ _] He%nil_length_inv]. subst es. destruct vs as [|v [|]]; try done.
      injection Hs as ->. constructor.
  - split.
    + intros ([vs' es'] & Hg & Hx)%nsteps_inv_r. apply IH in Hg as [Hp <-].
      apply extensions_spec in Hx as (v & e & w & Hv & Hlead & [= -> ->] & Hm). cbn [fst snd] in *.
      split; [|rewrite length_app; cbn; lia]. apply compact_path_snoc. eauto 10.
    + intros [Hp Hn]. pose proof (cp_length _ _ _ Hp) as Hl.
      destruct es as [|r es _] using rev_ind; [done|]. destruct vs as [|w vs _] using rev_ind; [done|].
      apply compact_path_snoc in Hp as (Hp & v & e & Hv & Hlead & -> & Hm).
      rewrite length_app in Hn. cbn in Hn.
      eapply nsteps_r; [apply IH; split; [done|lia]|]. apply extensions_spec. cbn. eauto 10.
Qed.

(** ** The enumeration in the order of the search *)

Section Walks.
Variable row : vrow.
Variable end_index : option nat.

Definition admitted (p : CompactPathV2) : bool :=
  (cpa_min_hops pattern <=? zlen p.2) &&
  match last p.1 with Some v => endpoint_matches row end_index v | None => false end.
(** Everything found from [p] with at most [h] more edges *)
Fixpoint walks (h : nat) (p : CompactPathV2) : list CompactPathV2 :=
  (if admitted p then [p] else []) ++
  match h with O => [] | S h => concat (map (walks h) (extensions p)) end.
Fixpoint walk_cost (h : nat) (p : CompactPathV2) : nat :=
  S match h with O => 0 | S h => list_sum (map (walk_cost h) (extensions p)) end.

Lemma walks_spec h p q : q ∈ walks h p <-> admitted q = true /\ exists n, (n <= h)%nat /\ grows n p q.
Proof.
  revert p; induction h as [|h IH]; intros p; cbn [walks]; rewrite elem_of_app.
  - split.
    + intros [Hq|Hq]; [|by apply elem_of_nil in Hq].
      destruct (admitted p) eqn:Ha; [|by apply elem_of_nil in Hq].
      apply list_elem_of_singleton in Hq as ->. split; [done|]. exists 0%nat. split; [lia|constructor].
    + intros (Ha & n & Hn & Hg). assert (n = 0%nat) as -> by lia. inversion Hg; subst.
      left. rewrite Ha. by apply list_elem_of_singleton.
  - split.
    + intros [Hq|Hq].
      * destruct (admitted p) eqn:Ha; [|by apply elem_of_nil in Hq].
        apply list_elem_of_singleton in Hq as ->. split; [done|]. exists 0%nat. split; [lia|constructor].
      * apply list_elem_of_In, in_concat in Hq as (l & (p' & <- & Hp')%in_map_iff & Hq).
        rewrite <- list_elem_of_In in Hq, Hp'. apply IH in Hq as (Ha & n & Hn & Hg). split; [done|].
        exists (S n). split; [lia|]. by econstructor.
    + intros (Ha & n & Hn & Hg). destruct Hg as [p|n p p' q Hp' Hg].
      * left. rewrite Ha. by apply list_elem_of_singleton.
      * right. apply list_elem_of_In, in_concat. exists (walks h p').
        rewrite in_map_iff, <- list_elem_of_In. split.
        -- exists p'. split; [done|]. by apply list_elem_of_In.
        -- apply IH. split; [done|]. exists n. split; [lia|done].
Qed.

(** *** The fuel *)

Lemma extensions_length p : (length (extensions p) <= length (gs_edges graph))%nat.
Proof.
  unfold extensions. destruct (last p.1) as [v|]; [|cbn; lia]. rewrite length_rev.
  induction (gs_edges graph) as [|e l IH]; [done|]. cbn [omap list_omap length].
  destruct (extension p v e); cbn [length]; lia.
Qed.
Lemma list_sum_bound {A} (f : A -> nat) (b : nat) l : (forall a, a ∈ l -> f a <= b)%nat ->
  (list_sum (map f l) <= length l * b)%nat.
Proof.
  intros Hf. induction l as [|a l IH]; [done|]. cbn [map length].
  change (list_sum (f a :: map f l)) with (f a + list_sum (map f l))%nat.
  pose proof (Hf a ltac:(by left)). specialize (IH ltac:(intros; apply Hf; by right)). lia.
Qed.
Lemma walk_cost_bound h p : (walk_cost h p <= S (length (gs_edges graph)) ^ h)%nat.
Proof.
  revert p; induction h as [|h IH]; intros p; cbn [walk_cost]; [done|].
  pose proof (list_sum_bound (walk_cost h) (S (length (gs_edges graph)) ^ h) (extensions p) ltac:(auto)) as Hs.
  pose proof (extensions_length p). set (b := (S (length (gs_edges graph)) ^ h)%nat) in *.
  assert (1 <= b)%nat by (unfold b; pose proof (Nat.pow_nonzero (S (length (gs_edges graph))) h); lia).
  change (S (length (gs_edges graph)) ^ S h)%nat with (S (length (gs_edges graph)) * b)%nat. nia.
Qed.
Lemma expand_fuel_enough p : (walk_cost (Z.to_nat (cpa_max_hops pattern)) p < 2 ^ expand_fuel graph pattern)%nat.
Proof.
  unfold expand_fuel. set (h := Z.to_nat _). set (e := S (length (gs_edges graph))).
  eapply Nat.le_lt_trans; [apply walk_cost_bound|]. fold e.
  assert (e ^ h <= 2 ^ (h * Nat.log2_up e))%nat as Hle.
  { rewrite Nat.mul_comm, Nat.pow_mul_r. apply Nat.pow_le_mono_l. apply Nat.log2_log2_up_spec; lia. }
  cbn [Nat.pow]. pose proof (Nat.pow_nonzero 2 (h * Nat.log2_up e)). lia.
Qed.

(** *** What the rounds answer *)

Context `{Clock, Layout}.

Definition hops_left (p : CompactPathV2) : nat := Z.to_nat (cpa_max_hops pattern - zlen p.2).
Definition found_from (p : CompactPathV2) : list CompactPathV2 := walks (hops_left p) p.
Definition cost_from (p : CompactPathV2) : nat := walk_cost (hops_left p) p.

Lemma expand_edge_answers p v pending e :
  answers (expand_edge pattern p.1 p.2 v pending e)
    (Ok (option_list (extension p v e) ++ pending)).
Proof.
  unfold expand_edge, extension. apply answers_pay; [apply pays_reserve_in|].
  destruct (negb _); [apply answers_ret|]. destruct (next_vertex _ _ _) as [w|]; [|apply answers_ret].
  destruct (_ && _); [apply answers_ret|]. destruct (_ && _); [apply answers_ret|].
  apply answers_pay; [apply pays_reserve|]. apply answers_ret.
Qed.
Lemma expand_edges_answers p v pending l :
  answers (mfor (expand_edge pattern p.1 p.2 v) pending l)
    (Ok (rev (omap (extension p v) l) ++ pending)).
Proof.
  revert pending; induction l as [|e l IH]; intros pending; [apply answers_ret|].
  cbn [mfor]. eapply answers_ext; [eapply answers_bind; [apply expand_edge_answers|intros; apply IH]|].
  cbn [mbind result_bind omap list_omap].
  destruct (extension p v e); cbn [option_list rev app]; by rewrite <- ?(assoc app).
Qed.
Lemma expand_round_answers p pending matches : p.1 <> [] ->
  answers (expand_round graph pattern row end_index (p :: pending, matches))
    (Ok (inl (match hops_left p with O => [] | S _ => extensions p end ++ pending,
              matches ++ if admitted p then [p] else []))).
Proof.
  intros Hp. destruct p as [vs es]. cbn [fst snd] in Hp. cbn [expand_round].
  apply answers_pay; [apply pays_reserve_in|].
  destruct (last vs) as [v|] eqn:Hv; [|by apply last_None in Hv].
  apply (answers_ext _ (current ← Ok v; ms ← Ok (matches ++ if admitted (vs, es) then [(vs, es)] else []);
    Ok (inl (match hops_left (vs, es) with O => [] | S _ => extensions (vs, es) end ++ pending, ms)))); [|done].
  apply answers_bind; [apply (answers_lift (Ok v))|]. intros v' [= <-].
  apply answers_bind.
  - unfold admitted. cbn [fst snd]. rewrite Hv. destruct (_ && _).
    + apply answers_pay; [apply pays_reserve|apply answers_ret].
    + rewrite app_nil_r. apply answers_ret.
  - intros ms _. unfold hops_left. cbn [snd].
    destruct (Z.leb_spec (cpa_max_hops pattern) (zlen es)) as [Hle|Hlt].
    + replace (Z.to_nat (cpa_max_hops pattern - zlen es)) with 0%nat by lia. apply answers_ret.
    + replace (Z.to_nat (cpa_max_hops pattern - zlen es))
        with (S (Z.to_nat (cpa_max_hops pattern - zlen es - 1))) by lia.
      unfold extensions. cbn [fst]. rewrite Hv.
      eapply answers_ext; [eapply answers_bind; [apply (expand_edges_answers (vs, es))|]|].
      * intros. apply answers_ret.
      * done.
Qed.
Lemma extensions_ne p q : q ∈ extensions p -> q.1 <> [].
Proof. intros (v & e & w & _ & _ & -> & _)%extensions_spec. cbn. by destruct p.1. Qed.
Lemma extensions_hops p q h : hops_left p = S h -> q ∈ extensions p -> hops_left q = h.
Proof.
  unfold hops_left. intros Hh (v & e & w & _ & _ & -> & _)%extensions_spec. cbn [snd].
  rewrite zlen_app. change (zlen [ge_edge e]) with 1. lia.
Qed.
Lemma found_from_eq p : found_from p = (if admitted p then [p] else []) ++
  concat (map found_from (match hops_left p with O => [] | S _ => extensions p end)).
Proof.
  unfold found_from at 1. destruct (hops_left p) as [|h] eqn:Hh; [done|]. cbn [walks]. f_equal. f_equal.
  apply map_ext_in. intros q Hq%list_elem_of_In. unfold found_from. by rewrite (extensions_hops p q h).
Qed.
Lemma cost_from_eq p : cost_from p =
  S (list_sum (map cost_from (match hops_left p with O => [] | S _ => extensions p end))).
Proof.
  unfold cost_from at 1. destruct (hops_left p) as [|h] eqn:Hh; [done|]. cbn [walk_cost]. do 2 f_equal.
  apply map_ext_in. intros q Hq%list_elem_of_In. unfold cost_from. by rewrite (extensions_hops p q h).
Qed.
Lemma expand_rounds_answers n pending matches :
  Forall (fun p : CompactPathV2 => p.1 <> []) pending -> (list_sum (map cost_from pending) < n)%nat ->
  answers (repeat_round (expand_round graph pattern row end_index) n (pending, matches))
    (Ok (inr (matches ++ concat (map found_from pending)))).
Proof.
  revert pending matches; induction n as [|n IH]; intros pending matches Hne Hn; [lia|].
  cbn [repeat_round]. destruct pending as [|p pending].
  { eapply answers_ext; [eapply answers_bind; [apply answers_ret|intros r [= <-]; apply answers_ret]|].
    cbn. by rewrite app_nil_r. }
  inversion_clear Hne as [|? ? Hp Hpending]. cbn [map] in Hn. change (list_sum (?a :: ?l)) with (a + list_sum l)%nat in Hn.
  rewrite cost_from_eq in Hn. set (new := match hops_left p with O => [] | S _ => extensions p end) in *.
  eapply answers_ext.
  - eapply answers_bind with (g := fun r => match r with
      | inl (pending, matches) => Ok (inr (matches ++ concat (map found_from pending)))
      | inr a => Ok (inr a) end); [by apply expand_round_answers|].
    intros r [= <-]. apply IH.
    + apply Forall_app. split; [|done]. apply Forall_forall. intros q Hq. unfold new in Hq.
      destruct (hops_left p); [by apply elem_of_nil in Hq|by eapply extensions_ne].
    + fold new. rewrite map_app, list_sum_app. lia.
  - cbn [mbind result_bind]. fold new. do 2 f_equal. cbn [map concat].
    rewrite (found_from_eq p). fold new. rewrite map_app, concat_app. by rewrite <- !(assoc app).
Qed.

(** The search answers everything found from the start, sorted. *)
Definition paths_of (start_index : nat) : query (list CompactPathV2) :=
  start ← path_start graph row start_index;
  match start with
  | None => Ok []
  | Some start => Ok (sort_by path_compare (walks (Z.to_nat (cpa_max_hops pattern)) ([start], [])))
  end.
Lemma compact_expand_paths_answers start_index :
  answers (compact_expand_paths graph pattern row end_index start_index) (paths_of start_index).
Proof.
  apply answers_bind; [apply answers_lift|]. intros [start|] _; [|apply answers_ret].
  assert (hops_left ([start], []) = Z.to_nat (cpa_max_hops pattern)) as Hh.
  { unfold hops_left. cbn [snd]. unfold zlen. cbn [length]. f_equal. lia. }
  eapply answers_ext; [eapply answers_bind with (g := fun r => match r with
      | inl _ => Err (failure "fuel") | inr matches => Ok (sort_by path_compare matches) end)|].
  - intros s. rewrite rounds_repeat. revert s. apply expand_rounds_answers; [by repeat constructor|].
    cbn [map]. change (list_sum [?a]) with (a + 0)%nat. rewrite Nat.add_0_r.
    unfold cost_from. rewrite Hh. apply expand_fuel_enough.
  - intros r [= <-]. apply answers_ret.
  - cbn [mbind result_bind map concat app]. unfold found_from. by rewrite Hh, app_nil_r.
Qed.

(** *** No path twice *)

Lemma NoDup_concat_map {A B} (f : A -> list B) l : NoDup l -> (forall a, a ∈ l -> NoDup (f a)) ->
  (forall a b x, a ∈ l -> b ∈ l -> x ∈ f a -> x ∈ f b -> a = b) -> NoDup (concat (map f l)).
Proof.
  intros Hl Hf Hd. induction Hl as [|a l Ha Hl IH]; [constructor|]. cbn [map concat].
  apply NoDup_app. split_and!.
  - apply Hf. by left.
  - intros x Hx (k & (b & <- & Hb)%in_map_iff & Hk)%list_elem_of_In%in_concat.
    apply list_elem_of_In in Hb, Hk.
    assert (a = b) as -> by (apply (Hd a b x); [by left|by right|done..]). done.
  - apply IH; [intros; apply Hf; by right|]. intros b c x Hb Hc. apply Hd; by right.
Qed.
Lemma walks_prefix h p q : q ∈ walks h p -> exists es, q.2 = p.2 ++ es.
Proof.
  intros (_ & n & _ & Hg)%walks_spec. induction Hg as [p|n p p' q Hp' _ [es Hes]].
  - exists []. by rewrite app_nil_r.
  - apply extensions_spec in Hp' as (v & e & w & _ & _ & -> & _). cbn [snd] in Hes.
    exists (ge_edge e :: es). by rewrite Hes, <- app_assoc.
Qed.
(** Extensions with the same edges are the same. *)
Lemma extensions_inj p q q' : NoDup (map ge_edge (gs_edges graph)) ->
  q ∈ extensions p -> q' ∈ extensions p -> q.2 = q'.2 -> q = q'.
Proof.
  intros Hd (v & e & w & Hv & (He & _ & Hw) & -> & _)%extensions_spec
    (v' & e' & w' & Hv' & (He' & _ & Hw') & -> & _)%extensions_spec [= Heq]%app_inv_head.
  apply list_elem_of_lookup in He as [i Hi], He' as [j Hj].
  assert (i = j) as <-; [|congruence].
  apply (NoDup_lookup (map ge_edge (gs_edges graph)) i j (ge_edge e)); [done| |];
    rewrite list_lookup_fmap; [by rewrite Hi|by rewrite Hj, Heq].
Qed.
Lemma extensions_NoDup p : NoDup (map ge_edge (gs_edges graph)) -> NoDup (extensions p).
Proof.
  intros Hd. unfold extensions. destruct (last p.1) as [v|]; [|constructor].
  apply NoDup_ListNoDup, NoDup_rev, NoDup_ListNoDup. induction (gs_edges graph) as [|e l IH]; [constructor|].
  cbn [map] in Hd. apply NoDup_cons in Hd as [He Hd]. cbn [omap list_omap].
  destruct (extension p v e) as [q|] eqn:Hq; [|by apply IH]. apply NoDup_cons. split; [|by apply IH].
  intros (e' & He' & Hq')%list_elem_of_omap. apply He.
  assert (forall e q, extension p v e = Some q -> q.2 = p.2 ++ [ge_edge e]) as Hx.
  { intros e0 q0. unfold extension. destruct (negb _); [done|]. destruct (next_vertex _ _ _); [|done].
    do 2 (destruct (_ && _); [done|]). by intros [= <-]. }
  apply Hx in Hq, Hq'. rewrite Hq in Hq'. apply app_inv_head in Hq'. injection Hq' as Hq'.
  rewrite Hq'. apply list_elem_of_fmap. eauto.
Qed.
Lemma walks_NoDup h p : NoDup (map ge_edge (gs_edges graph)) -> NoDup (walks h p).
Proof.
  intros Hd. revert p; induction h as [|h IH]; intros p; cbn [walks].
  { rewrite app_nil_r. destruct (admitted p); [apply NoDup_singleton|constructor]. }
  assert (forall q a, q ∈ extensions p -> a ∈ walks h q -> exists e es, q.2 = p.2 ++ [e] /\ a.2 = p.2 ++ e :: es) as Hpre.
  { intros q a (v & e & w & _ & _ & -> & _)%extensions_spec (es & Hes)%walks_prefix.
    exists (ge_edge e), es. cbn [snd] in *. by rewrite Hes, <- (assoc app). }
  apply NoDup_app. split_and!.
  - destruct (admitted p); [apply NoDup_singleton|constructor].
  - intros q Hq (k & (q' & <- & Hq')%in_map_iff & Hk)%list_elem_of_In%in_concat.
    rewrite <- list_elem_of_In in Hq', Hk. destruct (Hpre q' q Hq' Hk) as (e & es & _ & Heq).
    destruct (admitted p); [|by apply elem_of_nil in Hq]. apply list_elem_of_singleton in Hq as ->.
    rewrite <- (app_nil_r p.2) in Heq at 1. by apply app_inv_head in Heq.
  - apply NoDup_concat_map; [by apply extensions_NoDup|by intros|].
    intros q q' a Hq Hq' Ha Ha'. destruct (Hpre q a Hq Ha) as (e & es & Hq2 & Ha2).
    destruct (Hpre q' a Hq' Ha') as (e' & es' & Hq2' & Ha2').
    rewrite Ha2 in Ha2'. apply app_inv_head in Ha2'. injection Ha2' as <- _.
    apply (extensions_inj p); [done..|congruence].
Qed.
End Walks.
End Spec.

(** ** The theorem *)

(** The vertex a row starts from: a record of the snapshot *)
Definition starts_at (graph : GraphSnapshotV2) (row : vrow) (start_index : nat) (start : RecordRefV2) : Prop :=
  row !! start_index = Some (VEntity start) /\
  bt_get cmp_str (rr_id start) (gs_nodes graph) = Some start.
(** What a path found has to be: the hops in bounds, and the last vertex the one bound. *)
Record found_path (graph : GraphSnapshotV2) (pattern : CompactPattern) (row : vrow)
  (end_index : option nat) (start : RecordRefV2) (vertices edges : list RecordRefV2) : Prop := {
  fp_path : compact_path graph pattern start vertices edges;
  fp_min : cpa_min_hops pattern <= zlen edges;
  fp_max : (length edges <= Z.to_nat (cpa_max_hops pattern))%nat;
  fp_end : forall i, end_index = Some i -> VEntity <$> last vertices = row !! i;
}.

Lemma path_start_Ok graph row i o : path_start graph row i = Ok o ->
  forall start, o = Some start <-> starts_at graph row i start.
Proof.
  unfold path_start, starts_at. intros Ho start. destruct (row !! i) as [v|]; [|done].
  destruct v; try done; injection Ho as <-; [naive_solver|]. case_bool_decide as Hb.
  - split; [by intros [= <-]|by intros [[= ->] _]].
  - split; [done|]. intros [[= ->] Hg]. done.
Qed.
Lemma path_start_Err graph row i e : path_start graph row i = Err e ->
  e = failure "bound_type" /\ (forall v, row !! i = Some v -> v <> VNull /\ forall r, v <> VEntity r).
Proof.
  unfold path_start. destruct (row !! i) as [v|]; [destruct v|]; intros [= <-]; split; try done;
    intros w [= <-]; done.
Qed.
Lemma admitted_spec graph pattern row end_index start vs es : compact_path graph pattern start vs es ->
  admitted pattern row end_index (vs, es) = true <->
  cpa_min_hops pattern <= zlen es /\ forall i, end_index = Some i -> VEntity <$> last vs = row !! i.
Proof.
  intros Hp. pose proof (cp_length _ _ _ _ _ Hp) as Hl. unfold admitted. cbn [fst snd].
  rewrite andb_true_iff, Z.leb_le. f_equiv.
  destruct (last vs) as [v|] eqn:Hv; [|apply last_None in Hv; by subst].
  unfold endpoint_matches. destruct end_index as [i|]; [|naive_solver]. cbn [fmap option_fmap option_map].
  destruct (row !! i) as [w|] eqn:Hr.
  - split.
    + intros Hw i' [= <-]. rewrite Hr. destruct w; try done. cbn in Hw. apply bool_decide_eq_true in Hw as ->. done.
    + intros Hw. specialize (Hw i eq_refl). rewrite Hr in Hw. injection Hw as <-. cbn. by apply bool_decide_eq_true.
  - split; [done|]. intros Hw. specialize (Hw i eq_refl). by rewrite Hr in Hw.
Qed.
Lemma paths_of_spec graph pattern row end_index start_index paths :
  paths_of graph pattern row end_index start_index = Ok paths ->
  forall vs es, (vs, es) ∈ paths <->
    exists start, starts_at graph row start_index start /\
      found_path graph pattern row end_index start vs es.
Proof.
  unfold paths_of. intros (o & Ho & Hpaths)%bind_Ok vs es. pose proof (path_start_Ok _ _ _ _ Ho) as Hs.
  destruct o as [start|]; injection Hpaths as <-.
  - rewrite sort_by_Permutation, walks_spec. split.
    + intros (Ha & n & Hn & [Hp Hl]%grows_spec). exists start. split; [by apply Hs|].
      apply (admitted_spec _ _ _ _ _ _ _ Hp) in Ha as [Hmin Hend]. split; try done. lia.
    + intros (start' & Hst%Hs & [Hp Hmin Hmax Hend]). injection Hst as <-. split.
      * by eapply admitted_spec.
      * exists (length es). split; [done|]. by apply grows_spec.
  - split; [intros H; by apply elem_of_nil in H|]. by intros (start & Hst%Hs & _).
Qed.

