(* ===== verification/RetrievalKernels.v ===== *)
(** * Retrieval kernels

    [src/src/query/hql2/exec.rs], lines 1609 to 1869 and 2094 to 2357: annotations of a
    record, exact vector ranking, lexical ranking and the packing of a context. *)
From S2P Require Export BindQuery PathKernels.
Local Open Scope Z_scope.

(** [f64::ln], of the platform's mathematical library *)
Class Libm := { f64_ln : f64 -> f64 }.
(** [size_of::<(RecordRefV2, Vec<String>)>()] *)
Class RetrievalLayout := { size_of_document : Z; size_of_document_pos : 0 <= size_of_document }.

(** The derived order of [RecordKeyV2] *)
Definition cmp_record_key : RecordKeyV2 -> RecordKeyV2 -> comparison :=
  cmp_pair (cmp_pair (cmp_pair (cmp_pair cmp_str cmp_str) cmp_str) cmp_str) cmp_str.
#[export] Instance cmp_record_key_ord : CmpOrd cmp_record_key.
Proof. unfold cmp_record_key. apply _. Qed.

Section Retrieval.
Context `{Clock, Layout, Unicode, UuidCrate}.

(** ** Annotations *)

Section Annotations.
Variable annotation_lookup : RecordRefV2 -> exec (list RecordRefV2).

(** Every annotation of a record is a valid reference to an annotation beside it. *)
Definition annotation_checked (target annotation : RecordRefV2) : query unit :=
  match record_ref_validate annotation with
  | Err _ => Err (query_error "DATA_CORRUPTION" "execute" "annotation_lookup_reference")
  | Ok _ =>
      if negb (bool_decide (rr_kind annotation = Annotation))
         || negb (bool_decide (rr_database_id annotation = rr_database_id target))
         || negb (bool_decide (rr_namespace annotation = rr_namespace target))
      then Err (query_error "DATA_CORRUPTION" "execute" "annotation_lookup_alignment")
      else Ok tt
  end.
(** The annotations of a record, looked up once *)
Definition annotations_of (target : RecordRefV2) (matches_by_target : gmap RecordKeyV2 (list RecordRefV2))
  : exec (list RecordRefV2 * gmap RecordKeyV2 (list RecordRefV2)) :=
  reserve (ref_len target +sat size_of_record_key +sat 64) ;;
  let key := record_key target in
  match matches_by_target !! key with
  | Some matches => mret (matches, matches_by_target)
  | None =>
      matches ← annotation_lookup target;
      reserve (u64_saturating_mul (zlen matches) size_of_ref) ;;
      lift (try_for (fun _ a => annotation_checked target a) tt matches) ;;
      mret (matches, <[key := matches]> matches_by_target)
  end.
Definition annotation_row (target_index : nat) (optional : bool)
  (acc : gmap RecordKeyV2 (list RecordRefV2) * list vrow) (row : vrow)
  : exec (gmap RecordKeyV2 (list RecordRefV2) * list vrow) :=
  let '(matches_by_target, out) := acc in
  check ;;
  target ← lift (ok_or (row !! target_index) (failure "bound_field"));
  '(matches, matches_by_target) ←
    match target with
    | VNull => mret ([], matches_by_target)
    | VEntity target => annotations_of target matches_by_target
    | _ => fail (failure "bound_type")
    end;
  match matches with
  | [] =>
      if optional : bool then
        out ← push_with_value out row VNull; mret (matches_by_target, out)
      else mret (matches_by_target, out)
  | _ =>
      out ← mfor (fun out a => push_with_value out row (VEntity a)) out matches;
      mret (matches_by_target, out)
  end.
Definition annotation_rows (target_index : nat) (optional : bool) (input : list vrow)
  : exec (list vrow) :=
  '(_, out) ← mfor (annotation_row target_index optional) (∅, []) input;
  mret out.
End Annotations.

(** ** Rankings *)

(** A row's position, the key of the record it is ranked by, and its score *)
Notation ranked := (nat * RecordKeyV2 * ScoreValueV2)%type.
(** [partial_cmp(..).unwrap_or(Equal)], then the key, then the position *)
Definition rank_compare (by_value : f64 -> f64 -> option comparison) (l r : ranked) : comparison :=
  then_with (default Eq (by_value (sc_value l.2) (sc_value r.2)))
    (then_with (cmp_record_key l.1.2 r.1.2) (Nat.compare l.1.1 r.1.1)).
(** The first [k] of the ranked rows, each with its score; positions are those of the input. *)
Definition push_ranked (input : list vrow) (k : Z) (l : list ranked) : exec (list vrow) :=
  mfor (fun out (r : ranked) =>
      row ← lift (ok_or (input !! r.1.1) (failure "bound_field"));
      push_with_value out row (VScore r.2)) [] (ztake k l).

(** *** Vectors *)

Section Vectors.
Variable hydrated : HydratedValuesV2.
Variable vector_lookup : list RecordRefV2 -> string -> bool -> exec VectorBatchV2.

(** The owner and the query vector of a row; a row without an owner is left out, or is an
    error of a rerank. *)
Definition vector_candidate (entity_index : nat) (query_expr : BoundExpr)
  (collection : CollectionSpaceV2) (rerank : bool)
  (acc : list (nat * RecordRefV2 * VectorValueV2)) (irow : nat * vrow)
  : exec (list (nat * RecordRefV2 * VectorValueV2)) :=
  check ;;
  match irow.2 !! entity_index with
  | Some (VEntity owner) =>
      if negb (bool_decide (rr_kind owner = Node))
      then fail (query_error "CAPABILITY_UNSUPPORTED" "execute" "vector_owner_kind_unavailable")
      else
        value ← eval irow.2 hydrated query_expr;
        match value with
        | VVector query_value =>
            if negb (bool_decide (vv_space_id query_value = cs_space_id collection))
               || negb (zlen (vv_values query_value) =? cs_dimension collection)
            then fail (space_mismatch "vector_space")
            else mret (acc ++ [(irow.1, owner, query_value)])
        | _ => fail (failure "vector_query")
        end
  | Some VNull =>
      if rerank
      then fail (query_error "EXACT_ORIGINAL_UNAVAILABLE" "execute" "candidate_owner_unavailable")
      else mret acc
  | _ => fail (failure "vector_entity")
  end.
Definition vector_score (collection : CollectionSpaceV2) (rerank : bool) (acc : list ranked)
  (c : nat * RecordRefV2 * VectorValueV2 * option VectorValueV2) : exec (list ranked) :=
  let '(row_index, owner, query_value, candidate) := c in
  check ;;
  match candidate with
  | None =>
      if rerank
      then fail (query_error "EXACT_ORIGINAL_UNAVAILABLE" "execute" "candidate_vector_unavailable")
      else mret acc
  | Some candidate =>
      reserve_distance_evaluations 1 ;;
      distance ← lift (exact_vector_distance query_value candidate (cs_metric collection));
      reserve (size_of_usize + size_of_score + size_of_record_key) ;;
      mret (acc ++ [(row_index, record_key owner, {|
        sc_value := distance; sc_owner := owner;
        sc_source := if rerank then "original_rerank" else "exact_vector_scan";
        sc_scope := if rerank then "rerank_candidates" else "whole_input";
        sc_metric := cs_metric collection |})])
  end.
Definition vector_rank_rows (entity_index : nat) (query_expr : BoundExpr)
  (collection : CollectionSpaceV2) (k : Z) (kind : VectorRankKind) (input : list vrow)
  : exec (list vrow) :=
  reserve_vector_candidates (zlen input) ;;
  reserve (u64_saturating_mul (zlen input) (size_of_ref + size_of_usize * 2)) ;;
  let rerank := match kind with RankRerank => true | RankKnn => false end in
  candidates ← mfor (vector_candidate entity_index query_expr collection rerank) [] (imap pair input);
  let records := map (fun c : nat * RecordRefV2 * VectorValueV2 => c.1.2) candidates in
  vectors ← vector_lookup records (cs_name collection) rerank;
  if negb (zlen (vb_entries vectors) =? zlen records)
  then fail (query_error "DATA_CORRUPTION" "execute" "vector_batch_alignment")
  else
    ranked ← mfor (vector_score collection rerank) [] (zip candidates (vb_entries vectors));
    push_ranked input k (sort_by (rank_compare f64_partial_cmp) ranked).
End Vectors.

(** *** Text *)

(** [split(char::is_whitespace)], on scalars *)
Fixpoint split_whitespace (scalars : list (list byte)) : list (list byte) :=
  match scalars with
  | [] => [[]]
  | c :: scalars =>
      if is_whitespace c then [] :: split_whitespace scalars
      else match split_whitespace scalars with
           | part :: parts => (c ++ part) :: parts
           | [] => [c]
           end
  end.
Definition whitespace_tokens (text : string) : list string :=
  map str_of_bytes (List.filter (fun part => negb (bool_decide (part = []))) (split_whitespace (chars text))).
Definition size_of_string : Z := 24.
Definition unicode_whitespace_tokens (text : string) : exec (list string) :=
  let tokens := whitespace_tokens text in
  reserve (zstr text +sat u64_saturating_mul (zlen tokens) (size_of_string + 24)) ;;
  mret tokens.

Context `{Libm, RetrievalLayout}.
Variable graph : GraphSnapshotV2.
Variable hydrated : HydratedValuesV2.

Notation corpus := (list (RecordKeyV2 * (RecordRefV2 * list string))) (only parsing).

(** One node of the snapshot: its text, if it has the property and the property is text *)
Definition lexical_document (field has_property : FieldIdV2) (acc : corpus * Z) (record : RecordRefV2)
  : exec (corpus * Z) :=
  let '(docs, total_length) := acc in
  check ;;
  let name := default EmptyString (fi_name field) in
  present ← lift (ok_or (hydrated_get hydrated record has_property name) (failure "lexical_hydration"));
  if negb (value_eqb present (VBool true)) then mret acc
  else
    value ← lift (ok_or (hydrated_get hydrated record field name) (failure "lexical_hydration"));
    match value with
    | VJson (JString text) =>
        tokens ← unicode_whitespace_tokens text;
        reserve (size_of_document + size_of_record_key + 64) ;;
        mret (bt_insert cmp_record_key (record_key record) (record, tokens) docs,
              total_length +sat zlen tokens)
    | _ => mret acc
    end.

Definition f64_ratio (a b : Z) : f64 := f64_div (f64_of_Z a) (f64_of_Z b).
(** How many documents have the term, and how often a document has it *)
Definition document_frequency (docs : corpus) (term : string) : Z :=
  zlen (List.filter (fun d => bool_decide (term ∈ d.2.2)) docs).
Definition term_frequency (tokens : list string) (term : string) : Z :=
  zlen (List.filter (fun t => bool_decide (t = term)) tokens).
Definition inverse_document_frequency (corpus_size : f64) (docs : corpus) (term : string) : f64 :=
  let df := f64_of_Z (document_frequency docs term) in
  f64_ln (f64_add f64_one (f64_div (f64_add (f64_sub corpus_size df) (f64_ratio 1 2))
                                   (f64_add df (f64_ratio 1 2)))).
(** The BM25 score, with [k1 = 1.2] and [b = 0.75] *)
Definition lexical_term_score (average_length : f64) (tokens : list string) (score : f64)
  (term : string * f64) : f64 :=
  let frequency := f64_of_Z (term_frequency tokens term.1) in
  if f64_eqb frequency f64_zero then score
  else
    let length := f64_add (f64_sub f64_one (f64_ratio 3 4))
                    (f64_mul (f64_ratio 3 4) (f64_div (f64_of_Z (zlen tokens)) average_length)) in
    let weight := f64_div (f64_mul frequency (f64_add f64_one (f64_div f64_one (f64_ratio 12 10))))
                    (f64_add (f64_div frequency (f64_ratio 12 10)) length) in
    f64_add score (f64_mul term.2 weight).
Definition lexical_score (average_length : f64) (terms : list (string * f64)) (tokens : list string)
  : f64 := foldl (lexical_term_score average_length tokens) f64_zero terms.

(** The body of the loop over the rows *)
Definition lexical_row (docs : corpus) (average_length : f64) (terms : list (string * f64))
  (entity_index : nat) (acc : list ranked) (irow : nat * vrow) : exec (list ranked) :=
  check ;;
  match irow.2 !! entity_index with
  | Some (VEntity record) =>
      if negb (bool_decide (rr_kind record = Node))
      then fail (query_error "CAPABILITY_UNSUPPORTED" "execute" "lexical_owner_kind")
      else
        match bt_get cmp_record_key (record_key record) docs with
        | None => mret acc
        | Some (owner, tokens) =>
            let score := lexical_score average_length terms tokens in
            if negb (f64_is_finite score) then fail (failure "lexical_nonfinite_score")
            else if bool_decide (f64_partial_cmp score f64_zero = Some Gt) then
              reserve (size_of_score + size_of_record_key + 24) ;;
              mret (acc ++ [(irow.1, record_key owner, {|
                sc_value := score; sc_owner := owner; sc_source := "lexical";
                sc_scope := "whole_input"; sc_metric := LEXICAL_PROFILE_ID |})])
            else mret acc
        end
  | Some VNull => mret acc
  | _ => fail (failure "lexical_owner")
  end.
(** [collect::<BTreeSet<_>>()] *)
Definition string_set (l : list string) : list string :=
  map fst (foldl (fun s t => bt_insert cmp_str t tt s) [] l).
Definition lexical_match_rows (input : list vrow) (entity_index : nat)
  (field has_property : FieldIdV2) (query_text : string) (k : Z) : exec (list vrow) :=
  query_terms ← unicode_whitespace_tokens query_text;
  let query_terms := string_set query_terms in
  '(docs, total_length) ← mfor (lexical_document field has_property) ([], 0) (map snd (gs_nodes graph));
  let corpus_size := f64_of_Z (zlen docs) in
  let average_length :=
    match docs with [] => f64_zero | _ => f64_div (f64_of_Z total_length) corpus_size end in
  terms ← mtraverse (fun term =>
      reserve (zstr term +sat 64) ;;
      mret (term, inverse_document_frequency corpus_size docs term)) query_terms;
  reserve (u64_saturating_mul (zlen input) 64) ;;
  l ← mfor (lexical_row docs average_length terms entity_index) [] (imap pair input);
  push_ranked input k (sort_by (rank_compare (fun x y => f64_partial_cmp y x)) l).
End Retrieval.

(** ** Contexts *)

Section Context_.
Context `{Clock, Layout, Unicode, HexSha256, RetrievalLayout}.
Variable hydrated : HydratedValuesV2.

Definition context_evidence (source : RecordRefV2) (text : string) (start_scalar end_scalar : Z)
  : ContextEvidenceV2 :=
  {| cev_source := source; cev_source_hash := hex_sha256 text;
     cev_start_scalar := start_scalar; cev_end_scalar := end_scalar |}.
Definition scalar_count (s : string) : Z := zlen (chars s).
(** [chars().take(n).collect::<String>()] *)
Definition take_scalars (n : Z) (s : string) : string := str_of_bytes (concat (ztake n (chars s))).

(** The fields of the package the loop builds, and whether it stopped *)
Record packing := {
  pk_rendered : string; pk_count : Z; pk_fragments : list ContextFragmentV2;
  pk_omitted : list ContextEvidenceV2; pk_stopped : bool }.
Definition packing_init : packing :=
  {| pk_rendered := EmptyString; pk_count := 0; pk_fragments := []; pk_omitted := []; pk_stopped := false |}.

(** The record cited by a row, if it has one *)
Definition context_source (text_entity evidence : BoundExpr) (row : vrow) : exec (option RecordRefV2) :=
  a ← eval row hydrated evidence;
  b ← eval row hydrated text_entity;
  match a, b with
  | VEntity source, VEntity text_source =>
      if bool_decide (source = text_source) then mret (Some source)
      else fail (query_error "CAPABILITY_UNSUPPORTED" "execute" "context_evidence_mismatch")
  | VNull, _ | _, VNull => mret None
  | _, _ => fail (failure "context_evidence_type")
  end.
(** The text of a row, if it has one *)
Definition context_text (text : BoundExpr) (row : vrow) : exec (option string) :=
  v ← eval row hydrated text;
  match v with
  | VNull => mret None
  | VJson (JString text) => mret (Some text)
  | VJson _ => fail (query_error "CAPABILITY_UNSUPPORTED" "execute" "context_text_type")
  | _ => fail (failure "context_text_type")
  end.
(** Packing one text: left out, cut, or whole *)
Definition pack_text (token_budget : Z) (source : RecordRefV2) (source_text : string) (p : packing)
  : exec packing :=
  let total := scalar_count source_text in
  let citation := ("[" +:+ to_string (zlen (pk_fragments p) + 1) +:+ "]")%string in
  let separator := match pk_fragments p with [] => EmptyString | _ => str_of_bytes [byte_of 10] end in
  let overhead := scalar_count separator + scalar_count citation in
  let remaining := u64_saturating_sub token_budget (pk_count p) in
  if pk_stopped p || (remaining <? overhead) || ((0 <? total) && (remaining =? overhead)) then
    reserve (zstr source_text + 128) ;;
    mret {| pk_rendered := pk_rendered p; pk_count := pk_count p; pk_fragments := pk_fragments p;
            pk_omitted := pk_omitted p ++ [context_evidence source source_text 0 total];
            pk_stopped := true |}
  else
    let kept := Z.min total (remaining - overhead) in
    let text := take_scalars kept source_text in
    reserve (zstr separator + zstr text + zstr citation + zstr source_text + zstr (rr_id source)
             + zstr (rr_revision source) + 256) ;;
    let rendered := (pk_rendered p +:+ separator +:+ text +:+ citation)%string in
    mret {| pk_rendered := rendered; pk_count := scalar_count rendered;
            pk_fragments := pk_fragments p ++ [{| cf_text := text; cf_citation := citation;
              cf_evidence := context_evidence source source_text 0 kept |}];
            pk_omitted := pk_omitted p ++
              (if kept <? total then [context_evidence source source_text kept total] else []);
            pk_stopped := pk_stopped p || (kept <? total) |}.
Definition pack_row (text evidence text_entity : BoundExpr) (token_budget : Z) (p : packing) (row : vrow)
  : exec packing :=
  check ;;
  source ← context_source text_entity evidence row;
  match source with
  | None => mret p
  | Some source =>
      source_text ← context_text text row;
      match source_text with
      | None => mret p
      | Some source_text => pack_text token_budget source source_text p
      end
  end.
(** [size_of::<ContextEvidenceV2>()]: a reference, a string and two integers *)
Definition size_of_evidence : Z := size_of_ref + size_of_string + 16.
Definition context_pack_row (input : list vrow) (text evidence text_entity : BoundExpr)
  (token_budget : Z) (tokenizer_fingerprint : string) : exec (list vrow) :=
  p ← mfor (pack_row text evidence text_entity token_budget) packing_init input;
  let truncated := match pk_omitted p with [] => false | _ => true end in
  reserve (zstr (pk_rendered p) + zstr tokenizer_fingerprint
           + u64_saturating_mul (zlen (pk_fragments p) + zlen (pk_omitted p)) (size_of_evidence + 128)) ;;
  mret [[VContext {|
    cp_rendered_context := pk_rendered p; cp_token_count := pk_count p; cp_token_budget := token_budget;
    cp_tokenizer_fingerprint := tokenizer_fingerprint; cp_fragments := pk_fragments p;
    cp_omitted_refs := pk_omitted p; cp_truncated := truncated;
    cp_truncation_reason := if truncated then Some "TOKEN_BUDGET"%string else None |}]].
End Context_.
