(* ===== verification/Executor.v ===== *)
(** * The executor of plans

    The properties read before a kernel runs, the physical plan, and the loop over its
    operators. First [src/src/query/hql2/exec.rs], lines 829 to 1173: the properties a kernel's
    expressions and constraints read, the records they are read from, and the batches in which
    the values are fetched. *)
From S2P Require Export RetrievalKernels QueryTyping Source.
Local Open Scope Z_scope.

Record PropertyNeedV2 := { nd_entity : BoundExpr; nd_name : BoundExpr; nd_field : FieldIdV2 }.
Record HydrationGroupV2 := {
  hg_fields : list (Z * FieldIdV2); hg_records : list (RecordKeyV2 * RecordRefV2) }.
Definition empty_group : HydrationGroupV2 := {| hg_fields := []; hg_records := [] |}.

(** [entry(k).or_insert(v)] *)
Definition bt_or_insert {K V} (c : K -> K -> comparison) (k : K) (v : V) (m : list (K * V)) : list (K * V) :=
  if bt_contains c k m then m else bt_insert c k v m.
Definition put_field (f : FieldIdV2) (g : HydrationGroupV2) : HydrationGroupV2 :=
  {| hg_fields := bt_insert Z.compare (fi_index f) f (hg_fields g); hg_records := hg_records g |}.
Definition or_field (f : FieldIdV2) (g : HydrationGroupV2) : HydrationGroupV2 :=
  {| hg_fields := bt_or_insert Z.compare (fi_index f) f (hg_fields g); hg_records := hg_records g |}.
Definition or_record (r : RecordRefV2) (g : HydrationGroupV2) : HydrationGroupV2 :=
  {| hg_fields := hg_fields g;
     hg_records := bt_or_insert cmp_record_key (record_key r) r (hg_records g) |}.

(** The lengths of a reference, saturating *)
Definition identity_bytes (r : RecordRefV2) : Z :=
  zstr (rr_database_id r) +sat zstr (rr_namespace r) +sat zstr (rr_id r) +sat zstr (rr_revision r).

Section Hydration.
Context `{Clock, Layout, Unicode}.

(** *** What a kernel reads *)

Definition expression_roots (kernel : Kernel) : list BoundExpr :=
  match kernel with
  | KnFilter e | KnJoin _ e _ => [e]
  | KnProject exprs => exprs
  | KnSort keys => map (fun k => k.1.1) keys
  | KnAggregate groups aggregates => groups ++ omap ag_arg aggregates
  | KnContextPack text evidence _ _ _ => [text; evidence]
  | _ => []
  end.
Definition kernel_expression_roots (kernel : Kernel) : exec (list BoundExpr) :=
  let roots := expression_roots kernel in
  reserve (u64_saturating_mul (zlen roots) size_of_pointer) ;; mret roots.

Definition needs_state : Type := list BoundExpr * gset Z * list PropertyNeedV2.
(** One round of [while let Some(expression) = stack.pop()]; the top is the head. *)
Definition need_round (st : needs_state) : exec (needs_state + list PropertyNeedV2) :=
  let '(stack, seen, needs) := st in
  match stack with
  | [] => mret (inr needs)
  | e :: stack =>
      check ;;
      match be_kind e with
      | KProperty entity name _ field =>
          '(seen, needs) ←
            (if bool_decide (fi_index field ∈ seen) then mret (seen, needs)
             else
               reserve 64 ;;
               mret ({[fi_index field]} ∪ seen,
                     needs ++ [{| nd_entity := entity; nd_name := name; nd_field := field |}]));
          reserve (2 * size_of_pointer) ;;
          mret (inl (entity :: name :: stack, seen, needs))
      | KBinary _ l r =>
          reserve (2 * size_of_pointer) ;; mret (inl (l :: r :: stack, seen, needs))
      | KUnary _ a | KLower a | KLength a =>
          reserve size_of_pointer ;; mret (inl (a :: stack, seen, needs))
      | KIn e values _ =>
          reserve (u64_saturating_mul (zlen values + 1) size_of_pointer) ;;
          mret (inl (e :: rev values ++ stack, seen, needs))
      | _ => mret (inl (stack, seen, needs))
      end
  end.
(** A round for every node of the expressions, and the last *)
Definition needs_fuel (roots : list BoundExpr) : nat :=
  Nat.log2_up (S (list_sum (map be_size roots))).
Definition property_needs (roots : list BoundExpr) : exec (list PropertyNeedV2) :=
  r ← rounds need_round (needs_fuel roots) (rev roots, ∅, []);
  match r with inr needs => mret needs | inl _ => fail (failure "fuel") end.

(** *** The records they are read from *)

(** One property of one row: into the static group when its name is fixed, else into the
    group of the name it has on this row. *)
Definition collect_need (row : vrow) (acc : HydrationGroupV2 * list (string * HydrationGroupV2))
  (need : PropertyNeedV2) : exec (HydrationGroupV2 * list (string * HydrationGroupV2)) :=
  let '(static_group, groups) := acc in
  entity ← eval row ∅ (nd_entity need);
  match entity with
  | VNull => mret acc
  | VEntity record =>
      match fi_name (nd_field need) with
      | Some name =>
          reserve (zstr name +sat identity_bytes record +sat 128) ;;
          mret (or_record record (or_field (nd_field need) static_group), groups)
      | None =>
          value ← eval row ∅ (nd_name need);
          match value with
          | VUtf8 name =>
              reserve (zstr name +sat identity_bytes record +sat 128) ;;
              let group := default empty_group (bt_get cmp_str name groups) in
              mret (static_group,
                    bt_insert cmp_str name
                      (or_record record (or_field (with_name (nd_field need) name) group)) groups)
          | _ => fail (failure "bound_type")
          end
      end
  | _ => fail (failure "bound_type")
  end.
Definition collect_row_hydration (needs : list PropertyNeedV2)
  (acc : HydrationGroupV2 * list (string * HydrationGroupV2)) (row : vrow)
  : exec (HydrationGroupV2 * list (string * HydrationGroupV2)) := mfor (collect_need row) acc needs.

Definition add_record (group : HydrationGroupV2) (record : RecordRefV2) : exec HydrationGroupV2 :=
  check ;;
  reserve (identity_bytes record +sat (size_of_ref + 128)) ;;
  mret (or_record record group).
Definition add_static_property_records (properties : list BoundPatternProperty)
  (records : list RecordRefV2) (group : HydrationGroupV2) : exec HydrationGroupV2 :=
  match properties with
  | [] => mret group
  | _ =>
      group ← mfor (fun group p =>
          reserve (2 * size_of_field + 64) ;;
          mret (put_field (bp_has_property_field p) (put_field (bp_value_field p) group))) group properties;
      mfor add_record group records
  end.
(** The properties of the vertices and of the edges of a sequence *)
Definition sequence_node_properties (start : BoundSequenceNode) (steps : list BoundSequenceStep)
  : list BoundPatternProperty :=
  map snd (bn_properties start ++ concat (map (fun s => bn_properties (bs_node s)) steps)).
Definition sequence_edge_properties (steps : list BoundSequenceStep) : list BoundPatternProperty :=
  map snd (concat (map bs_edge_properties steps)).
Definition add_kernel_static_hydration (kernel : Kernel) (graph : option GraphSnapshotV2)
  (group : HydrationGroupV2) : exec HydrationGroupV2 :=
  match kernel with
  | KnLexicalMatch _ field has_property _ _ _ =>
      graph ← lift (ok_or graph (failure "lexical_source_unavailable"));
      reserve (2 * size_of_field + 64) ;;
      mfor add_record (put_field has_property (put_field field group)) (map snd (gs_nodes graph))
  | KnMatchSequence start steps _ _ _ _ | KnExpandSequence _ start steps _ _ _ =>
      match sequence_node_properties start steps, sequence_edge_properties steps with
      | [], [] => mret group
      | nodes, edges =>
          graph ← lift (ok_or graph (failure "graph_source_unavailable"));
          group ← add_static_property_records nodes (map snd (gs_nodes graph)) group;
          add_static_property_records edges (map ge_edge (gs_edges graph)) group
      end
  | _ => mret group
  end.

(** *** The batches *)

Section Batches.
Variable hydrate : list RecordRefV2 -> list FieldIdV2 -> exec ExecBatchV2.

Definition hydrate_group (hydrated : HydratedValuesV2) (group : HydrationGroupV2)
  : exec HydratedValuesV2 :=
  check ;;
  let field_count := zlen (hg_fields group) in
  let record_count := zlen (hg_records group) in
  let identity := sum_sat 0 (map (fun kv => identity_bytes kv.2) (hg_records group)) in
  let names := sum_sat 0 (map zstr (omap (fun kv => fi_name kv.2) (hg_fields group))) in
  let cells := u64_saturating_mul record_count field_count in
  reserve (u64_saturating_mul field_count size_of_field
           +sat u64_saturating_mul record_count (size_of_ref + 128)
           +sat u64_saturating_mul cells 64
           +sat u64_saturating_mul identity field_count
           +sat u64_saturating_mul names record_count) ;;
  let fields := map snd (hg_fields group) in
  let records := map snd (hg_records group) in
  batch ← hydrate records fields;
  lift (add_batch hydrated records fields batch).

Definition row_width (rows : list vrow) : Z := match rows with row :: _ => zlen row | [] => 0 end.
(** The groups of the rows a kernel's expressions are evaluated on *)
Definition collect_groups (kernel : Kernel) (needs : list PropertyNeedV2) (static_group : HydrationGroupV2)
  (input : list vrow) (right_ : option (list vrow))
  : exec (HydrationGroupV2 * list (string * HydrationGroupV2)) :=
  match kernel with
  | KnJoin _ _ _ =>
      right_ ← lift (ok_or right_ (failure "join_input"));
      reserve (u64_saturating_mul (row_width input +sat row_width right_) size_of_value +sat size_of_row) ;;
      mfor (fun acc l => mfor (fun acc r => check ;; collect_row_hydration needs acc (l ++ r)) acc right_)
        (static_group, []) input
  | _ => mfor (collect_row_hydration needs) (static_group, []) input
  end.
Definition hydrate_for_kernel (kernel : Kernel) (input : list vrow) (right_ : option (list vrow))
  (graph : option GraphSnapshotV2) : exec HydratedValuesV2 :=
  roots ← kernel_expression_roots kernel;
  needs ← property_needs roots;
  static_group ← add_kernel_static_hydration kernel graph empty_group;
  match needs, hg_fields static_group with
  | [], [] => mret ∅
  | _, _ =>
      '(static_group, groups) ← collect_groups kernel needs static_group input right_;
      let batches := match hg_fields static_group with [] => [] | _ => [static_group] end
                     ++ map snd groups in
      reserve (u64_saturating_mul (zlen batches) size_of_group) ;;
      mfor hydrate_group ∅ batches
  end.
End Batches.
End Hydration.

(** ** Physical plans

    [src/src/query/hql2/plan.rs] and the counters of [src/src/query/hql2/result.rs]: the plan
    of a bound query, what it needs opened, how it is explained, and the identity it is hashed
    under. *)

Definition PLANNER_VERSION_V2 : string := "hql2-rule-v1".

(** *** Results of a plan ([result.rs]) *)

Inductive EstimateConfidenceV2 := EstLow | EstMedium | EstHigh.
Record EstimateV2 := {
  es_rows_min : Z; es_rows_max : option Z; es_confidence : EstimateConfidenceV2 }.
Inductive CounterUnitV2 :=
| CuRows | CuBytes | CuWorkUnits | CuIndexProbes | CuDistanceEvaluations | CuGraphExpansions
| CuNanoseconds.
Inductive CounterUnknownReasonV2 := CrNotInstrumented | CrNotApplicable | CrOverflow.
Inductive CounterMeasurementV2 :=
| CmMeasured (value : Z)
| CmUnknown (reason : CounterUnknownReasonV2).
Record CounterReadingV2 := { ct_unit : CounterUnitV2; ct_measurement : CounterMeasurementV2 }.
Definition counter_measured (unit_ : CounterUnitV2) (value : Z) : CounterReadingV2 :=
  {| ct_unit := unit_; ct_measurement := CmMeasured value |}.
Definition counter_unknown (unit_ : CounterUnitV2) (reason : CounterUnknownReasonV2) : CounterReadingV2 :=
  {| ct_unit := unit_; ct_measurement := CmUnknown reason |}.
Definition counter_measured_or_overflow (unit_ : CounterUnitV2) (value : option Z) : CounterReadingV2 :=
  match value with
  | Some value => counter_measured unit_ value
  | None => counter_unknown unit_ CrOverflow
  end.
(** The sampling, the clock and the scope have one value each. *)
Record ActualCountersV2 := {
  ac_rows_in : CounterReadingV2;
  ac_rows_out : CounterReadingV2;
  ac_bytes_read : CounterReadingV2;
  ac_work_units : CounterReadingV2;
  ac_index_probes : CounterReadingV2;
  ac_distance_evaluations : CounterReadingV2;
  ac_graph_expansions : CounterReadingV2;
  ac_memory_peak_bytes : CounterReadingV2;
  ac_spill_bytes : CounterReadingV2;
  ac_elapsed_ns : CounterReadingV2;
}.
Record ExplainNodeV2 := {
  ex_id : string;
  ex_logical_op : QueryOpV2;
  ex_physical_op : string;
  ex_inputs : list string;
  ex_columns : list ColumnV2;
  ex_estimates : option EstimateV2;
  ex_actual : option ActualCountersV2;
}.
Inductive CandidateSearchV2 := SearchExact | SearchApproximate.
Inductive DistanceFidelityV2 := FidOriginal | FidQuantized | FidNotApplicable.
Inductive IndexCoverageV2 := CovComplete | CovLagging | CovNotApplicable.
Inductive ResultScopeV2 := ScopeWholeInput | ScopeRerankCandidates | ScopeNotApplicable.
Record SemanticsV2 := {
  sm_candidate_search : CandidateSearchV2; sm_distance_fidelity : DistanceFidelityV2;
  sm_index_coverage : IndexCoverageV2; sm_scope : ResultScopeV2 }.

(** *** Plans *)

Record PhysicalPlanV2 := { pp_nodes : list BoundNode; pp_root : nat }.
Definition plan_v2 (q : BoundQueryV2) : query PhysicalPlanV2 :=
  Ok {| pp_nodes := bq_nodes q; pp_root := bq_root q |}.

Definition node_columns (columns : list Column) : list ColumnV2 :=
  map (fun c => {| cl_name := co_name c; cl_data_type := type_name (co_ty c);
                   cl_nullable := is_nullable (co_ty c) |}) columns.
(** An index out of range panics; the plan of a bound query has none. *)
Definition node_id_at (nodes : list BoundNode) (i : nat) : string :=
  match nodes !! i with Some n => bd_id n | None => EmptyString end.
Definition physical_op (kernel : Kernel) : string :=
  match kernel with
  | KnValues _ => "Values"
  | KnSourceScan (SrcNode _) => "AuthorizedNodeScan"
  | KnSourceScan (SrcEdge _) => "AuthorizedEdgeScan"
  | KnSourceScan (SrcRow _) => "AuthorizedRowScan"
  | KnSourceScan SrcAnnotation => "AuthorizedAnnotationScan"
  | KnSourceScan (SrcHistory _ _) => "AuthorizedHistoryScan"
  | KnSourceScan (SrcChanges _) => "AuthorizedChangeScan"
  | KnAnnotationLookup _ _ => "AuthorizedAnnotationLookup"
  | KnVectorRank _ _ _ _ _ => "ExactVectorScan"
  | KnLexicalMatch _ _ _ _ _ _ => "ExactLexicalScan"
  | KnContextPack _ _ _ _ _ => "ContextPack"
  | KnMatchCompact _ false _ | KnMatchSequence _ _ _ _ false _ => "BoundedMatch"
  | KnMatchCompact _ true _ | KnMatchSequence _ _ _ _ true _ => "BoundedShortestMatch"
  | KnExpand _ _ _ _ => "BoundedExpand"
  | KnExpandSequence _ _ _ _ _ _ => "BoundedExpandSequence"
  | KnFilter _ => "Filter"
  | KnProject _ => "Project"
  | KnDistinct => "Distinct"
  | KnSort _ => "StableSort"
  | KnTake _ => "Take"
  | KnOffset _ => "Offset"
  | KnUnionAll => "UnionAll"
  | KnAggregate _ _ => "Aggregate"
  | KnJoin _ _ _ => "NestedLoopJoin"
  end.

Section Plan.
Variable plan : PhysicalPlanV2.

Definition plan_columns : list ColumnV2 :=
  match pp_nodes plan !! pp_root plan with Some n => node_columns (bd_columns n) | None => [] end.
Definition plan_root : string := node_id_at (pp_nodes plan) (pp_root plan).
Definition source_scans : list (string * BoundSourceV2) :=
  omap (fun n => match bd_kernel n with KnSourceScan s => Some (bd_id n, s) | _ => None end) (pp_nodes plan).
Definition requires_graph_snapshot : bool :=
  existsb (fun n => match bd_kernel n with
    | KnMatchCompact _ _ _ | KnMatchSequence _ _ _ _ _ _ | KnExpand _ _ _ _
    | KnExpandSequence _ _ _ _ _ _ | KnLexicalMatch _ _ _ _ _ _ => true
    | _ => false
    end) (pp_nodes plan).
Definition node_has_labels (n : BoundSequenceNode) : bool := negb (bool_decide (bn_labels n = [])).
Definition requires_node_labels : bool :=
  existsb (fun n => match bd_kernel n with
    | KnMatchSequence start steps _ _ _ _ | KnExpandSequence _ start steps _ _ _ =>
        node_has_labels start || existsb (fun step => node_has_labels (bs_node step)) steps
    | _ => false
    end) (pp_nodes plan).
Definition requires_vector_snapshot : bool :=
  existsb (fun n => match bd_kernel n with KnVectorRank _ _ _ _ _ => true | _ => false end) (pp_nodes plan).
(** The flags [has_knn] and [has_rerank] of the loop *)
Definition rank_flags : bool * bool :=
  foldl (fun flags n => match bd_kernel n with
    | KnVectorRank _ _ _ _ RankKnn => (true, flags.2)
    | KnVectorRank _ _ _ _ RankRerank => (flags.1, true)
    | _ => flags
    end) (false, false) (pp_nodes plan).
Definition semantics : SemanticsV2 :=
  let '(has_knn, has_rerank) := rank_flags in
  if has_knn || has_rerank then
    {| sm_candidate_search := SearchExact; sm_distance_fidelity := FidOriginal;
       sm_index_coverage := CovNotApplicable;
       sm_scope := if has_rerank then ScopeRerankCandidates else ScopeWholeInput |}
  else
    {| sm_candidate_search := SearchExact; sm_distance_fidelity := FidNotApplicable;
       sm_index_coverage := CovNotApplicable; sm_scope := ScopeWholeInput |}.
Definition explain_node (n : BoundNode) : ExplainNodeV2 := {|
  ex_id := bd_id n;
  ex_logical_op := bd_op n;
  ex_physical_op := physical_op (bd_kernel n);
  ex_inputs := map (node_id_at (pp_nodes plan)) (bd_inputs n);
  ex_columns := node_columns (bd_columns n);
  ex_estimates := None;
  ex_actual := None;
|}.
Definition explain_nodes : list ExplainNodeV2 := map explain_node (pp_nodes plan).

(** [serde_json::to_vec] of the identity, generated code; it may fail. *)
Definition plan_identity : string * string * list ExplainNodeV2 :=
  (PLANNER_VERSION_V2, plan_root, explain_nodes).
Definition plan_hash `{HexSha256} (to_vec : string * string * list ExplainNodeV2 -> option string)
  : query string :=
  bytes ← ok_or (to_vec plan_identity) (query_error "ENCODE_ERROR" "encode" "plan_hash");
  Ok (hex_sha256 ("genesis.hql2.plan.v2:" +:+ bytes)).
End Plan.

(** ** The executor

    [src/src/query/hql2/exec.rs], lines 1253 to 1274, 1871 to 1965 and 2669 to 2776: every
    operator of a plan in turn, over the rows of the operators before it, with its counters,
    and the size of the answer. *)

(** [serde_json::to_writer] of rows: how many bytes it writes; it may fail. *)
Class RowsJson := { rows_json_len : list vrow -> option Z }.

Record ExecutionOutputV2 := { eo_rows : list vrow; eo_nodes : list ExplainNodeV2 }.

Definition capability (reason : string) : QueryErrorV2 :=
  query_error "CAPABILITY_UNSUPPORTED" "execute" reason.

Section Executor.
Context `{Clock, Layout, Unicode, UuidCrate, StdSort, PathLayout, Libm, RetrievalLayout, HexSha256, RowsJson}.

(** [Instant::now()] *)
Definition now : exec Z := fun b => Ok (instant (eb_reads b), set_reads (S (eb_reads b)) b).

Section Adapters.
Variable annotation_lookup : RecordRefV2 -> exec (list RecordRefV2).
Variable hydrate : list RecordRefV2 -> list FieldIdV2 -> exec ExecBatchV2.
Variable vector_lookup : list RecordRefV2 -> string -> bool -> exec VectorBatchV2.
Variable sources : btree (list vrow).
Variable graph : option GraphSnapshotV2.

Definition require_graph (reason : string) : exec GraphSnapshotV2 :=
  lift (ok_or graph (capability reason)).
Definition graph_unavailable : string := "graph_source_unavailable".

(** The rows of one operator: the arms of [match &node.kernel] *)
Definition run_kernel (node : BoundNode) (hydrated : HydratedValuesV2) (input : list vrow)
  (right_ : option (list vrow)) (inputs : list (list vrow)) : exec (list vrow) :=
  let width := length (bd_columns node) in
  match bd_kernel node with
  | KnValues value =>
      match value with
      | VList values =>
          mfor (fun out v => reserve (size_of_row * 2) ;; v ← clone_value v; mret (out ++ [[v]])) [] values
      | _ => fail (failure "bound_values")
      end
  | KnSourceScan _ =>
      rows ← lift (ok_or (bt_get cmp_str (bd_id node) sources) (failure "source_batch_missing"));
      copy_rows [] rows
  | KnMatchCompact pattern shortest anchors =>
      graph ← require_graph graph_unavailable;
      match_compact_rows graph pattern shortest anchors width
  | KnMatchSequence start steps mode path_index shortest anchors =>
      graph ← require_graph graph_unavailable;
      match_sequence_rows graph hydrated start steps mode path_index shortest anchors width
  | KnAnnotationLookup target_index optional =>
      annotation_rows annotation_lookup target_index optional input
  | KnVectorRank entity_index query_expr collection k kind =>
      vector_rank_rows hydrated vector_lookup entity_index query_expr collection k kind input
  | KnLexicalMatch entity_index field has_property query_text k alias_index =>
      if existsb (fun row => negb (length row =? alias_index)%nat) input
      then fail (failure "lexical_input_schema")
      else
        graph ← require_graph "lexical_source_unavailable";
        out ← lexical_match_rows graph hydrated input entity_index field has_property query_text k;
        if existsb (fun row => negb (length row =? width)%nat) out
        then fail (failure "lexical_output_schema") else mret out
  | KnContextPack text evidence text_entity tokens tokenizer_fingerprint =>
      if negb (width =? 1)%nat then fail (failure "context_output_schema")
      else context_pack_row hydrated input text evidence text_entity tokens tokenizer_fingerprint
  | KnExpand start_index end_index pattern optional =>
      graph ← require_graph graph_unavailable;
      expand_rows graph start_index end_index pattern optional input
  | KnExpandSequence start_index start steps mode path_index optional =>
      graph ← require_graph graph_unavailable;
      expand_sequence_rows graph hydrated start_index start steps mode path_index optional width input
  | KnFilter predicate => filter_rows hydrated predicate input
  | KnProject exprs => project_rows hydrated exprs input
  | KnDistinct => distinct_rows input
  | KnSort keys => sort_rows hydrated keys input
  | KnTake count => take_rows count input
  | KnOffset count => offset_rows count input
  | KnUnionAll => union_all_rows inputs
  | KnAggregate groups aggregates => aggregate_rows hydrated groups aggregates input
  | KnJoin kind condition right_width =>
      right_ ← lift (ok_or right_ (failure "join_input"));
      join_rows hydrated kind condition right_width input right_
  end.

(** *** Counters *)

Definition is_graph_operator (kernel : Kernel) : bool :=
  match kernel with
  | KnExpand _ _ _ _ | KnExpandSequence _ _ _ _ _ _ | KnMatchCompact _ _ _ | KnMatchSequence _ _ _ _ _ _ => true
  | _ => false
  end.
(** [try_fold] with [checked_add] over the inputs' lengths *)
Definition count_rows (inputs : list (list vrow)) : option Z :=
  foldl (fun total rows => t ← total; u64_checked_add t (zlen rows)) (Some 0) inputs.
Definition actual_counters (kernel : Kernel) (before after : ExecutionBudgetV2) (started ended : Z)
  (input_rows : option Z) (out : list vrow) : ActualCountersV2 := {|
  ac_rows_in := counter_measured_or_overflow CuRows input_rows;
  ac_rows_out := counter_measured_or_overflow CuRows (Some (zlen out));
  ac_bytes_read := counter_unknown CuBytes CrNotInstrumented;
  ac_work_units := counter_unknown CuWorkUnits CrNotInstrumented;
  ac_index_probes := counter_unknown CuIndexProbes CrNotApplicable;
  ac_distance_evaluations :=
    match kernel with
    | KnVectorRank _ _ _ _ _ =>
        counter_measured_or_overflow CuDistanceEvaluations
          (u64_checked_sub (eb_distance_evaluations_used after) (eb_distance_evaluations_used before))
    | _ => counter_unknown CuDistanceEvaluations CrNotApplicable
    end;
  ac_graph_expansions :=
    if is_graph_operator kernel then
      counter_measured_or_overflow CuGraphExpansions
        (nodes ← u64_checked_sub (eb_expanded_nodes_used after) (eb_expanded_nodes_used before);
         edges ← u64_checked_sub (eb_expanded_edges_used after) (eb_expanded_edges_used before);
         u64_checked_add nodes edges)
    else counter_unknown CuGraphExpansions CrNotApplicable;
  ac_memory_peak_bytes := counter_unknown CuBytes CrNotInstrumented;
  ac_spill_bytes := counter_unknown CuBytes CrNotApplicable;
  ac_elapsed_ns :=
    match kernel with
    | KnSourceScan _ => counter_unknown CuNanoseconds CrNotInstrumented
    | _ => counter_measured_or_overflow CuNanoseconds
             (let ns := Z.max 0 (ended - started) in if ns <=? u64_max then Some ns else None)
    end;
|}.
Definition with_actual (n : ExplainNodeV2) (c : ActualCountersV2) : ExplainNodeV2 := {|
  ex_id := ex_id n; ex_logical_op := ex_logical_op n; ex_physical_op := ex_physical_op n;
  ex_inputs := ex_inputs n; ex_columns := ex_columns n; ex_estimates := ex_estimates n;
  ex_actual := Some c |}.

(** *** The loop *)

(** An operator whose input comes later panics; bound queries have none. *)
Definition output_at (outputs : list (list vrow)) (i : nat) : query (list vrow) :=
  ok_or (outputs !! i) (failure "bound_input").
(** The body of the loop: the operator's rows, and its counters *)
Definition run_node (outputs : list (list vrow)) (node : BoundNode)
  : exec (list vrow * ActualCountersV2) :=
  check ;;
  started ← now;
  before ← get;
  inputs ← lift (traverse (output_at outputs) (bd_inputs node));
  let input := default [] (head inputs) in
  let right_ := inputs !! 1%nat in
  hydrated ← hydrate_for_kernel hydrate (bd_kernel node) input right_ graph;
  out ← run_kernel node hydrated input right_ inputs;
  check ;;
  ended ← (match bd_kernel node with KnSourceScan _ => mret started | _ => now end);
  after ← get;
  mret (out, actual_counters (bd_kernel node) before after started ended (count_rows inputs) out).
(** [outputs] and [explain], filled in the order of the plan *)
Definition run_nodes (plan : PhysicalPlanV2) : exec (list (list vrow) * list ExplainNodeV2) :=
  mfor (fun acc (ne : BoundNode * ExplainNodeV2) =>
      '(out, counters) ← run_node acc.1 ne.1;
      mret (acc.1 ++ [out], acc.2 ++ [with_actual ne.2 counters]))
    ([], []) (zip (pp_nodes plan) (explain_nodes plan)).
Definition execute_v2_with_vector_adapters (plan : PhysicalPlanV2) : exec ExecutionOutputV2 :=
  check ;;
  reserve (u64_saturating_mul (zlen (pp_nodes plan)) 1024) ;;
  '(outputs, explain) ← run_nodes plan;
  rows ← lift (output_at outputs (pp_root plan));
  bytes ← lift (ok_or (rows_json_len rows) (failure "result_encoding"));
  check_output (zlen rows) bytes ;;
  mret {| eo_rows := rows; eo_nodes := explain |}.
End Adapters.

(** A plan that reads nothing needs no adapter. *)
Definition execute_v2 (plan : PhysicalPlanV2) : exec ExecutionOutputV2 :=
  execute_v2_with_vector_adapters
    (fun _ => fail (capability "annotation_lookup_unavailable"))
    (fun _ _ => fail (failure "source_hydration_missing"))
    (fun _ _ _ => fail (capability "original_vector_unavailable"))
    [] None plan.
End Executor.
