(* ===== verification/ExecSafe.v ===== *)
(** * Code that does what its types say

    The judgement [safe], its rules and the relational operators; before them, the range of
    the distances they compute. Rounding of binary64 keeps numbers of moderate size finite;
    so the exact distances of vectors are finite. *)
From S2P Require Export Relational Executor.
Local Open Scope Z_scope.

Notation fexp64 := (fexp f64_prec f64_emax).
Notation round64 := (binary_round_aux f64_prec f64_emax).
Notation shr64 := (shr_fexp f64_prec f64_emax).

(** ** Digits *)

Lemma Zdigits2_bound m : 0 < m -> 2 ^ (Zdigits2 m - 1) <= m < 2 ^ Zdigits2 m.
Proof. destruct m as [|p|p]; [lia| |lia]. intros _. apply digits2_pos_bounds. Qed.
Lemma Zdigits2_nonneg m : 0 <= m -> 0 <= Zdigits2 m.
Proof. by destruct m. Qed.
Lemma Zdigits2_le m k : 0 <= m < 2 ^ k -> 0 <= k -> Zdigits2 m <= k.
Proof.
  intros [H0 Hm] Hk. destruct (decide (m = 0)) as [->|Hne]; [done|].
  pose proof (Zdigits2_bound m ltac:(lia)) as [Hl _].
  destruct (Z.le_gt_cases (Zdigits2 m) k) as [|Hgt]; [done|exfalso].
  pose proof (Z.pow_le_mono_r 2 k (Zdigits2 m - 1) ltac:(lia) ltac:(lia)). lia.
Qed.

(** ** Shifts to the right *)

Lemma shr_1_m mrs : 0 <= shr_m mrs -> shr_m (shr_1 mrs) = shr_m mrs / 2.
Proof.
  destruct mrs as [[|[p|p|]|p] r s]; cbn [shr_m shr_1]; intros Hm; try lia; try reflexivity.
  - rewrite Pos2Z.inj_xI. replace (2 * Zpos p + 1) with (1 + Zpos p * 2) by lia.
    by rewrite Z.div_add by lia.
  - rewrite Pos2Z.inj_xO, Z.mul_comm. by rewrite Z.div_mul by lia.
Qed.
Lemma iter_shr_m p mrs : 0 <= shr_m mrs -> shr_m (SpecFloat.iter_pos shr_1 p mrs) = shr_m mrs / 2 ^ Zpos p.
Proof.
  assert (forall m a b, 0 <= a -> 0 <= b -> m / 2 ^ a / 2 ^ b = m / 2 ^ (a + b)) as Hdiv.
  { intros m a b Ha Hb. rewrite Z.div_div, Z.pow_add_r by (try apply Z.pow_nonzero; lia). done. }
  assert (forall m a, 0 <= m -> 0 <= a -> 0 <= m / 2 ^ a) as Hpos.
  { intros m a Hm Ha. apply Z.div_pos; [done|by apply Z.pow_pos_nonneg]. }
  revert mrs; induction p as [p IH|p IH|]; intros mrs Hm; cbn [SpecFloat.iter_pos].
  - assert (0 <= shr_m (shr_1 mrs)) as H1 by (rewrite shr_1_m by done; apply (Hpos _ 1); lia).
    rewrite (IH (SpecFloat.iter_pos shr_1 p (shr_1 mrs))), (IH (shr_1 mrs)), shr_1_m
      by (rewrite ?IH by done; try apply Hpos; lia).
    change 2 with (2 ^ 1) at 1. rewrite !Hdiv by lia. f_equal. f_equal. lia.
  - rewrite (IH (SpecFloat.iter_pos shr_1 p mrs)), (IH mrs) by (rewrite ?IH by done; try apply Hpos; lia).
    rewrite Hdiv by lia. f_equal. f_equal. lia.
  - by apply shr_1_m.
Qed.
Lemma shr_fexp_spec m e l mrs e' : 0 <= m -> shr64 m e l = (mrs, e') ->
  e' = Z.max e (fexp64 (Zdigits2 m + e)) /\ shr_m mrs = m / 2 ^ (e' - e).
Proof.
  intros Hm. unfold shr_fexp, shr. set (n := fexp64 _ - e).
  assert (shr_m (shr_record_of_loc m l) = m) as Hr by (by destruct l as [|[]]).
  destruct n as [|p|p] eqn:Hn; intros [= <- <-].
  - rewrite Hr, Z.sub_diag, Z.div_1_r. split; [lia|done].
  - rewrite iter_shr_m, Hr by (by rewrite Hr). split; [lia|]. f_equal. f_equal. lia.
  - rewrite Hr, Z.sub_diag, Z.div_1_r. split; [lia|done].
Qed.
(** What is left of a mantissa has at most 53 digits. *)
Lemma shr_fexp_small m e l mrs e' : 0 <= m -> shr64 m e l = (mrs, e') -> 0 <= shr_m mrs < 2 ^ 53.
Proof.
  intros Hm Hs. apply shr_fexp_spec in Hs as [He ->]; [|done].
  assert (0 <= e' - e) as Hk by lia.
  split; [apply Z.div_pos; [done|by apply Z.pow_pos_nonneg]|].
  apply Z.div_lt_upper_bound; [by apply Z.pow_pos_nonneg|]. rewrite <- Z.pow_add_r by lia.
  destruct (decide (m = 0)) as [->|Hne]; [by apply Z.pow_pos_nonneg; lia|].
  pose proof (Zdigits2_bound m ltac:(lia)) as [_ Hlt]. eapply Z.lt_le_trans; [exact Hlt|].
  apply Z.pow_le_mono_r; [lia|]. unfold fexp, f64_prec in He. lia.
Qed.

(** ** Rounding *)

Lemma round_even_bounds m l : 0 <= m -> m <= round_nearest_even m l <= m + 1.
Proof. intros Hm. destruct l as [|[]]; cbn; try lia. destruct (Z.even m); lia. Qed.
(** A finite result has a mantissa of at most 53 digits ... *)
Lemma round_mantissa s m e l s' m' e' : 0 <= m -> round64 s m e l = S754_finite s' m' e' ->
  Zpos m' < 2 ^ 53.
Proof.
  intros Hm. unfold binary_round_aux. destruct (shr64 m e l) as [mrs e1] eqn:H1.
  destruct (shr64 _ e1 loc_Exact) as [mrs2 e2] eqn:H2.
  pose proof (shr_fexp_small _ _ _ _ _ Hm H1) as [Hs1 _].
  apply shr_fexp_small in H2 as [_ H2].
  2:{ pose proof (round_even_bounds (shr_m mrs) (loc_of_shr_record mrs) Hs1). lia. }
  destruct (shr_m mrs2) as [|p|p]; try done. destruct (_ <=? _); [|done]. by intros [= _ <- _].
Qed.
(** ... and a result of moderate size is finite. *)
Lemma round_finite s m e l : 0 <= m -> e <= 900 -> Zdigits2 m + e <= 900 ->
  f64_is_finite (round64 s m e l) = true.
Proof.
  intros Hm He Hd. unfold binary_round_aux. destruct (shr64 m e l) as [mrs e1] eqn:H1.
  destruct (shr64 _ e1 loc_Exact) as [mrs2 e2] eqn:H2.
  pose proof (shr_fexp_small _ _ _ _ _ Hm H1) as Hs1.
  pose proof (round_even_bounds (shr_m mrs) (loc_of_shr_record mrs) (proj1 Hs1)) as Hr.
  assert (0 <= shr_m mrs2 < 2 ^ 53) as Hs2 by (eapply shr_fexp_small; [|exact H2]; lia).
  apply shr_fexp_spec in H1 as [H1 _]; [|done]. apply shr_fexp_spec in H2 as [H2 _]; [|lia].
  assert (Zdigits2 (round_nearest_even (shr_m mrs) (loc_of_shr_record mrs)) <= 54) as Hd2.
  { apply Zdigits2_le; [|lia]. change (2 ^ 54) with (2 ^ 53 + 2 ^ 53). lia. }
  unfold fexp, emin, f64_prec, f64_emax in *.
  destruct (shr_m mrs2) as [|p|p]; [done| |lia]. destruct (Z.leb_spec e2 (1024 - 53)); [done|lia].
Qed.
Lemma iter_xO_val d m : Zpos (Pos.iter xO m d) = Zpos m * 2 ^ Zpos d.
Proof.
  induction d as [|d IH] using Pos.peano_ind; [cbn; lia|].
  rewrite Pos.iter_succ, Pos2Z.inj_xO, IH, Pos2Z.inj_succ, Z.pow_succ_r by lia. lia.
Qed.
Lemma shl_align_spec m e e' : let r := shl_align m e e' in
  r.2 <= e /\ Zpos r.1 = Zpos m * 2 ^ (e - r.2) /\ (e' <= e -> r.2 = e').
Proof.
  unfold shl_align. destruct (e' - e) as [|p|p] eqn:Hd; cbn [fst snd].
  1,2: rewrite Z.sub_diag; lia.
  split; [lia|]. rewrite iter_xO_val. split; [|lia]. f_equal. f_equal. lia.
Qed.
Lemma binary_round_finite s m e : e <= 900 -> Zpos m < 2 ^ (900 - e) ->
  f64_is_finite (binary_round f64_prec f64_emax s m e) = true.
Proof.
  intros He Hm. unfold binary_round. pose proof (shl_align_spec m e (fexp64 (Zpos (digits2_pos m) + e))) as (H1 & H2 & _).
  destruct (shl_align _ _ _) as [mz ez]. cbn [fst snd] in *. apply round_finite; [lia|lia|].
  enough (Zdigits2 (Zpos mz) <= 900 - ez) by lia. apply Zdigits2_le; [|lia]. rewrite H2.
  replace (900 - ez) with ((900 - e) + (e - ez)) by lia. rewrite Z.pow_add_r by lia.
  pose proof (Z.pow_pos_nonneg 2 (e - ez)). nia.
Qed.
Lemma normalize_finite z e s : e <= 900 -> Z.abs z < 2 ^ (900 - e) ->
  f64_is_finite (binary_normalize f64_prec f64_emax z e s) = true.
Proof. intros He Hz. destruct z; [done| |]; apply binary_round_finite; done. Qed.

(** ** Distances *)

(** A quotient is zero or has a mantissa of at most 53 digits. *)
Lemma div_mantissa x y s m e : f64_is_finite x = true -> f64_is_finite y = true ->
  f64_div x y = S754_finite s m e -> Zpos m < 2 ^ 53.
Proof.
  unfold f64_div, SFdiv. destruct x as [sx| | |sx mx ex], y as [sy| | |sy my ey]; try done.
  intros _ _. destruct (SFdiv_core_binary _ _ _ _ _ _) as [[mz ez] lz] eqn:Hc.
  apply round_mantissa. unfold SFdiv_core_binary in Hc.
  set (m' := match _ with Z0 => _ | Zpos _ => _ | Zneg _ => _ end) in Hc.
  assert (0 <= m') as Hm'.
  { unfold m'. destruct (_ - _); [lia| |lia]. apply Z.shiftl_nonneg. lia. }
  destruct (Z.div_eucl m' (Zpos my)) as [q r] eqn:Hq. injection Hc as <- _ _.
  change q with (q, r).1. rewrite <- Hq. change (Z.div_eucl m' (Zpos my)).1 with (fst (Z.div_eucl m' (Zpos my))).
  pose proof (Z.div_pos m' (Zpos my) Hm' ltac:(lia)) as Hp. unfold Z.div in Hp. by rewrite Hq in *.
Qed.

(** At most one, and so at most [2 ^ 53] times a power of two below [-52] *)
Lemma one_value : f64_one = S754_finite false 4503599627370496 (-52).
Proof. reflexivity. Qed.
Lemma clamp_small x : f64_is_finite x = true ->
  (forall s m e, x = S754_finite s m e -> Zpos m < 2 ^ 53) ->
  match f64_clamp_unit x with
  | S754_zero _ => True
  | S754_finite _ m e => Zpos m < 2 ^ 53 /\ e <= -52
  | _ => False
  end.
Proof.
  intros Hf Hm. unfold f64_clamp_unit, f64_partial_cmp. rewrite one_value. unfold f64_neg.
  assert (Zpos 4503599627370496 < 2 ^ 53) as HM by done. revert HM.
  generalize 4503599627370496%positive as M. intros M HM. cbn [SFopp negb].
  destruct x as [s| | |s m e]; try done. specialize (Hm s m e eq_refl). destruct s; cbn [SFcompare].
  - destruct (Z.compare_spec e (-52)) as [->|Hlt|Hgt]; cbn [SFcompare]; try (split; [done|lia]).
    destruct (CompOpp _); cbn [SFcompare]; split; done || lia.
  - destruct (Z.compare_spec e (-52)) as [->|Hlt|Hgt]; cbn [SFcompare]; try (split; [done|lia]).
    destruct (Pos.compare_cont _ _ _); split; done || lia.
Qed.
Lemma one_minus_finite x : match x with
    | S754_zero _ => True | S754_finite _ m e => Zpos m < 2 ^ 53 /\ e <= -52 | _ => False end ->
  f64_is_finite (f64_sub f64_one x) = true.
Proof.
  rewrite one_value. destruct x as [s| | |s m e]; try done. intros [Hm He].
  unfold f64_sub. cbn [SFsub]. rewrite (Z.min_r (-52) e) by lia.
  pose proof (shl_align_spec 4503599627370496 (-52) e) as (_ & H1 & H2). rewrite H2 in H1 by lia.
  pose proof (shl_align_spec m e e) as (_ & H3 & H4). rewrite H4, Z.sub_diag in H3 by lia.
  rewrite Z.mul_1_r in H3. rewrite H1, H3. apply normalize_finite; [lia|].
  replace (900 - e) with (53 + ((-52 - e) + 899)) by lia. rewrite !Z.pow_add_r by lia.
  pose proof (Z.pow_pos_nonneg 2 (-52 - e) ltac:(lia) ltac:(lia)) as Hp.
  change (2 ^ 899) with (4 * 2 ^ 897). pose proof (Z.pow_pos_nonneg 2 897 ltac:(lia) ltac:(lia)) as Hq.
  set (p := 2 ^ (-52 - e)) in *. set (q := 2 ^ 897) in *. change 4503599627370496 with (2 ^ 52).
  change (2 ^ 53) with (2 * 2 ^ 52) in *. set (t := 2 ^ 52) in *.
  assert (0 < t) by (unfold t; lia).
  assert (Z.abs (cond_Zopp false (t * p) - cond_Zopp s (Zpos m)) <= t * p + Zpos m) by (destruct s; cbn; lia).
  nia.
Qed.
(** An exact distance is a finite number. *)
Lemma exact_distance_finite query candidate metric d :
  exact_vector_distance query candidate metric = Ok d -> f64_is_finite d = true.
Proof.
  unfold exact_vector_distance. destruct (_ || _ || _); [done|].
  destruct (bool_decide (metric = "L2"%string)).
  { destruct (f64_is_finite (l2_distance query candidate)) eqn:Hf; [|done]. by intros [= <-]. }
  destruct (bool_decide (metric = "Cosine"%string)); [|done]. destruct (_ || _); [done|].
  destruct (foldl _ _ _) as [[dot qn] cn]. set (norm := f64_mul _ _). set (x := f64_div dot norm).
  destruct (f64_is_finite x) eqn:Hx; [|done]. intros [= <-].
  apply one_minus_finite, clamp_small; [done|]. intros s m e Hxe.
  apply (div_mantissa dot norm s m e); [..|done]; unfold x, f64_div, SFdiv in Hxe;
    by destruct dot, norm.
Qed.

(** ** Safe code

    The judgement [safe m Q]: whatever its budget, [m] answers something that satisfies [Q], or
    stops with an error a caller may see; the errors by which the executor would report an
    inconsistent plan never come. Its rules, and the relational kernels. *)

#[export] Instance source_position_eq_dec : EqDecision SourcePositionV2.
Proof. solve_decision. Defined.
#[export] Instance query_error_eq_dec : EqDecision QueryErrorV2.
Proof. solve_decision. Defined.

(** The executor's errors for plans that do not fit together, and for loops without fuel *)
Definition internal_reasons : list string := [
  "bound_values"; "bound_input"; "bound_field"; "bound_operator"; "bound_aggregate"; "bound_expression";
  "comparator_unavailable"; "join_input"; "unreachable"; "fuel";
  "match_binding"; "match_path"; "match_edge"; "match_anchor_binding";
  "expand_path"; "expand_edge"; "expand_sequence_binding"; "pattern_id_type";
  "lexical_input_schema"; "lexical_output_schema"; "lexical_owner";
  "context_output_schema"; "context_evidence_type"; "context_text_type"; "vector_entity" ]%string.
Definition tolerable (e : QueryErrorV2) : Prop := e ∉ map failure internal_reasons.
Ltac tolerates := unfold tolerable; apply (bool_decide_unpack _); vm_compute; exact I.

Lemma tolerable_quota : tolerable quota.
Proof. tolerates. Qed.
Lemma tolerable_bound_type : tolerable (failure "bound_type").
Proof. tolerates. Qed.
Lemma tolerable_eval_failure e : eval_failure e -> tolerable e.
Proof.
  intros [->|He]; [apply tolerable_quota|]. cbn [map] in He. rewrite !elem_of_cons, elem_of_nil in He.
  destruct He as [->|[->|[->|[->|[]]]]]; tolerates.
Qed.
#[export] Hint Resolve tolerable_quota tolerable_bound_type tolerable_eval_failure : safe.

Definition safe {A} (m : exec A) (Q : A -> Prop) : Prop :=
  triple (fun _ => True) m (fun a _ => Q a) tolerable.

Section Rules.
Lemma safe_ret {A} (a : A) (Q : A -> Prop) : Q a -> safe (mret a) Q.
Proof. intros H. by apply triple_ret. Qed.
Lemma safe_fail {A} e (Q : A -> Prop) : tolerable e -> safe (fail e) Q.
Proof. by apply triple_fail. Qed.
Lemma safe_lift {A} (r : query A) (Q : A -> Prop) :
  match r with Ok a => Q a | Err e => tolerable e end -> safe (lift r) Q.
Proof. intros H. apply triple_lift. by intros s _. Qed.
Lemma safe_bind {A B} (m : exec A) (f : A -> exec B) R (Q : B -> Prop) :
  safe m R -> (forall a, R a -> safe (f a) Q) -> safe (m ≫= f) Q.
Proof.
  intros Hm Hf. eapply triple_bind; [exact Hm|]. intros a s Ha. by apply (Hf a Ha s).
Qed.
Lemma safe_pay {A} (m : exec unit) (m' : exec A) Q : pays m -> safe m' Q -> safe (m ;; m') Q.
Proof.
  intros Hp Hm. apply (safe_bind _ _ (fun _ => True)); [|done]. intros s _. specialize (Hp s I).
  destruct (m s) as [[[] s']|e]; [done|]. subst. apply tolerable_quota.
Qed.
Lemma safe_conseq {A} (m : exec A) (Q Q' : A -> Prop) : safe m Q -> (forall a, Q a -> Q' a) -> safe m Q'.
Proof. intros Hm HQ. eapply triple_conseq; [exact Hm|done| |done]. intros a s. apply HQ. Qed.
Lemma safe_mfor {A B} (f : B -> A -> exec B) (J : B -> Prop) b l :
  J b -> (forall b a, J b -> a ∈ l -> safe (f b a) J) -> safe (mfor f b l) J.
Proof.
  revert b; induction l as [|a l IH]; intros b Hb Hf; [by apply safe_ret|].
  cbn [mfor]. eapply safe_bind; [apply Hf; [done|by left]|]. intros b' Hb'. apply IH; [done|].
  intros b0 a0 Hb0 Ha0. apply Hf; [done|by right].
Qed.
Lemma safe_mtraverse {A B} (f : A -> exec B) (R : A -> B -> Prop) l :
  (forall a, a ∈ l -> safe (f a) (R a)) -> safe (mtraverse f l) (Forall2 R l).
Proof.
  intros Hf. induction l as [|a l IH]; [by apply safe_ret|]. cbn [mtraverse].
  eapply safe_bind; [apply Hf; by left|]. intros b Hb.
  eapply safe_bind; [apply IH; intros; apply Hf; by right|]. intros bs Hbs. apply safe_ret. by constructor.
Qed.
Lemma safe_and {A} (m : exec A) (Q Q' : A -> Prop) : safe m Q -> (forall s a s', m s = Ok (a, s') -> Q' a) ->
  safe m (fun a => Q a /\ Q' a).
Proof.
  intros Hm HQ s Hs. specialize (Hm s Hs). specialize (HQ s). destruct (m s) as [[a s']|e]; [|done]. eauto.
Qed.
(** What is known of the answer *)
Lemma safe_answers {A} (m : exec A) (r : query A) (Q : A -> Prop) : answers m r ->
  match r with Ok a => Q a | Err e => tolerable e end -> safe m Q.
Proof.
  intros Ha Hr s _. specialize (Ha s). destruct (m s) as [[a s']|e].
  - by subst r.
  - destruct Ha as [->| ->]; [apply tolerable_quota|done].
Qed.
End Rules.

(** Rows of the types of their columns *)
Definition rows_ok (columns : list Column) (rows : list vrow) : Prop :=
  Forall (row_ok (map co_ty columns)) rows.
Lemma rows_ok_snoc columns rows row : rows_ok columns rows -> row_ok (map co_ty columns) row ->
  rows_ok columns (rows ++ [row]).
Proof. intros Hr Hrow. apply Forall_app. split; [done|by constructor]. Qed.
Lemma row_ok_app a b r s : row_ok (map co_ty a) r -> row_ok (map co_ty b) s ->
  row_ok (map co_ty (a ++ b)) (r ++ s).
Proof. rewrite map_app. apply Forall2_app. Qed.
Lemma row_ok_lookup columns row i v : row_ok (map co_ty columns) row -> row !! i = Some v ->
  exists c, columns !! i = Some c /\ has_type (co_ty c) v = true.
Proof.
  intros Hr Hv. apply (Forall2_lookup_r _ _ _ _ _ Hr) in Hv as (t & Ht & Hty).
  rewrite list_lookup_fmap in Ht. apply fmap_Some in Ht as (c & Hc & ->). eauto.
Qed.
Lemma row_ok_lookup_l columns row i c : row_ok (map co_ty columns) row -> columns !! i = Some c ->
  exists v, row !! i = Some v /\ has_type (co_ty c) v = true.
Proof.
  intros Hr Hc. apply (Forall2_lookup_l _ _ _ i (co_ty c) Hr).
  change (co_ty <$> columns !! i = Some (co_ty c)) with (fmap co_ty (columns !! i) = Some (co_ty c)) || idtac.
  rewrite list_lookup_fmap. by rewrite Hc.
Qed.
Lemma row_ok_length columns row : row_ok (map co_ty columns) row -> length row = length columns.
Proof. intros Hr%Forall2_length. by rewrite length_map in Hr. Qed.

Section Kernels.
Context `{Clock, Layout, Unicode, StdSort}.

Lemma safe_check {A} (m : exec A) Q : safe m Q -> safe (check ;; m) Q.
Proof. apply safe_pay, pays_check. Qed.
Lemma safe_reserve {A} n (m : exec A) Q : safe m Q -> safe (reserve n ;; m) Q.
Proof. apply safe_pay, pays_reserve. Qed.
Lemma safe_reserve_in {A} used limit store n (m : exec A) Q : safe m Q ->
  safe (reserve_in used limit store n ;; m) Q.
Proof. apply safe_pay, pays_reserve_in. Qed.
Lemma safe_push_clone columns out row : rows_ok columns out -> row_ok (map co_ty columns) row ->
  safe (push_clone out row) (rows_ok columns).
Proof. intros Ho Hr. apply safe_reserve, safe_ret. by apply rows_ok_snoc. Qed.
Lemma safe_push_with_value columns c out row v : rows_ok (columns ++ [c]) out ->
  row_ok (map co_ty columns) row -> has_type (co_ty c) v = true ->
  safe (push_with_value out row v) (rows_ok (columns ++ [c])).
Proof.
  intros Ho Hr Hv. apply safe_reserve, safe_ret. apply rows_ok_snoc; [done|]. apply row_ok_app; [done|].
  by repeat constructor.
Qed.

Variable hydrated : HydratedValuesV2.
Variable scope : list Column.

(** An expression typed over the columns, with values for its slots *)
Definition expr_ok (e : BoundExpr) : Prop := expr_typed scope e /\ hydrated_ok hydrated (be_fields e).

Lemma safe_eval e row : expr_ok e -> row_ok (map co_ty scope) row ->
  safe (eval row hydrated e) (fun v => has_type (be_ty e) v = true).
Proof.
  intros [He Hh] Hr. eapply triple_conseq; [by apply (eval_yields (map co_ty scope))|done|done|].
  intros err [Herr|[_ ->]]; auto with safe.
Qed.

Lemma safe_filter predicate input : expr_ok predicate -> rows_ok scope input ->
  safe (filter_rows hydrated predicate input) (rows_ok scope).
Proof.
  intros Hp Hi. apply safe_mfor; [constructor|]. intros out row Ho Hrow.
  pose proof (proj1 (Forall_forall _ _) Hi row Hrow) as Hr.
  eapply safe_bind; [by apply safe_eval|]. intros v _. destruct (is_true v); [by apply safe_push_clone|by apply safe_ret].
Qed.
Lemma safe_project columns exprs input : Forall expr_ok exprs -> rows_ok scope input ->
  map co_ty columns = map be_ty exprs ->
  safe (project_rows hydrated exprs input) (rows_ok columns).
Proof.
  intros Hx Hi Hc. apply safe_mfor; [constructor|]. intros out row Ho Hrow.
  pose proof (proj1 (Forall_forall _ _) Hi row Hrow) as Hr. apply safe_reserve.
  eapply safe_bind.
  - apply (safe_mtraverse _ (fun e v => has_type (be_ty e) v = true)). intros e He.
    apply safe_eval; [by eapply Forall_forall in Hx|done].
  - intros vs Hvs. apply safe_ret, rows_ok_snoc; [done|]. unfold row_ok. rewrite Hc. apply Forall2_fmap_l. exact Hvs.
Qed.
Lemma safe_copy_rows out input : rows_ok scope out -> rows_ok scope input ->
  safe (copy_rows out input) (rows_ok scope).
Proof.
  intros Ho Hi. eapply safe_answers; [apply copy_rows_answers|]. by apply Forall_app.
Qed.
Lemma safe_union inputs : Forall (rows_ok scope) inputs -> safe (union_all_rows inputs) (rows_ok scope).
Proof.
  intros Hi. eapply safe_answers; [apply union_rows_answers|]. by apply Forall_concat.
Qed.
Lemma rows_ok_ztake n rows : rows_ok scope rows -> rows_ok scope (ztake n rows).
Proof. rewrite <- (ztake_zskip n rows) at 1. intros H'. by apply Forall_app in H' as [? _]. Qed.
Lemma rows_ok_zskip n rows : rows_ok scope rows -> rows_ok scope (zskip n rows).
Proof. rewrite <- (ztake_zskip n rows) at 1. intros H'. by apply Forall_app in H' as [_ ?]. Qed.
Lemma safe_distinct input : rows_ok scope input -> safe (distinct_rows input) (rows_ok scope).
Proof.
  intros Hi. eapply safe_answers; [apply distinct_rows_answers|]. unfold distinct_answer.
  assert (forall out, rows_ok scope out -> rows_ok scope (foldl (fun out row =>
    if existsb (fun old => row_eqb old row) out then out else out ++ [row]) out input)) as Hf; [|apply Hf; constructor].
  induction Hi as [|row input Hr _ IH]; intros out Ho; [done|]. cbn [foldl]. apply IH.
  destruct (existsb _ out); [done|by apply rows_ok_snoc].
Qed.
Lemma safe_sort keys input : Forall (fun k => expr_ok k.1.1 /\ ordered (be_ty k.1.1) = true) keys ->
  rows_ok scope input -> safe (sort_rows hydrated keys input) (rows_ok scope).
Proof.
  intros Hk Hi. eapply triple_conseq; [apply (sort_rows_triple hydrated (map co_ty scope))|done| |].
  - exact Hi.
  - eapply Forall_impl; [exact Hk|]. by intros k [[Hw Hh] Ho].
  - intros out _ (order & _ & _ & Hout). apply Forall_forall. intros row Hrow.
    apply list_elem_of_lookup in Hrow as [j Hj]. destruct (Forall2_lookup_r _ _ _ _ _ Hout Hj) as (i & _ & Hr).
    by eapply Forall_lookup_1.
  - intros err [Herr|(k & _ & _ & ->)]; auto with safe.
Qed.
End Kernels.

(** *** Joins *)

Section Joins.
Context `{Clock, Layout, Unicode, StdSort}.
Variable hydrated : HydratedValuesV2.
Variables left_columns right_columns columns : list Column.
Variable condition : BoundExpr.
Hypothesis Hcondition : expr_ok hydrated (left_columns ++ right_columns) condition.

(** What a pair of rows, and a row without a pair, becomes *)
Lemma joined_pair kind l r : joined kind left_columns right_columns columns ->
  row_ok (map co_ty left_columns) l -> row_ok (map co_ty right_columns) r ->
  match kind with JoinInner | JoinLeft => row_ok (map co_ty columns) (l ++ r) | _ => row_ok (map co_ty columns) l end.
Proof.
  intros Hj Hl Hr. destruct kind; cbn [joined] in Hj; subst; try done; [by apply row_ok_app|].
  destruct Hj as (optional & -> & Ho). apply row_ok_app; [done|]. clear -Hr Ho.
  revert r Hr; induction Ho as [|c d cs ds (_ & Hn & Hb) _ IH]; intros r Hr.
  - inversion Hr. constructor.
  - cbn [map] in Hr |- *. apply Forall2_cons_inv_l in Hr as (v & r' & Hv & Hr & ->).
    constructor; [|by apply IH]. apply has_type_base in Hv as [[-> _]|Hv].
    + destruct (co_ty d); done.
    + rewrite <- Hb in Hv. by destruct (co_ty d), v.
Qed.
Lemma joined_null l : joined JoinLeft left_columns right_columns columns ->
  row_ok (map co_ty left_columns) l ->
  row_ok (map co_ty columns) (l ++ replicate (length right_columns) VNull).
Proof.
  intros (optional & -> & Ho) Hl. apply row_ok_app; [done|]. rewrite (Forall2_length _ _ _ Ho).
  clear -Ho. induction Ho as [|c d cs ds (_ & Hn & _) _ IH]; [constructor|]. constructor; [|exact IH].
  by destruct (co_ty d).
Qed.
Lemma safe_join kind input right_ : joined kind left_columns right_columns columns ->
  rows_ok left_columns input -> rows_ok right_columns right_ ->
  safe (join_rows hydrated kind condition (length right_columns) input right_) (rows_ok columns).
Proof.
  intros Hj Hi Hr. apply safe_mfor; [constructor|]. intros out l Ho Hl.
  pose proof (proj1 (Forall_forall _ _) Hi l Hl) as Hlrow. unfold join_left.
  eapply safe_bind.
  - apply (safe_mfor _ (fun acc : bool * list vrow => rows_ok columns acc.2)); [done|].
    intros [matched out'] r Ho' Hin. pose proof (proj1 (Forall_forall _ _) Hr r Hin) as Hrrow.
    apply safe_reserve. eapply safe_bind; [by eapply safe_eval; [|apply row_ok_app]|].
    intros v _. destruct (is_true v); [|by apply safe_ret].
    pose proof (joined_pair kind l r Hj Hlrow Hrrow) as Hp.
    destruct kind; try (by apply safe_ret); apply safe_reserve, safe_ret; by apply rows_ok_snoc.
  - intros [matched out'] Ho'. cbn [snd] in Ho'.
    destruct kind, matched; try (by apply safe_ret).
    + apply safe_reserve, safe_ret, rows_ok_snoc; [done|]. by apply joined_null.
    + cbn [joined] in Hj. subst columns. by apply safe_push_clone.
    + cbn [joined] in Hj. subst columns. by apply safe_push_clone.
Qed.
End Joins.

(** *** Aggregation *)

Section Aggregates.
Context `{Clock, Layout, Unicode, StdSort}.
Variable hydrated : HydratedValuesV2.
Variable scope : list Column.
Notation expr_ok := (expr_ok hydrated scope).

(** The running values are of the argument's type, without its nulls. *)
Record agg_ok (arg : QueryTypeV2) (st : agg_state) : Prop := {
  ao_count : is_i64 (as_count st) = true;
  ao_sum : forall v, as_sum st = Some v -> has_type (type_base arg) v = true;
  ao_extremum : forall v, as_extremum st = Some v -> has_type (type_base arg) v = true;
  ao_collected : Forall (fun v => has_type arg v = true) (as_collected st);
}.
Lemma agg_init_ok arg : agg_ok arg agg_init.
Proof. by split. Qed.
Lemma numeric_add arg a b : numeric arg = true -> has_type (type_base arg) a = true ->
  has_type (type_base arg) b = true -> sound (type_base arg) (binary OAdd a b).
Proof.
  intros Hn Ha Hb. apply (binary_sound OAdd (type_base arg) (type_base arg)); [done..|].
  unfold numeric in Hn. by destruct (type_base arg).
Qed.
Lemma sound_tolerable t r (Q : QueryValueV2 -> Prop) : sound t r -> (forall v, has_type t v = true -> Q v) ->
  match r with Ok v => Q v | Err e => tolerable e end.
Proof. unfold sound. destruct r; eauto with safe. Qed.
Lemma agg_fold_ok kind arg ty st value : aggregate_ty kind arg = Ok ty -> agg_ok arg st ->
  has_type arg value = true ->
  match agg_fold kind st value with Ok st' => agg_ok arg st' | Err e => tolerable e end.
Proof.
  intros Ht [Hc Hs He Hl] Hv. unfold agg_fold. destruct (value_eqb value VNull) eqn:Hnull; [by split|].
  apply has_type_base in Hv as [[-> _]|Hv]; [done|].
  destruct (i64_checked_add (as_count st) 1) as [count|] eqn:Hcount; [|cbn; tolerates].
  apply i64_try_Some in Hcount as [_ Hcount]. cbn [ok_or mbind result_bind].
  assert (forall sum extremum, (forall v, sum = Some v -> has_type (type_base arg) v = true) ->
    (forall v, extremum = Some v -> has_type (type_base arg) v = true) ->
    agg_ok arg {| as_count := count; as_sum := sum; as_extremum := extremum; as_collected := as_collected st |}) as Hst
    by (intros; by split).
  destruct kind; cbn [aggregate_ty] in Ht; try (by apply Hst).
  1,2: destruct (numeric arg) eqn:Hn; [|done]; destruct (as_sum st) as [old|] eqn:Hold.
  1,3: pose proof (numeric_add arg old value Hn (Hs old eq_refl) Hv) as Hb; unfold sound in Hb;
    destruct (binary OAdd old value); cbn [mbind result_bind]; [|by apply tolerable_eval_failure];
    apply Hst; [by intros ? [= <-]|done].
  1,2: cbn [mbind result_bind]; apply Hst; [by intros ? [= <-]|done].
  1,2: destruct (ordered arg) eqn:Ho; [|done]; destruct (as_extremum st) as [old|] eqn:Hold; cbn [mbind result_bind].
  1,3: destruct (value_compared arg value old Ho Hv (He old eq_refl)) as [c ->]; cbn [mbind result_bind];
    apply Hst; [done|]; intros v; destruct c; intros [= <-]; eauto.
  1,2: apply Hst; [done|by intros ? [= <-]].
Qed.
Lemma has_type_as_nullable t v : has_type (type_base t) v = true -> has_type (as_nullable t) v = true.
Proof. unfold as_nullable. destruct t; cbn; try done. all: by destruct v. Qed.
Lemma agg_result_ok kind arg ty st : aggregate_ty kind arg = Ok ty -> agg_ok arg st -> kind <> ACountAll ->
  match agg_result kind st with Ok v => has_type ty v = true | Err e => tolerable e end.
Proof.
  intros Ht [Hc Hs He Hl] Hk. destruct kind; cbn [aggregate_ty agg_result] in *; try done.
  - by injection Ht as <-.
  - destruct (numeric arg); [|done]. injection Ht as <-. destruct (as_sum st) as [v|]; cbn [default].
    + by apply has_type_as_nullable, Hs.
    + unfold as_nullable. by destruct arg.
  - destruct (numeric arg) eqn:Hn; [|done]. injection Ht as <-. unfold numeric in Hn.
    destruct (as_sum st) as [v|]; [|done]. specialize (Hs v eq_refl).
    destruct (type_base arg); try done; destruct v; try done; unfold finite;
      destruct (f64_is_finite _) eqn:Hf; try done; tolerates.
  - destruct (ordered arg); [|done]. injection Ht as <-. destruct (as_extremum st) as [v|]; cbn [default].
    + by apply has_type_as_nullable, He.
    + unfold as_nullable. by destruct arg.
  - destruct (ordered arg); [|done]. injection Ht as <-. destruct (as_extremum st) as [v|]; cbn [default].
    + by apply has_type_as_nullable, He.
    + unfold as_nullable. by destruct arg.
  - injection Ht as <-. cbn. apply forallb_forall. intros v Hv%list_elem_of_In.
    by apply (proj1 (Forall_forall _ _) Hl).
Qed.
Lemma safe_aggregate call ty rows : aggregate_typed scope call ty ->
  (forall e, ag_arg call = Some e -> hydrated_ok hydrated (be_fields e)) -> rows_ok scope rows ->
  safe (aggregate hydrated call rows) (fun v => has_type ty v = true).
Proof.
  intros [Harg Hty] Hh Hr. unfold aggregate. destruct (ag_arg call) as [e|] eqn:Ha.
  - destruct Harg as [Hk Hx]. cbn [default fmap option_fmap option_map] in Hty. specialize (Hh e eq_refl).
    assert (safe (arg ← lift (ok_or (Some e) (failure "bound_aggregate"));
      st ← mfor (agg_row hydrated (ag_kind call) arg) agg_init rows;
      lift (agg_result (ag_kind call) st)) (fun v => has_type ty v = true)) as Hsafe.
    2:{ by destruct (ag_kind call). }
    eapply safe_bind; [apply (safe_lift _ (fun x => x = e)); done|]. intros ? ->.
    eapply safe_bind.
    + apply (safe_mfor _ (agg_ok (be_ty e))); [apply agg_init_ok|]. intros st row Hst Hrow.
      pose proof (proj1 (Forall_forall _ _) Hr row Hrow) as Hrow'. apply safe_check.
      eapply safe_bind; [by apply (safe_eval _ scope)|]. cbn beta. intros v Hv.
      pose proof (agg_fold_ok _ _ _ _ _ Hty Hst Hv) as Hf.
      destruct (ag_kind call); try (by apply safe_lift).
      intros s _. rewrite sm_bind_eq. cbn [get]. destruct (eb_rows s <=? zlen (as_collected st)); [apply tolerable_quota|].
      revert s. enough (safe (reserve (size_of_value * 2) ;; mret {| as_count := as_count st; as_sum := as_sum st;
        as_extremum := as_extremum st; as_collected := as_collected st ++ [v] |}) (agg_ok (be_ty e))) as Hs
        by (intros s; exact (Hs s I)).
      apply safe_reserve, safe_ret. destruct Hst as [? ? ? Hl]. split; try done. cbn. apply Forall_app. by repeat constructor.
    + intros st Hst. apply safe_lift. by eapply agg_result_ok.
  - rewrite Harg in *. cbn [aggregate_ty default fmap option_fmap option_map] in Hty. injection Hty as <-.
    apply safe_lift. destruct (i64_try (zlen rows)) as [z|] eqn:Hz; [|cbn; tolerates].
    by apply i64_try_Some in Hz as [_ Hz].
Qed.
(** Every bucket has a key of the groups' types and rows of the input. *)
Definition bucket_ok (groups : list BoundExpr) (b : vrow * list vrow) : Prop :=
  Forall2 (fun e v => has_type (be_ty e) v = true) groups b.1 /\ rows_ok scope b.2.
Lemma safe_find_bucket i key buckets : safe (find_bucket i key buckets)
  (fun o => forall j, o = Some j -> (i <= j < i + length buckets)%nat).
Proof.
  revert i; induction buckets as [|[old rows] buckets IH]; intros i; [by apply safe_ret|].
  cbn [find_bucket]. apply safe_check. destruct (row_eqb old key).
  - apply safe_ret. intros j [= <-]. cbn. lia.
  - eapply safe_conseq; [apply IH|]. intros o Ho j Hj. specialize (Ho j Hj). cbn. lia.
Qed.
Lemma safe_aggregate_rows groups aggregates types columns input :
  Forall expr_ok groups -> Forall2 (aggregate_typed scope) aggregates types ->
  (forall call e, call ∈ aggregates -> ag_arg call = Some e -> hydrated_ok hydrated (be_fields e)) ->
  map co_ty columns = map be_ty groups ++ types -> rows_ok scope input ->
  safe (aggregate_rows hydrated groups aggregates input) (rows_ok columns).
Proof.
  intros Hg Ha Hh Hc Hi. unfold aggregate_rows.
  eapply (safe_bind _ _ (Forall (bucket_ok groups))).
  { destruct groups; [apply safe_reserve|]; apply safe_ret; repeat constructor. }
  intros buckets Hb. eapply (safe_bind _ _ (Forall (bucket_ok groups))).
  - apply safe_mfor; [done|]. clear buckets Hb. intros buckets row Hb Hrow.
    pose proof (proj1 (Forall_forall _ _) Hi row Hrow) as Hr. apply safe_reserve.
    eapply safe_bind.
    { apply (safe_mtraverse _ (fun e v => has_type (be_ty e) v = true)). intros e He.
      apply (safe_eval _ scope); [by eapply Forall_forall in Hg|done]. }
    intros key Hkey. eapply safe_bind; [apply safe_find_bucket|]. intros found _.
    apply (safe_bind _ _ (fun ib : nat * list (vrow * list vrow) => Forall (bucket_ok groups) ib.2)).
    + destruct found; [by apply safe_ret|]. apply safe_reserve, safe_ret. apply Forall_app.
      split; [done|]. repeat constructor. exact Hkey.
    + intros [i bs] Hbs. cbn [snd] in Hbs. apply safe_reserve, safe_ret. apply Forall_alter; [done|].
      intros [k rows] _ [Hk Hrows]. split; [done|]. by apply rows_ok_snoc.
  - intros bs Hbs. apply safe_mfor; [constructor|]. intros out [key rows] Ho Hin. apply safe_reserve.
    destruct (proj1 (Forall_forall _ _) Hbs _ Hin) as [Hk Hrows].
    assert (safe (mtraverse (fun call => aggregate hydrated call rows) aggregates)
      (fun vs => Forall2 (fun t v => has_type t v = true) types vs)) as Hts.
    { clear -Ha Hh Hrows. induction Ha as [|call ty cs tys Hct _ IH]; [by apply safe_ret|]. cbn [mtraverse].
      eapply safe_bind; [apply (safe_aggregate call ty); [done|intros e; apply Hh; by left|done]|].
      intros v Hv. eapply safe_bind; [apply IH; intros; eapply Hh; [by right|done]|].
      intros vs Hvs. apply safe_ret. by constructor. }
    eapply safe_bind; [exact Hts|]. intros vs Hvs. apply safe_ret, rows_ok_snoc; [done|].
    unfold row_ok. rewrite Hc. apply Forall2_app; [by apply Forall2_fmap_l|done].
Qed.
End Aggregates.
