(* ===== verification/PathTyping.v ===== *)
(** * Paths become rows of their columns

    The four operators over paths, and the matching of a sequence of patterns: every row they
    make fills the operator's columns with values of their types. *)
From S2P Require Export ExecSafe PathSpec.
Local Open Scope Z_scope.

(** ** Values *)

Lemma entity_type c r : type_base (co_ty c) = TEntity -> has_type (co_ty c) (VEntity r) = true.
Proof. intros Ht. destruct (co_ty c); cbn in *; try done; by rewrite Ht. Qed.
Lemma entity_list_type edges : has_type (TList TEntity) (VList (map VEntity edges)) = true.
Proof. cbn. apply forallb_forall. by intros v (r & <- & _)%in_map_iff. Qed.
Lemma nullable_ok ty optional v : has_type ty v = true -> has_type (nullable ty optional) v = true.
Proof. apply has_type_nullable. Qed.
Lemma null_ok ty : has_type (nullable ty true) VNull = true.
Proof. by apply has_type_nullable_null. Qed.

(** A path's edges as the value of the edge alias: there is one where there has to be one. *)
Lemma edge_value_ok pattern edges missing : cpa_min_hops pattern <= zlen edges ->
  exists v, edge_value pattern edges missing = Ok v /\
    has_type (edge_ty (cpa_min_hops pattern) (cpa_max_hops pattern)) v = true.
Proof.
  intros Hl. unfold edge_value, edge_ty, single_hop. destruct (_ && _) eqn:Hs.
  - apply andb_prop in Hs as [Hmin%Z.eqb_eq _]. destruct edges as [|e edges]; [unfold zlen in Hl; cbn in Hl; lia|].
    by exists (VEntity e).
  - eexists. split; [done|]. apply entity_list_type.
Qed.

(** ** Paths *)

(** A path found has an end and enough edges. *)
Definition path_ok (pattern : CompactPattern) (p : CompactPathV2) : Prop :=
  is_Some (last p.1) /\ cpa_min_hops pattern <= zlen p.2.
Lemma safe_compact_paths `{Clock, Layout} graph pattern row end_index start_index :
  safe (compact_expand_paths graph pattern row end_index start_index) (Forall (path_ok pattern)).
Proof.
  eapply safe_answers; [apply compact_expand_paths_answers|]. unfold paths_of.
  destruct (path_start graph row start_index) as [[start|]|e] eqn:Hs; cbn [mbind result_bind].
  - apply Forall_forall. intros p. rewrite sort_by_Permutation. intros [Ha _]%walks_spec.
    unfold admitted in Ha. apply andb_prop in Ha as [Hm%Z.leb_le Hl]. split; [|done].
    by destruct (last p.1).
  - constructor.
  - apply path_start_Err in Hs as [-> _]. tolerates.
Qed.

Section Rows.
Context `{Clock, Layout, Unicode, PathLayout}.
Variable graph : GraphSnapshotV2.

(** The columns after the ends: the edges and the path *)
Lemma path_columns_ok pattern optional edges vertices mode : cpa_min_hops pattern <= zlen edges ->
  forall missing, exists edge,
  match cpa_edge_alias pattern with
  | None => Ok []
  | Some _ => v ← edge_value pattern edges missing; Ok [v]
  end = Ok edge /\
  row_ok (map co_ty (opt_column (cpa_edge_alias pattern)
      (nullable (edge_ty (cpa_min_hops pattern) (cpa_max_hops pattern)) optional) ++
    opt_column (cpa_path_alias pattern) (nullable TPath optional)))
    (edge ++ match cpa_path_alias pattern with None => [] | Some _ => [path_value mode vertices edges] end).
Proof.
  intros Hl missing. destruct (edge_value_ok pattern edges missing Hl) as (v & Hv & Hty).
  exists (match cpa_edge_alias pattern with None => [] | Some _ => [v] end). split.
  - destruct (cpa_edge_alias pattern); [|done]. by rewrite Hv.
  - rewrite map_app. apply Forall2_app.
    + destruct (cpa_edge_alias pattern); repeat constructor. by apply nullable_ok.
    + destruct (cpa_path_alias pattern); repeat constructor. by apply nullable_ok.
Qed.

(** *** One pattern *)

Lemma anchors_known start endpoint pattern anchors :
  Forall (fun a => end_column pattern (ma_column_index a)) anchors ->
  is_ok (matches_compact_match_anchors start endpoint
    (bool_decide (cpa_start_alias pattern = cpa_end_alias pattern)) anchors) = true.
Proof.
  induction 1 as [|a anchors Ha _ IH]; [done|]. cbn [matches_compact_match_anchors].
  destruct Ha as [->|[-> Hne]]; cbn [mbind result_bind].
  - by destruct (bool_decide (start = ma_record a)).
  - rewrite bool_decide_eq_false_2 in IH |- * by done. cbn [mbind result_bind].
    by destruct (bool_decide (endpoint = ma_record a)).
Qed.
Lemma safe_match_compact_path pattern shortest anchors start endpoints out path :
  Forall (fun a => end_column pattern (ma_column_index a)) anchors -> path_ok pattern path ->
  rows_ok (compact_columns pattern) out ->
  safe (match_compact_path pattern shortest anchors (length (compact_columns pattern)) start
          (endpoints, out) path)
    (fun acc => rows_ok (compact_columns pattern) acc.2).
Proof.
  destruct path as [vertices edges]. intros Ha [[endpoint He] Hl] Ho. cbn [fst snd] in *.
  unfold match_compact_path. rewrite He. cbn [ok_or].
  eapply (safe_bind _ _ (fun x => x = endpoint)); [by apply safe_lift|]. intros ? ->.
  eapply (safe_bind _ _ (fun _ => True)).
  { apply safe_lift. pose proof (anchors_known start endpoint pattern anchors Ha) as Hk.
    by destruct (matches_compact_match_anchors _ _ _ _). }
  intros anchored _. destruct (negb anchored); [by apply safe_ret|].
  destruct (path_columns_ok pattern false edges vertices (cpa_mode pattern) Hl "match_edge") as (edge & Hedge & Hrow).
  rewrite Hedge. eapply (safe_bind _ _ (fun x => x = edge)); [by apply safe_lift|]. intros ? ->.
  set (matched := [VEntity start] ++ _).
  assert (row_ok (map co_ty (compact_columns pattern)) matched) as Hm.
  { unfold matched, compact_columns. change (?c :: ?l) with ([c] ++ l) at 1. apply row_ok_app; [by repeat constructor|].
    apply row_ok_app; [|exact Hrow].
    case_bool_decide as E; [rewrite bool_decide_eq_true_2 by done|rewrite bool_decide_eq_false_2 by congruence];
      by repeat constructor. }
  rewrite (row_ok_length _ _ Hm), Nat.eqb_refl. cbn [negb].
  destruct (shortest && _); [by apply safe_ret|]. apply safe_reserve, safe_ret. by apply rows_ok_snoc.
Qed.
Lemma safe_match_compact pattern shortest anchors :
  Forall (fun a => end_column pattern (ma_column_index a)) anchors ->
  safe (match_compact_rows graph pattern shortest anchors (length (compact_columns pattern)))
    (rows_ok (compact_columns pattern)).
Proof.
  intros Ha. unfold match_compact_rows.
  eapply (safe_bind _ _ (fun acc => rows_ok (compact_columns pattern) acc.2)).
  - apply safe_mfor; [constructor|]. intros acc start Hacc _. apply safe_reserve.
    eapply safe_bind; [apply safe_compact_paths|]. intros paths Hp.
    apply safe_mfor; [done|]. intros [endpoints out] path Ho Hin.
    apply safe_match_compact_path; [done| |done]. by eapply Forall_forall in Hp.
  - intros [e out] Ho. by apply safe_ret.
Qed.
Lemma safe_expand start_index end_index pattern optional scope input :
  let columns := scope ++
    match end_index with
    | Some _ => [] | None => [{| co_name := cpa_end_alias pattern; co_ty := nullable TEntity optional |}]
    end ++
    opt_column (cpa_edge_alias pattern)
      (nullable (edge_ty (cpa_min_hops pattern) (cpa_max_hops pattern)) optional) ++
    opt_column (cpa_path_alias pattern) (nullable TPath optional) in
  rows_ok scope input ->
  safe (expand_rows graph start_index end_index pattern optional input) (rows_ok columns).
Proof.
  intros columns Hi. apply safe_mfor; [constructor|]. intros out row Ho Hin.
  pose proof (proj1 (Forall_forall _ _) Hi row Hin) as Hrow. unfold expand_row. apply safe_check.
  eapply safe_bind; [apply safe_compact_paths|]. intros paths Hp. destruct paths as [|p paths].
  - destruct optional; [|by apply safe_ret]. apply safe_reserve, safe_ret, rows_ok_snoc; [done|].
    unfold columns. apply row_ok_app; [done|]. apply row_ok_app.
    { destruct end_index; repeat constructor. }
    apply row_ok_app; [destruct (cpa_edge_alias pattern)|destruct (cpa_path_alias pattern)];
      repeat constructor; apply null_ok.
  - apply safe_mfor; [done|]. clear out Ho. intros out [vertices edges] Ho Hpath.
    destruct (proj1 (Forall_forall _ _) Hp _ Hpath) as [[endpoint He] Hl]. cbn [fst snd] in *.
    rewrite He. cbn [ok_or]. eapply (safe_bind _ _ (fun x => x = endpoint)); [by apply safe_lift|]. intros ? ->.
    destruct (path_columns_ok pattern optional edges vertices (cpa_mode pattern) Hl "expand_edge") as (edge & Hedge & Hr).
    rewrite Hedge. eapply (safe_bind _ _ (fun x => x = edge)); [by apply safe_lift|]. intros ? ->.
    apply safe_reserve, safe_ret, rows_ok_snoc; [done|]. unfold columns. apply row_ok_app; [done|].
    apply row_ok_app; [|exact Hr]. destruct end_index; repeat constructor. by apply nullable_ok.
Qed.
End Rows.

(** ** Constraints *)

(** Every field a constraint reads *)
Definition property_fields (ps : btree BoundPatternProperty) : list FieldIdV2 :=
  concat (map (fun p => be_fields (bp_expected p.2) ++ [bp_value_field p.2; bp_has_property_field p.2]) ps).
Definition pattern_node_fields (n : BoundSequenceNode) : list FieldIdV2 :=
  match bn_id n with Some e => be_fields e | None => [] end ++ property_fields (bn_properties n).
Definition step_fields (s : BoundSequenceStep) : list FieldIdV2 :=
  pattern_node_fields (bs_node s) ++ property_fields (bs_edge_properties s).

Lemma hydrated_ok_app h l k : hydrated_ok h (l ++ k) <-> hydrated_ok h l /\ hydrated_ok h k.
Proof.
  unfold hydrated_ok. split.
  - intros Hh. split; intros f r nm v Hf; apply Hh, elem_of_app; tauto.
  - intros [Hl Hk] f r nm v [Hf|Hf]%elem_of_app; eauto.
Qed.
Lemma hydrated_ok_concat {A} h (f : A -> list FieldIdV2) l a :
  hydrated_ok h (concat (map f l)) -> a ∈ l -> hydrated_ok h (f a).
Proof.
  intros Hh Ha fd r nm v Hf. apply Hh. apply list_elem_of_In, in_concat. exists (f a).
  split; [by apply in_map, list_elem_of_In|by apply list_elem_of_In].
Qed.

(** A type over a scope is one over a longer scope. *)
Lemma well_typed_weaken scope more e : well_typed scope e = true -> well_typed (scope ++ more) e = true.
Proof.
  induction e as [e IH] using bound_expr_ind'. destruct e as [ty kind].
  destruct kind; cbn [well_typed be_children be_kind kind_children] in *; rewrite ?andb_true_iff;
    unfold field_typed, column_is;
    repeat match goal with IH : Forall _ (_ :: _) |- _ => apply Forall_cons in IH as [? IH] end;
    try (intuition auto; fail).
  1-5: rewrite lookup_app; destruct (scope !! _); rewrite ?andb_true_iff; intuition done.
  intros ((((Hn & Hv) & He) & Ht) & Hb). split_and!; try done; [by auto|].
  apply forallb_forall. intros v Hin. rewrite Forall_forall in IH.
  apply IH; [by apply list_elem_of_In|]. eapply forallb_forall in Hv; done.
Qed.
Lemma expr_typed_weaken scope more e : expr_typed scope e -> expr_typed (scope ++ more) e.
Proof. unfold expr_typed. rewrite map_app. apply well_typed_weaken. Qed.
Lemma property_typed_weaken scope more p : property_typed scope p -> property_typed (scope ++ more) p.
Proof. intros (? & ?). split; [by apply expr_typed_weaken|done]. Qed.
Lemma pattern_node_weaken scope more n : pattern_node_typed scope n -> pattern_node_typed (scope ++ more) n.
Proof.
  intros [Hi Hp]. split.
  - destruct (bn_id n); [|done]. destruct Hi. split; [by apply expr_typed_weaken|done].
  - eapply Forall_impl; [exact Hp|]. intros. by apply property_typed_weaken.
Qed.

Section Constraints.
Context `{Clock, Layout, Unicode, PathLayout}.
Variable graph : GraphSnapshotV2.
Variable hydrated : HydratedValuesV2.
Variable base : list Column.
Variable row : vrow.
Hypothesis Hrow : row_ok (map co_ty base) row.

Lemma safe_pattern_properties ps record : Forall (property_typed base) ps ->
  hydrated_ok hydrated (property_fields ps) ->
  safe (matches_pattern_properties row hydrated ps record) (fun _ => True).
Proof.
  induction ps as [|[name p] ps IH]; intros Hp Hh; cbn [matches_pattern_properties]; [by apply safe_ret|].
  apply Forall_cons in Hp as [[He _] Hp]. apply hydrated_ok_app in Hh as [Hh Hhs].
  apply hydrated_ok_app in Hh as [Hh _]. apply safe_check.
  assert (forall o, safe (lift (ok_or o (failure "pattern_property_hydration"))) (fun _ : QueryValueV2 => True)) as Hl
    by (intros []; apply safe_lift; [done|cbn; tolerates]).
  eapply safe_bind; [apply Hl|]. intros present _. destruct (negb _); [by apply safe_ret|].
  eapply safe_bind; [apply Hl|]. intros actual _. eapply safe_bind; [by apply (safe_eval _ base)|].
  intros expected _. destruct actual; try by apply safe_ret.
  destruct (value_eqb _ _); [by apply IH|by apply safe_ret].
Qed.
Lemma safe_has_labels labels wanted : safe (has_labels labels wanted) (fun _ => True).
Proof.
  induction wanted as [|label wanted IH]; [by apply safe_ret|]. cbn [has_labels]. apply safe_reserve.
  destruct (negb _); [by apply safe_ret|exact IH].
Qed.
Lemma safe_sequence_node n record : pattern_node_typed base n -> hydrated_ok hydrated (pattern_node_fields n) ->
  safe (matches_sequence_node graph hydrated n record row) (fun _ => True).
Proof.
  intros [Hi Hp] Hh. apply hydrated_ok_app in Hh as [Hhi Hhp]. unfold matches_sequence_node.
  destruct (_ && _); [by apply safe_ret|]. apply safe_pay; [apply pays_reserve_in|].
  apply (safe_bind _ _ (fun _ => True)).
  { destruct (bn_id n) as [e|]; [|by apply safe_ret]. destruct Hi as [He Hty].
    eapply safe_bind; [by apply (safe_eval _ base)|]. intros v Hv. cbn in Hv. rewrite Hty in Hv.
    destruct v; try done. by apply safe_reserve, safe_ret. }
  intros [] _; [|by apply safe_ret]. apply (safe_bind _ _ (fun _ => True)).
  { destruct (bn_labels n); [by apply safe_ret|]. eapply (safe_bind _ _ (fun _ => True)).
    - apply safe_lift. destruct (bt_get _ _ _); [done|cbn; tolerates].
    - intros labels _. apply safe_has_labels. }
  intros [] _; [|by apply safe_ret]. by apply safe_pattern_properties.
Qed.
Lemma safe_edges_match ps edges : Forall (property_typed base) ps -> hydrated_ok hydrated (property_fields ps) ->
  safe (edges_match hydrated ps edges row) (fun _ => True).
Proof.
  intros Hp Hh. induction edges as [|e edges IH]; [by apply safe_ret|]. cbn [edges_match].
  eapply safe_bind; [by apply safe_pattern_properties|]. intros [] _; [exact IH|by apply safe_ret].
Qed.
End Constraints.

(** ** Sequences of patterns *)

(** A row of the first [n] columns *)
Definition filled (columns : list Column) (n : nat) (row : vrow) : Prop :=
  length row = n /\ row_ok (map co_ty (take n columns)) row.
Lemma filled_push columns n row c v : filled columns n row -> columns !! n = Some c ->
  has_type (co_ty c) v = true -> filled columns (S n) (row ++ [v]).
Proof.
  intros [Hl Hr] Hc Hv. split; [rewrite length_app; cbn; lia|]. rewrite (take_S_r _ _ _ Hc).
  apply row_ok_app; [done|]. by repeat constructor.
Qed.
Lemma filled_all columns row : filled columns (length columns) row -> row_ok (map co_ty columns) row.
Proof. intros [_ Hr]. by rewrite take_ge in Hr. Qed.
Lemma fill_le n i m : fill n i = Some m -> (n <= m)%nat.
Proof. destruct i as [i|]; cbn; [destruct (i =? n)%nat; [|done]|]; intros [= <-]; lia. Qed.
Lemma step_fill_le n s m : step_fill n s = Some m -> (n <= m)%nat.
Proof.
  unfold step_fill. intros (k & Hk & Hm)%bind_Some. apply fill_le in Hm.
  destruct (_ <? _)%nat; [injection Hk as <-; lia|]. apply fill_le in Hk. lia.
Qed.
Lemma steps_fill_cons n s steps : steps_fill n (s :: steps) = m ← step_fill n s; steps_fill m steps.
Proof.
  unfold steps_fill. cbn [foldl mbind option_bind]. destruct (step_fill n s) as [m|]; [done|]. cbn.
  by induction steps.
Qed.
Lemma steps_fill_le n steps m : steps_fill n steps = Some m -> (n <= m)%nat.
Proof.
  revert n; induction steps as [|s steps IH]; intros n; [by intros [= <-]|].
  rewrite steps_fill_cons. intros (k & Hk%step_fill_le & Hm%IH)%bind_Some. lia.
Qed.
Lemma sort_by_Forall {A} (c : A -> A -> comparison) (P : A -> Prop) l : Forall P l -> Forall P (sort_by c l).
Proof. intros Hl. by rewrite sort_by_Permutation. Qed.

Section Sequences.
Context `{Clock, Layout, Unicode, PathLayout}.
Variable graph : GraphSnapshotV2.
Variable hydrated : HydratedValuesV2.
Variables base scope columns : list Column.
Variable optional : bool.
Variable row : vrow.
Hypothesis Hrow : row_ok (map co_ty base) row.
Hypothesis Hscope : scope `prefix_of` base.

Lemma extend_row_ok step n m path_row endpoint edges : step_typed scope columns optional step ->
  step_fill n step = Some m -> (m <= length columns)%nat -> filled columns n path_row ->
  cpa_min_hops (bs_pattern step) <= zlen edges ->
  exists next, extend_row step path_row endpoint edges = Ok next /\ filled columns m next.
Proof.
  intros [_ _ (c & Hc & Hent) _ Hedge] Hm Hle Hf Hl. unfold extend_row, step_fill in *.
  apply bind_Some in Hm as (k & Hk & Hm). pose proof (proj1 Hf) as Hlen. rewrite Hlen.
  assert (filled columns k (if (bs_end_index step =? n)%nat then path_row ++ [VEntity endpoint] else path_row)) as Hk'.
  { destruct (Nat.ltb_spec (bs_end_index step) n).
    - injection Hk as <-. by destruct (Nat.eqb_spec (bs_end_index step) n); [lia|].
    - cbn [fill] in Hk. destruct (Nat.eqb_spec (bs_end_index step) n) as [He|]; [|done]. injection Hk as <-.
      eapply filled_push; [done|by rewrite <- He|by apply entity_type]. }
  set (expanded := if (bs_end_index step =? n)%nat then _ else _) in *. rewrite (proj1 Hk').
  destruct (bs_edge_index step) as [i|]; cbn [fill] in Hm; [|injection Hm as <-; by exists expanded].
  destruct (Nat.eqb_spec i k) as [->|]; [|done]. injection Hm as <-. cbn [negb].
  destruct (edge_value_ok (bs_pattern step) edges "expand_edge" Hl) as (v & -> & Hv).
  eexists. split; [done|]. specialize (Hedge k eq_refl). apply fmap_Some in Hedge as (d & Hd & Hty).
  eapply filled_push; [done..|]. rewrite <- Hty. by apply nullable_ok.
Qed.

(** A path whose steps so far have filled [n] columns *)
Definition sequence_at (n : nat) (p : SequencePathV2) : Prop :=
  filled columns n (sp_row p) /\ sp_vertices p <> [].
Definition step_ok (step : BoundSequenceStep) : Prop :=
  step_typed scope columns optional step /\ hydrated_ok hydrated (step_fields step).
Lemma step_properties_ok step : step_ok step ->
  pattern_node_typed base (bs_node step) /\ Forall (property_typed base) (bs_edge_properties step) /\
  hydrated_ok hydrated (pattern_node_fields (bs_node step)) /\
  hydrated_ok hydrated (property_fields (bs_edge_properties step)).
Proof.
  intros [[Hn He _ _ _] [Hh Hp]%hydrated_ok_app]. destruct Hscope as [more ->]. split_and!; try done.
  - by apply pattern_node_weaken.
  - eapply Forall_impl; [exact He|]. intros. by apply property_typed_weaken.
Qed.
Lemma safe_extend_sequence mode step n m path next_paths segment : step_ok step ->
  step_fill n step = Some m -> (m <= length columns)%nat -> sequence_at n path ->
  Forall (sequence_at m) next_paths -> path_ok (bs_pattern step) segment ->
  safe (extend_sequence graph hydrated row mode step path next_paths segment) (Forall (sequence_at m)).
Proof.
  intros Hstep Hm Hle [Hf Hv] Hnext Hseg. destruct segment as [vertices edges].
  destruct Hseg as [[endpoint Hend] Hl]. cbn [fst snd] in *.
  destruct (step_properties_ok step Hstep) as (Hn & He & Hhn & Hhe). unfold extend_sequence.
  eapply safe_bind; [by apply (safe_edges_match _ base)|]. intros [] _; [|by apply safe_ret]. cbn [negb].
  rewrite Hend. eapply (safe_bind _ _ (fun x => x = endpoint)); [by apply safe_lift|]. intros ? ->.
  destruct (_ && _); [by apply safe_ret|]. destruct (_ && _); [by apply safe_ret|].
  destruct (end_bound_elsewhere _ _ _); [by apply safe_ret|].
  destruct (Nat.ltb_spec (length (sp_row path)) (bs_end_index step)) as [Hlt|_].
  { exfalso. rewrite (proj1 Hf) in Hlt. unfold step_fill in Hm. apply bind_Some in Hm as (k & Hk & _).
    destruct (Nat.ltb_spec (bs_end_index step) n); [lia|]. cbn in Hk.
    destruct (Nat.eqb_spec (bs_end_index step) n); [lia|done]. }
  eapply safe_bind; [by apply (safe_sequence_node _ _ base)|]. intros [] _; [|by apply safe_ret]. cbn [negb].
  apply safe_reserve.
  destruct (extend_row_ok step n m (sp_row path) endpoint edges (proj1 Hstep) Hm Hle Hf Hl) as (next & -> & Hnf).
  eapply (safe_bind _ _ (fun x => x = next)); [by apply safe_lift|]. intros ? ->. apply safe_ret, Forall_app.
  split; [done|]. repeat constructor; cbn [sp_row sp_vertices]; [by apply Hnf|by apply Hnf|].
  by destruct (sp_vertices path).
Qed.
Lemma safe_extend_steps mode steps n m paths : Forall step_ok steps -> steps_fill n steps = Some m ->
  (m <= length columns)%nat -> Forall (sequence_at n) paths ->
  safe (extend_steps graph hydrated row mode steps paths) (Forall (sequence_at m)).
Proof.
  revert n paths; induction steps as [|s steps IH]; intros n paths Hs Hm Hle Hp; cbn [extend_steps].
  { injection Hm as <-. by apply safe_ret. }
  apply Forall_cons in Hs as [Hs Hss]. rewrite steps_fill_cons in Hm.
  apply bind_Some in Hm as (k & Hk & Hm). pose proof (steps_fill_le _ _ _ Hm) as Hkm.
  eapply (safe_bind _ _ (Forall (sequence_at k))).
  - apply safe_mfor; [constructor|]. intros next path Hnext Hpath.
    pose proof (proj1 (Forall_forall _ _) Hp path Hpath) as Hat. unfold extend_path. apply safe_check.
    destruct (last (sp_vertices path)) as [current|] eqn:Hlast; [|by apply last_None in Hlast; destruct Hat].
    eapply (safe_bind _ _ (fun _ => True)); [by apply safe_lift|]. intros c _. apply safe_reserve.
    eapply safe_bind; [apply safe_compact_paths|]. intros segments Hseg. apply safe_mfor; [done|].
    intros nexts segment Hnexts Hin. apply (safe_extend_sequence mode s n k); try done; [lia|].
    by eapply Forall_forall in Hseg.
  - intros nexts Hnexts. destruct nexts as [|p nexts]; [by apply safe_ret|]. by apply (IH k).
Qed.
Lemma safe_sequence_paths mode start_index start steps n : base `prefix_of` columns ->
  pattern_node_typed scope start -> hydrated_ok hydrated (pattern_node_fields start) ->
  Forall step_ok steps -> steps_fill (length base) steps = Some n -> (n <= length columns)%nat ->
  safe (sequence_expand_paths graph hydrated row mode start_index start steps) (Forall (sequence_at n)).
Proof.
  intros [more Hmore] Hn Hh Hs Hfill Hle. unfold sequence_expand_paths.
  eapply (safe_bind _ _ (fun _ => True)).
  { apply safe_lift. destruct (path_start _ _ _) as [|e] eqn:He; [done|].
    apply path_start_Err in He as [-> _]. tolerates. }
  intros [record|] _; [|apply safe_ret; constructor].
  eapply safe_bind.
  { apply (safe_sequence_node _ _ base); [done| |done]. destruct Hscope as [more' ->]. by apply pattern_node_weaken. }
  intros [] _; [|apply safe_ret; constructor]. cbn [negb]. apply safe_reserve.
  eapply safe_bind.
  - apply (safe_extend_steps mode steps (length base) n); [done..|]. repeat constructor; [| |done].
    + cbn. by rewrite (row_ok_length _ _ Hrow).
    + cbn. by rewrite Hmore, take_app_length.
  - intros paths Hp. by apply safe_ret, sort_by_Forall.
Qed.
Lemma push_path_ok path_index reason mode vertices edges n path_row :
  fill n path_index = Some (length columns) ->
  (forall i, path_index = Some i -> co_ty <$> columns !! i = Some (nullable TPath optional)) ->
  filled columns n path_row ->
  exists next, push_path path_index reason mode vertices edges path_row = Ok next /\
    row_ok (map co_ty columns) next.
Proof.
  intros Hf Hp Hr. unfold push_path. destruct path_index as [i|]; cbn [fill] in Hf.
  - rewrite (proj1 Hr). destruct (Nat.eqb_spec i n) as [->|]; [|done]. eexists. split; [done|].
    specialize (Hp n eq_refl). apply fmap_Some in Hp as (c & Hc & Hty).
    apply filled_all. injection Hf as <-. eapply filled_push; [done..|]. rewrite <- Hty. by apply nullable_ok.
  - injection Hf as ->. eexists. split; [done|]. by apply filled_all.
Qed.
End Sequences.

Section SequenceRows.
Context `{Clock, Layout, Unicode, PathLayout}.
Variable graph : GraphSnapshotV2.
Variable hydrated : HydratedValuesV2.

(** The anchors' columns come before the path's. *)
Lemma anchors_filled columns n row path_index anchors : filled columns n row ->
  fill n path_index = Some (length columns) ->
  (forall i, path_index = Some i -> co_ty <$> columns !! i = Some (nullable TPath false)) ->
  anchors_typed columns anchors -> is_ok (matches_match_anchors row anchors) = true.
Proof.
  intros [Hl _] Hf Hp Ha. induction Ha as [|a anchors (c & Hc & Hty) _ IH]; [done|].
  cbn [matches_match_anchors]. destruct (row !! ma_column_index a) as [v|] eqn:Hv; cbn [ok_or mbind result_bind].
  - destruct v; try done. by destruct (bool_decide _).
  - exfalso. apply lookup_ge_None in Hv. pose proof (lookup_lt_Some _ _ _ Hc) as Hlt.
    destruct path_index as [i|]; cbn in Hf; [|injection Hf; lia].
    destruct (Nat.eqb_spec i n) as [->|]; [|done]. injection Hf as Hf.
    assert (ma_column_index a = n) as Hi by lia. specialize (Hp n eq_refl). rewrite Hi in Hc.
    rewrite Hc in Hp. cbn in Hp. injection Hp as Hp. by rewrite Hp in Hty.
Qed.
Lemma sequence_parts base scope columns optional start_index start steps path_index :
  sequence_typed base scope columns optional start_index start steps path_index ->
  exists n, steps_fill (length base) steps = Some n /\ fill n path_index = Some (length columns) /\
    (n <= length columns)%nat.
Proof.
  intros Ht. pose proof (sq_filled _ _ _ _ _ _ _ _ Ht) as Hf. apply bind_Some in Hf as (n & Hn & Hf).
  exists n. split_and!; [done..|by eapply fill_le].
Qed.
Lemma steps_ok columns scope optional steps : Forall (step_typed scope columns optional) steps ->
  hydrated_ok hydrated (concat (map step_fields steps)) ->
  Forall (step_ok hydrated scope columns optional) steps.
Proof.
  intros Hs Hh. apply Forall_forall. intros s Hin. split; [by eapply Forall_forall in Hs|].
  by eapply hydrated_ok_concat in Hh.
Qed.
Lemma safe_match_sequence name start steps mode path_index shortest anchors columns :
  sequence_typed [{| co_name := name; co_ty := TEntity |}] [] columns false 0 start steps path_index ->
  anchors_typed columns anchors ->
  hydrated_ok hydrated (pattern_node_fields start ++ concat (map step_fields steps)) ->
  safe (match_sequence_rows graph hydrated start steps mode path_index shortest anchors (length columns))
    (rows_ok columns).
Proof.
  intros Ht Ha [Hh Hhs]%hydrated_ok_app. destruct (sequence_parts _ _ _ _ _ _ _ _ Ht) as (n & Hn & Hf & Hle).
  destruct Ht as [Hb He Hnode Hall Hp _ _]. unfold match_sequence_rows.
  eapply (safe_bind _ _ (fun acc => rows_ok columns acc.2)); [|by intros [] ?; apply safe_ret].
  apply safe_mfor; [constructor|]. intros acc record Hacc _. apply safe_reserve. eapply safe_bind.
  - eapply (safe_sequence_paths graph hydrated [{| co_name := name; co_ty := TEntity |}] [] columns false); try done.
    + by repeat constructor.
    + apply prefix_nil.
    + by apply steps_ok.
  - intros paths Hpaths. apply safe_mfor; [done|]. clear acc Hacc. intros [endpoints out] path Ho Hin. cbn [snd] in Ho.
    destruct (proj1 (Forall_forall _ _) Hpaths path Hin) as [Hrow Hv]. unfold match_sequence_path.
    pose proof (anchors_filled _ _ _ _ _ Hrow Hf Hp Ha) as Hk.
    eapply (safe_bind _ _ (fun _ => True)); [apply safe_lift; by destruct (matches_match_anchors _ _)|].
    intros [] _; [|by apply safe_ret]. cbn [negb].
    destruct (sp_vertices path) as [|first rest] eqn:Hvs; [done|]. cbn [head hd_error].
    eapply (safe_bind _ _ (fun _ => True)); [by apply safe_lift|]. intros f _.
    destruct (last (first :: rest)) as [l|] eqn:Hlast; [|by apply last_None in Hlast].
    eapply (safe_bind _ _ (fun _ => True)); [by apply safe_lift|]. intros l' _.
    destruct (push_path_ok columns false path_index "match_binding" mode (first :: rest) (sp_edges path) n
      (sp_row path) Hf Hp Hrow) as (next & -> & Hnext).
    eapply (safe_bind _ _ (fun x => x = next)); [by apply safe_lift|]. intros ? ->.
    rewrite (row_ok_length _ _ Hnext), Nat.eqb_refl. cbn [negb].
    destruct (_ && _); [by apply safe_ret|]. apply safe_reserve, safe_ret. by apply rows_ok_snoc.
Qed.

(** A row filled up with nulls, where the pattern is optional *)
Lemma resize_row_ok base columns row : base `prefix_of` columns -> row_ok (map co_ty base) row ->
  (forall i c, (length base <= i)%nat -> columns !! i = Some c -> is_nullable (co_ty c) = true) ->
  row_ok (map co_ty columns) (resize_row (length columns) row).
Proof.
  intros [more ->] Hr Hn. unfold resize_row. pose proof (row_ok_length _ _ Hr) as Hl.
  rewrite take_ge by (rewrite length_app; lia). apply row_ok_app; [done|].
  rewrite length_app, Hl. replace (length base + length more - length base)%nat with (length more) by lia.
  assert (Forall (fun c => is_nullable (co_ty c) = true) more) as Hm.
  { apply Forall_lookup_2. intros i c Hc. apply (Hn (length base + i)%nat); [lia|]. rewrite lookup_app_r by lia; by rewrite Nat.add_comm, Nat.add_sub. }
  clear -Hm. induction Hm as [|c more Hc _ IH]; [constructor|]. constructor; [|exact IH]. by destruct (co_ty c).
Qed.
Lemma safe_expand_sequence scope columns start_index start steps mode path_index optional input :
  sequence_typed scope scope columns optional start_index start steps path_index ->
  hydrated_ok hydrated (pattern_node_fields start ++ concat (map step_fields steps)) ->
  rows_ok scope input ->
  safe (expand_sequence_rows graph hydrated start_index start steps mode path_index optional (length columns) input)
    (rows_ok columns).
Proof.
  intros Ht [Hh Hhs]%hydrated_ok_app Hi. destruct (sequence_parts _ _ _ _ _ _ _ _ Ht) as (n & Hn & Hf & Hle).
  destruct Ht as [Hb He Hnode Hall Hp _ Hnull]. apply safe_mfor; [constructor|]. intros out row Ho Hin.
  pose proof (proj1 (Forall_forall _ _) Hi row Hin) as Hrow. unfold expand_sequence_row. apply safe_check.
  eapply safe_bind.
  - eapply (safe_sequence_paths graph hydrated scope scope columns optional); try done. by apply steps_ok.
  - intros paths Hpaths. destruct paths as [|p paths].
    + destruct optional; [|by apply safe_ret]. apply safe_reserve, safe_ret, rows_ok_snoc; [done|].
      eapply resize_row_ok; eauto.
    + apply safe_mfor; [done|]. clear out Ho. intros out path Ho Hpath.
      destruct (proj1 (Forall_forall _ _) Hpaths path Hpath) as [Hr Hv].
      destruct (push_path_ok columns optional path_index "expand_sequence_binding" mode (sp_vertices path)
        (sp_edges path) n (sp_row path) Hf Hp Hr) as (next & -> & Hnext).
      eapply (safe_bind _ _ (fun x => x = next)); [by apply safe_lift|]. intros ? ->.
      rewrite (row_ok_length _ _ Hnext), Nat.eqb_refl. cbn [negb].
      apply safe_reserve, safe_ret. by apply rows_ok_snoc.
Qed.
End SequenceRows.
