(* ===== verification/RetrievalTyping.v ===== *)
(** * Retrieval fills the columns it is bound to

    Annotations, exact vector ranking, lexical ranking and contexts: every row they make is of
    its columns' types; and the properties hydrated for them are of their fields' types. *)
From S2P Require Export PathTyping.
Local Open Scope Z_scope.

Lemma entity_value v ty : has_type ty v = true -> type_base ty = TEntity ->
  v = VNull \/ exists r, v = VEntity r.
Proof.
  intros Hv Ht. destruct (has_type_at _ _ _ Hv Ht) as [[-> _]|He]; [by left|]. destruct v; try done. eauto.
Qed.

(** ** Annotations *)

Section Annotations.
Context `{Clock, Layout, Unicode, UuidCrate}.
Variable annotation_lookup : RecordRefV2 -> exec (list RecordRefV2).
Hypothesis Hlookup : forall r, safe (annotation_lookup r) (fun _ => True).

Lemma annotation_checked_tolerable target a :
  match annotation_checked target a with Ok _ => True | Err e => tolerable e end.
Proof.
  unfold annotation_checked. destruct (record_ref_validate a); [|tolerates].
  destruct (_ || _); [tolerates|done].
Qed.
Lemma safe_annotations_of target seen :
  safe (annotations_of annotation_lookup target seen) (fun _ => True).
Proof.
  unfold annotations_of. apply safe_reserve. destruct (seen !! _); [by apply safe_ret|].
  eapply safe_bind; [apply Hlookup|]. intros matches _. apply safe_reserve.
  apply (safe_bind _ _ (fun _ => True)); [|intros; by apply safe_ret].
  apply safe_lift. induction matches as [|a matches IH]; [done|].
  rewrite try_for_cons. pose proof (annotation_checked_tolerable target a) as Ha.
  destruct (annotation_checked target a) as [[]|e]; [exact IH|exact Ha].
Qed.
Lemma safe_annotation_rows scope name target_index optional input : entity_at scope target_index ->
  rows_ok scope input ->
  safe (annotation_rows annotation_lookup target_index optional input)
    (rows_ok (scope ++ [{| co_name := name; co_ty := nullable TEntity optional |}])).
Proof.
  intros (c & Hc & Hty) Hi. set (columns := scope ++ _).
  eapply (safe_bind _ _ (fun acc => rows_ok columns acc.2)); [|by intros [] ?; apply safe_ret].
  apply safe_mfor; [constructor|]. intros [seen out] row Ho Hin. cbn [snd] in Ho.
  pose proof (proj1 (Forall_forall _ _) Hi row Hin) as Hrow. unfold annotation_row. apply safe_check.
  destruct (row_ok_lookup_l _ _ _ _ Hrow Hc) as (v & Hv & Htyv). rewrite Hv.
  eapply (safe_bind _ _ (fun x => x = v)); [by apply safe_lift|]. intros ? ->.
  apply (safe_bind _ _ (fun _ => True)).
  { destruct (entity_value _ _ Htyv Hty) as [->|[r ->]]; [by apply safe_ret|apply safe_annotations_of]. }
  intros [matches seen'] _. destruct matches as [|m matches].
  - destruct optional; [|by apply safe_ret].
    eapply safe_bind; [by apply (safe_push_with_value scope)|]. intros out' Ho'. by apply safe_ret.
  - eapply (safe_bind _ _ (rows_ok columns)); [|intros out' Ho'; by apply safe_ret].
    apply safe_mfor; [done|]. intros out' a Ho' _. apply (safe_push_with_value scope); try done.
    by apply nullable_ok.
Qed.
End Annotations.

(** ** Rankings *)

(** A ranked row is one of the input's, with a score that is a number. *)
Definition ranked_ok (input : list vrow) (r : nat * RecordKeyV2 * ScoreValueV2) : Prop :=
  is_Some (input !! r.1.1) /\ f64_is_finite (sc_value r.2) = true.
Lemma imap_pair_lookup {A} (l : list A) i a : (i, a) ∈ imap pair l -> l !! i = Some a.
Proof.
  intros (j & Hj)%list_elem_of_lookup. rewrite list_lookup_imap in Hj.
  apply fmap_Some in Hj as (b & Hb & [= -> ->]). done.
Qed.

Section Rankings.
Context `{Clock, Layout, Unicode}.

Lemma safe_push_ranked scope name input k l : rows_ok scope input -> Forall (ranked_ok input) l ->
  safe (push_ranked input k l) (rows_ok (scope ++ [{| co_name := name; co_ty := TScore |}])).
Proof.
  intros Hi Hl. apply safe_mfor; [constructor|]. intros out r Ho Hr.
  assert (r ∈ l) as Hin by (rewrite <- (ztake_zskip k l), elem_of_app; by left).
  destruct (proj1 (Forall_forall _ _) Hl r Hin) as [[row Hrow] Hf]. rewrite Hrow.
  eapply (safe_bind _ _ (fun x => x = row)); [by apply safe_lift|]. intros ? ->.
  apply (safe_push_with_value scope); [done| |done]. by eapply Forall_lookup_1.
Qed.

Variable hydrated : HydratedValuesV2.

Section Vectors.
Variable vector_lookup : list RecordRefV2 -> string -> bool -> exec VectorBatchV2.
Hypothesis Hlookup : forall records name rerank, safe (vector_lookup records name rerank) (fun _ => True).
Variable scope : list Column.
Variable query_expr : BoundExpr.
Hypothesis Hquery : expr_ok hydrated scope query_expr.

Lemma safe_vector_candidate input entity_index collection rerank acc irow : entity_at scope entity_index ->
  rows_ok scope input -> irow ∈ imap pair input ->
  Forall (fun c : nat * RecordRefV2 * VectorValueV2 => is_Some (input !! c.1.1)) acc ->
  safe (vector_candidate hydrated entity_index query_expr collection rerank acc irow)
    (Forall (fun c => is_Some (input !! c.1.1))).
Proof.
  intros (c & Hc & Hty) Hi Hin Hacc. destruct irow as [i row]. apply imap_pair_lookup in Hin.
  pose proof (Forall_lookup_1 _ _ _ _ Hi Hin) as Hrow. unfold vector_candidate. cbn [snd fst]. apply safe_check.
  destruct (row_ok_lookup_l _ _ _ _ Hrow Hc) as (v & Hv & Htyv). rewrite Hv.
  destruct (entity_value _ _ Htyv Hty) as [->|[r ->]].
  - destruct rerank; [apply safe_fail; tolerates|by apply safe_ret].
  - destruct (negb _); [apply safe_fail; tolerates|].
    eapply safe_bind; [by apply (safe_eval _ scope)|]. intros q _.
    destruct q; try (apply safe_fail; tolerates). destruct (_ || _); [apply safe_fail; tolerates|].
    apply safe_ret, Forall_app. split; [done|]. repeat constructor. by eexists.
Qed.
Lemma distance_tolerable query candidate metric d : exact_vector_distance query candidate metric = d ->
  match d with Ok _ => True | Err e => tolerable e end.
Proof.
  intros <-. unfold exact_vector_distance. destruct (_ || _ || _); [cbn; tolerates|].
  destruct (bool_decide (metric = _)); [destruct (f64_is_finite _); [done|cbn; tolerates]|].
  destruct (bool_decide (metric = _)); [|cbn; tolerates]. destruct (_ || _); [cbn; tolerates|].
  destruct (foldl _ _ _) as [[dot qn] cn]. destruct (f64_is_finite _); [done|cbn; tolerates].
Qed.
Lemma safe_vector_rank name entity_index collection k kind input : entity_at scope entity_index ->
  rows_ok scope input ->
  safe (vector_rank_rows hydrated vector_lookup entity_index query_expr collection k kind input)
    (rows_ok (scope ++ [{| co_name := name; co_ty := TScore |}])).
Proof.
  intros He Hi. unfold vector_rank_rows. apply safe_pay; [apply pays_reserve_in|]. apply safe_reserve.
  eapply safe_bind.
  { apply (safe_mfor _ (Forall (fun c => is_Some (input !! c.1.1)))); [constructor|].
    intros acc irow Hacc Hin. by apply safe_vector_candidate. }
  intros candidates Hcs. eapply safe_bind; [apply Hlookup|]. intros vectors _.
  destruct (negb _); [apply safe_fail; tolerates|]. eapply safe_bind.
  - apply (safe_mfor _ (Forall (ranked_ok input))); [constructor|].
    intros acc [[[i owner] q] candidate] Hacc Hin. unfold vector_score. apply safe_check.
    apply elem_of_zip_l in Hin. pose proof (proj1 (Forall_forall _ _) Hcs _ Hin) as Hrow.
    destruct candidate as [candidate|]; [|destruct (match kind with RankRerank => _ | _ => _ end);
      [apply safe_fail; tolerates|by apply safe_ret]].
    apply safe_pay; [apply pays_reserve_in|].
    eapply (safe_bind _ _ (fun d => f64_is_finite d = true)).
    + apply safe_lift. destruct (exact_vector_distance q candidate _) as [d|e] eqn:Hd.
      * by eapply exact_distance_finite.
      * exact (distance_tolerable _ _ _ _ Hd).
    + intros d Hd. apply safe_reserve, safe_ret, Forall_app. split; [done|]. by repeat constructor.
  - intros l Hl. apply safe_push_ranked; [done|]. by apply sort_by_Forall.
Qed.
End Vectors.
End Rankings.

(** ** Text *)

Section Lexical.
Context `{Clock, Layout, Unicode, Libm, RetrievalLayout}.
Variable graph : GraphSnapshotV2.
Variable hydrated : HydratedValuesV2.

Lemma safe_hydrated o : safe (lift (ok_or o (failure "lexical_hydration"))) (fun _ : QueryValueV2 => True).
Proof. apply safe_lift. destruct o; [done|cbn; tolerates]. Qed.
Lemma safe_tokens text : safe (unicode_whitespace_tokens text) (fun _ => True).
Proof. by apply safe_reserve, safe_ret. Qed.
Lemma safe_lexical_document field has_property acc record :
  safe (lexical_document hydrated field has_property acc record) (fun _ => True).
Proof.
  destruct acc as [docs total]. unfold lexical_document. apply safe_check.
  eapply safe_bind; [apply safe_hydrated|]. intros present _. destruct (negb _); [by apply safe_ret|].
  eapply safe_bind; [apply safe_hydrated|]. intros v _.
  destruct v as [| | | | | |[| | |text| |]| | | | | | | |]; try by apply safe_ret.
  eapply safe_bind; [apply safe_tokens|]. intros tokens _. by apply safe_reserve, safe_ret.
Qed.
Lemma safe_lexical_match scope name entity_index field has_property query_text k input :
  entity_at scope entity_index -> rows_ok scope input ->
  safe (lexical_match_rows graph hydrated input entity_index field has_property query_text k)
    (rows_ok (scope ++ [{| co_name := name; co_ty := TScore |}])).
Proof.
  intros (c & Hc & Hty) Hi. unfold lexical_match_rows. eapply safe_bind; [apply safe_tokens|]. intros terms _.
  eapply (safe_bind _ _ (fun _ => True)).
  { apply safe_mfor; [done|]. intros acc record _ _. apply safe_lexical_document. }
  intros [docs total] _. eapply safe_bind.
  { apply (safe_mtraverse _ (fun _ _ => True)). intros term _. by apply safe_reserve, safe_ret. }
  intros weights _. apply safe_reserve. eapply safe_bind.
  - apply (safe_mfor _ (Forall (ranked_ok input))); [constructor|]. intros acc [i row] Hacc Hin.
    apply imap_pair_lookup in Hin. pose proof (Forall_lookup_1 _ _ _ _ Hi Hin) as Hrow.
    unfold lexical_row. cbn [fst snd]. apply safe_check.
    destruct (row_ok_lookup_l _ _ _ _ Hrow Hc) as (v & Hv & Htyv). rewrite Hv.
    destruct (entity_value _ _ Htyv Hty) as [->|[r ->]]; [by apply safe_ret|].
    destruct (negb _); [apply safe_fail; tolerates|].
    destruct (bt_get _ _ _) as [[owner tokens]|]; [|by apply safe_ret].
    destruct (f64_is_finite _) eqn:Hf; cbn [negb]; [|apply safe_fail; tolerates].
    destruct (bool_decide _); [|by apply safe_ret]. apply safe_reserve, safe_ret, Forall_app.
    split; [done|]. repeat constructor; [by eexists|done].
  - intros l Hl. apply safe_push_ranked; [done|]. by apply sort_by_Forall.
Qed.
End Lexical.

Section ContextPack.
Context `{Clock, Layout, Unicode, HexSha256, RetrievalLayout}.
Variable hydrated : HydratedValuesV2.
Variable scope : list Column.
Variables text evidence text_entity : BoundExpr.
Hypothesis Htext : expr_ok hydrated scope text.
Hypothesis Hevidence : expr_ok hydrated scope evidence.
Hypothesis Hsource : text_source text = Some text_entity.
Hypothesis Hjson : type_base (be_ty text) = TJson.
Hypothesis Hentity : be_ty evidence = TEntity.

Lemma text_entity_ok : expr_ok hydrated scope text_entity /\ type_base (be_ty text_entity) = TEntity.
Proof.
  unfold text_source in Hsource. destruct text as [ty kind]. cbn [be_kind] in Hsource.
  destruct kind as [| | | | | |entity nm hp field| | | | |]; try done. destruct (fi_name field); [|done].
  destruct (be_kind nm) as [v| | | | | | | | | | |]; try done. destruct v; try done. injection Hsource as <-.
  destruct Htext as [Hw Hh]. unfold expr_typed in Hw. cbn [well_typed] in Hw.
  rewrite !andb_true_iff, !bool_decide_eq_true in Hw. destruct Hw as (((((Hw & _) & Ht) & _) & _) & _).
  split; [|done]. split; [done|]. cbn [be_fields] in Hh. by apply hydrated_ok_app in Hh as [[Hh _]%hydrated_ok_app _].
Qed.
Lemma safe_pack_row token_budget p row : row_ok (map co_ty scope) row ->
  safe (pack_row hydrated text evidence text_entity token_budget p row) (fun _ => True).
Proof.
  intros Hrow. unfold pack_row. apply safe_check. destruct text_entity_ok as [Hte Htt].
  apply (safe_bind _ _ (fun _ => True)).
  - unfold context_source. eapply safe_bind; [by apply (safe_eval _ scope)|]. intros a Ha.
    eapply safe_bind; [by apply (safe_eval _ scope)|]. intros b Hb. cbn beta in *.
    rewrite Hentity in Ha. destruct a as [| | | | | | |source| | | | | | |]; try done.
    destruct (entity_value _ _ Hb Htt) as [->|[r ->]]; [by apply safe_ret|].
    destruct (bool_decide _); [by apply safe_ret|apply safe_fail; tolerates].
  - intros [source|] _; [|by apply safe_ret]. apply (safe_bind _ _ (fun _ => True)).
    + unfold context_text. eapply safe_bind; [by apply (safe_eval _ scope)|]. intros v Hv. cbn beta in Hv.
      destruct (has_type_at _ _ _ Hv Hjson) as [[-> _]|Hv']; [by apply safe_ret|].
      destruct v as [| | | | | |j| | | | | | | |]; try done.
      destruct j; try (by apply safe_ret); apply safe_fail; tolerates.
    + intros [source_text|] _; [|by apply safe_ret]. unfold pack_text.
      destruct (_ || _); by apply safe_reserve, safe_ret.
Qed.
Lemma safe_context_pack name tokens tokenizer_fingerprint input : rows_ok scope input ->
  safe (context_pack_row hydrated input text evidence text_entity tokens tokenizer_fingerprint)
    (rows_ok [{| co_name := name; co_ty := TContext |}]).
Proof.
  intros Hi. unfold context_pack_row. eapply (safe_bind _ _ (fun _ => True)).
  - apply safe_mfor; [done|]. intros p row _ Hin. apply safe_pack_row. by eapply Forall_forall in Hi.
  - intros p _. apply safe_reserve, safe_ret. by repeat constructor.
Qed.
End ContextPack.

(** ** What is read for a kernel is what it asks for

    The values hydrated before a kernel runs are of the types of its fields: the fields of a
    query have distinct slots, so no other field's value is found under one of them. *)

(** *** Loops that end *)

Lemma safe_rounds {S R} (step : S -> exec (S + R)) (J : S -> Prop) (weight : S -> nat) (Q : R -> Prop) k s :
  (forall s, J s -> safe (step s) (fun r =>
     match r with inl s' => J s' /\ (weight s' < weight s)%nat | inr a => Q a end)) ->
  J s -> (weight s < 2 ^ k)%nat ->
  safe (rounds step k s) (fun r => match r with inl _ => False | inr a => Q a end).
Proof.
  intros Hstep Hs Hw b Hb. rewrite rounds_repeat. revert b Hb.
  assert (forall n s, J s -> (weight s < n)%nat ->
    safe (repeat_round step n s) (fun r => match r with inl _ => False | inr a => Q a end)) as Hn; [|by apply Hn].
  clear k s Hs Hw. induction n as [|n IH]; intros s Hs Hw; [lia|]. cbn [repeat_round].
  eapply safe_bind; [by apply Hstep|]. intros [s'|a] Hr; [|by apply safe_ret].
  destruct Hr as [Hs' Hlt]. apply IH; [done|lia].
Qed.

(** *** The fields of a kernel *)

Definition kernel_fields (kernel : Kernel) : list FieldIdV2 :=
  match kernel with
  | KnMatchSequence start steps _ _ _ _ | KnExpandSequence _ start steps _ _ _ =>
      pattern_node_fields start ++ concat (map step_fields steps)
  | KnVectorRank _ query _ _ _ => be_fields query
  | KnLexicalMatch _ field has_property _ _ _ => [field; has_property]
  | KnContextPack text evidence _ _ _ => be_fields text ++ be_fields evidence
  | KnFilter e | KnJoin _ e _ => be_fields e
  | KnProject exprs => concat (map be_fields exprs)
  | KnSort keys => concat (map (fun k => be_fields k.1.1) keys)
  | KnAggregate groups aggregates =>
      concat (map be_fields groups) ++
      concat (map (fun a => match ag_arg a with Some e => be_fields e | None => [] end) aggregates)
  | _ => []
  end.
Lemma map_concat_map {A B C} (f : B -> C) (g : A -> list B) (h : A -> list C) l :
  (forall a, map f (g a) = h a) -> map f (concat (map g l)) = concat (map h l).
Proof. intros Hg. rewrite concat_map, map_map. f_equal. apply map_ext, Hg. Qed.
Lemma property_fields_slots ps : map fi_index (property_fields ps) = property_slots ps.
Proof. apply map_concat_map. intros p. by rewrite map_app. Qed.
Lemma pattern_node_fields_slots n : map fi_index (pattern_node_fields n) = pattern_node_slots n.
Proof.
  unfold pattern_node_fields, pattern_node_slots. rewrite map_app, property_fields_slots.
  by destruct (bn_id n).
Qed.
Lemma step_fields_slots s : map fi_index (step_fields s) = step_slots s.
Proof. unfold step_fields. by rewrite map_app, pattern_node_fields_slots, property_fields_slots. Qed.
Lemma kernel_fields_slots kernel : map fi_index (kernel_fields kernel) = kernel_slots kernel.
Proof.
  destruct kernel; cbn [kernel_fields kernel_slots map]; rewrite ?map_app, ?pattern_node_fields_slots; try done;
    f_equal; try (by apply map_concat_map); try (apply (map_concat_map _ _ step_slots), step_fields_slots).
  apply map_concat_map. intros a. by destruct (ag_arg a).
Qed.

(** The columns the roots of a kernel's expressions are typed over *)
Definition kernel_scope (kernel : Kernel) (inputs : list (list Column)) : list Column :=
  match kernel, inputs with
  | KnJoin _ _ _, [left_; right_] => left_ ++ right_
  | _, scope :: _ => scope
  | _, [] => []
  end.
Lemma elem_concat_map {A B} (g : A -> list B) l a b : a ∈ l -> b ∈ g a -> b ∈ concat (map g l).
Proof.
  intros Ha Hb. apply list_elem_of_In, in_concat. exists (g a).
  split; [by apply in_map, list_elem_of_In|by apply list_elem_of_In].
Qed.
Lemma roots_typed inputs kernel columns : kernel_typed inputs kernel columns ->
  Forall (fun e => expr_typed (kernel_scope kernel inputs) e /\ be_fields e ⊆ kernel_fields kernel)
    (expression_roots kernel).
Proof.
  intros Hk. apply Forall_forall. intros e He.
  destruct kernel as [| | | | | | |text evidence| | |predicate|exprs| |keys| | | |groups aggregates|];
    cbn [expression_roots kernel_fields] in *; try (by apply elem_of_nil in He);
    destruct inputs as [|scope [|right_ [|]]]; cbn [kernel_typed kernel_scope] in *; try done.
  - destruct Hk as (Ht & Hev & _). apply elem_of_cons in He as [->|He%list_elem_of_singleton]; [|subst e];
      (split; [done|]); set_solver.
  - apply list_elem_of_singleton in He as ->. by destruct Hk.
  - destruct Hk as [Hx _]. split; [by eapply Forall_forall in Hx|]. intros f. by apply elem_concat_map.
  - destruct Hk as [Hx _]. apply list_elem_of_fmap in He as (k & -> & Hin).
    split; [eapply Forall_forall in Hx; [apply Hx|done]|]. intros f.
    by apply (elem_concat_map (fun k : BoundExpr * SortDirection * NullOrder => be_fields k.1.1)).
  - destruct Hk as [Hg (types & _ & Ha)]. apply elem_of_app in He as [He|He].
    + split; [by eapply Forall_forall in Hg|]. intros f Hf. apply elem_of_app. left. by eapply elem_concat_map.
    + apply list_elem_of_omap in He as (call & Hcall & Harg). split.
      * apply list_elem_of_lookup in Hcall as [i Hi]. destruct (Forall2_lookup_l _ _ _ _ _ Ha Hi) as (ty & _ & [Hm _]).
        rewrite Harg in Hm. apply Hm.
      * intros f Hf. apply elem_of_app. right.
        eapply (elem_concat_map _ _ call); [done|]. by rewrite Harg.
  - apply list_elem_of_singleton in He as ->. by destruct Hk.
Qed.

Lemma list_sum_map_perm {A} (f : A -> nat) l k : l ≡ₚ k -> list_sum (map f l) = list_sum (map f k).
Proof. unfold list_sum. induction 1; cbn; lia. Qed.

(** *** Needs *)

Section Needs.
Context `{Clock, Layout, Unicode}.
Variable scope : list Column.
Variable fields : list FieldIdV2.

Definition root_ok (e : BoundExpr) : Prop := expr_typed scope e /\ be_fields e ⊆ fields.
Record need_ok (nd : PropertyNeedV2) : Prop := {
  no_entity : expr_typed scope (nd_entity nd);
  no_name : expr_typed scope (nd_name nd);
  no_field : nd_field nd ∈ fields;
}.
Lemma root_ok_children e : root_ok e -> Forall root_ok (be_children e).
Proof.
  intros [Hw Hf]. apply Forall_forall. intros c Hc. split.
  - exact (proj1 (Forall_forall _ _) (well_typed_children _ e Hw) c Hc).
  - intros f Hfc. apply Hf. by eapply fields_children.
Qed.
Definition needs_ok (st : needs_state) : Prop := Forall root_ok st.1.1 /\ Forall need_ok st.2.
Definition needs_weight (st : needs_state) : nat := list_sum (map be_size st.1.1).
(** Whatever is pushed is made of the children of what is popped. *)
Lemma needs_next e stack pushed seen seen' needs needs' : needs_ok (e :: stack, seen, needs) ->
  pushed ≡ₚ be_children e -> Forall need_ok needs' ->
  needs_ok (pushed ++ stack, seen', needs') /\
  (needs_weight (pushed ++ stack, seen', needs') < needs_weight (e :: stack, seen, needs))%nat.
Proof.
  intros [Hs _] Hp Hn. cbn [fst snd] in Hs. apply Forall_cons in Hs as [He Hs]. split.
  - split; [|done]. apply Forall_app. split; [|done]. rewrite Hp. by apply root_ok_children.
  - unfold needs_weight. cbn [fst snd map]. rewrite map_app, list_sum_app.
    change (list_sum (?a :: ?l)) with (a + list_sum l)%nat. rewrite (be_size_eq e).
    assert (list_sum (map be_size pushed) = list_sum (map be_size (be_children e))) as ->; [|lia].
    by apply list_sum_map_perm.
Qed.
Lemma safe_need_round st : needs_ok st ->
  safe (need_round st) (fun r => match r with
    | inl st' => needs_ok st' /\ (needs_weight st' < needs_weight st)%nat
    | inr needs => Forall need_ok needs end).
Proof.
  destruct st as [[stack seen] needs]. intros Hst. destruct stack as [|e stack]; [apply safe_ret, Hst|].
  pose proof (proj2 Hst) as Hneeds. pose proof (Forall_inv (proj1 Hst)) as He. cbn [snd] in Hneeds.
  cbn [need_round]. apply safe_check. destruct e as [ty kind]. cbn [be_kind].
  destruct kind as [v|i|i f|i f|i f|i f|entity nm hp field|op l r|op a|a|a|needle values negated];
    try (apply safe_ret; by apply (needs_next _ _ [])).
  - apply (safe_bind _ _ (fun st : gset Z * list PropertyNeedV2 => Forall need_ok st.2)).
    + destruct (bool_decide _); [by apply safe_ret|]. apply safe_reserve, safe_ret, Forall_app. split; [done|].
      repeat constructor; cbn.
      * by apply root_ok_children, Forall_inv in He as [? _].
      * by apply root_ok_children, Forall_inv_tail, Forall_inv in He as [? _].
      * apply (proj2 He). cbn. apply elem_of_app. right. by left.
    + intros [seen' needs'] Hn. apply safe_reserve, safe_ret. by apply (needs_next _ _ [entity; nm]).
  - apply safe_reserve, safe_ret. by apply (needs_next _ _ [l; r]).
  - apply safe_reserve, safe_ret. by apply (needs_next _ _ [a]).
  - apply safe_reserve, safe_ret. by apply (needs_next _ _ [a]).
  - apply safe_reserve, safe_ret. by apply (needs_next _ _ [a]).
  - apply safe_reserve, safe_ret. apply (needs_next _ _ (needle :: rev values)); [done| |done].
    cbn. constructor. symmetry. apply Permutation_rev.
Qed.
Lemma safe_property_needs roots : Forall root_ok roots ->
  safe (property_needs roots) (Forall need_ok).
Proof.
  intros Hr. unfold property_needs. eapply safe_bind.
  - apply (safe_rounds need_round needs_ok needs_weight).
    + intros st. apply safe_need_round.
    + split; [|constructor]. by apply Forall_rev.
    + unfold needs_weight, needs_fuel. cbn [fst].
      assert (list_sum (map be_size (rev roots)) = list_sum (map be_size roots)) as ->.
      { apply list_sum_map_perm. symmetry. apply Permutation_rev. }
      apply (Nat.log2_up_le_pow2 (S (list_sum (map be_size roots)))); lia.
  - intros [st|needs] Hn; [done|by apply safe_ret].
Qed.
End Needs.

(** *** Groups *)

Section Groups.
Context `{Clock, Layout, Unicode}.
Variable scope : list Column.
Variable fields : list FieldIdV2.

(** A field asked for, under a name of its own or of a row *)
Definition known (f : FieldIdV2) : Prop :=
  exists g, g ∈ fields /\ fi_index g = fi_index f /\ fi_has_property g = fi_has_property f.
Definition group_ok (g : HydrationGroupV2) : Prop := Forall (fun kv => known kv.2) (hg_fields g).
Notation groups_ok acc := (group_ok (acc : HydrationGroupV2 * list (string * HydrationGroupV2)).1 /\
  Forall (fun kv => group_ok kv.2) acc.2).

Lemma elem_known f : f ∈ fields -> known f.
Proof. intros Hf. by exists f. Qed.
Lemma known_with_name f name : known f -> known (with_name f name).
Proof. intros (g & Hg & Hi & Hh). exists g. by destruct f. Qed.
Lemma bt_insert_Forall {K V} (c : K -> K -> comparison) `{!CmpOrd c} (P : K * V -> Prop) k v m :
  P (k, v) -> Forall P m -> Forall P (bt_insert c k v m).
Proof.
  intros Hp Hm. apply Forall_forall. intros p [->|Hin]%bt_insert_keys; [done|]. by eapply Forall_forall in Hm.
Qed.
Lemma put_field_ok f g : known f -> group_ok g -> group_ok (put_field f g).
Proof. intros Hf Hg. by apply (bt_insert_Forall Z.compare (fun kv => known kv.2)). Qed.
Lemma or_field_ok f g : known f -> group_ok g -> group_ok (or_field f g).
Proof.
  intros Hf Hg. unfold group_ok, or_field, bt_or_insert. cbn [hg_fields].
  destruct (bt_contains _ _ _); [done|by apply (bt_insert_Forall Z.compare (fun kv => known kv.2))].
Qed.

Lemma safe_collect_need row need acc : row_ok (map co_ty scope) row -> need_ok scope fields need ->
  groups_ok acc -> safe (collect_need row acc need) (fun acc' => groups_ok acc').
Proof.
  intros Hrow [He Hn Hf] [Hs Hg]. destruct acc as [static_group groups]. cbn [fst snd] in *. unfold collect_need.
  assert (forall l, hydrated_ok ∅ l) as Hempty by (intros l f r nm v _; unfold hydrated_get, HydratedValuesV2; by rewrite lookup_empty).
  eapply safe_bind; [by apply (safe_eval _ scope)|]. intros v _.
  destruct v as [| | | | | | |record| | | | | | |]; try (apply safe_fail; auto with safe; fail); [by apply safe_ret|].
  destruct (fi_name (nd_field need)).
  - apply safe_reserve, safe_ret. split; [|done]. apply (or_field_ok _ _ (elem_known _ Hf) Hs).
  - eapply safe_bind; [by apply (safe_eval _ scope)|]. intros nm _.
    destruct nm as [| | | | |nm| | | | | | | | |]; try (apply safe_fail; auto with safe; fail).
    apply safe_reserve, safe_ret. split; [done|]. apply (bt_insert_Forall cmp_str); [|done].
    apply (or_field_ok _ _ (known_with_name _ nm (elem_known _ Hf))).
    destruct (bt_get cmp_str nm groups) as [g|] eqn:Hget; [|constructor].
    apply (bt_get_Some_elem cmp_str) in Hget. exact (proj1 (Forall_forall _ _) Hg _ Hget).
Qed.
Lemma safe_collect_row row needs acc : row_ok (map co_ty scope) row -> Forall (need_ok scope fields) needs ->
  groups_ok acc -> safe (collect_row_hydration needs acc row) (fun acc' => groups_ok acc').
Proof.
  intros Hrow Hn Ha. apply safe_mfor; [done|]. intros acc' need Ha' Hin. apply safe_collect_need; try done.
  by eapply Forall_forall in Hn.
Qed.

Lemma safe_add_record group record : group_ok group -> safe (add_record group record) group_ok.
Proof. intros Hg. apply safe_check, safe_reserve, safe_ret. exact Hg. Qed.
Lemma safe_add_records group records : group_ok group -> safe (mfor add_record group records) group_ok.
Proof. intros Hg. apply safe_mfor; [done|]. intros g r Hg' _. by apply safe_add_record. Qed.
Definition property_known (p : BoundPatternProperty) : Prop :=
  known (bp_value_field p) /\ known (bp_has_property_field p).
Lemma safe_add_static properties records group : Forall property_known properties -> group_ok group ->
  safe (add_static_property_records properties records group) group_ok.
Proof.
  intros Hp Hg. unfold add_static_property_records. destruct properties as [|p ps]; [by apply safe_ret|].
  eapply safe_bind; [|intros g Hg'; by apply safe_add_records].
  apply safe_mfor; [done|]. intros g q Hg' Hq. apply safe_reserve, safe_ret.
  destruct (proj1 (Forall_forall _ _) Hp q Hq) as [Hv Hh]. by repeat apply put_field_ok.
Qed.
End Groups.

(** *** Batches *)

(** Whatever is wrong with a batch is corruption. *)
Lemma add_batch_Err h records fields batch e : add_batch h records fields batch = Err e -> e = corruption.
Proof.
  unfold add_batch. destruct (batch_validate batch records fields) as [[]|e'] eqn:Hv; cbn.
  - apply (try_for_errors (fun e => e = corruption)). intros h' [[row [key]] record] e'. unfold add_row.
    destruct (negb _); [by intros [= <-]|]. apply (try_for_errors (fun e => e = corruption)). intros h'' [v f] e''. unfold add_cell.
    destruct (fi_name f); cbn; [|by intros [= <-]]. destruct (h'' !! _); by intros [= <-].
  - intros [= <-]. unfold batch_validate in Hv. destruct (_ || _); [by injection Hv|].
    destruct (existsb _ _); [by injection Hv|done].
Qed.

Section Batches.
Context `{Clock, Layout, Unicode}.
Variable hydrate : list RecordRefV2 -> list FieldIdV2 -> exec ExecBatchV2.
Hypothesis Hhydrate : forall records fs, safe (hydrate records fs) (fun _ => True).
Variable fields : list FieldIdV2.

(** Every value is one of a field asked for, of its type. *)
Definition values_ok (h : HydratedValuesV2) : Prop :=
  forall key v, h !! key = Some v ->
  exists g, g ∈ fields /\ fi_index g = key.1.2 /\ field_accepts g v = true.
Lemma values_hydrated h : NoDup (map fi_index fields) -> values_ok h -> hydrated_ok h fields.
Proof.
  intros Hd Hh f r nm v Hf Hv. destruct (Hh _ _ Hv) as (g & Hg & Hi & Ha). cbn in Hi.
  apply list_elem_of_lookup in Hf as [i Hi']. apply list_elem_of_lookup in Hg as [j Hj].
  assert (i = j) as <-; [|congruence].
  eapply (NoDup_lookup (map fi_index fields) i j (fi_index f)); [done| |]; rewrite list_lookup_fmap.
  - by rewrite Hi'.
  - rewrite Hj. cbn. by rewrite Hi.
Qed.
Lemma safe_hydrate_group h group : values_ok h -> group_ok fields group ->
  safe (hydrate_group hydrate h group) values_ok.
Proof.
  intros Hh Hg. unfold hydrate_group. apply safe_check, safe_reserve.
  eapply safe_bind; [apply Hhydrate|]. intros batch _. apply safe_lift.
  destruct (add_batch _ _ _ _) as [h'|e] eqn:Hb.
  - intros key v Hv. apply (add_batch_origin _ _ _ _ _ Hb) in Hv as [Hv|(r & f & nm & _ & Hf & _ & -> & Ha)];
      [by apply Hh|]. apply list_elem_of_fmap in Hf as (kv & -> & Hin).
    destruct (proj1 (Forall_forall _ _) Hg kv Hin) as (g & Hgf & Hi & Hp). exists g.
    split_and!; try done. unfold field_accepts in *. by rewrite Hp.
  - apply add_batch_Err in Hb as ->. tolerates.
Qed.

(** *** What a kernel reads *)

Lemma properties_known fs (ps : btree BoundPatternProperty) : property_fields ps ⊆ fs ->
  Forall (property_known fs) (map snd ps).
Proof.
  intros Hs. apply Forall_fmap, Forall_forall. intros p Hp.
  assert (forall f, f ∈ [bp_value_field p.2; bp_has_property_field p.2] -> f ∈ fs) as Hin.
  { intros f Hf. apply Hs. eapply elem_concat_map; [exact Hp|]. apply elem_of_app. by right. }
  split; apply elem_known, Hin; set_solver.
Qed.
Lemma property_fields_app ps qs : property_fields (ps ++ qs) = property_fields ps ++ property_fields qs.
Proof. unfold property_fields. by rewrite map_app, concat_app. Qed.
Lemma property_fields_concat {A} (g : A -> btree BoundPatternProperty) l :
  property_fields (concat (map g l)) = concat (map (fun a => property_fields (g a)) l).
Proof. induction l as [|a l IH]; [done|]. cbn [concat map]. by rewrite property_fields_app, IH. Qed.
Lemma sequence_properties_known fs start steps :
  pattern_node_fields start ++ concat (map step_fields steps) ⊆ fs ->
  Forall (property_known fs) (sequence_node_properties start steps) /\
  Forall (property_known fs) (sequence_edge_properties steps).
Proof.
  intros Hs. split; apply properties_known; rewrite ?property_fields_app, property_fields_concat; intros f.
  - rewrite elem_of_app. intros [Hf|Hf]; apply Hs, elem_of_app.
    + left. apply elem_of_app. by right.
    + right. apply list_elem_of_In, in_concat in Hf as (l & (s & <- & Hin)%in_map_iff & Hf).
      apply list_elem_of_In in Hin, Hf. eapply elem_concat_map; [exact Hin|].
      unfold step_fields, pattern_node_fields. rewrite !elem_of_app. tauto.
  - intros Hf. apply Hs, elem_of_app. right.
    apply list_elem_of_In, in_concat in Hf as (l & (s & <- & Hin)%in_map_iff & Hf).
    apply list_elem_of_In in Hin, Hf. eapply elem_concat_map; [exact Hin|].
    unfold step_fields. rewrite elem_of_app. tauto.
Qed.
Lemma safe_kernel_static kernel graph : fields = kernel_fields kernel ->
  safe (add_kernel_static_hydration kernel graph empty_group) (group_ok fields).
Proof.
  intros Hfs. assert (group_ok fields empty_group) as Hempty by constructor.
  assert (forall start steps reason, tolerable (failure reason) ->
    pattern_node_fields start ++ concat (map step_fields steps) ⊆ fields ->
    safe match sequence_node_properties start steps, sequence_edge_properties steps with
      | [], [] => mret empty_group
      | nodes, edges =>
          graph ← lift (ok_or graph (failure reason));
          group ← add_static_property_records nodes (map snd (gs_nodes graph)) empty_group;
          add_static_property_records edges (map ge_edge (gs_edges graph)) group
      end (group_ok fields)) as Hseq.
  { intros start steps reason Hr [Hn He]%sequence_properties_known.
    assert (forall nodes edges, Forall (property_known fields) nodes -> Forall (property_known fields) edges ->
      safe (graph ← lift (ok_or graph (failure reason));
        group ← add_static_property_records nodes (map snd (gs_nodes graph)) empty_group;
        add_static_property_records edges (map ge_edge (gs_edges graph)) group) (group_ok fields)) as Hg.
    { intros nodes edges Hns Hes. apply (safe_bind _ _ (fun _ => True)); [by apply safe_lift; destruct graph|].
      intros g _. eapply safe_bind; [by apply safe_add_static|]. intros group Hgroup. by apply safe_add_static. }
    destruct (sequence_node_properties start steps), (sequence_edge_properties steps);
      [by apply safe_ret|by apply Hg..]. }
  destruct kernel; cbn [add_kernel_static_hydration]; try (by apply safe_ret);
    try (apply Hseq; [tolerates|by rewrite Hfs]).
  apply (safe_bind _ _ (fun _ => True)); [apply safe_lift; destruct graph; [done|cbn; tolerates]|].
  intros g _. apply safe_reserve, safe_add_records. apply put_field_ok.
  - apply elem_known. rewrite Hfs. cbn. set_solver.
  - apply put_field_ok; [|done]. apply elem_known. rewrite Hfs. cbn. set_solver.
Qed.

(** *** Hydration *)

Notation groups_ok acc := (group_ok fields (acc : HydrationGroupV2 * list (string * HydrationGroupV2)).1 /\
  Forall (fun kv => group_ok fields kv.2) acc.2).
Lemma safe_collect_groups inputs kernel columns rows needs group : kernel_typed inputs kernel columns ->
  Forall2 rows_ok inputs rows -> Forall (need_ok (kernel_scope kernel inputs) fields) needs ->
  group_ok fields group ->
  safe (collect_groups kernel needs group (default [] (head rows)) (rows !! 1%nat)) (fun acc => groups_ok acc).
Proof.
  intros Hk Hr Hn Hg.
  assert (forall scope input, rows_ok scope input -> Forall (need_ok scope fields) needs ->
    safe (mfor (collect_row_hydration needs) (group, []) input) (fun acc => groups_ok acc)) as Hone.
  { intros scope input Hi Hns. apply safe_mfor; [by repeat constructor|]. intros acc row Hacc Hin.
    apply (safe_collect_row scope fields); [by eapply Forall_forall in Hi|done..]. }
  assert (match kernel with KnJoin _ _ _ => True | _ =>
    rows_ok (kernel_scope kernel inputs) (default [] (head rows)) end) as Hhead.
  { destruct kernel; try done; (destruct Hr as [|scope rs inputs rows Hs Hr]; [constructor|exact Hs]). }
  destruct kernel; try by eapply Hone.
  destruct inputs as [|left_ [|right_ [|]]]; cbn in Hk; try done.
  apply Forall2_cons_inv_l in Hr as (l & rows' & Hl & Hr & ->).
  apply Forall2_cons_inv_l in Hr as (r & rows'' & Hr & _ & ->). cbn [head hd_error default lookup list_lookup id].
  unfold collect_groups. eapply (safe_bind _ _ (fun x => x = r)); [by apply safe_lift|]. intros ? ->.
  apply safe_reserve, safe_mfor; [by repeat constructor|]. intros acc lr Hacc Hlr.
  apply safe_mfor; [done|]. intros acc' rr Hacc' Hrr. apply safe_check.
  apply (safe_collect_row (left_ ++ right_) fields); [|done..].
  apply row_ok_app; [by eapply Forall_forall in Hl|by eapply Forall_forall in Hr].
Qed.
Lemma safe_hydrate_for_kernel inputs kernel columns rows graph : fields = kernel_fields kernel ->
  kernel_typed inputs kernel columns -> NoDup (kernel_slots kernel) -> Forall2 rows_ok inputs rows ->
  safe (hydrate_for_kernel hydrate kernel (default [] (head rows)) (rows !! 1%nat) graph)
    (fun h => hydrated_ok h fields).
Proof.
  intros Hfs Hk Hd Hr. unfold hydrate_for_kernel.
  assert (NoDup (map fi_index fields)) as Hnd by (by rewrite Hfs, kernel_fields_slots).
  assert (values_ok ∅) as Hempty by (intros key v; unfold HydratedValuesV2; by rewrite lookup_empty).
  eapply (safe_bind _ _ (fun roots => roots = expression_roots kernel)); [by apply safe_reserve, safe_ret|].
  intros ? ->. eapply safe_bind.
  { apply (safe_property_needs (kernel_scope kernel inputs) fields). rewrite Hfs. by eapply roots_typed. }
  intros needs Hn. eapply safe_bind; [by apply safe_kernel_static|]. intros group Hg.
  assert (safe ('(static_group, groups) ← collect_groups kernel needs group (default [] (head rows)) (rows !! 1%nat);
      let batches := match hg_fields static_group with [] => [] | _ => [static_group] end ++ map snd groups in
      reserve (u64_saturating_mul (zlen batches) size_of_group) ;;
      mfor (hydrate_group hydrate) ∅ batches) (fun h => hydrated_ok h fields)) as Hrun.
  { eapply safe_bind; [by eapply safe_collect_groups|]. intros [static_group groups] [Hs Hgs]. cbn [fst snd] in *.
    apply safe_reserve. eapply safe_conseq; [|intros h; by apply values_hydrated].
    apply safe_mfor; [done|]. intros h g Hh Hin. apply safe_hydrate_group; [done|].
    apply elem_of_app in Hin as [Hin|(kv & -> & Hin)%list_elem_of_fmap].
    - destruct (hg_fields static_group); [by apply elem_of_nil in Hin|]. by apply list_elem_of_singleton in Hin as ->.
    - by eapply Forall_forall in Hgs. }
  destruct needs; [|exact Hrun]. destruct (hg_fields group); [|exact Hrun].
  apply safe_ret. by apply values_hydrated.
Qed.
End Batches.
