(* ===== verification/ExecTyping.v ===== *)
(** * A bound query executes to rows of its columns

    The binder's promise kept by the executor: every operator of a plan fills its columns with
    values of their types, and a plan of a bound query never stops with an error that says it
    does not fit together. *)
From S2P Require Export RetrievalTyping.
Local Open Scope Z_scope.

(** ** What the executor is given *)

(** Rows of a source: one value each, of the source's type *)
Definition sources_ok (sources : btree (list vrow)) (nodes : list BoundNode) : Prop :=
  forall i n s rows, nodes !! i = Some n -> bd_kernel n = KnSourceScan s ->
  bt_get cmp_str (bd_id n) sources = Some rows -> Forall (row_ok [source_ty s]) rows.

Section Exec.
Context `{Clock, Layout, Unicode, UuidCrate, StdSort, PathLayout, Libm, RetrievalLayout, HexSha256, RowsJson}.
Variable annotation_lookup : RecordRefV2 -> exec (list RecordRefV2).
Variable hydrate : list RecordRefV2 -> list FieldIdV2 -> exec ExecBatchV2.
Variable vector_lookup : list RecordRefV2 -> string -> bool -> exec VectorBatchV2.
Variable sources : btree (list vrow).
Variable graph : option GraphSnapshotV2.

(** Adapters may fail, with errors of their own. *)
Definition adapters_ok : Prop :=
  (forall r, safe (annotation_lookup r) (fun _ => True)) /\
  (forall records fields, safe (hydrate records fields) (fun _ => True)) /\
  (forall records name rerank, safe (vector_lookup records name rerank) (fun _ => True)).
Hypothesis Hadapters : adapters_ok.

Notation run_kernel := (run_kernel annotation_lookup vector_lookup sources graph).
Notation run_node := (run_node annotation_lookup hydrate vector_lookup sources graph).
Notation run_nodes := (run_nodes annotation_lookup hydrate vector_lookup sources graph).

Lemma safe_require_graph reason : safe (require_graph graph reason) (fun _ => True).
Proof. apply safe_lift. destruct graph; [done|]. unfold tolerable. by apply (bool_decide_unpack _). Qed.

(** ** One operator *)

Lemma safe_values name ty v : has_type (TList ty) v = true ->
  safe match v with
    | VList values => mfor (fun out v => reserve (size_of_row * 2) ;; v ← clone_value v; mret (out ++ [[v]])) [] values
    | _ => fail (failure "bound_values")
    end (rows_ok [{| co_name := name; co_ty := ty |}]).
Proof.
  intros Hv. destruct v as [| | | | | | | | | | | | | |vs]; try done. cbn in Hv.
  apply safe_mfor; [constructor|]. intros out w Ho Hw. apply safe_reserve.
  eapply (safe_bind _ _ (fun x => x = w)); [by apply safe_reserve, safe_ret|]. intros ? ->.
  apply safe_ret, rows_ok_snoc; [done|]. repeat constructor. cbn.
  eapply forallb_forall in Hv; [exact Hv|]. by apply list_elem_of_In.
Qed.
Lemma lengths_ok columns rows : rows_ok columns rows ->
  existsb (fun row : vrow => negb (length row =? length columns)%nat) rows = false.
Proof.
  intros Hr. apply not_true_iff_false. intros (row & Hin & Hl)%existsb_exists.
  apply list_elem_of_In in Hin. eapply Forall_forall in Hr; [|done]. apply row_ok_length in Hr.
  by rewrite Hr, Nat.eqb_refl in Hl.
Qed.

(** *** Operators without inputs, with one and with two *)

Section Run.
Variables (id : string) (op : QueryOpV2) (ins : list nat) (columns : list Column) (kernel : Kernel).
Notation node := {| bd_id := id; bd_op := op; bd_inputs := ins; bd_columns := columns; bd_kernel := kernel |}.
Variable hydrated : HydratedValuesV2.
Hypothesis Hh : hydrated_ok hydrated (kernel_fields kernel).
Hypothesis Hsource : forall s rows, kernel = KnSourceScan s -> bt_get cmp_str id sources = Some rows ->
  Forall (row_ok [source_ty s]) rows.

Lemma safe_run_leaf : kernel_typed [] kernel columns ->
  safe (run_kernel node hydrated [] None []) (rows_ok columns).
Proof.
  intros Hk. unfold Executor.run_kernel. cbn [bd_kernel bd_columns bd_id].
  destruct kernel as [v|s|pattern shortest anchors|start steps mode path_index shortest anchors
    | | | | | | | | | | | | | | |]; cbn [kernel_typed kernel_fields] in *; try done.
  - destruct Hk as (name & ty & -> & Hv). by apply safe_values.
  - destruct Hk as (name & ->). destruct (bt_get _ _ _) as [rows|] eqn:Hrows.
    + eapply (safe_bind _ _ (fun x => x = rows)); [by apply safe_lift|]. intros ? ->.
      apply safe_copy_rows; [constructor|]. by apply (Hsource s).
    + apply (safe_bind _ _ (fun _ => False)); [|done]. apply safe_lift. cbn. tolerates.
  - destruct Hk as [-> Ha]. eapply safe_bind; [apply safe_require_graph|]. intros g _. by apply safe_match_compact.
  - destruct Hk as [(name & Ht) Ha]. eapply safe_bind; [apply safe_require_graph|]. intros g _.
    by eapply safe_match_sequence.
Qed.
Lemma safe_run_graph scope input : kernel_typed [scope] kernel columns -> rows_ok scope input ->
  match kernel with
  | KnAnnotationLookup _ _ | KnVectorRank _ _ _ _ _ | KnLexicalMatch _ _ _ _ _ _ | KnContextPack _ _ _ _ _
  | KnExpand _ _ _ _ | KnExpandSequence _ _ _ _ _ _ => True | _ => False end ->
  safe (run_kernel node hydrated input None [input]) (rows_ok columns).
Proof.
  intros Hk Hi Hkind. destruct Hadapters as (Hannotation & _ & Hvector).
  unfold Executor.run_kernel. cbn [bd_kernel bd_columns bd_id].
  destruct kernel as [| | | |target optional|entity query collection k kind
    |entity field has_property text k alias_index|text evidence text_entity tokens fp
    |start end_index pattern optional|start_index start steps mode path_index optional| | | | | | | | |];
    cbn [kernel_typed kernel_fields] in *; try done.
  - destruct Hk as (He & name & ->). by apply safe_annotation_rows.
  - destruct Hk as (He & Hq & _ & name & ->). by apply safe_vector_rank.
  - destruct Hk as (He & _ & _ & -> & name & ->). rewrite lengths_ok by done.
    eapply safe_bind; [apply safe_require_graph|]. intros g _.
    eapply safe_bind; [by apply (safe_lexical_match _ _ scope name)|]. intros out Ho.
    rewrite lengths_ok by done. by apply safe_ret.
  - destruct Hk as (Ht & He & Hs & _ & Hj & Hen & name & ->). apply hydrated_ok_app in Hh as [Hh1 Hh2].
    by apply (safe_context_pack hydrated scope).
  - destruct Hk as (_ & _ & ->). eapply safe_bind; [apply safe_require_graph|]. intros g _. by apply safe_expand.
  - eapply safe_bind; [apply safe_require_graph|]. intros g _. by eapply safe_expand_sequence.
Qed.
Lemma safe_run_unary scope input : kernel_typed [scope] kernel columns -> rows_ok scope input ->
  safe (run_kernel node hydrated input None [input]) (rows_ok columns).
Proof.
  intros Hk Hi. pose proof (safe_run_graph scope input Hk Hi) as Hgraph.
  unfold Executor.run_kernel in *. cbn [bd_kernel bd_columns bd_id] in *.
  destruct kernel as [| | | | | | | | | |predicate|exprs| |keys|n|n| |groups aggregates|];
    cbn [kernel_typed kernel_fields] in *; try done; try (by apply Hgraph).
  - destruct Hk as (Hp & _ & ->). by apply safe_filter.
  - destruct Hk as [Hx Hc]. apply (safe_project hydrated scope); [|done..].
    apply Forall_forall. intros e He. split; [by eapply Forall_forall in Hx|]. by eapply hydrated_ok_concat in Hh.
  - subst columns. by apply safe_distinct.
  - destruct Hk as [Hx ->]. apply safe_sort; [|done]. apply Forall_forall. intros k Hin.
    eapply Forall_forall in Hx as [Hw Ho]; [|done]. split; [split; [done|]|done].
    by apply (hydrated_ok_concat _ (fun k : BoundExpr * SortDirection * NullOrder => be_fields k.1.1) keys).
  - subst columns. apply safe_copy_rows; [constructor|]. by apply rows_ok_ztake.
  - subst columns. apply safe_copy_rows; [constructor|]. by apply rows_ok_zskip.
  - destruct Hk as [Hg (types & Hc & Ha)]. apply hydrated_ok_app in Hh as [Hhg Hha].
    apply (safe_aggregate_rows hydrated scope groups aggregates types); try done.
    + apply Forall_forall. intros e He. split; [by eapply Forall_forall in Hg|]. by eapply hydrated_ok_concat in Hhg.
    + intros call e Hcall Harg. pose proof (hydrated_ok_concat _
        (fun a => match ag_arg a with Some e => be_fields e | None => [] end) _ call Hha Hcall) as Hc'.
      cbn beta in Hc'. by rewrite Harg in Hc'.
Qed.
Lemma safe_run_binary left_ right_ input other : kernel_typed [left_; right_] kernel columns ->
  rows_ok left_ input -> rows_ok right_ other ->
  safe (run_kernel node hydrated input (Some other) [input; other]) (rows_ok columns).
Proof.
  intros Hk Hi Ho. unfold Executor.run_kernel. cbn [bd_kernel bd_columns bd_id].
  destruct kernel as [| | | | | | | | | | | | | | | | | |kind condition right_width];
    cbn [kernel_typed kernel_fields] in *; try done.
  - destruct Hk as [-> ->]. apply safe_union. by repeat constructor.
  - destruct Hk as (Hc & _ & -> & Hj). eapply (safe_bind _ _ (fun x => x = other)); [by apply safe_lift|].
    intros ? ->. by apply (safe_join hydrated left_ right_).
Qed.
End Run.

(** The rows of an operator, over rows of its inputs *)
Lemma safe_run_kernel inputs node hydrated rows : kernel_typed inputs (bd_kernel node) (bd_columns node) ->
  hydrated_ok hydrated (kernel_fields (bd_kernel node)) -> Forall2 rows_ok inputs rows ->
  (forall s source, bd_kernel node = KnSourceScan s -> bt_get cmp_str (bd_id node) sources = Some source ->
     Forall (row_ok [source_ty s]) source) ->
  safe (run_kernel node hydrated (default [] (head rows)) (rows !! 1%nat) rows) (rows_ok (bd_columns node)).
Proof.
  intros Hk Hh Hr Hs. destruct node as [id op ins columns kernel]. cbn [bd_kernel bd_columns bd_id] in *.
  destruct Hr as [|scope input inputs rows Hi [|other more inputs' rows' Ho [|third more' inputs'' rows'' _ _]]].
  - by apply safe_run_leaf.
  - by eapply safe_run_unary.
  - by eapply safe_run_binary.
  - by destruct kernel.
Qed.

(** ** The loop *)

Lemma safe_mfor_index {A B} (f : B -> A -> exec B) (J : nat -> B -> Prop) b l :
  J 0%nat b -> (forall i b a, J i b -> l !! i = Some a -> safe (f b a) (J (S i))) ->
  safe (mfor f b l) (J (length l)).
Proof.
  revert J b; induction l as [|a l IH]; intros J b Hb Hf; [by apply safe_ret|]. cbn [mfor length].
  eapply safe_bind; [by apply (Hf 0%nat)|]. intros b' Hb'.
  apply (IH (fun i => J (S i))); [done|]. intros i b0 a0 Hb0 Ha. by apply (Hf (S i)).
Qed.

Section Plan.
Variable plan : PhysicalPlanV2.
Notation nodes := (pp_nodes plan).
Hypothesis Hnodes : nodes_typed nodes.
Hypothesis Hslots : NoDup (node_slots nodes).
Hypothesis Hsources : sources_ok sources nodes.

Lemma node_slots_distinct i n : nodes !! i = Some n -> NoDup (kernel_slots (bd_kernel n)).
Proof.
  intros Hn. unfold node_slots in Hslots. rewrite <- (take_drop_middle _ _ _ Hn) in Hslots.
  rewrite map_app, concat_app in Hslots. cbn in Hslots. apply NoDup_app in Hslots as (_ & _ & Hd).
  by apply NoDup_app in Hd as (Hd & _ & _).
Qed.
(** The rows of the first operators *)
Definition outputs_ok (outputs : list (list vrow)) : Prop :=
  forall i rows, outputs !! i = Some rows -> rows_ok (columns_of nodes i) rows.
Lemma output_rows outputs ins : outputs_ok outputs -> Forall (fun j => j < length outputs)%nat ins ->
  exists rows, traverse (output_at outputs) ins = Ok rows /\ Forall2 rows_ok (map (columns_of nodes) ins) rows.
Proof.
  intros Ho. induction 1 as [|j ins Hj _ (rows & Hr & Hok)]; [by exists []|].
  destruct (lookup_lt_is_Some_2 _ _ Hj) as [r Hrj]. exists (r :: rows). cbn [traverse map].
  assert (output_at outputs j = Ok r) as -> by (unfold output_at; by rewrite Hrj).
  cbn [mbind result_bind]. rewrite Hr. split; [done|].
  constructor; [by apply Ho|done].
Qed.
Lemma safe_now : safe now (fun _ => True).
Proof. intros s _. done. Qed.
Lemma safe_run_node outputs n : outputs_ok outputs -> nodes !! length outputs = Some n ->
  safe (run_node outputs n) (fun r => rows_ok (bd_columns n) r.1).
Proof.
  intros Ho Hn. pose proof (Hnodes _ _ Hn) as [Hins Hk _].
  destruct (output_rows outputs (bd_inputs n) Ho Hins) as (rows & Hr & Hrows).
  unfold Executor.run_node. apply safe_check.
  eapply safe_bind; [apply safe_now|]. intros started _.
  apply (safe_bind _ _ (fun _ => True)); [by intros s _|]. intros before _. rewrite Hr.
  eapply (safe_bind _ _ (fun x => x = rows)); [by apply safe_lift|]. intros ? ->.
  eapply safe_bind.
  { eapply (safe_hydrate_for_kernel hydrate (proj1 (proj2 Hadapters))); [done|exact Hk| |exact Hrows].
    by eapply node_slots_distinct. }
  intros h Hh. eapply safe_bind.
  { eapply safe_run_kernel; [exact Hk|done|done|]. intros s source Hs Hsource. by eapply Hsources. }
  intros out Hout. apply safe_check. apply (safe_bind _ _ (fun _ => True)).
  { destruct (bd_kernel n); try apply safe_now; by apply safe_ret. }
  intros ended _. apply (safe_bind _ _ (fun _ => True)); [by intros s _|]. intros after _. by apply safe_ret.
Qed.
(** The operators explained, with their counters *)
Definition explained (n : nat) (l : list ExplainNodeV2) : Prop :=
  map ex_id l = map bd_id (take n nodes) /\ Forall (fun e => is_Some (ex_actual e)) l.
Lemma safe_run_nodes : safe (run_nodes plan) (fun acc =>
  outputs_ok acc.1 /\ length acc.1 = length nodes /\ explained (length nodes) acc.2).
Proof.
  unfold Executor.run_nodes.
  assert (length (zip nodes (explain_nodes plan)) = length nodes) as Hl
    by (unfold explain_nodes; rewrite length_zip, length_map; lia).
  rewrite <- Hl. apply (safe_mfor_index _ (fun i acc => outputs_ok acc.1 /\ length acc.1 = i /\ explained i acc.2)).
  - by split_and!; [intros i rows Hi| |split; [|constructor]].
  - intros i [outputs explain] [n e] (Ho & Hlen & He & Hact) (Hn & Hne)%lookup_zip_Some. cbn [fst snd] in *. subst i.
    eapply safe_bind; [by apply safe_run_node|]. intros [out counters] Hout. cbn [fst] in Hout.
    apply safe_ret. cbn [fst snd]. split_and!; [|rewrite length_app; cbn; lia|split].
    + intros i rows [Hi|[Hle Hi]]%lookup_app_Some; [by apply Ho|].
      destruct (i - length outputs)%nat eqn:Hd; [|done]. injection Hi as <-.
      replace i with (length outputs) by lia. unfold columns_of. by rewrite Hn.
    + rewrite (take_S_r _ _ _ Hn), !map_app, He. unfold explain_nodes in Hne.
      rewrite list_lookup_fmap, Hn in Hne. cbn in Hne. by injection Hne as <-.
    + apply Forall_app. split; [done|]. by repeat constructor.
Qed.
End Plan.

(** ** Execution *)

Lemma safe_check_output rows bytes : safe (check_output rows bytes) (fun _ => True).
Proof.
  unfold check_output. apply safe_check. apply (safe_bind _ _ (fun _ => True)); [by intros s _|]. intros b _.
  destruct (_ || _); [by apply safe_fail, tolerable_quota|by apply safe_ret].
Qed.
Lemma safe_execute plan : nodes_typed (pp_nodes plan) -> NoDup (node_slots (pp_nodes plan)) ->
  sources_ok sources (pp_nodes plan) -> (pp_root plan < length (pp_nodes plan))%nat ->
  safe (execute_v2_with_vector_adapters annotation_lookup hydrate vector_lookup sources graph plan)
    (fun out => rows_ok (columns_of (pp_nodes plan) (pp_root plan)) (eo_rows out) /\
                explained plan (length (pp_nodes plan)) (eo_nodes out)).
Proof.
  intros Hn Hd Hs Hroot. unfold execute_v2_with_vector_adapters. apply safe_check, safe_reserve.
  eapply safe_bind; [by apply safe_run_nodes|]. intros [outputs explain] (Ho & Hl & He). cbn [fst snd] in *.
  destruct (lookup_lt_is_Some_2 outputs (pp_root plan)) as [rows Hrows]; [lia|].
  unfold output_at. rewrite Hrows. eapply (safe_bind _ _ (fun x => x = rows)); [by apply safe_lift|]. intros ? ->.
  apply (safe_bind _ _ (fun _ => True)); [apply safe_lift; destruct (rows_json_len rows); [done|cbn; tolerates]|].
  intros bytes _. eapply safe_bind; [apply safe_check_output|]. intros _ _. apply safe_ret. split; [by apply Ho|done].
Qed.
End Exec.


(** ** A sample run *)

#[local] Existing Instances sample_clock sample_layout sample_unicode sample_sort sample_uuid sample_serde sample_hex.
Definition sample_path_layout : PathLayout :=
  {| size_of_sequence_path := 96; size_of_sequence_path_pos := ltac:(lia) |}.
Definition sample_libm : Libm := {| f64_ln x := x |}.
Definition sample_retrieval_layout : RetrievalLayout :=
  {| size_of_document := 128; size_of_document_pos := ltac:(lia) |}.
Definition sample_rows_json : RowsJson := {| rows_json_len rows := Some (100 * zlen rows) |}.
#[local] Existing Instances sample_path_layout sample_libm sample_retrieval_layout sample_rows_json.

Definition sample_edge (id source target : string) : GraphEdgeV2 := {|
  ge_edge := {| rr_database_id := "d"; rr_namespace := "default"; rr_kind := Edge; rr_id := id; rr_revision := "r1" |};
  ge_source := sample_node source; ge_target := sample_node target; ge_relation := "knows" |}.
Definition sample_graph : GraphSnapshotV2 := {|
  gs_nodes := [("a", sample_node "a"); ("b", sample_node "b"); ("c", sample_node "c")]%string;
  gs_node_labels := [];
  gs_edges := [sample_edge "e1" "a" "b"; sample_edge "e2" "b" "c"; sample_edge "e3" "c" "a"] |}.
(** Every record has the title it is named by. *)
Definition sample_hydrate (records : list RecordRefV2) (fields : list FieldIdV2) : exec ExecBatchV2 :=
  mret {| ba_columns := map field_column fields;
          ba_rows := map (fun r => map (fun f => if fi_has_property f then VBool true
                                                 else VJson (JString (rr_id r))) fields) records;
          ba_row_keys := map RowKeyRecord records |}.
(** [match (a)-[e:knows*1..2]->(b) where prop(b, "title") is not null take 5] *)
Definition sample_expand : LogicalRequestV2 := {|
  lr_nodes := [
    node_of_config "n0" OpNodeScan [] (CNodeScan "a" None);
    node_of_config "n1" OpExpand ["n0"]
      (CExpand (PCompact {| cpa_start_alias := "a"; cpa_end_alias := "b"; cpa_edge_alias := Some "e";
         cpa_relations := ["knows"]; cpa_direction := DirOut; cpa_min_hops := 1; cpa_max_hops := 2;
         cpa_mode := ModeTrail; cpa_path_alias := Some "p" |}) true);
    node_of_config "n2" OpFilter ["n1"]
      (CFilter (EUnary OIsNotNull (ECall "prop" [field_of "b" []; ELiteral (JString "title") "Utf8"])));
    node_of_config "n3" OpTake ["n2"] (CTake 5) ]%string;
  lr_root := "n3"; lr_parameter_types := []; lr_from_hql := true |}.
Definition expand_query : BoundQueryV2 :=
  match bind_v2 [] sample_catalog sample_expand with Ok q => q | Err _ => {| bq_nodes := []; bq_root := 0 |} end.
Definition expand_plan : PhysicalPlanV2 := {| pp_nodes := bq_nodes expand_query; pp_root := bq_root expand_query |}.
Definition sample_run : query (ExecutionOutputV2 * ExecutionBudgetV2) :=
  execute_v2_with_vector_adapters (fun _ => mret []) sample_hydrate (fun records _ _ => mret {| vb_entries := map (fun _ => None) records |})
    [("n0", [[VEntity (sample_node "a")]])]%string (Some sample_graph) expand_plan sample_budget.
Example sample_run_rows : match sample_run with
  | Ok (out, _) => map (fun row : vrow => (length row, nth_error row 1)) (eo_rows out)
  | Err _ => [] end = [(4%nat, Some (VEntity (sample_node "b"))); (4%nat, Some (VEntity (sample_node "c")))].
Proof. vm_compute. reflexivity. Qed.
Lemma sample_sources_ok : sources_ok [("n0", [[VEntity (sample_node "a")]])]%string (bq_nodes expand_query).
Proof.
  intros i n s rows Hn Hs Hrows. assert (source_ty s = TEntity) as ->.
  { do 4 (destruct i as [|i]; [injection Hn as <-; vm_compute in Hs; try done; by injection Hs as <-|]).
    by destruct i. }
  apply bt_get_Some_elem in Hrows; [|exact _]. apply list_elem_of_singleton in Hrows. injection Hrows as _ ->.
  by repeat constructor.
Qed.
