(* ===== verification/Base64.v ===== *)
(** * Base64 text of compacted signatures

    [encode_base64] and [decode_base64] of [src/src/lib.rs]: the text form in which
    a compacted signature proof travels inside a JSON event. *)
From Stdlib Require Import Ascii.
From S2P Require Export Order.
Local Open Scope Z_scope.

(** ** Definitions *)

Definition TABLE : list byte :=
  str_bytes "ABCDEFGHIJKLMNOPQRSTUVWXYZabcdefghijklmnopqrstuvwxyz0123456789+/".

(** [TABLE[i as usize] as char]; every index the encoder forms is below 64. *)
Definition table_at (i : Z) : byte := nth (Z.to_nat i) TABLE Ascii.zero.

Definition pad : byte := "="%char.

(** The four characters of one chunk of at most three bytes. *)
Definition encode_chunk (first : byte) (second third : option byte) : list byte :=
  let u (o : option byte) : Z := match o with Some b => byte_val b | None => 0 end in
  let x := byte_val first in
  [ table_at (Z.shiftr x 2);
    table_at (Z.lor (Z.shiftl (Z.land x 3) 4) (Z.shiftr (u second) 4));
    match second with
    | Some s => table_at (Z.lor (Z.shiftl (Z.land (byte_val s) 15) 2) (Z.shiftr (u third) 6))
    | None => pad
    end;
    match third with
    | Some t => table_at (Z.land (byte_val t) 63)
    | None => pad
    end ].

Fixpoint encode_chunks (bytes : list byte) : list byte :=
  match bytes with
  | [] => []
  | [x] => encode_chunk x None None
  | [x; y] => encode_chunk x (Some y) None
  | x :: y :: z :: rest => encode_chunk x (Some y) (Some z) ++ encode_chunks rest
  end.

Definition encode_base64 (bytes : list byte) : string := str_of_bytes (encode_chunks bytes).

(** The inner [fn value] of the decoder. *)
Definition base64_value (b : byte) : option Z :=
  let v := byte_val b in
  if (65 <=? v) && (v <=? 90) then Some (v - 65)
  else if (97 <=? v) && (v <=? 122) then Some (v - 97 + 26)
  else if (48 <=? v) && (v <=? 57) then Some (v - 48 + 52)
  else if v =? 43 then Some 62
  else if v =? 47 then Some 63
  else None.

(** One iteration of the decoder's loop: the bytes a chunk pushes. [u8] shifts
    drop the bits above the eighth, which [byte_of] does. *)
Definition decode_chunk (final_chunk : bool) (c0 c1 c2 c3 : byte) : option (list byte) :=
  a ← base64_value c0;
  b ← base64_value c1;
  let b0 := byte_of (Z.lor (Z.shiftl a 2) (Z.shiftr b 4)) in
  out ←
    (if bool_decide (c2 = pad) && bool_decide (c3 = pad)
        && final_chunk && (Z.land b 15 =? 0) then Some [b0]
     else if bool_decide (c2 = pad) then None
     else if bool_decide (c3 = pad) && final_chunk then
       c ← base64_value c2;
       if negb (Z.land c 3 =? 0) then None
       else Some [b0; byte_of (Z.lor (Z.shiftl b 4) (Z.shiftr c 2))]
     else
       c ← base64_value c2;
       d ← base64_value c3;
       Some [b0; byte_of (Z.lor (Z.shiftl b 4) (Z.shiftr c 2));
             byte_of (Z.lor (Z.shiftl c 6) d)]);
  if negb final_chunk && (bool_decide (c2 = pad) || bool_decide (c3 = pad)) then None
  else Some out.

(** The loop over [as_chunks::<4>()]; a remainder refuses the whole input. *)
Fixpoint decode_chunks (input : list byte) : option (list byte) :=
  match input with
  | [] => Some []
  | c0 :: c1 :: c2 :: c3 :: rest =>
      out ← decode_chunk (match rest with [] => true | _ => false end) c0 c1 c2 c3;
      more ← decode_chunks rest;
      Some (out ++ more)
  | _ => None
  end.

Definition decode_base64 (encoded : string) : option (list byte) :=
  let input := str_bytes encoded in
  if (length input mod 4 =? 0)%nat then decode_chunks input else None.

(** ** Bit arithmetic *)

Lemma lor_shiftl_add a b n : 0 <= n -> 0 <= b < 2 ^ n ->
  Z.lor (Z.shiftl a n) b = a * 2 ^ n + b.
Proof.
  intros Hn Hb. rewrite Z.shiftl_mul_pow2 by done.
  rewrite <- Z.lxor_lor, Z.add_nocarry_lxor; [done| |];
    (apply Z.bits_inj'; intros i Hi; rewrite Z.land_spec, Z.bits_0;
     destruct (Z.ltb_spec i n) as [Hlt|Hge];
     [ rewrite Z.mul_pow2_bits_low by done; done
     | rewrite andb_comm, <- (Z.mod_small b (2 ^ n)), Z.mod_pow2_bits_high by lia; done ]).
Qed.

Lemma land_ones_mod a n : 0 <= n -> Z.land a (2 ^ n - 1) = a mod 2 ^ n.
Proof. intros. rewrite <- Z.land_ones by done. f_equal. rewrite Z.ones_equiv. lia. Qed.

Lemma shiftr_2 a : Z.shiftr a 2 = a / 4.
Proof. by rewrite Z.shiftr_div_pow2. Qed.
Lemma shiftr_4 a : Z.shiftr a 4 = a / 16.
Proof. by rewrite Z.shiftr_div_pow2. Qed.
Lemma shiftr_6 a : Z.shiftr a 6 = a / 64.
Proof. by rewrite Z.shiftr_div_pow2. Qed.
Lemma land_3 a : Z.land a 3 = a mod 4.
Proof. by apply (land_ones_mod a 2). Qed.
Lemma land_15 a : Z.land a 15 = a mod 16.
Proof. by apply (land_ones_mod a 4). Qed.
Lemma land_63 a : Z.land a 63 = a mod 64.
Proof. by apply (land_ones_mod a 6). Qed.
Lemma lor_shl_2 a b : 0 <= b < 4 -> Z.lor (Z.shiftl a 2) b = a * 4 + b.
Proof. by apply (lor_shiftl_add a b 2). Qed.
Lemma lor_shl_4 a b : 0 <= b < 16 -> Z.lor (Z.shiftl a 4) b = a * 16 + b.
Proof. by apply (lor_shiftl_add a b 4). Qed.
Lemma lor_shl_6 a b : 0 <= b < 64 -> Z.lor (Z.shiftl a 6) b = a * 64 + b.
Proof. by apply (lor_shiftl_add a b 6). Qed.

(** Shifts, masks and disjoint unions of bit fields as arithmetic. *)
Ltac bits_arith :=
  rewrite ?shiftr_2, ?shiftr_4, ?shiftr_6, ?land_3, ?land_15, ?land_63;
  rewrite ?lor_shl_2, ?lor_shl_4, ?lor_shl_6 by div_lia.

Lemma table_value_check :
  forallb (fun n => match base64_value (table_at (Z.of_nat n)) with
                    | Some v => v =? Z.of_nat n | None => false end
                    && negb (bool_decide (table_at (Z.of_nat n) = pad))) (seq 0 64) = true.
Proof. vm_compute. reflexivity. Qed.

Lemma table_entry i : 0 <= i < 64 ->
  base64_value (table_at i) = Some i /\ table_at i <> pad.
Proof.
  intros Hi. pose proof table_value_check as H. rewrite forallb_forall in H.
  specialize (H (Z.to_nat i)). rewrite in_seq in H.
  rewrite Z2Nat.id in H by lia. specialize (H ltac:(lia)).
  apply andb_prop in H as [H1 H2]. split.
  - destruct (base64_value _); [|done]. by apply Z.eqb_eq in H1 as ->.
  - apply negb_true_iff, bool_decide_eq_false in H2. done.
Qed.

Lemma value_check :
  forallb (fun n => let b := byte_of (Z.of_nat n) in
    match base64_value b with
    | Some v => (0 <=? v) && (v <? 64) && bool_decide (table_at v = b)
    | None => true end) (seq 0 256) = true.
Proof. vm_compute. reflexivity. Qed.

Lemma base64_value_Some b v : base64_value b = Some v -> 0 <= v < 64 /\ table_at v = b.
Proof.
  intros Hv. pose proof value_check as H. rewrite forallb_forall in H.
  specialize (H (Z.to_nat (byte_val b))). rewrite in_seq in H.
  pose proof (byte_val_bounds b). rewrite Z2Nat.id, byte_of_val in H by lia.
  specialize (H ltac:(lia)). cbv zeta in H. rewrite Hv in H.
  apply andb_prop in H as [H1 H2]. apply andb_prop in H1 as [H1 H3].
  apply bool_decide_eq_true in H2. apply Z.leb_le in H1. apply Z.ltb_lt in H3.
  split; [lia|done].
Qed.

Lemma base64_value_pad : base64_value pad = None.
Proof. reflexivity. Qed.

(** ** Chunks as arithmetic *)

Lemma encode_chunk_arith x y z : encode_chunk x y z =
  let u (o : option byte) : Z := match o with Some b => byte_val b | None => 0 end in
  [ table_at (byte_val x / 4); table_at (byte_val x mod 4 * 16 + u y / 16);
    match y with Some _ => table_at (u y mod 16 * 4 + u z / 64) | None => pad end;
    match z with Some _ => table_at (u z mod 64) | None => pad end ].
Proof.
  unfold encode_chunk. cbv zeta. pose proof (byte_val_bounds x).
  destruct y as [y|]; [pose proof (byte_val_bounds y)|];
    (destruct z as [z|]; [pose proof (byte_val_bounds z)|]); bits_arith; done.
Qed.

Lemma decode_chunk_full fin a b c d :
  0 <= a < 64 -> 0 <= b < 64 -> 0 <= c < 64 -> 0 <= d < 64 ->
  decode_chunk fin (table_at a) (table_at b) (table_at c) (table_at d) =
  Some [byte_of (a * 4 + b / 16); byte_of (b * 16 + c / 4); byte_of (c * 64 + d)].
Proof.
  intros Ha Hb Hc Hd. unfold decode_chunk.
  destruct (table_entry a Ha) as [-> _], (table_entry b Hb) as [-> _],
    (table_entry c Hc) as [-> Hc'], (table_entry d Hd) as [-> Hd'].
  rewrite !bool_decide_eq_false_2 by done. cbn. rewrite andb_false_r. bits_arith. done.
Qed.

Lemma decode_chunk_two a b c : 0 <= a < 64 -> 0 <= b < 64 -> 0 <= c < 64 ->
  decode_chunk true (table_at a) (table_at b) (table_at c) pad =
  if c mod 4 =? 0 then Some [byte_of (a * 4 + b / 16); byte_of (b * 16 + c / 4)] else None.
Proof.
  intros Ha Hb Hc. unfold decode_chunk.
  destruct (table_entry a Ha) as [-> _], (table_entry b Hb) as [-> _],
    (table_entry c Hc) as [-> Hc'].
  rewrite bool_decide_eq_false_2, (bool_decide_eq_true_2 (pad = pad)) by done. cbn.
  bits_arith. by destruct (c mod 4 =? 0).
Qed.

Lemma decode_chunk_one a b : 0 <= a < 64 -> 0 <= b < 64 ->
  decode_chunk true (table_at a) (table_at b) pad pad =
  if b mod 16 =? 0 then Some [byte_of (a * 4 + b / 16)] else None.
Proof.
  intros Ha Hb. unfold decode_chunk.
  destruct (table_entry a Ha) as [-> _], (table_entry b Hb) as [-> _].
  rewrite !(bool_decide_eq_true_2 (pad = pad)) by done. cbn. bits_arith.
  by destruct (b mod 16 =? 0).
Qed.

(** A chunk that is accepted is four table characters, or the last chunk with
    one or two padding characters. *)
Lemma decode_chunk_shape fin c0 c1 c2 c3 out : decode_chunk fin c0 c1 c2 c3 = Some out ->
  exists a b, base64_value c0 = Some a /\ base64_value c1 = Some b /\
    ((exists c d, base64_value c2 = Some c /\ base64_value c3 = Some d)
     \/ (exists c, base64_value c2 = Some c /\ c3 = pad /\ fin = true)
     \/ (c2 = pad /\ c3 = pad /\ fin = true)).
Proof.
  unfold decode_chunk. intros H.
  destruct (base64_value c0) as [a|]; [|done]. destruct (base64_value c1) as [b|]; [|done].
  exists a, b. split; [done|]. split; [done|]. cbn in H.
  destruct fin; repeat case_bool_decide; subst; cbn in H; rewrite ?base64_value_pad in H;
    try done; try (destruct (base64_value c2) as [c|]; [|done]);
    try (destruct (base64_value c3) as [d|]; [|done]); try done; eauto 10.
Qed.

(** What a chunk decodes to is what the encoder makes that chunk from. *)
Lemma decode_chunk_inv fin c0 c1 c2 c3 out :
  decode_chunk fin c0 c1 c2 c3 = Some out ->
  (exists x y z, out = [x; y; z] /\ [c0; c1; c2; c3] = encode_chunk x (Some y) (Some z))
  \/ fin = true /\ encode_chunks out = [c0; c1; c2; c3].
Proof.
  intros H. destruct (decode_chunk_shape _ _ _ _ _ _ H) as (a & b & Ea & Eb & Hs).
  apply base64_value_Some in Ea as [Ha <-], Eb as [Hb <-].
  destruct Hs as [(c & d & Ec & Ed)|[(c & Ec & -> & ->)|(-> & -> & ->)]].
  - apply base64_value_Some in Ec as [Hc <-], Ed as [Hd <-].
    rewrite decode_chunk_full in H by done. injection H as <-. left.
    do 3 eexists. split; [done|]. rewrite encode_chunk_arith. cbv zeta.
    rewrite !byte_val_of. repeat f_equal; div_lia.
  - apply base64_value_Some in Ec as [Hc <-]. rewrite decode_chunk_two in H by done.
    destruct (Z.eqb_spec (c mod 4) 0); [|done]. injection H as <-. right. split; [done|].
    cbn [encode_chunks]. rewrite encode_chunk_arith. cbv zeta.
    rewrite !byte_val_of. repeat f_equal; div_lia.
  - rewrite decode_chunk_one in H by done.
    destruct (Z.eqb_spec (b mod 16) 0); [|done]. injection H as <-. right. split; [done|].
    cbn [encode_chunks]. rewrite encode_chunk_arith. cbv zeta.
    rewrite !byte_val_of. repeat f_equal; div_lia.
Qed.

Lemma encode_chunks_cons x y z rest :
  encode_chunks (x :: y :: z :: rest) = encode_chunk x (Some y) (Some z) ++ encode_chunks rest.
Proof. reflexivity. Qed.

(** Induction three bytes at a time, as [chunks(3)] walks. *)
Lemma chunks3_ind (P : list byte -> Prop) :
  P [] -> (forall x, P [x]) -> (forall x y, P [x; y]) ->
  (forall x y z l, P l -> P (x :: y :: z :: l)) -> forall l, P l.
Proof.
  intros H0 H1 H2 H3. fix go 1. intros [|x [|y [|z l]]]; [done..|]. apply H3, go.
Qed.

Lemma decode_encode_chunks l : decode_chunks (encode_chunks l) = Some l.
Proof.
  induction l as [|x|x y|x y z l IH] using chunks3_ind; [done| | |].
  - pose proof (byte_val_bounds x). cbn [encode_chunks]. rewrite encode_chunk_arith.
    cbv zeta. cbn [decode_chunks]. rewrite decode_chunk_one by div_lia.
    rewrite (proj2 (Z.eqb_eq _ _)) by div_lia. cbn. repeat f_equal.
    apply byte_of_eq. div_lia.
  - pose proof (byte_val_bounds x). pose proof (byte_val_bounds y). cbn [encode_chunks].
    rewrite encode_chunk_arith. cbv zeta. cbn [decode_chunks].
    rewrite decode_chunk_two by div_lia.
    rewrite (proj2 (Z.eqb_eq _ _)) by div_lia. cbn.
    repeat f_equal; apply byte_of_eq; div_lia.
  - pose proof (byte_val_bounds x). pose proof (byte_val_bounds y).
    pose proof (byte_val_bounds z). rewrite encode_chunks_cons, encode_chunk_arith.
    cbv zeta. cbn [app decode_chunks]. rewrite decode_chunk_full by div_lia.
    cbn [mbind option_bind]. rewrite IH. cbn.
    repeat f_equal; apply byte_of_eq; div_lia.
Qed.

Lemma length_encode_chunks_mod l : (length (encode_chunks l) mod 4 = 0)%nat.
Proof.
  induction l as [|x|x y|x y z l IH] using chunks3_ind; [done..|].
  rewrite encode_chunks_cons, length_app. change (length (encode_chunk _ _ _)) with 4%nat.
  rewrite Nat.Div0.add_mod, IH. done.
Qed.

Lemma chunks4_ind (P : list byte -> Prop) :
  P [] -> (forall x, P [x]) -> (forall x y, P [x; y]) -> (forall x y z, P [x; y; z]) ->
  (forall x y z w l, P l -> P (x :: y :: z :: w :: l)) -> forall l, P l.
Proof.
  intros H0 H1 H2 H3 H4. fix go 1. intros [|x [|y [|z [|w l]]]]; [done..|]. apply H4, go.
Qed.

Lemma encode_decode_chunks s l : decode_chunks s = Some l -> encode_chunks l = s.
Proof.
  revert l. induction s as [|x|x y|x y z|c0 c1 c2 c3 s IH] using chunks4_ind; intros l;
    try done; [by intros [= <-]|].
  cbn [decode_chunks]. destruct (decode_chunk _ c0 c1 c2 c3) as [out|] eqn:E; [|done].
  cbn. destruct (decode_chunks s) as [more|] eqn:E'; [|done]. cbn. intros [= <-].
  apply decode_chunk_inv in E as [(x & y & z & -> & E)|[Hf E]].
  - cbn [app]. rewrite encode_chunks_cons, <- E. cbn. by rewrite (IH more).
  - destruct s; [|done]. injection E' as <-. by rewrite app_nil_r.
Qed.

(** ** Properties *)

(** C27: The decoder accepts exactly the encoder's outputs: an accepted text is the
    canonical base64 of the bytes it decodes to (padding only at the end, no
    stray low bits), and every byte sequence is decoded back from its text. *)
Theorem decode_base64_iff encoded bytes :
  decode_base64 encoded = Some bytes <-> encoded = encode_base64 bytes.
Proof.
  unfold decode_base64, encode_base64. split.
  - destruct (_ =? 0)%nat; [|done]. intros ->%encode_decode_chunks. by rewrite str_of_bytes_of.
  - intros ->. rewrite str_bytes_of, length_encode_chunks_mod. apply decode_encode_chunks.
Qed.

Example encode_base64_hello : encode_base64 (str_bytes "hello") = "aGVsbG8=".
Proof. reflexivity. Qed.
Example decode_base64_stray_bits : decode_base64 "aGVsbG9=" = None.
Proof. reflexivity. Qed.
