(* ===== verification/KeyCodec.v ===== *)
(** * The typed primary-key codec

    [src/src/query/hql2/key_codec.rs]: a tuple of typed components becomes the
    byte string under which a source row is addressed. The crate [serde_json]
    writes a JSON component as a sequence of pieces: the parameter [json_pieces]. *)
From S2P Require Export Json.
Local Open Scope Z_scope.

(** ** Definitions *)

Definition PREFIX : list byte := str_bytes "HQL2RK1".
Definition MAX_ENCODED_KEY_BYTES : Z := 16 * 1024.

Inductive KeyComponentV1 : Type :=
| KNull
| KText (value : string)
| KInteger (value : Z)
| KReal (value : f64)
| KBoolean (value : bool)
| KJson (value : json)
| KBlob (value : list byte)
| KTimestamp (value : string)
| KEntityId (value : string).

(** [LimitedWriter]: a byte vector that refuses to grow past [limit]. *)
Record LimitedWriter := { lw_bytes : list byte; lw_limit : Z }.

(** [LimitedWriter::write] *)
Definition lw_write (w : LimitedWriter) (bytes : list byte) : result string LimitedWriter :=
  if u64_saturating_sub (lw_limit w) (zlen (lw_bytes w)) <? zlen bytes
  then Err "encoded key exceeds the size limit"%string
  else Ok {| lw_bytes := lw_bytes w ++ bytes; lw_limit := lw_limit w |}.

(** [u32::try_from] *)
Definition u32_try_from (n : Z) : option Z := if n <=? u32_max then Some n else None.

Definition key_err (reason : string) {A} : result string A := Err reason.

Section Codec.
(** [serde_json]'s serializer: the pieces it hands to the writer, in order. *)
Variable json_pieces : json -> list (list byte).

(** [serde_json::to_writer] *)
Definition to_writer (w : LimitedWriter) (value : json) : result string LimitedWriter :=
  try_for lw_write w (json_pieces value).

Definition component_bytes (component : KeyComponentV1) (json_limit : Z)
  : result string (Z * list byte) :=
  match component with
  | KNull => Ok (0, [])
  | KText value => Ok (1, str_bytes value)
  | KInteger value => Ok (2, be_bytes 8 (value mod 2 ^ 64))
  | KReal value =>
      if f64_is_finite value then Ok (3, f64_to_be_bytes (f64_canonical value))
      else key_err "key_codec_nonfinite_real"
  | KBoolean value => Ok (4, [byte_of (if value then 1 else 0)])
  | KJson value =>
      w ← map_err (fun _ => "key_codec_value_too_large"%string)
            (to_writer {| lw_bytes := []; lw_limit := json_limit |} value);
      Ok (5, lw_bytes w)
  | KBlob value => Ok (6, value)
  | KTimestamp value => Ok (7, str_bytes value)
  | KEntityId value => Ok (8, str_bytes value)
  end.

(** The body of the loop of [encode_key_v1]. *)
Definition encode_component (encoded : list byte) (component : KeyComponentV1)
  : result string (list byte) :=
  let remaining := u64_saturating_sub MAX_ENCODED_KEY_BYTES (zlen encoded) in
  if remaining <? 5 then key_err "key_codec_value_too_large"
  else
    '(tag, bytes) ← component_bytes component (remaining - 5);
    length ← ok_or (u32_try_from (zlen bytes)) "key_codec_value_too_large"%string;
    next_len ← ok_or (len ← u64_checked_add (zlen encoded) 5; u64_checked_add len (zlen bytes))
                 "key_codec_value_too_large"%string;
    if MAX_ENCODED_KEY_BYTES <? next_len then key_err "key_codec_value_too_large"
    else Ok (encoded ++ [byte_of tag] ++ be_bytes 4 length ++ bytes).

Definition encode_key_v1 (components : list KeyComponentV1) : result string (list byte) :=
  if (zlen components =? 0) || (u8_max <? zlen components)
  then key_err "key_codec_component_count"
  else try_for encode_component (PREFIX ++ [byte_of (zlen components)]) components.

(** ** What the codec promises *)

Definition tag (c : KeyComponentV1) : Z :=
  match c with
  | KNull => 0 | KText _ => 1 | KInteger _ => 2 | KReal _ => 3 | KBoolean _ => 4
  | KJson _ => 5 | KBlob _ => 6 | KTimestamp _ => 7 | KEntityId _ => 8
  end.
Definition payload (c : KeyComponentV1) : list byte :=
  match c with
  | KNull => []
  | KText v | KTimestamp v | KEntityId v => str_bytes v
  | KInteger v => be_bytes 8 (v mod 2 ^ 64)
  | KReal v => f64_to_be_bytes (f64_canonical v)
  | KBoolean v => [byte_of (if v then 1 else 0)]
  | KJson v => concat (json_pieces v)
  | KBlob v => v
  end.
Definition encodable (c : KeyComponentV1) : bool :=
  match c with KReal v => f64_is_finite v | _ => true end.
Definition item (c : KeyComponentV1) : list byte :=
  [byte_of (tag c)] ++ be_bytes 4 (zlen (payload c)) ++ payload c.
Definition key_size (cs : list KeyComponentV1) : Z :=
  foldr (fun c n => 5 + zlen (payload c) + n) 0 cs.

(** The two zeros of a real are one key; nothing else is identified. *)
Definition key_norm (c : KeyComponentV1) : KeyComponentV1 :=
  match c with KReal v => KReal (f64_canonical v) | _ => c end.

(** A component as Rust holds it: a 64-bit integer, a binary64 number. *)
Definition key_valid (c : KeyComponentV1) : bool :=
  match c with
  | KInteger v => is_i64 v
  | KReal v => f64_valid v
  | _ => true
  end.

Lemma lw_write_eq bs lim p : zlen bs <= lim ->
  lw_write {| lw_bytes := bs; lw_limit := lim |} p =
  if lim <? zlen bs + zlen p then Err "encoded key exceeds the size limit"%string
  else Ok {| lw_bytes := bs ++ p; lw_limit := lim |}.
Proof.
  intros H. unfold lw_write, u64_saturating_sub. cbn [lw_bytes lw_limit].
  pose proof (zlen_nonneg p).
  by destruct (Z.ltb_spec (Z.max 0 (lim - zlen bs)) (zlen p)),
    (Z.ltb_spec lim (zlen bs + zlen p)); try lia.
Qed.

Lemma lw_write_pieces pieces w : 0 <= lw_limit w -> zlen (lw_bytes w) <= lw_limit w ->
  try_for lw_write w pieces =
  if lw_limit w <? zlen (lw_bytes w) + zlen (concat pieces)
  then Err "encoded key exceeds the size limit"%string
  else Ok {| lw_bytes := lw_bytes w ++ concat pieces; lw_limit := lw_limit w |}.
Proof.
  revert w; induction pieces as [|p ps IH]; intros [bs lim] Hl Hw; cbn [lw_bytes lw_limit] in *.
  - cbn [try_for concat]. rewrite app_nil_r.
    change (zlen (@nil byte)) with 0. destruct (Z.ltb_spec lim (zlen bs + 0)); [lia|done].
  - cbn [concat]. rewrite try_for_cons, lw_write_eq, zlen_app by done.
    pose proof (zlen_nonneg (concat ps)). pose proof (zlen_nonneg p).
    destruct (Z.ltb_spec lim (zlen bs + zlen p)); cbn [mbind result_bind].
    + destruct (Z.ltb_spec lim (zlen bs + (zlen p + zlen (concat ps)))); [done|lia].
    + rewrite IH; cbn [lw_bytes lw_limit]; rewrite ?zlen_app; [|lia..].
      rewrite Z.add_assoc, app_assoc. done.
Qed.

Lemma component_bytes_spec c lim : 0 <= lim -> component_bytes c lim =
  if negb (encodable c) then Err "key_codec_nonfinite_real"%string
  else match c with
       | KJson v => if lim <? zlen (payload c) then Err "key_codec_value_too_large"%string
                    else Ok (tag c, payload c)
       | _ => Ok (tag c, payload c)
       end.
Proof.
  intros Hl. destruct c; cbn [component_bytes encodable tag payload negb]; try done.
  - by destruct (f64_is_finite _).
  - unfold to_writer. rewrite lw_write_pieces by done. cbn [lw_bytes lw_limit].
    change (zlen (@nil byte)) with 0. rewrite Z.add_0_l. by destruct (_ <? _).
Qed.

Lemma encode_component_spec encoded c : zlen encoded <= MAX_ENCODED_KEY_BYTES ->
  encode_component encoded c =
  if MAX_ENCODED_KEY_BYTES <? zlen encoded + 5 then Err "key_codec_value_too_large"%string
  else if negb (encodable c) then Err "key_codec_nonfinite_real"%string
  else if MAX_ENCODED_KEY_BYTES <? zlen encoded + 5 + zlen (payload c)
       then Err "key_codec_value_too_large"%string
  else Ok (encoded ++ item c).
Proof.
  unfold encode_component, u64_saturating_sub. intros He.
  pose proof (zlen_nonneg encoded). pose proof (zlen_nonneg (payload c)).
  set (M := MAX_ENCODED_KEY_BYTES) in *. assert (M = 16384) by reflexivity.
  destruct (Z.ltb_spec (Z.max 0 (M - zlen encoded)) 5), (Z.ltb_spec M (zlen encoded + 5));
    try lia; [done|].
  rewrite component_bytes_spec by lia. destruct (encodable c) eqn:Ec; [|done]. cbn [negb].
  assert ((length ← ok_or (u32_try_from (zlen (payload c))) "key_codec_value_too_large"%string;
    next_len ← ok_or (len ← u64_checked_add (zlen encoded) 5;
                      u64_checked_add len (zlen (payload c))) "key_codec_value_too_large"%string;
    if M <? next_len then key_err "key_codec_value_too_large"
    else Ok (encoded ++ [byte_of (tag c)] ++ be_bytes 4 length ++ payload c)) =
    (if M <? zlen encoded + 5 + zlen (payload c) then Err "key_codec_value_too_large"%string
     else Ok (encoded ++ item c))) as Hrest.
  { unfold u32_try_from, u64_checked_add, item.
    assert (u32_max = 4294967295 /\ u64_max = 18446744073709551615) as [-> ->] by done.
    destruct (Z.leb_spec (zlen (payload c)) 4294967295); cbn [ok_or mbind result_bind option_bind].
    - destruct (Z.leb_spec (zlen encoded + 5) 18446744073709551615); [|lia].
      cbn [ok_or mbind result_bind option_bind].
      destruct (Z.leb_spec (zlen encoded + 5 + zlen (payload c)) 18446744073709551615);
        cbn [ok_or mbind result_bind option_bind]; [done|].
      by destruct (Z.ltb_spec M (zlen encoded + 5 + zlen (payload c))); [|lia].
    - by destruct (Z.ltb_spec M (zlen encoded + 5 + zlen (payload c))); [|lia]. }
  destruct c; try exact Hrest.
  destruct (Z.ltb_spec (Z.max 0 (M - zlen encoded) - 5) (zlen (payload (KJson value))));
    [|exact Hrest].
  by destruct (Z.ltb_spec M (zlen encoded + 5 + zlen (payload (KJson value)))); [|lia].
Qed.

Lemma zlen_item c : zlen (item c) = 5 + zlen (payload c).
Proof.
  unfold item. rewrite !zlen_app. unfold zlen at 2. rewrite length_be_bytes.
  change (zlen [_]) with 1. lia.
Qed.
Lemma key_size_nonneg cs : 0 <= key_size cs.
Proof.
  induction cs as [|c cs IH]; [done|]. cbn [key_size foldr]. fold (key_size cs).
  pose proof (zlen_nonneg (payload c)). lia.
Qed.
Lemma key_size_payload cs c : c ∈ cs -> zlen (payload c) <= key_size cs.
Proof.
  induction cs as [|d cs IH]; [by inversion 1|]. cbn [key_size foldr]. fold (key_size cs).
  pose proof (zlen_nonneg (payload d)). pose proof (key_size_nonneg cs).
  intros [->|H']%elem_of_cons; [lia|]. specialize (IH H'). lia.
Qed.

(** The whole loop: the first component that does not fit or is not finite
    decides the error, otherwise the items are appended in order. *)
Lemma encode_loop_Ok cs encoded b : zlen encoded <= MAX_ENCODED_KEY_BYTES ->
  try_for encode_component encoded cs = Ok b <->
  forallb encodable cs = true /\ zlen encoded + key_size cs <= MAX_ENCODED_KEY_BYTES /\
  b = encoded ++ concat (item <$> cs).
Proof.
  revert encoded; induction cs as [|c cs IH]; intros encoded He.
  { cbn [try_for forallb key_size foldr fmap list_fmap concat]. rewrite app_nil_r, Z.add_0_r.
    split; [by intros [= <-]|by intros (_ & _ & ->)]. }
  rewrite try_for_cons, encode_component_spec by done.
  cbn [forallb key_size foldr]. fold (key_size cs). rewrite fmap_cons. cbn [concat].
  pose proof (zlen_nonneg (payload c)). pose proof (key_size_nonneg cs).
  destruct (Z.ltb_spec MAX_ENCODED_KEY_BYTES (zlen encoded + 5));
    [split; [done|lia]|].
  destruct (encodable c); [|split; [done|by intros [? _]]]. cbn [negb andb].
  destruct (Z.ltb_spec MAX_ENCODED_KEY_BYTES (zlen encoded + 5 + zlen (payload c)));
    [split; [done|lia]|].
  cbn [mbind result_bind]. rewrite IH; rewrite zlen_app, zlen_item; [|lia].
  rewrite <- app_assoc, !Z.add_assoc. done.
Qed.

Lemma encode_key_v1_layout cs b :
  encode_key_v1 cs = Ok b <->
  1 <= zlen cs <= 255 /\ forallb encodable cs = true /\
  8 + key_size cs <= MAX_ENCODED_KEY_BYTES /\
  b = PREFIX ++ [byte_of (zlen cs)] ++ concat (item <$> cs).
Proof.
  unfold encode_key_v1. pose proof (zlen_nonneg cs).
  assert (u8_max = 255) as -> by done.
  destruct (Z.eqb_spec (zlen cs) 0), (Z.ltb_spec 255 (zlen cs)); cbn [orb];
    try (split; [done|lia]).
  rewrite encode_loop_Ok by done. rewrite <- app_assoc. change (zlen (PREFIX ++ _)) with 8.
  split; [intros (? & ? & ?)|intros (? & ? & ? & ?)]; repeat split; auto; lia.
Qed.

(** The codec succeeds exactly on 1 to 255 components that are all
    encodable and fit in 16 KiB, and then writes the documented layout. *)
Theorem encode_key_v1_Ok cs b :
  encode_key_v1 cs = Ok b <->
  1 <= zlen cs <= 255 /\ forallb encodable cs = true /\
  8 + key_size cs <= MAX_ENCODED_KEY_BYTES /\
  b = PREFIX ++ [byte_of (zlen cs)] ++ concat (item <$> cs).
Proof. apply encode_key_v1_layout. Qed.

Lemma payload_inj c d :
  (forall v w, concat (json_pieces v) = concat (json_pieces w) -> v = w) ->
  key_valid c = true -> key_valid d = true -> encodable c = true -> encodable d = true ->
  tag c = tag d -> payload c = payload d -> key_norm c = key_norm d.
Proof.
  intros Hj Vc Vd Ec Ed Ht Hp.
  destruct c as [|v|v|v|v|v|v|v|v], d as [|w|w|w|w|w|w|w|w]; cbn in Ht; try discriminate;
    cbn [payload key_norm key_valid encodable] in *; try done;
    try (apply str_bytes_inj in Hp; by subst).
  - apply is_i64_bounds in Vc, Vd. unfold i64_min, i64_max in *.
    apply (be_bytes_inj 8) in Hp; [|apply Z.mod_pos_bound; lia..]. f_equal. div_lia.
  - f_equal. apply f64_to_be_bytes_inj;
      rewrite ?f64_canonical_finite; auto using f64_canonical_valid.
  - by destruct v, w.
  - f_equal. by apply Hj.
  - by subst.
Qed.

Lemma item_prefix c d r1 r2 :
  (forall v w, concat (json_pieces v) = concat (json_pieces w) -> v = w) ->
  key_valid c = true -> key_valid d = true -> encodable c = true -> encodable d = true ->
  zlen (payload c) <= MAX_ENCODED_KEY_BYTES -> zlen (payload d) <= MAX_ENCODED_KEY_BYTES ->
  item c ++ r1 = item d ++ r2 -> key_norm c = key_norm d /\ r1 = r2.
Proof.
  intros Hj Vc Vd Ec Ed Lc Ld H. unfold item in H. rewrite <- !app_assoc in H.
  apply app_inj_1 in H as [Ht H]; [|done]. apply app_inj_1 in H as [Hl H];
    [|by rewrite !length_be_bytes].
  assert (tag c = tag d) as Htag.
  { injection Ht as Ht. apply (f_equal byte_val) in Ht.
    by destruct c, d. }
  pose proof (zlen_nonneg (payload c)). pose proof (zlen_nonneg (payload d)).
  unfold MAX_ENCODED_KEY_BYTES in *.
  apply (be_bytes_inj 4) in Hl; [|lia..].
  apply app_inj_1 in H as [Hp ->]; [|unfold zlen in Hl; lia].
  split; [by apply payload_inj|done].
Qed.

Lemma items_prefix cs ds r1 r2 :
  (forall v w, concat (json_pieces v) = concat (json_pieces w) -> v = w) ->
  Forall (fun c => key_valid c = true /\ encodable c = true /\
                   zlen (payload c) <= MAX_ENCODED_KEY_BYTES) cs ->
  Forall (fun c => key_valid c = true /\ encodable c = true /\
                   zlen (payload c) <= MAX_ENCODED_KEY_BYTES) ds ->
  length cs = length ds -> concat (item <$> cs) ++ r1 = concat (item <$> ds) ++ r2 ->
  key_norm <$> cs = key_norm <$> ds /\ r1 = r2.
Proof.
  intros Hj Hc. revert ds. induction Hc as [|c cs (Vc & Ec & Lc) Hc IH]; intros [|d ds] Hd Hl H;
    try done.
  apply Forall_cons in Hd as [(Vd & Ed & Ld) Hd]. rewrite !fmap_cons in *. cbn [concat] in H.
  rewrite <- !app_assoc in H. apply item_prefix in H as [-> H]; [|done..].
  apply IH in H as [-> ->]; [done|done|]. by injection Hl.
Qed.

Lemma encode_key_v1_components cs b : Forall (fun c => key_valid c = true) cs ->
  encode_key_v1 cs = Ok b ->
  Forall (fun c => key_valid c = true /\ encodable c = true /\
                   zlen (payload c) <= MAX_ENCODED_KEY_BYTES) cs.
Proof.
  intros Hv (_ & He & Hs & _)%encode_key_v1_layout. rewrite forallb_forall in He.
  apply Forall_forall. intros c Hc. rewrite Forall_forall in Hv.
  pose proof (key_size_payload cs c Hc). split; [auto|].
  split; [|lia]. apply He. by apply list_elem_of_In.
Qed.

(** C39: Two keys of which one is a prefix of the other are the same bytes and come
    from the same components: no key is a proper prefix of another one, and
    equal bytes mean equal tuples, the two zeros of a real being one value. *)
Theorem encode_key_v1_prefix_free cs ds b1 b2 r1 r2
  (Hj : forall v w, concat (json_pieces v) = concat (json_pieces w) -> v = w)
  (Vc : Forall (fun c => key_valid c = true) cs) (Vd : Forall (fun c => key_valid c = true) ds)
  (H1 : encode_key_v1 cs = Ok b1) (H2 : encode_key_v1 ds = Ok b2)
  (Hb : b1 ++ r1 = b2 ++ r2) :
  key_norm <$> cs = key_norm <$> ds /\ r1 = r2.
Proof.
  pose proof (encode_key_v1_components cs b1 Vc H1) as Fc.
  pose proof (encode_key_v1_components ds b2 Vd H2) as Fd.
  apply encode_key_v1_layout in H1 as (Lc & _ & _ & ->), H2 as (Ld & _ & _ & ->).
  rewrite <- !app_assoc in Hb. apply app_inj_1 in Hb as [_ Hb]; [|done].
  apply app_inj_1 in Hb as [Hn Hb]; [|done].
  assert (zlen cs = zlen ds) as Hl.
  { injection Hn as Hn. apply (f_equal byte_val) in Hn. rewrite !byte_of_small in Hn; lia. }
  eapply items_prefix; eauto. unfold zlen in Hl. lia.
Qed.

(** Conversely components that differ only in the sign of a zero share a key. *)
Theorem encode_key_v1_norm cs : encode_key_v1 (key_norm <$> cs) = encode_key_v1 cs.
Proof.
  unfold encode_key_v1. assert (zlen (key_norm <$> cs) = zlen cs) as ->
    by (unfold zlen; by rewrite length_fmap).
  destruct (_ || _)%bool; [done|].
  generalize (PREFIX ++ [byte_of (zlen cs)]) as encoded.
  induction cs as [|c cs IH]; intros encoded; [done|].
  rewrite fmap_cons, !try_for_cons. assert (encode_component encoded (key_norm c) =
    encode_component encoded c) as ->.
  { unfold encode_component. destruct c as [| | |v| | | | |]; try done.
    assert (f64_canonical (f64_canonical v) = f64_canonical v) as E
      by (by destruct v as [[]|[]| |[]]).
    cbn [key_norm component_bytes]. by rewrite f64_canonical_finite, E. }
  by destruct (encode_component encoded c); cbn; auto.
Qed.
End Codec.

(** ** Witnesses *)

Definition sample_pieces (j : json) : list (list byte) := [json_code j].

Lemma sample_pieces_inj v w :
  concat (sample_pieces v) = concat (sample_pieces w) -> v = w.
Proof. cbn. rewrite !app_nil_r. apply json_code_inj. Qed.

Definition sample_key : list KeyComponentV1 :=
  [KText "ab"; KInteger (-1); KReal (S754_zero true); KJson (JBool true)].
Definition sample_key_bytes : list byte :=
  match encode_key_v1 sample_pieces sample_key with Ok b => b | Err _ => [] end.

Lemma encode_key_v1_prefix_free_witness :
  key_norm <$> sample_key = key_norm <$> [KText "ab"; KInteger (-1); KReal f64_zero; KJson (JBool true)]
  /\ @nil byte = [].
Proof.
  apply (encode_key_v1_prefix_free sample_pieces sample_key
    [KText "ab"; KInteger (-1); KReal f64_zero; KJson (JBool true)]
    sample_key_bytes sample_key_bytes [] []).
  - exact sample_pieces_inj.
  - repeat constructor.
  - repeat constructor.
  - vm_compute. reflexivity.
  - vm_compute. reflexivity.
  - reflexivity.
Defined.

Example encode_key_empty : encode_key_v1 sample_pieces [] = Err "key_codec_component_count"%string.
Proof. reflexivity. Qed.
