(* ===== verification/Journal.v ===== *)
(** * The framed journal: wire format

    [src/src/lib.rs], the journal codec: length-prefixed frames with a checksum,
    the active file's header, sealed segments with a digest footer. The checksum
    ([crc32c]), the digest ([sha2]) and the compressor ([lz4_flex]) are parameters. *)
From S2P Require Export Order.
Local Open Scope Z_scope.

(** ** Constants *)

Definition ACTIVE_MAGIC : list byte := str_bytes "GWA1".
Definition SEG_MAGIC : list byte := str_bytes "GSG1".
Definition JOURNAL_FORMAT_VERSION : Z := 1.
Definition ACTIVE_HEADER_LEN : nat := 14.
Definition FRAME_HEADER_LEN : nat := 16.
Definition SEG_HEADER_LEN : nat := 28.
Definition SEG_FOOTER_LEN : nat := 44.
Definition MAX_JOURNAL_FRAME_PAYLOAD_BYTES : Z := 64 * 1024 * 1024.
Definition MAX_JOURNAL_SEGMENT_BODY_BYTES : Z := 128 * 1024 * 1024.
Definition MAX_JOURNAL_SEGMENT_FILE_BYTES : Z :=
  MAX_JOURNAL_SEGMENT_BODY_BYTES + Z.of_nat (SEG_HEADER_LEN + SEG_FOOTER_LEN).
Definition SEG_KIND_HISTORY : Z := 1.
Definition SEG_KIND_BASE : Z := 2.
Definition SEG_KIND_LEGACY_JSONL : Z := 3.
Definition CODEC_NONE : Z := 0.
Definition CODEC_LZ4 : Z := 2.

(** [&bytes[a..b]] *)
Definition slice (bytes : list byte) (a b : nat) : list byte := take (b - a) (drop a bytes).
(** [bytes[i]] *)
Definition byte_at (bytes : list byte) (i : nat) : Z := byte_val (nth i bytes Ascii.zero).

(** A frame as the walker reports it: its sequence number and its payload. *)
Definition frame : Type := Z * list byte.

(** [active_header] *)
Definition active_header (first_seq : Z) : list byte :=
  ACTIVE_MAGIC ++ le_bytes 2 JOURNAL_FORMAT_VERSION ++ le_bytes 8 first_seq.

(** The crates the codec calls, with what the code relies on. *)
Class JournalCrates := {
  crc32c : list byte -> Z;
  crc32c_append : Z -> list byte -> Z;
  sha256 : list byte -> list byte;
  lz4_frame_compress : list byte -> option (list byte);
  (** the decoder's output, read to its end *)
  lz4_frame_decode : list byte -> option (list byte);
}.
Class JournalCratesLaws (C : JournalCrates) : Prop := {
  crc32c_range bs : 0 <= crc32c bs < 2 ^ 32;
  crc32c_append_range c bs : 0 <= crc32c_append c bs < 2 ^ 32;
  sha256_length bs : length (sha256 bs) = 32%nat;
  lz4_roundtrip bs z : lz4_frame_compress bs = Some z -> lz4_frame_decode z = Some bs;
}.

Section Frames.
Context `{C : JournalCrates}.

Definition frame_crc (seq : Z) (payload : list byte) : Z :=
  crc32c_append (crc32c (le_bytes 8 seq)) payload.

(** [encode_frame]: [payload.len() as u32] truncates to 32 bits, as [le_bytes] does. *)
Definition encode_frame (out : list byte) (seq : Z) (payload : list byte) : list byte :=
  out ++ le_bytes 4 (zlen payload) ++ le_bytes 8 seq ++
  le_bytes 4 (frame_crc seq payload) ++ payload.

(** One iteration of the loop of [walk_frames]: [None] where it returns [off]. *)
Definition read_frame (bytes : list byte) (off : nat) : option (frame * nat) :=
  if (length bytes <? off + FRAME_HEADER_LEN)%nat then None
  else
    let len := le_val (slice bytes off (off + 4)) in
    let seq := le_val (slice bytes (off + 4) (off + 12)) in
    let crc := le_val (slice bytes (off + 12) (off + 16)) in
    let ps := (off + FRAME_HEADER_LEN)%nat in
    if (MAX_JOURNAL_FRAME_PAYLOAD_BYTES <? len) || (zlen bytes <? Z.of_nat ps + len) then None
    else
      let payload := slice bytes ps (ps + Z.to_nat len) in
      if negb (frame_crc seq payload =? crc) then None
      else Some ((seq, payload), (ps + Z.to_nat len)%nat).

(** The loop; every turn moves [off] by at least a frame header, so the number
    of bytes is enough fuel. *)
Fixpoint walk_frames_fuel (fuel : nat) (bytes : list byte) (off : nat) : list frame * nat :=
  match fuel with
  | O => ([], off)
  | S fuel' =>
      match read_frame bytes off with
      | None => ([], off)
      | Some (f, off') =>
          let '(fs, last) := walk_frames_fuel fuel' bytes off' in (f :: fs, last)
      end
  end.
Definition walk_frames (bytes : list byte) (start : nat) : list frame * nat :=
  walk_frames_fuel (S (length bytes)) bytes start.

(** The frames a writer appends one after the other. *)
Definition encode_frames (fs : list frame) : list byte :=
  foldl (fun out f => encode_frame out f.1 f.2) [] fs.

(** A frame the walker accepts: a 64-bit sequence number, a bounded payload. *)
Definition frame_ok (f : frame) : Prop :=
  0 <= f.1 < 2 ^ 64 /\ zlen f.2 <= MAX_JOURNAL_FRAME_PAYLOAD_BYTES.

Definition frame_bytes (f : frame) : list byte := encode_frame [] f.1 f.2.

Lemma encode_frame_app out seq payload :
  encode_frame out seq payload = out ++ frame_bytes (seq, payload).
Proof. reflexivity. Qed.
Lemma encode_frames_concat fs : encode_frames fs = concat (frame_bytes <$> fs).
Proof.
  unfold encode_frames. rewrite <- (app_nil_l (concat _)). generalize (@nil byte) as out.
  induction fs as [|[s p] fs IH]; intros out; cbn [foldl]; [by rewrite app_nil_r|].
  rewrite IH, encode_frame_app, fmap_cons. cbn [concat]. by rewrite app_assoc.
Qed.
Lemma encode_frames_cons f fs : encode_frames (f :: fs) = frame_bytes f ++ encode_frames fs.
Proof. by rewrite !encode_frames_concat. Qed.
Lemma encode_frames_app fs gs : encode_frames (fs ++ gs) = encode_frames fs ++ encode_frames gs.
Proof. by rewrite !encode_frames_concat, fmap_app, concat_app. Qed.

Lemma length_frame_bytes f : length (frame_bytes f) = (16 + length f.2)%nat.
Proof.
  unfold frame_bytes, encode_frame. rewrite !length_app, !length_le_bytes. cbn [length]. lia.
Qed.

(** ** Reading at an offset is reading what follows it *)

Lemma slice_drop bytes off a b : slice (drop off bytes) a b = slice bytes (off + a) (off + b).
Proof. unfold slice. rewrite drop_drop. f_equal; lia. Qed.

Lemma read_frame_drop bytes off : (off <= length bytes)%nat ->
  read_frame bytes off = (fun '(f, n) => (f, (off + n)%nat)) <$> read_frame (drop off bytes) 0.
Proof.
  intros Ho. unfold read_frame. rewrite length_drop, !slice_drop.
  unfold zlen. rewrite length_drop, !Nat.add_0_l. cbv zeta.
  assert (off + 0 = off)%nat as -> by lia.
  unfold FRAME_HEADER_LEN.
  destruct (Nat.ltb_spec (length bytes) (off + 16)), (Nat.ltb_spec (length bytes - off) 16);
    try lia; [done|].
  set (len := le_val (slice bytes off (off + 4))).
  destruct (Z.ltb_spec MAX_JOURNAL_FRAME_PAYLOAD_BYTES len); [done|]. cbn [orb].
  pose proof (le_val_bound (slice bytes off (off + 4))). fold len in H2.
  destruct (Z.ltb_spec (Z.of_nat (length bytes)) (Z.of_nat (off + 16) + len)),
    (Z.ltb_spec (Z.of_nat (length bytes - off)) (Z.of_nat 16 + len)); try lia; [done|].
  rewrite ?Nat.add_assoc. destruct (negb _); [done|].
  cbn. do 2 f_equal. lia.
Qed.

Lemma read_frame_bounds bytes off f off' : read_frame bytes off = Some (f, off') ->
  (off + 16 <= off' <= length bytes)%nat.
Proof.
  unfold read_frame, FRAME_HEADER_LEN, zlen. cbv zeta. intros H.
  destruct (Nat.ltb_spec (length bytes) (off + 16)); [done|].
  set (len := le_val _) in H. pose proof (le_val_bound (slice bytes off (off + 4))) as Hb.
  fold len in Hb.
  destruct (Z.ltb_spec MAX_JOURNAL_FRAME_PAYLOAD_BYTES len); [done|]. cbn [orb] in H.
  destruct (Z.ltb_spec (Z.of_nat (length bytes)) (Z.of_nat (off + 16) + len)); [done|].
  destruct (negb _); [done|]. injection H as <- <-. lia.
Qed.

(** ** The walker *)

Lemma slice_app_skip l k a b : (length l <= a)%nat ->
  slice (l ++ k) a b = slice k (a - length l) (b - length l).
Proof.
  intros H. unfold slice. rewrite drop_app_ge by done.
  by replace (b - length l - (a - length l))%nat with (b - a)%nat by lia.
Qed.
Lemma slice_app_whole l k a b : a = 0%nat -> b = length l -> slice (l ++ k) a b = l.
Proof. intros -> ->. unfold slice. by rewrite Nat.sub_0_r, drop_0, take_app_length. Qed.

(** The fields of a frame at the head of a byte sequence. *)
Lemma frame_fields f tail :
  let b := frame_bytes f ++ tail in
  slice b 0 4 = le_bytes 4 (zlen f.2) /\ slice b 4 12 = le_bytes 8 f.1 /\
  slice b 12 16 = le_bytes 4 (frame_crc f.1 f.2) /\
  slice b 16 (16 + length f.2) = f.2.
Proof.
  destruct f as [seq p]. cbn [fst snd]. unfold frame_bytes, encode_frame. cbn [fst snd app].
  rewrite <- !app_assoc. repeat split;
    repeat (rewrite slice_app_skip by (rewrite length_le_bytes; lia); rewrite length_le_bytes);
    apply slice_app_whole; rewrite ?length_le_bytes; lia.
Qed.

Lemma read_frame_hit `{!JournalCratesLaws C} f tail : frame_ok f ->
  read_frame (frame_bytes f ++ tail) 0 = Some (f, length (frame_bytes f)).
Proof.
  intros [Hs Hp]. destruct (frame_fields f tail) as (F1 & F2 & F3 & F4).
  unfold read_frame, FRAME_HEADER_LEN. cbv zeta.
  rewrite !Nat.add_0_l,  F1, F2, F3.
  pose proof (zlen_nonneg f.2).
  rewrite (le_val_bytes_small 8 f.1) by done.
  rewrite (le_val_bytes_small 4 (frame_crc f.1 f.2)) by apply crc32c_append_range.
  rewrite (le_val_bytes_small 4 (zlen f.2)) by
    (unfold MAX_JOURNAL_FRAME_PAYLOAD_BYTES in Hp; change (256 ^ Z.of_nat 4) with 4294967296; lia).
  pose proof (length_frame_bytes f).
  assert (Z.to_nat (zlen f.2) = length f.2) as -> by (unfold zlen; lia).
  rewrite F4, length_app.
  destruct (Nat.ltb_spec (length (frame_bytes f) + length tail) 16); [lia|].
  rewrite zlen_app. destruct (Z.ltb_spec MAX_JOURNAL_FRAME_PAYLOAD_BYTES (zlen f.2)); [lia|].
  unfold zlen in *. destruct (Z.ltb_spec (Z.of_nat (length (frame_bytes f)) +
    Z.of_nat (length tail)) (Z.of_nat 16 + Z.of_nat (length f.2))); [lia|].
  rewrite Z.eqb_refl. cbn [orb negb]. rewrite H0. by destruct f.
Qed.

(** A frame cut short by a crash is not read. *)
Lemma read_frame_cut f n : frame_ok f -> (n < length (frame_bytes f))%nat ->
  read_frame (take n (frame_bytes f)) 0 = None.
Proof.
  intros [Hs Hp] Hn. unfold read_frame, FRAME_HEADER_LEN. cbv zeta. rewrite ?Nat.add_0_l.
  rewrite length_take_le by lia. destruct (Nat.ltb_spec n 16) as [|H16]; [done|].
  destruct (frame_fields f []) as (F1 & _). rewrite app_nil_r in F1.
  assert (slice (take n (frame_bytes f)) 0 4 = le_bytes 4 (zlen f.2)) as ->.
  { unfold slice in *. rewrite drop_0, Nat.sub_0_r in *. rewrite take_take.
    by replace (Nat.min 4 n) with 4%nat by lia. }
  pose proof (zlen_nonneg f.2). rewrite le_val_bytes_small by
    (unfold MAX_JOURNAL_FRAME_PAYLOAD_BYTES in Hp; change (256 ^ Z.of_nat 4) with 4294967296; lia).
  rewrite length_frame_bytes in Hn. unfold zlen at 2. rewrite length_take_le
    by (rewrite length_frame_bytes; lia).
  destruct (Z.ltb_spec (Z.of_nat n) (Z.of_nat 16 + zlen f.2)); [by rewrite orb_true_r|].
  unfold zlen in *. lia.
Qed.

(** What is read is the encoding of what is reported. *)
Lemma read_frame_sound bytes f n : read_frame bytes 0 = Some (f, n) ->
  take n bytes = frame_bytes f /\ frame_ok f.
Proof.
  unfold read_frame, FRAME_HEADER_LEN. cbv zeta. rewrite ?Nat.add_0_l.
  destruct (Nat.ltb_spec (length bytes) 16); [done|].
  set (len := le_val (slice bytes 0 4)). pose proof (le_val_bound (slice bytes 0 4)) as Hb.
  fold len in Hb. destruct (Z.ltb_spec MAX_JOURNAL_FRAME_PAYLOAD_BYTES len); [done|].
  destruct (Z.ltb_spec (zlen bytes) (Z.of_nat 16 + len)) as [|Hl]; [done|]. cbn [orb].
  set (p := slice bytes 16 _). destruct (Z.eqb_spec (frame_crc (le_val (slice bytes 4 12)) p)
    (le_val (slice bytes 12 16))) as [Hc|]; [|done]. cbn [negb]. intros [= <- <-].
  assert (forall a b, (a <= b <= length bytes)%nat -> length (slice bytes a b) = (b - a)%nat) as Hsl
    by (intros; unfold slice; rewrite length_take_le; [done|rewrite length_drop; lia]).
  assert (length p = Z.to_nat len) as Hp.
  { unfold p. rewrite Hsl; unfold zlen in Hl; lia. }
  split.
  - unfold frame_bytes, encode_frame. cbn [fst snd app]. rewrite Hc.
    assert (zlen p = len) as -> by (unfold zlen; lia).
    assert (forall a b, (a <= b <= length bytes)%nat ->
      le_bytes (b - a) (le_val (slice bytes a b)) = slice bytes a b) as Hle
      by (intros a b Hab; rewrite <- (Hsl a b Hab); apply le_bytes_val).
    pose proof (Hle 0 4 ltac:(lia))%nat as E1. pose proof (Hle 4 12 ltac:(lia))%nat as E2.
    pose proof (Hle 12 16 ltac:(lia))%nat as E3. cbn [Nat.sub] in E1, E2, E3.
    fold len in E1. rewrite E1, E2, E3. rewrite <- (firstn_skipn 4 (take _ bytes)),
      <- (firstn_skipn 8 (drop 4 (take _ bytes))),
      <- (firstn_skipn 4 (drop 8 (drop 4 (take _ bytes)))), !drop_drop.
    unfold p, slice. cbn [Nat.sub Nat.add]. rewrite !skipn_firstn_comm, !take_take, !drop_0.
    repeat f_equal; lia.
  - split; cbn [fst snd].
    + pose proof (le_val_bound (slice bytes 4 12)) as Hq. by rewrite Hsl in Hq by lia.
    + unfold zlen in *. lia.
Qed.
Lemma read_frame_nil : read_frame [] 0 = None.
Proof. reflexivity. Qed.

Lemma walk_hit `{!JournalCratesLaws C} fs pre tail fuel : Forall frame_ok fs ->
  read_frame tail 0 = None -> (length fs < fuel)%nat ->
  walk_frames_fuel fuel (pre ++ encode_frames fs ++ tail) (length pre)
  = (fs, length (pre ++ encode_frames fs)).
Proof.
  intros Hok Ht. revert pre fuel. induction Hok as [|f fs Hf Hok IH]; intros pre [|fuel] Hfuel;
    try (cbn [length] in Hfuel; lia).
  - cbn [walk_frames_fuel]. rewrite read_frame_drop by (rewrite length_app; lia).
    rewrite drop_app_length. change (encode_frames []) with (@nil byte). cbn [app].
    by rewrite Ht, app_nil_r.
  - cbn [walk_frames_fuel]. rewrite read_frame_drop by (rewrite length_app; lia).
    rewrite drop_app_length, encode_frames_cons, <- app_assoc, read_frame_hit by done.
    cbn [fmap option_fmap option_map].
    specialize (IH (pre ++ frame_bytes f) fuel ltac:(cbn [length] in Hfuel; lia)).
    rewrite <- !app_assoc, length_app in IH. rewrite IH. done.
Qed.

Lemma length_encode_frames fs : (length fs <= length (encode_frames fs))%nat.
Proof.
  induction fs as [|f fs IH]; [done|]. rewrite encode_frames_cons, length_app, length_frame_bytes.
  cbn [length]. lia.
Qed.

Lemma walk_frames_hit `{!JournalCratesLaws C} fs pre tail : Forall frame_ok fs ->
  read_frame tail 0 = None ->
  walk_frames (pre ++ encode_frames fs ++ tail) (length pre)
  = (fs, length (pre ++ encode_frames fs)).
Proof.
  intros. apply walk_hit; [done..|]. rewrite !length_app.
  pose proof (length_encode_frames fs). lia.
Qed.

Lemma walk_fuel_sound fuel bytes off fs last :
  (off <= length bytes)%nat -> (length bytes - off < fuel)%nat ->
  walk_frames_fuel fuel bytes off = (fs, last) ->
  (off <= last <= length bytes)%nat /\ take (last - off) (drop off bytes) = encode_frames fs /\
  Forall frame_ok fs /\ read_frame bytes last = None.
Proof.
  revert off fs last. induction fuel as [|fuel IH]; intros off fs last Ho Hf; [lia|].
  cbn [walk_frames_fuel]. destruct (read_frame bytes off) as [[f off']|] eqn:E.
  - destruct (walk_frames_fuel fuel bytes off') as [fs' last'] eqn:Ew. intros [= <- <-].
    pose proof (read_frame_bounds _ _ _ _ E) as Hb.
    apply IH in Ew as (Hl & Ht & Hok & Hn); [|lia..].
    rewrite read_frame_drop in E by done.
    destruct (read_frame (drop off bytes) 0) as [[f0 n0]|] eqn:E0; [|done].
    injection E as -> <-. apply read_frame_sound in E0 as [Hf0 Hok0].
    split; [lia|]. split; [|by split; [constructor|]].
    rewrite encode_frames_cons, <- Hf0, <- Ht.
    rewrite <- (take_drop n0 (take (last' - off) (drop off bytes))).
    rewrite take_take, skipn_firstn_comm, drop_drop, Nat.min_l, Nat.sub_add_distr by lia.
    done.
  - intros [= <- <-]. split; [lia|]. rewrite Nat.sub_diag. by repeat split.
Qed.

Lemma encode_frames_cut fs n : Forall frame_ok fs -> (n <= length (encode_frames fs))%nat ->
  exists k tail, take n (encode_frames fs) = encode_frames (take k fs) ++ tail /\
    read_frame tail 0 = None /\
    (k = length fs \/ (n < length (encode_frames (take (S k) fs)))%nat).
Proof.
  intros Hok. revert n. induction Hok as [|f fs Hf Hok IH]; intros n Hn.
  - exists 0%nat, []. change (encode_frames []) with (@nil byte). rewrite take_nil. auto.
  - rewrite encode_frames_cons in *. rewrite length_app in Hn.
    destruct (decide (n < length (frame_bytes f))%nat) as [Hlt|Hge].
    + exists 0%nat, (take n (frame_bytes f)). rewrite take_app_le by lia.
      split; [done|]. split; [by apply read_frame_cut|]. right.
      rewrite firstn_cons, encode_frames_cons, length_app. lia.
    + destruct (IH (n - length (frame_bytes f))%nat) as (k & tail & E & Ht & Hk); [lia|].
      exists (S k), tail. rewrite take_app_ge, E by lia.
      rewrite firstn_cons, encode_frames_cons, <- app_assoc. split; [done|]. split; [done|].
      destruct Hk as [->|Hk]; [by left|right].
      rewrite firstn_cons, encode_frames_cons, length_app. lia.
Qed.
End Frames.

(** ** Sealed segments *)

(** What one read of a path observes: the length in its metadata before it is
    opened, the length after, and the bytes a read to the end would return. *)
Record file_view := {
  view_metadata_len : Z;
  view_open_len : Z;
  view_bytes : list byte;
}.
(** A file nobody writes to meanwhile. *)
Definition quiet_file (bytes : list byte) : file_view :=
  {| view_metadata_len := zlen bytes; view_open_len := zlen bytes; view_bytes := bytes |}.

Inductive journal_error :=
| JournalIo
| JournalAuthPreflightLimit
| JournalPreflightFailed (reason : string).

Record SegmentInfo := { seg_kind : Z; seg_min_seq : Z; seg_max_seq : Z }.

(** [read_segment_header]: the first 28 bytes, magic checked. *)
Definition read_segment_header (file : option (list byte)) : option SegmentInfo :=
  bytes ← file;
  if (length bytes <? SEG_HEADER_LEN)%nat then None
  else if negb (bool_decide (slice bytes 0 4 = SEG_MAGIC)) then None
  else Some {| seg_kind := byte_at bytes 6;
               seg_min_seq := le_val (slice bytes 8 16);
               seg_max_seq := le_val (slice bytes 16 24) |}.

(** [read_journal_source_bounded] *)
Definition read_journal_source_bounded (file : option file_view) (max_bytes : Z)
  : result journal_error (list byte) :=
  v ← ok_or file JournalIo;
  if max_bytes <? view_open_len v then Err JournalAuthPreflightLimit
  else
    let bytes := ztake (u64_saturating_add max_bytes 1) (view_bytes v) in
    if max_bytes <? zlen bytes then Err JournalAuthPreflightLimit else Ok bytes.

(** [read_active_journal_source_bounded]: a missing file may be an empty source. *)
Definition read_active_journal_source_bounded (file : option file_view) (max_bytes : Z)
  (missing_is_empty : bool) : result journal_error (option (list byte)) :=
  match file with
  | None => if missing_is_empty then Ok None else Err JournalIo
  | Some v =>
      if max_bytes <? view_open_len v then Err JournalAuthPreflightLimit
      else
        let bytes := ztake (u64_saturating_add max_bytes 1) (view_bytes v) in
        if max_bytes <? zlen bytes then Err JournalAuthPreflightLimit else Ok (Some bytes)
  end.

Section Segments.
Context `{C : JournalCrates}.

Definition lz4_frame_decompress_bounded (compressed : list byte) (max_output_bytes : Z)
  : option (list byte) :=
  full ← lz4_frame_decode compressed;
  let out := ztake (max_output_bytes + 1) full in
  if max_output_bytes <? zlen out then None else Some out.

(** The header [write_segment] lays down. *)
Definition segment_header (kind codec min_seq max_seq frame_count : Z) : list byte :=
  SEG_MAGIC ++ le_bytes 2 JOURNAL_FORMAT_VERSION ++ [byte_of kind] ++ [byte_of codec]
  ++ le_bytes 8 min_seq ++ le_bytes 8 max_seq ++ le_bytes 4 frame_count.

Definition segment_crc (header sha : list byte) (body_len : Z) : Z :=
  crc32c (header ++ sha ++ le_bytes 8 body_len).

(** The bytes [write_segment] writes to the temporary file; [None] when the
    compressor fails. *)
Definition segment_bytes (kind codec min_seq max_seq frame_count : Z) (body : list byte)
  : option (list byte) :=
  compressed ← (if codec =? CODEC_LZ4 then lz4_frame_compress body else Some body);
  let header := segment_header kind codec min_seq max_seq frame_count in
  let sha := sha256 body in
  let crc := segment_crc header sha (zlen body) in
  Some (header ++ compressed ++ sha ++ le_bytes 8 (zlen body) ++ le_bytes 4 crc).

(** [read_segment_body_with_limits] after the bounded read. *)
Definition decode_segment (bytes : list byte) (max_body_bytes : Z)
  : result journal_error (option (Z * list byte)) :=
  if (length bytes <? SEG_HEADER_LEN + SEG_FOOTER_LEN)%nat
     || negb (bool_decide (slice bytes 0 4 = SEG_MAGIC)) then Ok None
  else
    let kind := byte_at bytes 6 in
    let codec := byte_at bytes 7 in
    let footer_start := (length bytes - SEG_FOOTER_LEN)%nat in
    let sha_expected := slice bytes footer_start (footer_start + 32) in
    let body_len := le_val (slice bytes (footer_start + 32) (footer_start + 40)) in
    if max_body_bytes <? body_len then Err JournalAuthPreflightLimit
    else if MAX_JOURNAL_SEGMENT_BODY_BYTES <? body_len then Ok None
    else
      let crc_expected := le_val (slice bytes (footer_start + 40) (footer_start + 44)) in
      if negb (segment_crc (slice bytes 0 SEG_HEADER_LEN) sha_expected body_len =? crc_expected)
      then Ok None
      else
        let compressed := slice bytes SEG_HEADER_LEN footer_start in
        let body :=
          if codec =? CODEC_LZ4 then lz4_frame_decompress_bounded compressed body_len
          else if codec =? CODEC_NONE then
            if zlen compressed =? body_len then Some compressed else None
          else None in
        match body with
        | None => Ok None
        | Some body =>
            if negb (zlen body =? body_len) || negb (bool_decide (sha256 body = sha_expected))
            then Ok None
            else Ok (Some (kind, body))
        end.

Definition read_segment_body_with_limits (file : option file_view)
  (max_file_bytes max_body_bytes : Z) : result journal_error (option (Z * list byte)) :=
  v ← ok_or file JournalIo;
  if max_file_bytes <? view_metadata_len v then Err JournalAuthPreflightLimit
  else
    bytes ← read_journal_source_bounded file max_file_bytes;
    decode_segment bytes max_body_bytes.

(** [.ok().flatten()] *)
Definition read_segment_body (file : option file_view) : option (Z * list byte) :=
  result_ok (read_segment_body_with_limits file MAX_JOURNAL_SEGMENT_FILE_BYTES
               MAX_JOURNAL_SEGMENT_BODY_BYTES) ≫= id.

Lemma slice_mid l m r a b : a = length l -> b = (length l + length m)%nat ->
  slice (l ++ m ++ r) a b = m.
Proof.
  intros -> ->. rewrite slice_app_skip by done. apply slice_app_whole; lia.
Qed.
Lemma slice_split bytes a b : (a <= b <= length bytes)%nat ->
  drop a bytes = slice bytes a b ++ drop b bytes.
Proof.
  intros H. unfold slice. rewrite <- (take_drop (b - a) (drop a bytes)) at 1.
  rewrite drop_drop. by replace (a + (b - a))%nat with b by lia.
Qed.
Lemma length_slice bytes a b : (a <= b <= length bytes)%nat ->
  length (slice bytes a b) = (b - a)%nat.
Proof. intros. unfold slice. rewrite length_take_le; [done|rewrite length_drop; lia]. Qed.

Lemma length_segment_header kind codec min max count :
  length (segment_header kind codec min max count) = SEG_HEADER_LEN.
Proof. unfold segment_header. by rewrite !length_app, !length_le_bytes. Qed.

(** The parts of a segment file, read back at the offsets the reader uses. *)
Lemma segment_parts h z s l c :
  length h = SEG_HEADER_LEN -> length s = 32%nat -> length l = 8%nat -> length c = 4%nat ->
  let bytes := h ++ z ++ s ++ l ++ c in
  let fs := (length bytes - SEG_FOOTER_LEN)%nat in
  slice bytes 0 SEG_HEADER_LEN = h /\ slice bytes SEG_HEADER_LEN fs = z /\
  slice bytes fs (fs + 32) = s /\ slice bytes (fs + 32) (fs + 40) = l /\
  slice bytes (fs + 40) (fs + 44) = c /\ (length bytes = 72 + length z)%nat.
Proof.
  intros Hh Hs Hl Hc bytes fs. unfold SEG_HEADER_LEN, SEG_FOOTER_LEN in *.
  assert (length bytes = 72 + length z)%nat as Hb
    by (unfold bytes; rewrite !length_app; lia).
  assert (fs = 28 + length z)%nat as Hfs by (unfold fs; lia). clearbody fs. subst fs.
  unfold bytes. split_and!; [| | | | |done].
  - apply slice_app_whole; lia.
  - apply slice_mid; lia.
  - rewrite app_assoc. apply slice_mid; rewrite length_app; lia.
  - rewrite (app_assoc z), (app_assoc h). apply slice_mid; rewrite !length_app; lia.
  - rewrite (app_assoc s), (app_assoc z), (app_assoc h). rewrite <- (app_nil_r c) at 1.
    apply slice_mid; rewrite !length_app; lia.
Qed.

Lemma lz4_bounded `{!JournalCratesLaws C} body z : lz4_frame_compress body = Some z ->
  lz4_frame_decompress_bounded z (zlen body) = Some body.
Proof.
  intros Hz. unfold lz4_frame_decompress_bounded. rewrite (lz4_roundtrip _ _ Hz).
  cbn [mbind option_bind]. rewrite ztake_all by lia.
  destruct (Z.ltb_spec (zlen body) (zlen body)); [lia|done].
Qed.

(** Decoding what was written, up to the reader's bounds. *)
Lemma decode_segment_bytes `{!JournalCratesLaws C} kind codec min max count body bytes limit :
  0 <= kind < 256 -> codec = CODEC_NONE \/ codec = CODEC_LZ4 -> zlen body < 2 ^ 64 ->
  segment_bytes kind codec min max count body = Some bytes ->
  decode_segment bytes limit =
  if limit <? zlen body then Err JournalAuthPreflightLimit
  else if MAX_JOURNAL_SEGMENT_BODY_BYTES <? zlen body then Ok None
  else Ok (Some (kind, body)).
Proof.
  intros Hk Hc Hbl Hw. unfold segment_bytes in Hw.
  destruct (if codec =? CODEC_LZ4 then _ else _) as [z|] eqn:Hz; [|done].
  apply (inj Some) in Hw. subst bytes.
  set (h := segment_header _ _ _ _ _). pose proof (zlen_nonneg body).
  destruct (segment_parts h z (sha256 body) (le_bytes 8 (zlen body))
    (le_bytes 4 (segment_crc h (sha256 body) (zlen body)))) as (P1 & P2 & P3 & P4 & P5 & P6);
    [apply length_segment_header | apply sha256_length | apply length_le_bytes.. |].
  unfold decode_segment. cbv zeta. fold h. rewrite P1, P2, P3, P4, P5, P6.
  rewrite (bool_decide_eq_true_2 (slice _ 0 4 = SEG_MAGIC)) by reflexivity.
  rewrite (le_val_bytes_small 8) by done.
  rewrite (le_val_bytes_small 4) by (unfold segment_crc; apply crc32c_range).
  destruct (Nat.ltb_spec (72 + length z) (SEG_HEADER_LEN + SEG_FOOTER_LEN));
    [unfold SEG_HEADER_LEN, SEG_FOOTER_LEN in *; lia|].
  cbn [orb negb]. destruct (limit <? zlen body); [done|].
  destruct (MAX_JOURNAL_SEGMENT_BODY_BYTES <? zlen body); [done|].
  rewrite Z.eqb_refl. cbn [negb].
  assert (byte_at (h ++ z ++ sha256 body ++ le_bytes 8 (zlen body) ++
    le_bytes 4 (segment_crc h (sha256 body) (zlen body))) 6 = kind) as ->
    by (apply (byte_of_small kind); lia).
  assert (byte_at (h ++ z ++ sha256 body ++ le_bytes 8 (zlen body) ++
    le_bytes 4 (segment_crc h (sha256 body) (zlen body))) 7 = codec) as ->
    by (apply (byte_of_small codec); destruct Hc; subst; done).
  assert ((if codec =? CODEC_LZ4 then lz4_frame_decompress_bounded z (zlen body)
    else if codec =? CODEC_NONE then if zlen z =? zlen body then Some z else None else None)
    = Some body) as ->.
  { destruct Hc as [->| ->]; cbn in Hz |- *; [injection Hz as ->; by rewrite Z.eqb_refl|].
    by apply lz4_bounded. }
  by rewrite Z.eqb_refl, bool_decide_eq_true_2.
Qed.
(** Within the reader's bounds a sealed body reads back ... *)
Lemma read_segment_bytes `{!JournalCratesLaws C} kind codec min_seq max_seq count body bytes :
  0 <= kind < 256 -> codec = CODEC_NONE \/ codec = CODEC_LZ4 ->
  zlen body <= MAX_JOURNAL_SEGMENT_BODY_BYTES -> zlen bytes <= MAX_JOURNAL_SEGMENT_FILE_BYTES ->
  segment_bytes kind codec min_seq max_seq count body = Some bytes ->
  read_segment_body (Some (quiet_file bytes)) = Some (kind, body).
Proof.
  intros Hk Hc Hb Hf Hw. unfold read_segment_body, read_segment_body_with_limits, read_journal_source_bounded.
    cbn [ok_or mbind result_bind view_metadata_len view_open_len view_bytes quiet_file].
    unfold MAX_JOURNAL_SEGMENT_FILE_BYTES, MAX_JOURNAL_SEGMENT_BODY_BYTES,
      SEG_HEADER_LEN, SEG_FOOTER_LEN in *.
    rewrite ztake_all by (unfold u64_saturating_add, u64_max; lia).
    destruct (Z.ltb_spec (128 * 1024 * 1024 + Z.of_nat (28 + 44)) (zlen bytes)); [lia|].
    cbn [mbind result_bind].
    rewrite (decode_segment_bytes kind codec min_seq max_seq count body) by (done || lia).
    unfold MAX_JOURNAL_SEGMENT_BODY_BYTES.
    by destruct (Z.ltb_spec (128 * 1024 * 1024) (zlen body)); [lia|].
Qed.
(** ... and its header in any case. *)
Lemma read_header_bytes kind codec min_seq max_seq count body bytes :
  0 <= kind < 256 -> 0 <= min_seq < 2 ^ 64 -> 0 <= max_seq < 2 ^ 64 ->
  segment_bytes kind codec min_seq max_seq count body = Some bytes ->
  read_segment_header (Some bytes) =
    Some {| seg_kind := kind; seg_min_seq := min_seq; seg_max_seq := max_seq |}.
Proof.
  intros Hk Hmin Hmax Hw. unfold segment_bytes in Hw. destruct (if codec =? CODEC_LZ4 then _ else _) as [z|]; [|done].
    apply (inj Some) in Hw. subst bytes. unfold read_segment_header. cbn [mbind option_bind].
    rewrite length_app, length_segment_header. cbn -[byte_at slice le_val].
    set (tl := z ++ _). f_equal. f_equal.
    + apply (byte_of_small kind). lia.
    + transitivity (le_val (le_bytes 8 min_seq)); [reflexivity|by apply le_val_bytes_small].
    + transitivity (le_val (le_bytes 8 max_seq)); [reflexivity|by apply le_val_bytes_small].
Qed.
End Segments.

(** ** Properties *)
Section Properties.
Context `{L : JournalCratesLaws}.

(** C18: A crash at any byte of an append sequence loses only the frames that are
    not whole: the walk returns the longest list of leading frames that were
    completely written, and the offset where they end. *)
Theorem walk_frames_torn pre fs n (Hok : Forall frame_ok fs)
  (Hn : (n <= length (encode_frames fs))%nat) :
  exists k, walk_frames (pre ++ take n (encode_frames fs)) (length pre)
            = (take k fs, length (pre ++ encode_frames (take k fs))) /\
    (length (encode_frames (take k fs)) <= n)%nat /\
    (k = length fs \/ (n < length (encode_frames (take (S k) fs)))%nat).
Proof.
  destruct (encode_frames_cut fs n Hok Hn) as (k & tail & E & Ht & Hk).
  exists k. assert (length (take n (encode_frames fs)) = n) as Hl by (by rewrite length_take_le).
  rewrite E in Hl |- *. rewrite length_app in Hl. split; [|split; [lia|done]].
  apply walk_frames_hit; [by apply Forall_take|done].
Qed.

(** Whatever the file holds, the walk reports exactly what stands there: the
    bytes up to the returned offset are the encoding of the reported frames,
    and no frame starts at that offset. *)
Theorem walk_frames_sound bytes start fs last (Hs : (start <= length bytes)%nat)
  (H : walk_frames bytes start = (fs, last)) :
  (start <= last <= length bytes)%nat /\ slice bytes start last = encode_frames fs /\
  Forall frame_ok fs /\ read_frame bytes last = None.
Proof. by apply (walk_fuel_sound (S (length bytes))); [|lia|]. Qed.

(** A sealed segment within the reader's bounds reads back as its kind and its
    body, and its header as the range it was sealed with. *)
Theorem segment_roundtrip kind codec min_seq max_seq count body bytes
  (Hk : 0 <= kind < 256) (Hc : codec = CODEC_NONE \/ codec = CODEC_LZ4)
  (Hmin : 0 <= min_seq < 2 ^ 64) (Hmax : 0 <= max_seq < 2 ^ 64)
  (Hb : zlen body <= MAX_JOURNAL_SEGMENT_BODY_BYTES)
  (Hf : zlen bytes <= MAX_JOURNAL_SEGMENT_FILE_BYTES)
  (Hw : segment_bytes kind codec min_seq max_seq count body = Some bytes) :
  read_segment_body (Some (quiet_file bytes)) = Some (kind, body) /\
  read_segment_header (Some bytes) =
    Some {| seg_kind := kind; seg_min_seq := min_seq; seg_max_seq := max_seq |}.
Proof. split; [by eapply read_segment_bytes|by eapply read_header_bytes]. Qed.

(** The bounds are the reader's alone: a larger body is sealed without an error
    and can never be read back. *)
Theorem segment_oversize_unreadable kind codec min_seq max_seq count body bytes
  (Hk : 0 <= kind < 256) (Hc : codec = CODEC_NONE \/ codec = CODEC_LZ4)
  (Hb : MAX_JOURNAL_SEGMENT_BODY_BYTES < zlen body < 2 ^ 64)
  (Hw : segment_bytes kind codec min_seq max_seq count body = Some bytes) :
  forall view, view_bytes view = bytes -> read_segment_body (Some view) = None.
Proof.
  intros view Hv. unfold read_segment_body, read_segment_body_with_limits,
    read_journal_source_bounded. cbn [ok_or mbind result_bind].
  set (M := MAX_JOURNAL_SEGMENT_FILE_BYTES).
  destruct (M <? view_metadata_len view); [done|].
  destruct (M <? view_open_len view); [done|]. cbv zeta.
  destruct (Z.ltb_spec M (zlen (ztake (u64_saturating_add M 1) (view_bytes view))))
    as [|Hl]; [done|].
  rewrite zlen_ztake in Hl. assert (zlen bytes <= M) as Hbytes.
  { subst. unfold u64_saturating_add, u64_max in Hl.
    assert (M = 134217800) by reflexivity. pose proof (zlen_nonneg (view_bytes view)). lia. }
  rewrite Hv, ztake_all by (unfold u64_saturating_add, u64_max;
    assert (M = 134217800) by reflexivity; lia).
  cbn [mbind result_bind].
  rewrite (decode_segment_bytes kind codec min_seq max_seq count body) by (done || lia).
  by destruct (Z.ltb_spec MAX_JOURNAL_SEGMENT_BODY_BYTES (zlen body)); [|lia].
Qed.

(** The bounded reader never returns more than it was allowed, even when the
    file grows between the metadata and the read. *)
Theorem read_journal_source_bounded_bound file max_bytes bytes
  (H : read_journal_source_bounded file max_bytes = Ok bytes) :
  zlen bytes <= max_bytes /\
  exists v, file = Some v /\ (0 <= max_bytes < u64_max -> bytes = view_bytes v).
Proof.
  unfold read_journal_source_bounded in H. destruct file as [v|]; [|done].
  cbn [ok_or mbind result_bind] in H. destruct (max_bytes <? view_open_len v); [done|].
  cbv zeta in H. destruct (Z.ltb_spec max_bytes
    (zlen (ztake (u64_saturating_add max_bytes 1) (view_bytes v)))) as [|Hl]; [done|].
  injection H as <-. split; [done|]. exists v. split; [done|]. intros Hm.
  apply ztake_all. rewrite zlen_ztake in Hl. unfold u64_saturating_add, u64_max in *.
  pose proof (zlen_nonneg (view_bytes v)). lia.
Qed.
End Properties.

(** ** A concrete checksum, digest and compressor *)

(** CRC-32C (Castagnoli), bit by bit. *)
Fixpoint crc_bits (n : nat) (crc : Z) : Z :=
  match n with
  | O => crc
  | S n' => crc_bits n' (if Z.odd crc then Z.lxor (Z.shiftr crc 1) 2197175160 else Z.shiftr crc 1)
  end.
Definition crc32c_update (crc : Z) (bs : list byte) : Z :=
  (Z.lxor (foldl (fun c b => crc_bits 8 (Z.lxor c (byte_val b))) (Z.lxor crc u32_max) bs) u32_max)
  mod 2 ^ 32.
(** A 32-byte digest: enough for examples, not a cryptographic one. *)
Definition sample_digest (bs : list byte) : list byte :=
  le_bytes 32 (foldl (fun h b => h * 31 + byte_val b + 7) 1 bs).

Definition sample_crates : JournalCrates := {|
  crc32c := crc32c_update 0;
  crc32c_append := crc32c_update;
  sha256 := sample_digest;
  lz4_frame_compress := fun bs => Some bs;
  lz4_frame_decode := fun bs => Some bs;
|}.
#[export] Instance sample_crates_laws : JournalCratesLaws sample_crates.
Proof.
  split.
  - intros bs. cbn. unfold crc32c_update. apply Z.mod_pos_bound. lia.
  - intros c bs. cbn. unfold crc32c_update. apply Z.mod_pos_bound. lia.
  - intros bs. exact (length_le_bytes 32 _).
  - intros bs z. cbn. congruence.
Qed.

Example crc32c_check : crc32c_update 0 (str_bytes "123456789") = 3808858755.
Proof. reflexivity. Qed.

Definition sample_frames : list frame := [(1, str_bytes "ab"); (2, str_bytes "cde")].
Lemma sample_frames_ok : Forall frame_ok sample_frames.
Proof. repeat constructor; cbn; unfold MAX_JOURNAL_FRAME_PAYLOAD_BYTES, zlen; cbn; lia. Qed.

Lemma walk_frames_torn_witness : exists k,
  walk_frames (C := sample_crates)
    (active_header 1 ++ take 30 (encode_frames (C := sample_crates) sample_frames)) 14
  = (take k sample_frames,
     length (active_header 1 ++ encode_frames (C := sample_crates) (take k sample_frames))).
Proof.
  destruct (walk_frames_torn (C := sample_crates) (active_header 1) sample_frames 30) as (k & H & _).
  - exact sample_frames_ok.
  - vm_compute. lia.
  - exists k. exact H.
Defined.

Lemma walk_frames_sound_witness :
  slice (encode_frames (C := sample_crates) sample_frames) 0 37
  = encode_frames (C := sample_crates) sample_frames.
Proof.
  apply (walk_frames_sound (C := sample_crates)
    (encode_frames (C := sample_crates) sample_frames) 0 sample_frames 37).
  - vm_compute. lia.
  - vm_compute. reflexivity.
Defined.

Definition sample_body : list byte := encode_frames (C := sample_crates) sample_frames.
Definition sample_segment : list byte :=
  default [] (segment_bytes (C := sample_crates) SEG_KIND_HISTORY CODEC_LZ4 1 2 2 sample_body).

Lemma segment_roundtrip_witness :
  read_segment_body (C := sample_crates) (Some (quiet_file sample_segment))
  = Some (SEG_KIND_HISTORY, sample_body).
Proof.
  apply (segment_roundtrip (C := sample_crates) SEG_KIND_HISTORY CODEC_LZ4 1 2 2 sample_body).
  - done.
  - by right.
  - lia.
  - lia.
  - vm_compute. discriminate.
  - vm_compute. discriminate.
  - vm_compute. reflexivity.
Defined.

(** A checkpoint body of one byte more than the reader admits. *)
Definition oversize_body : list byte := replicate (Z.to_nat 134217729) Ascii.zero.
Lemma zlen_oversize : zlen oversize_body = 134217729.
Proof. unfold zlen, oversize_body. rewrite length_replicate. lia. Qed.

Definition oversize_segment : list byte :=
  let header := segment_header SEG_KIND_BASE CODEC_NONE 7 7 1 in
  let sha := sample_digest oversize_body in
  header ++ oversize_body ++ sha ++ le_bytes 8 (zlen oversize_body) ++
  le_bytes 4 (segment_crc (C := sample_crates) header sha (zlen oversize_body)).

Lemma segment_oversize_unreadable_witness :
  read_segment_body (C := sample_crates) (Some (quiet_file oversize_segment)) = None.
Proof.
  apply (segment_oversize_unreadable (C := sample_crates) SEG_KIND_BASE CODEC_NONE 7 7 1
    oversize_body oversize_segment).
  - done.
  - by left.
  - rewrite zlen_oversize. done.
  - reflexivity.
  - reflexivity.
Defined.

Lemma read_journal_source_bounded_bound_witness :
  zlen (str_bytes "ab") <= 2.
Proof.
  apply (read_journal_source_bounded_bound (Some (quiet_file (str_bytes "ab"))) 2).
  vm_compute. reflexivity.
Defined.
