(* ===== verification/JournalStore.v ===== *)
(** * The journal on disk: the writer thread, folds, seals and recovery

    [src/src/lib.rs]: the helpers [journal_*] and [write_segment], the writer thread of
    [Storage::open], the repairs made at open and [scan_journal].

    The thread runs over a store of files whose every system call is answered by the
    operating system: it succeeds, it fails (a write after some of its bytes), or the
    machine stops there. Code is of type [disk A]; its error is the store at the crash,
    so a triple's error condition is what holds if the machine stops anywhere.

    Of the active file the store keeps what reads see and what the last successful
    [fsync] made durable; [crash_content] says what a crash may leave of it. Creating,
    truncating, renaming and removing files take effect in order; a segment becomes
    visible only by a rename after its bytes are synced, so segments are plain bytes.
    The names [J<min>.gseg] and [B<frontier>.gseg] are the constructors of [seg_file].
    A missing active file reads as an empty one. *)
From S2P Require Export Monad Journal.
Local Open Scope Z_scope.

(** ** The store *)

Inductive seg_file := JSeg (min_seq : Z) | BSeg (frontier : Z).
#[export] Instance seg_file_eq_dec : EqDecision seg_file.
Proof. solve_decision. Defined.
#[export] Instance seg_file_countable : Countable seg_file.
Proof.
  refine (inj_countable'
    (fun f => match f with JSeg z => inl z | BSeg z => inr z end)
    (fun x => match x with inl z => JSeg z | inr z => BSeg z end) _).
  by intros [].
Defined.

(** What reads see, and what is known to be durable *)
Record file := { f_bytes : list byte; f_synced : list byte }.
(** How the operating system answers a system call *)
Inductive answer := Done | Failed (written : nat).
(** The writer's handle: [append(true)], or a position *)
Inductive handle := HAppend | HAt (position : nat).

(** What the thread tells its clients, and the folds it begins *)
Inductive note :=
| NAck (seq : Z) (payload : list byte)
| NRefuse
| NFold (payload_lines : list byte) (frontier_seq : Z)
| NFolded (ok : bool).

(** What takes a run out of the contract under which acknowledgements are durable:
    a payload or a sequence number no reader accepts, a reset of the active file that
    failed after truncating it, bytes a replaced [BufWriter] still held, a fold at a
    frontier below an acknowledged write. Bookkeeping of the proofs: no code reads it. *)
Inductive fault := FOversized | FReset | FSpilled | FStaleFold.

(** The store: the answers to come, the files, the state of the writer thread, and what
    it said so far. *)
Record store := {
  st_answers : list answer;
  st_active : file;
  st_segs : gmap seg_file (list byte);
  st_tmps : gmap seg_file (list byte);
  st_handle : handle;
  st_buf : list byte;
  st_next_seq : Z;
  st_poisoned : bool;
  st_notes : list note;
  st_fault : option fault;
}.
Notation disk := (SM store store).

Definition set_answers l s := {| st_answers := l; st_active := st_active s; st_segs := st_segs s;
  st_tmps := st_tmps s; st_handle := st_handle s; st_buf := st_buf s; st_next_seq := st_next_seq s;
  st_poisoned := st_poisoned s; st_notes := st_notes s; st_fault := st_fault s |}.
Definition set_active f s := {| st_answers := st_answers s; st_active := f; st_segs := st_segs s;
  st_tmps := st_tmps s; st_handle := st_handle s; st_buf := st_buf s; st_next_seq := st_next_seq s;
  st_poisoned := st_poisoned s; st_notes := st_notes s; st_fault := st_fault s |}.
Definition set_segs m s := {| st_answers := st_answers s; st_active := st_active s; st_segs := m;
  st_tmps := st_tmps s; st_handle := st_handle s; st_buf := st_buf s; st_next_seq := st_next_seq s;
  st_poisoned := st_poisoned s; st_notes := st_notes s; st_fault := st_fault s |}.
Definition set_tmps m s := {| st_answers := st_answers s; st_active := st_active s; st_segs := st_segs s;
  st_tmps := m; st_handle := st_handle s; st_buf := st_buf s; st_next_seq := st_next_seq s;
  st_poisoned := st_poisoned s; st_notes := st_notes s; st_fault := st_fault s |}.
Definition set_writer h buf s := {| st_answers := st_answers s; st_active := st_active s;
  st_segs := st_segs s; st_tmps := st_tmps s; st_handle := h; st_buf := buf;
  st_next_seq := st_next_seq s; st_poisoned := st_poisoned s; st_notes := st_notes s;
  st_fault := st_fault s |}.
Definition set_next_seq n s := {| st_answers := st_answers s; st_active := st_active s;
  st_segs := st_segs s; st_tmps := st_tmps s; st_handle := st_handle s; st_buf := st_buf s;
  st_next_seq := n; st_poisoned := st_poisoned s; st_notes := st_notes s; st_fault := st_fault s |}.
Definition set_poisoned p s := {| st_answers := st_answers s; st_active := st_active s;
  st_segs := st_segs s; st_tmps := st_tmps s; st_handle := st_handle s; st_buf := st_buf s;
  st_next_seq := st_next_seq s; st_poisoned := p; st_notes := st_notes s; st_fault := st_fault s |}.
Definition add_notes l s := {| st_answers := st_answers s; st_active := st_active s;
  st_segs := st_segs s; st_tmps := st_tmps s; st_handle := st_handle s; st_buf := st_buf s;
  st_next_seq := st_next_seq s; st_poisoned := st_poisoned s; st_notes := st_notes s ++ l;
  st_fault := st_fault s |}.
(** The first fault stays. *)
Definition set_fault (f : fault) s := {| st_answers := st_answers s; st_active := st_active s;
  st_segs := st_segs s; st_tmps := st_tmps s; st_handle := st_handle s; st_buf := st_buf s;
  st_next_seq := st_next_seq s; st_poisoned := st_poisoned s; st_notes := st_notes s;
  st_fault := match st_fault s with None => Some f | some => some end |}.

Definition modify (f : store -> store) : disk unit := fun s => Ok (tt, f s).
Definition reads {A} (f : store -> A) : disk A := fun s => Ok (f s, s).

(** ** System calls *)

(** The answer to a system call; without one, the machine stops. *)
Definition syscall : disk answer := fun s =>
  match st_answers s with
  | [] => Err s
  | a :: l => Ok (a, set_answers l s)
  end.
(** A call that succeeds or fails as a whole *)
Definition attempt : disk bool :=
  a ← syscall; mret (match a with Done => true | Failed _ => false end).

(** Writing at a position; a hole is filled with zeros. *)
Definition put_at (pos : nat) (data bytes : list byte) : list byte :=
  take pos (bytes ++ replicate (pos - length bytes) (byte_of 0)) ++ data ++
  drop (pos + length data) bytes.
Definition file_write (data : list byte) (s : store) : store :=
  match st_handle s with
  | HAppend =>
      set_active {| f_bytes := f_bytes (st_active s) ++ data; f_synced := f_synced (st_active s) |} s
  | HAt pos =>
      set_writer (HAt (pos + length data)) (st_buf s)
        (set_active {| f_bytes := put_at pos data (f_bytes (st_active s));
                       f_synced := f_synced (st_active s) |} s)
  end.
(** [File::write_all]: whether it succeeded, and the bytes it did not write. *)
Definition raw_write (data : list byte) : disk (bool * list byte) :=
  a ← syscall;
  match a with
  | Done => modify (file_write data) ;; mret (true, [])
  | Failed n => modify (file_write (take n data)) ;; mret (false, drop n data)
  end.
(** [File::sync_all] *)
Definition sync_all : disk bool :=
  ok ← attempt;
  if ok : bool then
    modify (fun s => set_active {| f_bytes := f_bytes (st_active s);
                                   f_synced := f_bytes (st_active s) |} s) ;; mret true
  else mret false.

(** ** [BufWriter] *)

Definition BUF_CAPACITY : Z := 128 * 1024.
Definition set_buf (buf : list byte) : disk unit := modify (fun s => set_writer (st_handle s) buf s).
(** [flush]: what could not be written stays in the buffer. *)
Definition flush : disk bool :=
  buf ← reads st_buf;
  match buf with
  | [] => mret true
  | _ => '(ok, rest) ← raw_write buf; set_buf rest ;; mret ok
  end.
Definition write_all (data : list byte) : disk bool :=
  buf ← reads st_buf;
  if zlen data <? BUF_CAPACITY - zlen buf then set_buf (buf ++ data) ;; mret true
  else
    ok ← (if BUF_CAPACITY - zlen buf <? zlen data then flush else mret true);
    if negb ok then mret false
    else if BUF_CAPACITY <=? zlen data then '(ok, _) ← raw_write data; mret ok
    else buf ← reads st_buf; set_buf (buf ++ data) ;; mret true.
(** Replacing the writer drops the old one, which flushes its buffer as far as it can. *)
Definition replace_writer (h : handle) : disk unit :=
  buf ← reads st_buf;
  (match buf with [] => mret tt | _ => modify (set_fault FSpilled) ;; flush ;; mret tt end) ;;
  modify (set_writer h []).

(** [write_all(..).is_ok() && flush().is_ok() && sync_all().is_ok()] *)
Definition write_synced (data : list byte) : disk bool :=
  ok ← write_all data;
  if negb ok then mret false
  else
    ok ← flush;
    if negb ok then mret false else sync_all.

(** ** Segments *)

Section Store.
Context `{C : JournalCrates}.

(** [write_segment]: its five writes to the temporary file are one here, which fails
    after any number of bytes; the directory's [fsync] is best-effort in the code. *)
Definition write_segment (name : seg_file) (kind codec min_seq max_seq count : Z)
  (body : list byte) : disk bool :=
  match segment_bytes kind codec min_seq max_seq count body with
  | None => mret false
  | Some bytes =>
      created ← attempt;
      if negb created then mret false
      else
        a ← syscall;
        match a with
        | Failed n => modify (fun s => set_tmps (<[name := take n bytes]> (st_tmps s)) s) ;; mret false
        | Done =>
            modify (fun s => set_tmps (<[name := bytes]> (st_tmps s)) s) ;;
            synced ← attempt;
            if negb synced then mret false
            else
              renamed ← attempt;
              if negb renamed then mret false
              else
                modify (fun s => set_tmps (delete name (st_tmps s))
                                  (set_segs (<[name := bytes]> (st_segs s)) s)) ;;
                mret true
        end
  end.

(** ** The active file *)

(** [bytes.len() < ACTIVE_HEADER_LEN || bytes[0..4] != ACTIVE_MAGIC] *)
Definition no_header (bytes : list byte) : bool :=
  (length bytes <? ACTIVE_HEADER_LEN)%nat || negb (bool_decide (slice bytes 0 4 = ACTIVE_MAGIC)).
(** The frames of an active file, and where they end *)
Definition active_walk (bytes : list byte) : list frame * nat :=
  if no_header bytes then ([], 0%nat) else walk_frames bytes ACTIVE_HEADER_LEN.
Definition active_frames (bytes : list byte) : list frame := (active_walk bytes).1.

(** [journal_open_active]: [None] is [false]; the file's length is taken to be readable. *)
Definition journal_open_active (next_seq : Z) : disk bool :=
  opened ← attempt;
  if negb opened then mret false
  else
    modify (set_writer HAppend []) ;;
    bytes ← reads (fun s => f_bytes (st_active s));
    match bytes with
    | [] =>
        ok ← write_synced (active_header next_seq);
        if ok : bool then mret true else flush ;; mret false
    | _ => mret true
    end.

Definition journal_reset_active (next_seq : Z) : disk bool :=
  opened ← attempt;
  if negb opened then mret false
  else
    modify (fun s => set_active {| f_bytes := []; f_synced := f_synced (st_active s) |} s) ;;
    replace_writer (HAt 0) ;;
    ok ← write_synced (active_header next_seq);
    (if ok : bool then mret tt else modify (set_fault FReset)) ;;
    reopened ← attempt;
    (if reopened : bool then replace_writer HAppend else mret tt) ;;
    mret ok.

(** The frames of the walk: their least and greatest sequence numbers *)
Definition min_seq_of (fs : list frame) : Z := foldl (fun m f => Z.min m f.1) u64_max fs.
Definition max_seq_of (fs : list frame) : Z := foldl (fun m f => Z.max m f.1) 0 fs.

Definition journal_seal_active (next_seq : Z) : disk bool :=
  flush ;; sync_all ;;
  readable ← attempt;
  if negb readable then mret false
  else
    bytes ← reads (fun s => f_bytes (st_active s));
    if (length bytes <=? ACTIVE_HEADER_LEN)%nat || no_header bytes then mret true
    else
      let '(fs, valid_end) := walk_frames bytes ACTIVE_HEADER_LEN in
      match fs with
      | [] => mret true
      | _ =>
          sealed ← write_segment (JSeg (min_seq_of fs)) SEG_KIND_HISTORY CODEC_LZ4
                     (min_seq_of fs) (max_seq_of fs) (zlen fs)
                     (slice bytes ACTIVE_HEADER_LEN valid_end);
          if negb sealed then mret false else journal_reset_active next_seq
      end.

(** The nonempty lines of a checkpoint, each framed at the frontier *)
Definition checkpoint_frames (payload_lines : list byte) (frontier_seq : Z) : list frame :=
  (fun line => (frontier_seq, line)) <$>
  List.filter (fun line => match line with [] => false | _ => true end)
    (split_bytes (byte_of 10) payload_lines).

(** Removing every other segment; a failure to remove one is ignored. *)
Definition remove_segments (keep : seg_file) : disk unit :=
  names ← reads (fun s => (map_to_list (st_segs s)).*1);
  mfor (fun _ name =>
      if bool_decide (name = keep) then mret tt
      else
        removed ← attempt;
        if removed : bool then modify (fun s => set_segs (delete name (st_segs s)) s) else mret tt)
    tt names.

Definition frame_okb (f : frame) : bool :=
  (0 <=? f.1) && (f.1 <=? u64_max) && (zlen f.2 <=? MAX_JOURNAL_FRAME_PAYLOAD_BYTES).
(** Whether a fold at [frontier] would cover every write acknowledged so far *)
Definition covers_acks (frontier : Z) (notes : list note) : bool :=
  forallb (fun n => match n with NAck seq _ => seq <=? frontier | _ => true end) notes.

Definition journal_fold (payload_lines : list byte) (frontier_seq next_seq : Z) : disk bool :=
  modify (fun s =>
    let s := if covers_acks frontier_seq (st_notes s) then s else set_fault FStaleFold s in
    let s := if forallb frame_okb ((frontier_seq, []) :: checkpoint_frames payload_lines frontier_seq)
             then s else set_fault FOversized s in
    add_notes [NFold payload_lines frontier_seq] s) ;;
  flush ;; sync_all ;;
  let fs := checkpoint_frames payload_lines frontier_seq in
  sealed ← write_segment (BSeg frontier_seq) SEG_KIND_BASE CODEC_LZ4 frontier_seq frontier_seq
             (zlen fs) (encode_frames fs);
  if negb sealed then mret false
  else
    listed ← attempt;
    (if listed : bool then remove_segments (BSeg frontier_seq) else mret tt) ;;
    journal_reset_active next_seq.

(** ** The writer thread *)

(** [WalMsg]; an event that does not serialize is [None]. *)
Inductive wal_msg :=
| Append (json : option (list byte))
| Checkpoint (payload_lines : list byte) (frontier_seq : Z).

(** One append of a batch: refused after a failure; an event that does not serialize
    is refused alone. *)
Definition append_frame (io_ok : bool) (batch : list frame) (json : option (list byte))
  : disk (bool * list frame) :=
  if negb io_ok then modify (add_notes [NRefuse]) ;; mret (false, batch)
  else
    match json with
    | None => modify (add_notes [NRefuse]) ;; mret (true, batch)
    | Some payload =>
        seq ← reads st_next_seq;
        modify (fun s =>
          let s := if frame_okb (seq, payload) then s else set_fault FOversized s in
          set_next_seq (seq + 1) s) ;;
        ok ← write_all (encode_frame [] seq payload);
        mret (ok, batch ++ [(seq, payload)])
    end.

(** The micro-batch: messages that are there in time, until a checkpoint. *)
Fixpoint drain (queue : list wal_msg) (io_ok : bool) (batch : list frame)
  : disk (bool * list frame * option (list byte * Z) * list wal_msg) :=
  match queue with
  | [] => mret (io_ok, batch, None, [])
  | msg :: queue' =>
      if (1024 <=? length batch)%nat then mret (io_ok, batch, None, queue)
      else
        in_time ← attempt;
        if negb in_time then mret (io_ok, batch, None, queue)
        else
          match msg with
          | Append json => '(io_ok, batch) ← append_frame io_ok batch json; drain queue' io_ok batch
          | Checkpoint lines frontier => mret (io_ok, batch, Some (lines, frontier), queue')
          end
  end.

(** The end of a batch: flush, sync, poison, acknowledge. *)
Definition finish_batch (io_ok : bool) (batch : list frame) : disk unit :=
  ok ← (if io_ok then ok ← flush; if negb ok then mret false else sync_all else mret false);
  modify (fun s =>
    let s := if negb ok && negb (bool_decide (batch = [])) then set_poisoned true s else s in
    add_notes ((fun f => if ok : bool then NAck f.1 f.2 else NRefuse) <$> batch) s).

Definition run_fold (payload_lines : list byte) (frontier_seq : Z) : disk unit :=
  next_seq ← reads st_next_seq;
  ok ← journal_fold payload_lines frontier_seq next_seq;
  modify (fun s => add_notes [NFolded ok] (if ok then set_poisoned false s else s)).

(** [journal_active_len]: an unreadable length is zero. *)
Definition maybe_seal (seal_threshold : Z) : disk unit :=
  known ← attempt;
  bytes ← reads (fun s => f_bytes (st_active s));
  if known && (seal_threshold <? zlen bytes) then
    next_seq ← reads st_next_seq;
    journal_seal_active next_seq ;; mret tt
  else mret tt.

(** One turn of the loop, from a message taken off the channel *)
Definition handle_msg (seal_threshold : Z) (msg : wal_msg) (queue : list wal_msg)
  : disk (list wal_msg) :=
  match msg with
  | Append json =>
      poisoned ← reads st_poisoned;
      '(io_ok, batch) ← append_frame (negb poisoned) [] json;
      '(io_ok, batch, pending, queue) ← drain queue io_ok batch;
      finish_batch io_ok batch ;;
      match pending with
      | Some (lines, frontier) => run_fold lines frontier
      | None => maybe_seal seal_threshold
      end ;;
      mret queue
  | Checkpoint lines frontier => run_fold lines frontier ;; mret queue
  end.

(** The loop until the channel closes; every turn takes a message off the queue, so
    its length is enough fuel. *)
Fixpoint writer_loop (seal_threshold : Z) (fuel : nat) (queue : list wal_msg) : disk unit :=
  match fuel, queue with
  | S fuel', msg :: queue' =>
      queue ← handle_msg seal_threshold msg queue'; writer_loop seal_threshold fuel' queue
  | _, _ => mret tt
  end.

(** Without the active file the thread refuses everything. *)
Definition refuse_msg (msg : wal_msg) : note :=
  match msg with Append _ => NRefuse | Checkpoint _ _ => NFolded false end.
Definition writer_thread (seal_threshold : Z) (queue : list wal_msg) : disk unit :=
  next_seq ← reads st_next_seq;
  opened ← journal_open_active next_seq;
  if opened : bool then writer_loop seal_threshold (length queue) queue
  else modify (add_notes (refuse_msg <$> queue)).

(** ** Opening after a crash *)

(** [journal_truncate_torn_active] on the bytes of the active file *)
Definition truncate_torn (bytes : list byte) : list byte := take (active_walk bytes).2 bytes.

(** [journal_list_segments], of the files and of what a directory lists *)
Definition seg_order (a b : SegmentInfo * list byte) : comparison :=
  cmp_pair Z.compare Z.compare (seg_min_seq a.1, seg_max_seq a.1) (seg_min_seq b.1, seg_max_seq b.1).
Definition journal_list_segments (segs : gmap seg_file (list byte))
  : list (SegmentInfo * list byte) :=
  sort_by seg_order
    (omap (fun e => (fun info => (info, e.2)) <$> read_segment_header (Some e.2)) (map_to_list segs)).
Definition base_frontier (segs : gmap seg_file (list byte)) : Z :=
  foldl Z.max 0 (seg_max_seq <$> List.filter (fun i => seg_kind i =? SEG_KIND_BASE)
                                  (journal_list_segments segs).*1).

(** [journal_truncate_active_overlap]; its loop is the walk of the frames. *)
Definition truncate_overlap (segs : gmap seg_file (list byte)) (bytes : list byte) : list byte :=
  let frontier := base_frontier segs in
  if frontier =? 0 then bytes
  else if no_header bytes then bytes
  else
    let fs := (walk_frames bytes ACTIVE_HEADER_LEN).1 in
    if existsb (fun f => f.1 <=? frontier) fs then
      active_header (u64_saturating_add frontier 1) ++
      encode_frames (List.filter (fun f => frontier <? f.1) fs)
    else bytes.

Definition journal_max_seq (segs : gmap seg_file (list byte)) (bytes : list byte) : Z :=
  foldl Z.max (foldl Z.max 0 (seg_max_seq <$> (journal_list_segments segs).*1))
    (fst <$> active_frames bytes).

(** The journal's part of [Storage::open] on what a crash left: temporary files go, the
    active file loses its torn tail and what a base covers, the counter starts past
    every frame. Reads and these repairs are taken to succeed. *)
Definition journal_recover (answers : list answer) (left : list byte) (s : store) : store :=
  let bytes := truncate_overlap (st_segs s) (truncate_torn left) in
  {| st_answers := answers;
     st_active := {| f_bytes := bytes; f_synced := bytes |};
     st_segs := st_segs s; st_tmps := ∅; st_handle := HAppend; st_buf := [];
     st_next_seq := journal_max_seq (st_segs s) bytes + 1; st_poisoned := false;
     st_notes := st_notes s; st_fault := st_fault s |}.

(** What a crash may leave of a file: what was synced, or a prefix of what was written
    that has at least what was synced. *)
Definition crash_content (f : file) (bytes : list byte) : Prop :=
  bytes = f_synced f \/
  bytes `prefix_of` f_bytes f /\
  (f_synced f `prefix_of` f_bytes f -> f_synced f `prefix_of` bytes).

(** ** Replay *)

Inductive JournalEventOrigin := OriginLegacy | OriginBase | OriginHistory | OriginActive.

(** [scan_journal_with_origin] without a budget and without an unmigrated legacy file:
    the payloads it gives to [serde_json], in the order it reads them. *)
Definition after_cursor (from_seq : option Z) (seq : Z) : bool :=
  match from_seq with Some cursor => cursor <? seq | None => true end.
Definition scan_segment (from_seq : option Z) (include_legacy : bool)
  (seg : SegmentInfo * list byte) : list (Z * JournalEventOrigin * list byte) :=
  let body := snd <$> read_segment_body (Some (quiet_file seg.2)) in
  if seg_kind seg.1 =? SEG_KIND_LEGACY_JSONL then
    if include_legacy then
      (fun line => (0, OriginLegacy, line)) <$>
      List.filter (fun line => match line with [] => false | _ => true end)
        (split_bytes (byte_of 10) (default [] body))
    else []
  else if negb (after_cursor from_seq (seg_max_seq seg.1)) then []
  else
    (fun f => (f.1, if seg_kind seg.1 =? SEG_KIND_BASE then OriginBase else OriginHistory, f.2)) <$>
    List.filter (fun f => after_cursor from_seq f.1)
      (match body with Some body => (walk_frames body 0).1 | None => [] end).
Definition scan_journal (from_seq : option Z) (include_legacy : bool)
  (segs : gmap seg_file (list byte)) (bytes : list byte)
  : list (Z * JournalEventOrigin * list byte) :=
  concat (scan_segment from_seq include_legacy <$> journal_list_segments segs) ++
  ((fun f => (f.1, OriginActive, f.2)) <$>
   List.filter (fun f => (base_frontier segs <? f.1) && after_cursor from_seq f.1)
     (if (length bytes <=? ACTIVE_HEADER_LEN)%nat then [] else active_frames bytes)).
End Store.
