(* ===== verification/JournalSafety.v ===== *)
(** * Acknowledged writes survive crashes

    The safety of [JournalStore.v]: an invariant of the store that every system call
    preserves, whatever the operating system answers and wherever the machine stops. *)
From S2P Require Export JournalStore.
Local Open Scope Z_scope.

(** ** The frames of a file that grows *)

Section ActiveFrames.
Context `{L : JournalCratesLaws}.

Lemma slice_app_l l k a b : (b <= length l)%nat -> slice (l ++ k) a b = slice l a b.
Proof.
  intros Hb. unfold slice. destruct (decide (a <= length l)%nat) as [Ha|Ha].
  - rewrite drop_app_le by done. rewrite take_app_le; [done|]. rewrite length_drop. lia.
  - replace (b - a)%nat with 0%nat by lia. by rewrite !take_0.
Qed.
Lemma read_frame_extend bytes k off r : read_frame bytes off = Some r -> read_frame (bytes ++ k) off = Some r.
Proof.
  unfold read_frame, FRAME_HEADER_LEN. rewrite length_app. unfold zlen. rewrite length_app.
  destruct (Nat.ltb_spec (length bytes) (off + 16)); [done|].
  destruct (Nat.ltb_spec (length bytes + length k) (off + 16)); [lia|].
  rewrite !(slice_app_l bytes k) by lia. set (len := le_val (slice bytes off (off + 4))).
  destruct (Z.ltb_spec MAX_JOURNAL_FRAME_PAYLOAD_BYTES len); [done|].
  destruct (Z.ltb_spec (Z.of_nat (length bytes)) (Z.of_nat (off + 16) + len)); [done|].
  destruct (Z.ltb_spec (Z.of_nat (length bytes + length k)) (Z.of_nat (off + 16) + len)); [lia|].
  cbn [orb]. pose proof (le_val_bound (slice bytes off (off + 4))).
  by rewrite (slice_app_l bytes k (off + 12)), (slice_app_l bytes k (off + 16)) by lia.
Qed.
Lemma walk_fuel_extend fuel fuel' bytes k off : (fuel <= fuel')%nat ->
  (walk_frames_fuel fuel bytes off).1 `prefix_of` (walk_frames_fuel fuel' (bytes ++ k) off).1.
Proof.
  revert fuel' off; induction fuel as [|fuel IH]; intros [|fuel'] off Hf; [apply prefix_nil..|lia|].
  cbn [walk_frames_fuel]. destruct (read_frame bytes off) as [[f off']|] eqn:E; [|apply prefix_nil].
  rewrite (read_frame_extend _ _ _ _ E). specialize (IH fuel' off' ltac:(lia)).
  destruct (walk_frames_fuel fuel bytes off') as [fs l], (walk_frames_fuel fuel' _ off') as [fs' l'].
  cbn [fst] in *. by apply prefix_cons.
Qed.
Lemma no_header_extend bytes k : no_header bytes = false -> no_header (bytes ++ k) = false.
Proof.
  unfold no_header, ACTIVE_HEADER_LEN. rewrite length_app. intros [Hl Hm]%orb_false_iff.
  apply Nat.ltb_ge in Hl. apply orb_false_iff. split; [apply Nat.ltb_ge; lia|].
  by rewrite slice_app_l by lia.
Qed.
Lemma active_frames_prefix c c' : c `prefix_of` c' -> active_frames c `prefix_of` active_frames c'.
Proof.
  intros [k ->]. unfold active_frames, active_walk. destruct (no_header c) eqn:E; [apply prefix_nil|].
  rewrite (no_header_extend _ _ E). apply walk_fuel_extend. rewrite length_app. lia.
Qed.

Lemma length_active_header n : length (active_header n) = ACTIVE_HEADER_LEN.
Proof. unfold active_header. by rewrite !length_app, !length_le_bytes. Qed.
Lemma active_header_ok n k : no_header (active_header n ++ k) = false.
Proof.
  unfold no_header. rewrite length_app, length_active_header.
  destruct (Nat.ltb_spec (ACTIVE_HEADER_LEN + length k) ACTIVE_HEADER_LEN); [lia|]. cbn [orb].
  by rewrite bool_decide_eq_true_2.
Qed.
Lemma active_walk_frames n fs : Forall frame_ok fs ->
  active_walk (active_header n ++ encode_frames fs) =
  (fs, length (active_header n ++ encode_frames fs)).
Proof.
  intros Hok. unfold active_walk. rewrite active_header_ok.
  rewrite <- (length_active_header n). rewrite <- (app_nil_r (encode_frames fs)) at 1.
  by apply walk_frames_hit.
Qed.
Lemma active_frames_of n fs : Forall frame_ok fs ->
  active_frames (active_header n ++ encode_frames fs) = fs.
Proof. intros Hok. unfold active_frames. by rewrite active_walk_frames. Qed.
Lemma active_frames_short c : (length c <= ACTIVE_HEADER_LEN)%nat -> active_frames c = [].
Proof.
  intros Hl. unfold active_frames, active_walk. destruct (no_header c); [done|].
  unfold walk_frames. cbn [walk_frames_fuel]. unfold read_frame, ACTIVE_HEADER_LEN, FRAME_HEADER_LEN in *.
  by destruct (Nat.ltb_spec (length c) (14 + 16)); [|lia].
Qed.
Lemma prefix_frames n fs c : Forall frame_ok fs ->
  c `prefix_of` active_header n ++ encode_frames fs -> active_frames c `prefix_of` fs.
Proof. intros Hok Hc. rewrite <- (active_frames_of n fs Hok). by apply active_frames_prefix. Qed.
Lemma prefix_header n c : c `prefix_of` active_header n -> active_frames c = [].
Proof.
  intros Hc. apply active_frames_short. rewrite <- (length_active_header n). by apply prefix_length.
Qed.

(** The body a seal takes from the active file holds its frames. *)
Lemma body_frames bytes fs last : no_header bytes = false ->
  walk_frames bytes ACTIVE_HEADER_LEN = (fs, last) ->
  slice bytes ACTIVE_HEADER_LEN last = encode_frames fs /\ Forall frame_ok fs /\
  (ACTIVE_HEADER_LEN <= last <= length bytes)%nat.
Proof.
  intros Hh Hw. apply orb_false_iff in Hh as [Hl%Nat.ltb_ge _].
  apply (walk_fuel_sound (S (length bytes))) in Hw as (Hb & Hs & Hok & _); [done|lia|lia].
Qed.
Lemma walk_body fs : Forall frame_ok fs -> (walk_frames (encode_frames fs) 0).1 = fs.
Proof.
  intros Hok. pose proof (walk_frames_hit fs [] [] Hok read_frame_nil) as Hw.
  cbn [app length] in Hw. rewrite app_nil_r in Hw. by rewrite Hw.
Qed.
End ActiveFrames.

(** ** System calls that only move bytes *)

Definition handle_ok (s : store) : Prop :=
  st_handle s = HAppend \/ st_handle s = HAt (length (f_bytes (st_active s))).
(** All the bytes of the active file, those in the writer's buffer included *)
Definition total_bytes (s : store) : list byte := f_bytes (st_active s) ++ st_buf s.

(** [s'] is [s] after answers were used, temporary files changed and bytes of the
    buffer reached the file. *)
Record moved (s s' : store) : Prop := {
  moved_synced : f_synced (st_active s') = f_synced (st_active s);
  moved_segs : st_segs s' = st_segs s;
  moved_next : st_next_seq s' = st_next_seq s;
  moved_poisoned : st_poisoned s' = st_poisoned s;
  moved_notes : st_notes s' = st_notes s;
  moved_fault : st_fault s' = st_fault s;
  moved_bytes : handle_ok s -> handle_ok s' /\
    f_bytes (st_active s) `prefix_of` f_bytes (st_active s') /\ total_bytes s' = total_bytes s;
}.
#[export] Instance moved_pre : PreOrder moved.
Proof.
  split.
  - intros s. by split.
  - intros s1 s2 s3 [A1 A2 A3 A4 A5 A6 A7] [B1 B2 B3 B4 B5 B6 B7]. split; try congruence.
    intros (H1 & H2 & H3)%A7. destruct (B7 H1) as (H4 & H5 & H6).
    split_and!; [done|by etrans|congruence].
Qed.
Definition moving {A} (m : disk A) (Q : A -> store -> Prop) : Prop :=
  forall s, match m s with Ok (a, s') => moved s s' /\ Q a s' | Err s' => moved s s' end.

Lemma moving_ret {A} (a : A) (Q : A -> store -> Prop) : (forall s, Q a s) -> moving (mret a) Q.
Proof. intros HQ s. by split. Qed.
Lemma moving_bind {A B} (m : disk A) (f : A -> disk B) (Q : A -> store -> Prop) R :
  moving m Q -> (forall a s, Q a s -> match f a s with Ok (b, s') => moved s s' /\ R b s' | Err s' => moved s s' end) ->
  moving (m ≫= f) R.
Proof.
  intros Hm Hf s. specialize (Hm s). rewrite sm_bind_eq. destruct (m s) as [[a t]|t]; [|done].
  destruct Hm as [Ht Ha]. specialize (Hf a t Ha). destruct (f a t) as [[b u]|u].
  - destruct Hf as [Hu Hr]. split; [by etrans|done].
  - by etrans.
Qed.
Lemma moved_answers l s : moved s (set_answers l s).
Proof. by split. Qed.
Lemma moved_tmps m s : moved s (set_tmps m s).
Proof. by split. Qed.
Lemma syscall_moving : moving syscall (fun _ _ => True).
Proof. intros s. unfold syscall. destruct (st_answers s); [done|]. split; [apply moved_answers|done]. Qed.
Lemma attempt_moving : moving attempt (fun _ _ => True).
Proof. apply (moving_bind _ _ _ _ syscall_moving). intros a s _. by split. Qed.

Lemma put_at_end data bytes : put_at (length bytes) data bytes = bytes ++ data.
Proof.
  unfold put_at. rewrite Nat.sub_diag. cbn [replicate]. rewrite app_nil_r, take_ge by lia.
  by rewrite drop_ge, app_nil_r by lia.
Qed.
(** Under a good handle a write appends. *)
Lemma file_write_append data s : handle_ok s ->
  handle_ok (file_write data s) /\
  f_bytes (st_active (file_write data s)) = f_bytes (st_active s) ++ data /\
  st_buf (file_write data s) = st_buf s.
Proof.
  intros Hh. unfold file_write, handle_ok in *. destruct (st_handle s) as [|pos] eqn:E.
  - cbn. rewrite E. auto.
  - destruct Hh as [Hh|[= ->]]; [done|]. cbn. rewrite put_at_end, length_app. auto.
Qed.
Lemma file_write_rest data s :
  f_synced (st_active (file_write data s)) = f_synced (st_active s) /\
  st_segs (file_write data s) = st_segs s /\ st_next_seq (file_write data s) = st_next_seq s /\
  st_poisoned (file_write data s) = st_poisoned s /\ st_notes (file_write data s) = st_notes s /\
  st_fault (file_write data s) = st_fault s.
Proof. unfold file_write. by destruct (st_handle s). Qed.
(** The buffer's head, written, with the rest kept *)
Lemma moved_write data rest s : st_buf s = data ++ rest ->
  moved s (set_writer (st_handle (file_write data s)) rest (file_write data s)).
Proof.
  intros Hb. destruct (file_write_rest data s) as (E1 & E2 & E3 & E4 & E5 & E6).
  split; [done..|]. intros Hh. destruct (file_write_append data s Hh) as (H1 & H2 & H3).
  split_and!.
  - exact H1.
  - cbn. rewrite H2. by apply prefix_app_r.
  - unfold total_bytes. cbn. by rewrite H2, Hb, <- (assoc app).
Qed.
Lemma flush_moving : moving flush (fun ok s => ok = true -> st_buf s = []).
Proof.
  intros s. unfold flush. rewrite sm_bind_eq. cbn [reads].
  destruct (st_buf s) as [|b buf] eqn:Hb; [done|]. rewrite <- Hb.
  unfold raw_write. rewrite !sm_bind_eq. unfold syscall. destruct (st_answers s) as [|a l]; [done|].
  assert (forall data rest, st_buf s = data ++ rest ->
    moved s (set_writer (st_handle (file_write data (set_answers l s))) rest
               (file_write data (set_answers l s)))) as Hm.
  { intros data rest Hd. transitivity (set_answers l s); [apply moved_answers|].
    by apply moved_write. }
  destruct a as [|n]; cbn.
  - split; [|done]. apply Hm. by rewrite app_nil_r.
  - split; [|done]. apply Hm. by rewrite take_drop.
Qed.

(** ** The invariant *)

Section Safety.
Context `{L : JournalCratesLaws}.

(** A frame of the current log: accepted by readers, numbered below the counter. *)
Definition log_ok (next_seq : Z) (f : frame) : Prop := frame_ok f /\ 0 < f.1 < next_seq.
(** A history segment with the frames it was sealed from *)
Definition history_segment (m : Z) (fs : list frame) (bytes : list byte) : Prop :=
  segment_bytes SEG_KIND_HISTORY CODEC_LZ4 m (max_seq_of fs) (zlen fs) (encode_frames fs) = Some bytes /\
  Forall frame_ok fs /\ fs <> [] /\ m = min_seq_of fs.
(** A base segment with the checkpoint it folds *)
Definition base_segment (lines : list byte) (frontier : Z) (bytes : list byte) : Prop :=
  let fs := checkpoint_frames lines frontier in
  segment_bytes SEG_KIND_BASE CODEC_LZ4 frontier frontier (zlen fs) (encode_frames fs) = Some bytes /\
  Forall frame_ok fs /\ 0 <= frontier < 2 ^ 64.
(** The legacy log, sealed as segment zero *)
Definition legacy_segment (m : Z) (bytes : list byte) : Prop :=
  m = 0 /\ exists body, segment_bytes SEG_KIND_LEGACY_JSONL CODEC_LZ4 0 0 0 body = Some bytes.

Definition seg_ok (notes : list note) (name : seg_file) (bytes : list byte) : Prop :=
  match name with
  | JSeg m => (exists fs, history_segment m fs bytes) \/ legacy_segment m bytes
  | BSeg frontier => exists lines, NFold lines frontier ∈ notes /\ base_segment lines frontier bytes
  end.

(** Where an acknowledged frame is kept: in the durable part of the active file; in a
    history segment that no later seal overwrites; or it is covered by a base. *)
Definition in_history (log : list frame) (s : store) (f : frame) : Prop :=
  exists m fs bytes, st_segs s !! JSeg m = Some bytes /\ history_segment m fs bytes /\ f ∈ fs /\
    m < st_next_seq s /\ Forall (fun g => m < g.1) log /\
    (f ∈ active_frames (f_synced (st_active s)) \/
     Forall (fun g => m < g.1) (active_frames (f_synced (st_active s)))).
Definition in_base (s : store) (f : frame) : Prop :=
  exists frontier bytes, st_segs s !! BSeg frontier = Some bytes /\ f.1 <= frontier.
Definition in_active (s : store) (f : frame) : Prop :=
  f_synced (st_active s) `prefix_of` f_bytes (st_active s) /\
  f ∈ active_frames (f_synced (st_active s)).
Definition kept (log : list frame) (s : store) (f : frame) : Prop :=
  in_active s f \/ in_history log s f \/ in_base s f.

(** A file the thread wrote, cut anywhere *)
Definition clean_file (next_seq : Z) (bytes : list byte) : Prop :=
  exists first fs, bytes `prefix_of` active_header first ++ encode_frames fs /\
    Forall (log_ok next_seq) fs.

(** [log] is what was framed into the active file since it was started. *)
Record inv (log : list frame) (s : store) : Prop := {
  inv_handle : handle_ok s;
  inv_bytes : exists first, total_bytes s `prefix_of` active_header first ++ encode_frames log;
  inv_log : Forall (log_ok (st_next_seq s)) log;
  inv_synced : clean_file (st_next_seq s) (f_synced (st_active s));
  inv_next : 0 < st_next_seq s;
  inv_segs : forall name bytes, st_segs s !! name = Some bytes -> seg_ok (st_notes s) name bytes;
  inv_acks : forall seq payload, NAck seq payload ∈ st_notes s -> kept log s (seq, payload);
}.
Definition guarded (P : store -> Prop) (s : store) : Prop := st_fault s = None -> P s.
Definition safe : store -> Prop := guarded (fun s => exists log, inv log s).
(** With [data] yet to be written the file is its header and the whole log, which has
    the frames of [batch]. *)
Definition pending (data : list byte) (batch : list frame) (s : store) : Prop :=
  exists log first, inv log s /\
    total_bytes s ++ data = active_header first ++ encode_frames log /\ Forall (.∈ log) batch.
(** Between two turns of the thread *)
Definition ready : store -> Prop :=
  guarded (fun s => (exists log, inv log s) /\ (st_poisoned s = false -> pending [] [] s)).

Lemma inv_frame_ok log s : inv log s -> Forall frame_ok log.
Proof. intros Hi. eapply Forall_impl; [exact (inv_log _ _ Hi)|]. by intros f [? _]. Qed.
Lemma file_frames log s : inv log s -> active_frames (f_bytes (st_active s)) `prefix_of` log.
Proof.
  intros Hi. destruct (inv_bytes _ _ Hi) as [first Hb].
  apply (prefix_frames first); [by eapply inv_frame_ok|]. etrans; [|exact Hb]. by apply prefix_app_r.
Qed.
Lemma prefix_elem_of {A} (l k : list A) a : l `prefix_of` k -> a ∈ l -> a ∈ k.
Proof. intros [m ->] Ha. apply elem_of_app. by left. Qed.
Lemma Forall_prefix {A} (P : A -> Prop) l k : l `prefix_of` k -> Forall P k -> Forall P l.
Proof. by intros [m ->] [? _]%Forall_app. Qed.

(** *** ... and moved bytes *)
Lemma kept_moved log s s' f : moved s s' -> handle_ok s -> kept log s f -> kept log s' f.
Proof.
  intros [M1 M2 M3 _ _ _ M7] Hh. destruct (M7 Hh) as (_ & Hp & _).
  unfold kept, in_active, in_history, in_base. rewrite M1, M2, M3.
  intros [[Ha Hf]|[Hj|Hb]]; [left; split; [by etrans|done]|by right; left|by right; right].
Qed.
Lemma inv_moved log s s' : moved s s' -> inv log s -> inv log s'.
Proof.
  intros Hm Hi. pose proof (inv_handle _ _ Hi) as Hh.
  pose proof Hm as [M1 M2 M3 _ M5 _ M7]. destruct (M7 Hh) as (Hh' & _ & Ht).
  destruct Hi as [_ H2 H3 H4 H5 H6 H7]. split; rewrite ?M1, ?M2, ?M3, ?M5, ?Ht; try done.
  intros seq p Hn. by eapply kept_moved, H7.
Qed.
Lemma pending_moved data batch s s' : moved s s' -> pending data batch s -> pending data batch s'.
Proof.
  intros Hm (log & first & Hi & Ht & Hb). exists log, first. split; [by eapply inv_moved|].
  destruct (moved_bytes _ _ Hm (inv_handle _ _ Hi)) as (_ & _ & ->). done.
Qed.

(** A condition that moved bytes preserve *)
Class Stable (P : store -> Prop) : Prop := stable s s' : moved s s' -> P s -> P s'.
#[local] Instance guarded_stable P : Stable P -> Stable (guarded P).
Proof. intros HP s s' Hm Hs Hf. apply (HP _ _ Hm), Hs. by rewrite <- (moved_fault _ _ Hm). Qed.
#[local] Instance pending_stable data batch : Stable (pending data batch).
Proof. intros s s'. apply pending_moved. Qed.
#[local] Instance inv_stable log : Stable (inv log).
Proof. intros s s'. apply inv_moved. Qed.
#[local] Instance ex_stable {A} (P : A -> store -> Prop) :
  (forall a, Stable (P a)) -> Stable (fun s => exists a, P a s).
Proof. intros HP s s' Hm [a Ha]. exists a. by eapply HP. Qed.
#[local] Instance and_stable P Q : Stable P -> Stable Q -> Stable (fun s => P s /\ Q s).
Proof. intros HP HQ s s' Hm [??]. split; [by eapply HP|by eapply HQ]. Qed.
#[local] Instance poisoned_stable P : Stable P -> Stable (fun s => st_poisoned s = false -> P s).
Proof. intros HP s s' Hm Hs Hp. eapply HP, Hs; [done|]. by rewrite <- (moved_poisoned _ _ Hm). Qed.
#[local] Instance safe_stable : Stable safe.
Proof. apply _. Qed.
#[local] Instance ready_stable : Stable ready.
Proof. apply _. Qed.

(** ... with nothing left in the buffer *)
Definition flushed (batch : list frame) (s : store) : Prop := pending [] batch s /\ st_buf s = [].
#[local] Instance flushed_stable batch : Stable (flushed batch).
Proof.
  intros s s' Hm [Hp Hb]. split; [by eapply pending_moved|].
  destruct Hp as (log & first & Hi & _). destruct (moved_bytes _ _ Hm (inv_handle _ _ Hi)) as (_ & [k Hk] & Ht).
  unfold total_bytes in Ht. rewrite Hb, Hk, app_nil_r, <- (assoc app) in Ht.
  apply (f_equal length) in Ht. rewrite !length_app in Ht. apply length_zero_iff_nil. lia.
Qed.

Lemma flushed_safe batch s : guarded (flushed batch) s -> safe s.
Proof. intros Hp Hf. destruct (Hp Hf) as ((log & _ & Hi & _) & _). by exists log. Qed.
Lemma pending_safe data batch s : guarded (pending data batch) s -> safe s.
Proof. intros Hp Hf. destruct (Hp Hf) as (log & _ & Hi & _). by exists log. Qed.
Lemma ready_safe s : ready s -> safe s.
Proof. intros Hr Hf. apply (Hr Hf). Qed.

(** A condition that a mere system call preserves *)
Class Quiet (P : store -> Prop) : Prop := quiet s l m : P s -> P (set_answers l (set_tmps m s)).
#[local] Instance stable_quiet P : Stable P -> Quiet P.
Proof. intros HP s l m. apply HP. by split. Qed.
#[local] Instance and_quiet P Q : Quiet P -> Quiet Q -> Quiet (fun s => P s /\ Q s).
Proof. intros HP HQ s l m [??]. split; [by apply HP|by apply HQ]. Qed.
#[local] Instance active_quiet bytes : Quiet (fun s => f_bytes (st_active s) = bytes).
Proof. by intros s l m Hb. Qed.

Lemma moving_triple {A} (m : disk A) (Q : A -> store -> Prop) P :
  moving m Q -> Stable P -> (forall s, P s -> safe s) ->
  triple P m (fun a s => P s /\ Q a s) safe.
Proof.
  intros Hm HP Hs s Hp. specialize (Hm s). destruct (m s) as [[a s']|s'].
  - destruct Hm as [Hm Hq]. split; [by eapply HP|done].
  - by eapply Hs, HP.
Qed.
Lemma syscall_triple P : Quiet P -> (forall s, P s -> safe s) ->
  triple P syscall (fun _ => P) safe.
Proof.
  intros HP Hs s Hp. unfold syscall. destruct (st_answers s) as [|a l]; [by apply Hs|].
  apply (HP s l (st_tmps s)) in Hp. by destruct s.
Qed.
Lemma attempt_triple P : Quiet P -> (forall s, P s -> safe s) ->
  triple P attempt (fun _ => P) safe.
Proof.
  intros HP Hs. eapply triple_bind; [by apply syscall_triple|]. intros a. by apply triple_ret.
Qed.
Lemma flush_triple P : Stable P -> (forall s, P s -> safe s) ->
  triple P flush (fun ok s => P s /\ (ok = true -> st_buf s = [])) safe.
Proof. by apply moving_triple, flush_moving. Qed.

(** ** Syncing and writing *)

Definition synced_store (s : store) : store :=
  set_active {| f_bytes := f_bytes (st_active s); f_synced := f_bytes (st_active s) |} s.
Lemma inv_sync log s : inv log s -> inv log (synced_store s).
Proof.
  intros Hi. pose proof (file_frames _ _ Hi) as Hp. destruct Hi as [H1 H2 H3 H4 H5 H6 H7].
  split; try done.
  - destruct H2 as [first Hb]. exists first, log. split; [|done].
    etrans; [|exact Hb]. by apply prefix_app_r.
  - intros seq p Hn. destruct (H7 _ _ Hn) as [[Ha Hf]|[Hj|Hb]].
    + left. split; [done|]. eapply prefix_elem_of; [|exact Hf]. by apply active_frames_prefix.
    + right; left. destruct Hj as (m & fs & b & Hb & Hs & Hf & Hm & Hl & _).
      exists m, fs, b. split_and!; try done. right. cbn. by eapply Forall_prefix.
    + by right; right.
Qed.
Lemma pending_sync data batch s : pending data batch s -> pending data batch (synced_store s).
Proof. intros (log & first & Hi & Ht & Hb). exists log, first. split; [by apply inv_sync|done]. Qed.

(** A sync, with what holds of the file once its bytes are durable *)
Lemma sync_triple P Q : Quiet P -> (forall s, P s -> safe s) -> (forall s, P s -> Q (synced_store s)) ->
  triple P sync_all (fun (ok : bool) s => if ok then Q s else P s) safe.
Proof.
  intros HP Hs HQ. eapply triple_bind; [by apply attempt_triple|].
  intros []; [|by apply triple_ret]. intros s Hp. cbn. by apply HQ.
Qed.

(** Bytes pending go to the buffer ... *)
Lemma pending_buffer data batch s : pending data batch s ->
  pending [] batch (set_writer (st_handle s) (st_buf s ++ data) s).
Proof.
  intros (log & first & Hi & Ht & Hb). exists log, first.
  assert (total_bytes (set_writer (st_handle s) (st_buf s ++ data) s) = total_bytes s ++ data) as E
    by (unfold total_bytes; cbn; by rewrite (assoc app)).
  split_and!; [|by rewrite E, app_nil_r|done].
  destruct Hi as [H1 H2 H3 H4 H5 H6 H7]. split; try done. rewrite E, Ht. by exists first.
Qed.
(** ... or straight to the file, all of them or some. *)
Lemma pending_file data more batch s : st_buf s = [] -> pending (data ++ more) batch s ->
  pending more batch (file_write data s).
Proof.
  intros Hbuf (log & first & Hi & Ht & Hb). pose proof (inv_handle _ _ Hi) as Hh.
  destruct (file_write_append data s Hh) as (W1 & W2 & W3).
  destruct (file_write_rest data s) as (E1 & E2 & E3 & E4 & E5 & E6).
  exists log, first. assert (total_bytes (file_write data s) = total_bytes s ++ data) as E
    by (unfold total_bytes; by rewrite W2, W3, Hbuf, !app_nil_r).
  split_and!; [|by rewrite E, <- Ht, <- !(assoc app)|done].
  assert (forall f, kept log s f -> kept log (file_write data s) f) as Hk.
  { intros f. unfold kept, in_active, in_history, in_base. rewrite E1, E2, E3, W2.
    intros [[Ha Hf]|[Hj|Hbase]]; [left; split; [by apply prefix_app_r|done]|by right; left|by right; right]. }
  destruct Hi as [_ H2 H3 H4 H5 H6 H7]. split; rewrite ?E1, ?E2, ?E3, ?E5; try done.
  - exists first. rewrite E, <- Ht, (assoc app). by apply prefix_app_r.
  - intros seq p Hn. by apply Hk, H7.
Qed.
Lemma raw_write_triple data batch :
  triple (fun s => guarded (pending data batch) s /\ st_buf s = []) (raw_write data)
    (fun r s => if r.1 : bool then guarded (pending [] batch) s /\ st_buf s = [] else safe s) safe.
Proof.
  intros s [Hp Hbuf]. unfold raw_write. rewrite sm_bind_eq. unfold syscall.
  destruct (st_answers s) as [|a l]; [by eapply pending_safe|].
  assert (forall d more, data = d ++ more ->
    guarded (pending more batch) (file_write d (set_answers l s))) as Hw.
  { intros d more -> Hf. apply pending_file; [exact Hbuf|]. destruct (file_write_rest d (set_answers l s))
      as (_ & _ & _ & _ & _ & Ef). rewrite Ef in Hf. by apply (pending_moved _ _ s); [apply moved_answers|apply Hp]. }
  destruct a as [|n]; cbn.
  - split; [apply Hw; by rewrite app_nil_r|]. unfold file_write. cbn. by destruct (st_handle s).
  - eapply pending_safe, (Hw _ (drop n data)). by rewrite take_drop.
Qed.
Lemma set_buf_triple data batch buf :
  triple (fun s => guarded (pending data batch) s /\ st_buf s = buf) (set_buf (buf ++ data))
    (fun _ s => guarded (pending [] batch) s) safe.
Proof. intros s [Hp <-] Hf. by apply pending_buffer, Hp. Qed.
Lemma reads_triple {A} P (f : store -> A) X :
  triple P (reads f) (fun a s => P s /\ f s = a) X.
Proof. by intros s Hs. Qed.

Lemma write_all_triple data batch :
  triple (guarded (pending data batch)) (write_all data)
    (fun (ok : bool) s => if ok then guarded (pending [] batch) s else safe s) safe.
Proof.
  eapply triple_bind; [apply reads_triple|]. intros buf.
  destruct (zlen data <? BUF_CAPACITY - zlen buf).
  { eapply triple_bind; [apply set_buf_triple|]. intros []. by apply triple_ret. }
  apply (triple_bind _ _ _ (fun (ok : bool) s =>
    guarded (pending data batch) s /\ (ok = true -> BUF_CAPACITY <= zlen data -> st_buf s = []))).
  { destruct (Z.ltb_spec (BUF_CAPACITY - zlen buf) (zlen data)) as [Hl|Hl].
    - eapply triple_conseq; [apply (flush_triple (guarded (pending data batch)) _)| | |done].
      + intros s. apply pending_safe.
      + by intros s [Hp _].
      + intros ok s [Hp Hb]. split; auto.
    - apply triple_ret. intros s [Hp Hb]. split; [done|]. intros _ Hc. pose proof (zlen_nonneg buf).
      assert (zlen buf = 0) as Hz by lia. rewrite Hb. by destruct buf. }
  intros []; cbn [negb]; [|apply triple_ret; intros s [Hp _]; by eapply pending_safe].
  destruct (Z.leb_spec BUF_CAPACITY (zlen data)) as [Hl|Hl].
  - eapply triple_bind.
    + eapply triple_conseq; [apply (raw_write_triple data batch)| |done|done]. intros s [Hp Hb]. split; auto.
    + intros [[] rest]; cbn; apply triple_ret; [by intros s [? _]|done].
  - eapply triple_bind; [apply reads_triple|]. intros buf'.
    apply (triple_bind _ _ _ (fun _ => guarded (pending [] batch))); [|intros []; by apply triple_ret].
    eapply triple_conseq; [apply (set_buf_triple data batch)| |done|done]. intros s [[Hp _] Hb]. by split.
Qed.

Lemma flush_pending batch :
  triple (guarded (pending [] batch)) flush
    (fun (ok : bool) s => if ok then guarded (flushed batch) s else guarded (pending [] batch) s) safe.
Proof.
  eapply triple_conseq; [apply (flush_triple (guarded (pending [] batch)) _)|done| |done].
  - intros s. apply pending_safe.
  - intros [] s [Hp Hb]; [|exact Hp]. intros Hf. split; [by apply Hp|by apply Hb].
Qed.
Lemma sync_flushed batch :
  triple (guarded (flushed batch)) sync_all
    (fun (ok : bool) s => guarded (flushed batch) s /\
       (ok = true -> f_synced (st_active s) = f_bytes (st_active s))) safe.
Proof.
  eapply triple_conseq.
  - apply (sync_triple (guarded (flushed batch)) (fun s => guarded (flushed batch) s /\
      f_synced (st_active s) = f_bytes (st_active s)) _).
    + intros s. apply flushed_safe.
    + intros s Hs. split; [|done]. intros Hf. destruct (Hs Hf) as [Hp Hb].
      split; [by apply pending_sync|exact Hb].
  - done.
  - intros [] s; [by intros [? ?]|by intros ?].
  - done.
Qed.
Lemma write_synced_triple data batch :
  triple (guarded (pending data batch)) (write_synced data)
    (fun (ok : bool) s => if ok then guarded (flushed batch) s else safe s) safe.
Proof.
  eapply triple_bind; [apply write_all_triple|]. intros []; cbn [negb]; [|by apply triple_ret].
  eapply triple_bind; [apply flush_pending|].
  intros []; cbn [negb]; [|apply triple_ret; intros s Hp; by eapply pending_safe].
  eapply triple_conseq; [apply sync_flushed|done| |done].
  intros [] s [Hp _]; [done|by eapply flushed_safe].
Qed.

(** ** Sealing and resetting *)

Lemma modify_triple (P Q : store -> Prop) f X : (forall s, P s -> Q (f s)) ->
  triple P (modify f) (fun _ => Q) X.
Proof. intros HQ s Hs. by apply HQ. Qed.
Definition faulty (s : store) : Prop := st_fault s <> None.
#[local] Instance faulty_stable : Stable faulty.
Proof. intros s s' Hm Hs. unfold faulty. by rewrite (moved_fault _ _ Hm). Qed.
Lemma faulty_guarded P s : faulty s -> guarded P s.
Proof. by intros Hs Hf. Qed.
Lemma faulty_safe s : faulty s -> safe s.
Proof. apply faulty_guarded. Qed.
Lemma set_fault_faulty f s : faulty (set_fault f s).
Proof. unfold faulty. cbn. by destruct (st_fault s). Qed.

Lemma write_segment_triple name kind codec mn mx n body P Q : Quiet P -> (forall s, P s -> safe s) ->
  (forall s bytes, segment_bytes kind codec mn mx n body = Some bytes -> P s ->
     Q (set_tmps (delete name (st_tmps s)) (set_segs (<[name := bytes]> (st_segs s)) s))) ->
  triple P (write_segment name kind codec mn mx n body) (fun (ok : bool) s => if ok then Q s else P s) safe.
Proof.
  intros HP Hs HQ. unfold write_segment. destruct (segment_bytes _ _ _ _ _ _) as [bytes|]; [|by apply triple_ret].
  eapply triple_bind; [by apply attempt_triple|]. intros []; cbn [negb]; [|by apply triple_ret].
  eapply triple_bind; [by apply syscall_triple|].
  assert (forall m s, P s -> P (set_tmps m s)) as Ht
    by (intros m s Hp; apply (HP s (st_answers s) m) in Hp; by destruct s).
  intros [|k].
  - apply (triple_bind _ _ _ (fun _ => P)); [apply modify_triple; auto|]. intros _.
    eapply triple_bind; [by apply attempt_triple|]. intros []; cbn [negb]; [|by apply triple_ret].
    eapply triple_bind; [by apply attempt_triple|]. intros []; cbn [negb]; [|by apply triple_ret].
    apply (triple_bind _ _ _ (fun _ => Q)); [apply modify_triple; auto|]. intros _. by apply triple_ret.
  - apply (triple_bind _ _ _ (fun _ => P)); [apply modify_triple; auto|]. intros _. by apply triple_ret.
Qed.

(** Every acknowledged write is in a segment or covered by one. *)
Definition covered (s : store) : Prop :=
  forall seq payload, NAck seq payload ∈ st_notes s ->
  in_history [] s (seq, payload) \/ in_base s (seq, payload).
#[local] Instance covered_stable : Stable covered.
Proof.
  intros s s' [M1 M2 M3 _ M5 _ _] Hc seq p. unfold in_history, in_base. rewrite M1, M2, M3, M5. apply Hc.
Qed.
#[local] Instance next_stable n : Stable (fun s => st_next_seq s = n).
Proof. intros s s' Hm Hs. by rewrite (moved_next _ _ Hm). Qed.

(** Truncating, with a fresh writer *)
Lemma inv_truncated log s : inv log s -> covered s ->
  inv [] (set_writer (HAt 0) [] (set_active {| f_bytes := []; f_synced := f_synced (st_active s) |} s)).
Proof.
  intros [H1 H2 H3 H4 H5 H6 H7] Hc. split; try done.
  - by right.
  - exists 0. apply prefix_nil.
  - intros seq p Hn. destruct (Hc seq p Hn) as [Hj|Hb]; [by right; left|by right; right].
Qed.
Lemma replace_writer_empty h P Q : (forall s, P s -> st_buf s = [] -> Q (set_writer h [] s)) ->
  triple P (replace_writer h) (fun _ s => Q s \/ faulty s) safe.
Proof.
  intros HQ. eapply triple_bind; [apply reads_triple|]. intros [|b buf].
  - apply (triple_bind _ _ _ (fun _ s => P s /\ st_buf s = [])); [by apply triple_ret|]. intros _.
    apply modify_triple. intros s [Hp Hb]. left. auto.
  - apply (triple_bind _ _ _ (fun _ => faulty)).
    + apply (triple_bind _ _ _ (fun _ => faulty)); [apply modify_triple; intros; apply set_fault_faulty|].
      intros _. eapply triple_bind; [apply (flush_triple faulty _), faulty_safe|].
      intros ok. apply triple_ret. by intros s [? _].
    + intros _. apply modify_triple. by right.
Qed.
Lemma pending_ready s : guarded (pending [] []) s -> ready s.
Proof. intros Hp Hf. destruct (Hp Hf) as (log & first & Hi & H). split; [by exists log|]. by exists log, first. Qed.

Lemma reset_triple next :
  triple (fun s => ready s /\ guarded covered s /\ st_next_seq s = next) (journal_reset_active next)
    (fun ok s => ready s /\ (ok = true -> guarded (pending [] []) s)) safe.
Proof.
  eapply triple_bind; [apply (attempt_triple (fun s => ready s /\ guarded covered s /\ st_next_seq s = next) _)|].
  { intros s [Hr _]. by apply ready_safe. }
  intros []; cbn [negb]; [|apply triple_ret; intros s [Hr _]; by split].
  apply (triple_bind _ _ _ (fun _ => guarded (fun s => f_bytes (st_active s) = [] /\ inv [] (set_writer (HAt 0) [] s)))).
  { apply modify_triple. intros s (Hr & Hc & Hn) Hf. split; [done|].
    destruct (Hr Hf) as [[log Hi] _]. by apply (inv_truncated log), Hc. }
  intros _. apply (triple_bind _ _ _ (fun _ => guarded (pending (active_header next) []))).
  { eapply triple_conseq; [apply (replace_writer_empty (HAt 0)
      (guarded (fun s => f_bytes (st_active s) = [] /\ inv [] (set_writer (HAt 0) [] s)))
      (guarded (pending (active_header next) [])))|done| |done].
    - intros s Hs Hb Hf. destruct (Hs Hf) as [Hz Hi]. exists [], next. split_and!; [exact Hi| |done].
      unfold total_bytes. cbn. by rewrite Hz, app_nil_r.
    - intros _ s [Hs|Hs]; [done|by apply faulty_guarded]. }
  intros _. eapply triple_bind; [apply write_synced_triple|]. intros ok.
  apply (triple_bind _ _ _ (fun _ s => if ok then guarded (flushed []) s else faulty s)).
  { destruct ok; [by apply triple_ret|]. apply modify_triple. intros. apply set_fault_faulty. }
  intros _. eapply triple_bind.
  { apply (attempt_triple (fun s => if ok then guarded (flushed []) s else faulty s)).
    - destruct ok; apply _.
    - intros s Hs. destruct ok; [by eapply flushed_safe|by apply faulty_safe]. }
  intros reopened.
  apply (triple_bind _ _ _ (fun _ s => if ok then guarded (pending [] []) s else faulty s)).
  { destruct reopened.
    - eapply triple_conseq; [apply (replace_writer_empty HAppend
        (fun s => if ok then guarded (flushed []) s else faulty s)
        (fun s => if ok then guarded (pending [] []) s else faulty s))|done| |done].
      + intros s Hs Hb. destruct ok; [|done]. intros Hf. destruct (Hs Hf) as [(log & first & Hi & Ht & _) _].
        exists log, first. split_and!; [|by rewrite <- Ht; unfold total_bytes; cbn; by rewrite Hb|done].
        destruct Hi as [H1 H2 H3 H4 H5 H6 H7]. split; try done; [by left|].
        unfold total_bytes in *. cbn. by rewrite Hb in H2.
      + intros _ s [Hs|Hs]; [done|]. destruct ok; [by apply faulty_guarded|done].
    - apply triple_ret. intros s Hs. destruct ok; [|done]. intros Hf. by apply Hs. }
  intros _. apply triple_ret. intros s Hs. destruct ok.
  - split; [by apply pending_ready|done].
  - split; [by apply faulty_guarded|done].
Qed.

(** ** Sealing the active file *)

Lemma ready_sync s : ready s -> ready (synced_store s).
Proof.
  intros Hr Hf. destruct (Hr Hf) as [[log Hi] Hp]. split; [exists log; by apply inv_sync|].
  intros Hpo. by apply pending_sync, Hp.
Qed.
(** [let _ = flush(); let _ = sync_all();] *)
Lemma settle_triple P {A} (k : disk A) Q : Stable P -> (forall s, P s -> safe s) ->
  (forall s, P s -> P (synced_store s)) -> triple P k Q safe ->
  triple P (flush ;; sync_all ;; k) Q safe.
Proof.
  intros HP Hs Hy Hk. apply (triple_bind _ _ _ (fun _ => P)).
  { eapply triple_conseq; [by apply (flush_triple P _)|done| |done]. by intros ok s [? _]. }
  intros _. apply (triple_bind _ _ _ (fun _ => P)); [|by intros _].
  eapply triple_conseq; [by apply (sync_triple P P _)|done| |done]. by intros [].
Qed.

Lemma foldl_min_le (fs : list frame) x : foldl (fun m f => Z.min m f.1) x fs <= x /\
  Forall (fun f => foldl (fun m f => Z.min m f.1) x fs <= f.1) fs.
Proof.
  revert x; induction fs as [|f fs IH]; intros x; cbn [foldl]; [split; [lia|constructor]|].
  destruct (IH (Z.min x f.1)) as [H1 H2]. split; [lia|]. constructor; [lia|done].
Qed.
Lemma foldl_min_lt (fs : list frame) x n : Forall (fun f => n < f.1) fs -> n < x ->
  n < foldl (fun m f => Z.min m f.1) x fs.
Proof.
  intros Hf. revert x; induction Hf as [|f fs Hf _ IH]; intros x Hx; cbn [foldl]; [lia|].
  apply IH. lia.
Qed.
Lemma min_seq_lt fs n : Forall (fun f => n < f.1) fs -> n < u64_max -> n < min_seq_of fs.
Proof. apply foldl_min_lt. Qed.
Lemma min_seq_le fs f : f ∈ fs -> min_seq_of fs <= f.1.
Proof.
  intros Hf. destruct (foldl_min_le fs u64_max) as [_ Hm]. rewrite Forall_forall in Hm. by apply Hm.
Qed.

(** Once the frames of the active file are in a segment, every write is covered. *)
Lemma seal_covered log s bytes fs last seg : inv log s -> f_bytes (st_active s) = bytes ->
  no_header bytes = false -> walk_frames bytes ACTIVE_HEADER_LEN = (fs, last) -> fs <> [] ->
  segment_bytes SEG_KIND_HISTORY CODEC_LZ4 (min_seq_of fs) (max_seq_of fs) (zlen fs)
    (slice bytes ACTIVE_HEADER_LEN last) = Some seg ->
  let name := JSeg (min_seq_of fs) in
  let s' := set_tmps (delete name (st_tmps s)) (set_segs (<[name := seg]> (st_segs s)) s) in
  inv log s' /\ covered s'.
Proof.
  intros Hi <- Hh Hw Hne Hseg name s'. destruct (body_frames _ _ _ Hh Hw) as (Hbody & Hok & _).
  rewrite Hbody in Hseg. pose proof (file_frames _ _ Hi) as Hlog.
  assert (active_frames (f_bytes (st_active s)) = fs) as Hfs
    by (unfold active_frames, active_walk; by rewrite Hh, Hw).
  rewrite Hfs in Hlog. set (m := min_seq_of fs) in *.
  pose proof (inv_log _ _ Hi) as Hl. pose proof (Forall_prefix _ _ _ Hlog Hl) as Hlfs.
  assert (m < st_next_seq s) as Hm.
  { destruct fs as [|f fs]; [done|]. apply Forall_cons in Hlfs as [(_ & _ & Hf) _].
    pose proof (min_seq_le (f :: fs) f ltac:(left)). fold m in H. lia. }
  assert (history_segment m fs seg) as Hhist by done.
  assert (forall k, Forall (fun g => k < g.1) fs -> k <> m) as Hother.
  { intros k Hk ->. destruct fs as [|f fs]; [done|]. apply Forall_cons in Hlfs as [(Hf & _) _].
    assert (m < min_seq_of (f :: fs)); [|unfold m in *; lia].
    apply min_seq_lt; [done|]. pose proof (min_seq_le (f :: fs) f ltac:(left)) as Hle. fold m in Hle.
    apply Forall_cons in Hk as [Hk _]. destruct Hf as [Hf _]. unfold u64_max. lia. }
  assert (forall seq p, NAck seq p ∈ st_notes s -> kept log s' (seq, p) /\
    (in_history [] s' (seq, p) \/ in_base s' (seq, p))) as Hacks.
  { intros seq p Hn. destruct (inv_acks _ _ Hi _ _ Hn) as [[Hp Hf]|[Hj|Hb]].
    - split; [by left|]. left. exists m, fs, seg. split_and!; [apply lookup_insert_eq|done| |done|done|].
      + rewrite <- Hfs. eapply prefix_elem_of; [|exact Hf]. by apply active_frames_prefix.
      + by left.
    - destruct Hj as (k & fs' & b & Hk & Hs & Hf & Hkn & Hkl & Hsy).
      assert (k <> m) as Hne' by (apply Hother; by eapply Forall_prefix).
      assert (name <> JSeg k) as Hnk by (unfold name; fold m; congruence).
      assert (st_segs s' !! JSeg k = Some b) as Hk' by (cbn; by rewrite lookup_insert_ne).
      split; [right|]; left; exists k, fs', b; split_and!; try done.
    - assert (in_base s' (seq, p)) as Hb'.
      { destruct Hb as (F & b & Hb & Hle). exists F, b. split; [|done]. cbn. by rewrite lookup_insert_ne. }
      split; [by right; right|by right]. }
  split; [|intros seq p Hn; by apply Hacks].
  destruct Hi as [H1 H2 H3 H4 H5 H6 H7]. split; try done.
  - intros nm b Hb. cbn in Hb. destruct (decide (nm = name)) as [->|Hnm].
    + rewrite lookup_insert_eq in Hb. injection Hb as <-. left. by exists fs.
    + rewrite lookup_insert_ne in Hb by done. by apply H6.
  - intros seq p Hn. by apply Hacks.
Qed.

Lemma seal_triple next :
  triple (fun s => ready s /\ st_next_seq s = next) (journal_seal_active next) (fun _ => ready) safe.
Proof.
  apply settle_triple; [apply _|by intros s [? _]; apply ready_safe| |].
  { intros s [Hr Hn]. split; [by apply ready_sync|done]. }
  eapply triple_bind; [apply (attempt_triple (fun s => ready s /\ st_next_seq s = next) _)|].
  { intros s [? _]; by apply ready_safe. }
  intros []; cbn [negb]; [|apply triple_ret; by intros s [? _]].
  eapply triple_bind; [apply reads_triple|]. intros bytes.
  destruct ((length bytes <=? ACTIVE_HEADER_LEN)%nat || no_header bytes) eqn:Hh;
    [apply triple_ret; by intros s [[? _] _]|].
  apply orb_false_iff in Hh as [_ Hh]. destruct (walk_frames bytes _) as [fs last] eqn:Hw.
  destruct fs as [|f fs]; [apply triple_ret; by intros s [[? _] _]|]. set (all := f :: fs) in *.
  eapply triple_bind.
  { apply (write_segment_triple _ _ _ _ _ _ _
      (fun s => (ready s /\ st_next_seq s = next) /\ f_bytes (st_active s) = bytes)
      (fun s => ready s /\ guarded covered s /\ st_next_seq s = next)); [apply _| |].
    - intros s [[? _] _]; by apply ready_safe.
    - intros s seg Hseg [[Hr Hn] Hb].
      assert (guarded (fun s => exists log, inv log s) s) as Hi by (intros Hf; apply (Hr Hf)).
      split_and!; [| |done].
      + intros Hf. cbn in Hf. destruct (Hr Hf) as [[log Hlog] Hp]. split.
        * exists log. by eapply seal_covered.
        * intros Hpo. destruct (Hp Hpo) as (log' & first & Hi' & Ht & Hba). exists log', first.
          split_and!; [by eapply seal_covered|done|done].
      + intros Hf. destruct (Hi Hf) as [log Hlog]. by eapply seal_covered. }
  intros []; cbn [negb]; [|apply triple_ret; by intros s [[? _] _]].
  eapply triple_conseq; [apply reset_triple|done| |done]. by intros ok s [? _].
Qed.

(** ** Folding to a base *)

(** The checkpoint is recorded, covers every write acknowledged, and readers accept it. *)
Definition folding (lines : list byte) (frontier : Z) (s : store) : Prop :=
  NFold lines frontier ∈ st_notes s /\
  (forall seq p, NAck seq p ∈ st_notes s -> seq <= frontier) /\
  Forall frame_ok (checkpoint_frames lines frontier) /\ 0 <= frontier < 2 ^ 64.
#[local] Instance folding_stable lines frontier : Stable (folding lines frontier).
Proof. intros s s' Hm. unfold folding. by rewrite (moved_notes _ _ Hm). Qed.
(** ... and its base is there. *)
Definition folded (frontier : Z) (s : store) : Prop :=
  (exists b, st_segs s !! BSeg frontier = Some b) /\
  forall seq p, NAck seq p ∈ st_notes s -> seq <= frontier.
#[local] Instance folded_stable frontier : Stable (folded frontier).
Proof. intros s s' Hm. unfold folded. by rewrite (moved_notes _ _ Hm), (moved_segs _ _ Hm). Qed.
Lemma folded_covered frontier s : folded frontier s -> covered s.
Proof. intros [[b Hb] Ha] seq p Hn. right. exists frontier, b. split; [done|]. by apply (Ha _ _ Hn). Qed.

Lemma inv_folded frontier m log s : inv log s -> folded frontier (set_segs m s) ->
  (forall name b, m !! name = Some b -> seg_ok (st_notes s) name b) -> inv log (set_segs m s).
Proof.
  intros [H1 H2 H3 H4 H5 H6 H7] Hf Hs. split; try done.
  intros seq p Hn. destruct (folded_covered _ _ Hf seq p Hn) as [Hj|Hb]; [|by right; right].
  destruct Hf as [[b Hb] Ha]. right; right. exists frontier, b. split; [done|by apply (Ha _ _ Hn)].
Qed.
Lemma ready_folded frontier m s : ready s -> guarded (folded frontier) (set_segs m s) ->
  (st_fault s = None -> forall name b, m !! name = Some b -> seg_ok (st_notes s) name b) ->
  ready (set_segs m s).
Proof.
  intros Hr Hf Hs Hn. destruct (Hr Hn) as [[log Hi] Hp]. split.
  - exists log. by eapply inv_folded; [|apply Hf|apply Hs].
  - intros Hpo. destruct (Hp Hpo) as (log' & first & Hi' & Ht & Hb). exists log', first.
    split_and!; [by eapply inv_folded; [|apply Hf|apply Hs]|done|done].
Qed.

Lemma frame_okb_ok f : frame_okb f = true -> frame_ok f.
Proof. unfold frame_okb, frame_ok, u64_max. rewrite !andb_true_iff, !Z.leb_le. lia. Qed.
Lemma covers_acks_le frontier notes : covers_acks frontier notes = true ->
  forall seq p, NAck seq p ∈ notes -> seq <= frontier.
Proof.
  intros Hc seq p Hn. unfold covers_acks in Hc. rewrite forallb_forall in Hc.
  specialize (Hc _ (proj1 (list_elem_of_In _ _) Hn)). cbn in Hc. lia.
Qed.
(** Notes that acknowledge nothing *)
Definition no_ack (n : note) : Prop := match n with NAck _ _ => False | _ => True end.
Lemma seg_ok_notes notes l name b : seg_ok notes name b -> seg_ok (notes ++ l) name b.
Proof.
  destruct name; [done|]. intros (lines & Hl & Hb). exists lines. split; [|done].
  apply elem_of_app. by left.
Qed.
Lemma old_ack notes l seq p : Forall no_ack l -> NAck seq p ∈ notes ++ l -> NAck seq p ∈ notes.
Proof.
  intros Hl [Hn|Hn]%elem_of_app; [done|]. rewrite Forall_forall in Hl. by destruct (Hl _ Hn).
Qed.
Lemma inv_notes log l s : Forall no_ack l -> inv log s -> inv log (add_notes l s).
Proof.
  intros Hl [H1 H2 H3 H4 H5 H6 H7]. split; try done.
  - intros name b Hb. by apply seg_ok_notes, H6.
  - intros seq p Hn. by apply H7, (old_ack _ l).
Qed.
Lemma pending_notes data batch l s : Forall no_ack l -> pending data batch s ->
  pending data batch (add_notes l s).
Proof. intros Hl (log & first & Hi & H). exists log, first. split; [by apply inv_notes|done]. Qed.
Lemma safe_notes l s : Forall no_ack l -> safe s -> safe (add_notes l s).
Proof. intros Hl Hs Hf. destruct (Hs Hf) as [log Hi]. exists log. by apply inv_notes. Qed.
Lemma ready_notes l s : Forall no_ack l -> ready s -> ready (add_notes l s).
Proof.
  intros Hl Hr Hf. destruct (Hr Hf) as [[log Hi] Hp]. split; [exists log; by apply inv_notes|].
  intros Hpo. by apply pending_notes, Hp.
Qed.
Lemma ready_set_fault f s : ready (set_fault f s).
Proof. apply faulty_guarded, set_fault_faulty. Qed.

Lemma fold_begin lines frontier s : ready s ->
  let s1 := if covers_acks frontier (st_notes s) then s else set_fault FStaleFold s in
  let s2 := if forallb frame_okb ((frontier, []) :: checkpoint_frames lines frontier)
            then s1 else set_fault FOversized s1 in
  ready (add_notes [NFold lines frontier] s2) /\
  guarded (folding lines frontier) (add_notes [NFold lines frontier] s2).
Proof.
  intros Hr s1 s2. assert (ready s2) as Hr2.
  { unfold s2, s1. repeat case_match; first [done|apply ready_set_fault]. }
  split; [by apply ready_notes; [repeat constructor|]|].
  intros Hf. cbn in Hf. unfold s2, s1 in Hf |- *.
  destruct (covers_acks frontier (st_notes s)) eqn:Hc;
    destruct (forallb frame_okb _) eqn:Hb; try (by destruct (set_fault_faulty _ _ Hf)).
  apply andb_true_iff in Hb as [H1%frame_okb_ok H2]. split_and!.
  - cbn. apply elem_of_app. right. by left.
  - intros seq p Hn. cbn in Hn. apply (covers_acks_le _ _ Hc seq p).
    by eapply old_ack; [|exact Hn]; repeat constructor.
  - apply Forall_forall. intros f Hin. apply frame_okb_ok.
    by apply (proj1 (forallb_forall _ _) H2), list_elem_of_In.
  - destruct H1 as [Hr1 _]. cbn in Hr1. lia.
  - destruct H1 as [Hr1 _]. cbn [fst] in Hr1. lia.
Qed.

Lemma base_written lines frontier seg s : ready s -> guarded (folding lines frontier) s ->
  segment_bytes SEG_KIND_BASE CODEC_LZ4 frontier frontier (zlen (checkpoint_frames lines frontier))
    (encode_frames (checkpoint_frames lines frontier)) = Some seg ->
  let s' := set_tmps (delete (BSeg frontier) (st_tmps s))
              (set_segs (<[BSeg frontier := seg]> (st_segs s)) s) in
  ready s' /\ guarded (folded frontier) s'.
Proof.
  intros Hr Hg Hseg s'.
  assert (guarded (folded frontier) (set_segs (<[BSeg frontier := seg]> (st_segs s)) s)) as Hf.
  { intros Hf. destruct (Hg Hf) as (_ & Ha & _). split; [exists seg; apply lookup_insert_eq|exact Ha]. }
  split; [|exact Hf]. apply (ready_stable (set_segs (<[BSeg frontier := seg]> (st_segs s)) s)).
  { apply moved_tmps. }
  apply (ready_folded frontier); [done|done|]. intros Hn nm b Hb.
  destruct (decide (nm = BSeg frontier)) as [->|Hne].
  - rewrite lookup_insert_eq in Hb. injection Hb as <-. destruct (Hg Hn) as (Hl & _ & Hok & Hrange).
    by exists lines.
  - rewrite lookup_insert_ne in Hb by done. destruct (Hr Hn) as [[log Hi] _]. by apply (inv_segs _ _ Hi).
Qed.

Lemma remove_segments_triple frontier next :
  let P s := (ready s /\ guarded (folded frontier) s) /\ st_next_seq s = next in
  triple P (remove_segments (BSeg frontier)) (fun _ => P) safe.
Proof.
  intros P. assert (forall s, P s -> safe s) as HPs by (intros s [[? _] _]; by apply ready_safe).
  eapply triple_bind; [apply reads_triple|]. intros names.
  eapply triple_conseq; [apply (triple_mfor _ (fun _ _ => P) safe)| |done|done]; [|by intros s [? _]].
  intros [] name rest. destruct (bool_decide (name = BSeg frontier)) eqn:Hb; [by apply triple_ret|].
  apply bool_decide_eq_false in Hb.
  eapply triple_bind; [by apply (attempt_triple P _)|]. intros []; [|by apply triple_ret].
  apply modify_triple. intros s [[Hr Hg] Hn].
  assert (guarded (folded frontier) (set_segs (delete name (st_segs s)) s)) as Hf.
  { intros Hf. destruct (Hg Hf) as [[b Hl] Ha]. split; [|exact Ha]. exists b. cbn.
    by rewrite lookup_delete_ne. }
  split_and!; [|exact Hf|done]. apply (ready_folded frontier); [done|done|].
  intros Hno nm b [_ Hl]%lookup_delete_Some. destruct (Hr Hno) as [[log Hi] _]. by apply (inv_segs _ _ Hi).
Qed.

Lemma fold_triple lines frontier next :
  triple (fun s => ready s /\ st_next_seq s = next) (journal_fold lines frontier next)
    (fun ok s => ready s /\ (ok = true -> guarded (pending [] []) s)) safe.
Proof.
  apply (triple_bind _ _ _ (fun _ s => (ready s /\ guarded (folding lines frontier) s) /\ st_next_seq s = next)).
  { apply modify_triple. intros s [Hr Hn]. split; [by apply fold_begin|].
    by repeat case_match. }
  intros _. apply settle_triple; [apply _|by intros s [[? _] _]; apply ready_safe| |].
  { intros s [[Hr Hg] Hn]. split_and!; [by apply ready_sync|exact Hg|done]. }
  eapply triple_bind.
  { apply (write_segment_triple _ _ _ _ _ _ _
      (fun s => (ready s /\ guarded (folding lines frontier) s) /\ st_next_seq s = next)
      (fun s => (ready s /\ guarded (folded frontier) s) /\ st_next_seq s = next) _).
    - intros s [[? _] _]; by apply ready_safe.
    - intros s seg Hseg [[Hr Hg] Hn]. split; [|exact Hn]. by eapply base_written. }
  intros []; cbn [negb]; [|apply triple_ret; by intros s [[? _] _]].
  eapply triple_bind; [apply (attempt_triple (fun s => (ready s /\ guarded (folded frontier) s) /\ st_next_seq s = next) _)|].
  { intros s [[? _] _]; by apply ready_safe. }
  intros listed.
  apply (triple_bind _ _ _ (fun _ s => (ready s /\ guarded (folded frontier) s) /\ st_next_seq s = next)).
  { destruct listed; [apply remove_segments_triple|by apply triple_ret]. }
  intros _. eapply triple_conseq; [apply reset_triple| |done|done].
  intros s [[Hr Hg] Hn]. split_and!; [done| |done]. intros Hf. by eapply folded_covered, Hg.
Qed.

(** ** A batch of appends *)

(** Until a write fails the file is clean and has the batch; after that the thread is
    poisoned, or will be when the batch ends. *)
Definition batching (io_ok : bool) (batch : list frame) (s : store) : Prop :=
  if io_ok then guarded (pending [] batch) s
  else safe s /\ (st_poisoned s = true \/ batch <> []).
Lemma batching_safe io_ok batch s : batching io_ok batch s -> safe s.
Proof. destruct io_ok; [apply pending_safe|by intros [? _]]. Qed.
#[local] Instance batching_stable io_ok batch : Stable (batching io_ok batch).
Proof.
  destruct io_ok; [apply _|]. intros s s' Hm [Hs Hp]. split; [by eapply stable|].
  by rewrite (moved_poisoned _ _ Hm).
Qed.
Lemma batching_refuse io_ok batch s : batching io_ok batch s ->
  batching io_ok batch (add_notes [NRefuse] s).
Proof.
  assert (Forall no_ack [NRefuse]) as Hn by repeat constructor.
  destruct io_ok.
  - intros Hp Hf. by apply pending_notes, Hp.
  - intros [Hs Hp]. split; [by apply safe_notes|done].
Qed.

(** A frame taken into the log *)
Lemma pending_frame batch payload s : pending [] batch s -> frame_ok (st_next_seq s, payload) ->
  pending (encode_frame [] (st_next_seq s) payload) (batch ++ [(st_next_seq s, payload)])
    (set_next_seq (st_next_seq s + 1) s).
Proof.
  intros (log & first & Hi & Ht & Hb) Hok. rewrite app_nil_r in Ht.
  set (f := (st_next_seq s, payload)). exists (log ++ [f]), first.
  assert (total_bytes s ++ encode_frame [] (st_next_seq s) payload =
    active_header first ++ encode_frames (log ++ [f])) as E.
  { rewrite Ht, encode_frames_app, <- (assoc app). f_equal. }
  split_and!; [|exact E|].
  - destruct Hi as [H1 H2 H3 H4 H5 H6 H7]. split; try done.
    + exists first. rewrite <- E. by apply prefix_app_r.
    + apply Forall_app. split.
      * eapply Forall_impl; [exact H3|]. intros g [? ?]. split; [done|cbn; lia].
      * constructor; [|constructor]. split; [done|cbn; lia].
    + destruct H4 as (first' & fs & Hp & Hfs). exists first', fs. split; [done|].
      eapply Forall_impl; [exact Hfs|]. intros g [? ?]. split; [done|cbn; lia].
    + cbn. lia.
    + intros seq p Hn. destruct (H7 _ _ Hn) as [Ha|[Hj|Hbase]]; [by left| |by right; right].
      right; left. destruct Hj as (m & fs & b & ? & ? & ? & Hm & Hl & ?). exists m, fs, b.
      split_and!; try done; [cbn; lia|]. apply Forall_app. split; [done|]. by constructor.
  - apply Forall_app. split.
    + eapply Forall_impl; [exact Hb|]. intros g Hg. apply elem_of_app. by left.
    + constructor; [|constructor]. apply elem_of_app. right. by left.
Qed.

Lemma append_frame_triple io_ok batch json :
  triple (batching io_ok batch) (append_frame io_ok batch json)
    (fun r => batching r.1 r.2) safe.
Proof.
  unfold append_frame. destruct io_ok; cbn [negb].
  2:{ apply (triple_bind _ _ _ (fun _ => batching false batch));
        [apply modify_triple; intros; by apply batching_refuse|]. intros _. by apply triple_ret. }
  destruct json as [payload|].
  2:{ apply (triple_bind _ _ _ (fun _ => batching true batch));
        [apply modify_triple; intros; by apply batching_refuse|]. intros _. by apply triple_ret. }
  eapply triple_bind; [apply reads_triple|]. intros seq.
  apply (triple_bind _ _ _ (fun _ => guarded (pending (encode_frame [] seq payload) (batch ++ [(seq, payload)])))).
  { apply modify_triple. intros s [Hp <-] Hf. cbn in Hf.
    destruct (frame_okb (st_next_seq s, payload)) eqn:Hok; [|by destruct (set_fault_faulty _ _ Hf)].
    apply pending_frame; [by apply Hp|by apply frame_okb_ok]. }
  intros _. eapply triple_bind; [apply write_all_triple|]. intros ok. apply triple_ret.
  intros s Hs. destruct ok; cbn; [exact Hs|]. split; [exact Hs|]. right. by destruct batch.
Qed.

Lemma drain_triple queue io_ok batch :
  triple (batching io_ok batch) (drain queue io_ok batch) (fun r => batching r.1.1.1 r.1.1.2) safe.
Proof.
  revert io_ok batch; induction queue as [|msg queue IH]; intros io_ok batch; cbn [drain];
    [by apply triple_ret|].
  destruct (1024 <=? length batch)%nat; [by apply triple_ret|].
  eapply triple_bind; [apply (attempt_triple (batching io_ok batch) _), batching_safe|].
  intros []; cbn [negb]; [|by apply triple_ret].
  destruct msg as [json|lines frontier]; [|by apply triple_ret].
  eapply triple_bind; [apply append_frame_triple|]. intros [io_ok' batch']. apply IH.
Qed.

Lemma acked_kept batch s : flushed batch s -> f_synced (st_active s) = f_bytes (st_active s) ->
  Forall (in_active s) batch.
Proof.
  intros [(log & first & Hi & Ht & Hb) Hbuf] Hsy. eapply Forall_impl; [exact Hb|].
  intros f Hf. unfold in_active. rewrite Hsy. split; [done|].
  unfold total_bytes in Ht. rewrite Hbuf, !app_nil_r in Ht. rewrite Ht.
  rewrite active_frames_of; [done|]. by eapply inv_frame_ok.
Qed.
Lemma inv_acked log batch s : inv log s -> Forall (in_active s) batch ->
  inv log (add_notes ((fun f => NAck f.1 f.2) <$> batch) s).
Proof.
  intros [H1 H2 H3 H4 H5 H6 H7] Hb. split; try done.
  - intros name b Hs. by apply seg_ok_notes, H6.
  - intros seq p [Hn|Hn]%elem_of_app; [by apply H7|].
    apply list_elem_of_fmap in Hn as ([seq' p'] & [= -> ->] & Hin). left.
    rewrite Forall_forall in Hb. by apply Hb.
Qed.
Lemma refused_no_ack (batch : list frame) : Forall no_ack ((fun _ => NRefuse) <$> batch).
Proof. apply Forall_fmap. by apply Forall_true. Qed.

Lemma finish_batch_triple io_ok batch :
  triple (batching io_ok batch) (finish_batch io_ok batch) (fun _ => ready) safe.
Proof.
  unfold finish_batch.
  apply (triple_bind _ _ _ (fun (ok : bool) s =>
    if ok then guarded (flushed batch) s /\ f_synced (st_active s) = f_bytes (st_active s)
    else batching io_ok batch s)).
  { destruct io_ok; [|by apply triple_ret].
    eapply triple_bind; [apply flush_pending|].
    intros []; cbn [negb]; [|by apply triple_ret].
    eapply triple_conseq; [apply sync_flushed|done| |done].
    intros [] s [Hp Hs]; [by split; [|apply Hs]|]. intros Hf. apply (Hp Hf). }
  intros ok. apply modify_triple. intros s Hs. destruct ok; cbn [negb andb].
  - destruct Hs as [Hp Hsy]. apply pending_ready. intros Hf. destruct (Hp Hf) as [(log & first & Hi & H) Hbuf].
    pose proof (acked_kept batch s (Hp Hf) Hsy) as Hk.
    exists log, first. split; [by apply inv_acked|]. destruct H as [Ht _]. by split.
  - destruct (bool_decide (batch = [])) eqn:Hb; cbn [negb].
    + apply bool_decide_eq_true in Hb as ->. cbn [fmap list_fmap].
      destruct io_ok; [by apply ready_notes, pending_ready; [constructor|]|].
      destruct Hs as [Hs [Hp|Hp]]; [|done]. apply ready_notes; [constructor|].
      intros Hf. split; [by apply Hs|congruence].
    + assert (safe s) as Hsafe by by eapply batching_safe.
      apply ready_notes; [apply refused_no_ack|]. intros Hf. split; [|done].
      destruct (Hsafe Hf) as [log Hi]. exists log. by destruct Hi.
Qed.

(** ** The thread *)

Lemma ready_unpoison s : guarded (pending [] []) s -> ready (set_poisoned false s).
Proof.
  intros Hp Hf. destruct (Hp Hf) as (log & first & Hi & H).
  assert (inv log (set_poisoned false s)) as Hi' by by destruct Hi.
  split; [by exists log|]. intros _. by exists log, first.
Qed.
Lemma run_fold_triple lines frontier : triple ready (run_fold lines frontier) (fun _ => ready) safe.
Proof.
  eapply triple_bind; [apply (reads_triple ready)|]. intros next.
  eapply triple_bind; [apply fold_triple|]. intros ok. apply modify_triple.
  intros s [Hr Hok]. apply ready_notes; [by repeat constructor|].
  destruct ok; [by apply ready_unpoison, Hok|done].
Qed.
Lemma maybe_seal_triple threshold : triple ready (maybe_seal threshold) (fun _ => ready) safe.
Proof.
  eapply triple_bind; [apply (attempt_triple ready _), ready_safe|]. intros known.
  eapply triple_bind; [apply reads_triple|]. intros bytes.
  destruct (known && _); [|apply triple_ret; by intros s [? _]].
  eapply triple_bind; [apply reads_triple|]. intros next.
  apply (triple_bind _ _ _ (fun _ => ready)); [|intros _; by apply triple_ret].
  eapply triple_conseq; [apply seal_triple| |done|done]. intros s [[Hr _] Hn]. by split.
Qed.
Lemma handle_triple threshold msg queue :
  triple ready (handle_msg threshold msg queue) (fun _ => ready) safe.
Proof.
  destruct msg as [json|lines frontier]; cbn [handle_msg].
  - eapply triple_bind; [apply (reads_triple ready)|]. intros poisoned.
    eapply triple_bind.
    { eapply triple_conseq; [apply (append_frame_triple (negb poisoned) [])| |done|done].
      intros s [Hr <-]. destruct (st_poisoned s) eqn:Hp; cbn.
      - split; [by apply ready_safe|by left].
      - intros Hf. by apply (Hr Hf). }
    intros [io_ok batch]. eapply triple_bind; [apply drain_triple|].
    intros [[[io_ok' batch'] pending'] queue']. cbn [fst snd].
    apply (triple_bind _ _ _ (fun _ => ready)); [apply finish_batch_triple|]. intros _.
    apply (triple_bind _ _ _ (fun _ => ready)); [|intros _; by apply triple_ret].
    destruct pending' as [[lines frontier]|]; [apply run_fold_triple|apply maybe_seal_triple].
  - apply (triple_bind _ _ _ (fun _ => ready)); [apply run_fold_triple|]. intros _. by apply triple_ret.
Qed.
Lemma loop_triple threshold fuel queue :
  triple ready (writer_loop threshold fuel queue) (fun _ => ready) safe.
Proof.
  revert queue; induction fuel as [|fuel IH]; intros [|msg queue]; cbn [writer_loop];
    try (by apply triple_ret).
  eapply triple_bind; [apply handle_triple|]. intros queue'. apply IH.
Qed.

(** What recovery leaves: a clean log, or no file yet *)
Definition startable : store -> Prop :=
  guarded (fun s => exists log, inv log s /\ st_buf s = [] /\
    (f_bytes (st_active s) = [] /\ log = [] \/
     exists first, f_bytes (st_active s) = active_header first ++ encode_frames log)).

Lemma startable_safe s : startable s -> safe s.
Proof. intros Hs Hf. destruct (Hs Hf) as (log & Hi & _). by exists log. Qed.
#[local] Instance startable_quiet : Quiet startable.
Proof.
  intros s l m Hs Hf. destruct (Hs Hf) as (log & Hi & H). exists log. split; [|exact H].
  by apply (quiet s l m).
Qed.
Lemma open_triple next :
  triple startable (journal_open_active next) (fun (ok : bool) s => if ok then ready s else safe s) safe.
Proof.
  eapply triple_bind; [apply (attempt_triple startable _), startable_safe|].
  intros []; cbn [negb]; [|apply triple_ret, startable_safe].
  apply (triple_bind _ _ _ (fun _ s => startable s /\ st_handle s = HAppend)).
  { apply modify_triple. intros s Hs. split; [|done]. intros Hf.
    destruct (Hs Hf) as (log & Hi & Hb & H). exists log. split; [|by split].
    assert (total_bytes (set_writer HAppend [] s) = total_bytes s) as E
      by (unfold total_bytes; cbn; by rewrite Hb).
    destruct Hi as [H1 H2 H3 H4 H5 H6 H7]. split; try done; [by left|by rewrite E]. }
  intros _. eapply triple_bind; [apply reads_triple|]. intros [|b bytes].
  - eapply triple_bind.
    { eapply triple_conseq; [apply (write_synced_triple (active_header next) [])| |done|done].
      intros s [[Hs _] Hz] Hf. destruct (Hs Hf) as (log & Hi & Hb & [[_ ->]|[first Hl]]).
      - exists [], next. split_and!; [done| |done]. unfold total_bytes. rewrite Hz, Hb.
        by rewrite app_nil_r.
      - exfalso. rewrite Hz in Hl. apply (f_equal length) in Hl.
        rewrite length_app, length_active_header in Hl. done. }
    intros []; cbn.
    + apply triple_ret. intros s Hp. apply pending_ready. intros Hf. apply (Hp Hf).
    + apply (triple_bind _ _ _ (fun _ => safe)); [|intros; by apply triple_ret].
      eapply triple_conseq; [by apply (flush_triple safe _)|done| |done]. by intros ok s [? _].
  - apply triple_ret. intros s [[Hs _] Hz]. apply pending_ready. intros Hf.
    destruct (Hs Hf) as (log & Hi & Hb & [[Hl _]|[first Hl]]); [congruence|].
    exists log, first. split_and!; [done| |done]. unfold total_bytes. by rewrite Hb, <- Hl, !app_nil_r.
Qed.
Lemma refuse_msg_no_ack queue : Forall no_ack (refuse_msg <$> queue).
Proof. apply Forall_fmap, Forall_true. by intros []. Qed.
Lemma thread_triple threshold queue :
  triple startable (writer_thread threshold queue) (fun _ => safe) safe.
Proof.
  eapply triple_bind; [apply (reads_triple startable)|]. intros next.
  eapply triple_bind.
  { eapply triple_conseq; [apply (open_triple next)| |done|done]. by intros s [? _]. }
  intros [].
  - eapply triple_conseq; [apply loop_triple|done| |done]. intros a s. apply ready_safe.
  - apply modify_triple. intros s. apply safe_notes, refuse_msg_no_ack.
Qed.
End Safety.
