(* ===== verification/JournalRecovery.v ===== *)
(** * Recovery after any number of crashes

    What the repairs and the replay of [JournalStore.v] make of what a crash leaves:
    the store is fit for another session, every acknowledged write is replayed or
    covered by the base of a fold, and no sequence number is used twice. *)
From S2P Require Export JournalSafety.
Local Open Scope Z_scope.

Section Recovery.
Context `{L : JournalCratesLaws}.

(** ** The active file after the repairs *)

Lemma clean_no_header first fs c : c `prefix_of` active_header first ++ encode_frames fs ->
  no_header c = true /\ (length c < ACTIVE_HEADER_LEN)%nat \/
  no_header c = false /\ exists rest, c = active_header first ++ rest.
Proof.
  intros Hc. destruct (decide (length c < ACTIVE_HEADER_LEN)%nat) as [Hl|Hl].
  - left. split; [|done]. unfold no_header. destruct (Nat.ltb_spec (length c) ACTIVE_HEADER_LEN); [done|lia].
  - right. assert (exists rest, c = active_header first ++ rest) as [rest ->].
    { exists (drop ACTIVE_HEADER_LEN c). rewrite <- (take_drop ACTIVE_HEADER_LEN c) at 1. f_equal.
      destruct Hc as [k Hk]. apply (f_equal (take ACTIVE_HEADER_LEN)) in Hk.
      rewrite <- (length_active_header first) in Hk at 1. rewrite take_app_length in Hk.
      rewrite Hk. by rewrite take_app_le by lia. }
    split; [apply active_header_ok|by exists rest].
Qed.

(** A torn tail goes; the frames stay. *)
Lemma truncate_torn_clean next c : clean_file next c ->
  (truncate_torn c = [] /\ active_frames c = [] \/
   exists first, truncate_torn c = active_header first ++ encode_frames (active_frames c)) /\
  Forall (log_ok next) (active_frames c).
Proof.
  intros (first & fs & Hc & Hok). assert (Forall frame_ok fs) as Hfs
    by (eapply Forall_impl; [exact Hok|]; by intros f [? _]).
  split; [|by eapply Forall_prefix; [eapply prefix_frames|]].
  destruct (clean_no_header _ _ _ Hc) as [[Hh Hl]|[Hh [rest Hr]]].
  - left. unfold truncate_torn, active_frames, active_walk. by rewrite Hh.
  - right. exists first. unfold truncate_torn, active_frames, active_walk. rewrite Hh.
    destruct (walk_frames c ACTIVE_HEADER_LEN) as [gs last] eqn:Hw. cbn [fst snd].
    destruct (body_frames _ _ _ Hh Hw) as (Hb & _ & Hlast).
    rewrite <- Hb. rewrite <- (take_drop ACTIVE_HEADER_LEN (take last c)).
    rewrite take_take, Nat.min_l by lia. f_equal.
    + subst c. by rewrite <- (length_active_header first), take_app_length.
    + unfold slice. by rewrite skipn_firstn_comm.
Qed.

Definition newer (frontier : Z) (fs : list frame) : list frame := List.filter (fun f => frontier <? f.1) fs.
Lemma newer_all frontier fs : existsb (fun f => f.1 <=? frontier) fs = false -> newer frontier fs = fs.
Proof.
  induction fs as [|f fs IH]; [done|]. cbn [existsb newer List.filter]. intros [Hf Hfs]%orb_false_iff.
  apply Z.leb_gt in Hf. destruct (Z.ltb_spec frontier f.1); [|lia]. f_equal. by apply IH.
Qed.
Lemma newer_elem frontier fs f : f ∈ newer frontier fs <-> f ∈ fs /\ frontier < f.1.
Proof. unfold newer. rewrite !list_elem_of_In, filter_In, Z.ltb_lt. done. Qed.
Lemma newer_Forall P frontier fs : Forall P fs -> Forall P (newer frontier fs).
Proof. rewrite !Forall_forall. intros Hf x [Hx _]%newer_elem. auto. Qed.

Lemma base_frontier_nonneg segs : 0 <= base_frontier segs.
Proof.
  unfold base_frontier. generalize (seg_max_seq <$> List.filter (fun i => seg_kind i =? SEG_KIND_BASE)
    (journal_list_segments segs).*1) as l. intros l.
  assert (forall x, 0 <= x -> 0 <= foldl Z.max x l) as Hl; [|by apply Hl].
  induction l as [|y l IH]; intros x Hx; cbn; [done|]. apply IH. lia.
Qed.
(** The repaired file holds exactly the frames no base covers. *)
Lemma repaired_file segs next c : clean_file next c ->
  let bytes := truncate_overlap segs (truncate_torn c) in
  let log := newer (base_frontier segs) (active_frames c) in
  (bytes = [] /\ log = [] \/ exists first, bytes = active_header first ++ encode_frames log) /\
  Forall (log_ok next) log.
Proof.
  intros Hc. destruct (truncate_torn_clean _ _ Hc) as [Ht Hok]. cbv zeta.
  split; [|by apply newer_Forall]. unfold truncate_overlap.
  assert (base_frontier segs = 0 -> newer (base_frontier segs) (active_frames c) = active_frames c) as Hz.
  { intros ->. apply newer_all, existsb_false. rewrite Forall_forall in Hok.
    intros f [_ Hf]%Hok. apply Z.leb_gt. lia. }
  assert (Forall frame_ok (active_frames c)) as Hfs
    by (eapply Forall_impl; [exact Hok|]; by intros f [? _]).
  destruct (Z.eqb_spec (base_frontier segs) 0) as [E|E].
  { rewrite (Hz E). destruct Ht as [[-> ->]|[first ->]]; [by left|right; by exists first]. }
  destruct Ht as [[-> ->]|[first ->]]; [by left|]. right.
  pose proof (active_walk_frames first _ Hfs) as Hw. unfold active_walk in Hw.
  rewrite active_header_ok in Hw |- *. rewrite Hw. cbn [fst].
  destruct (existsb _ _) eqn:He.
  - by exists (u64_saturating_add (base_frontier segs) 1).
  - exists first. by rewrite newer_all.
Qed.

(** ** The segments a directory lists *)

Lemma zmax_cases l x : x <= foldl Z.max x l /\ (foldl Z.max x l = x \/ foldl Z.max x l ∈ l) /\
  forall y, y ∈ l -> y <= foldl Z.max x l.
Proof.
  revert x; induction l as [|z l IH]; intros x; cbn [foldl].
  { split_and!; [lia|by left|by intros y Hy%elem_of_nil]. }
  destruct (IH (Z.max x z)) as (H1 & H2 & H3). split_and!; [lia| |].
  - rewrite elem_of_cons. destruct H2 as [->|H2]; [|by right; right]. destruct (Z.max_spec x z); lia.
  - intros y [->|Hy]%elem_of_cons; [lia|by apply H3].
Qed.
Lemma listed_segments segs info b :
  (info, b) ∈ journal_list_segments segs <->
  exists name, segs !! name = Some b /\ read_segment_header (Some b) = Some info.
Proof.
  unfold journal_list_segments. rewrite elem_of_sort_by, list_elem_of_omap. split.
  - intros ([name b'] & Hin & Hh). cbn [snd] in Hh.
    destruct (read_segment_header (Some b')) as [i|] eqn:Hr; [|done]. injection Hh as -> ->.
    exists name. split; [by apply elem_of_map_to_list|done].
  - intros (name & Hl & Hr). exists (name, b). split; [by apply elem_of_map_to_list|]. cbn [snd].
    by rewrite Hr.
Qed.

Lemma foldl_max_le (fs : list frame) x : x <= foldl (fun m f => Z.max m f.1) x fs /\
  Forall (fun f => f.1 <= foldl (fun m f => Z.max m f.1) x fs) fs.
Proof.
  revert x; induction fs as [|f fs IH]; intros x; cbn [foldl]; [split; [lia|constructor]|].
  destruct (IH (Z.max x f.1)) as [H1 H2]. split; [lia|]. constructor; [lia|done].
Qed.
Lemma foldl_max_lt (fs : list frame) x n : Forall (fun f => f.1 < n) fs -> x < n ->
  foldl (fun m f => Z.max m f.1) x fs < n.
Proof.
  intros Hf. revert x; induction Hf as [|f fs Hf _ IH]; intros x Hx; cbn [foldl]; [lia|].
  apply IH. lia.
Qed.
Lemma foldl_min_nonneg (fs : list frame) x : Forall (fun f => 0 <= f.1) fs -> 0 <= x ->
  0 <= foldl (fun m f => Z.min m f.1) x fs.
Proof.
  intros Hf. revert x; induction Hf as [|f fs Hf _ IH]; intros x Hx; cbn [foldl]; [lia|].
  apply IH. lia.
Qed.
(** The range of a history segment *)
Lemma history_range m fs b : history_segment m fs b ->
  0 <= m <= max_seq_of fs /\ max_seq_of fs < 2 ^ 64 /\
  read_segment_header (Some b) =
    Some {| seg_kind := SEG_KIND_HISTORY; seg_min_seq := m; seg_max_seq := max_seq_of fs |}.
Proof.
  intros (Hs & Hok & Hne & ->).
  assert (0 <= min_seq_of fs) as Hmin.
  { apply foldl_min_nonneg; [|done]. eapply Forall_impl; [exact Hok|]. by intros f [[? _] _]. }
  assert (max_seq_of fs < 2 ^ 64) as Hmax.
  { apply foldl_max_lt; [|done]. eapply Forall_impl; [exact Hok|]. by intros f [[_ ?] _]. }
  assert (min_seq_of fs <= max_seq_of fs) as Hle.
  { destruct fs as [|f fs]; [done|]. pose proof (min_seq_le (f :: fs) f ltac:(left)).
    destruct (foldl_max_le (f :: fs) 0) as [_ [Hm _]%Forall_cons]. unfold max_seq_of. lia. }
  split_and!; [done..|]. eapply read_header_bytes; [|lia|lia|exact Hs]. done.
Qed.
Lemma base_range lines frontier b : base_segment lines frontier b ->
  read_segment_header (Some b) =
    Some {| seg_kind := SEG_KIND_BASE; seg_min_seq := frontier; seg_max_seq := frontier |}.
Proof. intros (Hs & _ & Hr). eapply read_header_bytes; [|done|done|exact Hs]. done. Qed.
Lemma legacy_range m b : legacy_segment m b ->
  read_segment_header (Some b) =
    Some {| seg_kind := SEG_KIND_LEGACY_JSONL; seg_min_seq := 0; seg_max_seq := 0 |}.
Proof. intros (_ & body & Hs). eapply read_header_bytes; [| | |exact Hs]; done. Qed.

Definition segments_ok (notes : list note) (segs : gmap seg_file (list byte)) : Prop :=
  forall name b, segs !! name = Some b -> seg_ok notes name b.
(** A positive base frontier is that of a base. *)
Lemma base_frontier_base notes segs : segments_ok notes segs -> 0 < base_frontier segs ->
  exists b, segs !! BSeg (base_frontier segs) = Some b.
Proof.
  intros Hok. unfold base_frontier. set (l := seg_max_seq <$> _).
  destruct (zmax_cases l 0) as (_ & [->|Hin] & _); [lia|]. intros _.
  unfold l in Hin. apply list_elem_of_fmap in Hin as (info & Hm & Hin). fold l in Hm. rewrite Hm.
  apply list_elem_of_In, filter_In in Hin as [Hin Hk%Z.eqb_eq].
  apply list_elem_of_In, list_elem_of_fmap in Hin as ([info' b] & -> & Hin). cbn [fst] in *.
  apply listed_segments in Hin as (name & Hl & Hr). pose proof (Hok _ _ Hl) as Hs.
  destruct name as [m|frontier].
  - destruct Hs as [[fs Hh]|Hleg].
    + destruct (history_range _ _ _ Hh) as (_ & _ & Hr'). rewrite Hr in Hr'. by injection Hr' as ->.
    + rewrite (legacy_range _ _ Hleg) in Hr. by injection Hr as <-.
  - destruct Hs as (lines & _ & Hb). rewrite (base_range _ _ _ Hb) in Hr. injection Hr as <-. by exists b.
Qed.
Lemma max_seq_segment segs bytes info b : (info, b) ∈ journal_list_segments segs ->
  seg_max_seq info <= journal_max_seq segs bytes.
Proof.
  intros Hin. unfold journal_max_seq.
  set (l := seg_max_seq <$> (journal_list_segments segs).*1).
  destruct (zmax_cases (fst <$> active_frames bytes) (foldl Z.max 0 l)) as (H1 & _ & _).
  destruct (zmax_cases l 0) as (_ & _ & H2).
  assert (seg_max_seq info ∈ l) as Hl; [|specialize (H2 _ Hl); lia].
  apply list_elem_of_fmap. exists info. split; [done|]. apply list_elem_of_fmap. by exists (info, b).
Qed.
Lemma max_seq_frame segs bytes f : f ∈ active_frames bytes -> f.1 <= journal_max_seq segs bytes.
Proof.
  intros Hin. destruct (zmax_cases (fst <$> active_frames bytes)
    (foldl Z.max 0 (seg_max_seq <$> (journal_list_segments segs).*1))) as (_ & _ & H).
  apply H, list_elem_of_fmap. by exists f.
Qed.
Lemma max_seq_nonneg segs bytes : 0 <= journal_max_seq segs bytes.
Proof.
  unfold journal_max_seq. set (l := seg_max_seq <$> _).
  destruct (zmax_cases l 0) as (H1 & _ & _).
  destruct (zmax_cases (fst <$> active_frames bytes) (foldl Z.max 0 l)) as (H2 & _ & _). lia.
Qed.

(** ** A crash and the session after it *)

Lemma crash_clean log s c : inv log s -> crash_content (st_active s) c -> clean_file (st_next_seq s) c.
Proof.
  intros Hi [->|[Hp _]]; [exact (inv_synced _ _ Hi)|]. destruct (inv_bytes _ _ Hi) as [first Hb].
  exists first, log. split; [|exact (inv_log _ _ Hi)]. etrans; [exact Hp|]. etrans; [|exact Hb].
  by apply prefix_app_r.
Qed.
(** Whatever the crash leaves, an acknowledged write is in the file, in a segment whose
    frames all come before the file's, or covered by a base. *)
Lemma crash_kept log s c f : inv log s -> crash_content (st_active s) c -> kept log s f ->
  f ∈ active_frames c \/
  (exists m fs b, st_segs s !! JSeg m = Some b /\ history_segment m fs b /\ f ∈ fs /\
     Forall (fun g => m < g.1) (active_frames c)) \/ in_base s f.
Proof.
  intros Hi Hc [[Hp Hf]|[Hj|Hb]]; [left| |by right; right].
  - eapply prefix_elem_of; [|exact Hf]. apply active_frames_prefix.
    destruct Hc as [->|[_ Hc]]; [done|by apply Hc].
  - destruct Hj as (m & fs & b & Hl & Hs & Hin & _ & Hm & Hsy).
    destruct Hc as [->|[Hp _]].
    + destruct Hsy as [Hsy|Hsy]; [by left|right; left]. by exists m, fs, b.
    + right; left. exists m, fs, b. split_and!; [done..|]. eapply Forall_prefix; [|exact Hm].
      etrans; [by apply active_frames_prefix|]. exact (file_frames _ _ Hi).
Qed.

Lemma recover_startable answers s c : safe s -> crash_content (st_active s) c ->
  startable (journal_recover answers c s).
Proof.
  intros Hs Hc Hf. cbn in Hf. destruct (Hs Hf) as [log0 Hi].
  pose proof (crash_clean _ _ _ Hi Hc) as Hcl.
  destruct (repaired_file (st_segs s) _ _ Hcl) as [Hfile Hlog]. cbv zeta in Hfile.
  set (log := newer (base_frontier (st_segs s)) (active_frames c)) in *.
  set (bytes := truncate_overlap (st_segs s) (truncate_torn c)) in *.
  assert (Forall frame_ok log) as Hok by (eapply Forall_impl; [exact Hlog|]; by intros f [? _]).
  assert (active_frames bytes = log) as Hframes.
  { destruct Hfile as [[-> ->]|[first ->]]; [done|by apply active_frames_of]. }
  assert (segments_ok (st_notes s) (st_segs s)) as Hsegs by (intros nm b; apply (inv_segs _ _ Hi)).
  assert (Forall (log_ok (journal_max_seq (st_segs s) bytes + 1)) log) as Hlog'.
  { rewrite Forall_forall in Hlog |- *. intros f Hin. destruct (Hlog f Hin) as [? ?]. split; [done|].
    rewrite <- Hframes in Hin. pose proof (max_seq_frame (st_segs s) _ _ Hin). lia. }
  exists log. split_and!; [|done|].
  - split; try done.
    + by left.
    + unfold total_bytes. cbn. rewrite app_nil_r. fold bytes.
      destruct Hfile as [[-> _]|[first ->]]; [exists 0; apply prefix_nil|by exists first].
    + cbn. fold bytes. destruct Hfile as [[-> _]|[first ->]].
      * exists 0, []. split; [apply prefix_nil|constructor].
      * by exists first, log.
    + cbn. pose proof (max_seq_nonneg (st_segs s) bytes). fold bytes. lia.
    + intros seq p Hn. cbn in Hn.
      destruct (crash_kept _ _ _ _ Hi Hc (inv_acks _ _ Hi _ _ Hn)) as [Hin|[Hj|Hb]].
      * destruct (Z.ltb_spec (base_frontier (st_segs s)) seq) as [Hnew|Hold].
        -- left. split; [done|]. cbn. fold bytes. rewrite Hframes. by apply newer_elem.
        -- right; right. assert (0 < seq) as Hpos.
           { destruct (truncate_torn_clean _ _ Hcl) as [_ Hall]. rewrite Forall_forall in Hall.
             destruct (Hall _ Hin) as [_ ?]. cbn in *. lia. }
           destruct (base_frontier_base _ _ Hsegs) as [b Hb]; [lia|]. by exists (base_frontier (st_segs s)), b.
      * right; left. destruct Hj as (m & fs & b & Hl & Hh & Hfs & Hm). exists m, fs, b.
        assert (Forall (fun g => m < g.1) log) as Hml by by apply newer_Forall.
        split_and!; [done..| |exact Hml|].
        -- cbn. fold bytes. destruct (history_range _ _ _ Hh) as (Hr & _ & Hhead).
           pose proof (max_seq_segment (st_segs s) bytes _ b
             (proj2 (listed_segments _ _ _) (ex_intro _ (JSeg m) (conj Hl Hhead)))) as Hmax.
           cbn in Hmax. lia.
        -- right. cbn. fold bytes. by rewrite Hframes.
      * by right; right.
  - cbn. fold bytes. destruct Hfile as [[-> ->]|[first Hb]]; [by left|right; by exists first].
Qed.

(** ** Sessions *)

(** Where a run stopped: at the end of its code, or wherever the machine did *)
Definition stop {A} (m : disk A) (s : store) : store :=
  match m s with Ok (_, s') => s' | Err s' => s' end.
(** A new database, or one whose legacy log was just sealed *)
Definition new_store (answers : list answer) (segs : gmap seg_file (list byte)) : store := {|
  st_answers := answers; st_active := {| f_bytes := []; f_synced := [] |}; st_segs := segs;
  st_tmps := ∅; st_handle := HAppend; st_buf := []; st_next_seq := 1; st_poisoned := false;
  st_notes := []; st_fault := None |}.
Definition only_legacy (segs : gmap seg_file (list byte)) : Prop :=
  forall name b, segs !! name = Some b -> exists m, name = JSeg m /\ legacy_segment m b.
(** The stores a session of the writer thread can start in: a new one, or what recovery
    makes of any crash of any session, whatever the operating system answered. *)
Inductive session : store -> Prop :=
| session_new answers segs : only_legacy segs -> session (new_store answers segs)
| session_crash threshold queue s c answers :
    session s -> crash_content (st_active (stop (writer_thread threshold queue) s)) c ->
    session (journal_recover answers c (stop (writer_thread threshold queue) s)).

Lemma session_startable s : session s -> startable s.
Proof.
  induction 1 as [answers segs Hl|threshold queue s c answers _ IH Hc].
  - intros _. exists []. split_and!; [|done|by left]. split; try done.
    + by left.
    + exists 0. apply prefix_nil.
    + exists 0, []. split; [apply prefix_nil|constructor].
    + intros name b Hb. destruct (Hl _ _ Hb) as (m & -> & Hleg). by right.
    + by intros seq p Hn%elem_of_nil.
  - apply recover_startable; [|exact Hc].
    pose proof (thread_triple threshold queue s IH) as Ht. unfold stop.
    by destruct (writer_thread _ _ _) as [[[] ?]|?].
Qed.
Lemma session_safe threshold queue s : session s -> safe (stop (writer_thread threshold queue) s).
Proof.
  intros Hs. pose proof (thread_triple threshold queue s (session_startable _ Hs)) as Ht. unfold stop.
  by destruct (writer_thread _ _ _) as [[[] ?]|?].
Qed.

(** ** Replay *)

(** Every segment is within the reader's bounds, which the writer does not check. *)
Definition within_bounds (segs : gmap seg_file (list byte)) : Prop :=
  forall name b, segs !! name = Some b -> zlen b <= MAX_JOURNAL_SEGMENT_FILE_BYTES /\
  forall kind mn mx n body, segment_bytes kind CODEC_LZ4 mn mx n body = Some b ->
    zlen body <= MAX_JOURNAL_SEGMENT_BODY_BYTES.
Definition scan (s : store) : list (Z * JournalEventOrigin * list byte) :=
  scan_journal None true (st_segs s) (f_bytes (st_active s)).

Lemma scan_sealed s name b kind mn mx fs f : within_bounds (st_segs s) ->
  st_segs s !! name = Some b -> kind = SEG_KIND_HISTORY \/ kind = SEG_KIND_BASE ->
  segment_bytes kind CODEC_LZ4 mn mx (zlen fs) (encode_frames fs) = Some b -> Forall frame_ok fs ->
  read_segment_header (Some b) = Some {| seg_kind := kind; seg_min_seq := mn; seg_max_seq := mx |} ->
  f ∈ fs -> (f.1, if kind =? SEG_KIND_BASE then OriginBase else OriginHistory, f.2) ∈ scan s.
Proof.
  intros Hb Hl Hk Hs Hok Hr Hf. destruct (Hb _ _ Hl) as [Hfile Hbody].
  pose proof (Hbody _ _ _ _ _ Hs) as Hsize.
  assert (read_segment_body (Some (quiet_file b)) = Some (kind, encode_frames fs)) as Hrb
    by (eapply read_segment_bytes; [by destruct Hk; subst|by right|done|done|exact Hs]).
  apply elem_of_app. left. apply list_elem_of_In, in_concat.
  eexists. split; [apply list_elem_of_In, list_elem_of_fmap; eexists; split; [reflexivity|]|].
  - apply listed_segments. exists name. split; [exact Hl|exact Hr].
  - unfold scan_segment. cbn [fst snd seg_kind seg_max_seq after_cursor negb].
    rewrite Hrb. replace (kind =? SEG_KIND_LEGACY_JSONL) with false by (by destruct Hk; subst).
    cbn [fmap option_fmap option_map snd]. apply list_elem_of_In, list_elem_of_fmap. exists f.
    split; [done|]. apply list_elem_of_In, filter_In. split; [|done].
    rewrite walk_body by done. by apply list_elem_of_In.
Qed.
Lemma scan_history s m fs b f : within_bounds (st_segs s) -> st_segs s !! JSeg m = Some b ->
  history_segment m fs b -> f ∈ fs -> (f.1, OriginHistory, f.2) ∈ scan s.
Proof.
  intros Hb Hl Hh Hf. destruct (history_range _ _ _ Hh) as (_ & _ & Hr). destruct Hh as (Hs & Hok & _).
  eapply (scan_sealed s _ _ SEG_KIND_HISTORY); eauto.
Qed.
Lemma scan_base s lines frontier b f : within_bounds (st_segs s) -> st_segs s !! BSeg frontier = Some b ->
  base_segment lines frontier b -> f ∈ checkpoint_frames lines frontier ->
  (f.1, OriginBase, f.2) ∈ scan s.
Proof.
  intros Hb Hl Hh Hf. pose proof (base_range _ _ _ Hh) as Hr. destruct Hh as (Hs & Hok & _).
  eapply (scan_sealed s _ _ SEG_KIND_BASE); eauto.
Qed.
Lemma scan_active s f : f ∈ active_frames (f_bytes (st_active s)) -> base_frontier (st_segs s) < f.1 ->
  (f.1, OriginActive, f.2) ∈ scan s.
Proof.
  intros Hf Hb. apply elem_of_app. right. apply list_elem_of_fmap. exists f. split; [done|].
  destruct (Nat.leb_spec (length (f_bytes (st_active s))) ACTIVE_HEADER_LEN) as [Hl|Hl].
  { rewrite active_frames_short in Hf by done. by apply elem_of_nil in Hf. }
  apply list_elem_of_In, filter_In. split; [by apply list_elem_of_In|].
  apply andb_true_iff. split; [by apply Z.ltb_lt|done].
Qed.

(** A write that replay hands back itself, or that a fold's base stands for: a
    checkpoint at or past its number, all of whose lines replay hands back. *)
Definition recovered (s : store) (seq : Z) (payload : list byte) : Prop :=
  (exists origin, (seq, origin, payload) ∈ scan s) \/
  exists lines frontier, NFold lines frontier ∈ st_notes s /\ seq <= frontier /\
    forall f, f ∈ checkpoint_frames lines frontier -> (f.1, OriginBase, f.2) ∈ scan s.

Lemma kept_recovered log s seq payload : inv log s -> within_bounds (st_segs s) ->
  Forall (fun f => base_frontier (st_segs s) < f.1) (active_frames (f_bytes (st_active s))) ->
  kept log s (seq, payload) -> recovered s seq payload.
Proof.
  intros Hi Hb Hnew [[Hp Hf]|[Hj|Hbase]].
  - left. exists OriginActive. apply (scan_active s (seq, payload)).
    + eapply prefix_elem_of; [|exact Hf]. by apply active_frames_prefix.
    + rewrite Forall_forall in Hnew. apply Hnew. eapply prefix_elem_of; [|exact Hf].
      by apply active_frames_prefix.
  - destruct Hj as (m & fs & b & Hl & Hh & Hin & _). left. exists OriginHistory.
    by eapply (scan_history s m fs b (seq, payload)).
  - destruct Hbase as (frontier & b & Hl & Hle). right.
    destruct (inv_segs _ _ Hi _ _ Hl) as (lines & Hn & Hseg). exists lines, frontier.
    split_and!; [done|done|]. intros f Hf. by eapply scan_base.
Qed.

End Recovery.
