(* ===== verification/JournalNumbers.v ===== *)
(** * The numbers of acknowledged writes, and the answers to clients

    Sequence numbers of acknowledged writes increase strictly over all sessions, so a
    number names one write; and the thread answers every message exactly once. *)
From Stdlib Require Import Sorted.
From S2P Require Export JournalRecovery.
Local Open Scope Z_scope.

Section Numbers.
Context `{L : JournalCratesLaws}.

Definition acked (notes : list note) : list Z :=
  omap (fun n => match n with NAck seq _ => Some seq | _ => None end) notes.
(** The answers the clients received *)
Definition answered (notes : list note) : list note :=
  List.filter (fun n => match n with NFold _ _ => false | _ => true end) notes.

Lemma acked_app l k : acked (l ++ k) = acked l ++ acked k.
Proof. apply omap_app. Qed.
Lemma answered_app l k : answered (l ++ k) = answered l ++ answered k.
Proof. unfold answered. apply List.filter_app. Qed.

(** ** Code that leaves the numbers and the answers alone *)

Record keeps (s s' : store) : Prop := {
  keeps_next : st_next_seq s' = st_next_seq s;
  keeps_acked : acked (st_notes s') = acked (st_notes s);
  keeps_answered : answered (st_notes s') = answered (st_notes s);
  keeps_fault : st_fault s' = None -> st_fault s = None;
}.
#[local] Instance keeps_pre : PreOrder keeps.
Proof.
  split; [by split|]. intros s1 s2 s3 [A1 A2 A3 A4] [B1 B2 B3 B4]. split; try congruence. auto.
Qed.
Definition keeping {A} (m : disk A) : Prop :=
  forall s, match m s with Ok (_, s') | Err s' => keeps s s' end.
Lemma keeping_ret {A} (a : A) : keeping (mret a).
Proof. intros s. by apply keeps_pre. Qed.
Lemma keeping_bind {A B} (m : disk A) (f : A -> disk B) :
  keeping m -> (forall a, keeping (f a)) -> keeping (m ≫= f).
Proof.
  intros Hm Hf s. specialize (Hm s). rewrite sm_bind_eq. destruct (m s) as [[a t]|t]; [|done].
  specialize (Hf a t). destruct (f a t) as [[b u]|u]; by etrans.
Qed.
Lemma keeping_reads {A} (f : store -> A) : keeping (reads f).
Proof. intros s. by apply keeps_pre. Qed.
Lemma keeping_modify f : (forall s, keeps s (f s)) -> keeping (modify f).
Proof. intros Hf s. apply Hf. Qed.
Lemma keeping_syscall : keeping syscall.
Proof. intros s. unfold syscall. destruct (st_answers s); by split. Qed.
Lemma keeping_mfor {A B} (f : B -> A -> disk B) b l : (forall b a, keeping (f b a)) -> keeping (mfor f b l).
Proof.
  intros Hf. revert b; induction l as [|a l IH]; intros b; [apply keeping_ret|].
  cbn [mfor]. apply keeping_bind; [apply Hf|apply IH].
Qed.
Lemma file_write_keeps data s : keeps s (file_write data s).
Proof. unfold file_write. by destruct (st_handle s). Qed.
Lemma set_fault_keeps f s : keeps s (set_fault f s).
Proof. split; try done. cbn. by destruct (st_fault s). Qed.

Ltac keep_step :=
  match goal with
  | |- keeping (mret _) => apply keeping_ret
  | |- keeping (reads _) => apply keeping_reads
  | |- keeping (modify (file_write _)) => apply keeping_modify; intros; apply file_write_keeps
  | |- keeping (modify (set_fault _)) => apply keeping_modify; intros; apply set_fault_keeps
  | |- keeping (modify _) => apply keeping_modify; intros; by split
  | |- keeping syscall => apply keeping_syscall
  | |- keeping (mbind _ _) => apply keeping_bind; [|intros]
  | |- keeping (mfor _ _ _) => apply keeping_mfor; intros
  | |- keeping (match ?x with _ => _ end) => destruct x
  | |- keeping _ => solve [eauto with keeping]
  end.
Ltac keep := repeat keep_step.

Lemma keeping_attempt : keeping attempt.
Proof. unfold attempt. keep. Qed.
Hint Resolve keeping_attempt : keeping.
Lemma keeping_raw_write data : keeping (raw_write data).
Proof. unfold raw_write. keep. Qed.
Hint Resolve keeping_raw_write : keeping.
Lemma keeping_sync_all : keeping sync_all.
Proof. unfold sync_all. keep. Qed.
Lemma keeping_flush : keeping flush.
Proof. unfold flush, set_buf. keep. Qed.
Hint Resolve keeping_sync_all keeping_flush : keeping.
Lemma keeping_write_all data : keeping (write_all data).
Proof. unfold write_all, set_buf. keep. Qed.
Lemma keeping_replace_writer h : keeping (replace_writer h).
Proof. unfold replace_writer. keep. Qed.
Hint Resolve keeping_write_all keeping_replace_writer : keeping.
Lemma keeping_write_synced data : keeping (write_synced data).
Proof. unfold write_synced. keep. Qed.
Lemma keeping_write_segment name kind codec mn mx n body :
  keeping (write_segment name kind codec mn mx n body).
Proof. unfold write_segment. keep. Qed.
Lemma keeping_remove_segments name : keeping (remove_segments name).
Proof. unfold remove_segments. keep. Qed.
Hint Resolve keeping_write_synced keeping_write_segment keeping_remove_segments : keeping.
Lemma keeping_open next : keeping (journal_open_active next).
Proof. unfold journal_open_active. keep. Qed.
Lemma keeping_reset next : keeping (journal_reset_active next).
Proof. unfold journal_reset_active. keep. Qed.
Hint Resolve keeping_open keeping_reset : keeping.
Lemma keeping_seal next : keeping (journal_seal_active next).
Proof. unfold journal_seal_active. keep. Qed.
Lemma keeping_maybe_seal threshold : keeping (maybe_seal threshold).
Proof. pose proof keeping_seal. unfold maybe_seal. keep. Qed.
Lemma keeping_fold lines frontier next : keeping (journal_fold lines frontier next).
Proof.
  unfold journal_fold. apply keeping_bind; [|intros; keep].
  apply keeping_modify. intros s. cbv zeta.
  transitivity (if forallb frame_okb ((frontier, []) :: checkpoint_frames lines frontier)
    then (if covers_acks frontier (st_notes s) then s else set_fault FStaleFold s)
    else set_fault FOversized (if covers_acks frontier (st_notes s) then s else set_fault FStaleFold s)).
  - repeat case_match; try reflexivity; try apply set_fault_keeps.
    etrans; apply set_fault_keeps.
  - split; try done; cbn; [by rewrite acked_app, app_nil_r|by rewrite answered_app, app_nil_r].
Qed.

(** What such code preserves, whether it ends or the machine stops *)
Class Kept (P : store -> Prop) : Prop := kept_keeps s s' : keeps s s' -> P s -> P s'.
Lemma keeping_triple {A} (m : disk A) P : keeping m -> Kept P -> triple P m (fun _ => P) P.
Proof.
  intros Hm HP s Hs. specialize (Hm s). destruct (m s) as [[a s']|s']; by eapply HP.
Qed.

(** ** The numbers increase *)

Definition increasing (l : list Z) (bound : Z) : Prop :=
  StronglySorted Z.lt l /\ Forall (fun x => x < bound) l.
Lemma increasing_app l k b : increasing (l ++ k) b -> increasing l b.
Proof.
  intros [Hs Hb]. apply Forall_app in Hb as [Hb _]. split; [|done].
  induction l as [|x l IH]; [constructor|]. apply StronglySorted_inv in Hs as [Hs Hx].
  apply Forall_app in Hx as [Hx _]. constructor; [|done]. apply IH; [done|]. by inversion Hb.
Qed.
Lemma increasing_snoc l b : increasing l b -> increasing (l ++ [b]) (b + 1).
Proof.
  intros [Hs Hb]. split.
  - induction Hs as [|x l Hs IH Hx]; [repeat constructor|]. apply Forall_cons in Hb as [Hb1 Hb].
    cbn. constructor; [auto|]. apply Forall_app. by split; [|constructor].
  - apply Forall_app. split; [|constructor; [lia|done]]. eapply Forall_impl; [exact Hb|]. cbn. lia.
Qed.
Lemma increasing_le l b b' : b <= b' -> increasing l b -> increasing l b'.
Proof. intros Hb [Hs Hl]. split; [done|]. eapply Forall_impl; [exact Hl|]. cbn. lia. Qed.

(** The acknowledged numbers, then those of the batch, below the counter *)
Definition numbered (batch : list frame) : store -> Prop :=
  guarded (fun s => increasing (acked (st_notes s) ++ batch.*1) (st_next_seq s)).
#[local] Instance numbered_kept batch : Kept (numbered batch).
Proof.
  intros s s' [H1 H2 _ H4] Hs Hf. unfold numbered, guarded in Hs. cbn. rewrite H1, H2. apply Hs, H4, Hf.
Qed.
Lemma numbered_nil batch s : numbered batch s -> numbered [] s.
Proof.
  intros Hn Hf. specialize (Hn Hf). cbn in Hn |- *. rewrite app_nil_r. by eapply increasing_app.
Qed.
Lemma numbered_notes batch l s : acked l = [] -> numbered batch s -> numbered batch (add_notes l s).
Proof. intros Hl Hn Hf. cbn. rewrite acked_app, Hl, app_nil_r. by apply Hn. Qed.

Lemma keeping_numbered {A} (m : disk A) batch : keeping m ->
  triple (numbered batch) m (fun _ => numbered batch) (numbered []).
Proof.
  intros Hm. eapply triple_conseq; [apply (keeping_triple m (numbered batch)); [exact Hm|exact _]|done..|].
  apply numbered_nil.
Qed.
Lemma append_numbered io_ok batch json :
  triple (numbered batch) (append_frame io_ok batch json) (fun r => numbered r.2) (numbered []).
Proof.
  unfold append_frame. destruct io_ok; cbn [negb].
  2: { apply (triple_bind _ _ _ (fun _ => numbered batch)); [|intros _; by apply triple_ret].
       apply modify_triple. intros s. by apply numbered_notes. }
  destruct json as [payload|].
  2: { apply (triple_bind _ _ _ (fun _ => numbered batch)); [|intros _; by apply triple_ret].
       apply modify_triple. intros s. by apply numbered_notes. }
  eapply triple_bind; [apply (reads_triple (numbered batch))|]. intros seq.
  apply (triple_bind _ _ _ (fun _ => numbered (batch ++ [(seq, payload)]))).
  - apply modify_triple. intros s [Hn <-] Hf.
    assert (st_fault s = None) as Hf'.
    { destruct (frame_okb _); [done|]. cbn in Hf. by destruct (st_fault s). }
    specialize (Hn Hf'). cbn in Hn. apply increasing_snoc in Hn.
    rewrite <- (assoc app) in Hn. destruct (frame_okb _); cbn; by rewrite fmap_app.
  - intros _. eapply triple_bind; [apply keeping_numbered, keeping_write_all|].
    intros ok. by apply triple_ret.
Qed.
Lemma drain_numbered queue io_ok batch :
  triple (numbered batch) (drain queue io_ok batch) (fun r => numbered r.1.1.2) (numbered []).
Proof.
  revert io_ok batch; induction queue as [|msg queue IH]; intros io_ok batch; cbn [drain];
    [by apply triple_ret|].
  destruct (1024 <=? length batch)%nat; [by apply triple_ret|].
  eapply triple_bind; [apply keeping_numbered, keeping_attempt|].
  intros []; cbn [negb]; [|by apply triple_ret].
  destruct msg; [|by apply triple_ret].
  eapply triple_bind; [apply append_numbered|]. intros [io_ok' batch']. apply IH.
Qed.
Lemma acked_batch ok batch :
  acked ((fun f : frame => if ok : bool then NAck f.1 f.2 else NRefuse) <$> batch) =
  if ok then batch.*1 else [].
Proof. destruct ok; induction batch as [|f batch IH]; try done; cbn; by rewrite <- IH. Qed.
Lemma keeping_sync_batch io_ok :
  keeping (if io_ok : bool then ok ← flush; if negb ok then mret false else sync_all else mret false).
Proof. keep. Qed.
Lemma finish_numbered io_ok batch :
  triple (numbered batch) (finish_batch io_ok batch) (fun _ => numbered []) (numbered []).
Proof.
  eapply triple_bind; [apply keeping_numbered, keeping_sync_batch|]. intros ok.
  apply modify_triple. intros s Hn.
  assert (numbered [] (add_notes ((fun f : frame => if ok : bool then NAck f.1 f.2 else NRefuse) <$> batch) s)).
  { intros Hf. specialize (Hn Hf). cbn. rewrite acked_app, acked_batch, app_nil_r. cbn in Hn.
    destruct ok; [done|]. rewrite app_nil_r. by eapply increasing_app. }
  by destruct (negb ok && _).
Qed.
Lemma fold_numbered lines frontier :
  triple (numbered []) (run_fold lines frontier) (fun _ => numbered []) (numbered []).
Proof.
  eapply triple_bind; [apply keeping_numbered, keeping_reads|]. intros next.
  eapply triple_bind; [apply keeping_numbered, keeping_fold|]. intros ok.
  apply modify_triple. intros s Hn. apply numbered_notes; [done|]. by destruct ok.
Qed.
Lemma handle_numbered threshold msg queue :
  triple (numbered []) (handle_msg threshold msg queue) (fun _ => numbered []) (numbered []).
Proof.
  destruct msg as [json|lines frontier]; cbn [handle_msg].
  2: { eapply triple_bind; [apply fold_numbered|]. intros []. by apply triple_ret. }
  eapply triple_bind; [apply keeping_numbered, keeping_reads|]. intros poisoned.
  eapply triple_bind; [apply append_numbered|]. intros [io_ok batch].
  eapply triple_bind; [apply drain_numbered|]. intros [[[io_ok' batch'] pending'] queue'].
  eapply triple_bind; [apply finish_numbered|]. intros [].
  apply (triple_bind _ _ _ (fun _ => numbered [])); [|intros _; by apply triple_ret].
  destruct pending' as [[lines frontier]|]; [apply fold_numbered|].
  apply keeping_numbered, keeping_maybe_seal.
Qed.
Lemma thread_numbered threshold queue :
  triple (numbered []) (writer_thread threshold queue) (fun _ => numbered []) (numbered []).
Proof.
  eapply triple_bind; [apply keeping_numbered, keeping_reads|]. intros next.
  eapply triple_bind; [apply keeping_numbered, keeping_open|]. intros [].
  - generalize (length queue) as fuel. intros fuel. revert queue.
    induction fuel as [|fuel IH]; intros [|msg queue]; cbn [writer_loop]; try (by apply triple_ret).
    eapply triple_bind; [apply handle_numbered|]. intros queue'. apply IH.
  - apply modify_triple. intros s. apply numbered_notes. by induction queue as [|[] queue IH].
Qed.

(** Recovery starts its counter past every number an acknowledgement carried. *)
Lemma recovered_below answers c log s f :
  let r := journal_recover answers c s in
  inv log r -> kept log r f -> f.1 < st_next_seq r.
Proof.
  cbv zeta. intros Hi [[_ Hf]|[Hj|Hb]].
  - destruct (inv_synced _ _ Hi) as (first & fs & Hp & Hok).
    assert (Forall frame_ok fs) as Hfs by (eapply Forall_impl; [exact Hok|]; by intros g [? _]).
    rewrite Forall_forall in Hok. destruct (Hok f); [|lia].
    eapply prefix_elem_of; [|exact Hf]. by eapply prefix_frames.
  - destruct Hj as (m & fs & b & Hl & Hh & Hin & _). destruct (history_range _ _ _ Hh) as (_ & _ & Hr).
    destruct (foldl_max_le fs 0) as [_ Hmax]. rewrite Forall_forall in Hmax. apply Hmax in Hin.
    pose proof (max_seq_segment (st_segs s) (f_bytes (st_active (journal_recover answers c s))) _ b
      (proj2 (listed_segments _ _ _) (ex_intro _ (JSeg m) (conj Hl Hr)))) as Hle.
    cbn in Hle |- *. unfold max_seq_of in Hle. lia.
  - destruct Hb as (frontier & b & Hl & Hle). destruct (inv_segs _ _ Hi _ _ Hl) as (lines & _ & Hseg).
    pose proof (max_seq_segment (st_segs s) (f_bytes (st_active (journal_recover answers c s))) _ b
      (proj2 (listed_segments _ _ _) (ex_intro _ (BSeg frontier) (conj Hl (base_range _ _ _ Hseg))))) as Hmax.
    cbn in Hmax |- *. lia.
Qed.
Lemma acked_elem seq notes : seq ∈ acked notes <-> exists payload, NAck seq payload ∈ notes.
Proof.
  unfold acked. rewrite list_elem_of_omap. split.
  - intros ([] & Hin & Hs); try done. injection Hs as ->. by eexists.
  - intros [payload Hin]. by exists (NAck seq payload).
Qed.
Lemma numbered_recover answers c s : safe s -> crash_content (st_active s) c ->
  numbered [] s -> numbered [] (journal_recover answers c s).
Proof.
  intros Hs Hc Hn Hf. specialize (Hn Hf) as [Hsort _].
  destruct (recover_startable answers s c Hs Hc Hf) as (log & Hi & _).
  split; [exact Hsort|]. cbn [fmap list_fmap]. rewrite app_nil_r. apply Forall_forall.
  intros seq [payload Hin]%acked_elem. apply (recovered_below answers c log s (seq, payload) Hi).
  by apply (inv_acks _ _ Hi).
Qed.
Lemma session_numbered s : session s -> numbered [] s.
Proof.
  induction 1 as [answers segs Hl|threshold queue s c answers Hs IH Hc].
  - intros _. split; constructor.
  - apply numbered_recover; [by apply session_safe|done|].
    pose proof (thread_numbered threshold queue s IH) as Ht. unfold stop.
    by destruct (writer_thread _ _ _) as [[[] ?]|?].
Qed.


(** ** Every message is answered once *)

(** An answer fit for a message: an append is acknowledged with its own bytes or
    refused, a checkpoint is told whether it was folded. *)
Definition fits (msg : wal_msg) (n : note) : Prop :=
  match msg, n with
  | Append (Some payload), NAck _ payload' => payload' = payload
  | Append _, NRefuse => True
  | Checkpoint _ _, NFolded _ => True
  | _, _ => False
  end.
Definition settled (old : list note) (msgs : list wal_msg) (s : store) : Prop :=
  exists l, answered (st_notes s) ≡ₚ old ++ l /\ Forall2 fits msgs l.
Definition in_batch (batch : list frame) : list wal_msg := (fun f => Append (Some f.2)) <$> batch.
(** Of [all] messages those of [batch] and [queue] wait, the others had one answer. *)
Definition serving (old : list note) (all : list wal_msg) (batch : list frame) (queue : list wal_msg)
  (s : store) : Prop :=
  exists msgs, settled old msgs s /\ msgs ++ in_batch batch ++ queue ≡ₚ all.
#[local] Instance serving_kept old all batch queue : Kept (serving old all batch queue).
Proof.
  intros s s' Hk (msgs & (l & Hl & Hf) & Hp). exists msgs. split; [|done]. exists l.
  by rewrite (keeps_answered _ _ Hk).
Qed.
(** What holds if the machine stops: nothing was answered twice. *)
Definition stopped (old : list note) (all : list wal_msg) (s : store) : Prop :=
  exists msgs rest, settled old msgs s /\ msgs ++ rest ≡ₚ all.
Lemma serving_stopped old all batch queue s : serving old all batch queue s -> stopped old all s.
Proof. intros (msgs & Hs & Hp). by exists msgs, (in_batch batch ++ queue). Qed.
Lemma keeping_serving {A} (m : disk A) old all batch queue : keeping m ->
  triple (serving old all batch queue) m (fun _ => serving old all batch queue) (stopped old all).
Proof.
  intros Hm. eapply triple_conseq;
    [apply (keeping_triple m (serving old all batch queue)); [exact Hm|exact _]|done..|].
  apply serving_stopped.
Qed.
Lemma settled_notes old msgs more l s : answered l = l -> Forall2 fits more l ->
  settled old msgs s -> settled old (msgs ++ more) (add_notes l s).
Proof.
  intros Hl Hm (k & Hk & Hf). exists (k ++ l). split; [|by apply Forall2_app].
  cbn. by rewrite answered_app, Hl, Hk, (assoc app).
Qed.
(** Answering the messages [more] *)
Lemma serving_answer old all batch more queue l s : answered l = l -> Forall2 fits more l ->
  serving old all batch (more ++ queue) s -> serving old all batch queue (add_notes l s).
Proof.
  intros Hl Hm (msgs & Hs & Hp). exists (msgs ++ more). split; [by apply settled_notes|].
  rewrite <- Hp. solve_Permutation.
Qed.
Lemma append_serving old all io_ok batch json queue :
  triple (serving old all batch (Append json :: queue)) (append_frame io_ok batch json)
    (fun r => serving old all r.2 queue) (stopped old all).
Proof.
  unfold append_frame.
  assert (forall ok : bool, triple (serving old all batch (Append json :: queue))
    (modify (add_notes [NRefuse]) ;; mret (ok, batch))
    (fun r => serving old all r.2 queue) (stopped old all)) as Hrefuse.
  { intros ok. apply (triple_bind _ _ _ (fun _ => serving old all batch queue)); [|intros _; by apply triple_ret].
    apply modify_triple. intros s. apply (serving_answer _ _ _ [Append json]); [done|].
    repeat constructor. by destruct json. }
  destruct io_ok; cbn [negb]; [|apply Hrefuse]. destruct json as [payload|]; [|apply Hrefuse].
  eapply triple_bind; [apply keeping_serving, keeping_reads|]. intros seq.
  apply (triple_bind _ _ _ (fun _ => serving old all (batch ++ [(seq, payload)]) queue)).
  - apply modify_triple. intros s (msgs & Hs & Hp). exists msgs. split.
    + destruct Hs as (l & Hl & Hf). exists l. by destruct (frame_okb _).
    + rewrite <- Hp. unfold in_batch. rewrite fmap_app. solve_Permutation.
  - intros _. eapply triple_bind; [apply keeping_serving, keeping_write_all|]. intros ok. by apply triple_ret.
Qed.
Definition checkpoint_of (pending : option (list byte * Z)) : list wal_msg :=
  match pending with Some (lines, frontier) => [Checkpoint lines frontier] | None => [] end.
Lemma drain_serving old all queue io_ok batch :
  triple (serving old all batch queue) (drain queue io_ok batch)
    (fun r s => serving old all r.1.1.2 (checkpoint_of r.1.2 ++ r.2) s /\
       (length (r.2 : list wal_msg) <= length queue)%nat) (stopped old all).
Proof.
  revert io_ok batch; induction queue as [|msg queue IH]; intros io_ok batch; cbn [drain];
    [by apply triple_ret|].
  destruct (1024 <=? length batch)%nat; [by apply triple_ret|].
  eapply triple_bind; [apply keeping_serving, keeping_attempt|].
  intros []; cbn [negb]; [|by apply triple_ret].
  destruct msg as [json|lines frontier].
  - eapply triple_bind; [apply append_serving|]. intros [io_ok' batch'].
    eapply triple_conseq; [apply IH|done| |done]. intros r s [Hr Hl]. split; [done|]. cbn. lia.
  - apply triple_ret. intros s Hs. split; [done|]. cbn. lia.
Qed.
Lemma finish_serving old all io_ok batch queue :
  triple (serving old all batch queue) (finish_batch io_ok batch) (fun _ => serving old all [] queue)
    (stopped old all).
Proof.
  eapply triple_bind; [apply keeping_serving, keeping_sync_batch|]. intros ok.
  apply modify_triple. intros s Hs.
  assert (serving old all [] queue
    (add_notes ((fun f : frame => if ok : bool then NAck f.1 f.2 else NRefuse) <$> batch) s)) as Hn.
  { destruct Hs as (msgs & Hs & Hp). exists (msgs ++ in_batch batch). split.
    - apply settled_notes; [| |exact Hs]; clear; induction batch as [|f batch IH]; try constructor.
      + unfold answered in *. cbn [fmap list_fmap List.filter]. destruct ok; by f_equal.
      + by destruct ok.
      + exact IH.
    - rewrite <- Hp. unfold in_batch. solve_Permutation. }
  by destruct (negb ok && _).
Qed.
Lemma fold_serving old all lines frontier queue :
  triple (serving old all [] (Checkpoint lines frontier :: queue)) (run_fold lines frontier)
    (fun _ => serving old all [] queue) (stopped old all).
Proof.
  eapply triple_bind; [apply keeping_serving, keeping_reads|]. intros next.
  eapply triple_bind; [apply keeping_serving, keeping_fold|]. intros ok.
  apply modify_triple. intros s Hs. apply (serving_answer _ _ _ [Checkpoint lines frontier]); [done| |].
  - by repeat constructor.
  - by destruct ok.
Qed.
Lemma handle_serving old all threshold msg queue :
  triple (serving old all [] (msg :: queue)) (handle_msg threshold msg queue)
    (fun queue' s => serving old all [] queue' s /\ (length queue' <= length queue)%nat) (stopped old all).
Proof.
  destruct msg as [json|lines frontier]; cbn [handle_msg].
  2: { eapply triple_bind; [apply fold_serving|]. intros []. by apply triple_ret. }
  eapply triple_bind; [apply keeping_serving, keeping_reads|]. intros poisoned.
  eapply triple_bind; [apply append_serving|]. intros [io_ok batch].
  eapply triple_bind; [apply drain_serving|]. intros [[[io_ok' batch'] pending'] queue']. cbn [fst snd].
  intros s [Hs Hl]. revert s Hs.
  change (triple (serving old all batch' (checkpoint_of pending' ++ queue'))
    (finish_batch io_ok' batch' ;;
     match pending' with
     | Some (lines, frontier) => run_fold lines frontier
     | None => maybe_seal threshold
     end ;; mret queue')
    (fun q s => serving old all [] q s /\ (length q <= length queue)%nat) (stopped old all)).
  eapply triple_bind; [apply finish_serving|]. intros [].
  apply (triple_bind _ _ _ (fun _ => serving old all [] queue')); [|intros _; by apply triple_ret].
  destruct pending' as [[lines frontier]|]; [apply fold_serving|].
  apply keeping_serving, keeping_maybe_seal.
Qed.
Lemma loop_serving old all threshold fuel queue : (length queue <= fuel)%nat ->
  triple (serving old all [] queue) (writer_loop threshold fuel queue)
    (fun _ => serving old all [] []) (stopped old all).
Proof.
  revert queue; induction fuel as [|fuel IH]; intros [|msg queue] Hf; cbn [writer_loop];
    try (by apply triple_ret); [cbn in Hf; lia|].
  eapply triple_bind; [apply handle_serving|]. intros queue' s [Hs Hl].
  apply IH; [cbn in Hf; lia|done].
Qed.

Lemma serving_settled old all s : serving old all [] [] s -> settled old all s.
Proof.
  intros (msgs & (l & Hl & Hf) & Hp). cbn in Hp. rewrite app_nil_r in Hp.
  destruct (Permutation_Forall2 Hp Hf) as (l' & Hp' & Hf'). exists l'. split; [|done].
  by rewrite Hl, Hp'.
Qed.
Lemma thread_serving old threshold queue :
  triple (serving old queue [] queue) (writer_thread threshold queue)
    (fun _ => settled old queue) (stopped old queue).
Proof.
  eapply triple_bind; [apply keeping_serving, keeping_reads|]. intros next.
  eapply triple_bind; [apply keeping_serving, keeping_open|]. intros [].
  - eapply triple_conseq; [by apply (loop_serving old queue)|done| |done].
    intros a s. apply serving_settled.
  - apply modify_triple. intros s Hs. apply serving_settled.
    apply (serving_answer _ _ _ queue); [| |by rewrite app_nil_r].
    + clear. unfold answered. induction queue as [|[] queue IH]; [done|cbn; by f_equal..].
    + clear. induction queue as [|[[]|] queue IH]; by constructor.
Qed.

(** C24: Every message is answered exactly once, with an answer fit for it, when the thread
    ends; and at most once if the machine stops before that. *)
Theorem answered_once threshold queue s :
  match writer_thread threshold queue s with
  | Ok (_, s') => settled (answered (st_notes s)) queue s'
  | Err s' => stopped (answered (st_notes s)) queue s'
  end.
Proof.
  apply (thread_serving (answered (st_notes s)) threshold queue s).
  exists []. split; [|done]. exists []. by rewrite app_nil_r.
Qed.
End Numbers.

(** ** Acknowledged writes that do not survive

    The runs that leave the contract of [acknowledged_recovered]: a reset that fails
    without stopping the thread, and payloads no reader accepts. *)

Section Oversized.
Context `{L : JournalCratesLaws}.

Lemma read_frame_oversize seq payload tail : MAX_JOURNAL_FRAME_PAYLOAD_BYTES < zlen payload < 2 ^ 32 ->
  read_frame (frame_bytes (seq, payload) ++ tail) 0 = None.
Proof.
  intros [Hl Hu]. destruct (frame_fields (seq, payload) tail) as (F1 & _).
  unfold read_frame, FRAME_HEADER_LEN. cbv zeta. rewrite !Nat.add_0_l, F1.
  destruct (_ <? 16)%nat; [done|]. rewrite le_val_bytes. cbn [snd].
  rewrite Z.mod_small by (pose proof (zlen_nonneg payload); cbn; lia).
  destruct (Z.ltb_spec MAX_JOURNAL_FRAME_PAYLOAD_BYTES (zlen payload)); [done|lia].
Qed.
(** The walk stops in front of it, whatever was written behind it. *)
Lemma truncate_torn_oversize first fs seq payload tail : Forall frame_ok fs ->
  MAX_JOURNAL_FRAME_PAYLOAD_BYTES < zlen payload < 2 ^ 32 ->
  truncate_torn (active_header first ++ encode_frames fs ++ frame_bytes (seq, payload) ++ tail) =
  active_header first ++ encode_frames fs.
Proof.
  intros Hfs Hp. unfold truncate_torn, active_walk. rewrite active_header_ok.
  rewrite <- (length_active_header first).
  rewrite (walk_frames_hit fs (active_header first) (frame_bytes (seq, payload) ++ tail) Hfs)
    by by apply read_frame_oversize.
  cbn [snd]. by rewrite (assoc app), take_app_length.
Qed.

Lemma crash_synced f c : f_synced f = f_bytes f -> crash_content f c -> c = f_bytes f.
Proof.
  intros Hf [->|[[k Hk] Hp]]; [done|]. destruct (Hp ltac:(by rewrite Hf)) as [m Hm].
  rewrite Hm, Hf, <- (assoc app) in Hk. apply (f_equal length) in Hk. rewrite !length_app in Hk.
  rewrite Hm, Hf. destruct m; [by rewrite app_nil_r|cbn in Hk; lia].
Qed.
(** A write that needs no buffer *)
Lemma write_all_large data s l : BUF_CAPACITY < zlen data -> st_buf s = [] -> st_answers s = Done :: l ->
  write_all data s = Ok (true, file_write data (set_answers l s)).
Proof.
  intros Hd Hb Ha. unfold write_all. rewrite sm_bind_eq. cbn [reads]. rewrite Hb.
  change (zlen []) with 0. rewrite Z.sub_0_r.
  destruct (Z.ltb_spec (zlen data) BUF_CAPACITY); [lia|].
  destruct (Z.ltb_spec BUF_CAPACITY (zlen data)); [|lia].
  destruct (Z.leb_spec BUF_CAPACITY (zlen data)); [|lia].
  rewrite sm_bind_eq. unfold flush. rewrite sm_bind_eq. cbn [reads]. rewrite Hb. cbn [mret sm_ret negb].
  rewrite sm_bind_eq. unfold raw_write. rewrite sm_bind_eq. unfold syscall. by rewrite Ha.
Qed.
(** The file after such an append, acknowledged as the machine stops *)
Lemma large_append_stop threshold payload s : BUF_CAPACITY < zlen payload ->
  st_answers s = [Done; Done] -> st_handle s = HAppend -> st_buf s = [] -> st_poisoned s = false ->
  let s' := stop (handle_msg threshold (Append (Some payload)) []) s in
  let bytes := f_bytes (st_active s) ++ frame_bytes (st_next_seq s, payload) in
  st_active s' = {| f_bytes := bytes; f_synced := bytes |} /\
  st_notes s' = st_notes s ++ [NAck (st_next_seq s) payload].
Proof.
  intros Hp Ha Hh Hb Hpo. destruct s as [ans act segs tmps hd buf next poi notes flt]. cbn in Ha, Hh, Hb, Hpo. subst.
  assert (BUF_CAPACITY < zlen (encode_frame [] next payload)) as Hlarge.
  { unfold encode_frame, zlen in *. cbn [app]. rewrite !length_app, !length_le_bytes. lia. }
  unfold stop, handle_msg. rewrite sm_bind_eq. cbn [reads st_poisoned negb].
  unfold append_frame. cbn [negb]. repeat (rewrite sm_bind_eq; cbn [reads st_next_seq modify]).
  erewrite write_all_large; [|exact Hlarge|by destruct (frame_okb _)..].
  by destruct (frame_okb _).
Qed.

(** The next open leaves [bytes] of the file, whatever a crash leaves of it. *)
Definition reopens_as (f : file) (bytes : list byte) : Prop :=
  forall c, crash_content f c -> truncate_torn c = bytes.

(** The append path has no limit on a payload, and readers have one: a larger write is
    acknowledged, durable, and gone after the next open, with all that follow it. *)
Theorem oversized_append_lost threshold first fs payload s
  (Ha : st_answers s = [Done; Done]) (Hh : st_handle s = HAppend) (Hb : st_buf s = [])
  (Hpo : st_poisoned s = false) (Hfs : Forall frame_ok fs)
  (Hf : f_bytes (st_active s) = active_header first ++ encode_frames fs)
  (Hp : MAX_JOURNAL_FRAME_PAYLOAD_BYTES < zlen payload < 2 ^ 32) :
  let s' := stop (handle_msg threshold (Append (Some payload)) []) s in
  NAck (st_next_seq s) payload ∈ st_notes s' /\
  reopens_as (st_active s') (f_bytes (st_active s)) /\
  forall tail, truncate_torn (f_bytes (st_active s') ++ tail) = f_bytes (st_active s).
Proof.
  destruct (large_append_stop threshold payload s) as [Hact Hn];
    [unfold BUF_CAPACITY, MAX_JOURNAL_FRAME_PAYLOAD_BYTES in *; lia|done..|].
  cbv zeta. rewrite Hact, Hn. cbn [f_bytes].
  assert (forall tail, truncate_torn ((f_bytes (st_active s) ++ frame_bytes (st_next_seq s, payload)) ++ tail) =
    f_bytes (st_active s)) as Htorn.
  { intros tail. rewrite Hf, <- !(assoc app). by apply truncate_torn_oversize. }
  split_and!; [|intros c ->%crash_synced; [|done]|exact Htorn].
  - apply elem_of_app. right. by left.
  - specialize (Htorn []). by rewrite app_nil_r in Htorn.
Qed.
End Oversized.

(** *** Examples, on the crates of [Journal.v] *)

#[local] Existing Instance sample_crates.

Definition oversize_payload : list byte := replicate (Z.to_nat 67108865) Ascii.zero.
Lemma oversized_append_lost_witness :
  let s := set_active {| f_bytes := active_header 1; f_synced := active_header 1 |}
             (new_store [Done; Done] ∅) in
  let s' := stop (handle_msg 1000 (Append (Some oversize_payload)) []) s in
  NAck 1 oversize_payload ∈ st_notes s' /\ truncate_torn (f_bytes (st_active s')) = active_header 1.
Proof.
  set (s := set_active _ _). cbv zeta.
  destruct (oversized_append_lost 1000 1 [] oversize_payload s) as (Hn & _ & Ht).
  - reflexivity.
  - reflexivity.
  - reflexivity.
  - reflexivity.
  - constructor.
  - reflexivity.
  - unfold zlen, oversize_payload. rewrite length_replicate. unfold MAX_JOURNAL_FRAME_PAYLOAD_BYTES. lia.
  - split; [exact Hn|]. specialize (Ht []). rewrite app_nil_r in Ht. exact Ht.
Defined.

Lemma recover_notes answers c s : st_notes (journal_recover answers c s) = st_notes s.
Proof. reflexivity. Qed.
(** The system calls: the open, its header and sync; the fold's sync, the four calls of
    the segment and the directory listing; the truncating open, the header's write, which
    fails, the append handle, the old handle's last flush, which fails too; the append's
    flush and its sync. *)
Definition failed_reset_answers : list answer :=
  [Done; Done; Done] ++ replicate 6 Done ++ [Done; Failed 0; Done; Failed 0; Done; Done].
Definition failed_reset_store : store :=
  stop (writer_thread 1000 [Checkpoint [] 0; Append (Some (str_bytes "w"))])
    (new_store failed_reset_answers ∅).

(** A fold whose reset truncates the active file but fails to write its header leaves the
    thread unpoisoned, so it appends to a file without a header: the next append is
    acknowledged and durable, and the next open drops the whole file. *)
Theorem failed_reset_loses_ack :
  NAck 1 (str_bytes "w") ∈ st_notes failed_reset_store /\
  f_synced (st_active failed_reset_store) = f_bytes (st_active failed_reset_store) /\
  crash_content (st_active failed_reset_store) (f_bytes (st_active failed_reset_store)) /\
  ~ recovered (journal_recover [] (f_bytes (st_active failed_reset_store)) failed_reset_store)
      1 (str_bytes "w").
Proof.
  assert (f_synced (st_active failed_reset_store) = f_bytes (st_active failed_reset_store)) as Hs
    by by vm_compute.
  assert (st_notes failed_reset_store = [NFold [] 0; NFolded false; NAck 1 (str_bytes "w")]) as Hn
    by by vm_compute.
  assert (scan (journal_recover [] (f_bytes (st_active failed_reset_store)) failed_reset_store) = [])
    as Hscan by by vm_compute.
  split_and!; [rewrite Hn; by right; right; left|exact Hs|by left|].
  intros [[origin Hin]|(lines & frontier & Hf & Hle & _)].
  - rewrite Hscan in Hin. by apply elem_of_nil in Hin.
  - rewrite recover_notes, Hn in Hf. clear Hs Hn Hscan.
    rewrite !elem_of_cons, elem_of_nil in Hf. destruct Hf as [[= -> ->]|[?|[?|?]]]; [lia|done..].
Qed.

(** A session that folds and appends, stopped once the appends were sealed and before the
    active file was reset *)
Definition sample_queue : list wal_msg :=
  [Append (Some (str_bytes "a")); Checkpoint (str_bytes "x") 1; Append (Some (str_bytes "b"));
   Append (Some (str_bytes "c"))].
Definition sample_run : store := new_store (replicate 28 Done) ∅.
Definition sample_stop : store := stop (writer_thread 20 sample_queue) sample_run.
Lemma only_legacy_empty : only_legacy ∅.
Proof. intros name b Hb. by rewrite lookup_empty in Hb. Qed.
Lemma sample_session : session sample_run.
Proof. apply session_new, only_legacy_empty. Qed.
Lemma sample_body_le kind codec mn mx n body b :
  segment_bytes kind codec mn mx n body = Some b -> zlen body <= zlen b.
Proof.
  unfold segment_bytes. destruct (codec =? CODEC_LZ4); cbn [mbind option_bind lz4_frame_compress sample_crates];
    intros <-%(inj Some);
    unfold zlen; rewrite !length_app; lia.
Qed.
(** A decidable bound on all segments *)
Definition small_segments (segs : gmap seg_file (list byte)) : bool :=
  forallb (fun e => zlen e.2 <=? 1000) (map_to_list segs).
Lemma small_within segs : small_segments segs = true -> within_bounds segs.
Proof.
  unfold small_segments. rewrite forallb_forall. intros Hall name b Hl.
  apply elem_of_map_to_list, list_elem_of_In, Hall, Z.leb_le in Hl. cbn [snd] in Hl.
  split; [unfold MAX_JOURNAL_SEGMENT_FILE_BYTES, MAX_JOURNAL_SEGMENT_BODY_BYTES; lia|].
  intros kind mn mx n body Hs%sample_body_le. unfold MAX_JOURNAL_SEGMENT_BODY_BYTES. lia.
Qed.
Definition ack_eqb (seq : Z) (payload : list byte) (n : note) : bool :=
  match n with NAck seq' payload' => bool_decide (seq = seq' /\ payload = payload') | _ => false end.
Lemma acked_in seq payload notes : existsb (ack_eqb seq payload) notes = true -> NAck seq payload ∈ notes.
Proof.
  intros ([] & Hin & Hn)%existsb_exists; try done. apply bool_decide_eq_true in Hn as [-> ->].
  by apply list_elem_of_In.
Qed.


(** The session after that crash goes on counting. *)
Definition sample_again : store :=
  journal_recover (replicate 5 Done) (f_synced (st_active sample_stop)) sample_stop.
