(* ===== verification/Effect.v ===== *)
(** * Code over a state that its errors keep

    The store's methods change files and shared maps, and may return an error after some
    of the changes. Their monad keeps the state at an error, so that what a failed call
    leaves behind can be stated; a crash of the machine is an outcome of its own, which
    no code catches. [zoom] runs the code of a component on its part of a larger state. *)
From S2P Require Export Rust.

(** Why code stops: the machine does, or an error is returned. *)
Inductive stop := Crash | Raised (e : string).
Definition EM (S A : Type) : Type := S -> result stop A * S.

#[export] Instance em_ret {S} : MRet (EM S) := fun _ a s => (Ok a, s).
#[export] Instance em_bind {S} : MBind (EM S) :=
  fun _ _ f m s => match m s with (Ok a, s') => f a s' | (Err e, s') => (Err e, s') end.

Definition raise {S A} (e : string) : EM S A := fun s => (Err (Raised e), s).
Definition reads {S A} (f : S -> A) : EM S A := fun s => (Ok (f s), s).
Definition update {S} (f : S -> S) : EM S unit := fun s => (Ok tt, f s).
(** The outcome of a call as a value; a crash stays one. *)
Definition catch {S A} (m : EM S A) : EM S (result string A) := fun s =>
  match m s with
  | (Ok a, s') => (Ok (Ok a), s')
  | (Err (Raised e), s') => (Ok (Err e), s')
  | (Err Crash, s') => (Err Crash, s')
  end.
(** A pure result *)
Definition of_result {S A} (r : result string A) : EM S A :=
  fun s => (map_err Raised r, s).
Definition require {S} (b : bool) (e : string) : EM S unit := if b then mret tt else raise e.
(** Code on a part of the state *)
Definition zoom {S T A} (part : S -> T) (set : T -> S -> S) (m : EM T A) : EM S A := fun s =>
  let '(r, t) := m (part s) in (r, set t s).

Section For.
Context {S A B : Type}.
Variable f : B -> A -> EM S B.
Fixpoint efor (b : B) (l : list A) : EM S B :=
  match l with
  | [] => mret b
  | a :: l' => b' ← f b a; efor b' l'
  end.
End For.

(** ** Triples: [Q] on success, [X] where the code stops *)

Definition etriple {S A} (P : S -> Prop) (m : EM S A) (Q : A -> S -> Prop) (X : stop -> S -> Prop)
  : Prop :=
  forall s, P s -> match m s with (Ok a, s') => Q a s' | (Err e, s') => X e s' end.

Section Laws.
Context {S : Type}.
Implicit Types (P I : S -> Prop) (X : stop -> S -> Prop).

Lemma em_bind_eq {A B} (m : EM S A) (f : A -> EM S B) s :
  (m ≫= f) s = match m s with (Ok a, s') => f a s' | (Err e, s') => (Err e, s') end.
Proof. reflexivity. Qed.
Lemma etriple_ret {A} P (a : A) (Q : A -> S -> Prop) X :
  (forall s, P s -> Q a s) -> etriple P (mret a) Q X.
Proof. intros HQ s Hs. by apply HQ. Qed.
Lemma etriple_raise {A} P e (Q : A -> S -> Prop) X :
  (forall s, P s -> X (Raised e) s) -> etriple P (raise e) Q X.
Proof. intros HX s Hs. by apply HX. Qed.
Lemma etriple_reads {A} P (f : S -> A) (Q : A -> S -> Prop) X :
  (forall s, P s -> Q (f s) s) -> etriple P (reads f) Q X.
Proof. intros HQ s Hs. by apply HQ. Qed.
Lemma etriple_update P (f : S -> S) (Q : unit -> S -> Prop) X :
  (forall s, P s -> Q tt (f s)) -> etriple P (update f) Q X.
Proof. intros HQ s Hs. by apply HQ. Qed.
Lemma etriple_bind {A B} P (m : EM S A) (f : A -> EM S B) R (Q : B -> S -> Prop) X :
  etriple P m R X -> (forall a, etriple (R a) (f a) Q X) -> etriple P (m ≫= f) Q X.
Proof.
  intros Hm Hf s Hs. rewrite em_bind_eq. specialize (Hm s Hs).
  destruct (m s) as [[a|e] t]; [by apply Hf|done].
Qed.
Lemma etriple_conseq {A} P P' (m : EM S A) (Q Q' : A -> S -> Prop) X X' :
  etriple P' m Q' X' -> (forall s, P s -> P' s) -> (forall a s, Q' a s -> Q a s) ->
  (forall e s, X' e s -> X e s) -> etriple P m Q X.
Proof.
  intros Hm HP HQ HX s Hs. specialize (Hm s (HP s Hs)). destruct (m s) as [[a|e] t]; auto.
Qed.
Lemma etriple_pre {A} P P' (m : EM S A) (Q : A -> S -> Prop) X :
  etriple P' m Q X -> (forall s, P s -> P' s) -> etriple P m Q X.
Proof. intros Hm HP. by eapply etriple_conseq. Qed.
(** A fact of the state that does not change *)
Lemma etriple_pure {A} (F : Prop) P (m : EM S A) (Q : A -> S -> Prop) X :
  (F -> etriple P m Q X) -> etriple (fun s => F /\ P s) m Q X.
Proof. intros Hm s [HF Hs]. exact (Hm HF s Hs). Qed.
Lemma etriple_require P b e (Q : unit -> S -> Prop) X :
  (forall s, P s -> b = true -> Q tt s) -> (forall s, P s -> b = false -> X (Raised e) s) ->
  etriple P (require b e) Q X.
Proof. intros HQ HX s Hs. destruct b; cbn; auto. Qed.
Lemma etriple_of_result {A} P (r : result string A) (Q : A -> S -> Prop) X :
  (forall s a, P s -> r = Ok a -> Q a s) -> (forall s e, P s -> r = Err e -> X (Raised e) s) ->
  etriple P (of_result r) Q X.
Proof. intros HQ HX s Hs. destruct r; cbn; auto. Qed.
Lemma etriple_catch {A} P (m : EM S A) (Q : result string A -> S -> Prop) X :
  etriple P m (fun a => Q (Ok a)) (fun e s => match e with Raised e => Q (Err e) s | Crash => X Crash s end) ->
  etriple P (catch m) Q X.
Proof.
  intros Hm s Hs. specialize (Hm s Hs). unfold catch. destruct (m s) as [[a|[|e]] t]; done.
Qed.
Lemma etriple_zoom {T A} (part : S -> T) (set : T -> S -> S) P (m : EM T A)
  (Q : A -> S -> Prop) X :
  (forall s, P s ->
     etriple (fun t => t = part s) m (fun a t => Q a (set t s)) (fun e t => X e (set t s))) ->
  etriple P (zoom part set m) Q X.
Proof.
  intros Hm s Hs. specialize (Hm s Hs _ eq_refl). unfold zoom.
  destruct (m (part s)) as [[a|e] t]; done.
Qed.
Lemma etriple_for {A B} (f : B -> A -> EM S B) (J : B -> list A -> S -> Prop) X b l :
  (forall b a k, etriple (J b (a :: k)) (f b a) (fun b' => J b' k) X) ->
  etriple (J b l) (efor f b l) (fun b' => J b' []) X.
Proof.
  intros Hf. revert b; induction l as [|a l IH]; intros b; cbn [efor].
  - by apply etriple_ret.
  - eapply etriple_bind; [apply Hf|]. intros b'. apply IH.
Qed.
(** What holds whenever the code stops *)
Lemma etriple_and {A} P P' (m : EM S A) (Q Q' : A -> S -> Prop) X X' :
  etriple P m Q X -> etriple P' m Q' X' ->
  etriple (fun s => P s /\ P' s) m (fun a s => Q a s /\ Q' a s) (fun e s => X e s /\ X' e s).
Proof.
  intros H1 H2 s [Hs Hs']. specialize (H1 s Hs). specialize (H2 s Hs').
  destruct (m s) as [[a|e] t]; done.
Qed.
End Laws.
