(* ===== verification/Ledger.v ===== *)
(** * Append-only ledgers of records, a line each

    [src/src/lib.rs], lines 18728 to 19098: the two consensus ledgers share their code
    but for the name of the ledger in the errors. A ledger is a file the process appends
    records to, each a line of JSON; a record counts once its line and the directory are
    synced. A failed append is taken back; when that fails too, the ledger is poisoned
    until the database is opened again.

    Every system call is answered by the operating system: it succeeds or it fails, a
    write after some of its bytes; when the answers run out, the machine stops there.
    The file keeps what reads see, what the last [fsync] made durable, the contents it
    had since, and whether its directory entry is durable. *)
From S2P Require Export Effect.
Local Open Scope Z_scope.

Definition MAX_CONSENSUS_LEDGER_BYTES : Z := 64 * 1024 * 1024.
Definition MAX_CONSENSUS_LEDGER_RECORDS : Z := 100000.
Definition MAX_CONSENSUS_LEDGER_RECORD_BYTES : Z := 4096.

(** ** The file *)

Inductive reply := Done | Failed (written : nat).

Record lfile := {
  lf_exists : bool;
  lf_bytes : list byte;
  lf_synced : list byte;
  lf_since : list (list byte);
  lf_linked : bool;
}.
Definition no_file : lfile :=
  {| lf_exists := false; lf_bytes := []; lf_synced := []; lf_since := []; lf_linked := false |}.
(** [open] with [create(true)] *)
Definition lf_create (f : lfile) : lfile :=
  if lf_exists f then f
  else {| lf_exists := true; lf_bytes := []; lf_synced := []; lf_since := []; lf_linked := false |}.
Definition lf_become (bytes : list byte) (f : lfile) : lfile :=
  {| lf_exists := lf_exists f; lf_bytes := bytes; lf_synced := lf_synced f;
     lf_since := lf_bytes f :: lf_since f; lf_linked := lf_linked f |}.
Definition lf_write (data : list byte) (f : lfile) : lfile := lf_become (lf_bytes f ++ data) f.
Definition lf_cut (len : nat) (f : lfile) : lfile := lf_become (take len (lf_bytes f)) f.
Definition lf_sync (f : lfile) : lfile :=
  {| lf_exists := lf_exists f; lf_bytes := lf_bytes f; lf_synced := lf_bytes f; lf_since := [];
     lf_linked := lf_linked f |}.
Definition lf_link (f : lfile) : lfile :=
  {| lf_exists := lf_exists f; lf_bytes := lf_bytes f; lf_synced := lf_synced f;
     lf_since := lf_since f; lf_linked := true |}.

(** What a crash may leave: no file while its entry is not durable; else what was
    synced, or a part of a content the file had since, which keeps what that content
    shares with what was synced. *)
Definition crash_leaves (f : lfile) (left : option (list byte)) : Prop :=
  match left with
  | None => lf_exists f = false \/ lf_linked f = false
  | Some bytes =>
      lf_exists f = true /\
      (bytes = lf_synced f \/
       exists c, c ∈ lf_bytes f :: lf_since f /\ bytes `prefix_of` c /\
                 forall k, k `prefix_of` lf_synced f -> k `prefix_of` c -> k `prefix_of` bytes)
  end.
(** The file found when the machine is up again *)
Definition lf_found (left : option (list byte)) : lfile :=
  let bytes := default [] left in
  {| lf_exists := is_Some_b left; lf_bytes := bytes; lf_synced := bytes; lf_since := [];
     lf_linked := is_Some_b left |}.

(** ** System calls *)

Record ledger := { lg_replies : list reply; lg_file : lfile; lg_poisoned : bool }.
Notation ledger_code := (EM ledger).

Definition set_file (f : lfile -> lfile) : ledger_code unit := update (fun s =>
  {| lg_replies := lg_replies s; lg_file := f (lg_file s); lg_poisoned := lg_poisoned s |}).
Definition poison : ledger_code unit := update (fun s =>
  {| lg_replies := lg_replies s; lg_file := lg_file s; lg_poisoned := true |}).
Definition syscall : ledger_code reply := fun s =>
  match lg_replies s with
  | [] => (Err Crash, s)
  | r :: l => (Ok r, {| lg_replies := l; lg_file := lg_file s; lg_poisoned := lg_poisoned s |})
  end.
Definition attempt : ledger_code bool :=
  r ← syscall; mret (match r with Done => true | Failed _ => false end).
(** A call that changes the file when it succeeds *)
Definition file_call (f : lfile -> lfile) : ledger_code bool :=
  ok ← attempt;
  if ok : bool then set_file f ;; mret true else mret false.
Definition write_all (data : list byte) : ledger_code bool :=
  r ← syscall;
  match r with
  | Done => set_file (lf_write data) ;; mret true
  | Failed n => set_file (lf_write (take n data)) ;; mret false
  end.
(** [a.and_then(b)] of calls that report whether they succeeded *)
Definition and_then (a b : ledger_code bool) : ledger_code bool :=
  ok ← a; if ok : bool then b else mret false.
(** [sync_consensus_ledger_parent] on Unix *)
Definition sync_parent : ledger_code bool := file_call lf_link.

(** ** Appending *)

Definition newline : byte := byte_of 10.

(** [persist_consensus_vote_lock] and [append_consensus_commit_record], from the
    serialized record on *)
Definition append_line (name : string) (payload : list byte) : ledger_code unit :=
  require (zlen payload <=? MAX_CONSENSUS_LEDGER_RECORD_BYTES) (name +:+ "_LEDGER_LIMIT") ;;
  opened ← file_call lf_create;
  require opened (name +:+ "_LEDGER_WRITE_FAILED") ;;
  known ← attempt;
  require known (name +:+ "_METADATA") ;;
  original_len ← reads (fun s => length (lf_bytes (lg_file s)));
  require (u64_saturating_add (u64_saturating_add (Z.of_nat original_len) (zlen payload)) 1
           <=? MAX_CONSENSUS_LEDGER_BYTES) (name +:+ "_LEDGER_LIMIT") ;;
  written ← and_then (write_all payload) (and_then (write_all [newline]) (file_call lf_sync));
  (if written : bool then mret tt
   else
     taken_back ← and_then (file_call (lf_cut original_len)) (file_call lf_sync);
     (if taken_back : bool then mret tt else poison) ;;
     raise (name +:+ "_LEDGER_SYNC_FAILED")) ;;
  linked ← sync_parent;
  if linked : bool then mret tt
  else poison ;; raise (name +:+ "_LEDGER_DIRECTORY_SYNC_FAILED").

(** ** Reading *)

Definition read_consensus_ledger (name : string) : ledger_code (list byte) :=
  known ← attempt;
  require known (name +:+ "_LEDGER_READ_FAILED") ;;
  exists_ ← reads (fun s => lf_exists (lg_file s));
  if negb exists_ then mret []
  else
    bytes ← reads (fun s => lf_bytes (lg_file s));
    require (zlen bytes <=? MAX_CONSENSUS_LEDGER_BYTES) (name +:+ "_LEDGER_LIMIT") ;;
    ok ← attempt;
    require ok (name +:+ "_LEDGER_READ_FAILED") ;;
    mret bytes.

Definition truncate_torn_consensus_ledger (name : string) (complete_len : nat)
  (truncate_torn_tail : bool) : ledger_code unit :=
  if negb truncate_torn_tail then mret tt
  else
    opened ← attempt;
    require opened (name +:+ "_LEDGER_REPAIR_FAILED") ;;
    ok ← and_then (file_call (lf_cut complete_len)) (and_then (file_call lf_sync) sync_parent);
    require ok (name +:+ "_LEDGER_REPAIR_FAILED").

(** The length up to the last newline, that included *)
Definition complete_len (bytes : list byte) : nat :=
  match position (fun b => bool_decide (b = newline)) (rev bytes) with
  | Some i => length bytes - i
  | None => 0
  end.
Definition complete_lines (bytes : list byte) : list (list byte) :=
  List.filter (fun line => negb (bool_decide (line = []))) (split_bytes newline (take (complete_len bytes) bytes)).

(** The bytes of a ledger and its complete lines; a torn tail is cut off. *)
Definition load_lines (name : string) (truncate_torn_tail : bool)
  : ledger_code (list byte * list (list byte)) :=
  bytes ← read_consensus_ledger name;
  (if (complete_len bytes <? length bytes)%nat
   then truncate_torn_consensus_ledger name (complete_len bytes) truncate_torn_tail
   else mret tt) ;;
  mret (bytes, complete_lines bytes).

(** ** Lines *)

Definition encode_lines (ps : list (list byte)) : list byte :=
  concat (map (fun p => p ++ [newline]) ps).
Definition line_ok (p : list byte) : Prop := p <> [] /\ newline ∉ p.

Lemma encode_lines_app ps qs : encode_lines (ps ++ qs) = encode_lines ps ++ encode_lines qs.
Proof. unfold encode_lines. by rewrite map_app, concat_app. Qed.
Lemma encode_lines_snoc ps p : encode_lines (ps ++ [p]) = encode_lines ps ++ p ++ [newline].
Proof. rewrite encode_lines_app. unfold encode_lines at 2. cbn. by rewrite app_nil_r. Qed.

Lemma complete_len_torn bytes t : newline ∉ t -> complete_len (bytes ++ newline :: t) = S (length bytes).
Proof.
  intros Ht. unfold complete_len.
  replace (rev (bytes ++ newline :: t)) with (rev t ++ newline :: rev bytes)
    by (rewrite rev_app_distr; cbn; by rewrite <- app_assoc).
  rewrite position_app_r.
  - cbn [position]. rewrite bool_decide_eq_true_2 by done. cbn. rewrite length_app, length_rev. cbn. lia.
  - intros b Hb. apply bool_decide_eq_false. intros ->. apply Ht, list_elem_of_In.
    by apply in_rev, list_elem_of_In.
Qed.
Lemma complete_len_none t : newline ∉ t -> complete_len t = 0%nat.
Proof.
  intros Ht. unfold complete_len.
  destruct (position _ (rev t)) as [i|] eqn:E; [|done]. exfalso. apply Ht.
  apply position_Some in E as (b & Hb & Hn). apply bool_decide_eq_true in Hn as ->.
  apply list_elem_of_In, in_rev, list_elem_of_In. by eapply list_elem_of_lookup_2.
Qed.
(** The complete part of lines and a torn tail *)
Lemma complete_len_lines ps t : newline ∉ t ->
  complete_len (encode_lines ps ++ t) = length (encode_lines ps).
Proof.
  intros Ht. induction ps as [|p ps _] using rev_ind; [by apply complete_len_none|].
  rewrite encode_lines_snoc, (assoc app (encode_lines ps)), <- (assoc app _ [newline]). cbn [app].
  rewrite complete_len_torn by done. rewrite !length_app. cbn. lia.
Qed.
Lemma split_lines ps : Forall line_ok ps -> split_bytes newline (encode_lines ps) = ps ++ [[]].
Proof.
  induction 1 as [|p ps [_ Hp] _ IH]; [done|]. unfold encode_lines. cbn [map concat].
  rewrite <- app_assoc. cbn [app]. rewrite split_bytes_app by done.
  change (concat (map (fun p => p ++ [newline]) ps)) with (encode_lines ps). by rewrite IH.
Qed.
Lemma complete_lines_torn ps t : Forall line_ok ps -> newline ∉ t ->
  complete_lines (encode_lines ps ++ t) = ps.
Proof.
  intros Hps Ht. unfold complete_lines. rewrite complete_len_lines, take_app_length by done.
  rewrite split_lines, List.filter_app by done. cbn. rewrite app_nil_r.
  induction Hps as [|p ps [Hp _] _ IH]; [done|]. cbn.
  rewrite bool_decide_eq_false_2 by done. cbn. by rewrite IH.
Qed.

(** ** What the file holds *)

(** The lines [ps], all durable *)
Record settled (ps : list (list byte)) (f : lfile) : Prop := {
  se_bytes : lf_bytes f = encode_lines ps;
  se_synced : lf_synced f = encode_lines ps;
  se_since : lf_since f = [];
  se_linked : ps <> [] -> lf_exists f = true /\ lf_linked f = true;
  se_missing : lf_exists f = false -> ps = [];
}.
(** The lines [ps], durable, and a part of the line of [p], which may be so *)
Definition with_tail (ps : list (list byte)) (p c : list byte) : Prop :=
  exists t, c = encode_lines ps ++ t /\ t `prefix_of` p ++ [newline].
Record tearing (ps : list (list byte)) (p : list byte) (f : lfile) : Prop := {
  te_synced : with_tail ps p (lf_synced f);
  te_all : Forall (with_tail ps p) (lf_bytes f :: lf_since f);
  te_linked : ps <> [] -> lf_exists f = true /\ lf_linked f = true;
}.
Lemma with_tail_lines ps p : with_tail ps p (encode_lines ps).
Proof. exists []. rewrite app_nil_r. split; [done|apply prefix_nil]. Qed.
Lemma settled_tearing ps p f : settled ps f -> tearing ps p f.
Proof.
  intros [E1 E2 E3 E4 E5]. split; [rewrite E2; apply with_tail_lines| |done].
  rewrite E1, E3. repeat constructor. apply with_tail_lines.
Qed.
(** After a crash the lines are there, with a part of [p]'s. *)
Lemma tearing_leaves ps p f left : tearing ps p f -> crash_leaves f left ->
  with_tail ps p (default [] left) /\ (left = None -> ps = []).
Proof.
  intros [Hs Ha Hl]. destruct left as [bytes|]; cbn.
  - intros [_ [->|(c & Hc & Hb & Hk)]]; [done|]. split; [|done].
    rewrite Forall_forall in Ha. destruct (Ha c Hc) as (t & -> & Ht), Hs as (u & Hu & _).
    destruct (Hk (encode_lines ps)) as [t' ->]; [rewrite Hu; by eexists|by eexists|].
    exists t'. split; [done|]. apply prefix_app_inv in Hb. by etrans.
  - intros Hn. assert (ps = []) as ->.
    { destruct ps; [done|]. destruct Hl as [He Hl]; [done|]. destruct Hn; congruence. }
    split; [apply with_tail_lines|done].
Qed.
(** What a part of [p]'s line is: no line, or all of it *)
Lemma with_tail_cases ps p c : newline ∉ p -> with_tail ps p c ->
  (exists t, c = encode_lines ps ++ t /\ newline ∉ t) \/ c = encode_lines (ps ++ [p]).
Proof.
  intros Hp (t & -> & [k Hk]). induction k as [|b k _] using rev_ind.
  - right. by rewrite encode_lines_snoc, Hk, app_nil_r.
  - left. exists t. split; [done|]. rewrite (assoc app) in Hk. apply app_inj_tail in Hk as [-> _].
    intros Ht. apply Hp, elem_of_app. by left.
Qed.

(** ** Triples of the system calls *)

Definition on (P : lfile -> bool -> Prop) (s : ledger) : Prop := P (lg_file s) (lg_poisoned s).
Section Calls.
Context (X : stop -> ledger -> Prop).
Implicit Types P R : lfile -> bool -> Prop.

Lemma ledger_call_triple P : (forall s, on P s -> X Crash s) -> etriple (on P) syscall (fun _ => on P) X.
Proof. intros HX s Hs. unfold syscall. destruct (lg_replies s); [by apply HX|done]. Qed.
Lemma ledger_attempt_triple P : (forall s, on P s -> X Crash s) -> etriple (on P) attempt (fun _ => on P) X.
Proof.
  intros HX. unfold attempt. eapply etriple_bind; [by apply ledger_call_triple|].
  intros r. by apply etriple_ret.
Qed.
Lemma file_call_triple P R f : (forall s, on P s -> X Crash s) ->
  (forall l b, P l b -> R (f l) b) ->
  etriple (on P) (file_call f) (fun ok => on (if ok : bool then R else P)) X.
Proof.
  intros HX Hf. unfold file_call. eapply etriple_bind; [by apply ledger_attempt_triple|].
  intros []; [|by apply etriple_ret].
  eapply etriple_bind; [apply (etriple_update _ _ (fun _ => on R)); intros s; apply Hf|].
  intros ?. by apply etriple_ret.
Qed.
Lemma ledger_write_triple P (R : bool -> lfile -> bool -> Prop) data : (forall s, on P s -> X Crash s) ->
  (forall l b, P l b -> R true (lf_write data l) b) ->
  (forall n l b, P l b -> R false (lf_write (take n data) l) b) ->
  etriple (on P) (write_all data) (fun ok => on (R ok)) X.
Proof.
  intros HX Hw Hn. unfold write_all. eapply etriple_bind; [by apply ledger_call_triple|].
  intros [|n].
  - eapply etriple_bind; [apply (etriple_update _ _ (fun _ => on (R true))); intros s; apply Hw|].
    intros ?. by apply etriple_ret.
  - eapply etriple_bind; [apply (etriple_update _ _ (fun _ => on (R false))); intros s; apply Hn|].
    intros ?. by apply etriple_ret.
Qed.
Lemma and_then_triple (P R : ledger -> Prop) (Q : bool -> ledger -> Prop) a b :
  etriple P a (fun ok => if ok : bool then R else Q false) X -> etriple R b Q X ->
  etriple P (and_then a b) Q X.
Proof.
  intros Ha Hb. unfold and_then. eapply etriple_bind; [exact Ha|]. intros []; [done|].
  by apply etriple_ret.
Qed.
End Calls.

(** ** Appending *)

Definition good (ps : list (list byte)) (s : ledger) : Prop :=
  settled ps (lg_file s) /\ lg_poisoned s = false.
(** What a failed append leaves: the ledger as it was, or a poisoned one *)
Definition spoiled (ps : list (list byte)) (p : list byte) (s : ledger) : Prop :=
  lg_poisoned s = true /\ tearing ps p (lg_file s).
Definition append_stops (ps : list (list byte)) (p : list byte) (e : stop) (s : ledger) : Prop :=
  match e with
  | Crash => tearing ps p (lg_file s)
  | Raised _ => good ps s \/ spoiled ps p s
  end.

Lemma settled_create ps f : settled ps f -> settled ps (lf_create f).
Proof.
  intros [E1 E2 E3 E4 E5]. unfold lf_create. destruct (lf_exists f) eqn:E; [split; rewrite ?E; done|].
  rewrite E5 by done. by split.
Qed.

(** The file while the line of [p] is written: [t] is written so far. *)
Definition writing (ps : list (list byte)) (p t : list byte) (f : lfile) (poisoned : bool) : Prop :=
  poisoned = false /\ lf_synced f = encode_lines ps /\ lf_bytes f = encode_lines ps ++ t /\
  tearing ps p f /\ lf_exists f = true.
Lemma writing_tearing ps p t f b : writing ps p t f b -> tearing ps p f.
Proof. by intros (_ & _ & _ & ? & _). Qed.
Lemma writing_step ps p t q k n f b : p ++ [newline] = t ++ q ++ k -> writing ps p t f b ->
  writing ps p (t ++ take n q) (lf_write (take n q) f) b.
Proof.
  intros Hp (-> & Hs & Hb & [Ts Ta Tl] & He). unfold lf_write, lf_become.
  split_and!; cbn [lf_synced lf_bytes lf_exists]; try done; [by rewrite Hb, (assoc app)|].
  split; cbn [lf_synced lf_bytes lf_since lf_exists lf_linked]; try done.
  constructor; [|done]. rewrite Hb, <- (assoc app). exists (t ++ take n q). split; [done|].
  rewrite Hp. exists (drop n q ++ k). by rewrite <- (assoc app), (assoc app (take n q)), take_drop.
Qed.
Lemma writing_cut ps p t f b len : len = length (encode_lines ps) -> writing ps p t f b ->
  writing ps p [] (lf_cut len f) b.
Proof.
  intros -> (-> & Hs & Hb & [Ts Ta Tl] & He).
  assert (take (length (encode_lines ps)) (lf_bytes f) = encode_lines ps) as Hc by by rewrite Hb, take_app_length.
  unfold lf_cut, lf_become. rewrite Hc. split_and!; try done; [by rewrite app_nil_r|].
  split; cbn [lf_synced lf_bytes lf_since lf_exists lf_linked]; try done.
  constructor; [apply with_tail_lines|done].
Qed.
Lemma writing_sync ps p f b : writing ps p [] f b -> settled ps (lf_sync f).
Proof.
  intros (-> & Hs & Hb & [Ts Ta Tl] & He). rewrite app_nil_r in Hb.
  split; cbn; try done. congruence.
Qed.
Lemma settled_writing ps p f : settled ps f -> lf_exists f = true -> writing ps p [] f false.
Proof.
  intros Hs He. pose proof Hs as [E1 E2 E3 E4 E5].
  split_and!; try done; [by rewrite app_nil_r|by apply settled_tearing].
Qed.
(** Taking a failed write back *)
Lemma take_back_triple ps p len X : len = length (encode_lines ps) ->
  (forall s, tearing ps p (lg_file s) -> X Crash s) ->
  etriple (on (fun f b => exists t, writing ps p t f b))
    (and_then (file_call (lf_cut len)) (file_call lf_sync))
    (fun ok => on (if ok : bool then fun f b => settled ps f /\ b = false
                   else fun f b => exists t, writing ps p t f b)) X.
Proof.
  intros Hlen HX.
  assert (forall t s, on (writing ps p t) s -> X Crash s) as HW by (intros t s Hs; by eapply HX, writing_tearing).
  eapply and_then_triple.
  - eapply etriple_conseq; [apply (file_call_triple X (fun f b => exists t, writing ps p t f b) (writing ps p []) (lf_cut len))| | |done].
    + intros s [t Ht]. by apply (HW t).
    + intros f b [t Ht]. by eapply writing_cut.
    + by intros s Hs.
    + by intros [].
  - eapply etriple_conseq; [apply (file_call_triple X (writing ps p []) (fun f b => settled ps f /\ b = false) lf_sync)|done| |done].
    + apply HW.
    + intros f b Hw. split; [by eapply writing_sync|by destruct Hw].
    + intros []; [done|]. intros s Hs. by exists [].
Qed.
(** The line of [p] is durable, the directory perhaps not. *)
Definition written (ps : list (list byte)) (p : list byte) (f : lfile) (poisoned : bool) : Prop :=
  poisoned = false /\ lf_bytes f = encode_lines (ps ++ [p]) /\ lf_synced f = encode_lines (ps ++ [p]) /\
  lf_since f = [] /\ lf_exists f = true /\ (ps <> [] -> lf_linked f = true).
Lemma written_tail ps p : with_tail ps p (encode_lines (ps ++ [p])).
Proof. exists (p ++ [newline]). by rewrite encode_lines_snoc. Qed.
Lemma written_tearing ps p f b : written ps p f b -> tearing ps p f.
Proof.
  intros (_ & Hb & Hs & Hn & He & Hl). split; [rewrite Hs; apply written_tail| |by auto].
  rewrite Hb, Hn. repeat constructor. apply written_tail.
Qed.
Lemma written_link ps p f b : written ps p f b -> settled (ps ++ [p]) (lf_link f).
Proof. intros (_ & Hb & Hs & Hn & He & Hl). split; cbn; try done. congruence. Qed.
(** Writing the line of [p] and syncing it *)
Lemma write_line_triple ps p X : (forall s, tearing ps p (lg_file s) -> X Crash s) ->
  etriple (on (writing ps p []))
    (and_then (write_all p) (and_then (write_all [newline]) (file_call lf_sync)))
    (fun ok => on (if ok : bool then written ps p else fun f b => exists t, writing ps p t f b)) X.
Proof.
  intros HX. assert (forall t s, on (writing ps p t) s -> X Crash s) as HW
    by (intros t s Hs; by eapply HX, writing_tearing).
  set (W := fun f b => exists t, writing ps p t f b).
  assert (forall t (q k : list byte) n f b, p ++ [newline] = t ++ q ++ k -> writing ps p t f b -> W (lf_write (take n q) f) b) as Hstep
    by (intros t q k n f b Hp Hf; eexists; by eapply writing_step).
  assert (forall (t q k : list byte) f b, p ++ [newline] = t ++ q ++ k -> writing ps p t f b ->
            writing ps p (t ++ q) (lf_write q f) b) as Hall.
  { intros t q k f b Hp Hf. rewrite <- (take_ge q (length q)) at 2 by done.
    rewrite <- (take_ge q (length q)) at 1 by done. by eapply writing_step. }
  eapply and_then_triple; [|eapply and_then_triple].
  - eapply etriple_conseq; [apply (ledger_write_triple X (writing ps p [])
      (fun ok : bool => if ok then writing ps p p else W) p)|done| |done].
    + apply HW.
    + intros f b Hf. by apply (Hall [] p [newline]).
    + intros n f b Hf. by eapply (Hstep [] p [newline]).
    + by intros [].
  - eapply etriple_conseq; [apply (ledger_write_triple X (writing ps p p)
      (fun ok : bool => if ok then writing ps p (p ++ [newline]) else W) [newline])|done| |done].
    + apply HW.
    + intros f b Hf. by apply (Hall p [newline] []).
    + intros n f b Hf. by apply (Hstep p [newline] []).
    + by intros [].
  - eapply etriple_conseq; [apply (file_call_triple X (writing ps p (p ++ [newline])) (written ps p) lf_sync)|done| |done].
    + apply HW.
    + intros f b (-> & Hs & Hb & [Ts Ta Tl] & He). rewrite <- encode_lines_snoc in Hb.
      split_and!; cbn; try done. intros Hps. by apply Tl.
    + intros []; [done|]. intros s Hs. by eexists.
Qed.
(** Appending a record: the ledger has it, or the call failed and left the ledger as it
    was, or poisoned; a crash may leave a part of the line. *)
Lemma append_line_triple name ps p :
  etriple (good ps) (append_line name p) (fun _ => good (ps ++ [p])) (append_stops ps p).
Proof.
  set (G := fun f b => settled ps f /\ b = false).
  assert (forall s, on G s -> append_stops ps p Crash s) as HG by (intros s [Hs _]; by apply settled_tearing).
  assert (forall e s, on G s -> append_stops ps p (Raised e) s) as HGe by (intros e s [Hs Hp]; by left).
  unfold append_line.
  eapply etriple_bind; [apply (etriple_require _ _ _ (fun _ => on G)); [done|auto]|]. intros ?.
  set (G1 := fun f b => G f b /\ lf_exists f = true).
  eapply etriple_bind; [apply (file_call_triple _ _ G1); [done|]|].
  { intros f b [Hf Hb]. split; [split; [by apply settled_create|done]|].
    unfold lf_create. by destruct (lf_exists f) eqn:E. }
  intros opened.
  eapply etriple_bind; [apply (etriple_require _ _ _ (fun _ => on G1)); destruct opened; by auto|]. intros ?.
  eapply etriple_bind; [apply (ledger_attempt_triple _ G1); by intros s [? _]; apply HG|]. intros known.
  eapply etriple_bind; [apply (etriple_require _ _ _ (fun _ => on G1)); [done|by intros s [? _] _; apply HGe]|].
  intros ?. eapply etriple_bind.
  { apply (etriple_reads _ _ (fun len s => len = length (encode_lines ps) /\ on G1 s)).
    intros s [[[E1 E2 E3 E4 E5] Hp] He]. split; [by rewrite E1|done]. }
  intros len.
  eapply etriple_bind; [apply (etriple_require _ _ _ (fun _ s => len = length (encode_lines ps) /\ on (writing ps p []) s))|].
  { intros s [Hlen [[Hs Hp] He]] _. split; [done|]. unfold on. rewrite Hp. by apply settled_writing. }
  { intros s [_ [? _]] _. by apply HGe. }
  intros ?. apply etriple_pure. intros Hlen.
  assert (forall s, tearing ps p (lg_file s) -> append_stops ps p Crash s) as HT by done.
  eapply etriple_bind; [apply write_line_triple, HT|]. intros ok.
  eapply (etriple_bind _ _ _ (fun _ => on (written ps p))).
  - destruct ok; [by apply etriple_ret|].
    eapply etriple_bind; [by apply take_back_triple|]. intros [].
    + eapply etriple_bind; [apply (etriple_ret _ _ (fun _ => on G)); done|]. intros ?.
      apply etriple_raise. intros s Hs. by apply HGe.
    + eapply etriple_bind; [apply (etriple_update _ _ (fun _ => spoiled ps p))|].
      * intros s [t Ht]. split; [done|]. by eapply writing_tearing.
      * intros ?. apply etriple_raise. intros s Hs. by right.
  - intros ?. eapply etriple_bind.
    + apply (file_call_triple _ _ (fun f b => settled (ps ++ [p]) f /\ b = false) lf_link).
      * intros s Hs. by eapply written_tearing.
      * intros f b Hf. split; [by eapply written_link|by destruct Hf].
    + intros []; [by apply etriple_ret|].
      eapply etriple_bind; [apply (etriple_update _ _ (fun _ => spoiled ps p))|].
      * intros s Hs. split; [done|]. by eapply written_tearing.
      * intros ?. apply etriple_raise. intros s Hs. by right.
Qed.

(** The room a line needs *)
Definition fits (ps : list (list byte)) (p : list byte) : Prop :=
  zlen p <= MAX_CONSENSUS_LEDGER_RECORD_BYTES /\
  zlen (encode_lines ps) + zlen p + 1 <= MAX_CONSENSUS_LEDGER_BYTES.
#[export] Instance fits_dec ps p : Decision (fits ps p).
Proof. unfold fits. exact _. Defined.
Lemma fits_sum n m : u64_saturating_add (u64_saturating_add n m) 1 <=? MAX_CONSENSUS_LEDGER_BYTES = true <->
  n + m + 1 <= MAX_CONSENSUS_LEDGER_BYTES.
Proof.
  rewrite Z.leb_le. unfold u64_saturating_add, MAX_CONSENSUS_LEDGER_BYTES, u64_max. lia.
Qed.
(** Code that stops only with the machine *)
Definition quiet {A} (m : ledger_code A) : Prop :=
  forall s, match m s with (Err (Raised _), _) => False | _ => True end.
Lemma quiet_ret {A} (a : A) : quiet (mret a).
Proof. done. Qed.
Lemma quiet_bind {A B} (m : ledger_code A) (f : A -> ledger_code B) :
  quiet m -> (forall a, quiet (f a)) -> quiet (m ≫= f).
Proof.
  intros Hm Hf s. rewrite em_bind_eq. specialize (Hm s).
  destruct (m s) as [[a|[|e]] t]; [apply Hf|done|done].
Qed.
Lemma quiet_syscall : quiet syscall.
Proof. intros s. unfold syscall. by destruct (lg_replies s). Qed.
Lemma quiet_update f : quiet (update f).
Proof. done. Qed.
Lemma quiet_attempt : quiet attempt.
Proof. apply quiet_bind; [apply quiet_syscall|]. intros. apply quiet_ret. Qed.
Lemma quiet_file_call f : quiet (file_call f).
Proof.
  apply quiet_bind; [apply quiet_attempt|]. intros []; [|apply quiet_ret].
  apply quiet_bind; [apply quiet_update|]. intros. apply quiet_ret.
Qed.
Lemma quiet_write_all data : quiet (write_all data).
Proof.
  apply quiet_bind; [apply quiet_syscall|].
  intros []; (apply quiet_bind; [apply quiet_update|]; intros; apply quiet_ret).
Qed.
Lemma quiet_and_then a b : quiet a -> quiet b -> quiet (and_then a b).
Proof. intros Ha Hb. apply quiet_bind; [done|]. intros []; [done|apply quiet_ret]. Qed.
Lemma quiet_triple {A} (F : Prop) P (m : ledger_code A) X : quiet m -> (F -> forall s, X Crash s) ->
  etriple (fun s => F /\ P s) m (fun _ _ => F) X.
Proof.
  intros Hm HX s [HF _]. specialize (Hm s). destruct (m s) as [[a|[|e]] t]; [done|by apply HX|done].
Qed.
#[export] Hint Resolve quiet_ret quiet_attempt quiet_file_call quiet_write_all quiet_and_then : core.

(** The limit is the one reason for which a record that does not fit is refused, and no
    reason to refuse one that does. *)
Lemma append_line_room name ps p :
  etriple (good ps) (append_line name p) (fun _ _ => fits ps p)
    (fun e _ => e = Raised (name +:+ "_LEDGER_LIMIT") -> ~ fits ps p).
Proof.
  set (X := fun e (_ : ledger) => e = Raised (name +:+ "_LEDGER_LIMIT") -> ~ fits ps p).
  assert (forall a, a <> "_LEDGER_LIMIT"%string -> forall s, X (Raised (name +:+ a)) s) as Hne
    by (intros a Ha s [= Heq]; by apply (inj (String.app name)) in Heq).
  unfold append_line. eapply etriple_bind.
  { apply (etriple_require _ _ _ (fun _ s => zlen p <= MAX_CONSENSUS_LEDGER_RECORD_BYTES /\ good ps s)).
    - intros s Hs Hp%Z.leb_le. done.
    - intros s _ Hp%Z.leb_gt _ [Hf _]. lia. }
  intros ?. apply etriple_pure. intros Hp.
  set (G := fun f b => settled ps f /\ b = false).
  eapply etriple_bind; [apply (file_call_triple _ G G); [done|]|].
  { intros f b [Hf Hb]. split; [by apply settled_create|done]. }
  intros opened. eapply etriple_bind.
  { apply (etriple_require _ _ _ (fun _ => on G)); [intros s Hs _; by destruct opened|].
    intros s _ _. by apply Hne. }
  intros ?. eapply etriple_bind; [by apply (ledger_attempt_triple _ G)|].
  intros known. eapply etriple_bind.
  { apply (etriple_require _ _ _ (fun _ => on G)); [done|]. intros s _ _. by apply Hne. }
  intros ?. eapply etriple_bind.
  { apply (etriple_reads _ _ (fun len _ => len = length (encode_lines ps))). intros s [[Hb] _]. by rewrite Hb. }
  intros len. eapply etriple_bind.
  { apply (etriple_require _ _ _ (fun _ _ => fits ps p /\ True)).
    - intros s -> Hf%fits_sum. done.
    - intros s -> Hf _ [_ Hf']. apply fits_sum in Hf'. unfold zlen in Hf' at 1. congruence. }
  intros ?. eapply etriple_bind; [by apply quiet_triple; auto 10|]. intros ok.
  eapply (etriple_bind _ _ _ (fun _ _ => fits ps p /\ True)).
  - destruct ok; [by apply etriple_ret|]. eapply etriple_bind.
    { eapply etriple_pre; [by apply (quiet_triple (fits ps p) (fun _ => True)); auto 10|done]. }
    intros back. eapply (etriple_bind _ _ _ (fun _ _ => True)); [by destruct back|].
    intros ?. apply etriple_raise. intros s _. by apply Hne.
  - intros ?. eapply etriple_bind; [apply quiet_triple; [apply quiet_file_call|done]|].
    intros []; [by apply etriple_ret|]. eapply etriple_bind; [by apply (etriple_update _ _ (fun _ _ => True))|].
    intros ?. apply etriple_raise. intros s _. by apply Hne.
Qed.
(** A record that does not fit is refused before anything is written. *)
Lemma append_line_unfit name ps p : ~ fits ps p ->
  etriple (good ps) (append_line name p) (fun _ _ => False) (fun _ => good ps).
Proof.
  intros Hn. set (G := fun f b => settled ps f /\ b = false). unfold append_line.
  eapply etriple_bind.
  { apply (etriple_require _ _ _ (fun _ s => zlen p <= MAX_CONSENSUS_LEDGER_RECORD_BYTES /\ good ps s)); [|done].
    intros s Hs Hp%Z.leb_le. done. }
  intros ?. apply etriple_pure. intros Hp.
  eapply etriple_bind; [apply (file_call_triple _ G G); [done|]|].
  { intros f b [Hf Hb]. split; [by apply settled_create|done]. }
  intros opened. eapply etriple_bind; [apply (etriple_require _ _ _ (fun _ => on G)); by destruct opened|].
  intros ?. eapply etriple_bind; [by apply (ledger_attempt_triple _ G)|].
  intros known. eapply etriple_bind; [by apply (etriple_require _ _ _ (fun _ => on G))|].
  intros ?. eapply etriple_bind.
  { apply (etriple_reads _ _ (fun len s => len = length (encode_lines ps) /\ on G s)).
    intros s [[Hb] ?]. by rewrite Hb. }
  intros len. apply etriple_pure. intros ->. eapply etriple_bind.
  - apply (etriple_require _ _ _ (fun _ _ => False)); [|done].
    intros s _ Hf%fits_sum. by apply Hn.
  - by intros ? s [].
Qed.

(** ** Loading *)

(** A file found when the machine came up: all it holds is durable. *)
Record found (c : list byte) (f : lfile) : Prop := {
  fo_bytes : lf_bytes f = c;
  fo_synced : lf_synced f = c;
  fo_since : lf_since f = [];
  fo_linked : lf_linked f = lf_exists f;
  fo_missing : lf_exists f = false -> c = [];
}.
Lemma lf_found_found left : found (default [] left) (lf_found left).
Proof. split; try done. by destruct left. Qed.
Lemma settled_found ps f : settled ps f -> lf_linked f = lf_exists f -> found (encode_lines ps) f.
Proof. intros [E1 E2 E3 E4 E5] Hl. split; try done. intros He. by rewrite E5. Qed.
Lemma found_settled ps f : found (encode_lines ps) f -> settled ps f.
Proof.
  intros [E1 E2 E3 E4 E5].
  assert (forall qs, encode_lines qs = [] -> qs = []) as Hnil
    by (intros [|[] qs]; by intros).
  split; try done; [|by auto]. intros Hps. rewrite E4.
  destruct (lf_exists f); [done|]. by specialize (Hnil ps (E5 eq_refl)).
Qed.
(** What the file holds while it is loaded; [t] is the torn tail, a part of the line
    of [p]. *)
Definition loading (ps : list (list byte)) (p t : list byte) (f : lfile) : Prop :=
  tearing ps p f /\ (t = [] -> settled ps f).
Definition load_stops (name : string) (ps : list (list byte)) (p t : list byte) (e : stop) (s : ledger)
  : Prop :=
  loading ps p t (lg_file s) /\
  (e = Raised (name +:+ "_LEDGER_LIMIT") -> MAX_CONSENSUS_LEDGER_BYTES < zlen (encode_lines ps ++ t)).
Section Load.
Context (name : string) (ps : list (list byte)) (p t : list byte).
Hypothesis Htp : t `prefix_of` p ++ [newline].
Hypothesis Hps : Forall line_ok ps.
Hypothesis Ht : newline ∉ t.
Notation c := (encode_lines ps ++ t).
Notation X := (load_stops name ps p t).

Lemma found_tearing f : found c f -> tearing ps p f.
Proof.
  intros [E1 E2 E3 E4 E5]. assert (with_tail ps p c) as Hc by (by exists t).
  split; [by rewrite E2|rewrite E1, E3; by repeat constructor|]. intros Hne. rewrite E4.
  destruct (lf_exists f); [done|]. specialize (E5 eq_refl). apply app_eq_nil in E5 as [E5 _].
  destruct ps as [|[] ?]; done.
Qed.
Lemma found_loading f : found c f -> loading ps p t f.
Proof.
  intros Hf. split; [by apply found_tearing|]. intros ->. rewrite app_nil_r in Hf. by apply found_settled.
Qed.
Lemma loading_torn f : t <> [] -> tearing ps p f -> loading ps p t f.
Proof. by split. Qed.
Lemma load_other a s : a <> "_LEDGER_LIMIT"%string -> loading ps p t (lg_file s) -> X (Raised (name +:+ a)) s.
Proof. intros Ha Hs. split; [done|]. intros [= Heq]. by apply (inj (String.app name)) in Heq. Qed.
Lemma load_crash s : loading ps p t (lg_file s) -> X Crash s.
Proof. by split. Qed.

Lemma read_triple b : etriple (on (fun f x => found c f /\ x = b)) (read_consensus_ledger name)
  (fun bytes s => bytes = c /\ on (fun f x => found c f /\ x = b) s) X.
Proof.
  set (G := fun f x => found c f /\ x = b).
  assert (forall s, on G s -> loading ps p t (lg_file s)) as HG by (intros s [Hs _]; by apply found_loading).
  unfold read_consensus_ledger.
  eapply etriple_bind; [by apply (ledger_attempt_triple _ G); intros s Hs; apply load_crash, HG|]. intros known.
  eapply etriple_bind.
  { apply (etriple_require _ _ _ (fun _ => on G)); [done|]. intros s Hs _. by apply load_other, HG. }
  intros ?. eapply etriple_bind.
  { apply (etriple_reads _ _ (fun x s => (x = false -> c = []) /\ on G s)). intros s [Hs Hb]. split; [|done].
    apply Hs. }
  intros []; cbn [negb]; apply etriple_pure; intros Hx; [|apply etriple_ret; intros s Hs; by rewrite Hx].
  eapply etriple_bind.
  { apply (etriple_reads _ _ (fun x s => x = c /\ on G s)). intros s [Hs Hb]. by split; [apply Hs|]. }
  intros bytes. apply etriple_pure. intros ->.
  eapply etriple_bind.
  { apply (etriple_require _ _ _ (fun _ => on G)); [done|]. intros s Hs Hl%Z.leb_gt. split; [by apply HG|done]. }
  intros ?. eapply etriple_bind; [by apply (ledger_attempt_triple _ G); intros s Hs; apply load_crash, HG|].
  intros ok. eapply etriple_bind.
  { apply (etriple_require _ _ _ (fun _ => on G)); [done|]. intros s Hs _. by apply load_other, HG. }
  intros ?. by apply etriple_ret.
Qed.
Lemma truncate_triple b : t <> [] ->
  etriple (on (fun f x => found c f /\ x = b)) (truncate_torn_consensus_ledger name (length (encode_lines ps)) true)
    (fun _ => on (fun f x => settled ps f /\ x = b)) X.
Proof.
  intros Hne. set (G := fun f x => found c f /\ x = b).
  assert (forall s, on G s -> loading ps p t (lg_file s)) as HG by (intros s [Hs _]; by apply found_loading).
  unfold truncate_torn_consensus_ledger. cbn [negb].
  eapply etriple_bind; [by apply (ledger_attempt_triple _ G); intros s Hs; apply load_crash, HG|]. intros opened.
  eapply etriple_bind.
  { apply (etriple_require _ _ _ (fun _ => on G)); [done|]. intros s Hs _. by apply load_other, HG. }
  intros ?. set (T := fun f (x : bool) => loading ps p t f).
  set (C := fun f x => lf_bytes f = encode_lines ps /\ lf_linked f = true /\ lf_exists f = true /\ x = b /\ tearing ps p f).
  set (D := fun f x => settled ps f /\ x = b).
  eapply (etriple_bind _ _ _ (fun ok : bool => if ok then on D else on T)).
  - eapply and_then_triple; [|eapply and_then_triple].
    + eapply etriple_conseq; [apply (file_call_triple X G C (lf_cut (length (encode_lines ps))))|done| |done].
      * intros s Hs. by apply load_crash, HG.
      * intros f x [[E1 E2 E3 E4 E5] ->]. assert (lf_exists f = true) as He.
        { destruct (lf_exists f); [done|]. specialize (E5 eq_refl). apply app_eq_nil in E5 as [_ E5]. done. }
        pose proof (found_tearing f ltac:(by split)) as [Ts Ta Tl]. unfold C, lf_cut, lf_become. cbn.
        rewrite E1, take_app_length, E4. split_and!; try done. split; cbn; try done.
        constructor; [apply with_tail_lines|]. by rewrite <- E1.
      * intros []; [done|]. intros s Hs. by apply HG.
    + eapply etriple_conseq; [apply (file_call_triple X C (fun f x => D f x /\ lf_exists f = true) lf_sync)|done| |done].
      * intros s (_ & _ & _ & _ & Hs). by apply load_crash, loading_torn.
      * intros f x (Hb & Hl & He & -> & _). split; [|done]. split; [|done]. by split; cbn; rewrite ?Hb, ?He.
      * intros []; [done|]. intros s (_ & _ & _ & _ & Hs); by apply loading_torn.
    + eapply etriple_conseq; [apply (file_call_triple X (fun f x => D f x /\ lf_exists f = true) D lf_link)|done| |done].
      * intros s [[Hs _] _]. by apply load_crash, loading_torn, settled_tearing.
      * intros f x [[[E1 E2 E3 E4 E5] ->] He]. split; [|done]. by split; cbn.
      * intros []; [done|]. intros s [[Hs _] _]. by apply loading_torn, settled_tearing.
  - intros ok. apply etriple_require; intros s Hs ->; [done|by apply load_other].
Qed.
(** Loading reads the complete lines and cuts a torn tail off. *)
Lemma load_lines_triple b : etriple (on (fun f x => found c f /\ x = b)) (load_lines name true)
  (fun r s => r = (c, ps) /\ on (fun f x => settled ps f /\ x = b) s) X.
Proof.
  unfold load_lines. eapply etriple_bind; [apply read_triple|]. intros bytes. apply etriple_pure. intros ->.
  rewrite complete_len_lines by done. eapply etriple_bind.
  - destruct (Nat.ltb_spec (length (encode_lines ps)) (length c)) as [Hl|Hl].
    + apply truncate_triple. intros ->. rewrite app_nil_r in Hl. lia.
    + apply (etriple_ret _ _ (fun _ => on (fun f x => settled ps f /\ x = b))).
      intros s [Hs Hb]. split; [|done]. rewrite length_app in Hl.
      destruct t; [|cbn in Hl; lia]. rewrite app_nil_r in Hs. by apply found_settled.
  - intros ?. apply etriple_ret. intros s Hs. split; [|done]. by rewrite complete_lines_torn.
Qed.
End Load.

(** ** Records

    A history of records is what a ledger holds; [valid] says which histories the code
    writes. *)
Section Records.
Context {R : Type} (to_vec : R -> list byte) (valid : list R -> Prop).
Hypothesis Hline : forall r, line_ok (to_vec r).
Notation lines rs := (map to_vec rs).

(** What the file holds, up to a record that was being appended *)
Definition disk_holds (rs : list R) (f : lfile) : Prop :=
  settled (lines rs) f \/ exists r, valid (rs ++ [r]) /\ tearing (lines rs) (to_vec r) f.
(** The ledger of a running process *)
Definition running (rs : list R) (s : ledger) : Prop :=
  good (lines rs) s \/ lg_poisoned s = true /\ disk_holds rs (lg_file s).

Lemma running_disk rs s : running rs s -> disk_holds rs (lg_file s).
Proof. intros [[Hs _]|[_ Hs]]; [by left|done]. Qed.
Lemma append_record_triple name rs r : (fits (lines rs) (to_vec r) -> valid (rs ++ [r])) ->
  etriple (good (lines rs)) (append_line name (to_vec r))
    (fun _ s => good (lines (rs ++ [r])) s /\ valid (rs ++ [r]))
    (fun e s => match e with Crash => disk_holds rs (lg_file s) | Raised _ => running rs s end).
Proof.
  intros Hr. destruct (decide (fits (lines rs) (to_vec r))) as [Hfit|Hn].
  2:{ eapply etriple_conseq; [by apply append_line_unfit|done|done|].
      intros [|e] s Hs; [left; by destruct Hs|by left]. }
  specialize (Hr Hfit).
  eapply etriple_conseq; [apply (append_line_triple name (lines rs) (to_vec r))|done| |].
  - intros ? s Hs. by rewrite map_app.
  - intros [|e] s; cbn.
    + intros Hs. right. by exists r.
    + intros [Hs|[Hp Hs]]; [by left|]. right. split; [done|]. right. by exists r.
Qed.
(** What is found after a crash: the records, perhaps the one being appended, perhaps a
    part of it *)
Record leftover (rs : list R) (t : list byte) : Prop := {
  lo_torn : newline ∉ t;
  lo_part : t = [] \/ exists r, valid (rs ++ [r]) /\ t `prefix_of` to_vec r;
}.
Lemma crash_records rs f left : valid rs -> disk_holds rs f -> crash_leaves f left ->
  exists rs' t, (rs' = rs \/ exists r, rs' = rs ++ [r]) /\ valid rs' /\ leftover rs' t /\
    default [] left = encode_lines (lines rs') ++ t.
Proof.
  intros Hrs [Hs|(r & Hr & Hs)] Hl.
  - exists rs, []. split_and!; [by left|done|split; [by apply not_elem_of_nil|by left]|].
    rewrite app_nil_r. destruct Hs as [E1 E2 E3 E4 E5]. destruct left as [bytes|]; cbn in *.
    + destruct Hl as [_ [->|(c & Hc & Hb & Hk)]]; [done|].
      rewrite E1, E3, list_elem_of_singleton in Hc. subst c. rewrite E2 in Hk.
      specialize (Hk (encode_lines (lines rs)) ltac:(done) ltac:(done)).
      by apply (anti_symm prefix).
    + destruct (decide (lines rs = [])) as [->|Hne]; [done|]. destruct E4; [done|]. destruct Hl; congruence.
  - destruct (tearing_leaves _ _ _ _ Hs Hl) as [Hw _].
    destruct (with_tail_cases _ _ _ (proj2 (Hline r)) Hw) as [(t & Ht & Hn)|Ht].
    + exists rs, t. split_and!; [by left|done| |done]. split; [done|].
      destruct Hw as (t' & Ht' & Hp). rewrite Ht in Ht'. apply app_inv_head in Ht' as <-.
      destruct Hp as [k Hk]. destruct k as [|b k _] using rev_ind.
      * exfalso. apply Hn. rewrite app_nil_r in Hk. rewrite <- Hk. apply elem_of_app. right. by left.
      * right. exists r. split; [done|]. rewrite (assoc app) in Hk. apply app_inj_tail in Hk as [-> _]. by eexists.
    + exists (rs ++ [r]), []. split_and!; [right; by exists r|done|split; [by apply not_elem_of_nil|by left]|].
      by rewrite app_nil_r, map_app.
Qed.
(** Loading what was found *)
Lemma load_records_triple name rs t : valid rs -> leftover rs t ->
  etriple (fun s => found (encode_lines (lines rs) ++ t) (lg_file s) /\ lg_poisoned s = false) (load_lines name true)
    (fun r s => r = (encode_lines (lines rs) ++ t, lines rs) /\ good (lines rs) s)
    (fun e s => disk_holds rs (lg_file s) /\
       (e = Raised (name +:+ "_LEDGER_LIMIT") -> MAX_CONSENSUS_LEDGER_BYTES < zlen (encode_lines (lines rs) ++ t))).
Proof.
  intros Hrs [Hn Hp].
  assert (exists p, t `prefix_of` p ++ [newline] /\ (t = [] \/ exists r, valid (rs ++ [r]) /\ p = to_vec r)) as (p & Htp & Hpr).
  { destruct Hp as [->|(r & Hr & [k Hk])].
    - exists []. split; [apply prefix_nil|by left].
    - exists (to_vec r). split; [|right; by exists r]. rewrite Hk. exists (k ++ [newline]). by rewrite (assoc app). }
  eapply etriple_conseq; [apply (load_lines_triple name (lines rs) p t Htp)|done|done|].
  - apply Forall_forall. intros q (r & -> & _)%list_elem_of_fmap. apply Hline.
  - done.
  - intros e s [[Ht Hs] Hl]. split; [|done]. destruct Hpr as [->|(r & Hr & ->)]; [left; by apply Hs|].
    right. by exists r.
Qed.
End Records.
