(* ===== verification/Consensus.v ===== *)
(** * Consensus: ballots, receipts and the commit of proposals

    [src/src/lib.rs], lines 4166 to 4205, 18633 to 19345 and 21874 to 22370. A proposal is
    a signed event; the peers of a closed roster vote on it, and a node that holds valid
    ballots of a strict majority appends the event to its journal and applies it.

    A node's own state is a record; its two ledgers are those of [Ledger.v]. Code is of
    type [EM node A]: an error keeps what was done before it. The checks this file does
    not model (the authorization of a signed event, the preflights of the projection) and
    the journal's thread are answered by the environment, like system calls: any answer
    may come at any time. What the journal holds is the list of the events a scan reads;
    [JournalRecovery.v] is about what makes it durable. *)
From S2P Require Export Order Ledger.
Local Open Scope Z_scope.

Definition MAX_CONSENSUS_PROPOSALS : Z := 1024.
Definition MAX_CONSENSUS_PROPOSAL_EVENT_BYTES : Z := 48 * 1024.
(** In seconds *)
Definition CONSENSUS_PROPOSAL_IDLE_TTL : Z := 10 * 60.

(** ** Events *)

(** The parts of an event consensus does not look into, in their serialized form *)
Notation content := (list byte).
Record GenesisTransactionEvent := {
  tx_transaction_id : string;
  tx_local_frame_seq : option Z;
  tx_relational : list content;
  tx_nodes : list content;
  tx_edges : list content;
  tx_vectors : list content;
  tx_node_retractions : list content;
  tx_advances_txn_frontier : bool;
  tx_rest : content;
}.
Inductive Event :=
| EvCollectionDefinition (c : content)
| EvCollectionMaterialization (c : content)
| EvVectorMaterialized (c : content)
| EvNode (c : content)
| EvEdge (c : content)
| EvBatch (events : list Event)
| EvVector (c : content)
| EvRelationalSchema (c : content)
| EvRelationalRows (c : content)
| EvTransaction (t : GenesisTransactionEvent)
| EvNodeRetract (c : content)
| EvGenerationPublished (c : content)
| EvAccessPolicyChanged (c : content)
| EvSchema6MigrationChunkV1 (c : content)
| EvSchema6MigrationCommitV1 (c : content)
| EvSchema6ActivationV1 (c : content).

Record SignedEvent := {
  se_event : Event; se_signature : list byte; se_signer_peer_id : string }.
Record ConsensusProposal := {
  cp_proposal_id : string;
  cp_signed_event : SignedEvent;
  cp_votes : gmap string bool;
  cp_quorum_signatures : gmap string (list byte);
  cp_committed : bool;
}.
Record ConsensusVoteLock := {
  vl_proposal_id : string;
  vl_peer_id : string;
  vl_roster_digest : string;
  vl_proposal_digest : string;
  vl_approve : bool;
  vl_signature : list byte;
}.
Record ConsensusCommitReceipt := {
  cr_proposal_id : string; cr_proposal_digest : string; cr_committed : bool }.
#[export] Instance vote_lock_eq_dec : EqDecision ConsensusVoteLock.
Proof. solve_decision. Defined.

(** [collect_p6_control_events] *)
Fixpoint collect_p6_control_events (event : Event) : list Event :=
  match event with
  | EvGenerationPublished _ | EvAccessPolicyChanged _ | EvSchema6MigrationChunkV1 _
  | EvSchema6MigrationCommitV1 _ | EvSchema6ActivationV1 _ => [event]
  | EvBatch events => concat (map collect_p6_control_events events)
  | _ => []
  end.
Definition contains_p6_control_event (event : Event) : bool :=
  negb (Nat.eqb (length (collect_p6_control_events event)) 0).

Definition is_revision_checkpoint (t : GenesisTransactionEvent) : bool :=
  is_Some_b (tx_local_frame_seq t) &&
  bool_decide (tx_relational t = []) && bool_decide (tx_nodes t = []) &&
  bool_decide (tx_edges t = []) && bool_decide (tx_vectors t = []) &&
  bool_decide (tx_node_retractions t = []).

(** ** The crates *)

Class ConsensusCrates := {
  VerifyingKey : Type;
  SigningKey : Type;
  verifying_key : SigningKey -> VerifyingKey;
  sign : SigningKey -> list byte -> list byte;
  verify : VerifyingKey -> list byte -> list byte -> bool;
  sha256 : list byte -> list byte;
  hex_encode : list byte -> string;
  hex_decode : string -> option (list byte);
  (** [serde_json] *)
  event_to_vec : Event -> option (list byte);
  lock_to_vec : ConsensusVoteLock -> list byte;
  lock_from_slice : list byte -> option ConsensusVoteLock;
  receipt_to_vec : ConsensusCommitReceipt -> list byte;
  receipt_from_slice : list byte -> option ConsensusCommitReceipt;
}.

(** What the development relies on: [ed25519] signatures are 64 bytes and those made are
    valid, [sha256] makes 32 bytes, [hex] writes two digits for a byte and decodes what it
    encodes, as [serde_json] does; a record of JSON is a line, and [true] is no longer than [false]. *)
Class ConsensusCratesLaws `{ConsensusCrates} : Prop := {
  verify_sign k m : verify (verifying_key k) m (sign k m) = true;
  length_sign k m : length (sign k m) = 64%nat;
  length_sha256 m : length (sha256 m) = 32%nat;
  hex_decode_encode b : hex_decode (hex_encode b) = Some b;
  hex_decode_nil : hex_decode "" = Some [];
  length_hex_encode b : length (str_bytes (hex_encode b)) = (2 * length b)%nat;
  lock_from_to l : lock_from_slice (lock_to_vec l) = Some l;
  lock_line l : line_ok (lock_to_vec l);
  receipt_from_to r : receipt_from_slice (receipt_to_vec r) = Some r;
  receipt_line r : line_ok (receipt_to_vec r);
  receipt_completed_le id digest :
    zlen (receipt_to_vec {| cr_proposal_id := id; cr_proposal_digest := digest; cr_committed := true |}) <=
    zlen (receipt_to_vec {| cr_proposal_id := id; cr_proposal_digest := digest; cr_committed := false |});
}.

Section Payloads.
Context `{ConsensusCrates}.

(** ** Digests and payloads *)

Definition canonical_event_bytes (event : Event) : option (list byte) :=
  match event with
  | EvTransaction t =>
      event_to_vec (EvTransaction {|
        tx_transaction_id := tx_transaction_id t; tx_local_frame_seq := None;
        tx_relational := tx_relational t; tx_nodes := tx_nodes t; tx_edges := tx_edges t;
        tx_vectors := tx_vectors t; tx_node_retractions := tx_node_retractions t;
        tx_advances_txn_frontier := tx_advances_txn_frontier t; tx_rest := tx_rest t |})
  | _ => event_to_vec event
  end.
(** A field with its length before it *)
Definition sized (field : list byte) : list byte := be_bytes 8 (zlen field) ++ field.
Definition digest_input (event_data : list byte) (signer : string) (signature : list byte) : list byte :=
  str_bytes "GENESIS-CONSENSUS-PROPOSAL-V1" ++ [byte_of 0] ++
  sized event_data ++ sized (str_bytes signer) ++ sized signature.
Definition consensus_proposal_digest (e : SignedEvent) : result string (list byte) :=
  event_data ← ok_or (canonical_event_bytes (se_event e)) "EVENT_JSON"%string;
  Ok (sha256 (digest_input event_data (se_signer_peer_id e) (se_signature e))).
Definition vote_payload (proposal_id voter_peer_id : string) (approve : bool)
  (proposal_digest : list byte) (roster_digest : string) : list byte :=
  str_bytes "GENESIS-CONSENSUS-VOTE-V1" ++ [byte_of 0] ++
  sized (str_bytes proposal_id) ++ sized (str_bytes voter_peer_id) ++
  sized (str_bytes roster_digest) ++
  [byte_of (Z.b2z approve)] ++ proposal_digest.

Definition validate_consensus_proposal_event (event : Event) : result string unit :=
  bytes ← ok_or (canonical_event_bytes event) "EVENT_JSON"%string;
  if MAX_CONSENSUS_PROPOSAL_EVENT_BYTES <? zlen bytes then Err "CONSENSUS_PROPOSAL_TOO_LARGE"%string
  else Ok tt.
End Payloads.

(** ** The roster *)

Record AuthorizedPeerConfig := {
  ap_peer_id : string; ap_public_key_hex : string; ap_gossip_addr : string;
  ap_master_authority : bool }.
(** A socket address: its canonical form and its port *)
Definition SocketAddr : Type := string * Z.
(** What the roster is made with: [VerifyingKey::from_bytes] and [as_bytes], the parser of
    socket addresses, and the JSON of the sorted roster *)
Class RosterCrates `{ConsensusCrates} := {
  key_from_bytes : list byte -> option VerifyingKey;
  key_as_bytes : VerifyingKey -> list byte;
  parse_socket_addr : string -> option SocketAddr;
  roster_to_vec : list (string * string * bool) -> list byte;
}.

Section Roster.
Context `{RosterCrates}.

Record AuthorizedMember := {
  am_verifying_key : VerifyingKey; am_gossip_addr : SocketAddr; am_master_authority : bool }.
(** [authorized_members], [membership_digest], [local_master_authority] *)
Record roster := {
  ro_members : gmap string AuthorizedMember;
  ro_digest : string;
  ro_local_master : bool;
  ro_bind_addr : SocketAddr;
}.
(** A store without a cluster *)
Definition no_roster : roster :=
  {| ro_members := ∅; ro_digest := ""; ro_local_master := true; ro_bind_addr := ("0.0.0.0"%string, 0) |}.

Definition GOSSIP_MAX_PEERS : Z := 256.
Definition membership_invalid {A} : result string A := Err "PEER_MEMBERSHIP_INVALID"%string.
(** [hex::encode(Sha256::digest(key.as_bytes()))[..16]] *)
Definition derived_peer_id (key : VerifyingKey) : string :=
  str_of_bytes (take 16 (str_bytes (hex_encode (sha256 (key_as_bytes key))))).

Section Configure.
Variable local_peer_id : string.
Variable local_key : VerifyingKey.

Record parsing := {
  pa_parsed : list (AuthorizedPeerConfig * VerifyingKey * SocketAddr);
  pa_ids : list string; pa_addrs : list SocketAddr }.
(** One peer of the configured roster *)
Definition parse_peer (st : parsing) (peer : AuthorizedPeerConfig) : result string parsing :=
  match hex_decode (ap_public_key_hex peer) with
  | None => membership_invalid
  | Some raw =>
      if negb (Nat.eqb (length raw) 32) then membership_invalid
      else
        match key_from_bytes raw with
        | None => membership_invalid
        | Some key =>
            if negb (bool_decide (ap_peer_id peer = derived_peer_id key))
               || bool_decide (ap_peer_id peer = local_peer_id) then membership_invalid
            else if bool_decide (ap_peer_id peer ∈ pa_ids st) then membership_invalid
            else
              match parse_socket_addr (ap_gossip_addr peer) with
              | None => membership_invalid
              | Some addr =>
                  if (addr.2 =? 0) || bool_decide (addr ∈ pa_addrs st) then membership_invalid
                  else Ok {| pa_parsed := pa_parsed st ++ [(peer, key, addr)];
                             pa_ids := ap_peer_id peer :: pa_ids st;
                             pa_addrs := addr :: pa_addrs st |}
              end
        end
  end.
Definition roster_entry (p : AuthorizedPeerConfig * VerifyingKey * SocketAddr) : string * string * bool :=
  (ap_peer_id p.1.1, hex_encode (key_as_bytes p.1.2), ap_master_authority p.1.1).
Definition insert_member (m : gmap string AuthorizedMember) (p : AuthorizedPeerConfig * VerifyingKey * SocketAddr)
  : gmap string AuthorizedMember :=
  <[ap_peer_id p.1.1 := {| am_verifying_key := p.1.2; am_gossip_addr := p.2;
                          am_master_authority := ap_master_authority p.1.1 |}]> m.
(** [configure_peer_membership] of a store that starts: no gossip and no proposals yet,
    and the journal's authorization passes. *)
Definition configure_peer_membership (peers : list AuthorizedPeerConfig) (local_gossip_addr : string)
  (local_master_authority : bool) : result string roster :=
  if GOSSIP_MAX_PEERS <? zlen peers then membership_invalid
  else
    match parse_socket_addr local_gossip_addr with
    | None => membership_invalid
    | Some bind_addr =>
        if bind_addr.2 =? 0 then membership_invalid
        else
          st ← try_for parse_peer {| pa_parsed := []; pa_ids := []; pa_addrs := [] |} peers;
          let entries := (local_peer_id, hex_encode (key_as_bytes local_key), local_master_authority)
                         :: map roster_entry (pa_parsed st) in
          let sorted := sort_by (fun a b => cmp_str a.1.1 b.1.1) entries in
          Ok {| ro_members := foldl insert_member ∅ (pa_parsed st);
                ro_digest := hex_encode (sha256 (roster_to_vec sorted));
                ro_local_master := local_master_authority;
                ro_bind_addr := bind_addr |}
    end.
End Configure.
End Roster.

(** ** The node *)

(** [(proposal_id, roster_digest, peer_id)] *)
Notation lock_key := (string * string * string)%type.
Definition key_of (l : ConsensusVoteLock) : lock_key :=
  (vl_proposal_id l, vl_roster_digest l, vl_peer_id l).

Section Node.
Context `{RosterCrates}.

(** A proposal that reached its quorum, the roster and the digest of its event *)
Record commit_tag := { ct_proposal : string; ct_roster : roster; ct_digest : string }.

(** The state of [Storage] that consensus uses. [nd_replies] answers the checks and the
    journal; [nd_sent] is an event given to the journal whose fate is not known.
    [nd_seen], [nd_acked] and [nd_done] are bookkeeping of the proofs, which no code
    reads: the valid ballots the node got or made, those it acknowledged, and the
    proposals whose event the journal took. *)
Record node := {
  nd_replies : list reply;
  nd_votes : ledger;
  nd_commits : ledger;
  nd_locks : gmap lock_key ConsensusVoteLock;
  nd_receipts : gmap string ConsensusCommitReceipt;
  nd_records : Z;
  nd_roster : roster;
  nd_proposals : gmap string ConsensusProposal;
  nd_activity : gmap string Z;
  nd_now : Z;
  nd_recovery_required : bool;
  nd_journal : list SignedEvent;
  nd_sent : option (SignedEvent * commit_tag);
  nd_seen : list ConsensusVoteLock;
  nd_acked : list ConsensusVoteLock;
  nd_done : list commit_tag;
}.
Notation code := (EM node).

Definition set_replies l s := {| nd_replies := l; nd_votes := nd_votes s; nd_commits := nd_commits s;
  nd_locks := nd_locks s; nd_receipts := nd_receipts s; nd_records := nd_records s; nd_roster := nd_roster s;
  nd_proposals := nd_proposals s; nd_activity := nd_activity s; nd_now := nd_now s;
  nd_recovery_required := nd_recovery_required s; nd_journal := nd_journal s; nd_sent := nd_sent s;
  nd_seen := nd_seen s; nd_acked := nd_acked s; nd_done := nd_done s |}.
Definition set_votes l s := {| nd_replies := nd_replies s; nd_votes := l; nd_commits := nd_commits s;
  nd_locks := nd_locks s; nd_receipts := nd_receipts s; nd_records := nd_records s; nd_roster := nd_roster s;
  nd_proposals := nd_proposals s; nd_activity := nd_activity s; nd_now := nd_now s;
  nd_recovery_required := nd_recovery_required s; nd_journal := nd_journal s; nd_sent := nd_sent s;
  nd_seen := nd_seen s; nd_acked := nd_acked s; nd_done := nd_done s |}.
Definition set_commits l s := {| nd_replies := nd_replies s; nd_votes := nd_votes s; nd_commits := l;
  nd_locks := nd_locks s; nd_receipts := nd_receipts s; nd_records := nd_records s; nd_roster := nd_roster s;
  nd_proposals := nd_proposals s; nd_activity := nd_activity s; nd_now := nd_now s;
  nd_recovery_required := nd_recovery_required s; nd_journal := nd_journal s; nd_sent := nd_sent s;
  nd_seen := nd_seen s; nd_acked := nd_acked s; nd_done := nd_done s |}.
Definition set_locks m s := {| nd_replies := nd_replies s; nd_votes := nd_votes s; nd_commits := nd_commits s;
  nd_locks := m; nd_receipts := nd_receipts s; nd_records := nd_records s; nd_roster := nd_roster s;
  nd_proposals := nd_proposals s; nd_activity := nd_activity s; nd_now := nd_now s;
  nd_recovery_required := nd_recovery_required s; nd_journal := nd_journal s; nd_sent := nd_sent s;
  nd_seen := nd_seen s; nd_acked := nd_acked s; nd_done := nd_done s |}.
Definition set_receipts m n s := {| nd_replies := nd_replies s; nd_votes := nd_votes s; nd_commits := nd_commits s;
  nd_locks := nd_locks s; nd_receipts := m; nd_records := n; nd_roster := nd_roster s;
  nd_proposals := nd_proposals s; nd_activity := nd_activity s; nd_now := nd_now s;
  nd_recovery_required := nd_recovery_required s; nd_journal := nd_journal s; nd_sent := nd_sent s;
  nd_seen := nd_seen s; nd_acked := nd_acked s; nd_done := nd_done s |}.
Definition set_proposals m act s := {| nd_replies := nd_replies s; nd_votes := nd_votes s; nd_commits := nd_commits s;
  nd_locks := nd_locks s; nd_receipts := nd_receipts s; nd_records := nd_records s; nd_roster := nd_roster s;
  nd_proposals := m; nd_activity := act; nd_now := nd_now s;
  nd_recovery_required := nd_recovery_required s; nd_journal := nd_journal s; nd_sent := nd_sent s;
  nd_seen := nd_seen s; nd_acked := nd_acked s; nd_done := nd_done s |}.
Definition set_recovery_required s := {| nd_replies := nd_replies s; nd_votes := nd_votes s; nd_commits := nd_commits s;
  nd_locks := nd_locks s; nd_receipts := nd_receipts s; nd_records := nd_records s; nd_roster := nd_roster s;
  nd_proposals := nd_proposals s; nd_activity := nd_activity s; nd_now := nd_now s;
  nd_recovery_required := true; nd_journal := nd_journal s; nd_sent := nd_sent s;
  nd_seen := nd_seen s; nd_acked := nd_acked s; nd_done := nd_done s |}.
Definition set_journal l sent fin s := {| nd_replies := nd_replies s; nd_votes := nd_votes s; nd_commits := nd_commits s;
  nd_locks := nd_locks s; nd_receipts := nd_receipts s; nd_records := nd_records s; nd_roster := nd_roster s;
  nd_proposals := nd_proposals s; nd_activity := nd_activity s; nd_now := nd_now s;
  nd_recovery_required := nd_recovery_required s; nd_journal := l; nd_sent := sent;
  nd_seen := nd_seen s; nd_acked := nd_acked s; nd_done := fin |}.
Definition acknowledge l s := {| nd_replies := nd_replies s; nd_votes := nd_votes s; nd_commits := nd_commits s;
  nd_locks := nd_locks s; nd_receipts := nd_receipts s; nd_records := nd_records s; nd_roster := nd_roster s;
  nd_proposals := nd_proposals s; nd_activity := nd_activity s; nd_now := nd_now s;
  nd_recovery_required := nd_recovery_required s; nd_journal := nd_journal s; nd_sent := nd_sent s;
  nd_seen := nd_seen s; nd_acked := nd_acked s ++ [l]; nd_done := nd_done s |}.

Definition see l s := {| nd_replies := nd_replies s; nd_votes := nd_votes s; nd_commits := nd_commits s;
  nd_locks := nd_locks s; nd_receipts := nd_receipts s; nd_records := nd_records s; nd_roster := nd_roster s;
  nd_proposals := nd_proposals s; nd_activity := nd_activity s; nd_now := nd_now s;
  nd_recovery_required := nd_recovery_required s; nd_journal := nd_journal s; nd_sent := nd_sent s;
  nd_seen := nd_seen s ++ [l]; nd_acked := nd_acked s; nd_done := nd_done s |}.

(** An answer of the environment *)
Definition answer : code bool := fun s =>
  match nd_replies s with
  | [] => (Err Crash, s)
  | r :: l => (Ok match r with Done => true | Failed _ => false end, set_replies l s)
  end.
(** A check this file does not model *)
Definition gate (e : string) : code unit := ok ← answer; require ok e.
Definition on_votes {A} : ledger_code A -> code A := zoom nd_votes set_votes.
Definition on_commits {A} : ledger_code A -> code A := zoom nd_commits set_commits.

Definition ensure_readable : code unit :=
  r ← reads nd_recovery_required; require (negb r) "RECOVERY_REQUIRED".
(** The database is not open for reading only. *)
Definition ensure_writable : code unit := ensure_readable.
Definition durable_apply_error {A} : code A :=
  update set_recovery_required ;; raise "DURABLE_COMMIT_APPLY_FAILED".

(** ** The ledgers when the database opens *)

Definition vote_lock_malformed (l : ConsensusVoteLock) : bool :=
  bool_decide (vl_proposal_id l = ""%string) || bool_decide (vl_peer_id l = ""%string) ||
  negb (is_Some_b (hex_decode (vl_roster_digest l))) ||
  match hex_decode (vl_proposal_digest l) with
  | Some digest => negb (Nat.eqb (length digest) 32) | None => true
  end ||
  negb (Nat.eqb (length (vl_signature l)) 64).
Definition line_limit (line : list byte) (record_count : Z) : bool :=
  (MAX_CONSENSUS_LEDGER_RECORD_BYTES <? zlen line) || (MAX_CONSENSUS_LEDGER_RECORDS <? record_count).
Definition load_vote_line (acc : gmap lock_key ConsensusVoteLock * Z) (line : list byte)
  : result string (gmap lock_key ConsensusVoteLock * Z) :=
  let '(locks, record_count) := acc in
  let record_count := record_count + 1 in
  if line_limit line record_count then Err "CONSENSUS_VOTE_LEDGER_LIMIT"%string
  else
    match lock_from_slice line with
    | None => Err "CONSENSUS_VOTE_LEDGER_CORRUPT"%string
    | Some lock =>
        if vote_lock_malformed lock then Err "CONSENSUS_VOTE_LEDGER_CORRUPT"%string
        else
          match locks !! key_of lock with
          | Some previous =>
              if negb (bool_decide (previous = lock)) then Err "CONSENSUS_VOTE_LEDGER_CONFLICT"%string
              else Err "CONSENSUS_VOTE_LEDGER_CORRUPT"%string
          | None => Ok (<[key_of lock := lock]> locks, record_count)
          end
    end.
Definition load_consensus_vote_locks : ledger_code (gmap lock_key ConsensusVoteLock) :=
  '(_, lines) ← load_lines "CONSENSUS_VOTE" true;
  '(locks, _) ← of_result (try_for load_vote_line (∅, 0) lines);
  mret locks.

Definition receipt_malformed (r : ConsensusCommitReceipt) : bool :=
  bool_decide (cr_proposal_id r = ""%string) || (512 <? zlen (str_bytes (cr_proposal_id r))) ||
  match hex_decode (cr_proposal_digest r) with
  | Some digest => negb (Nat.eqb (length digest) 32) | None => true
  end.
Definition load_receipt_line (acc : gmap string ConsensusCommitReceipt * Z) (line : list byte)
  : result string (gmap string ConsensusCommitReceipt * Z) :=
  let '(receipts, record_count) := acc in
  let record_count := record_count + 1 in
  if line_limit line record_count then Err "CONSENSUS_COMMIT_LEDGER_LIMIT"%string
  else
    match receipt_from_slice line with
    | None => Err "CONSENSUS_COMMIT_LEDGER_CORRUPT"%string
    | Some receipt =>
        if receipt_malformed receipt then Err "CONSENSUS_COMMIT_LEDGER_CORRUPT"%string
        else
          match receipts !! cr_proposal_id receipt with
          | Some previous =>
              if negb (bool_decide (cr_proposal_digest previous = cr_proposal_digest receipt))
                 || cr_committed previous && negb (cr_committed receipt)
              then Err "CONSENSUS_COMMIT_LEDGER_CONFLICT"%string
              else if cr_committed receipt
              then Ok (<[cr_proposal_id receipt := receipt]> receipts, record_count)
              else Ok (receipts, record_count)
          | None => Ok (<[cr_proposal_id receipt := receipt]> receipts, record_count)
          end
    end.
Definition completed (r : ConsensusCommitReceipt) : ConsensusCommitReceipt :=
  {| cr_proposal_id := cr_proposal_id r; cr_proposal_digest := cr_proposal_digest r; cr_committed := true |}.
Definition receipts_pending (m : gmap string ConsensusCommitReceipt) : list ConsensusCommitReceipt :=
  List.filter (fun r => negb (cr_committed r)) (map_to_list m).*2.
(** The bytes the completions of [pending] need; sizes of records are far from [u64::MAX],
    where [saturating_add] stops. *)
Definition reserved_bytes (pending : list ConsensusCommitReceipt) : Z :=
  foldl (fun total r => u64_saturating_add total (zlen (receipt_to_vec (completed r)) + 1)) 0 pending.
Definition load_consensus_commit_receipts : ledger_code (gmap string ConsensusCommitReceipt * Z) :=
  '(bytes, lines) ← load_lines "CONSENSUS_COMMIT" true;
  '(receipts, record_count) ← of_result (try_for load_receipt_line (∅, 0) lines);
  let pending := receipts_pending receipts in
  require (negb ((MAX_CONSENSUS_LEDGER_RECORDS / 2 <? Z.of_nat (size receipts))
                 || (MAX_CONSENSUS_LEDGER_RECORDS <? record_count + zlen pending)))
    "CONSENSUS_COMMIT_LEDGER_LIMIT" ;;
  require (u64_saturating_add (zlen bytes) (reserved_bytes pending) <=? MAX_CONSENSUS_LEDGER_BYTES)
    "CONSENSUS_COMMIT_LEDGER_LIMIT" ;;
  mret (receipts, record_count).

(** ** Ballots *)

Definition persist_consensus_vote_lock (lock : ConsensusVoteLock) : code unit :=
  update (see lock) ;;
  poisoned ← reads (fun s => lg_poisoned (nd_votes s));
  require (negb poisoned) "CONSENSUS_VOTE_LEDGER_POISONED" ;;
  locks ← reads nd_locks;
  require (Z.of_nat (size locks) <? MAX_CONSENSUS_LEDGER_RECORDS) "CONSENSUS_VOTE_LEDGER_LIMIT" ;;
  on_votes (append_line "CONSENSUS_VOTE" (lock_to_vec lock)).
(** A new ballot: durable first, then in memory, then acknowledged *)
Definition record_ballot (lock : ConsensusVoteLock) : code unit :=
  persist_consensus_vote_lock lock ;;
  update (fun s => acknowledge lock (set_locks (<[key_of lock := lock]> (nd_locks s)) s)).

(** ** Receipts *)

Definition append_consensus_commit_record (receipt : ConsensusCommitReceipt) : code unit :=
  poisoned ← reads (fun s => lg_poisoned (nd_commits s));
  require (negb poisoned) "CONSENSUS_COMMIT_LEDGER_POISONED" ;;
  records ← reads nd_records;
  require (records <? MAX_CONSENSUS_LEDGER_RECORDS) "CONSENSUS_COMMIT_LEDGER_LIMIT" ;;
  on_commits (append_line "CONSENSUS_COMMIT" (receipt_to_vec receipt)) ;;
  update (fun s => set_receipts (nd_receipts s) (nd_records s + 1) s).

Definition ensure_consensus_commit_capacity (proposal_id digest : string) : code unit :=
  receipts ← reads nd_receipts;
  let existing := receipts !! proposal_id in
  match existing with
  | Some receipt => require (bool_decide (cr_proposal_digest receipt = digest)) "CONSENSUS_PROPOSAL_ID_CONFLICT"
  | None => require (Z.of_nat (size receipts) <? MAX_CONSENSUS_LEDGER_RECORDS / 2) "CONSENSUS_COMMIT_LEDGER_LIMIT"
  end ;;
  if match existing with Some receipt => cr_committed receipt | None => false end then mret tt
  else
    let pending := receipts_pending receipts in
    let fresh := {| cr_proposal_id := proposal_id; cr_proposal_digest := digest; cr_committed := false |} in
    let reserved := reserved_bytes pending in
    let '(reserved_records, reserved) :=
      match existing with
      | Some _ => (zlen pending, reserved)
      | None =>
          (zlen pending + 2,
           u64_saturating_add (u64_saturating_add reserved (zlen (receipt_to_vec fresh) + 1))
             (zlen (receipt_to_vec (completed fresh)) + 1))
      end in
    records ← reads nd_records;
    require (records + reserved_records <=? MAX_CONSENSUS_LEDGER_RECORDS) "CONSENSUS_COMMIT_LEDGER_LIMIT" ;;
    known ← on_commits attempt;
    require known "CONSENSUS_COMMIT_LEDGER_READ_FAILED" ;;
    existing_len ← reads (fun s => zlen (lf_bytes (lg_file (nd_commits s))));
    require (u64_saturating_add existing_len reserved <=? MAX_CONSENSUS_LEDGER_BYTES)
      "CONSENSUS_COMMIT_LEDGER_LIMIT".

Definition store_receipt (r : ConsensusCommitReceipt) (s : node) : node :=
  set_receipts (<[cr_proposal_id r := r]> (nd_receipts s)) (nd_records s) s.
Definition record_receipt (receipt : ConsensusCommitReceipt) : code unit :=
  append_consensus_commit_record receipt ;; update (store_receipt receipt).
Definition prepare_consensus_commit (receipt : ConsensusCommitReceipt) : code unit :=
  ensure_consensus_commit_capacity (cr_proposal_id receipt) (cr_proposal_digest receipt) ;;
  receipts ← reads nd_receipts;
  if is_Some_b (receipts !! cr_proposal_id receipt) then mret tt
  else record_receipt receipt.
Definition complete_consensus_commit (receipt : ConsensusCommitReceipt) : code unit :=
  receipts ← reads nd_receipts;
  match receipts !! cr_proposal_id receipt with
  | None => raise "CONSENSUS_COMMIT_LEDGER_INVALID"
  | Some previous =>
      if negb (bool_decide (cr_proposal_digest previous = cr_proposal_digest receipt))
      then raise "CONSENSUS_PROPOSAL_ID_CONFLICT"
      else if cr_committed previous then mret tt
      else record_receipt receipt
  end.

(** The exact signed event is among those a scan of the journal reads. *)
Definition stored_digest (e : SignedEvent) : option string :=
  match consensus_proposal_digest e with Ok d => Some (hex_encode d) | Err _ => None end.
Definition frame_found (journal : list SignedEvent) (digest : string) : bool :=
  existsb (fun e => bool_decide (stored_digest e = Some digest)) journal.
(** [scan_journal(None, true, ..)] *)
Definition scan_for (digest : string) : code bool := reads (fun s => frame_found (nd_journal s) digest).

Definition recover_pending_consensus_commits : code unit :=
  receipts ← reads nd_receipts;
  efor (fun _ receipt =>
      found ← scan_for (cr_proposal_digest receipt);
      if found : bool then complete_consensus_commit (completed receipt) else mret tt)
    tt (receipts_pending receipts).

Definition proposal_has_durable_commit (proposal : ConsensusProposal) : code bool :=
  d ← of_result (consensus_proposal_digest (cp_signed_event proposal));
  let digest := hex_encode d in
  receipts ← reads nd_receipts;
  match receipts !! cp_proposal_id proposal with
  | None => mret false
  | Some receipt =>
      if negb (bool_decide (cr_proposal_digest receipt = digest)) then raise "CONSENSUS_PROPOSAL_ID_CONFLICT"
      else if cr_committed receipt then mret true
      else
        found ← scan_for digest;
        (if found : bool
         then complete_consensus_commit {| cr_proposal_id := cp_proposal_id proposal;
                                           cr_proposal_digest := digest; cr_committed := true |}
         else mret tt) ;;
        mret found
  end.

(** ** Proposals *)

Variable local_peer_id : string.
Variable signing_key : SigningKey.
Variable storage_schema_version : Z.

Definition SCHEMA_VERSION : Z := 6.
Definition peer_verifying_key (r : roster) (peer_id : string) : option VerifyingKey :=
  if bool_decide (peer_id = local_peer_id) then Some (verifying_key signing_key)
  else am_verifying_key <$> ro_members r !! peer_id.
Definition member_count (r : roster) : Z := Z.of_nat (size (ro_members r)) + 1.

Definition validate_consensus_schema_event (event : Event) : code unit :=
  if negb (storage_schema_version =? SCHEMA_VERSION) then mret tt
  else
    match event with
    | EvNode _ | EvEdge _ | EvVector _ | EvVectorMaterialized _ | EvNodeRetract _ | EvBatch _ =>
        raise "UPGRADE_REQUIRED"
    | EvTransaction t =>
        if is_revision_checkpoint t then raise "CONSENSUS_REVISION_CHECKPOINT_UNSUPPORTED"
        else gate "RELATIONAL_PREFLIGHT"
    | EvRelationalRows _ => gate "RELATIONAL_PREFLIGHT"
    | _ => mret tt
    end.
Definition validate_signed_event_authorization (e : SignedEvent) : code unit := gate "AUTHORIZATION".

Definition touch_consensus_proposal (proposal_id : string) : code unit := update (fun s =>
  set_proposals (nd_proposals s) (<[proposal_id := nd_now s]> (nd_activity s)) s).
Definition expired (now at_ : Z) : bool := CONSENSUS_PROPOSAL_IDLE_TTL <=? u64_saturating_sub now at_.
Definition prune_expired_consensus_proposals : code unit := update (fun s =>
  let gone := (List.filter (fun e => expired (nd_now s) e.2) (map_to_list (nd_activity s))).*1 in
  set_proposals (foldr delete (nd_proposals s) gone) (foldr delete (nd_activity s) gone) s).

(** A stored ballot verified for a proposal *)
Definition verify_stored (r : roster) (proposal_id peer_id : string) (approve : bool)
  (event_digest : list byte) (signature : list byte) : result string unit :=
  match peer_verifying_key r peer_id with
  | None => Err "CONSENSUS_VOTE_LEDGER_INVALID"%string
  | Some key =>
      if negb (Nat.eqb (length signature) 64) then Err "CONSENSUS_VOTE_LEDGER_INVALID"%string
      else if verify key (vote_payload proposal_id peer_id approve event_digest (ro_digest r)) signature
      then Ok tt else Err "CONSENSUS_VOTE_LEDGER_INVALID"%string
  end.
Definition set_votes_of (p : ConsensusProposal) (votes : gmap string bool)
  (signatures : gmap string (list byte)) (committed : bool) : ConsensusProposal :=
  {| cp_proposal_id := cp_proposal_id p; cp_signed_event := cp_signed_event p; cp_votes := votes;
     cp_quorum_signatures := signatures; cp_committed := committed |}.
Definition cleared (p : ConsensusProposal) : ConsensusProposal := set_votes_of p ∅ ∅ false.
(** The ballots of a proposal among the locks *)
Definition ballots_of (r : roster) (proposal_id : string) (locks : gmap lock_key ConsensusVoteLock)
  : list (lock_key * ConsensusVoteLock) :=
  List.filter (fun e => bool_decide (e.1.1.1 = proposal_id) && bool_decide (e.1.1.2 = ro_digest r))
    (map_to_list locks).
(** [restore_consensus_vote_locks]: the proposal with the ballots restored up to the
    first that fails, and whether one did. *)
Fixpoint restore_ballots (r : roster) (event_digest : list byte)
  (ballots : list (lock_key * ConsensusVoteLock)) (p : ConsensusProposal)
  : ConsensusProposal * result string unit :=
  match ballots with
  | [] => (p, Ok tt)
  | (key, lock) :: ballots' =>
      if negb (bool_decide (vl_proposal_digest lock = hex_encode event_digest))
      then (p, Err "CONSENSUS_PROPOSAL_ID_CONFLICT"%string)
      else
        match verify_stored r (cp_proposal_id p) key.2 (vl_approve lock) event_digest (vl_signature lock) with
        | Err e => (p, Err e)
        | Ok _ =>
            restore_ballots r event_digest ballots'
              (set_votes_of p (<[key.2 := vl_approve lock]> (cp_votes p))
                 (<[key.2 := vl_signature lock]> (cp_quorum_signatures p)) (cp_committed p))
        end
  end.
Definition restore_consensus_vote_locks (s : node) (p : ConsensusProposal)
  : ConsensusProposal * result string unit :=
  match consensus_proposal_digest (cp_signed_event p) with
  | Err e => (p, Err e)
  | Ok d => restore_ballots (nd_roster s) d (ballots_of (nd_roster s) (cp_proposal_id p) (nd_locks s)) p
  end.

Definition count_ballot (r : roster) (proposal_id : string) (event_digest : list byte) (approvals : Z)
  (e : lock_key * ConsensusVoteLock) : result string Z :=
  let '(key, lock) := e in
  if negb (bool_decide (vl_proposal_id lock = proposal_id)) || negb (bool_decide (vl_peer_id lock = key.2))
     || negb (bool_decide (vl_roster_digest lock = ro_digest r))
     || negb (bool_decide (vl_proposal_digest lock = hex_encode event_digest))
  then Err "CONSENSUS_VOTE_LEDGER_INVALID"%string
  else
    verify_stored r proposal_id key.2 (vl_approve lock) event_digest (vl_signature lock) ;;
    Ok (if vl_approve lock then approvals + 1 else approvals).
Definition verified_consensus_approval_count (r : roster) (proposal_id : string)
  (event_digest : list byte) (locks : gmap lock_key ConsensusVoteLock) : result string Z :=
  try_for (count_ballot r proposal_id event_digest) 0 (ballots_of r proposal_id locks).

Definition store_proposal (proposal_id : string) (p : ConsensusProposal) : code unit := update (fun s =>
  set_proposals (<[proposal_id := p]> (nd_proposals s)) (nd_activity s) s).
Definition lookup_proposal (proposal_id : string) : code ConsensusProposal :=
  proposals ← reads nd_proposals; of_result (ok_or (proposals !! proposal_id) "UNKNOWN_PROPOSAL"%string).
Definition room_for_proposal : code unit :=
  proposals ← reads nd_proposals;
  require (Z.of_nat (size proposals) <? MAX_CONSENSUS_PROPOSALS) "CONSENSUS_PROPOSAL_LIMIT".

(** [propose_consensus], on the identifier [Uuid::new_v4] makes and the event that
    promotion, the revision envelope and [sign_event] make of the caller's *)
Definition propose_consensus (legacy_impact : bool) (event : Event) (proposal_id : string)
  (signed_event : SignedEvent) : code string :=
  require (negb legacy_impact) "KIMPACT_REMOVED" ;;
  require (negb (contains_p6_control_event event)) "P6_LOCAL_ONLY" ;;
  ensure_readable ;;
  gate "REVISIONIZE" ;;
  validate_consensus_schema_event (se_event signed_event) ;;
  gate "GOVERNANCE_AUTH_REQUIRED" ;;
  of_result (validate_consensus_proposal_event (se_event signed_event)) ;;
  prune_expired_consensus_proposals ;;
  room_for_proposal ;;
  store_proposal proposal_id {| cp_proposal_id := proposal_id; cp_signed_event := signed_event;
    cp_votes := ∅; cp_quorum_signatures := ∅; cp_committed := false |} ;;
  touch_consensus_proposal proposal_id ;;
  mret proposal_id.

(** [accept_consensus_proposal], which [import_consensus_proposal] calls *)
Definition accept_consensus_proposal (proposal : ConsensusProposal) : code unit :=
  let event := se_event (cp_signed_event proposal) in
  require (negb (contains_p6_control_event event)) "P6_LOCAL_ONLY" ;;
  let len := zlen (str_bytes (cp_proposal_id proposal)) in
  require ((1 <=? len) && (len <=? 128)) "CONSENSUS_PROPOSAL_INVALID" ;;
  ensure_writable ;;
  validate_signed_event_authorization (cp_signed_event proposal) ;;
  validate_consensus_schema_event event ;;
  of_result (validate_consensus_proposal_event event) ;;
  prune_expired_consensus_proposals ;;
  '(restored, r) ← reads (fun s => restore_consensus_vote_locks s (cleared proposal));
  of_result r ;;
  committed ← proposal_has_durable_commit restored;
  proposals ← reads nd_proposals;
  match proposals !! cp_proposal_id proposal with
  | Some existing =>
      existing_digest ← of_result (consensus_proposal_digest (cp_signed_event existing));
      incoming_digest ← of_result (consensus_proposal_digest (cp_signed_event proposal));
      require (bool_decide (existing_digest = incoming_digest)) "CONSENSUS_PROPOSAL_ID_CONFLICT" ;;
      touch_consensus_proposal (cp_proposal_id proposal)
  | None =>
      room_for_proposal ;;
      store_proposal (cp_proposal_id proposal)
        (set_votes_of restored (cp_votes restored) (cp_quorum_signatures restored) committed) ;;
      touch_consensus_proposal (cp_proposal_id proposal)
  end.
Definition export_consensus_proposal (proposal_id : string) : code ConsensusProposal :=
  p ← lookup_proposal proposal_id; mret (cleared p).

(** ** Voting *)

Definition sign_vote (proposal_id : string) (approve : bool) : code (list byte) :=
  ensure_writable ;;
  proposal ← lookup_proposal proposal_id;
  require (bool_decide (cp_proposal_id proposal = proposal_id)) "CONSENSUS_PROPOSAL_ID_CONFLICT" ;;
  require (negb (contains_p6_control_event (se_event (cp_signed_event proposal)))) "P6_LOCAL_ONLY" ;;
  validate_signed_event_authorization (cp_signed_event proposal) ;;
  validate_consensus_schema_event (se_event (cp_signed_event proposal)) ;;
  touch_consensus_proposal proposal_id ;;
  event_digest ← of_result (consensus_proposal_digest (cp_signed_event proposal));
  roster ← reads nd_roster;
  durable ← proposal_has_durable_commit proposal;
  locks ← reads nd_locks;
  match locks !! (proposal_id, ro_digest roster, local_peer_id) with
  | None =>
      require (negb durable) "CONSENSUS_PROPOSAL_ALREADY_COMMITTED" ;;
      let signature := sign signing_key
        (vote_payload proposal_id local_peer_id approve event_digest (ro_digest roster)) in
      let lock := {| vl_proposal_id := proposal_id; vl_peer_id := local_peer_id;
                     vl_roster_digest := ro_digest roster; vl_proposal_digest := hex_encode event_digest;
                     vl_approve := approve; vl_signature := signature |} in
      record_ballot lock ;;
      mret signature
  | Some previous =>
      require (bool_decide (vl_proposal_digest previous = hex_encode event_digest)
               && Bool.eqb (vl_approve previous) approve) "CONFLICTING_VOTE" ;;
      of_result (verify_stored roster proposal_id local_peer_id approve event_digest (vl_signature previous)) ;;
      update (acknowledge previous) ;;
      mret (vl_signature previous)
  end.

(** ** Committing *)

(** [persist_signed], for a proposal's event. The journal's thread acknowledges the
    frame, or the node does not learn whether it is durable. *)
Definition persist_signed (e : SignedEvent) (tag : commit_tag) : code unit :=
  ensure_writable ;;
  require (negb (contains_p6_control_event (se_event e))) "P6_LOCAL_ONLY" ;;
  gate "COLLECTION_PREFLIGHT" ;;
  gate "RELATIONAL_PREFLIGHT" ;;
  gate "WAL_DISCONNECTED" ;;
  update (fun s => set_journal (nd_journal s) (Some (e, tag)) (nd_done s) s) ;;
  ack ← answer;
  (if ack : bool
   then update (fun s => set_journal (nd_journal s ++ [e]) None (nd_done s ++ [tag]) s)
   else update set_recovery_required ;; raise "COMMIT_OUTCOME_UNKNOWN") ;;
  applied ← answer;
  if applied : bool then mret tt else durable_apply_error.

(** The event made durable and applied, kind by kind *)
Definition apply_checked : code unit :=
  ok ← answer; if ok : bool then mret tt else durable_apply_error.
Definition apply_unchecked : code unit :=
  ok ← answer; if ok : bool then mret tt else update set_recovery_required.
Definition commit_event (e : SignedEvent) (tag : commit_tag) : code unit :=
  persist_signed e tag ;;
  match se_event e with
  | EvCollectionDefinition _ | EvCollectionMaterialization _ | EvVectorMaterialized _
  | EvNode _ | EvBatch _ => apply_checked
  | EvEdge _ | EvVector _ | EvTransaction _ | EvNodeRetract _
  | EvGenerationPublished _ | EvAccessPolicyChanged _ | EvSchema6MigrationChunkV1 _
  | EvSchema6MigrationCommitV1 _ | EvSchema6ActivationV1 _ => apply_unchecked
  | EvRelationalSchema _ | EvRelationalRows _ => mret tt
  end.

Definition mark_committed (proposal_id : string) (p : ConsensusProposal) (committed : bool) : code unit :=
  store_proposal proposal_id (set_votes_of p (cp_votes p) (cp_quorum_signatures p) committed).

(** The ballot of a vote that passed its checks: the one stored, or a new one *)
Definition ballot_for (roster : roster) (key : VerifyingKey) (proposal_id peer_id : string) (approve : bool)
  (event_digest signature : list byte) : code ConsensusVoteLock :=
  locks ← reads nd_locks;
  match locks !! (proposal_id, ro_digest roster, peer_id) with
  | Some stored =>
      require (bool_decide (vl_proposal_digest stored = hex_encode event_digest)
               && Bool.eqb (vl_approve stored) approve) "CONFLICTING_VOTE" ;;
      require (Nat.eqb (length (vl_signature stored)) 64) "CONSENSUS_VOTE_LEDGER_INVALID" ;;
      require (verify key (vote_payload proposal_id peer_id (vl_approve stored) event_digest (ro_digest roster))
                 (vl_signature stored)) "CONSENSUS_VOTE_LEDGER_INVALID" ;;
      update (acknowledge stored) ;;
      mret stored
  | None =>
      let lock := {| vl_proposal_id := proposal_id; vl_peer_id := peer_id;
                     vl_roster_digest := ro_digest roster; vl_proposal_digest := hex_encode event_digest;
                     vl_approve := approve; vl_signature := signature |} in
      record_ballot lock ;;
      mret lock
  end.
(** From the quorum on: the event is prepared, made durable, applied and completed. *)
Definition commit_proposal (roster : roster) (proposal_id : string) (p : ConsensusProposal) : code bool :=
  durable ← proposal_has_durable_commit p;
  if durable : bool then mark_committed proposal_id p true ;; mret true
  else
    let e := cp_signed_event p in
    require (negb (contains_p6_control_event (se_event e))) "P6_LOCAL_ONLY" ;;
    validate_signed_event_authorization e ;;
    validate_consensus_schema_event (se_event e) ;;
    d ← of_result (consensus_proposal_digest e);
    let digest := hex_encode d in
    prepare_consensus_commit {| cr_proposal_id := proposal_id; cr_proposal_digest := digest;
                                cr_committed := false |} ;;
    commit_event e {| ct_proposal := proposal_id; ct_roster := roster; ct_digest := digest |} ;;
    done_ ← catch (complete_consensus_commit {| cr_proposal_id := proposal_id; cr_proposal_digest := digest;
                                                cr_committed := true |});
    mark_committed proposal_id p true ;;
    match done_ with Ok _ => mret true | Err error => raise error end.

Definition submit_vote (proposal_id peer_id : string) (approve : bool) (signature : list byte) : code bool :=
  ensure_writable ;;
  roster ← reads nd_roster;
  key ← of_result (ok_or (peer_verifying_key roster peer_id) "UNKNOWN_VOTER"%string);
  proposal ← lookup_proposal proposal_id;
  require (bool_decide (cp_proposal_id proposal = proposal_id)) "CONSENSUS_PROPOSAL_ID_CONFLICT" ;;
  let e := cp_signed_event proposal in
  validate_signed_event_authorization e ;;
  validate_consensus_schema_event (se_event e) ;;
  event_digest ← of_result (consensus_proposal_digest e);
  require (Nat.eqb (length signature) 64) "MALFORMED_VOTE_SIGNATURE" ;;
  require (verify key (vote_payload proposal_id peer_id approve event_digest (ro_digest roster)) signature)
    "INVALID_VOTE_SIGNATURE" ;;
  (* under the write guard of the proposal *)
  validate_signed_event_authorization e ;;
  require (negb (contains_p6_control_event (se_event e))) "P6_LOCAL_ONLY" ;;
  '(p, r) ← reads (fun s => restore_consensus_vote_locks s
                              (set_votes_of proposal ∅ ∅ (cp_committed proposal)));
  store_proposal proposal_id p ;;
  of_result r ;;
  durable ← proposal_has_durable_commit p;
  mark_committed proposal_id p durable ;;
  if durable : bool then mret true
  else
    lock ← ballot_for roster key proposal_id peer_id approve event_digest signature;
    let p := set_votes_of p (<[peer_id := approve]> (cp_votes p))
               (<[peer_id := vl_signature lock]> (cp_quorum_signatures p)) false in
    store_proposal proposal_id p ;;
    locks ← reads nd_locks;
    approvals ← of_result (verified_consensus_approval_count roster proposal_id event_digest locks);
    if approvals <=? member_count roster / 2 then mret false
    else commit_proposal roster proposal_id p.

(** ** Opening *)

(** The part of [open_internal] that consensus has *)
Definition open_consensus : code unit :=
  locks ← on_votes load_consensus_vote_locks;
  update (set_locks locks) ;;
  '(receipts, records) ← on_commits load_consensus_commit_receipts;
  update (set_receipts receipts records) ;;
  recover_pending_consensus_commits.
End Node.
