(* ===== verification/ConsensusLedgers.v ===== *)
(** * The histories of the consensus ledgers

    Which sequences of ballots and of receipts the code writes, that opening the database
    accepts every one of them and rebuilds the maps the running process had, and the room
    that is kept for the completion of every prepared receipt. *)
From S2P Require Export Consensus.
Local Open Scope Z_scope.

Lemma try_for_Ok_snoc {E A S} (f : S -> A -> result E S) s l a :
  try_for f s (l ++ [a]) = match try_for f s l with Ok s' => f s' a | Err e => Err e end.
Proof. rewrite try_for_app. destruct (try_for f s l); [|done]. cbn. by destruct (f _ a). Qed.

Lemma zlen_perm {A} (l k : list A) : l ≡ₚ k -> zlen l = zlen k.
Proof. intros Hp. unfold zlen. by rewrite Hp. Qed.

Section Ledgers.
Context `{RosterCrates} {L : ConsensusCratesLaws}.
Implicit Types (l : ConsensusVoteLock) (r : ConsensusCommitReceipt).

(** ** Ballots *)

Definition locks_of (vls : list ConsensusVoteLock) : gmap (string * string * string) ConsensusVoteLock :=
  foldl (fun m l => <[key_of l := l]> m) ∅ vls.
Definition vote_fine l : Prop :=
  vote_lock_malformed l = false /\ zlen (lock_to_vec l) <= MAX_CONSENSUS_LEDGER_RECORD_BYTES.
Record votes_valid (vls : list ConsensusVoteLock) : Prop := {
  vv_keys : NoDup (map key_of vls);
  vv_fine : Forall vote_fine vls;
  vv_count : zlen vls <= MAX_CONSENSUS_LEDGER_RECORDS;
  vv_bytes : zlen (encode_lines (map lock_to_vec vls)) <= MAX_CONSENSUS_LEDGER_BYTES;
}.
Lemma locks_of_snoc vls l : locks_of (vls ++ [l]) = <[key_of l := l]> (locks_of vls).
Proof. unfold locks_of. by rewrite foldl_app. Qed.
Lemma locks_of_lookup vls k l : NoDup (map key_of vls) ->
  locks_of vls !! k = Some l <-> l ∈ vls /\ key_of l = k.
Proof.
  induction vls as [|l' vls IH] using rev_ind; intros Hd.
  - unfold locks_of. cbn. rewrite lookup_empty. split; [done|]. intros [Hl _]. by apply elem_of_nil in Hl.
  - rewrite map_app in Hd. apply NoDup_snoc in Hd as [Hd Hn]. rewrite locks_of_snoc, lookup_insert_Some, IH by done.
    rewrite elem_of_app, list_elem_of_singleton. split.
    + intros [[<- <-]|[Hne [Hl Hk]]]; auto.
    + intros [[Hl| ->] Hk]; [|by left]. right. split; [|done]. intros Heq. apply Hn.
      apply list_elem_of_fmap. exists l. by rewrite Heq.
Qed.
Lemma locks_of_None vls k : NoDup (map key_of vls) -> locks_of vls !! k = None -> k ∉ map key_of vls.
Proof.
  intros Hd Hk (l & -> & Hl)%list_elem_of_fmap.
  assert (locks_of vls !! key_of l = Some l) by by apply locks_of_lookup. congruence.
Qed.
Lemma locks_of_size vls : NoDup (map key_of vls) -> size (locks_of vls) = length vls.
Proof.
  induction vls as [|l vls IH] using rev_ind; intros Hd; [done|].
  rewrite map_app in Hd. apply NoDup_snoc in Hd as [Hd Hn].
  rewrite locks_of_snoc, map_size_insert, length_app, IH by done.
  destruct (locks_of vls !! key_of l) as [l'|] eqn:E; [|cbn; lia].
  apply locks_of_lookup in E as [Hl E]; [|done]. exfalso. apply Hn.
  apply list_elem_of_fmap. by exists l'.
Qed.
Lemma encode_lines_mono ps qs : zlen (encode_lines ps) <= zlen (encode_lines (ps ++ qs)).
Proof. rewrite encode_lines_app, zlen_app. pose proof (zlen_nonneg (encode_lines qs)). lia. Qed.
Lemma votes_valid_prefix vls ks : votes_valid (vls ++ ks) -> votes_valid vls.
Proof.
  intros [Hd Hf Hc Hb]. rewrite !map_app in *. rewrite zlen_app in Hc. pose proof (zlen_nonneg ks).
  pose proof (encode_lines_mono (map lock_to_vec vls) (map lock_to_vec ks)).
  apply NoDup_app in Hd as (Hd & _ & _). apply Forall_app in Hf as [Hf _]. split; [done..|lia|lia].
Qed.
(** Opening the database reads the ballots back. *)
Lemma load_votes vls : votes_valid vls ->
  try_for load_vote_line (∅, 0) (map lock_to_vec vls) = Ok (locks_of vls, zlen vls).
Proof.
  induction vls as [|l vls IH] using rev_ind; intros Hv; [done|].
  pose proof (votes_valid_prefix _ _ Hv) as Hv'. destruct Hv as [Hd Hf Hc _].
  rewrite map_app. cbn [map]. rewrite try_for_Ok_snoc, IH by done. unfold load_vote_line.
  apply Forall_app in Hf as [_ Hf]. apply Forall_singleton in Hf as [Hm Hs].
  rewrite zlen_app in Hc. change (zlen [l]) with 1 in Hc.
  assert (line_limit (lock_to_vec l) (zlen vls + 1) = false) as ->.
  { unfold line_limit. apply orb_false_iff. rewrite !Z.ltb_ge. lia. }
  rewrite lock_from_to, Hm.
  destruct (locks_of vls !! key_of l) as [l'|] eqn:E.
  - exfalso. apply locks_of_lookup in E as [Hl E]; [|apply Hv']. rewrite map_app in Hd.
    apply NoDup_snoc in Hd as [_ Hn]. apply Hn. apply list_elem_of_fmap. by exists l'.
  - by rewrite locks_of_snoc, zlen_app.
Qed.

(** ** Receipts *)

Definition receipts_of (crs : list ConsensusCommitReceipt) : gmap string ConsensusCommitReceipt :=
  foldl (fun m r => <[cr_proposal_id r := r]> m) ∅ crs.
(** A receipt is prepared once, then completed once, with one digest. *)
Definition legal_next (m : gmap string ConsensusCommitReceipt) r : Prop :=
  match m !! cr_proposal_id r with
  | None => cr_committed r = false
  | Some previous =>
      cr_proposal_digest previous = cr_proposal_digest r /\
      cr_committed previous = false /\ cr_committed r = true
  end.
Definition legal (crs : list ConsensusCommitReceipt) : Prop :=
  forall pre r post, crs = pre ++ r :: post -> legal_next (receipts_of pre) r.
Definition receipt_fine r : Prop :=
  receipt_malformed r = false /\ zlen (receipt_to_vec r) <= MAX_CONSENSUS_LEDGER_RECORD_BYTES.
(** The bytes of the completions still to come *)
Definition completion_size r : Z := zlen (receipt_to_vec (completed r)) + 1.
Definition needs (m : gmap string ConsensusCommitReceipt) : Z :=
  zsum (map completion_size (receipts_pending m)).
(** There is room for the completion of every prepared receipt. *)
Record receipts_valid (crs : list ConsensusCommitReceipt) : Prop := {
  rv_legal : legal crs;
  rv_fine : Forall receipt_fine crs;
  rv_count : zlen crs + zlen (receipts_pending (receipts_of crs)) <= MAX_CONSENSUS_LEDGER_RECORDS;
  rv_size : Z.of_nat (size (receipts_of crs)) <= MAX_CONSENSUS_LEDGER_RECORDS / 2;
  rv_bytes : zlen (encode_lines (map receipt_to_vec crs)) + needs (receipts_of crs) <=
             MAX_CONSENSUS_LEDGER_BYTES;
}.
Lemma receipts_of_snoc crs r : receipts_of (crs ++ [r]) = <[cr_proposal_id r := r]> (receipts_of crs).
Proof. unfold receipts_of. by rewrite foldl_app. Qed.
Lemma receipts_of_id crs k r : receipts_of crs !! k = Some r -> cr_proposal_id r = k.
Proof.
  induction crs as [|r' crs IH] using rev_ind; [done|].
  rewrite receipts_of_snoc, lookup_insert_Some. intros [[<- <-]|[_ Hr]]; [done|by apply IH].
Qed.
Lemma legal_prefix crs ks : legal (crs ++ ks) -> legal crs.
Proof. intros Hl pre r post ->. eapply (Hl pre r (post ++ ks)). by rewrite <- app_assoc. Qed.
Lemma legal_snoc crs r : legal (crs ++ [r]) <-> legal crs /\ legal_next (receipts_of crs) r.
Proof.
  split.
  - intros Hl. split; [by eapply legal_prefix|]. by eapply (Hl crs r []).
  - intros [Hl Hn] pre r' post Heq. destruct post as [|r'' post _] using rev_ind.
    + apply app_inj_tail in Heq as [-> ->]. done.
    + rewrite app_comm_cons, (assoc app) in Heq. apply app_inj_tail in Heq as [-> _]. by eapply Hl.
Qed.
Lemma receipts_of_fine crs k r : Forall receipt_fine crs -> receipts_of crs !! k = Some r -> receipt_fine r.
Proof.
  induction crs as [|r' crs IH] using rev_ind; [done|].
  intros [Hf Hr']%Forall_app. rewrite receipts_of_snoc, lookup_insert_Some.
  intros [[_ <-]|[_ Hr]]; [by inversion Hr'|by apply IH].
Qed.

(** The pending receipts of a map with one more *)
Lemma pending_insert_new m r : m !! cr_proposal_id r = None ->
  receipts_pending (<[cr_proposal_id r := r]> m) ≡ₚ
  (if cr_committed r then [] else [r]) ++ receipts_pending m.
Proof.
  intros Hm. unfold receipts_pending.
  assert ((map_to_list (<[cr_proposal_id r := r]> m)).*2 ≡ₚ r :: (map_to_list m).*2) as Hp
    by (by rewrite map_to_list_insert by done).
  assert (forall xs ys : list ConsensusCommitReceipt, xs ≡ₚ ys ->
    List.filter (fun r => negb (cr_committed r)) xs ≡ₚ List.filter (fun r => negb (cr_committed r)) ys) as Hfilter.
  { induction 1; cbn; repeat case_match; auto; [constructor|]; by etrans. }
  rewrite (Hfilter _ _ Hp). cbn. by destruct (cr_committed r).
Qed.
Lemma pending_complete m r previous : m !! cr_proposal_id r = Some previous ->
  cr_proposal_id previous = cr_proposal_id r -> cr_committed previous = false -> cr_committed r = true ->
  receipts_pending m ≡ₚ previous :: receipts_pending (<[cr_proposal_id r := r]> m).
Proof.
  intros Hm Hid Hp Hr. set (m' := delete (cr_proposal_id r) m).
  assert (m = <[cr_proposal_id previous := previous]> m') as Heq
    by (unfold m'; rewrite Hid; by rewrite insert_delete_id).
  assert (<[cr_proposal_id r := r]> m = <[cr_proposal_id r := r]> m') as ->
    by (unfold m'; by rewrite insert_delete_eq).
  assert (m' !! cr_proposal_id r = None) as Hn by apply lookup_delete_eq.
  rewrite Heq, !pending_insert_new by (by rewrite ?Hid). by rewrite Hp, Hr.
Qed.

(** The room: prepared, a receipt takes its line and reserves its completion, which the
    completion then uses. *)
Lemma completion_size_pos r : 0 <= completion_size r.
Proof. unfold completion_size. pose proof (zlen_nonneg (receipt_to_vec (completed r))). lia. Qed.
Lemma needs_nonneg m : 0 <= needs m.
Proof. apply zsum_nonneg, Forall_map, Forall_true. intros r. apply completion_size_pos. Qed.
Lemma needs_new m r : m !! cr_proposal_id r = None -> cr_committed r = false ->
  needs (<[cr_proposal_id r := r]> m) = completion_size r + needs m.
Proof.
  intros Hm Hr. unfold needs. rewrite (zsum_perm _ (map completion_size (r :: receipts_pending m))); [done|].
  apply Permutation_map. rewrite pending_insert_new by done. by rewrite Hr.
Qed.
Lemma needs_complete m r previous : m !! cr_proposal_id r = Some previous ->
  cr_proposal_id previous = cr_proposal_id r -> cr_proposal_digest previous = cr_proposal_digest r ->
  cr_committed previous = false -> cr_committed r = true ->
  needs m = (zlen (receipt_to_vec r) + 1) + needs (<[cr_proposal_id r := r]> m).
Proof.
  intros Hm Hid Hd Hp Hr. unfold needs.
  rewrite (zsum_perm _ (map completion_size (previous :: receipts_pending (<[cr_proposal_id r := r]> m))))
    by (apply Permutation_map; by apply pending_complete).
  cbn [map zsum foldr]. change (foldr Z.add 0) with zsum. unfold completion_size at 1, completed.
  rewrite Hid, Hd. by destruct r as [id d c]; cbn in *; subst c.
Qed.
Lemma reserved_bytes_sum rs : zsum (map completion_size rs) <= u64_max ->
  reserved_bytes rs = zsum (map completion_size rs).
Proof.
  unfold reserved_bytes. intros Hs.
  enough (forall total, 0 <= total -> total + zsum (map completion_size rs) <= u64_max ->
    foldl (fun total r => u64_saturating_add total (zlen (receipt_to_vec (completed r)) + 1)) total rs =
    total + zsum (map completion_size rs)) as Hf by (rewrite Hf; lia).
  clear Hs. induction rs as [|r rs IH]; intros total Ht Hs; [unfold zsum; cbn; lia|].
  cbn [map zsum foldr foldl] in *. change (foldr Z.add 0) with zsum in *.
  pose proof (completion_size_pos r) as Hr.
  assert (0 <= zsum (map completion_size rs)) as Hp
    by (apply zsum_nonneg, Forall_map, Forall_true; intros; apply completion_size_pos).
  fold (completion_size r). unfold u64_saturating_add. rewrite Z.min_l by lia. rewrite IH by lia. lia.
Qed.
Lemma reserved_bytes_capped rs : Z.min (zsum (map completion_size rs)) u64_max <= reserved_bytes rs.
Proof.
  unfold reserved_bytes.
  enough (forall total, 0 <= total -> Z.min (total + zsum (map completion_size rs)) u64_max <=
    foldl (fun total r => u64_saturating_add total (zlen (receipt_to_vec (completed r)) + 1)) total rs) as Hf
    by (apply (Hf 0); lia).
  induction rs as [|r rs IH]; intros total Ht; [unfold zsum; cbn; lia|].
  cbn [map zsum foldr foldl]. change (foldr Z.add 0) with zsum. pose proof (completion_size_pos r) as Hr.
  fold (completion_size r). unfold u64_saturating_add at 2.
  assert (0 <= zsum (map completion_size rs)) as Hp
    by (apply zsum_nonneg, Forall_map, Forall_true; intros; apply completion_size_pos).
  etrans; [|apply IH; unfold u64_max; lia]. lia.
Qed.

Lemma receipts_valid_prefix_legal crs ks : receipts_valid (crs ++ ks) -> legal crs /\ Forall receipt_fine crs.
Proof.
  intros [Hl Hf _ _ _]. split; [by eapply legal_prefix|]. by apply Forall_app in Hf as [Hf _].
Qed.
(** Opening the database reads the receipts back. *)
Lemma load_receipts crs : legal crs -> Forall receipt_fine crs -> zlen crs <= MAX_CONSENSUS_LEDGER_RECORDS ->
  try_for load_receipt_line (∅, 0) (map receipt_to_vec crs) = Ok (receipts_of crs, zlen crs).
Proof.
  induction crs as [|r crs IH] using rev_ind; intros Hl Hf Hc; [done|].
  apply legal_snoc in Hl as [Hl Hn]. apply Forall_app in Hf as [Hf Hr].
  assert (receipt_fine r) as [Hm Hs] by by inversion Hr.
  rewrite zlen_app in Hc. change (zlen [r]) with 1 in Hc.
  rewrite map_app. cbn [map]. rewrite try_for_Ok_snoc, IH by (done || lia). unfold load_receipt_line.
  assert (line_limit (receipt_to_vec r) (zlen crs + 1) = false) as ->.
  { unfold line_limit. apply orb_false_iff. rewrite !Z.ltb_ge. lia. }
  rewrite receipt_from_to, Hm. rewrite receipts_of_snoc, zlen_app. unfold legal_next in Hn.
  destruct (receipts_of crs !! cr_proposal_id r) as [previous|] eqn:E; [|done].
  destruct Hn as (Hd & Hp & Hc'). by rewrite bool_decide_eq_true_2, Hp, Hc' by done.
Qed.
(** Preparing and completing keep a history valid. *)
Lemma prepare_valid crs r : receipts_valid crs -> receipt_fine r -> cr_committed r = false ->
  receipts_of crs !! cr_proposal_id r = None ->
  Z.of_nat (size (receipts_of crs)) < MAX_CONSENSUS_LEDGER_RECORDS / 2 ->
  zlen crs + zlen (receipts_pending (receipts_of crs)) + 2 <= MAX_CONSENSUS_LEDGER_RECORDS ->
  zlen (encode_lines (map receipt_to_vec crs)) + needs (receipts_of crs) +
    (zlen (receipt_to_vec r) + 1) + completion_size r <= MAX_CONSENSUS_LEDGER_BYTES ->
  receipts_valid (crs ++ [r]).
Proof.
  intros [Hl Hf Hc Hz Hb] Hr Hp Hn Hsize Hcount Hbytes. split.
  - apply legal_snoc. split; [done|]. unfold legal_next. by rewrite Hn.
  - apply Forall_app. split; [done|]. by constructor.
  - rewrite receipts_of_snoc, zlen_app, (zlen_perm _ _ (pending_insert_new _ _ Hn)), Hp, zlen_app.
    change (zlen [r]) with 1. lia.
  - rewrite receipts_of_snoc, map_size_insert, Hn. lia.
  - rewrite receipts_of_snoc, needs_new by done. rewrite map_app. cbn [map].
    rewrite encode_lines_snoc, !zlen_app. change (zlen [newline]) with 1. lia.
Qed.
Lemma complete_valid crs r previous : receipts_valid crs -> receipt_fine r ->
  receipts_of crs !! cr_proposal_id r = Some previous ->
  cr_proposal_digest previous = cr_proposal_digest r -> cr_committed previous = false ->
  cr_committed r = true -> receipts_valid (crs ++ [r]).
Proof.
  intros [Hl Hf Hc Hz Hb] Hr Hn Hd Hp Hcr. pose proof (receipts_of_id _ _ _ Hn) as Hid. split.
  - apply legal_snoc. split; [done|]. unfold legal_next. by rewrite Hn.
  - apply Forall_app. split; [done|]. by constructor.
  - rewrite receipts_of_snoc, zlen_app. change (zlen [r]) with 1.
    rewrite (zlen_perm _ _ (pending_complete _ _ _ Hn Hid Hp Hcr)), zlen_cons in Hc. lia.
  - rewrite receipts_of_snoc, map_size_insert, Hn. cbn. lia.
  - rewrite receipts_of_snoc. rewrite (needs_complete _ _ _ Hn Hid Hd Hp Hcr) in Hb.
    rewrite map_app. cbn [map]. rewrite encode_lines_snoc, !zlen_app. change (zlen [newline]) with 1. lia.
Qed.
(** What is prepared fits, and so does its completion. *)
Lemma complete_fits crs r previous : receipts_valid crs ->
  receipts_of crs !! cr_proposal_id r = Some previous ->
  cr_proposal_digest previous = cr_proposal_digest r -> cr_committed previous = false ->
  cr_committed r = true ->
  zlen crs < MAX_CONSENSUS_LEDGER_RECORDS /\ fits (map receipt_to_vec crs) (receipt_to_vec r).
Proof.
  intros [Hl Hf Hc Hz Hb] Hn Hd Hp Hcr. pose proof (receipts_of_id _ _ _ Hn) as Hid. split.
  - rewrite (zlen_perm _ _ (pending_complete _ _ _ Hn Hid Hp Hcr)), zlen_cons in Hc.
    pose proof (zlen_nonneg (receipts_pending (<[cr_proposal_id r := r]> (receipts_of crs)))). lia.
  - split.
    + apply receipts_of_fine in Hn as [_ Hs]; [|done]. etrans; [|exact Hs].
      destruct r as [id d c], previous as [id' d' c']; cbn in *. subst. apply receipt_completed_le.
    + rewrite (needs_complete _ _ _ Hn Hid Hd Hp Hcr) in Hb.
      pose proof (needs_nonneg (<[cr_proposal_id r := r]> (receipts_of crs))). lia.
Qed.
Lemma receipt_fine_completed r : receipt_fine r -> cr_committed r = false -> receipt_fine (completed r).
Proof.
  intros [Hm Hs] Hc. split; [exact Hm|]. etrans; [|exact Hs].
  destruct r as [id d c]; cbn in *; subst c. apply receipt_completed_le.
Qed.
End Ledgers.
