(* ===== verification/ConsensusSafety.v ===== *)
(** * Safety of consensus on one node

    An invariant of a node and of what a crash leaves of it, which every operation keeps
    whatever the system answers and wherever the machine stops: the ledgers hold valid
    histories, memory is what they say, acknowledged ballots are in them, and the event
    of a proposal is in the journal at most once, with a quorum behind it. *)
From S2P Require Export ConsensusLedgers.
Local Open Scope Z_scope.

Section Safety.
Context `{RosterCrates} {L : ConsensusCratesLaws}.
Variable local_peer_id : string.
Variable signing_key : SigningKey.
Variable storage_schema_version : Z.
Hypothesis Hlocal : local_peer_id <> ""%string.
Implicit Types (l : ConsensusVoteLock) (r : ConsensusCommitReceipt) (s : node) (tag : commit_tag).
Notation peer_key := (peer_verifying_key local_peer_id signing_key).

(** ** The invariant *)

(** A ballot of the tag's proposal that is an approval with a valid signature *)
Definition approves tag (d : list byte) l : Prop :=
  vl_proposal_id l = ct_proposal tag /\ vl_roster_digest l = ro_digest (ct_roster tag) /\
  vl_proposal_digest l = ct_digest tag /\ vl_approve l = true /\
  exists key, peer_key (ct_roster tag) (vl_peer_id l) = Some key /\
    verify key (vote_payload (ct_proposal tag) (vl_peer_id l) true d (ro_digest (ct_roster tag)))
      (vl_signature l) = true.
(** Valid approvals of a strict majority of the roster *)
Definition quorum (vls : list ConsensusVoteLock) tag : Prop :=
  exists ls d, hex_encode d = ct_digest tag /\ NoDup (map vl_peer_id ls) /\
    Forall (fun l => l ∈ vls /\ approves tag d l) ls /\ member_count (ct_roster tag) / 2 < zlen ls.
(** The ballots written are ballots the node saw. *)
Definition votes_ok (seen vls : list ConsensusVoteLock) : Prop :=
  votes_valid vls /\ Forall (fun l => l ∈ seen) vls.
Notation votes_disk s vls := (disk_holds lock_to_vec (votes_ok (nd_seen s)) vls (lg_file (nd_votes s))).
Notation votes_running s vls := (running lock_to_vec (votes_ok (nd_seen s)) vls (nd_votes s)).
Notation receipts_disk s crs := (disk_holds receipt_to_vec receipts_valid crs (lg_file (nd_commits s))).
Notation receipts_running s crs := (running receipt_to_vec receipts_valid crs (nd_commits s)).

(** The proposal of a tag has a receipt with its digest. *)
Definition receipt_for (crs : list ConsensusCommitReceipt) tag r : Prop :=
  receipts_of crs !! ct_proposal tag = Some r /\ cr_proposal_digest r = ct_digest tag.
(** What holds of the state and of the histories in the ledgers, even after a crash *)
Record core (vls : list ConsensusVoteLock) (crs : list ConsensusCommitReceipt) s : Prop := {
  co_votes : votes_ok (nd_seen s) vls;
  co_receipts : receipts_valid crs;
  co_acked : Forall (fun l => l ∈ vls) (nd_acked s);
  co_once : NoDup (map ct_proposal (nd_done s));
  co_done : Forall (fun tag => exists r, receipt_for crs tag r /\
    (cr_committed r = true \/ frame_found (nd_journal s) (ct_digest tag) = true)) (nd_done s);
  co_sent : forall e tag, nd_sent s = Some (e, tag) ->
    stored_digest e = Some (ct_digest tag) /\ ct_proposal tag ∉ map ct_proposal (nd_done s) /\
    exists r, receipt_for crs tag r;
  co_quorum : forall tag, tag ∈ nd_done s \/ (exists e, nd_sent s = Some (e, tag)) -> quorum vls tag;
}.
Definition roster_ok (ro : roster) : Prop :=
  is_Some (hex_decode (ro_digest ro)) /\ ro_members ro !! ""%string = None /\
  ro_members ro !! local_peer_id = None.
Definition proposals_ok (m : gmap string ConsensusProposal) : Prop :=
  forall k p, m !! k = Some p -> k <> ""%string /\ zlen (str_bytes k) <= 512.
(** A node that runs *)
Record up vls crs s : Prop := {
  up_core : core vls crs s;
  up_votes : votes_running s vls;
  up_commits : receipts_running s crs;
  up_locks : nd_locks s = locks_of vls;
  up_receipts : nd_receipts s = receipts_of crs;
  up_records : nd_records s = zlen crs;
  up_sent : nd_sent s = None \/ nd_recovery_required s = true;
  up_roster : roster_ok (nd_roster s);
  up_proposals : proposals_ok (nd_proposals s);
}.
Definition up_ok s : Prop := exists vls crs, up vls crs s.
(** What a crash leaves *)
Definition down vls crs s : Prop := core vls crs s /\ votes_disk s vls /\ receipts_disk s crs.
Definition down_ok s : Prop := exists vls crs, down vls crs s.
Definition stops (e : stop) s : Prop := match e with Crash => down_ok s | Raised _ => up_ok s end.

Lemma up_down vls crs s : up vls crs s -> down vls crs s.
Proof. intros U. split_and!; [apply U|eapply running_disk, U|eapply running_disk, U]. Qed.
Lemma up_stops e vls crs s : up vls crs s -> stops e s.
Proof. intros U. destruct e; cbn; exists vls, crs; [by apply up_down|done]. Qed.

Definition up_with vls crs (D : list commit_tag) s : Prop := up vls crs s /\ nd_done s = D.
Lemma up_with_stops e vls crs D s : up_with vls crs D s -> stops e s.
Proof. intros [U _]. by eapply up_stops. Qed.

(** ** Steps that leave the ledgers alone *)

(** Two states that differ in what the invariant does not look at *)
Lemma up_ext vls crs s s' : up vls crs s ->
  nd_votes s' = nd_votes s -> nd_commits s' = nd_commits s -> nd_locks s' = nd_locks s ->
  nd_receipts s' = nd_receipts s -> nd_records s' = nd_records s -> nd_roster s' = nd_roster s ->
  nd_journal s' = nd_journal s -> nd_sent s' = nd_sent s -> nd_seen s' = nd_seen s ->
  nd_acked s' = nd_acked s -> nd_done s' = nd_done s ->
  (nd_recovery_required s = true -> nd_recovery_required s' = true) ->
  proposals_ok (nd_proposals s') -> up vls crs s'.
Proof.
  intros [[C1 C2 C3 C4 C5 C6 C7] U2 U3 U4 U5 U6 U7 U8 U9] E1 E2 E3 E4 E5 E6 E7 E8 E9 E10 E11 Er Ep.
  split; rewrite ?E1, ?E2, ?E3, ?E4, ?E5, ?E6, ?E8, ?E9; try done.
  - split; rewrite ?E7, ?E8, ?E9, ?E10, ?E11; done.
  - destruct U7; auto.
Qed.
Ltac ext := eapply up_ext; [eassumption|reflexivity..| |]; cbn; try done.

Section Frame.
Context (vls : list ConsensusVoteLock) (crs : list ConsensusCommitReceipt) (F : node -> Prop).
(** [F]: facts of the fields these steps keep *)
Definition kept s : Prop := up vls crs s /\ F s.
Hypothesis HF : forall s reps, F s -> F (set_replies reps s).

Lemma kept_stops e s : kept s -> stops e s.
Proof. intros [U _]. by eapply up_stops. Qed.
Lemma answer_triple : etriple kept answer (fun _ => kept) stops.
Proof.
  intros s [U Hs]. unfold answer. destruct (nd_replies s) as [|rep reps] eqn:E; [by eapply (up_stops Crash)|].
  split; [|by apply HF]. ext. apply U.
Qed.
Lemma require_triple b e : etriple kept (require b e) (fun _ s => b = true /\ kept s) stops.
Proof. apply etriple_require; [done|]. intros s Hs _. by apply kept_stops. Qed.
Lemma of_result_triple {A} (x : result string A) : etriple kept (of_result x) (fun a s => x = Ok a /\ kept s) stops.
Proof. apply etriple_of_result; [done|]. intros s e Hs _. by apply kept_stops. Qed.
Lemma gate_triple e : etriple kept (gate e) (fun _ => kept) stops.
Proof.
  unfold gate. eapply etriple_bind; [apply answer_triple|]. intros ok.
  eapply etriple_conseq; [apply require_triple|done| |done]. by intros ? s [_ Hs].
Qed.
Lemma ensure_writable_triple :
  etriple kept ensure_writable (fun _ s => kept s /\ nd_recovery_required s = false) stops.
Proof.
  unfold ensure_writable, ensure_readable. eapply etriple_bind.
  { apply (etriple_reads _ _ (fun b s => b = nd_recovery_required s /\ kept s)). done. }
  intros b. apply etriple_require.
  - intros s [-> Hs] Hb. split; [done|]. by destruct (nd_recovery_required s).
  - intros s [_ Hs] _. by apply kept_stops.
Qed.
Lemma authorization_triple e : etriple kept (validate_signed_event_authorization e) (fun _ => kept) stops.
Proof. apply gate_triple. Qed.
Lemma schema_triple ev : etriple kept (validate_consensus_schema_event storage_schema_version ev) (fun _ => kept) stops.
Proof.
  assert (forall e, etriple kept (raise e) (fun _ : unit => kept) stops) as Hr
    by (intros e; apply etriple_raise; intros s Hs; by apply kept_stops).
  assert (etriple kept (mret tt : EM node unit) (fun _ => kept) stops) as Hm by by apply etriple_ret.
  unfold validate_consensus_schema_event. destruct (negb _); [done|].
  destruct ev; auto using gate_triple. destruct (is_revision_checkpoint _); auto using gate_triple.
Qed.
End Frame.

(** ** Ballots *)

Lemma votes_ok_see seen k vls : votes_ok seen vls -> votes_ok (seen ++ k) vls.
Proof.
  intros [Hv Hs]. split; [done|]. eapply Forall_impl; [exact Hs|]. intros l Hl. apply elem_of_app. by left.
Qed.
Lemma disk_holds_mono {R} (to_vec : R -> list byte) (P Q : list R -> Prop) rs f :
  (forall rs, P rs -> Q rs) -> disk_holds to_vec P rs f -> disk_holds to_vec Q rs f.
Proof. intros HPQ [Hs|(r & Hr & Hs)]; [by left|right]. exists r. auto. Qed.
Lemma running_mono {R} (to_vec : R -> list byte) (P Q : list R -> Prop) rs g :
  (forall rs, P rs -> Q rs) -> running to_vec P rs g -> running to_vec Q rs g.
Proof. intros HPQ [Hs|[Hp Hs]]; [by left|right]. split; [done|]. by eapply disk_holds_mono. Qed.
Lemma up_see vls crs s l : up vls crs s -> up vls crs (see l s) /\ l ∈ nd_seen (see l s).
Proof.
  intros [[C1 C2 C3 C4 C5 C6 C7] U2 U3 U4 U5 U6 U7 U8 U9]. split.
  - split; try done; [split; try done; by apply votes_ok_see|].
    cbn. eapply running_mono; [|exact U2]. intros. by apply votes_ok_see.
  - cbn. apply elem_of_app. right. by left.
Qed.
Lemma quorum_mono vls k tag : quorum vls tag -> quorum (vls ++ k) tag.
Proof.
  intros (ls & d & Hd & Hn & Hall & Hc). exists ls, d. split_and!; try done.
  eapply Forall_impl; [exact Hall|]. intros l [Hl Ha]. split; [apply elem_of_app; by left|done].
Qed.
(** The histories with a ballot more *)
Lemma core_ballot vls crs s l : core vls crs s -> votes_ok (nd_seen s) (vls ++ [l]) ->
  core (vls ++ [l]) crs (acknowledge l s).
Proof.
  intros [C1 C2 C3 C4 C5 C6 C7] Hv. split; cbn; try done.
  - apply Forall_app. split.
    + eapply Forall_impl; [exact C3|]. intros k Hk. apply elem_of_app. by left.
    + constructor; [|constructor]. apply elem_of_app. right. by left.
  - intros tag Ht. by apply quorum_mono, C7.
Qed.
Lemma votes_ok_snoc seen vls l : votes_ok seen vls -> vote_lock_malformed l = false -> l ∈ seen ->
  key_of l ∉ map key_of vls -> zlen vls < MAX_CONSENSUS_LEDGER_RECORDS ->
  fits (map lock_to_vec vls) (lock_to_vec l) -> votes_ok seen (vls ++ [l]).
Proof.
  intros [[V1 V2 V3 V4] Hs] Hm Hl Hk Hc [Hf1 Hf2]. split.
  - split.
    + rewrite map_app. by apply NoDup_snoc.
    + apply Forall_app. split; [done|]. by repeat constructor.
    + rewrite zlen_app. change (zlen [l]) with 1. lia.
    + rewrite map_app. cbn [map]. rewrite encode_lines_snoc, !zlen_app. change (zlen [newline]) with 1. lia.
  - apply Forall_app. split; [done|]. by constructor.
Qed.
Lemma record_ballot_triple vls crs D l : vote_lock_malformed l = false -> key_of l ∉ map key_of vls ->
  etriple (up_with vls crs D) (record_ballot l) (fun _ => up_with (vls ++ [l]) crs D) stops.
Proof.
  intros Hm Hk. set (P := fun s => up vls crs s /\ l ∈ nd_seen s /\ nd_done s = D).
  assert (forall e s, P s -> stops e s) as HP by (intros e s [U _]; by eapply up_stops).
  unfold record_ballot, persist_consensus_vote_lock.
  eapply (etriple_bind _ _ _ (fun _ s => core vls crs s /\ receipts_running s crs /\ nd_locks s = locks_of vls /\
    nd_receipts s = receipts_of crs /\ nd_records s = zlen crs /\
    (nd_sent s = None \/ nd_recovery_required s = true) /\ roster_ok (nd_roster s) /\ proposals_ok (nd_proposals s) /\
    nd_done s = D /\ votes_ok (nd_seen s) (vls ++ [l]) /\ good (map lock_to_vec (vls ++ [l])) (nd_votes s))).
  - eapply etriple_bind; [apply (etriple_update _ _ (fun _ => P)); intros s [U HD]; destruct (up_see _ _ _ l U); by split_and!|]. intros ?.
    eapply etriple_bind.
    { apply (etriple_reads _ _ (fun b s => b = lg_poisoned (nd_votes s) /\ P s)). done. }
    intros b. eapply etriple_bind.
    { apply (etriple_require _ _ _ (fun _ s => lg_poisoned (nd_votes s) = false /\ P s)).
      - intros s [-> Hs] Hb. split; [|done]. by destruct (lg_poisoned _).
      - intros s [_ Hs] _. by apply HP. }
    intros ?. eapply etriple_bind.
    { apply (etriple_reads _ _ (fun m s => m = locks_of vls /\ lg_poisoned (nd_votes s) = false /\ P s)).
      intros s (Hp & U & Hs). split; [apply U|done]. }
    intros m. eapply etriple_bind.
    { apply (etriple_require _ _ _ (fun _ s => zlen vls < MAX_CONSENSUS_LEDGER_RECORDS /\
                                              lg_poisoned (nd_votes s) = false /\ P s)).
      - intros s (-> & Hp & Hs) Hb%Z.ltb_lt. split; [|done].
        rewrite locks_of_size in Hb by apply Hs. exact Hb.
      - intros s (_ & _ & Hs) _. by apply HP. }
    intros ?. apply etriple_pure. intros Hc. unfold on_votes. apply etriple_zoom.
    intros s (Hp & U & Hseen & HD). pose proof U as [C U2 U3 U4 U5 U6 U7 U8 U9].
    eapply etriple_conseq;
      [apply (append_record_triple lock_to_vec (votes_ok (nd_seen s)) "CONSENSUS_VOTE" vls l)| | |].
    + intros Hf. eapply votes_ok_snoc; try done. apply C.
    + intros t ->. destruct U2 as [Hg|[Hp' _]]; [done|congruence].
    + cbn. intros ? t Ht. split_and!; try done.
      * destruct C as [C1 C2 C3 C4 C5 C6 C7]. by split.
      * apply Ht.
      * apply Ht.
    + intros [|e] t Ht; cbn in *.
      * exists vls, crs. split_and!; [|exact Ht|by eapply running_disk].
        destruct C as [C1 C2 C3 C4 C5 C6 C7]. by split.
      * exists vls, crs. split; try done. destruct C as [C1 C2 C3 C4 C5 C6 C7]. by split.
  - intros ?. apply etriple_update. intros s (C & Hr & Hl & Hrs & Hn & Hsent & Hro & Hpr & HD & Hv & Hg). split; [|done].
    pose proof (core_ballot _ _ _ _ C Hv) as C'. split; cbn; try done; [| |].
    + destruct C' as [C1 C2 C3 C4 C5 C6 C7]. by split.
    + by left.
    + by rewrite Hl, locks_of_snoc.
Qed.
(** ** Receipts *)

Lemma receipt_for_next crs tag r r' : legal_next (receipts_of crs) r -> receipt_for crs tag r' ->
  exists r'', receipt_for (crs ++ [r]) tag r'' /\ (cr_committed r' = true -> cr_committed r'' = true).
Proof.
  intros Hn [Hr Hd]. unfold receipt_for. rewrite receipts_of_snoc.
  destruct (decide (cr_proposal_id r = ct_proposal tag)) as [He|He].
  - exists r. rewrite He, lookup_insert_eq. unfold legal_next in Hn. rewrite He, Hr in Hn.
    destruct Hn as (E1 & E2 & E3). split; [split; [done|congruence]|done].
  - exists r'. by rewrite lookup_insert_ne.
Qed.
Lemma core_receipt vls crs s s' r : core vls crs s -> receipts_valid (crs ++ [r]) ->
  nd_seen s' = nd_seen s -> nd_acked s' = nd_acked s -> nd_done s' = nd_done s ->
  nd_sent s' = nd_sent s -> nd_journal s' = nd_journal s -> core vls (crs ++ [r]) s'.
Proof.
  intros [C1 C2 C3 C4 C5 C6 C7] Hv E1 E2 E3 E4 E5.
  pose proof (proj2 (proj1 (legal_snoc _ _) (rv_legal _ Hv))) as Hn.
  split; rewrite ?E1, ?E2, ?E3, ?E4, ?E5; try done.
  - eapply Forall_impl; [exact C5|]. intros tag (r0 & Hr & Hc).
    destruct (receipt_for_next _ _ _ _ Hn Hr) as (r1 & Hr1 & Hc1). exists r1. split; [done|]. destruct Hc; auto.
  - intros e tag He. destruct (C6 e tag He) as (E & E' & r0 & Hr). split_and!; try done.
    destruct (receipt_for_next _ _ _ _ Hn Hr) as (r1 & Hr1 & _). by exists r1.
Qed.
Lemma core_same vls crs s s' : core vls crs s ->
  nd_seen s' = nd_seen s -> nd_acked s' = nd_acked s -> nd_done s' = nd_done s ->
  nd_sent s' = nd_sent s -> nd_journal s' = nd_journal s -> core vls crs s'.
Proof. intros [C1 C2 C3 C4 C5 C6 C7] E1 E2 E3 E4 E5. split; rewrite ?E1, ?E2, ?E3, ?E4, ?E5; done. Qed.

(** Some history of receipts, the rest being as it was *)
Definition up_some vls D s : Prop := exists crs, up_with vls crs D s.
Lemma up_some_stops e vls D s : up_some vls D s -> stops e s.
Proof. intros [crs Hs]. by eapply up_with_stops. Qed.

Lemma record_receipt_triple vls crs D r :
  (zlen crs < MAX_CONSENSUS_LEDGER_RECORDS -> fits (map receipt_to_vec crs) (receipt_to_vec r) ->
   receipts_valid (crs ++ [r])) ->
  etriple (up_with vls crs D) (record_receipt r) (fun _ => up_with vls (crs ++ [r]) D) stops.
Proof.
  intros Hv. unfold record_receipt, append_consensus_commit_record.
  assert (forall e s, up_with vls crs D s -> stops e s) as HP by (intros; by eapply up_with_stops).
  eapply (etriple_bind _ _ _ (fun _ s => core vls (crs ++ [r]) s /\ votes_running s vls /\ nd_locks s = locks_of vls /\
    nd_receipts s = receipts_of crs /\ nd_records s = zlen crs + 1 /\
    (nd_sent s = None \/ nd_recovery_required s = true) /\ roster_ok (nd_roster s) /\ proposals_ok (nd_proposals s) /\
    nd_done s = D /\ good (map receipt_to_vec (crs ++ [r])) (nd_commits s))).
  - eapply etriple_bind.
    { apply (etriple_reads _ _ (fun b s => b = lg_poisoned (nd_commits s) /\ up_with vls crs D s)). done. }
    intros b. eapply etriple_bind.
    { apply (etriple_require _ _ _ (fun _ s => lg_poisoned (nd_commits s) = false /\ up_with vls crs D s)).
      - intros s [-> Hs] Hb. split; [|done]. by destruct (lg_poisoned _).
      - intros s [_ Hs] _. by apply HP. }
    intros ?. eapply etriple_bind.
    { apply (etriple_reads _ _ (fun n s => n = zlen crs /\ lg_poisoned (nd_commits s) = false /\ up_with vls crs D s)).
      intros s (Hp & U & Hs). split; [apply U|done]. }
    intros n. eapply etriple_bind.
    { apply (etriple_require _ _ _ (fun _ s => zlen crs < MAX_CONSENSUS_LEDGER_RECORDS /\
                                              lg_poisoned (nd_commits s) = false /\ up_with vls crs D s)).
      - intros s (-> & Hp & Hs) Hb%Z.ltb_lt. done.
      - intros s (_ & _ & Hs) _. by apply HP. }
    intros ?. apply etriple_pure. intros Hc. unfold on_commits.
    eapply (etriple_bind _ _ _ (fun _ s => core vls (crs ++ [r]) s /\ votes_running s vls /\ nd_locks s = locks_of vls /\
      nd_receipts s = receipts_of crs /\ nd_records s = zlen crs /\
      (nd_sent s = None \/ nd_recovery_required s = true) /\ roster_ok (nd_roster s) /\ proposals_ok (nd_proposals s) /\
      nd_done s = D /\ good (map receipt_to_vec (crs ++ [r])) (nd_commits s))).
    + apply etriple_zoom. intros s (Hp & U & HD). pose proof U as [C U2 U3 U4 U5 U6 U7 U8 U9].
      eapply etriple_conseq;
        [apply (append_record_triple receipt_to_vec receipts_valid "CONSENSUS_COMMIT" crs r); auto| | |].
      * intros t ->. destruct U3 as [Hg|[Hp' _]]; [done|congruence].
      * cbn. intros ? t [Hg Hvr]. split_and!; try done. by eapply core_receipt.
      * intros [|e] t Ht; cbn in *; exists vls, crs.
        -- split_and!; [by eapply core_same|by eapply running_disk|exact Ht].
        -- split; try done. by eapply core_same.
    + intros ?. apply etriple_update.
      intros s (C & Hr & Hl & Hrs & Hn & Hsent & Hro & Hpr & HD & Hg).
      split_and!; cbn; try done; [by eapply core_same|by rewrite Hn].
  - intros ?. apply etriple_update. intros s (C & Hr & Hl & Hrs & Hn & Hsent & Hro & Hpr & HD & Hg). split; [|done].
    split; cbn; try done.
    + by eapply core_same.
    + by left.
    + by rewrite Hrs, receipts_of_snoc.
    + rewrite zlen_app. done.
Qed.

Lemma complete_triple vls crs D r : cr_committed r = true ->
  etriple (up_with vls crs D) (complete_consensus_commit r) (fun _ => up_some vls D) stops.
Proof.
  intros Hc. unfold complete_consensus_commit. eapply etriple_bind.
  { apply (etriple_reads _ _ (fun m s => m = receipts_of crs /\ up_with vls crs D s)).
    intros s [U HD]. split; [apply U|done]. }
  intros m. apply etriple_pure. intros ->.
  assert (forall e, etriple (up_with vls crs D) (raise e) (fun _ : unit => up_some vls D) stops) as Hraise
    by (intros e; apply etriple_raise; intros s Hs; by eapply up_with_stops).
  destruct (receipts_of crs !! cr_proposal_id r) as [previous|] eqn:E; [|apply Hraise].
  destruct (bool_decide _) eqn:Hd; [apply bool_decide_eq_true in Hd; cbn [negb]|apply Hraise].
  destruct (cr_committed previous) eqn:Hp; [apply etriple_ret; intros s Hs; by exists crs|].
  eapply (etriple_conseq _ (fun s => receipts_valid crs /\ up_with vls crs D s)).
  - apply etriple_pure. intros Hv. apply record_receipt_triple. intros _ Hf.
    apply (complete_valid crs r previous); try done. pose proof (receipts_of_id _ _ _ E) as Hid.
    pose proof (receipts_of_fine _ _ _ (rv_fine _ Hv) E) as Hfine.
    assert (r = completed previous) as -> by (destruct r, previous; cbn in *; unfold completed; cbn; congruence).
    by apply receipt_fine_completed.
  - intros s Hs. split; [apply Hs|done].
  - intros ? s Hs. by exists (crs ++ [r]).
  - done.
Qed.
Lemma reads_receipts vls D (G : gmap string ConsensusCommitReceipt -> node -> Prop) {A}
  (f : gmap string ConsensusCommitReceipt -> EM node A) Q :
  (forall crs, etriple (up_with vls crs D) (f (receipts_of crs)) Q stops) ->
  etriple (up_some vls D) (m ← reads nd_receipts; f m) Q stops.
Proof.
  intros Hf s [crs Hs]. rewrite em_bind_eq. cbn. rewrite (up_receipts _ _ _ (proj1 Hs)). by apply Hf.
Qed.
(** A proposal without a durable commit is not among those whose event the journal took. *)
Lemma durable_triple vls D p :
  etriple (up_some vls D) (proposal_has_durable_commit p)
    (fun b s => up_some vls D s /\ (b = false -> cp_proposal_id p ∉ map ct_proposal D)) stops.
Proof.
  unfold proposal_has_durable_commit. eapply etriple_bind.
  { apply (etriple_of_result _ _ (fun _ => up_some vls D)); [done|]. intros s e Hs _. by eapply up_some_stops. }
  intros d. apply (reads_receipts _ _ (fun _ _ => True)). intros crs.
  set (digest := hex_encode d).
  assert (forall e, etriple (up_with vls crs D) (raise e) (fun (b : bool) s => up_some vls D s /\
    (b = false -> cp_proposal_id p ∉ map ct_proposal D)) stops) as Hraise
    by (intros e; apply etriple_raise; intros s Hs; by eapply up_with_stops).
  destruct (receipts_of crs !! cp_proposal_id p) as [receipt|] eqn:E.
  - destruct (bool_decide (cr_proposal_digest receipt = digest)) eqn:Hd; [|apply Hraise].
    apply bool_decide_eq_true in Hd. cbn [negb]. destruct (cr_committed receipt) eqn:Hc.
    { apply etriple_ret. intros s Hs. split; [by exists crs|done]. }
    eapply etriple_bind.
    { apply (etriple_reads _ _ (fun b s => b = frame_found (nd_journal s) digest /\ up_with vls crs D s)). done. }
    intros []; cbn.
    + eapply etriple_bind; [eapply etriple_pre; [by apply (complete_triple vls crs D)|by intros s [_ Hs]]|].
      intros ?. apply etriple_ret. by split.
    + eapply etriple_bind; [by apply (etriple_ret _ _ (fun _ s => false = frame_found (nd_journal s) digest /\ up_with vls crs D s))|].
      intros ?. apply etriple_ret. intros s [Hf Hs]. split; [by exists crs|]. intros _ Hin.
      apply list_elem_of_fmap in Hin as (tag & Ht & Hin). destruct Hs as [U HD].
      pose proof (co_done _ _ _ (up_core _ _ _ U)) as Hdone. rewrite Forall_forall, HD in Hdone.
      destruct (Hdone tag Hin) as (r & [Hr Hrd] & Hor). rewrite <- Ht, E in Hr. injection Hr as <-.
      rewrite <- Hrd, Hd in Hor. destruct Hor; congruence.
  - apply etriple_ret. intros s Hs. split; [by exists crs|]. intros _ Hin.
    apply list_elem_of_fmap in Hin as (tag & Ht & Hin). destruct Hs as [U HD].
    pose proof (co_done _ _ _ (up_core _ _ _ U)) as Hdone. rewrite Forall_forall, HD in Hdone.
    destruct (Hdone tag Hin) as (r & [Hr _] & _). rewrite <- Ht in Hr. congruence.
Qed.

(** The capacity check of a proposal that has no receipt yet, when the ledger is usable *)
Definition room (crs : list ConsensusCommitReceipt) r : Prop :=
  receipts_of crs !! cr_proposal_id r = None ->
  Z.of_nat (size (receipts_of crs)) < MAX_CONSENSUS_LEDGER_RECORDS / 2 /\
  zlen crs + zlen (receipts_pending (receipts_of crs)) + 2 <= MAX_CONSENSUS_LEDGER_RECORDS /\
  zlen (encode_lines (map receipt_to_vec crs)) + needs (receipts_of crs) +
    (zlen (receipt_to_vec r) + 1) + completion_size r <= MAX_CONSENSUS_LEDGER_BYTES.
Lemma commits_attempt_triple vls crs D :
  etriple (up_with vls crs D) (on_commits attempt) (fun _ => up_with vls crs D) stops.
Proof.
  unfold on_commits. apply etriple_zoom. intros s [U HD]. pose proof U as [C U2 U3 U4 U5 U6 U7 U8 U9].
  assert (forall t : ledger, on (fun f b => f = lg_file (nd_commits s) /\ b = lg_poisoned (nd_commits s)) t ->
    up_with vls crs D (set_commits t s)) as Hset.
  { intros t [Hf Hp]. split; [|done]. split; try done; [by eapply core_same|].
    destruct U3 as [[Hg1 Hg2]|[Hg1 Hg2]]; [left|right]; cbn; unfold good; rewrite Hf, Hp; done. }
  eapply etriple_conseq; [apply (ledger_attempt_triple (fun e t => stops e (set_commits t s))
      (fun f b => f = lg_file (nd_commits s) /\ b = lg_poisoned (nd_commits s)))| | |done].
  - intros t Ht. by eapply (up_with_stops Crash), Hset.
  - by intros t ->.
  - intros ? t Ht. by apply Hset.
Qed.
Lemma saturated_le a b m : 0 <= a -> 0 <= b -> m < u64_max -> u64_saturating_add a b <= m -> a + b <= m.
Proof. unfold u64_saturating_add. lia. Qed.
Lemma capacity_triple vls D r : cr_committed r = false ->
  etriple (up_some vls D) (ensure_consensus_commit_capacity (cr_proposal_id r) (cr_proposal_digest r))
    (fun _ s => exists crs, up_with vls crs D s /\ (lg_poisoned (nd_commits s) = true \/ room crs r) /\
       (forall r', receipts_of crs !! cr_proposal_id r = Some r' -> cr_proposal_digest r' = cr_proposal_digest r)) stops.
Proof.
  intros Hc. unfold ensure_consensus_commit_capacity. apply (reads_receipts _ _ (fun _ _ => True)). intros crs.
  assert (forall e s, up_with vls crs D s -> stops e s) as HP by (intros; by eapply up_with_stops).
  destruct (receipts_of crs !! cr_proposal_id r) as [existing|] eqn:E; cbn zeta iota.
  - eapply etriple_bind.
    { apply (etriple_require _ _ _ (fun _ s => cr_proposal_digest existing = cr_proposal_digest r /\ up_with vls crs D s)); [|auto].
      intros s Hs Hb. by apply bool_decide_eq_true in Hb. }
    intros ?. apply etriple_pure. intros Hd.
    assert (forall s, up_with vls crs D s -> exists crs, up_with vls crs D s /\
      (lg_poisoned (nd_commits s) = true \/ room crs r) /\
      (forall r', receipts_of crs !! cr_proposal_id r = Some r' -> cr_proposal_digest r' = cr_proposal_digest r)) as Hdone.
    { intros s Hs. exists crs. split_and!; [done|right; unfold room; by rewrite E|].
      intros r' Hr'. rewrite E in Hr'. by injection Hr' as <-. }
    destruct (cr_committed existing); [by apply etriple_ret|].
    eapply etriple_bind; [apply (etriple_reads _ _ (fun _ => up_with vls crs D)); done|]. intros n.
    eapply etriple_bind; [apply (etriple_require _ _ _ (fun _ => up_with vls crs D)); auto|]. intros ?.
    eapply etriple_bind; [apply commits_attempt_triple|]. intros known.
    eapply etriple_bind; [apply (etriple_require _ _ _ (fun _ => up_with vls crs D)); auto|]. intros ?.
    eapply etriple_bind; [apply (etriple_reads _ _ (fun _ => up_with vls crs D)); done|]. intros len.
    apply etriple_require; auto.
  - eapply etriple_bind.
    { apply (etriple_require _ _ _ (fun _ s => Z.of_nat (size (receipts_of crs)) < MAX_CONSENSUS_LEDGER_RECORDS / 2 /\
        up_with vls crs D s)); [|auto]. intros s Hs Hb%Z.ltb_lt. done. }
    intros ?. apply etriple_pure. intros Hsize.
    eapply etriple_bind.
    { apply (etriple_reads _ _ (fun n s => n = zlen crs /\ up_with vls crs D s)). intros s Hs. split; [apply Hs|done]. }
    intros n. apply etriple_pure. intros ->. eapply etriple_bind.
    { apply (etriple_require _ _ _ (fun _ s => zlen crs + (zlen (receipts_pending (receipts_of crs)) + 2) <=
        MAX_CONSENSUS_LEDGER_RECORDS /\ up_with vls crs D s)); [|auto]. intros s Hs Hb%Z.leb_le. done. }
    intros ?. apply etriple_pure. intros Hcount.
    eapply etriple_bind; [apply commits_attempt_triple|]. intros known.
    eapply etriple_bind; [apply (etriple_require _ _ _ (fun _ => up_with vls crs D)); auto|]. intros ?.
    eapply etriple_bind.
    { apply (etriple_reads _ _ (fun n s => up_with vls crs D s /\
        (lg_poisoned (nd_commits s) = true \/ n = zlen (encode_lines (map receipt_to_vec crs))))).
      intros s Hs. split; [done|]. destruct Hs as [[C U2 U3 U4 U5 U6 U7 U8 U9] _].
      destruct U3 as [[Hg _]|[Hg _]]; [right|by left]. by rewrite (se_bytes _ _ Hg). }
    intros n. apply etriple_require; [|intros s [Hs _] _; by apply HP].
    intros s [Hs Hn] Hb%Z.leb_le. exists crs. split_and!; [done| |by intros r' Hr'; rewrite E in Hr'].
    destruct Hn as [Hn| ->]; [by left|right]. intros _. split_and!; [done|lia|].
    pose proof (zlen_nonneg (encode_lines (map receipt_to_vec crs))).
    pose proof (reserved_bytes_capped (receipts_pending (receipts_of crs))) as Hr1.
    pose proof (needs_nonneg (receipts_of crs)) as Hr2. unfold needs in *.
    assert ({| cr_proposal_id := cr_proposal_id r; cr_proposal_digest := cr_proposal_digest r; cr_committed := false |} = r)
      as Heq by (destruct r; cbn in *; congruence). rewrite Heq in Hb.
    pose proof (zlen_nonneg (receipt_to_vec r)). pose proof (completion_size_pos r) as Hcs. unfold completion_size in *.
    unfold u64_saturating_add, MAX_CONSENSUS_LEDGER_BYTES, u64_max in *. lia.
Qed.
Lemma record_receipt_poisoned vls crs D r (Q : unit -> node -> Prop) :
  etriple (fun s => up_with vls crs D s /\ lg_poisoned (nd_commits s) = true) (record_receipt r) Q stops.
Proof.
  intros s [Hs Hp]. unfold record_receipt, append_consensus_commit_record. rewrite !em_bind_eq. cbn. rewrite Hp.
  by eapply up_with_stops.
Qed.
Lemma prepare_triple vls D r : cr_committed r = false -> receipt_malformed r = false ->
  etriple (up_some vls D) (prepare_consensus_commit r)
    (fun _ s => exists crs r', up_with vls crs D s /\ receipts_of crs !! cr_proposal_id r = Some r' /\
       cr_proposal_digest r' = cr_proposal_digest r) stops.
Proof.
  intros Hc Hm. unfold prepare_consensus_commit. eapply etriple_bind; [by apply capacity_triple|]. intros ?.
  intros s (crs & Hs & Hroom & Hd). rewrite em_bind_eq. cbn. rewrite (up_receipts _ _ _ (proj1 Hs)).
  destruct (receipts_of crs !! cr_proposal_id r) as [r'|] eqn:E; cbn [is_Some_b].
  { exists crs, r'. split_and!; auto. }
  destruct Hroom as [Hp|Hroom].
  - by apply (record_receipt_poisoned vls crs D r).
  - assert (etriple (fun s => receipts_valid crs /\ up_with vls crs D s) (record_receipt r)
      (fun _ => up_with vls (crs ++ [r]) D) stops) as Ht.
    { apply etriple_pure. intros Hv. apply record_receipt_triple. intros _ [Hf _].
      destruct (Hroom E) as (R1 & R2 & R3). apply prepare_valid; try done. }
    specialize (Ht s ltac:(split; [apply Hs|done])).
    destruct (record_receipt r s) as [[?|?] ?]; [|done].
    exists (crs ++ [r]), r. by rewrite receipts_of_snoc, lookup_insert_eq.
Qed.

(** ** The commit *)

Lemma frame_found_app j k digest : frame_found j digest = true -> frame_found (j ++ k) digest = true.
Proof. unfold frame_found. rewrite existsb_app. by intros ->. Qed.
Lemma frame_found_here j e digest : stored_digest e = Some digest -> frame_found (j ++ [e]) digest = true.
Proof. unfold frame_found. rewrite existsb_app. cbn. intros ->. by rewrite bool_decide_eq_true_2, orb_true_r. Qed.
(** The event given to the journal, and the one it took *)
Lemma core_send vls crs s e tag r : core vls crs s -> quorum vls tag ->
  ct_proposal tag ∉ map ct_proposal (nd_done s) -> receipt_for crs tag r -> stored_digest e = Some (ct_digest tag) ->
  nd_sent s = None -> core vls crs (set_journal (nd_journal s) (Some (e, tag)) (nd_done s) s).
Proof.
  intros [C1 C2 C3 C4 C5 C6 C7] Hq Hn Hr He Hs. split; cbn; try done.
  - intros e' tag' [= <- <-]. split_and!; try done. by exists r.
  - intros tag' [Ht|[e' [= <- <-]]]; [by apply C7; left|done].
Qed.
Lemma core_taken vls crs s e tag : core vls crs s -> nd_sent s = Some (e, tag) ->
  core vls crs (set_journal (nd_journal s ++ [e]) None (nd_done s ++ [tag]) s).
Proof.
  intros [C1 C2 C3 C4 C5 C6 C7] Hs. destruct (C6 _ _ Hs) as (He & Hn & r & Hr). split; cbn; try done.
  - rewrite map_app. apply NoDup_snoc. done.
  - apply Forall_app. split.
    + eapply Forall_impl; [exact C5|]. cbn. intros tag' (r' & Hr' & [Hc|Hf]); exists r'; split; auto.
      right. by apply frame_found_app.
    + constructor; [|constructor]. exists r. split; [done|]. right. by apply frame_found_here.
  - intros tag' [Ht|[e' ?]]; [|done]. apply elem_of_app in Ht as [Ht|Ht%list_elem_of_singleton].
    + apply C7. by left.
    + subst. apply C7. right. by exists e.
Qed.
Lemma core_dropped vls crs s : core vls crs s -> core vls crs (set_journal (nd_journal s) None (nd_done s) s).
Proof. intros [C1 C2 C3 C4 C5 C6 C7]. split; cbn; try done. intros tag [Ht|[e ?]]; [|done]. apply C7. by left. Qed.
Lemma core_replies vls crs s reps : core vls crs s -> core vls crs (set_replies reps s).
Proof. intros C. by eapply core_same. Qed.
Lemma set_recovery_up vls crs s : up vls crs s -> up vls crs (set_recovery_required s).
Proof. intros U. eapply up_ext; try done. apply U. Qed.

Lemma persist_signed_triple vls crs D e tag r : quorum vls tag -> ct_proposal tag ∉ map ct_proposal D ->
  receipt_for crs tag r -> stored_digest e = Some (ct_digest tag) ->
  etriple (up_with vls crs D) (persist_signed e tag) (fun _ => up_with vls crs (D ++ [tag])) stops.
Proof.
  intros Hq Hn Hr He. unfold persist_signed.
  set (F := fun s => nd_done s = D /\ nd_recovery_required s = false).
  assert (forall s reps, F s -> F (set_replies reps s)) as HF by done.
  eapply (etriple_bind _ _ _ (fun _ => kept vls crs F)).
  { eapply etriple_conseq; [apply (ensure_writable_triple vls crs (fun s => nd_done s = D))|done| |done].
    intros ? s [[U HD] Hrr]. by split. }
  intros ?. eapply etriple_bind; [apply require_triple|]. intros ?. apply etriple_pure. intros _.
  do 3 (eapply etriple_bind; [by apply gate_triple|]; intros ?).
  (* the ledgers and memory while the event is on its way *)
  set (M := fun s : node => votes_running s vls /\ receipts_running s crs /\ nd_locks s = locks_of vls /\
    nd_receipts s = receipts_of crs /\ nd_records s = zlen crs /\ roster_ok (nd_roster s) /\
    proposals_ok (nd_proposals s) /\ nd_done s = D).
  eapply etriple_bind.
  { apply (etriple_update _ _ (fun _ s => (core vls crs s /\ nd_sent s = Some (e, tag)) /\ M s)).
    intros s [[C U2 U3 U4 U5 U6 U7 U8 U9] [HD Hrr]]. split; [split; [|done]|by split_and!].
    eapply core_send; try done; [by rewrite HD|]. destruct U7; [done|congruence]. }
  intros ?. eapply (etriple_bind _ _ _ (fun b s => (core vls crs s /\ nd_sent s = Some (e, tag)) /\ M s)).
  { intros s [[C Hs] HM]. unfold answer. destruct (nd_replies s) as [|rep reps].
    - exists vls, crs. destruct HM as (M1 & M2 & _). split_and!; [done|by eapply running_disk..].
    - split; [split; [by apply core_replies|done]|done]. }
  intros ack. eapply (etriple_bind _ _ _ (fun _ => up_with vls crs (D ++ [tag]))).
  - destruct ack.
    + apply etriple_update. intros s [[C Hs] (M1 & M2 & M3 & M4 & M5 & M6 & M7 & M8)].
      split; [|cbn; by rewrite M8]. split; cbn; try done; [by eapply core_taken|by left].
    + eapply etriple_bind.
      { apply (etriple_update _ _ (fun _ => up vls crs)).
        intros s [[C Hs] (M1 & M2 & M3 & M4 & M5 & M6 & M7 & M8)].
        split; cbn; try done; [by eapply core_same|by right]. }
      intros ?. apply etriple_raise. intros s Hs. by eapply up_stops.
  - intros ?. eapply etriple_bind.
    { eapply etriple_conseq; [by apply (answer_triple vls crs (fun s => nd_done s = D ++ [tag]))|done|done|done]. }
    intros []; [by apply etriple_ret|]. unfold durable_apply_error. eapply etriple_bind.
    { apply (etriple_update _ _ (fun _ => up vls crs)). intros s [U _]. by apply set_recovery_up. }
    intros ?. apply etriple_raise. intros s Hs. by eapply up_stops.
Qed.
Lemma commit_event_triple vls crs D e tag r : quorum vls tag -> ct_proposal tag ∉ map ct_proposal D ->
  receipt_for crs tag r -> stored_digest e = Some (ct_digest tag) ->
  etriple (up_with vls crs D) (commit_event e tag) (fun _ => up_with vls crs (D ++ [tag])) stops.
Proof.
  intros Hq Hn Hr He. unfold commit_event. eapply etriple_bind; [by eapply persist_signed_triple|]. intros ?.
  assert (etriple (up_with vls crs (D ++ [tag])) answer (fun _ => up_with vls crs (D ++ [tag])) stops) as Ha
    by (by apply (answer_triple vls crs (fun s => nd_done s = D ++ [tag]))).
  assert (etriple (up_with vls crs (D ++ [tag])) apply_checked (fun _ => up_with vls crs (D ++ [tag])) stops) as Hc.
  { unfold apply_checked, durable_apply_error. eapply etriple_bind; [exact Ha|]. intros []; [by apply etriple_ret|].
    eapply etriple_bind; [apply (etriple_update _ _ (fun _ => up vls crs)); intros s [U _]; by apply set_recovery_up|].
    intros ?. apply etriple_raise. intros s Hs. by eapply up_stops. }
  assert (etriple (up_with vls crs (D ++ [tag])) apply_unchecked (fun _ => up_with vls crs (D ++ [tag])) stops) as Hu.
  { unfold apply_unchecked. eapply etriple_bind; [exact Ha|]. intros []; [by apply etriple_ret|].
    apply etriple_update. intros s [U HD]. split; [by apply set_recovery_up|done]. }
  by destruct (se_event e); try done; apply etriple_ret.
Qed.
(** ** The quorum *)

Lemma count_ballots ro id d bs acc n : try_for (count_ballot local_peer_id signing_key ro id d) acc bs = Ok n ->
  n = acc + zlen (List.filter (fun e => vl_approve e.2) bs) /\
  Forall (fun e => vl_peer_id e.2 = e.1.2 /\
    (vl_approve e.2 = true -> approves {| ct_proposal := id; ct_roster := ro; ct_digest := hex_encode d |} d e.2)) bs.
Proof.
  revert acc; induction bs as [|[key l] bs IH]; intros acc; cbn [try_for].
  - intros [= <-]. split; [unfold zlen; cbn; lia|constructor].
  - intros (acc' & Ha & Hr)%bind_Ok. unfold count_ballot in Ha. destruct (_ || _) eqn:Hb; [done|].
    apply bind_Ok in Ha as ([] & Hv & [= <-]).
    apply orb_false_iff in Hb as [Hb H4]. apply orb_false_iff in Hb as [Hb H3]. apply orb_false_iff in Hb as [H1 H2].
    apply negb_false_iff, bool_decide_eq_true in H1, H2, H3, H4.
    apply IH in Hr as [-> Hall]. split.
    + cbn [List.filter snd]. destruct (vl_approve l); [rewrite zlen_cons|]; lia.
    + constructor; [|done]. cbn. split; [done|]. intros Ht. split_and!; try done.
      unfold verify_stored in Hv. cbn. rewrite H2. destruct (peer_key ro key.2) as [k|]; [|done]. exists k.
      split; [done|]. destruct (negb _); [done|]. rewrite Ht in Hv. by destruct (verify _ _ _).
Qed.
Lemma ballots_of_In ro id vls key l : NoDup (map key_of vls) -> (key, l) ∈ ballots_of ro id (locks_of vls) ->
  l ∈ vls /\ key.1 = (id, ro_digest ro).
Proof.
  intros Hd He%list_elem_of_In. apply filter_In in He as [Hm Hk].
  apply list_elem_of_In, elem_of_map_to_list, locks_of_lookup in Hm as [Hl _]; [|done].
  apply andb_prop in Hk as [H1%bool_decide_eq_true H2%bool_decide_eq_true].
  split; [done|]. destruct key as [[a b] c]. cbn in *. congruence.
Qed.
Lemma count_quorum vls ro id d n : NoDup (map key_of vls) ->
  verified_consensus_approval_count local_peer_id signing_key ro id d (locks_of vls) = Ok n ->
  member_count ro / 2 < n -> quorum vls {| ct_proposal := id; ct_roster := ro; ct_digest := hex_encode d |}.
Proof.
  intros Hd Hc Hn. apply count_ballots in Hc as [-> Hall]. rewrite Z.add_0_l in Hn.
  set (bs := List.filter (fun e => vl_approve e.2) (ballots_of ro id (locks_of vls))) in *.
  assert (forall e, e ∈ bs -> e ∈ ballots_of ro id (locks_of vls) /\ vl_approve e.2 = true) as Hbs
    by (intros e He%list_elem_of_In; apply filter_In in He as [He Ha]; split; [by apply list_elem_of_In|done]).
  rewrite Forall_forall in Hall.
  exists (map snd bs), d. split_and!; [done| | |unfold zlen in *; by rewrite length_map].
  - assert (NoDup (map fst bs)) as Hk.
    { assert (NoDup (map fst (map_to_list (locks_of vls)))) as Hk by apply NoDup_fst_map_to_list.
      unfold bs, ballots_of. clear -Hk. induction (map_to_list (locks_of vls)) as [|e m IH]; [constructor|].
      cbn [map] in Hk. apply NoDup_cons in Hk as [Hn Hk]. specialize (IH Hk). cbn [List.filter].
      destruct (_ && _); [|done]. cbn [List.filter]. destruct (vl_approve e.2); [|done].
      cbn [map]. constructor; [|done]. intros Hin. apply Hn. apply list_elem_of_fmap in Hin as (e' & -> & Hin).
      apply list_elem_of_fmap. exists e'. split; [done|]. apply list_elem_of_In in Hin. apply filter_In in Hin as [Hin _].
      apply filter_In in Hin as [Hin _]. by apply list_elem_of_In. }
    assert (map vl_peer_id (map snd bs) = map snd (map fst bs)) as ->.
    { rewrite !map_map. apply map_ext_in. intros e He%list_elem_of_In. apply Hbs in He as [He _].
      by destruct (Hall _ He). }
    apply NoDup_fmap_2_strong; [|done]. intros k1 k2 Hk1 Hk2 Heq.
    apply list_elem_of_fmap in Hk1 as ([k1' l1] & -> & H1). apply list_elem_of_fmap in Hk2 as ([k2' l2] & -> & H2).
    apply Hbs in H1 as [H1 _], H2 as [H2 _]. apply ballots_of_In in H1 as [_ H1], H2 as [_ H2]; [|done..].
    cbn in *. destruct k1', k2'. cbn in *. congruence.
  - apply Forall_forall. intros l (e & -> & He)%list_elem_of_fmap. apply Hbs in He as [He Ha].
    destruct (Hall _ He) as [_ Happ]. split; [|by apply Happ]. destruct e as [key l]. by apply ballots_of_In in He as [Hl _].
Qed.
(** ** The operations *)

(** Running, with some histories and with the given commits *)
Definition up_any (D : list commit_tag) s : Prop := exists vls crs, up_with vls crs D s.
Lemma up_any_stops e D s : up_any D s -> stops e s.
Proof. intros (vls & crs & Hs). by eapply up_with_stops. Qed.
Lemma up_any_ok D s : up_any D s -> up_ok s.
Proof. intros (vls & crs & [U _]). by exists vls, crs. Qed.
Lemma up_some_any vls D s : up_some vls D s -> up_any D s.
Proof. intros [crs Hs]. by exists vls, crs. Qed.
Lemma some_pre {A} vls D (m : EM node A) Q :
  (forall crs, etriple (up_with vls crs D) m Q stops) -> etriple (up_some vls D) m Q stops.
Proof. intros Hm s [crs Hs]. by apply (Hm crs). Qed.
Lemma any_pre {A} D (m : EM node A) Q :
  (forall vls crs, etriple (up_with vls crs D) m Q stops) -> etriple (up_any D) m Q stops.
Proof. intros Hm s (vls & crs & Hs). by apply (Hm vls crs). Qed.

Lemma some_require vls D b e : etriple (up_some vls D) (require b e) (fun _ s => b = true /\ up_some vls D s) stops.
Proof. apply etriple_require; [done|]. intros s Hs _. by eapply up_some_stops. Qed.
Lemma some_of_result {A} vls D (x : result string A) :
  etriple (up_some vls D) (of_result x) (fun a s => x = Ok a /\ up_some vls D s) stops.
Proof. apply etriple_of_result; [done|]. intros s e Hs _. by eapply up_some_stops. Qed.
Lemma some_raise {A} vls D e (Q : A -> node -> Prop) : etriple (up_some vls D) (raise e) Q stops.
Proof. apply etriple_raise. intros s Hs. by eapply up_some_stops. Qed.
Lemma some_gate vls D e : etriple (up_some vls D) (gate e) (fun _ => up_some vls D) stops.
Proof.
  apply some_pre. intros crs.
  eapply etriple_conseq; [by apply (gate_triple vls crs (fun s => nd_done s = D))|done| |done].
  intros ? s Hs. by exists crs.
Qed.
Lemma some_schema vls D ev : etriple (up_some vls D) (validate_consensus_schema_event storage_schema_version ev)
  (fun _ => up_some vls D) stops.
Proof.
  apply some_pre. intros crs.
  eapply etriple_conseq; [by apply (schema_triple vls crs (fun s => nd_done s = D))|done| |done].
  intros ? s Hs. by exists crs.
Qed.
Lemma some_writable vls D : etriple (up_some vls D) ensure_writable (fun _ => up_some vls D) stops.
Proof.
  apply some_pre. intros crs.
  eapply etriple_conseq; [by apply (ensure_writable_triple vls crs (fun s => nd_done s = D))|done| |done].
  intros ? s [Hs _]. by exists crs.
Qed.
(** Reading a part of the state that the invariant constrains by [G] *)
Lemma some_reads {A B} vls D (f : node -> A) (G : A -> Prop) (k : A -> EM node B) Q :
  (forall s, up_some vls D s -> G (f s)) -> (forall a, G a -> etriple (up_some vls D) (k a) Q stops) ->
  etriple (up_some vls D) (a ← reads f; k a) Q stops.
Proof. intros Hf Hk s Hs. rewrite em_bind_eq. cbn. by apply Hk; [apply Hf|]. Qed.
Lemma some_proposals vls D (g : node -> gmap string ConsensusProposal) act :
  (forall s, up_some vls D s -> proposals_ok (g s)) ->
  etriple (up_some vls D) (update (fun s => set_proposals (g s) (act s) s)) (fun _ => up_some vls D) stops.
Proof.
  intros Hg. apply etriple_update. intros s Hs. pose proof (Hg s Hs) as Hp. destruct Hs as (crs & U & HD).
  exists crs. split; [|done]. eapply up_ext; try done.
Qed.
Lemma proposals_some vls D s : up_some vls D s -> proposals_ok (nd_proposals s).
Proof. intros (crs & U & _). apply U. Qed.
Definition id_ok (id : string) : Prop := id <> ""%string /\ zlen (str_bytes id) <= 512.
Lemma some_store vls D id p : id_ok id -> etriple (up_some vls D) (store_proposal id p) (fun _ => up_some vls D) stops.
Proof.
  intros Hid. apply (some_proposals vls D _ nd_activity). intros s Hs k p'.
  intros [[<- _]|[_ Hk]]%lookup_insert_Some; [done|]. by eapply proposals_some.
Qed.
Lemma some_touch vls D id : etriple (up_some vls D) (touch_consensus_proposal id) (fun _ => up_some vls D) stops.
Proof. apply (some_proposals vls D nd_proposals). apply proposals_some. Qed.
Lemma some_prune vls D : etriple (up_some vls D) prune_expired_consensus_proposals (fun _ => up_some vls D) stops.
Proof.
  unfold prune_expired_consensus_proposals. cbn zeta.
  apply (some_proposals vls D (fun s => foldr delete (nd_proposals s) _) (fun s => foldr delete (nd_activity s) _)).
  intros s Hs. pose proof (proposals_some _ _ _ Hs) as Hp. intros k p Hk.
  apply (Hp k p). revert Hk. generalize (List.filter (fun e : string * Z => expired (nd_now s) e.2) (map_to_list (nd_activity s))).*1.
  intros gone. induction gone as [|g gone IH]; cbn; [done|]. intros [_ Hk]%lookup_delete_Some. auto.
Qed.
Lemma some_lookup vls D id :
  etriple (up_some vls D) (lookup_proposal id) (fun _ s => id_ok id /\ up_some vls D s) stops.
Proof.
  unfold lookup_proposal. apply (some_reads vls D nd_proposals proposals_ok); [apply proposals_some|].
  intros m Hm. eapply etriple_conseq; [apply some_of_result|done| |done].
  intros p s [Hp%ok_or_Ok Hs]. split; [by eapply Hm|done].
Qed.
Lemma digest_length e d : consensus_proposal_digest e = Ok d -> length d = 32%nat.
Proof. intros (b & _ & [= <-])%bind_Ok. apply length_sha256. Qed.
Lemma digest_stored e d : consensus_proposal_digest e = Ok d -> stored_digest e = Some (hex_encode d).
Proof. unfold stored_digest. by intros ->. Qed.
Lemma receipt_wellformed id d c : id_ok id -> length d = 32%nat ->
  receipt_malformed {| cr_proposal_id := id; cr_proposal_digest := hex_encode d; cr_committed := c |} = false.
Proof.
  intros [Hid Hlen] Hd. unfold receipt_malformed. cbn [cr_proposal_id cr_proposal_digest].
  rewrite hex_decode_encode, Hd.
  rewrite bool_decide_eq_false_2 by done. assert (512 <? zlen (str_bytes id) = false) as -> by (apply Z.ltb_ge; lia).
  done.
Qed.
Lemma some_mark vls D id p b : id_ok id -> etriple (up_some vls D) (mark_committed id p b) (fun _ => up_some vls D) stops.
Proof. apply some_store. Qed.
Lemma ok_pre {A} (m : EM node A) Q :
  (forall vls D, etriple (up_some vls D) m Q stops) -> etriple up_ok m Q stops.
Proof. intros Hm s (vls & crs & U). apply (Hm vls (nd_done s)). by exists crs. Qed.
(** Committing: the event of a proposal with a quorum goes to the journal, unless it did. *)
Lemma commit_proposal_triple vls D ro id p d : id_ok id -> cp_proposal_id p = id ->
  consensus_proposal_digest (cp_signed_event p) = Ok d ->
  quorum vls {| ct_proposal := id; ct_roster := ro; ct_digest := hex_encode d |} ->
  etriple (up_some vls D) (commit_proposal storage_schema_version ro id p) (fun _ => up_ok) stops.
Proof.
  intros Hid Hp Hd Hq. unfold commit_proposal. eapply etriple_bind; [apply durable_triple|]. intros [].
  { eapply etriple_bind; [eapply etriple_pre; [by apply (some_mark vls D)|by intros s [Hs _]]|].
    intros ?. apply etriple_ret. intros s Hs. eapply up_any_ok, up_some_any, Hs. }
  set (tag := {| ct_proposal := id; ct_roster := ro; ct_digest := hex_encode d |}).
  eapply (etriple_pre _ (fun s => id ∉ map ct_proposal D /\ up_some vls D s));
    [|intros s [Hs Hn]; rewrite <- Hp; split; [by apply Hn|done]].
  apply etriple_pure. intros Hn.
  eapply etriple_bind; [apply some_require|]. intros ?. apply etriple_pure. intros _.
  eapply etriple_bind; [apply some_gate|]. intros ?.
  eapply etriple_bind; [apply some_schema|]. intros ?.
  eapply etriple_bind; [apply some_of_result|]. intros d'. apply etriple_pure. intros Hd'.
  assert (d' = d) as -> by congruence.
  eapply etriple_bind; [apply prepare_triple; [done|by eapply receipt_wellformed, digest_length]|]. intros ?.
  eapply (etriple_bind _ _ _ (fun _ => up_some vls (D ++ [tag]))).
  { intros s (crs & r & Hs & Hr & Hrd).
    pose proof (commit_event_triple vls crs D (cp_signed_event p) tag r Hq Hn (conj Hr Hrd) (digest_stored _ _ Hd) s Hs) as Ht.
    fold tag. destruct (commit_event _ _ s) as [[?|e] t]; [by exists crs|done]. }
  intros ?. eapply (etriple_bind _ _ _ (fun _ => up_ok)).
  { apply etriple_catch. apply some_pre. intros crs.
    eapply etriple_conseq; [by apply (complete_triple vls crs (D ++ [tag]))|done| |].
    - intros ? s Hs. eapply up_any_ok, up_some_any, Hs.
    - by intros []. }
  intros r. eapply (etriple_bind _ _ _ (fun _ => up_ok)).
  { apply ok_pre. intros vls' D'. eapply etriple_conseq; [by apply (some_mark vls' D')|done| |done].
    intros ? s Hs. eapply up_any_ok, up_some_any, Hs. }
  intros ?. destruct r; [by apply etriple_ret|]. apply etriple_raise. by intros s.
Qed.

(** *** Votes *)

Lemma restore_keeps ro d bs p q x : restore_ballots local_peer_id signing_key ro d bs p = (q, x) ->
  cp_proposal_id q = cp_proposal_id p /\ cp_signed_event q = cp_signed_event p.
Proof.
  revert p; induction bs as [|[key l] bs IH]; intros p; cbn [restore_ballots].
  - by intros [= <- <-].
  - destruct (negb _); [by intros [= <- <-]|]. destruct (verify_stored _ _ _ _ _ _ _ _); [|by intros [= <- <-]].
    intros Hq. apply IH in Hq as [-> ->]. done.
Qed.
Lemma restore_locks_keeps s p q x : restore_consensus_vote_locks local_peer_id signing_key s p = (q, x) ->
  cp_proposal_id q = cp_proposal_id p /\ cp_signed_event q = cp_signed_event p.
Proof.
  unfold restore_consensus_vote_locks. destruct (consensus_proposal_digest _); [|by intros [= <- <-]].
  apply restore_keeps.
Qed.
Lemma ballot_wellformed ro id peer d a sig : id_ok id -> roster_ok ro -> is_Some (peer_key ro peer) ->
  length d = 32%nat -> length sig = 64%nat ->
  vote_lock_malformed {| vl_proposal_id := id; vl_peer_id := peer; vl_roster_digest := ro_digest ro;
    vl_proposal_digest := hex_encode d; vl_approve := a; vl_signature := sig |} = false.
Proof.
  intros [Hid _] (Hro & Hempty & _) Hk Hd Hs. unfold vote_lock_malformed.
  cbn [vl_proposal_id vl_peer_id vl_roster_digest vl_proposal_digest vl_signature].
  rewrite hex_decode_encode, Hd, Hs. destruct Hro as [x ->].
  rewrite bool_decide_eq_false_2 by done. rewrite bool_decide_eq_false_2; [done|].
  intros ->. unfold peer_verifying_key in Hk. rewrite bool_decide_eq_false_2 in Hk by auto.
  rewrite Hempty in Hk. by destruct Hk.
Qed.
Lemma core_acknowledge vls crs s l : core vls crs s -> l ∈ vls -> core vls crs (acknowledge l s).
Proof.
  intros [C1 C2 C3 C4 C5 C6 C7] Hl. split; cbn; try done. apply Forall_app. split; [done|]. by constructor.
Qed.
Lemma up_acknowledge vls crs D s l : up_with vls crs D s -> l ∈ vls -> up_with vls crs D (acknowledge l s).
Proof.
  intros [[C U2 U3 U4 U5 U6 U7 U8 U9] HD] Hl. split; [|done]. split; try done. by apply core_acknowledge.
Qed.
(** A stored ballot acknowledged again, or a new one recorded *)
Lemma acknowledge_triple vls D l : l ∈ vls ->
  etriple (up_some vls D) (update (acknowledge l)) (fun _ => up_any D) stops.
Proof.
  intros Hl. apply etriple_update. intros s [crs Hs]. exists vls, crs. by apply up_acknowledge.
Qed.
Lemma new_ballot_triple vls D l : vote_lock_malformed l = false -> NoDup (map key_of vls) ->
  locks_of vls !! key_of l = None -> etriple (up_some vls D) (record_ballot l) (fun _ => up_any D) stops.
Proof.
  intros Hm Hd Hl. apply some_pre. intros crs.
  eapply etriple_conseq; [apply (record_ballot_triple vls crs D l Hm (locks_of_None _ _ Hd Hl))|done| |done].
  intros ? s Hs. by exists (vls ++ [l]), crs.
Qed.
Lemma some_locks {A} (vls : list ConsensusVoteLock) (D : list commit_tag) (k : gmap (string * string * string) ConsensusVoteLock -> EM node A) Q :
  (NoDup (map key_of vls) -> etriple (up_some vls D) (k (locks_of vls)) Q stops) ->
  etriple (up_some vls D) (m ← reads nd_locks; k m) Q stops.
Proof.
  intros Hk s Hs. rewrite em_bind_eq. cbn. pose proof Hs as (crs & U & _). rewrite (up_locks _ _ _ U).
  apply Hk; [|done]. apply (co_votes _ _ _ (up_core _ _ _ U)).
Qed.
Lemma ballot_for_triple vls D ro key id peer a d sig : id_ok id -> roster_ok ro -> peer_key ro peer = Some key ->
  length d = 32%nat -> length sig = 64%nat ->
  etriple (up_some vls D) (ballot_for ro key id peer a d sig) (fun _ => up_any D) stops.
Proof.
  intros Hid Hro Hkey Hd Hsig. unfold ballot_for. apply some_locks. intros Hnd.
  destruct (locks_of vls !! _) as [stored|] eqn:E.
  - apply locks_of_lookup in E as [Hl _]; [|done].
    do 3 (eapply etriple_bind; [apply some_require|]; intros ?; apply etriple_pure; intros _).
    eapply etriple_bind; [by apply acknowledge_triple|]. intros ?. by apply etriple_ret.
  - eapply etriple_bind; [apply new_ballot_triple; [by apply ballot_wellformed|done|done]|].
    intros ?. by apply etriple_ret.
Qed.
Lemma some_durable vls D p : etriple (up_some vls D) (proposal_has_durable_commit p) (fun _ => up_some vls D) stops.
Proof. eapply etriple_conseq; [apply durable_triple|done| |done]. by intros ? s [Hs _]. Qed.
Lemma submit_vote_triple id peer a sig :
  etriple up_ok (submit_vote local_peer_id signing_key storage_schema_version id peer a sig) (fun _ => up_ok) stops.
Proof.
  apply ok_pre. intros vls D. unfold submit_vote.
  eapply etriple_bind; [apply some_writable|]. intros ?.
  apply (some_reads vls D nd_roster roster_ok); [by intros s (crs & U & _); apply U|]. intros ro Hro.
  eapply etriple_bind; [apply some_of_result|]. intros key. apply etriple_pure. intros Hkey%ok_or_Ok.
  eapply etriple_bind; [apply some_lookup|]. intros proposal. apply etriple_pure. intros Hid.
  eapply etriple_bind; [apply some_require|]. intros ?. apply etriple_pure. intros Hp%bool_decide_eq_true.
  eapply etriple_bind; [apply some_gate|]. intros ?.
  eapply etriple_bind; [apply some_schema|]. intros ?.
  eapply etriple_bind; [apply some_of_result|]. intros d. apply etriple_pure. intros Hd.
  eapply etriple_bind; [apply some_require|]. intros ?. apply etriple_pure. intros Hsig%Nat.eqb_eq.
  eapply etriple_bind; [apply some_require|]. intros ?. apply etriple_pure. intros _.
  eapply etriple_bind; [apply some_gate|]. intros ?.
  eapply etriple_bind; [apply some_require|]. intros ?. apply etriple_pure. intros _.
  apply (some_reads vls D _ (fun pr : ConsensusProposal * result string unit =>
    cp_proposal_id pr.1 = id /\ cp_signed_event pr.1 = cp_signed_event proposal)).
  { intros s _. destruct (restore_consensus_vote_locks _ _ s _) as [q x] eqn:E.
    apply restore_locks_keeps in E as [E1 E2]. cbn in *. by rewrite E1. }
  intros [p x] [Hpid Hpe]. cbn [fst] in *.
  eapply etriple_bind; [by apply some_store|]. intros ?.
  eapply etriple_bind; [apply some_of_result|]. intros ?. apply etriple_pure. intros _.
  eapply etriple_bind; [apply some_durable|].
  intros durable. eapply etriple_bind; [by apply some_mark|]. intros ?.
  destruct durable; [apply etriple_ret; intros s Hs; eapply up_any_ok, up_some_any, Hs|].
  eapply etriple_bind; [by eapply ballot_for_triple; try done; eapply digest_length|]. intros lock.
  apply any_pre. intros vls' crs'. eapply (etriple_pre _ (up_some vls' D)); [|by intros s Hs; exists crs'].
  eapply etriple_bind; [by apply some_store|]. intros ?.
  apply some_locks. intros Hnd.
  eapply etriple_bind; [apply some_of_result|]. intros approvals. apply etriple_pure. intros Hcount.
  destruct (Z.leb_spec approvals (member_count ro / 2)) as [|Hq];
    [apply etriple_ret; intros s Hs; eapply up_any_ok, up_some_any, Hs|].
  eapply commit_proposal_triple; [done|done|cbn; rewrite Hpe; exact Hd|]. by eapply count_quorum.
Qed.
Lemma sign_vote_triple id a :
  etriple up_ok (sign_vote local_peer_id signing_key storage_schema_version id a) (fun _ => up_ok) stops.
Proof.
  apply ok_pre. intros vls D. unfold sign_vote.
  eapply etriple_bind; [apply some_writable|]. intros ?.
  eapply etriple_bind; [apply some_lookup|]. intros proposal. apply etriple_pure. intros Hid.
  eapply etriple_bind; [apply some_require|]. intros ?. apply etriple_pure. intros _.
  eapply etriple_bind; [apply some_require|]. intros ?. apply etriple_pure. intros _.
  eapply etriple_bind; [apply some_gate|]. intros ?.
  eapply etriple_bind; [apply some_schema|]. intros ?.
  eapply etriple_bind; [apply some_touch|]. intros ?.
  eapply etriple_bind; [apply some_of_result|]. intros d. apply etriple_pure. intros Hd.
  apply (some_reads vls D nd_roster roster_ok); [by intros s (crs & U & _); apply U|]. intros ro Hro.
  eapply etriple_bind; [apply some_durable|].
  intros durable. apply some_locks. intros Hnd.
  destruct (locks_of vls !! _) as [stored|] eqn:E.
  - apply locks_of_lookup in E as [Hl _]; [|done].
    eapply etriple_bind; [apply some_require|]. intros ?. apply etriple_pure. intros _.
    eapply etriple_bind; [apply some_of_result|]. intros ?. apply etriple_pure. intros _.
    eapply etriple_bind; [by apply acknowledge_triple|]. intros ?. apply etriple_ret. intros s. apply up_any_ok.
  - eapply etriple_bind; [apply some_require|]. intros ?. apply etriple_pure. intros _.
    eapply etriple_bind; [apply new_ballot_triple; [|done|done]|].
    + apply ballot_wellformed; try done.
      * exists (verifying_key signing_key). unfold peer_verifying_key. by rewrite bool_decide_eq_true_2.
      * by eapply digest_length.
      * apply length_sign.
    + intros ?. apply etriple_ret. intros s. apply up_any_ok.
Qed.
Lemma room_triple vls D : etriple (up_some vls D) room_for_proposal (fun _ => up_some vls D) stops.
Proof.
  unfold room_for_proposal. apply (some_reads vls D nd_proposals (fun _ => True)); [done|]. intros m _.
  eapply etriple_conseq; [apply some_require|done| |done]. by intros ? s [_ Hs].
Qed.
Lemma accept_triple p : etriple up_ok (accept_consensus_proposal local_peer_id signing_key storage_schema_version p)
  (fun _ => up_ok) stops.
Proof.
  apply ok_pre. intros vls D. unfold accept_consensus_proposal. cbn zeta.
  eapply etriple_bind; [apply some_require|]. intros ?. apply etriple_pure. intros _.
  eapply etriple_bind; [apply some_require|]. intros ?. apply etriple_pure.
  intros [H1%Z.leb_le H2%Z.leb_le]%andb_prop.
  assert (id_ok (cp_proposal_id p)) as Hid by (split; [intros He; rewrite He in H1; change (1 <= 0) in H1; lia|lia]).
  eapply etriple_bind; [apply some_writable|]. intros ?.
  eapply etriple_bind; [apply some_gate|]. intros ?.
  eapply etriple_bind; [apply some_schema|]. intros ?.
  eapply etriple_bind; [apply some_of_result|]. intros ?. apply etriple_pure. intros _.
  eapply etriple_bind; [apply some_prune|]. intros ?.
  apply (some_reads vls D _ (fun _ => True)); [done|]. intros [restored x] _.
  eapply etriple_bind; [apply some_of_result|]. intros ?. apply etriple_pure. intros _.
  eapply etriple_bind; [apply some_durable|].
  intros committed. apply (some_reads vls D nd_proposals (fun _ => True)); [done|]. intros m _.
  assert (etriple (up_some vls D) (touch_consensus_proposal (cp_proposal_id p)) (fun _ => up_ok) stops) as Htouch.
  { eapply etriple_conseq; [apply some_touch|done| |done]. intros ? s Hs. eapply up_any_ok, up_some_any, Hs. }
  destruct (m !! _) as [existing|].
  - eapply etriple_bind; [apply some_of_result|]. intros ?. apply etriple_pure. intros _.
    eapply etriple_bind; [apply some_of_result|]. intros ?. apply etriple_pure. intros _.
    eapply etriple_bind; [apply some_require|]. intros ?. by apply etriple_pure.
  - eapply etriple_bind; [apply room_triple|]. intros ?.
    eapply etriple_bind; [by apply some_store|]. by intros ?.
Qed.
Lemma propose_triple legacy ev id e : id_ok id ->
  etriple up_ok (propose_consensus storage_schema_version legacy ev id e) (fun _ => up_ok) stops.
Proof.
  intros Hid. apply ok_pre. intros vls D. unfold propose_consensus.
  eapply etriple_bind; [apply some_require|]. intros ?. apply etriple_pure. intros _.
  eapply etriple_bind; [apply some_require|]. intros ?. apply etriple_pure. intros _.
  eapply etriple_bind; [apply some_writable|]. intros ?.
  eapply etriple_bind; [apply some_gate|]. intros ?.
  eapply etriple_bind; [apply some_schema|]. intros ?.
  eapply etriple_bind; [apply some_gate|]. intros ?.
  eapply etriple_bind; [apply some_of_result|]. intros ?. apply etriple_pure. intros _.
  eapply etriple_bind; [apply some_prune|]. intros ?.
  eapply etriple_bind; [apply room_triple|]. intros ?.
  eapply etriple_bind; [by apply some_store|]. intros ?.
  eapply etriple_bind; [apply some_touch|]. intros ?.
  apply etriple_ret. intros s Hs. eapply up_any_ok, up_some_any, Hs.
Qed.
Lemma export_triple id : etriple up_ok (export_consensus_proposal id) (fun _ => up_ok) stops.
Proof.
  apply ok_pre. intros vls D. unfold export_consensus_proposal.
  eapply etriple_bind; [apply some_lookup|]. intros p. apply etriple_ret. intros s [_ Hs]. eapply up_any_ok, up_some_any, Hs.
Qed.
End Safety.
