(* ===== verification/ConsensusOpen.v ===== *)
(** * Opening the database after a crash

    Whatever a crash left of the two ledgers, opening reads them, rebuilds what was in
    memory and completes the receipts whose event is in the journal; it stops only on a
    system call that fails, never on what the ledgers hold. *)
From S2P Require Export ConsensusSafety.
Local Open Scope Z_scope.

(** ** What code can raise *)

Definition raises {S A} (E : string -> Prop) (m : EM S A) : Prop :=
  forall s e s', m s = (Err (Raised e), s') -> E e.
Section Raises.
Context {S : Type} (E : string -> Prop).

Lemma raises_ret {A} (a : A) : raises (S:=S) E (mret a).
Proof. by intros s e s'. Qed.
Lemma raises_bind {A B} (m : EM S A) (f : A -> EM S B) :
  raises E m -> (forall a, raises E (f a)) -> raises E (m ≫= f).
Proof.
  intros Hm Hf s e s'. rewrite em_bind_eq. destruct (m s) as [[a|e'] t] eqn:Hs; [apply Hf|].
  intros [= -> ->]. by eapply Hm.
Qed.
Lemma raises_raise {A} e : E e -> raises (S:=S) (A:=A) E (raise e).
Proof. by intros He s e' s' [= <- <-]. Qed.
Lemma raises_reads {A} (f : S -> A) : raises E (reads f).
Proof. by intros s e s'. Qed.
Lemma raises_update (f : S -> S) : raises E (update f).
Proof. by intros s e s'. Qed.
Lemma raises_require b e : E e -> raises (S:=S) E (require b e).
Proof. intros He. destruct b; [apply raises_ret|by apply raises_raise]. Qed.
Lemma raises_for {A B} (f : B -> A -> EM S B) b l : (forall b a, raises E (f b a)) -> raises E (efor f b l).
Proof.
  intros Hf. revert b; induction l as [|a l IH]; intros b; cbn [efor]; [apply raises_ret|].
  by apply raises_bind.
Qed.
End Raises.
Lemma raises_zoom {S T A} E (part : S -> T) set (m : EM T A) : raises E m -> raises E (zoom part set m).
Proof.
  intros Hm s e s'. unfold zoom. destruct (m (part s)) as [r t] eqn:Hs. intros [= -> <-]. by eapply Hm.
Qed.
Lemma raises_quiet {A} E (m : ledger_code A) : quiet m -> raises E m.
Proof. intros Hm s e s' Hs. specialize (Hm s). by rewrite Hs in Hm. Qed.
#[export] Hint Resolve raises_ret raises_bind raises_raise raises_reads raises_update raises_require
  raises_for raises_zoom : raises.
(** What holds of the state, and what the code can raise *)
Lemma etriple_raises {S A} (E : string -> Prop) (m : EM S A) P Q (X : stop -> S -> Prop) :
  raises E m -> etriple P m Q X ->
  etriple P m Q (fun e s => X e s /\ match e with Raised e => E e | Crash => True end).
Proof.
  intros Hr Hm s Hs. specialize (Hm s Hs). destruct (m s) as [[a|[|e]] t] eqn:Hms; try done.
  split; [done|]. by eapply Hr.
Qed.

(** The errors of system calls that fail *)
Definition io_errors (name : string) : list string :=
  map (String.append name)
    ["_LEDGER_READ_FAILED"; "_LEDGER_REPAIR_FAILED"; "_LEDGER_WRITE_FAILED"; "_METADATA";
     "_LEDGER_SYNC_FAILED"; "_LEDGER_DIRECTORY_SYNC_FAILED"; "_LEDGER_POISONED"]%string.
Definition or_limit (name e : string) : Prop := e ∈ io_errors name \/ e = (name +:+ "_LEDGER_LIMIT")%string.
Ltac io := unfold or_limit, io_errors; cbn [map]; rewrite ?elem_of_cons; tauto.
Ltac raising := repeat first
  [ apply raises_require; io | apply raises_raise; io | apply raises_ret | apply raises_update
  | apply raises_reads | apply raises_quiet; solve [auto 10] | apply raises_bind
  | match goal with
    | |- forall _, _ => intros ?
    | |- context [if ?b then _ else _] => destruct b
    end ].

Lemma append_line_raises name p : raises (or_limit name) (append_line name p).
Proof.
  unfold append_line.
  raising.
Qed.
Lemma load_lines_raises name : raises (or_limit name) (load_lines name true).
Proof.
  unfold load_lines, read_consensus_ledger, truncate_torn_consensus_ledger. cbn [negb].
  raising.
Qed.

(** ** The ledgers *)

Section Open.
Context `{RosterCrates} {L : ConsensusCratesLaws}.
Variable local_peer_id : string.
Variable signing_key : SigningKey.
Notation core := (core local_peer_id signing_key).
Notation up := (up local_peer_id signing_key).
Notation up_ok := (up_ok local_peer_id signing_key).
Notation down := (down local_peer_id signing_key).
Notation down_ok := (down_ok local_peer_id signing_key).
Notation stops := (stops local_peer_id signing_key).
Notation up_some := (up_some local_peer_id signing_key).

Lemma with_line_le ps p t m : t `prefix_of` p -> zlen (encode_lines (ps ++ [p])) <= m ->
  zlen (encode_lines ps ++ t) < m.
Proof.
  intros [k ->]. rewrite encode_lines_snoc, !zlen_app. change (zlen [newline]) with 1.
  pose proof (zlen_nonneg k). lia.
Qed.
Lemma votes_left_fit seen vls t : votes_ok seen vls -> leftover lock_to_vec (votes_ok seen) vls t ->
  zlen (encode_lines (map lock_to_vec vls) ++ t) <= MAX_CONSENSUS_LEDGER_BYTES.
Proof.
  intros [Hv _] [_ [->|(l & [Hl _] & Ht)]]; [rewrite app_nil_r; apply Hv|].
  apply Z.lt_le_incl, (with_line_le _ _ _ _ Ht). pose proof (vv_bytes _ Hl) as Hb. by rewrite map_app in Hb.
Qed.
Lemma receipts_left_fit crs t : receipts_valid crs -> leftover receipt_to_vec receipts_valid crs t ->
  zlen (encode_lines (map receipt_to_vec crs) ++ t) <= MAX_CONSENSUS_LEDGER_BYTES.
Proof.
  intros Hv [_ [->|(r & Hr & Ht)]].
  - rewrite app_nil_r. pose proof (rv_bytes _ Hv). pose proof (needs_nonneg (receipts_of crs)). lia.
  - apply Z.lt_le_incl, (with_line_le _ _ _ _ Ht). pose proof (rv_bytes _ Hr) as Hb.
    rewrite map_app in Hb. pose proof (needs_nonneg (receipts_of (crs ++ [r]))). cbn [map] in Hb. lia.
Qed.
(** Why loading stops *)
Definition loaded_or (name : string) (late : bool) (e : stop) : Prop :=
  match e with
  | Crash => True
  | Raised e => e ∈ io_errors name \/ late = true /\ e = (name +:+ "_LEDGER_LIMIT")%string
  end.
Lemma io_error name late (e : string) : or_limit name e -> e <> (name +:+ "_LEDGER_LIMIT")%string ->
  loaded_or name late (Raised e).
Proof. intros [He|He] Hne; [by left|done]. Qed.

Definition left_file (ps : list (list byte)) (t : list byte) (g : ledger) : Prop :=
  found (encode_lines ps ++ t) (lg_file g) /\ lg_poisoned g = false.
Lemma load_votes_triple seen vls t : votes_ok seen vls -> leftover lock_to_vec (votes_ok seen) vls t ->
  etriple (left_file (map lock_to_vec vls) t) load_consensus_vote_locks
    (fun m g => m = locks_of vls /\ good (map lock_to_vec vls) g)
    (fun e g => disk_holds lock_to_vec (votes_ok seen) vls (lg_file g) /\ loaded_or "CONSENSUS_VOTE" false e).
Proof.
  intros Hv Hl. unfold load_consensus_vote_locks. eapply etriple_bind.
  - eapply etriple_conseq; [eapply etriple_raises; [apply load_lines_raises|apply (load_records_triple lock_to_vec (votes_ok seen) lock_line _ _ _ Hv Hl)]|done|done|].
    cbn beta. intros [|e] g [[Hd He] Hr]; [done|]. split; [done|]. eapply io_error; [exact Hr|].
    intros ->. pose proof (votes_left_fit _ _ _ Hv Hl). specialize (He eq_refl). lia.
  - intros [bytes lines]. apply etriple_pure. intros [= -> ->]. rewrite load_votes by apply Hv.
    intros g Hg. cbn. done.
Qed.
Lemma load_receipts_triple crs t : receipts_valid crs -> leftover receipt_to_vec receipts_valid crs t ->
  etriple (left_file (map receipt_to_vec crs) t) load_consensus_commit_receipts
    (fun m g => m = (receipts_of crs, zlen crs) /\ good (map receipt_to_vec crs) g)
    (fun e g => disk_holds receipt_to_vec receipts_valid crs (lg_file g) /\
                loaded_or "CONSENSUS_COMMIT" (negb (bool_decide (t = []))) e).
Proof.
  intros Hv Hl. unfold load_consensus_commit_receipts. eapply etriple_bind.
  - eapply etriple_conseq; [eapply etriple_raises; [apply load_lines_raises|apply (load_records_triple receipt_to_vec receipts_valid receipt_line _ _ _ Hv Hl)]|done|done|].
    cbn beta. intros [|e] g [[Hd He] Hr]; [done|]. split; [done|]. eapply io_error; [exact Hr|].
    intros ->. pose proof (receipts_left_fit _ _ Hv Hl). specialize (He eq_refl). lia.
  - intros [bytes lines]. apply etriple_pure. intros [= -> ->].
    pose proof Hv as [Hlegal Hfine Hcount Hsize Hbytes].
    pose proof (zlen_nonneg (receipts_pending (receipts_of crs))).
    set (G := good (map receipt_to_vec crs)). eapply (etriple_bind _ _ _ (fun a g => a = (receipts_of crs, zlen crs) /\ G g)).
    { rewrite load_receipts by (done || lia). by apply etriple_of_result; [intros g a ? [= <-]|]. }
    intros [receipts n]. apply etriple_pure. intros [= -> ->].
    assert (forall n m, n <= m -> m <? n = false) as Hle by (intros; by apply Z.ltb_ge).
    rewrite !Hle by lia. eapply etriple_bind; [by apply (etriple_require _ _ _ (fun _ => G))|]. intros ?.
    eapply etriple_bind; [apply (etriple_require _ _ _ (fun _ => G)); [done|]|by intros ?; apply etriple_ret].
    intros g Hg Hr%Z.leb_gt. split; [left; apply Hg|]. right. split; [|done].
    destruct (decide (t = [])) as [->|Ht]; [|by rewrite bool_decide_eq_false_2]. exfalso.
    rewrite app_nil_r in Hr. pose proof (needs_nonneg (receipts_of crs)).
    pose proof (zlen_nonneg (encode_lines (map receipt_to_vec crs))).
    rewrite reserved_bytes_sum in Hr by (unfold MAX_CONSENSUS_LEDGER_BYTES, needs, u64_max in *; lia).
    unfold u64_saturating_add, needs, MAX_CONSENSUS_LEDGER_BYTES in *. lia.
Qed.

(** ** The completions *)

Lemma any_stops {S A} P (m : EM S A) : etriple P m (fun _ _ => True) (fun _ _ => True).
Proof. intros s _. by destruct (m s) as [[a|e] t]. Qed.
Lemma append_record_receipts m r :
  etriple (fun s => nd_receipts s = m) (append_consensus_commit_record r) (fun _ s => nd_receipts s = m) (fun _ _ => True).
Proof.
  set (P := fun s => nd_receipts s = m). unfold append_consensus_commit_record.
  eapply (etriple_bind _ _ _ (fun _ => P)); [apply etriple_reads; auto|]. intros b.
  eapply (etriple_bind _ _ _ (fun _ => P)); [apply etriple_require; auto|]. intros ?.
  eapply (etriple_bind _ _ _ (fun _ => P)); [apply etriple_reads; auto|]. intros n.
  eapply (etriple_bind _ _ _ (fun _ => P)); [apply etriple_require; auto|]. intros ?.
  eapply (etriple_bind _ _ _ (fun _ => P)); [|by intros ?; apply etriple_update].
  apply etriple_zoom. intros s Hs. eapply etriple_conseq; [apply (any_stops (fun _ => True))|done|done|done].
Qed.
Lemma record_receipts m r :
  etriple (fun s => nd_receipts s = m) (record_receipt r)
    (fun _ s => nd_receipts s = <[cr_proposal_id r := r]> m) (fun _ _ => True).
Proof.
  eapply etriple_bind; [apply append_record_receipts|]. intros ?. apply etriple_update. by intros s <-.
Qed.
(** The receipts of a list are among those in memory, with their digests. *)
Definition known (rs : list ConsensusCommitReceipt) (s : node) : Prop :=
  Forall (fun r => exists r', nd_receipts s !! cr_proposal_id r = Some r' /\
                              cr_proposal_digest r' = cr_proposal_digest r) rs.
Lemma complete_known rs r :
  etriple (known rs) (complete_consensus_commit r) (fun _ => known rs) (fun _ _ => True).
Proof.
  intros s Hs. unfold complete_consensus_commit. rewrite em_bind_eq. cbn.
  destruct (nd_receipts s !! cr_proposal_id r) as [previous|] eqn:E; [|done].
  destruct (bool_decide _) eqn:Hd; [apply bool_decide_eq_true in Hd; cbn [negb]|done].
  destruct (cr_committed previous); [done|].
  pose proof (record_receipts (nd_receipts s) r s eq_refl) as Hr.
  destruct (record_receipt r s) as [[?|?] t]; [|done]. unfold known in *. rewrite Hr.
  eapply Forall_impl; [exact Hs|]. intros q (q' & Hq & Hqd).
  destruct (decide (cr_proposal_id r = cr_proposal_id q)) as [He|He].
  - exists r. rewrite He, lookup_insert_eq. split; [done|]. rewrite He in E. congruence.
  - exists q'. by rewrite lookup_insert_ne.
Qed.
(** A completion of a prepared receipt has room: it fails only with a system call. *)
Definition io_stop (name : string) (e : stop) : Prop :=
  match e with Crash => True | Raised e => e ∈ io_errors name end.
Lemma record_completion vls crs r previous s : up vls crs s ->
  receipts_of crs !! cr_proposal_id r = Some previous ->
  cr_proposal_digest previous = cr_proposal_digest r -> cr_committed previous = false -> cr_committed r = true ->
  match record_receipt r s with (Err e, _) => io_stop "CONSENSUS_COMMIT" e | _ => True end.
Proof.
  intros U Hr Hd Hp Hc.
  destruct (complete_fits crs r previous) as [Hcount Hfits]; try done; [apply U|].
  set (X := fun e (_ : node) => io_stop "CONSENSUS_COMMIT" e).
  enough (etriple (up vls crs) (record_receipt r) (fun _ _ => True) X) as Ht
    by (specialize (Ht s U); by destruct (record_receipt r s) as [[?|?] ?]).
  unfold record_receipt, append_consensus_commit_record.
  eapply (etriple_bind _ _ _ (fun _ _ => True)); [|by intros ?; apply etriple_update].
  eapply etriple_bind; [by apply (etriple_reads _ _ (fun b s => b = lg_poisoned (nd_commits s) /\ up vls crs s))|].
  intros b. eapply (etriple_bind _ _ _ (fun _ s => lg_poisoned (nd_commits s) = false /\ up vls crs s)).
  { apply etriple_require; [intros s' [-> Hs] Hb; split; [by destruct (lg_poisoned _)|done]|].
    intros s' _ _. unfold X, io_stop. apply list_elem_of_In. cbn. auto 10. }
  intros ?. eapply etriple_bind.
  { apply (etriple_reads _ _ (fun n s => n = zlen crs /\ lg_poisoned (nd_commits s) = false /\ up vls crs s)).
    intros s' [? Hs]. split; [apply Hs|done]. }
  intros n. apply etriple_pure. intros ->. eapply (etriple_bind _ _ _ (fun _ s => lg_poisoned (nd_commits s) = false /\ up vls crs s)).
  { apply etriple_require; [done|]. intros s' _ Hb%Z.ltb_ge. lia. }
  intros ?. eapply (etriple_bind _ _ _ (fun _ _ => True)); [|by intros ?; apply etriple_update].
  apply etriple_zoom. intros s' [Hpo U'].
  eapply etriple_conseq; [eapply etriple_raises; [apply append_line_raises|apply append_line_room]| |done|].
  - intros t ->. destruct (up_commits _ _ _ _ _ U') as [Hg|[Hg _]]; [exact Hg|congruence].
  - intros [|e] t [He Ho]; cbn in *; [done|]. destruct Ho as [Ho| ->]; [done|]. by destruct (He eq_refl).
Qed.
Lemma complete_io vls crs r s : up vls crs s -> known [r] s -> cr_committed r = true ->
  match complete_consensus_commit r s with (Err e, _) => io_stop "CONSENSUS_COMMIT" e | _ => True end.
Proof.
  intros U Hk Hc. apply Forall_singleton in Hk as (previous & Hr & Hd).
  unfold complete_consensus_commit. rewrite em_bind_eq. cbn. rewrite Hr, bool_decide_eq_true_2 by done. cbn.
  destruct (cr_committed previous) eqn:Hp; [done|]. rewrite (up_receipts _ _ _ _ _ U) in Hr.
  by apply (record_completion vls crs r previous).
Qed.
Lemma recover_step_triple D r rs (X := fun e s => stops e s /\ io_stop "CONSENSUS_COMMIT" e) :
  etriple (fun s => up_any local_peer_id signing_key D s /\ known (r :: rs) s)
    (found ← scan_for (cr_proposal_digest r);
     if found : bool then complete_consensus_commit (completed r) else mret tt)
    (fun _ s => up_any local_peer_id signing_key D s /\ known rs s) X.
Proof.
  eapply (etriple_bind _ _ _ (fun _ s => up_any local_peer_id signing_key D s /\ known (r :: rs) s)); [by apply etriple_reads|].
  intros []; [|by apply etriple_ret; intros s [Hs [_ Hk]%Forall_cons]].
  intros s [(vls & crs & Hs) Hk].
  pose proof (complete_triple local_peer_id signing_key vls crs D (completed r) eq_refl s Hs) as Ht.
  pose proof (complete_known (r :: rs) (completed r) s Hk) as Hk'.
  assert (known [completed r] s) as Hr by (apply Forall_cons in Hk as [Hr _]; by constructor).
  pose proof (complete_io vls crs _ s (proj1 Hs) Hr eq_refl) as Hio.
  destruct (complete_consensus_commit _ s) as [[?|e] t]; [|done].
  split; [by eapply up_some_any|]. by apply Forall_cons in Hk' as [_ ?].
Qed.
Lemma recover_triple :
  etriple up_ok recover_pending_consensus_commits (fun _ => up_ok)
    (fun e s => stops e s /\ io_stop "CONSENSUS_COMMIT" e).
Proof.
  unfold recover_pending_consensus_commits. intros s (vls & crs & U). rewrite em_bind_eq. cbn [reads].
  assert (known (receipts_pending (nd_receipts s)) s) as Hk.
  { apply Forall_forall. intros r Hr%list_elem_of_In. apply filter_In in Hr as [Hr _].
    apply list_elem_of_In, list_elem_of_fmap in Hr as ([k r'] & -> & Hr%elem_of_map_to_list). cbn.
    rewrite (up_receipts _ _ _ _ _ U) in Hr |- *. pose proof (receipts_of_id _ _ _ Hr) as Hid.
    exists r'. by rewrite Hid. }
  revert Hk. generalize (receipts_pending (nd_receipts s)). intros rs Hk.
  set (D := nd_done s). assert (up_any local_peer_id signing_key D s) as Hs by by exists vls, crs.
  pose proof (etriple_for (fun (_ : unit) r => found ← scan_for (cr_proposal_digest r);
    if found : bool then complete_consensus_commit (completed r) else mret tt)
    (fun _ rs s => up_any local_peer_id signing_key D s /\ known rs s)
    (fun e s => stops e s /\ io_stop "CONSENSUS_COMMIT" e) tt rs) as Ht.
  lapply Ht; [clear Ht; intros Ht|].
  - specialize (Ht s (conj Hs Hk)). destruct (efor _ _ _ s) as [[?|?] ?]; [|done].
    destruct Ht as [Ht _]. eapply up_any_ok, Ht.
  - intros [] r k. apply recover_step_triple.
Qed.

(** ** Opening *)

Lemma core_vote vls crs s l : core vls crs s -> votes_ok (nd_seen s) (vls ++ [l]) -> core (vls ++ [l]) crs s.
Proof.
  intros [C1 C2 C3 C4 C5 C6 C7] Hv. split; cbn; try done.
  - eapply Forall_impl; [exact C3|]. intros k Hk. apply elem_of_app. by left.
  - intros tag Ht. by apply quorum_mono, C7.
Qed.
(** A node that starts with what a crash left: torn tails [tv] and [tc] *)
Record opening vls crs tv tc s : Prop := {
  op_core : core vls crs s;
  op_votes : left_file (map lock_to_vec vls) tv (nd_votes s);
  op_commits : left_file (map receipt_to_vec crs) tc (nd_commits s);
  op_vtail : leftover lock_to_vec (votes_ok (nd_seen s)) vls tv;
  op_ctail : leftover receipt_to_vec receipts_valid crs tc;
  op_sent : nd_sent s = None;
  op_roster : roster_ok local_peer_id (nd_roster s);
  op_proposals : proposals_ok (nd_proposals s);
}.
(** Why opening stops *)
Definition open_stop (late : bool) (e : stop) : Prop :=
  loaded_or "CONSENSUS_VOTE" false e \/ loaded_or "CONSENSUS_COMMIT" late e.
Lemma left_disk {R} (to_vec : R -> list byte) valid rs t g : (forall r, line_ok (to_vec r)) ->
  leftover to_vec valid rs t -> left_file (map to_vec rs) t g -> disk_holds to_vec valid rs (lg_file g).
Proof.
  intros Hline [Hn Hp] [Hf _].
  destruct Hp as [->|(r & Hr & [k Hk])].
  - left. rewrite app_nil_r in Hf. by apply found_settled.
  - right. exists r. split; [done|]. eapply found_tearing; [rewrite Hk| |exact Hf].
    + exists (k ++ [newline]). by rewrite (assoc app).
    + apply Forall_forall. intros q (r' & -> & _)%list_elem_of_fmap. apply Hline.
Qed.
Lemma open_consensus_triple vls crs tv tc :
  etriple (opening vls crs tv tc) open_consensus (fun _ => up_ok)
    (fun e s => down_ok s /\ open_stop (negb (bool_decide (tc = []))) e).
Proof.
  unfold open_consensus.
  set (X := fun e s => down_ok s /\ open_stop (negb (bool_decide (tc = []))) e).
  set (V := fun s => core vls crs s /\ good (map lock_to_vec vls) (nd_votes s) /\ nd_sent s = None /\
    roster_ok local_peer_id (nd_roster s) /\ proposals_ok (nd_proposals s)).
  set (C := fun s => left_file (map receipt_to_vec crs) tc (nd_commits s) /\
    leftover receipt_to_vec receipts_valid crs tc).
  eapply (etriple_bind _ _ _ (fun m s => m = locks_of vls /\ V s /\ C s)).
  { apply etriple_zoom. intros s [Co Hv Hc Hvt Hct Hs Hr Hp].
    eapply etriple_conseq; [apply (load_votes_triple _ vls tv (co_votes _ _ _ _ _ Co) Hvt)| | |].
    - intros g ->. exact Hv.
    - intros m g [-> Hg]. split_and!; try done. split_and!; try done. by eapply core_same.
    - intros e g [Hd He]. split; [|by left]. exists vls, crs. split_and!; [by eapply core_same|done|].
      eapply left_disk; [apply receipt_line|done..]. }
  intros m. apply etriple_pure. intros ->.
  eapply (etriple_bind _ _ _ (fun _ s => (V s /\ C s) /\ nd_locks s = locks_of vls)).
  { apply etriple_update. intros s [(V1 & V2 & V3 & V4 & V5) Hc]. split; [|done]. split; [|done].
    split_and!; try done; by eapply core_same. }
  intros ?. eapply (etriple_bind _ _ _ (fun rn s => rn = (receipts_of crs, zlen crs) /\ (V s /\ nd_locks s = locks_of vls) /\
    good (map receipt_to_vec crs) (nd_commits s))).
  { apply etriple_zoom. intros s [[(V1 & V2 & V3 & V4 & V5) [Hc Hct]] Hl].
    eapply etriple_conseq; [apply (load_receipts_triple crs tc (co_receipts _ _ _ _ _ V1) Hct)| | |].
    - intros g ->. exact Hc.
    - intros rn g [-> Hg]. split; [done|]. split; [|done]. split; [|done]. split_and!; try done; by eapply core_same.
    - intros e g [Hd He]. split; [|by right]. exists vls, crs. split_and!; [by eapply core_same|by left; apply V2|done]. }
  intros [receipts n]. apply etriple_pure. intros [= -> ->].
  eapply (etriple_bind _ _ _ (fun _ => up_ok)).
  { apply etriple_update. intros s [[(V1 & V2 & V3 & V4 & V5) Hl] Hg]. exists vls, crs.
    split; cbn; try done; [by eapply core_same|by left|by left|by left]. }
  intros ?. eapply etriple_conseq; [apply recover_triple|done|done|].
  intros e s [Hs He]. split.
  - destruct e; [done|]. destruct Hs as (v & c & U). exists v, c. by apply up_down.
  - right. destruct e; [done|]. by left.
Qed.
End Open.
