(* ===== verification/ConsensusRuns.v ===== *)
(** * Runs of a node, through crashes

    A node runs calls of its clients in any order, with any answers of the system; the
    machine may stop at any time and come up with whatever the files may hold then. The
    invariant of [ConsensusSafety.v] holds of every state a node reaches. *)
From S2P Require Export ConsensusOpen.
Local Open Scope Z_scope.

Section Runs.
Context `{RosterCrates} {L : ConsensusCratesLaws}.
Variable local_peer_id : string.
Variable signing_key : SigningKey.
Variable storage_schema_version : Z.
Notation core := (core local_peer_id signing_key).
Notation up := (up local_peer_id signing_key).
Notation up_ok := (up_ok local_peer_id signing_key).
Notation down := (down local_peer_id signing_key).
Notation down_ok := (down_ok local_peer_id signing_key).
Notation stops := (stops local_peer_id signing_key).
Notation up_some := (up_some local_peer_id signing_key).

(** ** Steps *)

Inductive call :=
| CallPropose (legacy_impact : bool) (event : Event) (proposal_id : string) (e : SignedEvent)
| CallImport (p : ConsensusProposal)
| CallExport (proposal_id : string)
| CallSign (proposal_id : string) (approve : bool)
| CallSubmit (proposal_id peer_id : string) (approve : bool) (signature : list byte).
Definition run_call (c : call) : EM node unit :=
  match c with
  | CallPropose legacy ev id e => propose_consensus storage_schema_version legacy ev id e ;; mret tt
  | CallImport p => accept_consensus_proposal local_peer_id signing_key storage_schema_version p
  | CallExport id => export_consensus_proposal id ;; mret tt
  | CallSign id a => sign_vote local_peer_id signing_key storage_schema_version id a ;; mret tt
  | CallSubmit id peer a sig =>
      submit_vote local_peer_id signing_key storage_schema_version id peer a sig ;; mret tt
  end.
(** The identifier [Uuid::new_v4] makes *)
Definition call_ok (c : call) : Prop :=
  match c with CallPropose _ _ id _ => id_ok id | _ => True end.

(** What the rest of the process does to the state between calls: the answers to come,
    time, events other writers append, a failure that asks for recovery, changes of the
    public map of proposals, and folds of the journal, which take no frame of a receipt
    that is still pending. *)
Definition set_answers (reps vreps creps : list reply) (s : node) : node :=
  set_replies reps
    (set_votes {| lg_replies := vreps; lg_file := lg_file (nd_votes s); lg_poisoned := lg_poisoned (nd_votes s) |}
      (set_commits {| lg_replies := creps; lg_file := lg_file (nd_commits s);
                      lg_poisoned := lg_poisoned (nd_commits s) |} s)).
Inductive outside (s : node) : node -> Prop :=
| out_answers reps vreps creps : outside s (set_answers reps vreps creps s)
| out_proposals m act : (forall k, is_Some (m !! k) -> is_Some (nd_proposals s !! k)) ->
    outside s (set_proposals m act s)
| out_recovery : outside s (set_recovery_required s)
| out_append k : outside s (set_journal (nd_journal s ++ k) (nd_sent s) (nd_done s) s)
| out_fold j :
    (forall tag, tag ∈ nd_done s -> frame_found j (ct_digest tag) = true \/
       exists r, nd_receipts s !! ct_proposal tag = Some r /\ cr_committed r = true) ->
    outside s (set_journal j (nd_sent s) (nd_done s) s).

(** The rosters a node opens with *)
Definition roster_made (ro : roster) : Prop :=
  ro = no_roster \/
  exists peers addr master,
    configure_peer_membership local_peer_id (verifying_key signing_key) peers addr master = Ok ro.
(** The machine comes up: the ledgers as they were left, the journal with or without the
    event whose fate was not known, and nothing in memory. *)
Definition restarted (s : node) (vote_left commit_left : option (list byte)) (taken : bool)
  (ro : roster) (reps vreps creps : list reply) (now : Z) : node :=
  let '(journal, done_) :=
    match nd_sent s with
    | Some (e, tag) => if taken then (nd_journal s ++ [e], nd_done s ++ [tag]) else (nd_journal s, nd_done s)
    | None => (nd_journal s, nd_done s)
    end in
  {| nd_replies := reps;
     nd_votes := {| lg_replies := vreps; lg_file := lf_found vote_left; lg_poisoned := false |};
     nd_commits := {| lg_replies := creps; lg_file := lf_found commit_left; lg_poisoned := false |};
     nd_locks := ∅; nd_receipts := ∅; nd_records := 0; nd_roster := ro; nd_proposals := ∅;
     nd_activity := ∅; nd_now := now; nd_recovery_required := false; nd_journal := journal;
     nd_sent := None; nd_seen := nd_seen s; nd_acked := nd_acked s; nd_done := done_ |}.

Inductive state := Up (s : node) | Down (s : node).
Inductive step : state -> state -> Prop :=
| step_call c s r s' : call_ok c -> run_call c s = (r, s') ->
    step (Up s) (match r with Err Crash => Down s' | _ => Up s' end)
| step_outside s s' : outside s s' -> step (Up s) (Up s')
| step_stop s : step (Up s) (Down s)
| step_open s vote_left commit_left taken ro reps vreps creps now r s' :
    crash_leaves (lg_file (nd_votes s)) vote_left -> crash_leaves (lg_file (nd_commits s)) commit_left ->
    roster_made ro ->
    open_consensus (restarted s vote_left commit_left taken ro reps vreps creps now) = (r, s') ->
    step (Down s) (match r with Ok _ => Up s' | Err _ => Down s' end).
(** A node that never ran *)
Definition fresh : node :=
  {| nd_replies := []; nd_votes := {| lg_replies := []; lg_file := no_file; lg_poisoned := false |};
     nd_commits := {| lg_replies := []; lg_file := no_file; lg_poisoned := false |};
     nd_locks := ∅; nd_receipts := ∅; nd_records := 0; nd_roster := no_roster; nd_proposals := ∅;
     nd_activity := ∅; nd_now := 0; nd_recovery_required := false; nd_journal := []; nd_sent := None;
     nd_seen := []; nd_acked := []; nd_done := [] |}.
Definition node_of (x : state) : node := match x with Up s | Down s => s end.
Inductive reachable : state -> Prop :=
| reach_fresh : reachable (Down fresh)
| reach_step x y : reachable x -> step x y -> reachable y.
Definition invariant (x : state) : Prop := match x with Up s => up_ok s | Down s => down_ok s end.

(** ** The roster *)

Lemma derived_peer_id_nonempty key : derived_peer_id key <> ""%string.
Proof.
  unfold derived_peer_id. intros He. apply (f_equal str_bytes) in He. rewrite str_bytes_of in He.
  apply (f_equal length) in He. rewrite length_take, length_hex_encode, length_sha256 in He. cbn in He. lia.
Qed.
Record parsed_ok (st : parsing) : Prop := {
  pk_ids : pa_ids st = rev (map (fun p => ap_peer_id p.1.1) (pa_parsed st));
  pk_nodup : NoDup (pa_ids st);
  pk_names : Forall (fun id => id <> ""%string /\ id <> local_peer_id) (pa_ids st);
}.
Lemma parse_peer_ok st peer st' : parse_peer local_peer_id st peer = Ok st' -> parsed_ok st ->
  parsed_ok st' /\ length (pa_parsed st') = S (length (pa_parsed st)).
Proof.
  unfold parse_peer, membership_invalid. intros Hp [E1 E2 E3].
  destruct (hex_decode _) as [raw|]; [|done]. destruct (negb _); [done|].
  destruct (key_from_bytes raw) as [key|]; [|done].
  destruct (negb _ || _) eqn:Hid; [done|]. apply orb_false_iff in Hid as [Hid Hl].
  apply negb_false_iff, bool_decide_eq_true in Hid. apply bool_decide_eq_false in Hl.
  destruct (bool_decide (_ ∈ _)) eqn:Hn; [done|]. apply bool_decide_eq_false in Hn.
  destruct (parse_socket_addr _) as [addr|]; [|done]. destruct (_ || _); [done|].
  injection Hp as <-. split; [split; cbn|cbn; rewrite length_app; cbn; lia].
  - by rewrite map_app, rev_app_distr, E1.
  - by constructor.
  - constructor; [|done]. split; [rewrite Hid; apply derived_peer_id_nonempty|done].
Qed.
Lemma parse_peers_ok peers st st' : try_for (parse_peer local_peer_id) st peers = Ok st' -> parsed_ok st ->
  parsed_ok st' /\ length (pa_parsed st') = (length (pa_parsed st) + length peers)%nat.
Proof.
  revert st; induction peers as [|peer peers IH]; intros st; cbn [try_for].
  - intros [= <-] Hs. split; [done|]. cbn. lia.
  - intros (st1 & H1 & H2)%bind_Ok Hs. destruct (parse_peer_ok _ _ _ H1 Hs) as [Hs1 Hl1].
    destruct (IH _ H2 Hs1) as [Hs' Hl']. split; [done|]. cbn. lia.
Qed.
Lemma members_dom ps : dom (foldl insert_member ∅ ps) = list_to_set (map (fun p => ap_peer_id p.1.1) ps) :> gset string.
Proof.
  induction ps as [|p ps IH] using rev_ind; [done|].
  rewrite foldl_app. cbn [foldl]. unfold insert_member at 1. rewrite dom_insert_L, IH, map_app, list_to_set_app_L.
  cbn. set_solver.
Qed.
(** A configured roster: one member for every peer, none of them this node *)
Lemma configure_ok key peers addr master ro :
  configure_peer_membership local_peer_id key peers addr master = Ok ro ->
  size (ro_members ro) = length peers /\ ro_members ro !! local_peer_id = None /\
  ro_members ro !! ""%string = None /\ is_Some (hex_decode (ro_digest ro)).
Proof.
  unfold configure_peer_membership, membership_invalid. destruct (_ <? _); [done|].
  destruct (parse_socket_addr addr) as [bind_addr|]; [|done]. destruct (_ =? _); [done|].
  intros (st & Hst & [= <-])%bind_Ok. cbn [ro_members ro_digest].
  apply parse_peers_ok in Hst as [[E1 E2 E3] Hl]; [|split; cbn; [done|constructor|constructor]].
  set (ids := map (fun p => ap_peer_id p.1.1) (pa_parsed st)) in *.
  assert (forall k, k ∉ ids -> foldl insert_member ∅ (pa_parsed st) !! k = None) as Hnone.
  { intros k Hk. apply not_elem_of_dom. rewrite members_dom, elem_of_list_to_set. done. }
  assert (Forall (fun id => id <> ""%string /\ id <> local_peer_id) ids) as Hall.
  { rewrite E1 in E3. rewrite <- (rev_involutive ids). by apply Forall_rev. }
  rewrite Forall_forall in Hall. split_and!.
  - rewrite <- size_dom, members_dom. fold ids. rewrite size_list_to_set.
    + unfold ids. rewrite length_map, Hl. done.
    + rewrite E1 in E2. rewrite <- (rev_involutive ids). apply NoDup_ListNoDup, NoDup_rev. by apply NoDup_ListNoDup.
  - apply Hnone. intros Hk. by apply Hall in Hk as [_ ?].
  - apply Hnone. intros Hk. by apply Hall in Hk as [? _].
  - by rewrite hex_decode_encode.
Qed.
Lemma roster_made_ok ro : roster_made ro -> roster_ok local_peer_id ro.
Proof.
  intros [->|(peers & addr & master & Hc)].
  - unfold roster_ok. cbn. by rewrite hex_decode_nil.
  - apply configure_ok in Hc as (_ & H1 & H2 & H3). by split_and!.
Qed.

(** ** The invariant *)

Lemma fresh_down : down_ok fresh.
Proof.
  exists [], []. split_and!; [split|left; by split|left; by split]; cbn; try done.
  - split; [|constructor]. split; cbn; (constructor || done).
  - split; cbn; try done; intros pre r post Heq. by destruct pre.
  - constructor.
  - intros tag [Ht|[e Ht]]; [by apply elem_of_nil in Ht|done].
Qed.
Lemma outside_keeps s s' : outside s s' -> up_ok s -> up_ok s'.
Proof.
  intros Ho (vls & crs & U). exists vls, crs. pose proof U as [[C1 C2 C3 C4 C5 C6 C7] U2 U3 U4 U5 U6 U7 U8 U9].
  destruct Ho as [reps vreps creps|m act Hm| |k|j Hj].
  - split; cbn; try done.
  - eapply up_ext; try done. cbn. intros k p Hp. destruct (Hm k) as [p' Hp']; [by eexists|]. by eapply U9.
  - by apply set_recovery_up.
  - split; try done. split; try done. cbn. eapply Forall_impl; [exact C5|].
    intros tag (r & Hr & [Hc|Hf]); exists r; split; auto. right. by apply frame_found_app.
  - split; try done. split; try done. cbn. rewrite Forall_forall in C5 |- *. intros tag Ht.
    destruct (C5 tag Ht) as (r & Hr & _). exists r. split; [done|].
    destruct (Hj tag Ht) as [Hf|(r' & Hr' & Hc)]; [by right|left].
    rewrite U5 in Hr'. destruct Hr as [Hr _]. congruence.
Qed.
Lemma ends_ok {A} (m : EM node A) : etriple up_ok m (fun _ => up_ok) stops ->
  etriple up_ok (m ;; mret tt) (fun _ => up_ok) stops.
Proof. intros Hm. eapply etriple_bind; [exact Hm|]. intros ?. by apply etriple_ret. Qed.
Lemma run_call_triple c : local_peer_id <> ""%string -> call_ok c ->
  etriple up_ok (run_call c) (fun _ => up_ok) stops.
Proof.
  intros Hlocal Hc. destruct c; cbn [run_call]; try apply ends_ok.
  - by apply propose_triple.
  - by apply accept_triple.
  - apply export_triple.
  - by apply sign_vote_triple.
  - by apply submit_vote_triple.
Qed.
(** What opening starts from, after a crash *)
Lemma restarted_opening s vote_left commit_left taken ro reps vreps creps now : down_ok s ->
  crash_leaves (lg_file (nd_votes s)) vote_left -> crash_leaves (lg_file (nd_commits s)) commit_left ->
  roster_made ro ->
  exists vls crs tv tc, opening local_peer_id signing_key vls crs tv tc
    (restarted s vote_left commit_left taken ro reps vreps creps now) /\
    default [] commit_left = encode_lines (map receipt_to_vec crs) ++ tc.
Proof.
  intros (vls & crs & C & Hv & Hc) Hvl Hcl Hro.
  destruct (crash_records lock_to_vec _ lock_line _ _ _ (co_votes _ _ _ _ _ C) Hv Hvl) as (vls' & tv & Hvls & Hvv & Hvt & Hvb).
  destruct (crash_records receipt_to_vec _ receipt_line _ _ _ (co_receipts _ _ _ _ _ C) Hc Hcl) as (crs' & tc & Hcrs & Hcv & Hct & Hcb).
  exists vls', crs', tv, tc. split; [|done].
  assert (core vls' crs s) as C' by (destruct Hvls as [->|[l ->]]; [done|by apply core_vote]).
  assert (core vls' crs' s) as C'' by (destruct Hcrs as [->|[r ->]]; [done|by eapply core_receipt]).
  assert (nd_seen (restarted s vote_left commit_left taken ro reps vreps creps now) = nd_seen s /\
    nd_votes (restarted s vote_left commit_left taken ro reps vreps creps now) =
      {| lg_replies := vreps; lg_file := lf_found vote_left; lg_poisoned := false |} /\
    nd_commits (restarted s vote_left commit_left taken ro reps vreps creps now) =
      {| lg_replies := creps; lg_file := lf_found commit_left; lg_poisoned := false |} /\
    nd_sent (restarted s vote_left commit_left taken ro reps vreps creps now) = None /\
    nd_roster (restarted s vote_left commit_left taken ro reps vreps creps now) = ro /\
    nd_proposals (restarted s vote_left commit_left taken ro reps vreps creps now) = ∅) as (E1 & E2 & E3 & E4 & E5 & E6)
    by (unfold restarted; destruct (nd_sent s) as [[]|], taken; done).
  split; rewrite ?E1, ?E2, ?E3, ?E4, ?E5, ?E6; try done.
  - unfold restarted. destruct (nd_sent s) as [[e tag]|] eqn:Hsent.
    + destruct taken.
      * eapply core_same; [by eapply core_taken|done..].
      * eapply core_same; [by apply core_dropped|done..].
    + eapply core_same; try done.
  - split; [|done]. cbn [lg_file]. rewrite <- Hvb. apply lf_found_found.
  - split; [|done]. cbn [lg_file]. rewrite <- Hcb. apply lf_found_found.
  - by apply roster_made_ok.
Qed.
Lemma step_keeps x y : local_peer_id <> ""%string -> step x y -> invariant x -> invariant y.
Proof.
  intros Hlocal [c s r s' Hc Hs|s s' Ho|s|s vl cl taken ro reps vreps creps now r s' Hvl Hcl Hro Hs] Hi.
  - pose proof (run_call_triple c Hlocal Hc s Hi) as Ht. rewrite Hs in Ht. by destruct r as [?|[|?]].
  - by eapply outside_keeps.
  - destruct Hi as (vls & crs & U). exists vls, crs. by apply up_down.
  - destruct (restarted_opening s vl cl taken ro reps vreps creps now Hi Hvl Hcl Hro) as (vls & crs & tv & tc & Hop & _).
    pose proof (open_consensus_triple local_peer_id signing_key vls crs tv tc _ Hop) as Ht. rewrite Hs in Ht.
    destruct r; [done|]. apply Ht.
Qed.
Lemma reachable_invariant x : local_peer_id <> ""%string -> reachable x -> invariant x.
Proof. intros Hlocal. induction 1; [apply fresh_down|by eapply step_keeps]. Qed.
Lemma reachable_core x : local_peer_id <> ""%string -> reachable x ->
  exists vls crs, core vls crs (node_of x).
Proof.
  intros Hlocal Hx. apply reachable_invariant in Hx; [|done].
  destruct x; destruct Hx as (vls & crs & HU); exists vls, crs; apply HU.
Qed.
End Runs.
