(* ===== verification/ConsensusSample.v ===== *)
(** * A cluster to try consensus on

    Concrete crates that satisfy what the development relies on, small enough to run: two
    letters for a byte in the place of hex, a codec of records as lines of such fields, a
    digest and signatures that are a polynomial of their input. On them, a cluster of two
    nodes that commits a proposal. *)
From S2P Require Export ConsensusRuns.
Local Open Scope Z_scope.

(** ** Letters for bytes *)

(** Two letters from [@] to [O] for a byte *)
Definition letters (b : byte) : list byte :=
  match b with
  | Ascii.Ascii b0 b1 b2 b3 b4 b5 b6 b7 =>
      [Ascii.Ascii b0 b1 b2 b3 false false true false; Ascii.Ascii b4 b5 b6 b7 false false true false]
  end.
Definition hex_bytes (bs : list byte) : list byte := concat (map letters bs).
Fixpoint unhex (l : list byte) : option (list byte) :=
  match l with
  | [] => Some []
  | Ascii.Ascii b0 b1 b2 b3 false false true false :: Ascii.Ascii b4 b5 b6 b7 false false true false :: l' =>
      match unhex l' with
      | Some bs => Some (Ascii.Ascii b0 b1 b2 b3 b4 b5 b6 b7 :: bs)
      | None => None
      end
  | _ => None
  end.
Lemma unhex_hex bs : unhex (hex_bytes bs) = Some bs.
Proof.
  induction bs as [|b bs IH]; [done|]. unfold hex_bytes in *. destruct b. cbn [map concat letters app unhex].
  by rewrite IH.
Qed.
Lemma length_hex_bytes bs : length (hex_bytes bs) = (2 * length bs)%nat.
Proof.
  induction bs as [|b bs IH]; [done|]. unfold hex_bytes in *. cbn [map concat].
  rewrite length_app, IH. destruct b. cbn. lia.
Qed.
Lemma hex_letter bs b : b ∈ hex_bytes bs -> exists b0 b1 b2 b3, b = Ascii.Ascii b0 b1 b2 b3 false false true false.
Proof.
  intros (l & Hl & Hb)%list_elem_of_In%in_concat. apply in_map_iff in Hl as ([] & <- & _).
  destruct Hb as [<-|[<-|[]]]; eauto.
Qed.
Lemma hex_no_newline bs : newline ∉ hex_bytes bs.
Proof. by intros (? & ? & ? & ? & ?)%hex_letter. Qed.
Lemma hex_no_colon bs : byte_of 58 ∉ hex_bytes bs.
Proof. by intros (? & ? & ? & ? & ?)%hex_letter. Qed.

(** ** Records as lines of fields *)

Fixpoint fields_line (fs : list (list byte)) : list byte :=
  match fs with
  | [] => []
  | f :: fs' => hex_bytes f ++ byte_of 58 :: fields_line fs'
  end.
Fixpoint unhex_all (ls : list (list byte)) : option (list (list byte)) :=
  match ls with
  | [] => Some []
  | l :: ls' => f ← unhex l; fs ← unhex_all ls'; Some (f :: fs)
  end.
Definition line_fields (line : list byte) : option (list (list byte)) :=
  unhex_all (split_bytes (byte_of 58) line).
Lemma line_fields_line fs : line_fields (fields_line fs) = Some (fs ++ [[]]).
Proof.
  induction fs as [|f fs IH]; [done|]. unfold line_fields in *. cbn [fields_line].
  rewrite split_bytes_app by apply hex_no_colon. cbn [unhex_all]. rewrite unhex_hex, IH. done.
Qed.
Lemma fields_line_ok f fs : line_ok (fields_line (f :: fs)).
Proof.
  split; [by destruct f as [|[] f]|].
  induction (f :: fs) as [|g gs IH]; [by apply not_elem_of_nil|]. cbn [fields_line].
  rewrite elem_of_app, elem_of_cons. intros [Hn|[Hn|Hn]]; [by apply hex_no_newline in Hn|done|done].
Qed.
Definition flag (b : bool) : list byte := [byte_of (Z.b2z b)].
Definition lock_line_of (l : ConsensusVoteLock) : list byte :=
  fields_line [str_bytes (vl_proposal_id l); str_bytes (vl_peer_id l); str_bytes (vl_roster_digest l);
    str_bytes (vl_proposal_digest l); flag (vl_approve l); vl_signature l].
Definition lock_of_line (line : list byte) : option ConsensusVoteLock :=
  match line_fields line with
  | Some [id; peer; ro; d; a; sig; []] =>
      Some {| vl_proposal_id := str_of_bytes id; vl_peer_id := str_of_bytes peer; vl_roster_digest := str_of_bytes ro;
              vl_proposal_digest := str_of_bytes d; vl_approve := bool_decide (a = flag true); vl_signature := sig |}
  | _ => None
  end.
Definition receipt_line_of (r : ConsensusCommitReceipt) : list byte :=
  fields_line [str_bytes (cr_proposal_id r); str_bytes (cr_proposal_digest r); flag (cr_committed r)].
Definition receipt_of_line (line : list byte) : option ConsensusCommitReceipt :=
  match line_fields line with
  | Some [id; d; c; []] =>
      Some {| cr_proposal_id := str_of_bytes id; cr_proposal_digest := str_of_bytes d;
              cr_committed := bool_decide (c = flag true) |}
  | _ => None
  end.

Lemma hex_roundtrip b : unhex (str_bytes (str_of_bytes (hex_bytes b))) = Some b.
Proof. by rewrite str_bytes_of, unhex_hex. Qed.
Lemma hex_length b : length (str_bytes (str_of_bytes (hex_bytes b))) = (2 * length b)%nat.
Proof. by rewrite str_bytes_of, length_hex_bytes. Qed.
Lemma lock_roundtrip l : lock_of_line (lock_line_of l) = Some l.
Proof.
  destruct l as [id peer ro d a sig]. unfold lock_of_line, lock_line_of. rewrite line_fields_line. cbn [app].
  cbn. rewrite !str_of_bytes_of. by destruct a.
Qed.
Lemma receipt_roundtrip r : receipt_of_line (receipt_line_of r) = Some r.
Proof.
  destruct r as [id d c]. unfold receipt_of_line, receipt_line_of. rewrite line_fields_line. cbn [app].
  cbn. rewrite !str_of_bytes_of. by destruct c.
Qed.
Lemma receipt_lengths id digest :
  zlen (receipt_line_of {| cr_proposal_id := id; cr_proposal_digest := digest; cr_committed := true |}) <=
  zlen (receipt_line_of {| cr_proposal_id := id; cr_proposal_digest := digest; cr_committed := false |}).
Proof.
  unfold receipt_line_of. cbn [fields_line cr_proposal_id cr_proposal_digest cr_committed].
  unfold zlen. rewrite !length_app. cbn [length]. rewrite !length_app. cbn [length].
  rewrite !length_app, !length_hex_bytes. cbn [length flag]. lia.
Qed.

(** ** The crates *)

Definition polynomial (l : list byte) : Z :=
  foldl (fun acc b => (acc * 33 + byte_val b + 1) mod 2 ^ 32) 0 l.
Definition tagged (n : Z) (c : list byte) : option (list byte) := Some (byte_of n :: c).
Definition event_bytes (e : Event) : option (list byte) :=
  match e with
  | EvCollectionDefinition c => tagged 1 c
  | EvCollectionMaterialization c => tagged 2 c
  | EvVectorMaterialized c => tagged 3 c
  | EvNode c => tagged 4 c
  | EvEdge c => tagged 5 c
  | EvBatch events => tagged 6 []
  | EvVector c => tagged 7 c
  | EvRelationalSchema c => tagged 8 c
  | EvRelationalRows c => tagged 9 c
  | EvTransaction t => tagged 10 (str_bytes (tx_transaction_id t) ++ tx_rest t)
  | EvNodeRetract c => tagged 11 c
  | EvGenerationPublished c => tagged 12 c
  | EvAccessPolicyChanged c => tagged 13 c
  | EvSchema6MigrationChunkV1 c => tagged 14 c
  | EvSchema6MigrationCommitV1 c => tagged 15 c
  | EvSchema6ActivationV1 c => tagged 16 c
  end.
Definition poly_sign (k : Z) (m : list byte) : list byte := le_bytes 64 (polynomial (be_bytes 8 k ++ m)).
#[export] Instance sample_crates : ConsensusCrates := {|
  VerifyingKey := Z; SigningKey := Z; verifying_key := fun k => k;
  sign := poly_sign;
  verify := fun k m s => bool_decide (s = poly_sign k m);
  sha256 := fun m => le_bytes 32 (polynomial m);
  hex_encode := fun b => str_of_bytes (hex_bytes b);
  hex_decode := fun s => unhex (str_bytes s);
  event_to_vec := event_bytes;
  lock_to_vec := lock_line_of; lock_from_slice := lock_of_line;
  receipt_to_vec := receipt_line_of; receipt_from_slice := receipt_of_line;
|}.
#[export] Instance sample_laws : ConsensusCratesLaws.
Proof.
  split.
  - intros k m. by apply bool_decide_eq_true.
  - intros k m. apply (length_le_bytes 64).
  - intros m. apply (length_le_bytes 32).
  - apply hex_roundtrip.
  - done.
  - apply hex_length.
  - apply lock_roundtrip.
  - intros l. apply fields_line_ok.
  - apply receipt_roundtrip.
  - intros r. apply fields_line_ok.
  - apply receipt_lengths.
Qed.
#[export] Instance sample_roster : RosterCrates := {|
  key_from_bytes := fun b => Some (be_val b);
  key_as_bytes := be_bytes 32;
  parse_socket_addr := fun s => Some (s, 7001);
  roster_to_vec := fun l => concat (map (fun e => str_bytes e.1.1 ++ str_bytes e.1.2 ++ flag e.2) l);
|}.

(** ** Runs *)

Section Running.
Variable local_peer_id : string.
Variable signing_key : SigningKey.
Variable storage_schema_version : Z.
Notation reachable := (reachable local_peer_id signing_key storage_schema_version).

(** The calls one after the other; nothing when the machine stops *)
Fixpoint run_calls (cs : list call) (s : node) : option node :=
  match cs with
  | [] => Some s
  | c :: cs' =>
      match run_call local_peer_id signing_key storage_schema_version c s with
      | (Err Crash, _) => None
      | (_, s') => run_calls cs' s'
      end
  end.
Lemma run_calls_reachable cs s s' : reachable (Up s) -> Forall call_ok cs -> run_calls cs s = Some s' ->
  reachable (Up s').
Proof.
  intros Hs Hcs. revert s Hs. induction Hcs as [|c cs Hc _ IH]; intros s Hs; cbn [run_calls].
  - by intros [= <-].
  - destruct (run_call _ _ _ c s) as [r t] eqn:Hr. pose proof (step_call _ _ storage_schema_version c s r t Hc Hr) as Hstep.
    destruct r as [?|[|?]]; [|done|]; apply IH; by eapply reach_step.
Qed.
(** A node opened, on answers that are all [Done] *)
Definition answers (n : nat) : list reply := replicate n Done.
Definition opened (ro : roster) (s : node) : option node :=
  match open_consensus (restarted s None None false ro (answers 60) (answers 60) (answers 60) 0) with
  | (Ok _, s') => Some s'
  | _ => None
  end.
Lemma opened_reachable ro s' : roster_made local_peer_id signing_key ro -> opened ro fresh = Some s' ->
  reachable (Up s').
Proof.
  unfold opened. intros Hro. destruct (open_consensus _) as [r t] eqn:E. intros Hs.
  pose proof (step_open local_peer_id signing_key storage_schema_version fresh None None false ro _ _ _ _ r t
    (or_introl eq_refl) (or_introl eq_refl) Hro E) as Hstep.
  destruct r; [|done]. injection Hs as <-. eapply reach_step; [apply reach_fresh|exact Hstep].
Qed.
End Running.

(** ** The cluster *)

Definition peer (k : Z) : string := derived_peer_id k.
Definition peer_config (k : Z) (addr : string) : AuthorizedPeerConfig :=
  {| ap_peer_id := peer k; ap_public_key_hex := hex_encode (be_bytes 32 k); ap_gossip_addr := addr;
     ap_master_authority := true |}.
Definition roster_of (k other : Z) : result string roster :=
  configure_peer_membership (peer k) k [peer_config other "other"%string] "local"%string true.
Definition sample_event : SignedEvent :=
  {| se_event := EvRelationalSchema (str_bytes "table"); se_signature := be_bytes 64 1; se_signer_peer_id := peer 1 |}.
Definition sample_proposal (e : SignedEvent) : ConsensusProposal :=
  {| cp_proposal_id := "p"; cp_signed_event := e; cp_votes := ∅; cp_quorum_signatures := ∅; cp_committed := false |}.
(** The signature [k] makes on its ballot *)
Definition ballot_signature (ro : roster) (k : Z) (e : SignedEvent) (approve : bool) : list byte :=
  match consensus_proposal_digest e with
  | Ok d => sign k (vote_payload "p" (peer k) approve d (ro_digest ro))
  | Err _ => []
  end.
(** A node that imports the proposal, votes for it and gets the other's ballot *)
Definition votes_for (ro : roster) (other : Z) (e : SignedEvent) : list call :=
  [CallImport (sample_proposal e); CallSign "p" true; CallSign "p" true;
   CallSubmit "p" (peer other) true (ballot_signature ro other e true)].
Definition sample_node (k other : Z) : option node :=
  match roster_of k other with
  | Ok ro => s ← opened ro fresh; run_calls (peer k) k 5 (votes_for ro other sample_event) s
  | Err _ => None
  end.
Definition node_or_fresh (s : option node) : node := default fresh s.
