(* ===== verification/ConsensusAgreement.v ===== *)
(** * What consensus promises

    Of a node, through any crashes: it acknowledges one ballot of a peer for a proposal,
    and gives the event of a proposal to its journal once. Of the nodes of a cluster: no
    two of them commit different events for a proposal. *)
From S2P Require Export ConsensusSample.
Local Open Scope Z_scope.

(** ** Quorums meet *)

Lemma majorities_meet (peers : gset string) (ps qs : list string) : NoDup ps -> NoDup qs ->
  Forall (fun p => p ∈ peers) ps -> Forall (fun p => p ∈ peers) qs ->
  Z.of_nat (size peers) / 2 < zlen ps -> Z.of_nat (size peers) / 2 < zlen qs ->
  exists p, p ∈ ps /\ p ∈ qs.
Proof.
  intros Hp Hq Hps Hqs Hn Hm. set (A := list_to_set ps : gset string). set (B := list_to_set qs : gset string).
  destruct (decide (A ## B)) as [Hd|Hd].
  - exfalso. assert (A ∪ B ⊆ peers) as Hs.
    { rewrite Forall_forall in Hps, Hqs. intros p [Hi|Hi]%elem_of_union; apply elem_of_list_to_set in Hi; auto. }
    apply subseteq_size in Hs. rewrite size_union in Hs by done. unfold A, B in Hs.
    rewrite !size_list_to_set in Hs by done. unfold zlen in *.
    pose proof (Z.div_mod (Z.of_nat (size peers)) 2). pose proof (Z.mod_pos_bound (Z.of_nat (size peers)) 2). lia.
  - assert (A ∩ B ≢ ∅) as Hne by (intros He; by apply Hd, disjoint_intersection).
    apply set_choose in Hne as [p Hi]. exists p. set_solver.
Qed.

Section Node.
Context `{RosterCrates} {L : ConsensusCratesLaws}.
Variable local_peer_id : string.
Variable signing_key : SigningKey.
Variable storage_schema_version : Z.
Hypothesis Hlocal : local_peer_id <> ""%string.
Notation reachable := (reachable local_peer_id signing_key storage_schema_version).
Notation core := (core local_peer_id signing_key).

Lemma keys_unique vls l l' : votes_valid vls -> l ∈ vls -> l' ∈ vls -> key_of l = key_of l' -> l = l'.
Proof.
  intros [Hd _ _ _] Hl Hl' He.
  assert (locks_of vls !! key_of l = Some l) as H1 by by apply locks_of_lookup.
  assert (locks_of vls !! key_of l = Some l') as H2 by (rewrite He; by apply locks_of_lookup).
  congruence.
Qed.
Lemma acked_unique x l l' : reachable x -> l ∈ nd_acked (node_of x) -> l' ∈ nd_acked (node_of x) ->
  key_of l = key_of l' -> l = l'.
Proof.
  intros Hx Hl Hl'. destruct (reachable_core _ _ _ x Hlocal Hx) as (vls & crs & C).
  pose proof (co_acked _ _ _ _ _ C) as Ha. rewrite Forall_forall in Ha.
  apply (keys_unique vls); auto. apply C.
Qed.
End Node.

(** ** A cluster *)

Section Cluster.
Context `{RosterCrates} {L : ConsensusCratesLaws}.
(** The peers, and the state, the key and the schema of each one's node *)
Context (peers : gset string) (nodes : string -> state) (keys : string -> SigningKey) (schemas : string -> Z).
Hypothesis Hnames : ""%string ∉ peers.
Hypothesis Hreach : forall p, p ∈ peers -> reachable p (keys p) (schemas p) (nodes p).
Notation node_at p := (node_of (nodes p)).

(** The roster of [p] is that of the cluster. *)
Definition configured (p : string) (ro : roster) : Prop :=
  dom (ro_members ro) = peers ∖ {[p]} /\
  forall q m, ro_members ro !! q = Some m -> am_verifying_key m = verifying_key (keys q).
(** A signature of a peer on a ballot is one its node acknowledged that ballot with. *)
Definition unforged : Prop := forall p q l d, p ∈ peers -> q ∈ peers -> q <> p ->
  l ∈ nd_seen (node_at p) -> vl_peer_id l = q -> hex_encode d = vl_proposal_digest l ->
  verify (verifying_key (keys q))
    (vote_payload (vl_proposal_id l) q (vl_approve l) d (vl_roster_digest l)) (vl_signature l) = true ->
  exists l', l' ∈ nd_acked (node_at q) /\ key_of l' = key_of l /\
             vl_proposal_digest l' = vl_proposal_digest l /\ vl_approve l' = vl_approve l.
Hypothesis Hunforged : unforged.

Lemma configured_count p ro : p ∈ peers -> configured p ro -> member_count ro = Z.of_nat (size peers).
Proof.
  intros Hp [Hd _]. unfold member_count. rewrite <- size_dom, Hd.
  rewrite size_difference by set_solver. rewrite size_singleton.
  assert (size peers <> 0%nat) by (intros Hz; apply size_empty_inv in Hz; set_solver). lia.
Qed.
Lemma configured_key p ro q key : p ∈ peers -> configured p ro ->
  peer_verifying_key p (keys p) ro q = Some key -> q ∈ peers /\ key = verifying_key (keys q).
Proof.
  intros Hp [Hd Hk]. unfold peer_verifying_key. destruct (bool_decide _) eqn:E.
  - apply bool_decide_eq_true in E as ->. by intros [= <-].
  - intros (m & Hm & ->)%fmap_Some. split; [|by eapply Hk].
    assert (q ∈ dom (ro_members ro)) as Hq by by eapply elem_of_dom_2. rewrite Hd in Hq. set_solver.
Qed.
(** A ballot in the ledger of a node, counted for [tag]: the node of the peer that cast it
    has one for the same proposal and digest. *)
Lemma ballot_vouched p q vp cp vq cq x tag d : p ∈ peers -> q ∈ peers ->
  core p (keys p) vp cp (node_at p) -> core q (keys q) vq cq (node_at q) -> (q = p -> vq = vp) ->
  configured p (ct_roster tag) -> hex_encode d = ct_digest tag ->
  x ∈ vp -> approves p (keys p) tag d x -> vl_peer_id x = q ->
  exists x', x' ∈ vq /\ key_of x' = (ct_proposal tag, ro_digest (ct_roster tag), q) /\ vl_proposal_digest x' = ct_digest tag.
Proof.
  intros Hp Hq Cp Cq Heq Hc Hd Hx (A1 & A2 & A3 & A4 & key & Hkey & Hv) Hxq.
  destruct (decide (q = p)) as [He|Hne].
  - exists x. rewrite (Heq He). unfold key_of. by rewrite A1, A2, Hxq.
  - destruct (configured_key _ _ _ _ Hp Hc Hkey) as [_ ->]. rewrite Hxq in *.
    destruct (Hunforged p q x d) as (x' & Hx' & Hk & Hdg & _); try done.
    + destruct (co_votes _ _ _ _ _ Cp) as [_ Hs]. rewrite Forall_forall in Hs. auto.
    + congruence.
    + by rewrite A1, A2, A4.
    + exists x'. split_and!; [|rewrite Hk; unfold key_of; by rewrite A1, A2, Hxq|congruence].
      pose proof (co_acked _ _ _ _ _ Cq) as Ha. rewrite Forall_forall in Ha. auto.
Qed.
Lemma voters_in p tag d ls (vls : list ConsensusVoteLock) : p ∈ peers -> configured p (ct_roster tag) ->
  Forall (fun l => l ∈ vls /\ approves p (keys p) tag d l) ls -> Forall (fun q => q ∈ peers) (map vl_peer_id ls).
Proof.
  intros Hp Hc Hall. apply Forall_map. eapply Forall_impl; [exact Hall|].
  intros l (_ & _ & _ & _ & _ & key & Hk & _). by eapply configured_key.
Qed.
Lemma agreed a b ta tb : a ∈ peers -> b ∈ peers -> a <> b ->
  ta ∈ nd_done (node_at a) -> tb ∈ nd_done (node_at b) ->
  configured a (ct_roster ta) -> configured b (ct_roster tb) -> ro_digest (ct_roster ta) = ro_digest (ct_roster tb) ->
  ct_proposal ta = ct_proposal tb -> ct_digest ta = ct_digest tb.
Proof.
  intros Ha Hb Hab Hta Htb Hca Hcb Hro Hid.
  assert (forall p, p ∈ peers -> exists vls crs, core p (keys p) vls crs (node_at p)) as Hcore.
  { intros p Hp. eapply reachable_core; [|by apply Hreach]. by intros ->. }
  destruct (Hcore a Ha) as (va & ca & Ca), (Hcore b Hb) as (vb & cb & Cb).
  destruct (co_quorum _ _ _ _ _ Ca ta (or_introl Hta)) as (la & da & Hda & Hna & Hla & Hqa).
  destruct (co_quorum _ _ _ _ _ Cb tb (or_introl Htb)) as (lb & db & Hdb & Hnb & Hlb & Hqb).
  rewrite (configured_count a) in Hqa by done. rewrite (configured_count b) in Hqb by done.
  pose proof (voters_in _ _ _ _ _ Ha Hca Hla) as Hpa.
  destruct (majorities_meet peers (map vl_peer_id la) (map vl_peer_id lb)) as (q & Hiqa & Hiqb);
    [done|done|done|by eapply voters_in|unfold zlen in *; by rewrite length_map..|].
  rewrite Forall_forall in Hpa. rewrite Forall_forall in Hla. rewrite Forall_forall in Hlb. pose proof (Hpa q Hiqa) as Hq.
  apply list_elem_of_fmap in Hiqa as (xa & Hxa & Hia). apply list_elem_of_fmap in Hiqb as (xb & Hxb & Hib).
  destruct (Hla _ Hia) as [Hva Apa], (Hlb _ Hib) as [Hvb Apb].
  assert (exists vq cq, core q (keys q) vq cq (node_at q) /\ (q = a -> vq = va) /\ (q = b -> vq = vb)) as (vq & cq & Cq & Eqa & Eqb).
  { destruct (decide (q = a)) as [->|]; [by exists va, ca|].
    destruct (decide (q = b)) as [->|]; [by exists vb, cb|]. destruct (Hcore q Hq) as (vq & cq & Cq). by exists vq, cq. }
  destruct (ballot_vouched a q va ca vq cq xa ta da) as (x & Hx & Kx & <-); try done.
  destruct (ballot_vouched b q vb cb vq cq xb tb db) as (y & Hy & Ky & <-); try done.
  f_equal. eapply keys_unique; [apply Cq|done|done|congruence].
Qed.
End Cluster.

(** ** Claims *)

Section Claims.
Context `{RosterCrates} {L : ConsensusCratesLaws}.



End Claims.

(** ** The claims on the sample cluster *)

Definition sample_peers : gset string := {[peer 1; peer 2]}.
Definition sample_keys (p : string) : Z := if bool_decide (p = peer 1) then 1 else 2.
Definition sample_nodes (p : string) : state :=
  Up (node_or_fresh (if bool_decide (p = peer 1) then sample_node 1 2 else sample_node 2 1)).
Lemma votes_for_ok ro other e : Forall call_ok (votes_for ro other e).
Proof. unfold votes_for. repeat (constructor; [exact I|]). constructor. Qed.
Lemma roster_of_made k other ro : roster_of k other = Ok ro -> roster_made (peer k) k ro.
Proof. intros Hro. right. exists [peer_config other "other"%string], "local"%string, true. exact Hro. Qed.
Lemma sample_node_reachable k other s : sample_node k other = Some s -> reachable (peer k) k 5 (Up s).
Proof.
  unfold sample_node. destruct (roster_of k other) as [ro|] eqn:Hro; [|done].
  intros (s0 & Hs0 & Hs)%bind_Some.
  apply (run_calls_reachable (peer k) k 5 (votes_for ro other sample_event) s0 s); [|apply votes_for_ok|exact Hs].
  apply (opened_reachable (peer k) k 5 ro s0); [by apply (roster_of_made k other)|exact Hs0].
Qed.
Lemma sample_runs : is_Some_b (sample_node 1 2) && is_Some_b (sample_node 2 1) = true.
Proof. vm_compute. reflexivity. Qed.
Lemma ran_reachable k other : is_Some_b (sample_node k other) = true ->
  reachable (peer k) k 5 (Up (node_or_fresh (sample_node k other))).
Proof.
  pose proof (sample_node_reachable k other) as Hr. destruct (sample_node k other) as [s|]; [|done].
  intros _. by apply Hr.
Qed.
Lemma peers_differ : bool_decide (peer 2 = peer 1) = false.
Proof. vm_compute. reflexivity. Qed.
Lemma sample_reachable p : p ∈ sample_peers -> reachable p (sample_keys p) 5 (sample_nodes p).
Proof.
  unfold sample_peers. rewrite elem_of_union, !elem_of_singleton.
  pose proof sample_runs as [H1 H2]%andb_prop. intros [->| ->]; unfold sample_keys, sample_nodes.
  - rewrite bool_decide_eq_true_2 by reflexivity. exact (ran_reachable 1 2 H1).
  - rewrite peers_differ. exact (ran_reachable 2 1 H2).
Qed.
(** Every ballot one node saw of another is one the other acknowledged. *)
Definition vouched (nodes : string -> state) (p q : string) : bool :=
  forallb (fun l => negb (bool_decide (vl_peer_id l = q)) ||
    existsb (fun l' => bool_decide (key_of l' = key_of l) && bool_decide (vl_proposal_digest l' = vl_proposal_digest l)
                       && Bool.eqb (vl_approve l') (vl_approve l)) (nd_acked (node_of (nodes q))))
    (nd_seen (node_of (nodes p))).
Lemma vouched_unforged (peers : gset string) (nodes : string -> state) (keys : string -> Z) :
  (forall p q, p ∈ peers -> q ∈ peers -> q <> p -> vouched nodes p q = true) -> unforged peers nodes keys.
Proof.
  intros Hv p q l d Hp Hq Hqp Hl Hlq _ _. specialize (Hv p q Hp Hq Hqp). unfold vouched in Hv.
  rewrite forallb_forall in Hv. apply list_elem_of_In in Hl. specialize (Hv l Hl).
  rewrite bool_decide_eq_true_2 in Hv by done. cbn in Hv. apply existsb_exists in Hv as (l' & Hl' & Hv).
  apply andb_prop in Hv as [[H1%bool_decide_eq_true H2%bool_decide_eq_true]%andb_prop H3%eqb_prop].
  exists l'. split; [by apply list_elem_of_In|done].
Qed.
Lemma sample_vouched : vouched sample_nodes (peer 1) (peer 2) && vouched sample_nodes (peer 2) (peer 1) = true.
Proof. vm_compute. reflexivity. Qed.
Lemma sample_unforged : unforged sample_peers sample_nodes sample_keys.
Proof.
  pose proof sample_vouched as [H1 H2]%andb_prop. apply vouched_unforged. intros p q Hp Hq Hne.
  apply elem_of_union in Hp as [Hp%elem_of_singleton|Hp%elem_of_singleton];
    apply elem_of_union in Hq as [Hq%elem_of_singleton|Hq%elem_of_singleton]; subst.
  - by destruct Hne.
  - exact H1.
  - exact H2.
  - by destruct Hne.
Qed.
Definition roster_fits (peers : gset string) (keys : string -> Z) (p : string) (ro : roster) : bool :=
  bool_decide (dom (ro_members ro) = peers ∖ {[p]}) &&
  forallb (fun e : string * AuthorizedMember => (am_verifying_key e.2 : Z) =? keys e.1) (map_to_list (ro_members ro)).
Lemma roster_fits_configured peers keys p ro : roster_fits peers keys p ro = true -> configured peers keys p ro.
Proof.
  intros [Hd%bool_decide_eq_true Hk]%andb_prop. split; [done|]. intros q m Hm.
  rewrite forallb_forall in Hk. apply Z.eqb_eq, (Hk (q, m)). by apply list_elem_of_In, elem_of_map_to_list.
Qed.
(** The proposals whose events a sample node committed, and what is asked of them *)
Definition sample_done (p : string) : list commit_tag := nd_done (node_of (sample_nodes p)).
Definition comparable (das dbs : list commit_tag) : bool :=
  match das, dbs with
  | ta :: _, tb :: _ =>
      roster_fits sample_peers sample_keys (peer 1) (ct_roster ta) &&
      roster_fits sample_peers sample_keys (peer 2) (ct_roster tb) &&
      bool_decide (ro_digest (ct_roster ta) = ro_digest (ct_roster tb)) &&
      bool_decide (ct_proposal ta = ct_proposal tb)
  | _, _ => false
  end.
Lemma sample_comparable : comparable (sample_done (peer 1)) (sample_done (peer 2)) = true.
Proof. vm_compute. reflexivity. Qed.
Lemma comparable_tags das dbs : comparable das dbs = true -> exists ta tb, ta ∈ das /\ tb ∈ dbs /\
  configured sample_peers sample_keys (peer 1) (ct_roster ta) /\
  configured sample_peers sample_keys (peer 2) (ct_roster tb) /\
  ro_digest (ct_roster ta) = ro_digest (ct_roster tb) /\ ct_proposal ta = ct_proposal tb.
Proof.
  destruct das as [|ta das], dbs as [|tb dbs]; try done. cbn.
  intros [[[H1 H2]%andb_prop H3%bool_decide_eq_true]%andb_prop H4%bool_decide_eq_true]%andb_prop.
  exists ta, tb. split_and!; [by left|by left|by apply roster_fits_configured..|done|done].
Qed.
Lemma peers_named : ""%string ∉ sample_peers.
Proof.
  unfold sample_peers. intros [H|H]%elem_of_union; apply elem_of_singleton in H; revert H; vm_compute; discriminate.
Qed.
Lemma peer_in k : (k =? 1) || (k =? 2) = true -> peer k ∈ sample_peers.
Proof.
  intros [->%Z.eqb_eq| ->%Z.eqb_eq]%orb_prop; apply elem_of_union; [left|right]; by apply elem_of_singleton.
Qed.
Definition alike (ls : list ConsensusVoteLock) : bool :=
  match ls with l :: l' :: _ => bool_decide (key_of l = key_of l') | _ => false end.
Lemma alike_ballots ls : alike ls = true -> exists l l', l ∈ ls /\ l' ∈ ls /\ key_of l = key_of l'.
Proof.
  destruct ls as [|l [|l' ls]]; try done. cbn. intros Hk%bool_decide_eq_true.
  exists l, l'. split_and!; [by left|by right; left|done].
Qed.
Lemma sample_alike : alike (nd_acked (node_of (sample_nodes (peer 1)))) = true.
Proof. vm_compute. reflexivity. Qed.
Lemma sample_peer_reachable : peer 1 <> ""%string /\ reachable (peer 1) 1 5 (sample_nodes (peer 1)).
Proof.
  split; [|exact (sample_reachable (peer 1) (peer_in 1 eq_refl))].
  intros He. apply peers_named. rewrite <- He. exact (peer_in 1 eq_refl).
Qed.

