(* ===== verification/ConsensusSpec.v ===== *)
(** * The specification a node implements

    What a node promises, without files, crashes or errors: a list of ballots it heard of,
    a list of ballots it acknowledged, which has one for a key, and a list of decided
    proposals, each decided once and by a quorum of what was heard. Every step of a node,
    crashes and failed calls included, is some steps of the specification. *)
From S2P Require Export ConsensusAgreement.
Local Open Scope Z_scope.

Section Spec.
Context `{RosterCrates} {L : ConsensusCratesLaws}.
Variable local_peer_id : string.
Variable signing_key : SigningKey.
Variable storage_schema_version : Z.

Record spec := {
  sp_heard : list ConsensusVoteLock;
  sp_acked : list ConsensusVoteLock;
  sp_decided : list commit_tag;
}.
Definition spec_init : spec := {| sp_heard := []; sp_acked := []; sp_decided := [] |}.
Inductive spec_step (x : spec) : spec -> Prop :=
| spec_hear l : spec_step x
    {| sp_heard := sp_heard x ++ [l]; sp_acked := sp_acked x; sp_decided := sp_decided x |}
| spec_acknowledge l : l ∈ sp_heard x -> (forall l', l' ∈ sp_acked x -> key_of l' = key_of l -> l' = l) ->
    spec_step x {| sp_heard := sp_heard x; sp_acked := sp_acked x ++ [l]; sp_decided := sp_decided x |}
| spec_decide tag : ct_proposal tag ∉ map ct_proposal (sp_decided x) ->
    quorum local_peer_id signing_key (sp_heard x) tag ->
    spec_step x {| sp_heard := sp_heard x; sp_acked := sp_acked x; sp_decided := sp_decided x ++ [tag] |}.
(** What of a node the specification sees *)
Definition abstraction (x : state) : spec :=
  {| sp_heard := nd_seen (node_of x); sp_acked := nd_acked (node_of x); sp_decided := nd_done (node_of x) |}.

(** ** What only grows *)

Definition grown (s s' : node) : Prop :=
  nd_seen s `prefix_of` nd_seen s' /\ nd_acked s `prefix_of` nd_acked s' /\ nd_done s `prefix_of` nd_done s'.
#[export] Instance grown_preorder : PreOrder grown.
Proof.
  split.
  - by intros s.
  - intros s1 s2 s3 (H1 & H2 & H3) (H4 & H5 & H6). split_and!; by etrans.
Qed.
Definition grows {A} (m : EM node A) : Prop := forall s, grown s (m s).2.
Lemma grows_ret {A} (a : A) : grows (mret a).
Proof. by intros s. Qed.
Lemma grows_bind {A B} (m : EM node A) (f : A -> EM node B) : grows m -> (forall a, grows (f a)) -> grows (m ≫= f).
Proof.
  intros Hm Hf s. rewrite em_bind_eq. specialize (Hm s). destruct (m s) as [[a|e] t]; cbn in *; [|done].
  etrans; [exact Hm|]. apply Hf.
Qed.
Lemma grows_raise {A} e : grows (raise e : EM node A).
Proof. by intros s. Qed.
Lemma grows_reads {A} (f : node -> A) : grows (reads f).
Proof. by intros s. Qed.
Lemma grows_update f : (forall s, grown s (f s)) -> grows (update f).
Proof. intros Hf s. apply Hf. Qed.
Lemma grows_require b e : grows (require b e).
Proof. by destruct b. Qed.
Lemma grows_of_result {A} (r : result string A) : grows (of_result r).
Proof. by destruct r. Qed.
Lemma grows_catch {A} (m : EM node A) : grows m -> grows (catch m).
Proof. intros Hm s. specialize (Hm s). unfold catch. by destruct (m s) as [[a|[|e]] t]. Qed.
Lemma grows_for {A B} (f : B -> A -> EM node B) b l : (forall b a, grows (f b a)) -> grows (efor f b l).
Proof.
  intros Hf. revert b; induction l as [|a l IH]; intros b; cbn [efor]; [apply grows_ret|].
  by apply grows_bind.
Qed.
Lemma grows_votes {A} (m : ledger_code A) : grows (on_votes m).
Proof. intros s. unfold on_votes, zoom. by destruct (m _). Qed.
Lemma grows_commits {A} (m : ledger_code A) : grows (on_commits m).
Proof. intros s. unfold on_commits, zoom. by destruct (m _). Qed.
Lemma grows_answer : grows answer.
Proof. intros s. unfold answer. by destruct (nd_replies s). Qed.
Lemma grown_app s s' : nd_seen s' = nd_seen s \/ (exists l, nd_seen s' = nd_seen s ++ l) ->
  nd_acked s' = nd_acked s \/ (exists l, nd_acked s' = nd_acked s ++ l) ->
  nd_done s' = nd_done s \/ (exists l, nd_done s' = nd_done s ++ l) -> grown s s'.
Proof.
  intros [E1|[l1 E1]] [E2|[l2 E2]] [E3|[l3 E3]]; unfold grown; rewrite E1, E2, E3;
    split_and!; try done; by eexists.
Qed.
Ltac grow := apply grown_app; cbn; eauto.
Ltac growing := repeat
  match goal with
  | |- grows (mret _) => apply grows_ret
  | |- grows (raise _) => apply grows_raise
  | |- grows (reads _) => apply grows_reads
  | |- grows (require _ _) => apply grows_require
  | |- grows (of_result _) => apply grows_of_result
  | |- grows (on_votes _) => apply grows_votes
  | |- grows (on_commits _) => apply grows_commits
  | |- grows answer => apply grows_answer
  | |- grows (update _) => apply grows_update; intros ?; grow
  | |- grows (catch _) => apply grows_catch
  | |- grows (efor _ _ _) => apply grows_for
  | |- grows (_ ≫= _) => apply grows_bind
  | |- forall _, _ => intros ?
  | |- grows (let '(_, _) := ?p in _) => destruct p
  | |- grows (match ?x with _ => _ end) => destruct x
  end.

Lemma gate_grows e : grows (gate e).
Proof. unfold gate. growing. Qed.
Lemma schema_grows ev : grows (validate_consensus_schema_event storage_schema_version ev).
Proof. unfold validate_consensus_schema_event. growing; apply gate_grows. Qed.
Lemma record_ballot_grows l : grows (record_ballot l).
Proof. unfold record_ballot, persist_consensus_vote_lock. growing. Qed.
Lemma record_receipt_grows r : grows (record_receipt r).
Proof. unfold record_receipt, append_consensus_commit_record. growing. Qed.
Lemma complete_grows r : grows (complete_consensus_commit r).
Proof. unfold complete_consensus_commit. growing; apply record_receipt_grows. Qed.
Lemma prepare_grows r : grows (prepare_consensus_commit r).
Proof.
  unfold prepare_consensus_commit, ensure_consensus_commit_capacity. cbn zeta. growing; apply record_receipt_grows.
Qed.
Lemma durable_grows p : grows (proposal_has_durable_commit p).
Proof. unfold proposal_has_durable_commit, scan_for. cbn zeta. growing; apply complete_grows. Qed.

(** ** Every call *)

Lemma open_grows : grows open_consensus.
Proof.
  unfold open_consensus, recover_pending_consensus_commits, scan_for. growing; apply complete_grows.
Qed.
Lemma persist_grows e tag : grows (persist_signed e tag).
Proof. unfold persist_signed, ensure_writable, ensure_readable, durable_apply_error. growing; apply gate_grows. Qed.
Lemma commit_event_grows e tag : grows (commit_event e tag).
Proof.
  unfold commit_event, apply_checked, apply_unchecked, durable_apply_error. growing; apply persist_grows.
Qed.
Lemma commit_proposal_grows ro id p : grows (commit_proposal storage_schema_version ro id p).
Proof.
  unfold commit_proposal, mark_committed, store_proposal, validate_signed_event_authorization. cbn zeta. growing;
    auto using durable_grows, schema_grows, prepare_grows, commit_event_grows, complete_grows, gate_grows.
Qed.
Lemma submit_grows id peer a sig :
  grows (submit_vote local_peer_id signing_key storage_schema_version id peer a sig).
Proof.
  unfold submit_vote, ballot_for, mark_committed, store_proposal, lookup_proposal, ensure_writable, ensure_readable,
    validate_signed_event_authorization. cbn zeta. growing;
    auto using durable_grows, schema_grows, record_ballot_grows, commit_proposal_grows, gate_grows.
Qed.
Lemma sign_grows id a : grows (sign_vote local_peer_id signing_key storage_schema_version id a).
Proof.
  unfold sign_vote, lookup_proposal, ensure_writable, ensure_readable, validate_signed_event_authorization,
    touch_consensus_proposal. cbn zeta. growing;
    auto using durable_grows, schema_grows, record_ballot_grows, gate_grows.
Qed.
Lemma call_grows c : grows (run_call local_peer_id signing_key storage_schema_version c).
Proof.
  destruct c; cbn [run_call]; growing; try apply submit_grows; try apply sign_grows;
    unfold propose_consensus, accept_consensus_proposal, export_consensus_proposal, store_proposal, lookup_proposal,
      room_for_proposal, prune_expired_consensus_proposals, touch_consensus_proposal, ensure_writable, ensure_readable,
      validate_signed_event_authorization; cbn zeta; growing;
    auto using durable_grows, schema_grows, gate_grows.
Qed.
Lemma step_grows x y : step local_peer_id signing_key storage_schema_version x y -> grown (node_of x) (node_of y).
Proof.
  intros [c s r s' _ Hs|s s' Ho|s|s vl cl taken ro reps vreps creps now r s' _ _ _ Hs].
  - pose proof (call_grows c s) as Hg. rewrite Hs in Hg. by destruct r as [?|[|?]].
  - by destruct Ho.
  - done.
  - pose proof (open_grows (restarted s vl cl taken ro reps vreps creps now)) as Hg. rewrite Hs in Hg.
    assert (grown s (restarted s vl cl taken ro reps vreps creps now)) as Hr.
    { unfold restarted. destruct (nd_sent s) as [[e tag]|], taken; grow. }
    destruct r; (etrans; [exact Hr|exact Hg]).
Qed.

(** ** The simulation *)

Lemma hear_all k x : rtc spec_step x
  {| sp_heard := sp_heard x ++ k; sp_acked := sp_acked x; sp_decided := sp_decided x |}.
Proof.
  revert x; induction k as [|l k IH]; intros x.
  - rewrite app_nil_r. by destruct x.
  - eapply rtc_l; [apply (spec_hear x l)|]. etrans; [apply IH|]. cbn. by rewrite <- (assoc app).
Qed.
Lemma acknowledge_all k x : Forall (fun l => l ∈ sp_heard x) k ->
  (forall l l', l ∈ sp_acked x ++ k -> l' ∈ sp_acked x ++ k -> key_of l' = key_of l -> l' = l) ->
  rtc spec_step x {| sp_heard := sp_heard x; sp_acked := sp_acked x ++ k; sp_decided := sp_decided x |}.
Proof.
  revert x; induction k as [|l k IH]; intros x Hk Hu.
  - rewrite app_nil_r. by destruct x.
  - apply Forall_cons in Hk as [Hl Hk]. eapply rtc_l.
    + apply (spec_acknowledge x l Hl). intros l' Hl'. apply Hu; apply elem_of_app; [right; by left|by left].
    + etrans; [apply IH; cbn; [done|]|cbn; by rewrite <- (assoc app)].
      intros l1 l2. rewrite <- (assoc app). apply Hu.
Qed.
Lemma decide_all k x : NoDup (map ct_proposal (sp_decided x ++ k)) ->
  Forall (quorum local_peer_id signing_key (sp_heard x)) k ->
  rtc spec_step x {| sp_heard := sp_heard x; sp_acked := sp_acked x; sp_decided := sp_decided x ++ k |}.
Proof.
  revert x; induction k as [|tag k IH]; intros x Hd Hq.
  - rewrite app_nil_r. by destruct x.
  - apply Forall_cons in Hq as [Hq Hk]. eapply rtc_l.
    + apply (spec_decide x tag); [|done]. rewrite map_app in Hd. apply NoDup_app in Hd as (_ & Hd & _).
      intros Hi. apply (Hd _ Hi). by left.
    + etrans; [apply IH; cbn; [by rewrite <- (assoc app)|done]|cbn; by rewrite <- (assoc app)].
Qed.
Lemma quorum_heard vls seen tag : Forall (fun l => l ∈ seen) vls ->
  quorum local_peer_id signing_key vls tag -> quorum local_peer_id signing_key seen tag.
Proof.
  intros Hs (ls & d & Hd & Hn & Hall & Hc). exists ls, d. split_and!; try done.
  rewrite Forall_forall in Hs. eapply Forall_impl; [exact Hall|]. intros l [Hl Ha]. auto.
Qed.
(** Whatever grew, and satisfies the invariant, took steps of the specification. *)
Lemma grown_steps x y : local_peer_id <> ""%string ->
  reachable local_peer_id signing_key storage_schema_version y ->
  grown (node_of x) (node_of y) -> rtc spec_step (abstraction x) (abstraction y).
Proof.
  intros Hlocal Hy ([k1 E1] & [k2 E2] & [k3 E3]).
  destruct (reachable_core _ _ _ y Hlocal Hy) as (vls & crs & C).
  pose proof (co_votes _ _ _ _ _ C) as [Hv Hs]. pose proof (co_acked _ _ _ _ _ C) as Ha.
  unfold abstraction. rewrite E1, E2, E3 in *. etrans; [apply (hear_all k1)|]. cbn.
  etrans; [apply (acknowledge_all k2)|apply (decide_all k3)]; cbn.
  - apply Forall_app in Ha as [_ Ha]. rewrite Forall_forall in Hs. eapply Forall_impl; [exact Ha|]. auto.
  - rewrite Forall_forall in Ha. intros l l' Hl Hl' Hk. apply (keys_unique vls); auto.
  - rewrite <- E3. apply C.
  - apply Forall_forall. intros tag Ht. eapply quorum_heard; [exact Hs|]. apply C. left.
    rewrite E3. apply elem_of_app. by right.
Qed.
End Spec.

(** ** Claims *)


(** A node of the sample before the ballot that commits the proposal *)
Definition last_vote (ro : roster) : call :=
  CallSubmit "p" (peer 2) true (ballot_signature ro 2 sample_event true).
Definition before_last (ro : roster) : option node :=
  s ← opened ro fresh; run_calls (peer 1) 1 5 (take 3 (votes_for ro 2 sample_event)) s.
Definition commits_now (r : result string roster) : bool :=
  match r with
  | Err _ => false
  | Ok ro =>
      match before_last ro with
      | None => false
      | Some s =>
          match run_call (peer 1) 1 5 (last_vote ro) s with
          | (Ok _, t) => Nat.eqb (length (nd_done s)) 0 && Nat.eqb (length (nd_done t)) 1
          | _ => false
          end
      end
  end.
Lemma sample_commits_now : commits_now (roster_of 1 2) = true.
Proof. vm_compute. reflexivity. Qed.
Lemma commits_now_step r : r = roster_of 1 2 -> commits_now r = true -> exists s t,
  reachable (peer 1) 1 5 (Up s) /\ step (peer 1) 1 5 (Up s) (Up t) /\
  nd_done s = [] /\ length (nd_done t) = 1%nat.
Proof.
  intros Hro Hc. unfold commits_now in Hc. destruct r as [ro|]; [|done].
  destruct (before_last ro) as [s|] eqn:Hs; [|done].
  destruct (run_call _ _ _ _ s) as [r t] eqn:Hr.
  destruct r as [u|]; [|done].
  apply andb_prop in Hc as [H1%Nat.eqb_eq H2%Nat.eqb_eq]. exists s, t. split_and!.
  - unfold before_last in Hs. apply bind_Some in Hs as (s0 & H3 & H4).
    apply (run_calls_reachable (peer 1) 1 5 (take 3 (votes_for ro 2 sample_event)) s0 s); [|apply Forall_take, votes_for_ok|exact H4].
    apply (opened_reachable (peer 1) 1 5 ro s0); [|exact H3]. by apply (roster_of_made 1 2).
  - exact (step_call _ _ 5 (last_vote ro) s (Ok u) t I Hr).
  - by apply length_zero_iff_nil.
  - exact H2.
Qed.
