(* ===== verification/ConsensusReopen.v ===== *)
(** * A node opens again

    Opening fails only on a system call that fails, or when a torn completion is found in
    a commit ledger that is full; when every system call succeeds it returns. *)
From S2P Require Export ConsensusAgreement.
Local Open Scope Z_scope.

(** ** System calls that succeed *)

(** At least [n] calls succeed, and no call fails. *)
Definition succeeding (n : nat) (rs : list reply) : Prop := exists k, (n <= k)%nat /\ rs = replicate k Done.
Definition sound (n : nat) (g : ledger) : Prop := succeeding n (lg_replies g) /\ lg_poisoned g = false.
Definition failures : list string := io_errors "CONSENSUS_VOTE" ++ io_errors "CONSENSUS_COMMIT".
(** Not the machine, nor a call that failed *)
Definition refused (e : stop) : Prop := match e with Crash => False | Raised e => e ∉ failures end.

Lemma succeeding_le n m rs : (n <= m)%nat -> succeeding m rs -> succeeding n rs.
Proof. intros Hn (k & Hk & ->). exists k. split; [lia|done]. Qed.
Lemma succeeding_S n rs : succeeding (S n) rs -> exists rs', rs = Done :: rs' /\ succeeding n rs'.
Proof. intros ([|k] & Hk & ->); [lia|]. exists (replicate k Done). split; [done|]. exists k. split; [lia|done]. Qed.

Section Calls.
Context (X : stop -> ledger -> Prop).

Lemma syscall_sound n : etriple (sound (S n)) syscall (fun r g => r = Done /\ sound n g) X.
Proof.
  intros g [Hs Hp]. apply succeeding_S in Hs as (rs & Hr & Hs). unfold syscall. rewrite Hr. by split.
Qed.
Lemma attempt_sound n : etriple (sound (S n)) attempt (fun ok g => ok = true /\ sound n g) X.
Proof. eapply etriple_bind; [apply syscall_sound|]. intros r. apply etriple_ret. by intros g [-> ?]. Qed.
Lemma file_call_sound f n : etriple (sound (S n)) (file_call f) (fun ok g => ok = true /\ sound n g) X.
Proof.
  eapply etriple_bind; [apply attempt_sound|]. intros ok. apply etriple_pure. intros ->.
  eapply (etriple_bind _ _ _ (fun _ => sound n)); [by apply etriple_update|]. intros ?. by apply etriple_ret.
Qed.
Lemma write_all_sound data n : etriple (sound (S n)) (write_all data) (fun ok g => ok = true /\ sound n g) X.
Proof.
  eapply etriple_bind; [apply syscall_sound|]. intros r. apply etriple_pure. intros ->.
  eapply (etriple_bind _ _ _ (fun _ => sound n)); [by apply etriple_update|]. intros ?. by apply etriple_ret.
Qed.
Lemma and_then_sound (a b : ledger_code bool) n m k :
  etriple (sound n) a (fun ok g => ok = true /\ sound m g) X ->
  etriple (sound m) b (fun ok g => ok = true /\ sound k g) X ->
  etriple (sound n) (and_then a b) (fun ok g => ok = true /\ sound k g) X.
Proof. intros Ha Hb. eapply etriple_bind; [exact Ha|]. intros ok. apply etriple_pure. by intros ->. Qed.
Lemma must_sound (a : ledger_code bool) e n m {A} (k : ledger_code A) Q :
  etriple (sound n) a (fun ok g => ok = true /\ sound m g) X -> etriple (sound m) k Q X ->
  etriple (sound n) (ok ← a; require ok e ;; k) Q X.
Proof.
  intros Ha Hk. eapply etriple_bind; [exact Ha|]. intros ok. apply etriple_pure. intros ->.
  eapply (etriple_bind _ _ _ (fun _ => sound m)); [by apply etriple_ret|]. by intros ?.
Qed.
End Calls.

Section Append.
Context (name : string).
Hypothesis Hname : (name +:+ "_LEDGER_LIMIT")%string ∉ failures.
Notation X := (fun e (_ : ledger) => refused e).

Lemma limit_sound b n {A} (k : ledger_code A) Q : etriple (sound n) k Q X ->
  etriple (sound n) (require b (name +:+ "_LEDGER_LIMIT") ;; k) Q X.
Proof.
  intros Hk. eapply (etriple_bind _ _ _ (fun _ => sound n)); [by apply etriple_require|]. by intros ?.
Qed.
Lemma append_line_sound p n : etriple (sound (6 + n)) (append_line name p) (fun _ => sound n) X.
Proof.
  unfold append_line. apply limit_sound. eapply must_sound; [apply file_call_sound|].
  eapply must_sound; [apply attempt_sound|].
  eapply (etriple_bind _ _ _ (fun _ => sound (4 + n))); [by apply etriple_reads|]. intros len.
  apply limit_sound. eapply etriple_bind.
  { eapply and_then_sound; [apply write_all_sound|]. eapply and_then_sound; [apply write_all_sound|].
    apply file_call_sound. }
  intros ok. apply etriple_pure. intros ->.
  eapply (etriple_bind _ _ _ (fun _ => sound (1 + n))); [by apply etriple_ret|]. intros ?.
  eapply etriple_bind; [apply file_call_sound|]. intros ok. apply etriple_pure. intros ->. by apply etriple_ret.
Qed.
Lemma read_sound n : etriple (sound (2 + n)) (read_consensus_ledger name) (fun _ => sound n) X.
Proof.
  unfold read_consensus_ledger. eapply must_sound; [apply attempt_sound|].
  eapply (etriple_bind _ _ _ (fun _ => sound (1 + n))); [by apply etriple_reads|]. intros [].
  - cbn [negb]. eapply (etriple_bind _ _ _ (fun _ => sound (1 + n))); [by apply etriple_reads|]. intros bytes.
    apply limit_sound. eapply must_sound; [apply attempt_sound|]. by apply etriple_ret.
  - apply etriple_ret. intros g [Hs Hp]. split; [eapply succeeding_le, Hs; lia|done].
Qed.
Lemma load_lines_sound n : etriple (sound (6 + n)) (load_lines name true) (fun _ => sound n) X.
Proof.
  unfold load_lines. eapply etriple_bind; [apply (read_sound (4 + n))|]. intros bytes.
  eapply (etriple_bind _ _ _ (fun _ => sound n)); [|by intros ?; apply etriple_ret].
  destruct (_ <? _)%nat.
  - unfold truncate_torn_consensus_ledger. cbn [negb]. eapply must_sound; [apply attempt_sound|].
    eapply etriple_bind.
    { eapply and_then_sound; [apply file_call_sound|]. eapply and_then_sound; apply file_call_sound. }
    intros ok. apply etriple_pure. intros ->. by apply etriple_ret.
  - apply etriple_ret. intros g [Hs Hp]. split; [eapply succeeding_le, Hs; lia|done].
Qed.
End Append.

(** ** Loading and completing *)

Ltac no_failure := cbn [refused];
  match goal with |- ?e ∉ failures => refine (bool_decide_eq_false_1 (e ∈ failures) _); vm_compute; reflexivity end.

Section Load.
Context `{RosterCrates} {L : ConsensusCratesLaws}.
Variable local_peer_id : string.
Variable signing_key : SigningKey.
Notation X := (fun e (_ : ledger) => refused e).

Lemma vote_line_errors acc line e : load_vote_line acc line = Err e -> e ∉ failures.
Proof.
  intros Hl. unfold load_vote_line in Hl. destruct acc. repeat case_match; simplify_eq; no_failure.
Qed.
Lemma receipt_line_errors acc line e : load_receipt_line acc line = Err e -> e ∉ failures.
Proof.
  intros Hl. unfold load_receipt_line in Hl. destruct acc. repeat case_match; simplify_eq; no_failure.
Qed.
Lemma load_votes_sound n : etriple (sound (6 + n)) load_consensus_vote_locks (fun _ => sound n) X.
Proof.
  unfold load_consensus_vote_locks. eapply etriple_bind; [apply load_lines_sound; no_failure|]. intros [bytes lines].
  eapply (etriple_bind _ _ _ (fun _ => sound n)); [|by intros []; apply etriple_ret].
  apply etriple_of_result; [done|]. intros g e _ He.
    exact (try_for_errors (fun e => e ∉ failures) _ _ _ _ vote_line_errors He).
Qed.
Lemma load_receipts_sound n : etriple (sound (6 + n)) load_consensus_commit_receipts (fun _ => sound n) X.
Proof.
  unfold load_consensus_commit_receipts. eapply etriple_bind; [apply load_lines_sound; no_failure|]. intros [bytes lines].
  eapply (etriple_bind _ _ _ (fun _ => sound n)).
  { apply etriple_of_result; [done|]. intros g e _ He.
    exact (try_for_errors (fun e => e ∉ failures) _ _ _ _ receipt_line_errors He). }
  intros [receipts count].
  do 2 (eapply (etriple_bind _ _ _ (fun _ => sound n)); [apply etriple_require; [done|intros; no_failure]|]; intros ?).
  by apply etriple_ret.
Qed.

Notation commits n := (fun s => sound n (nd_commits s)).
Notation XN := (fun e (_ : node) => refused e).
Lemma record_sound r n : etriple (commits (6 + n)) (record_receipt r) (fun _ => commits n) XN.
Proof.
  unfold record_receipt, append_consensus_commit_record.
  eapply (etriple_bind _ _ _ (fun _ => commits n)); [|by intros ?; apply etriple_update].
  eapply (etriple_bind _ _ _ (fun b s => b = false /\ commits (6 + n) s)); [by apply etriple_reads; intros s [? ?]|].
  intros b. apply etriple_pure. intros ->.
  eapply (etriple_bind _ _ _ (fun _ => commits (6 + n))); [by apply etriple_ret|]. intros ?.
  eapply (etriple_bind _ _ _ (fun _ => commits (6 + n))); [by apply etriple_reads|]. intros k.
  eapply (etriple_bind _ _ _ (fun _ => commits (6 + n))); [apply etriple_require; [done|intros; no_failure]|]. intros ?.
  eapply (etriple_bind _ _ _ (fun _ => commits n)); [|by intros ?; apply etriple_update].
  apply etriple_zoom. intros s Hs. eapply etriple_pre; [apply (append_line_sound "CONSENSUS_COMMIT" ltac:(no_failure))|].
  by intros g ->.
Qed.
Lemma complete_sound r n : etriple (commits (6 + n)) (complete_consensus_commit r) (fun _ => commits n) XN.
Proof.
  unfold complete_consensus_commit. eapply (etriple_bind _ _ _ (fun _ => commits (6 + n))); [by apply etriple_reads|].
  intros m. repeat case_match; try (apply etriple_raise; intros; no_failure); [|apply record_sound].
  apply etriple_ret. intros s [Hs Hp]. split; [eapply succeeding_le, Hs; lia|done].
Qed.
Lemma recover_sound (k : nat) :
  etriple (fun s => sound (6 * k) (nd_commits s) /\ (length (receipts_pending (nd_receipts s)) <= k)%nat)
    recover_pending_consensus_commits (fun _ _ => True) XN.
Proof.
  unfold recover_pending_consensus_commits. intros s [Hs Hk]. rewrite em_bind_eq. cbn [reads].
  revert Hk. generalize (receipts_pending (nd_receipts s)). intros rs Hk.
  pose proof (etriple_for (fun (_ : unit) r => found ← scan_for (cr_proposal_digest r);
    if found : bool then complete_consensus_commit (completed r) else mret tt)
    (fun _ rs s => sound (6 * length rs) (nd_commits s)) XN tt rs) as Ht.
  lapply Ht; [clear Ht; intros Ht|].
  - assert (sound (6 * length rs) (nd_commits s)) as Hs' by (destruct Hs as [Hs ?]; split; [eapply succeeding_le, Hs; lia|done]).
    specialize (Ht s Hs'). by destruct (efor _ _ _ s) as [[?|?] ?].
  - intros [] r l. eapply (etriple_bind _ _ _ (fun _ s => sound (6 + 6 * length l) (nd_commits s))).
    + apply etriple_reads. intros s' Hs'. by replace (6 + 6 * length l)%nat with (6 * length (r :: l))%nat by (cbn; lia).
    + intros []; [apply complete_sound|]. apply etriple_ret. intros s' [Hs' Hp].
      split; [eapply succeeding_le, Hs'; lia|done].
Qed.
Lemma pending_le crs : (length (receipts_pending (receipts_of crs)) <= length crs)%nat.
Proof.
  unfold receipts_pending. etrans; [apply filter_length_le|]. rewrite length_fmap, length_map_to_list.
  induction crs as [|r crs IH] using rev_ind; [done|].
  rewrite receipts_of_snoc, map_size_insert, length_app. destruct (_ !! _); cbn; lia.
Qed.
(** Opening when every call succeeds *)
Lemma open_sound vls crs tv tc :
  etriple (fun s => opening local_peer_id signing_key vls crs tv tc s /\ sound 6 (nd_votes s) /\
                    sound (6 + 6 * length crs) (nd_commits s))
    open_consensus (fun _ _ => True) XN.
Proof.
  unfold open_consensus. set (C := fun s => left_file (map receipt_to_vec crs) tc (nd_commits s) /\
    leftover receipt_to_vec receipts_valid crs tc /\ receipts_valid crs /\ sound (6 + 6 * length crs) (nd_commits s)).
  eapply (etriple_bind _ _ _ (fun _ => C)).
  { apply etriple_zoom. intros s (Hop & Hv & Hc). eapply etriple_conseq; [apply (load_votes_sound 0)|by intros g ->| |done].
    intros m g _. split_and!; try done; apply Hop. }
  intros m. eapply (etriple_bind _ _ _ (fun _ => C)); [by apply etriple_update|]. intros ?.
  eapply (etriple_bind _ _ _ (fun rn s => rn = (receipts_of crs, zlen crs) /\ sound (6 * length crs) (nd_commits s))).
  { apply etriple_zoom. intros s (Hl & Ht & Hv & Hs).
    eapply etriple_conseq; [eapply etriple_and; [apply (load_receipts_triple crs tc Hv Ht)|apply (load_receipts_sound (6 * length crs))]| | |].
    - by intros g ->.
    - by intros rn g [[-> _] Hg].
    - by intros e g [_ He]. }
  intros [receipts n]. apply etriple_pure. intros [= -> ->].
  eapply (etriple_bind _ _ _ (fun _ s => sound (6 * length crs) (nd_commits s) /\
    (length (receipts_pending (nd_receipts s)) <= length crs)%nat)).
  { apply etriple_update. intros s Hs. split; [done|]. apply pending_le. }
  intros ?. apply recover_sound.
Qed.
End Load.

(** ** Claims *)

(** The ledger ends in a part of a record. *)
Definition torn_tail (left : option (list byte)) : bool :=
  (complete_len (default [] left) <? length (default [] left))%nat.

Section Claims.
Context `{RosterCrates} {L : ConsensusCratesLaws}.

(** After any crash, opening never rejects what the ledgers hold: it raises only the error
    of a system call that failed, or, for a commit ledger with a torn tail, the limit. *)
Theorem reopen_reads (local_peer_id : string) (signing_key : SigningKey) (storage_schema_version : Z) (s s' : node)
  (vote_left commit_left : option (list byte)) (taken : bool) (ro : roster) (reps vreps creps : list reply)
  (now : Z) (e : string) :
  local_peer_id <> ""%string -> reachable local_peer_id signing_key storage_schema_version (Down s) ->
  crash_leaves (lg_file (nd_votes s)) vote_left -> crash_leaves (lg_file (nd_commits s)) commit_left ->
  roster_made local_peer_id signing_key ro ->
  open_consensus (restarted s vote_left commit_left taken ro reps vreps creps now) = (Err (Raised e), s') ->
  e ∈ failures \/ e = "CONSENSUS_COMMIT_LEDGER_LIMIT"%string /\ torn_tail commit_left = true.
Proof.
  intros Hlocal Hr Hv Hc Hro Ho. apply reachable_invariant in Hr; [|done].
  destruct (restarted_opening local_peer_id signing_key s vote_left commit_left taken ro reps vreps creps now Hr Hv Hc Hro)
    as (vls & crs & tv & tc & Hop & Hb).
  pose proof (open_consensus_triple local_peer_id signing_key vls crs tv tc _ Hop) as Ht. rewrite Ho in Ht.
  destruct Ht as [_ [[He|[Hf _]]|[He|[Hf He]]]]; [left; by apply elem_of_app; left|done|left; by apply elem_of_app; right|].
  right. split; [exact He|]. apply negb_true_iff, bool_decide_eq_false in Hf.
  unfold torn_tail. rewrite Hb, complete_len_lines by apply (op_ctail _ _ _ _ _ _ _ Hop).
  apply Nat.ltb_lt. rewrite length_app. destruct tc; [done|cbn; lia].
Qed.
(** C9: A node that crashed opens again: when the system calls succeed, as many as the two
    ledgers need, and the commit ledger has no torn tail, opening returns. *)
Theorem reopens (local_peer_id : string) (signing_key : SigningKey) (storage_schema_version : Z) (s : node)
  (vote_left commit_left : option (list byte)) (taken : bool) (ro : roster) (reps vreps creps : list reply) (now : Z) :
  local_peer_id <> ""%string -> reachable local_peer_id signing_key storage_schema_version (Down s) ->
  crash_leaves (lg_file (nd_votes s)) vote_left -> crash_leaves (lg_file (nd_commits s)) commit_left ->
  roster_made local_peer_id signing_key ro -> torn_tail commit_left = false ->
  succeeding 6 vreps -> succeeding (6 + 6 * length (complete_lines (default [] commit_left))) creps ->
  exists s', open_consensus (restarted s vote_left commit_left taken ro reps vreps creps now) = (Ok tt, s').
Proof.
  intros Hlocal Hr Hv Hc Hro Htorn Hsv Hsc. apply reachable_invariant in Hr; [|done].
  destruct (restarted_opening local_peer_id signing_key s vote_left commit_left taken ro reps vreps creps now Hr Hv Hc Hro)
    as (vls & crs & tv & tc & Hop & Hb).
  pose proof (open_consensus_triple local_peer_id signing_key vls crs tv tc _ Hop) as Ht.
  pose proof (op_ctail _ _ _ _ _ _ _ Hop) as [Hn _].
  assert (tc = []) as ->.
  { unfold torn_tail in Htorn. rewrite Hb, complete_len_lines in Htorn by done.
    apply Nat.ltb_ge in Htorn. rewrite length_app in Htorn. destruct tc; [done|cbn in Htorn; lia]. }
  rewrite Hb, complete_lines_torn, length_map in Hsc
    by (done || apply Forall_forall; intros q (r & -> & _)%list_elem_of_fmap; apply receipt_line).
  assert (sound 6 (nd_votes (restarted s vote_left commit_left taken ro reps vreps creps now)) /\
    sound (6 + 6 * length crs) (nd_commits (restarted s vote_left commit_left taken ro reps vreps creps now))) as Hs
    by (unfold restarted; destruct (nd_sent s) as [[]|], taken; done).
  pose proof (open_sound local_peer_id signing_key vls crs tv [] _ (conj Hop Hs)) as Hs'.
  destruct (open_consensus _) as [[[]|e] s']; [by exists s'|]. exfalso. destruct Ht as [_ He], e as [|e]; [done|].
  apply Hs', elem_of_app. by destruct He as [[He|[? _]]|[He|[? _]]]; [left|done|right|done].
Qed.
(** What is prepared can be completed: in any state a node reaches, completing a pending
    receipt fails only with a system call; the ledger has the room kept for it. *)
Theorem completion_has_room (local_peer_id : string) (signing_key : SigningKey) (storage_schema_version : Z) (s s' : node)
  (receipt : ConsensusCommitReceipt) (e : string) :
  local_peer_id <> ""%string -> reachable local_peer_id signing_key storage_schema_version (Up s) ->
  nd_receipts s !! cr_proposal_id receipt = Some receipt -> cr_committed receipt = false ->
  complete_consensus_commit (completed receipt) s = (Err (Raised e), s') -> e ∈ io_errors "CONSENSUS_COMMIT".
Proof.
  intros Hlocal Hr Hm Hc He. apply reachable_invariant in Hr as (vls & crs & U); [|done].
  pose proof (complete_io local_peer_id signing_key vls crs (completed receipt) s U) as Ht. rewrite He in Ht.
  apply Ht; [|done]. constructor; [|constructor]. by exists receipt.
Qed.
End Claims.

(** ** The claims on sample nodes *)

(** A node whose commit ledger takes the prepared receipt, and fails at its completion *)
Definition opened_with (x : node) : option node :=
  match open_consensus x with (Ok _, s) => Some s | _ => None end.
Definition starting (ro : roster) (vreps creps : list reply) : node :=
  restarted fresh None None false ro (answers 60) vreps creps 0.
Definition stuck_node (r : result string roster) : option node :=
  match r with
  | Err _ => None
  | Ok ro =>
      s ← opened_with (starting ro (answers 60) (answers 8 ++ [Failed 0; Failed 0] ++ answers 20));
      run_calls (peer 1) 1 5 (votes_for ro 2 sample_event) s
  end.
Lemma starting_reachable ro s k vreps creps other : roster_of k other = Ok ro ->
  opened_with (starting ro vreps creps) = Some s -> reachable (peer k) k 5 (Up s).
Proof.
  unfold opened_with, starting. intros Hro. destruct (open_consensus _) as [r t] eqn:E. intros Hs.
  pose proof (step_open (peer k) _ 5 fresh None None false ro _ _ _ _ r t
    (or_introl eq_refl) (or_introl eq_refl) (roster_of_made k other ro Hro) E) as Hstep.
  destruct r; [|done]. injection Hs as <-. eapply reach_step; [apply reach_fresh|exact Hstep].
Qed.
Lemma stuck_reachable r s : r = roster_of 1 2 -> stuck_node r = Some s -> reachable (peer 1) 1 5 (Up s).
Proof.
  unfold stuck_node. intros Hr. destruct r as [ro|]; [|done]. intros (s0 & H1 & H2)%bind_Some.
  apply (run_calls_reachable (peer 1) 1 5 (votes_for ro 2 sample_event) s0 s); [|apply votes_for_ok|exact H2].
  by eapply (starting_reachable ro s0 1 _ _ 2).
Qed.
(** The receipt of the proposal is pending, and completing it fails. *)
Definition stuck (o : option node) : bool :=
  match o with
  | None => false
  | Some s =>
      match nd_receipts s !! "p"%string with
      | Some r =>
          bool_decide (cr_proposal_id r = "p"%string) && negb (cr_committed r) &&
          match complete_consensus_commit (completed r) s with (Err (Raised _), _) => true | _ => false end
      | None => false
      end
  end.
Lemma sample_stuck : stuck (stuck_node (roster_of 1 2)) = true.
Proof. vm_compute. reflexivity. Qed.
Lemma stuck_parts o : stuck o = true -> exists s s' receipt e, o = Some s /\
  nd_receipts s !! cr_proposal_id receipt = Some receipt /\
  cr_committed receipt = false /\ complete_consensus_commit (completed receipt) s = (Err (Raised e), s').
Proof.
  destruct o as [s|]; [|done]. unfold stuck.
  destruct (nd_receipts s !! _) as [receipt|] eqn:Hm; [|done].
  intros [[Hid%bool_decide_eq_true Hc%negb_true_iff]%andb_prop Hs]%andb_prop.
  destruct (complete_consensus_commit _ s) as [[|[|e]] s'] eqn:He; try done.
  exists s, s', receipt, e. by rewrite Hid.
Qed.
Lemma stuck_some r : r = roster_of 1 2 -> stuck (stuck_node r) = true -> exists s s' receipt e,
  reachable (peer 1) 1 5 (Up s) /\ nd_receipts s !! cr_proposal_id receipt = Some receipt /\
  cr_committed receipt = false /\ complete_consensus_commit (completed receipt) s = (Err (Raised e), s').
Proof.
  intros Hr (s & s' & receipt & e & Hs & H1 & H2 & H3)%stuck_parts.
  exists s, s', receipt, e. split; [exact (stuck_reachable r s Hr Hs)|]. split; [exact H1|]. split; [exact H2|exact H3].
Qed.
Lemma completion_has_room_witness : exists s s' receipt e, nd_receipts s !! cr_proposal_id receipt = Some receipt /\
  complete_consensus_commit (completed receipt) s = (Err (Raised e), s') /\ e ∈ io_errors "CONSENSUS_COMMIT".
Proof.
  destruct (stuck_some (roster_of 1 2) eq_refl sample_stuck) as (s & s' & receipt & e & Hr & Hm & Hc & He).
  exists s, s', receipt, e. split; [exact Hm|]. split; [exact He|].
  exact (completion_has_room _ _ _ s s' receipt e (proj1 sample_peer_reachable) Hr Hm Hc He).
Defined.
Definition no_cluster : roster := no_roster.
Lemma reopen_reads_witness : exists e s',
  open_consensus (restarted fresh None None false no_cluster [] [Failed 0] [] 0) = (Err (Raised e), s') /\
  (e ∈ failures \/ e = "CONSENSUS_COMMIT_LEDGER_LIMIT"%string /\ torn_tail None = true).
Proof.
  eexists _, _. split; [reflexivity|].
  eapply (reopen_reads (peer 1) (1 : @SigningKey sample_crates) 5 fresh _ None None false no_cluster [] [Failed 0] [] 0);
    [exact (proj1 sample_peer_reachable)|exact (reach_fresh _ _ _)|by left|by left|by left|reflexivity].
Defined.
(** The sample node after a crash that keeps what was synced *)
Definition left_synced (f : lfile) : option (list byte) := if lf_exists f then Some (lf_synced f) else None.
Lemma left_synced_leaves f : crash_leaves f (left_synced f).
Proof. unfold left_synced. destruct (lf_exists f) eqn:E; [by split; [|left]|by left]. Qed.
Definition reopen_ready (s : node) : bool :=
  negb (torn_tail (left_synced (lg_file (nd_commits s)))) &&
  (6 + 6 * length (complete_lines (default [] (left_synced (lg_file (nd_commits s))))) <=? 60)%nat.
Lemma sample_ready : reopen_ready (node_of (sample_nodes (peer 1))) = true.
Proof. vm_compute. reflexivity. Qed.
Lemma answers_succeed n k : (k <=? n)%nat = true -> succeeding k (answers n).
Proof. intros Hk%Nat.leb_le. by exists n. Qed.
Lemma crashed_ready (x : state) : reachable (peer 1) 1 5 x -> reopen_ready (node_of x) = true ->
  exists s, reachable (peer 1) 1 5 (Down s) /\ reopen_ready s = true.
Proof.
  intros Hr Hs. exists (node_of x). split; [|exact Hs]. destruct x as [s|s]; [|exact Hr].
  eapply reach_step; [exact Hr|constructor].
Qed.
Lemma reopens_witness : exists s s', reachable (peer 1) 1 5 (Down s) /\
  open_consensus (restarted s (left_synced (lg_file (nd_votes s))) (left_synced (lg_file (nd_commits s))) false
    no_cluster [] (answers 6) (answers 60) 0) = (Ok tt, s').
Proof.
  destruct sample_peer_reachable as [Hp Hr0].
  destruct (crashed_ready (sample_nodes (peer 1)) Hr0 sample_ready) as (s & Hr & Hs).
  apply andb_prop in Hs as [Ht Hn]. apply negb_true_iff in Ht.
  destruct (reopens _ _ _ s (left_synced (lg_file (nd_votes s))) (left_synced (lg_file (nd_commits s))) false
    no_cluster [] (answers 6) (answers 60) 0 Hp Hr (left_synced_leaves _) (left_synced_leaves _)
    (or_introl eq_refl) Ht (answers_succeed 6 6 eq_refl) (answers_succeed 60 _ Hn)) as [s' Hs'].
  exists s, s'. split; [exact Hr|exact Hs'].
Defined.

(** ** Where consensus breaks its promises

    Two runs of the sample node that the steps of [ConsensusRuns.v] leave out, and the
    code does not: a checkpoint that folds the journal while a receipt is pending, and a
    restart of the process, not of the machine, after a write that was never synced. *)

(** *** A fold while a receipt is pending *)

(** [save_state] and [compact] ask nothing of the pending receipts before they replace the
    journal by the state of the database. *)
Definition folded (s : node) : node := set_journal [] (nd_sent s) (nd_done s) s.
Definition submits (ro : roster) : call :=
  CallSubmit "p" (peer 2) true (ballot_signature ro 2 sample_event true).
Definition failed_completion (ro : roster) : option node :=
  s ← opened_with (starting ro (answers 60) (answers 8 ++ [Failed 0] ++ answers 20));
  run_calls (peer 1) 1 5 (votes_for ro 2 sample_event) s.
Definition commits_twice (r : result string roster) : bool :=
  match r with
  | Err _ => false
  | Ok ro =>
      match failed_completion ro with
      | None => false
      | Some s =>
          match run_call (peer 1) 1 5 (submits ro) (folded s) with
          | (Ok _, t) => bool_decide (map ct_proposal (nd_done s) = ["p"%string]) &&
                         bool_decide (map ct_proposal (nd_done t) = ["p"; "p"]%string)
          | _ => false
          end
      end
  end.
Lemma sample_commits_twice : commits_twice (roster_of 1 2) = true.
Proof. vm_compute. reflexivity. Qed.
Lemma commits_twice_run r : r = roster_of 1 2 -> commits_twice r = true -> exists s t c,
  reachable (peer 1) 1 5 (Up s) /\ map ct_proposal (nd_done s) = ["p"%string] /\
  run_call (peer 1) 1 5 c (folded s) = (Ok tt, t) /\ map ct_proposal (nd_done t) = ["p"; "p"]%string.
Proof.
  intros Hro Hc. unfold commits_twice in Hc. destruct r as [ro|]; [|discriminate].
  destruct (failed_completion ro) as [s|] eqn:Hs; [|discriminate].
  destruct (run_call _ _ _ _ (folded s)) as [[[]|e] t] eqn:Ht; [|discriminate].
  apply andb_prop in Hc as [H1%bool_decide_eq_true H2%bool_decide_eq_true].
  exists s, t, (submits ro). split; [|split; [exact H1|split; [exact Ht|exact H2]]].
  unfold failed_completion in Hs. apply bind_Some in Hs as (s0 & H3 & H4).
  apply (run_calls_reachable (peer 1) 1 5 (votes_for ro 2 sample_event) s0 s); [|apply votes_for_ok|exact H4].
  exact (starting_reachable ro s0 1 _ _ 2 (eq_sym Hro) H3).
Qed.

(** A completion that could not be written leaves the receipt pending with its event in
    the journal; when a checkpoint folds the journal then, the next vote that comes in
    appends and applies the event of the proposal a second time. *)
Theorem fold_commits_twice : exists s t c, reachable (peer 1) 1 5 (Up s) /\
  map ct_proposal (nd_done s) = ["p"%string] /\
  run_call (peer 1) 1 5 c (folded s) = (Ok tt, t) /\ map ct_proposal (nd_done t) = ["p"; "p"]%string.
Proof. exact (commits_twice_run (roster_of 1 2) eq_refl sample_commits_twice). Qed.

(** *** A restart of the process *)

(** The process ends, the machine goes on: files are what they were, also to the cache of
    the system, and only what was synced survives a crash of the machine. *)
Definition process_restarted (s : node) (ro : roster) (reps vreps creps : list reply) : node :=
  let x := restarted s None None false ro reps vreps creps 0 in
  set_votes {| lg_replies := vreps; lg_file := lg_file (nd_votes s); lg_poisoned := false |}
    (set_commits {| lg_replies := creps; lg_file := lg_file (nd_commits s); lg_poisoned := false |} x).
Definition import_and_sign (approve : bool) : list call :=
  [CallImport (sample_proposal sample_event); CallSign "p" approve].
Definition after (c : call) (s : node) : node := (run_call (peer 1) 1 5 c s).2.
(** The process ends while a ballot is written: the line is written, not synced. *)
Definition killed_signing (ro : roster) : option node :=
  s ← opened_with (starting ro (answers 5) (answers 20)); Some (foldl (fun s c => after c s) s (import_and_sign true)).
(** It starts again, finds the ballot, and gives its signature out. *)
Definition signs_unsynced (ro : roster) : option node :=
  s ← killed_signing ro;
  s ← opened_with (process_restarted s ro (answers 60) (answers 20) (answers 20));
  run_calls (peer 1) 1 5 (import_and_sign true) s.
(** The machine crashes and comes up: the other ballot is signed. *)
Definition signs_other (ro : roster) : option node :=
  s ← signs_unsynced ro;
  s ← opened_with (restarted s None None false ro (answers 60) (answers 60) (answers 60) 0);
  run_calls (peer 1) 1 5 (import_and_sign false) s.
Definition two_ballots (acked : list ConsensusVoteLock) : bool :=
  match acked with
  | [l; l'] => bool_decide (key_of l = key_of l') && vl_approve l && negb (vl_approve l')
  | _ => false
  end.
Definition equivocates (r : result string roster) : bool :=
  match r with
  | Err _ => false
  | Ok ro =>
      match signs_unsynced ro, signs_other ro with
      | Some s, Some t =>
          negb (lf_linked (lg_file (nd_votes s))) && negb (lf_exists (lg_file (nd_commits s))) &&
          two_ballots (nd_acked t)
      | _, _ => false
      end
  end.
Lemma sample_equivocates : equivocates (roster_of 1 2) = true.
Proof. vm_compute. reflexivity. Qed.
Lemma two_ballots_differ acked : two_ballots acked = true -> exists l l', acked = [l; l'] /\
  key_of l = key_of l' /\ vl_approve l = true /\ vl_approve l' = false.
Proof.
  destruct acked as [|l [|l' []]]; try done. cbn.
  intros [[H3%bool_decide_eq_true H4]%andb_prop H5%negb_true_iff]%andb_prop. by exists l, l'.
Qed.
Lemma equivocates_run r : equivocates r = true -> exists ro s t l l', r = Ok ro /\
  signs_unsynced ro = Some s /\ crash_leaves (lg_file (nd_votes s)) None /\ crash_leaves (lg_file (nd_commits s)) None /\
  signs_other ro = Some t /\ nd_acked t = [l; l'] /\ key_of l = key_of l' /\
  vl_approve l = true /\ vl_approve l' = false.
Proof.
  unfold equivocates. destruct r as [ro|]; [|discriminate].
  destruct (signs_unsynced ro) as [s|] eqn:Hs; [|discriminate].
  destruct (signs_other ro) as [t|] eqn:Ht; [|discriminate].
  intros [[H1%negb_true_iff H2%negb_true_iff]%andb_prop H3]%andb_prop.
  destruct (two_ballots_differ _ H3) as (l & l' & Ha & Hk & Hl & Hl').
  exists ro, s, t, l, l'. split; [reflexivity|]. split; [exact Hs|]. split; [right; exact H1|]. split; [left; exact H2|].
  split; [exact Ht|]. split; [exact Ha|]. split; [exact Hk|]. split; [exact Hl|exact Hl'].
Qed.

(** Loading the vote ledger takes a complete line for durable, and does not sync it. A
    process that ends while it writes a ballot, starts again and acknowledges that ballot,
    has it lost by a crash of the machine, and then signs the opposite ballot for the same
    proposal: the node acknowledged two different ballots with one key. *)
Theorem restart_equivocates : exists ro s t l l', roster_of 1 2 = Ok ro /\
  signs_unsynced ro = Some s /\ crash_leaves (lg_file (nd_votes s)) None /\ crash_leaves (lg_file (nd_commits s)) None /\
  signs_other ro = Some t /\ nd_acked t = [l; l'] /\ key_of l = key_of l' /\
  vl_approve l = true /\ vl_approve l' = false.
Proof. exact (equivocates_run (roster_of 1 2) sample_equivocates). Qed.
