(* ===== verification/GraphEvents.v ===== *)
(** * Graph events: clocks, nodes, edges and the journal's event type

    [src/src/lib.rs], lines 371 to 580, 814 to 885, 2838 to 2895, 3074 to 3140, 3750 to
    3810 and 29788 to 29854. A node or an edge carries the logical clock of its last write;
    the events of the journal are what replicas exchange. Payloads the graph does not look
    into are kept in their serialized form. *)
From S2P Require Export Json.
Local Open Scope Z_scope.

(** The serialized form of what an event says about another component *)
Notation content := (list byte).

(** ** Logical clocks *)

Record LogicalClock := { lc_time : Z; lc_peer_id : string }.
#[export] Instance clock_eq_dec : EqDecision LogicalClock.
Proof. solve_decision. Defined.

(** The derived [Ord]: time first, then the peer. *)
Definition cmp_clock : LogicalClock -> LogicalClock -> comparison :=
  cmp_then (cmp_on Z.compare lc_time) (cmp_on cmp_str lc_peer_id).
#[export] Instance cmp_clock_ord : CmpOrd cmp_clock.
Proof.
  split; [apply _|]. intros [t p] [t' p']. unfold cmp_clock, cmp_then, cmp_on. cbn.
  destruct (t ?= t') eqn:Ht; cbn; try done. intros Hp.
  apply Z.compare_eq in Ht. apply (cmp_eq (c := cmp_str)) in Hp. congruence.
Qed.
Definition clock_lt (a b : LogicalClock) : bool :=
  match cmp_clock a b with Lt => true | _ => false end.
(** [a >= b] *)
Definition clock_ge (a b : LogicalClock) : bool := negb (clock_lt a b).

(** ** Nodes and edges *)

(** The field [impact] of historical events *)
Inductive LegacyImpactWire := WireAbsent | WireNull | WireNumber (x : f64).
Definition is_absent (w : LegacyImpactWire) : bool :=
  match w with WireAbsent => true | _ => false end.

Record NodeOutput := {
  no_id : string;
  no_labels : list string;
  no_props : json;
  no_legacy_wire_impact : LegacyImpactWire;
  no_embedding : option (list f64);
  no_lang : option string;
  no_valid_from : string;
  no_valid_to : option string;
  no_caused_by : option string;
  no_expires_at : option string;
  no_clock : LogicalClock;
  no_collection : option string;
}.
Record EdgeOutput := {
  eo_id : string;
  eo_from : string;
  eo_to : string;
  eo_rel : string;
  eo_props : json;
  eo_valid_from : string;
  eo_valid_to : option string;
  eo_recorded_at : string;
  eo_superseded_by : option string;
  eo_legacy_wire_impact : LegacyImpactWire;
  eo_caused_by : option string;
  eo_clock : LogicalClock;
}.
#[export] Instance wire_eq_dec : EqDecision LegacyImpactWire.
Proof. solve_decision. Defined.
#[export] Instance node_eq_dec : EqDecision NodeOutput.
Proof. solve_decision. Defined.
#[export] Instance edge_eq_dec : EqDecision EdgeOutput.
Proof. solve_decision. Defined.

Definition node_with_props (props : json) (w : LegacyImpactWire) (n : NodeOutput) : NodeOutput :=
  {| no_id := no_id n; no_labels := no_labels n; no_props := props; no_legacy_wire_impact := w;
     no_embedding := no_embedding n; no_lang := no_lang n; no_valid_from := no_valid_from n;
     no_valid_to := no_valid_to n; no_caused_by := no_caused_by n;
     no_expires_at := no_expires_at n; no_clock := no_clock n; no_collection := no_collection n |}.
Definition node_without_embedding (n : NodeOutput) : NodeOutput :=
  {| no_id := no_id n; no_labels := no_labels n; no_props := no_props n;
     no_legacy_wire_impact := no_legacy_wire_impact n;
     no_embedding := None; no_lang := no_lang n; no_valid_from := no_valid_from n;
     no_valid_to := no_valid_to n; no_caused_by := no_caused_by n;
     no_expires_at := no_expires_at n; no_clock := no_clock n; no_collection := no_collection n |}.
Definition edge_with_props (props : json) (w : LegacyImpactWire) (e : EdgeOutput) : EdgeOutput :=
  {| eo_id := eo_id e; eo_from := eo_from e; eo_to := eo_to e; eo_rel := eo_rel e;
     eo_props := props; eo_valid_from := eo_valid_from e; eo_valid_to := eo_valid_to e;
     eo_recorded_at := eo_recorded_at e; eo_superseded_by := eo_superseded_by e;
     eo_legacy_wire_impact := w; eo_caused_by := eo_caused_by e; eo_clock := eo_clock e |}.

Record NodeTombstone := { nt_clock : LogicalClock; nt_retracted_at : string }.
Record RetiredEdge := { re_edge : EdgeOutput; re_retired_seq : Z }.

(** ** The migration of a historical [impact] *)

Definition LEGACY_IMPACT_PROP : string := "legacy.genesisdb.impact".
Definition LEGACY_ORIGINAL_PROPS_PROP : string := "legacy.genesisdb.original_props".

(** [Value::as_f64] *)
Definition value_as_f64 (j : json) : option f64 :=
  match j with JNumber n => as_f64 n | _ => None end.
(** [==] of [Option<f64>] with [Some(x)] *)
Definition is_f64 (x : f64) (o : option f64) : bool :=
  match o with Some y => f64_eqb y x | None => false end.

Definition migrate_legacy_impact (props : json) (impact : LegacyImpactWire)
  : result string (json * LegacyImpactWire) :=
  match impact with
  | WireNumber legacy_value =>
      legacy_number ← ok_or (number_of_f64 legacy_value) "KIMPACT_MIGRATION_INVALID"%string;
      let object := match props with
                    | JObject m => m
                    | other => bt_insert cmp_str LEGACY_ORIGINAL_PROPS_PROP other []
                    end in
      match bt_get cmp_str LEGACY_IMPACT_PROP object with
      | Some existing =>
          if is_f64 legacy_value (value_as_f64 existing) then Ok (JObject object, WireAbsent)
          else Err "KIMPACT_MIGRATION_CONFLICT"%string
      | None =>
          Ok (JObject (bt_insert cmp_str LEGACY_IMPACT_PROP (JNumber legacy_number) object), WireAbsent)
      end
  | _ => Ok (props, WireAbsent)
  end.
Definition migrate_legacy_node_impact (n : NodeOutput) : result string NodeOutput :=
  '(props, w) ← migrate_legacy_impact (no_props n) (no_legacy_wire_impact n);
  Ok (node_with_props props w n).
Definition migrate_legacy_edge_impact (e : EdgeOutput) : result string EdgeOutput :=
  '(props, w) ← migrate_legacy_impact (eo_props e) (eo_legacy_wire_impact e);
  Ok (edge_with_props props w e).
Definition reject_legacy_impact (impact : option f64) : result string unit :=
  if is_Some_b impact then Err "KIMPACT_REMOVED"%string else Ok tt.

(** ** Events *)

Record CollectionDefinition := {
  cd_name : string; cd_clock : LogicalClock; cd_rest : content }.
Record CollectionMaterialization := {
  cm_definition : CollectionDefinition; cm_rest : content }.
Record VectorEvent := {
  ve_node_id : string;
  ve_collection : option string;
  ve_embedding : list f64;
  ve_lang : option string;
  ve_clock : LogicalClock;
}.
Record NodeRetractionEvent := {
  nr_id : string; nr_clock : LogicalClock; nr_retracted_at : string }.
Record GenesisTransactionEvent := {
  tx_transaction_id : string;
  tx_origin_commit_seq : Z;
  tx_local_frame_seq : option Z;
  tx_payload_hash : string;
  tx_relational : list content;
  tx_nodes : list NodeOutput;
  tx_edges : list EdgeOutput;
  tx_vectors : list VectorEvent;
  tx_node_retractions : list NodeRetractionEvent;
  tx_advances_txn_frontier : bool;
  tx_record_revision_transaction : option content;
}.
Inductive Event :=
| EvCollectionDefinition (d : CollectionDefinition)
| EvCollectionMaterialization (m : CollectionMaterialization)
| EvVectorMaterialized (v : VectorEvent)
| EvNode (n : NodeOutput)
| EvEdge (e : EdgeOutput)
| EvBatch (events : list Event)
| EvVector (v : VectorEvent)
| EvRelationalSchema (c : content)
| EvRelationalRows (c : content)
| EvTransaction (t : GenesisTransactionEvent)
| EvNodeRetract (id : string) (clock : LogicalClock) (retracted_at : string)
| EvGenerationPublished (c : content)
| EvAccessPolicyChanged (c : content)
| EvSchema6MigrationChunkV1 (c : content)
| EvSchema6MigrationCommitV1 (c : content)
| EvSchema6ActivationV1 (c : content).

Record SignedEvent := {
  se_event : Event; se_signature : list byte; se_signer_peer_id : string }.

(** Induction with the hypothesis for every member of a batch *)
Section EventInd.
Context (P : Event -> Prop).
Context (Hbatch : forall l, Forall P l -> P (EvBatch l))
        (Hleaf : forall e, match e with EvBatch _ => True | _ => P e end).
Fixpoint event_ind' (e : Event) : P e :=
  match e with
  | EvBatch l => Hbatch l ((fix go l : Forall P l :=
      match l with
      | [] => Forall_nil_2 P
      | x :: l' => Forall_cons_2 P x l' (event_ind' x) (go l')
      end) l)
  | e => Hleaf e
  end.
End EventInd.

Fixpoint event_has_legacy_impact (event : Event) : bool :=
  match event with
  | EvNode node => negb (is_absent (no_legacy_wire_impact node))
  | EvEdge edge => negb (is_absent (eo_legacy_wire_impact edge))
  | EvBatch events => existsb event_has_legacy_impact events
  | EvTransaction t =>
      existsb (fun n => negb (is_absent (no_legacy_wire_impact n))) (tx_nodes t) ||
      existsb (fun e => negb (is_absent (eo_legacy_wire_impact e))) (tx_edges t)
  | _ => false
  end.

(** [Iterator::max] *)
Definition iter_max (l : list Z) : option Z :=
  foldr (fun t o => Some (match o with Some m => Z.max t m | None => t end)) None l.

Fixpoint event_time (event : Event) : option Z :=
  match event with
  | EvCollectionDefinition d => Some (lc_time (cd_clock d))
  | EvCollectionMaterialization m => Some (lc_time (cd_clock (cm_definition m)))
  | EvVectorMaterialized v => Some (lc_time (ve_clock v))
  | EvNode n => Some (lc_time (no_clock n))
  | EvEdge e => Some (lc_time (eo_clock e))
  | EvBatch l => iter_max (omap id (map event_time l))
  | EvVector v => Some (lc_time (ve_clock v))
  | EvNodeRetract _ clock _ => Some (lc_time clock)
  | EvGenerationPublished _ | EvAccessPolicyChanged _ | EvSchema6MigrationChunkV1 _
  | EvSchema6MigrationCommitV1 _ | EvSchema6ActivationV1 _ => None
  | EvRelationalSchema _ | EvRelationalRows _ => None
  | EvTransaction t =>
      iter_max (((fun n => lc_time (no_clock n)) <$> tx_nodes t)
             ++ ((fun e => lc_time (eo_clock e)) <$> tx_edges t)
             ++ ((fun v => lc_time (ve_clock v)) <$> tx_vectors t)
             ++ ((fun r => lc_time (nr_clock r)) <$> tx_node_retractions t))
  end.

Fixpoint collect_p6_control_events (event : Event) : list Event :=
  match event with
  | EvGenerationPublished _ | EvAccessPolicyChanged _ | EvSchema6MigrationChunkV1 _
  | EvSchema6MigrationCommitV1 _ | EvSchema6ActivationV1 _ => [event]
  | EvBatch events => concat (map collect_p6_control_events events)
  | _ => []
  end.
Definition contains_p6_control_event (event : Event) : bool :=
  negb (Nat.eqb (length (collect_p6_control_events event)) 0).
Fixpoint contains_transferable_event (event : Event) : bool :=
  match event with
  | EvGenerationPublished _ | EvAccessPolicyChanged _ | EvSchema6MigrationChunkV1 _
  | EvSchema6MigrationCommitV1 _ | EvSchema6ActivationV1 _ => false
  | EvBatch events => existsb contains_transferable_event events
  | _ => true
  end.

(** A replica's own receipt is no other replica's. *)
Definition tx_with_local_frame_seq (o : option Z) (t : GenesisTransactionEvent)
  : GenesisTransactionEvent :=
  {| tx_transaction_id := tx_transaction_id t; tx_origin_commit_seq := tx_origin_commit_seq t;
     tx_local_frame_seq := o; tx_payload_hash := tx_payload_hash t;
     tx_relational := tx_relational t; tx_nodes := tx_nodes t; tx_edges := tx_edges t;
     tx_vectors := tx_vectors t; tx_node_retractions := tx_node_retractions t;
     tx_advances_txn_frontier := tx_advances_txn_frontier t;
     tx_record_revision_transaction := tx_record_revision_transaction t |}.
Definition normalize_replayed_event (local_peer_id : string) (e : SignedEvent) : Event :=
  if negb (bool_decide (se_signer_peer_id e = local_peer_id)) then
    match se_event e with
    | EvTransaction t => EvTransaction (tx_with_local_frame_seq None t)
    | event => event
    end
  else se_event e.

(** ** Laws of the order of clocks *)

Lemma clock_lt_irrefl a : clock_lt a a = false.
Proof. unfold clock_lt. by rewrite (cmp_refl cmp_clock). Qed.
Lemma clock_lt_trans a b c : clock_lt a b = true -> clock_lt b c = true -> clock_lt a c = true.
Proof.
  unfold clock_lt. destruct (cmp_clock a b) eqn:H1; [done| |done].
  destruct (cmp_clock b c) eqn:H2; [done| |done]. by rewrite (cmp_lt_trans cmp_clock a b c).
Qed.
Lemma clock_lt_asym a b : clock_lt a b = true -> clock_lt b a = false.
Proof.
  intros H. destruct (clock_lt b a) eqn:H'; [|done].
  pose proof (clock_lt_trans _ _ _ H H'). by rewrite clock_lt_irrefl in *.
Qed.
Lemma clock_total a b : clock_lt a b = false -> clock_lt b a = false -> a = b.
Proof.
  unfold clock_lt. rewrite (cmp_antisym (c := cmp_clock) a b).
  destruct (cmp_clock a b) eqn:H; try done. intros _ _. by apply (cmp_eq (c := cmp_clock)).
Qed.
Lemma clock_nlt_trans a b c : clock_lt a b = false -> clock_lt b c = false -> clock_lt a c = false.
Proof.
  intros H1 H2. destruct (clock_lt a c) eqn:H; [|done].
  destruct (clock_lt b a) eqn:Hb.
  - by rewrite (clock_lt_trans b a c) in H2.
  - pose proof (clock_total _ _ H1 Hb) as ->. congruence.
Qed.
Lemma clock_lt_time a b : clock_lt a b = true -> lc_time a <= lc_time b.
Proof.
  unfold clock_lt, cmp_clock, cmp_then, cmp_on.
  destruct (Z.compare_spec (lc_time a) (lc_time b)); cbn; try done; intros _; lia.
Qed.
Lemma time_clock_lt a b : lc_time a < lc_time b -> clock_lt a b = true.
Proof.
  intros H. unfold clock_lt, cmp_clock, cmp_then, cmp_on.
  by rewrite (proj2 (Z.compare_lt_iff _ _) H).
Qed.

(** ** What the migration changes *)

Lemma migrate_absent props : migrate_legacy_impact props WireAbsent = Ok (props, WireAbsent).
Proof. reflexivity. Qed.
Lemma migrate_Ok props w props' w' : migrate_legacy_impact props w = Ok (props', w') -> w' = WireAbsent.
Proof.
  destruct w as [| |x]; [by intros [= <- <-]..|].
  intros (y & _ & H)%bind_Ok. cbv zeta in H.
  repeat case_match; congruence.
Qed.
Lemma migrate_node_Ok n n' : migrate_legacy_node_impact n = Ok n' ->
  exists props, n' = node_with_props props WireAbsent n.
Proof.
  intros ([props w] & Hm & [= <-])%bind_Ok. rewrite (migrate_Ok _ _ _ _ Hm). eauto.
Qed.
Lemma migrate_edge_Ok e e' : migrate_legacy_edge_impact e = Ok e' ->
  exists props, e' = edge_with_props props WireAbsent e.
Proof.
  intros ([props w] & Hm & [= <-])%bind_Ok. rewrite (migrate_Ok _ _ _ _ Hm). eauto.
Qed.
Lemma migrate_node_absent n : no_legacy_wire_impact n = WireAbsent ->
  migrate_legacy_node_impact n = Ok n.
Proof.
  intros H. unfold migrate_legacy_node_impact. rewrite H. cbn. f_equal.
  destruct n. cbn in *. by subst.
Qed.
Lemma migrate_edge_absent e : eo_legacy_wire_impact e = WireAbsent ->
  migrate_legacy_edge_impact e = Ok e.
Proof.
  intros H. unfold migrate_legacy_edge_impact. rewrite H. cbn. f_equal.
  destruct e. cbn in *. by subst.
Qed.

Lemma iter_max_cons x l :
  iter_max (x :: l) = Some (match iter_max l with Some m => Z.max x m | None => x end).
Proof. reflexivity. Qed.
Lemma iter_max_le l m t : iter_max l = Some m -> t ∈ l -> t <= m.
Proof.
  revert m; induction l as [|x l IH]; intros m; [done|]. rewrite iter_max_cons.
  destruct (iter_max l) as [m'|] eqn:Hl; intros [= <-] [->|Ht]%elem_of_cons; try lia.
  - specialize (IH _ eq_refl Ht). lia.
  - destruct l; [inversion Ht|]. by rewrite iter_max_cons in Hl.
Qed.
Lemma iter_max_Some l : l <> [] -> is_Some (iter_max l).
Proof. destruct l; [done|]. rewrite iter_max_cons. eauto. Qed.
