(* ===== verification/GraphMemory.v ===== *)
(** * The graph in memory

    [src/src/lib.rs], lines 6015 to 6056, 9998 to 10069, 10634 to 10684, 17793 to 17866,
    22376 to 22454, 25655 to 25729 and 31792 to 31934: the maps of the live graph, the interning
    of identifiers, the two adjacency indexes, retractions, and the one function that applies an
    event of the journal. The vector collections and the engine's other replicated state are
    reached through the interface [Surroundings]. A [DashMap] is a [gmap]; every operation runs
    under the commit lock, so none interleaves with another. *)
From S2P Require Export GraphEvents.
Local Open Scope Z_scope.

(** ** What the graph calls *)

(** The crates: [sha2], [hex], [unicode_general_category] and the case tables of the standard
    library. A scalar is given by its bytes. *)
Class GraphCrates := {
  sha256 : list byte -> list byte;
  hex_encode : list byte -> string;
  is_mark : list byte -> bool;
  char_to_lowercase : list byte -> string;
  str_to_lowercase : string -> string;
  str_to_uppercase : string -> string;
}.

(** The vector collections and the engine's other replicated state, as the graph uses
    them: what they keep and what they do are their own. An operation that may fail tells so
    and leaves a state in either case. The wall clock's stamp of a row is left out. *)
Class Surroundings := {
  vector : Type;
  vector_eq_dec :: EqDecision vector;
  collections : Type;
  default_collection : string;
  coll_dim : collections -> string -> option Z;
  coll_defined : collections -> string -> bool;
  coll_prep : collections -> string -> list f64 -> vector;
  (** A vector of prepared values: each is rounded to [f32] *)
  coll_cast : list f64 -> vector;
  (** [stage]: the row's number *)
  coll_stage : string -> Z -> vector -> string -> Z -> collections -> result string Z * collections;
  (** The names and definition hashes, and the nodes of [node_to_arena] *)
  coll_definitions : collections -> list (string * string);
  coll_members : collections -> list (string * list Z);
  (** [node_to_arena.remove] and [stamp_retired] of every collection *)
  coll_retire : Z -> Z -> collections -> collections;
  (** [preflight_collection_event] *)
  collection_preflight : Event -> collections -> result string unit;
  apply_collection_definition :
    CollectionDefinition -> collections -> result string unit * collections;
  apply_collection_materialization :
    CollectionMaterialization -> collections -> result string unit * collections;
  controls : Type;
  apply_generation_event : content -> Z -> controls -> result string unit * controls;
  apply_access_policy_event : content -> controls -> result string unit * controls;
  apply_schema6_migration_chunk : content -> Z -> controls -> result string unit * controls;
  apply_schema6_migration_commit : content -> Z -> controls -> result string unit * controls;
}.

(** Vectors waiting for the indexing thread *)
Inductive IndexJob `{Surroundings} :=
| IndexOne (collection : string) (arena_id : Z) (emb : vector)
| IndexBatch (collection : string) (items : list (vector * Z)).

Definition u32_modulus : Z := 2 ^ 32.

Section Memory.
Context `{Surroundings}.

(** The fields of [Storage] the graph lives in. *)
Record memory := {
  nodes : gmap Z NodeOutput;
  edges : gmap Z EdgeOutput;
  out_idx : gmap Z (gset Z);
  in_idx : gmap Z (gset Z);
  edges_retired : gmap Z RetiredEdge;
  out_idx_retired : gmap string (gset Z);
  in_idx_retired : gmap string (gset Z);
  id_to_u32 : gmap string Z;
  next_u32 : Z;
  trigram_index : gmap string (gset Z);
  tombstones : gmap string NodeTombstone;
  logical_clock : Z;
  recovery_required : bool;
  txn_frontier : Z;
  colls : collections;
  ctrls : controls;
  index_jobs : list IndexJob;
}.

Definition empty_memory (c : collections) (k : controls) : memory :=
  {| nodes := ∅; edges := ∅; out_idx := ∅; in_idx := ∅; edges_retired := ∅;
     out_idx_retired := ∅; in_idx_retired := ∅; id_to_u32 := ∅; next_u32 := 0;
     trigram_index := ∅; tombstones := ∅; logical_clock := 0; recovery_required := false;
     txn_frontier := 0; colls := c; ctrls := k; index_jobs := [] |}.

Definition set_nodes x (s : memory) : memory :=
  {| nodes := x; edges := edges s; out_idx := out_idx s; in_idx := in_idx s;
     edges_retired := edges_retired s; out_idx_retired := out_idx_retired s;
     in_idx_retired := in_idx_retired s; id_to_u32 := id_to_u32 s; next_u32 := next_u32 s;
     trigram_index := trigram_index s; tombstones := tombstones s;
     logical_clock := logical_clock s; recovery_required := recovery_required s;
     txn_frontier := txn_frontier s; colls := colls s; ctrls := ctrls s; index_jobs := index_jobs s |}.
Definition set_edges x (s : memory) : memory :=
  {| nodes := nodes s; edges := x; out_idx := out_idx s; in_idx := in_idx s;
     edges_retired := edges_retired s; out_idx_retired := out_idx_retired s;
     in_idx_retired := in_idx_retired s; id_to_u32 := id_to_u32 s; next_u32 := next_u32 s;
     trigram_index := trigram_index s; tombstones := tombstones s;
     logical_clock := logical_clock s; recovery_required := recovery_required s;
     txn_frontier := txn_frontier s; colls := colls s; ctrls := ctrls s; index_jobs := index_jobs s |}.
Definition set_idx o i (s : memory) : memory :=
  {| nodes := nodes s; edges := edges s; out_idx := o; in_idx := i;
     edges_retired := edges_retired s; out_idx_retired := out_idx_retired s;
     in_idx_retired := in_idx_retired s; id_to_u32 := id_to_u32 s; next_u32 := next_u32 s;
     trigram_index := trigram_index s; tombstones := tombstones s;
     logical_clock := logical_clock s; recovery_required := recovery_required s;
     txn_frontier := txn_frontier s; colls := colls s; ctrls := ctrls s; index_jobs := index_jobs s |}.
Definition set_retired e o i (s : memory) : memory :=
  {| nodes := nodes s; edges := edges s; out_idx := out_idx s; in_idx := in_idx s;
     edges_retired := e; out_idx_retired := o; in_idx_retired := i;
     id_to_u32 := id_to_u32 s; next_u32 := next_u32 s;
     trigram_index := trigram_index s; tombstones := tombstones s;
     logical_clock := logical_clock s; recovery_required := recovery_required s;
     txn_frontier := txn_frontier s; colls := colls s; ctrls := ctrls s; index_jobs := index_jobs s |}.
Definition set_interned m n t (s : memory) : memory :=
  {| nodes := nodes s; edges := edges s; out_idx := out_idx s; in_idx := in_idx s;
     edges_retired := edges_retired s; out_idx_retired := out_idx_retired s;
     in_idx_retired := in_idx_retired s; id_to_u32 := m; next_u32 := n; trigram_index := t;
     tombstones := tombstones s;
     logical_clock := logical_clock s; recovery_required := recovery_required s;
     txn_frontier := txn_frontier s; colls := colls s; ctrls := ctrls s; index_jobs := index_jobs s |}.
Definition set_tombstones x (s : memory) : memory :=
  {| nodes := nodes s; edges := edges s; out_idx := out_idx s; in_idx := in_idx s;
     edges_retired := edges_retired s; out_idx_retired := out_idx_retired s;
     in_idx_retired := in_idx_retired s; id_to_u32 := id_to_u32 s; next_u32 := next_u32 s;
     trigram_index := trigram_index s; tombstones := x;
     logical_clock := logical_clock s; recovery_required := recovery_required s;
     txn_frontier := txn_frontier s; colls := colls s; ctrls := ctrls s; index_jobs := index_jobs s |}.
(** The clock, the recovery flag and the transaction frontier *)
Definition set_counters c r f (s : memory) : memory :=
  {| nodes := nodes s; edges := edges s; out_idx := out_idx s; in_idx := in_idx s;
     edges_retired := edges_retired s; out_idx_retired := out_idx_retired s;
     in_idx_retired := in_idx_retired s; id_to_u32 := id_to_u32 s; next_u32 := next_u32 s;
     trigram_index := trigram_index s; tombstones := tombstones s;
     logical_clock := c; recovery_required := r; txn_frontier := f;
     colls := colls s; ctrls := ctrls s; index_jobs := index_jobs s |}.
Definition set_surroundings c k j (s : memory) : memory :=
  {| nodes := nodes s; edges := edges s; out_idx := out_idx s; in_idx := in_idx s;
     edges_retired := edges_retired s; out_idx_retired := out_idx_retired s;
     in_idx_retired := in_idx_retired s; id_to_u32 := id_to_u32 s; next_u32 := next_u32 s;
     trigram_index := trigram_index s; tombstones := tombstones s;
     logical_clock := logical_clock s; recovery_required := recovery_required s;
     txn_frontier := txn_frontier s; colls := c; ctrls := k; index_jobs := j |}.

(** [recovery_required.store(true)] *)
Definition require_recovery (s : memory) : memory :=
  set_counters (logical_clock s) true (txn_frontier s) s.
(** [logical_clock.fetch_max] *)
Definition advance_clock (t : Z) (s : memory) : memory :=
  set_counters (Z.max (logical_clock s) t) (recovery_required s) (txn_frontier s) s.
(** [txn_frontier.fetch_max] *)
Definition advance_frontier (seq : Z) (s : memory) : memory :=
  set_counters (logical_clock s) (recovery_required s) (Z.max (txn_frontier s) seq) s.
End Memory.

(** ** Index maps *)

(** [entry(k).or_default().insert(x)] and [get_mut(k)] with [remove(x)], which keeps the
    entry of an emptied set. *)
Definition index_insert {K} `{Countable K} (k : K) (x : Z) (m : gmap K (gset Z)) : gmap K (gset Z) :=
  <[k := {[x]} ∪ default ∅ (m !! k)]> m.
Definition index_remove {K} `{Countable K} (k : K) (x : Z) (m : gmap K (gset Z)) : gmap K (gset Z) :=
  alter (fun ids => ids ∖ {[x]}) k m.

Section Operations.
Context `{GraphCrates} `{Surroundings}.
Implicit Types s : memory.

(** ** Identifiers *)

Definition text (cs : list (list byte)) : string := str_of_bytes (concat cs).
(** [windows(2)] *)
Fixpoint windows2 {A} (l : list A) : list (A * A) :=
  match l with
  | a :: (b :: _) as l' => (a, b) :: windows2 l'
  | _ => []
  end.
Definition tokenize_id (id : string) : list string :=
  let base := List.filter (fun c => negb (is_mark c)) (chars id) in
  (char_to_lowercase <$> chars id)
  ++ (if bool_decide (id = text base) then [] else char_to_lowercase <$> base)
  ++ ((fun w => str_to_lowercase (text [w.1; w.2])) <$> windows2 (chars id)).

Definition get_u32 (s : memory) (id : string) : option Z := id_to_u32 s !! id.
Definition get_or_intern_id (id : string) (s : memory) : Z * memory :=
  match id_to_u32 s !! id with
  | Some existing => (existing, s)
  | None =>
      let new_id := next_u32 s in
      (new_id,
       set_interned (<[id := new_id]> (id_to_u32 s)) ((new_id + 1) mod u32_modulus)
         (foldl (fun t trigram => index_insert trigram new_id t) (trigram_index s) (tokenize_id id)) s)
  end.
(** [u128::from_be_bytes] of the digest's first 16 bytes *)
Definition edge_key (id : string) : Z := be_val (take 16 (sha256 (str_bytes id))).
(** The node an identifier names *)
Definition live_node (s : memory) (id : string) : option NodeOutput :=
  get_u32 s id ≫= fun u => nodes s !! u.

(** [fetch_add] wraps, and so does the addition outside it in a release build. *)
Definition next_clock (peer : string) (s : memory) : LogicalClock * memory :=
  ({| lc_time := (logical_clock s + 1) mod u32_modulus; lc_peer_id := peer |},
   set_counters ((logical_clock s + 1) mod u32_modulus) (recovery_required s) (txn_frontier s) s).

(** ** Edges *)

Definition unindex_edge (ekey : Z) (s : memory) : memory :=
  match edges s !! ekey with
  | Some old =>
      let o := match get_u32 s (eo_from old) with
               | Some u => index_remove u ekey (out_idx s) | None => out_idx s end in
      let i := match get_u32 s (eo_to old) with
               | Some u => index_remove u ekey (in_idx s) | None => in_idx s end in
      set_idx o i s
  | None => s
  end.
Definition index_edge_internal (id from to : string) (s : memory) : Z * memory :=
  let ekey := edge_key id in
  let s := unindex_edge ekey s in
  let '(u32_from, s) := get_or_intern_id from s in
  let '(u32_to, s) := get_or_intern_id to s in
  (ekey, set_idx (index_insert u32_from ekey (out_idx s)) (index_insert u32_to ekey (in_idx s)) s).
(** The index and the map, as every caller updates them *)
Definition insert_edge (e : EdgeOutput) (s : memory) : memory :=
  let '(ekey, s) := index_edge_internal (eo_id e) (eo_from e) (eo_to e) s in
  set_edges (<[ekey := e]> (edges s)) s.

(** ** Nodes *)

(** Most properties live in the projection only. *)
Definition lean_node (node : NodeOutput) : NodeOutput :=
  let node := node_without_embedding node in
  if match json_get LEGACY_IMPACT_PROP (no_props node) with
     | Some value => negb (is_Some_b (value_as_f64 value))
     | None => true
     end
  then node_with_props JNull (no_legacy_wire_impact node) node else node.
Definition insert_node_lean (u32_id : Z) (node : NodeOutput) (s : memory) : memory :=
  match migrate_legacy_node_impact node with
  | Err _ => require_recovery s
  | Ok node =>
      let s := set_tombstones (delete (no_id node) (tombstones s)) s in
      set_nodes (<[u32_id := lean_node node]> (nodes s)) s
  end.
Definition insert_node_lean_snapshot (u32_id : Z) (node : NodeOutput) (s : memory) : memory :=
  if bool_decide (no_props node = JNull) &&
     match no_legacy_wire_impact node with WireNumber _ => true | _ => false end
  then
    let s := set_tombstones (delete (no_id node) (tombstones s)) s in
    set_nodes (<[u32_id := node_without_embedding node]> (nodes s)) s
  else insert_node_lean u32_id node s.

(** ** Retraction *)

Definition unwire_edge (eid : Z) (s : memory) : memory :=
  match edges s !! eid with
  | Some edge =>
      match get_u32 s (eo_from edge), get_u32 s (eo_to edge) with
      | Some from_u32, Some to_u32 =>
          set_idx (index_remove from_u32 eid (out_idx s)) (index_remove to_u32 eid (in_idx s)) s
      | _, _ => s
      end
  | None => s
  end.
Definition retire_edge (retired_seq : Z) (s : memory) (eid : Z) : memory :=
  let s := unwire_edge eid s in
  match edges s !! eid with
  | Some edge =>
      set_retired (<[eid := {| re_edge := edge; re_retired_seq := retired_seq |}]> (edges_retired s))
        (index_insert (eo_from edge) eid (out_idx_retired s))
        (index_insert (eo_to edge) eid (in_idx_retired s))
        (set_edges (delete eid (edges s)) s)
  | None => s
  end.
(** The node's own entries *)
Definition drop_node (id : string) (u32_id retired_seq : Z) (s : memory) : memory :=
  let s := set_interned (delete id (id_to_u32 s)) (next_u32 s) (trigram_index s) s in
  let s := set_idx (delete u32_id (out_idx s)) (delete u32_id (in_idx s)) s in
  let s := set_surroundings (coll_retire u32_id retired_seq (colls s)) (ctrls s) (index_jobs s) s in
  set_nodes (delete u32_id (nodes s)) s.
Definition retract_node_memory (id : string) (u32_id retired_seq : Z) (s : memory) : memory :=
  let edges_to_remove := elements (default ∅ (out_idx s !! u32_id)) ++
                         elements (default ∅ (in_idx s !! u32_id)) in
  drop_node id u32_id retired_seq (foldl (retire_edge retired_seq) s edges_to_remove).
Definition insert_tombstone (id : string) (t : NodeTombstone) (s : memory) : memory :=
  set_tombstones (<[id := t]> (tombstones s)) s.

(** ** Vectors *)

(** [stage], and the two ways a staged vector goes to the indexing thread *)
Definition stage (name : string) (node_u32 : Z) (e : vector) (lang : string) (created_seq : Z)
  (s : memory) : result string Z * memory :=
  let '(r, c) := coll_stage name node_u32 e lang created_seq (colls s) in
  (r, set_surroundings c (ctrls s) (index_jobs s) s).
Definition enqueue (job : IndexJob) (s : memory) : memory :=
  set_surroundings (colls s) (ctrls s) (index_jobs s ++ [job]) s.
Definition stage_vector (index : bool) (name : string) (node_u32 : Z) (e : vector) (lang : string)
  (created_seq : Z) (s : memory) : result string unit * memory :=
  match stage name node_u32 e lang created_seq s with
  | (Ok arena_id, s) => (Ok tt, if index then enqueue (IndexOne name arena_id e) s else s)
  | (Err e, s) => (Err e, s)
  end.
Definition collection_name (collection : option string) : string :=
  default default_collection collection.
Definition replay_vector (index : bool) (collection : option string) (node_id : string)
  (emb : list f64) (lang : string) (created_seq : Z) (s : memory) : memory :=
  let name := collection_name collection in
  match coll_dim (colls s) name with
  | None => require_recovery s
  | Some dim =>
      if negb (zlen emb =? dim) then require_recovery s
      else
        let '(node_u32, s) := get_or_intern_id node_id s in
        match stage_vector index name node_u32 (coll_prep (colls s) name emb) lang created_seq s with
        | (Ok _, s) => s
        | (Err _, s) => require_recovery s
        end
  end.
Definition replay_materialized_vector (index : bool) (v : VectorEvent) (seq : Z) (s : memory)
  : result string unit * memory :=
  let name := collection_name (ve_collection v) in
  match coll_dim (colls s) name with
  | None => (Err "collection not found"%string, s)
  | Some _ =>
      let '(node, s) := get_or_intern_id (ve_node_id v) s in
      stage_vector index name node (coll_cast (ve_embedding v)) (default "en"%string (ve_lang v)) seq s
  end.
Definition replay_node_vector (index : bool) (n : NodeOutput) (seq : Z) (s : memory) : memory :=
  match no_embedding n with
  | Some emb =>
      replay_vector index (no_collection n) (no_id n) emb (default "en"%string (no_lang n)) seq s
  | None => s
  end.
Definition replay_event_vector (index : bool) (seq : Z) (v : VectorEvent) (s : memory) : memory :=
  replay_vector index (ve_collection v) (ve_node_id v) (ve_embedding v)
    (default "en"%string (ve_lang v)) seq s.

(** ** Transactions *)

Definition apply_transaction_node (index : bool) (seq : Z) (s : memory) (node : NodeOutput) : memory :=
  let '(node_u32, s) := get_or_intern_id (no_id node) s in
  insert_node_lean node_u32 node (replay_node_vector index node seq s).
Definition apply_transaction_edge (s : memory) (edge : EdgeOutput) : memory :=
  match edges s !! edge_key (eo_id edge) with
  | Some old => if clock_lt (eo_clock edge) (eo_clock old) then s else insert_edge edge s
  | None => insert_edge edge s
  end.
Definition apply_transaction_retraction (seq : Z) (s : memory) (r : NodeRetractionEvent) : memory :=
  let s := match get_u32 s (nr_id r) with
           | Some node_u32 => retract_node_memory (nr_id r) node_u32 seq s
           | None => s
           end in
  insert_tombstone (nr_id r)
    {| nt_clock := nr_clock r; nt_retracted_at := nr_retracted_at r |} s.
Definition apply_transaction_memory (t : GenesisTransactionEvent) (index : bool) (commit_seq : Z)
  (s : memory) : memory :=
  match traverse migrate_legacy_node_impact (tx_nodes t) with
  | Err _ => require_recovery s
  | Ok tnodes =>
      match traverse migrate_legacy_edge_impact (tx_edges t) with
      | Err _ => require_recovery s
      | Ok tedges =>
          let s := foldl (apply_transaction_node index commit_seq) s tnodes in
          let s := match event_time (EvTransaction t) with
                   | Some clock => advance_clock clock s | None => s end in
          let s := foldl apply_transaction_edge s tedges in
          let s := foldl (apply_transaction_retraction commit_seq) s (tx_node_retractions t) in
          foldl (fun s v => replay_event_vector index commit_seq v s) s (tx_vectors t)
      end
  end.

(** ** The application of an event *)

(** A failure asks for recovery. *)
Definition or_recover (r : result string unit * memory) : memory :=
  match r with (Ok _, s) => s | (Err _, s) => require_recovery s end.
Definition on_collections (r : result string unit * collections) (s : memory)
  : result string unit * memory := (r.1, set_surroundings r.2 (ctrls s) (index_jobs s) s).
Definition on_controls (r : result string unit * controls) (s : memory)
  : result string unit * memory := (r.1, set_surroundings (colls s) r.2 (index_jobs s) s).

(** Whether what the replica holds wins over an upsert, or over a retraction *)
Definition node_superseded (s : memory) (id : string) (clock : LogicalClock) : bool :=
  match live_node s id with Some old => clock_lt clock (no_clock old) | None => false end ||
  match tombstones s !! id with Some old => clock_ge (nt_clock old) clock | None => false end.

Fixpoint apply_event_memory (index : bool) (seq : Z) (event : Event) (s : memory) : memory :=
  let s := match event_time event with Some clock => advance_clock clock s | None => s end in
  match event with
  | EvCollectionDefinition d =>
      or_recover (on_collections (apply_collection_definition d (colls s)) s)
  | EvCollectionMaterialization m =>
      or_recover (on_collections (apply_collection_materialization m (colls s)) s)
  | EvVectorMaterialized v => or_recover (replay_materialized_vector index v seq s)
  | EvNode n =>
      if node_superseded s (no_id n) (no_clock n) then s
      else
        let '(u32_id, s) := get_or_intern_id (no_id n) s in
        insert_node_lean u32_id n (replay_node_vector index n seq s)
  | EvEdge e =>
      match migrate_legacy_edge_impact e with
      | Err _ => require_recovery s
      | Ok e =>
          match edges s !! edge_key (eo_id e) with
          | Some old => if clock_lt (eo_clock e) (eo_clock old) then s else insert_edge e s
          | None => insert_edge e s
          end
      end
  | EvVector v => replay_event_vector index seq v s
  | EvBatch events => foldl (fun s e => apply_event_memory index seq e s) s events
  | EvRelationalSchema _ | EvRelationalRows _ => s
  | EvTransaction t =>
      let transaction_seq := default seq (tx_local_frame_seq t) in
      let s := apply_transaction_memory t index transaction_seq s in
      if tx_advances_txn_frontier t then advance_frontier transaction_seq s else s
  | EvNodeRetract id clock retracted_at =>
      if node_superseded s id clock then s
      else
        let s := match get_u32 s id with
                 | Some u32_id => retract_node_memory id u32_id seq s | None => s end in
        insert_tombstone id {| nt_clock := clock; nt_retracted_at := retracted_at |} s
  | EvGenerationPublished c => or_recover (on_controls (apply_generation_event c seq (ctrls s)) s)
  | EvAccessPolicyChanged c => or_recover (on_controls (apply_access_policy_event c (ctrls s)) s)
  | EvSchema6MigrationChunkV1 c =>
      or_recover (on_controls (apply_schema6_migration_chunk c seq (ctrls s)) s)
  | EvSchema6MigrationCommitV1 c =>
      or_recover (on_controls (apply_schema6_migration_commit c seq (ctrls s)) s)
  | EvSchema6ActivationV1 _ => s
  end.
(** Replay only stages vectors: the indexes are built once, after it. *)
Definition apply_replay_event (s : memory) (frame : Z * Event) : memory :=
  apply_event_memory false frame.1 frame.2 s.

(** ** Maintenance *)

(** [perform_index_compaction], its last step: the adjacency of numbers without a node *)
Definition prune_adjacency (s : memory) : memory :=
  let live (p : Z * gset Z) := is_Some (nodes s !! p.1) in
  set_idx (filter live (out_idx s)) (filter live (in_idx s)) s.
(** [checkpoint_wal_payload] after a fold *)
Definition clear_retired (s : memory) : memory := set_retired ∅ ∅ ∅ s.
(** A checkpoint's sweep of the tombstones whose retention has ended *)
Definition sweep_tombstones (expired : string -> bool) (s : memory) : memory :=
  set_tombstones (filter (fun p => expired (nt_retracted_at p.2) = false) (tombstones s)) s.

(** ** The digest replicas compare *)

(** Each field with its length before it *)
Definition root_entry (parts : list (list byte)) : list byte :=
  concat ((fun p => le_bytes 4 (zlen p) ++ p) <$> parts).
Definition definition_entry (d : string * string) : list byte :=
  root_entry [str_bytes "C"; str_bytes d.1; str_bytes d.2].
Definition node_entry (n : NodeOutput) : list byte :=
  root_entry [str_bytes "N"; str_bytes (no_id n); le_bytes 4 (lc_time (no_clock n));
              str_bytes (lc_peer_id (no_clock n)); str_bytes (default ""%string (no_valid_to n))].
Definition edge_entry (e : EdgeOutput) : list byte :=
  root_entry [str_bytes "E"; str_bytes (eo_id e); le_bytes 4 (lc_time (eo_clock e));
              str_bytes (lc_peer_id (eo_clock e)); str_bytes (default ""%string (eo_valid_to e))].
Definition vector_entry (s : memory) (name : string) (u : Z) : option (list byte) :=
  (fun n => root_entry [str_bytes "V"; str_bytes name; str_bytes (no_id n)]) <$> nodes s !! u.
Definition vector_entries (s : memory) : list (list byte) :=
  concat (map (fun c : string * list Z => omap (vector_entry s c.1) c.2) (coll_members (colls s))).
Definition root_entries (s : memory) : list (list byte) :=
  (definition_entry <$> coll_definitions (colls s))
  ++ (node_entry <$> (map_to_list (nodes s)).*2)
  ++ (edge_entry <$> (map_to_list (edges s)).*2)
  ++ vector_entries s.
Definition get_merkle_root (s : memory) : string :=
  match root_entries s with
  | [] => str_of_bytes (replicate 64 (byte_of 48))
  | entries => hex_encode (sha256 (concat (sort_by (cmp_list cmp_byte) entries)))
  end.

(** ** Snapshots *)

(** [nodes.bin], [edges.bin], [edges_retired.bin] and the parts of [state.json] *)
Record snapshot := {
  sn_nodes : list (Z * NodeOutput);
  sn_edges : list (Z * EdgeOutput);
  sn_retired : list (Z * RetiredEdge);
  sn_tombstones : list (string * NodeTombstone);
  sn_logical_clock : Z;
}.
(** [hydrate]: the node with its properties from the projection, for nodes whose historical
    [impact] has not been migrated *)
Definition save_nodes (hydrate : Z -> NodeOutput -> result string NodeOutput) (s : memory)
  : result string (list (Z * NodeOutput)) :=
  traverse (fun p => n ← (if is_absent (no_legacy_wire_impact p.2) then Ok p.2 else hydrate p.1 p.2);
                     Ok (p.1, n)) (map_to_list (nodes s)).
Definition save_maps (hydrate : Z -> NodeOutput -> result string NodeOutput) (s : memory)
  : result string snapshot :=
  ns ← save_nodes hydrate s;
  Ok {| sn_nodes := ns; sn_edges := map_to_list (edges s);
        sn_retired := map_to_list (edges_retired s);
        sn_tombstones := map_to_list (tombstones s); sn_logical_clock := logical_clock s |}.

Definition migrate_saved_node (p : Z * NodeOutput) : result string (Z * NodeOutput) :=
  let deferred_lean_props := bool_decide (no_props p.2 = JNull) &&
     match no_legacy_wire_impact p.2 with WireNumber _ => true | _ => false end in
  validation ← migrate_legacy_node_impact p.2;
  Ok (p.1, if deferred_lean_props then p.2 else validation).
Definition load_node (s : memory) (p : Z * NodeOutput) : memory :=
  let s := set_interned (<[no_id p.2 := p.1]> (id_to_u32 s)) (next_u32 s)
    (foldl (fun t trigram => index_insert trigram p.1 t) (trigram_index s) (tokenize_id (no_id p.2))) s in
  insert_node_lean_snapshot p.1 p.2 s.
Definition u32_saturating_succ (k : Z) : Z := Z.min (k + 1) u32_max.
Definition load_nodes (l : list (Z * NodeOutput)) (s : memory) : option memory :=
  match traverse migrate_saved_node l with
  | Err _ => None
  | Ok l =>
      let next_node_id := foldl (fun m p => Z.max m (u32_saturating_succ p.1)) 0 l in
      let s := foldl load_node s l in
      Some (set_interned (id_to_u32 s) next_node_id (trigram_index s) s)
  end.
Definition load_edge (s : memory) (v : EdgeOutput) : memory :=
  let k := edge_key (eo_id v) in
  let '(from_u32, s) := get_or_intern_id (eo_from v) s in
  let '(to_u32, s) := get_or_intern_id (eo_to v) s in
  let s := set_idx (index_insert from_u32 k (out_idx s)) (index_insert to_u32 k (in_idx s)) s in
  set_edges (<[k := v]> (edges s)) s.
Definition load_edges (l : list (Z * EdgeOutput)) (s : memory) : option memory :=
  match traverse migrate_legacy_edge_impact l.*2 with
  | Err _ => None
  | Ok l => Some (foldl load_edge s l)
  end.
Definition load_retired (s : memory) (r : RetiredEdge) : memory :=
  let k := edge_key (eo_id (re_edge r)) in
  set_retired (<[k := r]> (edges_retired s))
    (index_insert (eo_from (re_edge r)) k (out_idx_retired s))
    (index_insert (eo_to (re_edge r)) k (in_idx_retired s)) s.
Definition load_tombstones (l : list (string * NodeTombstone)) (s : memory) : memory :=
  set_tombstones (foldl (fun m p => <[p.1 := p.2]> m) ∅ l) s.
(** [try_load_state] over an opened store's empty maps; [None] when the snapshot is refused *)
Definition load_maps (f : snapshot) (s : memory) : option memory :=
  let s := load_tombstones (sn_tombstones f) s in
  s ← load_nodes (sn_nodes f) s;
  s ← load_edges (sn_edges f) s;
  let s := foldl load_retired s (sn_retired f).*2 in
  Some (set_counters (sn_logical_clock f) (recovery_required s) (txn_frontier s) s).
End Operations.
