(* ===== verification/GraphInvariant.v ===== *)
(** * The invariant of the graph in memory

    Identifiers have distinct numbers; a node stands under the number of its identifier, and
    has no tombstone; the two adjacency indexes say exactly which edges leave and enter a
    node. Every event keeps this, as long as the counter of numbers does not wrap. *)
From S2P Require Export GraphMemory.
Local Open Scope Z_scope.

(** ** Index maps *)

Definition adj {K} `{Countable K} (m : gmap K (gset Z)) (k : K) : gset Z := default ∅ (m !! k).

Section Index.
Context {K : Type} `{Countable K}.
Implicit Types (m : gmap K (gset Z)) (k : K) (x : Z).

Lemma adj_insert m k x k' y :
  y ∈ adj (index_insert k x m) k' <-> (k' = k /\ y = x) \/ y ∈ adj m k'.
Proof.
  unfold adj, index_insert. destruct (decide (k' = k)) as [->|Hk].
  - rewrite lookup_insert_eq. cbn. set_solver.
  - rewrite lookup_insert_ne by done. naive_solver.
Qed.
Lemma adj_remove m k x k' y :
  y ∈ adj (index_remove k x m) k' <-> y ∈ adj m k' /\ ~ (k' = k /\ y = x).
Proof.
  unfold adj, index_remove. destruct (decide (k' = k)) as [->|Hk].
  - rewrite lookup_alter_eq. destruct (m !! k); cbn; set_solver.
  - rewrite lookup_alter_ne by done. naive_solver.
Qed.
Lemma adj_delete m k k' y : y ∈ adj (delete k m) k' <-> y ∈ adj m k' /\ k' <> k.
Proof.
  unfold adj. destruct (decide (k' = k)) as [->|Hk].
  - rewrite lookup_delete_eq. cbn. set_solver.
  - rewrite lookup_delete_ne by done. naive_solver.
Qed.
End Index.

(** ** The parts of the invariant *)

Section Parts.
Context `{GraphCrates}.
Implicit Types (ids : gmap string Z) (N : gmap Z NodeOutput) (E : gmap Z EdgeOutput)
  (O I : gmap Z (gset Z)) (T : gmap string NodeTombstone).

Record ids_ok ids (next : Z) : Prop := {
  ids_bound id u : ids !! id = Some u -> 0 <= u < next;
  ids_next : 0 <= next;
  ids_inj id id' u : ids !! id = Some u -> ids !! id' = Some u -> id = id';
}.
Record nodes_ok N ids T : Prop := {
  node_named u n : N !! u = Some n -> ids !! no_id n = Some u;
  node_unburied u n : N !! u = Some n -> T !! no_id n = None;
  node_lean u n : N !! u = Some n -> lean_node n = n /\ no_legacy_wire_impact n = WireAbsent;
}.
Record edges_ok E ids O I : Prop := {
  edge_keyed k e : E !! k = Some e -> k = edge_key (eo_id e);
  edge_from_interned k e : E !! k = Some e -> is_Some (ids !! eo_from e);
  edge_to_interned k e : E !! k = Some e -> is_Some (ids !! eo_to e);
  out_exact u k : k ∈ adj O u <-> exists e, E !! k = Some e /\ ids !! eo_from e = Some u;
  in_exact u k : k ∈ adj I u <-> exists e, E !! k = Some e /\ ids !! eo_to e = Some u;
}.

(** *** A new identifier *)

Lemma ids_ok_intern ids next id :
  ids_ok ids next -> ids !! id = None -> ids_ok (<[id := next]> ids) (next + 1).
Proof.
  intros [Hb Hn Hi] Hid. split; [|lia|].
  - intros i u [[-> ->]|[_ Hu]]%lookup_insert_Some; [lia|]. specialize (Hb _ _ Hu). lia.
  - intros i j u [[-> ->]|[Hne Hu]]%lookup_insert_Some [[-> ?]|[Hne' Hu']]%lookup_insert_Some;
      subst; eauto; [specialize (Hb _ _ Hu')|specialize (Hb _ _ Hu)]; lia.
Qed.
Lemma nodes_ok_intern N ids T id u :
  ids !! id = None -> nodes_ok N ids T -> nodes_ok N (<[id := u]> ids) T.
Proof.
  intros Hid [Hn Hb Hl]. split; [|done..]. intros v n Hv. specialize (Hn _ _ Hv).
  rewrite lookup_insert_ne; [done|]. intros ->. congruence.
Qed.
Lemma edges_ok_intern E ids O I id u :
  ids !! id = None -> edges_ok E ids O I -> edges_ok E (<[id := u]> ids) O I.
Proof.
  intros Hid [Hk Hf Ht Ho Hi].
  assert (forall j, is_Some (ids !! j) -> <[id := u]> ids !! j = ids !! j) as Hsame.
  { intros j [v Hv]. rewrite lookup_insert_ne; [done|]. intros ->. congruence. }
  split; [done| | |intros v k; rewrite Ho|intros v k; rewrite Hi].
  - intros k e He. rewrite Hsame; eauto.
  - intros k e He. rewrite Hsame; eauto.
  - split; intros (e & He & Hu); exists e; (split; [done|]); rewrite Hsame in *; eauto.
  - split; intros (e & He & Hu); exists e; (split; [done|]); rewrite Hsame in *; eauto.
Qed.

(** *** Nodes and tombstones *)

Lemma lean_lean n : lean_node (lean_node n) = lean_node n.
Proof.
  destruct n as [id labels props w emb lang vf vt cb ex c coll]. unfold lean_node, node_with_props, node_without_embedding.
  cbn. destruct (json_get LEGACY_IMPACT_PROP props) as [v|] eqn:Hg; [destruct (value_as_f64 v) eqn:Hv|]; cbn; try done.
  by rewrite Hg, Hv.
Qed.

Lemma nodes_ok_upsert N ids T u n :
  (forall id id' u, ids !! id = Some u -> ids !! id' = Some u -> id = id') ->
  nodes_ok N ids T -> ids !! no_id n = Some u ->
  lean_node n = n -> no_legacy_wire_impact n = WireAbsent ->
  nodes_ok (<[u := n]> N) ids (delete (no_id n) T).
Proof.
  intros Hinj [Hn Hb Hl] Hu He Hw. split.
  - intros v m [[-> ->]|[_ Hv]]%lookup_insert_Some; eauto.
  - intros v m [[-> ->]|[_ Hv]]%lookup_insert_Some; [apply lookup_delete_eq|].
    apply lookup_delete_None. right. eauto.
  - intros v m [[-> ->]|[_ Hv]]%lookup_insert_Some; eauto.
Qed.
Lemma nodes_ok_drop N ids T id u :
  ids !! id = Some u -> nodes_ok N ids T -> nodes_ok (delete u N) (delete id ids) T.
Proof.
  intros Hid [Hn Hb Hl]. split.
  - intros v n [Hv Hm]%lookup_delete_Some. specialize (Hn _ _ Hm).
    rewrite lookup_delete_ne; [done|]. intros ->. congruence.
  - intros v n [Hv Hm]%lookup_delete_Some. eauto.
  - intros v n [Hv Hm]%lookup_delete_Some. eauto.
Qed.
Lemma nodes_ok_bury N ids T id t :
  (forall u n, N !! u = Some n -> no_id n <> id) -> nodes_ok N ids T -> nodes_ok N ids (<[id := t]> T).
Proof.
  intros Hid [Hn Hb Hl]. split; [done| |done].
  intros u n Hu. rewrite lookup_insert_ne; eauto. intros ->. by eapply Hid.
Qed.

(** *** Edges *)

Definition unindexed ids (m : gmap Z (gset Z)) (k : Z) (id : string) : gmap Z (gset Z) :=
  match ids !! id with Some u => index_remove u k m | None => m end.
Lemma adj_unindexed ids m k id u x :
  x ∈ adj (unindexed ids m k id) u <-> x ∈ adj m u /\ ~ (ids !! id = Some u /\ x = k).
Proof.
  unfold unindexed. destruct (ids !! id) as [v|]; [|naive_solver].
  rewrite adj_remove. naive_solver.
Qed.
(** The indexes without the entries of the edge under [k], if there is one *)
Definition unindexed_at (f : EdgeOutput -> string) E ids (m : gmap Z (gset Z)) (k : Z) :=
  match E !! k with Some old => unindexed ids m k (f old) | None => m end.
Lemma adj_unindexed_at f E ids m k u x :
  (forall u x, x ∈ adj m u <-> exists e, E !! x = Some e /\ ids !! f e = Some u) ->
  x ∈ adj (unindexed_at f E ids m k) u <-> x <> k /\ x ∈ adj m u.
Proof.
  intros Hm. unfold unindexed_at. destruct (E !! k) as [old|] eqn:Hk.
  - rewrite adj_unindexed, Hm. naive_solver.
  - rewrite Hm. naive_solver.
Qed.

Lemma edges_ok_insert E ids ids' O I e u v :
  edges_ok E ids O I -> edges_ok E ids' O I -> 
  ids' !! eo_from e = Some u -> ids' !! eo_to e = Some v ->
  let k := edge_key (eo_id e) in
  edges_ok (<[k := e]> E) ids'
    (index_insert u k (unindexed_at eo_from E ids O k))
    (index_insert v k (unindexed_at eo_to E ids I k)).
Proof.
  intros Hok [Hk Hf Ht Ho Hi] Hu Hv k. split.
  - intros j d [[<- <-]|[_ Hj]]%lookup_insert_Some; eauto.
  - intros j d [[<- <-]|[_ Hj]]%lookup_insert_Some; eauto.
  - intros j d [[<- <-]|[_ Hj]]%lookup_insert_Some; eauto.
  - intros w j. rewrite adj_insert, adj_unindexed_at by apply Hok. rewrite Ho.
    destruct (decide (j = k)) as [->|Hj].
    + rewrite lookup_insert_eq. naive_solver.
    + rewrite lookup_insert_ne by done. naive_solver.
  - intros w j. rewrite adj_insert, adj_unindexed_at by apply Hok. rewrite Hi.
    destruct (decide (j = k)) as [->|Hj].
    + rewrite lookup_insert_eq. naive_solver.
    + rewrite lookup_insert_ne by done. naive_solver.
Qed.
Lemma edges_ok_retire E ids O I k e u v :
  edges_ok E ids O I -> E !! k = Some e -> ids !! eo_from e = Some u -> ids !! eo_to e = Some v ->
  edges_ok (delete k E) ids (index_remove u k O) (index_remove v k I).
Proof.
  intros [Hk Hf Ht Ho Hi] He Hu Hv. split.
  - intros j d [_ Hj]%lookup_delete_Some; eauto.
  - intros j d [_ Hj]%lookup_delete_Some; eauto.
  - intros j d [_ Hj]%lookup_delete_Some; eauto.
  - intros w j. rewrite adj_remove, Ho. setoid_rewrite lookup_delete_Some. naive_solver.
  - intros w j. rewrite adj_remove, Hi. setoid_rewrite lookup_delete_Some. naive_solver.
Qed.
Lemma edges_ok_drop E ids O I id u :
  (forall id id' u, ids !! id = Some u -> ids !! id' = Some u -> id = id') ->
  edges_ok E ids O I -> ids !! id = Some u ->
  (forall k e, E !! k = Some e -> eo_from e <> id /\ eo_to e <> id) ->
  edges_ok E (delete id ids) (delete u O) (delete u I).
Proof.
  intros Hinj [Hk Hf Ht Ho Hi] Hid Hfree.
  assert (forall k e, E !! k = Some e -> delete id ids !! eo_from e = ids !! eo_from e) as Hsf.
  { intros k e He. rewrite lookup_delete_ne; [done|]. destruct (Hfree _ _ He). congruence. }
  assert (forall k e, E !! k = Some e -> delete id ids !! eo_to e = ids !! eo_to e) as Hst.
  { intros k e He. rewrite lookup_delete_ne; [done|]. destruct (Hfree _ _ He). congruence. }
  split; [done| | | |].
  - intros k e He. rewrite (Hsf _ _ He). eauto.
  - intros k e He. rewrite (Hst _ _ He). eauto.
  - intros w k. rewrite adj_delete, Ho. split.
    + intros ((e & He & Hw) & _). exists e. by rewrite (Hsf _ _ He).
    + intros (e & He & Hw). rewrite (Hsf _ _ He) in Hw. split; [eauto|]. intros ->.
      destruct (Hfree _ _ He) as [Hne _]. apply Hne. eauto.
  - intros w k. rewrite adj_delete, Hi. split.
    + intros ((e & He & Hw) & _). exists e. by rewrite (Hst _ _ He).
    + intros (e & He & Hw). rewrite (Hst _ _ He) in Hw. split; [eauto|]. intros ->.
      destruct (Hfree _ _ He) as [_ Hne]. apply Hne. eauto.
Qed.
End Parts.
