(* ===== verification/GraphSpec.v ===== *)
(** * What the graph is: a last-writer-wins map of nodes and edges

    The specification the graph in memory implements, without numbers, indexes or retired
    edges: under an identifier a live node or a tombstone, under a key an edge. An event is
    applied by comparing clocks; a retraction takes the node's edges with it. *)
From S2P Require Export GraphInvariant.
Local Open Scope Z_scope.

Inductive entry := Live (n : NodeOutput) | Dead (t : NodeTombstone).
Record replica := { rp_nodes : gmap string entry; rp_edges : gmap Z EdgeOutput }.
Definition empty_replica : replica := {| rp_nodes := ∅; rp_edges := ∅ |}.

(** What a replica holds wins over an upsert or a retraction of a clock: a live node of a
    later clock, a tombstone that is not older. *)
Definition superseded (o : option entry) (clock : LogicalClock) : bool :=
  match o with
  | Some (Live n) => clock_lt clock (no_clock n)
  | Some (Dead t) => clock_ge (nt_clock t) clock
  | None => false
  end.

Section Spec.
Context `{GraphCrates}.

Definition put_node (r : replica) (n : NodeOutput) : replica :=
  match migrate_legacy_node_impact n with
  | Ok n => {| rp_nodes := <[no_id n := Live (lean_node n)]> (rp_nodes r); rp_edges := rp_edges r |}
  | Err _ => r
  end.
(** The edges that do not touch a node *)
Definition detached (id : string) (E : gmap Z EdgeOutput) : gmap Z EdgeOutput :=
  filter (fun p => eo_from p.2 <> id /\ eo_to p.2 <> id) E.
Definition bury (id : string) (t : NodeTombstone) (r : replica) : replica :=
  {| rp_nodes := <[id := Dead t]> (rp_nodes r); rp_edges := detached id (rp_edges r) |}.
Definition put_edge (e : EdgeOutput) (r : replica) : replica :=
  {| rp_nodes := rp_nodes r; rp_edges := <[edge_key (eo_id e) := e]> (rp_edges r) |}.
Definition merge_edge (r : replica) (e : EdgeOutput) : replica :=
  match rp_edges r !! edge_key (eo_id e) with
  | Some old => if clock_lt (eo_clock e) (eo_clock old) then r else put_edge e r
  | None => put_edge e r
  end.
Definition merge_node (r : replica) (n : NodeOutput) : replica :=
  if superseded (rp_nodes r !! no_id n) (no_clock n) then r else put_node r n.
Definition merge_retraction (r : replica) (id : string) (t : NodeTombstone) : replica :=
  if superseded (rp_nodes r !! id) (nt_clock t) then r else bury id t r.

(** A transaction's nodes and retractions do not look at clocks. *)
Definition bury_retraction (r : replica) (x : NodeRetractionEvent) : replica :=
  bury (nr_id x) {| nt_clock := nr_clock x; nt_retracted_at := nr_retracted_at x |} r.
Definition merge_transaction (t : GenesisTransactionEvent) (r : replica) : replica :=
  match traverse migrate_legacy_node_impact (tx_nodes t),
        traverse migrate_legacy_edge_impact (tx_edges t) with
  | Ok ns, Ok es =>
      foldl bury_retraction (foldl merge_edge (foldl put_node r ns) es) (tx_node_retractions t)
  | _, _ => r
  end.

Fixpoint merge_event (r : replica) (event : Event) : replica :=
  match event with
  | EvNode n => merge_node r n
  | EvEdge e => match migrate_legacy_edge_impact e with Ok e => merge_edge r e | Err _ => r end
  | EvBatch events => foldl merge_event r events
  | EvTransaction t => merge_transaction t r
  | EvNodeRetract id clock retracted_at =>
      merge_retraction r id {| nt_clock := clock; nt_retracted_at := retracted_at |}
  | _ => r
  end.

(** How many identifiers an event may give a number to *)
Definition transaction_mentions (t : GenesisTransactionEvent) : Z :=
  2 * zlen (tx_nodes t) + 2 * zlen (tx_edges t) + zlen (tx_vectors t).
Fixpoint mentions (event : Event) : Z :=
  match event with
  | EvNode _ | EvEdge _ => 2
  | EvVectorMaterialized _ | EvVector _ => 1
  | EvBatch events => foldr (fun e m => mentions e + m) 0 events
  | EvTransaction t => transaction_mentions t
  | _ => 0
  end.
Lemma mentions_nonneg event : 0 <= mentions event.
Proof.
  apply (event_ind' (fun event => 0 <= mentions event)); clear event.
  - intros l IH. cbn. induction IH; cbn; lia.
  - intros []; cbn; try done; try lia. unfold transaction_mentions, zlen. lia.
Qed.
End Spec.

(** ** The replica a memory stands for *)

Section Abstraction.
Context `{GraphCrates} `{Surroundings}.
Implicit Types s : memory.

Definition view (s : memory) (id : string) : option entry :=
  match live_node s id with Some n => Some (Live n) | None => Dead <$> tombstones s !! id end.
Record stands_for (s : memory) (r : replica) : Prop := {
  nodes_stand id : rp_nodes r !! id = view s id;
  edges_stand : rp_edges r = edges s;
}.

Record graph_ok (s : memory) : Prop := {
  g_ids : ids_ok (id_to_u32 s) (next_u32 s);
  g_nodes : nodes_ok (nodes s) (id_to_u32 s) (tombstones s);
  g_edges : edges_ok (edges s) (id_to_u32 s) (out_idx s) (in_idx s);
}.
(** [n] more identifiers have a number. *)
Definition room (n : Z) (s : memory) : Prop := next_u32 s + n < u32_modulus.

(** The memory is in order and stands for [r], with room for [n] identifiers. *)
Record sim (n : Z) (s : memory) (r : replica) : Prop := {
  sim_ok : graph_ok s;
  sim_room : room n s;
  sim_abs : stands_for s r;
}.

(** Two memories with one graph *)
Record same_graph (s s' : memory) : Prop := {
  same_nodes : nodes s = nodes s';
  same_edges : edges s = edges s';
  same_out : out_idx s = out_idx s';
  same_in : in_idx s = in_idx s';
  same_ids : id_to_u32 s = id_to_u32 s';
  same_next : next_u32 s = next_u32 s';
  same_tombstones : tombstones s = tombstones s';
}.

Lemma sim_same n s s' r : same_graph s s' -> sim n s r -> sim n s' r.
Proof.
  destruct s, s'. intros [Hn He Ho Hi Hm Hx Ht] [[Hids HN HE] Hroom [Hv Hr]]. cbn in *. subst.
  done.
Qed.
Lemma sim_weaken n m s r : m <= n -> sim n s r -> sim m s r.
Proof. intros Hle [? Hroom ?]. split; [done| |done]. unfold room in *. lia. Qed.

(** The node under a number is the one its identifier names. *)
Lemma live_node_Some s id n :
  graph_ok s -> live_node s id = Some n <-> exists u, nodes s !! u = Some n /\ no_id n = id.
Proof.
  intros [Hids HN _]. unfold live_node, get_u32. split.
  - intros (u & Hu & Hn)%bind_Some. exists u. split; [done|].
    eapply (ids_inj _ _ Hids); [by apply (node_named _ _ _ HN)|done].
  - intros (u & Hn & <-). by rewrite (node_named _ _ _ HN _ _ Hn).
Qed.
Lemma live_unburied s id n : graph_ok s -> live_node s id = Some n -> tombstones s !! id = None.
Proof.
  intros Hok (u & Hn & <-)%live_node_Some; [|done]. by apply (node_unburied _ _ _ (g_nodes _ Hok) u).
Qed.

(** A live node has no tombstone, so both checks of the code are one. *)
Lemma node_superseded_spec n s r id clock :
  sim n s r -> node_superseded s id clock = superseded (rp_nodes r !! id) clock.
Proof.
  intros [Hok _ [Hv _]]. rewrite Hv. unfold node_superseded, view.
  destruct (live_node s id) as [m|] eqn:Hm.
  - rewrite (live_unburied _ _ _ Hok Hm). cbn. by rewrite orb_false_r.
  - by destruct (tombstones s !! id).
Qed.
End Abstraction.
