(* ===== verification/GraphRefine.v ===== *)
(** * The graph in memory implements its specification

    Each operation of [GraphMemory.v] keeps the invariant and does to the replica a memory
    stands for what [GraphSpec.v] says; numbers, indexes, vectors and retired edges are
    details. *)
From S2P Require Export GraphSpec.
Local Open Scope Z_scope.

Section Refine.
Context `{GraphCrates} `{Surroundings}.
Implicit Types (s : memory) (r : replica).

(** ** What does not touch the graph *)

Lemma sim_counters n a b c s r : sim n s r -> sim n (set_counters a b c s) r.
Proof. by apply sim_same. Qed.
Lemma sim_surroundings n a b c s r : sim n s r -> sim n (set_surroundings a b c s) r.
Proof. by apply sim_same. Qed.
Lemma sim_retired n a b c s r : sim n s r -> sim n (set_retired a b c s) r.
Proof. by apply sim_same. Qed.
Lemma sim_require_recovery n s r : sim n s r -> sim n (require_recovery s) r.
Proof. apply sim_counters. Qed.
Lemma sim_advance_clock n t s r : sim n s r -> sim n (advance_clock t s) r.
Proof. apply sim_counters. Qed.
Lemma sim_or_recover n (x : result string unit * memory) r :
  sim n x.2 r -> sim n (or_recover x) r.
Proof. destruct x as [[]]; cbn; [done|apply sim_require_recovery]. Qed.

(** ** Identifiers *)

(** [id] has the number [u] in [s'], which is [s] otherwise. *)
Record interned (s s' : memory) (id : string) (u : Z) : Prop := {
  in_number : id_to_u32 s' !! id = Some u;
  in_keeps : id_to_u32 s ⊆ id_to_u32 s';
  in_nodes : nodes s' = nodes s;
  in_edges : edges s' = edges s;
  in_out : out_idx s' = out_idx s;
  in_in : in_idx s' = in_idx s;
  in_tombstones : tombstones s' = tombstones s;
  in_colls : colls s' = colls s;
}.
Lemma intern_interned id s : interned s (get_or_intern_id id s).2 id (get_or_intern_id id s).1.
Proof.
  unfold get_or_intern_id. destruct (id_to_u32 s !! id) as [u|] eqn:Hu; split; try done; cbn.
  - apply lookup_insert_eq.
  - by apply insert_subseteq.
Qed.
Lemma sim_intern n id s r : 0 <= n -> sim (n + 1) s r -> sim n (get_or_intern_id id s).2 r.
Proof.
  intros Hn Hsim. unfold get_or_intern_id.
  destruct (id_to_u32 s !! id) as [u|] eqn:Hu; [by eapply sim_weaken; [|exact Hsim]; lia|].
  destruct Hsim as [[Hids HN HE] Hroom [Hv Hr]]. unfold room in Hroom.
  assert ((next_u32 s + 1) mod u32_modulus = next_u32 s + 1) as Hnext.
  { apply Z.mod_small. pose proof (ids_next _ _ Hids). lia. }
  split; [split| |split]; cbn.
  - rewrite Hnext. by apply ids_ok_intern.
  - by apply nodes_ok_intern.
  - by apply edges_ok_intern.
  - unfold room. cbn. rewrite Hnext. lia.
  - intros i. rewrite Hv. unfold view, live_node, get_u32. cbn. destruct (decide (i = id)) as [->|Hi].
    + rewrite lookup_insert_eq, Hu. cbn. destruct (nodes s !! next_u32 s) as [m|] eqn:Hm; [|done].
      pose proof (ids_bound _ _ Hids _ _ (node_named _ _ _ HN _ _ Hm)). lia.
    + by rewrite lookup_insert_ne by done.
  - done.
Qed.

(** ** Edges *)

Lemma unindex_edge_eq k s : unindex_edge k s =
  set_idx (unindexed_at eo_from (edges s) (id_to_u32 s) (out_idx s) k)
          (unindexed_at eo_to (edges s) (id_to_u32 s) (in_idx s) k) s.
Proof.
  unfold unindex_edge, unindexed_at, unindexed, get_u32. by destruct (edges s !! k); [|destruct s].
Qed.
(** Two identifiers, as an edge needs them *)
Definition intern_ends (e : EdgeOutput) (s : memory) : memory :=
  (get_or_intern_id (eo_to e) (get_or_intern_id (eo_from e) s).2).2.
Lemma intern_ends_interned e s : exists u v,
  interned s (intern_ends e s) (eo_from e) u /\ interned s (intern_ends e s) (eo_to e) v /\
  (get_or_intern_id (eo_from e) s).1 = u /\
  (get_or_intern_id (eo_to e) (get_or_intern_id (eo_from e) s).2).1 = v.
Proof.
  pose proof (intern_interned (eo_from e) s) as [Hu Hk Hn He Ho Hi Ht Hc].
  pose proof (intern_interned (eo_to e) (get_or_intern_id (eo_from e) s).2)
    as [Hu' Hk' Hn' He' Ho' Hi' Ht' Hc'].
  do 2 eexists. split_and!; [| |done..]; unfold intern_ends; split; try congruence; try by etrans.
  by eapply lookup_weaken.
Qed.
Lemma sim_intern_ends n e s r : 0 <= n -> sim (n + 2) s r -> sim n (intern_ends e s) r.
Proof.
  intros Hn Hsim. apply sim_intern; [done|]. apply sim_intern; [lia|].
  by replace (n + 1 + 1) with (n + 2) by lia.
Qed.
(** Interning does not see the indexes. *)
Lemma intern_set_idx id o i s :
  get_or_intern_id id (set_idx o i s) =
  ((get_or_intern_id id s).1, set_idx o i (get_or_intern_id id s).2).
Proof. unfold get_or_intern_id. cbn. by destruct (id_to_u32 s !! id). Qed.

Lemma insert_edge_eq e s :
  let k := edge_key (eo_id e) in
  let t := intern_ends e s in
  insert_edge e s =
  set_edges (<[k := e]> (edges t))
    (set_idx (index_insert (get_or_intern_id (eo_from e) s).1 k
                (unindexed_at eo_from (edges s) (id_to_u32 s) (out_idx s) k))
             (index_insert (get_or_intern_id (eo_to e) (get_or_intern_id (eo_from e) s).2).1 k
                (unindexed_at eo_to (edges s) (id_to_u32 s) (in_idx s) k)) t).
Proof.
  intros k t. unfold insert_edge, index_edge_internal. rewrite unindex_edge_eq, intern_set_idx.
  cbn beta iota zeta. rewrite intern_set_idx. reflexivity.
Qed.
Lemma sim_insert_edge n e s r : 0 <= n -> sim (n + 2) s r -> sim n (insert_edge e s) (put_edge e r).
Proof.
  intros Hn Hsim. pose proof (sim_intern_ends _ e _ _ Hn Hsim) as [[Hids HN HE] Hroom [Hv Hr]].
  destruct (intern_ends_interned e s) as (u & v & Hf & Ht & Hu & Hv').
  rewrite insert_edge_eq, Hu, Hv'. split; [split| |split]; cbn; try done.
  - rewrite (in_edges _ _ _ _ Hf). apply edges_ok_insert.
    + apply Hsim.
    + by rewrite <- (in_edges _ _ _ _ Hf), <- (in_out _ _ _ _ Hf), <- (in_in _ _ _ _ Hf).
    + apply Hf.
    + apply Ht.
  - by rewrite Hr.
Qed.

(** ** Nodes *)

Lemma sim_insert_node n u node s r :
  sim n s r -> get_u32 s (no_id node) = Some u -> sim n (insert_node_lean u node s) (put_node r node).
Proof.
  intros Hsim Hu. unfold insert_node_lean, put_node.
  destruct (migrate_legacy_node_impact node) as [m|] eqn:Hm; [|by apply sim_require_recovery].
  apply migrate_node_Ok in Hm as [props ->].
  set (m := node_with_props props WireAbsent node).
  assert (no_id (lean_node m) = no_id node /\ no_legacy_wire_impact (lean_node m) = WireAbsent) as (Hid & Hwire).
  { unfold lean_node. by case_match. }
  pose proof (lean_lean m) as Hlean.
  change (no_id m) with (no_id node).
  destruct Hsim as [[Hids HN HE] Hroom [Hv Hr]].
  split; [split| |split]; cbn; try done.
  - rewrite <- Hid. apply nodes_ok_upsert; [apply Hids|done|by rewrite Hid|done..].
  - intros i. unfold view, live_node, get_u32. cbn. destruct (decide (i = no_id node)) as [->|Hi].
    + unfold get_u32 in Hu. rewrite lookup_insert_eq, Hu. cbn. by rewrite lookup_insert_eq.
    + rewrite lookup_insert_ne, lookup_delete_ne by done. rewrite Hv. unfold view, live_node, get_u32.
      destruct (id_to_u32 s !! i) as [w|] eqn:Hw; [|done]. cbn.
      rewrite lookup_insert_ne; [done|]. intros ->. apply Hi. by eapply (ids_inj _ _ Hids).
Qed.

(** ** Retraction *)

Definition without_edge (r : replica) (k : Z) : replica :=
  {| rp_nodes := rp_nodes r; rp_edges := delete k (rp_edges r) |}.
Lemma sim_retire_edge n seq s r k :
  sim n s r -> sim n (retire_edge seq s k) (without_edge r k).
Proof.
  intros [[Hids HN HE] Hroom [Hv Hr]]. unfold retire_edge, unwire_edge, without_edge.
  destruct (edges s !! k) as [e|] eqn:He.
  - destruct (edge_from_interned _ _ _ _ HE _ _ He) as [u Hu].
    destruct (edge_to_interned _ _ _ _ HE _ _ He) as [v Hw]. unfold get_u32. rewrite Hu, Hw. cbn.
    rewrite He. split; [split| |split]; cbn; try done; [|by rewrite Hr].
    by eapply edges_ok_retire.
  - rewrite He. split; [done..|]. split; [done|]. cbn. by rewrite delete_id by congruence.
Qed.
Lemma retire_edge_ids seq s k : id_to_u32 (retire_edge seq s k) = id_to_u32 s.
Proof.
  unfold retire_edge, unwire_edge.
  destruct (edges s !! k) as [e|] eqn:He; [|by rewrite He].
  by destruct (get_u32 s (eo_from e)), (get_u32 s (eo_to e)); cbn; rewrite He.
Qed.
Lemma retire_edges_ids seq ks s : id_to_u32 (foldl (retire_edge seq) s ks) = id_to_u32 s.
Proof.
  revert s; induction ks as [|k ks IH]; intros s; [done|]. cbn. by rewrite IH, retire_edge_ids.
Qed.
Lemma sim_retire_edges n seq ks s r :
  sim n s r -> sim n (foldl (retire_edge seq) s ks) (foldl without_edge r ks).
Proof.
  revert s r; induction ks as [|k ks IH]; intros s r Hs; [done|]. cbn. by apply IH, sim_retire_edge.
Qed.
Lemma without_edges_lookup ks r k e :
  rp_edges (foldl without_edge r ks) !! k = Some e <-> rp_edges r !! k = Some e /\ k ∉ ks.
Proof.
  revert r; induction ks as [|j ks IH]; intros r; cbn; [set_solver|].
  rewrite IH. cbn. rewrite lookup_delete_Some. set_solver.
Qed.
Lemma without_edges_nodes ks r : rp_nodes (foldl without_edge r ks) = rp_nodes r.
Proof. revert r; induction ks as [|j ks IH]; intros r; cbn; [done|]. by rewrite IH. Qed.

(** The edges a number's indexes name are those that touch its identifier. *)
Lemma incident s id u k e :
  graph_ok s -> id_to_u32 s !! id = Some u -> edges s !! k = Some e ->
  k ∈ elements (adj (out_idx s) u) ++ elements (adj (in_idx s) u) <->
  eo_from e = id \/ eo_to e = id.
Proof.
  intros [Hids _ HE] Hu He. rewrite elem_of_app, !elem_of_elements.
  rewrite (out_exact _ _ _ _ HE), (in_exact _ _ _ _ HE). split.
  - intros [(d & Hd & Hw)|(d & Hd & Hw)]; rewrite He in Hd; injection Hd as <-.
    + left. by eapply (ids_inj _ _ Hids).
    + right. by eapply (ids_inj _ _ Hids).
  - intros [<-|<-]; eauto.
Qed.

Lemma sim_retract n id u t seq s r :
  sim n s r -> get_u32 s id = Some u ->
  sim n (insert_tombstone id t (retract_node_memory id u seq s)) (bury id t r).
Proof.
  unfold get_u32, retract_node_memory. intros Hsim Hu. fold (adj (out_idx s) u) (adj (in_idx s) u).
  set (ks := elements (adj (out_idx s) u) ++ elements (adj (in_idx s) u)).
  pose proof (sim_retire_edges n seq ks s r Hsim) as [[Hids HN HE] Hroom [Hv Hr]].
  pose proof (retire_edges_ids seq ks s) as Hsame.
  set (s' := foldl (retire_edge seq) s ks) in *. rewrite without_edges_nodes in Hv.
  assert (id_to_u32 s' !! id = Some u) as Hu' by congruence.
  assert (edges s' = detached id (rp_edges r)) as Hdet.
  { rewrite <- Hr. apply map_eq_iff. intros k. apply option_eq. intros e.
    rewrite without_edges_lookup. unfold detached. rewrite map_lookup_filter_Some. cbn.
    destruct (rp_edges r !! k) as [d|] eqn:Hd; [|naive_solver].
    destruct Hsim as [Hok _ [_ Hrs]]. rewrite Hrs in Hd.
    unfold ks. rewrite (incident s id u k d Hok Hu Hd). naive_solver. }
  assert (forall k e, edges s' !! k = Some e -> eo_from e <> id /\ eo_to e <> id) as Hfree.
  { rewrite Hdet. intros k e [_ Hne]%map_lookup_filter_Some. exact Hne. }
  split; [split| |split]; cbn; try done.
  - destruct Hids as [Hb Hx Hi]. split; [|done|].
    + intros i v [_ Hw]%lookup_delete_Some. eauto.
    + intros i j v [_ Hw]%lookup_delete_Some [_ Hw']%lookup_delete_Some. eauto.
  - apply nodes_ok_bury; [|by apply nodes_ok_drop].
    intros v m [Hne Hm]%lookup_delete_Some <-. apply Hne.
    apply (node_named _ _ _ HN) in Hm. congruence.
  - apply edges_ok_drop; [apply Hids|done..].
  - intros i. unfold view, live_node, get_u32. cbn. destruct (decide (i = id)) as [->|Hi].
    + rewrite lookup_delete_eq, !lookup_insert_eq. done.
    + rewrite lookup_delete_ne, !lookup_insert_ne by done. rewrite Hv. unfold view, live_node, get_u32.
      destruct (id_to_u32 s' !! i) as [w|] eqn:Hw; [|done]. cbn.
      rewrite lookup_delete_ne; [done|]. intros ->. apply Hi. by eapply (ids_inj _ _ Hids).
Qed.
(** A retraction of an identifier without a number *)
Lemma sim_bury n id t s r :
  sim n s r -> get_u32 s id = None -> sim n (insert_tombstone id t s) (bury id t r).
Proof.
  unfold get_u32. intros [[Hids HN HE] Hroom [Hv Hr]] Hid.
  split; [split| |split]; cbn; try done.
  - apply nodes_ok_bury; [|done]. intros u m Hm <-. by rewrite (node_named _ _ _ HN _ _ Hm) in Hid.
  - intros i. unfold view, live_node, get_u32. cbn. destruct (decide (i = id)) as [->|Hi].
    + by rewrite !lookup_insert_eq, Hid.
    + rewrite !lookup_insert_ne by done. apply Hv.
  - rewrite Hr. apply map_filter_id. intros k e He. cbn.
    destruct (edge_from_interned _ _ _ _ HE _ _ He) as [u Hu].
    destruct (edge_to_interned _ _ _ _ HE _ _ He) as [v Hw]. split; congruence.
Qed.
Lemma sim_retraction n id t seq s r :
  sim n s r ->
  sim n (insert_tombstone id t
           match get_u32 s id with Some u => retract_node_memory id u seq s | None => s end)
        (bury id t r).
Proof.
  intros Hsim. destruct (get_u32 s id) as [u|] eqn:Hu; [by apply sim_retract|by apply sim_bury].
Qed.

(** ** Vectors *)

Lemma stage_vector_same index name u e lang seq s :
  same_graph s (stage_vector index name u e lang seq s).2.
Proof. unfold stage_vector, stage. by destruct (coll_stage _ _ _ _ _ _) as [[] c]; [destruct index|]. Qed.
Lemma sim_stage_vector n index name u e lang seq s r :
  sim n s r -> sim n (stage_vector index name u e lang seq s).2 r.
Proof. apply sim_same, stage_vector_same. Qed.
Lemma sim_replay_vector n index coll id emb lang seq s r :
  0 <= n -> sim (n + 1) s r -> sim n (replay_vector index coll id emb lang seq s) r.
Proof.
  intros Hn Hsim. unfold replay_vector. assert (sim n s r) by (eapply sim_weaken; [|exact Hsim]; lia).
  destruct (coll_dim _ _) as [dim|]; [|by apply sim_require_recovery].
  destruct (negb _); [by apply sim_require_recovery|].
  pose proof (sim_intern n id s r Hn Hsim) as Hi.
  destruct (get_or_intern_id id s) as [u s']. cbn in Hi.
  pose proof (sim_stage_vector n index (collection_name coll) u
    (coll_prep (colls s') (collection_name coll) emb) lang seq s' r Hi) as Hst.
  destruct (stage_vector _ _ _ _ _ _ _) as [[] s'']; [done|by apply sim_require_recovery].
Qed.
Lemma sim_replay_materialized n index v seq s r :
  0 <= n -> sim (n + 1) s r -> sim n (replay_materialized_vector index v seq s).2 r.
Proof.
  intros Hn Hsim. unfold replay_materialized_vector.
  destruct (coll_dim _ _) as [dim|]; [|by eapply sim_weaken; [|exact Hsim]; lia].
  pose proof (sim_intern n (ve_node_id v) s r Hn Hsim) as Hi.
  destruct (get_or_intern_id (ve_node_id v) s) as [u s']. by apply sim_stage_vector.
Qed.
Lemma sim_replay_node_vector n index m seq s r :
  0 <= n -> sim (n + 1) s r -> sim n (replay_node_vector index m seq s) r.
Proof.
  intros Hn Hsim. unfold replay_node_vector. destruct (no_embedding m) as [emb|].
  - by apply sim_replay_vector.
  - eapply sim_weaken; [|exact Hsim]. lia.
Qed.

(** Staging vectors gives numbers, and takes none away. *)
Lemma replay_vector_keeps index coll id emb lang seq s i u :
  get_u32 s i = Some u -> get_u32 (replay_vector index coll id emb lang seq s) i = Some u.
Proof.
  intros Hu. unfold replay_vector. destruct (coll_dim _ _) as [dim|]; [|done].
  destruct (negb _); [done|].
  pose proof (in_keeps _ _ _ _ (intern_interned id s)) as Hk.
  destruct (get_or_intern_id id s) as [w s']. cbn in Hk.
  pose proof (stage_vector_same index (collection_name coll) w
    (coll_prep (colls s') (collection_name coll) emb) lang seq s') as Hst.
  destruct (stage_vector _ _ _ _ _ _ _) as [x s'']. cbn in Hst. unfold get_u32 in *.
  assert (id_to_u32 s'' !! i = Some u).
  { rewrite <- (same_ids _ _ Hst). by eapply lookup_weaken. }
  by destruct x.
Qed.
Lemma replay_node_vector_keeps index m seq s i u :
  get_u32 s i = Some u -> get_u32 (replay_node_vector index m seq s) i = Some u.
Proof.
  unfold replay_node_vector. destruct (no_embedding m); [apply replay_vector_keeps|done].
Qed.

(** ** Events *)

Lemma sim_upsert n index m m' seq s r :
  0 <= n -> no_id m' = no_id m -> sim (n + 2) s r ->
  sim n (let '(u, s) := get_or_intern_id (no_id m) s in
         insert_node_lean u m' (replay_node_vector index m seq s)) (put_node r m').
Proof.
  intros Hn Hid Hsim.
  assert (sim (n + 1) (get_or_intern_id (no_id m) s).2 r) as Hi.
  { apply sim_intern; [lia|]. by replace (n + 1 + 1) with (n + 2) by lia. }
  pose proof (in_number _ _ _ _ (intern_interned (no_id m) s)) as Hu.
  destruct (get_or_intern_id (no_id m) s) as [u s']. cbn in *.
  apply sim_insert_node; [by apply sim_replay_node_vector|].
  apply replay_node_vector_keeps. by rewrite Hid.
Qed.
Lemma sim_merge_edge n e s r :
  0 <= n -> sim (n + 2) s r -> sim n (apply_transaction_edge s e) (merge_edge r e).
Proof.
  intros Hn Hsim. unfold apply_transaction_edge, merge_edge.
  rewrite (edges_stand _ _ (sim_abs _ _ _ Hsim)).
  assert (sim n s r) by (eapply sim_weaken; [|exact Hsim]; lia).
  destruct (edges s !! _) as [old|]; [destruct (clock_lt _ _); [done|]|]; by apply sim_insert_edge.
Qed.

(** Folds: each step takes [c] of the room. *)
Lemma sim_fold {A} (f : memory -> A -> memory) (g : replica -> A -> replica) (c : A -> Z)
  (l : list A) n s r :
  0 <= n -> Forall (fun a => 0 <= c a) l ->
  (forall a m s r, a ∈ l -> 0 <= m -> sim (m + c a) s r -> sim m (f s a) (g r a)) ->
  sim (n + foldr (fun a m => c a + m) 0 l) s r -> sim n (foldl f s l) (foldl g r l).
Proof.
  intros Hn. revert s r; induction l as [|a l IH]; intros s r Hc Hf; cbn.
  { by rewrite Z.add_0_r. }
  apply Forall_cons in Hc as [Ha Hc]. intros Hsim. apply IH; [done| |].
  - intros b m s' r' Hb. apply Hf. by right.
  - apply Hf; [by left| |].
    + assert (forall k : list A, Forall (fun a => 0 <= c a) k -> 0 <= foldr (fun a m => c a + m) 0 k).
      { induction 1; cbn; lia. }
      specialize (H1 l Hc). lia.
    + by replace (n + foldr (fun a m => c a + m) 0 l + c a)
        with (n + (c a + foldr (fun a m => c a + m) 0 l)) by lia.
Qed.
Lemma sim_fold_const {A} (f : memory -> A -> memory) (g : replica -> A -> replica) (c : Z)
  (l : list A) n s r :
  0 <= n -> 0 <= c ->
  (forall a m s r, 0 <= m -> sim (m + c) s r -> sim m (f s a) (g r a)) ->
  sim (n + c * zlen l) s r -> sim n (foldl f s l) (foldl g r l).
Proof.
  intros Hn Hc Hf Hsim. apply (sim_fold f g (fun _ => c)); [done|by apply Forall_true| |].
  - intros a m s' r' _. apply Hf.
  - replace (foldr (fun (_ : A) m => c + m) 0 l) with (c * zlen l); [done|].
    clear. induction l as [|a l IH]; [by rewrite Z.mul_0_r|]. cbn [foldr]. rewrite zlen_cons. lia.
Qed.
Lemma foldl_const {A} r (l : list A) : foldl (fun (r : replica) (_ : A) => r) r l = r.
Proof. by induction l. Qed.

Lemma sim_transaction n t index seq s r :
  0 <= n -> sim (n + transaction_mentions t) s r ->
  sim n (apply_transaction_memory t index seq s) (merge_transaction t r).
Proof.
  intros Hn Hsim. unfold apply_transaction_memory, merge_transaction, transaction_mentions in *.
  pose proof (zlen_nonneg (tx_nodes t)). pose proof (zlen_nonneg (tx_edges t)).
  pose proof (zlen_nonneg (tx_vectors t)).
  assert (sim n s r) by (eapply sim_weaken; [|exact Hsim]; lia).
  destruct (traverse migrate_legacy_node_impact (tx_nodes t)) as [ns|] eqn:Hns;
    [|by apply sim_require_recovery].
  destruct (traverse migrate_legacy_edge_impact (tx_edges t)) as [es|] eqn:Hes;
    [|by apply sim_require_recovery].
  assert (forall E A B (f : A -> result E B) l k, traverse f l = Ok k -> zlen k = zlen l) as Hlen.
  { clear. intros E A B f l; induction l as [|a l IH]; intros k; cbn; [by intros [= <-]|].
    intros (b & _ & (k' & Hk & [= <-])%bind_Ok)%bind_Ok. rewrite !zlen_cons. by rewrite (IH k'). }
  rewrite <- (Hlen _ _ _ _ _ _ Hns), <- (Hlen _ _ _ _ _ _ Hes) in Hsim.
  pose proof (zlen_nonneg es).
  rewrite <- (foldl_const (foldl bury_retraction _ _) (tx_vectors t)).
  apply (sim_fold_const _ _ 1); [done..| |].
  { intros v m s' r' Hm Hs. by apply sim_replay_vector. }
  apply (sim_fold_const _ _ 0); [lia..| |].
  { intros x m s' r' Hm Hs. rewrite Z.add_0_r in Hs. by apply sim_retraction. }
  rewrite Z.mul_0_l, Z.add_0_r, Z.mul_1_l. apply (sim_fold_const _ _ 2); [lia..| |].
  { intros x m s' r' Hm Hs. by apply sim_merge_edge. }
  assert (sim (n + zlen (tx_vectors t) + 2 * zlen es)
    (foldl (apply_transaction_node index seq) s ns) (foldl put_node r ns)).
  { apply (sim_fold_const _ _ 2); [lia..| |].
    - intros x m s' r' Hm Hs. by apply sim_upsert.
    - eapply sim_weaken; [|exact Hsim]. lia. }
  destruct (event_time _); [by apply sim_advance_clock|done].
Qed.

(** The application of an event, whatever its frame, does to the replica what the
    specification says. *)
Lemma sim_event index seq event n s r :
  0 <= n -> sim (n + mentions event) s r ->
  sim n (apply_event_memory index seq event s) (merge_event r event).
Proof.
  revert n s r. apply (event_ind' (fun event => forall n s r, 0 <= n -> sim (n + mentions event) s r ->
    sim n (apply_event_memory index seq event s) (merge_event r event))); clear event.
  - intros l IH n s r Hn Hsim. cbn [apply_event_memory merge_event].
    apply (sim_fold _ _ mentions); [done|apply Forall_forall; intros; apply mentions_nonneg| |].
    + rewrite Forall_forall in IH. intros a m s' r' Ha Hm. by apply IH.
    + destruct (event_time _); [by apply sim_advance_clock|done].
  - intros event. pose proof (mentions_nonneg event) as Hment.
    assert (forall n s r, sim (n + mentions event) s r ->
      sim (n + mentions event)
        (match event_time event with Some t => advance_clock t s | None => s end) r) as Hclock.
    { intros n s r Hsim. destruct (event_time event); [by apply sim_advance_clock|done]. }
    destruct event as [d|m|v|x|e|l|v|c|c|t|i t a|c|c|c|c|c]; try exact I;
      intros n s r Hn Hsim; apply Hclock in Hsim; cbn [apply_event_memory merge_event];
      set (s' := match event_time _ with Some t => advance_clock t s | None => s end) in *;
      clearbody s'; clear Hclock; cbn [mentions] in *; rewrite ?Z.add_0_r in Hsim; try exact Hsim;
      try (apply sim_or_recover, sim_surroundings; exact Hsim).
    + by apply sim_or_recover, sim_replay_materialized.
    + unfold merge_node. rewrite (node_superseded_spec _ _ _ _ _ Hsim).
      destruct (superseded _ _); [eapply sim_weaken; [|exact Hsim]; lia|by apply sim_upsert].
    + destruct (migrate_legacy_edge_impact e); [by apply sim_merge_edge|].
      apply sim_require_recovery. eapply sim_weaken; [|exact Hsim]; lia.
    + by apply sim_replay_vector.
    + assert (sim n (apply_transaction_memory t index (default seq (tx_local_frame_seq t)) s')
        (merge_transaction t r)) by (by apply sim_transaction).
      destruct (tx_advances_txn_frontier t); [by apply sim_counters|done].
    + unfold merge_retraction. cbn. rewrite (node_superseded_spec _ _ _ _ _ Hsim).
      destruct (superseded _ _); [done|by apply sim_retraction].
Qed.
End Refine.
