(* ===== verification/GraphReplication.v ===== *)
(** * Replicas that received the same events agree

    What a replica holds under an identifier is the greatest of what its events offered, by
    clock, a retraction before an upsert of the same clock; so the order of arrival and
    repeated deliveries do not matter. Edges agree as long as no node is retracted. *)
From stdpp Require Import sorting.
From S2P Require Export GraphRefine.
Local Open Scope Z_scope.

(** ** The events of a batch, one by one *)

Fixpoint leaves (event : Event) : list Event :=
  match event with
  | EvBatch events => concat (map leaves events)
  | _ => [event]
  end.

Section Replication.
Context `{GraphCrates}.
Implicit Types (r : replica) (l : list Event).

Lemma merge_leaves event r : merge_event r event = foldl merge_event r (leaves event).
Proof.
  revert r. apply (event_ind' (fun event => forall r, merge_event r event = foldl merge_event r (leaves event)));
    clear event.
  - intros l IH. cbn. induction IH as [|e l He _ IHl]; intros r; [done|].
    cbn. by rewrite foldl_app, IHl, He.
  - by intros [].
Qed.
Lemma merge_flat l r : foldl merge_event r l = foldl merge_event r (concat (map leaves l)).
Proof.
  revert r; induction l as [|e l IH]; intros r; [done|]. cbn. by rewrite foldl_app, <- merge_leaves, IH.
Qed.

(** ** Offers *)

Definition entry_clock (e : entry) : LogicalClock :=
  match e with Live n => no_clock n | Dead t => nt_clock t end.
Definition is_dead (e : entry) : bool := match e with Dead _ => true | Live _ => false end.
(** The order in which offers win: by clock, then retractions *)
Definition entry_lt (a b : entry) : bool :=
  clock_lt (entry_clock a) (entry_clock b) ||
  (bool_decide (entry_clock a = entry_clock b) && negb (is_dead a) && is_dead b).
Definition offer_of (id : string) (event : Event) : option entry :=
  match event with
  | EvNode n =>
      if bool_decide (no_id n = id) then
        match migrate_legacy_node_impact n with Ok n => Some (Live (lean_node n)) | Err _ => None end
      else None
  | EvNodeRetract i clock retracted_at =>
      if bool_decide (i = id)
      then Some (Dead {| nt_clock := clock; nt_retracted_at := retracted_at |}) else None
  | _ => None
  end.
Definition offers (id : string) (l : list Event) : list entry := omap (offer_of id) l.
(** What a replica holds after an offer *)
Definition take_offer (o : option entry) (e : entry) : option entry :=
  if superseded o (entry_clock e) then o else Some e.

Lemma lean_clock n : no_clock (lean_node n) = no_clock n.
Proof. unfold lean_node. by case_match. Qed.
Lemma lean_id n : no_id (lean_node n) = no_id n.
Proof. unfold lean_node. by case_match. Qed.

(** Events that compare clocks: all but transactions *)
Definition compares (event : Event) : bool :=
  match event with EvTransaction _ | EvBatch _ => false | _ => true end.

Lemma merge_offer id r event :
  compares event = true ->
  rp_nodes (merge_event r event) !! id =
  match offer_of id event with Some e => take_offer (rp_nodes r !! id) e | None => rp_nodes r !! id end.
Proof.
  destruct event as [| | |n|e| | | | | |i c a| | | | |]; try done; intros _; cbn.
  - unfold merge_node, put_node. case_bool_decide as Hid.
    + subst id. destruct (migrate_legacy_node_impact n) as [m|] eqn:Hm; [|by destruct (superseded _ _)].
      apply migrate_node_Ok in Hm as [props ->]. unfold take_offer. cbn [entry_clock].
      rewrite lean_clock. cbn. destruct (superseded _ _); [done|]. cbn. by rewrite lookup_insert_eq.
    + destruct (superseded _ _); [done|].
      destruct (migrate_legacy_node_impact n) as [m|] eqn:Hm; [|done].
      apply migrate_node_Ok in Hm as [props ->]. cbn. by rewrite lookup_insert_ne.
  - destruct (migrate_legacy_edge_impact e); [|done]. unfold merge_edge.
    repeat case_match; done.
  - unfold merge_retraction, take_offer. cbn. case_bool_decide as Hid.
    + subst i. destruct (superseded _ _); [done|]. cbn. by rewrite lookup_insert_eq.
    + destruct (superseded _ _); [done|]. cbn. by rewrite lookup_insert_ne.
Qed.
Lemma merge_offers id l r :
  forallb compares l = true ->
  rp_nodes (foldl merge_event r l) !! id = foldl take_offer (rp_nodes r !! id) (offers id l).
Proof.
  revert r; induction l as [|e l IH]; intros r; cbn; [done|].
  intros [He Hl]%andb_true_iff. rewrite IH, merge_offer by done.
  unfold offers. cbn. by destruct (offer_of id e).
Qed.

(** ** The greatest offer *)

Lemma entry_lt_irrefl a : entry_lt a a = false.
Proof. unfold entry_lt. rewrite clock_lt_irrefl. destruct (is_dead a); by rewrite ?andb_false_r. Qed.
Lemma entry_nlt_trans a b c : entry_lt a b = false -> entry_lt b c = false -> entry_lt a c = false.
Proof.
  unfold entry_lt. rewrite !orb_false_iff. intros [H1 H2] [H3 H4]. split.
  { by eapply clock_nlt_trans. }
  destruct (bool_decide_reflect (entry_clock a = entry_clock c)) as [Hac|]; [|done]. cbn.
  assert (forall x, x = entry_clock a \/ x <> entry_clock a) as Hdec.
  { intros x. destruct (decide (x = entry_clock a)); auto. }
  rewrite <- Hac in *. clear Hac. destruct (Hdec (entry_clock b)) as [Hb|Hb].
  - rewrite Hb, !bool_decide_eq_true_2 in * by done. destruct (is_dead a), (is_dead b); done.
  - destruct Hb. symmetry. by apply clock_total.
Qed.
(** The one that is kept is not less than the other. *)
Lemma take_offer_max o e : exists w, take_offer o e = Some w /\
  entry_lt w e = false /\ (forall v, o = Some v -> entry_lt w v = false) /\
  (w = e \/ o = Some w).
Proof.
  unfold take_offer. destruct o as [v|].
  2:{ exists e. split_and!; [done|apply entry_lt_irrefl|done|by left]. }
  destruct (superseded (Some v) (entry_clock e)) eqn:Hs.
  - exists v. split_and!; [done| |intros ? [= <-]; apply entry_lt_irrefl|by right].
    unfold entry_lt. destruct v as [n|t]; cbn in *.
    + apply clock_lt_asym in Hs as Hs'. rewrite Hs'. cbn. case_bool_decide as Hc; [|done].
      by rewrite Hc, clock_lt_irrefl in Hs.
    + unfold clock_ge in Hs. apply negb_true_iff in Hs. by rewrite Hs, andb_false_r.
  - exists e. split_and!; [done|apply entry_lt_irrefl| |by left]. intros ? [= <-].
    unfold entry_lt. destruct v as [n|t]; cbn in *.
    + by rewrite Hs, !andb_false_r.
    + unfold clock_ge in Hs. apply negb_false_iff in Hs.
      rewrite (clock_lt_asym _ _ Hs). cbn. case_bool_decide as Hc; [|done].
      by rewrite Hc, clock_lt_irrefl in Hs.
Qed.
Definition greatest (o : option entry) (l : list entry) : Prop :=
  match o with
  | None => l = []
  | Some e => e ∈ l /\ forall e', e' ∈ l -> entry_lt e e' = false
  end.
Lemma offers_greatest (l k : list entry) o :
  greatest o k -> greatest (foldl take_offer o l) (k ++ l).
Proof.
  revert k o; induction l as [|e l IH]; intros k o Ho; cbn.
  { by rewrite app_nil_r. }
  replace (k ++ e :: l) with ((k ++ [e]) ++ l) by by rewrite <- app_assoc.
  apply IH. destruct (take_offer_max o e) as (w & Hw & Hwe & Hwv & Hor). rewrite Hw. cbn. split.
  - rewrite elem_of_app, list_elem_of_singleton.
    destruct Hor as [->|Hov]; [by right|]. left. rewrite Hov in Ho. apply Ho.
  - intros e' [He'|He'%list_elem_of_singleton]%elem_of_app; [|by subst e'].
    destruct o as [v|]; [|cbn in Ho; subst; inversion He'].
    eapply entry_nlt_trans; [by apply Hwv|]. by apply Ho.
Qed.
Lemma greatest_unique o o' (l l' : list entry) :
  (forall e, e ∈ l <-> e ∈ l') ->
  (forall e e', e ∈ l -> e' ∈ l -> entry_clock e = entry_clock e' -> is_dead e = is_dead e' -> e = e') ->
  greatest o l -> greatest o' l' -> o = o'.
Proof.
  intros Hll Huniq. destruct o as [e|], o' as [e'|]; cbn.
  - intros [He Hm] [He' Hm']. f_equal. apply Hll in He'.
    specialize (Hm _ He'). specialize (Hm' _ (proj1 (Hll _) He)).
    unfold entry_lt in Hm, Hm'. apply orb_false_iff in Hm as [Hm1 Hm2], Hm' as [Hm1' Hm2'].
    pose proof (clock_total _ _ Hm1 Hm1') as Hc.
    rewrite bool_decide_eq_true_2 in Hm2 by done. rewrite bool_decide_eq_true_2 in Hm2' by done.
    apply Huniq; try done. by destruct (is_dead e), (is_dead e').
  - intros [He _] ->. apply Hll in He. inversion He.
  - intros -> [He _]. apply Hll in He. inversion He.
  - done.
Qed.

(** ** Agreement *)

(** No two different writes of one kind carry the same clock: a peer's clock grows with each
    of its writes. *)
Definition one_write_per_clock (l : list Event) : Prop :=
  (forall n m, EvNode n ∈ l -> EvNode m ∈ l -> no_id n = no_id m -> no_clock n = no_clock m -> n = m) /\
  (forall i c a b, EvNodeRetract i c a ∈ l -> EvNodeRetract i c b ∈ l -> a = b) /\
  (forall e d, EvEdge e ∈ l -> EvEdge d ∈ l -> edge_key (eo_id e) = edge_key (eo_id d) ->
     eo_clock e = eo_clock d -> e = d).

Lemma offers_unique id l : one_write_per_clock l -> forall e e',
  e ∈ offers id l -> e' ∈ offers id l -> entry_clock e = entry_clock e' -> is_dead e = is_dead e' -> e = e'.
Proof.
  intros (Hn & Hr & _) e e' (x & Hx & He)%list_elem_of_omap (y & Hy & He')%list_elem_of_omap Hc Hd.
  assert (forall n m, EvNode n ∈ l -> EvNode m ∈ l -> offer_of id (EvNode n) = Some e ->
    offer_of id (EvNode m) = Some e' -> e = e') as Hnodes.
  { intros n m Hx' Hy' Hen Hem. cbn in Hen, Hem.
    destruct (bool_decide_reflect (no_id n = id)) as [Hi|]; [|done].
    destruct (bool_decide_reflect (no_id m = id)) as [Hj|]; [|done].
    destruct (migrate_legacy_node_impact n) as [n'|] eqn:Hn'; [|done].
    destruct (migrate_legacy_node_impact m) as [m'|] eqn:Hm'; [|done].
    injection Hen as <-. injection Hem as <-. cbn in Hc. rewrite !lean_clock in Hc.
    assert (no_clock n = no_clock m) as Hcl.
    { destruct (migrate_node_Ok _ _ Hn') as [? ->], (migrate_node_Ok _ _ Hm') as [? ->]. done. }
    assert (n = m) as -> by (apply Hn; congruence). congruence. }
  destruct x; try done; destruct y; try done; [exact (Hnodes _ _ Hx Hy He He')|..]; cbn in He, He';
    repeat case_match; simplify_eq; try done.
  cbn in Hc. subst. repeat match goal with H : bool_decide _ = true |- _ => apply bool_decide_eq_true in H end.
  subst. f_equal. f_equal. exact (Hr _ _ _ _ Hx Hy).
Qed.

Lemma offers_elem id l e : e ∈ offers id l <-> exists x, x ∈ l /\ offer_of id x = Some e.
Proof. apply list_elem_of_omap. Qed.

Lemma nodes_agree l l' id :
  forallb compares l = true -> forallb compares l' = true ->
  (forall e, e ∈ l <-> e ∈ l') -> one_write_per_clock l ->
  rp_nodes (foldl merge_event empty_replica l) !! id = rp_nodes (foldl merge_event empty_replica l') !! id.
Proof.
  intros Hc Hc' Hsame Hone. rewrite !merge_offers by done. cbn. rewrite lookup_empty.
  apply (greatest_unique _ _ (offers id l) (offers id l')).
  - intros e. rewrite !offers_elem. by setoid_rewrite Hsame.
  - by apply offers_unique.
  - by apply (offers_greatest _ []).
  - by apply (offers_greatest _ []).
Qed.

(** ** Edges *)

Definition edge_offer_of (k : Z) (event : Event) : option EdgeOutput :=
  match event with
  | EvEdge e =>
      match migrate_legacy_edge_impact e with
      | Ok e => if bool_decide (edge_key (eo_id e) = k) then Some e else None
      | Err _ => None
      end
  | _ => None
  end.
Definition edge_offers (k : Z) (l : list Event) : list EdgeOutput := omap (edge_offer_of k) l.
Definition take_edge (o : option EdgeOutput) (e : EdgeOutput) : option EdgeOutput :=
  match o with Some old => if clock_lt (eo_clock e) (eo_clock old) then o else Some e | None => Some e end.
(** Retractions take edges with them; without them edges only grow. *)
Definition retracts (event : Event) : bool :=
  match event with EvNodeRetract _ _ _ => true | _ => false end.

Lemma merge_edge_offer k r event :
  compares event = true -> retracts event = false ->
  rp_edges (merge_event r event) !! k =
  match edge_offer_of k event with Some e => take_edge (rp_edges r !! k) e | None => rp_edges r !! k end.
Proof.
  destruct event as [| | |n|e| | | | | |i c a| | | | |]; try done; intros _ _; cbn.
  - unfold merge_node, put_node. destruct (superseded _ _); [done|].
    by destruct (migrate_legacy_node_impact n).
  - destruct (migrate_legacy_edge_impact e) as [d|]; [|done]. unfold merge_edge.
    case_bool_decide as Hk.
    + subst k. destruct (rp_edges r !! edge_key (eo_id d)) as [old|] eqn:Hold; cbn.
      * destruct (clock_lt _ _); [done|]. cbn. apply lookup_insert_eq.
      * apply lookup_insert_eq.
    + destruct (rp_edges r !! edge_key (eo_id d)) as [old|]; [destruct (clock_lt _ _)|]; cbn;
        rewrite ?lookup_insert_ne; done.
Qed.
Lemma merge_edge_offers k l r :
  forallb compares l = true -> existsb retracts l = false ->
  rp_edges (foldl merge_event r l) !! k = foldl take_edge (rp_edges r !! k) (edge_offers k l).
Proof.
  revert r; induction l as [|e l IH]; intros r; cbn; [done|].
  intros [He Hl]%andb_true_iff [Hr Hrl]%orb_false_iff. rewrite IH, merge_edge_offer by done.
  unfold edge_offers. cbn. by destruct (edge_offer_of k e).
Qed.
Definition latest (o : option EdgeOutput) (l : list EdgeOutput) : Prop :=
  match o with
  | None => l = []
  | Some e => e ∈ l /\ forall e', e' ∈ l -> clock_lt (eo_clock e) (eo_clock e') = false
  end.
Lemma take_edge_latest (l k : list EdgeOutput) o : latest o k -> latest (foldl take_edge o l) (k ++ l).
Proof.
  revert k o; induction l as [|e l IH]; intros k o Ho; cbn.
  { by rewrite app_nil_r. }
  replace (k ++ e :: l) with ((k ++ [e]) ++ l) by by rewrite <- app_assoc.
  apply IH. destruct o as [old|]; cbn in Ho |- *.
  - destruct Ho as [Hin Hmax]. destruct (clock_lt (eo_clock e) (eo_clock old)) eqn:Hlt; cbn; split.
    + apply elem_of_app. by left.
    + intros e' [He'|He'%list_elem_of_singleton]%elem_of_app; [by apply Hmax|].
      subst e'. by apply clock_lt_asym.
    + apply elem_of_app. right. by left.
    + intros e' [He'|He'%list_elem_of_singleton]%elem_of_app; [|subst e'; apply clock_lt_irrefl].
      eapply clock_nlt_trans; [exact Hlt|]. by apply Hmax.
  - subst k. split; [by left|]. intros e' He'%list_elem_of_singleton. subst e'. apply clock_lt_irrefl.
Qed.
Lemma edge_offers_unique k l : one_write_per_clock l -> forall e e',
  e ∈ edge_offers k l -> e' ∈ edge_offers k l -> eo_clock e = eo_clock e' -> e = e'.
Proof.
  intros (_ & _ & He) e e' (x & Hx & Hxe)%list_elem_of_omap (y & Hy & Hye)%list_elem_of_omap Hc.
  destruct x as [| | | |a| | | | | | | | | | |]; try done.
  destruct y as [| | | |b| | | | | | | | | | |]; try done. cbn in Hxe, Hye.
  destruct (migrate_legacy_edge_impact a) as [a'|] eqn:Ha; [|done].
  destruct (migrate_legacy_edge_impact b) as [b'|] eqn:Hb; [|done].
  destruct (bool_decide_reflect (edge_key (eo_id a') = k)); [|done].
  destruct (bool_decide_reflect (edge_key (eo_id b') = k)); [|done].
  injection Hxe as <-. injection Hye as <-.
  enough (a = b) by congruence.
  destruct (migrate_edge_Ok _ _ Ha) as [pa ->], (migrate_edge_Ok _ _ Hb) as [pb ->]. cbn in *.
  apply He; congruence.
Qed.
Lemma edges_agree l l' k :
  forallb compares l = true -> forallb compares l' = true -> existsb retracts l = false ->
  (forall e, e ∈ l <-> e ∈ l') -> one_write_per_clock l ->
  rp_edges (foldl merge_event empty_replica l) !! k = rp_edges (foldl merge_event empty_replica l') !! k.
Proof.
  intros Hc Hc' Hr Hsame Hone.
  assert (existsb retracts l' = false) as Hr'.
  { rewrite existsb_false in *. intros e He. apply Hr. by apply Hsame. }
  rewrite !merge_edge_offers by done. cbn. rewrite lookup_empty.
  pose proof (take_edge_latest (edge_offers k l) [] None eq_refl) as H1.
  pose proof (take_edge_latest (edge_offers k l') [] None eq_refl) as H2.
  assert (forall e, e ∈ edge_offers k l <-> e ∈ edge_offers k l') as Hoff.
  { intros e. unfold edge_offers. rewrite !list_elem_of_omap. by setoid_rewrite Hsame. }
  cbn [app] in H1, H2.
  destruct (foldl take_edge None (edge_offers k l)) as [e|], (foldl take_edge None (edge_offers k l')) as [e'|];
    cbn in H1, H2; [|..|done].
  - f_equal. destruct H1 as [He Hm], H2 as [He' Hm']. apply Hoff in He'.
    eapply (edge_offers_unique k l); try done.
    apply clock_total; [by apply Hm|]. apply Hm'. by apply Hoff.
  - destruct H1 as [He _]. rewrite Hoff, H2 in He. inversion He.
  - destruct H2 as [He _]. rewrite <- Hoff, H1 in He. inversion He.
Qed.
End Replication.

(** ** Memories *)

Section Memories.
Context `{GraphCrates} `{Surroundings}.
Implicit Types (s : memory) (frames : list (Z * Event)).

(** The journal of a replica, applied from its beginning *)
Definition replay (c : collections) (k : controls) (frames : list (Z * Event)) : memory :=
  foldl apply_replay_event (empty_memory c k) frames.
Definition mentioned (frames : list (Z * Event)) : Z := foldr (fun f m => mentions f.2 + m) 0 frames.

Lemma sim_empty n c k : n < u32_modulus -> sim n (empty_memory c k) empty_replica.
Proof.
  intros Hn. split; [split| |split]; cbn; try done.
  - split; try (intros j e He; by rewrite lookup_empty in He); intros u j; unfold adj;
      rewrite lookup_empty; cbn; (split; [set_solver|]); intros (e & He & _); by rewrite lookup_empty in He.
Qed.
Lemma sim_replay n c k frames : 0 <= n -> n + mentioned frames < u32_modulus ->
  sim n (replay c k frames) (foldl merge_event empty_replica frames.*2).
Proof.
  intros Hn Hroom. unfold replay.
  assert (forall r, foldl merge_event r frames.*2 = foldl (fun r f => merge_event r f.2) r frames) as Hfold.
  { clear. induction frames as [|f l IH]; intros r; [done|]. cbn. apply IH. }
  rewrite Hfold. apply (sim_fold _ _ (fun f => mentions f.2)).
  - done.
  - apply Forall_forall. intros. apply mentions_nonneg.
  - intros f m s r _ Hm. by apply sim_event.
  - by apply sim_empty.
Qed.

(** A memory's live nodes, each once *)
Lemma live_nodes_nodup s : graph_ok s -> NoDup (map_to_list (nodes s)).*2.
Proof.
  intros [_ HN _]. apply NoDup_fmap_2_strong; [|apply NoDup_map_to_list].
  intros [u n] [v m] Hu%elem_of_map_to_list Hv%elem_of_map_to_list. cbn. intros ->.
  apply (node_named _ _ _ HN) in Hu, Hv. congruence.
Qed.
Lemma elem_live_nodes s n : graph_ok s ->
  n ∈ (map_to_list (nodes s)).*2 <-> view s (no_id n) = Some (Live n).
Proof.
  intros Hok. assert (view s (no_id n) = Some (Live n) <-> live_node s (no_id n) = Some n) as ->.
  { unfold view. destruct (live_node s (no_id n)); [|destruct (tombstones s !! no_id n)]; naive_solver. }
  rewrite live_node_Some, list_elem_of_fmap by done. split.
  - intros ([u m] & -> & Hu%elem_of_map_to_list). eauto.
  - intros (u & Hu & _). exists (u, n). split; [done|]. by apply elem_of_map_to_list.
Qed.

Lemma sort_entries_perm (l k : list (list byte)) :
  l ≡ₚ k -> sort_by (cmp_list cmp_byte) l = sort_by (cmp_list cmp_byte) k.
Proof.
  intros Hp.
  assert (AntiSymm (=) (fun a b : list byte => cmp_list cmp_byte a b <> Gt)).
  { intros a b Hab Hba. apply (cmp_eq (c := cmp_list cmp_byte)).
    rewrite (cmp_antisym (c := cmp_list cmp_byte) a b) in Hba.
    by destruct (cmp_list cmp_byte a b). }
  apply (StronglySorted_unique (fun a b => cmp_list cmp_byte a b <> Gt)).
  - apply (sort_by_sorted (cmp_list cmp_byte)); apply _.
  - apply (sort_by_sorted (cmp_list cmp_byte)); apply _.
  - by rewrite !sort_by_Permutation.
Qed.
Lemma root_of_entries s s' : root_entries s ≡ₚ root_entries s' -> get_merkle_root s = get_merkle_root s'.
Proof.
  intros Hp. unfold get_merkle_root. pose proof (sort_entries_perm _ _ Hp) as Hsort.
  destruct (root_entries s) as [|e l], (root_entries s') as [|e' l']; try done.
  - by apply Permutation_nil_cons in Hp.
  - symmetry in Hp. by apply Permutation_nil_cons in Hp.
  - by rewrite Hsort.
Qed.
Lemma roots_agree s s' :
  graph_ok s -> graph_ok s' ->
  (forall id, view s id = view s' id) -> edges s = edges s' ->
  coll_definitions (colls s) ≡ₚ coll_definitions (colls s') -> vector_entries s ≡ₚ vector_entries s' ->
  get_merkle_root s = get_merkle_root s'.
Proof.
  intros Hok Hok' Hview Hedges Hdef Hvec. apply root_of_entries. unfold root_entries.
  assert ((map_to_list (nodes s)).*2 ≡ₚ (map_to_list (nodes s')).*2) as Hnodes.
  { apply NoDup_Permutation; [by apply live_nodes_nodup..|]. intros n.
    by rewrite !elem_live_nodes, Hview by done. }
  by rewrite Hdef, Hnodes, Hedges, Hvec.
Qed.
End Memories.
