(* ===== verification/GraphStore.v ===== *)
(** * Writes to the graph: persistence first, memory after

    [src/src/lib.rs], lines 6130 to 6163, 8878 to 8939, 10461 to 10580, 17053 to 17080,
    17764 to 17789, 21376 to 21392, 21820 to 21868, 22399 to 22585, 25572 to 25653, 25731 to
    26081, 29341 to 29488, 31695 to 31704 and 31941 to 31956. A local write makes its event, has it journalled and
    projected, and then changes memory; a remote event is compared with what is held, is
    journalled as it was signed, and then applied.

    Code is of type [EM db A]: an error keeps what was done before it. What the journal's
    thread, the projection, the clock on the wall and the random source answer comes from the
    environment, any answer at any time. *)
From S2P Require Export Effect GraphMemory.
Local Open Scope Z_scope.

(** ** The environment *)

(** What came of an event offered to the journal and the projection. An event the projection
    applied, or began to, may have given numbers to identifiers on the way. *)
Inductive answer :=
| Refused (e : string)
| Unacknowledged
| Applied (seq : Z) (projected : list string)
| NotApplied (seq : Z) (projected : list string).
(** The parts of a transaction made from a random identifier, a hash and the record revisions *)
Record envelope := {
  en_transaction_id : string; en_payload_hash : string; en_revisions : option content }.
Record inputs := {
  in_answers : list answer;
  in_envelopes : list (result string envelope);
  in_times : list Z;
  in_uuids : list string;
  (** [projection_props_unlocked] *)
  in_props : list (result string (option json));
}.
(** The instants of [chrono], in nanoseconds, and their text *)
Class Calendar := { to_rfc3339 : Z -> string }.
Class Signing := { sign : Event -> list byte }.

Record config := {
  cf_local_peer_id : string;
  cf_read_only : bool;
  cf_schema6 : bool;
  cf_local_master : bool;
}.

Section Store.
Context `{GraphCrates} `{Surroundings} `{Calendar} `{Signing}.
Variable cfg : config.

Record db := {
  db_mem : memory;
  db_journal : list (Z * SignedEvent);
  db_commit_sequence : Z;
  db_inputs : inputs;
}.
Definition set_mem (m : memory) (d : db) : db :=
  {| db_mem := m; db_journal := db_journal d; db_commit_sequence := db_commit_sequence d;
     db_inputs := db_inputs d |}.
Definition set_inputs (i : inputs) (d : db) : db :=
  {| db_mem := db_mem d; db_journal := db_journal d; db_commit_sequence := db_commit_sequence d;
     db_inputs := i |}.
(** A frame the journal acknowledged *)
Definition add_frame (seq : Z) (e : SignedEvent) (d : db) : db :=
  {| db_mem := db_mem d; db_journal := db_journal d ++ [(seq, e)];
     db_commit_sequence := Z.max (db_commit_sequence d) seq; db_inputs := db_inputs d |}.

Definition mem {A} (f : memory -> A) : EM db A := reads (fun d => f (db_mem d)).
Definition on_mem (f : memory -> memory) : EM db unit := update (fun d => set_mem (f (db_mem d)) d).
Definition mem_op {A} (f : memory -> A * memory) : EM db A :=
  fun d => let '(a, m) := f (db_mem d) in (Ok a, set_mem m d).
(** The next answer of a kind, or the one given when there is none *)
Definition pop {A} (get : inputs -> list A) (set : list A -> inputs -> inputs) (none : A) : EM db A :=
  fun d => match get (db_inputs d) with
           | a :: l => (Ok a, set_inputs (set l (db_inputs d)) d)
           | [] => (Ok none, d)
           end.
Definition next_answer : EM db answer :=
  pop in_answers (fun l i => {| in_answers := l; in_envelopes := in_envelopes i; in_times := in_times i;
                                in_uuids := in_uuids i; in_props := in_props i |}) Unacknowledged.
Definition next_envelope : EM db (result string envelope) :=
  pop in_envelopes (fun l i => {| in_answers := in_answers i; in_envelopes := l; in_times := in_times i;
                                  in_uuids := in_uuids i; in_props := in_props i |})
      (Err "REVISION_ENVELOPE_REQUIRED"%string).
Definition now : EM db Z :=
  pop in_times (fun l i => {| in_answers := in_answers i; in_envelopes := in_envelopes i; in_times := l;
                              in_uuids := in_uuids i; in_props := in_props i |}) 0.
Definition new_uuid : EM db string :=
  pop in_uuids (fun l i => {| in_answers := in_answers i; in_envelopes := in_envelopes i;
                              in_times := in_times i; in_uuids := l; in_props := in_props i |}) ""%string.
Definition projection_props : EM db (result string (option json)) :=
  pop in_props (fun l i => {| in_answers := in_answers i; in_envelopes := in_envelopes i;
                              in_times := in_times i; in_uuids := in_uuids i; in_props := l |}) (Ok None).

(** ** Guards *)

Definition ensure_readable : EM db unit :=
  r ← mem recovery_required; require (negb r) "RECOVERY_REQUIRED".
Definition ensure_writable : EM db unit :=
  ensure_readable ;; require (negb (cf_read_only cfg)) "read-only".
Definition durable_apply_error {A} : EM db A :=
  on_mem require_recovery ;; raise "DURABLE_COMMIT_APPLY_FAILED".
(** [map_err(|e| self.durable_apply_error(seq, e))] *)
Definition or_durable {A} (m : EM db A) : EM db A :=
  r ← catch m; match r with Ok a => mret a | Err _ => durable_apply_error end.

Definition labels_are_master (labels : list string) : bool :=
  existsb (fun l => eq_ignore_ascii_case l "MASTER") labels.
Definition current_node_is_master (s : memory) (id : string) : bool :=
  match live_node s id with Some n => labels_are_master (no_labels n) | None => false end.
Definition node_identity_requires_master (s : memory) (id : string) : bool :=
  current_node_is_master s id || is_Some_b (tombstones s !! id).
(** [Tier::from_labels] is [MASTER] *)
Definition tier_is_master (labels : list string) : bool :=
  existsb (fun l => bool_decide (str_to_uppercase l = "MASTER"%string)) labels.
Definition validate_governance (labels : list string) (is_system : bool) : EM db unit :=
  require (negb (tier_is_master labels && negb is_system)) "403 Forbidden".
Definition validate_local_node_mutation (id : option string) (labels : list string) : EM db unit :=
  s ← mem (fun s => s);
  require (negb ((labels_are_master labels ||
                  match id with Some id => node_identity_requires_master s id | None => false end)
                 && negb (cf_local_master cfg))) "GOVERNANCE_AUTH_REQUIRED" ;;
  validate_governance labels (cf_local_master cfg).
Fixpoint event_requires_master_authority (s : memory) (event : Event) : bool :=
  match event with
  | EvNode n => labels_are_master (no_labels n) || node_identity_requires_master s (no_id n)
  | EvNodeRetract _ _ _ => true
  | EvBatch events => existsb (event_requires_master_authority s) events
  | EvTransaction t =>
      existsb (fun n => labels_are_master (no_labels n) || node_identity_requires_master s (no_id n))
        (tx_nodes t)
      || negb (bool_decide (tx_node_retractions t = []))
      || existsb (fun v => node_identity_requires_master s (ve_node_id v)) (tx_vectors t)
  | EvVector v | EvVectorMaterialized v => node_identity_requires_master s (ve_node_id v)
  | _ => false
  end.

(** ** The journal and the projection *)

Definition intern_projected (ids : list string) (s : memory) : memory :=
  foldl (fun s id => (get_or_intern_id id s).2) s ids.
(** The preflights, the append and the projection *)
Definition append_and_project (e : SignedEvent) : EM db Z :=
  a ← next_answer;
  match a with
  | Refused reason => raise reason
  | Unacknowledged => on_mem require_recovery ;; raise "COMMIT_OUTCOME_UNKNOWN"
  | Applied seq projected =>
      update (add_frame seq e) ;; on_mem (intern_projected projected) ;; mret seq
  | NotApplied seq projected =>
      update (add_frame seq e) ;; on_mem (intern_projected projected) ;; durable_apply_error
  end.
Definition sign_event (e : Event) : SignedEvent :=
  {| se_event := e; se_signature := sign e; se_signer_peer_id := cf_local_peer_id cfg |}.
Definition persist (event : Event) : EM db Z :=
  ensure_readable ;;
  ensure_writable ;;
  require (negb (event_has_legacy_impact event)) "KIMPACT_REMOVED" ;;
  require (negb (contains_p6_control_event event)) "P6_LOCAL_ONLY" ;;
  s ← mem (fun s => s);
  require (negb (event_requires_master_authority s event && negb (cf_local_master cfg)))
    "GOVERNANCE_AUTH_REQUIRED" ;;
  append_and_project (sign_event event).
Definition persist_signed (e : SignedEvent) : EM db Z :=
  ensure_writable ;;
  require (negb (contains_p6_control_event (se_event e))) "P6_LOCAL_ONLY" ;;
  append_and_project e.

(** The last of the edges of an identifier *)
Fixpoint effective_edges (l : list EdgeOutput) : list EdgeOutput :=
  match l with
  | [] => []
  | e :: l' =>
      if existsb (fun d => bool_decide (eo_id d = eo_id e)) l' then effective_edges l'
      else e :: effective_edges l'
  end.
Definition local_transaction (en : envelope) (ns : list NodeOutput) (es : list EdgeOutput)
  (rs : list NodeRetractionEvent) (vs : list VectorEvent) : GenesisTransactionEvent :=
  {| tx_transaction_id := en_transaction_id en; tx_origin_commit_seq := 0; tx_local_frame_seq := None;
     tx_payload_hash := en_payload_hash en; tx_relational := []; tx_nodes := ns; tx_edges := es;
     tx_vectors := vs; tx_node_retractions := rs; tx_advances_txn_frontier := false;
     tx_record_revision_transaction := en_revisions en |}.
Definition persist_local_graph_mutations (ns : list NodeOutput) (es : list EdgeOutput)
  (rs : list NodeRetractionEvent) : EM db Z :=
  if negb (cf_schema6 cfg) then
    match rs with
    | [r] => persist (EvNodeRetract (nr_id r) (nr_clock r) (nr_retracted_at r))
    | _ =>
        let events := (EvNode <$> ns) ++ (EvEdge <$> es) in
        persist (match events with [event] => event | _ => EvBatch events end)
    end
  else
    r ← next_envelope;
    en ← of_result r;
    persist (EvTransaction (local_transaction en ns (effective_edges es) rs [])).

(** ** Vectors *)

Definition resolve_collection (s : memory) (name : option string) : result string (string * Z) :=
  match coll_dim (colls s) (collection_name name) with
  | Some dim => Ok (collection_name name, dim)
  | None => Err "collection not found"%string
  end.
(** The checks of an embedding before it is stored *)
Definition checked_collection (s : memory) (name : option string) (emb : list f64) : result string string :=
  '(coll, dim) ← resolve_collection s name;
  if negb (zlen emb =? dim) then Err "embedding dim"%string
  else if negb (forallb f64_is_finite emb) then Err "VECTOR_VALUES_INVALID"%string
  else Ok coll.
Definition add_vector_internal (collection : option string) (node_id : string) (emb : list f64)
  (lang : string) (created_seq : Z) : EM db unit :=
  s ← mem (fun s => s);
  coll ← of_result (checked_collection s collection emb);
  node_u32 ← mem_op (get_or_intern_id node_id);
  s ← mem (fun s => s);
  r ← mem_op (stage_vector true coll node_u32 (coll_prep (colls s) coll emb) lang created_seq);
  of_result r.

(** ** Local writes *)

Record NodeInput := {
  ni_id : option string; ni_labels : list string; ni_props : option json;
  ni_embedding : option (list f64); ni_lang : option string; ni_valid_from : option string;
  ni_caused_by : option string; ni_ttl : option Z; ni_collection : option string }.
Record EdgeInput := {
  ei_id : option string; ei_from : string; ei_to : string; ei_rel : string; ei_props : option json;
  ei_valid_from : option string; ei_supersede : option bool; ei_impact : option f64;
  ei_caused_by : option string }.

Definition empty_object : json := JObject [].
Definition tick : EM db LogicalClock := mem_op (next_clock (cf_local_peer_id cfg)).
Definition expiry (instant : Z) (ttl : option Z) : option string :=
  (fun s => to_rfc3339 (instant + s * 10 ^ 9)) <$> ttl.
Definition given_or_new (prefix : string) (id : option string) : EM db string :=
  match id with Some id => mret id | None => u ← new_uuid; mret (prefix +:+ u) end.
Definition node_with_vector (emb : option (list f64)) (coll : option string) (n : NodeOutput) : NodeOutput :=
  {| no_id := no_id n; no_labels := no_labels n; no_props := no_props n;
     no_legacy_wire_impact := no_legacy_wire_impact n; no_embedding := emb; no_lang := no_lang n;
     no_valid_from := no_valid_from n; no_valid_to := no_valid_to n; no_caused_by := no_caused_by n;
     no_expires_at := no_expires_at n; no_clock := no_clock n; no_collection := coll |}.
Definition new_node (args : NodeInput) (id : string) (instant : Z) (clock : LogicalClock) : NodeOutput :=
  {| no_id := id; no_labels := ni_labels args; no_props := default empty_object (ni_props args);
     no_legacy_wire_impact := WireAbsent; no_embedding := None;
     no_lang := Some (default "en"%string (ni_lang args));
     no_valid_from := default (to_rfc3339 instant) (ni_valid_from args); no_valid_to := None;
     no_caused_by := ni_caused_by args; no_expires_at := expiry instant (ni_ttl args);
     no_clock := clock; no_collection := None |}.
Definition new_edge (args : EdgeInput) (id valid_from recorded_at : string) (clock : LogicalClock)
  : EdgeOutput :=
  {| eo_id := id; eo_from := ei_from args; eo_to := ei_to args; eo_rel := ei_rel args;
     eo_props := default empty_object (ei_props args); eo_valid_from := valid_from; eo_valid_to := None;
     eo_recorded_at := recorded_at; eo_superseded_by := None; eo_legacy_wire_impact := WireAbsent;
     eo_caused_by := ei_caused_by args; eo_clock := clock |}.

Definition add_node (args : NodeInput) : EM db NodeOutput :=
  ensure_writable ;;
  ensure_readable ;;
  id ← given_or_new "N-" (ni_id args);
  validate_local_node_mutation (Some id) (ni_labels args) ;;
  instant ← now;
  clock ← tick;
  let node := new_node args id instant clock in
  node ← match ni_embedding args with
         | Some emb =>
             s ← mem (fun s => s);
             coll ← of_result (checked_collection s (ni_collection args) emb);
             mret (node_with_vector (Some emb) (Some coll) node)
         | None => mret node
         end;
  seq ← persist_local_graph_mutations [node] [] [];
  u32_id ← mem_op (get_or_intern_id id);
  on_mem (insert_node_lean u32_id node) ;;
  match ni_embedding args with
  | Some emb =>
      or_durable (add_vector_internal (ni_collection args) id emb (default "en"%string (ni_lang args)) seq)
  | None => mret tt
  end ;;
  mret node.

Definition add_edge (args : EdgeInput) : EM db EdgeOutput :=
  of_result (reject_legacy_impact (ei_impact args)) ;;
  ensure_writable ;;
  ensure_readable ;;
  id ← given_or_new "" (ei_id args);
  valid_from ← match ei_valid_from args with Some v => mret v | None => t ← now; mret (to_rfc3339 t) end;
  recorded_at ← now;
  clock ← tick;
  let edge := new_edge args id valid_from (to_rfc3339 recorded_at) clock in
  persist_local_graph_mutations [] [edge] [] ;;
  on_mem (insert_edge edge) ;;
  mret edge.

(** [hydrated_node]: the properties from the projection *)
Definition hydration_failure {A} : EM db A := on_mem require_recovery ;; raise "RECOVERY_REQUIRED".
Definition hydrated_props (node : NodeOutput) : EM db json :=
  props ← (if bool_decide (no_props node = JNull) then
             r ← projection_props;
             match r with
             | Ok (Some props) => mret props
             | Ok None =>
                 match no_legacy_wire_impact node with
                 | WireNumber _ => hydration_failure
                 | _ => mret empty_object
                 end
             | Err _ => hydration_failure
             end
           else mret (no_props node));
  match migrate_legacy_impact props (no_legacy_wire_impact node) with
  | Ok (props, _) => mret props
  | Err _ => hydration_failure
  end.
Definition hydrated_node (node : NodeOutput) : EM db NodeOutput :=
  props ← hydrated_props node;
  match migrate_legacy_node_impact (node_with_props props (no_legacy_wire_impact node) node) with
  | Ok n => mret n
  | Err _ => hydration_failure
  end.
Definition node_closed (valid_to : string) (n : NodeOutput) : NodeOutput :=
  {| no_id := no_id n; no_labels := no_labels n; no_props := no_props n;
     no_legacy_wire_impact := no_legacy_wire_impact n; no_embedding := no_embedding n;
     no_lang := no_lang n; no_valid_from := no_valid_from n; no_valid_to := Some valid_to;
     no_caused_by := no_caused_by n; no_expires_at := no_expires_at n; no_clock := no_clock n;
     no_collection := no_collection n |}.
Definition node_version (valid_from : string) (caused_by : string) (props : option json)
  (clock : LogicalClock) (n : NodeOutput) : NodeOutput :=
  {| no_id := no_id n; no_labels := no_labels n; no_props := default (no_props n) props;
     no_legacy_wire_impact := no_legacy_wire_impact n; no_embedding := no_embedding n;
     no_lang := no_lang n; no_valid_from := valid_from; no_valid_to := None;
     no_caused_by := Some caused_by; no_expires_at := no_expires_at n; no_clock := clock;
     no_collection := no_collection n |}.
Definition supersede_node (id : string) (new_props : option json) (caused_by : option string)
  : EM db NodeOutput :=
  ensure_writable ;;
  ensure_readable ;;
  o ← mem (fun s => get_u32 s id);
  u32_id ← of_result (ok_or o "Node not found"%string);
  instant ← now;
  let stamp := to_rfc3339 instant in
  o ← mem (fun s => nodes s !! u32_id);
  old ← of_result (ok_or o "Node not in memory index"%string);
  old_node ← hydrated_node old;
  validate_local_node_mutation (Some id) (no_labels old_node) ;;
  let old_node := node_closed stamp old_node in
  closed_seq ← persist_local_graph_mutations [old_node] [] [];
  clock ← tick;
  let cause := default (id +:+ "@" +:+ pretty.pretty closed_seq) caused_by in
  let new := node_version stamp cause new_props clock old_node in
  or_durable (persist_local_graph_mutations [new] [] []) ;;
  on_mem (insert_node_lean u32_id new) ;;
  mret new.

Definition retract_node (id : string) : EM db unit :=
  ensure_writable ;;
  ensure_readable ;;
  o ← mem (fun s => get_u32 s id);
  match o with
  | None => mret tt
  | Some u32_id =>
      require (cf_local_master cfg) "GOVERNANCE_AUTH_REQUIRED" ;;
      clock ← tick;
      instant ← now;
      let retracted_at := to_rfc3339 instant in
      seq ← persist_local_graph_mutations [] []
              [{| nr_id := id; nr_clock := clock; nr_retracted_at := retracted_at |}];
      on_mem (retract_node_memory id u32_id seq) ;;
      on_mem (insert_tombstone id {| nt_clock := clock; nt_retracted_at := retracted_at |})
  end.

Definition edge_retracted (at_ : string) (clock : LogicalClock) (e : EdgeOutput) : EdgeOutput :=
  {| eo_id := eo_id e; eo_from := eo_from e; eo_to := eo_to e; eo_rel := eo_rel e;
     eo_props := eo_props e; eo_valid_from := eo_valid_from e; eo_valid_to := Some at_;
     eo_recorded_at := eo_recorded_at e; eo_superseded_by := eo_superseded_by e;
     eo_legacy_wire_impact := eo_legacy_wire_impact e; eo_caused_by := eo_caused_by e;
     eo_clock := clock |}.
Definition retract_edge (id : string) (at_ : option string) : EM db (option EdgeOutput) :=
  ensure_writable ;;
  ensure_readable ;;
  let ekey := edge_key id in
  o ← mem (fun s => edges s !! ekey);
  match o with
  | None => mret None
  | Some edge =>
      stamp ← match at_ with Some a => mret a | None => t ← now; mret (to_rfc3339 t) end;
      clock ← tick;
      let edge := edge_retracted stamp clock edge in
      persist_local_graph_mutations [] [edge] [] ;;
      on_mem (fun s => set_edges (<[ekey := edge]> (edges s)) s) ;;
      mret (Some edge)
  end.

(** *** Batches *)

Definition batch_node (instant : Z) (args : NodeInput) : EM db NodeOutput :=
  id ← given_or_new "N-" (ni_id args);
  coll ← match ni_embedding args with
         | Some emb =>
             s ← mem (fun s => s);
             '(coll, dim) ← of_result (resolve_collection s (ni_collection args));
             require (zlen emb =? dim) "embedding dim" ;;
             mret (Some coll)
         | None => mret None
         end;
  clock ← tick;
  mret (node_with_vector (ni_embedding args) coll (new_node args id instant clock)).
Definition batch_edge (instant : Z) (args : EdgeInput) : EM db EdgeOutput :=
  id ← given_or_new "" (ei_id args);
  clock ← tick;
  mret (new_edge args id (default (to_rfc3339 instant) (ei_valid_from args)) (to_rfc3339 instant) clock).
(** [map] with effects *)
Definition emap {S A B} (f : A -> EM S B) (l : list A) : EM S (list B) :=
  efor (fun acc a => b ← f a; mret (acc ++ [b])) [] l.
Definition insert_batch_node (s : memory) (n : NodeOutput) : memory :=
  let '(u32_id, s) := get_or_intern_id (no_id n) s in insert_node_lean u32_id n s.
(** The vectors of a collection, staged one after the other and indexed as one job *)
Definition stage_batch (name : string) (items : list NodeOutput) (seq : Z) : EM db unit :=
  staged ← emap (fun n =>
      s ← mem (fun s => s);
      node_u32 ← of_result (ok_or (get_u32 s (no_id n)) "not interned"%string);
      let e := coll_prep (colls s) name (default [] (no_embedding n)) in
      r ← mem_op (stage name node_u32 e (default "en"%string (no_lang n)) seq);
      arena_id ← of_result r;
      mret (e, arena_id)) items;
  match staged with [] => mret tt | _ => on_mem (enqueue (IndexBatch name staged)) end.
(** The nodes with vectors by collection, in the order a collection is first named; a
    [HashMap] may give another. *)
Definition batch_collections (ns : list NodeOutput) : list (string * list NodeOutput) :=
  let named := List.filter (fun n => is_Some_b (no_embedding n)) ns in
  let name n := collection_name (no_collection n) in
  map (fun c => (c, List.filter (fun n => bool_decide (name n = c)) named))
      (remove_dups (name <$> named)).
Definition execute_batch (ns : list NodeInput) (es : list EdgeInput)
  : EM db (list NodeOutput * list EdgeOutput) :=
  ensure_writable ;;
  ensure_readable ;;
  efor (fun _ e => of_result (reject_legacy_impact (ei_impact e))) tt es ;;
  efor (fun _ n => validate_local_node_mutation (ni_id n) (ni_labels n)) tt ns ;;
  instant ← now;
  nodes ← emap (batch_node instant) ns;
  edges ← emap (batch_edge instant) es;
  batch_seq ← persist_local_graph_mutations nodes edges [];
  on_mem (fun s => foldl insert_batch_node s nodes) ;;
  on_mem (fun s => foldl (fun s e => insert_edge e s) s edges) ;;
  efor (fun _ c =>
      s ← mem (fun s => s);
      match coll_dim (colls s) c.1 with
      | Some _ => or_durable (stage_batch c.1 c.2 batch_seq)
      | None => mret tt
      end) tt (batch_collections nodes) ;;
  mret (nodes, edges).

Definition add_vector (node_id collection : string) (embedding : list f64) : EM db unit :=
  ensure_writable ;;
  ensure_readable ;;
  exists_ ← mem (fun s => is_Some_b (live_node s node_id));
  require exists_ "node not found" ;;
  validate_local_node_mutation (Some node_id) [] ;;
  s ← mem (fun s => s);
  of_result (checked_collection s (Some collection) embedding) ;;
  clock ← tick;
  let vector := {| ve_node_id := node_id; ve_collection := Some collection; ve_embedding := embedding;
                   ve_lang := Some "en"%string; ve_clock := clock |} in
  if cf_schema6 cfg then
    r ← next_envelope;
    en ← of_result r;
    let t := local_transaction en [] [] [] [vector] in
    seq ← persist (EvTransaction t);
    on_mem (apply_transaction_memory t true seq) ;;
    or_durable ensure_readable
  else
    seq ← persist (EvVector vector);
    or_durable (add_vector_internal (Some collection) node_id embedding "en" seq).

(** The hourly maintenance: nodes that have expired, and nodes without MASTER that never had an
    edge; a refused retraction is skipped. [expired] compares texts of instants. *)
Definition prunable (expired : string -> bool) (s : memory) (p : Z * NodeOutput) : bool :=
  match no_expires_at p.2 with
  | Some at_ => expired at_
  | None => false
  end
  || (negb (existsb (fun l => bool_decide (l = "MASTER"%string)) (no_labels p.2))
      && negb (is_Some_b (in_idx s !! p.1)) && negb (is_Some_b (out_idx s !! p.1))).
Definition prune_orphaned_nodes (expired : string -> bool) : EM db unit :=
  ensure_readable ;;
  ids ← mem (fun s => (fun p => no_id p.2) <$> List.filter (prunable expired s) (map_to_list (nodes s)));
  efor (fun _ id => catch (retract_node id) ;; mret tt) tt ids.

(** ** Replication *)

(** [fetch_max] as a loop of [compare_exchange_weak] under the lock *)
Definition sync_clock (clock : LogicalClock) : EM db unit := on_mem (advance_clock (lc_time clock)).
Definition reconcile_event (signed : SignedEvent) : EM db unit :=
  match se_event signed with
  | EvCollectionDefinition d =>
      s ← mem (fun s => s);
      of_result (collection_preflight (se_event signed) (colls s)) ;;
      known ← mem (fun s => coll_defined (colls s) (cd_name d));
      if (known : bool) then mret tt
      else
        persist_signed signed ;;
        r ← mem_op (fun s => on_collections (apply_collection_definition d (colls s)) s);
        or_durable (of_result r)
  | EvCollectionMaterialization m =>
      persist_signed signed ;;
      r ← mem_op (fun s => on_collections (apply_collection_materialization m (colls s)) s);
      or_durable (of_result r)
  | EvVectorMaterialized v =>
      seq ← persist_signed signed;
      r ← mem_op (replay_materialized_vector true v seq);
      or_durable (of_result r)
  | EvNode n =>
      superseded ← mem (fun s => node_superseded s (no_id n) (no_clock n));
      if (superseded : bool) then mret tt
      else
        sync_clock (no_clock n) ;;
        seq ← persist_signed signed;
        on_mem (replay_node_vector true n seq) ;;
        u32_id ← mem_op (get_or_intern_id (no_id n));
        on_mem (insert_node_lean u32_id n)
  | EvEdge e =>
      older ← mem (fun s => match edges s !! edge_key (eo_id e) with
                            | Some old => clock_lt (eo_clock e) (eo_clock old) | None => false end);
      if (older : bool) then mret tt
      else
        sync_clock (eo_clock e) ;;
        persist_signed signed ;;
        on_mem (insert_edge e)
  | EvVector v =>
      sync_clock (ve_clock v) ;;
      seq ← persist_signed signed;
      on_mem (replay_event_vector true seq v)
  | EvRelationalSchema _ | EvRelationalRows _ => persist_signed signed ;; mret tt
  | EvTransaction t =>
      seq ← persist_signed signed;
      on_mem (apply_transaction_memory t true seq) ;;
      if tx_advances_txn_frontier t then on_mem (advance_frontier seq) else mret tt
  | EvBatch _ =>
      seq ← persist_signed signed;
      on_mem (apply_event_memory true seq (se_event signed)) ;;
      or_durable ensure_readable
  | EvNodeRetract id clock retracted_at =>
      superseded ← mem (fun s => node_superseded s id clock);
      if (superseded : bool) then mret tt
      else
        target ← mem (fun s => u ← get_u32 s id; if nodes s !! u then Some u else None);
        seq ← persist_signed signed;
        match target with
        | Some u32_id => on_mem (retract_node_memory id u32_id seq)
        | None => mret tt
        end ;;
        sync_clock clock ;;
        on_mem (insert_tombstone id {| nt_clock := clock; nt_retracted_at := retracted_at |})
  | EvGenerationPublished _ | EvAccessPolicyChanged _ =>
      seq ← persist_signed signed;
      on_mem (apply_event_memory true seq (se_event signed)) ;;
      or_durable ensure_readable
  | EvSchema6MigrationChunkV1 _ | EvSchema6MigrationCommitV1 _ => raise "SCHEMA6_MIGRATION_LOCAL_ONLY"
  | EvSchema6ActivationV1 _ => raise "P6_LOCAL_ONLY"
  end.
Definition has_revisions (event : Event) : bool :=
  match event with EvTransaction t => is_Some_b (tx_record_revision_transaction t) | _ => false end.
(** [needs_envelope] and [authorized]: the checks of signatures, proofs and authority, which are
    made for the whole delivery before its first event *)
Definition reconcile_state (needs_envelope : SignedEvent -> bool) (authorized : result string unit)
  (events : list SignedEvent) : EM db unit :=
  ensure_writable ;;
  ensure_readable ;;
  require (negb (existsb (fun e => contains_p6_control_event (se_event e)) events)) "P6_LOCAL_ONLY" ;;
  require (negb (cf_schema6 cfg && existsb needs_envelope events)) "UPGRADE_REQUIRED" ;;
  require (negb (negb (cf_schema6 cfg) && existsb (fun e => has_revisions (se_event e)) events))
    "UPGRADE_REQUIRED" ;;
  of_result authorized ;;
  efor (fun _ e => reconcile_event e) tt events.

(** ** Opening again *)

(** A frame of the journal at recovery; [verify] checks its signature. *)
Definition replay_signed (verify : SignedEvent -> bool) (s : memory) (frame : Z * SignedEvent) : memory :=
  let '(seq, e) := frame in
  if contains_p6_control_event (se_event e) &&
     (negb (bool_decide (se_signer_peer_id e = cf_local_peer_id cfg)) || negb (verify e))
  then require_recovery s
  else apply_replay_event s (seq, normalize_replayed_event (cf_local_peer_id cfg) e).
Definition replay_journal (verify : SignedEvent -> bool) (frames : list (Z * SignedEvent)) (s : memory)
  : memory := foldl (replay_signed verify) s frames.
End Store.
