(* ===== verification/GraphJournal.v ===== *)
(** * The live graph is what its journal says

    Whatever the clients write, whatever peers deliver and whatever the environment answers,
    the memory of a store that does not ask for recovery stands for the specification applied
    to the frames of its journal. Opening the store again replays those frames, and so makes
    the same graph. *)
From S2P Require Export GraphReplication GraphStore.
Local Open Scope Z_scope.

(** ** What memory operations never undo *)

Section Later.
Context `{GraphCrates} `{Surroundings}.
Implicit Types s : memory.

(** The clock does not go back, and a demand for recovery stays. *)
Record later (s s' : memory) : Prop := {
  later_clock : logical_clock s <= logical_clock s';
  later_recovery : recovery_required s = true -> recovery_required s' = true;
}.
#[global] Instance later_preorder : PreOrder later.
Proof.
  split; [by split|]. intros a b c [H1 H2] [H3 H4]. split; [lia|auto].
Qed.

Lemma later_counters a b c s :
  logical_clock s <= a -> (recovery_required s = true -> b = true) -> later s (set_counters a b c s).
Proof. by split. Qed.
Lemma later_require_recovery s : later s (require_recovery s).
Proof. by split. Qed.
Lemma later_advance_clock t s : later s (advance_clock t s).
Proof. split; [|done]. cbn. lia. Qed.
Lemma later_or_recover s (x : result string unit * memory) : later s x.2 -> later s (or_recover x).
Proof. destruct x as [[] s']; cbn; intros Hl; [done|]. etrans; [exact Hl|apply later_require_recovery]. Qed.
Lemma later_intern id s : later s (get_or_intern_id id s).2.
Proof. unfold get_or_intern_id. by destruct (id_to_u32 s !! id). Qed.
Lemma later_insert_edge e s : later s (insert_edge e s).
Proof.
  rewrite insert_edge_eq. transitivity (intern_ends e s); [|by split].
  unfold intern_ends. etrans; [apply (later_intern (eo_from e))|apply later_intern].
Qed.
Lemma later_merge_edge s e : later s (apply_transaction_edge s e).
Proof.
  unfold apply_transaction_edge. destruct (edges s !! _); [destruct (clock_lt _ _); [done|]|];
    apply later_insert_edge.
Qed.
Lemma later_insert_node u n s : later s (insert_node_lean u n s).
Proof. unfold insert_node_lean. destruct (migrate_legacy_node_impact n); by split. Qed.
Lemma later_retire seq s k : later s (retire_edge seq s k).
Proof.
  unfold retire_edge, unwire_edge.
  destruct (edges s !! k) as [e|] eqn:He; [|by rewrite He].
  by destruct (get_u32 s (eo_from e)), (get_u32 s (eo_to e)); cbn; rewrite He.
Qed.
Lemma later_fold {A} (f : memory -> A -> memory) l s :
  (forall s a, later s (f s a)) -> later s (foldl f s l).
Proof. intros Hf. revert s; induction l as [|a l IH]; intros s; [done|]. cbn. etrans; [apply Hf|apply IH]. Qed.
Lemma later_retract id u seq s : later s (retract_node_memory id u seq s).
Proof.
  unfold retract_node_memory. set (ks := elements _ ++ elements _).
  transitivity (foldl (retire_edge seq) s ks); [apply later_fold, later_retire|by split].
Qed.
Lemma later_stage_vector index name u e lang seq s : later s (stage_vector index name u e lang seq s).2.
Proof. unfold stage_vector, stage. by destruct (coll_stage _ _ _ _ _ _) as [[] c]; [destruct index|]; split. Qed.
Lemma later_replay_vector index coll id emb lang seq s :
  later s (replay_vector index coll id emb lang seq s).
Proof.
  unfold replay_vector. destruct (coll_dim _ _) as [dim|]; [|apply later_require_recovery].
  destruct (negb _); [apply later_require_recovery|].
  pose proof (later_intern id s) as Hi. destruct (get_or_intern_id id s) as [u s'].
  pose proof (later_stage_vector index (collection_name coll) u
    (coll_prep (colls s') (collection_name coll) emb) lang seq s') as Hst.
  destruct (stage_vector _ _ _ _ _ _ _) as [[] s'']; cbn in *; [by etrans|].
  etrans; [exact Hi|]. etrans; [exact Hst|]. apply later_require_recovery.
Qed.
Lemma later_replay_materialized index v seq s : later s (replay_materialized_vector index v seq s).2.
Proof.
  unfold replay_materialized_vector. destruct (coll_dim _ _) as [dim|]; [|done].
  pose proof (later_intern (ve_node_id v) s) as Hi. destruct (get_or_intern_id _ s) as [u s'].
  etrans; [exact Hi|]. apply later_stage_vector.
Qed.
Lemma later_replay_node_vector index n seq s : later s (replay_node_vector index n seq s).
Proof. unfold replay_node_vector. destruct (no_embedding n); [apply later_replay_vector|done]. Qed.
Lemma later_retraction id t seq s :
  later s (insert_tombstone id t
             match get_u32 s id with Some u => retract_node_memory id u seq s | None => s end).
Proof.
  destruct (get_u32 s id) as [u|]; [|by split].
  transitivity (retract_node_memory id u seq s); [apply later_retract|by split].
Qed.
Lemma later_upsert index n m seq s :
  later s (let '(u, s) := get_or_intern_id (no_id n) s in
           insert_node_lean u m (replay_node_vector index n seq s)).
Proof.
  pose proof (later_intern (no_id n) s) as Hi. destruct (get_or_intern_id _ s) as [u s'].
  etrans; [exact Hi|]. etrans; [apply later_replay_node_vector|apply later_insert_node].
Qed.
Lemma later_transaction t index seq s : later s (apply_transaction_memory t index seq s).
Proof.
  unfold apply_transaction_memory.
  destruct (traverse _ _) as [ns|]; [|apply later_require_recovery].
  destruct (traverse _ _) as [es|]; [|apply later_require_recovery].
  etrans; [|apply (later_fold (fun s v => replay_event_vector index seq v s)); intros; apply later_replay_vector].
  etrans; [|apply (later_fold (apply_transaction_retraction seq)); intros; apply later_retraction].
  etrans; [|apply (later_fold apply_transaction_edge), later_merge_edge].
  etrans; [apply (later_fold (apply_transaction_node index seq) ns); intros; apply later_upsert|].
  destruct (event_time _); [apply later_advance_clock|done].
Qed.
Lemma later_event index seq event s : later s (apply_event_memory index seq event s).
Proof.
  revert s. apply (event_ind' (fun event => forall s, later s (apply_event_memory index seq event s))); clear event.
  - intros l IH s. cbn [apply_event_memory].
    assert (forall s, later s (foldl (fun s e => apply_event_memory index seq e s) s l)) as Hl.
    { induction IH as [|e l He _ IHl]; intros s'; [done|]. cbn. etrans; [apply He|apply IHl]. }
    destruct (event_time _); [|apply Hl]. etrans; [apply later_advance_clock|apply Hl].
  - intros event. destruct event as [d|m|v|x|e|l|v|c|c|t|i t a|c|c|c|c|c]; try exact I;
      intros s; cbn [apply_event_memory];
      set (s' := match event_time _ with Some t => advance_clock t s | None => s end);
      assert (later s s') as Hs' by (unfold s'; destruct (event_time _); [apply later_advance_clock|done]);
      (etrans; [exact Hs'|]); clearbody s'; clear s Hs'; try done;
      try (apply later_or_recover; by split).
    + apply later_or_recover, later_replay_materialized.
    + destruct (node_superseded _ _ _); [done|apply later_upsert].
    + destruct (migrate_legacy_edge_impact e); [apply later_merge_edge|apply later_require_recovery].
    + apply later_replay_vector.
    + pose proof (later_transaction t index (default seq (tx_local_frame_seq t)) s') as Ht.
      destruct (tx_advances_txn_frontier t); [|exact Ht]. etrans; [exact Ht|by split].
    + destruct (node_superseded _ _ _); [done|apply later_retraction].
Qed.
End Later.

(** ** The clocks a replica holds *)

Section Bounded.
Context `{GraphCrates}.
Implicit Types r : replica.

(** No historical [impact] is left to migrate *)
Definition current_node (n : NodeOutput) : Prop := no_legacy_wire_impact n = WireAbsent.
Definition current_edge (e : EdgeOutput) : Prop := eo_legacy_wire_impact e = WireAbsent.
Record bounded (T : Z) (r : replica) : Prop := {
  nodes_bounded id e : rp_nodes r !! id = Some e -> lc_time (entry_clock e) <= T;
  edges_bounded k e : rp_edges r !! k = Some e -> lc_time (eo_clock e) <= T;
  edges_current k e : rp_edges r !! k = Some e -> current_edge e;
}.
Lemma bounded_weaken T T' r : T <= T' -> bounded T r -> bounded T' r.
Proof. intros Hle [Hn He Hc]. split; intros; [specialize (Hn _ _ H0)|specialize (He _ _ H0)|]; [lia|lia|eauto]. Qed.
Lemma bounded_empty T : bounded T empty_replica.
Proof. split; cbn; intros ? ? Hl; by rewrite lookup_empty in Hl. Qed.
Lemma migrated_clock n m : migrate_legacy_node_impact n = Ok m -> no_clock m = no_clock n.
Proof. by intros [props ->]%migrate_node_Ok. Qed.
Lemma migrated_edge_clock e d : migrate_legacy_edge_impact e = Ok d -> eo_clock d = eo_clock e.
Proof. by intros [props ->]%migrate_edge_Ok. Qed.

Lemma bounded_put_node T r n : bounded T r -> lc_time (no_clock n) <= T -> bounded T (put_node r n).
Proof.
  intros [Hn He Hc] Ht. unfold put_node. destruct (migrate_legacy_node_impact n) as [m|] eqn:Hm; [|done].
  apply migrated_clock in Hm. split; cbn; [|done..].
  intros id e [[<- <-]|[_ Hi]]%lookup_insert_Some; [|eauto]. cbn. by rewrite lean_clock, Hm.
Qed.
Lemma bounded_put_edge T r e :
  bounded T r -> lc_time (eo_clock e) <= T -> current_edge e -> bounded T (put_edge e r).
Proof.
  intros [Hn He Hc] Ht Hcur. split; cbn; [done| |]; intros k d [[<- <-]|[_ Hi]]%lookup_insert_Some; eauto.
Qed.
Lemma bounded_bury T r id t : bounded T r -> lc_time (nt_clock t) <= T -> bounded T (bury id t r).
Proof.
  intros [Hn He Hc] Ht. split; cbn.
  - intros i e [[<- <-]|[_ Hi]]%lookup_insert_Some; eauto.
  - intros k e [Hk _]%map_lookup_filter_Some. eauto.
  - intros k e [Hk _]%map_lookup_filter_Some. eauto.
Qed.
Lemma bounded_merge_node T r n : bounded T r -> lc_time (no_clock n) <= T -> bounded T (merge_node r n).
Proof. intros. unfold merge_node. destruct (superseded _ _); [done|by apply bounded_put_node]. Qed.
Lemma migrated_current e d : migrate_legacy_edge_impact e = Ok d -> current_edge d.
Proof. by intros [props ->]%migrate_edge_Ok. Qed.
Lemma bounded_merge_edge T r e :
  bounded T r -> lc_time (eo_clock e) <= T -> current_edge e -> bounded T (merge_edge r e).
Proof.
  intros. unfold merge_edge. destruct (rp_edges r !! _); [destruct (clock_lt _ _); [done|]|];
    by apply bounded_put_edge.
Qed.
Lemma bounded_fold {A} T (f : replica -> A -> replica) l r :
  (forall r a, a ∈ l -> bounded T r -> bounded T (f r a)) -> bounded T r -> bounded T (foldl f r l).
Proof.
  revert r; induction l as [|a l IH]; intros r Hf Hr; [done|]. cbn. apply IH.
  - intros. apply Hf; [by right|done].
  - apply Hf; [by left|done].
Qed.
Lemma traverse_elem {E A B} (f : A -> result E B) l k b :
  traverse f l = Ok k -> b ∈ k -> exists a, a ∈ l /\ f a = Ok b.
Proof.
  revert k; induction l as [|a l IH]; intros k; cbn.
  { intros [= <-] Hb. inversion Hb. }
  intros (b' & Hb' & (k' & Hk & [= <-])%bind_Ok)%bind_Ok [->|Hb]%elem_of_cons.
  - exists a. split; [by left|done].
  - destruct (IH _ Hk Hb) as (x & Hx & Hfx). exists x. split; [by right|done].
Qed.
Lemma bounded_event T r event :
  bounded T r -> (forall t, event_time event = Some t -> t <= T) -> bounded T (merge_event r event).
Proof.
  revert r. apply (event_ind' (fun event => forall r, bounded T r ->
    (forall t, event_time event = Some t -> t <= T) -> bounded T (merge_event r event))); clear event.
  - intros l IH r Hr Ht. cbn. apply bounded_fold; [|done]. intros r' e He Hr'.
    rewrite Forall_forall in IH. apply IH; [done..|]. intros t Het.
    cbn in Ht. assert (t ∈ omap id (map event_time l)) as Hin.
    { apply list_elem_of_omap. exists (Some t). split; [|done]. apply list_elem_of_In, in_map_iff.
      exists e. split; [done|]. by apply list_elem_of_In. }
    destruct (iter_max_Some (omap id (map event_time l))) as [m Hm]; [intros Hnil; rewrite Hnil in Hin; inversion Hin|].
    pose proof (iter_max_le _ _ _ Hm Hin). specialize (Ht _ Hm). lia.
  - intros [d|m|v|n|e|l|v|c|c|t|i k a|c|c|c|c|c]; try done; intros r Hr Ht; cbn in *.
    + by apply bounded_merge_node; [|apply Ht].
    + destruct (migrate_legacy_edge_impact e) as [d|] eqn:Hd; [|done].
      apply bounded_merge_edge; [done| |by eapply migrated_current].
      rewrite (migrated_edge_clock _ _ Hd). by apply Ht.
    + unfold merge_transaction.
      destruct (traverse migrate_legacy_node_impact (tx_nodes t)) as [ns|] eqn:Hns; [|done].
      destruct (traverse migrate_legacy_edge_impact (tx_edges t)) as [es|] eqn:Hes; [|done].
      set (times := _ ++ _ ++ _ ++ _) in Ht.
      assert (forall x, x ∈ times -> x <= T) as Hle.
      { intros x Hx. destruct (iter_max_Some times) as [m Hm]; [intros Hnil; rewrite Hnil in Hx; inversion Hx|].
        pose proof (iter_max_le _ _ _ Hm Hx). specialize (Ht _ Hm). lia. }
      apply bounded_fold; [intros r' x Hx Hr'; apply bounded_bury; [done|]; cbn|].
      { apply Hle. unfold times. rewrite !elem_of_app. do 3 right. by apply (list_elem_of_fmap_2 (fun y => lc_time (nr_clock y))). }
      apply bounded_fold; [intros r' x Hx Hr'; apply bounded_merge_edge; [done|..]|].
      { destruct (traverse_elem _ _ _ _ Hes Hx) as (y & Hy & Hyx).
        rewrite (migrated_edge_clock _ _ Hyx). apply Hle. unfold times. rewrite !elem_of_app.
        right; left. by apply (list_elem_of_fmap_2 (fun e => lc_time (eo_clock e))). }
      { destruct (traverse_elem _ _ _ _ Hes Hx) as (y & Hy & Hyx). by eapply migrated_current. }
      apply bounded_fold; [intros r' x Hx Hr'; apply bounded_put_node; [done|]|done].
      destruct (traverse_elem _ _ _ _ Hns Hx) as (y & Hy & Hyx).
      rewrite (migrated_clock _ _ Hyx). apply Hle. unfold times. rewrite !elem_of_app.
      left. by apply (list_elem_of_fmap_2 (fun n => lc_time (no_clock n))).
    + unfold merge_retraction. destruct (superseded _ _); [done|]. by apply bounded_bury; [|apply Ht].
Qed.

(** A new clock is later than all that is held. *)
Lemma fresh_node T r id k : bounded T r -> T < lc_time k -> superseded (rp_nodes r !! id) k = false.
Proof.
  intros [Hn _ _] Hk. destruct (rp_nodes r !! id) as [e|] eqn:He; [|done].
  specialize (Hn _ _ He). destruct e as [n|t]; cbn in *.
  - apply clock_lt_asym, time_clock_lt. lia.
  - unfold clock_ge. rewrite time_clock_lt by lia. done.
Qed.
Lemma fresh_edge T r e : bounded T r -> T < lc_time (eo_clock e) -> merge_edge r e = put_edge e r.
Proof.
  intros [_ He _] Hk. unfold merge_edge. destruct (rp_edges r !! _) as [old|] eqn:Hold; [|done].
  specialize (He _ _ Hold). by rewrite clock_lt_asym by (apply time_clock_lt; lia).
Qed.
End Bounded.
