(* ===== verification/GraphSnapshot.v ===== *)
(** * Saving the graph and loading it again

    The maps of a snapshot, read into a fresh store, make the graph that was saved: the same
    nodes under the same numbers, edges, tombstones and retired edges, with indexes in order. *)
From S2P Require Export GraphJournal.
Local Open Scope Z_scope.

(** ** Maps rebuilt by insertion *)

Section Inserts.
Context {K A : Type} `{Countable K}.
Implicit Types (m : gmap K A) (l : list (K * A)).

Lemma foldl_inserts l m k a : NoDup l.*1 ->
  foldl (fun m p => <[p.1 := p.2]> m) m l !! k = Some a <->
  (k, a) ∈ l \/ (k ∉ l.*1 /\ m !! k = Some a).
Proof.
  revert m; induction l as [|[i b] l IH]; intros m; cbn; [set_solver|].
  intros [Hi Hl]%NoDup_cons. rewrite IH, lookup_insert_Some, !elem_of_cons by done. split.
  - intros [Hin|(Hk & [[-> ->]|[Hne Hm]])]; [by left; right|by left; left|right].
    split; [|done]. intros [->|]; done.
  - intros [[[= -> ->]|Hin]|(Hk & Hm)]; [right; by auto|by left|right].
    split; [by auto|]. right. split; [|done]. intros ->. apply Hk. by left.
Qed.
Lemma foldl_insert_map m : foldl (fun m p => <[p.1 := p.2]> m) ∅ (map_to_list m) = m.
Proof.
  apply map_eq. intros k. apply option_eq. intros a.
  rewrite foldl_inserts by apply NoDup_fst_map_to_list. rewrite elem_of_map_to_list, lookup_empty. naive_solver.
Qed.
End Inserts.

Section Snapshot.
Context `{GraphCrates} `{Surroundings}.
Implicit Types s : memory.

(** ** Nodes *)

Definition settled (p : Z * NodeOutput) : Prop := lean_node p.2 = p.2 /\ current_node p.2.
Lemma save_settled hydrate s :
  Forall settled (map_to_list (nodes s)) -> save_nodes hydrate s = Ok (map_to_list (nodes s)).
Proof.
  intros Hl. unfold save_nodes. rewrite (traverse_total _ id), list_fmap_id; [done|].
  intros [u n] Hin. rewrite Forall_forall in Hl. destruct (Hl _ Hin) as [_ Hc]. cbn in *. by rewrite Hc.
Qed.
Lemma migrate_settled l : Forall settled l -> traverse migrate_saved_node l = Ok l.
Proof.
  intros Hl. rewrite (traverse_total _ id), list_fmap_id; [done|].
  intros [u n] Hin. rewrite Forall_forall in Hl. destruct (Hl _ Hin) as [_ Hc]. unfold migrate_saved_node. cbn in *.
  rewrite migrate_node_absent by done. cbn. by destruct (bool_decide _), (no_legacy_wire_impact n).
Qed.
Definition name_node (m : gmap string Z) (p : Z * NodeOutput) : gmap string Z := <[no_id p.2 := p.1]> m.
(** What loading nodes leaves alone *)
Record loaded (s s' : memory) : Prop := {
  ld_edges : edges s' = edges s; ld_out : out_idx s' = out_idx s; ld_in : in_idx s' = in_idx s;
  ld_retired : edges_retired s' = edges_retired s; ld_tombs : tombstones s' = tombstones s;
  ld_next : next_u32 s' = next_u32 s; ld_recovery : recovery_required s' = recovery_required s;
}.
Lemma load_node_eq s p : settled p -> tombstones s !! no_id p.2 = None ->
  loaded s (load_node s p) /\ nodes (load_node s p) = <[p.1 := p.2]> (nodes s) /\
  id_to_u32 (load_node s p) = name_node (id_to_u32 s) p.
Proof.
  destruct p as [u n]. intros [Hlean Hc] Ht. unfold load_node, insert_node_lean_snapshot. cbn in *.
  rewrite Hc, andb_false_r. unfold insert_node_lean. rewrite migrate_node_absent by done. cbn.
  rewrite Hlean. split; [|done]. split; cbn; try done. by apply delete_id.
Qed.
Lemma load_node_fold l s :
  Forall settled l -> (forall p, p ∈ l -> tombstones s !! no_id p.2 = None) ->
  let s' := foldl load_node s l in
  loaded s s' /\ nodes s' = foldl (fun m p => <[p.1 := p.2]> m) (nodes s) l /\
  id_to_u32 s' = foldl name_node (id_to_u32 s) l.
Proof.
  intros Hl. revert s. induction Hl as [|p l Hp _ IH]; intros s Ht; cbn; [done|].
  destruct (load_node_eq s p Hp) as ([] & Hn & Hi); [apply Ht; by left|].
  destruct (IH (load_node s p)) as ([] & Hn' & Hi').
  { intros q Hq. rewrite ld_tombs0. apply Ht. by right. }
  rewrite Hn', Hi', Hn, Hi. split; [split; congruence|done].
Qed.

Lemma name_nodes_lookup l m id u :
  NoDup ((fun p : Z * NodeOutput => no_id p.2) <$> l) -> (forall p, p ∈ l -> m !! no_id p.2 = None) ->
  foldl name_node m l !! id = Some u <-> (exists n, (u, n) ∈ l /\ no_id n = id) \/ m !! id = Some u.
Proof.
  intros Hd Hm. assert (foldl name_node m l = foldl (fun m p => <[p.1 := p.2]> m) m ((fun p => (no_id p.2, p.1)) <$> l)) as ->.
  { clear. revert m; induction l as [|p l IH]; intros m; [done|]. cbn. apply IH. }
  rewrite foldl_inserts by (rewrite <- list_fmap_compose; exact Hd).
  rewrite list_elem_of_fmap, <- list_fmap_compose. split.
  - intros [([v n] & [= -> ->] & Hin)|[_ ?]]; [left; by exists n|by right].
  - intros [(n & Hin & <-)|Hu]; [left; by exists (u, n)|right]. split; [|done].
    intros ([v n] & -> & Hin)%list_elem_of_fmap. specialize (Hm _ Hin). cbn in *. congruence.
Qed.

(** The next number is above all that nodes have. *)
Lemma next_number l b :
  Forall (fun p : Z * NodeOutput => 0 <= p.1 < u32_modulus - 1) l -> 0 <= b ->
  let m := foldl (fun m p => Z.max m (u32_saturating_succ p.1)) b l in
  b <= m /\ Forall (fun p => p.1 < m) l.
Proof.
  intros Hl. revert b. induction Hl as [|[u n] l Hu _ IH]; intros b Hb; cbn; [by split; [lia|]|].
  unfold u32_saturating_succ in *. unfold u32_modulus, u32_max in *. cbn in Hu.
  destruct (IH (b `max` ((u + 1) `min` (2 ^ 32 - 1)))) as [Hle Hall]; [lia|]. split; [lia|].
  constructor; [cbn; lia|done].
Qed.
Lemma next_number_bound l b c :
  Forall (fun p : Z * NodeOutput => p.1 < c) l -> b <= c ->
  foldl (fun m p => Z.max m (u32_saturating_succ p.1)) b l <= c.
Proof.
  intros Hl. revert b. induction Hl as [|[u n] l Hu _ IH]; intros b Hb; cbn; [done|].
  apply IH. unfold u32_saturating_succ. cbn in Hu. lia.
Qed.

(** ** Edges *)

Lemma load_fresh_edge e s : edges s !! edge_key (eo_id e) = None -> load_edge s e = insert_edge e s.
Proof.
  intros He. unfold load_edge, insert_edge, index_edge_internal, unindex_edge. rewrite He.
  destruct (get_or_intern_id (eo_from e) s) as [u s1]. by destruct (get_or_intern_id (eo_to e) s1).
Qed.
Lemma insert_edge_frame e s :
  nodes (insert_edge e s) = nodes s /\ tombstones (insert_edge e s) = tombstones s /\
  edges_retired (insert_edge e s) = edges_retired s /\
  edges (insert_edge e s) = <[edge_key (eo_id e) := e]> (edges s).
Proof.
  rewrite insert_edge_eq. unfold intern_ends, get_or_intern_id.
  destruct (id_to_u32 s !! eo_from e); [|set (s1 := set_interned _ _ _ s)];
    destruct (id_to_u32 _ !! eo_to e); done.
Qed.
Lemma load_edge_fold n l s r :
  0 <= n -> sim (n + 2 * zlen l) s r -> NoDup ((fun e => edge_key (eo_id e)) <$> l) ->
  (forall e, e ∈ l -> edges s !! edge_key (eo_id e) = None) ->
  let s' := foldl load_edge s l in
  sim n s' (foldl (fun r e => put_edge e r) r l) /\ nodes s' = nodes s /\ tombstones s' = tombstones s /\
  edges_retired s' = edges_retired s /\
  edges s' = foldl (fun m p => <[p.1 := p.2]> m) (edges s) ((fun e => (edge_key (eo_id e), e)) <$> l).
Proof.
  intros Hn. revert s r; induction l as [|e l IH]; intros s r Hs Hd Hf; cbn.
  { change (zlen []) with 0 in Hs. by replace (n + 2 * 0) with n in Hs by lia. }
  rewrite zlen_cons in Hs. apply NoDup_cons in Hd as [He Hd]. pose proof (zlen_nonneg l).
  rewrite load_fresh_edge by (apply Hf; by left).
  destruct (insert_edge_frame e s) as (Hnodes & Htombs & Hret & Hedges).
  destruct (IH (insert_edge e s) (put_edge e r)) as (Hs' & -> & -> & -> & ->); [|done| |].
  - apply sim_insert_edge; [lia|]. by replace (n + 2 * zlen l + 2) with (n + 2 * (1 + zlen l)) by lia.
  - intros d Hdl. rewrite Hedges, lookup_insert_ne; [apply Hf; by right|].
    intros Hk. apply He. rewrite Hk. by apply (list_elem_of_fmap_2 (fun e => edge_key (eo_id e))).
  - by rewrite Hedges.
Qed.

(** ** Retired edges *)

Lemma load_retired_fold l s :
  let s' := foldl load_retired s l in
  same_graph s s' /\
  edges_retired s' = foldl (fun m p => <[p.1 := p.2]> m) (edges_retired s)
                       ((fun r => (edge_key (eo_id (re_edge r)), r)) <$> l).
Proof.
  revert s; induction l as [|r l IH]; intros s; cbn; [done|].
  destruct (IH (load_retired s r)) as ([] & ->). split; [by split|done].
Qed.

(** ** The whole *)

Definition fresh_store (c : collections) (k : controls) (T : gmap string NodeTombstone) : memory :=
  set_tombstones T (empty_memory c k).
Lemma load_saved_tombstones c k s :
  load_tombstones (map_to_list (tombstones s)) (empty_memory c k) = fresh_store c k (tombstones s).
Proof. unfold load_tombstones. by rewrite foldl_insert_map. Qed.
Lemma edges_ok_empty ids : edges_ok ∅ ids ∅ ∅.
Proof.
  split; try (intros j e He; by rewrite lookup_empty in He); intros u j; unfold adj;
    rewrite lookup_empty; cbn; (split; [set_solver|]); intros (e & He & _); by rewrite lookup_empty in He.
Qed.
Lemma settled_nodes s : graph_ok s -> Forall settled (map_to_list (nodes s)).
Proof.
  intros [_ HN _]. apply Forall_forall. intros [u n] Hin%elem_of_map_to_list.
  exact (node_lean _ _ _ HN _ _ Hin).
Qed.
Lemma node_ids_nodup s : graph_ok s -> NoDup ((fun p : Z * NodeOutput => no_id p.2) <$> map_to_list (nodes s)).
Proof.
  intros [Hids HN _]. apply NoDup_fmap_2_strong; [|apply NoDup_map_to_list].
  intros [u n] [v m] Hu%elem_of_map_to_list Hv%elem_of_map_to_list. cbn. intros Hid.
  pose proof (node_named _ _ _ HN _ _ Hu) as Hun. pose proof (node_named _ _ _ HN _ _ Hv) as Hvm.
  rewrite Hid in Hun. assert (u = v) as <- by congruence. congruence.
Qed.

(** The nodes: in order, under the numbers they had *)
Lemma load_saved_nodes n c k s r : 0 <= n -> sim n s r ->
  exists s2, load_nodes (map_to_list (nodes s)) (fresh_store c k (tombstones s)) = Some s2 /\
    sim n s2 {| rp_nodes := rp_nodes r; rp_edges := ∅ |} /\
    nodes s2 = nodes s /\ tombstones s2 = tombstones s /\ edges s2 = ∅ /\ edges_retired s2 = ∅.
Proof.
  intros Hn [Hok Hroom [Hv Hr]]. pose proof Hok as [Hids HN HE]. set (l := map_to_list (nodes s)).
  assert (forall p, p ∈ l -> nodes s !! p.1 = Some p.2) as Hin by (intros [u m] Hp; by apply elem_of_map_to_list).
  destruct (load_node_fold l (fresh_store c k (tombstones s))) as ([] & Hnodes & Hnames).
  { by apply settled_nodes. }
  { intros p Hp. apply (node_unburied _ _ _ HN p.1). by apply Hin. }
  unfold load_nodes. rewrite migrate_settled by by apply settled_nodes.
  set (s1 := foldl load_node _ l) in *. set (next := foldl _ 0 l). eexists. split; [done|].
  cbn in *. unfold l in Hnodes. rewrite foldl_insert_map in Hnodes.
  assert (forall id u, id_to_u32 s1 !! id = Some u <-> exists m, nodes s !! u = Some m /\ no_id m = id) as Hlook.
  { intros id u. rewrite Hnames, name_nodes_lookup, lookup_empty by (try apply node_ids_nodup; done).
    unfold l. setoid_rewrite elem_of_map_to_list. naive_solver. }
  assert (Forall (fun p : Z * NodeOutput => 0 <= p.1 < next_u32 s) l) as Hbound.
  { apply Forall_forall. intros p Hp. eapply (ids_bound _ _ Hids), (node_named _ _ _ HN), Hin, Hp. }
  pose proof (ids_next _ _ Hids) as Hnext0. unfold room in Hroom.
  destruct (next_number l 0) as [Hpos Habove]; [|done|].
  { eapply Forall_impl; [exact Hbound|]. cbn. unfold u32_modulus in *. lia. }
  assert (next <= next_u32 s) as Hle.
  { apply next_number_bound; [|done]. eapply Forall_impl; [exact Hbound|]. cbn. lia. }
  fold next in Hpos, Habove. rewrite Forall_forall in Habove, Hbound.
  assert (graph_ok (set_interned (id_to_u32 s1) next (trigram_index s1) s1)) as Hok2.
  { split; cbn.
    - split; [|done|].
      + intros id u (m & Hm & _)%Hlook. split; [eapply (ids_bound _ _ Hids), (node_named _ _ _ HN), Hm|].
        apply (Habove (u, m)). by apply elem_of_map_to_list.
      + intros id id' u (m & Hm & <-)%Hlook (m' & Hm' & <-)%Hlook. congruence.
    - rewrite Hnodes, ld_tombs0. split; [|apply HN..]. intros u m Hm. apply Hlook. by exists m.
    - rewrite ld_edges0, ld_out0, ld_in0. apply edges_ok_empty. }
  split_and!; try done. split; [done|unfold room; cbn; lia|split; [|done]].
  intros id. cbn. rewrite Hv. unfold view. cbn. rewrite ld_tombs0. f_equal.
  assert (live_node (set_interned (id_to_u32 s1) next (trigram_index s1) s1) id = live_node s id) as ->; [|done].
  apply option_eq. intros m. rewrite !live_node_Some by done. cbn. by rewrite Hnodes.
Qed.

Lemma keyed_list {A} (key : A -> Z) (l : list (Z * A)) :
  Forall (fun p => p.1 = key p.2) l -> (fun a => (key a, a)) <$> l.*2 = l.
Proof. induction 1 as [|[k a] l Hk _ IH]; [done|]. cbn in *. by rewrite IH, <- Hk. Qed.
Lemma keyed_keys {A} (key : A -> Z) (l : list (Z * A)) :
  Forall (fun p => p.1 = key p.2) l -> key <$> l.*2 = l.*1.
Proof. induction 1 as [|[k a] l Hk _ IH]; [done|]. cbn in *. by rewrite IH, <- Hk. Qed.
Lemma put_edges_nodes l r : rp_nodes (foldl (fun r e => put_edge e r) r l) = rp_nodes r.
Proof. revert r; induction l as [|e l IH]; intros r; [done|]. cbn. by rewrite IH. Qed.
Lemma zlen_map_snd {A} (l : list (Z * A)) : zlen l.*2 = zlen l.
Proof. unfold zlen. by rewrite length_fmap. Qed.

(** What loading what was saved gives *)
Lemma load_saved n hydrate c k s r :
  0 <= n -> sim (n + 2 * Z.of_nat (size (edges s))) s r ->
  (forall key e, edges s !! key = Some e -> current_edge e) ->
  (forall key x, edges_retired s !! key = Some x -> key = edge_key (eo_id (re_edge x))) ->
  exists f s', save_maps hydrate s = Ok f /\ load_maps f (empty_memory c k) = Some s' /\
    sim n s' r /\ nodes s' = nodes s /\ tombstones s' = tombstones s /\
    edges_retired s' = edges_retired s /\ logical_clock s' = logical_clock s.
Proof.
  intros Hn Hs Hcur Hret. set (l := map_to_list (edges s)).
  assert (zlen l = Z.of_nat (size (edges s))) as Hlen by (unfold zlen, l; by rewrite length_map_to_list).
  assert (Forall (fun p => p.1 = edge_key (eo_id p.2)) l) as Hkeyed.
  { apply Forall_forall. intros [key e] Hin%elem_of_map_to_list.
    exact (edge_keyed _ _ _ _ (g_edges _ (sim_ok _ _ _ Hs)) _ _ Hin). }
  destruct (load_saved_nodes (n + 2 * Z.of_nat (size (edges s))) c k s r ltac:(lia) Hs) as (s2 & Hload & Hs2 & Hn2 & Ht2 & He2 & Hr2).
  unfold save_maps. rewrite save_settled by apply settled_nodes, Hs. eexists _, _. split; [done|].
  unfold load_maps. cbn [sn_nodes sn_edges sn_retired sn_tombstones sn_logical_clock].
  rewrite load_saved_tombstones, Hload. cbn [mbind option_bind]. unfold load_edges.
  rewrite (traverse_total _ id), list_fmap_id.
  2:{ intros e ([key d] & -> & Hin%elem_of_map_to_list)%list_elem_of_fmap. apply migrate_edge_absent, (Hcur key), Hin. }
  cbn [mbind option_bind]. split; [done|]. fold l.
  destruct (load_edge_fold n l.*2 s2 {| rp_nodes := rp_nodes r; rp_edges := ∅ |} Hn) as (Hs3 & Hn3 & Ht3 & Hr3 & He3).
  { rewrite zlen_map_snd, Hlen. exact Hs2. }
  { rewrite (keyed_keys (fun e => edge_key (eo_id e))) by done. apply NoDup_fst_map_to_list. }
  { intros e _. by rewrite He2. }
  destruct (load_retired_fold (map_to_list (edges_retired s)).*2 (foldl load_edge s2 l.*2)) as [Hsame Hr4].
  rewrite (keyed_list (fun e => edge_key (eo_id e))), He2 in He3 by done.
  unfold l in He3. rewrite foldl_insert_map in He3.
  rewrite (keyed_list (fun x => edge_key (eo_id (re_edge x)))), Hr3, Hr2 in Hr4.
  2:{ apply Forall_forall. intros [key x] Hin%elem_of_map_to_list. by apply Hret. }
  rewrite foldl_insert_map in Hr4.
  split_and!; [|by cbn; rewrite <- (same_nodes _ _ Hsame), Hn3|
    by cbn; rewrite <- (same_tombstones _ _ Hsame), Ht3|done|done].
  apply sim_counters. eapply sim_same; [exact Hsame|]. destruct Hs3 as [Hok Hroom [Hv Hre]].
  split; [done|done|split].
  - intros id. rewrite <- Hv. by rewrite put_edges_nodes.
  - fold l in He3. rewrite He3. apply (edges_stand _ _ (sim_abs _ _ _ Hs)).
Qed.
End Snapshot.
