(* ===== verification/GraphWrites.v ===== *)
(** * Every write keeps memory and journal together

    The Hoare triples of the writes of [GraphStore.v]: before and after each of them, with any
    answers of the environment, the memory stands for a replica, and unless the store asks for
    recovery that replica is the specification applied to the journal. *)
From S2P Require Export GraphJournal.
Local Open Scope Z_scope.

Section Writes.
Context `{GraphCrates} `{Surroundings} `{Calendar} `{Signing}.
Variable cfg : config.
Implicit Types (d : db) (r x : replica) (s : memory).

(** The identifiers the answers to come give a number to *)
Definition projected (a : answer) : Z :=
  match a with Applied _ p | NotApplied _ p => zlen p | _ => 0 end.
Definition budget (d : db) : Z := foldr (fun a m => projected a + m) 0 (in_answers (db_inputs d)).
Lemma budget_nonneg d : 0 <= budget d.
Proof.
  unfold budget. induction (in_answers (db_inputs d)) as [|a l IH]; cbn; [done|].
  destruct a; cbn; try lia; pose proof (zlen_nonneg projected0); lia.
Qed.
Definition journal_replica (d : db) : replica :=
  foldl merge_event empty_replica ((fun f => se_event f.2) <$> db_journal d).

(** The memory stands for [r], with room for [n] identifiers; its clocks are at most [T], which
    the clock has reached; and the journal makes [x], unless recovery is asked for. No control
    event came into it this way. *)
Record state (n T : Z) (r x : replica) (d : db) : Prop := {
  st_sim : sim (n + budget d) (db_mem d) r;
  st_bounded : bounded T r;
  st_clock : T <= logical_clock (db_mem d);
  st_nonneg : 0 <= logical_clock (db_mem d);
  st_journal : recovery_required (db_mem d) = false -> journal_replica d = x;
  st_open : Forall (fun f => contains_p6_control_event (se_event f.2) = false) (db_journal d);
}.
Definition faithful (n : Z) (d : db) : Prop := exists T r, state n T r r d.
(** [c] more ticks do not wrap the clock. *)
Definition ticks (c : Z) (d : db) : Prop := logical_clock (db_mem d) + c < u32_modulus.

Lemma state_weaken n m T r x d : m <= n -> state n T r x d -> state m T r x d.
Proof. intros Hle []. split; try done. eapply sim_weaken; [|done]. lia. Qed.
Lemma faithful_weaken n m d : m <= n -> faithful n d -> faithful m d.
Proof. intros Hle (T & r & Hd). exists T, r. by eapply state_weaken. Qed.

(** ** Code that changes neither *)

(** The same store, with other inputs left *)
Definition alike (d d' : db) : Prop :=
  db_mem d = db_mem d' /\ db_journal d = db_journal d' /\
  in_answers (db_inputs d) = in_answers (db_inputs d').
Definition stable (P : db -> Prop) : Prop := forall d d', alike d d' -> P d -> P d'.
(** An error, and not the end of the machine, with the state as described *)
Definition noted (P : db -> Prop) (e : stop) (d : db) : Prop := e <> Crash /\ P d.
Definition quiet {A} (m : EM db A) : Prop :=
  forall P, stable P -> etriple P m (fun _ => P) (noted P).

Lemma stable_state n T r x : stable (state n T r x).
Proof.
  intros d d' (Hm & Hj & Ha) [Hs Hb Hc Hn Hx Ho]. unfold journal_replica, budget in *.
  split; rewrite <- ?Hm; try done; unfold journal_replica, budget; rewrite <- ?Ha, <- ?Hj; done.
Qed.
Lemma stable_ticks c : stable (ticks c).
Proof. intros d d' (Hm & _). unfold ticks. by rewrite Hm. Qed.
Lemma stable_and P Q : stable P -> stable Q -> stable (fun d => P d /\ Q d).
Proof. intros HP HQ d d' Hd [? ?]. split; [by eapply HP|by eapply HQ]. Qed.
Lemma stable_pure (F : Prop) : stable (fun _ => F).
Proof. by intros d d' _. Qed.

Lemma quiet_return {A} (a : A) : quiet (mret a).
Proof. intros P HP. by apply etriple_ret. Qed.
Lemma quiet_raise {A} e : quiet (raise (A := A) e).
Proof. intros P HP. apply etriple_raise. by split. Qed.
Lemma quiet_mem {A} (f : memory -> A) : quiet (mem f).
Proof. intros P HP. by apply etriple_reads. Qed.
Lemma quiet_require b e : quiet (require b e).
Proof. intros P HP. apply etriple_require; [done|by split]. Qed.
Lemma quiet_of_result {A} (x : result string A) : quiet (of_result x).
Proof. intros P HP. apply etriple_of_result; [done|by split]. Qed.
Lemma quiet_seq {A B} (m : EM db A) (f : A -> EM db B) :
  quiet m -> (forall a, quiet (f a)) -> quiet (m ≫= f).
Proof. intros Hm Hf P HP. eapply etriple_bind; [by apply Hm|]. intros a. by apply Hf. Qed.
Lemma quiet_pop {A} (get : inputs -> list A) set none :
  (forall l i, in_answers (set l i) = in_answers i) -> quiet (pop get set none).
Proof.
  intros Hset P HP d Hd. unfold pop. destruct (get (db_inputs d)) as [|a l]; [done|].
  eapply HP; [|exact Hd]. split_and!; [done|done|]. cbn. by rewrite Hset.
Qed.
Lemma quiet_now : quiet now.
Proof. by apply quiet_pop. Qed.
Lemma quiet_uuid : quiet new_uuid.
Proof. by apply quiet_pop. Qed.
Lemma quiet_envelope : quiet next_envelope.
Proof. by apply quiet_pop. Qed.
Lemma quiet_props : quiet projection_props.
Proof. by apply quiet_pop. Qed.
Lemma quiet_readable : quiet ensure_readable.
Proof. apply quiet_seq; [apply quiet_mem|]. intros b. apply quiet_require. Qed.
Lemma quiet_writable : quiet (ensure_writable cfg).
Proof. apply quiet_seq; [apply quiet_readable|]. intros _. apply quiet_require. Qed.
Lemma quiet_given p id : quiet (given_or_new p id).
Proof.
  destruct id; [apply quiet_return|]. apply quiet_seq; [apply quiet_uuid|]. intros u. apply quiet_return.
Qed.
Lemma quiet_validate id labels : quiet (validate_local_node_mutation cfg id labels).
Proof.
  apply quiet_seq; [apply quiet_mem|]. intros s.
  apply quiet_seq; [apply quiet_require|]. intros _. apply quiet_require.
Qed.
Lemma quiet_for {A B} (f : B -> A -> EM db B) l b : (forall b a, quiet (f b a)) -> quiet (efor f b l).
Proof.
  intros Hf. revert b; induction l as [|a l IH]; intros b; cbn; [apply quiet_return|].
  apply quiet_seq; [apply Hf|]. intros b'. apply IH.
Qed.

(** A quiet step before the rest: what may go wrong in it leaves the state as it was. *)
Lemma quiet_then {A B} (m : EM db A) (f : A -> EM db B) P Q (X : stop -> db -> Prop) :
  quiet m -> stable P -> (forall e d, noted P e d -> X e d) ->
  (forall a, etriple P (f a) Q X) -> etriple P (m ≫= f) Q X.
Proof.
  intros Hm HP HX Hf. eapply etriple_bind; [|exact Hf].
  eapply etriple_conseq; [by apply Hm|done|done|done].
Qed.

(** ** Changes of memory *)

Lemma budget_set_mem m d : budget (set_mem m d) = budget d.
Proof. reflexivity. Qed.
Lemma state_set_mem m n n' T T' r r' x d :
  state n T r x d -> sim (n' + budget d) m r' -> later (db_mem d) m -> bounded T' r' ->
  T' <= logical_clock m -> state n' T' r' x (set_mem m d).
Proof.
  intros [Hs Hb Hc Hn Hx Ho] Hm [Hl Hr] Hb' Ht. split; try done; cbn; [lia|].
  intros Hrec. apply Hx. destruct (recovery_required (db_mem d)); [|done]. by rewrite Hr in Hrec.
Qed.
(** An operation on memory that follows the specification *)
Lemma mem_rule (f : memory -> memory) n n' T r r' x X :
  (forall b s, 0 <= b -> sim (n + b) s r -> sim (n' + b) (f s) r') ->
  (forall s, later s (f s)) -> bounded T r' ->
  etriple (state n T r x) (on_mem f) (fun _ => state n' T r' x) X.
Proof.
  intros Hf Hl Hb. apply etriple_update. intros d Hd.
  eapply state_set_mem; [exact Hd| |apply Hl|done|].
  - apply Hf; [apply budget_nonneg|apply Hd].
  - pose proof (st_clock _ _ _ _ _ Hd). pose proof (later_clock _ _ (Hl (db_mem d))). lia.
Qed.
Lemma mem_op_rule {A} (f : memory -> A * memory) n n' T r r' x X :
  (forall b s, 0 <= b -> sim (n + b) s r -> sim (n' + b) (f s).2 r') ->
  (forall s, later s (f s).2) -> bounded T r' ->
  etriple (state n T r x) (mem_op f) (fun _ => state n' T r' x) X.
Proof.
  intros Hf Hl Hb d Hd. unfold mem_op. pose proof (Hf (budget d) (db_mem d) (budget_nonneg d) (st_sim _ _ _ _ _ Hd)) as Hsim.
  pose proof (Hl (db_mem d)) as Hlater. destruct (f (db_mem d)) as [a m]. cbn in *.
  eapply state_set_mem; [exact Hd|done|done|done|].
  pose proof (st_clock _ _ _ _ _ Hd). pose proof (later_clock _ _ Hlater). lia.
Qed.

(** Recovery makes the journal's part void. *)
Lemma state_recovery n T r x x' d :
  state n T r x d -> state n T r x' (set_mem (require_recovery (db_mem d)) d).
Proof. intros []. split; try done. by apply sim_require_recovery. Qed.
Lemma recovery_rule {A} n T r x x' (Q : A -> db -> Prop) (X : stop -> db -> Prop) e :
  (forall d, state n T r x' d -> X (Raised e) d) ->
  etriple (state n T r x) (on_mem require_recovery ;; raise e) Q X.
Proof.
  intros HX. eapply etriple_bind; [|intros a; apply etriple_raise, HX].
  apply etriple_update. intros d Hd. by eapply state_recovery.
Qed.
(** [map_err] to a durable error: what failed may leave the journal ahead of memory. *)
Lemma or_durable_rule {A} (m : EM db A) P n (Q : A -> db -> Prop) (X : stop -> db -> Prop) :
  etriple P m Q (fun e d => e <> Crash /\ exists (T' : Z) r' x' (n' : Z), n <= n' /\ state n' T' r' x' d) ->
  (forall e d (T' : Z) r', state n T' r' r' d -> X e d) ->
  etriple P (or_durable m) Q X.
Proof.
  intros Hm HX. unfold or_durable.
  eapply etriple_bind with (R := fun o d =>
    match o with Ok a => Q a d | Err _ => exists (T' : Z) r' x' (n' : Z), n <= n' /\ state n' T' r' x' d end).
  - apply etriple_catch. eapply etriple_conseq; [exact Hm|done|done|].
    intros [|e] d [Hne Hd]; [done|exact Hd].
  - intros [a|e]; [by apply etriple_ret|].
    intros d (T' & r' & x' & n' & Hle & Hd). cbn. eapply HX, state_recovery, state_weaken; [exact Hle|exact Hd].
Qed.

(** ** The clock *)

(** A clock later than every clock held *)
Definition fresh (k : LogicalClock) (r : replica) : Prop := exists T, bounded T r /\ T < lc_time k.
Lemma tick_rule c n T r x X : 0 <= c ->
  etriple (fun d => state n T r x d /\ ticks (c + 1) d) (tick cfg)
    (fun k d => (T < lc_time k /\ bounded T r) /\ state n (lc_time k) r x d /\ ticks c d) X.
Proof.
  intros Hc d [[Hs Hb Ht Hn Hx Ho] Hticks]. unfold ticks in *. cbn.
  assert ((logical_clock (db_mem d) + 1) mod u32_modulus = logical_clock (db_mem d) + 1) as Hmod.
  { apply Z.mod_small. lia. }
  rewrite Hmod. split; [split; [lia|done]|]. split; [|lia]. split; cbn; try done; try lia.
  - by apply sim_counters.
  - eapply bounded_weaken; [|done]. lia.
Qed.

(** ** The journal *)

Lemma sim_intern_projected n ids s r :
  0 <= n -> sim (n + zlen ids) s r -> sim n (intern_projected ids s) r.
Proof.
  intros Hn Hs. rewrite <- (foldl_const r ids). apply (sim_fold_const _ _ 1); [done..| |].
  - intros id m s' r' Hm. by apply sim_intern.
  - by rewrite Z.mul_1_l.
Qed.
Lemma later_intern_projected ids s : later s (intern_projected ids s).
Proof. apply (later_fold (fun s id => (get_or_intern_id id s).2)). intros. apply later_intern. Qed.
Lemma journal_add_frame seq e d :
  journal_replica (add_frame seq e d) = merge_event (journal_replica d) (se_event e).
Proof. unfold journal_replica, add_frame. cbn. by rewrite fmap_app, foldl_app. Qed.

(** A frame that was acknowledged *)
Lemma state_frame n T r x seq e ids rest d :
  0 <= n -> in_answers (db_inputs d) = rest -> sim (n + (zlen ids + foldr (fun a m => projected a + m) 0 rest)) (db_mem d) r ->
  bounded T r -> T <= logical_clock (db_mem d) -> 0 <= logical_clock (db_mem d) ->
  (recovery_required (db_mem d) = false -> journal_replica d = x) ->
  Forall (fun f => contains_p6_control_event (se_event f.2) = false) (db_journal d) ->
  contains_p6_control_event (se_event e) = false ->
  let d' := add_frame seq e d in
  state n T r (merge_event x (se_event e)) (set_mem (intern_projected ids (db_mem d')) d').
Proof.
  intros Hn Hrest Hs Hb Ht Hz Hx Ho He d'. pose proof (later_intern_projected ids (db_mem d)) as [Hl Hr].
  assert (0 <= foldr (fun a m => projected a + m) 0 rest) as Hpos.
  { subst rest. apply budget_nonneg. }
  split; cbn; try done; [|lia|lia| |].
  - unfold budget. cbn. rewrite Hrest. apply sim_intern_projected; [lia|].
    eapply sim_weaken; [|exact Hs]. lia.
  - intros Hrec. change (journal_replica (add_frame seq e d) = merge_event x (se_event e)).
    rewrite journal_add_frame. f_equal. apply Hx.
    destruct (recovery_required (db_mem d)); [|done]. by rewrite Hr in Hrec.
  - apply Forall_app. split; [done|]. by constructor.
Qed.
Lemma append_rule n T r x e : 0 <= n -> contains_p6_control_event (se_event e) = false ->
  etriple (state n T r x) (append_and_project e)
    (fun _ => state n T r (merge_event x (se_event e))) (noted (state n T r x)).
Proof.
  intros Hn He d Hd. unfold append_and_project, next_answer, pop. rewrite em_bind_eq.
  destruct Hd as [Hs Hb Ht Hz Hx Ho]. unfold budget in Hs.
  destruct (in_answers (db_inputs d)) as [|a rest] eqn:Hin.
  { cbn. split; [done|]. split; cbn; try done. unfold budget; cbn; rewrite Hin; cbn in Hs. by apply sim_require_recovery. }
  assert (sim (n + foldr (fun a m => projected a + m) 0 rest) (db_mem d) r) as Hs'.
  { eapply sim_weaken; [|exact Hs]. cbn. destruct a as [| |q ids|q ids]; cbn; try (pose proof (zlen_nonneg ids)); lia. }
  destruct a as [reason| |seq ids|seq ids]; cbn in Hs |- *.
  - by split.
  - split; [done|]. split; cbn; try done. by apply sim_require_recovery.
  - eapply (state_frame n T r x seq e ids rest (set_inputs _ d)); done.
  - split; [done|]. eapply (state_recovery n T r (merge_event x (se_event e)) x
      (set_mem (intern_projected ids (db_mem d)) (add_frame seq e (set_inputs _ d)))).
    by eapply (state_frame n T r x seq e ids rest (set_inputs _ d)).
Qed.
Lemma require_then {A} (b : bool) e (m : EM db A) P Q (X : stop -> db -> Prop) :
  (forall d, P d -> X (Raised e) d) -> (b = true -> etriple P m Q X) ->
  etriple P (require b e ;; m) Q X.
Proof.
  intros HX Hm d Hd. rewrite em_bind_eq. destruct b; cbn; [by apply Hm|by apply HX].
Qed.
Lemma persist_rule n T r x ev : 0 <= n ->
  etriple (state n T r x) (persist cfg ev)
    (fun _ => state n T r (merge_event x ev)) (noted (state n T r x)).
Proof.
  intros Hn. pose proof (stable_state n T r x) as Hst. unfold persist.
  apply quiet_then; [apply quiet_readable|done|done|intros ?].
  apply quiet_then; [apply quiet_writable|done|done|intros ?].
  apply quiet_then; [apply quiet_require|done|done|intros ?].
  apply require_then; [by split|intros Hopen%negb_true_iff].
  apply quiet_then; [apply quiet_mem|done|done|intros ?].
  apply quiet_then; [apply quiet_require|done|done|intros ?].
  by apply append_rule.
Qed.
Lemma persist_signed_rule n T r x e : 0 <= n ->
  etriple (state n T r x) (persist_signed cfg e)
    (fun _ => state n T r (merge_event x (se_event e))) (noted (state n T r x)).
Proof.
  intros Hn. pose proof (stable_state n T r x) as Hst. unfold persist_signed.
  apply quiet_then; [apply quiet_writable|done|done|intros ?].
  apply require_then; [by split|intros Hopen%negb_true_iff].
  by apply append_rule.
Qed.

(** What the frame of local mutations does to a replica *)
Definition journalled (x : replica) (ns : list NodeOutput) (es : list EdgeOutput)
  (rs : list NodeRetractionEvent) : replica :=
  if negb (cf_schema6 cfg) then
    match rs with
    | [r] => merge_retraction x (nr_id r) {| nt_clock := nr_clock r; nt_retracted_at := nr_retracted_at r |}
    | _ => foldl merge_edge (foldl merge_node x ns) es
    end
  else foldl bury_retraction (foldl merge_edge (foldl put_node x ns) (effective_edges es)) rs.
Lemma traverse_current ns : Forall current_node ns -> traverse migrate_legacy_node_impact ns = Ok ns.
Proof. induction 1 as [|n ns Hn _ IH]; [done|]. cbn. by rewrite migrate_node_absent, IH. Qed.
Lemma traverse_current_edges es : Forall current_edge es -> traverse migrate_legacy_edge_impact es = Ok es.
Proof. induction 1 as [|n ns Hn _ IH]; [done|]. cbn. by rewrite migrate_edge_absent, IH. Qed.
Lemma effective_edges_current es : Forall current_edge es -> Forall current_edge (effective_edges es).
Proof. induction 1 as [|e es He _ IH]; cbn; [done|]. destruct (existsb _ es); [done|by constructor]. Qed.
Lemma merge_current_edges x es :
  Forall current_edge es -> foldl merge_event x (EvEdge <$> es) = foldl merge_edge x es.
Proof.
  intros Hes. revert x; induction Hes as [|e es He _ IH]; intros x; [done|].
  cbn. by rewrite migrate_edge_absent, IH.
Qed.
Lemma merge_plain_nodes x ns : foldl merge_event x (EvNode <$> ns) = foldl merge_node x ns.
Proof. revert x; induction ns as [|n ns IH]; intros x; [done|]. cbn. apply IH. Qed.

Lemma persist_local_rule n T r x ns es rs :
  0 <= n -> Forall current_node ns -> Forall current_edge es ->
  etriple (state n T r x) (persist_local_graph_mutations cfg ns es rs)
    (fun _ => state n T r (journalled x ns es rs)) (noted (state n T r x)).
Proof.
  intros Hn Hns Hes. unfold persist_local_graph_mutations, journalled.
  destruct (cf_schema6 cfg); cbn [negb].
  - apply quiet_then; [apply quiet_envelope|apply stable_state|done|intros o].
    apply quiet_then; [apply quiet_of_result|apply stable_state|done|intros en].
    eapply etriple_conseq; [by apply persist_rule|done| |done].
    intros seq d. cbn. unfold merge_transaction. cbn.
    by rewrite traverse_current, traverse_current_edges by (by try apply effective_edges_current).
  - assert (forall x, merge_event x (match (EvNode <$> ns) ++ (EvEdge <$> es) with
      [event] => event | _ => EvBatch ((EvNode <$> ns) ++ (EvEdge <$> es)) end) =
      foldl merge_edge (foldl merge_node x ns) es) as Hbatch.
    { intros y. transitivity (foldl merge_event y ((EvNode <$> ns) ++ (EvEdge <$> es))).
      - by destruct ((EvNode <$> ns) ++ (EvEdge <$> es)) as [|? []].
      - by rewrite foldl_app, merge_plain_nodes, merge_current_edges. }
    destruct rs as [|z [|]]; cbv zeta; (eapply etriple_conseq; [by apply persist_rule|done| |done]);
      intros seq d; rewrite ?Hbatch; done.
Qed.
End Writes.

Create HintDb quiet.
#[export] Hint Resolve quiet_return quiet_raise quiet_mem quiet_require quiet_of_result quiet_now
  quiet_uuid quiet_envelope quiet_props quiet_readable quiet_writable quiet_given quiet_validate
  quiet_seq : quiet.
#[export] Hint Resolve stable_state stable_ticks stable_and stable_pure : quiet.
Lemma etriple_exists {S A B} (P : B -> S -> Prop) (m : EM S A) (Q : A -> S -> Prop) (X : stop -> S -> Prop) :
  (forall b, etriple (P b) m Q X) -> etriple (fun s => exists b, P b s) m Q X.
Proof. intros Hm s [b Hs]. by apply (Hm b). Qed.
Lemma etriple_assoc {S A B C} P (m : EM S A) (f : A -> EM S B) (g : B -> EM S C) Q X :
  etriple P ((m ≫= f) ≫= g) Q X -> etriple P (a ← m; b ← f a; g b) Q X.
Proof.
  intros Hm s Hs. specialize (Hm s Hs). rewrite !em_bind_eq in *.
  destruct (m s) as [[a|e] t]; done.
Qed.
(** Quiet steps, one after the other; what may go wrong in them is in scope. *)
Ltac quiet_one :=
  apply quiet_then; [solve [auto with quiet]|solve [auto with quiet]|assumption|intros ?].
Ltac quietly := repeat quiet_one.
