(* ===== verification/GraphCalls.v ===== *)
(** * The calls of a store, one by one

    Each local write and each remote event keeps memory and journal together. The writes take
    clocks later than every clock held, so that replay decides as they did. *)
From S2P Require Export GraphWrites.
Local Open Scope Z_scope.

Section Calls.
Context `{GraphCrates} `{Surroundings} `{Calendar} `{Signing}.
Variable cfg : config.
Implicit Types (d : db) (r x : replica) (s : memory).

(** Any outcome leaves a faithful store. *)
Notation safe n := (fun (_ : stop) (d : db) => faithful n d).

Lemma noted_faithful n m T r e d : n <= m -> noted (state m T r r) e d -> faithful n d.
Proof. intros Hle [_ Hd]. exists T, r. by eapply state_weaken. Qed.

(** ** Shared steps *)

Lemma intern_rule n T r x id X : 0 <= n ->
  etriple (state (n + 1) T r x) (mem_op (get_or_intern_id id))
    (fun u d => state n T r x d /\ get_u32 (db_mem d) id = Some u) X.
Proof.
  intros Hn d Hd. unfold mem_op. pose proof (in_number _ _ _ _ (intern_interned id (db_mem d))) as Hu.
  pose proof (sim_intern (n + budget d) id (db_mem d) r) as Hs. pose proof (later_intern id (db_mem d)) as Hl.
  destruct (get_or_intern_id id (db_mem d)) as [u m]. cbn in *.
  split; [|exact Hu]. pose proof (budget_nonneg d). pose proof (st_clock _ _ _ _ _ Hd).
  pose proof (later_clock _ _ Hl).
  eapply state_set_mem; [exact Hd| |done|apply Hd|lia].
  apply Hs; [lia|]. replace (n + budget d + 1) with (n + 1 + budget d) by lia. apply Hd.
Qed.
Lemma insert_node_rule n T r x u node X :
  lc_time (no_clock node) <= T ->
  etriple (fun d => state n T r x d /\ get_u32 (db_mem d) (no_id node) = Some u)
    (on_mem (insert_node_lean u node)) (fun _ => state n T (put_node r node) x) X.
Proof.
  intros Ht. apply etriple_update. intros d [Hd Hu].
  pose proof (st_clock _ _ _ _ _ Hd). pose proof (later_clock _ _ (later_insert_node u node (db_mem d))).
  eapply state_set_mem; [exact Hd| |apply later_insert_node| |lia].
  - apply sim_insert_node; [apply Hd|exact Hu].
  - apply bounded_put_node; [apply Hd|done].
Qed.
Lemma insert_edge_rule n T r x e X : 0 <= n -> bounded T r -> lc_time (eo_clock e) <= T -> current_edge e ->
  etriple (state (n + 2) T r x) (on_mem (insert_edge e)) (fun _ => state n T (put_edge e r) x) X.
Proof.
  intros Hn Hb Ht Hc. apply mem_rule; [|apply later_insert_edge|by apply bounded_put_edge].
  intros b s Hp Hs. apply sim_insert_edge; [lia|]. by replace (n + b + 2) with (n + 2 + b) by lia.
Qed.
Lemma stage_rule n T r x index name u e lang seq X : bounded T r ->
  etriple (state n T r x) (mem_op (stage_vector index name u e lang seq)) (fun _ => state n T r x) X.
Proof.
  intros Hb. apply mem_op_rule; [|intros; apply later_stage_vector|done].
  intros b s _. apply sim_stage_vector.
Qed.
Lemma add_vector_rule n T r x coll id emb lang seq : 0 <= n -> bounded T r ->
  etriple (state (n + 1) T r x) (add_vector_internal coll id emb lang seq)
    (fun _ => state n T r x) (noted (state n T r x)).
Proof.
  intros Hn Hb. unfold add_vector_internal.
  assert (forall e d, noted (state (n + 1) T r x) e d -> noted (state n T r x) e d) as Hw.
  { intros e d [Hne Hd]. split; [done|]. eapply state_weaken; [|exact Hd]. lia. }
  apply quiet_then; [apply quiet_mem|apply stable_state|exact Hw|intros s].
  apply quiet_then; [apply quiet_of_result|apply stable_state|exact Hw|intros c].
  eapply (etriple_bind _ _ _ (fun _ => state n T r x)).
  { eapply etriple_conseq; [by apply intern_rule|done|by intros ? ? []|by intros e d Hx; exact Hx]. }
  intros u. apply quiet_then; [apply quiet_mem|apply stable_state|done|intros s'].
  eapply (etriple_bind _ _ _ (fun _ => state n T r x)); [by apply stage_rule|].
  intros o. apply quiet_of_result, stable_state.
Qed.
(** A vector that follows a durable write *)
Lemma or_durable_vector n T r coll id emb lang seq : 0 <= n -> bounded T r ->
  etriple (state (n + 1) T r r) (or_durable (add_vector_internal coll id emb lang seq))
    (fun _ => faithful n) (safe n).
Proof.
  intros Hn Hb. apply (or_durable_rule _ _ n).
  - eapply etriple_conseq; [by apply add_vector_rule|done| |].
    + intros ? d Hd. by exists T, r.
    + intros e d [Hne Hd]. split; [done|]. by exists T, r, r, n.
  - intros e d T' r' Hd. by exists T', r'.
Qed.

(** *** What interning keeps, the journal keeps. *)

Definition held (F : memory -> Prop) (d : db) : Prop := F (db_mem d).
Definition numbered (id : string) (u : Z) : db -> Prop := held (fun s => get_u32 s id = Some u).
Section Held.
Variable F : memory -> Prop.
Hypothesis F_intern : forall i s, F s -> F (get_or_intern_id i s).2.

Lemma stable_held : stable (held F).
Proof using Type. intros d d' (Hm & _). unfold held. by rewrite Hm. Qed.
Lemma intern_projected_held ids s : F s -> F (intern_projected ids s).
Proof. revert s; induction ids as [|i ids IH]; intros s Hs; [done|]. by apply IH, F_intern. Qed.
Lemma append_held e :
  etriple (held F) (append_and_project e) (fun _ => held F) (fun _ _ => True).
Proof.
  intros d Hd. unfold append_and_project, next_answer, pop. rewrite em_bind_eq.
  destruct (in_answers (db_inputs d)) as [|[reason| |seq ids|seq ids] rest]; try exact I.
  cbn. by apply intern_projected_held.
Qed.
Lemma persist_held ev : etriple (held F) (persist cfg ev) (fun _ => held F) (fun _ _ => True).
Proof.
  pose proof stable_held as Hst. assert (forall e d, noted (held F) e d -> True) as Ht by done.
  unfold persist. do 6 (apply quiet_then; [auto with quiet|done|done|intros ?]). apply append_held.
Qed.
Lemma persist_local_held ns es rs :
  etriple (held F) (persist_local_graph_mutations cfg ns es rs) (fun _ => held F) (fun _ _ => True).
Proof.
  unfold persist_local_graph_mutations. destruct (negb (cf_schema6 cfg)).
  - destruct rs as [|z [|]]; apply persist_held.
  - do 2 (apply quiet_then; [auto with quiet|apply stable_held|done|intros ?]). apply persist_held.
Qed.
(** The frame of local mutations, with a fact to be used after it *)
Lemma persist_local_known n T r x ns es rs :
  0 <= n -> Forall current_node ns -> Forall current_edge es ->
  etriple (fun d => state n T r x d /\ held F d) (persist_local_graph_mutations cfg ns es rs)
    (fun _ d => state n T r (journalled cfg x ns es rs) d /\ held F d) (noted (state n T r x)).
Proof.
  intros Hn Hns Hes. eapply etriple_conseq.
  - apply etriple_and; [by apply (persist_local_rule cfg n T r x ns es rs)|apply (persist_local_held ns es rs)].
  - done.
  - done.
  - by intros e d [Hd _].
Qed.
End Held.
Lemma numbered_intern id u i s : get_u32 s id = Some u -> get_u32 (get_or_intern_id i s).2 id = Some u.
Proof. intros Hu. eapply lookup_weaken; [exact Hu|]. apply (in_keeps _ _ _ _ (intern_interned i s)). Qed.
Lemma clock_intern i s : logical_clock (get_or_intern_id i s).2 = logical_clock s.
Proof. unfold get_or_intern_id. by destruct (id_to_u32 s !! i). Qed.
Lemma tick_numbered id u X :
  etriple (numbered id u) (tick cfg) (fun _ => numbered id u) X.
Proof. intros d Hd. exact Hd. Qed.

(** What a frame of one fresh node, edge or retraction does *)
Lemma journalled_node r n :
  fresh (no_clock n) r -> journalled cfg r [n] [] [] = put_node r n.
Proof.
  intros (T & Hb & Ht). unfold journalled. destruct (cf_schema6 cfg); [done|]. cbn.
  unfold merge_node. by rewrite (fresh_node T).
Qed.
Lemma journalled_edge r e :
  fresh (eo_clock e) r -> journalled cfg r [] [e] [] = put_edge e r.
Proof.
  intros (T & Hb & Ht). unfold journalled. destruct (cf_schema6 cfg); cbn; by apply (fresh_edge T).
Qed.
Lemma journalled_retraction r z :
  fresh (nr_clock z) r ->
  journalled cfg r [] [] [z] = bury (nr_id z) {| nt_clock := nr_clock z; nt_retracted_at := nr_retracted_at z |} r.
Proof.
  intros (T & Hb & Ht). unfold journalled. destruct (cf_schema6 cfg); cbn; [done|].
  unfold merge_retraction. cbn. by rewrite (fresh_node T).
Qed.

(** ** Local writes *)

Lemma start_safe n m T r c e d :
  n <= m -> noted (fun d => state m T r r d /\ ticks c d) e d -> faithful n d.
Proof. intros Hle [_ [Hd _]]. exists T, r. by eapply state_weaken. Qed.
(** A tick, after which the clock is fresh *)
Lemma fresh_tick {A} n T r (f : LogicalClock -> EM db A) Q X :
  (forall k, fresh k r -> bounded (lc_time k) r -> etriple (state n (lc_time k) r r) (f k) Q X) ->
  etriple (fun d => state n T r r d /\ ticks 1 d) (tick cfg ≫= f) Q X.
Proof.
  intros Hf. eapply etriple_bind; [by apply (tick_rule cfg 0)|].
  intros k. apply etriple_pure. intros [Hk Hb]. eapply etriple_pre; [apply Hf|by intros ? []].
  - by exists T.
  - eapply bounded_weaken; [|done]. lia.
Qed.
Lemma fresh_tick_known {A} n T r x id u (f : LogicalClock -> EM db A) Q X :
  (forall k, T < lc_time k -> bounded T r ->
     etriple (fun d => state n (lc_time k) r x d /\ numbered id u d) (f k) Q X) ->
  etriple (fun d => (state n T r x d /\ ticks 1 d) /\ numbered id u d) (tick cfg ≫= f) Q X.
Proof.
  intros Hf. eapply etriple_bind.
  { pose proof (etriple_and _ _ _ _ _ _ _ (tick_rule cfg 0 n T r x X ltac:(lia)) (tick_numbered id u X)) as Hk.
    eapply etriple_conseq; [exact Hk|done|intros k d Hd; exact Hd|by intros e d []]. }
  by intros k d [[[Hk Hb] [Hd Ht]] Hu]; apply (Hf k).
Qed.

Lemma add_node_rule n T r args : 0 <= n ->
  etriple (fun d => state (n + 2) T r r d /\ ticks 1 d) (add_node cfg args)
    (fun _ => faithful n) (safe n).
Proof.
  intros Hn. unfold add_node.
  assert (forall e d, noted (fun d => state (n + 2) T r r d /\ ticks 1 d) e d -> faithful n d) as Hsafe.
  { intros e d. apply start_safe. lia. }
  quietly. apply fresh_tick. intros k Hk Hb. cbv zeta.
  set (P := state (n + 2) (lc_time k) r r). assert (stable P) by apply stable_state.
  assert (forall e d, noted P e d -> faithful n d) as HsafeP.
  { intros e d. apply noted_faithful. lia. }
  eapply (etriple_bind _ _ _ (fun m d =>
    (no_id m = a1 /\ no_clock m = k /\ current_node m) /\ P d)).
  { destruct (ni_embedding args) as [emb|]; [quietly|]; by apply etriple_ret. }
  intros m. apply etriple_pure. intros (Hid & Hclock & Hcur).
  eapply (etriple_bind _ _ _ (fun _ => state (n + 2) (lc_time k) r (put_node r m))).
  { eapply etriple_conseq; [apply (persist_local_rule cfg (n + 2)); [lia|by repeat constructor|done]|done| |apply HsafeP].
    intros seq d. by rewrite journalled_node by (by rewrite Hclock). }
  intros seq. eapply etriple_bind.
  { eapply etriple_pre; [apply (intern_rule (n + 1)); lia|].
    intros d. by replace (n + 1 + 1) with (n + 2) by lia. }
  intros u. rewrite <- Hid. eapply etriple_bind.
  { apply insert_node_rule. by rewrite Hclock. }
  intros ?. assert (bounded (lc_time k) (put_node r m)) as Hbm.
  { apply bounded_put_node; [done|]. by rewrite Hclock. }
  eapply (etriple_bind _ _ _ (fun _ => faithful n)); [|intros ?; by apply etriple_ret].
  destruct (ni_embedding args) as [emb|]; [by apply or_durable_vector|].
  apply etriple_ret. intros d Hd. exists (lc_time k), (put_node r m). eapply state_weaken; [|done]. lia.
Qed.

Lemma add_edge_rule n T r args : 0 <= n ->
  etriple (fun d => state (n + 2) T r r d /\ ticks 1 d) (add_edge cfg args)
    (fun _ => faithful n) (safe n).
Proof.
  intros Hn. unfold add_edge.
  assert (forall e d, noted (fun d => state (n + 2) T r r d /\ ticks 1 d) e d -> faithful n d) as Hsafe.
  { intros e d. apply start_safe. lia. }
  quietly.
  apply quiet_then; [|solve [auto with quiet]|done|intros vf].
  { destruct (ei_valid_from args); auto with quiet. }
  quietly. apply fresh_tick. intros k Hk Hb. cbv zeta. set (e := new_edge args _ vf _ k).
  eapply (etriple_bind _ _ _ (fun _ => state (n + 2) (lc_time k) r (put_edge e r))).
  { eapply etriple_conseq; [apply (persist_local_rule cfg (n + 2)); [lia|done|by repeat constructor]|done| |].
    - intros seq d. by rewrite journalled_edge.
    - intros st d. apply noted_faithful. lia. }
  intros seq. eapply etriple_bind; [by apply insert_edge_rule|].
  intros ?. apply etriple_ret. intros d Hd. by exists (lc_time k), (put_edge e r).
Qed.

(** *** Retraction *)

Lemma retract_rule n T r x id u t seq X :
  bounded T r -> lc_time (nt_clock t) <= T ->
  etriple (fun d => state n T r x d /\ numbered id u d)
    (on_mem (retract_node_memory id u seq) ;; on_mem (insert_tombstone id t))
    (fun _ => state n T (bury id t r) x) X.
Proof.
  intros Hb Ht. assert (forall s, get_u32 s id = Some u ->
    later s (insert_tombstone id t (retract_node_memory id u seq s))) as Hl.
  { intros s _. transitivity (retract_node_memory id u seq s); [apply later_retract|by split]. }
  intros d [Hd Hu]. specialize (Hl _ Hu). cbn.
  eapply (state_set_mem _ n n T T r (bury id t r) x d); [exact Hd| |exact Hl|by apply bounded_bury|].
  - by apply sim_retract; [apply Hd|].
  - transitivity (logical_clock (db_mem d)); [apply Hd|apply (later_clock _ _ Hl)].
Qed.
Lemma retract_node_rule n T r id : 0 <= n ->
  etriple (fun d => state n T r r d /\ ticks 1 d) (retract_node cfg id)
    (fun _ => faithful n) (safe n).
Proof.
  intros Hn. unfold retract_node.
  assert (forall e d, noted (fun d => state n T r r d /\ ticks 1 d) e d -> faithful n d) as Hsafe.
  { intros e d. by apply start_safe. }
  apply quiet_then; [auto with quiet..|intros ?]. apply quiet_then; [auto with quiet..|intros ?].
  eapply (etriple_bind _ _ _ (fun o d => (state n T r r d /\ ticks 1 d) /\ held (fun s => get_u32 s id = o) d)).
  { apply etriple_reads. by intros d Hd. }
  intros [u|]; [|apply etriple_ret; intros d [[Hd _] _]; by exists T, r].
  fold (numbered id u).
  apply quiet_then; [auto with quiet|apply stable_and; [auto with quiet|apply stable_held]| |intros ?].
  { intros e d [Hne [[Hd _] _]]. by exists T, r. }
  apply fresh_tick_known. intros k Hk Hbt.
  assert (bounded (lc_time k) r) as Hb by (eapply bounded_weaken; [|done]; lia).
  apply quiet_then; [auto with quiet|apply stable_and; [auto with quiet|apply stable_held]| |intros t].
  { intros e d [Hne [Hd _]]. by exists (lc_time k), r. }
  cbv zeta. eapply etriple_bind.
  { eapply etriple_conseq; [by apply (persist_local_known _ (numbered_intern id u))|intros d Hd; exact Hd|intros seq d Hd; exact Hd|].
    intros e d [Hne Hd]. by exists (lc_time k), r. }
  intros seq. rewrite journalled_retraction by (by exists T). cbn.
  eapply etriple_conseq; [by apply (retract_rule n (lc_time k) r)|intros d Hd; exact Hd| |by intros e d Hd; exact Hd].
  intros ? d Hd. eexists _, _. exact Hd.
Qed.

(** An edge replaced by one with the same ends *)
Lemma sim_replace_edge n k e e' s r :
  sim n s r -> rp_edges r !! k = Some e ->
  eo_id e' = eo_id e -> eo_from e' = eo_from e -> eo_to e' = eo_to e ->
  sim n (set_edges (<[k := e']> (edges s)) s) (put_edge e' r).
Proof.
  intros [[Hids HN HE] Hroom [Hv Hr]] He Hid Hf Ht. rewrite Hr in He.
  pose proof (edge_keyed _ _ _ _ HE _ _ He) as Hk. rewrite <- Hid in Hk.
  split; [split| |split]; cbn; try done; [|by rewrite Hr, Hk].
  destruct HE as [Hkey Hfi Hti Ho Hi].
  assert (forall j (d : EdgeOutput), <[k := e']> (edges s) !! j = Some d -> exists d' : EdgeOutput, edges s !! j = Some d' /\
    eo_id d' = eo_id d /\ eo_from d' = eo_from d /\ eo_to d' = eo_to d) as Hback.
  { intros j d [[<- <-]|[_ Hj]]%lookup_insert_Some; eauto 6. }
  assert (forall j (d : EdgeOutput), edges s !! j = Some d -> exists d' : EdgeOutput, <[k := e']> (edges s) !! j = Some d' /\
    eo_from d' = eo_from d /\ eo_to d' = eo_to d) as Hforth.
  { intros j d Hj. destruct (decide (j = k)) as [->|Hjk].
    - exists e'. rewrite lookup_insert_eq. split; [done|]. by replace d with e by congruence.
    - exists d. by rewrite lookup_insert_ne. }
  split.
  - intros j d (d' & Hd' & Hi' & _)%Hback. rewrite <- Hi'. eauto.
  - intros j d (d' & Hd' & _ & Hf' & _)%Hback. rewrite <- Hf'. eauto.
  - intros j d (d' & Hd' & _ & _ & Ht')%Hback. rewrite <- Ht'. eauto.
  - intros w j. rewrite Ho. split.
    + intros (d & Hd & Hw). destruct (Hforth _ _ Hd) as (d' & Hd' & Hf' & _). exists d'. by rewrite Hf'.
    + intros (d & Hd & Hw). destruct (Hback _ _ Hd) as (d' & Hd' & _ & Hf' & _). exists d'. by rewrite Hf'.
  - intros w j. rewrite Hi. split.
    + intros (d & Hd & Hw). destruct (Hforth _ _ Hd) as (d' & Hd' & _ & Ht'). exists d'. by rewrite Ht'.
    + intros (d & Hd & Hw). destruct (Hback _ _ Hd) as (d' & Hd' & _ & _ & Ht'). exists d'. by rewrite Ht'.
Qed.
Lemma retract_edge_rule n T r id at_ : 0 <= n ->
  etriple (fun d => state n T r r d /\ ticks 1 d) (retract_edge cfg id at_)
    (fun _ => faithful n) (safe n).
Proof.
  intros Hn. unfold retract_edge.
  assert (forall e d, noted (fun d => state n T r r d /\ ticks 1 d) e d -> faithful n d) as Hsafe.
  { intros e d. by apply start_safe. }
  apply quiet_then; [auto with quiet..|intros ?]. apply quiet_then; [auto with quiet..|intros ?]. cbv zeta.
  eapply (etriple_bind _ _ _ (fun o d => rp_edges r !! edge_key id = o /\ state n T r r d /\ ticks 1 d)).
  { apply etriple_reads. intros d [Hd Ht]. split; [|done]. by rewrite (edges_stand _ _ (sim_abs _ _ _ (st_sim _ _ _ _ _ Hd))). }
  intros [e|]; apply etriple_pure; intros He; [|apply etriple_ret; intros d [Hd _]; by exists T, r].
  apply quiet_then; [destruct at_; auto with quiet|auto with quiet|done|intros stamp].
  apply fresh_tick. intros k Hk Hb. cbv zeta. set (e' := edge_retracted stamp k e).
  assert (current_edge e') as Hcur by exact (edges_current _ _ Hb _ _ He).
  eapply (etriple_bind _ _ _ (fun _ => state n (lc_time k) r (put_edge e' r))).
  { eapply etriple_conseq; [apply (persist_local_rule cfg n); [lia|done|by repeat constructor]|done| |].
    - intros seq d. by rewrite journalled_edge.
    - intros st d. by apply noted_faithful. }
  intros seq. eapply (etriple_bind _ _ _ (fun _ => state n (lc_time k) (put_edge e' r) (put_edge e' r))).
  { apply mem_rule; [|intros; by split|by apply bounded_put_edge].
    intros b s _ Hs. by eapply sim_replace_edge. }
  intros ?. apply etriple_ret. intros d Hd. by exists (lc_time k), (put_edge e' r).
Qed.

(** *** A node's next version *)

Lemma live_stands n s r id u old :
  sim n s r -> get_u32 s id = Some u -> nodes s !! u = Some old ->
  rp_nodes r !! id = Some (Live old) /\ no_id old = id.
Proof.
  intros [Hok _ [Hv _]] Hu Hold. assert (live_node s id = Some old) as Hl.
  { unfold live_node. by rewrite Hu. }
  rewrite Hv. unfold view. rewrite Hl. split; [done|].
  apply live_node_Some in Hl as (w & Hw & Hid); done.
Qed.
(** Hydration reads the projection, and asks for recovery when it cannot. *)
Lemma hydration_failure_rule {A} n T r x (Q : A -> db -> Prop) :
  0 <= n -> etriple (state n T r x) hydration_failure Q (fun _ => faithful n).
Proof. intros Hn. unfold hydration_failure. apply (recovery_rule n T r x r). by exists T, r. Qed.
Definition hydrates (old m : NodeOutput) : Prop :=
  no_id m = no_id old /\ no_clock m = no_clock old /\ current_node m.
Lemma hydrated_node_rule n T r old (F : db -> Prop) : 0 <= n ->
  stable (fun d => state n T r r d /\ F d) ->
  etriple (fun d => state n T r r d /\ F d) (hydrated_node old)
    (fun m d => hydrates old m /\ state n T r r d /\ F d) (fun _ => faithful n).
Proof.
  intros Hn Hst. unfold hydrated_node, hydrated_props.
  assert (forall e d, noted (fun d => state n T r r d /\ F d) e d -> faithful n d) as Hsafe.
  { intros e d [_ [Hd _]]. by exists T, r. }
  assert (forall A Q, etriple (A := A) (fun d => state n T r r d /\ F d) hydration_failure Q
    (fun _ => faithful n)) as Hfail.
  { intros A Q. eapply etriple_pre; [by apply (hydration_failure_rule n T r r)|by intros d []]. }
  eapply (etriple_bind _ _ _ (fun _ d => state n T r r d /\ F d)).
  { eapply (etriple_bind _ _ _ (fun _ d => state n T r r d /\ F d)).
    - case_bool_decide; [|by apply etriple_ret]. quietly.
      destruct a as [[props|]|e]; [by apply etriple_ret| |apply Hfail].
      destruct (no_legacy_wire_impact old); first [apply Hfail|by apply etriple_ret].
    - intros props. destruct (migrate_legacy_impact _ _) as [[props' w]|e]; [by apply etriple_ret|apply Hfail]. }
  intros props. destruct (migrate_legacy_node_impact _) as [m|e] eqn:Hm; [|apply Hfail].
  apply migrate_node_Ok in Hm as [props' ->]. by apply etriple_ret.
Qed.
Lemma put_node_same r a b :
  current_node a -> current_node b -> no_id a = no_id b -> put_node (put_node r a) b = put_node r b.
Proof.
  intros Ha Hb Hid. unfold put_node. rewrite !migrate_node_absent by done. cbn.
  by rewrite Hid, insert_insert_eq.
Qed.
(** The closing frame keeps the old clock, which still wins. *)
Lemma journalled_close r old m :
  rp_nodes r !! no_id m = Some (Live old) -> no_clock m = no_clock old ->
  journalled cfg r [m] [] [] = put_node r m.
Proof.
  intros Hold Hc. unfold journalled. destruct (cf_schema6 cfg); [done|]. cbn.
  unfold merge_node. rewrite Hold, Hc. cbn. by rewrite clock_lt_irrefl.
Qed.
Lemma found_rule {A B} P (f : memory -> option A) e (k : A -> EM db B) Q (X : stop -> db -> Prop) :
  (forall d, P d -> X (Raised e) d) ->
  (forall a, etriple (fun d => P d /\ f (db_mem d) = Some a) (k a) Q X) ->
  etriple P (o ← mem f; a ← of_result (ok_or o e); k a) Q X.
Proof.
  intros HX Hk d Hd. specialize (HX d Hd). unfold mem, reads. rewrite em_bind_eq.
  destruct (f (db_mem d)) as [a|] eqn:Ha; [|exact HX]. apply (Hk a d). by split.
Qed.
Lemma journalled_next T r m :
  bounded T r -> T < lc_time (no_clock m) -> journalled cfg r [m] [] [] = put_node r m.
Proof. intros Hb Ht. apply journalled_node. by exists T. Qed.
(** The frame of the next version, after the frame that closed the last one *)
Lemma next_version_rule n T r id u a b :
  0 <= n -> current_node a -> current_node b -> no_id a = no_id b -> no_id b = id ->
  T < lc_time (no_clock b) -> bounded T r -> bounded T (put_node r a) ->
  etriple (fun d => state n (lc_time (no_clock b)) r (put_node r a) d /\ numbered id u d)
    (or_durable (persist_local_graph_mutations cfg [b] [] []) ;; on_mem (insert_node_lean u b) ;; mret b)
    (fun _ => faithful n) (safe n).
Proof.
  intros Hn Ha Hb Hab Hid Ht Hr Hra. set (k := lc_time (no_clock b)).
  eapply (etriple_bind _ _ _ (fun _ d => state n k r (put_node r b) d /\ get_u32 (db_mem d) (no_id b) = Some u)).
  { apply (or_durable_rule _ _ n); [|intros e d T' r' Hd; by exists T', r'].
    eapply etriple_conseq; [apply (persist_local_known _ (numbered_intern id u) n k r (put_node r a) [b] [] []);
      [done|by repeat constructor|done]|done| |].
    - intros seq d [Hd Hu]. rewrite (journalled_next T), put_node_same in Hd by done. by rewrite Hid.
    - intros e d [Hne Hd]. split; [done|]. by exists k, r, (put_node r a), n. }
  intros ?. eapply etriple_bind; [by apply insert_node_rule|].
  intros ?. apply etriple_ret. intros d Hd. by exists k, (put_node r b).
Qed.
Lemma supersede_node_rule n T r id props cause : 0 <= n ->
  etriple (fun d => state n T r r d /\ ticks 1 d) (supersede_node cfg id props cause)
    (fun _ => faithful n) (safe n).
Proof.
  intros Hn. unfold supersede_node.
  assert (forall e d, noted (fun d => state n T r r d /\ ticks 1 d) e d -> faithful n d) as Hsafe.
  { intros e d. by apply start_safe. }
  apply quiet_then; [auto with quiet..|intros ?]. apply quiet_then; [auto with quiet..|intros ?].
  apply found_rule; [intros d [Hd _]; by exists T, r|intros u].
  set (F := fun s => get_u32 s id = Some u /\ logical_clock s + 1 < u32_modulus).
  assert (forall i s, F s -> F (get_or_intern_id i s).2) as HF.
  { intros i s [Hu Hc]. split; [by apply numbered_intern|by rewrite clock_intern]. }
  apply (etriple_pre _ (fun d => state n T r r d /\ held F d)); [|by intros d [[Hd Ht] Hu]].
  assert (stable (fun d => state n T r r d /\ held F d)) as Hst.
  { apply stable_and; [auto with quiet|apply stable_held]. }
  assert (forall e d, noted (fun d => state n T r r d /\ held F d) e d -> faithful n d) as Hsafe'.
  { intros e d [_ [Hd _]]. by exists T, r. }
  quiet_one. cbv zeta. apply found_rule; [intros d [Hd _]; by exists T, r|intros old].
  apply (etriple_pre _ (fun d => (rp_nodes r !! id = Some (Live old) /\ no_id old = id) /\
                                  state n T r r d /\ held F d)); cycle 1.
  { intros d [[Hd [Hu Hc]] Hold]. split; [|done]. by eapply live_stands; [apply Hd|..]. }
  apply etriple_pure. intros [Hold Hid].
  eapply etriple_bind; [by apply (hydrated_node_rule n T r old (held F))|].
  intros m. apply etriple_pure. intros (Hmid & Hmc & Hmcur). quietly. cbv zeta.
  set (closed := node_closed _ m).
  assert (bounded T r -> bounded T (put_node r closed)) as Hbc.
  { intros Hb. apply bounded_put_node; [done|]. cbn. rewrite Hmc. apply (nodes_bounded _ _ Hb _ _ Hold). }
  eapply (etriple_bind _ _ _ (fun _ d => state n T r (put_node r closed) d /\ held F d)).
  { eapply etriple_conseq; [apply (persist_local_known F HF n T r r [closed]); [done|by repeat constructor|done]|done| |].
    - intros seq d [Hd Hf]. split; [|done]. rewrite (journalled_close _ old) in Hd; [done| |done].
      cbn. by rewrite Hmid, Hid.
    - intros e d [_ Hd]. by exists T, r. }
  intros seq. apply (etriple_pre _ (fun d => (state n T r (put_node r closed) d /\ ticks 1 d) /\ numbered id u d)); cycle 1.
  { intros d [Hd [Hu Hc]]. by split. }
  apply fresh_tick_known. intros k Hk Hb. set (new := node_version _ _ _ k closed).
  apply (next_version_rule n T r id u closed new); try done; cbn; [congruence|by apply Hbc].
Qed.

(** ** Vectors *)

Lemma add_vector_call_rule n T r node_id coll emb : 0 <= n ->
  etriple (fun d => state (n + 1) T r r d /\ ticks 1 d) (add_vector cfg node_id coll emb)
    (fun _ => faithful n) (safe n).
Proof.
  intros Hn. unfold add_vector.
  assert (forall e d, noted (fun d => state (n + 1) T r r d /\ ticks 1 d) e d -> faithful n d) as Hsafe.
  { intros e d. apply start_safe. lia. }
  quietly. apply fresh_tick. intros k Hk Hb. cbv zeta. destruct (cf_schema6 cfg).
  - assert (forall e d, noted (state (n + 1) (lc_time k) r r) e d -> faithful n d) as Hsafe'.
    { intros e d. apply noted_faithful. lia. }
    quiet_one. quiet_one. set (t := local_transaction _ _ _ _ _).
    assert (merge_transaction t r = r) as Hmerge by done.
    eapply (etriple_bind _ _ _ (fun _ => state (n + 1) (lc_time k) r r)).
    { eapply etriple_conseq; [apply (persist_rule cfg (n + 1)); lia|done| |done].
      intros seq d. cbn [merge_event]. by rewrite Hmerge. }
    intros seq. eapply (etriple_bind _ _ _ (fun _ => state n (lc_time k) r r)).
    { apply mem_rule; [|apply later_transaction|done]. intros b s Hpos Hs. rewrite <- Hmerge.
      apply sim_transaction; [lia|]. change (transaction_mentions t) with 1. by replace (n + b + 1) with (n + 1 + b) by lia. }
    intros ?. apply (or_durable_rule _ _ n); [|intros e d T' r' Hd; by exists T', r'].
    eapply etriple_conseq; [apply quiet_readable, stable_state|done| |].
    + intros ? d Hd. by exists (lc_time k), r.
    + intros e d [Hne Hd]. split; [done|]. by exists (lc_time k), r, r, n.
  - eapply (etriple_bind _ _ _ (fun _ => state (n + 1) (lc_time k) r r)).
    { eapply etriple_conseq; [apply (persist_rule cfg (n + 1)); lia|done|done|].
      intros e d. apply noted_faithful. lia. }
    intros seq. by apply or_durable_vector.
Qed.
End Calls.

(** ** A batch: many nodes and edges in one frame

    The clocks of a batch climb from the clock held, so that on replay each part wins over all
    that was there and over the parts before it; that is what memory does without looking. *)

(** Times that climb from [T] to [T'] *)
Fixpoint climbs (T : Z) (l : list Z) (T' : Z) : Prop :=
  match l with [] => T = T' | t :: l => T < t /\ climbs t l T' end.
Lemma climbs_snoc T l T' t : climbs T l T' -> T' < t -> climbs T (l ++ [t]) t.
Proof. revert T; induction l as [|x l IH]; intros T; cbn; [by intros ->|]. intros [? ?] ?. by split; [|apply IH]. Qed.
Lemma climbs_le T l T' : climbs T l T' -> T <= T'.
Proof. revert T; induction l as [|x l IH]; intros T; cbn; [lia|]. intros [? H%IH]. lia. Qed.

Section Batch.
Context `{GraphCrates} `{Surroundings} `{Calendar} `{Signing}.
Variable cfg : config.
Implicit Types (d : db) (r x : replica) (s : memory).

Notation safe n := (fun (_ : stop) (d : db) => faithful n d).
Definition node_times (ns : list NodeOutput) : list Z := (fun n => lc_time (no_clock n)) <$> ns.
Definition edge_times (es : list EdgeOutput) : list Z := (fun e => lc_time (eo_clock e)) <$> es.

(** *** What a frame of climbing clocks does *)

Lemma merge_nodes_climbing T ns T' r :
  bounded T r -> climbs T (node_times ns) T' ->
  foldl merge_node r ns = foldl put_node r ns /\ bounded T' (foldl put_node r ns).
Proof.
  revert T r; induction ns as [|n ns IH]; intros T r Hb; cbn; [by intros <-|].
  intros [Ht Hc]. assert (merge_node r n = put_node r n) as ->.
  { unfold merge_node. by rewrite (fresh_node T). }
  apply (IH (lc_time (no_clock n))); [|done]. apply bounded_put_node; [|done].
  eapply bounded_weaken; [|done]. lia.
Qed.
Definition put_edges (r : replica) (es : list EdgeOutput) : replica := foldl (fun r e => put_edge e r) r es.
Lemma merge_edges_climbing T es T' r :
  bounded T r -> climbs T (edge_times es) T' -> Forall current_edge es ->
  foldl merge_edge r es = put_edges r es /\ bounded T' (put_edges r es).
Proof.
  intros Hb Hc Hes. revert T r Hb Hc. induction Hes as [|e es He Hes IH]; intros T r Hb; cbn; [by intros <-|].
  intros [Ht Hc]. rewrite (fresh_edge T) by done.
  apply (IH (lc_time (eo_clock e))); [|done]. apply bounded_put_edge; [|done..].
  eapply bounded_weaken; [|done]. lia.
Qed.
(** An edge that a later one of its identifier replaces *)
Lemma put_edges_overwrite (d e : EdgeOutput) es r :
  d ∈ es -> eo_id d = eo_id e -> put_edges (put_edge e r) es = put_edges r es.
Proof.
  revert r; induction es as [|x es IH]; intros r Hd Hid; [inversion Hd|]. cbn.
  destruct (decide (edge_key (eo_id x) = edge_key (eo_id e))) as [Hk|Hk].
  - f_equal. unfold put_edge. cbn. by rewrite Hk, insert_insert_eq.
  - apply elem_of_cons in Hd as [->|Hd]; [congruence|]. rewrite <- (IH (put_edge x r)) by done.
    f_equal. unfold put_edge. cbn. f_equal. by rewrite insert_insert_ne.
Qed.
Lemma put_effective_edges es r : put_edges r (effective_edges es) = put_edges r es.
Proof.
  revert r; induction es as [|e es IH]; intros r; [done|]. cbn.
  destruct (existsb _ es) eqn:He; [|apply IH].
  apply existsb_exists in He as (d & Hd & Hid%bool_decide_eq_true).
  rewrite IH. symmetry. apply (put_edges_overwrite d); [by apply list_elem_of_In|done].
Qed.
Lemma climbs_effective es T T' : climbs T (edge_times es) T' ->
  forall r, bounded T r -> Forall current_edge es ->
  foldl merge_edge r (effective_edges es) = put_edges r es.
Proof.
  intros Hc r Hb Hes. rewrite <- put_effective_edges.
  revert T r Hb Hc. induction Hes as [|e es He Hes IH]; intros T r Hb; cbn; [done|].
  intros [Ht Hc]. destruct (existsb _ es).
  - apply (IH (lc_time (eo_clock e))); [|done]. eapply bounded_weaken; [|done]. lia.
  - cbn. rewrite (fresh_edge T) by done. apply (IH (lc_time (eo_clock e))); [|done].
    apply bounded_put_edge; [|done..]. eapply bounded_weaken; [|done]. lia.
Qed.
Lemma journalled_batch T T1 T2 r ns es :
  bounded T r -> climbs T (node_times ns) T1 -> climbs T1 (edge_times es) T2 ->
  Forall current_edge es ->
  journalled cfg r ns es [] = put_edges (foldl put_node r ns) es /\
  bounded T2 (put_edges (foldl put_node r ns) es).
Proof.
  intros Hb Hns Hes Hcur. destruct (merge_nodes_climbing _ _ _ _ Hb Hns) as [Hm Hb1].
  destruct (merge_edges_climbing _ _ _ _ Hb1 Hes Hcur) as [He Hb2]. split; [|done].
  unfold journalled. destruct (cf_schema6 cfg); cbn; [by apply (climbs_effective _ T1 T2)|by rewrite Hm].
Qed.

(** *** The steps of a batch *)

(** Writes prepared one by one, each with a tick *)
Lemma climb_rule {A B} (f : A -> EM db B) (time : B -> Z) (good : B -> Prop) n T r l c (X : stop -> db -> Prop) :
  0 <= c ->
  (forall a T c, 0 <= c -> etriple (fun d => state n T r r d /\ ticks (c + 1) d) (f a)
     (fun b d => (T < time b /\ bounded T r /\ good b) /\ state n (time b) r r d /\ ticks c d) X) ->
  etriple (fun d => state n T r r d /\ ticks (zlen l + c) d) (emap f l)
    (fun bs d => exists T', (climbs T (time <$> bs) T' /\ Forall good bs /\ zlen bs = zlen l) /\
                            state n T' r r d /\ ticks c d) X.
Proof.
  intros Hc Hf. unfold emap.
  eapply etriple_conseq; [apply (etriple_for _ (fun bs k d => exists T', (climbs T (time <$> bs) T' /\
    Forall good bs /\ zlen bs + zlen k = zlen l) /\ state n T' r r d /\ ticks (zlen k + c) d))|..].
  - intros bs a k d (T' & (Hcl & Hg & Hlen) & Hd & Ht). rewrite zlen_cons in Ht, Hlen.
    specialize (Hf a T' (zlen k + c) ltac:(pose proof (zlen_nonneg k); lia) d).
    replace (zlen k + c + 1) with (1 + zlen k + c) in Hf by lia. specialize (Hf (conj Hd Ht)).
    rewrite em_bind_eq. destruct (f a d) as [[b|e] d']; [|done].
    destruct Hf as ((Hlt & _ & Hgb) & Hd' & Ht'). exists (time b). split_and!; [..|done|done].
    + rewrite fmap_app. by apply (climbs_snoc _ _ T').
    + apply Forall_app. split; [done|]. by constructor.
    + rewrite zlen_app. change (zlen [b]) with 1. lia.
  - intros d Hd. exists T. split; [|done]. by split_and!.
  - intros bs d (T' & (? & ? & Hlen) & Hd). exists T'. split; [|done]. split_and!; [done..|].
    change (zlen []) with 0 in Hlen. lia.
  - done.
Qed.
Lemma batch_node_rule n T r instant args c : 0 <= c ->
  etriple (fun d => state n T r r d /\ ticks (c + 1) d) (batch_node cfg instant args)
    (fun m d => (T < lc_time (no_clock m) /\ bounded T r /\ current_node m) /\
                state n (lc_time (no_clock m)) r r d /\ ticks c d)
    (safe n).
Proof.
  intros Hc. unfold batch_node.
  assert (forall e d, noted (fun d => state n T r r d /\ ticks (c + 1) d) e d -> faithful n d) as Hsafe.
  { intros e d. by apply start_safe. }
  quiet_one. apply quiet_then; [|solve [auto with quiet]|done|intros coll].
  { destruct (ni_embedding args); [|auto with quiet]. do 2 (apply quiet_seq; [auto with quiet|intros ?]).
    destruct a1 as [coll dim]. auto with quiet. }
  eapply etriple_bind; [by apply (tick_rule cfg c)|]. intros k. by apply etriple_ret; intros d [[? ?] ?].
Qed.
Lemma batch_edge_rule n T r instant args c : 0 <= c ->
  etriple (fun d => state n T r r d /\ ticks (c + 1) d) (batch_edge cfg instant args)
    (fun e d => (T < lc_time (eo_clock e) /\ bounded T r /\ current_edge e) /\
                state n (lc_time (eo_clock e)) r r d /\ ticks c d)
    (safe n).
Proof.
  intros Hc. unfold batch_edge.
  assert (forall e d, noted (fun d => state n T r r d /\ ticks (c + 1) d) e d -> faithful n d) as Hsafe.
  { intros e d. by apply start_safe. }
  quiet_one. eapply etriple_bind; [by apply (tick_rule cfg c)|]. intros k.
  by apply etriple_ret; intros d [[? ?] ?].
Qed.

Lemma sim_insert_batch_node n m s r :
  0 <= n -> sim (n + 1) s r -> sim n (insert_batch_node s m) (put_node r m).
Proof.
  intros Hn Hs. unfold insert_batch_node. pose proof (sim_intern n (no_id m) s r Hn Hs) as Hi.
  pose proof (in_number _ _ _ _ (intern_interned (no_id m) s)) as Hu.
  destruct (get_or_intern_id (no_id m) s) as [u s']. by apply sim_insert_node.
Qed.
Lemma later_insert_batch_node s m : later s (insert_batch_node s m).
Proof.
  unfold insert_batch_node. pose proof (later_intern (no_id m) s) as Hi.
  destruct (get_or_intern_id (no_id m) s) as [u s']. etrans; [exact Hi|apply later_insert_node].
Qed.

(** Vectors do not touch the graph. *)
Lemma stage_only_rule n T r x name u e lang seq X : bounded T r ->
  etriple (state n T r x) (mem_op (stage name u e lang seq)) (fun _ => state n T r x) X.
Proof.
  intros Hb. unfold stage. apply mem_op_rule; [|intros s|done].
  - intros b s _. destruct (coll_stage _ _ _ _ _ _). apply sim_surroundings.
  - destruct (coll_stage _ _ _ _ _ _). by split.
Qed.
Lemma stage_batch_rule n T r x name items seq : bounded T r ->
  etriple (state n T r x) (stage_batch name items seq) (fun _ => state n T r x) (noted (state n T r x)).
Proof.
  intros Hb. unfold stage_batch. eapply (etriple_bind _ _ _ (fun _ => state n T r x)).
  - apply (etriple_for _ (fun _ _ => state n T r x)). intros bs m k.
    assert (forall e d, noted (state n T r x) e d -> noted (state n T r x) e d) as Hx by done.
    eapply (etriple_bind _ _ _ (fun _ => state n T r x)); [|intros ?; by apply etriple_ret].
    quietly. eapply (etriple_bind _ _ _ (fun _ => state n T r x)); [by apply stage_only_rule|].
    intros o. quietly. by apply etriple_ret.
  - intros [|p l]; [by apply etriple_ret|]. apply mem_rule; [|intros; by split|done].
    intros b s _. apply sim_surroundings.
Qed.
Lemma stage_batches_rule n T r (l : list (string * list NodeOutput)) seq : bounded T r ->
  etriple (state n T r r)
    (efor (fun _ c =>
      s ← mem (fun s => s);
      match coll_dim (colls s) c.1 with
      | Some _ => or_durable (stage_batch c.1 c.2 seq)
      | None => mret tt
      end) tt l) (fun _ => state n T r r) (safe n).
Proof.
  intros Hb. apply (etriple_for _ (fun _ _ => state n T r r)). intros [] [name items] k.
  assert (forall e d, noted (state n T r r) e d -> faithful n d) as Hsafe by (intros e d; by apply noted_faithful).
  quiet_one. destruct (coll_dim _ _); [|by apply etriple_ret].
  apply (or_durable_rule _ _ n); [|intros e d T' r' Hd; by exists T', r'].
  eapply etriple_conseq; [by apply stage_batch_rule|done|done|].
  intros e d [Hne Hd]. split; [done|]. by exists T, r, r, n.
Qed.

(** *** The batch *)

Definition batch_room (ns : list NodeOutput) (es : list EdgeOutput) : Z := zlen ns + 2 * zlen es.
Lemma insert_batch_rule n T T1 T2 r ns es x X :
  0 <= n -> climbs T (node_times ns) T1 -> climbs T1 (edge_times es) T2 -> Forall current_edge es ->
  etriple (fun d => bounded T r /\ state (n + batch_room ns es) T2 r x d)
    (on_mem (fun s => foldl insert_batch_node s ns) ;; on_mem (fun s => foldl (fun s e => insert_edge e s) s es))
    (fun _ => state n T2 (put_edges (foldl put_node r ns) es) x) X.
Proof.
  intros Hn Hns Hes Hcur. unfold batch_room. apply etriple_pure. intros Hb.
  pose proof (zlen_nonneg es). destruct (merge_nodes_climbing _ _ _ _ Hb Hns) as [_ Hb1].
  destruct (merge_edges_climbing _ _ _ _ Hb1 Hes Hcur) as [_ Hb2].
  eapply (etriple_bind _ _ _ (fun _ => state (n + 2 * zlen es) T2 (foldl put_node r ns) x)).
  - apply mem_rule; [|intros s; apply later_fold; intros; apply later_insert_batch_node|].
    + intros b s Hp Hs. apply (sim_fold_const _ _ 1); [lia|done|intros; by apply sim_insert_batch_node|].
      by replace (n + 2 * zlen es + b + 1 * zlen ns) with (n + (zlen ns + 2 * zlen es) + b) by lia.
    + eapply bounded_weaken; [by eapply climbs_le|done].
  - intros ?. apply mem_rule; [|intros s; apply later_fold; intros; apply later_insert_edge|done].
    intros b s Hp Hs. apply (sim_fold_const _ _ 2); [lia|done|intros; by apply sim_insert_edge|].
    by replace (n + b + 2 * zlen es) with (n + 2 * zlen es + b) by lia.
Qed.
Definition batch_needs (ns : list NodeInput) (es : list EdgeInput) : Z := zlen ns + 2 * zlen es.
Lemma execute_batch_rule n T r ns es : 0 <= n ->
  etriple (fun d => state (n + batch_needs ns es) T r r d /\ ticks (zlen ns + zlen es) d)
    (execute_batch cfg ns es) (fun _ => faithful n) (safe n).
Proof.
  intros Hn. unfold execute_batch, batch_needs. pose proof (zlen_nonneg ns). pose proof (zlen_nonneg es).
  set (n' := n + (zlen ns + 2 * zlen es)). assert (n <= n') as Hle by lia.
  assert (forall e d, noted (fun d => state n' T r r d /\ ticks (zlen ns + zlen es) d) e d -> faithful n d) as Hsafe.
  { intros e d. by apply start_safe. }
  apply (etriple_pre _ (fun d => bounded T r /\ state n' T r r d /\ ticks (zlen ns + zlen es) d));
    [|by intros d [[] ?]]. apply etriple_pure. intros Hb.
  do 2 quiet_one. do 2 (apply quiet_then; [apply quiet_for; auto with quiet|auto with quiet|done|intros ?]).
  quiet_one.
  eapply etriple_bind.
  { eapply etriple_conseq; [apply (climb_rule (batch_node cfg a3) (fun m => lc_time (no_clock m)) current_node n' T r ns (zlen es)
      (safe n')); [done|intros; by apply batch_node_rule]|done|intros l d Hd; exact Hd|].
    intros e d. by apply faithful_weaken. }
  intros nodes. apply etriple_exists. intros T1. apply etriple_pure. intros (Hn1 & Hcn & Hln).
  eapply etriple_bind.
  { eapply etriple_conseq; [apply (climb_rule (batch_edge cfg a3) (fun e => lc_time (eo_clock e)) current_edge n' T1 r es 0
      (safe n')); [done|intros; by apply batch_edge_rule]| |intros l d Hd; exact Hd|].
    - intros d [Hd Ht]. by rewrite Z.add_0_r.
    - intros e d. by apply faithful_weaken. }
  intros edges. apply etriple_exists. intros T2. apply etriple_pure. intros (He1 & Hce & Hle').
  destruct (journalled_batch T T1 T2 r nodes edges Hb Hn1 He1 Hce) as [Hj Hb2].
  set (r' := put_edges (foldl put_node r nodes) edges) in *.
  assert (n' = n + batch_room nodes edges) as Hroom by (unfold batch_room, n'; lia).
  eapply (etriple_bind _ _ _ (fun _ => state n' T2 r r')).
  { eapply etriple_conseq; [by apply (persist_local_rule cfg n' T2 r r nodes edges []); try lia|by intros d []| |].
    - intros seq d. by rewrite Hj.
    - intros e d. by apply noted_faithful. }
  intros seq. apply (etriple_assoc _ (on_mem _) (fun _ => on_mem _)).
  eapply (etriple_bind _ _ _ (fun _ => state n T2 r' r')).
  { eapply etriple_pre; [by apply (insert_batch_rule n T T1 T2)|]. intros d Hd. by rewrite <- Hroom. }
  intros ?. eapply etriple_bind; [by apply stage_batches_rule|].
  intros ?. apply etriple_ret. intros d Hd. by exists T2, r'.
Qed.
End Batch.
