(* ===== verification/GraphHistory.v ===== *)
(** * Histories of a store

    Deliveries from peers, event by event, and then any sequence of writes and deliveries: the
    graph in memory stays the one the journal tells. *)
From S2P Require Export GraphCalls.
Local Open Scope Z_scope.

Section Deliveries.
Context `{GraphCrates} `{Surroundings} `{Calendar} `{Signing}.
Variable cfg : config.
Implicit Types (d : db) (r x : replica) (s : memory).
Notation safe n := (fun (_ : stop) (d : db) => faithful n d).

(** What is asked of a delivered event: no historical [impact] on an edge, which memory would
    keep as it came; and that a retracted node is there, or has no edges, which memory would
    keep when only its identifier is known. *)
Definition admitted (r : replica) (event : Event) : Prop :=
  match event with
  | EvEdge e => current_edge e
  | EvNodeRetract id _ _ => (exists n, rp_nodes r !! id = Some (Live n)) \/ detached id (rp_edges r) = rp_edges r
  | _ => True
  end.

(** The clock takes a remote time in. *)
Lemma sync_rule n T r x t X :
  etriple (state n T r x) (on_mem (advance_clock t)) (fun _ => state n (Z.max T t) r x) X.
Proof.
  apply etriple_update. intros d Hd. eapply state_set_mem; [exact Hd| |apply later_advance_clock| |].
  - apply sim_advance_clock, Hd.
  - eapply bounded_weaken; [|apply Hd]. lia.
  - cbn. pose proof (st_clock _ _ _ _ _ Hd). lia.
Qed.
Lemma state_time n T T' r x d : state n T r x d -> T' <= T -> bounded T' r -> state n T' r x d.
Proof. intros [] ? ?. split; try done. lia. Qed.

(** ** Deliveries that leave the graph alone *)

Lemma on_collections_rule n T r x (f : memory -> result string unit * collections) X : bounded T r ->
  etriple (state n T r x) (mem_op (fun s => on_collections (f s) s)) (fun _ => state n T r x) X.
Proof.
  intros Hb. apply mem_op_rule; [|intros; by split|done]. intros b s _. apply sim_surroundings.
Qed.
Lemma or_durable_quiet {A} n T r (m : EM db A) : 0 <= n -> quiet m ->
  etriple (state n T r r) (or_durable m) (fun _ => state n T r r) (safe n).
Proof.
  intros Hn Hm. apply (or_durable_rule _ _ n); [|intros e d T' r' Hd; by exists T', r'].
  eapply etriple_conseq; [apply Hm, stable_state|done|done|].
  intros e d [Hne Hd]. split; [done|]. by exists T, r, r, n.
Qed.
Lemma persist_same_rule n T r e : 0 <= n -> merge_event r (se_event e) = r ->
  etriple (state n T r r) (persist_signed cfg e) (fun _ => state n T r r) (noted (state n T r r)).
Proof. intros Hn He. pose proof (persist_signed_rule cfg n T r r e Hn) as Hp. by rewrite He in Hp. Qed.

(** ** Deliveries that change it *)

Lemma reconcile_node_rule n T r e m : 0 <= n -> se_event e = EvNode m ->
  etriple (state (n + 2) T r r) (reconcile_event cfg e) (fun _ => faithful n) (safe n).
Proof.
  intros Hn He. unfold reconcile_event. rewrite He. cbn iota.
  eapply (etriple_bind _ _ _ (fun b d => b = superseded (rp_nodes r !! no_id m) (no_clock m) /\ state (n + 2) T r r d)).
  { apply etriple_reads. intros d Hd. split; [|done]. eapply node_superseded_spec, Hd. }
  intros b. apply etriple_pure. intros ->. destruct (superseded _ _) eqn:Hs.
  { apply etriple_ret. intros d Hd. exists T, r. eapply state_weaken; [|done]. lia. }
  eapply etriple_bind; [apply sync_rule|]. intros ?. set (T' := Z.max T _).
  eapply (etriple_bind _ _ _ (fun _ d => bounded T' r /\ state (n + 2) T' r (put_node r m) d)).
  { eapply etriple_conseq; [apply (persist_signed_rule cfg (n + 2)); lia|intros d Hd; exact Hd| |].
    - intros seq d Hd. split; [apply Hd|]. rewrite He in Hd. cbn in Hd. unfold merge_node in Hd. by rewrite Hs in Hd.
    - intros st d. apply noted_faithful. lia. }
  intros seq. apply etriple_pure. intros Hb.
  eapply (etriple_bind _ _ _ (fun _ => state (n + 1) T' r (put_node r m))).
  { apply mem_rule; [|intros; apply later_replay_node_vector|done]. intros b s Hp Hsim.
    apply sim_replay_node_vector; [lia|]. by replace (n + 1 + b + 1) with (n + 2 + b) by lia. }
  intros ?. eapply etriple_bind; [by apply (intern_rule n)|].
  intros u. eapply etriple_conseq; [apply (insert_node_rule n T' r); lia|intros d Hd; exact Hd| |by intros ? ? Hd; exact Hd].
  intros ? d Hd. by exists T', (put_node r m).
Qed.
Lemma reconcile_edge_rule n T r e g : 0 <= n -> se_event e = EvEdge g -> current_edge g ->
  etriple (state (n + 2) T r r) (reconcile_event cfg e) (fun _ => faithful n) (safe n).
Proof.
  intros Hn He Hcur. unfold reconcile_event. rewrite He. cbn iota.
  eapply (etriple_bind _ _ _ (fun b d => (b = true \/ merge_event r (EvEdge g) = put_edge g r) /\ state (n + 2) T r r d)).
  { apply etriple_reads. intros d Hd. split; [|done].
    cbn. rewrite (migrate_edge_absent g Hcur). unfold merge_edge.
    rewrite (edges_stand _ _ (sim_abs _ _ _ (st_sim _ _ _ _ _ Hd))).
    destruct (edges (db_mem d) !! _); [destruct (clock_lt _ _)|]; auto. }
  intros [|]; apply etriple_pure.
  { intros ?. apply etriple_ret. intros d Hd. exists T, r. eapply state_weaken; [|done]. lia. }
  intros [|Hm]; [done|]. eapply etriple_bind; [apply sync_rule|]. intros ?. set (T' := Z.max T _).
  eapply (etriple_bind _ _ _ (fun _ d => bounded T' r /\ state (n + 2) T' r (put_edge g r) d)).
  { eapply etriple_conseq; [apply (persist_signed_rule cfg (n + 2)); lia|intros d Hd; exact Hd| |].
    - intros seq d Hd. split; [apply Hd|]. by rewrite He, Hm in Hd.
    - intros st d. apply noted_faithful. lia. }
  intros seq. apply etriple_pure. intros Hb.
  eapply etriple_conseq; [apply (insert_edge_rule n T' r); (done || lia)|intros d Hd; exact Hd| |by intros ? ? Hd; exact Hd].
  intros ? d Hd. by exists T', (put_edge g r).
Qed.

(** A retraction whose node is not there *)
Lemma sim_bury_absent n id t s r :
  sim n s r -> (forall m, rp_nodes r !! id <> Some (Live m)) -> detached id (rp_edges r) = rp_edges r ->
  sim n (insert_tombstone id t s) (bury id t r).
Proof.
  intros [[Hids HN HE] Hroom [Hv Hr]] Hid Hdet. pose proof (Hv id) as Hvid.
  assert (live_node s id = None) as Hl.
  { destruct (live_node s id) as [m|] eqn:Hm; [|done]. destruct (Hid m). rewrite Hvid. unfold view. by rewrite Hm. }
  split; [split| |split]; cbn; try done.
  - apply nodes_ok_bury; [|done]. intros u m Hm <-.
    unfold live_node, get_u32 in Hl. rewrite (node_named _ _ _ HN _ _ Hm) in Hl. cbn in Hl. congruence.
  - intros i. unfold view, live_node, get_u32 in *. cbn. destruct (decide (i = id)) as [->|Hi].
    + by rewrite !lookup_insert_eq, Hl.
    + by rewrite !lookup_insert_ne, Hv by done.
  - by rewrite Hdet.
Qed.

Lemma persist_signed_held F e : (forall i s, F s -> F (get_or_intern_id i s).2) ->
  etriple (held F) (persist_signed cfg e) (fun _ => held F) (fun _ _ => True).
Proof.
  intros HF. pose proof (stable_held F) as Hst.
  assert (forall e d, noted (held F) e d -> True) as Ht by done.
  unfold persist_signed. do 2 quiet_one. by apply append_held.
Qed.
Lemma live_superseded r id clock m :
  rp_nodes r !! id = Some (Live m) -> superseded (rp_nodes r !! id) clock = clock_lt clock (no_clock m).
Proof. by intros ->. Qed.
(** The end of a retraction: the node, the clock, the tombstone *)
Definition target_of (id : string) (s : memory) : option Z :=
  u ← get_u32 s id; if nodes s !! u then Some u else None.
Lemma retraction_end n T r x id target t seq X :
  etriple (fun d => state n T r x d /\
             match target with
             | Some u => numbered id u d
             | None => (forall m, rp_nodes r !! id <> Some (Live m)) /\ detached id (rp_edges r) = rp_edges r
             end)
    (match target with Some u => on_mem (retract_node_memory id u seq) | None => mret tt end ;;
     sync_clock (nt_clock t) ;; on_mem (insert_tombstone id t))
    (fun _ => state n (Z.max T (lc_time (nt_clock t))) (bury id t r) x) X.
Proof.
  intros d [Hd Ht]. set (k := lc_time (nt_clock t)).
  set (m := match target with Some u => retract_node_memory id u seq (db_mem d) | None => db_mem d end).
  assert (sim (n + budget d) (insert_tombstone id t m) (bury id t r)) as Hsim.
  { destruct target as [u|]; unfold m; [apply sim_retract|apply sim_bury_absent]; try apply Hd; apply Ht. }
  assert (later (db_mem d) (advance_clock k (insert_tombstone id t m))) as Hl.
  { transitivity (insert_tombstone id t m); [|apply later_advance_clock].
    transitivity m; [|by split]. unfold m. destruct target; [apply later_retract|done]. }
  assert (state n (Z.max T k) (bury id t r) x (set_mem (advance_clock k (insert_tombstone id t m)) d)) as Hend.
  { eapply state_set_mem; [exact Hd|by apply sim_advance_clock|exact Hl| |].
    - apply bounded_bury; [|cbn; lia]. eapply bounded_weaken; [|apply Hd]. lia.
    - apply Z.max_lub; [transitivity (logical_clock (db_mem d)); [apply Hd|apply (later_clock _ _ Hl)]|].
      cbn. apply Z.le_max_r. }
  by destruct target.
Qed.
Lemma reconcile_retract_rule n T r e id clock at_ : 0 <= n -> se_event e = EvNodeRetract id clock at_ ->
  admitted r (EvNodeRetract id clock at_) ->
  etriple (state n T r r) (reconcile_event cfg e) (fun _ => faithful n) (safe n).
Proof.
  intros Hn He Hadm. unfold reconcile_event. rewrite He. cbn iota.
  eapply (etriple_bind _ _ _ (fun b d => b = superseded (rp_nodes r !! id) clock /\ state n T r r d)).
  { apply etriple_reads. intros d Hd. split; [|done]. eapply node_superseded_spec, Hd. }
  intros b. apply etriple_pure. intros ->. destruct (superseded _ _) eqn:Hs.
  { apply etriple_ret. intros d Hd. by exists T, r. }
  set (t := {| nt_clock := clock; nt_retracted_at := at_ |}).
  eapply (etriple_bind _ _ _ (fun target d => state n T r r d /\ held (fun s => target_of id s = target) d)).
  { apply etriple_reads. by intros d Hd. }
  intros target.
  set (F := fun s => match target with Some u => get_u32 s id = Some u | None => True end).
  assert (forall i s, F s -> F (get_or_intern_id i s).2) as HF.
  { intros i s. unfold F. destruct target; [apply numbered_intern|done]. }
  apply (etriple_pre _ (fun d => (target = None -> forall m, rp_nodes r !! id <> Some (Live m)) /\
                                  state n T r r d /\ held F d)); cycle 1.
  { intros d [Hd Ht]. unfold held, F, target_of in *. split; [|split; [done|]].
    - intros -> m Hm. rewrite (nodes_stand _ _ (sim_abs _ _ _ (st_sim _ _ _ _ _ Hd))) in Hm.
      unfold view, live_node in Hm. destruct (get_u32 (db_mem d) id) as [u|]; cbn in *;
        [destruct (nodes (db_mem d) !! u)|]; try done; by destruct (tombstones (db_mem d) !! id).
    - destruct target as [u|]; [|done]. destruct (get_u32 (db_mem d) id) as [v|]; cbn in Ht; [|done].
      by destruct (nodes (db_mem d) !! v). }
  apply etriple_pure. intros Hnone.
  eapply (etriple_bind _ _ _ (fun _ d => state n T r (bury id t r) d /\ held F d)).
  { eapply etriple_conseq; [apply etriple_and; [by apply (persist_signed_rule cfg n T r r e)|by apply (persist_signed_held F e)]|done| |].
    - intros seq d [Hd Hf]. split; [|done]. rewrite He in Hd. cbn [merge_event] in Hd. unfold merge_retraction in Hd. cbn [nt_clock] in Hd.
      by rewrite Hs in Hd.
    - intros st d [Hd _]. revert Hd. by apply noted_faithful. }
  intros seq. eapply etriple_conseq; [apply (retraction_end n T r (bury id t r) id target t seq)| | |by intros st d Hd; exact Hd].
  - intros d [Hd Hf]. split; [done|]. unfold held, F in Hf. destruct target; [done|].
    split; [by apply Hnone|]. destruct Hadm as [[m Hm]|]; [|done]. by destruct (Hnone eq_refl m).
  - intros ? d Hd. eexists _, _. exact Hd.
Qed.

(** *** Transactions and batches *)

Lemma advance_twice k s : advance_clock k (advance_clock k s) = advance_clock k s.
Proof. unfold advance_clock, set_counters. cbn. by rewrite <- Z.max_assoc, Z.max_id. Qed.
Lemma advanced_event index seq event s k :
  event_time event = Some k -> k <= logical_clock (apply_event_memory index seq event s).
Proof.
  intros Hk. assert (apply_event_memory index seq event s = apply_event_memory index seq event (advance_clock k s)) as ->.
  { destruct event; cbn [apply_event_memory]; rewrite Hk, ?advance_twice; done. }
  transitivity (logical_clock (advance_clock k s)); [cbn; lia|]. apply (later_clock _ _ (later_event index seq event _)).
Qed.
Lemma advanced_transaction index seq t s k r :
  event_time (EvTransaction t) = Some k ->
  merge_transaction t r = r \/ k <= logical_clock (apply_transaction_memory t index seq s).
Proof.
  intros Hk. unfold merge_transaction, apply_transaction_memory.
  destruct (traverse _ _) as [ns|]; [|by left]. destruct (traverse _ _) as [es|]; [|by left]. right.
  rewrite Hk. set (s1 := foldl (apply_transaction_node index seq) s ns).
  transitivity (logical_clock (advance_clock k s1)); [cbn; lia|]. apply later_clock.
  etrans; [|apply (later_fold (fun s v => replay_event_vector index seq v s)); intros; apply later_replay_vector].
  etrans; [|apply (later_fold (apply_transaction_retraction seq)); intros; apply later_retraction].
  apply (later_fold apply_transaction_edge), later_merge_edge.
Qed.
(** The time an event brings *)
Definition reached (T : Z) (event : Event) : Z := match event_time event with Some k => Z.max T k | None => T end.
Lemma bounded_reached T r event : bounded T r -> bounded (reached T event) (merge_event r event).
Proof.
  intros Hb. apply bounded_event; unfold reached.
  - eapply bounded_weaken; [|done]. destruct (event_time event); lia.
  - intros k ->. lia.
Qed.
Lemma apply_event_rule n T r x event seq X : 0 <= n ->
  etriple (state (n + mentions event) T r x) (on_mem (apply_event_memory true seq event))
    (fun _ => state n (reached T event) (merge_event r event) x) X.
Proof.
  intros Hn. apply etriple_update. intros d Hd. pose proof (budget_nonneg d).
  pose proof (later_event true seq event (db_mem d)) as Hl.
  eapply state_set_mem; [exact Hd| |exact Hl|apply bounded_reached, Hd|].
  - apply sim_event; [lia|]. replace (n + budget d + mentions event) with (n + mentions event + budget d) by lia. apply Hd.
  - pose proof (st_clock _ _ _ _ _ Hd). pose proof (later_clock _ _ Hl). unfold reached.
    destruct (event_time event) as [k|] eqn:Hk; [|lia].
    pose proof (advanced_event true seq event (db_mem d) k Hk). lia.
Qed.
Lemma apply_transaction_rule n T r x t seq X : 0 <= n ->
  etriple (state (n + transaction_mentions t) T r x) (on_mem (apply_transaction_memory t true seq))
    (fun _ d => exists T', state n T' (merge_transaction t r) x d) X.
Proof.
  intros Hn. apply etriple_update. intros d Hd. pose proof (budget_nonneg d).
  pose proof (later_transaction t true seq (db_mem d)) as Hl. pose proof (later_clock _ _ Hl) as Hc.
  pose proof (st_clock _ _ _ _ _ Hd).
  assert (sim (n + budget d) (apply_transaction_memory t true seq (db_mem d)) (merge_transaction t r)) as Hsim.
  { apply sim_transaction; [lia|].
    replace (n + budget d + transaction_mentions t) with (n + transaction_mentions t + budget d) by lia. apply Hd. }
  assert (bounded (reached T (EvTransaction t)) (merge_transaction t r)) as Hb.
  { apply (bounded_reached T r (EvTransaction t)), Hd. }
  unfold reached in Hb. destruct (event_time (EvTransaction t)) as [k|] eqn:Hk.
  - destruct (advanced_transaction true seq t (db_mem d) k r Hk) as [Hsame|Hle].
    + exists T. rewrite Hsame in *. eapply state_set_mem; [exact Hd|done|exact Hl|apply Hd|lia].
    + exists (Z.max T k). eapply state_set_mem; [exact Hd|done|exact Hl|done|lia].
  - exists T. eapply state_set_mem; [exact Hd|done|exact Hl|done|lia].
Qed.

(** ** Any delivery *)

(** Journalled first, then applied as replay applies it *)
Lemma reconcile_applied_rule n T r e : 0 <= n ->
  etriple (state (n + mentions (se_event e)) T r r)
    (seq ← persist_signed cfg e; on_mem (apply_event_memory true seq (se_event e)) ;; or_durable ensure_readable)
    (fun _ => faithful n) (safe n).
Proof.
  intros Hn. pose proof (mentions_nonneg (se_event e)). set (n' := n + mentions (se_event e)).
  set (r' := merge_event r (se_event e)).
  eapply (etriple_bind _ _ _ (fun _ => state n' T r r')).
  { eapply etriple_conseq; [by apply (persist_signed_rule cfg n'); lia|intros d Hd; exact Hd|by intros|].
    intros st d. apply noted_faithful. lia. }
  intros seq. eapply etriple_bind; [by apply apply_event_rule|].
  intros ?. eapply etriple_conseq; [apply (or_durable_quiet n (reached T (se_event e)) r'); auto with quiet|done| |done].
  intros ? d Hd. eexists _, _. exact Hd.
Qed.
Lemma reconcile_transaction_rule n T r e t : 0 <= n -> se_event e = EvTransaction t ->
  etriple (state (n + transaction_mentions t) T r r) (reconcile_event cfg e) (fun _ => faithful n) (safe n).
Proof.
  intros Hn He. unfold reconcile_event. rewrite He. cbn iota.
  pose proof (mentions_nonneg (EvTransaction t)) as Hm. cbn in Hm. set (n' := n + transaction_mentions t).
  eapply (etriple_bind _ _ _ (fun _ => state n' T r (merge_transaction t r))).
  { eapply etriple_conseq; [by apply (persist_signed_rule cfg n'); lia|intros d Hd; exact Hd| |].
    - intros seq d Hd. by rewrite He in Hd.
    - intros st d. apply noted_faithful. lia. }
  intros seq. eapply etriple_bind; [by apply apply_transaction_rule|].
  intros ?. apply etriple_exists. intros T'.
  destruct (tx_advances_txn_frontier t).
  - apply etriple_update. intros d Hd. exists T', (merge_transaction t r).
    eapply state_set_mem; [exact Hd| |by split|apply Hd|apply Hd]. apply sim_counters, Hd.
  - apply etriple_ret. intros d Hd. by exists T', (merge_transaction t r).
Qed.
(** A collection's event, and a materialized vector *)
Lemma reconcile_surroundings_rule n n' T r e (f : Z -> memory -> result string unit * memory) : 0 <= n <= n' ->
  merge_event r (se_event e) = r ->
  (forall seq b s, 0 <= b -> sim (n' + b) s r -> sim (n + b) (f seq s).2 r) ->
  (forall seq s, later s (f seq s).2) -> bounded T r ->
  etriple (state n' T r r)
    (seq ← persist_signed cfg e; o ← mem_op (f seq); or_durable (of_result o)) (fun _ => faithful n) (safe n).
Proof.
  intros Hn He Hf Hl Hb.
  eapply (etriple_bind _ _ _ (fun _ => state n' T r r)).
  { eapply etriple_conseq; [apply (persist_same_rule n' T r); [lia|done]|done|done|].
    intros st d. apply noted_faithful. lia. }
  intros seq. eapply (etriple_bind _ _ _ (fun _ => state n T r r)); [apply (mem_op_rule _ n' n T r r r); [apply Hf|apply Hl|done]|].
  intros o. eapply etriple_conseq; [apply (or_durable_quiet n T r); [lia|auto with quiet]|done| |done].
  intros ? d Hd. by exists T, r.
Qed.
Lemma reconcile_event_rule n T r e : 0 <= n -> admitted r (se_event e) ->
  etriple (state (n + mentions (se_event e)) T r r) (reconcile_event cfg e) (fun _ => faithful n) (safe n).
Proof.
  intros Hn Hadm. assert (forall d m, state m T r r d -> n <= m -> faithful n d) as Hkeep.
  { intros d m Hd Hle. exists T, r. by eapply state_weaken. }
  apply (etriple_pre _ (fun d => bounded T r /\ state (n + mentions (se_event e)) T r r d)).
  2:{ intros d Hd. split; [apply Hd|done]. }
  apply etriple_pure. intros Hb.
  destruct (se_event e) as [cd|cm|v|m|g|l|v|c|c|t|i k a|c|c|c|c|c] eqn:He.
  all: cbn [mentions].
  - unfold reconcile_event. rewrite He. cbn iota.
    assert (forall e d, noted (state (n + 0) T r r) e d -> faithful n d) as Hsafe.
    { intros st d. apply noted_faithful. lia. }
    do 2 quiet_one. eapply (etriple_bind _ _ _ (fun _ => state (n + 0) T r r)); [by apply etriple_reads|].
    intros [|]; [apply etriple_ret; intros d Hd; apply (Hkeep d _ Hd); lia|].
    apply (reconcile_surroundings_rule n (n + 0) T r e (fun _ s => on_collections (apply_collection_definition cd (colls s)) s));
      [lia|by rewrite He| |by split|done].
    intros seq b s _. rewrite Z.add_0_r. apply sim_surroundings.
  - unfold reconcile_event. rewrite He. cbn iota.
    apply (reconcile_surroundings_rule n (n + 0) T r e (fun _ s => on_collections (apply_collection_materialization cm (colls s)) s));
      [lia|by rewrite He| |by split|done].
    intros seq b s _. rewrite Z.add_0_r. apply sim_surroundings.
  - unfold reconcile_event. rewrite He. cbn iota.
    apply (reconcile_surroundings_rule n (n + 1) T r e (replay_materialized_vector true v));
      [lia|by rewrite He| |intros; apply later_replay_materialized|done].
    intros seq b s Hp Hs. apply sim_replay_materialized; [lia|]. by replace (n + b + 1) with (n + 1 + b) by lia.
  - by apply (reconcile_node_rule n T r e m).
  - by apply (reconcile_edge_rule n T r e g).
  - pose proof (reconcile_applied_rule n T r e Hn) as Hr. unfold reconcile_event. by rewrite He in *.
  - unfold reconcile_event. rewrite He. cbn iota.
    eapply etriple_bind; [apply sync_rule|]. intros ?. set (T' := Z.max T _).
    assert (bounded T' r) as Hb' by (eapply bounded_weaken; [|done]; lia).
    eapply (etriple_bind _ _ _ (fun _ => state (n + 1) T' r r)).
    { eapply etriple_conseq; [apply (persist_same_rule (n + 1) T'); [lia|by rewrite He]|done|done|].
      intros st d. apply noted_faithful. lia. }
    intros seq. eapply etriple_conseq; [apply (mem_rule _ (n + 1) n T' r r r)|done| |intros ? ? Hd; exact Hd].
    + intros b s Hp Hs. apply sim_replay_vector; [lia|]. by replace (n + b + 1) with (n + 1 + b) by lia.
    + intros. apply later_replay_vector.
    + done.
    + intros ? d Hd. by exists T', r.
  - unfold reconcile_event. rewrite He. cbn iota. eapply (etriple_bind _ _ _ (fun _ => faithful n)); [|intros ?; by apply etriple_ret].
    eapply etriple_conseq; [apply (persist_same_rule (n + 0) T r); [lia|by rewrite He]|done| |].
    + intros ? d Hd. apply (Hkeep d _ Hd); lia.
    + intros st d. apply noted_faithful. lia.
  - unfold reconcile_event. rewrite He. cbn iota. eapply (etriple_bind _ _ _ (fun _ => faithful n)); [|intros ?; by apply etriple_ret].
    eapply etriple_conseq; [apply (persist_same_rule (n + 0) T r); [lia|by rewrite He]|done| |].
    + intros ? d Hd. apply (Hkeep d _ Hd); lia.
    + intros st d. apply noted_faithful. lia.
  - by apply (reconcile_transaction_rule n T r e t).
  - rewrite Z.add_0_r. by apply (reconcile_retract_rule n T r e i k a).
  - pose proof (reconcile_applied_rule n T r e Hn) as Hr. unfold reconcile_event. by rewrite He in *.
  - pose proof (reconcile_applied_rule n T r e Hn) as Hr. unfold reconcile_event. by rewrite He in *.
  - unfold reconcile_event. rewrite He. apply etriple_raise. intros d Hd. apply (Hkeep d _ Hd); lia.
  - unfold reconcile_event. rewrite He. apply etriple_raise. intros d Hd. apply (Hkeep d _ Hd); lia.
  - unfold reconcile_event. rewrite He. apply etriple_raise. intros d Hd. apply (Hkeep d _ Hd); lia.
Qed.
End Deliveries.

(** ** Calls, and histories of them *)

Section Histories.
Context `{GraphCrates} `{Surroundings} `{Calendar} `{Signing}.
Variable cfg : config.
Implicit Types (d : db) (r : replica) (s : memory).

Inductive call :=
| AddNode (args : NodeInput)
| AddEdge (args : EdgeInput)
| SupersedeNode (id : string) (props : option json) (caused_by : option string)
| RetractNode (id : string)
| RetractEdge (id : string) (at_ : option string)
| ExecuteBatch (ns : list NodeInput) (es : list EdgeInput)
| AddVector (node_id collection : string) (embedding : list f64)
| Deliver (needs_envelope : SignedEvent -> bool) (authorized : result string unit) (events : list SignedEvent).
Definition perform (c : call) : EM db unit :=
  match c with
  | AddNode args => add_node cfg args ;; mret tt
  | AddEdge args => add_edge cfg args ;; mret tt
  | SupersedeNode id props cause => supersede_node cfg id props cause ;; mret tt
  | RetractNode id => retract_node cfg id
  | RetractEdge id at_ => retract_edge cfg id at_ ;; mret tt
  | ExecuteBatch ns es => execute_batch cfg ns es ;; mret tt
  | AddVector id coll emb => add_vector cfg id coll emb
  | Deliver needs authorized events => reconcile_state cfg needs authorized events
  end.

(** The identifiers a call may number, and the ticks of the clock it takes *)
Definition needs (c : call) : Z :=
  match c with
  | AddNode _ | AddEdge _ => 2
  | ExecuteBatch ns es => batch_needs ns es
  | AddVector _ _ _ => 1
  | Deliver _ _ events => foldr (fun e m => mentions (se_event e) + m) 0 events
  | _ => 0
  end.
Definition clock_steps (c : call) : Z :=
  match c with ExecuteBatch ns es => zlen ns + zlen es | Deliver _ _ _ => 0 | _ => 1 end.

(** What is asked of a delivery, at the memory its events find *)
Definition admits (s : memory) (event : Event) : Prop :=
  match event with
  | EvEdge e => current_edge e
  | EvNodeRetract id _ _ => is_Some (live_node s id) \/ detached id (edges s) = edges s
  | _ => True
  end.
Fixpoint deliverable (events : list SignedEvent) (d : db) : Prop :=
  match events with
  | [] => True
  | e :: events' =>
      admits (db_mem d) (se_event e) /\
      match reconcile_event cfg e d with (Ok _, d') => deliverable events' d' | (Err _, _) => True end
  end.
Definition allowed (c : call) (d : db) : Prop :=
  match c with Deliver _ _ events => deliverable events d | _ => True end.

(** Calls one after the other, whether they succeed or not; the clock does not wrap in them. *)
Inductive history : db -> list call -> db -> Prop :=
| history_end d : history d [] d
| history_call d c cs d' :
    ticks (clock_steps c) d -> allowed c d -> history (perform c d).2 cs d' -> history d (c :: cs) d'.

Lemma admits_admitted n T r x d event : state n T r x d -> admits (db_mem d) event -> admitted r event.
Proof.
  intros Hd. destruct (sim_abs _ _ _ (st_sim _ _ _ _ _ Hd)) as [Hv He].
  destruct event; try done. cbn. rewrite He. intros [[m Hm]|]; [left|by right].
  exists m. rewrite Hv. unfold view. by rewrite Hm.
Qed.
Lemma delivered_faithful events n d :
  0 <= n -> faithful (n + foldr (fun e m => mentions (se_event e) + m) 0 events) d -> deliverable events d ->
  faithful n (efor (fun _ e => reconcile_event cfg e) tt events d).2.
Proof.
  revert n d; induction events as [|e events IH]; intros n d Hn Hd; cbn [foldr efor deliverable].
  { intros _. cbn in *. by rewrite Z.add_0_r in Hd. }
  intros [Hadm Hrest]. cbn [foldr] in Hd. set (m := foldr _ 0 events) in *.
  assert (0 <= m) as Hm.
  { unfold m. clear. induction events as [|e l IH]; cbn; [done|]. pose proof (mentions_nonneg (se_event e)). lia. }
  destruct Hd as (T & r & Hd). replace (n + (mentions (se_event e) + m)) with (n + m + mentions (se_event e)) in Hd by lia.
  pose proof (reconcile_event_rule cfg (n + m) T r e ltac:(lia) (admits_admitted _ _ _ _ _ _ Hd Hadm) d Hd) as Hr.
  rewrite em_bind_eq. destruct (reconcile_event cfg e d) as [[[]|st] d'].
  - by apply IH.
  - cbn. eapply faithful_weaken; [|exact Hr]. lia.
Qed.

(** A check: it reads, and changes nothing. *)
Lemma require_faithful n (b : bool) e (m : EM db unit) d :
  faithful n d -> faithful n (m d).2 -> faithful n ((require b e ;; m) d).2.
Proof. intros Hd Hm. rewrite em_bind_eq. by destruct b. Qed.
Lemma readable_faithful n (m : EM db unit) d :
  faithful n d -> faithful n (m d).2 -> faithful n ((ensure_readable ;; m) d).2.
Proof.
  intros Hd Hm. rewrite em_bind_eq. unfold ensure_readable, mem, reads. rewrite em_bind_eq.
  by destruct (recovery_required (db_mem d)).
Qed.
Lemma writable_faithful n (m : EM db unit) d :
  faithful n d -> faithful n (m d).2 -> faithful n ((ensure_writable cfg ;; m) d).2.
Proof.
  intros Hd Hm. rewrite em_bind_eq. unfold ensure_writable, ensure_readable, mem, reads. rewrite !em_bind_eq.
  destruct (recovery_required (db_mem d)); [done|]. by destruct (cf_read_only cfg).
Qed.
Lemma reconcile_faithful n envelope authorized events d :
  0 <= n -> faithful (n + foldr (fun e m => mentions (se_event e) + m) 0 events) d -> deliverable events d ->
  faithful n (reconcile_state cfg envelope authorized events d).2.
Proof.
  intros Hn Hd Hev. pose proof (delivered_faithful _ _ _ Hn Hd Hev) as Hend.
  assert (faithful n d) as Hd'.
  { eapply faithful_weaken; [|exact Hd]. enough (0 <= foldr (fun e m => mentions (se_event e) + m) 0 events) by lia.
    clear. induction events as [|e l IH]; cbn; [done|]. pose proof (mentions_nonneg (se_event e)). lia. }
  unfold reconcile_state. apply writable_faithful; [done|]. apply readable_faithful; [done|].
  do 3 (apply require_faithful; [done|]). rewrite em_bind_eq. by destruct authorized.
Qed.
Lemma triple_faithful {A} n m T r c (f : EM db A) d :
  etriple (fun d => state m T r r d /\ ticks c d) f (fun _ => faithful n) (fun _ => faithful n) ->
  state m T r r d -> ticks c d -> faithful n (f d).2.
Proof. intros Hf Hd Ht. specialize (Hf d (conj Hd Ht)). by destruct (f d) as [[a|e] d']. Qed.
Lemma returns_faithful {A} n (f : EM db A) d : faithful n (f d).2 -> faithful n ((f ;; mret tt) d).2.
Proof. intros Hf. rewrite em_bind_eq. by destruct (f d) as [[a|e] d']. Qed.

Lemma perform_faithful n c d :
  0 <= n -> faithful (n + needs c) d -> ticks (clock_steps c) d -> allowed c d -> faithful n (perform c d).2.
Proof.
  intros Hn (T & r & Hd) Ht Hall. destruct c; cbn [perform needs clock_steps allowed] in *;
    rewrite ?Z.add_0_r in Hd; try apply returns_faithful;
    try (apply (reconcile_faithful n); [done|by exists T, r|done]);
    (eapply triple_faithful; [|exact Hd|exact Ht]).
  - by apply add_node_rule.
  - by apply add_edge_rule.
  - by apply supersede_node_rule.
  - by apply retract_node_rule.
  - by apply retract_edge_rule.
  - by apply execute_batch_rule.
  - by apply add_vector_call_rule.
Qed.
Definition all_needs (cs : list call) : Z := foldr (fun c m => needs c + m) 0 cs.
Lemma call_needs_nonneg c : 0 <= needs c.
Proof.
  destruct c; cbn [needs]; try done; unfold batch_needs; try (pose proof (zlen_nonneg ns); pose proof (zlen_nonneg es); lia).
  induction events as [|e l IH]; cbn; [done|]. pose proof (mentions_nonneg (se_event e)). lia.
Qed.
Lemma all_needs_nonneg cs : 0 <= all_needs cs.
Proof.
  unfold all_needs. induction cs as [|c cs IH]; cbn [foldr]; [done|]. pose proof (call_needs_nonneg c). lia.
Qed.
Lemma history_faithful n cs d d' :
  0 <= n -> faithful (n + all_needs cs) d -> history d cs d' -> faithful n d'.
Proof.
  intros Hn Hd Hh. revert n Hn Hd. induction Hh as [d|d c cs d' Ht Hall _ IH]; intros n Hn Hd.
  { by rewrite Z.add_0_r in Hd. }
  apply IH; [done|]. cbn in Hd. pose proof (all_needs_nonneg cs).
  apply perform_faithful; [lia| |done|done].
  by replace (n + all_needs cs + needs c) with (n + (needs c + all_needs cs)) by lia.
Qed.

(** A store without a journal *)
Definition new_store (c : collections) (k : controls) (i : inputs) : db :=
  {| db_mem := empty_memory c k; db_journal := []; db_commit_sequence := 0; db_inputs := i |}.
Lemma new_store_faithful n c k i :
  n + budget (new_store c k i) < u32_modulus -> faithful n (new_store c k i).
Proof.
  intros Hroom. exists 0, empty_replica. split; try done.
  - by apply sim_empty.
Qed.

(** ** Recovery *)

Lemma merge_normalized r local e : merge_event r (normalize_replayed_event local e) = merge_event r (se_event e).
Proof. unfold normalize_replayed_event. by destruct (negb _), (se_event e). Qed.
Lemma mentions_normalized local e : mentions (normalize_replayed_event local e) = mentions (se_event e).
Proof. unfold normalize_replayed_event. by destruct (negb _), (se_event e). Qed.
Definition journal_mentions (d : db) : Z := foldr (fun f m => mentions (se_event f.2) + m) 0 (db_journal d).
Lemma replay_journal_sim n verify frames s r :
  0 <= n -> Forall (fun f => contains_p6_control_event (se_event f.2) = false) frames ->
  sim (n + foldr (fun f m => mentions (se_event f.2) + m) 0 frames) s r ->
  sim n (replay_journal cfg verify frames s) (foldl merge_event r ((fun f => se_event f.2) <$> frames)).
Proof.
  intros Hn Hopen Hs. assert (foldl merge_event r ((fun f => se_event f.2) <$> frames) =
    foldl (fun r f => merge_event r (se_event f.2)) r frames) as ->.
  { clear. revert r; induction frames as [|f l IH]; intros r; [done|]. cbn. apply IH. }
  apply (sim_fold _ _ (fun f => mentions (se_event f.2))); [done| |intros [seq e] m s' r' Hf Hm|done].
  - apply Forall_forall. intros. apply mentions_nonneg.
  - rewrite Forall_forall in Hopen. specialize (Hopen _ Hf). cbn in Hopen |- *. rewrite Hopen. cbn.
    intros Hs'. rewrite <- (merge_normalized _ (cf_local_peer_id cfg)). apply sim_event; [done|].
    by rewrite mentions_normalized.
Qed.
Lemma sim_agree n n' s s' r : sim n s r -> sim n' s' r -> (forall id, view s id = view s' id) /\ edges s = edges s'.
Proof.
  intros [_ _ [Hv He]] [_ _ [Hv' He']]. split; [|congruence]. intros id. by rewrite <- Hv, <- Hv'.
Qed.
End Histories.
