(* ===== verification/GraphSafety.v ===== *)
(** * What the graph and its replication promise

    The refinement of the specification, the agreement of replicas, and the faithfulness of a
    live store to its journal, with an instance of the crates on which they are applied. *)
From S2P Require Export GraphHistory GraphSnapshot.
Local Open Scope Z_scope.

Section Promises.
Context `{GraphCrates} `{Surroundings}.

(** C4: The replay of any journal whose events name fewer than 2^32 identifiers makes a memory in
    order that stands for what the specification makes of the events. *)
Theorem replay_refines (c : collections) (k : controls) (frames : list (Z * Event)) :
  mentioned frames < u32_modulus ->
  graph_ok (replay c k frames) /\
  stands_for (replay c k frames) (foldl merge_event empty_replica frames.*2).
Proof.
  intros Hroom. by destruct (sim_replay 0 c k frames ltac:(lia) ltac:(lia)).
Qed.

Lemma replayed_view c k frames : mentioned frames < u32_modulus -> forall id,
  view (replay c k frames) id = rp_nodes (foldl merge_event empty_replica frames.*2) !! id.
Proof. intros Hroom id. by rewrite (nodes_stand _ _ (sim_abs _ _ _ (sim_replay 0 c k frames ltac:(lia) ltac:(lia)))). Qed.
Lemma replayed_edges c k frames : mentioned frames < u32_modulus ->
  edges (replay c k frames) = rp_edges (foldl merge_event empty_replica frames.*2).
Proof. intros Hroom. by rewrite (edges_stand _ _ (sim_abs _ _ _ (sim_replay 0 c k frames ltac:(lia) ltac:(lia)))). Qed.
Lemma replicas_view c k c' k' (frames frames' : list (Z * Event)) :
  mentioned frames < u32_modulus -> mentioned frames' < u32_modulus ->
  forallb compares frames.*2 = true -> forallb compares frames'.*2 = true ->
  (forall e, e ∈ frames.*2 <-> e ∈ frames'.*2) -> one_write_per_clock frames.*2 ->
  forall id, view (replay c k frames) id = view (replay c' k' frames') id.
Proof. intros. rewrite !replayed_view by done. by apply nodes_agree. Qed.
Lemma replicas_edges c k c' k' (frames frames' : list (Z * Event)) :
  mentioned frames < u32_modulus -> mentioned frames' < u32_modulus ->
  forallb compares frames.*2 = true -> forallb compares frames'.*2 = true -> existsb retracts frames.*2 = false ->
  (forall e, e ∈ frames.*2 <-> e ∈ frames'.*2) -> one_write_per_clock frames.*2 ->
  edges (replay c k frames) = edges (replay c' k' frames').
Proof. intros. rewrite !replayed_edges by done. apply map_eq. intros. by apply edges_agree. Qed.

End Promises.

(** ** Retraction and snapshots *)

Section Memory.
Context `{GraphCrates} `{Surroundings}.
Implicit Types s : memory.

Lemma retire_edge_maps seq s j :
  edges (retire_edge seq s j) = delete j (edges s) /\
  edges_retired (retire_edge seq s j) =
    match edges s !! j with
    | Some e => <[j := {| re_edge := e; re_retired_seq := seq |}]> (edges_retired s)
    | None => edges_retired s
    end.
Proof.
  unfold retire_edge, unwire_edge. destruct (edges s !! j) as [e|] eqn:He; [|rewrite He; by rewrite delete_id].
  by destruct (get_u32 s (eo_from e)), (get_u32 s (eo_to e)); cbn; rewrite He.
Qed.
Lemma retired_lookup seq ks s k :
  edges_retired (foldl (retire_edge seq) s ks) !! k =
  match edges s !! k with
  | Some e => if bool_decide (k ∈ ks) then Some {| re_edge := e; re_retired_seq := seq |} else edges_retired s !! k
  | None => edges_retired s !! k
  end.
Proof.
  revert s; induction ks as [|j ks IH]; intros s; cbn [foldl]; [by destruct (edges s !! k)|].
  rewrite IH. destruct (retire_edge_maps seq s j) as [-> ->]. destruct (decide (j = k)) as [->|Hjk].
  - rewrite lookup_delete_eq. destruct (edges s !! k) as [e|]; [|done].
    by rewrite lookup_insert_eq, bool_decide_eq_true_2 by (by left).
  - rewrite lookup_delete_ne by done. assert (bool_decide (k ∈ j :: ks) = bool_decide (k ∈ ks)) as ->.
    { apply bool_decide_ext. set_solver. }
    destruct (edges s !! j); [rewrite lookup_insert_ne by done|]; done.
Qed.

(** A retraction leaves the tombstone in the node's place and takes exactly the node's edges
    away; each of them is kept among the retired edges with the frame that ended it, and no
    other retired edge changes. *)
Theorem retraction_detaches (n : Z) (r : replica) s (id : string) (u seq : Z) (t : NodeTombstone) :
  sim n s r -> get_u32 s id = Some u ->
  let s' := insert_tombstone id t (retract_node_memory id u seq s) in
  let touches e := eo_from e = id \/ eo_to e = id in
  view s' id = Some (Dead t) /\
  (forall k e, edges s' !! k = Some e <-> edges s !! k = Some e /\ ~ touches e) /\
  (forall k e, edges s !! k = Some e -> touches e ->
     edges_retired s' !! k = Some {| re_edge := e; re_retired_seq := seq |}) /\
  (forall k, (forall e, edges s !! k = Some e -> ~ touches e) -> edges_retired s' !! k = edges_retired s !! k).
Proof.
  intros Hs Hu s' touches. pose proof (sim_retract n id u t seq s r Hs Hu) as [_ _ [Hv He]].
  fold s' in Hv, He. set (ks := elements (adj (out_idx s) u) ++ elements (adj (in_idx s) u)).
  assert (forall k, edges_retired s' !! k = edges_retired (foldl (retire_edge seq) s ks) !! k) as Hret by done.
  assert (forall k e, edges s !! k = Some e -> k ∈ ks <-> touches e) as Hks.
  { intros k e Hk. by apply (incident s id u k e); [apply Hs|..]. }
  split; [|split; [|split]].
  - rewrite <- Hv. cbn. apply lookup_insert_eq.
  - intros k e. rewrite <- He. cbn. unfold detached. rewrite map_lookup_filter_Some.
    rewrite (edges_stand _ _ (sim_abs _ _ _ Hs)). unfold touches. cbn. tauto.
  - intros k e Hk Ht. by rewrite Hret, retired_lookup, Hk, bool_decide_eq_true_2 by (by apply (Hks _ _ Hk)).
  - intros k Hk. rewrite Hret, retired_lookup. destruct (edges s !! k) as [e|] eqn:Hke; [|done].
    rewrite bool_decide_eq_false_2; [done|]. intros Hin. by apply (Hk e), (Hks k e).
Qed.

End Memory.

Section Live.
Context `{GraphCrates} `{Surroundings} `{Calendar} `{Signing}.
Variable cfg : config.
Implicit Types d : db.



(** The clock of the next local write is later than the clock of every node, tombstone and edge
    the store holds, so that no replica takes that write for an old one. *)
Theorem next_write_wins (c : collections) (k : controls) (i : inputs) (cs : list call) (d : db) :
  all_needs cs + budget (new_store c k i) < u32_modulus ->
  history cfg (new_store c k i) cs d -> ticks 1 d ->
  let clock := (next_clock (cf_local_peer_id cfg) (db_mem d)).1 in
  (forall id, superseded (view (db_mem d) id) clock = false) /\
  (forall key e, edges (db_mem d) !! key = Some e -> clock_lt (eo_clock e) clock = true).
Proof.
  intros Hroom Hh Ht clock.
  destruct (history_faithful cfg 0 cs _ _ ltac:(lia) (new_store_faithful _ _ _ _ Hroom) Hh) as (T & r & Hd).
  pose proof (st_clock _ _ _ _ _ Hd). pose proof (st_nonneg _ _ _ _ _ Hd). unfold ticks in Ht.
  assert (T < lc_time clock) as Hlt by (cbn; rewrite Z.mod_small; lia).
  destruct (sim_abs _ _ _ (st_sim _ _ _ _ _ Hd)) as [Hv He]. split.
  - intros id. rewrite <- Hv. by apply (fresh_node T); [apply Hd|].
  - intros key e Hk. rewrite <- He in Hk. apply time_clock_lt.
    pose proof (edges_bounded _ _ (st_bounded _ _ _ _ _ Hd) _ _ Hk). lia.
Qed.
End Live.
