(* ===== verification/GraphSample.v ===== *)
(** * The graph's theorems at work

    An instance of the crates and of what surrounds the graph, and a store on which the
    theorems' hypotheses hold; then runs outside their hypotheses. *)
From S2P Require Export GraphSafety.
Local Open Scope Z_scope.

(** A digest that keeps short texts apart, and collections that are lists of rows: a node's
    number, and whether the row is live *)
Definition sample_crates : GraphCrates := {|
  sha256 b := take 32 (b ++ replicate 32 (byte_of 0));
  hex_encode := str_of_bytes;
  is_mark _ := false;
  char_to_lowercase := str_of_bytes;
  str_to_lowercase s := s;
  str_to_uppercase s := s |}.
Definition sample_surroundings : Surroundings := {|
  vector := list f64;
  vector_eq_dec := _;
  collections := list (Z * bool);
  default_collection := "default";
  coll_dim _ name := if bool_decide (name = "default"%string) then Some 1 else None;
  coll_defined _ name := bool_decide (name = "default"%string);
  coll_prep _ _ e := e;
  coll_cast e := e;
  coll_stage _ u _ _ _ rows := (Ok (zlen rows), rows ++ [(u, true)]);
  coll_definitions _ := [("default", "d")]%string;
  coll_members rows := [("default"%string, (List.filter snd rows).*1)];
  coll_retire u _ rows := (fun p => if bool_decide (p.1 = u) then (u, false) else p) <$> rows;
  collection_preflight _ _ := Ok tt;
  apply_collection_definition _ rows := (Ok tt, rows);
  apply_collection_materialization _ rows := (Ok tt, rows);
  controls := unit;
  apply_generation_event _ _ k := (Ok tt, k);
  apply_access_policy_event _ k := (Ok tt, k);
  apply_schema6_migration_chunk _ _ k := (Ok tt, k);
  apply_schema6_migration_commit _ _ k := (Ok tt, k) |}.
Definition sample_calendar : Calendar := {| to_rfc3339 t := pretty.pretty t |}.
Definition sample_signing : Signing := {| sign _ := [] |}.
#[export] Existing Instances sample_crates sample_surroundings sample_calendar sample_signing.

Definition no_rows : collections := ([] : list (Z * bool)).
Definition no_controls : controls := tt.
Definition sample_cfg : config :=
  {| cf_local_peer_id := "p"; cf_read_only := false; cf_schema6 := false; cf_local_master := true |}.
Definition sample_node (id : string) (t : Z) (peer : string) : NodeOutput :=
  {| no_id := id; no_labels := ["L"%string]; no_props := JNull; no_legacy_wire_impact := WireAbsent;
     no_embedding := None; no_lang := Some "en"%string; no_valid_from := "t"; no_valid_to := None;
     no_caused_by := None; no_expires_at := None; no_clock := {| lc_time := t; lc_peer_id := peer |};
     no_collection := None |}.
Definition sample_edge (id from to : string) (t : Z) (peer : string) : EdgeOutput :=
  {| eo_id := id; eo_from := from; eo_to := to; eo_rel := "R"; eo_props := JNull; eo_valid_from := "t";
     eo_valid_to := None; eo_recorded_at := "t"; eo_superseded_by := None;
     eo_legacy_wire_impact := WireAbsent; eo_caused_by := None;
     eo_clock := {| lc_time := t; lc_peer_id := peer |} |}.
Definition from_peer (event : Event) : SignedEvent :=
  {| se_event := event; se_signature := []; se_signer_peer_id := "q" |}.

(** ** Journals *)

(** Two replicas that heard the same writes in other orders, one of them twice *)
Definition heard : list (Z * Event) :=
  [(1, EvNode (sample_node "a" 1 "p")); (2, EvNode (sample_node "b" 2 "q"));
   (3, EvEdge (sample_edge "e" "a" "b" 3 "p")); (4, EvNode (sample_node "a" 4 "q"))].
Definition heard_late : list (Z * Event) :=
  [(1, EvNode (sample_node "a" 4 "q")); (2, EvEdge (sample_edge "e" "a" "b" 3 "p"));
   (3, EvNode (sample_node "a" 1 "p")); (4, EvNode (sample_node "b" 2 "q"));
   (5, EvEdge (sample_edge "e" "a" "b" 3 "p"))].
Lemma replay_refines_witness : mentioned heard < u32_modulus /\
  graph_ok (replay no_rows no_controls heard) /\
  stands_for (replay no_rows no_controls heard) (foldl merge_event empty_replica heard.*2).
Proof. split; [by vm_compute|]. apply (replay_refines no_rows no_controls heard). by vm_compute. Defined.

Lemma heard_same e : e ∈ heard.*2 <-> e ∈ heard_late.*2.
Proof. cbn. rewrite !elem_of_cons. naive_solver. Qed.
Lemma heard_once : one_write_per_clock heard.*2.
Proof.
  split; [|split]; cbn.
  - intros n m. rewrite !elem_of_cons, !elem_of_nil. naive_solver.
  - intros i c a b. rewrite !elem_of_cons, !elem_of_nil. naive_solver.
  - intros e d. rewrite !elem_of_cons, !elem_of_nil. naive_solver.
Qed.

(** ** A store at work *)

Definition node_args (id : string) : NodeInput :=
  {| ni_id := Some id; ni_labels := ["L"%string]; ni_props := None; ni_embedding := None; ni_lang := None;
     ni_valid_from := None; ni_caused_by := None; ni_ttl := None; ni_collection := None |}.
Definition edge_args (id from to : string) : EdgeInput :=
  {| ei_id := Some id; ei_from := from; ei_to := to; ei_rel := "R"; ei_props := None; ei_valid_from := None;
     ei_supersede := None; ei_impact := None; ei_caused_by := None |}.
Definition sample_inputs : inputs :=
  {| in_answers := [Applied 1 ["a"]; Applied 2 []; Refused "disk"; Applied 3 ["b"; "a"]; Applied 4 [];
                    Applied 5 ["c"]; Applied 6 []; Applied 7 []; Applied 8 []]%string;
     in_envelopes := []; in_times := [10; 20; 30; 40; 50; 60; 70; 80]; in_uuids := []; in_props := [] |}.
Definition sample_calls : list call :=
  [AddNode (node_args "a"); AddNode (node_args "b"); AddNode (node_args "refused");
   AddEdge (edge_args "e" "a" "b"); SupersedeNode "a" None None;
   Deliver (fun _ => false) (Ok tt) [from_peer (EvNode (sample_node "c" 30 "q"))];
   RetractNode "b"].
Fixpoint after (cs : list call) (d : db) : db :=
  match cs with [] => d | c :: cs => after cs (perform sample_cfg c d).2 end.
Fixpoint fine (cs : list call) (d : db) : Prop :=
  match cs with
  | [] => True
  | c :: cs => ticks (clock_steps c) d /\ allowed sample_cfg c d /\ fine cs (perform sample_cfg c d).2
  end.
Lemma after_history cs d : fine cs d -> history sample_cfg d cs (after cs d).
Proof. revert d; induction cs as [|c cs IH]; intros d; cbn; [constructor|]. intros (? & ? & ?). constructor; auto. Qed.
Definition sample_start : db := new_store no_rows no_controls sample_inputs.
Lemma sample_fine : fine sample_calls sample_start.
Proof. vm_compute. repeat split. Qed.
Lemma sample_room : all_needs sample_calls + budget sample_start < u32_modulus.
Proof. by vm_compute. Qed.
Definition sample_end : db := after sample_calls sample_start.
Lemma sample_history : history sample_cfg sample_start sample_calls sample_end.
Proof. exact (after_history _ _ sample_fine). Qed.
Lemma sample_readable : recovery_required (db_mem sample_end) = false.
Proof. by vm_compute. Qed.
Lemma sample_journal : journal_mentions sample_end < u32_modulus.
Proof. by vm_compute. Qed.
(** The refused node is nowhere; the retracted one left a tombstone, and its edge went. *)
Example sample_end_graph :
  view (db_mem sample_end) "refused" = None /\
  view (db_mem sample_end) "b" =
    Some (Dead {| nt_clock := {| lc_time := 31; lc_peer_id := "p" |}; nt_retracted_at := "70" |}) /\
  view (db_mem sample_end) "c" = Some (Live (sample_node "c" 30 "q")) /\
  edges (db_mem sample_end) = ∅.
Proof. by vm_compute. Qed.

(** Until the retraction the edge is indexed. *)
Definition sample_middle : db := after (take 6 sample_calls) sample_start.
Lemma sample_middle_fine : fine (take 6 sample_calls) sample_start.
Proof. vm_compute. repeat split. Qed.
Lemma sample_middle_room : all_needs (take 6 sample_calls) + budget sample_start < u32_modulus.
Proof. by vm_compute. Qed.
Lemma sample_middle_history : history sample_cfg sample_start (take 6 sample_calls) sample_middle.
Proof. exact (after_history _ _ sample_middle_fine). Qed.
Lemma sample_middle_edge : edges (db_mem sample_middle) !! edge_key "e" <> None /\ out_idx (db_mem sample_middle) <> ∅.
Proof. by vm_compute. Qed.
Lemma sample_ticks : ticks 1 sample_end.
Proof. by vm_compute. Qed.
(** The peer's clock of 30 has been taken in. *)
Lemma next_write_wins_witness :
  (next_clock "p" (db_mem sample_end)).1 = {| lc_time := 32; lc_peer_id := "p" |} /\
  forall id, superseded (view (db_mem sample_end) id) (next_clock "p" (db_mem sample_end)).1 = false.
Proof.
  split; [by vm_compute|].
  exact (proj1 (next_write_wins sample_cfg no_rows no_controls sample_inputs sample_calls sample_end
    sample_room sample_history sample_ticks)).
Defined.

(** ** A memory to retract in and to save *)

Definition replayed : memory := replay no_rows no_controls heard.
Lemma replayed_sim : sim 2 replayed (foldl merge_event empty_replica heard.*2).
Proof. apply sim_replay; by vm_compute. Qed.
Lemma replayed_edge : edges replayed !! edge_key "e" = Some (sample_edge "e" "a" "b" 3 "p").
Proof. by vm_compute. Qed.
Lemma retraction_detaches_witness :
  let t := {| nt_clock := {| lc_time := 9; lc_peer_id := "p" |}; nt_retracted_at := "t" |} in
  let s' := insert_tombstone "a" t (retract_node_memory "a" 0 5 replayed) in
  view s' "a" = Some (Dead t) /\
  edges_retired s' !! edge_key "e" =
    Some {| re_edge := sample_edge "e" "a" "b" 3 "p"; re_retired_seq := 5 |}.
Proof.
  intros t s'. destruct (retraction_detaches 2 _ replayed "a" 0 5 t replayed_sim ltac:(by vm_compute))
    as (Hv & _ & Hr & _). split; [exact Hv|].
  exact (Hr _ _ replayed_edge (or_introl eq_refl)).
Defined.
Lemma replayed_room : sim (2 * Z.of_nat (size (edges replayed))) replayed (foldl merge_event empty_replica heard.*2).
Proof. replace (2 * Z.of_nat (size (edges replayed))) with 2 by by vm_compute. exact replayed_sim. Qed.
Lemma replayed_edges_one key e : edges replayed !! key = Some e -> e = sample_edge "e" "a" "b" 3 "p".
Proof.
  replace (edges replayed) with ({[edge_key "e" := sample_edge "e" "a" "b" 3 "p"]} : gmap Z EdgeOutput)
    by by vm_compute. by intros [_ <-]%lookup_singleton_Some.
Qed.
Lemma replayed_current key e : edges replayed !! key = Some e -> current_edge e.
Proof. by intros ->%replayed_edges_one. Qed.
Lemma replayed_retired key x : edges_retired replayed !! key = Some x -> key = edge_key (eo_id (re_edge x)).
Proof. replace (edges_retired replayed) with (∅ : gmap Z RetiredEdge) by by vm_compute. by rewrite lookup_empty. Qed.

(** ** Where the graph's code falls short

    Runs on the sample store that a reader of the code would not expect: each is outside the
    hypotheses of the theorems, and shows why they are there. *)

Definition answered (n : nat) : inputs :=
  {| in_answers := (fun i => Applied (Z.of_nat i) []) <$> seq 1 n; in_envelopes := [];
     in_times := [10; 20; 30; 40]; in_uuids := []; in_props := [] |}.
Definition store_after (events : list Event) : db :=
  (reconcile_state sample_cfg (fun _ => false) (Ok tt) (from_peer <$> events)
     (new_store no_rows no_controls (answered 9))).2.
Definition reopened (d : db) : memory :=
  replay_journal sample_cfg (fun _ => true) (db_journal d) (empty_memory no_rows no_controls).

(** *** A transaction delivered again *)

(** The nodes of a transaction are written without a look at their clocks. *)
Lemma transaction_overwrites `{GraphCrates} r t m :
  tx_nodes t = [m] -> tx_edges t = [] -> tx_node_retractions t = [] -> current_node m ->
  rp_nodes (merge_event r (EvTransaction t)) !! no_id m = Some (Live (lean_node m)).
Proof.
  intros Hn He Hr Hc. cbn. unfold merge_transaction. rewrite Hn, He, Hr. cbn.
  rewrite migrate_node_absent by done. cbn. unfold put_node. rewrite migrate_node_absent by done. cbn.
  apply lookup_insert_eq.
Qed.
Definition first_write : Event :=
  EvTransaction {| tx_transaction_id := "x"; tx_origin_commit_seq := 0; tx_local_frame_seq := None;
     tx_payload_hash := "h"; tx_relational := []; tx_nodes := [sample_node "a" 1 "q"]; tx_edges := [];
     tx_vectors := []; tx_node_retractions := []; tx_advances_txn_frontier := false;
     tx_record_revision_transaction := None |}.
Definition second_write : Event := EvNode (sample_node "a" 2 "q").
Example redelivery_rolls_back :
  view (db_mem (store_after [first_write; second_write])) "a" = Some (Live (sample_node "a" 2 "q")) /\
  view (db_mem (store_after [first_write; second_write; first_write])) "a" =
    Some (Live (sample_node "a" 1 "q")).
Proof. by vm_compute. Qed.

(** *** The end of the clock *)

(** After a remote event of the greatest time, local writes carry clock 0 and lose. *)
Lemma clock_wraps `{Surroundings} s peer :
  logical_clock s = u32_max -> lc_time (next_clock peer s).1 = 0.
Proof. intros Hc. cbn. by rewrite Hc. Qed.
Definition exhausted : db := store_after [EvNode (sample_node "a" u32_max "q")].
Example exhausted_write_lost :
  let clock := (next_clock "p" (db_mem exhausted)).1 in
  lc_time clock = 0 /\ superseded (view (db_mem exhausted) "a") clock = true.
Proof. by vm_compute. Qed.

(** *** A retraction of an identifier that only edges name *)

Definition dangling : db :=
  store_after [EvEdge (sample_edge "e" "a" "b" 1 "q"); EvNodeRetract "b" {| lc_time := 2; lc_peer_id := "q" |} "t"].
Example dangling_reopens_otherwise :
  recovery_required (db_mem dangling) = false /\
  edges (db_mem dangling) !! edge_key "e" = Some (sample_edge "e" "a" "b" 1 "q") /\
  edges (reopened dangling) = ∅ /\
  get_merkle_root (db_mem dangling) <> get_merkle_root (reopened dangling).
Proof. by vm_compute. Qed.

(** *** A historical [impact] on a delivered edge *)

Definition impact_edge : EdgeOutput :=
  edge_with_props (JObject []) (WireNumber f64_zero) (sample_edge "e" "a" "b" 1 "q").
Definition unmigrated : db := store_after [EvEdge impact_edge].
Example unmigrated_reopens_otherwise :
  edges (db_mem unmigrated) !! edge_key "e" = Some impact_edge /\
  eo_legacy_wire_impact <$> edges (reopened unmigrated) !! edge_key "e" = Some WireAbsent.
Proof. by vm_compute. Qed.

(** *** Edges and retractions in another order *)

Definition edge_then_retract : list (Z * Event) :=
  [(1, EvNode (sample_node "a" 1 "p")); (2, EvEdge (sample_edge "e" "a" "b" 3 "p"));
   (3, EvNodeRetract "a" {| lc_time := 2; lc_peer_id := "q" |} "t")].
Definition retract_then_edge : list (Z * Event) :=
  [(1, EvNode (sample_node "a" 1 "p")); (2, EvNodeRetract "a" {| lc_time := 2; lc_peer_id := "q" |} "t");
   (3, EvEdge (sample_edge "e" "a" "b" 3 "p"))].
Example edges_diverge :
  edges (replay no_rows no_controls edge_then_retract) = ∅ /\
  edges (replay no_rows no_controls retract_then_edge) !! edge_key "e" <> None /\
  get_merkle_root (replay no_rows no_controls edge_then_retract) <>
  get_merkle_root (replay no_rows no_controls retract_then_edge).
Proof. by vm_compute. Qed.

(** *** Index compaction *)

(** The edge stays, its index entry goes with a number that has no node. *)
Definition endpoint_only : memory := replay no_rows no_controls
  [(1, EvNode (sample_node "a" 1 "p")); (2, EvEdge (sample_edge "e" "a" "b" 2 "p"))].
Example pruned_index_loses_edge :
  edges (prune_adjacency endpoint_only) !! edge_key "e" <> None /\
  get_u32 (prune_adjacency endpoint_only) "b" = Some 1 /\
  adj (in_idx endpoint_only) 1 = {[edge_key "e"]} /\ adj (in_idx (prune_adjacency endpoint_only)) 1 = ∅.
Proof. by vm_compute. Qed.

(** *** Numbers given again after a snapshot *)

(** A vector of an identifier without a node: loading forgets its number, the rows keep it. *)
Definition with_vector : memory := replay no_rows no_controls
  [(1, EvNode (sample_node "a" 1 "p"));
   (2, EvVector {| ve_node_id := "c"; ve_collection := None; ve_embedding := [f64_zero]; ve_lang := None;
                   ve_clock := {| lc_time := 2; lc_peer_id := "q" |} |})].
Definition loaded_again : option memory :=
  match save_maps (fun _ n => Ok n) with_vector with
  | Ok f => load_maps f (empty_memory (colls with_vector) no_controls)
  | Err _ => None
  end.
Example number_given_again :
  get_u32 with_vector "c" = Some 1 /\ coll_members (colls with_vector) = [("default"%string, [1])] /\
  match loaded_again with
  | Some s =>
      let s' := apply_event_memory false 3 (EvNode (sample_node "d" 3 "p")) s in
      get_u32 s' "c" = None /\ get_u32 s' "d" = Some 1 /\
      vector_entry s' "default" 1 = Some (root_entry [str_bytes "V"; str_bytes "default"; str_bytes "d"])
  | None => False
  end.
Proof. by vm_compute. Qed.

(** *** Values that are not numbers *)

(** A batch takes an embedding that the single calls refuse. *)
Definition nan_args : NodeInput :=
  {| ni_id := Some "a"%string; ni_labels := ["L"%string]; ni_props := None; ni_embedding := Some [S754_nan];
     ni_lang := None; ni_valid_from := None; ni_caused_by := None; ni_ttl := None; ni_collection := None |}.
Example batch_takes_nan :
  let d := new_store no_rows no_controls (answered 2) in
  (add_node sample_cfg nan_args d).1 = Err (Raised "VECTOR_VALUES_INVALID") /\
  match (execute_batch sample_cfg [nan_args] [] d).1 with
  | Ok (ns, _) => no_embedding <$> ns = [Some [S754_nan]]
  | Err _ => False
  end.
Proof. by vm_compute. Qed.
